(* ===== verification/_CoqProject ===== *)
-Q . S2P
Prelude.v
Codec.v
Float64.v
StorageSpec.v
StorageMemory.v
StorageFs.v
StorageSqlite.v
StorageHttp.v
StorageBackends.v
WindowCache.v
AggregateState.v
WindowHandlers.v
CacheControl.v
ResultCache.v
Aead.v
SplitToken.v
Retry.v
AttachTicket.v
AttachSeal.v
Arrow.v
ArrowModel.v
SqlCompare.v
Pushdown.v
PushdownParse.v
PushdownEval.v
PushdownPruning.v
PushdownRow.v
PushdownDomain.v
PushdownSound.v
PushdownMatch.v
PushdownDelta.v
PushdownReplay.v
PushdownViews.v
Ipc.v
Arguments.v
Overload.v
Registry.v
RegistryFacts.v
Opaque.v
OpaqueFacts.v
Location.v
Pool.v
PoolFacts.v
CatalogContents.v
StoredCatalog.v
StoredCatalogFacts.v
SqlExpression.v
SqlExpressionFacts.v
SqlPrint.v
Wire.v
CatalogCollections.v
CatalogCollectionsFacts.v
ConstraintRecord.v
Constraints.v
ConstraintsFacts.v
ColumnExpressions.v
CatalogModel.v
CatalogModelFacts.v
ClientArguments.v
ClientScan.v
ClientScanFacts.v
ClientExchange.v
ClientExchangeFacts.v
ClientPlan.v
ClientPlanFacts.v
DiskIo.v
DiskCache.v
DiskCacheLeases.v
DiskCacheFacts.v
DiskCacheStore.v
DiskCacheAdmission.v
DiskCacheCommit.v
DiskCacheRoundtrip.v
Threads.v
Publication.v
PublicationFacts.v
PublicationGates.v
PublicationS3.v
PublicationS3Facts.v
