(* ===== verification/Prelude.v ===== *)
(** * A verification of vgi-rust

    VGI lets a database call functions that live in a worker process.  The
    repository holds the worker SDK ([vgi/]), the client ([vgi-client/]), the
    wire types both share ([vgi-protocol/]) and a storage service for workers
    that run on several machines ([vgi-storage-server/]).  A query becomes RPC
    calls to a worker; the worker's dispatcher keeps what a call must leave for
    the next one (aggregate states, window partitions, rows to drain) in a
    [FunctionStorage] backend, in front of which it caches decoded window
    partitions; what a client must carry between calls is handed to it as a
    sealed token; the client caches results under the directives the worker
    sends and retries what it may retry.

    ** Files

    - [Prelude]: [Result] and its [let?], bytes and little-endian integers,
      decimal printing and parsing as [format!] and [str::parse] do them, sums
      over finite maps, list lemmas, the hint database [vgi].
    - [Codec]: self-delimiting encodings, closed under pairs, lists and
      options; a concatenation of them is injective.
    - [Float64]: [f64] as the executable binary64 of [SpecFloat].
    - [StorageSpec] (vgi/src/storage/mod.rs): the trait as the class
      [FunctionStorage]; the abstract store [view] (a key/value map, append-only
      logs, FIFO queues), equal up to pointwise equality; the class
      [StorageLaws] by which a backend implements it.
    - [StorageMemory] (memory.rs), [StorageFs] (fs.rs), [StorageSqlite]
      (sqlite.rs): the local backends and their instances of [StorageLaws].  A
      SQLite statement may fail, so the log-and-degrade branches are in the
      model; [StorageFs] has a model of the [std::fs] calls, and
      [StorageFs.Poppers] interleaves the calls of concurrent [queue_pop]s.
    - [StorageHttp] (storage/http.rs and vgi-storage-server/src/main.rs): the
      wire operations, the client with its retries, the server's handler with
      its idempotency map, a network that loses requests and replies, and the
      handler split at its lock boundaries.  [StorageBackends] puts the local
      backends side by side.
    - [AggregateState] (vgi/src/dispatch.rs, aggregate.rs): the FINALIZE drain
      with its resume tokens, the aggregate bind, update, combine, finalize and
      destructor handlers, and the streaming state map.
    - [WindowCache] (vgi/src/window_cache.rs): accounting, LRU order, eviction,
      generations.
    - [WindowHandlers] (vgi/src/dispatch.rs): the window handlers over a backend
      and that cache.
    - [CacheControl] (vgi-protocol/src/cache_control.rs): the cache directives.
    - [ResultCache] (vgi-client/src/cache.rs): keys, admission, freshness,
      lookup, revalidation, flushing, caps; [LimitsLock] is its lock order.
    - [Aead]: the authenticated encryption of [vgi_rpc::crypto] as the classes
      [Aead] and [AeadLaws], with an instance.
    - [SplitToken] (vgi/src/split_token.rs): the split-token envelope.
    - [Retry] (vgi-client/src/retry.rs): classification, [Retry-After], backoff,
      the retry loop, the method list.
    - [AttachTicket] (vgi/src/attach_ticket.rs): the ticket payload, minting and
      opening.  [AttachSeal] (attach_ticket.rs, and the option declarations of
      catalog.rs and dispatch.rs): sealing an attach and redeeming it.

    - [Arrow], [ArrowModel], [Ipc]: Arrow's types, arrays, schemas and batches as
      data; its compute kernels as the class [Arrow] with [ArrowLaws] and an
      instance; the IPC helpers (vgi-protocol/src/ipc.rs) over the class [IpcStream].
    - [SqlCompare] (vgi/src/pushdown/comparison.rs): SQL comparison of arrays.
    - [Pushdown], [PushdownParse], [PushdownEval], [PushdownDelta], [PushdownViews]
      (vgi/src/pushdown.rs) and [PushdownPruning] (pushdown/pruning.rs): pushed
      filters, their parser, evaluator, dynamic deltas with the compacted history,
      convenience views, and the domains that prune; [PushdownRow],
      [PushdownDomain], [PushdownSound], [PushdownMatch] and [PushdownReplay] hold
      their theorems.
    - [Arguments] (vgi/src/arguments.rs), [Overload] (overload.rs), [Registry]
      (function.rs and the registry of dispatch.rs; theorems in [RegistryFacts]):
      from a call's argument blob to the function that serves it, and the function
      listings with their cache.
    - [Opaque] (vgi/src/opaque.rs; theorems in [OpaqueFacts]): attach and
      transaction values sealed for the client that holds them.
    - [Location] (vgi-client/src/location.rs) and [Pool] (pool.rs; theorems in
      [PoolFacts]): where a worker is, and the idle connections to it.
    - [CatalogContents] (vgi/src/catalog_contents.rs): validating a catalog
      snapshot and shaping the wire response.  [StoredCatalog]
      (stored_catalog.rs): catalogs whose state is a replayed event log in a
      storage backend; [StoredCatalogFacts] has the abstract catalog they refine.
    - [SqlExpression] (vgi/src/sql_expression.rs): the tokenizer, the parser and
      the CHECK and generated-column grammars; theorems in [SqlExpressionFacts];
      [SqlPrint] has the grammar with its precedences and reads its sentences.
    - [Wire] (vgi-protocol/src/wire.rs, protocol/dtos.rs, vgi-client/src/wire_call.rs):
      DTOs as batches, the result envelope, typed calls, columns older peers omit.
    - [ConstraintRecord] (vgi-protocol/src/constraints.rs) and [Constraints]
      (vgi/src/constraints.rs; theorems in [ConstraintsFacts]): the constraint records
      of a table, their codec, the checks of serving and the capability agreement.
    - [ColumnExpressions] (vgi/src/column_expressions.rs, column_metadata.rs): the
      carriers of generated columns and the rules of fields at any depth.
    - [CatalogModel] (vgi/src/catalog.rs; theorems in [CatalogModelFacts]): declarative
      catalogs: the description of a table, required filters, time travel, macros,
      version specs.
    - The client's disk cache (vgi-client/src/disk_cache.rs): [DiskIo] is its file
      tree, locks and failing system calls as an error and state monad with [wp]
      rules; [DiskCache] the operations and instances of their
      parameters; [DiskCacheLeases] processes that interleave; [DiskCacheFacts]
      lookups; [DiskCacheStore] refs and publication; [DiskCacheAdmission] room and
      reaping; [DiskCacheCommit] and [DiskCacheRoundtrip] captures from first batch
      to lookup.
    - [CatalogCollections] (vgi-protocol/src/catalog.rs; theorems in
      [CatalogCollectionsFacts]): catalog metadata as streams of batches, and the
      client's grouping of a [catalog_contents] response by schema.
    - [Threads]: programs as trees of calls, threads of them over shared state, and
      the rules for safety and invariants of a pool.
    - [Publication] (vgi/src/catalog_snapshot.rs): manifests, the checks of published
      objects, the manager's programs with its gates and cache, the policy;
      [PublicationFacts] and [PublicationGates] hold the theorems and a run.  [PublicationS3] (catalog_snapshot_s3.rs): the S3 repository over a
      store with conditional writes; [PublicationS3Facts] has the atomic repository
      it refines and a race of two commits.
    - [ClientArguments] (vgi-client/src/args.rs): the builders of a call's arguments
      and their blob, composed with the worker's parser.
    - [ClientScan] (vgi-client/src/scan.rs over the traits of transport.rs; theorems in
      [ClientScanFacts]): binds, init requests and scans from open to drop.
      [ClientPlan] (scan.rs; theorems in [ClientPlanFacts]): paginated split planning
      and the validation of what a plan claims.  [ClientExchange]
      (vgi-client/src/exchange.rs, vgi/src/table_in_out.rs; theorems in
      [ClientExchangeFacts]): exchanges with continued output, the finalize phases and
      the provenance of answers.

    ** How the code is represented

    A method that takes [&self] and a lock is a function from the state to its
    answer and the new state; a method whose lock is released in between is a
    step relation where the interleaving matters ([StorageHttp.hstep],
    [ResultCache.LimitsLock]).  [Result] is [result], a panic is a value of its
    own where the source can reach one.  Machine integers are [Z] with the wrap
    or saturation of the release profile written out; instants and durations are
    nanoseconds.  HashMap is [gmap], Vec is [list], String is [string] holding
    UTF-8 bytes.  Code that is not in the repository is a parameter with the
    laws it is used for: Arrow and its IPC codec, bincode, base64, SHA-256, the
    AEAD, chrono, the worker author's functions.  Randomness, clocks, sleeps and
    the network are arguments.

    ** What the theorems show

    - Storage: the three local backends, started empty, run operations on
      non-empty scopes as the abstract store does, as long as ids and, on disk, file
      names fit; a batch append equals its single appends; failing statements keep
      the SQLite invariant, and what a batch append does under them is exact;
      garbage collection drops what is old and only that; concurrent claims of
      file-system queue items neither lose nor repeat one.  On the storage server,
      with its handlers interleaved, a keyed request whose attempts do not overlap is
      applied at most once and every attempt is answered by that application (and a
      schedule of overlapping attempts applies an operation twice).
    - Aggregates: updates, combines and finalize over storage compute the fold of
      the author's functions over the rows of each group; the FINALIZE drain
      yields the persisted rows once, in order, across any number of resumptions,
      and a shortfall is an error and never a silent end; the state map survives
      its round trip and a truncated one gives a part of it.
    - Window cache: it never exceeds its caps and its byte count is exact; a
      stale fill is refused; with it in front, every window call answers what
      storage alone would.
    - Result cache: a hit is the latest unflushed insert of its key and is fresh;
      caps hold; flushing one scope leaves the others; keys encode injectively;
      only admissible results are stored.
    - Tokens: split tokens and attach tickets open exactly when they were made
      with the key (up to the cipher's normalization), for the caller (up to its
      identity tail), from the contents returned; a sealed attach
      is restored on redemption and satisfies the catalog's required options.
    - Pushdown: a filter evaluates to SQL's row-at-a-time semantics; no row the
      filters accept is pruned by a column domain, a bound or [may_match], as long as
      [IS NULL] is asked only of struct fields with a validity buffer; replaying the
      compacted delta history rebuilds the live filters, when the deltas that
      changed them are also good for the initial ones.
    - Resolution: a qualified call resolves within its schema, a function is
      advertised exactly where it is a candidate among those of its kind, the best
      overload wins, and the listing cache cannot be observed; argument blobs
      round-trip.
    - Opaque values: a request opens exactly when everything sealed in it was sealed
      for its caller, and minted values reopen.
    - Client: a command line quotes back to its arguments; a pooled connection is
      exclusive and holds its caller's own credentials.
    - Catalogs: a replayed log is the abstract catalog its events describe, a DDL
      call does what the abstract catalog does, sessions are private, snapshots are
      complete, and every [catalog_contents] answer obeys the wire rules.
    - SQL expressions: the parser always answers within the source's own nesting
      bound and reads every sentence of the grammar by its precedences; the
      generated-column check accepts exactly the trees of its grammar.
    - Typed calls return what the worker's function answers; a listing its items.
    - Constraints: records round-trip; a table's records pass exactly when they are
      well formed together; the nullability clients see is the set of claimed paths;
      foreign keys are closed within a schema.  A described table's constraints and
      generated columns agree; version specs, AT clauses, required filters and
      macros mean what they say.
    - Disk cache: what a committed capture wrote is what a lookup returns, batch for
      batch; a lookup serves only what hashes to its ref; while no read fails,
      every ref still names a whole object of its own and a commit respects the caps; no interleaving of processes removes an object under a lease; reaping
      without faults leaves no orphan and no expired entry.
    - Publication: a client reads back the snapshot a response was shaped from; a
      delivered reference leads to a complete snapshot of the identity last
      reported, in every interleaving and against any repository that answers a
      commit with a manifest committed under its id; a key's gate admits one call at
      a time; the S3 repository is atomic under lost replies and
      conflicts.
    - Client calls: the worker reads the arguments a client built; a scan returns the
      projection of the worker's table and no filter-only column; scans and exchanges
      end their stream once, whatever is done with them, and give back a reusable
      connection exactly when nothing failed; an exchange without failures speaks only
      words of its protocol; a plan holds every split of every page its worker named,
      or is an error, and planning always ends.
    - Retry: the loop ends within the attempt cap and the sleep budget and honours
      [Retry-After] as a floor; [days_from_civil] is the Gregorian calendar.
    - Faults of the code are theorems too: overlapping idempotent attempts, an
      ambiguous fingerprint, a retry list that admits catalog mutations, expiry
      and deadline arithmetic that overflows, a lock order that can deadlock, the
      empty scope and long keys of the file-system backend, rows pruned through a
      struct field without a validity buffer, and gates left in the map.

    ** Fuel

    [dec_digits] has the bit length of its argument, more than its digits;
    [de_loop] the buffer's length, and every entry consumes bytes; [enforce_loop]
    one more than the entries, and every turn removes one
    ([ResultCache.enforce_loop_spec]); [Retry.run] one more than the attempt cap,
    and every turn is an attempt; [StorageFs.create_from] one more than the nodes
    of the tree, whose names differ; [Opaque.open_batch] the nesting depth it is given,
    which the theorem quantifies over; [StoredCatalog.visit] the depth the source
    itself refuses to pass; the trimming loops the length of their text. The
    SQL tokenizer has the length of its text, the parser's loops one turn per token
    and one more; its nesting bound is the source's own. [DiskCache.make_room_loop] has
    one turn more than there are refs and each removes one
    ([DiskCacheAdmission.wp_make_room_loop]); [write_replace_loop] has the source's
    own four tries. [CatalogCollections.build_batches] has
    the number of values, each batch takes at least one
    ([CatalogCollectionsFacts.build_batches_total]); the loops of [Publication] and
    [PublicationS3] have the source's own three and eight turns. [ClientScan.next_loop]
    and [collect_loop] have the ticks and batches the theorem quantifies over, as an
    endless stream of empty batches never ends; [ClientPlan.plan_loop] has one more
    than the page cap ([ClientPlanFacts.plan_answers]).
    The theorems state results, so a model that
    ran out of fuel would refute them.

    ** Not modelled

    Start-up, transports, OAuth, process launching, Arrow serialization and
    generated wire types, which are glue around libraries; the example worker; and,
    as further work, the client's
    catalog calls, the creation of private cache directories, and the
    remaining handlers of the dispatcher, among them how [handle_bind] picks the
    registry of a call. *)
From stdpp Require Export base gmap strings list sorting.
From Stdlib Require Export ZArith Lia.
From Stdlib Require Export Strings.Byte.
From Stdlib Require Export Ascii.

#[global] Set Default Goal Selector "!".

Declare Scope vgi_scope.
Delimit Scope vgi_scope with vgi.
#[global] Open Scope vgi_scope.


(** * Results *)

(** [Result<A, E>]. *)
Inductive result (A E : Type) : Type :=
| Ok (a : A)
| Err (e : E).
Arguments Ok {A E} a.
Arguments Err {A E} e.

(** The [?] operator. *)
Notation "'let?' x ':=' e 'in' k" :=
  (match e with Ok x => k | Err err => Err err end)
  (at level 10, x pattern, e at level 100, k at level 200) : vgi_scope.

Definition is_ok {A E} (r : result A E) : bool :=
  match r with Ok _ => true | Err _ => false end.

Definition map_err {A E F} (f : E → F) (r : result A E) : result A F :=
  match r with Ok a => Ok a | Err e => Err (f e) end.

(** * Bytes *)

(** A [u8]; [Vec<u8>] and [&[u8]] are [list byte]. *)
Abbreviation bytes := (list byte).

#[global] Instance byte_eq_dec : EqDecision byte.
Proof. intros a b. destruct (Byte.byte_eq_dec a b); [left|right]; done. Defined.

#[global] Program Instance byte_countable : Countable byte :=
  inj_countable Byte.to_N Byte.of_N _.
Next Obligation. intros b. apply Byte.of_to_N. Qed.

Definition Z_of_byte (b : byte) : Z := Z.of_N (Byte.to_N b).

(** Truncation of an integer to its low eight bits. *)
Definition byte_of_Z (z : Z) : byte :=
  default x00 (Byte.of_N (Z.to_N (z mod 256))).

(** [str::as_bytes]: a Rust string is modelled by its UTF-8 bytes. *)
Definition as_bytes (s : string) : bytes := String.list_byte_of_string s.

Definition string_of_bytes (l : bytes) : string := String.string_of_list_byte l.

Lemma as_bytes_inj s t : as_bytes s = as_bytes t → s = t.
Proof.
  intros H. rewrite <- (String.string_of_list_byte_of_string s),
    <- (String.string_of_list_byte_of_string t). unfold as_bytes in H. by rewrite H.
Qed.

Lemma string_of_as_bytes s : string_of_bytes (as_bytes s) = s.
Proof. apply String.string_of_list_byte_of_string. Qed.

Lemma as_bytes_of_bytes l : as_bytes (string_of_bytes l) = l.
Proof. apply String.list_byte_of_string_of_list_byte. Qed.

Lemma as_bytes_app s t : as_bytes (s +:+ t) = as_bytes s ++ as_bytes t.
Proof.
  induction s as [|a s IH]; [done|].
  change (Ascii.byte_of_ascii a :: as_bytes (s +:+ t) =
          Ascii.byte_of_ascii a :: (as_bytes s ++ as_bytes t)). by rewrite IH.
Qed.

Lemma string_length_app (a b : string) : String.length (a +:+ b) = (String.length a + String.length b)%nat.
Proof. induction a as [|c a IH]; [done|]. exact (f_equal S IH). Qed.

Lemma length_as_bytes s : length (as_bytes s) = String.length s.
Proof.
  unfold as_bytes, String.list_byte_of_string.
  rewrite length_map. induction s; simpl; congruence.
Qed.

Lemma Z_of_byte_range b : (0 ≤ Z_of_byte b < 256)%Z.
Proof. unfold Z_of_byte. pose proof (Byte.to_N_bounded b). lia. Qed.

Lemma Z_of_byte_of_Z z : Z_of_byte (byte_of_Z z) = (z mod 256)%Z.
Proof.
  unfold Z_of_byte, byte_of_Z.
  pose proof (Z.mod_pos_bound z 256 eq_refl) as Hr.
  destruct (Byte.of_N _) as [b|] eqn:E; simpl.
  - apply Byte.to_of_N in E. rewrite E. lia.
  - apply Byte.of_N_None_iff in E. lia.
Qed.

Lemma byte_of_Z_of_byte b : byte_of_Z (Z_of_byte b) = b.
Proof.
  unfold byte_of_Z. rewrite Z.mod_small by apply Z_of_byte_range.
  unfold Z_of_byte. rewrite N2Z.id, Byte.of_to_N. done.
Qed.

Lemma Z_of_byte_inj a b : Z_of_byte a = Z_of_byte b → a = b.
Proof. intros H. rewrite <- (byte_of_Z_of_byte a), H. apply byte_of_Z_of_byte. Qed.

(** * Little-endian integers *)

(** [to_le_bytes] of an [8 * n]-bit integer, signed or not. *)
Fixpoint le_bytes (n : nat) (z : Z) : bytes :=
  match n with
  | O => []
  | S n => byte_of_Z z :: le_bytes n (z / 256)
  end.

(** [from_le_bytes] of an unsigned integer. *)
Fixpoint le_val (l : bytes) : Z :=
  match l with
  | [] => 0
  | b :: l => Z_of_byte b + 256 * le_val l
  end.

(** Two's-complement reading of a [w]-bit pattern. *)
Definition to_signed (w z : Z) : Z :=
  if (z <? 2 ^ (w - 1))%Z then z else (z - 2 ^ w)%Z.

(** Wrap-around of an arbitrary result into [i64]. *)
Definition wrap_i64 (z : Z) : Z := to_signed 64 (z mod 2 ^ 64).

Definition i64_range (z : Z) : Prop := (- 2 ^ 63 ≤ z < 2 ^ 63)%Z.
Definition u64_max : Z := 2 ^ 64 - 1.
Definition usize_max : Z := 2 ^ 64 - 1.

Definition le_i64 (l : bytes) : Z := to_signed 64 (le_val l).

Lemma length_le_bytes n z : length (le_bytes n z) = n.
Proof. revert z; induction n; intros; simpl; [done | by rewrite IHn]. Qed.

Lemma le_val_bytes n z : le_val (le_bytes n z) = (z mod 256 ^ Z.of_nat n)%Z.
Proof.
  revert z. induction n as [|n IH]; intros z; cbn [le_bytes le_val].
  { change (256 ^ Z.of_nat 0)%Z with 1%Z. by rewrite Z.mod_1_r. }
  rewrite IH, Z_of_byte_of_Z, Nat2Z.inj_succ, Z.pow_succ_r by lia.
  rewrite Z.rem_mul_r by lia. lia.
Qed.

Lemma le_val_range l : (0 ≤ le_val l < 256 ^ Z.of_nat (length l))%Z.
Proof.
  induction l as [|b l IH]; cbn [le_val length]; [lia|].
  pose proof (Z_of_byte_range b).
  rewrite Nat2Z.inj_succ, Z.pow_succ_r by lia. lia.
Qed.

Lemma le_bytes_val l : le_bytes (length l) (le_val l) = l.
Proof.
  induction l as [|b l IH]; cbn [le_bytes le_val length]; [done|].
  pose proof (Z_of_byte_range b) as Hb.
  f_equal.
  - apply Z_of_byte_inj. rewrite Z_of_byte_of_Z.
    rewrite Z.mul_comm, Z.mod_add by lia. by apply Z.mod_small.
  - rewrite Z.mul_comm, Z.div_add, Z.div_small by lia. done.
Qed.

Lemma le_bytes_inj n x y :
  (0 ≤ x < 256 ^ Z.of_nat n)%Z → (0 ≤ y < 256 ^ Z.of_nat n)%Z →
  le_bytes n x = le_bytes n y → x = y.
Proof.
  intros Hx Hy H. apply (f_equal le_val) in H.
  rewrite !le_val_bytes, !Z.mod_small in H by done. done.
Qed.

Lemma wrap_i64_id z : i64_range z → wrap_i64 z = z.
Proof.
  unfold i64_range, wrap_i64, to_signed. intros H.
  destruct (Z.lt_ge_cases z 0).
  - rewrite (Z.mod_eq z (2 ^ 64)) by lia.
    replace (z / 2 ^ 64)%Z with (-1)%Z.
    { destruct (Z.ltb_spec (z - 2 ^ 64 * -1) (2 ^ (64 - 1)))%Z; lia. }
    apply Z.div_unique with (z + 2 ^ 64)%Z; lia.
  - rewrite Z.mod_small by lia.
    destruct (Z.ltb_spec z (2 ^ (64 - 1)))%Z; lia.
Qed.

Lemma le_i64_bytes z : i64_range z → le_i64 (le_bytes 8 z) = z.
Proof.
  intros H. unfold le_i64. rewrite le_val_bytes.
  change (256 ^ Z.of_nat 8)%Z with (2 ^ 64)%Z. by apply wrap_i64_id.
Qed.

Lemma le_i64_range l : length l = 8%nat → i64_range (le_i64 l).
Proof.
  intros H. pose proof (le_val_range l) as Hr. rewrite H in Hr.
  change (256 ^ Z.of_nat 8)%Z with (2 ^ 64)%Z in Hr.
  unfold le_i64, to_signed, i64_range.
  destruct (Z.ltb_spec (le_val l) (2 ^ (64 - 1)))%Z; lia.
Qed.

Lemma le_bytes_of_i64 l : length l = 8%nat → le_bytes 8 (le_i64 l) = l.
Proof.
  intros H. pose proof (le_val_range l) as Hr. rewrite H in Hr.
  pose proof (le_bytes_val (le_bytes 8 (le_i64 l))) as E.
  rewrite length_le_bytes, le_val_bytes in E. rewrite <- E.
  assert (le_i64 l mod 256 ^ Z.of_nat 8 = le_val l)%Z as ->.
  { change (256 ^ Z.of_nat 8)%Z with (2 ^ 64)%Z in *. unfold le_i64, to_signed.
    destruct (Z.ltb_spec (le_val l) (2 ^ (64 - 1)))%Z; [apply Z.mod_small; lia|].
    replace (le_val l - 2 ^ 64)%Z with (le_val l + (-1) * 2 ^ 64)%Z by lia.
    rewrite Z_mod_plus_full. apply Z.mod_small. lia. }
  pose proof (le_bytes_val l) as E2. by rewrite H in E2.
Qed.

(** * Decimal text of integers *)

Definition digit_char (d : Z) : ascii := Ascii.ascii_of_N (Z.to_N (48 + d)).

(** The value of an ASCII digit ([char::to_digit]). *)
Definition digit_of (c : ascii) : option Z :=
  let n := Z.of_N (Ascii.N_of_ascii c) in
  if (48 <=? n)%Z && (n <=? 57)%Z then Some (n - 48)%Z else None.

Definition is_ascii_digit (c : ascii) : bool :=
  match digit_of c with Some _ => true | None => false end.

(** Digits of [n], most significant first, pushed in front of [acc]. *)
Fixpoint dec_digits (fuel : nat) (n : Z) (acc : string) : string :=
  match fuel with
  | O => acc
  | S fuel =>
      let acc := String (digit_char (n mod 10)) acc in
      if (n / 10 =? 0)%Z then acc else dec_digits fuel (n / 10) acc
  end.

(** Decimal text of a non-negative integer. *)
Definition dec_nonneg (n : Z) : string :=
  dec_digits (S (Z.to_nat (Z.log2 n))) n "".

(** [i64::to_string]. *)
Definition Z_to_string (z : Z) : string :=
  if (z <? 0)%Z then String "-"%char (dec_nonneg (- z)) else dec_nonneg z.

(** [{id:020}] of a non-negative integer. *)
Definition pad020 (z : Z) : string :=
  let d := Z_to_string z in
  String.append (String.concat "" (repeat "0" (20 - String.length d))) d.

(** The value of a run of digits, [None] at the first other character. *)
Fixpoint digits_val (acc : Z) (s : string) : option Z :=
  match s with
  | EmptyString => Some acc
  | String c s =>
      match digit_of c with
      | Some d => digits_val (10 * acc + d) s
      | None => None
      end
  end.

Definition parse_digits (s : string) : option Z :=
  match s with EmptyString => None | _ => digits_val 0 s end.

Definition in_range (lo hi : Z) (o : option Z) : option Z :=
  match o with
  | Some v => if (lo <=? v)%Z && (v <=? hi)%Z then Some v else None
  | None => None
  end.

(** [str::parse::<i64>]: one optional sign, at least one digit, in range. *)
Definition parse_i64 (s : string) : option Z :=
  in_range (- 2 ^ 63) (2 ^ 63 - 1)
    match s with
    | String c r =>
        if Ascii.eqb c "-" then Z.opp <$> parse_digits r
        else if Ascii.eqb c "+" then parse_digits r
        else parse_digits s
    | EmptyString => None
    end.

(** [str::parse] for an unsigned type of maximum [hi]. *)
Definition parse_unsigned (hi : Z) (s : string) : option Z :=
  in_range 0 hi
    match s with
    | String c r => if Ascii.eqb c "+" then parse_digits r else parse_digits s
    | EmptyString => None
    end.

Lemma digit_of_char d : (0 ≤ d < 10)%Z → digit_of (digit_char d) = Some d.
Proof.
  intros H. assert (Ascii.N_of_ascii (digit_char d) = Z.to_N (48 + d)) as E.
  { apply Ascii.N_ascii_embedding. lia. }
  unfold digit_of. rewrite E, Z2N.id by lia.
  destruct (Z.leb_spec 48 (48 + d)), (Z.leb_spec (48 + d) 57); simpl; f_equal; lia.
Qed.

Lemma digits_val_dec fuel n s :
  (0 ≤ n < 2 ^ Z.of_nat fuel)%Z →
  digits_val 0 (dec_digits fuel n s) = digits_val n s.
Proof.
  revert n s. induction fuel as [|f IH]; intros n s Hn; cbn [dec_digits].
  { change (2 ^ Z.of_nat 0)%Z with 1%Z in Hn. by replace n with 0%Z by lia. }
  pose proof (Z.mod_pos_bound n 10 eq_refl).
  rewrite Nat2Z.inj_succ, Z.pow_succ_r in Hn by lia.
  pose proof (Z.div_mod n 10 ltac:(lia)).
  destruct (Z.eqb_spec (n / 10) 0).
  - cbn [digits_val]. rewrite digit_of_char by lia. f_equal. lia.
  - rewrite IH by (split; [apply Z.div_pos; lia | apply Z.div_lt_upper_bound; lia]).
    cbn [digits_val]. rewrite digit_of_char by lia. f_equal. lia.
Qed.

Lemma log2_fuel n : (0 ≤ n)%Z → (0 ≤ n < 2 ^ Z.of_nat (S (Z.to_nat (Z.log2 n))))%Z.
Proof.
  intros H. pose proof (Z.log2_nonneg n). rewrite Nat2Z.inj_succ, Z2Nat.id by lia.
  destruct (Z.eq_dec n 0) as [->|]; [done|]. split; [done|].
  apply Z.log2_spec. lia.
Qed.

Lemma dec_digits_head f n t :
  (0 ≤ n)%Z → ∃ d r, (0 ≤ d < 10)%Z ∧ dec_digits (S f) n t = String (digit_char d) r.
Proof.
  revert n t. induction f as [|f IH]; intros n t Hn.
  - cbn [dec_digits]. pose proof (Z.mod_pos_bound n 10 eq_refl).
    destruct (n / 10 =? 0)%Z; eexists _, _; eauto.
  - remember (S f) as g. cbn [dec_digits]. pose proof (Z.mod_pos_bound n 10 eq_refl).
    destruct (n / 10 =? 0)%Z; [eexists _, _; eauto|].
    apply IH. apply Z.div_pos; lia.
Qed.

Lemma digits_val_nonneg n : (0 ≤ n)%Z → digits_val 0 (dec_nonneg n) = Some n.
Proof. intros H. unfold dec_nonneg. by rewrite digits_val_dec by by apply log2_fuel. Qed.

Lemma dec_nonneg_head n :
  (0 ≤ n)%Z → ∃ d r, (0 ≤ d < 10)%Z ∧ dec_nonneg n = String (digit_char d) r.
Proof. apply dec_digits_head. Qed.

Lemma parse_digits_dec n : (0 ≤ n)%Z → parse_digits (dec_nonneg n) = Some n.
Proof.
  intros H. pose proof (digits_val_nonneg n H) as E.
  destruct (dec_nonneg_head n H) as (d & r & Hd & Heq). by rewrite Heq in E |- *.
Qed.

Lemma digit_char_eqb d c :
  (0 ≤ d < 10)%Z → digit_of c = None → Ascii.eqb (digit_char d) c = false.
Proof.
  intros Hd Hc. apply Ascii.eqb_neq. intros <-. by rewrite digit_of_char in Hc.
Qed.

Lemma in_range_Some lo hi v : (lo ≤ v ≤ hi)%Z → in_range lo hi (Some v) = Some v.
Proof.
  intros H. unfold in_range.
  by rewrite (proj2 (Z.leb_le lo v)), (proj2 (Z.leb_le v hi)) by lia.
Qed.

(** Parsing the text of an [i64] gives it back. *)
Lemma parse_i64_to_string z : i64_range z → parse_i64 (Z_to_string z) = Some z.
Proof.
  unfold i64_range. intros H. unfold Z_to_string, parse_i64.
  destruct (Z.ltb_spec z 0).
  - rewrite Ascii.eqb_refl, parse_digits_dec by lia. simpl.
    rewrite Z.opp_involutive. apply in_range_Some; lia.
  - pose proof (parse_digits_dec z ltac:(lia)) as E.
    destruct (dec_nonneg_head z ltac:(lia)) as (d & r & Hd & Heq). rewrite Heq in *.
    rewrite !digit_char_eqb by done. rewrite E. apply in_range_Some; lia.
Qed.

Lemma parse_unsigned_to_string hi z :
  (0 ≤ z ≤ hi)%Z → parse_unsigned hi (Z_to_string z) = Some z.
Proof.
  intros H. unfold Z_to_string, parse_unsigned.
  destruct (Z.ltb_spec z 0); [lia|].
  pose proof (parse_digits_dec z ltac:(lia)) as E.
  destruct (dec_nonneg_head z ltac:(lia)) as (d & r & Hd & Heq). rewrite Heq in *.
  rewrite digit_char_eqb by done. rewrite E. apply in_range_Some; lia.
Qed.

Lemma digits_val_zeros n s :
  digits_val 0 (String.append (String.concat "" (repeat "0" n)) s) = digits_val 0 s.
Proof.
  induction n as [|n IH]; [done|]. destruct n; [done|].
  cbn [repeat String.concat] in *. cbn. exact IH.
Qed.

(** A zero-padded file name parses back to the id it was printed from. *)
Lemma parse_i64_pad020 z : (0 ≤ z < 2 ^ 63)%Z → parse_i64 (pad020 z) = Some z.
Proof.
  intros H. unfold pad020. set (n := (20 - _)%nat).
  assert (Z_to_string z = dec_nonneg z) as Hz.
  { unfold Z_to_string. destruct (Z.ltb_spec z 0); [lia|done]. }
  pose proof (digits_val_zeros n (Z_to_string z)) as E.
  rewrite Hz, digits_val_nonneg in E by lia.
  destruct (dec_nonneg_head z ltac:(lia)) as (d & r & Hd & Heq).
  rewrite Hz. unfold parse_i64. destruct n as [|n].
  - cbn [repeat String.concat String.append] in *. rewrite Heq in *.
    change (String.append "" (String (digit_char d) r)) with (String (digit_char d) r) in *.
    cbv beta iota. rewrite !digit_char_eqb by done.
    cbn [parse_digits]. rewrite E. apply in_range_Some; lia.
  - destruct n; simpl in *; rewrite E; apply in_range_Some; lia.
Qed.

Lemma pad020_inj x y :
  (0 ≤ x < 2 ^ 63)%Z → (0 ≤ y < 2 ^ 63)%Z → pad020 x = pad020 y → x = y.
Proof.
  intros Hx Hy H. apply (f_equal parse_i64) in H.
  rewrite !parse_i64_pad020 in H by done. by simplify_eq.
Qed.

(** * Sums over finite maps *)

Section map_sum.
Context {K V : Type} `{Countable K} (f : V → Z).

(** The sum of [f] over the values of [m]: the byte accounting of the caches. *)
Definition map_sum (m : gmap K V) : Z := map_fold (λ _ v acc, (f v + acc)%Z) 0%Z m.

Lemma map_sum_empty : map_sum ∅ = 0%Z.
Proof. apply map_fold_empty. Qed.

Lemma map_sum_insert_None m k v :
  m !! k = None → map_sum (<[k:=v]> m) = (f v + map_sum m)%Z.
Proof. intros Hk. unfold map_sum. apply (map_fold_insert_L (λ _ v acc, (f v + acc)%Z)); [intros; lia | done]. Qed.

Lemma map_sum_delete m k v :
  m !! k = Some v → map_sum (delete k m) = (map_sum m - f v)%Z.
Proof.
  intros Hk.
  enough (map_sum m = f v + map_sum (delete k m))%Z by lia.
  apply (map_fold_delete_L (λ _ v acc, (f v + acc)%Z)); [intros; lia | done].
Qed.

Lemma map_sum_insert_Some m k v w :
  m !! k = Some w → map_sum (<[k:=v]> m) = (map_sum m - f w + f v)%Z.
Proof.
  intros Hk. rewrite <- insert_delete_eq, map_sum_insert_None by apply lookup_delete_eq.
  rewrite (map_sum_delete m k w) by done. lia.
Qed.

Lemma map_sum_nonneg m : (∀ k v, m !! k = Some v → 0 ≤ f v)%Z → (0 ≤ map_sum m)%Z.
Proof.
  induction m as [|k v m Hk IH] using map_ind; intros Hf; [by rewrite map_sum_empty|].
  rewrite map_sum_insert_None by done.
  assert (0 ≤ f v)%Z by (apply (Hf k); by rewrite lookup_insert_eq).
  enough (0 ≤ map_sum m)%Z by lia.
  apply IH. intros k' v' Hk'. apply (Hf k'). rewrite lookup_insert_ne; [done | congruence].
Qed.

Lemma map_sum_lookup_le m k v :
  (∀ k v, m !! k = Some v → 0 ≤ f v)%Z → m !! k = Some v → (f v ≤ map_sum m)%Z.
Proof.
  intros Hf Hk. enough (0 ≤ map_sum (delete k m))%Z as Hd
    by (rewrite (map_sum_delete _ _ v) in Hd by done; lia).
  apply map_sum_nonneg. intros k' v' [_ Hk']%lookup_delete_Some. eauto.
Qed.
End map_sum.

Lemma size_delete_Some {K V} `{Countable K} (m : gmap K V) k v :
  m !! k = Some v → size m = S (size (delete k m)).
Proof.
  intros Hk. rewrite <- (insert_id m k v Hk) at 1. rewrite <- insert_delete_eq.
  apply map_size_insert_None, lookup_delete_eq.
Qed.

(** Filtering a map by its keys, as [retain] does. *)
Lemma lookup_filter_key {K V} `{Countable K} (Q : K → Prop) `{∀ k, Decision (Q k)}
    (P : K * V → Prop) `{∀ x, Decision (P x)} (m : gmap K V) k :
  (∀ k v, P (k, v) ↔ Q k) →
  filter P m !! k = if decide (Q k) then m !! k else None.
Proof.
  intros HPQ. rewrite map_lookup_filter. destruct (m !! k) as [v|]; simpl.
  - case_guard as HP; simpl; pose proof HP as HQ; rewrite HPQ in HQ;
      by rewrite ?decide_True, ?decide_False by done.
  - by destruct (decide (Q k)).
Qed.

Lemma map_to_list_filter_perm {K V} `{Countable K} (P : K * V → Prop) `{∀ x, Decision (P x)}
    (m : gmap K V) : map_to_list (filter P m) ≡ₚ filter P (map_to_list m).
Proof.
  apply NoDup_Permutation; [apply NoDup_map_to_list|apply NoDup_filter, NoDup_map_to_list|].
  intros [k v]. rewrite list_elem_of_filter, !elem_of_map_to_list, map_lookup_filter_Some. naive_solver.
Qed.

(** * Lists *)

Lemma list_filter_all {A} (P : A → Prop) `{∀ x, Decision (P x)} l :
  Forall P l → filter P l = l.
Proof. induction 1; [done|]. rewrite filter_cons_True by done. by f_equal. Qed.

Lemma list_filter_none {A} (P : A → Prop) `{∀ x, Decision (P x)} l :
  Forall (λ x, ¬ P x) l → filter P l = [].
Proof. induction 1; [done|]. by rewrite filter_cons_False by done. Qed.

Lemma StronglySorted_snoc {A} (R : relation A) l x :
  StronglySorted R l → Forall (λ y, R y x) l → StronglySorted R (l ++ [x]).
Proof.
  intros Hs Hf. apply StronglySorted_app. split_and!; [|done|by repeat constructor].
  intros y z Hy ->%list_elem_of_singleton. by eapply Forall_forall in Hf.
Qed.

Lemma elem_cons_ne {A B} `{EqDecision A} (a b : A) (l : list A) (x y : B) : a ≠ b →
  (if decide (a ∈ b :: l) then x else y) = (if decide (a ∈ l) then x else y).
Proof. intros. apply decide_ext. set_solver. Qed.

(** * Strings *)

(** [str::strip_prefix]. *)
Fixpoint strip_prefix (p s : string) : option string :=
  match p, s with
  | EmptyString, _ => Some s
  | String a p, String b s => if Ascii.eqb a b then strip_prefix p s else None
  | _, EmptyString => None
  end.

Lemma strip_prefix_app p s : strip_prefix p (p +:+ s) = Some s.
Proof.
  induction p as [|a p IH]; [done|].
  change (strip_prefix (String a p) (String a p +:+ s)) with
    (if Ascii.eqb a a then strip_prefix p (p +:+ s) else None).
  by destruct (Ascii.eqb_spec a a).
Qed.

Lemma strip_prefix_Some p s t : strip_prefix p s = Some t → s = p +:+ t.
Proof.
  induction p as [|a p IH] in s |- *; simpl; [by intros [= ->]|].
  destruct s as [|b s]; [done|]. destruct (Ascii.eqb_spec a b) as [->|]; [|done].
  intros E. apply IH in E. by rewrite E.
Qed.

(** * Lexicographic order *)

(** Lexicographic comparison: the order of bytes and of keys. *)
Fixpoint lex (l r : list Z) : comparison :=
  match l, r with
  | [], [] => Eq
  | [], _ => Lt
  | _, [] => Gt
  | a :: l, b :: r => match (a ?= b)%Z with Eq => lex l r | c => c end
  end.

Lemma lex_refl l : lex l l = Eq.
Proof. induction l as [|a l IH]; [done|]. simpl. by rewrite Z.compare_refl. Qed.

Lemma lex_sym l r : lex r l = CompOpp (lex l r).
Proof.
  induction l as [|a l IH] in r |- *; destruct r as [|b r]; try done. simpl.
  rewrite (Z.compare_antisym a b), IH. by destruct (a ?= b)%Z.
Qed.

Lemma lex_trans l m r : lex l m ≠ Gt → lex m r ≠ Gt → lex l r ≠ Gt.
Proof.
  induction l as [|a l IH] in m, r |- *; destruct m as [|b m], r as [|c r]; try done.
  simpl. destruct (Z.compare_spec a b), (Z.compare_spec b c), (Z.compare_spec a c);
    try done; try lia. apply IH.
Qed.

Create HintDb vgi.
#[export] Hint Resolve length_le_bytes le_i64_bytes : vgi.

(** * ASCII case *)

(** [u8::to_ascii_lowercase] and [str::eq_ignore_ascii_case]. *)
Definition ascii_lower (b : byte) : byte :=
  let z := Z_of_byte b in if ((65 <=? z) && (z <=? 90))%Z then byte_of_Z (z + 32) else b.
Definition eq_ignore_ascii_case (a b : string) : bool :=
  bool_decide (ascii_lower <$> as_bytes a = ascii_lower <$> as_bytes b).
