(* ===== verification/Codec.v ===== *)
(** Self-delimiting encodings: an encoder whose output can be followed by
    anything and still be read back in one way only.  The fingerprints, cache
    keys and tokens of the program are concatenations of such encodings; a
    concatenation of self-delimiting encodings is injective. *)
From S2P Require Import Prelude.

Open Scope Z_scope.

Section codec.
Context {A : Type}.

(** [enc] is self-delimiting on the values that satisfy [P]. *)
Definition delimiting (P : A → Prop) (enc : A → bytes) : Prop :=
  ∀ x y r s, P x → P y → enc x ++ r = enc y ++ s → x = y ∧ r = s.

Lemma delimiting_inj P enc x y : delimiting P enc → P x → P y → enc x = enc y → x = y.
Proof.
  intros Hd Hx Hy E. destruct (Hd x y [] []) as [? _]; [done..| |done]. by rewrite E.
Qed.

Lemma delimiting_weaken (P Q : A → Prop) enc :
  (∀ x, Q x → P x) → delimiting P enc → delimiting Q enc.
Proof. intros H Hd x y r s Hx Hy. apply Hd; auto. Qed.
End codec.

(** An encoder followed by another one, on the components of a record. *)
Lemma delimiting_app {A B C : Type} (P : A → Prop) (Q : B → Prop) encA encB
    (f : C → A) (g : C → B) (x y : C) r s :
  delimiting P encA → delimiting Q encB → P (f x) → P (f y) → Q (g x) → Q (g y) →
  encA (f x) ++ encB (g x) ++ r = encA (f y) ++ encB (g y) ++ s →
  f x = f y ∧ g x = g y ∧ r = s.
Proof.
  intros HA HB Hx Hy Hx' Hy' E. apply HA in E as [E1 E]; [|done..].
  apply HB in E as [E2 E3]; [|done..]. done.
Qed.

(** [n.to_le_bytes()] at a fixed width. *)
Lemma delimiting_i64 : delimiting i64_range (le_bytes 8).
Proof.
  intros x y r s Hx Hy E. apply app_inj_1 in E as [E ->]; [|by rewrite !length_le_bytes].
  split; [|done]. apply (f_equal le_i64) in E. by rewrite !le_i64_bytes in E.
Qed.

Lemma delimiting_unsigned n : delimiting (λ x, 0 ≤ x < 256 ^ Z.of_nat n) (le_bytes n).
Proof.
  intros x y r s Hx Hy E. apply app_inj_1 in E as [E ->]; [|by rewrite !length_le_bytes].
  split; [|done]. apply (f_equal le_val) in E. by rewrite !le_val_bytes, !Z.mod_small in E by lia.
Qed.

Definition fits_u64 {A} (l : list A) : Prop := Z.of_nat (length l) < 2 ^ 64.

(** A [u64] length, then the bytes. *)
Definition enc_bytes (value : bytes) : bytes := le_bytes 8 (Z.of_nat (length value)) ++ value.

Lemma delimiting_bytes : delimiting fits_u64 enc_bytes.
Proof.
  intros x y r s Hx Hy E. unfold enc_bytes, fits_u64 in *. rewrite <- !app_assoc in E.
  apply (delimiting_unsigned 8) in E as [El E]; [|lia..].
  apply app_inj_1 in E as [-> ->]; [done|lia].
Qed.

Definition enc_string (value : string) : bytes := enc_bytes (as_bytes value).

Lemma delimiting_string : delimiting (λ s, fits_u64 (as_bytes s)) enc_string.
Proof.
  intros x y r s Hx Hy E. apply delimiting_bytes in E as [E ->]; [|done..].
  by apply as_bytes_inj in E as ->.
Qed.

(** A tag byte, then the payload if there is one. *)
Definition enc_option {A} (enc : A → bytes) (o : option A) : bytes :=
  match o with Some x => x01 :: enc x | None => [x00] end.

Definition option_ok {A} (P : A → Prop) (o : option A) : Prop := from_option P True o.

Lemma delimiting_option {A} (P : A → Prop) enc :
  delimiting P enc → delimiting (option_ok P) (enc_option enc).
Proof.
  intros Hd [x|] [y|] r s Hx Hy; simpl; intros E; simplify_eq; [|done].
  by apply Hd in E as [-> ->].
Qed.

(** A [u64] count, then the elements. *)
Definition enc_list {A} (enc : A → bytes) (l : list A) : bytes :=
  le_bytes 8 (Z.of_nat (length l)) ++ (l ≫= enc).

Lemma delimiting_list {A} (P : A → Prop) enc :
  delimiting P enc → delimiting (λ l, fits_u64 l ∧ Forall P l) (enc_list enc).
Proof.
  intros Hd x y r s [Hx Px] [Hy Py] E. unfold enc_list, fits_u64 in *. rewrite <- !app_assoc in E.
  apply (delimiting_unsigned 8) in E as [El E]; [|lia..].
  assert (length x = length y) as Hl by lia. clear Hx Hy El.
  induction x as [|a x IH] in y, Hl, Px, Py, E |- *; destruct y as [|b y]; simplify_eq/=; [done|].
  apply Forall_cons in Px as [Pa Px]. apply Forall_cons in Py as [Pb Py].
  rewrite <- !app_assoc in E. apply Hd in E as [-> E]; [|done..].
  by apply IH in E as [-> ->].
Qed.

(** Two encodings in a row. *)
Definition enc_pair {A B} (encA : A → bytes) (encB : B → bytes) (p : A * B) : bytes :=
  encA p.1 ++ encB p.2.

Lemma delimiting_pair {A B} (P : A → Prop) (Q : B → Prop) encA encB :
  delimiting P encA → delimiting Q encB →
  delimiting (λ p, P p.1 ∧ Q p.2) (enc_pair encA encB).
Proof.
  intros HA HB [a b] [c d] r s [Pa Qb] [Pc Qd] E. unfold enc_pair in E. simpl in *.
  rewrite <- !app_assoc in E. apply HA in E as [-> E]; [|done..]. by apply HB in E as [-> ->].
Qed.

#[export] Hint Resolve delimiting_i64 delimiting_bytes delimiting_string delimiting_option
  delimiting_list delimiting_pair delimiting_unsigned : vgi.

(** * A total codec, for instances of the parameters *)

(** The bits of a positive, self-terminated. *)
Fixpoint pos_bytes (p : positive) : bytes :=
  match p with xH => [x01] | xO p => x00 :: pos_bytes p | xI p => x02 :: pos_bytes p end.
Fixpoint bytes_pos (b : bytes) : option positive :=
  match b with
  | x01 :: _ => Some xH
  | x00 :: b => xO <$> bytes_pos b
  | x02 :: b => xI <$> bytes_pos b
  | _ => None
  end.
Lemma bytes_pos_bytes p : bytes_pos (pos_bytes p) = Some p.
Proof. induction p as [p IH|p IH|]; simpl; [by rewrite IH..|done]. Qed.

(** * Executable codecs that read back *)

Class Ser (T : Type) := {
  ser : T → bytes;
  de : bytes → option (T * bytes);
  de_ser x r : de (ser x ++ r) = Some (x, r);
}.

Fixpoint de_pos (b : bytes) : option (positive * bytes) :=
  match b with
  | x01 :: b => Some (xH, b)
  | x00 :: b => '(p, b) ← de_pos b; Some (xO p, b)
  | x02 :: b => '(p, b) ← de_pos b; Some (xI p, b)
  | _ => None
  end.
#[export] Instance Ser_positive : Ser positive.
Proof.
  refine {| ser := pos_bytes; de := de_pos |}.
  intros p r. induction p as [p IH|p IH|]; simpl; [by rewrite IH..|done].
Defined.

#[export] Instance Ser_nat : Ser nat.
Proof.
  refine {| ser n := ser (Pos.of_succ_nat n); de b := '(p, b) ← de (T := positive) b; Some (pred (Pos.to_nat p), b) |}.
  intros n r. cbn beta. rewrite de_ser. simpl. by rewrite SuccNat2Pos.pred_id.
Defined.

Section ser_list.
Context `{Ser A}.
Fixpoint ser_all (l : list A) : bytes := match l with [] => [] | a :: l => ser a ++ ser_all l end.
Fixpoint de_all (n : nat) (b : bytes) : option (list A * bytes) :=
  match n with
  | O => Some ([], b)
  | S n => '(a, b) ← de b; '(l, b) ← de_all n b; Some (a :: l, b)
  end.
#[export] Instance Ser_list : Ser (list A).
Proof.
  refine {| ser l := ser (length l) ++ ser_all l; de b := '(n, b) ← de b; de_all n b |}.
  intros l r. cbn beta. rewrite <- app_assoc, de_ser. cbn. induction l as [|a l IH]; cbn; [done|].
  rewrite <- app_assoc, de_ser. cbn. by rewrite IH.
Defined.
End ser_list.

(** A type read through another one. *)
Definition ser_via {A B} `{Ser B} (f : A → B) (g : B → A) (Hfg : ∀ a, g (f a) = a) : Ser A.
Proof.
  refine {| ser a := ser (f a); de b := '(x, b) ← de b; Some (g x, b) |}.
  abstract (intros x r; rewrite de_ser; cbn; by rewrite Hfg).
Defined.

#[export] Instance Ser_byte : Ser byte.
Proof.
  refine {| ser b := [b]; de l := match l with b :: l => Some (b, l) | [] => None end |}.
  done.
Defined.
#[export] Instance Ser_string : Ser string := ser_via as_bytes string_of_bytes string_of_as_bytes.
#[export] Instance Ser_bool : Ser bool.
Proof.
  refine {| ser b := [if b : bool then x01 else x00];
     de l := match l with x00 :: l => Some (false, l) | _ :: l => Some (true, l) | [] => None end |}.
  by intros [] r.
Defined.
#[export] Instance Ser_option `{Ser A} : Ser (option A).
Proof.
  refine {| ser o := match o with None => [x00] | Some a => x01 :: ser a end;
     de l := match l with
             | x00 :: l => Some (None, l)
             | _ :: l => '(a, l) ← de l; Some (Some a, l)
             | [] => None
             end |}.
  intros [a|] r; cbn; [by rewrite de_ser|done].
Defined.
#[export] Instance Ser_pair `{Ser A} `{Ser B} : Ser (A * B).
Proof.
  refine {| ser p := ser p.1 ++ ser p.2; de l := '(a, l) ← de l; '(b, l) ← de l; Some ((a, b), l) |}.
  intros [a b] r. cbn. rewrite <- app_assoc, de_ser. cbn. by rewrite de_ser.
Defined.
