(* ===== verification/Float64.v ===== *)
(** [f64] as the executable IEEE 754 binary64 of the Standard Library's
    [SpecFloat]: the conversion from integers, the arithmetic and the
    comparisons the sources use. *)
From Corelib Require Export SpecFloat.
From S2P Require Import Prelude.

Open Scope Z_scope.

Abbreviation f64 := spec_float.
Definition f64_of_Z (z : Z) : f64 := binary_normalize 53 1024 z 0 false.
Definition f64_mul (x y : f64) : f64 := SFmul 53 1024 x y.
Definition f64_div (x y : f64) : f64 := SFdiv 53 1024 x y.
Definition f64_add (x y : f64) : f64 := SFadd 53 1024 x y.

Definition f64_lt (x y : f64) : bool := match SFcompare x y with Some Lt => true | _ => false end.
Definition f64_le (x y : f64) : bool :=
  match SFcompare x y with Some Lt | Some Eq => true | _ => false end.
