(* ===== verification/StorageSpec.v ===== *)
(** The worker-state storage contract of [vgi/src/storage/mod.rs].

    [FunctionStorage] is the trait, one method per operation, in state-passing
    style.  [view] is the abstract store the trait's documentation promises: a
    key/value map, one append-only log per [(scope, ns, key)], and one FIFO
    queue per scope.  [StorageLaws] says that a backend implements that
    abstract store; the backends ([StorageMemory], [StorageFs],
    [StorageSqlite]) discharge it and the clients ([AggregateState], [WindowHandlers], the server of
    [StorageHttp]) are verified against it. *)
From S2P Require Import Prelude.

Open Scope Z_scope.

(** [iter().take(n)] for a [usize] bound. *)
Fixpoint take_z {A} (n : Z) (l : list A) : list A :=
  match l with
  | [] => []
  | x :: l => if n <=? 0 then [] else x :: take_z (n - 1) l
  end.

Lemma take_z_all {A} n (l : list A) : Z.of_nat (length l) ≤ n → take_z n l = l.
Proof.
  revert n. induction l as [|x l IH]; intros n Hn; [done|]. cbn [take_z length] in *.
  destruct (Z.leb_spec n 0); [lia|]. rewrite IH by lia. done.
Qed.

Lemma take_z_take {A} n (l : list A) : take_z n l = take (Z.to_nat n) l.
Proof.
  revert n. induction l as [|x l IH]; intros n; [by destruct (Z.to_nat n)|].
  cbn [take_z]. destruct (Z.leb_spec n 0).
  - by replace (Z.to_nat n) with O by lia.
  - replace (Z.to_nat n) with (S (Z.to_nat (n - 1))) by lia. cbn [take]. by rewrite IH.
Qed.

(** * Ordering rows by id *)

Section order_by.
Context {R : Type} (id_of : R → Z).

Definition by_id : relation R := λ a b, id_of a ≤ id_of b.

#[global] Instance by_id_dec a b : Decision (by_id a b) := Z.le_dec (id_of a) (id_of b).

#[global] Instance by_id_trans : Transitive by_id.
Proof. unfold by_id. intros a b c. lia. Qed.

#[global] Instance by_id_total : Total by_id.
Proof. unfold by_id. intros a b. lia. Qed.

(** Sorting by id ([ORDER BY id], [sort_unstable]); ids are distinct wherever
    it is used, so stability does not show. *)
Definition order_by (l : list R) : list R := merge_sort by_id l.

Lemma order_by_sorted l : StronglySorted Z.lt (id_of <$> l) → order_by l = l.
Proof.
  intros Hs. apply (StronglySorted_unique_strong by_id).
  - intros x1 x2 Hx1' Hx2 H1 H2. unfold order_by in Hx1'.
    rewrite merge_sort_Permutation in Hx1'. unfold by_id in *.
    assert (id_of x1 = id_of x2) as Heq by lia. clear H1 H2.
    induction l as [|y l IH]; [by apply elem_of_nil in Hx2|].
    simpl in Hs. apply StronglySorted_cons in Hs as [Hf Hs]. rewrite Forall_fmap in Hf.
    apply elem_of_cons in Hx1' as [->|Hx1']; apply elem_of_cons in Hx2 as [->|Hx2]; try done.
    + eapply Forall_forall in Hf; [|exact Hx2]. simpl in Hf. lia.
    + eapply Forall_forall in Hf; [|exact Hx1']. simpl in Hf. lia.
    + by apply IH.
  - apply StronglySorted_merge_sort; apply _.
  - induction l as [|y l IH]; [constructor|]. simpl in Hs.
    apply StronglySorted_cons in Hs as [Hf Hs]. constructor; [by apply IH|].
    rewrite Forall_fmap in Hf. eapply Forall_impl; [exact Hf|].
    unfold by_id, compose. intros; lia.
  - apply merge_sort_Permutation.
Qed.

Lemma sorted_filter (P : R → Prop) `{∀ x, Decision (P x)} l :
  StronglySorted Z.lt (id_of <$> l) → StronglySorted Z.lt (id_of <$> filter P l).
Proof.
  induction l as [|y l IH]; intros Hs; [done|]. simpl in Hs.
  apply StronglySorted_cons in Hs as [Hf Hs]. rewrite filter_cons. case_decide; [|by apply IH].
  simpl. apply StronglySorted_cons. split; [|by apply IH].
  rewrite Forall_fmap in *. apply Forall_forall. intros x [_ Hx]%list_elem_of_filter.
  by eapply Forall_forall in Hf.
Qed.

(** Strictly increasing ids in an interval bound the number of rows. *)
Lemma sorted_length l lo hi :
  StronglySorted Z.lt (id_of <$> l) → Forall (λ r, lo ≤ id_of r < hi) l → lo ≤ hi →
  Z.of_nat (length l) ≤ hi - lo.
Proof.
  revert lo. induction l as [|y l IH]; intros lo Hs Hb Hlh; simpl; [lia|].
  simpl in Hs. apply StronglySorted_cons in Hs as [Hf Hs].
  apply Forall_cons in Hb as [Hy Hb].
  enough (Z.of_nat (length l) ≤ hi - (id_of y + 1)) by lia.
  apply IH; [done| |lia]. rewrite Forall_fmap in Hf. apply Forall_forall. intros x Hx.
  eapply Forall_forall in Hf; [|done]. eapply Forall_forall in Hb; [|done].
  simpl in *. lia.
Qed.
End order_by.

(** Log rows of one key: [(id, value)]. *)
Abbreviation log_rows := (list (Z * bytes)).

(** The trait.  [kv_get] returns the state because a backend may touch its
    medium on a read; the clock a backend reads is part of its state. *)
Class FunctionStorage (St : Type) := {
  kv_get : St → bytes → bytes → option bytes * St;
  kv_put : St → bytes → bytes → bytes → St;
  kv_del : St → bytes → bytes → St;
  append : St → bytes → bytes → bytes → bytes → Z * St;
  append_many : St → bytes → bytes → bytes → list bytes → list Z * St;
  scan : St → bytes → bytes → bytes → Z → Z → log_rows;
  queue_push : St → bytes → list bytes → St;
  queue_pop : St → bytes → option bytes * St;
  clear : St → bytes → St;
  gc : St → Z → St;
}.

(** The trait's default [append_many]: one [append] per value. *)
Fixpoint append_each {St} (app : St → bytes → Z * St) (s : St) (values : list bytes)
  : list Z * St :=
  match values with
  | [] => ([], s)
  | v :: values =>
      let '(id, s) := app s v in
      let '(ids, s) := append_each app s values in
      (id :: ids, s)
  end.

(** * The abstract store *)

Record view := View {
  v_kv : bytes → bytes → option bytes;
  v_log : bytes → bytes → bytes → log_rows;
  v_queue : bytes → list bytes;
}.

(** Two views agree on every key. *)
#[global] Instance view_equiv : Equiv view := λ v w,
  (∀ sc k, v_kv v sc k = v_kv w sc k) ∧
  (∀ sc ns k, v_log v sc ns k = v_log w sc ns k) ∧
  (∀ sc, v_queue v sc = v_queue w sc).

#[global] Instance view_equivalence : Equivalence (≡@{view}).
Proof.
  split.
  - done.
  - intros v w (?&?&?). split_and!; congruence.
  - intros u v w (?&?&?) (?&?&?). split_and!; intros; congruence.
Qed.

#[global] Instance v_kv_proper : Proper ((≡) ==> (=) ==> (=) ==> (=)) v_kv.
Proof. intros v w (H&_&_) ? sc -> ? k ->. apply H. Qed.
#[global] Instance v_log_proper : Proper ((≡) ==> (=) ==> (=) ==> (=) ==> (=)) v_log.
Proof. intros v w (_&H&_) ? sc -> ? ns -> ? k ->. apply H. Qed.
#[global] Instance v_queue_proper : Proper ((≡) ==> (=) ==> (=)) v_queue.
Proof. intros v w (_&_&H) ? sc ->. apply H. Qed.

Definition abs_kv_set (v : view) (sc k : bytes) (x : option bytes) : view :=
  View (λ sc' k', if decide ((sc', k') = (sc, k)) then x else v_kv v sc' k')
       (v_log v) (v_queue v).

Definition abs_append (v : view) (sc ns k : bytes) (rows : log_rows) : view :=
  View (v_kv v)
       (λ sc' ns' k', v_log v sc' ns' k' ++
          if decide ((sc', ns', k') = (sc, ns, k)) then rows else [])
       (v_queue v).

Definition abs_queue_set (v : view) (sc : bytes) (q : list bytes) : view :=
  View (v_kv v) (v_log v)
       (λ sc', if decide (sc' = sc) then q else v_queue v sc').

Definition abs_clear (v : view) (sc : bytes) : view :=
  View (λ sc' k', if decide (sc' = sc) then None else v_kv v sc' k')
       (λ sc' ns' k', if decide (sc' = sc) then [] else v_log v sc' ns' k')
       (λ sc', if decide (sc' = sc) then [] else v_queue v sc').

Definition empty_view : view := View (λ _ _, None) (λ _ _ _, []) (λ _, []).

Lemma abs_kv_set_proper v w sc k x : v ≡ w → abs_kv_set v sc k x ≡ abs_kv_set w sc k x.
Proof. intros (H&?&?). split_and!; try done. intros sc' k'. simpl. by rewrite H. Qed.

Lemma abs_append_proper v w sc ns k r : v ≡ w → abs_append v sc ns k r ≡ abs_append w sc ns k r.
Proof. intros (?&H&?). split_and!; try done. intros sc' ns' k'. simpl. by rewrite H. Qed.

Lemma abs_append_nil v sc ns k : abs_append v sc ns k [] ≡ v.
Proof.
  split_and!; try done. intros sc' ns' k'. simpl. case_decide; by rewrite app_nil_r.
Qed.

Lemma abs_append_app v sc ns k r1 r2 :
  abs_append (abs_append v sc ns k r1) sc ns k r2 ≡ abs_append v sc ns k (r1 ++ r2).
Proof.
  split_and!; try done. intros sc' ns' k'. simpl. rewrite <- app_assoc. f_equal.
  case_decide; done.
Qed.

Lemma abs_kv_set_eq v sc k x : v_kv (abs_kv_set v sc k x) sc k = x.
Proof. simpl. by rewrite decide_True. Qed.

Lemma abs_kv_set_ne v sc k x sc' k' :
  (sc', k') ≠ (sc, k) → v_kv (abs_kv_set v sc k x) sc' k' = v_kv v sc' k'.
Proof. intros H. simpl. by rewrite decide_False. Qed.

Lemma abs_append_eq v sc ns k r : v_log (abs_append v sc ns k r) sc ns k = v_log v sc ns k ++ r.
Proof. simpl. by rewrite decide_True. Qed.

(** * The laws of a backend *)

Class StorageLaws (St : Type) `{FunctionStorage St} := {
  (** invariant of the concrete state *)
  st_inv : St → Prop;
  st_view : St → view;
  (** scopes the backend keeps apart from every other scope *)
  st_scope : bytes → Prop;
  (** [n] more ids fit in an [i64] *)
  st_room : St → Z → Prop;
  law_room_weaken s n m : st_room s n → 0 ≤ m ≤ n → st_room s m;
  law_log_sorted s sc ns k :
    st_inv s → st_scope sc → StronglySorted Z.lt (v_log (st_view s) sc ns k).*1;
  law_log_nonneg s sc ns k :
    st_inv s → st_scope sc → Forall (λ e, 0 ≤ e.1) (v_log (st_view s) sc ns k);
  (** while there is room, the ids handed out are [i64]s *)
  law_log_i64 s sc ns k :
    st_inv s → st_scope sc → st_room s 0 → Forall (λ e, e.1 < 2 ^ 63) (v_log (st_view s) sc ns k);
  law_room_i64 s n : st_inv s → st_room s n → n < 2 ^ 63;
  law_kv_get s sc k r s' :
    st_inv s → st_scope sc → kv_get s sc k = (r, s') →
    r = v_kv (st_view s) sc k ∧ st_inv s' ∧ st_view s' ≡ st_view s ∧
    (∀ n, st_room s n → st_room s' n);
  law_kv_put s sc k x :
    st_inv s → st_scope sc →
    st_inv (kv_put s sc k x) ∧
    st_view (kv_put s sc k x) ≡ abs_kv_set (st_view s) sc k (Some x) ∧
    (∀ n, st_room s n → st_room (kv_put s sc k x) n);
  law_kv_del s sc k :
    st_inv s → st_scope sc →
    st_inv (kv_del s sc k) ∧ st_view (kv_del s sc k) ≡ abs_kv_set (st_view s) sc k None ∧
    (∀ n, st_room s n → st_room (kv_del s sc k) n);
  law_append s sc ns k x id s' n :
    st_inv s → st_scope sc → 0 ≤ n → st_room s (1 + n) → append s sc ns k x = (id, s') →
    st_inv s' ∧ st_view s' ≡ abs_append (st_view s) sc ns k [(id, x)] ∧
    st_room s' n;
  law_append_many s sc ns k xs ids s' n :
    st_inv s → st_scope sc → 0 ≤ n → st_room s (Z.of_nat (length xs) + n) →
    append_many s sc ns k xs = (ids, s') →
    st_inv s' ∧ length ids = length xs ∧
    st_view s' ≡ abs_append (st_view s) sc ns k (zip ids xs) ∧ st_room s' n;
  law_scan s sc ns k after limit :
    st_inv s → st_scope sc → 0 ≤ limit →
    scan s sc ns k after limit =
    take_z limit (filter (λ e, after < e.1) (v_log (st_view s) sc ns k));
  law_queue_push s sc items n :
    st_inv s → st_scope sc → 0 ≤ n → st_room s (Z.of_nat (length items) + n) →
    st_inv (queue_push s sc items) ∧
    st_view (queue_push s sc items) ≡
      abs_queue_set (st_view s) sc (v_queue (st_view s) sc ++ items) ∧
    st_room (queue_push s sc items) n;
  law_queue_pop s sc r s' :
    st_inv s → st_scope sc → queue_pop s sc = (r, s') →
    st_inv s' ∧ r = head (v_queue (st_view s) sc) ∧
    st_view s' ≡ abs_queue_set (st_view s) sc (tail (v_queue (st_view s) sc)) ∧
    (∀ n, st_room s n → st_room s' n);
  law_clear s sc :
    st_inv s → st_scope sc →
    st_inv (clear s sc) ∧ st_view (clear s sc) ≡ abs_clear (st_view s) sc ∧
    (∀ n, st_room s n → st_room (clear s sc) n);
}.

(** * Facts every backend inherits *)

Section clients.
Context {St : Type} `{StorageLaws St}.

(** The default [append_many] satisfies the batched law whenever [append]
    satisfies its own. *)
Lemma append_each_law s sc ns k xs ids s' n :
  st_inv s → st_scope sc → 0 ≤ n → st_room s (Z.of_nat (length xs) + n) →
  append_each (λ s v, append s sc ns k v) s xs = (ids, s') →
  st_inv s' ∧ length ids = length xs ∧
  st_view s' ≡ abs_append (st_view s) sc ns k (zip ids xs) ∧ st_room s' n.
Proof.
  revert s ids s'. induction xs as [|x xs IH]; intros s ids s' Hi Hsc Hn Hr Heq.
  { simplify_eq/=. split_and!; [done..| |done]. symmetry. apply abs_append_nil. }
  cbn [append_each length] in *.
  destruct (append s sc ns k x) as [id s1] eqn:E1.
  destruct (append_each _ s1 xs) as [ids1 s2] eqn:E2. simplify_eq.
  eapply law_append in E1 as (Hi1 & Hv1 & Hr1);
    [| done | done | | ]; cycle 1.
  { instantiate (1 := Z.of_nat (length xs) + n). lia. }
  { eapply law_room_weaken; [done|lia]. }
  eapply IH in E2 as (Hi2 & Hl & Hv2 & Hr2); [|done..].
  split_and!; [done| by simpl; rewrite Hl | | done].
  rewrite Hv2. etrans; [apply abs_append_proper, Hv1|]. apply abs_append_app.
Qed.

(** Repeated [queue_pop] until the queue is empty, at most [fuel] times. *)
Fixpoint pop_all (fuel : nat) (s : St) (sc : bytes) : list bytes * St :=
  match fuel with
  | O => ([], s)
  | S fuel =>
      match queue_pop s sc with
      | (Some x, s) => let '(xs, s) := pop_all fuel s sc in (x :: xs, s)
      | (None, s) => ([], s)
      end
  end.

(** Popping drains the queue in the order the items were pushed. *)
Lemma pop_all_fifo fuel s sc :
  st_inv s → st_scope sc → (length (v_queue (st_view s) sc) ≤ fuel)%nat →
  let '(xs, s') := pop_all fuel s sc in
  xs = v_queue (st_view s) sc ∧ st_inv s' ∧ v_queue (st_view s') sc = [].
Proof.
  revert s. induction fuel as [|fuel IH]; intros s Hi Hsc Hl; cbn [pop_all].
  { destruct (v_queue (st_view s) sc) eqn:E; [done|]. simpl in Hl; lia. }
  destruct (queue_pop s sc) as [r s1] eqn:E1.
  eapply law_queue_pop in E1 as (Hi1 & -> & Hv1 & _); [|done..].
  assert (v_queue (st_view s1) sc = tail (v_queue (st_view s) sc)) as Hq.
  { rewrite Hv1. simpl. by rewrite decide_True. }
  destruct (v_queue (st_view s) sc) as [|x q] eqn:Eq; simpl in *; [done|].
  specialize (IH s1 Hi1 Hsc). rewrite Hq in IH. specialize (IH ltac:(lia)).
  destruct (pop_all fuel s1 sc) as [xs s2]. destruct IH as (-> & ? & ?). done.
Qed.
End clients.
