(* ===== verification/StorageMemory.v ===== *)
(** [MemoryStorage] of [vgi/src/storage/memory.rs]: the in-process backend, and
    the proof that it implements the storage contract.  Each method takes the
    mutex for its whole body, so a method is one atomic state transformation. *)
From S2P Require Import Prelude StorageSpec.

Open Scope Z_scope.

(** * [slice::partition_point] *)

Section partition_point.
Context {A : Type} (pred : A → bool).

Definition pred_at (l : list A) (i : nat) : bool :=
  match l !! i with Some x => pred x | None => false end.

(** The search loop of the standard library: halve the window [base, base+size)
    until one element is left. *)
Fixpoint search_loop (fuel : nat) (l : list A) (base size : nat) : nat :=
  match fuel with
  | O => base
  | S fuel =>
      if (size <=? 1)%nat then base
      else
        let half := (size / 2)%nat in
        let mid := (base + half)%nat in
        search_loop fuel l (if pred_at l mid then mid else base) (size - half)%nat
  end.

Definition partition_point (l : list A) : nat :=
  if (length l =? 0)%nat then O
  else
    let base := search_loop (length l) l 0 (length l) in
    if pred_at l base then S base else base.

Lemma search_loop_spec fuel l base size p :
  (∀ i, (i < length l)%nat → pred_at l i = true ↔ (i < p)%nat) →
  (p ≤ length l)%nat → (1 ≤ size ≤ fuel)%nat → (base + size ≤ length l)%nat →
  (base ≤ p ≤ base + size)%nat → (base = 0 ∨ base < p)%nat →
  let b := search_loop fuel l base size in
  (b ≤ p ≤ b + 1)%nat ∧ (b = 0 ∨ b < p)%nat ∧ (b < length l)%nat.
Proof.
  intros Hp Hlen. revert base size.
  induction fuel as [|fuel IH]; intros base size Hs Hbl Hbp Hb; cbn [search_loop]; [lia|].
  destruct (Nat.leb_spec size 1); [lia|].
  pose proof (Nat.div_mod_eq size 2) as Hdm. pose proof (Nat.mod_upper_bound size 2 ltac:(lia)).
  set (half := (size / 2)%nat) in *.
  specialize (Hp (base + half)%nat ltac:(lia)).
  destruct (pred_at l (base + half)) eqn:E.
  - apply IH; [lia | lia | | right]; destruct Hp as [Hp _]; specialize (Hp eq_refl); lia.
  - assert (¬ (base + half < p)%nat) by (intros Hlt; apply Hp in Hlt; congruence).
    apply IH; lia.
Qed.

(** On a slice split by [pred], the binary search finds the split. *)
Lemma partition_point_app l1 l2 :
  Forall (λ x, pred x = true) l1 → Forall (λ x, pred x = false) l2 →
  partition_point (l1 ++ l2) = length l1.
Proof.
  intros H1 H2. unfold partition_point.
  destruct (Nat.eqb_spec (length (l1 ++ l2)) 0) as [E|E].
  { rewrite length_app in E. lia. }
  assert (∀ i, (i < length (l1 ++ l2))%nat →
    pred_at (l1 ++ l2) i = true ↔ (i < length l1)%nat) as Hp.
  { intros i Hi. unfold pred_at. destruct (decide (i < length l1)%nat) as [Hl|Hl].
    - rewrite lookup_app_l by done.
      destruct (lookup_lt_is_Some_2 l1 i Hl) as [x Hx]. rewrite Hx.
      split; [done|]. intros _. by eapply Forall_lookup_1 in H1.
    - rewrite lookup_app_r by lia. destruct (l2 !! _) as [x|] eqn:Hx; [|done].
      eapply Forall_lookup_1 in H2; [|done]. split; [congruence|lia]. }
  pose proof (search_loop_spec (length (l1 ++ l2)) (l1 ++ l2) 0 (length (l1 ++ l2))
    (length l1) Hp) as Hs.
  rewrite length_app in *. destruct Hs as (Hb1 & Hb2 & Hb3); [lia..|].
  specialize (Hp _ Hb3). destruct (pred_at _ _); [|].
  - destruct Hp as [Hp _]; specialize (Hp eq_refl); lia.
  - destruct Hp as [_ Hp]. destruct (decide (search_loop (length l1 + length l2) (l1 ++ l2) 0
      (length l1 + length l2) < length l1)%nat) as [Hlt|]; [by specialize (Hp Hlt)|lia].
Qed.
End partition_point.

(** * The store *)

Record Inner := mkInner {
  kv : gmap (bytes * bytes) bytes;
  log : gmap (bytes * bytes * bytes) log_rows;
  queue : gmap bytes (list bytes);
  next_id : Z;
}.

Definition MemoryStorage_new : Inner := mkInner ∅ ∅ ∅ 0.

Definition mem_kv_get (g : Inner) (scope key : bytes) : option bytes := kv g !! (scope, key).

Definition mem_kv_put (g : Inner) (scope key value : bytes) : Inner :=
  mkInner (<[(scope, key) := value]> (kv g)) (log g) (queue g) (next_id g).

Definition mem_kv_del (g : Inner) (scope key : bytes) : Inner :=
  mkInner (delete (scope, key) (kv g)) (log g) (queue g) (next_id g).

Definition mem_append (g : Inner) (scope ns key value : bytes) : Z * Inner :=
  let id := next_id g in
  let entries := default [] (log g !! (scope, ns, key)) in
  (id, mkInner (kv g) (<[(scope, ns, key) := entries ++ [(id, value)]]> (log g)) (queue g)
         (wrap_i64 (next_id g + 1))).

Definition mem_scan (g : Inner) (scope ns key : bytes) (after_id limit : Z) : log_rows :=
  match log g !! (scope, ns, key) with
  | Some entries =>
      let start := partition_point (λ e, e.1 <=? after_id) entries in
      take_z limit (drop start entries)
  | None => []
  end.

Definition mem_queue_push (g : Inner) (scope : bytes) (items : list bytes) : Inner :=
  let q := default [] (queue g !! scope) in
  mkInner (kv g) (log g) (<[scope := q ++ items]> (queue g)) (next_id g).

Definition mem_queue_pop (g : Inner) (scope : bytes) : option bytes * Inner :=
  match queue g !! scope with
  | Some (x :: q) => (Some x, mkInner (kv g) (log g) (<[scope := q]> (queue g)) (next_id g))
  | _ => (None, g)
  end.

Definition mem_clear (g : Inner) (scope : bytes) : Inner :=
  mkInner (filter (λ e, e.1.1 ≠ scope) (kv g))
          (filter (λ e, e.1.1.1 ≠ scope) (log g))
          (delete scope (queue g)) (next_id g).

#[global] Instance memory_storage : FunctionStorage Inner := {
  kv_get g sc k := (mem_kv_get g sc k, g);
  kv_put := mem_kv_put;
  kv_del := mem_kv_del;
  append := mem_append;
  append_many g sc ns k vs := append_each (λ g v, mem_append g sc ns k v) g vs;
  scan := mem_scan;
  queue_push := mem_queue_push;
  queue_pop := mem_queue_pop;
  clear := mem_clear;
  gc g _ := g;
}.

(** * The contract *)

Definition mem_view (g : Inner) : view :=
  View (λ sc k, kv g !! (sc, k))
       (λ sc ns k, default [] (log g !! (sc, ns, k)))
       (λ sc, default [] (queue g !! sc)).

(** Ids in each log increase strictly and were all drawn from the counter. *)
Definition mem_inv (g : Inner) : Prop :=
  0 ≤ next_id g ∧
  ∀ k rows, log g !! k = Some rows →
    StronglySorted Z.lt rows.*1 ∧ Forall (λ e, 0 ≤ e.1 < next_id g) rows.

Definition mem_room (g : Inner) (n : Z) : Prop := next_id g + n < 2 ^ 63.

Lemma sorted_split after (rows : log_rows) :
  StronglySorted Z.lt rows.*1 →
  ∃ l1 l2, rows = l1 ++ l2 ∧ Forall (λ e, (e.1 <=? after) = true) l1 ∧
    Forall (λ e, (e.1 <=? after) = false) l2.
Proof.
  induction rows as [|[id v] rows IH]; intros Hs.
  { exists [], []. done. }
  cbn in Hs. apply StronglySorted_cons in Hs as [Hle Hs].
  destruct (Z.leb_spec id after).
  - destruct IH as (l1 & l2 & -> & ? & ?); [done|].
    exists ((id, v) :: l1), l2. split_and!; [done| |done].
    constructor; [by apply Z.leb_le | done].
  - exists [], ((id, v) :: rows). split_and!; [done..|].
    constructor; [by apply Z.leb_gt|]. rewrite Forall_fmap in Hle.
    eapply Forall_impl; [exact Hle|]. intros e He. apply Z.leb_gt. unfold compose in He. lia.
Qed.

(** The binary-search cursor of [scan] is the linear filter it replaces. *)
Lemma partition_point_filter after (rows : log_rows) :
  StronglySorted Z.lt rows.*1 →
  drop (partition_point (λ e, e.1 <=? after) rows) rows = filter (λ e, after < e.1) rows.
Proof.
  intros Hs. destruct (sorted_split after rows Hs) as (l1 & l2 & -> & H1 & H2).
  rewrite (partition_point_app _ l1 l2 H1 H2), drop_app_length, filter_app.
  assert (filter (λ e, after < e.1) l1 = []) as ->.
  { apply list_filter_none. eapply Forall_impl; [exact H1|]. intros e ?%Z.leb_le. lia. }
  symmetry. apply list_filter_all. eapply Forall_impl; [exact H2|]. intros e ?%Z.leb_gt. done.
Qed.

Lemma mem_clear_view g sc : mem_view (mem_clear g sc) ≡ abs_clear (mem_view g) sc.
Proof.
  split_and!; simpl.
  - intros sc' k. rewrite (lookup_filter_key (λ x : bytes * bytes, x.1 ≠ sc)) by done. simpl.
    by destruct (decide (sc' = sc)), (decide (sc' ≠ sc)).
  - intros sc' ns k. rewrite (lookup_filter_key (λ x : bytes * bytes * bytes, x.1.1 ≠ sc)) by done. simpl.
    by destruct (decide (sc' = sc)), (decide (sc' ≠ sc)).
  - intros sc'. case_decide as E; [subst; by rewrite lookup_delete_eq|].
    by rewrite lookup_delete_ne.
Qed.

Lemma mem_append_law g sc ns k x id g' n :
  mem_inv g → 0 ≤ n → mem_room g (1 + n) → mem_append g sc ns k x = (id, g') →
  mem_inv g' ∧ mem_view g' ≡ abs_append (mem_view g) sc ns k [(id, x)] ∧ mem_room g' n.
Proof.
  intros [Hn Hl] Hn0 Hr Heq. unfold mem_append in Heq. simplify_eq. unfold mem_room in *.
  assert (wrap_i64 (next_id g + 1) = next_id g + 1) as Hw.
  { apply wrap_i64_id. unfold i64_range. lia. }
  split_and!; simpl; rewrite ?Hw.
  - split; [simpl; lia|]. simpl. intros key rows [[<- <-]|[Hne Hk]]%lookup_insert_Some.
    + destruct (log g !! (sc, ns, k)) as [old|] eqn:E; simpl.
      * apply Hl in E as [Hs Hf]. rewrite fmap_app. split.
        { apply StronglySorted_snoc; [done|]. rewrite Forall_fmap.
          eapply Forall_impl; [exact Hf|]. simpl. lia. }
        apply Forall_app. split; [|repeat constructor; simpl; lia].
        eapply Forall_impl; [exact Hf|]. simpl. lia.
      * split; [repeat constructor|]. repeat constructor; simpl; lia.
    + apply Hl in Hk as [Hs Hf]. split; [done|].
      eapply Forall_impl; [exact Hf|]. simpl. lia.
  - split_and!; simpl; [done| |done]. intros sc' ns' k'. case_decide as E.
    + simplify_eq. by rewrite lookup_insert_eq.
    + rewrite lookup_insert_ne by congruence. by rewrite app_nil_r.
  - lia.
Qed.

Lemma mem_append_many_law g sc ns k xs ids g' n :
  mem_inv g → 0 ≤ n → mem_room g (Z.of_nat (length xs) + n) →
  append_each (λ g v, mem_append g sc ns k v) g xs = (ids, g') →
  mem_inv g' ∧ length ids = length xs ∧
  mem_view g' ≡ abs_append (mem_view g) sc ns k (zip ids xs) ∧ mem_room g' n.
Proof.
  revert g ids g'. induction xs as [|x xs IH]; intros g ids g' Hi Hn Hr Heq.
  { simplify_eq/=. split_and!; [done..| |done]. symmetry. apply abs_append_nil. }
  cbn [append_each] in Heq.
  destruct (mem_append g sc ns k x) as [id g1] eqn:E1.
  destruct (append_each _ g1 xs) as [ids1 g2] eqn:E2. simplify_eq.
  cbn [length] in Hr.
  eapply (mem_append_law _ _ _ _ _ _ _ (Z.of_nat (length xs) + n)) in E1 as (Hi1 & Hv1 & Hr1);
    [|done|lia|unfold mem_room in *; lia].
  eapply IH in E2 as (Hi2 & Hl & Hv2 & Hr2); [|done..].
  split_and!; [done| by simpl; rewrite Hl | | done].
  rewrite Hv2. etrans; [apply abs_append_proper, Hv1|]. apply abs_append_app.
Qed.

Lemma mem_scan_law g sc ns k after limit :
  mem_inv g →
  mem_scan g sc ns k after limit =
  take_z limit (filter (λ e, after < e.1) (v_log (mem_view g) sc ns k)).
Proof.
  intros [_ Hl]. unfold mem_scan. simpl. destruct (log g !! (sc, ns, k)) as [rows|] eqn:E.
  - simpl. rewrite partition_point_filter; [done|]. by apply (Hl _ _ E).
  - done.
Qed.

Lemma mem_log_ok g sc ns k :
  mem_inv g → StronglySorted Z.lt (v_log (mem_view g) sc ns k).*1 ∧
    Forall (λ e, 0 ≤ e.1) (v_log (mem_view g) sc ns k).
Proof.
  intros [_ Hl]. simpl. destruct (log g !! (sc, ns, k)) as [rows|] eqn:E; simpl.
  - apply Hl in E as [? Hf]. split; [done|]. eapply Forall_impl; [exact Hf|]. simpl; lia.
  - split; constructor.
Qed.

#[global] Program Instance memory_laws : StorageLaws Inner := {
  st_inv := mem_inv;
  st_view := mem_view;
  st_scope _ := True;
  st_room := mem_room;
}.
Next Obligation. unfold mem_room. intros. lia. Qed.
Next Obligation. intros. by apply mem_log_ok. Qed.
Next Obligation. intros. by apply mem_log_ok. Qed.
Next Obligation.
  unfold mem_room. intros s sc ns k [_ Hi] _ Hr. cbn [v_log mem_view].
  destruct (log s !! _) as [rows|] eqn:E; [|constructor]. destruct (Hi _ _ E) as [_ Hf].
  eapply Forall_impl; [exact Hf|]. cbn. lia.
Qed.
Next Obligation. unfold mem_room. intros s n [? _] ?. lia. Qed.
Next Obligation. intros. simplify_eq/=. done. Qed.
Next Obligation.
  intros s sc k x Hi _. split_and!; [done| |done]. split_and!; simpl; [|done..].
  intros sc' k'. rewrite lookup_insert. by repeat case_decide; simplify_eq.
Qed.
Next Obligation.
  intros s sc k Hi _. split_and!; [done| |done]. split_and!; simpl; [|done..].
  intros sc' k'. rewrite lookup_delete. by repeat case_decide; simplify_eq.
Qed.
Next Obligation. intros. by eapply mem_append_law. Qed.
Next Obligation. intros. by eapply mem_append_many_law. Qed.
Next Obligation. intros. by apply mem_scan_law. Qed.
Next Obligation.
  intros s sc items n Hi _ Hn Hr. split_and!; [done| |unfold mem_room in *; simpl; lia].
  split_and!; simpl; [done..|].
  intros sc'. rewrite lookup_insert. by repeat case_decide; simplify_eq.
Qed.
Next Obligation.
  intros s sc r s' Hi _ Heq. cbn in Heq. unfold mem_queue_pop in Heq. simpl.
  destruct (queue s !! sc) as [[|x q]|] eqn:E; simplify_eq; simpl; split_and!; try done;
    split_and!; simpl; try done; intros sc'; rewrite ?lookup_insert;
    repeat case_decide; simplify_eq; by rewrite ?E.
Qed.
Next Obligation.
  intros s sc Hi _. split_and!; [|apply mem_clear_view|done].
  destruct Hi as [Hn Hl]. split; [done|]. simpl. intros k rows Hk.
  rewrite (lookup_filter_key (λ x : bytes * bytes * bytes, x.1.1 ≠ sc)) in Hk by done. case_decide; [|done]. by eapply Hl.
Qed.

Lemma mem_inv_new : mem_inv MemoryStorage_new.
Proof. split; [done|]. intros k rows H. unfold MemoryStorage_new in H. simpl in H. by rewrite lookup_empty in H. Qed.
