(* ===== verification/StorageFs.v ===== *)
(** [FsStorage] of [vgi/src/storage/fs.rs]: the file-system backend.

    A file system is a map from paths below the base directory to directories
    and files, with modification times, a clock and the longest file name it
    accepts; the [std::fs] calls the source makes are definitions on it.  They
    fail where the tree makes them fail (missing parents, existing targets,
    over-long names); device errors are not modelled.  Each storage method is
    run to completion; [pstep] splits [queue_pop] at its system calls, for any
    number of processes. *)
From S2P Require Import Prelude StorageSpec StorageMemory.

Open Scope Z_scope.

(** * The file system *)

(** Components below the base directory, as the bytes of their names. *)
Abbreviation path := (list bytes).

Inductive node := Dir | File (data : bytes).

#[global] Instance node_eq_dec : EqDecision node.
Proof. solve_decision. Defined.

Record Fs := mkFs {
  nodes : gmap path node;
  mtimes : gmap path Z;
  clock : Z;
  name_max : option Z;
  pid : Z;
  seq : Z;
}.

(** [PathBuf::push]; an empty component changes nothing. *)
Definition push (p : path) (n : bytes) : path := match n with [] => p | _ => p ++ [n] end.

Definition parent (p : path) : path := removelast p.

Definition name_ok (s : Fs) (n : bytes) : bool :=
  match name_max s with None => true | Some m => Z.of_nat (length n) <=? m end.

(** Replace the tree, stamping the paths a call modifies. *)
Definition set_nodes (s : Fs) (m : gmap path node) (stamped : list path) : Fs :=
  mkFs m (foldr (λ p, <[p := clock s]>) (mtimes s) stamped) (clock s) (name_max s) (pid s) (seq s).

(** [fs::create_dir_all]: the missing directories on the way. *)
Fixpoint mkdirs (s : Fs) (at_ : path) (rest : list bytes) : Fs :=
  match rest with
  | [] => s
  | n :: rest =>
      let p := at_ ++ [n] in
      match nodes s !! p with
      | Some Dir => mkdirs s p rest
      | Some (File _) => s
      | None => if name_ok s n then mkdirs (set_nodes s (<[p := Dir]> (nodes s)) [p; at_]) p rest else s
      end
  end.

Definition create_dir_all (s : Fs) (p : path) : Fs :=
  match nodes s !! [] with
  | Some Dir => mkdirs s [] p
  | Some (File _) => s
  | None => mkdirs (set_nodes s (<[[] := Dir]> (nodes s)) [[]]) [] p
  end.

(** [fs::read]. *)
Definition read (s : Fs) (p : path) : option bytes :=
  match nodes s !! p with Some (File v) => Some v | _ => None end.

(** A file can be created at [p]: its directory exists and its name fits. *)
Definition can_create (s : Fs) (p : path) : bool :=
  bool_decide (p ≠ [] ∧ nodes s !! parent p = Some Dir) && name_ok s (List.last p []).

(** [fs::write]. *)
Definition write (s : Fs) (p : path) (v : bytes) : bool * Fs :=
  match nodes s !! p with
  | Some Dir => (false, s)
  | Some (File _) => (true, set_nodes s (<[p := File v]> (nodes s)) [p])
  | None =>
      if can_create s p then (true, set_nodes s (<[p := File v]> (nodes s)) [p; parent p]) else (false, s)
  end.

(** [OpenOptions::new().write(true).create_new(true)] and [write_all]. *)
Inductive create_result := Created | AlreadyExists | OtherError.
Definition create_new (s : Fs) (p : path) (v : bytes) : create_result * Fs :=
  match nodes s !! p with
  | Some _ => (AlreadyExists, s)
  | None =>
      if can_create s p then (Created, set_nodes s (<[p := File v]> (nodes s)) [p; parent p])
      else (OtherError, s)
  end.

(** [fs::rename] of a file; it keeps its modification time. *)
Definition rename (s : Fs) (a b : path) : bool * Fs :=
  match nodes s !! a with
  | Some (File v) =>
      if can_create s b && bool_decide (nodes s !! b ≠ Some Dir) then
        let s' := set_nodes s (<[b := File v]> (delete a (nodes s))) [parent a; parent b] in
        (true, mkFs (nodes s') (<[b := default 0 (mtimes s !! a)]> (mtimes s')) (clock s)
                 (name_max s) (pid s) (seq s))
      else (false, s)
  | _ => (false, s)
  end.

(** [fs::remove_file]. *)
Definition remove_file (s : Fs) (p : path) : Fs :=
  match nodes s !! p with
  | Some (File _) => set_nodes s (delete p (nodes s)) [parent p]
  | _ => s
  end.

Definition below (p q : path) : bool := bool_decide (take (length p) q = p).

(** [fs::remove_dir_all]. *)
Definition remove_dir_all (s : Fs) (p : path) : Fs :=
  match nodes s !! p with
  | Some Dir => set_nodes s (filter (λ e, below p e.1 = false) (nodes s)) [parent p]
  | _ => s
  end.

(** [fs::read_dir], the names; nothing when it fails. *)
Definition child_name (p q : path) : option bytes :=
  match drop (length p) q with [n] => if below p q then Some n else None | _ => None end.

Definition read_dir (s : Fs) (p : path) : list bytes :=
  match nodes s !! p with
  | Some Dir => omap (λ e, child_name p e.1) (map_to_list (nodes s))
  | _ => []
  end.

(** * Names *)

Definition hex_digit (n : Z) : byte := byte_of_Z (if n <? 10 then 48 + n else 87 + n).
Definition hex (b : bytes) : bytes :=
  b ≫= λ x, [hex_digit (Z_of_byte x / 16); hex_digit (Z_of_byte x mod 16)].

Definition strip_suffix (suf l : bytes) : option bytes :=
  let k := (length l - length suf)%nat in if decide (drop k l = suf) then Some (take k l) else None.

(** [format!("{id:020}.bin")]. *)
Definition bin_name (id : Z) : bytes := as_bytes (pad020 id) ++ as_bytes ".bin".

(** The file names [max_id], [scan] and [queue_pop] look at. *)
Definition parse_bin (n : bytes) : option Z :=
  l ← strip_suffix (as_bytes ".bin") n; parse_i64 (string_of_bytes l).

Definition scope_dir (scope : bytes) : path := push [] (hex scope).
Definition log_name (ns key : bytes) : bytes := hex ns ++ as_bytes "__" ++ hex key.
Definition log_dir (scope ns key : bytes) : path := push (scope_dir scope) (log_name ns key).
Definition queue_name : bytes := as_bytes "__queue__".
Definition queue_dir (scope : bytes) : path := push (scope_dir scope) queue_name.
Definition kv_name (key : bytes) : bytes := as_bytes "kv_" ++ hex key.
Definition kv_tmp (key : bytes) : bytes := kv_name key ++ as_bytes ".tmp".

(** [kv_path] creates the scope's directory. *)
Definition kv_path (s : Fs) (scope key : bytes) : path * Fs :=
  (push (scope_dir scope) (kv_name key), create_dir_all s (scope_dir scope)).

(** * The storage methods *)

Definition bin_ids (s : Fs) (dir : path) : list Z := omap parse_bin (read_dir s dir).

Definition max_id (s : Fs) (dir : path) : Z :=
  match bin_ids s dir with [] => -1 | i :: l => foldr Z.max i l end.

Definition fs_kv_get (s : Fs) (scope key : bytes) : option bytes * Fs :=
  let '(p, s) := kv_path s scope key in (read s p, s).

Definition fs_kv_put (s : Fs) (scope key value : bytes) : Fs :=
  let '(p, s) := kv_path s scope key in
  let tmp := push (scope_dir scope) (kv_tmp key) in
  let '(ok, s) := write s tmp value in
  if ok then (rename s tmp p).2 else s.

Definition fs_kv_del (s : Fs) (scope key : bytes) : Fs :=
  let '(p, s) := kv_path s scope key in remove_file s p.

(** Create the file of the first free id from [id] on. *)
Fixpoint create_from (fuel : nat) (s : Fs) (dir : path) (id : Z) (value : bytes) : Z * Fs :=
  match create_new s (push dir (bin_name id)) value with
  | (Created, s) => (id, s)
  | (OtherError, s) => (id, s)
  | (AlreadyExists, s) =>
      match fuel with O => (id, s) | S fuel => create_from fuel s dir (wrap_i64 (id + 1)) value end
  end.

(** One more than the files there are: their names differ, so a free one comes. *)
Definition create_fuel (s : Fs) : nat := S (size (nodes s)).

Definition fs_append (s : Fs) (scope ns key value : bytes) : Z * Fs :=
  let dir := log_dir scope ns key in
  let s := create_dir_all s dir in
  create_from (create_fuel s) s dir (wrap_i64 (max_id s dir + 1)) value.

Fixpoint append_from (s : Fs) (dir : path) (id : Z) (values : list bytes) : list Z * Fs :=
  match values with
  | [] => ([], s)
  | v :: values =>
      let '(i, s) := create_from (create_fuel s) s dir id v in
      let '(ids, s) := append_from s dir (wrap_i64 (i + 1)) values in
      (i :: ids, s)
  end.

Definition fs_append_many (s : Fs) (scope ns key : bytes) (values : list bytes) : list Z * Fs :=
  match values with
  | [] => ([], s)
  | _ =>
      let dir := log_dir scope ns key in
      let s := create_dir_all s dir in
      append_from s dir (wrap_i64 (max_id s dir + 1)) values
  end.

Definition fs_scan (s : Fs) (scope ns key : bytes) (after limit : Z) : log_rows :=
  let dir := log_dir scope ns key in
  let ids := order_by id (filter (λ i, after < i) (bin_ids s dir)) in
  omap (λ i, (λ v, (i, v)) <$> read s (push dir (bin_name i))) (take_z limit ids).

Fixpoint push_from (s : Fs) (dir : path) (id : Z) (items : list bytes) : Fs :=
  match items with
  | [] => s
  | item :: items =>
      push_from (create_new s (push dir (bin_name id)) item).2 dir (wrap_i64 (id + 1)) items
  end.

Definition fs_queue_push (s : Fs) (scope : bytes) (items : list bytes) : Fs :=
  let dir := queue_dir scope in
  let s := create_dir_all s dir in
  push_from s dir (wrap_i64 (max_id s dir + 1)) items.

(** [format!("claimed_{tag}_{id:020}.bin")] with [tag] the process and its count. *)
Definition claim_tag (s : Fs) : bytes := as_bytes (Z_to_string (pid s) +:+ "_" +:+ Z_to_string (seq s)).
Definition claimed_name (tag : bytes) (id : Z) : bytes :=
  as_bytes "claimed_" ++ tag ++ as_bytes "_" ++ bin_name id.

Fixpoint pop_ids (s : Fs) (dir : path) (tag : bytes) (ids : list Z) : option bytes * Fs :=
  match ids with
  | [] => (None, s)
  | id :: ids =>
      let claimed := push dir (claimed_name tag id) in
      let '(ok, s) := rename s (push dir (bin_name id)) claimed in
      if ok then
        let data := read s claimed in
        let s := remove_file s claimed in
        match data with Some v => (Some v, s) | None => pop_ids s dir tag ids end
      else pop_ids s dir tag ids
  end.

Definition fs_queue_pop (s : Fs) (scope : bytes) : option bytes * Fs :=
  let tag := claim_tag s in
  let s := mkFs (nodes s) (mtimes s) (clock s) (name_max s) (pid s) ((seq s + 1) mod 2 ^ 64) in
  let dir := queue_dir scope in
  pop_ids s dir tag (order_by id (bin_ids s dir)).

Definition fs_clear (s : Fs) (scope : bytes) : Fs := remove_dir_all s (scope_dir scope).

(** The newest modification time in the subtree. *)
Definition newest_mtime (s : Fs) (p : path) : option Z :=
  foldr (λ t m, Some (match m with Some m => Z.max t m | None => t end)) None
    (omap (λ e : path * node, if below p e.1 then mtimes s !! e.1 else None) (map_to_list (nodes s))).

(** [gc_at] at the state's clock, which is in nanoseconds. *)
Definition gc_scope (ttl : Z) (s : Fs) (n : bytes) : Fs :=
  let p := [n] in
  if bool_decide (nodes s !! p = Some Dir) && (ttl * 10 ^ 9 <? clock s - default (clock s) (newest_mtime s p))
  then remove_dir_all s p else s.

Definition fs_gc (s : Fs) (ttl : Z) : Fs := foldl (gc_scope ttl) s (read_dir s []).

#[global] Instance fs_storage : FunctionStorage Fs := {
  kv_get := fs_kv_get;
  kv_put := fs_kv_put;
  kv_del := fs_kv_del;
  append := fs_append;
  append_many := fs_append_many;
  scan := fs_scan;
  queue_push := fs_queue_push;
  queue_pop := fs_queue_pop;
  clear := fs_clear;
  gc := fs_gc;
}.

(** An empty base directory on a file system whose names hold [max] bytes, any
    number without a limit. *)
Definition FsStorage_new (max : option Z) (t pid : Z) : Fs := mkFs {[ [] := Dir ]} {[ [] := t ]} t max pid 0.

#[local] Arguments push : simpl never.
#[local] Arguments queue_dir : simpl never.
#[local] Arguments log_dir : simpl never.
#[local] Arguments scope_dir : simpl never.
#[local] Arguments kv_name : simpl never.
#[local] Arguments kv_tmp : simpl never.
#[local] Arguments queue_name : simpl never.
#[local] Arguments bin_name : simpl never.
#[local] Arguments claimed_name : simpl never.

(** * Names are distinct *)

Lemma hex_digit_val n : 0 ≤ n < 16 → Z_of_byte (hex_digit n) = if n <? 10 then 48 + n else 87 + n.
Proof. intros. unfold hex_digit. rewrite Z_of_byte_of_Z. destruct (Z.ltb_spec n 10); rewrite Z.mod_small; lia. Qed.

Lemma hex_digit_inj n m : 0 ≤ n < 16 → 0 ≤ m < 16 → hex_digit n = hex_digit m → n = m.
Proof.
  intros Hn Hm E%(f_equal Z_of_byte). rewrite !hex_digit_val in E by done.
  destruct (Z.ltb_spec n 10), (Z.ltb_spec m 10); lia.
Qed.

Lemma byte_nibbles b : 0 ≤ Z_of_byte b / 16 < 16 ∧ 0 ≤ Z_of_byte b mod 16 < 16.
Proof.
  pose proof (Z_of_byte_range b). pose proof (Z.mod_pos_bound (Z_of_byte b) 16).
  split; [split; [apply Z.div_pos; lia|apply Z.div_lt_upper_bound; lia]|lia].
Qed.

#[global] Instance hex_inj : Inj (=) (=) hex.
Proof.
  intros a. induction a as [|x a IH]; intros [|y b] E; cbn in E; try done.
  injection E as E1 E2 E3. destruct (byte_nibbles x), (byte_nibbles y).
  apply hex_digit_inj in E1, E2; [|done..]. f_equal; [|by apply IH].
  apply Z_of_byte_inj. rewrite (Z.div_mod (Z_of_byte x) 16), (Z.div_mod (Z_of_byte y) 16) by lia. lia.
Qed.

(** Hex digits are neither ['_'] nor the letters the other names start with. *)
Lemma hex_free (c : byte) b :
  ¬ (48 ≤ Z_of_byte c ≤ 57) → ¬ (97 ≤ Z_of_byte c ≤ 102) → c ∉ hex b.
Proof.
  intros H1 H2. induction b as [|x b IH]; cbn; [by intros ?%elem_of_nil|].
  destruct (byte_nibbles x) as [Hx Hy].
  assert (∀ n, 0 ≤ n < 16 → c ≠ hex_digit n) as Hne.
  { intros n Hn ->. rewrite hex_digit_val in H1, H2 by done. destruct (Z.ltb_spec n 10); lia. }
  rewrite !not_elem_of_cons. auto.
Qed.

Lemma sep_split {A} (c : A) d d' p p' :
  c ∉ d → c ∉ d' → d ++ c :: p = d' ++ c :: p' → d = d' ∧ p = p'.
Proof.
  induction d as [|b d IH] in d' |- *; destruct d' as [|b' d']; intros Hd Hd' E; simplify_eq/=;
    [done|set_solver..|].
  destruct (IH d') as [-> ->]; [set_solver..|done|done].
Qed.

Lemma log_name_inj ns k ns' k' : log_name ns k = log_name ns' k' → ns = ns' ∧ k = k'.
Proof.
  unfold log_name. intros E. change (as_bytes "__") with [x5f; x5f] in E. cbn [app] in E.
  apply sep_split in E as [E1%(inj hex) E2]; [|apply hex_free; vm_compute; naive_solver..].
  injection E2 as E2%(inj hex). done.
Qed.

#[global] Instance kv_name_inj : Inj (=) (=) kv_name.
Proof. intros a b E%(inj (app (as_bytes "kv_"))). by apply (inj hex). Qed.

Lemma head_hex_app b (c : byte) l : head (hex b ++ l) = Some c → c ∉ hex b → head l = Some c.
Proof. destruct b as [|y b]; cbn; [done|]. intros [= <-] Hn. set_solver. Qed.

(** The names in a scope's directory: of a log, the queue, or a value. *)
Definition is_sub (d : bytes) : Prop := d = queue_name ∨ ∃ ns k, d = log_name ns k.

Lemma log_not_queue ns k : log_name ns k ≠ queue_name.
Proof.
  unfold log_name, queue_name. intros E.
  destruct ns as [|x ns]; cbn in E.
  - injection E as E. assert (x71 ∈ hex k) as Hk by (rewrite E; set_solver).
    revert Hk. apply hex_free; vm_compute; naive_solver.
  - injection E as E _. assert (x5f ∈ hex (x :: ns)) as Hk by (cbn; rewrite E; set_solver).
    revert Hk. apply hex_free; vm_compute; naive_solver.
Qed.

Lemma kv_not_sub k r d : is_sub d → kv_name k ++ r ≠ d.
Proof.
  intros [->|(ns & k' & ->)] E; [done|]. apply (f_equal head) in E. cbn in E. symmetry in E.
  apply head_hex_app in E; [done|]. apply hex_free; vm_compute; naive_solver.
Qed.

Lemma kv_tmp_not_kv k k' : kv_tmp k ≠ kv_name k'.
Proof.
  unfold kv_tmp, kv_name. intros E. rewrite <- app_assoc in E. apply (inj (app (as_bytes "kv_"))) in E.
  assert (x2e ∈ hex k') as Hk by (rewrite <- E; apply elem_of_app; right; apply list_elem_of_here).
  revert Hk. apply hex_free; vm_compute; naive_solver.
Qed.

Lemma strip_suffix_app suf l : strip_suffix suf (l ++ suf) = Some l.
Proof.
  unfold strip_suffix. rewrite length_app, Nat.add_sub.
  by rewrite drop_app_length, take_app_length, decide_True.
Qed.

Lemma parse_bin_name id : 0 ≤ id < 2 ^ 63 → parse_bin (bin_name id) = Some id.
Proof.
  intros Hid. unfold parse_bin, bin_name. rewrite strip_suffix_app. cbn.
  by rewrite string_of_as_bytes, parse_i64_pad020.
Qed.

Lemma bin_name_inj i j : 0 ≤ i < 2 ^ 63 → 0 ≤ j < 2 ^ 63 → bin_name i = bin_name j → i = j.
Proof. intros Hi Hj E%(f_equal parse_bin). rewrite !parse_bin_name in E by done. by injection E. Qed.

(** * The rows of a directory *)

Definition files (m : gmap path node) (p : path) : option bytes :=
  match m !! p with Some (File v) => Some v | _ => None end.

Lemma child_name_Some p q n : child_name p q = Some n ↔ q = p ++ [n].
Proof.
  unfold child_name, below. split.
  - destruct (drop (length p) q) as [|x [|??]] eqn:E; try done.
    case_bool_decide as Ht; [|done]. intros [= ->]. by rewrite <- (take_drop (length p) q), Ht, E.
  - intros ->. rewrite drop_app_length, take_app_length. by rewrite bool_decide_true.
Qed.

Definition row_of (dir : path) (e : path * node) : option (Z * bytes) :=
  match e.2 with
  | File v => n ← child_name dir e.1; i ← parse_bin n;
              if decide (n = bin_name i) then Some (i, v) else None
  | Dir => None
  end.

Definition rows (m : gmap path node) (dir : path) : log_rows := omap (row_of dir) (map_to_list m).

Lemma row_of_Some dir e i v :
  row_of dir e = Some (i, v) ↔ e = (dir ++ [bin_name i], File v) ∧ parse_bin (bin_name i) = Some i.
Proof.
  destruct e as [p nd]. unfold row_of. cbn [fst snd]. split.
  - destruct nd as [|w]; [done|]. destruct (child_name dir p) as [n|] eqn:Ec; [|done].
    cbn. destruct (parse_bin n) as [j|] eqn:Ep; [|done]. cbn. case_decide as En; [|done].
    intros [= -> ->]. apply child_name_Some in Ec as ->. rewrite <- En. split; [done|exact Ep].
  - intros [[= -> ->] Hp]. assert (child_name dir (dir ++ [bin_name i]) = Some (bin_name i)) as ->
      by (by apply child_name_Some).
    cbn. rewrite Hp. cbn. by rewrite decide_True.
Qed.

Lemma elem_rows m dir i v :
  (i, v) ∈ rows m dir ↔ parse_bin (bin_name i) = Some i ∧ files m (dir ++ [bin_name i]) = Some v.
Proof.
  unfold rows, files. rewrite list_elem_of_omap. split.
  - intros (e & He & [-> Hp]%row_of_Some). apply elem_of_map_to_list in He. by rewrite He.
  - intros [Hp Hf]. exists (dir ++ [bin_name i], File v). rewrite elem_of_map_to_list, row_of_Some.
    destruct (m !! (dir ++ [bin_name i])) as [[|w]|] eqn:E; naive_solver.
Qed.

Lemma NoDup_omap_fst {K A B} (f : K * A → option (Z * B)) (l : list (K * A)) :
  (∀ e e' r r', f e = Some r → f e' = Some r' → r.1 = r'.1 → e.1 = e'.1) →
  NoDup l.*1 → NoDup (omap f l).*1.
Proof.
  intros Hf. induction l as [|e l IH]; cbn; [intros; constructor|]. intros [Hn Hd]%NoDup_cons.
  destruct (f e) as [r|] eqn:E; [|by apply IH]. cbn. apply NoDup_cons. split; [|by apply IH].
  intros (r' & Er & (e' & He' & Ef)%list_elem_of_omap)%list_elem_of_fmap. apply Hn.
  rewrite (Hf _ _ _ _ E Ef Er). by apply list_elem_of_fmap_2.
Qed.

Lemma rows_NoDup m dir : NoDup (rows m dir).*1.
Proof.
  apply NoDup_omap_fst; [|apply NoDup_fst_map_to_list].
  intros e e' [i v] [j w] [-> _]%row_of_Some [-> _]%row_of_Some. cbn. by intros ->.
Qed.

Definition log_of (m : gmap path node) (dir : path) : log_rows := order_by fst (rows m dir).

Lemma elem_log_of m dir i v :
  (i, v) ∈ log_of m dir ↔ parse_bin (bin_name i) = Some i ∧ files m (dir ++ [bin_name i]) = Some v.
Proof. unfold log_of, order_by. by rewrite merge_sort_Permutation, elem_rows. Qed.

(** Sorted by id without a repeated id is strictly sorted. *)
Lemma sorted_strict {R} (f : R → Z) l :
  StronglySorted (by_id f) l → NoDup (f <$> l) → StronglySorted Z.lt (f <$> l).
Proof.
  induction l as [|x l IH]; cbn; [constructor|]. intros [Hf Hs]%StronglySorted_cons [Hn Hd]%NoDup_cons.
  apply StronglySorted_cons. split; [|by apply IH]. rewrite Forall_fmap, Forall_forall in *.
  intros y Hy. pose proof (Hf y Hy) as Hle. unfold by_id in Hle. cbn.
  assert (f x ≠ f y); [|lia]. intros E. apply Hn. rewrite E. by apply list_elem_of_fmap_2.
Qed.

Lemma order_by_strict {R} (f : R → Z) l : NoDup (f <$> l) → StronglySorted Z.lt (f <$> order_by f l).
Proof.
  intros Hn. apply sorted_strict; [apply StronglySorted_merge_sort; apply _|].
  unfold order_by. by rewrite merge_sort_Permutation.
Qed.

Lemma log_of_sorted m dir : StronglySorted Z.lt (log_of m dir).*1.
Proof. apply order_by_strict, rows_NoDup. Qed.

(** Strictly sorted rows are determined by their members. *)
Lemma sorted_ext {R} (f : R → Z) (l l' : list R) :
  StronglySorted Z.lt (f <$> l) → StronglySorted Z.lt (f <$> l') → (∀ x, x ∈ l ↔ x ∈ l') → l = l'.
Proof.
  revert l'. induction l as [|x l IH]; intros [|y l'] Hs Hs' Hx.
  - done.
  - exfalso. apply (not_elem_of_nil y), Hx, list_elem_of_here.
  - exfalso. apply (not_elem_of_nil x), Hx, list_elem_of_here.
  - cbn in Hs, Hs'. apply StronglySorted_cons in Hs as [Hf Hs].
    apply StronglySorted_cons in Hs' as [Hf' Hs'].
    rewrite Forall_fmap, Forall_forall in Hf, Hf'. cbn in Hf, Hf'.
    assert (x = y) as <-.
    { pose proof (proj1 (Hx x) (list_elem_of_here _ _)) as [|Hxy]%elem_of_cons; [done|].
      pose proof (proj2 (Hx y) (list_elem_of_here _ _)) as [|Hyx]%elem_of_cons; [done|].
      apply Hf' in Hxy. apply Hf in Hyx. lia. }
    f_equal. apply IH; [done..|]. intros z. pose proof (Hx z) as Hz. rewrite !elem_of_cons in Hz.
    assert (∀ k : list R, (∀ w, w ∈ k → f x < f w) → z ∈ k → z ≠ x) as Hne.
    { intros k Hk Hzk ->. apply Hk in Hzk. lia. }
    pose proof (Hne l Hf). pose proof (Hne l' Hf'). naive_solver.
Qed.

(** * The contract *)

Definition fs_view (s : Fs) : view :=
  View (λ sc k, files (nodes s) (push (scope_dir sc) (kv_name k)))
       (λ sc ns k, log_of (nodes s) (log_dir sc ns k))
       (λ sc, (log_of (nodes s) (queue_dir sc)).*2).

Definition not_file (s : Fs) (p : path) : Prop := ∀ v, nodes s !! p ≠ Some (File v).

(** Below a scope's directory, logs and the queue are directories whose entries
    are files named by their ids, values are files, and no temporary is left. *)
Record fs_inv (s : Fs) : Prop := {
  fi_max : name_max s = None;
  fi_base : not_file s [];
  fi_scope sc : sc ≠ [] → not_file s [hex sc];
  fi_sub sc d : sc ≠ [] → is_sub d → not_file s [hex sc; d];
  fi_kv sc k : sc ≠ [] → nodes s !! [hex sc; kv_name k] ≠ Some Dir;
  fi_tmp sc k : sc ≠ [] → nodes s !! [hex sc; kv_tmp k] = None;
  fi_entry sc d f nd : sc ≠ [] → is_sub d → nodes s !! [hex sc; d; f] = Some nd →
    nodes s !! [hex sc; d] = Some Dir ∧
    ∃ i v, nd = File v ∧ f = bin_name i ∧ 0 ≤ i < 2 ^ 63;
  fi_up sc x r : sc ≠ [] → is_Some (nodes s !! (hex sc :: x :: r)) → nodes s !! [hex sc] = Some Dir;
}.

Definition fs_room (s : Fs) (n : Z) : Prop :=
  n < 2 ^ 63 - 1 ∧
  ∀ sc d i, sc ≠ [] → is_sub d → 0 ≤ i < 2 ^ 63 →
    is_Some (nodes s !! [hex sc; d; bin_name i]) → i + n < 2 ^ 63 - 1.

Lemma scope_dir_ne sc : sc ≠ [] → scope_dir sc = [hex sc].
Proof. by destruct sc. Qed.

Lemma log_name_ne ns k : log_name ns k ≠ [].
Proof. unfold log_name. by destruct (hex ns). Qed.

Lemma push_ne p n : n ≠ [] → push p n = p ++ [n].
Proof. by destruct n. Qed.

Lemma log_dir_eq sc ns k : log_dir sc ns k = scope_dir sc ++ [log_name ns k].
Proof. apply push_ne, log_name_ne. Qed.

Lemma log_dir_ne sc ns k : sc ≠ [] → log_dir sc ns k = [hex sc; log_name ns k].
Proof. intros. by rewrite log_dir_eq, scope_dir_ne. Qed.

Lemma queue_dir_ne sc : sc ≠ [] → queue_dir sc = [hex sc; queue_name].
Proof. intros. unfold queue_dir. by rewrite scope_dir_ne, push_ne. Qed.

Lemma sub_not_hex d b : is_sub d → d ≠ hex b.
Proof.
  intros Hd E. assert (x5f ∉ hex b) as Hn by (apply hex_free; vm_compute; naive_solver).
  apply Hn. rewrite <- E. destruct Hd as [->|(ns & k & ->)]; [apply list_elem_of_here|].
  apply elem_of_app. right. apply list_elem_of_here.
Qed.

Lemma log_is_sub ns k : is_sub (log_name ns k).
Proof. right. by eexists _, _. Qed.
Lemma queue_is_sub : is_sub queue_name.
Proof. by left. Qed.
#[local] Hint Resolve log_is_sub queue_is_sub log_of_sorted : vgi.

Lemma bin_name_ne i : bin_name i ≠ [].
Proof. unfold bin_name. by destruct (as_bytes (pad020 i)). Qed.

(** The view only depends on the files. *)
Lemma log_of_files m m' dir dir' :
  (∀ i, files m (dir ++ [bin_name i]) = files m' (dir' ++ [bin_name i])) → log_of m dir = log_of m' dir'.
Proof.
  intros Hf. apply (sorted_ext fst); [apply log_of_sorted..|]. intros [i v].
  by rewrite !elem_log_of, Hf.
Qed.

Lemma fs_view_files s s' : (∀ p, files (nodes s) p = files (nodes s') p) → fs_view s ≡ fs_view s'.
Proof.
  intros Hf. split_and!; cbn; intros.
  - apply Hf.
  - by apply log_of_files.
  - f_equal. by apply log_of_files.
Qed.

Lemma path_head_inj (a b : bytes) (l l' : path) : a :: l = b :: l' → a = b.
Proof. by intros [=]. Qed.

Lemma path2_inj (a b a' b' : bytes) : [a; b] = [a'; b'] → a = a' ∧ b = b'.
Proof. by intros [=]. Qed.

Lemma path3_inj (a b c a' b' c' : bytes) : [a; b; c] = [a'; b'; c'] → a = a' ∧ b = b' ∧ c = c'.
Proof. by intros [=]. Qed.

(** ** Directories that appear *)

Definition grown (s s' : Fs) (p : path) : Prop :=
  name_max s' = name_max s ∧
  (∀ q, nodes s' !! q = nodes s !! q ∨
        nodes s !! q = None ∧ nodes s' !! q = Some Dir ∧ q `prefix_of` p) ∧
  ∀ q, q `prefix_of` p → nodes s' !! q = Some Dir.

Lemma prefix_snoc (q p : path) n : q `prefix_of` p ++ [n] → q `prefix_of` p ∨ q = p ++ [n].
Proof.
  intros [l Hl]. destruct l as [|x l _] using rev_ind; [right; by rewrite app_nil_r in Hl|].
  rewrite app_assoc in Hl. apply app_inj_tail in Hl as [-> _]. left. by eexists.
Qed.

Lemma mkdirs_grown s at_ rest :
  name_max s = None → (∀ q, q `prefix_of` at_ → nodes s !! q = Some Dir) →
  (∀ q, q `prefix_of` at_ ++ rest → not_file s q) → grown s (mkdirs s at_ rest) (at_ ++ rest).
Proof.
  revert s at_. induction rest as [|n rest IH]; intros s at_ Hmax Hat Hnf; cbn [mkdirs].
  { rewrite app_nil_r. split_and!; auto. }
  replace (at_ ++ n :: rest) with ((at_ ++ [n]) ++ rest) in * by (by rewrite <- app_assoc).
  destruct (nodes s !! (at_ ++ [n])) as [[|v]|] eqn:E.
  - apply IH; [done| |done]. intros q [Hq| ->]%prefix_snoc; auto.
  - exfalso. apply (Hnf (at_ ++ [n]) (prefix_app_r _ _ _ ltac:(done)) v E).
  - unfold name_ok. rewrite Hmax. set (s1 := set_nodes _ _ _).
    assert (∀ q, nodes s1 !! q = if decide (q = at_ ++ [n]) then Some Dir else nodes s !! q) as Hs1.
    { intros q. cbn. rewrite lookup_insert. by repeat case_decide; simplify_eq. }
    destruct (IH s1 (at_ ++ [n])) as (Hm & Hg & Hd); [done| | |].
    { intros q Hq. rewrite Hs1. case_decide; [done|]. apply prefix_snoc in Hq as [Hq| ->]; [by apply Hat|done]. }
    { intros q Hq v. rewrite Hs1. case_decide; [done|]. by apply Hnf. }
    split; [by rewrite Hm|]. split; [|done]. intros q.
    destruct (Hg q) as [->|(Hn & Hd' & Hp)]; rewrite Hs1 in *; case_decide as Eq; try done; auto.
    subst q. right. split; [done|]. split; [done|]. by apply prefix_app_r.
Qed.

Lemma create_dir_all_grown s p :
  name_max s = None → (∀ q, q `prefix_of` p → not_file s q) → grown s (create_dir_all s p) p.
Proof.
  intros Hmax Hnf. unfold create_dir_all.
  assert (∀ q : path, q `prefix_of` [] → q = []) as Hnil by (intros q; apply prefix_nil_inv).
  destruct (nodes s !! []) as [[|v]|] eqn:E.
  - apply (mkdirs_grown s [] p); [done| |done]. by intros q ->%Hnil.
  - exfalso. by apply (Hnf [] (prefix_nil _) v).
  - set (s1 := set_nodes _ _ _).
    assert (∀ q, nodes s1 !! q = if decide (q = []) then Some Dir else nodes s !! q) as Hs1.
    { intros q. cbn. rewrite lookup_insert. by repeat case_decide; simplify_eq. }
    destruct (mkdirs_grown s1 [] p) as (Hm & Hg & Hd); [done| | |].
    { intros q ->%Hnil. rewrite Hs1. by rewrite decide_True. }
    { intros q Hq v. rewrite Hs1. case_decide; [done|]. by apply Hnf. }
    split; [by rewrite Hm|]. split; [|done]. intros q.
    destruct (Hg q) as [->|(Hn & Hd' & Hp)]; rewrite Hs1 in *; case_decide as Eq; try done; auto.
    subst q. right. split; [done|]. split; [done|]. apply prefix_nil.
Qed.

Lemma grown_files s s' p q : grown s s' p → files (nodes s') q = files (nodes s) q.
Proof. intros (_ & Hg & _). unfold files. destruct (Hg q) as [->|(-> & -> & _)]; done. Qed.

Lemma grown_view s s' p : grown s s' p → fs_view s' ≡ fs_view s.
Proof. intros Hg. apply fs_view_files. intros q. by eapply grown_files. Qed.

(** The directories the methods create. *)
Definition made_dir (sc : bytes) (p : path) : Prop := p = [hex sc] ∨ ∃ d, is_sub d ∧ p = [hex sc; d].

Lemma grown_short s s' sc p q :
  made_dir sc p → grown s s' p → (2 < length q)%nat → nodes s' !! q = nodes s !! q.
Proof.
  intros Hp (_ & Hg & _) Hq. destruct (Hg q) as [|(_ & _ & Hpre%prefix_length)]; [done|].
  destruct Hp as [->|(d & _ & ->)]; cbn in Hpre; lia.
Qed.

Lemma grown_kv s s' sc p sc' k r :
  made_dir sc p → grown s s' p →
  nodes s' !! [hex sc'; kv_name k ++ r] = nodes s !! [hex sc'; kv_name k ++ r].
Proof.
  intros Hp (_ & Hg & _). destruct (Hg [hex sc'; kv_name k ++ r]) as [|(_ & _ & [l Hl])]; [done|].
  destruct Hp as [->|(d & Hd & ->)]; [done|]. cbn in Hl. injection Hl as _ Hl _.
  by destruct (kv_not_sub k r d Hd).
Qed.

Lemma grown_inv s s' sc p : made_dir sc p → grown s s' p → fs_inv s → fs_inv s'.
Proof.
  intros Hp Hg Hi. pose proof Hg as (Hm & Hq & Hd).
  assert (∀ q, not_file s q → not_file s' q) as Hnf.
  { intros q Hn v. destruct (Hq q) as [->|(_ & -> & _)]; [apply Hn|done]. }
  split.
  - by rewrite Hm, fi_max.
  - by apply Hnf, fi_base.
  - intros sc' Hsc. by apply Hnf, fi_scope.
  - intros sc' d Hsc Hsub. by apply Hnf, fi_sub.
  - intros sc' k Hsc. pose proof (grown_kv _ _ _ _ sc' k [] Hp Hg) as E. rewrite app_nil_r in E.
    rewrite E. by apply fi_kv.
  - intros sc' k Hsc. unfold kv_tmp. rewrite (grown_kv _ _ _ _ _ _ _ Hp Hg). by apply fi_tmp.
  - intros sc' d f nd Hsc Hsub. rewrite (grown_short _ _ _ _ _ Hp Hg) by (cbn; lia).
    intros E. destruct (fi_entry _ Hi sc' d f nd Hsc Hsub E) as [Hdir ?]. split; [|done].
    destruct (Hq [hex sc'; d]) as [->|(Hn & _)]; [done|congruence].
  - intros sc' x l Hsc Hx. destruct (Hq (hex sc' :: x :: l)) as [E|(_ & _ & Hpre)].
    + rewrite E in Hx. apply (fi_up _ Hi) in Hx; [|done].
      destruct (Hq [hex sc']) as [->|(Hn & _)]; [done|congruence].
    + apply Hd. etrans; [|exact Hpre]. by exists (x :: l).
Qed.

Lemma grown_room s s' sc p n : made_dir sc p → grown s s' p → fs_room s n → fs_room s' n.
Proof.
  intros Hp Hg [Hn Hr]. split; [done|]. intros sc' d i Hsc Hd Hb.
  rewrite (grown_short _ _ _ _ _ Hp Hg) by (cbn; lia). by apply Hr.
Qed.

(** [create_dir_all] of such a directory. *)
Lemma made_spec s sc p :
  fs_inv s → sc ≠ [] → made_dir sc p →
  let s' := create_dir_all s p in
  nodes s' !! p = Some Dir ∧ fs_inv s' ∧ fs_view s' ≡ fs_view s ∧
  (∀ n, fs_room s n → fs_room s' n) ∧ (∀ q, files (nodes s') q = files (nodes s) q) ∧
  (∀ q, (2 < length q)%nat → nodes s' !! q = nodes s !! q).
Proof.
  intros Hi Hsc Hp s'. assert (grown s s' p) as Hg.
  { apply create_dir_all_grown.
    - apply Hi.
    - intros q Hq. destruct Hp as [->|(d & Hdd & ->)].
    + destruct Hq as [l Hl]. destruct q as [|a [|b q]]; [apply Hi| |done].
      injection Hl as <- _. by apply fi_scope.
    + destruct Hq as [l Hl]. destruct q as [|a [|b [|c q]]]; [apply Hi|..|done].
      * injection Hl as <- _. by apply fi_scope.
      * injection Hl as <- <- _. by apply fi_sub. }
  split_and!; [by apply Hg|by eapply grown_inv|by eapply grown_view| | |].
  - intros n. by eapply grown_room.
  - intros q. by eapply grown_files.
  - intros q. by eapply grown_short.
Qed.

(** ** One file that changes *)

Definition upd (s s' : Fs) (p : path) (o : option bytes) : Prop :=
  name_max s' = name_max s ∧
  ∀ q, nodes s' !! q = if decide (q = p) then File <$> o else nodes s !! q.

Lemma upd_files s s' p o q :
  upd s s' p o → files (nodes s') q = if decide (q = p) then o else files (nodes s) q.
Proof. intros [_ Hu]. unfold files. rewrite Hu. case_decide; [by destruct o|done]. Qed.

Lemma upd_kv_inv s s' sc k o :
  sc ≠ [] → nodes s !! [hex sc] = Some Dir → upd s s' [hex sc; kv_name k] o → fs_inv s →
  fs_inv s' ∧ (∀ n, fs_room s n → fs_room s' n).
Proof.
  intros Hsc Hdir [Hm Hu] Hi. split.
  2:{ intros n [Hn Hr]. split; [done|]. intros sc' d i Hs' Hd Hb. rewrite Hu, decide_False by done.
      by apply Hr. }
  split.
  - by rewrite Hm, fi_max.
  - intros v. rewrite Hu, decide_False by done. by apply fi_base.
  - intros sc' Hs' v. rewrite Hu, decide_False by done. by apply fi_scope.
  - intros sc' d Hs' Hd v. rewrite Hu, decide_False; [by apply fi_sub|].
    intros [_ E]%path2_inj. apply (kv_not_sub k [] d Hd). by rewrite app_nil_r.
  - intros sc' k' Hs'. rewrite Hu. case_decide; [by destruct o|]. by apply fi_kv.
  - intros sc' k' Hs'. rewrite Hu, decide_False; [by apply fi_tmp|].
    intros [_ E]%path2_inj. by apply (kv_tmp_not_kv k' k).
  - intros sc' d f nd Hs' Hd. rewrite Hu, decide_False by done. intros E.
    rewrite Hu, decide_False; [by apply (fi_entry _ Hi) in E|].
    intros [_ E']%path2_inj. apply (kv_not_sub k [] d Hd). by rewrite app_nil_r.
  - intros sc' x l Hs'. rewrite !Hu. rewrite (decide_False (P := [hex sc'] = _)) by done.
    case_decide as E; [|by apply (fi_up _ Hi)]. by injection E as -> _ _.
Qed.

Lemma upd_entry_inv s s' sc d i o n :
  sc ≠ [] → is_sub d → 0 ≤ i < 2 ^ 63 → nodes s !! [hex sc; d] = Some Dir →
  upd s s' [hex sc; d; bin_name i] o → fs_inv s → fs_room s n → (o ≠ None → i + n < 2 ^ 63 - 1) →
  fs_inv s' ∧ fs_room s' n.
Proof.
  intros Hsc Hd Hb Hdir [Hm Hu] Hi [Hn Hr] Hin. split.
  2:{ split; [done|]. intros sc' d' j Hs' Hd' Hj. rewrite Hu. case_decide as E.
      - apply path3_inj in E as (_ & _ & E). apply bin_name_inj in E as ->; [|done..]. destruct o; [intros _; by apply Hin|].
        by intros [??].
      - by apply Hr. }
  split.
  - by rewrite Hm, fi_max.
  - intros v. rewrite Hu, decide_False by done. by apply fi_base.
  - intros sc' Hs' v. rewrite Hu, decide_False by done. by apply fi_scope.
  - intros sc' d' Hs' Hd' v. rewrite Hu, decide_False by done. by apply fi_sub.
  - intros sc' k' Hs'. rewrite Hu, decide_False by done. by apply fi_kv.
  - intros sc' k' Hs'. rewrite Hu, decide_False by done. by apply fi_tmp.
  - intros sc' d' f nd Hs' Hd'. rewrite !Hu. rewrite (decide_False (P := [hex sc'; d'] = _)) by done.
    case_decide as E.
    + apply path3_inj in E as (Esc & -> & ->). destruct o as [v|]; [|done]. intros [= <-]. split; [by rewrite Esc|].
      by exists i, v.
    + by apply (fi_entry _ Hi).
  - intros sc' x l Hs'. rewrite !Hu. rewrite (decide_False (P := [hex sc'] = _)) by done.
    case_decide as E; [|by apply (fi_up _ Hi)]. injection E as -> _ _. intros _.
    apply (fi_up _ Hi sc d []); [done|by rewrite Hdir].
Qed.

Lemma log_of_other s s' dir' i o dir :
  upd s s' (dir' ++ [bin_name i]) o → dir ≠ dir' → log_of (nodes s') dir = log_of (nodes s) dir.
Proof.
  intros Hu Hne. apply log_of_files. intros j. rewrite (upd_files _ _ _ _ _ Hu), decide_False; [done|].
  intros [E _]%app_inj_tail. done.
Qed.

Lemma log_of_add s s' dir i v :
  upd s s' (dir ++ [bin_name i]) (Some v) → 0 ≤ i < 2 ^ 63 →
  Forall (λ e, e.1 < i) (log_of (nodes s) dir) →
  log_of (nodes s') dir = log_of (nodes s) dir ++ [(i, v)].
Proof.
  intros Hu Hb Hf. apply (sorted_ext fst); [apply log_of_sorted| |].
  { rewrite fmap_app. apply StronglySorted_snoc; [apply log_of_sorted|]. by rewrite Forall_fmap. }
  intros [j w]. rewrite elem_of_app, list_elem_of_singleton, !elem_log_of, (upd_files _ _ _ _ _ Hu).
  pose proof (parse_bin_name i Hb) as Hp. case_decide as E.
  - apply app_inj_tail in E as [_ E]. rewrite E, Hp. split.
    + intros [[= ->] [= ->]]. by right.
    + intros [[[= ->] Hw]|[= -> ->]]; [|done].
      rewrite Forall_forall in Hf. assert ((j, w) ∈ log_of (nodes s) dir) as Hin.
      { apply elem_log_of. by rewrite Hp. }
      apply Hf in Hin. cbn in Hin. lia.
  - split; [by left|]. intros [?|[= -> ->]]; [done|]. by destruct E.
Qed.

Lemma log_of_del s s' dir i v l :
  upd s s' (dir ++ [bin_name i]) None → log_of (nodes s) dir = (i, v) :: l → log_of (nodes s') dir = l.
Proof.
  intros Hu Hl. pose proof (log_of_sorted (nodes s) dir) as Hs. rewrite Hl in Hs. cbn in Hs.
  apply StronglySorted_cons in Hs as [Hf Hs]. rewrite Forall_fmap, Forall_forall in Hf. cbn in Hf.
  apply (sorted_ext fst); [apply log_of_sorted|done|].
  assert ((i, v) ∈ log_of (nodes s) dir) as [Hp _]%elem_log_of by (rewrite Hl; apply list_elem_of_here).
  intros [j w]. rewrite elem_log_of, (upd_files _ _ _ _ _ Hu). case_decide as E.
  - split; [by intros [??]|]. intros Hin. apply app_inj_tail in E as [_ E].
    assert ((j, w) ∈ log_of (nodes s) dir) as [Hp' _]%elem_log_of by (rewrite Hl; by apply list_elem_of_further).
    rewrite E, Hp in Hp'. injection Hp' as <-. apply Hf in Hin. cbn in Hin. lia.
  - rewrite <- elem_log_of, Hl, elem_of_cons. split; [|by right].
    intros [[= -> ->]|?]; [by destruct E|done].
Qed.

(** ** What the view shows of a change *)

Lemma upd_kv_view s s' sc k o :
  sc ≠ [] → upd s s' [hex sc; kv_name k] o → fs_view s' ≡ abs_kv_set (fs_view s) sc k o.
Proof.
  intros Hsc Hu.
  assert (∀ sc' d j, is_sub d → files (nodes s') (scope_dir sc' ++ [d; bin_name j]) =
    files (nodes s) (scope_dir sc' ++ [d; bin_name j])) as Hlog.
  { intros sc' d j Hd. rewrite (upd_files _ _ _ _ _ Hu), decide_False; [done|].
    destruct sc' as [|x sc']; [|done]. cbn [scope_dir push hex app mbind list_bind].
    intros [E _]%path2_inj. by apply (sub_not_hex d sc). }
  split_and!; cbn.
  - intros sc' k'. rewrite push_ne by done. rewrite (upd_files _ _ _ _ _ Hu).
    destruct (decide ((sc', k') = (sc, k))) as [[= -> ->]|Hne].
    + by rewrite scope_dir_ne, decide_True.
    + rewrite decide_False; [done|]. destruct sc' as [|x sc']; [done|]. rewrite scope_dir_ne by done.
      intros [E1%(inj hex) E2%(inj kv_name)]%path2_inj. by simplify_eq.
  - intros sc' ns' k'. apply log_of_files. intros j. rewrite log_dir_eq, <- app_assoc.
    apply Hlog, log_is_sub.
  - intros sc'. f_equal. apply log_of_files. intros j. unfold queue_dir. rewrite push_ne by done.
    rewrite <- app_assoc. apply Hlog, queue_is_sub.
Qed.

Lemma sub_dir_inj sc d sc' d' : sc ≠ [] → scope_dir sc' ++ [d'] = [hex sc; d] → sc' = sc ∧ d' = d.
Proof.
  intros Hsc E. destruct sc' as [|x sc']; [done|]. rewrite scope_dir_ne in E by done.
  apply path2_inj in E as [E%(inj hex) ->]. done.
Qed.

Lemma upd_entry_kv s s' sc d i o sc' k :
  upd s s' [hex sc; d; bin_name i] o →
  v_kv (fs_view s') sc' k = v_kv (fs_view s) sc' k.
Proof.
  intros Hu. cbn. rewrite push_ne by done. rewrite (upd_files _ _ _ _ _ Hu), decide_False; [done|].
  by destruct sc'.
Qed.

Lemma upd_log_view s s' sc ns k i v :
  sc ≠ [] → 0 ≤ i < 2 ^ 63 → upd s s' [hex sc; log_name ns k; bin_name i] (Some v) →
  Forall (λ e, e.1 < i) (v_log (fs_view s) sc ns k) →
  fs_view s' ≡ abs_append (fs_view s) sc ns k [(i, v)].
Proof.
  intros Hsc Hb Hu Hf. split_and!.
  - intros sc' k'. by eapply upd_entry_kv.
  - intros sc' ns' k'. cbn. cbn in Hf. rewrite log_dir_ne in Hf by done.
    destruct (decide ((sc', ns', k') = (sc, ns, k))) as [[= -> -> ->]|Hne].
    + rewrite log_dir_ne by done. by apply log_of_add.
    + rewrite app_nil_r. apply (log_of_other s s' [hex sc; log_name ns k] i (Some v)); [done|].
      rewrite log_dir_eq. intros [-> E]%sub_dir_inj; [|done]. apply log_name_inj in E as [-> ->]. done.
  - intros sc'. cbn. f_equal. apply (log_of_other s s' [hex sc; log_name ns k] i (Some v)); [done|].
    unfold queue_dir. rewrite push_ne by done. intros [-> E]%sub_dir_inj; [|done].
    by apply (log_not_queue ns k).
Qed.

Lemma upd_queue_view s s' sc i o q :
  sc ≠ [] → upd s s' [hex sc; queue_name; bin_name i] o →
  v_queue (fs_view s') sc = q → fs_view s' ≡ abs_queue_set (fs_view s) sc q.
Proof.
  intros Hsc Hu Hq. split_and!.
  - intros sc' k'. by eapply upd_entry_kv.
  - intros sc' ns' k'. cbn. apply (log_of_other s s' [hex sc; queue_name] i o); [done|].
    rewrite log_dir_eq. intros [_ E]%sub_dir_inj; [|done]. by apply log_not_queue in E.
  - intros sc'. cbn. case_decide as E; [by subst|]. f_equal.
    apply (log_of_other s s' [hex sc; queue_name] i o); [done|].
    unfold queue_dir. rewrite push_ne by done. by intros [-> _]%sub_dir_inj.
Qed.

(** ** Reading a directory *)

Lemma omap_omap_fst {E A B} (f : E → option A) (p : A → option Z) (g : E → option (Z * B)) l :
  Forall (λ e, (a ← f e; p a) = fst <$> g e) l → omap p (omap f l) = (omap g l).*1.
Proof.
  induction 1 as [|e l He _ IH]; [done|]. cbn. destruct (f e) as [a|]; cbn in *.
  - destruct (p a), (g e); cbn in *; simplify_eq; by f_equal.
  - destruct (g e); [done|]. done.
Qed.

Lemma bin_ids_rows s sc d :
  fs_inv s → sc ≠ [] → is_sub d → bin_ids s [hex sc; d] = (rows (nodes s) [hex sc; d]).*1.
Proof.
  intros Hi Hsc Hd. unfold bin_ids, read_dir, rows.
  assert (Forall (λ e, (n ← child_name [hex sc; d] e.1; parse_bin n) =
    fst <$> row_of [hex sc; d] e) (map_to_list (nodes s))) as Hall.
  { apply Forall_forall. intros [p nd] Hin. apply elem_of_map_to_list in Hin. unfold row_of. cbn [fst snd].
    destruct (child_name [hex sc; d] p) as [n|] eqn:Ec; cbn [mbind option_bind]; [|by destruct nd].
    apply child_name_Some in Ec as ->.
    destruct (fi_entry _ Hi sc d n nd Hsc Hd Hin) as (_ & i & v & -> & -> & Hb).
    rewrite parse_bin_name by done. cbn. by rewrite decide_True. }
  destruct (nodes s !! [hex sc; d]) as [[|w]|] eqn:E.
  - by apply omap_omap_fst.
  - by destruct (fi_sub _ Hi sc d Hsc Hd w).
  - assert (Forall (λ e, row_of [hex sc; d] e = None) (map_to_list (nodes s))) as Hnone.
    { apply Forall_forall. intros e Hin. destruct (row_of [hex sc; d] e) as [[i v]|] eqn:Er; [|done].
      apply row_of_Some in Er as [-> _]. apply elem_of_map_to_list in Hin. cbn [app] in Hin.
      apply (fi_entry _ Hi) in Hin as [Hin _]; [congruence|done..]. }
    induction Hnone as [|e l He _ IH]; [done|]. cbn. rewrite He. apply IH. by inversion Hall.
Qed.

Lemma order_bin_ids s sc d (P : Z → Prop) `{∀ i, Decision (P i)} :
  fs_inv s → sc ≠ [] → is_sub d →
  order_by id (filter P (bin_ids s [hex sc; d])) =
  (filter (λ e, P e.1) (log_of (nodes s) [hex sc; d])).*1.
Proof.
  intros Hi Hsc Hd. rewrite bin_ids_rows by done. apply (sorted_ext id).
  - apply order_by_strict. rewrite list_fmap_id. apply NoDup_filter, rows_NoDup.
  - rewrite list_fmap_id. apply sorted_filter, log_of_sorted.
  - intros i. unfold order_by. rewrite merge_sort_Permutation, list_elem_of_filter.
    rewrite !list_elem_of_fmap. unfold log_of, order_by. split.
    + intros (Hp & [j v] & -> & Hin). exists (j, v). split; [done|]. apply list_elem_of_filter.
      by rewrite merge_sort_Permutation.
    + intros ([j v] & -> & [Hp Hin]%list_elem_of_filter). rewrite merge_sort_Permutation in Hin.
      split; [done|]. by exists (j, v).
Qed.

Lemma max_id_spec s dir :
  (∀ i, i ∈ bin_ids s dir → i ≤ max_id s dir) ∧ (max_id s dir = -1 ∨ max_id s dir ∈ bin_ids s dir).
Proof.
  unfold max_id. destruct (bin_ids s dir) as [|j l]; [split; [by intros i ?%elem_of_nil|by left]|].
  assert (j ≤ foldr Z.max j l ∧ (∀ i, i ∈ l → i ≤ foldr Z.max j l) ∧ foldr Z.max j l ∈ j :: l) as (H1 & H2 & H3).
  { induction l as [|x l (A & B & C)]; cbn.
    - split; [lia|]. split; [by intros i ?%elem_of_nil|apply list_elem_of_here].
    - split; [lia|]. split.
      + intros i [->|Hin]%elem_of_cons; [lia|]. apply B in Hin. lia.
      + destruct (Z.max_spec x (foldr Z.max j l)) as [[_ ->]|[_ ->]]; [set_solver|set_solver]. }
  split; [|by right]. intros i [->|Hin]%elem_of_cons; auto.
Qed.

(** The id after the largest is free, larger than the rest and in range. *)
Lemma next_id_spec s sc d n :
  fs_inv s → sc ≠ [] → is_sub d → fs_room s n → 0 ≤ n →
  let i := max_id s [hex sc; d] + 1 in
  wrap_i64 i = i ∧ 0 ≤ i ∧ i + n < 2 ^ 63 ∧ Forall (λ e, e.1 < i) (log_of (nodes s) [hex sc; d]).
Proof.
  intros Hi Hsc Hd [Hn Hr] Hn0 i. destruct (max_id_spec s [hex sc; d]) as [Hle Hin].
  rewrite bin_ids_rows in Hle, Hin by done.
  assert (0 ≤ i ∧ i + n < 2 ^ 63) as Hb.
  { unfold i. destruct Hin as [->|([j v] & Ej & [Hp Hf]%elem_rows)%list_elem_of_fmap]; [lia|].
    cbn in Ej. rewrite Ej. unfold files in Hf. cbn [app] in Hf.
    destruct (nodes s !! [hex sc; d; bin_name j]) as [nd|] eqn:E; [|done].
    destruct (fi_entry _ Hi sc d _ nd Hsc Hd E) as (_ & j' & v' & -> & Ej' & Hb).
    assert (j = j') as -> by (rewrite Ej', parse_bin_name in Hp by done; by injection Hp).
    assert (j' + n < 2 ^ 63 - 1) by (apply (Hr sc d j'); [done..|by eexists]). lia. }
  split; [apply wrap_i64_id; unfold i64_range; lia|]. split; [lia|]. split; [lia|].
  apply Forall_forall. intros [j v] Hj. unfold log_of, order_by in Hj. rewrite merge_sort_Permutation in Hj.
  apply (list_elem_of_fmap_2 fst) in Hj. apply Hle in Hj. cbn in *. lia.
Qed.

Lemma parent_snoc (p : path) n : parent (p ++ [n]) = p.
Proof. apply removelast_last. Qed.

Lemma can_create_snoc s p n :
  name_max s = None → nodes s !! p = Some Dir → can_create s (p ++ [n]) = true.
Proof.
  intros Hm Hp. unfold can_create, name_ok. rewrite parent_snoc, Hm, andb_true_r.
  apply bool_decide_true. split; [by destruct p|done].
Qed.

Lemma create_new_fresh s sc d i v :
  fs_inv s → sc ≠ [] → is_sub d → 0 ≤ i < 2 ^ 63 → nodes s !! [hex sc; d] = Some Dir →
  Forall (λ e, e.1 < i) (log_of (nodes s) [hex sc; d]) →
  ∃ s', create_new s (push [hex sc; d] (bin_name i)) v = (Created, s') ∧
    upd s s' [hex sc; d; bin_name i] (Some v).
Proof.
  intros Hi Hsc Hd Hb Hdir Hf. unfold create_new. rewrite push_ne by apply bin_name_ne. cbn [app].
  destruct (nodes s !! [hex sc; d; bin_name i]) as [nd|] eqn:E.
  - exfalso. destruct (fi_entry _ Hi sc d _ nd Hsc Hd E) as (_ & j & w & -> & _ & _).
    assert ((i, w) ∈ log_of (nodes s) [hex sc; d]) as Hin.
    { apply elem_log_of. rewrite parse_bin_name by done. unfold files. cbn [app]. by rewrite E. }
    rewrite Forall_forall in Hf. apply Hf in Hin. cbn in Hin. lia.
  - pose proof (can_create_snoc s [hex sc; d] (bin_name i) (fi_max _ Hi) Hdir) as Hc.
    cbn [app] in Hc. rewrite Hc. eexists. split; [done|]. split; [done|].
    intros q. cbn. rewrite lookup_insert. repeat case_decide; congruence.
Qed.

(** ** The methods *)

Lemma room_weaken s n m : fs_room s n → 0 ≤ m ≤ n → fs_room s m.
Proof.
  intros [Hn Hr] Hm. split; [lia|]. intros sc d i Hsc Hd Hb He. specialize (Hr sc d i Hsc Hd Hb He). lia.
Qed.

Lemma create_entry s sc d i v n :
  fs_inv s → sc ≠ [] → is_sub d → fs_room s n → 0 ≤ n → 0 ≤ i → i + 1 + n < 2 ^ 63 →
  nodes s !! [hex sc; d] = Some Dir → Forall (λ e, e.1 < i) (log_of (nodes s) [hex sc; d]) →
  ∃ s', create_new s (push [hex sc; d] (bin_name i)) v = (Created, s') ∧
    upd s s' [hex sc; d; bin_name i] (Some v) ∧ fs_inv s' ∧ fs_room s' n ∧
    nodes s' !! [hex sc; d] = Some Dir ∧
    log_of (nodes s') [hex sc; d] = log_of (nodes s) [hex sc; d] ++ [(i, v)].
Proof.
  intros Hi Hsc Hd Hr Hn Hi0 Hb Hdir Hf.
  destruct (create_new_fresh s sc d i v) as (s' & Hc & Hu); [done..|lia|done|done|].
  exists s'. split; [done|]. split; [done|].
  destruct (upd_entry_inv s s' sc d i (Some v) n) as [Hi' Hr']; [done..|lia|done|done|done|done|lia|].
  split; [done|]. split; [done|]. split.
  - destruct Hu as [_ Hu]. by rewrite Hu, decide_False.
  - apply log_of_add; [done|lia|done].
Qed.

Lemma ids_below_snoc s dir i v : Forall (λ e : Z * bytes, e.1 < i) (log_of (nodes s) dir) →
  Forall (λ e, e.1 < i + 1) (log_of (nodes s) dir ++ [(i, v)]).
Proof.
  intros Hf. apply Forall_app. split; [|repeat constructor; cbn; lia].
  eapply Forall_impl; [exact Hf|]. cbn. lia.
Qed.

Lemma create_from_entry fuel s p i v s' :
  create_new s (push p (bin_name i)) v = (Created, s') → create_from fuel s p i v = (i, s').
Proof. intros E. destruct fuel; cbn; by rewrite E. Qed.

Lemma append_from_law s sc ns k i xs ids s' n :
  let dir := [hex sc; log_name ns k] in
  fs_inv s → sc ≠ [] → fs_room s n → 0 ≤ n → 0 ≤ i → i + Z.of_nat (length xs) + n < 2 ^ 63 →
  nodes s !! dir = Some Dir → Forall (λ e, e.1 < i) (log_of (nodes s) dir) →
  append_from s dir i xs = (ids, s') →
  fs_inv s' ∧ length ids = length xs ∧
  fs_view s' ≡ abs_append (fs_view s) sc ns k (zip ids xs) ∧ fs_room s' n.
Proof.
  intros dir. revert s i ids. induction xs as [|x xs IH]; intros s i ids Hi Hsc Hr Hn Hi0 Hb Hdir Hf E.
  { cbn in E. simplify_eq. split_and!; [done..| |done]. symmetry. apply abs_append_nil. }
  cbn [append_from length] in *.
  destruct (create_entry s sc (log_name ns k) i x n) as (s1 & Hc & Hu & Hi1 & Hr1 & Hd1 & Hl1);
    [done|done|apply log_is_sub|done|done|done|lia|done|done|].
  rewrite (create_from_entry _ _ _ _ _ _ Hc) in E.
  rewrite wrap_i64_id in E by (unfold i64_range; lia).
  destruct (append_from s1 dir (i + 1) xs) as [ids1 s2] eqn:E2. simplify_eq.
  apply IH in E2 as (Hi2 & Hlen & Hv2 & Hr2); [|done|done|done|done|lia|lia|done|].
  2:{ unfold dir. rewrite Hl1. by apply ids_below_snoc. }
  split_and!; [done|by cbn; rewrite Hlen| |done].
  rewrite Hv2. etrans; [apply abs_append_proper|apply (abs_append_app _ _ _ _ [(i, x)])].
  apply upd_log_view; [done|lia|done|]. cbn. by rewrite log_dir_ne.
Qed.

Lemma append_many_law s sc ns k xs ids s' n :
  fs_inv s → sc ≠ [] → 0 ≤ n → fs_room s (Z.of_nat (length xs) + n) →
  fs_append_many s sc ns k xs = (ids, s') →
  fs_inv s' ∧ length ids = length xs ∧
  fs_view s' ≡ abs_append (fs_view s) sc ns k (zip ids xs) ∧ fs_room s' n.
Proof.
  intros Hi Hsc Hn Hr E. unfold fs_append_many in E. destruct xs as [|x xs].
  { simplify_eq. split_and!; [done..| |by eapply room_weaken; [done|cbn; lia]]. symmetry. apply abs_append_nil. }
  set (ys := x :: xs) in *. rewrite log_dir_ne in E by done.
  set (dir := [hex sc; log_name ns k]) in *.
  destruct (made_spec s sc dir) as (Hd & Hi1 & Hv1 & Hr1 & _); [done..|right; by eexists; split; [apply log_is_sub|]|].
  apply Hr1 in Hr.
  destruct (next_id_spec (create_dir_all s dir) sc (log_name ns k) (Z.of_nat (length ys) + n))
    as (Hw & H0 & Hb & Hf); [done..|apply log_is_sub|done|lia|]. fold dir in Hw, H0, Hb, Hf.
  rewrite Hw in E.
  apply append_from_law with (n := n) in E as (Hi2 & Hlen & Hv2 & Hr2);
    [|done|done|eapply room_weaken; [done|lia]|done|done|lia|done|done].
  split_and!; [done|done| |done]. rewrite Hv2. by apply abs_append_proper.
Qed.

Lemma append_is_many s sc ns k x :
  fs_append s sc ns k x =
  let '(ids, s') := fs_append_many s sc ns k [x] in (default 0 (head ids), s').
Proof. unfold fs_append, fs_append_many. cbn [append_from]. by destruct (create_from _ _ _ _ _). Qed.

Lemma append_law s sc ns k x i s' n :
  fs_inv s → sc ≠ [] → 0 ≤ n → fs_room s (1 + n) → fs_append s sc ns k x = (i, s') →
  fs_inv s' ∧ fs_view s' ≡ abs_append (fs_view s) sc ns k [(i, x)] ∧ fs_room s' n.
Proof.
  intros Hi Hsc Hn Hr E. rewrite append_is_many in E.
  destruct (fs_append_many s sc ns k [x]) as [ids s1] eqn:Em. simplify_eq.
  apply append_many_law with (n := n) in Em as (Hi1 & Hl & Hv & Hr1); [|done..].
  destruct ids as [|i [|??]]; [done| |done]. done.
Qed.

Lemma push_from_law s sc i xs n :
  let dir := [hex sc; queue_name] in
  fs_inv s → sc ≠ [] → fs_room s n → 0 ≤ n → 0 ≤ i → i + Z.of_nat (length xs) + n < 2 ^ 63 →
  nodes s !! dir = Some Dir → Forall (λ e, e.1 < i) (log_of (nodes s) dir) →
  let s' := push_from s dir i xs in
  fs_inv s' ∧ fs_view s' ≡ abs_queue_set (fs_view s) sc (v_queue (fs_view s) sc ++ xs) ∧ fs_room s' n.
Proof.
  intros dir. revert s i. induction xs as [|x xs IH]; intros s i Hi Hsc Hr Hn Hi0 Hb Hdir Hf.
  { cbn. split_and!; [done| |done]. rewrite app_nil_r. split_and!; [done..|]. intros sc'. cbn.
    by case_decide; subst. }
  cbn [push_from length] in *.
  destruct (create_entry s sc queue_name i x n) as (s1 & Hc & Hu & Hi1 & Hr1 & Hd1 & Hl1);
    [done|done|apply queue_is_sub|done|done|done|lia|done|done|].
  fold dir in Hc. rewrite Hc. rewrite wrap_i64_id by (unfold i64_range; lia). cbn [snd].
  destruct (IH s1 (i + 1)) as (Hi2 & Hv2 & Hr2); [done|done|done|done|lia|lia|done| |].
  { unfold dir. rewrite Hl1. by apply ids_below_snoc. }
  assert (v_queue (fs_view s1) sc = v_queue (fs_view s) sc ++ [x]) as Hq1.
  { cbn. rewrite !queue_dir_ne by done. rewrite Hl1, fmap_app. done. }
  pose proof (upd_queue_view _ _ _ _ _ _ Hsc Hu Hq1) as Hv1.
  split_and!; [done| |done]. rewrite Hv2, Hq1, <- app_assoc. destruct Hv1 as (V1 & V2 & V3).
  split_and!; [exact V1|exact V2|]. intros sc'. cbn. case_decide; [done|].
  pose proof (V3 sc') as V. cbn in V. by rewrite decide_False in V.
Qed.

Lemma queue_push_law s sc xs n :
  fs_inv s → sc ≠ [] → 0 ≤ n → fs_room s (Z.of_nat (length xs) + n) →
  let s' := fs_queue_push s sc xs in
  fs_inv s' ∧ fs_view s' ≡ abs_queue_set (fs_view s) sc (v_queue (fs_view s) sc ++ xs) ∧ fs_room s' n.
Proof.
  intros Hi Hsc Hn Hr. unfold fs_queue_push. rewrite queue_dir_ne by done.
  set (dir := [hex sc; queue_name]) in *.
  destruct (made_spec s sc dir) as (Hd & Hi1 & Hv1 & Hr1 & _); [done..|right; by eexists; split; [apply queue_is_sub|]|].
  apply Hr1 in Hr.
  destruct (next_id_spec (create_dir_all s dir) sc queue_name (Z.of_nat (length xs) + n))
    as (Hw & H0 & Hb & Hf); [done..|apply queue_is_sub|done|lia|]. fold dir in Hw, H0, Hb, Hf.
  rewrite Hw.
  destruct (push_from_law (create_dir_all s dir) sc (max_id (create_dir_all s dir) dir + 1) xs n)
    as (Hi2 & Hv2 & Hr2); [done|done|eapply room_weaken; [done|lia]|done|done|lia|done|done|].
  split_and!; [done| |done]. etrans; [exact Hv2|]. destruct Hv1 as (V1 & V2 & V3).
  split_and!; [exact V1|exact V2|]. intros sc'. cbn in *. by rewrite !V3.
Qed.

Lemma parse_claimed tag i : parse_bin (claimed_name tag i) = None.
Proof.
  unfold parse_bin, claimed_name, bin_name. rewrite !app_assoc, strip_suffix_app. done.
Qed.

Lemma claimed_ne tag i : claimed_name tag i ≠ [].
Proof. done. Qed.

(** The claimed name is free: every entry is named by an id. *)
Lemma claimed_free s sc d tag i :
  fs_inv s → sc ≠ [] → is_sub d → nodes s !! [hex sc; d; claimed_name tag i] = None.
Proof.
  intros Hi Hsc Hd. destruct (nodes s !! _) as [nd|] eqn:E; [|done]. exfalso.
  destruct (fi_entry _ Hi sc d _ nd Hsc Hd E) as (_ & j & v & _ & En & Hb).
  apply (f_equal parse_bin) in En. by rewrite parse_claimed, parse_bin_name in En.
Qed.

(** Claiming, reading and removing an item deletes its file. *)
Lemma pop_ids_head s sc tag i v ids :
  let dir := [hex sc; queue_name] in
  fs_inv s → sc ≠ [] → 0 ≤ i < 2 ^ 63 → nodes s !! [hex sc; queue_name; bin_name i] = Some (File v) →
  ∃ s', pop_ids s dir tag (i :: ids) = (Some v, s') ∧ upd s s' [hex sc; queue_name; bin_name i] None.
Proof.
  intros dir Hi Hsc Hb Hsrc. pose proof (fi_entry _ Hi _ _ _ _ Hsc queue_is_sub Hsrc) as [Hdir _].
  pose proof (claimed_free s sc queue_name tag i Hi Hsc queue_is_sub) as Hfree.
  cbn [pop_ids]. rewrite !push_ne by (apply bin_name_ne || apply claimed_ne). cbn [app dir].
  set (src := [hex sc; queue_name; bin_name i]) in *.
  set (dst := [hex sc; queue_name; claimed_name tag i]) in *.
  unfold rename. rewrite Hsrc.
  rewrite (can_create_snoc s dir (claimed_name tag i) (fi_max _ Hi) Hdir : can_create s dst = true), Hfree.
  cbn [andb]. rewrite bool_decide_true by done. cbv beta iota zeta. unfold read. cbn [nodes set_nodes].
  rewrite lookup_insert_eq. eexists. split; [done|]. unfold remove_file. cbn [nodes set_nodes].
  rewrite lookup_insert_eq. split; [done|]. intros q. cbn.
  assert (src ≠ dst) as Hne by (intros E; congruence).
  rewrite lookup_delete, lookup_insert, lookup_delete.
  repeat case_decide; subst; try congruence; done.
Qed.

Lemma queue_pop_law s sc r s' :
  fs_inv s → sc ≠ [] → fs_queue_pop s sc = (r, s') →
  fs_inv s' ∧ r = head (v_queue (fs_view s) sc) ∧
  fs_view s' ≡ abs_queue_set (fs_view s) sc (tail (v_queue (fs_view s) sc)) ∧
  (∀ n, fs_room s n → fs_room s' n).
Proof.
  intros Hi Hsc E. unfold fs_queue_pop in E. rewrite queue_dir_ne in E by done.
  set (s1 := mkFs _ _ _ _ _ _) in E.
  assert (fs_inv s1) as Hi1 by (destruct Hi; by split).
  pose proof (order_bin_ids s1 sc queue_name (λ _, True) Hi1 Hsc queue_is_sub) as Ho.
  rewrite !list_filter_all in Ho by (by apply Forall_forall). rewrite Ho in E. clear Ho.
  change (nodes s1) with (nodes s) in E.
  assert (v_queue (fs_view s) sc = (log_of (nodes s) [hex sc; queue_name]).*2) as Hq
    by (cbn; by rewrite queue_dir_ne). rewrite Hq.
  destruct (log_of (nodes s) [hex sc; queue_name]) as [|[i v] l] eqn:El; cbn [fmap list_fmap fst] in E.
  - cbn in E. injection E as <- <-. split_and!; [done|done| |done].
    split_and!; [done..|]. intros sc'. cbn. case_decide; [subst; by rewrite queue_dir_ne, El|done].
  - assert ((i, v) ∈ log_of (nodes s) [hex sc; queue_name]) as [Hp Hf]%elem_log_of
      by (rewrite El; apply list_elem_of_here).
    unfold files in Hf. cbn [app] in Hf.
    destruct (nodes s !! [hex sc; queue_name; bin_name i]) as [[|w]|] eqn:En; try done. injection Hf as ->.
    destruct (fi_entry _ Hi _ _ _ _ Hsc queue_is_sub En) as (Hdir & j & _ & _ & Ej & Hb).
    assert (i = j) as -> by (rewrite Ej, parse_bin_name in Hp by done; by injection Hp).
    destruct (pop_ids_head s1 sc (claim_tag s) j v l.*1) as (s2 & E2 & Hu); [done..|].
    cbn [fmap list_fmap fst] in E. rewrite E2 in E. injection E as <- <-.
    assert (upd s s2 [hex sc; queue_name; bin_name j] None) as Hu' by done.
    assert (∀ n, fs_room s n → fs_inv s2 ∧ fs_room s2 n) as Hr.
    { intros n Hr. apply (upd_entry_inv s s2 sc queue_name j None n); try done. apply queue_is_sub. }
    assert (fs_inv s2) as Hi2.
    { apply (upd_entry_inv s s2 sc queue_name j None (- 2 ^ 64)); try done; [apply queue_is_sub|].
      split; [lia|]. intros; lia. }
    split_and!; [done|done| |intros n ?; by apply Hr].
    apply (upd_queue_view _ _ _ _ _ _ Hsc Hu'). cbn. rewrite queue_dir_ne by done.
    f_equal. by apply (log_of_del s s2 [hex sc; queue_name] j v l).
Qed.

Lemma scope_made sc : made_dir sc [hex sc].
Proof. by left. Qed.

Lemma kv_write_upd s sc k v :
  fs_inv s → sc ≠ [] → nodes s !! [hex sc] = Some Dir →
  upd s (let '(ok, s1) := write s [hex sc; kv_tmp k] v in
         if ok then (rename s1 [hex sc; kv_tmp k] [hex sc; kv_name k]).2 else s1)
    [hex sc; kv_name k] (Some v).
Proof.
  intros Hi Hsc Hdir. pose proof (fi_tmp _ Hi sc k Hsc) as Ht. pose proof (fi_kv _ Hi sc k Hsc) as Hk.
  unfold write. rewrite Ht.
  rewrite (can_create_snoc s [hex sc] (kv_tmp k) (fi_max _ Hi) Hdir : can_create s [hex sc; kv_tmp k] = true).
  cbn [fst snd]. set (s1 := set_nodes _ _ _).
  assert ([hex sc; kv_tmp k] ≠ [hex sc; kv_name k]) as Hne
    by (intros [_ E]%path2_inj; by apply (kv_tmp_not_kv k k)).
  assert (∀ q, nodes s1 !! q = if decide (q = [hex sc; kv_tmp k]) then Some (File v) else nodes s !! q) as Hs1.
  { intros q. cbn. rewrite lookup_insert. by repeat case_decide; simplify_eq. }
  unfold rename. rewrite Hs1, decide_True by done.
  assert (can_create s1 [hex sc; kv_name k] = true) as ->.
  { apply (can_create_snoc s1 [hex sc]); [apply Hi|]. by rewrite Hs1, decide_False. }
  rewrite bool_decide_true by (rewrite Hs1, decide_False by done; done).
  split; [done|]. intros q. cbn [andb snd nodes set_nodes]. rewrite lookup_insert, lookup_delete, Hs1.
  repeat case_decide; subst; try done; congruence.
Qed.

Lemma kv_del_upd s sc k :
  fs_inv s → sc ≠ [] → upd s (remove_file s [hex sc; kv_name k]) [hex sc; kv_name k] None.
Proof.
  intros Hi Hsc. pose proof (fi_kv _ Hi sc k Hsc) as Hk. unfold remove_file.
  destruct (nodes s !! [hex sc; kv_name k]) as [[|v]|] eqn:E; [done|..].
  - split; [done|]. intros q. cbn. rewrite lookup_delete. repeat case_decide; congruence.
  - split; [done|]. intros q. by case_decide; subst.
Qed.

Lemma below_scope sc q : below [hex sc] q = true ↔ ∃ r, q = hex sc :: r.
Proof.
  unfold below. rewrite bool_decide_eq_true. destruct q as [|x q]; cbn.
  - split; [done|by intros [? ?]].
  - split; [intros [= ->]; by eexists|by intros [r [= -> ->]]].
Qed.

Lemma clear_nodes s sc q :
  fs_inv s → sc ≠ [] →
  nodes (fs_clear s sc) !! q = if below [hex sc] q then None else nodes s !! q.
Proof.
  intros Hi Hsc. unfold fs_clear. rewrite scope_dir_ne by done. unfold remove_dir_all.
  destruct (nodes s !! [hex sc]) as [[|v]|] eqn:E.
  - cbn. rewrite (lookup_filter_key (λ p : path, below [hex sc] p = false)) by done.
    destruct (below [hex sc] q); by case_decide.
  - by destruct (fi_scope _ Hi sc Hsc v).
  - destruct (below [hex sc] q) eqn:Eb; [|done]. apply below_scope in Eb as [r ->].
    destruct r as [|x r]; [done|]. destruct (nodes s !! (hex sc :: x :: r)) as [nd|] eqn:En; [|done].
    rewrite (fi_up _ Hi sc x r Hsc) in E; [done|by eexists].
Qed.

Lemma clear_sub s sc q nd :
  fs_inv s → sc ≠ [] → nodes (fs_clear s sc) !! q = Some nd →
  nodes s !! q = Some nd ∧ below [hex sc] q = false.
Proof. intros Hi Hsc. rewrite clear_nodes by done. by destruct (below [hex sc] q). Qed.

Lemma clear_inv s sc : fs_inv s → sc ≠ [] → fs_inv (fs_clear s sc).
Proof.
  intros Hi Hsc.
  assert (∀ q, not_file s q → not_file (fs_clear s sc) q) as Hnf.
  { intros q Hn v E. apply clear_sub in E as [E _]; [|done..]. by apply (Hn v). }
  assert (∀ h x q nd, nodes s !! (h :: x) = Some nd → nodes (fs_clear s sc) !! (h :: q) ≠ None →
    nodes (fs_clear s sc) !! (h :: x) = Some nd) as Hsame.
  { intros h x q nd E. rewrite !clear_nodes by done. unfold below. cbn. by destruct (bool_decide _). }
  split.
  - pose proof (fi_max _ Hi) as Hm. unfold fs_clear, remove_dir_all.
    by destruct (nodes s !! scope_dir sc) as [[]|].
  - apply Hnf, Hi.
  - intros sc' H'. by apply Hnf, fi_scope.
  - intros sc' d H' Hd. by apply Hnf, fi_sub.
  - intros sc' k H' E. apply clear_sub in E as [E _]; [|done..]. by apply (fi_kv _ Hi) in E.
  - intros sc' k H'. rewrite clear_nodes by done. rewrite (fi_tmp _ Hi) by done. by destruct (below _ _).
  - intros sc' d f nd H' Hd E. pose proof E as E0. apply clear_sub in E as [E _]; [|done..].
    apply (fi_entry _ Hi) in E as [Hdir ?]; [|done..]. split; [|done].
    apply (Hsame _ [d] [d; f] _ Hdir). by rewrite E0.
  - intros sc' x l H' [nd E]. pose proof E as E0. apply clear_sub in E as [E _]; [|done..].
    apply (Hsame _ [] (x :: l)); [|by rewrite E0]. apply (fi_up _ Hi sc' x l H'). by eexists.
Qed.

Lemma clear_view s sc : fs_inv s → sc ≠ [] → fs_view (fs_clear s sc) ≡ abs_clear (fs_view s) sc.
Proof.
  intros Hi Hsc.
  assert (∀ sc' d r, (∀ b, d ≠ hex b) →
    files (nodes (fs_clear s sc)) (scope_dir sc' ++ d :: r) =
    if decide (sc' = sc) then None else files (nodes s) (scope_dir sc' ++ d :: r)) as Hf.
  { intros sc' d r Hd. unfold files. rewrite clear_nodes by done.
    assert (below [hex sc] (scope_dir sc' ++ d :: r) = bool_decide (sc' = sc)) as ->.
    { apply eq_bool_prop_intro. rewrite bool_decide_spec, Is_true_true, below_scope.
      destruct sc' as [|x sc']; cbn.
      - split; [intros [r' E%path_head_inj]; by apply Hd in E|by intros <-].
      - rewrite scope_dir_ne by done. split; [by intros [r' E%path_head_inj%(inj hex)]|].
        intros ->. by eexists. }
    case_bool_decide; by case_decide. }
  assert (∀ dir sc' d, is_sub d → dir = scope_dir sc' ++ [d] →
    log_of (nodes (fs_clear s sc)) dir = if decide (sc' = sc) then [] else log_of (nodes s) dir) as Hl.
  { intros dir sc' d Hd ->. case_decide as E.
    - apply (sorted_ext fst); [apply log_of_sorted|constructor|]. intros [i v].
      rewrite elem_log_of, <- app_assoc. cbn [app].
      rewrite Hf by (intros b; by apply sub_not_hex). rewrite decide_True by done. set_solver.
    - apply log_of_files. intros i. rewrite <- app_assoc. cbn [app].
      rewrite Hf by (intros b; by apply sub_not_hex). by rewrite decide_False. }
  split_and!; cbn.
  - intros sc' k. rewrite push_ne by done. apply Hf. intros b E.
    assert (x6b ∉ hex b) as Hn by (apply hex_free; vm_compute; naive_solver).
    apply Hn. rewrite <- E. apply list_elem_of_here.
  - intros sc' ns k. apply (Hl _ sc' (log_name ns k)); [apply log_is_sub|apply log_dir_eq].
  - intros sc'. rewrite (Hl _ sc' queue_name) by (apply queue_is_sub || done).
    by case_decide.
Qed.

Lemma scan_law s sc ns k after limit :
  fs_inv s → sc ≠ [] →
  fs_scan s sc ns k after limit =
  take_z limit (filter (λ e, after < e.1) (v_log (fs_view s) sc ns k)).
Proof.
  intros Hi Hsc. unfold fs_scan. cbn. rewrite log_dir_ne by done.
  rewrite order_bin_ids by (done || apply log_is_sub).
  set (dir := [hex sc; log_name ns k]). set (l := filter _ _).
  assert (∀ e, e ∈ l → read s (push dir (bin_name e.1)) = Some e.2) as Hl.
  { intros [i v] [_ [_ Hf]%elem_log_of]%list_elem_of_filter. rewrite push_ne by apply bin_name_ne. exact Hf. }
  clearbody l. revert limit. induction l as [|[i v] l IH]; intros limit; [done|].
  cbn [fmap list_fmap take_z fst]. destruct (limit <=? 0); [done|]. cbn [omap list_omap].
  pose proof (Hl (i, v) (list_elem_of_here _ _)) as Hv. cbn [fst snd] in Hv. rewrite Hv.
  cbn [fmap option_fmap option_map]. f_equal. apply IH. intros e He. apply Hl. by apply list_elem_of_further.
Qed.

Lemma fs_log_range s sc ns k :
  fs_inv s → sc ≠ [] → Forall (λ e, 0 ≤ e.1 < 2 ^ 63) (v_log (fs_view s) sc ns k).
Proof.
  intros Hi Hsc. apply Forall_forall. intros [i v] [Hp Hf]%elem_log_of. cbn [fst].
  rewrite log_dir_ne in Hf by done. unfold files in Hf. cbn [app] in Hf.
  destruct (nodes s !! _) as [nd|] eqn:E; [|done].
  destruct (fi_entry _ Hi sc _ _ _ Hsc (log_is_sub ns k) E) as (_ & j & _ & _ & Ej & Hb).
  rewrite Ej, parse_bin_name in Hp by done. injection Hp as <-. lia.
Qed.

#[global] Program Instance fs_laws : StorageLaws Fs := {
  st_inv := fs_inv;
  st_view := fs_view;
  st_scope sc := sc ≠ [];
  st_room := fs_room;
}.
Next Obligation. intros. by eapply room_weaken. Qed.
Next Obligation. intros. apply log_of_sorted. Qed.
Next Obligation. intros s sc ns k Hi Hsc. eapply Forall_impl; [by apply fs_log_range|]. cbn. lia. Qed.
Next Obligation. intros s sc ns k Hi Hsc _. eapply Forall_impl; [by apply fs_log_range|]. cbn. lia. Qed.
Next Obligation. intros s n _ [? _]. lia. Qed.
Next Obligation.
  intros s sc k r s' Hi Hsc E. cbn in E. unfold fs_kv_get, kv_path in E.
  rewrite scope_dir_ne, push_ne in E by done. injection E as <- <-.
  destruct (made_spec s sc [hex sc] Hi Hsc (scope_made sc)) as (_ & Hi1 & Hv & Hr & Hf & _).
  split_and!; try done. cbn. rewrite scope_dir_ne, push_ne by done. apply Hf.
Qed.
Next Obligation.
  intros s sc k x Hi Hsc. cbn. unfold fs_kv_put, kv_path.
  rewrite scope_dir_ne, !push_ne by done. cbn [app].
  destruct (made_spec s sc [hex sc] Hi Hsc (scope_made sc)) as (Hd & Hi1 & Hv & Hr & _).
  pose proof (kv_write_upd _ sc k x Hi1 Hsc Hd) as Hu.
  destruct (upd_kv_inv _ _ sc k (Some x) Hsc Hd Hu Hi1) as [Hi2 Hr2].
  split_and!; [done| |by auto]. rewrite (upd_kv_view _ _ _ _ _ Hsc Hu). by apply abs_kv_set_proper.
Qed.
Next Obligation.
  intros s sc k Hi Hsc. cbn. unfold fs_kv_del, kv_path. rewrite scope_dir_ne, !push_ne by done. cbn [app].
  destruct (made_spec s sc [hex sc] Hi Hsc (scope_made sc)) as (Hd & Hi1 & Hv & Hr & _).
  pose proof (kv_del_upd _ sc k Hi1 Hsc) as Hu.
  destruct (upd_kv_inv _ _ sc k None Hsc Hd Hu Hi1) as [Hi2 Hr2].
  split_and!; [done| |by auto]. rewrite (upd_kv_view _ _ _ _ _ Hsc Hu). by apply abs_kv_set_proper.
Qed.
Next Obligation. intros. by eapply append_law. Qed.
Next Obligation. intros. by eapply append_many_law. Qed.
Next Obligation. intros. by apply scan_law. Qed.
Next Obligation. intros. by apply queue_push_law. Qed.
Next Obligation. intros. by apply queue_pop_law. Qed.
Next Obligation.
  intros s sc Hi Hsc. split_and!; [by apply clear_inv|by apply clear_view|].
  intros n [Hn Hr]. split; [done|]. intros sc' d i H' Hd Hb [nd E].
  apply clear_sub in E as [E _]; [|done..]. apply (Hr sc' d i H' Hd Hb). by eexists.
Qed.

Lemma fs_inv_new t p : fs_inv (FsStorage_new None t p).
Proof.
  split; try done; intros; unfold not_file, FsStorage_new; cbn; try by rewrite lookup_singleton_ne.
  - cbn in *. by rewrite lookup_singleton_ne in *.
  - cbn in *. rewrite lookup_singleton_ne in * by done. by destruct H0.
Qed.

Lemma fs_view_new max t p : fs_view (FsStorage_new max t p) ≡ empty_view.
Proof.
  assert (∀ q, files (nodes (FsStorage_new max t p)) q = None) as Hf.
  { intros q. unfold files, FsStorage_new. cbn. destruct q as [|n q].
    - by rewrite lookup_singleton_eq.
    - by rewrite lookup_singleton_ne. }
  assert (∀ dir, log_of (nodes (FsStorage_new max t p)) dir = []) as Hl.
  { intros dir. apply (sorted_ext fst); [apply log_of_sorted|constructor|]. intros [i x].
    rewrite elem_log_of, Hf. set_solver. }
  split_and!; intros; unfold fs_view; cbn -[FsStorage_new]; by rewrite ?Hf, ?Hl.
Qed.

(** * Concurrent [queue_pop]s *)

Module Poppers.
(** A [queue_pop] between two system calls; [Done] keeps the id it claimed. *)
Inductive popper :=
| Idle (tag : bytes)
| Try (tag : bytes) (ids : list Z)
| Claimed (tag : bytes) (i : Z) (ids : list Z)
| Read (tag : bytes) (i : Z) (data : option bytes) (ids : list Z)
| Done (tag : bytes) (r : option (Z * bytes)).

Definition tag_of (p : popper) : bytes :=
  match p with Idle t | Try t _ | Claimed t _ _ | Read t _ _ _ | Done t _ => t end.

Definition src (dir : path) (i : Z) : path := push dir (bin_name i).
Definition dst (dir : path) (t : bytes) (i : Z) : path := push dir (claimed_name t i).

(** The next system call of a popper. *)
Definition pop_step (dir : path) (s : Fs) (p : popper) : Fs * popper :=
  match p with
  | Idle t => (s, Try t (order_by id (bin_ids s dir)))
  | Try t [] => (s, Done t None)
  | Try t (i :: ids) =>
      let '(ok, s) := rename s (src dir i) (dst dir t i) in
      (s, if ok then Claimed t i ids else Try t ids)
  | Claimed t i ids => (s, Read t i (read s (dst dir t i)) ids)
  | Read t i data ids =>
      (remove_file s (dst dir t i),
       match data with Some v => Done t (Some (i, v)) | None => Try t ids end)
  | Done t r => (s, Done t r)
  end.

(** A schedule names the popper that makes the next call. *)
Definition sched_step (dir : path) (c : Fs * list popper) (k : nat) : Fs * list popper :=
  match c.2 !! k with
  | Some p => let '(s, p) := pop_step dir c.1 p in (s, <[k := p]> c.2)
  | None => c
  end.
Definition run_sched (dir : path) (c : Fs * list popper) (sched : list nat) : Fs * list popper :=
  foldl (sched_step dir) c sched.

(** Alone, a popper that is scheduled until it is done is [pop_ids]. *)
Fixpoint run_alone (fuel : nat) (dir : path) (s : Fs) (p : popper) : Fs * popper :=
  match fuel with O => (s, p) | S fuel => let '(s, p) := pop_step dir s p in run_alone fuel dir s p end.

Lemma run_alone_done fuel dir s t r : run_alone fuel dir s (Done t r) = (s, Done t r).
Proof. by induction fuel. Qed.

Lemma run_alone_pop_ids fuel dir s t ids :
  (3 * length ids < fuel)%nat →
  let '(r, s') := pop_ids s dir t ids in
  let '(s2, p) := run_alone fuel dir s (Try t ids) in
  s2 = s' ∧ ∃ r', p = Done t r' ∧ snd <$> r' = r.
Proof.
  revert fuel s. induction ids as [|i ids IH]; intros fuel s Hf.
  { destruct fuel; [cbn in Hf; lia|]. cbn. rewrite run_alone_done. split; [done|]. by exists None. }
  cbn [length] in Hf. destruct fuel as [|fuel]; [lia|].
  cbn [run_alone pop_step pop_ids]. fold (src dir i) (dst dir t i).
  destruct (rename s (src dir i) (dst dir t i)) as [[] s1]; [|apply IH; lia].
  destruct fuel as [|[|fuel]]; [lia..|]. cbn [run_alone pop_step].
  destruct (read s1 (dst dir t i)) as [v|]; [|apply IH; lia].
  rewrite run_alone_done. split; [done|]. by exists (Some (i, v)).
Qed.

(** [p] has item [i]. *)
Definition holds (p : popper) (i : Z) : bool :=
  match p with
  | Claimed _ j _ | Read _ j _ _ => i =? j
  | Done _ (Some (j, _)) => i =? j
  | _ => false
  end.

Definition value_ok (dir : path) (m0 : Z → option bytes) (s : Fs) (p : popper) : Prop :=
  match p with
  | Claimed t i _ => ∃ v, m0 i = Some v ∧ nodes s !! dst dir t i = Some (File v)
  | Read t i o _ => ∃ v, m0 i = Some v ∧ o = Some v
  | Done t (Some (i, v)) => m0 i = Some v
  | _ => True
  end.

Definition ids_ok (p : popper) : Prop :=
  match p with
  | Try _ ids => Forall (λ i, 0 ≤ i < 2 ^ 63) ids
  | Claimed _ i ids | Read _ i _ ids => 0 ≤ i < 2 ^ 63 ∧ Forall (λ i, 0 ≤ i < 2 ^ 63) ids
  | Done _ (Some (i, _)) => 0 ≤ i < 2 ^ 63
  | _ => True
  end.

(** [m0] are the items there were. *)
Record pop_inv (dir : path) (m0 : Z → option bytes) (s : Fs) (ps : list popper) : Prop := {
  pi_max : name_max s = None;
  pi_dir : nodes s !! dir = Some Dir;
  pi_entry f : nodes s !! (dir ++ [f]) ≠ Some Dir;
  pi_canon f i : is_Some (nodes s !! (dir ++ [f])) → parse_bin f = Some i → 0 ≤ i < 2 ^ 63;
  pi_tags k k' p p' : ps !! k = Some p → ps !! k' = Some p' → tag_of p = tag_of p' → k = k';
  pi_src i v : 0 ≤ i < 2 ^ 63 → nodes s !! src dir i = Some (File v) →
    m0 i = Some v ∧ ∀ k p, ps !! k = Some p → holds p i = false;
  pi_once i k k' p p' : ps !! k = Some p → ps !! k' = Some p' → holds p i = true → holds p' i = true →
    k = k';
  pi_kept i v : 0 ≤ i < 2 ^ 63 → m0 i = Some v → nodes s !! src dir i = None →
    ∃ k p, ps !! k = Some p ∧ holds p i = true;
  pi_vals k p : ps !! k = Some p → value_ok dir m0 s p ∧ ids_ok p;
}.

Lemma digits_val_free acc s v : digits_val acc s = Some v → x5f ∉ as_bytes s.
Proof.
  revert acc. induction s as [|c s IH]; intros acc; [by intros _ ?%elem_of_nil|]. cbn [digits_val].
  destruct (digit_of c) as [d|] eqn:E; [|done]. intros Hv%IH.
  change (as_bytes (String c s)) with (Ascii.byte_of_ascii c :: as_bytes s).
  rewrite not_elem_of_cons. split; [|done]. intros Ec. apply (f_equal Ascii.ascii_of_byte) in Ec.
  rewrite Ascii.ascii_of_byte_of_ascii in Ec. subst c. done.
Qed.

Lemma bin_name_free i : 0 ≤ i < 2 ^ 63 → x5f ∉ bin_name i.
Proof.
  intros Hi. unfold bin_name. rewrite not_elem_of_app. split; [|vm_compute; intros Hx; set_solver].
  pose proof (parse_i64_pad020 i Hi) as Hp. unfold parse_i64 in Hp.
  assert (∀ r, parse_digits r ≠ None → x5f ∉ as_bytes r) as Hd.
  { intros [|c r] Hn; [by intros ?%elem_of_nil|]. cbn [parse_digits] in Hn.
    destruct (digits_val 0 (String c r)) eqn:E; [|done]. by eapply digits_val_free. }
  destruct (pad020 i) as [|c r]; [done|].
  change (as_bytes (String c r)) with (Ascii.byte_of_ascii c :: as_bytes r) in *.
  destruct (Ascii.eqb_spec c "-") as [->|_]; [|destruct (Ascii.eqb_spec c "+") as [->|_]].
  - rewrite not_elem_of_cons. split; [done|]. apply Hd. by destruct (parse_digits r).
  - rewrite not_elem_of_cons. split; [done|]. apply Hd. by destruct (parse_digits r).
  - apply (Hd (String c r)). by destruct (parse_digits (String c r)).
Qed.

Lemma sep_split_r {A} (c : A) d d' p p' :
  c ∉ p → c ∉ p' → d ++ [c] ++ p = d' ++ [c] ++ p' → d = d' ∧ p = p'.
Proof.
  intros Hp Hp' E%(f_equal reverse). rewrite !reverse_app, <- !app_assoc in E. cbn in E.
  apply sep_split in E as [E1%(inj reverse) E2%(inj reverse)]; [done|by rewrite elem_of_reverse..].
Qed.

Section steps.
Context (dir : path) (m0 : Z → option bytes).

Lemma src_eq i : src dir i = dir ++ [bin_name i].
Proof. apply push_ne, bin_name_ne. Qed.
Lemma dst_eq t i : dst dir t i = dir ++ [claimed_name t i].
Proof. by apply push_ne. Qed.

Lemma src_inj i j : 0 ≤ i < 2 ^ 63 → 0 ≤ j < 2 ^ 63 → src dir i = src dir j → i = j.
Proof. intros Hi Hj. rewrite !src_eq. intros [_ E]%app_inj_tail. by apply bin_name_inj. Qed.

Lemma src_not_dst i t j : 0 ≤ i < 2 ^ 63 → src dir i ≠ dst dir t j.
Proof.
  intros Hi. rewrite src_eq, dst_eq. intros [_ E%(f_equal parse_bin)]%app_inj_tail.
  by rewrite parse_claimed, parse_bin_name in E.
Qed.

Lemma dst_inj t i t' i' :
  0 ≤ i < 2 ^ 63 → 0 ≤ i' < 2 ^ 63 → dst dir t i = dst dir t' i' → t = t' ∧ i = i'.
Proof.
  intros Hi Hi'. rewrite !dst_eq. intros [_ E]%app_inj_tail. unfold claimed_name in E.
  apply (inj (app (as_bytes "claimed_"))) in E.
  apply sep_split_r in E as [-> E]; [|by apply bin_name_free..]. split; [done|]. by apply bin_name_inj.
Qed.

(** A step that leaves the items' files and who has which item. *)
Lemma pop_inv_keep s s' ps k p p' :
  pop_inv dir m0 s ps → ps !! k = Some p → tag_of p' = tag_of p →
  name_max s' = name_max s → nodes s' !! dir = Some Dir →
  (∀ q, nodes s' !! q = nodes s !! q ∨
        nodes s' !! q = None ∧ ∃ i, 0 ≤ i < 2 ^ 63 ∧ q = dst dir (tag_of p) i) →
  (∀ i, holds p' i = holds p i) → value_ok dir m0 s' p' → ids_ok p' →
  pop_inv dir m0 s' (<[k := p']> ps).
Proof.
  intros Hi Hk Ht Hm Hd Hq Hh Hv Hids.
  assert (∀ k' q, <[k := p']> ps !! k' = Some q → ∃ q0, ps !! k' = Some q0 ∧ tag_of q = tag_of q0 ∧
    (∀ i, holds q i = holds q0 i) ∧ (k = k' ∧ q = p' ∨ k ≠ k' ∧ q = q0)) as Hps.
  { intros k' q [(-> & <- & _)|[Hne E]]%list_lookup_insert_Some; [exists p|exists q]; naive_solver. }
  assert (∀ q nd, nodes s' !! q = Some nd → nodes s !! q = Some nd) as Hsub.
  { intros q nd E. destruct (Hq q) as [<-|[E' _]]; [done|congruence]. }
  split.
  - rewrite Hm. apply Hi.
  - done.
  - intros f E. apply Hsub in E. by apply (pi_entry _ _ _ _ Hi) in E.
  - intros f i [nd E]. apply Hsub in E. apply (pi_canon _ _ _ _ Hi). by eexists.
  - intros a b q q' (q0 & E0 & T0 & _)%Hps (q1 & E1 & T1 & _)%Hps Et.
    apply (pi_tags _ _ _ _ Hi a b q0 q1 E0 E1). congruence.
  - intros i v Hb E. apply Hsub in E. apply (pi_src _ _ _ _ Hi) in E as [Hv0 Hn]; [|done].
    split; [done|]. intros a q (q0 & E0 & _ & Hq0 & _)%Hps. rewrite Hq0. by eapply Hn.
  - intros i a b q q' (q0 & E0 & _ & H0 & _)%Hps (q1 & E1 & _ & H1 & _)%Hps. rewrite H0, H1.
    by apply (pi_once _ _ _ _ Hi i a b q0 q1).
  - intros i v Hb Hm0 E.
    assert (nodes s !! src dir i = None) as E'.
    { destruct (Hq (src dir i)) as [<-|(_ & j & _ & Ej)]; [done|]. by apply src_not_dst in Ej. }
    destruct (pi_kept _ _ _ _ Hi i v Hb Hm0 E') as (a & q & Ea & Hqi).
    destruct (decide (k = a)) as [<-|Hne].
    + exists k, p'. rewrite Hk in Ea. injection Ea as <-. rewrite Hh. split; [|done].
      apply list_lookup_insert_eq. by eapply lookup_lt_Some.
    + exists a, q. by rewrite list_lookup_insert_ne.
  - intros a q (q0 & E0 & _ & _ & [[-> ->]|[Hne ->]])%Hps; [done|].
    destruct (pi_vals _ _ _ _ Hi a q0 E0) as [Hv0 Hid0]. split; [|done].
    destruct q0 as [| |t j ids| |t [[j v]|]]; try done. destruct Hv0 as (v & Hmj & E). exists v.
    split; [done|]. destruct (Hq (dst dir t j)) as [->|(_ & i & Hb & Ei)]; [done|].
    apply dst_inj in Ei as [Ei _]; [|by destruct Hid0|done]. exfalso. apply Hne. by apply (pi_tags _ _ _ _ Hi k a p (Claimed t j ids)).
Qed.

(** Renaming the item's file claims it. *)
Lemma rename_spec s ps t i s' :
  pop_inv dir m0 s ps → 0 ≤ i < 2 ^ 63 →
  let ok := bool_decide (is_Some (nodes s !! src dir i)) in
  (rename s (src dir i) (dst dir t i)).1 = ok ∧
  ((rename s (src dir i) (dst dir t i)).2 = s' →
   name_max s' = name_max s ∧
   ∀ q, nodes s' !! q = if ok then if decide (q = dst dir t i) then nodes s !! src dir i
                                   else if decide (q = src dir i) then None else nodes s !! q
                        else nodes s !! q).
Proof.
  intros Hi Hb ok. unfold rename.
  pose proof (pi_entry _ _ _ _ Hi (bin_name i)) as Hs. rewrite <- src_eq in Hs.
  pose proof (pi_entry _ _ _ _ Hi (claimed_name t i)) as Hd. rewrite <- dst_eq in Hd.
  destruct (nodes s !! src dir i) as [[|v]|] eqn:E; [done|..].
  - rewrite dst_eq in Hd |- *.
    rewrite can_create_snoc, bool_decide_true by (done || apply Hi). split; [done|].
    intros <-. split; [done|]. intros q. unfold ok. rewrite bool_decide_true by done. cbn.
    rewrite lookup_insert, lookup_delete. repeat case_decide; congruence.
  - split; [done|]. intros <-. split; [done|]. intros q. unfold ok.
    by rewrite bool_decide_false by (by intros [??]).
Qed.

Lemma claim_inv s s' ps k t i ids :
  pop_inv dir m0 s ps → ps !! k = Some (Try t (i :: ids)) → is_Some (nodes s !! src dir i) →
  name_max s' = name_max s →
  (∀ q, nodes s' !! q = if decide (q = dst dir t i) then nodes s !! src dir i
                        else if decide (q = src dir i) then None else nodes s !! q) →
  pop_inv dir m0 s' (<[k := Claimed t i ids]> ps).
Proof.
  intros Hi Hk [nd Hsrc] Hm Hq.
  destruct (pi_vals _ _ _ _ Hi k _ Hk) as [_ [Hb Hids]%Forall_cons].
  assert (∃ v, nd = File v) as [v ->].
  { destruct nd as [|v]; [|by eexists]. rewrite src_eq in Hsrc. by apply (pi_entry _ _ _ _ Hi) in Hsrc. }
  destruct (pi_src _ _ _ _ Hi i v Hb Hsrc) as [Hv Hfree].
  assert (∀ j, 0 ≤ j < 2 ^ 63 → nodes s' !! src dir j =
    if decide (j = i) then None else nodes s !! src dir j) as Hsrcs.
  { intros j Hj. rewrite Hq, decide_False by (by apply src_not_dst).
    destruct (decide (j = i)) as [->|Hne]; [by rewrite decide_True|].
    rewrite decide_False; [done|]. intros E. by apply src_inj in E. }
  assert (∀ k' q, <[k := Claimed t i ids]> ps !! k' = Some q →
    k = k' ∧ q = Claimed t i ids ∨ k ≠ k' ∧ ps !! k' = Some q) as Hps.
  { intros k' q [(-> & <- & _)|[Hne E]]%list_lookup_insert_Some; auto. }
  assert (dir ≠ dst dir t i ∧ dir ≠ src dir i) as [Hd1 Hd2].
  { rewrite dst_eq, src_eq. split; intros E%(f_equal length); rewrite length_app in E; cbn in E; lia. }
  split.
  - rewrite Hm. apply Hi.
  - rewrite Hq, !decide_False by done. apply Hi.
  - intros f. rewrite Hq. repeat case_decide; [by rewrite Hsrc|done|]. apply Hi.
  - intros f j [nd' E] Hp. rewrite Hq in E. case_decide as E1.
    { rewrite dst_eq in E1. apply app_inj_tail in E1 as [_ ->]. by rewrite parse_claimed in Hp. }
    case_decide; [done|]. apply (pi_canon _ _ _ _ Hi f j); [by eexists|done].
  - intros a b q q' [[<- ->]|[Ha Eq]]%Hps [[<- ->]|[Hb' Eq']]%Hps Et; [done|..].
    + by apply (pi_tags _ _ _ _ Hi k b _ q' Hk Eq').
    + by apply (pi_tags _ _ _ _ Hi a k q _ Eq Hk).
    + by apply (pi_tags _ _ _ _ Hi a b q q').
  - intros j w Hj. rewrite Hsrcs by done. case_decide as Hji; [done|]. intros E.
    apply (pi_src _ _ _ _ Hi) in E as [? Hn]; [|done]. split; [done|].
    intros a q [[<- ->]|[Ha Eq]]%Hps; [by apply Z.eqb_neq|by eapply Hn].
  - intros j a b q q' [[<- ->]|[Ha Eq]]%Hps [[<- ->]|[Hb' Eq']]%Hps H1 H2; [done|..].
    + apply Z.eqb_eq in H1 as ->. by rewrite (Hfree _ _ Eq') in H2.
    + apply Z.eqb_eq in H2 as ->. by rewrite (Hfree _ _ Eq) in H1.
    + by apply (pi_once _ _ _ _ Hi j a b q q').
  - intros j w Hj Hw. rewrite Hsrcs by done. case_decide as Hji.
    + intros _. exists k, (Claimed t i ids). split; [|by apply Z.eqb_eq].
      apply list_lookup_insert_eq. by eapply lookup_lt_Some.
    + intros E. destruct (pi_kept _ _ _ _ Hi j w Hj Hw E) as (a & q & Ea & Hqj). exists a, q.
      split; [|done]. destruct (decide (k = a)) as [<-|]; [|by rewrite list_lookup_insert_ne].
      rewrite Hk in Ea. by injection Ea as <-.
  - intros a q [[<- ->]|[Ha Eq]]%Hps.
    + split; [|done]. exists v. split; [done|]. by rewrite Hq, decide_True.
    + destruct (pi_vals _ _ _ _ Hi a q Eq) as [Hv0 Hid0]. split; [|done].
      destruct q as [| |t' j ids'| |t' [[j w]|]]; try done. destruct Hv0 as (w & Hmj & E). exists w.
      split; [done|]. destruct Hid0 as [Hj _]. rewrite Hq. case_decide as E1.
      { apply dst_inj in E1 as [-> _]; [|done..]. exfalso. apply Ha.
        by apply (pi_tags _ _ _ _ Hi k a _ _ Hk Eq). }
      rewrite decide_False; [done|]. intros E2. symmetry in E2. by apply src_not_dst in E2.
Qed.

Lemma bin_ids_range s ps : pop_inv dir m0 s ps → Forall (λ i, 0 ≤ i < 2 ^ 63) (order_by id (bin_ids s dir)).
Proof.
  intros Hi. apply Forall_forall. intros i. unfold order_by. rewrite merge_sort_Permutation.
  unfold bin_ids, read_dir. rewrite (pi_dir _ _ _ _ Hi).
  intros (f & ([q nd] & Hin & Hc)%list_elem_of_omap & Hp)%list_elem_of_omap.
  apply elem_of_map_to_list in Hin. apply child_name_Some in Hc. cbn in Hc. subst q.
  apply (pi_canon _ _ _ _ Hi f i); [by eexists|done].
Qed.

Lemma pop_step_inv s ps k p :
  pop_inv dir m0 s ps → ps !! k = Some p →
  let '(s', p') := pop_step dir s p in pop_inv dir m0 s' (<[k := p']> ps).
Proof.
  intros Hi Hk. pose proof (pi_vals _ _ _ _ Hi k p Hk) as [Hv Hids].
  assert (∀ q, nodes s !! q = nodes s !! q ∨
    nodes s !! q = None ∧ ∃ i, 0 ≤ i < 2 ^ 63 ∧ q = dst dir (tag_of p) i) as Hsame by auto.
  pose proof (pi_dir _ _ _ _ Hi) as Hdir.
  destruct p as [t|t [|i ids]|t i ids|t i o ids|t r]; cbn [pop_step].
  - by apply (pop_inv_keep s s ps k (Idle t)); try done; eapply bin_ids_range.
  - by apply (pop_inv_keep s s ps k (Try t [])).
  - apply Forall_cons in Hids as [Hb Hids].
    destruct (rename s (src dir i) (dst dir t i)) as [ok s'] eqn:E.
    destruct (rename_spec s ps t i s' Hi Hb) as [Hok Hs']. rewrite E in Hok, Hs'. cbn in Hok, Hs'.
    destruct (Hs' eq_refl) as [Hm Hq]. subst ok. case_bool_decide as Hsrc.
    + by apply (claim_inv s s').
    + apply (pop_inv_keep s s' ps k (Try t (i :: ids))); try done.
      * by rewrite Hq.
      * intros q. rewrite Hq. by left.
  - destruct Hids as [Hb Hids]. apply (pop_inv_keep s s ps k (Claimed t i ids)); try done.
    destruct Hv as (v & Hm & E). exists v. split; [done|]. unfold read. by rewrite E.
  - destruct Hids as [Hb Hids]. destruct Hv as (v & Hm & ->).
    assert (∀ q, nodes (remove_file s (dst dir t i)) !! q = nodes s !! q ∨
      nodes (remove_file s (dst dir t i)) !! q = None ∧ q = dst dir t i) as Hrm.
    { intros q. unfold remove_file. destruct (nodes s !! dst dir t i) as [[]|]; auto. cbn.
      rewrite lookup_delete. case_decide; auto. }
    apply (pop_inv_keep s _ ps k (Read t i (Some v) ids)); try done.
    + unfold remove_file. by destruct (nodes s !! dst dir t i) as [[]|].
    + destruct (Hrm dir) as [->|[_ E]]; [done|]. exfalso. rewrite dst_eq in E.
      apply (f_equal length) in E. rewrite length_app in E. cbn in E. lia.
    + intros q. destruct (Hrm q) as [->|[-> ->]]; [by left|right]. split; [done|]. by exists i.
  - by apply (pop_inv_keep s s ps k (Done t r)).
Qed.

Lemma run_sched_inv s ps sched :
  pop_inv dir m0 s ps →
  let '(s', ps') := run_sched dir (s, ps) sched in pop_inv dir m0 s' ps'.
Proof.
  unfold run_sched. revert s ps. induction sched as [|k sched IH]; intros s ps Hi; [done|].
  cbn [foldl]. unfold sched_step at 2. cbn [fst snd].
  destruct (ps !! k) as [p|] eqn:Hk; [|by apply IH].
  pose proof (pop_step_inv s ps k p Hi Hk) as Hs. destruct (pop_step dir s p) as [s' p']. by apply IH.
Qed.
End steps.

Lemma pop_inv_start s sc tags :
  fs_inv s → sc ≠ [] → nodes s !! [hex sc; queue_name] = Some Dir → NoDup tags →
  pop_inv [hex sc; queue_name] (λ i, files (nodes s) [hex sc; queue_name; bin_name i]) s (Idle <$> tags).
Proof.
  intros Hi Hsc Hd Ht.
  assert (∀ k p, (Idle <$> tags) !! k = Some p → ∃ t, tags !! k = Some t ∧ p = Idle t) as Hps.
  { intros k p. rewrite list_lookup_fmap. destruct (tags !! k) as [t|]; [|done]. intros [= <-]. by exists t. }
  assert (∀ f nd, nodes s !! ([hex sc; queue_name] ++ [f]) = Some nd →
    ∃ i v, nd = File v ∧ f = bin_name i ∧ 0 ≤ i < 2 ^ 63) as He.
  { intros f nd E. by apply (fi_entry _ Hi sc queue_name f nd Hsc queue_is_sub E). }
  split.
  - apply Hi.
  - done.
  - intros f E. apply He in E as (i & v & ? & _). done.
  - intros f i [nd E] Hp. apply He in E as (j & v & _ & -> & Hb). rewrite parse_bin_name in Hp by done.
    by injection Hp as <-.
  - intros k k' p p' (t & E & ->)%Hps (t' & E' & ->)%Hps. cbn. intros ->. by eapply NoDup_lookup.
  - intros i v Hb E. rewrite src_eq in E. cbn [app] in E. unfold files. rewrite E. split; [done|].
    by intros k p (t & _ & ->)%Hps.
  - intros i k k' p p' (t & _ & ->)%Hps. done.
  - intros i v Hb Hm E. rewrite src_eq in E. cbn [app] in E. unfold files in Hm. by rewrite E in Hm.
  - by intros k p (t & _ & ->)%Hps.
Qed.

(** C5: However the system calls of concurrent [queue_pop]s on one queue
    interleave, no item is delivered twice and none is lost: two poppers that return have different
    items, each item returned was in the queue, and once every popper has returned an item is either
    still in the queue, with its contents, or was returned by exactly one of them. *)
Theorem fs_queue_claimed_once s sc tags sched :
  let dir := [hex sc; queue_name] in
  fs_inv s → sc ≠ [] → nodes s !! dir = Some Dir → NoDup tags →
  let '(s', ps') := run_sched dir (s, Idle <$> tags) sched in
  (∀ k k' t t' x y, ps' !! k = Some (Done t (Some x)) → ps' !! k' = Some (Done t' (Some y)) →
     k ≠ k' → x.1 ≠ y.1) ∧
  (∀ k t x, ps' !! k = Some (Done t (Some x)) → x ∈ log_of (nodes s) dir) ∧
  (Forall (λ p, ∃ t r, p = Done t r) ps' → ∀ x, x ∈ log_of (nodes s) dir →
     (x ∈ log_of (nodes s') dir) ∨ ∃ k t, ps' !! k = Some (Done t (Some x))).
Proof.
  intros dir Hi Hsc Hd Ht. pose proof (pop_inv_start s sc tags Hi Hsc Hd Ht) as H0.
  pose proof (run_sched_inv _ _ _ _ sched H0) as Hinv. fold dir in Hinv.
  destruct (run_sched dir (s, Idle <$> tags) sched) as [s' ps'].
  assert (∀ i v, (i, v) ∈ log_of (nodes s) dir → 0 ≤ i < 2 ^ 63) as Hrange.
  { intros i v [Hp Hf]%elem_log_of. unfold files in Hf.
    destruct (nodes s !! (dir ++ [bin_name i])) as [nd|] eqn:En; [|done].
    destruct (fi_entry _ Hi sc queue_name _ nd Hsc queue_is_sub En) as (_ & j & w & _ & Ej & Hb).
    rewrite Ej, parse_bin_name in Hp by done. by injection Hp as <-. }
  split_and!.
  - intros k k' t t' [i v] [j w] Hk Hk' Hne E. cbn in E. subst j. apply Hne.
    by apply (pi_once _ _ _ _ Hinv i k k' _ _ Hk Hk'); apply Z.eqb_refl.
  - intros k t [i v] Hk. destruct (pi_vals _ _ _ _ Hinv k _ Hk) as [Hv Hb]. cbn in Hv, Hb.
    apply elem_log_of. by rewrite parse_bin_name.
  - intros Hdone [i v] Hx. pose proof (Hrange i v Hx) as Hb. apply elem_log_of in Hx as [Hp Hf].
    destruct (nodes s' !! src dir i) as [nd|] eqn:E.
    + left. apply elem_log_of. split; [done|]. pose proof E as E0. rewrite src_eq in E.
      destruct nd as [|w]; [by apply (pi_entry _ _ _ _ Hinv) in E|]. unfold files. rewrite E.
      apply (pi_src _ _ _ _ Hinv) in E0 as [E0 _]; [|done]. cbn [app dir] in Hf. congruence.
    + right. destruct (pi_kept _ _ _ _ Hinv i v Hb Hf E) as (k & p & Hk & Hh).
      rewrite Forall_lookup in Hdone. destruct (Hdone k p Hk) as (t & r & ->).
      destruct r as [[j w]|]; [|done]. apply Z.eqb_eq in Hh as <-. exists k, t.
      destruct (pi_vals _ _ _ _ Hinv k _ Hk) as [Hv _]. cbn in Hv. cbn [app dir] in Hf. congruence.
Qed.
End Poppers.

Definition ex_fs : Fs := fs_queue_push (FsStorage_new None 0 7) [x01] [[x0a]; [x0b]; [x0c]].

Lemma ex_fs_inv : fs_inv ex_fs.
Proof.
  apply (queue_push_law (FsStorage_new None 0 7) [x01] [[x0a]; [x0b]; [x0c]] 0); [apply fs_inv_new|done|lia|].
  split; [cbn; lia|]. intros sc d i Hsc Hd Hb [nd E]. cbn in E. by rewrite lookup_singleton_ne in E.
Qed.

Lemma fs_queue_claimed_once_witness :
  let dir := [hex [x01]; queue_name] in
  let '(s', ps') := Poppers.run_sched dir (ex_fs, Poppers.Idle <$> [[x61]; [x62]])
                      [0; 1; 0; 1; 1; 0; 0; 1; 1]%nat in
  (∀ k k' t t' x y, ps' !! k = Some (Poppers.Done t (Some x)) →
     ps' !! k' = Some (Poppers.Done t' (Some y)) → k ≠ k' → x.1 ≠ y.1) ∧
  (∀ k t x, ps' !! k = Some (Poppers.Done t (Some x)) → x ∈ log_of (nodes ex_fs) dir) ∧
  (Forall (λ p, ∃ t r, p = Poppers.Done t r) ps' → ∀ x, x ∈ log_of (nodes ex_fs) dir →
     (x ∈ log_of (nodes s') dir) ∨ ∃ k t, ps' !! k = Some (Poppers.Done t (Some x))).
Proof.
  refine (Poppers.fs_queue_claimed_once ex_fs [x01] [[x61]; [x62]] [0; 1; 0; 1; 1; 0; 0; 1; 1]%nat
            ex_fs_inv _ _ _).
  - done.
  - vm_compute. reflexivity.
  - apply (bool_decide_unpack _). vm_compute. exact I.
Defined.

(** * Two limits of the backend *)

(** Clearing the empty scope erases every scope: its directory is the base
    directory itself. *)
Theorem fs_clear_empty_scope s sc ns k :
  nodes s !! [] = Some Dir →
  let v := fs_view (fs_clear s []) in v_kv v sc k = None ∧ v_log v sc ns k = [] ∧ v_queue v sc = [].
Proof.
  intros Hb v.
  assert (∀ q, files (nodes (fs_clear s [])) q = None) as Hf.
  { intros q. unfold fs_clear, remove_dir_all, files. change (scope_dir []) with ([] : path). rewrite Hb.
    cbn. rewrite (lookup_filter_key (λ p : path, below [] p = false)) by done.
    by rewrite decide_False by (by destruct q). }
  assert (∀ dir, log_of (nodes (fs_clear s [])) dir = []) as Hl.
  { intros dir. apply (sorted_ext fst); [apply log_of_sorted|constructor|]. intros [i x].
    rewrite elem_log_of, Hf. set_solver. }
  unfold v. cbn. rewrite Hf, !Hl. done.
Qed.

Lemma fs_clear_empty_scope_witness :
  let s := fs_kv_put ex_fs [x01] [x02] [x0d] in
  v_kv (fs_view s) [x01] [x02] = Some [x0d] ∧
  (let v := fs_view (fs_clear s []) in
   v_kv v [x01] [x02] = None ∧ v_log v [x01] [x05] [x02] = [] ∧ v_queue v [x01] = []).
Proof.
  split; [vm_compute; reflexivity|].
  apply (fs_clear_empty_scope (fs_kv_put ex_fs [x01] [x02] [x0d]) [x01] [x05] [x02]).
  vm_compute. reflexivity.
Defined.

Lemma length_hex b : length (hex b) = (2 * length b)%nat.
Proof.
  induction b as [|x b IH]; [done|].
  change (hex (x :: b)) with ([hex_digit (Z_of_byte x / 16); hex_digit (Z_of_byte x mod 16)] ++ hex b).
  rewrite length_app, IH. cbn [length]. lia.
Qed.

(** On any tree, [create_dir_all] adds directories on the way and nothing else. *)
Definition only_dirs (s s' : Fs) (p : path) : Prop :=
  name_max s' = name_max s ∧
  ∀ q, nodes s' !! q = nodes s !! q ∨
       nodes s !! q = None ∧ nodes s' !! q = Some Dir ∧ (length q ≤ length p)%nat.

Lemma add_dir_only s s' p q ps :
  only_dirs (set_nodes s (<[q := Dir]> (nodes s)) ps) s' p → nodes s !! q = None →
  (length q ≤ length p)%nat → only_dirs s s' p.
Proof.
  intros [Hm Hq] Hn Hl. split; [done|]. intros r. specialize (Hq r). cbn in Hq.
  rewrite lookup_insert in Hq. case_decide as E; [|done]. subst r.
  right. destruct Hq as [->|(? & -> & ?)]; done.
Qed.

Lemma mkdirs_only s at_ rest : only_dirs s (mkdirs s at_ rest) (at_ ++ rest).
Proof.
  revert s at_. induction rest as [|n rest IH]; intros s at_; cbn [mkdirs]; [by split; auto|].
  replace (at_ ++ n :: rest) with ((at_ ++ [n]) ++ rest) by (by rewrite <- app_assoc).
  destruct (nodes s !! (at_ ++ [n])) as [[|v]|] eqn:E; [apply IH|by split; auto|].
  destruct (name_ok s n); [|by split; auto].
  eapply add_dir_only; [apply IH|done|rewrite (length_app (at_ ++ [n])); lia].
Qed.

Lemma create_dir_all_only s p : only_dirs s (create_dir_all s p) p.
Proof.
  unfold create_dir_all. destruct (nodes s !! []) as [[|v]|] eqn:E.
  - apply (mkdirs_only s []).
  - by split; auto.
  - eapply add_dir_only; [apply (mkdirs_only _ [])|done|cbn; lia].
Qed.

Lemma only_dirs_files s s' p q : only_dirs s s' p → files (nodes s') q = files (nodes s) q.
Proof. intros [_ Hq]. unfold files. by destruct (Hq q) as [->|(-> & -> & _)]. Qed.

(** On a file system whose names hold 255 bytes, a value stored under a key of
    125 bytes or more is dropped without an error: a read after the write answers as before it. *)
Theorem fs_long_key_lost s sc k v :
  name_max s = Some 255 → (125 ≤ length k)%nat → nodes s !! push (scope_dir sc) (kv_tmp k) = None →
  (fs_kv_get (fs_kv_put s sc k v) sc k).1 = (fs_kv_get s sc k).1.
Proof.
  intros Hm Hk Ht. unfold fs_kv_put, fs_kv_get, kv_path. cbn [fst].
  set (s1 := create_dir_all s (scope_dir sc)). pose proof (create_dir_all_only s (scope_dir sc)) as Ho.
  fold s1 in Ho. rewrite push_ne in Ht by done. rewrite (push_ne _ (kv_tmp k)) by done.
  assert (nodes s1 !! (scope_dir sc ++ [kv_tmp k]) = None) as Ht1.
  { destruct (proj2 Ho (scope_dir sc ++ [kv_tmp k])) as [->|(_ & _ & Hl)]; [done|].
    rewrite length_app in Hl. cbn in Hl. lia. }
  assert (can_create s1 (scope_dir sc ++ [kv_tmp k]) = false) as Hc.
  { unfold can_create, name_ok. rewrite last_last, (proj1 Ho), Hm, andb_false_iff. right.
    apply Z.leb_gt. unfold kv_tmp, kv_name. rewrite !length_app, length_hex.
    change (length (as_bytes "kv_")) with 3%nat. change (length (as_bytes ".tmp")) with 4%nat. lia. }
  unfold write. rewrite Ht1, Hc.
  apply (only_dirs_files s1 _ (scope_dir sc)), create_dir_all_only.
Qed.

Lemma fs_long_key_lost_witness :
  let s := mkFs {[ [] := Dir ]} {[ [] := 0 ]} 0 (Some 255) 7 0 in
  (fs_kv_get (fs_kv_put s [x01] (repeat x61 125) [x0d]) [x01] (repeat x61 125)).1 =
  (fs_kv_get s [x01] (repeat x61 125)).1 ∧
  (fs_kv_get (fs_kv_put s [x01] (repeat x61 124) [x0d]) [x01] (repeat x61 124)).1 = Some [x0d].
Proof.
  split; [|vm_compute; reflexivity].
  apply (fs_long_key_lost (mkFs {[ [] := Dir ]} {[ [] := 0 ]} 0 (Some 255) 7 0)); [done| |done].
  vm_compute. lia.
Defined.
