(* ===== verification/StorageSqlite.v ===== *)
(** [SqliteStorage] of [vgi/src/storage/sqlite.rs]: the durable backend.

    The database is its four tables; a SQL statement of the source is a
    definition on them ([INSERT ... ON CONFLICT], [SELECT ... ORDER BY id LIMIT],
    [DELETE ... RETURNING]).  [ok i] says whether the [i]-th statement a method
    issues succeeds, so the log-and-degrade branches are part of the model; the
    trait instance is the run in which every statement succeeds. *)
From S2P Require Import Prelude StorageSpec.

Open Scope Z_scope.

Record LogRow := mkLogRow {
  lr_id : Z; lr_scope : bytes; lr_ns : bytes; lr_key : bytes; lr_value : bytes }.

Record QueueRow := mkQueueRow { qr_id : Z; qr_scope : bytes; qr_value : bytes }.

(** The tables, the two AUTOINCREMENT high-water marks of [sqlite_sequence],
    and the wall clock ([now_secs]). *)
Record Db := mkDb {
  function_state : gmap (bytes * bytes) bytes;
  function_log : list LogRow;
  log_seq : Z;
  work_queue : list QueueRow;
  queue_seq : Z;
  scope_touch : gmap bytes Z;
  now_secs : Z;
}.

(** A freshly created database ([configure] on an empty file). *)
Definition Db_new (now : Z) : Db := mkDb ∅ [] 0 [] 0 ∅ now.

(** * Statements *)

Definition all_ok : nat → bool := λ _, true.

(** Largest rowid; an AUTOINCREMENT insert past it is [SQLITE_FULL]. *)
Definition max_rowid : Z := 2 ^ 63 - 1.

Definition touch (db : Db) (scope : bytes) : Db :=
  mkDb (function_state db) (function_log db) (log_seq db) (work_queue db) (queue_seq db)
       (<[scope := now_secs db]> (scope_touch db)) (now_secs db).

Definition upsert_state (db : Db) (scope key value : bytes) : Db :=
  mkDb (<[(scope, key) := value]> (function_state db)) (function_log db) (log_seq db)
       (work_queue db) (queue_seq db) (scope_touch db) (now_secs db).

Definition delete_state (db : Db) (scope key : bytes) : Db :=
  mkDb (delete (scope, key) (function_state db)) (function_log db) (log_seq db)
       (work_queue db) (queue_seq db) (scope_touch db) (now_secs db).

(** [INSERT INTO function_log]: the new rowid, or [None] when full. *)
Definition insert_log (db : Db) (scope ns key value : bytes) : option (Z * Db) :=
  if log_seq db <? max_rowid then
    let id := log_seq db + 1 in
    Some (id, mkDb (function_state db) (function_log db ++ [mkLogRow id scope ns key value]) id
                (work_queue db) (queue_seq db) (scope_touch db) (now_secs db))
  else None.

Definition insert_queue (db : Db) (scope value : bytes) : option Db :=
  if queue_seq db <? max_rowid then
    let id := queue_seq db + 1 in
    Some (mkDb (function_state db) (function_log db) (log_seq db)
            (work_queue db ++ [mkQueueRow id scope value]) id (scope_touch db) (now_secs db))
  else None.

(** [LIMIT n]: a negative bound is no bound. *)
Definition sql_limit {A} (n : Z) (l : list A) : list A :=
  if n <? 0 then l else take_z n l.

(** The four [DELETE ... WHERE scope = ?1] statements of [clear] and [gc]. *)
Definition delete_scope (ok : nat → bool) (db : Db) (scope : bytes) : Db :=
  mkDb (if ok 0%nat then filter (λ e, e.1.1 ≠ scope) (function_state db) else function_state db)
       (if ok 1%nat then filter (λ r, lr_scope r ≠ scope) (function_log db) else function_log db)
       (log_seq db)
       (if ok 2%nat then filter (λ r, qr_scope r ≠ scope) (work_queue db) else work_queue db)
       (queue_seq db)
       (if ok 3%nat then delete scope (scope_touch db) else scope_touch db)
       (now_secs db).

(** * Methods *)

Definition limit_param (limit : Z) : Z := if 2 ^ 63 - 1 <=? limit then -1 else limit.

Definition sql_kv_get (ok : nat → bool) (db : Db) (scope key : bytes) : option bytes :=
  if ok 0%nat then function_state db !! (scope, key) else None.

Definition sql_kv_put (ok : nat → bool) (db : Db) (scope key value : bytes) : Db :=
  let db := if ok 0%nat then upsert_state db scope key value else db in
  if ok 1%nat then touch db scope else db.

Definition sql_kv_del (ok : nat → bool) (db : Db) (scope key : bytes) : Db :=
  if ok 0%nat then delete_state db scope key else db.

Definition sql_append (ok : nat → bool) (db : Db) (scope ns key value : bytes) : Z * Db :=
  match (if ok 0%nat then insert_log db scope ns key value else None) with
  | Some (id, db) => (id, if ok 1%nat then touch db scope else db)
  | None => (-1, db)
  end.

(** The inserts of [append_many]'s transaction; a failed row reports [-1]. *)
Fixpoint insert_logs (ok : nat → bool) (i : nat) (db : Db) (scope ns key : bytes)
    (values : list bytes) : list Z * Db :=
  match values with
  | [] => ([], db)
  | v :: values =>
      match (if ok i then insert_log db scope ns key v else None) with
      | Some (id, db) =>
          let '(ids, db) := insert_logs ok (S i) db scope ns key values in (id :: ids, db)
      | None =>
          let '(ids, db) := insert_logs ok (S i) db scope ns key values in (-1 :: ids, db)
      end
  end.

(** Statements: 0 begins the transaction, 1 prepares the insert, 2 the touch,
    3 the commit, then one per value.  Any early return drops the transaction,
    which rolls it back. *)
Definition sql_append_many (ok : nat → bool) (db : Db) (scope ns key : bytes)
    (values : list bytes) : list Z * Db :=
  match values with
  | [] => ([], db)
  | _ =>
      if negb (ok 0%nat) then ([], db)
      else if negb (ok 1%nat) then ([], db)
      else
        let '(ids, tx) := insert_logs ok 4 db scope ns key values in
        let tx := if ok 2%nat then touch tx scope else tx in
        if ok 3%nat then (ids, tx) else ([], db)
  end.

(** [SELECT id, value ... WHERE ... AND id > ?4 ORDER BY id LIMIT ?5]. *)
Definition sql_scan (ok : nat → bool) (db : Db) (scope ns key : bytes) (after_id limit : Z)
  : log_rows :=
  if ok 0%nat then
    let rows := filter (λ r, lr_scope r = scope ∧ lr_ns r = ns ∧ lr_key r = key ∧
                             after_id < lr_id r) (function_log db) in
    let sorted := order_by lr_id rows in
    (λ r, (lr_id r, lr_value r)) <$> sql_limit (limit_param limit) sorted
  else [].

Fixpoint insert_queues (ok : nat → bool) (i : nat) (db : Db) (scope : bytes)
    (items : list bytes) : Db :=
  match items with
  | [] => db
  | x :: items =>
      let db := if ok i then default db (insert_queue db scope x) else db in
      insert_queues ok (S i) db scope items
  end.

(** Statements: 0 begins the transaction, 1 the commit, 2 the touch. *)
Definition sql_queue_push (ok : nat → bool) (db : Db) (scope : bytes) (items : list bytes) : Db :=
  if negb (ok 0%nat) then db
  else
    let tx := insert_queues ok 3 db scope items in
    let db := if ok 1%nat then tx else db in
    if ok 2%nat then touch db scope else db.

(** [DELETE ... WHERE id = (SELECT id ... ORDER BY id LIMIT 1) RETURNING value]. *)
Definition sql_queue_pop (ok : nat → bool) (db : Db) (scope : bytes) : option bytes * Db :=
  if ok 0%nat then
    let rows := filter (λ r, qr_scope r = scope) (work_queue db) in
    match order_by qr_id rows with
    | [] => (None, db)
    | r :: _ =>
        (qr_value <$> head (filter (λ r', qr_id r' = qr_id r) (work_queue db)),
         mkDb (function_state db) (function_log db) (log_seq db)
           (filter (λ r', qr_id r' ≠ qr_id r) (work_queue db)) (queue_seq db)
           (scope_touch db) (now_secs db))
    end
  else (None, db).

Definition sql_clear (ok : nat → bool) (db : Db) (scope : bytes) : Db := delete_scope ok db scope.

(** [SELECT scope FROM scope_touch WHERE touched_at < cutoff], then delete each. *)
Definition sql_gc (db : Db) (ttl_secs : Z) : Db :=
  let cutoff := wrap_i64 (now_secs db - wrap_i64 ttl_secs) in
  let stale := (map_to_list (filter (λ e, e.2 < cutoff) (scope_touch db))).*1 in
  foldl (delete_scope all_ok) db stale.

#[global] Instance sqlite_storage : FunctionStorage Db := {
  kv_get db sc k := (sql_kv_get all_ok db sc k, db);
  kv_put := sql_kv_put all_ok;
  kv_del := sql_kv_del all_ok;
  append := sql_append all_ok;
  append_many := sql_append_many all_ok;
  scan := sql_scan all_ok;
  queue_push := sql_queue_push all_ok;
  queue_pop := sql_queue_pop all_ok;
  clear := sql_clear all_ok;
  gc := sql_gc;
}.

(** * The contract *)

Definition log_row_of (sc ns k : bytes) (r : LogRow) : Prop :=
  lr_scope r = sc ∧ lr_ns r = ns ∧ lr_key r = k.
#[global] Instance log_row_of_dec sc ns k r : Decision (log_row_of sc ns k r).
Proof. unfold log_row_of. apply _. Defined.

Definition sql_view (db : Db) : view :=
  View (λ sc k, function_state db !! (sc, k))
       (λ sc ns k, (λ r, (lr_id r, lr_value r)) <$> filter (log_row_of sc ns k) (function_log db))
       (λ sc, qr_value <$> filter (λ r, qr_scope r = sc) (work_queue db)).

(** Rowids increase in insertion order and never exceed the sequence. *)
Definition sql_inv (db : Db) : Prop :=
  StronglySorted Z.lt (lr_id <$> function_log db) ∧
  Forall (λ r, 1 ≤ lr_id r ≤ log_seq db) (function_log db) ∧
  StronglySorted Z.lt (qr_id <$> work_queue db) ∧
  Forall (λ r, 1 ≤ qr_id r ≤ queue_seq db) (work_queue db) ∧
  0 ≤ log_seq db ≤ max_rowid ∧ 0 ≤ queue_seq db ≤ max_rowid.

Definition sql_room (db : Db) (n : Z) : Prop :=
  log_seq db + n ≤ max_rowid ∧ queue_seq db + n ≤ max_rowid.

Lemma sql_limit_param {A} limit (l : list A) :
  0 ≤ limit → Z.of_nat (length l) ≤ max_rowid →
  sql_limit (limit_param limit) l = take_z limit l.
Proof.
  unfold sql_limit, limit_param, max_rowid. intros H0 Hl.
  destruct (Z.leb_spec (2 ^ 63 - 1) limit); simpl.
  - rewrite take_z_all; [done|lia].
  - destruct (Z.ltb_spec limit 0); [lia|done].
Qed.

Lemma filter_log_split sc ns k after (l : list LogRow) :
  filter (λ r, lr_scope r = sc ∧ lr_ns r = ns ∧ lr_key r = k ∧ after < lr_id r) l =
  filter (λ r, after < lr_id r) (filter (log_row_of sc ns k) l).
Proof.
  rewrite list_filter_filter. apply list_filter_iff. unfold log_row_of. tauto.
Qed.

Lemma fmap_take_z {A B} (f : A → B) n l : f <$> take_z n l = take_z n (f <$> l).
Proof. rewrite !take_z_take. apply fmap_take. Qed.

Lemma fmap_filter_log after (l : list LogRow) :
  (λ r, (lr_id r, lr_value r)) <$> filter (λ r, after < lr_id r) l =
  filter (λ e : Z * bytes, after < e.1) ((λ r, (lr_id r, lr_value r)) <$> l).
Proof.
  induction l as [|r l IH]; [done|]. rewrite fmap_cons, !filter_cons. simpl.
  case_decide; [|done]. rewrite fmap_cons. by f_equal.
Qed.

Lemma sql_scan_law db sc ns k after limit :
  sql_inv db → 0 ≤ limit →
  sql_scan all_ok db sc ns k after limit =
  take_z limit (filter (λ e, after < e.1) (v_log (sql_view db) sc ns k)).
Proof.
  intros (Hs & Hb & _ & _ & Hseq & _) Hlim. unfold sql_scan. cbn [all_ok].
  rewrite order_by_sorted by by apply sorted_filter.
  rewrite sql_limit_param, fmap_take_z, filter_log_split, fmap_filter_log; [done|done|].
  etrans; [apply (sorted_length lr_id _ 1 (max_rowid + 1))|lia].
  - by apply sorted_filter.
  - apply Forall_forall. intros r [_ Hr]%list_elem_of_filter.
    eapply Forall_forall in Hb; [|done]. lia.
  - unfold max_rowid. lia.
Qed.

Lemma touch_view db sc : sql_view (touch db sc) ≡ sql_view db.
Proof. done. Qed.

Lemma touch_inv db sc : sql_inv db → sql_inv (touch db sc).
Proof. done. Qed.

Lemma insert_log_law db sc ns k x id db' :
  sql_inv db → insert_log db sc ns k x = Some (id, db') →
  sql_inv db' ∧ sql_view db' ≡ abs_append (sql_view db) sc ns k [(id, x)] ∧
  log_seq db' = log_seq db + 1 ∧ queue_seq db' = queue_seq db.
Proof.
  intros (Hs & Hb & Hqs & Hqb & Hseq & Hqseq) Heq. unfold insert_log in Heq.
  destruct (Z.ltb_spec (log_seq db) max_rowid) as [Hlt|]; simplify_eq. split_and!; try done.
  - split_and!; simpl; try done; try lia.
    + rewrite fmap_app. apply StronglySorted_snoc; [done|]. rewrite Forall_fmap.
      eapply Forall_impl; [exact Hb|]. simpl. lia.
    + apply Forall_app. split; [|repeat constructor; simpl; lia].
      eapply Forall_impl; [exact Hb|]. simpl. lia.
  - split_and!; simpl; try done. intros sc' ns' k'. rewrite filter_app, fmap_app. f_equal.
    rewrite filter_cons, filter_nil. unfold log_row_of. simpl.
    destruct (decide _) as [(?&?&?)|Hn], (decide _) as [?|Hn']; simplify_eq; try done.
    destruct Hn; done.
Qed.

Lemma insert_log_some db sc ns k x n :
  0 ≤ n → sql_room db (1 + n) → is_Some (insert_log db sc ns k x).
Proof.
  intros Hn [H _]. unfold insert_log. destruct (Z.ltb_spec (log_seq db) max_rowid); [done|lia].
Qed.

Lemma insert_logs_law i db sc ns k xs ids db' n :
  sql_inv db → 0 ≤ n → sql_room db (Z.of_nat (length xs) + n) →
  insert_logs all_ok i db sc ns k xs = (ids, db') →
  sql_inv db' ∧ length ids = length xs ∧
  sql_view db' ≡ abs_append (sql_view db) sc ns k (zip ids xs) ∧ sql_room db' n.
Proof.
  revert i db ids db'. induction xs as [|x xs IH]; intros i db ids db' Hi Hn Hr Heq.
  { simplify_eq/=. split_and!; [done..| |done]. symmetry. apply abs_append_nil. }
  cbn [insert_logs all_ok length] in *.
  destruct (insert_log_some db sc ns k x (Z.of_nat (length xs) + n)) as [[id db1] E1]; [lia| |].
  { destruct Hr. split; lia. }
  rewrite E1 in Heq. destruct (insert_logs all_ok (S i) db1 sc ns k xs) as [ids1 db2] eqn:E2.
  simplify_eq. apply insert_log_law in E1 as (Hi1 & Hv1 & Hl1 & Hq1); [|done].
  eapply IH in E2 as (Hi2 & Hl & Hv2 & Hr2); [|done..|]; last first.
  { destruct Hr. split; lia. }
  split_and!; [done| by simpl; rewrite Hl | | done].
  rewrite Hv2. etrans; [apply abs_append_proper, Hv1|]. apply abs_append_app.
Qed.

Lemma insert_queues_law i db sc items n :
  sql_inv db → 0 ≤ n → sql_room db (Z.of_nat (length items) + n) →
  let db' := insert_queues all_ok i db sc items in
  sql_inv db' ∧ sql_view db' ≡ abs_queue_set (sql_view db) sc (v_queue (sql_view db) sc ++ items) ∧
  sql_room db' n.
Proof.
  revert i db. induction items as [|x items IH]; intros i db Hi Hn Hr; cbn [insert_queues].
  { split_and!; [done| |done]. split_and!; [done..|]. intros sc'. simpl.
    case_decide; [subst; by rewrite app_nil_r|done]. }
  cbn [all_ok length] in *. unfold insert_queue.
  destruct Hi as (Hs & Hb & Hqs & Hqb & Hseq & Hqseq).
  destruct Hr as [Hr1 Hr2].
  destruct (Z.ltb_spec (queue_seq db) max_rowid); [|lia]. cbn [default].
  destruct (IH (S i) (mkDb (function_state db) (function_log db) (log_seq db)
    (work_queue db ++ [mkQueueRow (queue_seq db + 1) sc x]) (queue_seq db + 1)
    (scope_touch db) (now_secs db))) as (Hi' & Hv' & Hr').
  { split_and!; simpl; try done; try lia.
    - rewrite fmap_app. apply StronglySorted_snoc; [done|]. rewrite Forall_fmap.
      eapply Forall_impl; [exact Hqb|]. simpl. lia.
    - apply Forall_app. split; [|repeat constructor; simpl; lia].
      eapply Forall_impl; [exact Hqb|]. simpl. lia. }
  { done. }
  { split; simpl; lia. }
  split_and!; [done| |done]. rewrite Hv'. split_and!; simpl; [done..|]. intros sc'.
  rewrite !filter_app, !fmap_app, !filter_cons, !filter_nil. simpl.
  destruct (decide (sc' = sc)) as [->|].
  - rewrite decide_True by done. simpl. by rewrite <- app_assoc.
  - rewrite decide_False by done. by rewrite app_nil_r.
Qed.

Lemma sorted_head_filter (l : list QueueRow) r q :
  StronglySorted Z.lt (qr_id <$> l) → r ∈ l →
  filter (λ r', qr_id r' = qr_id r) l = [r] ∧
  (filter (λ r', qr_scope r' = q) (filter (λ r', qr_id r' ≠ qr_id r) l) =
   filter (λ r', qr_id r' ≠ qr_id r) (filter (λ r', qr_scope r' = q) l)).
Proof.
  intros Hs Hr. split; [|rewrite !list_filter_filter; apply list_filter_iff; tauto].
  induction l as [|y l IH]; [by apply elem_of_nil in Hr|].
  simpl in Hs. apply StronglySorted_cons in Hs as [Hf Hs]. rewrite Forall_fmap in Hf.
  apply elem_of_cons in Hr as [->|Hr]; rewrite filter_cons.
  - rewrite decide_True by done. f_equal. apply list_filter_none.
    eapply Forall_impl; [exact Hf|]. simpl. lia.
  - rewrite decide_False; [by apply IH|]. intros E.
    eapply Forall_forall in Hf; [|exact Hr]. simpl in Hf. lia.
Qed.

Lemma sorted_filter_ne (l : list QueueRow) r :
  StronglySorted Z.lt (qr_id <$> r :: l) → filter (λ r', qr_id r' ≠ qr_id r) (r :: l) = l.
Proof.
  simpl. intros [Hf _]%StronglySorted_cons. rewrite filter_cons, decide_False by tauto.
  apply list_filter_all. rewrite Forall_fmap in Hf. eapply Forall_impl; [exact Hf|].
  simpl. lia.
Qed.

Lemma sql_queue_pop_law db sc r db' :
  sql_inv db → sql_queue_pop all_ok db sc = (r, db') →
  sql_inv db' ∧ r = head (v_queue (sql_view db) sc) ∧
  sql_view db' ≡ abs_queue_set (sql_view db) sc (tail (v_queue (sql_view db) sc)) ∧
  (∀ n, sql_room db n → sql_room db' n).
Proof.
  intros (Hs & Hb & Hqs & Hqb & Hseq & Hqseq) Heq. unfold sql_queue_pop in Heq.
  cbn [all_ok] in Heq.
  rewrite order_by_sorted in Heq by by apply sorted_filter.
  cbn [sql_view v_queue].
  destruct (filter (λ r, qr_scope r = sc) (work_queue db)) as [|q0 rest] eqn:E; simplify_eq.
  { split_and!; try done. split_and!; try done. intros sc'. simpl.
    case_decide; [subst; by rewrite E|done]. }
  assert (q0 ∈ work_queue db ∧ qr_scope q0 = sc) as [Hin Hsc].
  { assert (q0 ∈ filter (λ r, qr_scope r = sc) (work_queue db)) as H%list_elem_of_filter
      by (rewrite E; left). tauto. }
  destruct (sorted_head_filter _ q0 sc Hqs Hin) as [H1 _].
  split_and!.
  - split_and!; simpl; try done; try lia.
    + by apply sorted_filter.
    + apply Forall_forall. intros x [_ Hx]%list_elem_of_filter. by eapply Forall_forall in Hqb.
  - by rewrite H1.
  - split_and!; simpl; [done..|]. intros sc'.
    destruct (sorted_head_filter _ q0 sc' Hqs Hin) as [_ H2]. rewrite H2.
    case_decide as Hd.
    + subst sc'. rewrite E, sorted_filter_ne; [done|]. rewrite <- E. by apply sorted_filter.
    + rewrite list_filter_all; [done|]. apply Forall_forall. intros x [Hx Hxin]%list_elem_of_filter Heq'.
      destruct (sorted_head_filter _ x sc' Hqs Hxin) as [H3 _].
      assert (q0 ∈ filter (λ r', qr_id r' = qr_id x) (work_queue db)) as Hq0
        by (apply list_elem_of_filter; done).
      rewrite H3 in Hq0. apply list_elem_of_singleton in Hq0. congruence.
  - done.
Qed.

Lemma sql_append_many_law db sc ns k xs ids db' n :
  sql_inv db → 0 ≤ n → sql_room db (Z.of_nat (length xs) + n) →
  sql_append_many all_ok db sc ns k xs = (ids, db') →
  sql_inv db' ∧ length ids = length xs ∧
  sql_view db' ≡ abs_append (sql_view db) sc ns k (zip ids xs) ∧ sql_room db' n.
Proof.
  intros Hi Hn Hr Heq. destruct xs as [|x xs].
  { simplify_eq/=. split_and!; [done..| |done]. symmetry. apply abs_append_nil. }
  unfold sql_append_many in Heq. cbn [all_ok negb] in Heq.
  destruct (insert_logs _ _ _ _ _ _ _) as [ids' tx] eqn:E. simplify_eq.
  by eapply insert_logs_law in E.
Qed.

Lemma delete_scope_law db sc :
  sql_inv db →
  sql_inv (delete_scope all_ok db sc) ∧
  sql_view (delete_scope all_ok db sc) ≡ abs_clear (sql_view db) sc ∧
  (∀ n, sql_room db n → sql_room (delete_scope all_ok db sc) n).
Proof.
  intros (Hs & Hb & Hqs & Hqb & Hseq & Hqseq). split_and!; [| |done].
  - split_and!; simpl; try done; try lia; try by apply sorted_filter.
    + apply Forall_forall. intros x [_ Hx]%list_elem_of_filter. by eapply Forall_forall in Hb.
    + apply Forall_forall. intros x [_ Hx]%list_elem_of_filter. by eapply Forall_forall in Hqb.
  - split_and!; simpl.
    + intros sc' k. rewrite (lookup_filter_key (λ x : bytes * bytes, x.1 ≠ sc)) by done. simpl.
      by destruct (decide (sc' = sc)), (decide (sc' ≠ sc)).
    + intros sc' ns k. rewrite list_filter_filter. case_decide as E.
      * subst. rewrite list_filter_none; [done|]. apply Forall_forall. intros r _ [(?&_&_) ?]. done.
      * f_equal. apply list_filter_iff. unfold log_row_of. intros r. split; [tauto|].
        intros H. split; [done|]. destruct H as (->&_&_). done.
    + intros sc'. rewrite list_filter_filter. case_decide as E.
      * subst. rewrite list_filter_none; [done|]. apply Forall_forall. intros r _ [? ?]. done.
      * f_equal. apply list_filter_iff. intros r. split; [tauto|]. intros ->. done.
Qed.

#[global] Program Instance sqlite_laws : StorageLaws Db := {
  st_inv := sql_inv;
  st_view := sql_view;
  st_scope _ := True;
  st_room := sql_room;
}.
Next Obligation. unfold sql_room. intros. lia. Qed.
Next Obligation.
  intros s sc ns k (Hs & _) _. cbn [v_log sql_view]. rewrite <- list_fmap_compose.
  by apply sorted_filter.
Qed.
Next Obligation.
  intros s sc ns k (_ & Hb & _) _. cbn [v_log sql_view]. apply Forall_fmap, Forall_forall.
  intros r [_ Hr]%list_elem_of_filter. eapply Forall_forall in Hb; [|done]. simpl in *. lia.
Qed.
Next Obligation.
  intros s sc ns k (_ & Hb & _ & _ & Hm & _) _ _. cbn [v_log sql_view]. apply Forall_fmap, Forall_forall.
  intros r [_ Hr]%list_elem_of_filter. eapply Forall_forall in Hb; [|done]. unfold max_rowid in Hm. simpl in *. lia.
Qed.
Next Obligation. unfold sql_room, max_rowid. intros s n (_ & _ & _ & _ & Hm & _) [? _]. lia. Qed.
Next Obligation. intros. simplify_eq/=. done. Qed.
Next Obligation.
  intros s sc k x Hi _. split_and!; [done| |done]. split_and!; simpl; [|done..].
  intros sc' k'. rewrite lookup_insert. by repeat case_decide; simplify_eq.
Qed.
Next Obligation.
  intros s sc k Hi _. split_and!; [done| |done]. split_and!; simpl; [|done..].
  intros sc' k'. rewrite lookup_delete. by repeat case_decide; simplify_eq.
Qed.
Next Obligation.
  intros s sc ns k x id s' n Hi _ Hn Hr Heq. cbn in Heq. unfold sql_append in Heq.
  cbn [all_ok] in Heq.
  destruct (insert_log_some s sc ns k x n Hn Hr) as [[id1 db1] E]. rewrite E in Heq.
  simplify_eq. apply insert_log_law in E as (Hi1 & Hv1 & Hl1 & Hq1); [|done].
  split_and!; [done..|]. destruct Hr. split; simpl; lia.
Qed.
Next Obligation. intros. by eapply sql_append_many_law. Qed.
Next Obligation. intros. by apply sql_scan_law. Qed.
Next Obligation.
  intros s sc items n Hi _ Hn Hr. destruct (insert_queues_law 3 s sc items n) as (?&?&?); done.
Qed.
Next Obligation. intros. by apply sql_queue_pop_law. Qed.
Next Obligation. intros. by apply delete_scope_law. Qed.

(** * Properties *)

Lemma touch_touch db sc : touch (touch db sc) sc = touch db sc.
Proof. unfold touch. simpl. by rewrite insert_insert_eq. Qed.

Lemma insert_log_touch db sc0 sc ns k x :
  insert_log (touch db sc0) sc ns k x = prod_map id (λ d, touch d sc0) <$> insert_log db sc ns k x.
Proof. unfold insert_log. simpl. by destruct (log_seq db <? max_rowid). Qed.

Lemma append_each_touch i db sc ns k xs n :
  0 ≤ n → sql_room db (Z.of_nat (length xs) + n) →
  append_each (λ d v, sql_append all_ok d sc ns k v) (touch db sc) xs =
  prod_map id (λ d, touch d sc) (insert_logs all_ok i db sc ns k xs).
Proof.
  revert i db. induction xs as [|x xs IH]; intros i db Hn Hr; [done|].
  cbn [append_each insert_logs all_ok length] in *. unfold sql_append at 1.
  cbn [all_ok]. rewrite insert_log_touch.
  destruct (insert_log_some db sc ns k x (Z.of_nat (length xs) + n)) as [[id db1] E1]; [lia| |].
  { destruct Hr. split; lia. }
  rewrite E1. simpl. rewrite touch_touch.
  assert (log_seq db1 = log_seq db + 1 ∧ queue_seq db1 = queue_seq db) as [Hs1 Hs2].
  { unfold insert_log in E1. destruct (_ <? _); by simplify_eq. }
  rewrite (IH (S i)); [|done|destruct Hr; split; lia].
  by destruct (insert_logs all_ok (S i) db1 sc ns k xs) as [ids db2].
Qed.

(** The one-transaction [append_many] leaves the same
    database and returns the same ids as one [append] per value, as long as the ids fit a
    rowid. *)
Theorem sqlite_append_many_is_appends db sc ns k xs :
  sql_room db (Z.of_nat (length xs)) →
  sql_append_many all_ok db sc ns k xs =
  append_each (λ d v, sql_append all_ok d sc ns k v) db xs.
Proof.
  intros Hr. destruct xs as [|x xs]; [done|]. cbn [length] in Hr.
  destruct (insert_log_some db sc ns k x (Z.of_nat (length xs))) as [[id db1] E1]; [lia| |].
  { destruct Hr. split; lia. }
  unfold sql_append_many. cbn [all_ok negb append_each insert_logs].
  rewrite E1. unfold sql_append at 1. cbn [all_ok]. rewrite E1.
  assert (log_seq db1 = log_seq db + 1 ∧ queue_seq db1 = queue_seq db) as [Hs1 Hs2].
  { unfold insert_log in E1. destruct (_ <? _); by simplify_eq. }
  rewrite (append_each_touch 5 _ _ _ _ _ 0); [|done|destruct Hr; split; lia].
  by destruct (insert_logs all_ok 5 db1 sc ns k xs).
Qed.

Lemma sqlite_append_many_is_appends_witness :
  sql_append_many all_ok (Db_new 7) [x01] [x02] [x03] [[x0a]; [x0b]] =
  append_each (λ d v, sql_append all_ok d [x01] [x02] [x03] v) (Db_new 7) [[x0a]; [x0b]].
Proof. apply sqlite_append_many_is_appends. split; vm_compute; discriminate. Defined.

(** The invariant survives any pattern of failing statements. *)
Lemma insert_logs_inv ok i db sc ns k xs ids db' :
  sql_inv db → insert_logs ok i db sc ns k xs = (ids, db') → sql_inv db'.
Proof.
  revert i db ids. induction xs as [|x xs IH]; intros i db ids Hi Heq; [by simplify_eq/=|].
  cbn [insert_logs] in Heq.
  destruct (if ok i then _ else _) as [[id db1]|] eqn:E1;
    destruct (insert_logs ok _ _ _ _ _ _) as [ids1 db2] eqn:E2; simplify_eq.
  - destruct (ok i); [|done]. apply insert_log_law in E1 as (?&_); [|done]. eauto.
  - eauto.
Qed.

Lemma insert_queues_inv ok i db sc xs : sql_inv db → sql_inv (insert_queues ok i db sc xs).
Proof.
  revert i db. induction xs as [|x xs IH]; intros i db Hi; [done|].
  cbn [insert_queues]. apply IH. destruct (ok i); [|done].
  destruct (insert_queue db sc x) as [db1|] eqn:E; [|done]. cbn [default].
  destruct Hi as (Hs & Hb & Hqs & Hqb & Hseq & Hqseq). unfold insert_queue in E.
  destruct (Z.ltb_spec (queue_seq db) max_rowid); simplify_eq.
  split_and!; simpl; try done; try lia.
  - rewrite fmap_app. apply StronglySorted_snoc; [done|]. rewrite Forall_fmap.
    eapply Forall_impl; [exact Hqb|]. simpl. lia.
  - apply Forall_app. split; [|repeat constructor; simpl; lia].
    eapply Forall_impl; [exact Hqb|]. simpl. lia.
Qed.

Lemma delete_scope_inv ok db sc : sql_inv db → sql_inv (delete_scope ok db sc).
Proof.
  intros (Hs & Hb & Hqs & Hqb & Hseq & Hqseq).
  split_and!; simpl; try lia; destruct (ok _); try done; try by apply sorted_filter.
  - apply Forall_forall. intros x [_ Hx]%list_elem_of_filter. by eapply Forall_forall in Hb.
  - apply Forall_forall. intros x [_ Hx]%list_elem_of_filter. by eapply Forall_forall in Hqb.
Qed.

(** The inserts of a transaction whose statements may fail: the rows that went in
    are those whose statement did not fail, under the ids reported for them. *)
Lemma insert_logs_faults ok i db sc ns k xs ids db' :
  sql_inv db → sql_room db (Z.of_nat (length xs)) → insert_logs ok i db sc ns k xs = (ids, db') →
  sql_inv db' ∧ length ids = length xs ∧
  sql_view db' ≡ abs_append (sql_view db) sc ns k (filter (λ e, e.1 ≠ -1) (zip ids xs)) ∧
  ∀ j id, ids !! j = Some id → (id = -1 ↔ ok (i + j)%nat = false) ∧ (id ≠ -1 → log_seq db < id).
Proof.
  revert i db ids db'. induction xs as [|x xs IH]; intros i db ids db' Hi Hr Heq.
  { simplify_eq/=. split_and!; [done..| |done]. symmetry. apply abs_append_nil. }
  cbn [insert_logs length] in *.
  assert (∀ db1, insert_logs ok (S i) db1 sc ns k xs = ((insert_logs ok (S i) db1 sc ns k xs).1, (insert_logs ok (S i) db1 sc ns k xs).2)) as Hpair.
  { intros. apply surjective_pairing. }
  destruct (ok i) eqn:Eok.
  - destruct (insert_log_some db sc ns k x (Z.of_nat (length xs))) as [[id db1] E1]; [lia| |].
    { destruct Hr. split; lia. }
    rewrite E1 in Heq. pose proof E1 as Eid. unfold insert_log in Eid. destruct (_ <? _); [|done]. injection Eid as <- _.
    apply insert_log_law in E1 as (Hi1 & Hv1 & Hl1 & Hq1); [|done].
    assert (0 ≤ log_seq db) as Hseq by apply Hi.
    rewrite Hpair in Heq. specialize (Hpair db1). apply IH in Hpair as (Hi2 & Hl & Hv2 & Hj); [|done|destruct Hr; split; lia].
    injection Heq as <- <-. split_and!; [done|by rewrite <- Hl| |].
    + cbn [zip_with]. rewrite filter_cons_True by (cbn; lia). rewrite Hv2. etrans; [apply abs_append_proper, Hv1|]. apply abs_append_app.
    + intros [|j] id' Hid; cbn in Hid.
      * injection Hid as <-. rewrite Nat.add_0_r, Eok. split; [|lia]. split; [lia|done].
      * destruct (Hj _ _ Hid) as [? ?]. rewrite Nat.add_succ_r. split; [done|]. intros Hne. specialize (H0 Hne). lia.
  - rewrite Hpair in Heq. specialize (Hpair db). apply IH in Hpair as (Hi2 & Hl & Hv2 & Hj); [|done|destruct Hr; split; lia].
    injection Heq as <- <-. split_and!; [done|by rewrite <- Hl| |].
    + cbn [zip_with]. rewrite filter_cons_False by (cbn; tauto). done.
    + intros [|j] id' Hid; cbn in Hid.
      * injection Hid as <-. by rewrite Nat.add_0_r, Eok.
      * rewrite Nat.add_succ_r. by apply Hj.
Qed.

(** C30: What [append_many] does whatever statements fail
    (the failures that end the transaction itself apart),
    as long as the ids fit a rowid. When the transaction cannot begin, the insert
    cannot be prepared or the commit fails, it answers no ids and leaves the
    database as it was. Otherwise it answers one id per value, [-1] exactly for the
    values whose insert failed; the log has grown by exactly the other values, in
    order, under their ids, which are new; nothing else the store shows has
    changed; and the database stays well formed. *)
Theorem sqlite_append_many_faults ok db sc ns k vs ids db' :
  sql_inv db → sql_room db (Z.of_nat (length vs)) → sql_append_many ok db sc ns k vs = (ids, db') →
  sql_inv db' ∧
  if ok 0%nat && ok 1%nat && ok 3%nat then
    length ids = length vs ∧
    (∀ j id, ids !! j = Some id → (id = -1 ↔ ok (4 + j)%nat = false) ∧ (id ≠ -1 → log_seq db < id)) ∧
    sql_view db' ≡ abs_append (sql_view db) sc ns k (filter (λ e, e.1 ≠ -1) (zip ids vs))
  else ids = [] ∧ db' = db.
Proof.
  intros Hi Hr Heq. destruct vs as [|v vs].
  { injection Heq as <- <-. split; [done|]. case_match; [|done]. split_and!; [done..|]. symmetry. apply abs_append_nil. }
  unfold sql_append_many in Heq. destruct (ok 0%nat), (ok 1%nat); cbn [negb andb] in *; try by injection Heq as <- <-.
  destruct (insert_logs ok 4 db sc ns k (v :: vs)) as [ids1 tx] eqn:E.
  destruct (insert_logs_faults _ _ _ _ _ _ _ _ _ Hi Hr E) as (Hi1 & Hl & Hv & Hj).
  destruct (ok 3%nat); injection Heq as <- <-; [|done]. by destruct (ok 2%nat).
Qed.

Lemma sqlite_append_many_faults_witness :
  let ok := λ i, negb (Nat.eqb i 5) in
  sql_inv (Db_new 7) ∧
  sql_append_many ok (Db_new 7) [x01] [] [] [[x0a]; [x0b]; [x0c]] =
    ([1; -1; 2], (sql_append_many ok (Db_new 7) [x01] [] [] [[x0a]; [x0b]; [x0c]]).2) ∧
  v_log (sql_view (sql_append_many ok (Db_new 7) [x01] [] [] [[x0a]; [x0b]; [x0c]]).2) [x01] [] [] =
    [(1, [x0a]); (2, [x0c])].
Proof.
  intros ok. assert (sql_inv (Db_new 7)) as Hi by (split_and!; simpl; try constructor; vm_compute; discriminate).
  split; [exact Hi|].
  assert (sql_append_many ok (Db_new 7) [x01] [] [] [[x0a]; [x0b]; [x0c]] =
    ([1; -1; 2], (sql_append_many ok (Db_new 7) [x01] [] [] [[x0a]; [x0b]; [x0c]]).2)) as E by reflexivity.
  split; [exact E|].
  assert (sql_room (Db_new 7) (Z.of_nat 3)) as Hr by (split; vm_compute; reflexivity || discriminate).
  destruct (sqlite_append_many_faults ok (Db_new 7) [x01] [] [] [[x0a]; [x0b]; [x0c]] _ _ Hi Hr E) as (_ & _ & _ & Hv).
  destruct Hv as (_ & Hlog & _). rewrite (Hlog [x01] [] []). reflexivity.
Defined.

(** Whatever statements fail, every writing method keeps the database well formed:
    rowids stay strictly increasing and at most the AUTOINCREMENT mark, so ids are
    never reused. *)
Theorem sqlite_faults_keep_invariant ok db sc ns k v vs :
  sql_inv db →
  sql_inv (sql_kv_put ok db sc k v) ∧ sql_inv (sql_kv_del ok db sc k) ∧
  sql_inv (sql_append ok db sc ns k v).2 ∧ sql_inv (sql_append_many ok db sc ns k vs).2 ∧
  sql_inv (sql_queue_push ok db sc vs) ∧ sql_inv (sql_queue_pop ok db sc).2 ∧
  sql_inv (sql_clear ok db sc).
Proof.
  intros Hi. split_and!.
  - unfold sql_kv_put. by destruct (ok 0%nat), (ok 1%nat).
  - unfold sql_kv_del. by destruct (ok 0%nat).
  - unfold sql_append. destruct (if ok 0%nat then _ else _) as [[id db1]|] eqn:E; [|done].
    destruct (ok 0%nat); [|done]. apply insert_log_law in E as (?&_); [|done].
    by destruct (ok 1%nat).
  - unfold sql_append_many. destruct vs as [|x vs]; [done|].
    destruct (ok 0%nat), (ok 1%nat); try done. simpl negb. cbv iota.
    destruct (insert_logs _ _ _ _ _ _ _) as [ids tx] eqn:E.
    apply insert_logs_inv in E; [|done]. by destruct (ok 2%nat), (ok 3%nat).
  - unfold sql_queue_push. destruct (ok 0%nat); [|done]. simpl negb. cbv iota.
    pose proof (insert_queues_inv ok 3 db sc vs Hi). by destruct (ok 1%nat), (ok 2%nat).
  - destruct (ok 0%nat) eqn:E0.
    + assert (sql_queue_pop ok db sc = sql_queue_pop all_ok db sc) as ->
        by (unfold sql_queue_pop; by rewrite E0).
      destruct (sql_queue_pop all_ok db sc) as [r db'] eqn:E. by eapply sql_queue_pop_law.
    + unfold sql_queue_pop. by rewrite E0.
  - by apply delete_scope_inv.
Qed.

Lemma delete_scopes_view db scs :
  sql_inv db →
  let db' := foldl (delete_scope all_ok) db scs in
  sql_inv db' ∧
  (∀ sc k, v_kv (sql_view db') sc k = if decide (sc ∈ scs) then None else v_kv (sql_view db) sc k) ∧
  (∀ sc ns k, v_log (sql_view db') sc ns k =
     if decide (sc ∈ scs) then [] else v_log (sql_view db) sc ns k) ∧
  (∀ sc, v_queue (sql_view db') sc = if decide (sc ∈ scs) then [] else v_queue (sql_view db) sc).
Proof.
  revert db. induction scs as [|s scs IH]; intros db Hi; cbn [foldl].
  { split_and!; try done; intros; rewrite decide_False by apply not_elem_of_nil; done. }
  destruct (delete_scope_law db s Hi) as (Hi' & (Hk & Hl & Hq) & _).
  destruct (IH _ Hi') as (? & IHk & IHl & IHq). split_and!; [done|..]; intros;
    rewrite ?IHk, ?IHl, ?IHq, ?Hk, ?Hl, ?Hq; simpl;
    repeat case_decide; set_solver.
Qed.

(** The orphan sweep drops exactly the scopes whose last write is older
    than the cutoff, completely, and leaves every other scope's state as it was. *)
Theorem sqlite_gc_spec db ttl :
  sql_inv db →
  let cutoff := wrap_i64 (now_secs db - wrap_i64 ttl) in
  let stale sc := ∃ t, scope_touch db !! sc = Some t ∧ t < cutoff in
  (∀ sc, stale sc →
     (∀ k, v_kv (sql_view (sql_gc db ttl)) sc k = None) ∧
     (∀ ns k, v_log (sql_view (sql_gc db ttl)) sc ns k = []) ∧
     v_queue (sql_view (sql_gc db ttl)) sc = []) ∧
  (∀ sc, ¬ stale sc →
     (∀ k, v_kv (sql_view (sql_gc db ttl)) sc k = v_kv (sql_view db) sc k) ∧
     (∀ ns k, v_log (sql_view (sql_gc db ttl)) sc ns k = v_log (sql_view db) sc ns k) ∧
     v_queue (sql_view (sql_gc db ttl)) sc = v_queue (sql_view db) sc).
Proof.
  intros Hi cutoff stale. unfold sql_gc. fold cutoff.
  set (scs := (map_to_list _).*1).
  assert (∀ sc, sc ∈ scs ↔ stale sc) as Hst.
  { intros sc. unfold scs. rewrite list_elem_of_fmap. split.
    - intros [[s t] [-> Hin]]. apply elem_of_map_to_list, map_lookup_filter_Some in Hin.
      exists t. done.
    - intros [t [Ht Hc]]. exists (sc, t). split; [done|].
      apply elem_of_map_to_list, map_lookup_filter_Some. done. }
  destruct (delete_scopes_view db scs Hi) as (_ & Hk & Hl & Hq).
  split; intros sc Hsc; rewrite <- Hst in Hsc.
  - split_and!; intros; rewrite ?Hk, ?Hl, ?Hq; by rewrite decide_True.
  - split_and!; intros; rewrite ?Hk, ?Hl, ?Hq; by rewrite decide_False.
Qed.

Definition gc_example : Db :=
  mkDb {[ ([x01], []) := [x0a]; ([x02], []) := [x0b] ]} [] 0 [] 0 {[ [x01] := 10; [x02] := 90 ]} 100.

Lemma sqlite_gc_spec_witness :
  sql_inv gc_example ∧
  v_kv (sql_view (sql_gc gc_example 50)) [x01] [] = None ∧
  v_kv (sql_view (sql_gc gc_example 50)) [x02] [] = Some [x0b].
Proof.
  assert (sql_inv gc_example) as Hi
    by (split_and!; simpl; try constructor; vm_compute; discriminate).
  destruct (sqlite_gc_spec gc_example 50 Hi) as [H1 H2].
  split_and!; [done| |].
  - apply (H1 [x01]). exists 10. split; reflexivity.
  - destruct (H2 [x02]) as [Hk _]; [|by rewrite Hk].
    intros (t & Ht & Hlt). vm_compute in Ht. simplify_eq. vm_compute in Hlt. discriminate.
Defined.
