(* ===== verification/StorageHttp.v ===== *)
(** The remote storage service: the wire operations and the client of
    [vgi/src/storage/http.rs], and the [/rpc] handler of
    [vgi-storage-server/src/main.rs].

    [bincode] is a parameter: two encoders and two decoders.  The network is a
    schedule that says what happens to each attempt.  [rpc] is the handler run
    to completion; [hstep] is the same handler split at its lock boundaries, so
    overlapping requests interleave. *)
From S2P Require Import Prelude StorageSpec StorageMemory.

Open Scope Z_scope.

(** * The wire operations *)

Inductive StorageOp :=
| KvGet (scope key : bytes)
| KvPut (scope key value : bytes)
| KvDel (scope key : bytes)
| Append (scope ns key value : bytes)
| Scan (scope ns key : bytes) (after_id limit : Z)
| QueuePush (scope : bytes) (items : list bytes)
| QueuePop (scope : bytes)
| Clear (scope : bytes)
| Gc (ttl_secs : Z).

Record StorageRequest := mkStorageRequest {
  idempotency_key : option string;
  op : StorageOp;
}.

Inductive StorageReply :=
| Unit
| MaybeBytes (b : option bytes)
| Id (id : Z)
| Entries (e : log_rows).

#[global] Instance storage_op_eq_dec : EqDecision StorageOp.
Proof. solve_decision. Defined.
#[global] Instance storage_request_eq_dec : EqDecision StorageRequest.
Proof. solve_decision. Defined.
#[global] Instance storage_reply_eq_dec : EqDecision StorageReply.
Proof. solve_decision. Defined.

(** [apply_op]: one decoded operation against a backend. *)
Definition apply_op {St} `{FunctionStorage St} (store : St) (o : StorageOp) : StorageReply * St :=
  match o with
  | KvGet scope key => let '(r, s) := kv_get store scope key in (MaybeBytes r, s)
  | KvPut scope key value => (Unit, kv_put store scope key value)
  | KvDel scope key => (Unit, kv_del store scope key)
  | Append scope ns key value => let '(id, s) := append store scope ns key value in (Id id, s)
  | Scan scope ns key after_id limit =>
      (Entries (scan store scope ns key after_id (Z.min limit usize_max)), store)
  | QueuePush scope items => (Unit, queue_push store scope items)
  | QueuePop scope => let '(r, s) := queue_pop store scope in (MaybeBytes r, s)
  | Clear scope => (Unit, clear store scope)
  | Gc ttl_secs => (Unit, gc store ttl_secs)
  end.

(** * The abstract step of an operation *)

(** [abs_step v o reply v']: the contract allows [o] to answer [reply].  The
    only freedom a backend has is the id it draws for an appended row. *)
Inductive abs_step (v : view) : StorageOp → StorageReply → view → Prop :=
| abs_KvGet sc k : abs_step v (KvGet sc k) (MaybeBytes (v_kv v sc k)) v
| abs_KvPut sc k x : abs_step v (KvPut sc k x) Unit (abs_kv_set v sc k (Some x))
| abs_KvDel sc k : abs_step v (KvDel sc k) Unit (abs_kv_set v sc k None)
| abs_Append sc ns k x id :
    Forall (λ e, e.1 < id) (v_log v sc ns k) → 0 ≤ id →
    abs_step v (Append sc ns k x) (Id id) (abs_append v sc ns k [(id, x)])
| abs_Scan sc ns k after limit :
    abs_step v (Scan sc ns k after limit)
      (Entries (take_z limit (filter (λ e, after < e.1) (v_log v sc ns k)))) v
| abs_QueuePush sc items :
    abs_step v (QueuePush sc items) Unit (abs_queue_set v sc (v_queue v sc ++ items))
| abs_QueuePop sc :
    abs_step v (QueuePop sc) (MaybeBytes (head (v_queue v sc)))
      (abs_queue_set v sc (tail (v_queue v sc)))
| abs_Clear sc : abs_step v (Clear sc) Unit (abs_clear v sc).

(** Runs of the abstract store, up to view equivalence. *)
Inductive abs_run (v : view) : list StorageOp → list StorageReply → view → Prop :=
| abs_run_nil v' : v ≡ v' → abs_run v [] [] v'
| abs_run_cons o os r rs v1 v1' v2 :
    abs_step v o r v1 → v1 ≡ v1' → abs_run v1' os rs v2 → abs_run v (o :: os) (r :: rs) v2.

Definition op_scope (o : StorageOp) : option bytes :=
  match o with
  | KvGet sc _ | KvPut sc _ _ | KvDel sc _ | Append sc _ _ _ | Scan sc _ _ _ _
  | QueuePush sc _ | QueuePop sc | Clear sc => Some sc
  | Gc _ => None
  end.

(** Ids an operation draws. *)
Definition op_ids (o : StorageOp) : Z :=
  match o with
  | Append _ _ _ _ => 1
  | QueuePush _ items => Z.of_nat (length items)
  | _ => 0
  end.

(** An operation whose arguments the wire types admit. *)
Definition op_wf (o : StorageOp) : Prop :=
  match o with Scan _ _ _ _ limit => 0 ≤ limit ≤ usize_max | _ => True end.

Fixpoint run_ops {St} `{FunctionStorage St} (s : St) (os : list StorageOp)
  : list StorageReply * St :=
  match os with
  | [] => ([], s)
  | o :: os =>
      let '(r, s) := apply_op s o in
      let '(rs, s) := run_ops s os in
      (r :: rs, s)
  end.

Section refinement.
Context {St : Type} `{StorageLaws St}.

Definition op_ok (o : StorageOp) : Prop :=
  op_wf o ∧ ∃ sc, op_scope o = Some sc ∧ st_scope sc.

Lemma op_ids_nonneg o : 0 ≤ op_ids o.
Proof. destruct o; simpl; lia. Qed.

Lemma apply_op_step s o r s' n :
  st_inv s → op_ok o → 0 ≤ n → st_room s (op_ids o + n) → apply_op s o = (r, s') →
  ∃ v', abs_step (st_view s) o r v' ∧ v' ≡ st_view s' ∧ st_inv s' ∧ st_room s' n.
Proof.
  intros Hi [Hwf (sc & Hsc & Hsco)] Hn Hr Heq.
  destruct o; simpl in *; simplify_eq.
  - destruct (kv_get s sc key) as [x s1] eqn:E. simplify_eq.
    eapply law_kv_get in E as (-> & ? & Hv & Hr'); [|done..].
    eexists. split_and!; [constructor|by symmetry|done|]. by apply Hr'.
  - destruct (law_kv_put s sc key value Hi Hsco) as (? & Hv & Hr').
    eexists. split_and!; [constructor|by symmetry|done|]. by apply Hr'.
  - destruct (law_kv_del s sc key Hi Hsco) as (? & Hv & Hr').
    eexists. split_and!; [constructor|by symmetry|done|]. by apply Hr'.
  - destruct (append s sc ns key value) as [id s1] eqn:E. simplify_eq.
    eapply law_append in E as (Hi' & Hv & Hr'); [|done..].
    eexists. split_and!; [|by symmetry|done|done].
    pose proof (law_log_sorted s' sc ns key Hi' Hsco) as Hso.
    pose proof (law_log_nonneg s' sc ns key Hi' Hsco) as Hnn.
    rewrite Hv, abs_append_eq in Hso, Hnn. constructor.
    + rewrite fmap_app in Hso. apply StronglySorted_app in Hso as (Hlt & _).
      apply Forall_forall. intros e He. apply Hlt; [by apply list_elem_of_fmap_2 | by left].
    + apply Forall_app in Hnn as [_ Hnn]. by inversion_clear Hnn.
  - eexists. split_and!; [|done|done|done].
    rewrite Z.min_l by lia. rewrite law_scan by (done || lia). constructor.
  - destruct (law_queue_push s sc items n Hi Hsco Hn Hr) as (? & Hv & Hr').
    eexists. split_and!; [constructor|by symmetry|done|done].
  - destruct (queue_pop s sc) as [x s1] eqn:E. simplify_eq.
    eapply law_queue_pop in E as (? & -> & Hv & Hr'); [|done..].
    eexists. split_and!; [constructor|by symmetry|done|]. by apply Hr'.
  - destruct (law_clear s sc Hi Hsco) as (? & Hv & Hr').
    eexists. split_and!; [constructor|by symmetry|done|]. by apply Hr'.
Qed.

Lemma run_ops_refine s os rs s' :
  st_inv s → Forall op_ok os → st_room s (foldr (λ o n, op_ids o + n) 0 os) →
  run_ops s os = (rs, s') →
  abs_run (st_view s) os rs (st_view s') ∧ st_inv s'.
Proof.
  revert s rs s'. induction os as [|o os IH]; intros s rs s' Hi Hok Hr Heq.
  { simplify_eq/=. split; [by constructor|done]. }
  cbn [run_ops foldr] in *. apply Forall_cons in Hok as [Ho Hok].
  destruct (apply_op s o) as [r s1] eqn:E1. destruct (run_ops s1 os) as [rs1 s2] eqn:E2.
  simplify_eq. assert (0 ≤ foldr (λ o n, op_ids o + n) 0 os).
  { clear. induction os as [|o os IH]; simpl; [lia|]. pose proof (op_ids_nonneg o). lia. }
  eapply apply_op_step in E1 as (v1 & Hs & Hv & Hi1 & Hr1); [|done..].
  eapply IH in E2 as [? ?]; [|done..]. split; [|done]. by econstructor.
Qed.

End refinement.

(** The abstract store does not tell equivalent views apart. *)
Lemma abs_queue_set_proper v w sc q : v ≡ w → abs_queue_set v sc q ≡ abs_queue_set w sc q.
Proof. intros (?&?&H). split_and!; try done. intros sc'. simpl. by rewrite H. Qed.

Lemma abs_clear_proper v w sc : v ≡ w → abs_clear v sc ≡ abs_clear w sc.
Proof. intros (H1&H2&H3). split_and!; intros; simpl; by rewrite ?H1, ?H2, ?H3. Qed.

Lemma abs_step_proper v w o r v1 :
  v ≡ w → abs_step v o r v1 → ∃ w1, abs_step w o r w1 ∧ v1 ≡ w1.
Proof.
  intros Hv Hs. pose proof Hv as (Hk & Hl & Hq). destruct Hs.
  - rewrite Hk. eexists. split; [constructor|done].
  - eexists. split; [constructor|by apply abs_kv_set_proper].
  - eexists. split; [constructor|by apply abs_kv_set_proper].
  - eexists. split; [constructor; [by rewrite <- Hl|done]|by apply abs_append_proper].
  - rewrite Hl. eexists. split; [constructor|done].
  - rewrite Hq. eexists. split; [constructor|by apply abs_queue_set_proper].
  - rewrite Hq. eexists. split; [constructor|by apply abs_queue_set_proper].
  - eexists. split; [constructor|by apply abs_clear_proper].
Qed.

Lemma abs_run_start v w os rs v' : v ≡ w → abs_run v os rs v' → abs_run w os rs v'.
Proof.
  intros Hv [u Hu|o os' r rs' v1 v1' v2 Hst H1 Hrun]; [constructor; by rewrite <- Hv|].
  destruct (abs_step_proper _ _ _ _ _ Hv Hst) as (w1 & Hw & Hww).
  apply (abs_run_cons _ _ _ _ _ w1 v1' v2); [done|by rewrite <- Hww|done].
Qed.

(** * The server *)

Definition IDEM_CAP : Z := 100000.

Record AppState (St : Type) := mkAppState {
  store : St;
  token : option string;
  idem : gmap string bytes;
}.
Arguments mkAppState {St}.
Arguments store {St}.
Arguments token {St}.
Arguments idem {St}.

Inductive Response :=
| Unauthorized
| BadRequest
| InternalError
| OkBytes (b : bytes).

Definition authorized {St} (st : AppState St) (authorization : option string) : bool :=
  match token st with
  | None => true
  | Some expected =>
      match (v ← authorization; strip_prefix "Bearer " v) with
      | Some t => String.eqb t expected
      | None => false
      end
  end.

(** Recording a reply for replay, clearing the cache wholesale when full. *)
Definition idem_record (m : gmap string bytes) (key : string) (b : bytes) : gmap string bytes :=
  <[key := b]> (if IDEM_CAP <=? Z.of_nat (size m) then ∅ else m).

Section server.
Context {St : Type} `{FunctionStorage St}.
(** [bincode::serde] under [WIRE]. *)
Context (encode_request : StorageRequest → bytes) (decode_request : bytes → option StorageRequest).
Context (encode_reply : StorageReply → option bytes) (decode_reply : bytes → option StorageReply).

(** The [/rpc] handler. *)
Definition rpc (st : AppState St) (authorization : option string) (body : bytes)
  : Response * AppState St :=
  if negb (authorized st authorization) then (Unauthorized, st)
  else
    match decode_request body with
    | None => (BadRequest, st)
    | Some req =>
        match (k ← idempotency_key req; idem st !! k) with
        | Some cached => (OkBytes cached, st)
        | None =>
            let '(reply, s) := apply_op (store st) (op req) in
            match encode_reply reply with
            | None => (InternalError, mkAppState s (token st) (idem st))
            | Some b =>
                let m := match idempotency_key req with
                         | Some k => idem_record (idem st) k b
                         | None => idem st
                         end in
                (OkBytes b, mkAppState s (token st) m)
            end
        end
    end.

(** * The client *)

(** What the network does to one attempt. *)
Inductive delivery :=
| RequestLost              (** the server never sees it *)
| ReplyLost                (** the server serves it, the client sees a transport error *)
| ReplyGarbled (b : bytes) (** the server serves it, the client reads other bytes *)
| Delivered.

Inductive outcome :=
| Replied (r : StorageReply)
| Panicked.

Definition MAX_ATTEMPTS : nat := 5.

Record HttpStorage := mkHttpStorage { http_token : option string; seq : Z }.

(** [idem_key]: uid, pid, a process-local counter and the wall clock. *)
Definition idem_key (uid : string) (pid nanos : Z) (h : HttpStorage) : string * HttpStorage :=
  (String.concat "-" [uid; Z_to_string pid; Z_to_string (seq h); Z_to_string nanos],
   mkHttpStorage (http_token h) ((seq h + 1) mod 2 ^ 64)).

Definition bearer (h : HttpStorage) : option string :=
  (λ t, String.append "Bearer " t) <$> http_token h.

(** The attempts of [call]: a reply that decodes ends the loop, a rejected
    request panics, anything else is retried. *)
Fixpoint attempts (n : nat) (sched : list delivery) (h : HttpStorage) (body : bytes)
    (st : AppState St) : outcome * AppState St :=
  match n with
  | O => (Panicked, st)
  | S n =>
      let d := default RequestLost (head sched) in
      let sched := tail sched in
      match d with
      | RequestLost => attempts n sched h body st
      | _ =>
          let '(resp, st) := rpc st (bearer h) body in
          match d, resp with
          | ReplyLost, _ => attempts n sched h body st
          | ReplyGarbled g, OkBytes _ =>
              match decode_reply g with
              | Some r => (Replied r, st)
              | None => attempts n sched h body st
              end
          | _, OkBytes b =>
              match decode_reply b with
              | Some r => (Replied r, st)
              | None => attempts n sched h body st
              end
          | _, _ => (Panicked, st)
          end
      end
  end.

Definition call (env : string * Z * Z) (sched : list delivery) (h : HttpStorage) (o : StorageOp)
    (idempotent : bool) (st : AppState St) : outcome * HttpStorage * AppState St :=
  let '(uid, pid, nanos) := env in
  let '(k, h) := if idempotent then (None, h)
                 else prod_map Some id (idem_key uid pid nanos h) in
  let req := mkStorageRequest k o in
  let '(r, st) := attempts MAX_ATTEMPTS sched h (encode_request req) st in
  (r, h, st).

(** Which operations the client sends without a key. *)
Definition op_idempotent (o : StorageOp) : bool :=
  match o with Append _ _ _ _ | QueuePush _ _ | QueuePop _ => false | _ => true end.

(** The methods of the client's [FunctionStorage]; [None] is a panic. *)
Definition http_kv_get env sched h (scope key : bytes) st : option (option bytes) :=
  match (call env sched h (KvGet scope key) true st).1.1 with
  | Replied (MaybeBytes b) => Some b
  | Replied _ => Some None
  | Panicked => None
  end.
Definition http_append env sched h (scope ns key value : bytes) st : option Z :=
  match (call env sched h (Append scope ns key value) false st).1.1 with
  | Replied (Id id) => Some id
  | Replied _ => Some (-1)
  | Panicked => None
  end.
Definition http_scan env sched h (scope ns key : bytes) (after_id limit : Z) st
  : option log_rows :=
  match (call env sched h (Scan scope ns key after_id limit) true st).1.1 with
  | Replied (Entries e) => Some e
  | Replied _ => Some []
  | Panicked => None
  end.
Definition http_queue_pop env sched h (scope : bytes) st : option (option bytes) :=
  match (call env sched h (QueuePop scope) false st).1.1 with
  | Replied (MaybeBytes b) => Some b
  | Replied _ => Some None
  | Panicked => None
  end.

(** ** Exactly once *)

(** Codec facts about one request: it decodes to itself, and its reply
    encodes to bytes that decode to it. *)
Definition codec_ok (req : StorageRequest) (reply : StorageReply) (b : bytes) : Prop :=
  decode_request (encode_request req) = Some req ∧
  encode_reply reply = Some b ∧ decode_reply b = Some reply.

(** No garbled reply of the schedule decodes. *)
Definition garbled_ok (sched : list delivery) : Prop :=
  Forall (λ d, match d with ReplyGarbled g => decode_reply g = None | _ => True end) sched.

Lemma rpc_first st auth k o reply s' b :
  authorized st auth = true → codec_ok (mkStorageRequest (Some k) o) reply b →
  idem st !! k = None → apply_op (store st) o = (reply, s') →
  rpc st auth (encode_request (mkStorageRequest (Some k) o)) =
  (OkBytes b, mkAppState s' (token st) (idem_record (idem st) k b)).
Proof.
  intros Ha (Hd & He & _) Hk Hop. unfold rpc. rewrite Ha, Hd. simpl. rewrite Hk, Hop, He. done.
Qed.

Lemma rpc_replay st auth k o b reply :
  authorized st auth = true → codec_ok (mkStorageRequest (Some k) o) reply b →
  idem st !! k = Some b →
  rpc st auth (encode_request (mkStorageRequest (Some k) o)) = (OkBytes b, st).
Proof. intros Ha (Hd & _) Hk. unfold rpc. rewrite Ha, Hd. simpl. by rewrite Hk. Qed.

Lemma idem_record_lookup m k b : idem_record m k b !! k = Some b.
Proof. apply lookup_insert_eq. Qed.

(** Once a key is recorded, further attempts replay it. *)
Lemma attempts_replay n sched h st k o b reply :
  authorized st (bearer h) = true → codec_ok (mkStorageRequest (Some k) o) reply b →
  garbled_ok sched → idem st !! k = Some b →
  let '(r, st') := attempts n sched h (encode_request (mkStorageRequest (Some k) o)) st in
  st' = st ∧ (r = Replied reply ∨ (r = Panicked ∧ Delivered ∉ take n sched)).
Proof.
  intros Ha Hc Hg Hk. revert sched Hg. induction n as [|n IH]; intros sched Hg; cbn [attempts].
  { split; [done|]. right. split; [done|]. rewrite take_0. apply not_elem_of_nil. }
  assert (garbled_ok (tail sched)) as Hg' by (destruct sched; [done|by inversion Hg]).
  specialize (IH (tail sched) Hg').
  destruct (attempts n (tail sched) h _ st) as [r st'] eqn:Er. destruct IH as [-> IH].
  assert (Hstep : ∀ d, d ≠ Delivered → default RequestLost (head sched) = d →
    st = st ∧ (r = Replied reply ∨ r = Panicked ∧ Delivered ∉ take (S n) sched)).
  { intros d Hd Hh. split; [done|]. destruct IH as [?|[? Hn]]; [by left|right]. split; [done|].
    destruct sched as [|d' sched]; [apply not_elem_of_nil|]. simpl in *. subst.
    apply not_elem_of_cons. split; [congruence|done]. }
  rewrite (rpc_replay st (bearer h) k o b reply) by done.
  destruct Hc as (_ & _ & Hdr).
  destruct (default RequestLost (head sched)) as [| |g|] eqn:Ed; rewrite ?Er.
  - by apply (Hstep RequestLost).
  - by apply (Hstep ReplyLost).
  - assert (decode_reply g = None) as ->; [|rewrite ?Er; by apply (Hstep (ReplyGarbled g))].
    destruct sched as [|d sched]; simpl in Ed; simplify_eq. by inversion Hg.
  - rewrite Hdr. split; [done|by left].
Qed.

(** All attempts of a keyed call, from a server that has not seen the key. *)
Lemma attempts_once n sched h st k o b reply s' :
  authorized st (bearer h) = true → codec_ok (mkStorageRequest (Some k) o) reply b →
  garbled_ok sched → idem st !! k = None → apply_op (store st) o = (reply, s') →
  let '(r, st') := attempts n sched h (encode_request (mkStorageRequest (Some k) o)) st in
  (r = Replied reply ∧ store st' = s') ∨
  (r = Panicked ∧ Delivered ∉ take n sched ∧ (store st' = store st ∨ store st' = s')).
Proof.
  intros Ha Hc Hg Hk Hop. revert sched Hg. induction n as [|n IH]; intros sched Hg; cbn [attempts].
  { right. split_and!; [done| |by left]. rewrite take_0. apply not_elem_of_nil. }
  assert (garbled_ok (tail sched)) as Hg' by (destruct sched; [done|by inversion Hg]).
  specialize (IH (tail sched) Hg').
  rewrite (rpc_first st (bearer h) k o reply s' b) by done.
  set (st1 := mkAppState s' (token st) (idem_record (idem st) k b)).
  pose proof (attempts_replay n (tail sched) h st1 k o b reply Ha Hc Hg'
    (idem_record_lookup _ _ _)) as Hre.
  destruct (attempts n (tail sched) h _ st) as [r st'] eqn:Er.
  destruct (attempts n (tail sched) h _ st1) as [r1 st1'] eqn:Er1. destruct Hre as [-> Hre].
  assert (Hstep : ∀ d, d ≠ Delivered → default RequestLost (head sched) = d →
    Delivered ∉ take n (tail sched) → Delivered ∉ take (S n) sched).
  { intros d Hd Hh Hn. destruct sched as [|d' sched]; [apply not_elem_of_nil|]. simpl in *.
    subst. apply not_elem_of_cons. split; [congruence|done]. }
  destruct Hc as (_ & _ & Hdr).
  assert (Hlate : ∀ d, d ≠ Delivered → default RequestLost (head sched) = d →
    (r1 = Replied reply ∧ store st1 = s') ∨
    (r1 = Panicked ∧ Delivered ∉ take (S n) sched ∧ (store st1 = store st ∨ store st1 = s'))).
  { intros d Hd Hh. destruct Hre as [->|[-> Hn]]; [by left|right].
    split_and!; [done|by eapply Hstep|by right]. }
  destruct (default RequestLost (head sched)) as [| |g|] eqn:Ed; rewrite ?Er, ?Er1.
  - destruct IH as [?|(? & ? & ?)]; [by left|right]. split_and!; [done| |done].
    by apply (Hstep RequestLost).
  - by apply (Hlate ReplyLost).
  - assert (decode_reply g = None) as ->; [|rewrite ?Er1; by apply (Hlate (ReplyGarbled g))].
    destruct sched as [|d sched]; simpl in Ed; simplify_eq. by inversion Hg.
  - rewrite Hdr. by left.
Qed.

(** The client's retries, on a server that runs each attempt's handler to
    completion before the next attempt arrives and serves nobody else meanwhile:
    whatever requests and replies the network loses or garbles, a returned reply
    is the one of a single application and the server's store is the singly-updated one; the
    call returns if any of the five attempts gets through; and a call that panics applied the
    operation at most once. [keyed_request_applied_once] is the server's side with
    concurrent handlers. *)
Theorem http_call_exactly_once env sched h st o reply b s' :
  let k := (idem_key env.1.1 env.1.2 env.2 h).1 in
  op_idempotent o = false →
  authorized st (bearer h) = true → codec_ok (mkStorageRequest (Some k) o) reply b →
  garbled_ok sched → idem st !! k = None → apply_op (store st) o = (reply, s') →
  let '(r, _, st') := call env sched h o (op_idempotent o) st in
  (Delivered ∈ take MAX_ATTEMPTS sched → r = Replied reply) ∧
  (∀ x, r = Replied x → x = reply ∧ store st' = s') ∧
  (r = Panicked → store st' = store st ∨ store st' = s').
Proof.
  intros k Hid Ha Hc Hg Hk Hop. destruct env as [[uid pid] nanos]. unfold call. rewrite Hid.
  subst k. cbn [fst snd] in *.
  assert (bearer (idem_key uid pid nanos h).2 = bearer h) as Hb by done.
  destruct (idem_key uid pid nanos h) as [k h']. cbn [prod_map id fst snd] in *.
  rewrite <- Hb in Ha.
  pose proof (attempts_once MAX_ATTEMPTS sched h' st k o b reply s' Ha Hc Hg Hk Hop) as H1.
  destruct (attempts MAX_ATTEMPTS sched h' _ st) as [r st'].
  destruct H1 as [[-> ->]|(-> & Hn & Hs)].
  - split_and!; [done| |done]. intros x Hx. by simplify_eq.
  - split_and!; [done|done|done].
Qed.
End server.

Section idempotent.
Context {St : Type} `{StorageLaws St}.
Context (encode_request : StorageRequest → bytes) (decode_request : bytes → option StorageRequest).
Context (encode_reply : StorageReply → option bytes) (decode_reply : bytes → option StorageReply).

(** Re-applying a keyless operation, before or after it took effect, answers
    the same and leaves the same abstract store. *)
Lemma apply_op_again s s1 s2 o r :
  st_inv s → op_ok o → op_idempotent o = true → apply_op s o = (r, s1) →
  st_inv s2 → st_view s2 ≡ st_view s ∨ st_view s2 ≡ st_view s1 →
  ∃ s3, apply_op s2 o = (r, s3) ∧ st_inv s3 ∧ st_view s3 ≡ st_view s1.
Proof.
  intros Hi [Hwf (sc & Hsc & Hsco)] Hid Heq Hi2 Hv2.
  destruct o; simpl in *; simplify_eq.
  - destruct (kv_get s sc key) as [x s'] eqn:E. simplify_eq.
    eapply law_kv_get in E as (-> & ? & Hv & _); [|done..].
    destruct (kv_get s2 sc key) as [x2 s3] eqn:E2.
    eapply law_kv_get in E2 as (-> & ? & Hv3 & _); [|done..].
    assert (st_view s2 ≡ st_view s) as Hvs by (destruct Hv2 as [|Hw]; [done|by rewrite Hw]).
    exists s3. split_and!; [by rewrite Hvs|done|]. by rewrite Hv3, Hvs, Hv.
  - destruct (law_kv_put s sc key value Hi Hsco) as (_ & Hv & _).
    destruct (law_kv_put s2 sc key value Hi2 Hsco) as (? & Hv3 & _).
    eexists. split_and!; [done|done|]. rewrite Hv3, Hv.
    destruct Hv2 as [Hw|Hw]; [by apply abs_kv_set_proper|].
    rewrite (abs_kv_set_proper _ _ sc key (Some value) (transitivity Hw Hv)).
    split_and!; simpl; [|done..]. intros. by repeat case_decide.
  - destruct (law_kv_del s sc key Hi Hsco) as (_ & Hv & _).
    destruct (law_kv_del s2 sc key Hi2 Hsco) as (? & Hv3 & _).
    eexists. split_and!; [done|done|]. rewrite Hv3, Hv.
    destruct Hv2 as [Hw|Hw]; [by apply abs_kv_set_proper|].
    rewrite (abs_kv_set_proper _ _ sc key None (transitivity Hw Hv)).
    split_and!; simpl; [|done..]. intros. by repeat case_decide.
  - exists s2. assert (st_view s2 ≡ st_view s1) as Hvs by (by destruct Hv2).
    split_and!; [|done|done]. rewrite Z.min_l by lia. rewrite !law_scan by (done || lia).
    by rewrite Hvs.
  - destruct (law_clear s sc Hi Hsco) as (_ & Hv & _).
    destruct (law_clear s2 sc Hi2 Hsco) as (? & Hv3 & _).
    eexists. split_and!; [done|done|]. rewrite Hv3, Hv.
    destruct Hv2 as [(Hk&Hl&Hq)|Hw]; [split_and!; simpl; intros; case_decide; naive_solver|].
    destruct (transitivity Hw Hv) as (Hk & Hl & Hq).
    split_and!; simpl; intros; case_decide; try done;
      rewrite ?Hk, ?Hl, ?Hq; simpl; by rewrite decide_False.
Qed.

(** A call of an operation the client sends without a key
    ([kv_get], [kv_put], [kv_del], [scan], [clear]) may reach the server several times;
    on every lawful backend the reply and the resulting store are those of one application. *)
Theorem http_call_idempotent env sched h st o reply b s' :
  op_idempotent o = true → op_ok o → st_inv (store st) →
  authorized st (bearer h) = true →
  codec_ok encode_request decode_request encode_reply decode_reply
    (mkStorageRequest None o) reply b →
  garbled_ok decode_reply sched → apply_op (store st) o = (reply, s') →
  let '(r, _, st') := call encode_request decode_request encode_reply decode_reply
                        env sched h o true st in
  (Delivered ∈ take MAX_ATTEMPTS sched → r = Replied reply) ∧
  (∀ x, r = Replied x → x = reply ∧ st_view (store st') ≡ st_view s') ∧
  (r = Panicked → st_view (store st') ≡ st_view (store st) ∨ st_view (store st') ≡ st_view s').
Proof.
  intros Hid Hok Hi Ha (Hd & He & Hdr) Hg Hop. destruct env as [[uid pid] nanos]. unfold call.
  assert (Hgen : ∀ n sched st2, token st2 = token st → garbled_ok decode_reply sched →
    st_inv (store st2) →
    st_view (store st2) ≡ st_view (store st) ∨ st_view (store st2) ≡ st_view s' →
    let '(r, st') := attempts decode_request encode_reply decode_reply n sched h
                       (encode_request (mkStorageRequest None o)) st2 in
    (Delivered ∈ take n sched → r = Replied reply) ∧
    (∀ x, r = Replied x → x = reply ∧ st_view (store st') ≡ st_view s') ∧
    (r = Panicked → st_view (store st') ≡ st_view (store st) ∨ st_view (store st') ≡ st_view s')).
  { clear sched Hg. induction n as [|n IH]; intros sched st2 Ht Hg Hi2 Hv2; cbn [attempts].
    { rewrite take_0. split_and!; [by intros ?%elem_of_nil|done|done]. }
    assert (garbled_ok decode_reply (tail sched)) as Hg' by (destruct sched; [done|by inversion Hg]).
    destruct (apply_op_again (store st) s' (store st2) o reply) as (s3 & E3 & Hi3 & Hv3); [done..|].
    assert (rpc decode_request encode_reply st2 (bearer h) (encode_request (mkStorageRequest None o)) =
      (OkBytes b, mkAppState s3 (token st2) (idem st2))) as Hrpc.
    { unfold rpc. unfold authorized in *. rewrite Ht, Ha, Hd. simpl. by rewrite E3, He. }
    rewrite Hrpc. rewrite Hdr.
    pose proof (IH (tail sched) st2 Ht Hg' Hi2 Hv2) as IH1.
    pose proof (IH (tail sched) (mkAppState s3 (token st2) (idem st2)) Ht Hg' Hi3 (or_intror Hv3)) as IH2.
    destruct (attempts _ _ _ n (tail sched) h _ st2) as [r1 t1].
    destruct (attempts _ _ _ n (tail sched) h _ (mkAppState _ _ _)) as [r2 t2].
    destruct sched as [|d sched]; [simpl; split_and!; try tauto; by intros ?%elem_of_nil|].
    cbn [head tail default take] in *.
    assert (Hskip : ∀ (P : Prop), (Delivered ∈ take n sched → P) → d ≠ Delivered →
      Delivered ∈ d :: take n sched → P).
    { intros P HP Hne [Hd'|Hin]%elem_of_cons; [congruence|auto]. }
    destruct d as [| |g|]; simpl.
    - destruct IH1 as (?&?&?). split_and!; [by apply Hskip|done|done].
    - destruct IH2 as (?&?&?). split_and!; [by apply Hskip|done|done].
    - inversion Hg as [|? ? Hgn]; simplify_eq. rewrite Hgn.
      destruct IH2 as (?&?&?). split_and!; [by apply Hskip|done|done].
    - split_and!; [done| |done]. intros x Hx. by simplify_eq. }
  specialize (Hgen MAX_ATTEMPTS sched st eq_refl Hg Hi (or_introl (reflexivity _))).
  by destruct (attempts _ _ _ MAX_ATTEMPTS sched h _ st) as [r t].
Qed.
End idempotent.

(** * Witness data *)

(** A codec that carries one request and one reply. *)
Section one_message.
Context (req : StorageRequest) (reply : StorageReply).
Definition one_encode_request (_ : StorageRequest) : bytes := [x01].
Definition one_decode_request (_ : bytes) : option StorageRequest := Some req.
Definition one_encode_reply (_ : StorageReply) : option bytes := Some [x02].
Definition one_decode_reply (b : bytes) : option StorageReply :=
  if decide (b = [x02]) then Some reply else None.
End one_message.

Definition ex_client : HttpStorage := mkHttpStorage (Some "secret") 0.
Definition ex_env : string * Z * Z := ("1000", 42, 7).
Definition ex_append : StorageOp := Append [x01] [x02] [x03] [x0a].
Definition ex_server : AppState Inner := mkAppState MemoryStorage_new (Some "secret") ∅.
Definition ex_req : StorageRequest :=
  mkStorageRequest (Some (idem_key "1000" 42 7 ex_client).1) ex_append.
Definition ex_sched : list delivery := [ReplyLost; RequestLost; ReplyGarbled [x09]; Delivered].

Lemma http_call_exactly_once_witness :
  let '(r, _, st') := call one_encode_request (one_decode_request ex_req) one_encode_reply
      (one_decode_reply (Id 0)) ex_env ex_sched ex_client ex_append false ex_server in
  r = Replied (Id 0) ∧ store st' = (apply_op MemoryStorage_new ex_append).2.
Proof.
  pose proof (http_call_exactly_once one_encode_request (one_decode_request ex_req)
    one_encode_reply (one_decode_reply (Id 0)) ex_env ex_sched ex_client ex_server ex_append
    (Id 0) [x02] (apply_op MemoryStorage_new ex_append).2) as H.
  cbv zeta in H. specialize (H eq_refl eq_refl (conj eq_refl (conj eq_refl eq_refl))).
  assert (garbled_ok (one_decode_reply (Id 0)) ex_sched) as Hg by (repeat constructor).
  specialize (H Hg eq_refl eq_refl).
  change (op_idempotent ex_append) with false in H.
  destruct (call _ _ _ _ _ _ _ _ _ _) as [[r h] st'].
  destruct H as (H1 & H2 & _). assert (r = Replied (Id 0)) as ->.
  { apply H1. unfold ex_sched. set_solver. }
  split; [done|]. by apply (H2 (Id 0)).
Defined.

Lemma http_call_idempotent_witness :
  let o := KvPut [x01] [] [x0a] in
  let '(r, _, st') := call one_encode_request (one_decode_request (mkStorageRequest None o))
      one_encode_reply (one_decode_reply Unit) ex_env ex_sched ex_client o true ex_server in
  r = Replied Unit ∧ st_view (store st') ≡ st_view (kv_put MemoryStorage_new [x01] [] [x0a]).
Proof.
  intros o.
  pose proof (http_call_idempotent one_encode_request (one_decode_request (mkStorageRequest None o))
    one_encode_reply (one_decode_reply Unit) ex_env ex_sched ex_client ex_server o
    Unit [x02] (kv_put MemoryStorage_new [x01] [] [x0a]) eq_refl) as H.
  assert (op_ok o) as Hok by (split; [done|]; eexists; done).
  assert (garbled_ok (one_decode_reply Unit) ex_sched) as Hg by (repeat constructor).
  specialize (H Hok mem_inv_new eq_refl (conj eq_refl (conj eq_refl eq_refl)) Hg eq_refl).
  destruct (call _ _ _ _ _ _ _ _ _ _) as [[r h] st'].
  destruct H as (H1 & H2 & _). assert (r = Replied Unit) as ->.
  { apply H1. unfold ex_sched. set_solver. }
  split; [done|]. by apply (H2 Unit).
Defined.

(** * Overlapping requests *)

(** The handler between its lock acquisitions: the replay check, the
    operation, and the recording of the reply are three critical sections. *)
Inductive hphase :=
| HReceived
| HMissed
| HApplied (b : bytes)
| HDone (b : bytes)
| HFailed.

Section interleaving.
Context {St : Type} `{FunctionStorage St}.
Context (encode_reply : StorageReply → option bytes).

Definition hstep (st : AppState St) (req : StorageRequest) (p : hphase) : AppState St * hphase :=
  match p with
  | HReceived =>
      match (k ← idempotency_key req; idem st !! k) with
      | Some cached => (st, HDone cached)
      | None => (st, HMissed)
      end
  | HMissed =>
      let '(reply, s) := apply_op (store st) (op req) in
      let st := mkAppState s (token st) (idem st) in
      match encode_reply reply with
      | None => (st, HFailed)
      | Some b => (st, HApplied b)
      end
  | HApplied b =>
      match idempotency_key req with
      | Some k => (mkAppState (store st) (token st) (idem_record (idem st) k b), HDone b)
      | None => (st, HDone b)
      end
  | HDone _ | HFailed => (st, p)
  end.

(** Run the handlers [reqs] under a schedule of handler indices. *)
Fixpoint hrun (sched : list nat) (st : AppState St) (ps : list (StorageRequest * hphase))
  : AppState St * list (StorageRequest * hphase) :=
  match sched with
  | [] => (st, ps)
  | i :: sched =>
      match ps !! i with
      | None => hrun sched st ps
      | Some (req, p) =>
          let '(st, p) := hstep st req p in
          hrun sched st (<[i := (req, p)]> ps)
      end
  end.

(** A handler run alone is [rpc] past its authorization and decoding. *)
Lemma hrun_alone_is_rpc decode_request st auth body req :
  authorized st auth = true → decode_request body = Some req →
  match rpc decode_request encode_reply st auth body, hrun [0; 0; 0]%nat st [(req, HReceived)] with
  | (OkBytes b, st1), (st2, [(_, HDone b')]) => b = b' ∧ st1 = st2
  | (InternalError, st1), (st2, [(_, HFailed)]) => st1 = st2
  | _, _ => False
  end.
Proof.
  intros Ha Hd. unfold rpc. rewrite Ha, Hd. cbn [negb hrun lookup list_lookup hstep].
  destruct req as [[k|] o]; simpl.
  - destruct (idem st !! k) as [c|]; simpl; [done|].
    destruct (apply_op (store st) o) as [reply s]. destruct (encode_reply reply) as [b|]; done.
  - destruct (apply_op (store st) o) as [reply s]. destruct (encode_reply reply) as [b|]; done.
Qed.

(** The operations a schedule applies, with their replies, in order. *)
Fixpoint hlog (sched : list nat) (st : AppState St) (ps : list (StorageRequest * hphase))
  : list (StorageRequest * StorageReply) :=
  match sched with
  | [] => []
  | i :: sched =>
      match ps !! i with
      | None => hlog sched st ps
      | Some (req, p) =>
          let '(st', p') := hstep st req p in
          match p with HMissed => [(req, (apply_op (store st) (op req)).1)] | _ => [] end ++
          hlog sched st' (<[i := (req, p')]> ps)
      end
  end.

Definition running (p : hphase) : bool := match p with HMissed | HApplied _ => true | _ => false end.
Definition finished (p : hphase) : bool := match p with HDone _ | HFailed => true | _ => false end.
Definition keyed (k : string) (req : StorageRequest) : Prop := idempotency_key req = Some k.
#[global] Instance keyed_dec k req : Decision (keyed k req) := decide (idempotency_key req = Some k).

(** No handler of a request keyed [k] is between its replay check and the
    recording of its reply. *)
Definition key_idle (k : string) (ps : list (StorageRequest * hphase)) : bool :=
  forallb (λ x, negb (bool_decide (keyed k x.1) && running x.2)) ps.

(** Along the schedule, a handler of a request keyed [k] begins only when the
    key is idle. *)
Fixpoint no_overlap (k : string) (sched : list nat) (st : AppState St)
    (ps : list (StorageRequest * hphase)) : bool :=
  match sched with
  | [] => true
  | i :: sched =>
      match ps !! i with
      | None => no_overlap k sched st ps
      | Some (req, p) =>
          match p with HReceived => negb (bool_decide (keyed k req)) || key_idle k ps | _ => true end &&
          let '(st', p') := hstep st req p in no_overlap k sched st' (<[i := (req, p')]> ps)
      end
  end.

Lemma key_idle_spec k ps x : key_idle k ps = true → x ∈ ps → keyed k x.1 → running x.2 = false.
Proof.
  intros Hi Hx Hk. unfold key_idle in Hi. rewrite forallb_forall in Hi. apply list_elem_of_In in Hx.
  specialize (Hi x Hx). rewrite bool_decide_true in Hi by done. by apply negb_true_iff in Hi.
Qed.

(** The store is the one the logged operations give, one after the other. *)
Lemma hlog_serial sched st ps :
  run_ops (store st) ((λ e, op e.1) <$> hlog sched st ps) =
  ((λ e, e.2) <$> hlog sched st ps, store (hrun sched st ps).1).
Proof.
  induction sched as [|i sched IH] in st, ps |- *; [done|]. cbn [hlog hrun].
  destruct (ps !! i) as [[req p]|]; [|apply IH]. destruct p; cbn [hstep].
  - destruct (idempotency_key req ≫= _); cbn; apply IH.
  - destruct (apply_op (store st) (op req)) as [r s] eqn:E.
    specialize (IH (mkAppState s (token st) (idem st))). cbn [store] in IH.
    destruct (encode_reply r); cbn; by rewrite E, IH.
  - destruct (idempotency_key req); cbn; [apply (IH (mkAppState _ _ _))|apply IH].
  - apply IH.
  - apply IH.
Qed.

(** ** At most once per key *)

Definition unfinished (ps : list (StorageRequest * hphase)) : nat :=
  length (filter (λ x, finished x.2 = false) ps).

Lemma unfinished_insert ps i x y : ps !! i = Some x →
  (unfinished (<[i := y]> ps) + (if finished x.2 then 0 else 1) =
   unfinished ps + (if finished y.2 then 0 else 1))%nat.
Proof.
  intros Hi. unfold unfinished. rewrite insert_take_drop by (by eapply lookup_lt_Some).
  pose proof (f_equal (λ l, length (filter (λ x, finished x.2 = false) l)) (take_drop_middle ps i x Hi)) as E.
  cbn beta in E. rewrite <- E, !filter_app, !filter_cons, !length_app.
  destruct (finished x.2), (finished y.2); repeat case_decide; cbn; try done; lia.
Qed.

Lemma idem_record_size m k b : Z.of_nat (size (idem_record m k b)) ≤ Z.of_nat (size m) + 1.
Proof.
  unfold idem_record. rewrite map_size_insert. destruct (IDEM_CAP <=? _).
  - rewrite lookup_empty, map_size_empty. lia.
  - destruct (m !! k); cbn [id]; lia.
Qed.

(** What holds of the handlers of one key: [es] are the applications logged for
    it so far. *)
Record key_inv (k : string) (st : AppState St) (ps : list (StorageRequest * hphase))
    (es : list (StorageRequest * StorageReply)) : Prop := {
  ki_room : Z.of_nat (size (idem st)) + Z.of_nat (unfinished ps) ≤ IDEM_CAP;
  ki_alone : ∀ i j x y, ps !! i = Some x → ps !! j = Some y → keyed k x.1 → keyed k y.1 →
    running x.2 = true → running y.2 = true → i = j;
  ki_state :
    (es = [] ∧ idem st !! k = None ∧
     ∀ j x, ps !! j = Some x → keyed k x.1 → x.2 = HReceived ∨ x.2 = HMissed) ∨
    (∃ req r b, es = [(req, r)] ∧ keyed k req ∧ encode_reply r = Some b ∧
      (idem st !! k = Some b ∨
       idem st !! k = None ∧ ∃ j x, ps !! j = Some x ∧ keyed k x.1 ∧ x.2 = HApplied b) ∧
      ∀ j x, ps !! j = Some x → keyed k x.1 → x.2 = HReceived ∨ x.2 = HApplied b ∨ x.2 = HDone b);
}.

Lemma hstep_room st req p st' p' ps i : (∀ r, is_Some (encode_reply r)) →
  hstep st req p = (st', p') → ps !! i = Some (req, p) →
  Z.of_nat (size (idem st)) + Z.of_nat (unfinished ps) ≤ IDEM_CAP →
  Z.of_nat (size (idem st')) + Z.of_nat (unfinished (<[i := (req, p')]> ps)) ≤ IDEM_CAP.
Proof.
  intros He Hs Hi Hr. pose proof (unfinished_insert ps i _ (req, p') Hi) as Hu. cbn [snd] in Hu.
  destruct p; cbn [hstep] in Hs.
  - destruct (idempotency_key req ≫= _); injection Hs as <- <-; cbn [finished] in Hu; lia.
  - destruct (apply_op _ _) as [r s]. destruct (encode_reply r); injection Hs as <- <-; cbn [finished idem] in *; lia.
  - destruct (idempotency_key req) as [k|]; injection Hs as <- <-; cbn [finished idem] in *; [|lia].
    pose proof (idem_record_size (idem st) k b). lia.
  - injection Hs as <- <-. cbn [finished] in Hu. lia.
  - injection Hs as <- <-. cbn [finished] in Hu. lia.
Qed.

(** A handler of another request leaves the key alone. *)
Lemma key_inv_other k st ps es i req p st' p' : (∀ r, is_Some (encode_reply r)) →
  key_inv k st ps es → ps !! i = Some (req, p) → hstep st req p = (st', p') → ¬ keyed k req →
  key_inv k st' (<[i := (req, p')]> ps) es.
Proof.
  intros He [Hr Ha Hst] Hi Hs Hk.
  assert (idem st' !! k = idem st !! k) as Eidem.
  { destruct p; cbn [hstep] in Hs.
    - by destruct (idempotency_key req ≫= _); injection Hs as <- <-.
    - destruct (apply_op _ _) as [r s]. by destruct (encode_reply r); injection Hs as <- <-.
    - destruct (idempotency_key req) as [k'|] eqn:Ek; injection Hs as <- <-; [|done]. cbn [idem].
      pose proof (unfinished_insert ps i _ (req, HDone b) Hi). cbn in *.
      unfold idem_record. rewrite (proj2 (Z.leb_gt _ _)) by lia. apply lookup_insert_ne. intros ->. by apply Hk.
    - by injection Hs as <- <-.
    - by injection Hs as <- <-. }
  assert (∀ j x, <[i := (req, p')]> ps !! j = Some x → keyed k x.1 → ps !! j = Some x) as Hold.
  { intros j x [(-> & <- & _)|[_ ?]]%list_lookup_insert_Some ?; done. }
  assert (∀ j x, ps !! j = Some x → keyed k x.1 → <[i := (req, p')]> ps !! j = Some x) as Hnew.
  { intros j x Hj Hx. rewrite list_lookup_insert_ne; [done|]. intros ->. rewrite Hi in Hj. injection Hj as <-. done. }
  split; [by eapply hstep_room|by eauto|]. rewrite Eidem.
  destruct Hst as [(? & ? & ?)|(q & r & b & ? & ? & ? & Hb & ?)]; [left|right].
  - split_and!; eauto.
  - exists q, r, b. split_and!; [done..| |by eauto]. destruct Hb as [?|(? & j & x & ? & ? & ?)]; [by left|right]. eauto 10.
Qed.

(** A step of a handler of the key. *)
Lemma key_inv_own k st ps es i req p st' p' : (∀ r, is_Some (encode_reply r)) →
  key_inv k st ps es → ps !! i = Some (req, p) → hstep st req p = (st', p') → keyed k req →
  (p = HReceived → key_idle k ps = true) →
  key_inv k st' (<[i := (req, p')]> ps)
    (es ++ match p with HMissed => [(req, (apply_op (store st) (op req)).1)] | _ => [] end).
Proof.
  intros He [Hr Ha Hst] Hi Hs Hk Hno. pose proof (hstep_room _ _ _ _ _ _ _ He Hs Hi Hr) as Hroom.
  assert (∀ j x, ps !! j = Some x → keyed k x.1 → running x.2 = true → running p = true → j = i) as Halone.
  { intros j x Hj Hx Hrun Hp. by eapply (Ha j i x (req, p)). }
  assert (∀ j x, <[i := (req, p')]> ps !! j = Some x → (j = i ∧ x = (req, p')) ∨ (j ≠ i ∧ ps !! j = Some x)) as Hlook.
  { intros j x [(-> & <- & _)|[? ?]]%list_lookup_insert_Some; auto. }
  assert (<[i := (req, p')]> ps !! i = Some (req, p')) as Hnew by (apply list_lookup_insert_eq; by eapply lookup_lt_Some).
  destruct p; cbn [hstep] in Hs; rewrite ?app_nil_r.
  - unfold keyed in Hk. rewrite Hk in Hs. cbn in Hs. destruct (idem st !! k) as [c|] eqn:Ec; injection Hs as <- <-.
    + split; [done| |].
      * intros i1 i2 x y [[-> ->]|[? Hx]]%Hlook [[-> ->]|[? Hy]]%Hlook ? ? ? ?; try done. by eapply Ha.
      * rewrite Ec. destruct Hst as [(_ & ? & _)|(q & r & b & ? & ? & ? & [Hb|[? _]] & Hall)]; [done| |done].
        right. exists q, r, b. split_and!; [done..|by left|]. intros j x [[-> ->]|[_ Hx]]%Hlook ?; [|by eapply Hall].
        right; right. cbn. congruence.
    + assert (∀ j x, ps !! j = Some x → keyed k x.1 → running x.2 = false) as Hidle.
      { intros j x Hj. apply (key_idle_spec k ps); [by apply Hno|]. by eapply list_elem_of_lookup_2. }
      split; [done| |].
      * intros i1 i2 x y [[-> ->]|[? Hx]]%Hlook [[-> ->]|[? Hy]]%Hlook ? ? Rx Ry; try done;
          [rewrite (Hidle _ _ Hy) in Ry by done|rewrite (Hidle _ _ Hx) in Rx by done|rewrite (Hidle _ _ Hx) in Rx by done]; done.
      * rewrite Ec. destruct Hst as [(-> & _ & Hall)|(q & r & b & ? & ? & ? & [Hb|(_ & j & x & Hj & Hx & E)] & Hall)]; [|congruence|].
        -- left. split_and!; [done..|]. intros j x [[-> ->]|[_ Hx]]%Hlook ?; [by right|by eapply Hall].
        -- specialize (Hidle j x Hj Hx). by rewrite E in Hidle.
  - destruct (apply_op (store st) (op req)) as [r s] eqn:Eop. destruct (He r) as [b Eb]. rewrite Eb in Hs.
    injection Hs as <- <-. split; [done| |].
    * intros i1 i2 x y [[-> ->]|[? Hx]]%Hlook [[-> ->]|[? Hy]]%Hlook ? ? Rx Ry; try done;
        [symmetry; by eapply Halone|by eapply Halone|by eapply Ha].
    * destruct Hst as [(-> & Hn & Hall)|(q & r' & b' & _ & _ & _ & _ & Hall)].
      2: { destruct (Hall i _ Hi Hk) as [?|[?|?]]; done. }
      right. exists req, r, b. split_and!; [done..| |].
      -- right. split; [done|]. exists i, (req, HApplied b). done.
      -- intros j x [[-> ->]|[Hne Hx]]%Hlook Kx; [auto|]. destruct (Hall j x Hx Kx) as [?|E]; [by left|].
         exfalso. apply Hne. eapply Halone; [done|done|by rewrite E|done].
  - unfold keyed in Hk. rewrite Hk in Hs. injection Hs as <- <-.
    destruct Hst as [(_ & _ & Hall)|(q & r & b' & ? & ? & ? & _ & Hall)].
    { destruct (Hall i _ Hi Hk) as [?|?]; done. }
    assert (b' = b) as -> by (destruct (Hall i _ Hi Hk) as [?|[E|?]]; cbn in *; congruence).
    split; [done| |].
    * intros i1 i2 x y [[-> ->]|[? Hx]]%Hlook [[-> ->]|[? Hy]]%Hlook ? ? Rx Ry; try done. by eapply Ha.
    * right. exists q, r, b. split_and!; [done..| |].
      -- left. apply idem_record_lookup.
      -- intros j x [[-> ->]|[Hne Hx]]%Hlook Kx; [auto|by eapply Hall].
  - injection Hs as <- <-. rewrite list_insert_id by done. by split.
  - injection Hs as <- <-. rewrite list_insert_id by done. by split.
Qed.

Lemma key_inv_run k sched st ps es : (∀ r, is_Some (encode_reply r)) →
  key_inv k st ps es → no_overlap k sched st ps = true →
  key_inv k (hrun sched st ps).1 (hrun sched st ps).2
    (es ++ filter (λ e, keyed k e.1) (hlog sched st ps)).
Proof.
  intros He. induction sched as [|i sched IH] in st, ps, es |- *; cbn [hrun hlog no_overlap]; intros Hi Hno.
  { by rewrite app_nil_r. }
  destruct (ps !! i) as [[req p]|] eqn:Ei; [|by apply IH]. apply andb_true_iff in Hno as [Hstart Hno].
  destruct (hstep st req p) as [st' p'] eqn:Es. rewrite filter_app, (assoc_L (++)). apply IH; [|done].
  destruct (decide (keyed k req)) as [Hk|Hk].
  - assert (p = HReceived → key_idle k ps = true) as Hidle.
    { intros ->. by rewrite bool_decide_true in Hstart. }
    pose proof (key_inv_own _ _ _ _ _ _ _ _ _ He Hi Ei Es Hk Hidle) as Hn.
    destruct p; try exact Hn. by rewrite filter_cons_True.
  - pose proof (key_inv_other _ _ _ _ _ _ _ _ _ He Hi Ei Es Hk) as Hn.
    destruct p; rewrite ?filter_nil, ?app_nil_r; try done. by rewrite filter_cons_False, app_nil_r.
Qed.

(** A handler that is given three turns has answered. *)
Definition hrank (p : hphase) : nat :=
  match p with HReceived => 3 | HMissed => 2 | HApplied _ => 1 | _ => 0 end.

Lemma hrun_finishes sched st ps i req p : ps !! i = Some (req, p) →
  ∃ p', (hrun sched st ps).2 !! i = Some (req, p') ∧
    (hrank p' ≤ hrank p - length (filter (λ j, j = i) sched))%nat.
Proof.
  induction sched as [|j sched IH] in st, ps, p |- *; cbn [hrun]; intros Hi.
  { exists p. split; [done|]. cbn. lia. }
  destruct (decide (j = i)) as [->|Hne].
  - rewrite Hi. destruct (hstep st req p) as [st' p1] eqn:Es.
    destruct (IH st' (<[i := (req, p1)]> ps) p1) as (p' & Hp' & Hle).
    { apply list_lookup_insert_eq. by eapply lookup_lt_Some. }
    exists p'. split; [done|]. rewrite filter_cons_True by done. cbn [length].
    enough (hrank p1 ≤ hrank p - 1)%nat by lia.
    destruct p; cbn [hstep] in Es; repeat case_match; simplify_eq/=; lia.
  - rewrite filter_cons_False by done. destruct (ps !! j) as [[q r]|]; [|by apply IH].
    destruct (hstep st q r) as [st' p1]. apply IH. by rewrite list_lookup_insert_ne.
Qed.

(** C2: On the server, with any number of handlers of
    any clients interleaved at their lock boundaries, when the attempts of one
    keyed call do not overlap (a retry's handler begins only when no other handler
    of the key is between its replay check and its recording) and the replay cache
    has room for every request: the store is the one of the applied operations in
    some serial order, the keyed operation is among them at most once, every
    attempt that answers does so with the encoded reply of that one application,
    and an attempt given three turns has answered. Overlapping attempts can apply
    twice, as [idem_overlap_double_applies] shows. *)
Theorem keyed_request_applied_once k sched st ps : (∀ r, is_Some (encode_reply r)) →
  idem st !! k = None → Forall (λ x, x.2 = HReceived) ps →
  Z.of_nat (size (idem st)) + Z.of_nat (length ps) ≤ IDEM_CAP →
  no_overlap k sched st ps = true →
  let es := hlog sched st ps in
  let '(st', ps') := hrun sched st ps in
  run_ops (store st) ((λ e, op e.1) <$> es) = ((λ e, e.2) <$> es, store st') ∧
  (length (filter (λ e, keyed k e.1) es) ≤ 1)%nat ∧
  (∀ i req, ps !! i = Some (req, HReceived) → keyed k req →
    (3 ≤ length (filter (λ j, j = i) sched))%nat → ∃ b, ps' !! i = Some (req, HDone b)) ∧
  (∀ i req b, ps' !! i = Some (req, HDone b) → keyed k req →
    ∃ req' r, filter (λ e, keyed k e.1) es = [(req', r)] ∧ encode_reply r = Some b).
Proof.
  intros He Hk Hps Hroom Hno es. rewrite Forall_lookup in Hps.
  assert (key_inv k st ps []) as H0.
  { split.
    - enough (unfinished ps ≤ length ps)%nat by lia. apply length_filter.
    - intros i j x y Hx _ _ _ Rx. by rewrite (Hps _ _ Hx) in Rx.
    - left. split_and!; [done..|]. intros j x Hx _. left. by eapply Hps. }
  pose proof (key_inv_run k sched st ps [] He H0 Hno) as [_ _ Hst].
  pose proof (hlog_serial sched st ps) as Hser. pose proof (hrun_finishes sched st ps) as Hfin.
  subst es. destruct (hrun sched st ps) as [st' ps']. cbn [fst snd app] in *. split; [done|].
  assert (∀ i req b, ps' !! i = Some (req, HDone b) → keyed k req →
    ∃ req' r, filter (λ e, keyed k e.1) (hlog sched st ps) = [(req', r)] ∧ encode_reply r = Some b) as Hdone.
  { intros i req b Hi Kr. destruct Hst as [(_ & _ & Hall)|(q & r & b' & Ee & _ & Eb & _ & Hall)].
    - by destruct (Hall i _ Hi Kr).
    - exists q, r. split; [done|]. destruct (Hall i _ Hi Kr) as [?|[?|E]]; cbn in *; congruence. }
  split; [|split; [|done]].
  - destruct Hst as [(-> & _)|(q & r & b & -> & _)]; cbn; lia.
  - intros i req Hi Kr Hc. destruct (Hfin i req _ Hi) as (p' & Hp' & Hle). cbn [hrank] in Hle.
    assert (hrank p' = 0%nat) as Hz by lia. exists (match p' with HDone b => b | _ => [] end).
    destruct Hst as [(_ & _ & Hall)|(q & r & b' & _ & _ & _ & _ & Hall)].
    + destruct (Hall i _ Hp' Kr) as [E|E]; cbn in E; by subst.
    + destruct (Hall i _ Hp' Kr) as [E|[E|E]]; cbn in E; by subst.
Qed.
End interleaving.

(** The replay check and the recording of the reply are
    separate critical sections: when a client's retry of an [append] overlaps the handler
    still serving the first attempt, both miss the replay cache and the row is appended
    twice, although the request carries an idempotency key. *)
Theorem idem_overlap_double_applies :
  let '(st, ps) := hrun one_encode_reply [0; 1; 0; 1; 0; 1]%nat ex_server
                     [(ex_req, HReceived); (ex_req, HReceived)] in
  v_log (st_view (store st)) [x01] [x02] [x03] = [(0, [x0a]); (1, [x0a])] ∧
  Forall (λ p, ∃ b, p.2 = HDone b) ps.
Proof. split; [reflexivity|]. repeat constructor; eexists; reflexivity. Qed.

(** Two attempts of one append, the second after the first has recorded its
    reply, interleaved with another client's write. *)
Definition ex_put : StorageRequest := mkStorageRequest None (KvPut [x01] [] [x0b]).
Definition ex_handlers : list (StorageRequest * hphase) :=
  [(ex_req, HReceived); (ex_req, HReceived); (ex_put, HReceived)].
Definition ex_turns : list nat := [0; 2; 0; 2; 0; 1; 2; 1; 1]%nat.

Lemma keyed_request_applied_once_witness :
  let '(st, ps) := hrun one_encode_reply ex_turns ex_server ex_handlers in
  (length (filter (λ e, keyed (idem_key "1000" 42 7 ex_client).1 e.1)
     (hlog one_encode_reply ex_turns ex_server ex_handlers)) ≤ 1)%nat ∧
  ∃ b, ps !! 1%nat = Some (ex_req, HDone b).
Proof.
  pose proof (keyed_request_applied_once one_encode_reply (idem_key "1000" 42 7 ex_client).1
    ex_turns ex_server ex_handlers) as H. cbv zeta in H.
  destruct (hrun one_encode_reply ex_turns ex_server ex_handlers) as [st ps].
  destruct H as (_ & Hl & Ht & _); [by eexists|reflexivity|repeat constructor|vm_compute; discriminate|vm_compute; reflexivity|].
  split; [exact Hl|]. apply (Ht 1%nat ex_req); [reflexivity|reflexivity|vm_compute; lia].
Defined.
