(* ===== verification/StorageBackends.v ===== *)
(** The local backends of [vgi/src/storage/] side by side: each, started empty,
    is a run of the abstract store. *)
From S2P Require Import Prelude StorageSpec StorageMemory StorageSqlite StorageFs StorageHttp.

Open Scope Z_scope.

(** Every operation names a non-empty scope and is one the wire types admit. *)
Definition named_op (o : StorageOp) : Prop := op_wf o ∧ ∃ sc, op_scope o = Some sc ∧ sc ≠ [].

Definition SqliteStorage_new (t : Z) : Db := mkDb ∅ [] 0 [] 0 ∅ t.

Definition ids_drawn (os : list StorageOp) : Z := foldr (λ o n, op_ids o + n) 0 os.

Lemma run_from_empty {St} `{StorageLaws St} (s : St) os :
  st_inv s → st_view s ≡ empty_view → st_room s (ids_drawn os) →
  (∀ sc, sc ≠ [] → st_scope sc) → Forall named_op os →
  abs_run empty_view os (run_ops s os).1 (st_view (run_ops s os).2).
Proof.
  intros Hi Hv Hr Hs Hos. destruct (run_ops s os) as [rs s'] eqn:E.
  destruct (run_ops_refine s os rs s') as [Hrun _]; [done| |done|done|by apply (abs_run_start (st_view s))].
  eapply Forall_impl; [exact Hos|]. intros o (Hw & sc & Hsc & Hne). split; [done|]. eauto.
Qed.

(** * The file system's limit on names *)

(** The state with names limited to [m] bytes. *)
Definition limited (m : Z) (s : Fs) : Fs := mkFs (nodes s) (mtimes s) (clock s) (Some m) (pid s) (StorageFs.seq s).

(** No limit, and a process id and a counter of their machine widths. *)
Definition unlimited (s : Fs) : Prop := name_max s = None ∧ 0 ≤ pid s < 2 ^ 32 ∧ 0 ≤ StorageFs.seq s < 2 ^ 64.

Definition short (m : Z) (n : bytes) : Prop := Z.of_nat (length n) ≤ m.

(** The names an operation creates fit [m] bytes: the hex form of the scope, the
    key with its prefix and temporary suffix, the namespace and key of a log. *)
Definition names_fit (m : Z) (o : StorageOp) : Prop :=
  match o with
  | KvGet sc k | KvPut sc k _ | KvDel sc k =>
      2 * Z.of_nat (length sc) ≤ m ∧ 2 * Z.of_nat (length k) + 7 ≤ m
  | Append sc ns k _ | Scan sc ns k _ _ =>
      2 * Z.of_nat (length sc) ≤ m ∧ 2 * Z.of_nat (length ns) + 2 * Z.of_nat (length k) + 2 ≤ m
  | QueuePush sc _ | QueuePop sc | Clear sc => 2 * Z.of_nat (length sc) ≤ m
  | Gc _ => True
  end.

(** ** The lengths of names *)

Lemma dec_digits_length fuel n acc d : 0 ≤ n < 10 ^ Z.of_nat d → (1 ≤ d)%nat →
  (String.length (dec_digits fuel n acc) ≤ d + String.length acc)%nat.
Proof.
  induction fuel as [|fuel IH] in n, acc, d |- *; intros Hn Hd; cbn [dec_digits]; [lia|].
  destruct (Z.eqb_spec (n / 10) 0) as [|Hne]; [cbn; lia|].
  assert (10 <= n) as H10. { apply Z.nlt_ge. intros ?. apply Hne. apply Z.div_small. lia. }
  destruct d as [|[|d]]; [lia|change (10 ^ Z.of_nat 1) with 10 in Hn; lia|].
  etrans; [apply (IH _ _ (S d))|cbn; lia]; [|lia].
  rewrite (Nat2Z.inj_succ (S d)), Z.pow_succ_r in Hn by lia.
  split; [apply Z.div_pos; lia|apply Z.div_lt_upper_bound; lia].
Qed.

Lemma Z_to_string_length z : - 2 ^ 64 < z < 2 ^ 64 → (String.length (Z_to_string z) ≤ 21)%nat.
Proof.
  intros Hz. unfold Z_to_string, dec_nonneg.
  destruct (Z.ltb_spec z 0); [cbn [String.length]; apply le_n_S|etrans; [|apply (le_S 20); done]];
    (etrans; [apply (dec_digits_length _ _ _ 20); [change (10 ^ Z.of_nat 20) with 100000000000000000000; lia|lia]|done]).
Qed.

Lemma bin_name_length i : i64_range i → (length (bin_name i) ≤ 25)%nat.
Proof.
  unfold i64_range. intros Hi. unfold bin_name, pad020. rewrite length_app, length_as_bytes, string_length_app.
  pose proof (Z_to_string_length i ltac:(lia)) as Hl. change (length (as_bytes ".bin")) with 4%nat.
  set (n := (20 - _)%nat). assert (∀ k, String.length (String.concat "" (repeat "0" k)) = k) as Hk.
  { induction k as [|[|k] IH]; [done..|]. cbn [repeat String.concat] in *. rewrite !string_length_app in *. cbn in *. lia. }
  rewrite Hk. subst n. lia.
Qed.

Lemma claimed_name_length s i : unlimited s → i64_range i → (length (claimed_name (claim_tag s) i) ≤ 78)%nat.
Proof.
  intros (_ & Hp & Hs) Hi. unfold claimed_name, claim_tag. rewrite !length_app, !length_as_bytes, !string_length_app.
  pose proof (Z_to_string_length (pid s) ltac:(lia)). pose proof (Z_to_string_length (StorageFs.seq s) ltac:(lia)).
  pose proof (bin_name_length i Hi). cbn [String.length]. lia.
Qed.

(** ** A limit no name reaches changes nothing *)

Section limit.
Context (m : Z) (Hm : 80 ≤ m).

Lemma name_ok_limited s n : unlimited s → short m n → name_ok (limited m s) n = name_ok s n.
Proof. intros (E & _) Hn. unfold name_ok. rewrite E. cbn. by apply Z.leb_le. Qed.

Lemma can_create_limited s p : unlimited s → short m (List.last p []) →
  can_create (limited m s) p = can_create s p.
Proof. intros Hs Hn. unfold can_create. by rewrite name_ok_limited. Qed.

Lemma set_nodes_limited s x l : set_nodes (limited m s) x l = limited m (set_nodes s x l).
Proof. done. Qed.

Lemma mkdirs_limited s at_ rest : unlimited s → Forall (short m) rest →
  mkdirs (limited m s) at_ rest = limited m (mkdirs s at_ rest) ∧ unlimited (mkdirs s at_ rest).
Proof.
  intros Hs Hr. induction Hr as [|n rest Hn Hr IH] in s, at_, Hs |- *; [done|]. cbn [mkdirs].
  rewrite name_ok_limited by done. cbn [limited nodes]. destruct (nodes s !! (at_ ++ [n])) as [[|v]|]; [by apply IH|done|].
  destruct (name_ok s n); [|done]. rewrite set_nodes_limited. by apply IH.
Qed.

Lemma create_dir_all_limited s p : unlimited s → Forall (short m) p →
  create_dir_all (limited m s) p = limited m (create_dir_all s p) ∧ unlimited (create_dir_all s p).
Proof.
  intros Hs Hp. unfold create_dir_all. cbn [limited nodes]. destruct (nodes s !! []) as [[|v]|]; [by apply mkdirs_limited|done|].
  rewrite set_nodes_limited. by apply mkdirs_limited.
Qed.

Lemma write_limited s p v : unlimited s → short m (List.last p []) →
  write (limited m s) p v = prod_map id (limited m) (write s p v) ∧ unlimited (write s p v).2.
Proof.
  intros Hs Hp. unfold write. rewrite can_create_limited by done. cbn [limited nodes].
  destruct (nodes s !! p) as [[|w]|]; [done..|]. by destruct (can_create s p).
Qed.

Lemma create_new_limited s p v : unlimited s → short m (List.last p []) →
  create_new (limited m s) p v = prod_map id (limited m) (create_new s p v) ∧ unlimited (create_new s p v).2.
Proof.
  intros Hs Hp. unfold create_new. rewrite can_create_limited by done. cbn [limited nodes].
  destruct (nodes s !! p); [done|]. by destruct (can_create s p).
Qed.

Lemma rename_limited s a b : unlimited s → short m (List.last b []) →
  rename (limited m s) a b = prod_map id (limited m) (rename s a b) ∧ unlimited (rename s a b).2 ∧
  pid (rename s a b).2 = pid s ∧ StorageFs.seq (rename s a b).2 = StorageFs.seq s.
Proof.
  intros Hs Hp. unfold rename. rewrite can_create_limited by done. cbn [limited nodes].
  destruct (nodes s !! a) as [[|w]|]; [done| |done]. by destruct (can_create s b && _).
Qed.

Lemma remove_file_limited s p :
  remove_file (limited m s) p = limited m (remove_file s p) ∧ (unlimited s → unlimited (remove_file s p)).
Proof. unfold remove_file. cbn [limited nodes]. by destruct (nodes s !! p) as [[|w]|]. Qed.

Lemma remove_dir_all_limited s p :
  remove_dir_all (limited m s) p = limited m (remove_dir_all s p) ∧ (unlimited s → unlimited (remove_dir_all s p)).
Proof. unfold remove_dir_all. cbn [limited nodes]. by destruct (nodes s !! p) as [[|w]|]. Qed.

Lemma last_push p n : n ≠ [] → List.last (push p n) [] = n.
Proof. intros Hn. rewrite push_ne by done. apply last_last. Qed.

Lemma short_bin p i : i64_range i → short m (List.last (push p (bin_name i)) []).
Proof. intros Hi. rewrite last_push by apply bin_name_ne. unfold short. pose proof (bin_name_length i Hi). lia. Qed.

Lemma wrapped_i64_range z : i64_range (wrap_i64 z).
Proof.
  unfold i64_range, wrap_i64, to_signed. pose proof (Z.mod_pos_bound z (2 ^ 64)).
  destruct (Z.ltb_spec (z mod 2 ^ 64) (2 ^ (64 - 1))); lia.
Qed.

Lemma create_from_limited fuel s dir i v : unlimited s → i64_range i →
  create_from fuel (limited m s) dir i v = prod_map id (limited m) (create_from fuel s dir i v) ∧
  unlimited (create_from fuel s dir i v).2.
Proof.
  induction fuel as [|fuel IH] in s, i |- *; intros Hs Hi; cbn [create_from];
    destruct (create_new_limited s (push dir (bin_name i)) v Hs (short_bin _ _ Hi)) as [-> Hu];
    destruct (create_new s _ v) as [[] s']; cbn in *; try done.
  by apply IH, wrapped_i64_range.
Qed.

Lemma push_from_limited items s dir i : unlimited s → i64_range i →
  push_from (limited m s) dir i items = limited m (push_from s dir i items) ∧ unlimited (push_from s dir i items).
Proof.
  induction items as [|v items IH] in s, i |- *; intros Hs Hi; cbn [push_from]; [done|].
  destruct (create_new_limited s (push dir (bin_name i)) v Hs (short_bin _ _ Hi)) as [-> Hu].
  destruct (create_new s _ v) as [r s']. apply IH; [done|apply wrapped_i64_range].
Qed.

Lemma pop_ids_limited s dir tag ids : unlimited s →
  Forall (λ i, short m (List.last (push dir (claimed_name tag i)) [])) ids →
  pop_ids (limited m s) dir tag ids = prod_map id (limited m) (pop_ids s dir tag ids) ∧
  unlimited (pop_ids s dir tag ids).2.
Proof.
  intros Hs Hi. induction Hi as [|i ids Hn Hi IH] in s, Hs |- *; cbn [pop_ids]; [done|].
  destruct (rename_limited s (push dir (bin_name i)) (push dir (claimed_name tag i)) Hs Hn) as (-> & Hu & _).
  destruct (rename s _ _) as [[] s']; unfold prod_map, id in *; cbn [fst snd] in *; [|by apply IH].
  destruct (remove_file_limited s' (push dir (claimed_name tag i))) as [Er Hr]. rewrite Er.
  change (read (limited m s') ?p) with (read s' p). destruct (read s' _); [split; auto|auto].
Qed.

Lemma scope_dir_short sc : 2 * Z.of_nat (length sc) ≤ m → Forall (short m) (scope_dir sc).
Proof.
  intros H. unfold scope_dir, push. destruct (hex sc) eqn:E; [constructor|]. rewrite <- E.
  repeat constructor. unfold short. rewrite length_hex. lia.
Qed.

Lemma sub_dir_short sc n : 2 * Z.of_nat (length sc) ≤ m → n ≠ [] → short m n →
  Forall (short m) (push (scope_dir sc) n).
Proof. intros. rewrite push_ne by done. apply Forall_app_2; [by apply scope_dir_short|by repeat constructor]. Qed.

Lemma log_name_short ns k : 2 * Z.of_nat (length ns) + 2 * Z.of_nat (length k) + 2 ≤ m → short m (log_name ns k).
Proof.
  intros H. unfold short, log_name. rewrite !length_app, !length_hex, length_as_bytes. cbn [String.length]. lia.
Qed.

Lemma kv_name_short k : 2 * Z.of_nat (length k) + 7 ≤ m → short m (kv_name k) ∧ short m (kv_tmp k).
Proof.
  intros H. unfold short, kv_tmp, kv_name. rewrite !length_app, !length_hex, !length_as_bytes. cbn [String.length]. lia.
Qed.

Lemma parse_bin_range n i : parse_bin n = Some i → i64_range i.
Proof.
  unfold parse_bin. intros (l & _ & E)%bind_Some. revert E. unfold parse_i64, in_range, i64_range.
  repeat case_match; intros; simplify_eq; try done; rewrite ?andb_true_iff, ?Z.leb_le in *; lia.
Qed.

Lemma listed_ids_range s dir : Forall i64_range (order_by id (bin_ids s dir)).
Proof.
  unfold order_by. rewrite merge_sort_Permutation. apply Forall_forall. intros i (n & _ & E)%list_elem_of_omap. by eapply parse_bin_range.
Qed.

Lemma fs_kv_put_limited s sc k v : unlimited s → names_fit m (KvPut sc k v) →
  fs_kv_put (limited m s) sc k v = limited m (fs_kv_put s sc k v) ∧ unlimited (fs_kv_put s sc k v).
Proof.
  intros Hs [Hsc Hk]. destruct (kv_name_short k Hk) as [Hk1 Hk2]. unfold fs_kv_put, kv_path.
  destruct (create_dir_all_limited s (scope_dir sc) Hs (scope_dir_short _ Hsc)) as [-> Hu].
  destruct (write_limited (create_dir_all s (scope_dir sc)) (push (scope_dir sc) (kv_tmp k)) v Hu) as [-> Hw].
  { by rewrite last_push. }
  destruct (write _ _ v) as [[] s1]; unfold prod_map, id; cbn [fst snd] in *; [|done].
  destruct (rename_limited s1 (push (scope_dir sc) (kv_tmp k)) (push (scope_dir sc) (kv_name k)) Hw) as (-> & Hr & _).
  { by rewrite last_push. }
  by destruct (rename s1 _ _).
Qed.

Lemma fs_append_limited s sc ns k v : unlimited s → names_fit m (Append sc ns k v) →
  fs_append (limited m s) sc ns k v = prod_map id (limited m) (fs_append s sc ns k v) ∧
  unlimited (fs_append s sc ns k v).2.
Proof.
  intros Hs [Hsc Hk]. unfold fs_append.
  destruct (create_dir_all_limited s (log_dir sc ns k) Hs) as [-> Hu].
  { apply sub_dir_short; [done|apply log_name_ne|by apply log_name_short]. }
  by apply create_from_limited, wrapped_i64_range.
Qed.

Lemma fs_queue_push_limited s sc items : unlimited s → names_fit m (QueuePush sc items) →
  fs_queue_push (limited m s) sc items = limited m (fs_queue_push s sc items) ∧ unlimited (fs_queue_push s sc items).
Proof.
  intros Hs Hsc. unfold fs_queue_push. destruct (create_dir_all_limited s (queue_dir sc) Hs) as [-> Hu].
  { apply sub_dir_short; [done|done|unfold short, queue_name; rewrite length_as_bytes; cbn; lia]. }
  apply push_from_limited; [done|apply wrapped_i64_range].
Qed.

Lemma fs_queue_pop_limited s sc : unlimited s →
  fs_queue_pop (limited m s) sc = prod_map id (limited m) (fs_queue_pop s sc) ∧ unlimited (fs_queue_pop s sc).2.
Proof.
  intros Hs. unfold fs_queue_pop. set (s1 := mkFs (nodes s) _ _ (name_max s) _ _). change (mkFs _ _ _ _ _ _) with (limited m s1).
  apply (pop_ids_limited s1).
  - destruct Hs as (? & ? & ?). split; [done|]. split; [done|]. cbn. apply Z.mod_pos_bound. lia.
  - eapply Forall_impl; [apply listed_ids_range|]. intros i Hi. rewrite last_push by done.
    unfold short. pose proof (claimed_name_length s i Hs Hi). cbn -[claimed_name]. lia.
Qed.

Lemma apply_op_limited s o : unlimited s → names_fit m o → op_scope o ≠ None →
  apply_op (limited m s) o = prod_map id (limited m) (apply_op s o) ∧ unlimited (apply_op s o).2.
Proof.
  intros Hs Hf Ho. destruct o; unfold apply_op; cbn [kv_get kv_put kv_del append scan queue_push queue_pop clear fs_storage].
  - destruct Hf as [Hsc _]. unfold fs_kv_get, kv_path.
    by destruct (create_dir_all_limited s (scope_dir scope) Hs (scope_dir_short _ Hsc)) as [-> Hu].
  - by destruct (fs_kv_put_limited s scope key value Hs Hf) as [-> ?].
  - destruct Hf as [Hsc _]. unfold fs_kv_del, kv_path.
    destruct (create_dir_all_limited s (scope_dir scope) Hs (scope_dir_short _ Hsc)) as [-> Hu].
    destruct (remove_file_limited (create_dir_all s (scope_dir scope)) (push (scope_dir scope) (kv_name key))) as [-> ?]. auto.
  - destruct (fs_append_limited s scope ns key value Hs Hf) as [-> ?]. by destruct (fs_append s _ _ _ _).
  - done.
  - by destruct (fs_queue_push_limited s scope items Hs Hf) as [-> ?].
  - destruct (fs_queue_pop_limited s scope Hs) as [-> ?]. by destruct (fs_queue_pop s scope).
  - unfold fs_clear. destruct (remove_dir_all_limited s (scope_dir scope)) as [-> ?]. auto.
  - done.
Qed.

Lemma run_ops_limited s os : unlimited s → Forall (names_fit m) os → Forall named_op os →
  run_ops (limited m s) os = prod_map id (limited m) (run_ops s os).
Proof.
  intros Hs Hf Hn. induction os as [|o os IH] in s, Hs, Hf, Hn |- *; [done|].
  apply Forall_cons in Hf as [Ho Hf]. apply Forall_cons in Hn as [(_ & sc & Hsc & _) Hn]. cbn [run_ops].
  destruct (apply_op_limited s o Hs Ho) as [-> Hu]; [by rewrite Hsc|].
  destruct (apply_op s o) as [r s1]. unfold prod_map, id in *. cbn [fst snd] in *. rewrite IH by done.
  by destruct (run_ops s1 os).
Qed.
End limit.

(** The storage, on a file system with or without a limit on its names. *)
Lemma fs_run_from_empty max t pid os : 0 ≤ pid < 2 ^ 32 → Forall named_op os →
  (∀ m, max = Some m → 80 ≤ m ∧ Forall (names_fit m) os) → ids_drawn os < 2 ^ 63 - 1 →
  abs_run empty_view os (run_ops (FsStorage_new max t pid) os).1 (fs_view (run_ops (FsStorage_new max t pid) os).2).
Proof.
  intros Hp Hos Hmax Hn.
  assert (abs_run empty_view os (run_ops (FsStorage_new None t pid) os).1
            (fs_view (run_ops (FsStorage_new None t pid) os).2)) as Hfree.
  { refine (run_from_empty (FsStorage_new None t pid) os _ _ _ _ _); [apply fs_inv_new| | |done|done].
    - apply fs_view_new.
    - split; [done|]. intros sc d i Hsc Hd Hb [nd E]. cbn in E. by rewrite lookup_singleton_ne in E. }
  destruct max as [m|]; [|done]. destruct (Hmax m eq_refl) as [Hm Hf].
  change (FsStorage_new (Some m) t pid) with (limited m (FsStorage_new None t pid)).
  by rewrite run_ops_limited.
Qed.

(** C6: Every sequence of the operations other than [gc], each
    on a non-empty scope, that draws fewer than 2^63 - 1 ids and, on a file system
    that limits its names to [m >= 80] bytes, uses scopes, keys and namespaces whose
    file names fit ([names_fit]), is run by each of the three local backends,
    started empty, as a run of the abstract store started empty: a worker may be
    moved from one to another, and what they answer differs in nothing but the ids
    given to appended rows. [fs_long_key_lost] shows what the file-system backend
    does with names that do not fit. *)
Theorem backends_run_refine os max t pid :
  Forall named_op os → ids_drawn os < 2 ^ 63 - 1 → 0 ≤ pid < 2 ^ 32 →
  (∀ m, max = Some m → 80 ≤ m ∧ Forall (names_fit m) os) →
  abs_run empty_view os (run_ops MemoryStorage_new os).1 (mem_view (run_ops MemoryStorage_new os).2) ∧
  abs_run empty_view os (run_ops (FsStorage_new max t pid) os).1 (fs_view (run_ops (FsStorage_new max t pid) os).2) ∧
  abs_run empty_view os (run_ops (SqliteStorage_new t) os).1 (sql_view (run_ops (SqliteStorage_new t) os).2).
Proof.
  intros Hos Hn Hp Hmax. split_and!.
  - refine (run_from_empty MemoryStorage_new os _ _ _ _ _); [apply mem_inv_new| | |done|done].
    + split_and!; intros; cbn; by rewrite ?lookup_empty.
    + cbn. unfold mem_room. cbn. lia.
  - by apply fs_run_from_empty.
  - refine (run_from_empty (SqliteStorage_new t) os _ _ _ _ _); [| | |done|done].
    + split_and!; cbn; unfold max_rowid; try constructor; lia.
    + split_and!; intros; cbn; by rewrite ?lookup_empty.
    + cbn. unfold sql_room, max_rowid. cbn. lia.
Qed.

Lemma backends_run_refine_witness :
  let os := [KvPut [x01] [] [x0a]; Append [x01] [] [] [x0b]; QueuePush [x01] [[x0c]];
             QueuePop [x01]; Scan [x01] [] [] (-1) 5; Clear [x01]; KvGet [x01] []] in
  abs_run empty_view os (run_ops MemoryStorage_new os).1 (mem_view (run_ops MemoryStorage_new os).2) ∧
  abs_run empty_view os (run_ops (FsStorage_new (Some 255) 5 7) os).1
    (fs_view (run_ops (FsStorage_new (Some 255) 5 7) os).2) ∧
  abs_run empty_view os (run_ops (SqliteStorage_new 5) os).1 (sql_view (run_ops (SqliteStorage_new 5) os).2).
Proof.
  apply (backends_run_refine
    [KvPut [x01] [] [x0a]; Append [x01] [] [] [x0b]; QueuePush [x01] [[x0c]];
     QueuePop [x01]; Scan [x01] [] [] (-1) 5; Clear [x01]; KvGet [x01] []] (Some 255) 5 7).
  - repeat constructor; simpl; try done; exists [x01]; done.
  - reflexivity.
  - lia.
  - intros m [= <-]. split; [lia|]. repeat constructor; cbn; lia.
Defined.
