(* ===== verification/WindowCache.v ===== *)
(** The decoded-window-partition cache of [vgi/src/window_cache.rs]: byte
    accounting, LRU order, eviction and the generation that refuses stale
    fills.  Machine integers are Z with the [usize]/[u64] wrap and saturation
    written out; an [Arc] is its address and what it holds. *)
From S2P Require Import Prelude.

Open Scope Z_scope.

Definition saturating_add (x y : Z) : Z := Z.min usize_max (x + y).
Definition saturating_mul (x y : Z) : Z := Z.min usize_max (x * y).
Definition saturating_sub (x y : Z) : Z := Z.max 0 (x - y).
Definition usize_add (x y : Z) : Z := (x + y) mod 2 ^ 64.
Definition usize_sub (x y : Z) : Z := (x - y) mod 2 ^ 64.
Definition wrapping_add_u64 (x y : Z) : Z := (x + y) mod 2 ^ 64.

(** * Byte accounting *)

Module Accounting.

(** An Arrow [Buffer]: a view of an allocation at [data_ptr]. *)
Record Buffer := mkBuffer {
  data_ptr : Z;
  capacity : Z;
  ptr_offset : Z;
  len : Z;
}.

Inductive ArrayData :=
| mkArrayData (buffers : list Buffer) (nulls : option Buffer) (child_data : list ArrayData).

Record Schema := mkSchema {
  fields_size : Z;
  metadata : list (Z * Z); (* key and value capacities *)
}.

(** [size_of] of the types involved: the compiler's layout. *)
Record Layout := mkLayout {
  size_RecordBatch : Z;
  size_ArrayData : Z;
  size_Buffer : Z;
  size_Schema : Z;
  size_String : Z;
  size_Self : Z;
}.

Definition buffer_extent (b : Buffer) : Z :=
  Z.max (capacity b) (saturating_add (ptr_offset b) (len b)).

Definition buffer_bytes (b : Buffer) (allocations : gmap Z Z) : gmap Z Z :=
  <[data_ptr b := Z.max (default 0 (allocations !! data_ptr b)) (buffer_extent b)]> allocations.

Section sizes.
Context (layout : Layout).

Fixpoint array_bytes (data : ArrayData) (allocations : gmap Z Z) : Z * gmap Z Z :=
  match data with
  | mkArrayData buffers nulls children =>
      let size := saturating_add (size_ArrayData layout)
                    (saturating_mul (Z.of_nat (length buffers)) (size_Buffer layout)) in
      let allocations := foldl (λ m b, buffer_bytes b m) allocations buffers in
      let allocations := match nulls with
                         | Some b => buffer_bytes b allocations
                         | None => allocations
                         end in
      (fix go (cs : list ArrayData) (size : Z) (m : gmap Z Z) : Z * gmap Z Z :=
         match cs with
         | [] => (size, m)
         | c :: cs => let '(n, m) := array_bytes c m in go cs (saturating_add size n) m
         end) children size allocations
  end.

Definition schema_bytes (s : Schema) : Z :=
  foldl (λ size kv, saturating_add (saturating_add size kv.1) kv.2)
    (saturating_add (saturating_add (size_Schema layout) (fields_size s))
       (saturating_mul (Z.of_nat (length (metadata s))) (2 * size_String layout)))
    (metadata s).

(** The loop over the partition's columns. *)
Definition columns_bytes (columns : list ArrayData) : Z * gmap Z Z :=
  foldl (λ acc c, let '(n, m) := array_bytes c acc.2 in (saturating_add acc.1 n, m))
    (size_RecordBatch layout, ∅) columns.

(** [CachedWindowPartition::accounted_bytes]; the map's values in whatever
    order it iterates them. *)
Definition accounted_bytes (columns : list ArrayData) (output_schema partition_schema : Schema)
    (mask_capacity : Z) : Z :=
  let '(arrays, allocations) := columns_bytes columns in
  let sum := foldl saturating_add arrays (map_to_list allocations).*2 in
  saturating_add (saturating_add (saturating_add (saturating_add sum
    (schema_bytes output_schema)) (schema_bytes partition_schema)) mask_capacity)
    (size_Self layout).
End sizes.

(** Every buffer of an array, the nested ones included. *)
Fixpoint all_buffers (d : ArrayData) : list Buffer :=
  match d with
  | mkArrayData buffers nulls children =>
      buffers ++ option_list nulls ++
      (fix go cs := match cs with [] => [] | c :: cs => all_buffers c ++ go cs end) children
  end.

Definition charge (m : gmap Z Z) (bs : list Buffer) : gmap Z Z :=
  foldl (λ m b, buffer_bytes b m) m bs.

(** Walking an array charges its buffers in order. *)
Lemma array_bytes_charge layout : ∀ d m, (array_bytes layout d m).2 = charge m (all_buffers d).
Proof.
  fix IH 1. intros [buffers nulls children] m. cbn [array_bytes all_buffers].
  unfold charge. rewrite !foldl_app. fold (charge m buffers).
  assert (match nulls with Some b => buffer_bytes b (charge m buffers) | None => charge m buffers end
          = foldl (λ m b, buffer_bytes b m) (charge m buffers) (option_list nulls)) as ->
    by (by destruct nulls).
  generalize (foldl (λ m b, buffer_bytes b m) (charge m buffers) (option_list nulls)).
  generalize (saturating_add (size_ArrayData layout)
    (saturating_mul (Z.of_nat (length buffers)) (size_Buffer layout))).
  induction children as [|c cs IHcs]; intros size m'; [done|].
  rewrite foldl_app. fold (charge m' (all_buffers c)). rewrite <- (IH c m').
  destruct (array_bytes layout c m') as [n m'']. apply IHcs.
Qed.

Lemma charge_lookup m bs p :
  charge m bs !! p =
  match filter (λ b, data_ptr b = p) bs with
  | [] => m !! p
  | l => Some (foldl Z.max (default 0 (m !! p)) (buffer_extent <$> l))
  end.
Proof.
  induction bs as [|b bs IH] in m |- *; [done|]. cbn [charge foldl].
  unfold charge in IH. rewrite IH, filter_cons. unfold buffer_bytes. case_decide as Hp.
  - subst p. rewrite lookup_insert_eq. destruct (filter _ bs); done.
  - rewrite lookup_insert_ne by done. done.
Qed.

(** However many buffer views, nested arrays or columns
    share an allocation, it is charged once, at the largest extent any of them shows. *)
Theorem accounting_charges_allocations_once layout columns p :
  (columns_bytes layout columns).2 !! p =
  match filter (λ b, data_ptr b = p) (columns ≫= all_buffers) with
  | [] => None
  | l => Some (foldl Z.max 0 (buffer_extent <$> l))
  end.
Proof.
  assert (∀ acc, (foldl (λ acc c, let '(n, m) := array_bytes layout c acc.2 in
      (saturating_add acc.1 n, m)) acc columns).2 = charge acc.2 (columns ≫= all_buffers)) as H.
  { induction columns as [|c cs IH]; intros [a m]; [done|]. cbn [foldl snd fst].
    pose proof (array_bytes_charge layout c m) as Hc.
    destruct (array_bytes layout c m) as [n m']. simpl in Hc. rewrite IH. cbn [snd mbind list_bind].
    unfold charge. rewrite foldl_app. by subst m'. }
  unfold columns_bytes. rewrite H. cbn [snd]. by rewrite charge_lookup, lookup_empty.
Qed.

End Accounting.

(** * The cache *)

Abbreviation Key := (bytes * Z)%type.

(** An [Arc<CachedWindowPartition>]. *)
Record Arc (P : Type) := mkArc { addr : Z; deref : P }.
Arguments mkArc {P} _ _.
Arguments addr {P} _.
Arguments deref {P} _.

Record WindowInner (P : Type) := mkInner {
  entries : gmap Key (Arc P * Z);
  order : list Key;
  used : Z; (* [bytes] *)
  generation : Z;
}.
Arguments mkInner {P} _ _ _ _.
Arguments entries {P} _.
Arguments order {P} _.
Arguments used {P} _.
Arguments generation {P} _.

Definition retain_ne (key : Key) (order : list Key) : list Key := filter (λ k, k ≠ key) order.

Section cache.
Context {P : Type} (accounted : P → Z) (max_entries max_bytes : Z).
Implicit Types (c : WindowInner P) (key : Key).

Definition WindowPartitionCache_new : WindowInner P := mkInner ∅ [] 0 0.

Definition win_lookup c key : (option (Arc P) * Z) * WindowInner P :=
  match entries c !! key with
  | Some (entry, _) =>
      ((Some entry, generation c),
       mkInner (entries c) (retain_ne key (order c) ++ [key]) (used c) (generation c))
  | None => ((None, generation c), c)
  end.

Definition remove_key c key : WindowInner P :=
  let '(es, b) := match entries c !! key with
                  | Some (_, n) => (delete key (entries c), usize_sub (used c) n)
                  | None => (entries c, used c)
                  end in
  mkInner es (retain_ne key (order c)) b (generation c).

(** The eviction loop's condition. *)
Definition must_evict (bytes : Z) (es : gmap Key (Arc P * Z)) (b : Z) : bool :=
  (max_entries <=? Z.of_nat (size es)) || (saturating_sub max_bytes b <? bytes).

(** [while must_evict { pop_front .. }]: the loop walks the order queue. *)
Fixpoint evict (bytes : Z) (es : gmap Key (Arc P * Z)) (order : list Key) (b : Z)
  : gmap Key (Arc P * Z) * list Key * Z :=
  if must_evict bytes es b then
    match order with
    | [] => (es, [], b)
    | oldest :: order =>
        match es !! oldest with
        | Some (_, n) => evict bytes (delete oldest es) order (usize_sub b n)
        | None => evict bytes es order b
        end
    end
  else (es, order, b).

Definition insert_if_current c (exec : bytes) (partition : Z) (entry : Arc P) (gen : Z)
  : WindowInner P :=
  let n := saturating_add (accounted (deref entry)) (Z.of_nat (length exec)) in
  if (negb (gen =? generation c)) || (max_entries =? 0) || (max_bytes <? n) then c
  else
    let key := (exec, partition) in
    let c := remove_key c key in
    let '(es, ord, b) := evict n (entries c) (order c) (used c) in
    mkInner (<[key := (entry, n)]> es) (ord ++ [key]) (usize_add b n) (generation c).

Definition bump c : WindowInner P :=
  mkInner (entries c) (order c) (used c) (wrapping_add_u64 (generation c) 1).

Definition win_remove c (exec : bytes) (partition : Z) : Z * WindowInner P :=
  let c := remove_key (bump c) (exec, partition) in
  (generation c, c).

Definition clear_execution c (exec : bytes) : WindowInner P :=
  let c := bump c in
  foldl remove_key c (filter (λ k : Key, k.1 = exec) (map_to_list (entries c)).*1).

(** One turn of [prune]'s second loop: the entry seen in the snapshot is gone
    from storage, and is dropped unless the key now holds another [Arc]. *)
Definition prune_one c key (seen : Arc P) : WindowInner P :=
  match entries c !! key with
  | Some (current, _) => if addr current =? addr seen then remove_key (bump c) key else c
  | None => c
  end.

(** [prune] run without interference. *)
Definition prune c (is_live : bytes → Z → bool) : WindowInner P :=
  foldl (λ c e, if is_live e.1.1 e.1.2 then c else prune_one c e.1 e.2.1) c
    (map_to_list (entries c)).
End cache.

(** * Invariant *)

Section facts.
Context {P : Type} (accounted : P → Z) (max_entries max_bytes : Z).
Hypothesis accounted_nonneg : ∀ p, 0 ≤ accounted p.
Hypothesis max_bytes_usize : 0 ≤ max_bytes ≤ usize_max.
Implicit Types (c : WindowInner P) (key : Key) (es : gmap Key (Arc P * Z)).

Abbreviation total := (map_sum (snd : Arc P * Z → Z)).

(** The queue lists the resident keys once each and [bytes] is what they cost. *)
Record queue_inv es (ord : list Key) (b : Z) : Prop := {
  q_nodup : NoDup ord;
  q_keys k : k ∈ ord ↔ is_Some (es !! k);
  q_bytes : b = total es;
  q_nonneg k e : es !! k = Some e → 0 ≤ e.2;
  q_usize : b ≤ usize_max;
}.

Record cache_inv c : Prop := {
  i_queue : queue_inv (entries c) (order c) (used c);
  i_entries : Z.of_nat (size (entries c)) ≤ max_entries;
  i_bytes : used c ≤ max_bytes;
}.

Lemma retain_ne_elem k key ord : k ∈ retain_ne key ord ↔ k ≠ key ∧ k ∈ ord.
Proof. unfold retain_ne. by rewrite list_elem_of_filter. Qed.

Lemma retain_ne_absent key ord : key ∉ ord → retain_ne key ord = ord.
Proof. intros H. apply list_filter_all, Forall_forall. intros k Hk ->. done. Qed.

(** Dropping one resident key. *)
Lemma queue_inv_delete es ord b key e :
  queue_inv es ord b → es !! key = Some e →
  queue_inv (delete key es) (retain_ne key ord) (usize_sub b e.2).
Proof.
  intros [Hnd Hk Hb Hn Hu] He. pose proof (map_sum_delete snd es key e He) as Hd.
  pose proof (map_sum_nonneg snd (delete key es)) as Hp.
  assert (0 ≤ total (delete key es)) as Hp'.
  { apply Hp. intros k v [_ Hv]%lookup_delete_Some. by eapply Hn. }
  pose proof (Hn _ _ He) as Hn0.
  assert (usize_sub b e.2 = b - e.2) as Hs.
  { unfold usize_sub. apply Z.mod_small. unfold usize_max in Hu. lia. }
  rewrite Hs. split.
  - by apply NoDup_filter.
  - intros k. rewrite retain_ne_elem, Hk. destruct (decide (k = key)) as [->|].
    + rewrite lookup_delete_eq. split; [by intros [? _]|by intros [? ?]].
    + by rewrite lookup_delete_ne by congruence; naive_solver.
  - lia.
  - intros k v [_ Hv]%lookup_delete_Some. by eapply Hn.
  - lia.
Qed.

Lemma remove_key_spec c key :
  queue_inv (entries c) (order c) (used c) →
  let c' := remove_key c key in
  queue_inv (entries c') (order c') (used c') ∧ entries c' = delete key (entries c) ∧
  order c' = retain_ne key (order c) ∧ used c' ≤ used c ∧ generation c' = generation c.
Proof.
  intros Hq. unfold remove_key. destruct (entries c !! key) as [[a n]|] eqn:E; simpl.
  - pose proof (queue_inv_delete _ _ _ _ _ Hq E) as Hq'. split_and!; try done.
    simpl in Hq'. pose proof (q_bytes _ _ _ Hq'). pose proof (q_bytes _ _ _ Hq).
    pose proof (map_sum_delete snd _ _ _ E). pose proof (q_nonneg _ _ _ Hq _ _ E).
    simpl in *. lia.
  - assert (key ∉ order c) as Hk by (rewrite (q_keys _ _ _ Hq), E; by intros [? ?]).
    rewrite retain_ne_absent, delete_id by done. by split_and!.
Qed.

(** What [n] evictions leave. *)
Definition retained es (ord : list Key) (n : nat) : gmap Key (Arc P * Z) :=
  filter (λ kv, kv.1 ∈ drop n ord) es.

Lemma retained_0 es ord b : queue_inv es ord b → retained es ord 0 = es.
Proof.
  intros Hq. apply map_eq. intros k. unfold retained. rewrite drop_0.
  rewrite (lookup_filter_key (λ x : Key, x ∈ ord)) by done.
  destruct (es !! k) eqn:E; case_decide as Hk; try done.
  exfalso. apply Hk, (q_keys _ _ _ Hq). by rewrite E.
Qed.

Lemma retained_S es k0 ord n :
  k0 ∉ ord → retained (delete k0 es) ord n = retained es (k0 :: ord) (S n).
Proof.
  intros Hk. apply map_eq. intros k. unfold retained. cbn [drop].
  rewrite !(lookup_filter_key (λ x : Key, x ∈ drop n ord)) by done. case_decide as Hd; [|done].
  apply lookup_delete_ne. intros ->. apply Hk.
  rewrite <- (take_drop n ord). apply elem_of_app. by right.
Qed.

(** The loop evicts a prefix of the queue, and no more than it has to. *)
Lemma evict_spec n0 es ord b es' ord' b' :
  queue_inv es ord b → 0 < max_entries → n0 ≤ max_bytes →
  evict max_entries max_bytes n0 es ord b = (es', ord', b') →
  queue_inv es' ord' b' ∧ b' ≤ b ∧ must_evict max_entries max_bytes n0 es' b' = false ∧
  ∃ n, (n ≤ length ord)%nat ∧ ord' = drop n ord ∧ es' = retained es ord n ∧
    ∀ i, (i < n)%nat →
      must_evict max_entries max_bytes n0 (retained es ord i) (total (retained es ord i)) = true.
Proof.
  revert es b. induction ord as [|k0 ord IH]; intros es b Hq Hm Hn E; cbn [evict] in E.
  - assert (es = ∅) as ->.
    { apply map_empty. intros k. destruct (es !! k) eqn:Ek; [|done].
      assert (k ∈ []) as Hk by (apply (q_keys _ _ _ Hq); by rewrite Ek). by apply elem_of_nil in Hk. }
    pose proof (q_bytes _ _ _ Hq) as Hb. rewrite map_sum_empty in Hb. subst b.
    assert (must_evict max_entries max_bytes n0 (∅ : gmap Key (Arc P * Z)) 0 = false) as Hf.
    { unfold must_evict, saturating_sub. rewrite map_size_empty. apply orb_false_iff.
      split; [apply Z.leb_gt|apply Z.ltb_ge]; lia. }
    rewrite Hf in E. simplify_eq. split_and!; [done..|].
    exists O. split_and!; [done|done|by rewrite (retained_0 _ _ _ Hq)|lia].
  - destruct (must_evict max_entries max_bytes n0 es b) eqn:Hf.
    + pose proof (q_nodup _ _ _ Hq) as [Hnin Hnd]%NoDup_cons.
      destruct (proj1 (q_keys _ _ _ Hq k0)) as [[a n1] He]; [by left|]. rewrite He in E.
      pose proof (queue_inv_delete _ _ _ _ _ Hq He) as Hq'.
      assert (retain_ne k0 (k0 :: ord) = ord) as Hr.
      { unfold retain_ne. rewrite filter_cons_False by (by intros ?). by apply retain_ne_absent. }
      rewrite Hr in Hq'. apply IH in E as (Hq2 & Hle & Hf2 & n & Hl & -> & -> & Hmin); [|done..].
      assert (usize_sub b n1 ≤ b).
      { pose proof (q_bytes _ _ _ Hq') as Hb'. pose proof (map_sum_delete snd _ _ _ He).
        pose proof (q_nonneg _ _ _ Hq _ _ He). pose proof (q_bytes _ _ _ Hq). simpl in *. lia. }
      split_and!; [done|lia|done|]. exists (S n). split_and!; [simpl; lia|done|by apply retained_S|].
      intros [|i] Hi.
      * rewrite (retained_0 _ _ _ Hq), <- (q_bytes _ _ _ Hq). done.
      * rewrite <- retained_S by done. apply Hmin. lia.
    + simplify_eq. split_and!; [done..|].
      exists O. split_and!; [lia|done|by rewrite (retained_0 _ _ _ Hq)|lia].
Qed.

(** A fill adds its own entry and nothing else. *)
Lemma evict_subseteq n0 es ord b : (evict max_entries max_bytes n0 es ord b).1.1 ⊆ es.
Proof.
  revert es b. induction ord as [|k0 ord IH]; intros es b; cbn [evict];
    (destruct (must_evict _ _ n0 es b); [|done]); [done|].
  destruct (es !! k0) as [[a n]|]; [|apply IH].
  etrans; [apply IH|apply delete_subseteq].
Qed.

Lemma insert_if_current_entries c exec partition entry gen k e :
  entries (insert_if_current accounted max_entries max_bytes c exec partition entry gen) !! k
    = Some e →
  (k = (exec, partition) ∧ e.1 = entry) ∨ entries c !! k = Some e.
Proof.
  unfold insert_if_current. case_match; [by right|]. intros Hk.
  pose proof (evict_subseteq (saturating_add (accounted (deref entry)) (Z.of_nat (length exec)))
    (entries (remove_key c (exec, partition))) (order (remove_key c (exec, partition)))
    (used (remove_key c (exec, partition)))) as Hsub.
  destruct (evict _ _ _ _ _ _) as [[es ord] b]. simpl in *.
  apply lookup_insert_Some in Hk as [[<- <-]|[Hne Hk]]; [by left|]. right.
  eapply lookup_weaken in Hk; [|exact Hsub]. unfold remove_key in Hk.
  destruct (entries c !! (exec, partition)) as [[? ?]|]; [|done].
  simpl in Hk. by apply lookup_delete_Some in Hk as [_ ?].
Qed.

(** ** Interleaved operations *)

(** The critical sections of the cache: [prune] takes the lock once per dead
    entry, so its turns are operations of their own. *)
Inductive cache_op :=
| OpLookup (key : Key)
| OpInsert (exec : bytes) (partition : Z) (entry : Arc P) (gen : Z)
| OpRemove (exec : bytes) (partition : Z)
| OpClear (exec : bytes)
| OpPruneOne (key : Key) (seen : Arc P).

Definition cache_step c (o : cache_op) : WindowInner P :=
  match o with
  | OpLookup key => (win_lookup c key).2
  | OpInsert exec partition entry gen =>
      insert_if_current accounted max_entries max_bytes c exec partition entry gen
  | OpRemove exec partition => (win_remove c exec partition).2
  | OpClear exec => clear_execution c exec
  | OpPruneOne key seen => prune_one c key seen
  end.

Definition cache_run c (os : list cache_op) : WindowInner P := foldl cache_step c os.

Lemma queue_inv_touch es ord b key e :
  queue_inv es ord b → es !! key = Some e → queue_inv es (retain_ne key ord ++ [key]) b.
Proof.
  intros [Hnd Hk Hb Hn Hu] He. split; try done.
  - apply NoDup_app. split_and!; [by apply NoDup_filter| |apply NoDup_singleton].
    intros k [? _]%retain_ne_elem ->%list_elem_of_singleton. done.
  - intros k. rewrite elem_of_app, retain_ne_elem, list_elem_of_singleton, <- Hk.
    destruct (decide (k = key)) as [->|]; [|naive_solver].
    split; [intros _; apply Hk; by rewrite He|by right].
Qed.

Lemma queue_inv_insert es ord b key a n :
  queue_inv es ord b → es !! key = None → 0 ≤ n → b + n ≤ usize_max →
  queue_inv (<[key := (a, n)]> es) (ord ++ [key]) (usize_add b n) ∧ usize_add b n = b + n.
Proof.
  intros [Hnd Hk Hb Hn Hu] He Hn0 Hle.
  assert (0 ≤ b) as Hb0 by (rewrite Hb; apply map_sum_nonneg; eauto).
  assert (usize_add b n = b + n) as Ha.
  { unfold usize_add. apply Z.mod_small. unfold usize_max in *. lia. }
  rewrite Ha. split; [|done]. split; [| | | |done].
  - apply NoDup_app. split_and!; [done| |apply NoDup_singleton].
    intros k Hin ->%list_elem_of_singleton. rewrite Hk, He in Hin. by destruct Hin.
  - intros k. rewrite elem_of_app, list_elem_of_singleton, Hk, lookup_insert_is_Some.
    destruct (decide (k = key)); naive_solver.
  - rewrite map_sum_insert_None by done. simpl. lia.
  - intros k e [[<- <-]|[_ ?]]%lookup_insert_Some; [done|by eapply Hn].
Qed.

Lemma remove_key_inv c key : cache_inv c → cache_inv (remove_key c key).
Proof.
  intros [Hq He Hb]. destruct (remove_key_spec c key Hq) as (Hq' & E1 & _ & Hle & _).
  split; [done| |lia]. rewrite E1, map_size_delete. case_match; unfold id; lia.
Qed.

(** What an admitted fill does. *)
Lemma insert_if_current_admit c exec partition entry :
  cache_inv c → 0 < max_entries →
  saturating_add (accounted (deref entry)) (Z.of_nat (length exec)) ≤ max_bytes →
  let key := (exec, partition) in
  let n := saturating_add (accounted (deref entry)) (Z.of_nat (length exec)) in
  let c' := insert_if_current accounted max_entries max_bytes c exec partition entry (generation c) in
  let ord := retain_ne key (order c) in
  let es := delete key (entries c) in
  cache_inv c' ∧ ∃ i, (i ≤ length ord)%nat ∧
    entries c' = <[key := (entry, n)]> (retained es ord i) ∧ order c' = drop i ord ++ [key] ∧
    ∀ j, (j < i)%nat →
      must_evict max_entries max_bytes n (retained es ord j) (total (retained es ord j)) = true.
Proof.
  intros Hc Hm Hn key n c' ord es. unfold c', insert_if_current. fold n key.
  rewrite Z.eqb_refl. replace (max_entries =? 0) with false by lia.
  replace (max_bytes <? n) with false by lia. cbn [negb orb].
  destruct (remove_key_spec c key (i_queue _ Hc)) as (Hq & E1 & E2 & Hle & _).
  rewrite E1, E2 in *. fold ord es in Hq |- *.
  destruct (evict max_entries max_bytes n es ord (used (remove_key c key)))
    as [[es' ord'] b'] eqn:E.
  apply evict_spec in E as (Hq' & Hle' & Hf & i & Hi & -> & Hr & Hmin); [|done..].
  assert (es' !! key = None) as Hnone.
  { rewrite Hr. unfold retained. rewrite (lookup_filter_key (λ x : Key, x ∈ drop i ord)) by done.
    unfold es. rewrite lookup_delete_eq. by case_decide. }
  unfold must_evict, saturating_sub in Hf. apply orb_false_iff in Hf as [Hf1%Z.leb_gt Hf2%Z.ltb_ge].
  assert (0 ≤ n) as Hn0.
  { unfold n, saturating_add. pose proof (accounted_nonneg (deref entry)). unfold usize_max. lia. }
  assert (0 ≤ b') as Hb0.
  { rewrite (q_bytes _ _ _ Hq'). apply map_sum_nonneg. apply (q_nonneg _ _ _ Hq'). }
  pose proof (i_bytes _ Hc).
  destruct (queue_inv_insert es' (drop i ord) b' key entry n Hq' Hnone Hn0 ltac:(lia)) as [Hqi Ha].
  split; [|exists i; split_and!; [done|by rewrite Hr|done|done]].
  split; simpl; [done| |lia].
  rewrite map_size_insert_None by done. lia.
Qed.

Lemma cache_step_inv c o : 0 ≤ max_entries → cache_inv c → cache_inv (cache_step c o).
Proof.
  intros Hm Hc. destruct o as [key|exec partition entry gen|exec partition|exec|key seen]; simpl.
  - unfold win_lookup. destruct (entries c !! key) as [[a n]|] eqn:E; [|done].
    destruct Hc as [Hq He Hb]. split; [by eapply queue_inv_touch|done..].
  - destruct ((negb (gen =? generation c)) || (max_entries =? 0) ||
      (max_bytes <? saturating_add (accounted (deref entry)) (Z.of_nat (length exec)))) eqn:E.
    + unfold insert_if_current. by rewrite E.
    + apply orb_false_iff in E as [[E1 E2%Z.eqb_neq]%orb_false_iff E3%Z.ltb_ge].
      apply negb_false_iff, Z.eqb_eq in E1 as ->. by apply insert_if_current_admit; [|lia|].
  - apply remove_key_inv. by destruct Hc.
  - unfold clear_execution. assert (cache_inv (bump c)) as Hb by (by destruct Hc).
    revert Hb. generalize (bump c). intros c'. induction (filter _ _) as [|k l IH] in c' |- *; [done|].
    intros Hb. simpl. by apply IH, remove_key_inv.
  - unfold prune_one. destruct (entries c !! key) as [[a n]|]; [|done].
    destruct (addr a =? addr seen); [|done]. apply remove_key_inv. by destruct Hc.
Qed.

Lemma cache_run_inv c os : 0 ≤ max_entries → cache_inv c → cache_inv (cache_run c os).
Proof.
  intros Hm. induction os as [|o os IH] in c |- *; intros Hi; [done|]. by apply IH, cache_step_inv.
Qed.

Lemma cache_new_inv : 0 ≤ max_entries → cache_inv WindowPartitionCache_new.
Proof.
  intros Hm. split; simpl; [|by rewrite map_size_empty|lia]. split; simpl.
  - constructor.
  - intros k. rewrite lookup_empty. split; [by intros ?%elem_of_nil|by intros [? ?]].
  - by rewrite map_sum_empty.
  - intros k e. by rewrite lookup_empty.
  - done.
Qed.

(** Under any interleaving of the cache's critical sections, starting
    from an empty cache, the order queue lists the resident keys exactly once, the byte count is
    the sum of the resident entries, and neither the entry nor the byte cap is exceeded. *)
Theorem window_cache_bounded os :
  0 ≤ max_entries → cache_inv (cache_run WindowPartitionCache_new os).
Proof. intros Hm. by apply cache_run_inv, cache_new_inv. Qed.

(** A fill that is current and fits is resident afterwards, most recently
    used; what it displaced is a prefix of the least-recently-used order, and no shorter prefix
    would have made room. *)
Theorem window_cache_insert c exec partition entry :
  cache_inv c → 0 < max_entries →
  saturating_add (accounted (deref entry)) (Z.of_nat (length exec)) ≤ max_bytes →
  let key := (exec, partition) in
  let n := saturating_add (accounted (deref entry)) (Z.of_nat (length exec)) in
  let c' := insert_if_current accounted max_entries max_bytes c exec partition entry (generation c) in
  let ord := retain_ne key (order c) in
  let es := delete key (entries c) in
  (win_lookup c' key).1.1 = Some entry ∧
  ∃ i, order c' = drop i ord ++ [key] ∧
    (∀ k, k ≠ key → entries c' !! k = if decide (k ∈ drop i ord) then entries c !! k else None) ∧
    ∀ j, (j < i)%nat →
      must_evict max_entries max_bytes n (retained es ord j) (total (retained es ord j)) = true.
Proof.
  intros Hc Hm Hn key n c' ord es.
  destruct (insert_if_current_admit c exec partition entry Hc Hm Hn)
    as (_ & i & _ & He & Ho & Hmin). fold key n c' ord es in He, Ho, Hmin.
  split.
  - unfold win_lookup. by rewrite He, lookup_insert_eq.
  - exists i. split_and!; [done| |done]. intros k Hk. rewrite He, lookup_insert_ne by done.
    unfold retained. rewrite (lookup_filter_key (λ x : Key, x ∈ drop i ord)) by done.
    unfold es. by rewrite lookup_delete_ne.
Qed.

(** How many generations an operation advances. *)
Lemma remove_key_generation c key : generation (remove_key c key) = generation c.
Proof. unfold remove_key. by destruct (entries c !! key) as [[? ?]|]. Qed.

Lemma cache_step_generation c o :
  ∃ d, 0 ≤ d ≤ 1 ∧ generation (cache_step c o) mod 2 ^ 64 = (generation c + d) mod 2 ^ 64 ∧
    match o with OpRemove _ _ | OpClear _ => d = 1 | _ => True end.
Proof.
  assert (∀ c k, generation (remove_key (bump c) k) mod 2 ^ 64 = (generation c + 1) mod 2 ^ 64)
    as Hrem.
  { intros. rewrite remove_key_generation. simpl. unfold wrapping_add_u64. apply Zmod_mod. }
  destruct o as [key|exec partition entry gen|exec partition|exec|key seen]; simpl.
  - exists 0. rewrite Z.add_0_r. split_and!; [lia..| |done].
    unfold win_lookup. by destruct (entries c !! key) as [[? ?]|].
  - exists 0. rewrite Z.add_0_r. split_and!; [lia..| |done].
    unfold insert_if_current. case_match; [done|].
    destruct (evict _ _ _ _ _ _) as [[? ?] ?]. simpl. by rewrite remove_key_generation.
  - exists 1. split_and!; [lia..|apply Hrem|done].
  - exists 1. split_and!; [lia..| |done]. unfold clear_execution.
    assert (generation (bump c) mod 2 ^ 64 = (generation c + 1) mod 2 ^ 64) as <-
      by apply Zmod_mod.
    f_equal. generalize (bump c). intros c'. induction (filter _ _) as [|k l IH] in c' |- *; [done|].
    simpl. by rewrite IH, remove_key_generation.
  - unfold prune_one. destruct (entries c !! key) as [[a n]|];
      [destruct (addr a =? addr seen)|]; [exists 1|exists 0..]; rewrite ?Z.add_0_r;
      (split_and!; [lia..| |done]); [apply Hrem|done|done].
Qed.

Lemma cache_run_generation c os :
  ∃ d, 0 ≤ d ≤ Z.of_nat (length os) ∧
    generation (cache_run c os) mod 2 ^ 64 = (generation c + d) mod 2 ^ 64 ∧
    (Exists (λ o, match o with OpRemove _ _ | OpClear _ => True | _ => False end) os → 1 ≤ d).
Proof.
  induction os as [|o os IH] in c |- *.
  { exists 0. rewrite Z.add_0_r. split_and!; [done..|]. by intros ?%Exists_nil. }
  destruct (cache_step_generation c o) as (d1 & Hd1 & Hg1 & Hb1).
  destruct (IH (cache_step c o)) as (d2 & Hd2 & Hg2 & Hb2).
  exists (d1 + d2). cbn [length]. split_and!; [lia..| |].
  - unfold cache_run in *. simpl. rewrite Hg2.
    rewrite <- Zplus_mod_idemp_l, Hg1, Zplus_mod_idemp_l. f_equal. lia.
  - intros [Ho|Ho]%Exists_cons; [|specialize (Hb2 Ho); lia]. destruct o; naive_solver lia.
Qed.

(** A fill whose generation was read before a removal or a clear of any
    execution does nothing, whatever else ran in between (fewer than 2^64 operations). *)
Theorem stale_fill_refused c os exec partition entry :
  0 ≤ generation c < 2 ^ 64 → Z.of_nat (length os) < 2 ^ 64 →
  Exists (λ o, match o with OpRemove _ _ | OpClear _ => True | _ => False end) os →
  insert_if_current accounted max_entries max_bytes (cache_run c os) exec partition entry
    (generation c) = cache_run c os.
Proof.
  intros Hg Hl He. destruct (cache_run_generation c os) as (d & Hd & Hm & Hb).
  specialize (Hb He). unfold insert_if_current.
  destruct (Z.eqb_spec (generation c) (generation (cache_run c os))) as [E|E]; [|done].
  exfalso. rewrite <- E in Hm.
  assert (d mod 2 ^ 64 = 0) as Hd0.
  { replace d with (generation c + d - generation c) by lia.
    rewrite Zminus_mod, <- Hm, Z.sub_diag. done. }
  rewrite Z.mod_small in Hd0; lia.
Qed.

Lemma remove_key_entries c key : entries (remove_key c key) = delete key (entries c).
Proof.
  unfold remove_key. destruct (entries c !! key) as [[? ?]|] eqn:E; [done|]. simpl.
  by rewrite delete_id.
Qed.

Lemma prune_fold c (is_live : bytes → Z → bool) (l : list (Key * (Arc P * Z))) k :
  (∀ k e, (k, e) ∈ l → entries c !! k = Some e) → NoDup l.*1 →
  entries (foldl (λ c (e : Key * (Arc P * Z)),
    if is_live e.1.1 e.1.2 then c else prune_one c e.1 e.2.1) c l) !! k =
  if decide (k ∈ l.*1) then if is_live k.1 k.2 then entries c !! k else None
  else entries c !! k.
Proof.
  revert c. induction l as [|[k0 [a n]] l IH]; intros c Hl Hnd.
  { by rewrite decide_False by apply not_elem_of_nil. }
  simpl in Hnd. apply NoDup_cons in Hnd as [Hnin Hnd]. cbn [foldl fst snd].
  pose proof (Hl k0 (a, n) ltac:(by left)) as He.
  set (c1 := if is_live k0.1 k0.2 then c else prune_one c k0 a).
  assert (entries c1 = if is_live k0.1 k0.2 then entries c else delete k0 (entries c)) as Hc1.
  { unfold c1. destruct (is_live k0.1 k0.2); [done|]. unfold prune_one.
    by rewrite He, Z.eqb_refl, remove_key_entries. }
  rewrite IH; [|intros k' e Hin|done]; last first.
  { assert (k' ≠ k0) by (intros ->; apply Hnin, list_elem_of_fmap; by eexists (k0, e)).
    rewrite Hc1. destruct (is_live k0.1 k0.2); rewrite ?lookup_delete_ne by done;
      apply Hl; by right. }
  rewrite Hc1. cbn [fmap list_fmap fst]. destruct (decide (k = k0)) as [->|Hne].
  - rewrite decide_False by done. rewrite decide_True by (by left).
    destruct (is_live k0.1 k0.2); [done|]. by rewrite lookup_delete_eq.
  - rewrite elem_cons_ne by done. by destruct (is_live k0.1 k0.2); rewrite ?lookup_delete_ne by done.
Qed.

(** Without interference [prune] drops exactly the entries whose partition is gone
    from storage; under interference a turn of it never drops an entry that replaced the one it
    saw. *)
Theorem prune_exact c is_live :
  (∀ k, entries (prune c is_live) !! k = if is_live k.1 k.2 then entries c !! k else None) ∧
  (∀ os k e seen, entries (cache_run c os) !! k = Some e → addr e.1 ≠ addr seen →
     entries (prune_one (cache_run c os) k seen) !! k = Some e).
Proof.
  split.
  - intros k. unfold prune. rewrite prune_fold; [|by intros ? ? ?%elem_of_map_to_list|
      apply NoDup_fst_map_to_list].
    case_decide as Hk; [done|]. destruct (entries c !! k) as [e|] eqn:E; [|by destruct (is_live _ _)].
    exfalso. apply Hk, list_elem_of_fmap. exists (k, e). by rewrite elem_of_map_to_list.
  - intros os k e seen He Hne. unfold prune_one. rewrite He. destruct e as [a n].
    destruct (Z.eqb_spec (addr a) (addr seen)); [done|]. by rewrite He.
Qed.
End facts.

(** A cache of two entries and 20 bytes; partitions cost their own number. *)
Definition ex_ops : list (cache_op (P := Z)) :=
  [OpInsert [x01] 1 (mkArc 100 4) 0; OpInsert [x02] 1 (mkArc 101 4) 0; OpLookup ([x01], 1);
   OpInsert [x03] 1 (mkArc 102 4) 0].

Definition ex_cache : WindowInner Z := cache_run Z.abs 2 20 WindowPartitionCache_new ex_ops.

Lemma window_cache_bounded_witness : cache_inv 2 20 ex_cache.
Proof.
  apply (window_cache_bounded Z.abs 2 20 Z.abs_nonneg ltac:(unfold usize_max; lia) ex_ops
           ltac:(lia)).
Defined.

Lemma window_cache_insert_witness :
  (win_lookup (insert_if_current Z.abs 2 20 ex_cache [x04] 1 (mkArc 103 5) 0) ([x04], 1)).1.1 =
  Some (mkArc 103 5).
Proof.
  apply (window_cache_insert Z.abs 2 20 Z.abs_nonneg ltac:(unfold usize_max; lia) ex_cache
           [x04] 1 (mkArc 103 5)).
  - apply cache_run_inv, cache_new_inv; (apply Z.abs_nonneg || unfold usize_max; lia).
  - done.
  - vm_compute. done.
Defined.

Lemma stale_fill_refused_witness :
  insert_if_current Z.abs 2 20 (cache_run Z.abs 2 20 ex_cache [OpRemove [x01] 1]) [x01] 1
    (mkArc 104 3) 0 = cache_run Z.abs 2 20 ex_cache [OpRemove [x01] 1].
Proof.
  apply (stale_fill_refused Z.abs 2 20 ltac:(unfold usize_max; lia) ex_cache [OpRemove [x01] 1]
           [x01] 1 (mkArc 104 3)).
  - vm_compute. done.
  - done.
  - by constructor.
Defined.
