(* ===== verification/AggregateState.v ===== *)
(** Clients of the storage contract in [vgi/src/dispatch.rs]: the FINALIZE-flush
    drain, the aggregate handlers and the streaming state map.  Everything is
    verified against [StorageLaws], so it holds of every backend.  The worker's
    own aggregate functions and the Arrow IPC codec are parameters. *)
From S2P Require Import Prelude Codec StorageSpec StorageMemory.

Open Scope Z_scope.

(** * The FINALIZE flush *)

(** [b"_vgi/tio_finalize_flush"]. *)
Definition TIO_FINALIZE_NS : bytes := as_bytes "_vgi/tio_finalize_flush".

Inductive flush_error :=
| FlushRowsGone (remaining : Z)
| FlushDecode (msg : string)
| FlushNoCursor.

Module FinalizeFlush.
Section flush.
Context {St : Type} `{FunctionStorage St}.
Context {Batch : Type} (decode_finalize_batch : bytes → result Batch string).
(** [encode_resume_state] / [decode_resume_state]: the cursor codec. *)
Context (enc : bytes * Z * Z → bytes) (dec : bytes → option (bytes * Z * Z)).

Record FinalizeFlushProducer := mkProducer {
  scope : bytes;
  key : bytes;
  cursor : Z;
  remaining : Z;
}.

(** One turn of the drain: [Ok None] ends the stream. *)
Definition next_batch (store : St) (p : FinalizeFlushProducer)
  : result (option Batch) flush_error * FinalizeFlushProducer :=
  if remaining p <=? 0 then (Ok None, p)
  else
    match scan store (scope p) TIO_FINALIZE_NS (key p) (cursor p) 1 with
    | [] => (Err (FlushRowsGone (remaining p)), p)
    | (id, value) :: _ =>
        let p := mkProducer (scope p) (key p) id (remaining p - 1) in
        match decode_finalize_batch value with
        | Ok b => (Ok (Some b), p)
        | Err e => (Err (FlushDecode e), p)
        end
    end.

(** The producer [init] hands out after persisting [n] rows under [key]. *)
Definition producer_init (scope key : bytes) (n : nat) : FinalizeFlushProducer :=
  mkProducer scope key (-1) (Z.of_nat n).

(** [init]'s flush: persist every row, then drain from before the first. *)
Definition flush_init (store : St) (execution_id flush_key : bytes) (rows : list bytes)
  : FinalizeFlushProducer * St :=
  let '(_, store) := append_many store execution_id TIO_FINALIZE_NS flush_key rows in
  (producer_init execution_id flush_key (length rows), store).

Definition encode_resume (p : FinalizeFlushProducer) : bytes :=
  enc (key p, cursor p, remaining p).

Definition restore_resume (p : FinalizeFlushProducer) (token : bytes) : FinalizeFlushProducer :=
  match token with
  | [] => p
  | _ => match dec token with
         | Some (k, c, r) => mkProducer (scope p) k c r
         | None => p
         end
  end.

(** The continuation: rebuild the cursor from the token alone. *)
Definition rebuild (execution_id token : bytes) : result FinalizeFlushProducer flush_error :=
  let p := restore_resume (mkProducer execution_id [] (-1) 0) token in
  match key p with [] => Err FlushNoCursor | _ => Ok p end.

(** [n] turns, turn [i] served by whichever worker holds [stores i], each
    rebuilt from the token the one before minted. *)
Fixpoint drain (stores : nat → St) (n : nat) (p : FinalizeFlushProducer)
  : list (result (option Batch) flush_error) :=
  match n with
  | O => []
  | S n =>
      let '(r, p) := next_batch (stores O) p in
      r :: match rebuild (scope p) (encode_resume p) with
           | Ok p => drain (λ i, stores (S i)) n p
           | Err e => [Err e]
           end
  end.
End flush.
End FinalizeFlush.

Module FinalizeFlushFacts.
Import FinalizeFlush.
Section facts.
Context {St : Type} `{StorageLaws St}.
Context {Batch : Type} (decode : bytes → result Batch string).
Context (enc : bytes * Z * Z → bytes) (dec : bytes → option (bytes * Z * Z)).

(** What the drain needs of the cursor codec: a key and two [i64]s come back. *)
Definition resume_codec : Prop :=
  ∀ k c r, i64_range c → i64_range r → dec (enc (k, c, r)) = Some (k, c, r) ∧ enc (k, c, r) ≠ [].

Lemma rebuild_encode p :
  resume_codec → key p ≠ [] → i64_range (cursor p) → i64_range (remaining p) → rebuild dec (scope p) (encode_resume enc p) = Ok p.
Proof.
  intros Hc Hk Hcur Hrem. unfold rebuild, encode_resume, restore_resume.
  destruct (Hc (key p) (cursor p) (remaining p) Hcur Hrem) as [E Hne].
  destruct (enc (key p, cursor p, remaining p)) as [|b t]; [done|]. rewrite E.
  destruct p as [sc k c r]. simpl in *. by destruct k.
Qed.

Lemma filter_after_sorted (l1 l2 : log_rows) c :
  StronglySorted Z.lt (l1 ++ l2).*1 → Forall (λ e, e.1 ≤ c) l1 → Forall (λ e, c < e.1) l2 →
  filter (λ e, c < e.1) (l1 ++ l2) = l2.
Proof.
  intros Hs H1 H2. rewrite filter_app, list_filter_none, list_filter_all; [done|done|].
  eapply Forall_impl; [exact H1|]. simpl. lia.
Qed.

(** A turn from a cursor that has consumed [l1] emits the next row. *)
Lemma next_batch_row s sc k l1 id v l2 c :
  st_inv s → st_scope sc → v_log (st_view s) sc TIO_FINALIZE_NS k = l1 ++ (id, v) :: l2 →
  Forall (λ e, e.1 ≤ c) l1 → c < id →
  next_batch decode s (mkProducer sc k c (Z.of_nat (S (length l2)))) =
  (match decode v with Ok b => Ok (Some b) | Err e => Err (FlushDecode e) end,
   mkProducer sc k id (Z.of_nat (length l2))).
Proof.
  intros Hi Hsc Hl H1 Hc. unfold next_batch. cbn [remaining scope key cursor].
  destruct (Z.leb_spec (Z.of_nat (S (length l2))) 0); [lia|].
  pose proof (law_log_sorted s sc TIO_FINALIZE_NS k Hi Hsc) as Hs. rewrite Hl in Hs.
  rewrite law_scan, Hl by (done || lia).
  rewrite (filter_after_sorted l1 ((id, v) :: l2) c Hs H1); last first.
  { constructor; [done|]. rewrite fmap_app in Hs.
    apply StronglySorted_app_1_r in Hs. simpl in Hs. apply StronglySorted_cons in Hs as [Hf _].
    rewrite Forall_fmap in Hf. eapply Forall_impl; [exact Hf|]. simpl. lia. }
  cbn [take_z]. replace (Z.of_nat (S (length l2)) - 1) with (Z.of_nat (length l2)) by lia.
  simpl. by destruct (decode v).
Qed.

Definition turn_result (v : bytes) : result (option Batch) flush_error :=
  match decode v with Ok b => Ok (Some b) | Err e => Err (FlushDecode e) end.

Lemma drain_S stores n p r p' :
  resume_codec → next_batch decode (stores O) p = (r, p') → key p' ≠ [] → i64_range (cursor p') → i64_range (remaining p') →
  drain decode enc dec stores (S n) p = r :: drain decode enc dec (λ i, stores (S i)) n p'.
Proof. intros Hc E Hk ? ?. cbn [drain]. by rewrite E, rebuild_encode. Qed.

Lemma drain_from stores sc k l1 l2 c :
  resume_codec → k ≠ [] → st_scope sc →
  (∀ i, st_inv (stores i) ∧ v_log (st_view (stores i)) sc TIO_FINALIZE_NS k = l1 ++ l2) →
  Forall (λ e, e.1 ≤ c) l1 → Forall (λ e, c < e.1) l2 → Forall (λ e, e.1 < 2 ^ 63) l2 →
  -1 ≤ c < 2 ^ 63 → Z.of_nat (length l2) < 2 ^ 63 →
  drain decode enc dec stores (S (length l2)) (mkProducer sc k c (Z.of_nat (length l2))) =
  (turn_result <$> l2.*2) ++ [Ok None].
Proof.
  intros Hc Hk.
  revert stores l1 c. induction l2 as [|[id v] l2 IH]; intros stores l1 c Hsc Hst H1 H2 H3 Hcur Hlen.
  { cbn [length]. erewrite drain_S; try done; unfold i64_range; cbn [cursor remaining]; lia. }
  apply Forall_cons in H3 as [Hid H3]. assert (Hcid : c < id) by (by inversion H2). cbn [fst length] in *.
  destruct (Hst O) as [Hi Hl]. change (length ((id, v) :: l2)) with (S (length l2)).
  erewrite drain_S; [|done|apply (next_batch_row _ sc k l1 id v l2 c); done
                    |done|unfold i64_range; cbn [cursor remaining]; lia..].
  cbn [fmap list_fmap app snd]. unfold turn_result at 1. f_equal.
  apply (IH (λ i, stores (S i)) (l1 ++ [(id, v)])); [done| | | |done|lia|lia].
  - intros i. destruct (Hst (S i)) as [? Hl']. split; [done|]. by rewrite <- app_assoc.
  - apply Forall_app. split; [|repeat constructor; simpl; lia].
    inversion H2; simplify_eq/=. eapply Forall_impl; [exact H1|]. simpl; lia.
  - pose proof (law_log_sorted _ sc TIO_FINALIZE_NS k Hi Hsc) as Hs. rewrite Hl, fmap_app in Hs.
    apply StronglySorted_app_1_r in Hs. simpl in Hs. apply StronglySorted_cons in Hs as [Hf _].
    rewrite Forall_fmap in Hf. exact Hf.
Qed.

(** C29: Persisting a FINALIZE flush and draining it one scan per turn
    yields every batch exactly once, in order, and then ends, on any lawful backend, even when
    each turn is served by another worker that rebuilds its cursor from the continuation token,
    and other keys of the store change in between. *)
Theorem finalize_drain_exact s sc k rows stores :
  resume_codec → k ≠ [] → st_inv s → st_scope sc → st_room s (Z.of_nat (length rows)) →
  v_log (st_view s) sc TIO_FINALIZE_NS k = [] →
  let '(p, s1) := flush_init s sc k rows in
  (∀ i, st_inv (stores i) ∧
     v_log (st_view (stores i)) sc TIO_FINALIZE_NS k = v_log (st_view s1) sc TIO_FINALIZE_NS k) →
  drain decode enc dec stores (S (length rows)) p = (turn_result <$> rows) ++ [Ok None].
Proof.
  intros Hc Hk Hi Hsc Hr He. unfold flush_init.
  destruct (append_many s sc TIO_FINALIZE_NS k rows) as [ids s1] eqn:E.
  pose proof (law_room_i64 _ _ Hi Hr) as Hrows.
  eapply (law_append_many _ _ _ _ _ _ _ 0) in E as (Hi1 & Hlen & Hv1 & Hr1);
    [|done|done|done|by rewrite Z.add_0_r].
  assert (v_log (st_view s1) sc TIO_FINALIZE_NS k = zip ids rows) as Hl1.
  { by rewrite Hv1, abs_append_eq, He. }
  intros Hst. rewrite Hl1 in Hst.
  pose proof (law_log_nonneg s1 sc TIO_FINALIZE_NS k Hi1 Hsc) as Hn. rewrite Hl1 in Hn.
  pose proof (law_log_i64 s1 sc TIO_FINALIZE_NS k Hi1 Hsc Hr1) as Hb. rewrite Hl1 in Hb.
  assert (length (zip ids rows) = length rows) as Hlz by (rewrite length_zip; lia).
  pose proof (drain_from stores sc k [] (zip ids rows) (-1) Hc Hk Hsc Hst (Forall_nil_2 _)) as Hd.
  rewrite Hlz, snd_zip in Hd by lia. apply Hd; [|done|lia|done].
  eapply Forall_impl; [exact Hn|]. simpl. lia.
Qed.

(** While batches are still owed, a turn never reports the end
    of the stream: if storage has lost the rows past the cursor it is an error. *)
Theorem finalize_drain_never_short s p :
  st_inv s → st_scope (scope p) → 0 < remaining p →
  (next_batch decode s p).1 ≠ Ok None ∧
  (Forall (λ e, e.1 ≤ cursor p) (v_log (st_view s) (scope p) TIO_FINALIZE_NS (key p)) →
   next_batch decode s p = (Err (FlushRowsGone (remaining p)), p)).
Proof.
  intros Hi Hsc Hr. unfold next_batch. destruct (Z.leb_spec (remaining p) 0); [lia|].
  split.
  - destruct (scan _ _ _ _ _ _) as [|[id v] ?]; [done|]. by destruct (decode v).
  - intros Hf. rewrite law_scan, list_filter_none; [done| |done|done|lia].
    eapply Forall_impl; [exact Hf|]. simpl. lia.
Qed.
End facts.
End FinalizeFlushFacts.

(** A flush of two batches drained over three turns. *)
Definition flush_example : Inner :=
  (append_many MemoryStorage_new [x01] TIO_FINALIZE_NS [x02] [[x0a]; [x0b]]).2.

(** A cursor codec: the bits of stdpp's encoding. *)
Definition ex_enc (x : bytes * Z * Z) : bytes := pos_bytes (encode x).
Definition ex_dec (b : bytes) : option (bytes * Z * Z) := bytes_pos b ≫= decode.

Lemma ex_codec : FinalizeFlushFacts.resume_codec ex_enc ex_dec.
Proof.
  intros k c r _ _. unfold ex_enc, ex_dec.
  rewrite bytes_pos_bytes. split; [apply decode_encode|]. by destruct (encode (k, c, r)).
Qed.

Lemma finalize_drain_exact_witness :
  FinalizeFlush.drain (λ v, Ok v) ex_enc ex_dec (λ _, flush_example) 3
    (FinalizeFlush.flush_init MemoryStorage_new [x01] [x02] [[x0a]; [x0b]]).1 =
  [Ok (Some [x0a]); Ok (Some [x0b]); Ok None].
Proof.
  pose proof (FinalizeFlushFacts.finalize_drain_exact (St := Inner) (λ v, Ok v) ex_enc ex_dec
    MemoryStorage_new [x01] [x02] [[x0a]; [x0b]] (λ _, flush_example) ex_codec ltac:(done)
    mem_inv_new I ltac:(reflexivity) ltac:(reflexivity)) as H.
  apply H. intros i. split; [|reflexivity].
  eapply (law_append_many (St := Inner) MemoryStorage_new [x01] TIO_FINALIZE_NS [x02]
            [[x0a]; [x0b]] _ _ 0).
  - apply mem_inv_new.
  - done.
  - done.
  - reflexivity.
  - reflexivity.
Defined.

Lemma finalize_drain_never_short_witness :
  FinalizeFlush.next_batch (λ v, Ok v) MemoryStorage_new
    (FinalizeFlush.mkProducer [x01] [x02] 0 3) =
  (Err (FlushRowsGone 3) : result (option bytes) flush_error,
   FinalizeFlush.mkProducer [x01] [x02] 0 3).
Proof.
  pose proof (FinalizeFlushFacts.finalize_drain_never_short (St := Inner) (λ v : bytes, Ok v)
    MemoryStorage_new (FinalizeFlush.mkProducer [x01] [x02] 0 3) mem_inv_new I
    ltac:(reflexivity)) as [_ H].
  apply H. constructor.
Defined.

(** * The aggregate handlers *)

Inductive rpc_error :=
| TypeError (msg : string)
| RuntimeError (msg : string)
| FunctionError (msg : string)
| Panicked.

Definition GROUP_COLUMN_NAME : string := "__vgi_group_id".

(** An Arrow column as the handlers inspect it: the values of an [Int64Array],
    or any other array, which they only pass on. *)
Inductive Column (A : Type) :=
| Int64Array (values : list Z)
| OtherArray (a : A).
Arguments Int64Array {A} values.
Arguments OtherArray {A} a.

(** A [RecordBatch]: its named columns in order. *)
Abbreviation RecordBatch A := (list (string * Column A)).

Definition downcast_int64 {A} (c : Column A) : option (list Z) :=
  match c with Int64Array v => Some v | OtherArray _ => None end.

Definition column_by_name {A} (b : RecordBatch A) (name : string) : option (Column A) :=
  match list_find (λ c, c.1 = name) b with Some (_, (_, c)) => Some c | None => None end.

Definition split_group_ids {A} (b : RecordBatch A) : result (list Z * list (Column A)) rpc_error :=
  match list_find (λ c, c.1 = GROUP_COLUMN_NAME) b with
  | None => Err (TypeError "update batch missing group-id column")
  | Some (gidx, (_, c)) =>
      match downcast_int64 c with
      | None => Err (TypeError "group-id column not int64")
      | Some gids =>
          Ok (gids, snd <$> (take gidx b ++ drop (S gidx) b))
      end
  end.

(** The worker's own aggregate: the methods the handlers call.  [finalize]
    stands for [finalize_with_args] together with the decoding of the stashed
    bind arguments it is given. *)
Record AggregateFunction (A Out : Type) := mkAggregate {
  update : gmap Z bytes → list Z → list (Column A) → result (gmap Z bytes) rpc_error;
  combine : bytes → bytes → result bytes rpc_error;
  finalize : list Z → list (option bytes) → option bytes → result Out rpc_error;
}.
Arguments mkAggregate {A Out} _ _ _.
Arguments update {A Out} _ _ _ _.
Arguments combine {A Out} _ _ _.
Arguments finalize {A Out} _ _ _ _.

Definition AGGARGS : bytes := as_bytes "aggargs".

Module Aggregate.
Section handlers.
Context {St : Type} `{FunctionStorage St} {A Out : Type}.
Implicit Types (s : St) (f : AggregateFunction A Out) (exec : bytes).

Definition agg_key (gid : Z) : bytes := le_bytes 8 gid.

(** The pre-load loop: one read per row whose group has no entry yet. *)
Fixpoint preload s exec (gids : list Z) (states : gmap Z bytes) : gmap Z bytes * St :=
  match gids with
  | [] => (states, s)
  | gid :: gids =>
      match states !! gid with
      | Some _ => preload s exec gids states
      | None =>
          let '(r, s) := kv_get s exec (agg_key gid) in
          match r with
          | Some x => preload s exec gids (<[gid := x]> states)
          | None => preload s exec gids states
          end
      end
  end.

(** [for (gid, state) in states { kv_put }]. *)
Definition write_back s exec (states : list (Z * bytes)) : St :=
  foldl (λ s e, kv_put s exec (agg_key e.1) e.2) s states.

(** [handle_aggregate_bind] stashes the raw bind arguments under a fresh
    execution id. *)
Definition aggregate_bind_stash s exec (arguments : bytes) : St :=
  kv_put s exec AGGARGS arguments.

Definition handle_aggregate_update f s exec (batch : RecordBatch A)
  : result () rpc_error * St :=
  match split_group_ids batch with
  | Err e => (Err e, s)
  | Ok (gids, columns) =>
      let '(states, s) := preload s exec gids ∅ in
      match update f states gids columns with
      | Err e => (Err e, s)
      | Ok states => (Ok (), write_back s exec (map_to_list states))
      end
  end.

(** The merge loop over [(source, target)] rows. *)
Fixpoint combine_loop f s exec (src tgt : list Z) : result () rpc_error * St :=
  match src, tgt with
  | [], _ => (Ok (), s)
  | _ :: _, [] => (Err Panicked, s)
  | sg :: src, tg :: tgt =>
      let '(source, s) := kv_get s exec (agg_key sg) in
      let '(target, s) := kv_get s exec (agg_key tg) in
      match target, source with
      | None, None => combine_loop f s exec src tgt
      | Some t, None => combine_loop f (kv_put s exec (agg_key tg) t) exec src tgt
      | None, Some x => combine_loop f (kv_put s exec (agg_key tg) x) exec src tgt
      | Some t, Some x =>
          match combine f t x with
          | Err e => (Err e, s)
          | Ok m => combine_loop f (kv_put s exec (agg_key tg) m) exec src tgt
          end
      end
  end.

Definition handle_aggregate_combine f s exec (batch : RecordBatch A)
  : result () rpc_error * St :=
  match batch with
  | [] => (Err Panicked, s)
  | (_, c0) :: _ =>
      match downcast_int64 (default c0 (column_by_name batch "source_group_id")) with
      | None => (Err (TypeError "combine: source_group_id"), s)
      | Some src =>
          let tcol := match column_by_name batch "target_group_id" with
                      | Some c => Some c
                      | None => snd <$> batch !! 1%nat
                      end in
          match tcol ≫= downcast_int64 with
          | None => (Err (TypeError "combine: target_group_id"), s)
          | Some tgt => combine_loop f s exec src tgt
          end
      end
  end.

(** One read per requested group, in order. *)
Fixpoint load_states s exec (gids : list Z) : list (option bytes) * St :=
  match gids with
  | [] => ([], s)
  | gid :: gids =>
      let '(x, s) := kv_get s exec (agg_key gid) in
      let '(xs, s) := load_states s exec gids in
      (x :: xs, s)
  end.

Definition handle_aggregate_finalize f s exec (gid_batch : RecordBatch A)
  : result Out rpc_error * St :=
  match gid_batch with
  | [] => (Err Panicked, s)
  | (_, c) :: _ =>
      match downcast_int64 c with
      | None => (Err (TypeError "finalize: group_ids not int64"), s)
      | Some gids =>
          let '(states, s) := load_states s exec gids in
          let '(args, s) := kv_get s exec AGGARGS in
          (finalize f gids states args, s)
      end
  end.

Definition handle_aggregate_destructor s exec : St := clear s exec.
End handlers.
End Aggregate.

Module AggregateFacts.
Import Aggregate.

Lemma agg_key_inj g h : i64_range g → i64_range h → agg_key g = agg_key h → g = h.
Proof.
  intros Hg Hh E. apply (f_equal le_i64) in E. unfold agg_key in E.
  by rewrite !le_i64_bytes in E.
Qed.

Lemma agg_key_aggargs g : agg_key g ≠ AGGARGS.
Proof. intros E. apply (f_equal length) in E. done. Qed.

Section facts.
Context {St : Type} `{StorageLaws St} {A Out : Type}.
Implicit Types (s : St) (f : AggregateFunction A Out).

(** The per-group states an execution has in the store. *)
Definition agg_states s exec (g : Z) : option bytes := v_kv (st_view s) exec (agg_key g).

(** [s'] differs from [s] at most in the states of [exec]. *)
Definition same_but_states s s' exec : Prop :=
  st_inv s' ∧
  (∀ sc k, (sc ≠ exec ∨ ∀ g, k ≠ agg_key g) → v_kv (st_view s') sc k = v_kv (st_view s) sc k) ∧
  (∀ sc ns k, v_log (st_view s') sc ns k = v_log (st_view s) sc ns k) ∧
  (∀ sc, v_queue (st_view s') sc = v_queue (st_view s) sc).

Lemma same_but_states_refl s exec : st_inv s → same_but_states s s exec.
Proof. intros. unfold same_but_states. by split_and!. Qed.

Lemma same_but_states_trans s1 s2 s3 exec :
  same_but_states s1 s2 exec → same_but_states s2 s3 exec → same_but_states s1 s3 exec.
Proof.
  intros (?&Hk1&Hl1&Hq1) (?&Hk2&Hl2&Hq2). unfold same_but_states.
  split_and!; [done| intros; rewrite Hk2, Hk1 by done; done
              | intros; by rewrite Hl2 | intros; by rewrite Hq2].
Qed.

Lemma agg_get s exec g r s' :
  st_inv s → st_scope exec → kv_get s exec (agg_key g) = (r, s') →
  r = agg_states s exec g ∧ same_but_states s s' exec ∧
  (∀ h, agg_states s' exec h = agg_states s exec h).
Proof.
  intros Hi Hsc E. apply law_kv_get in E as (-> & Hi' & (Hk & Hl & Hq) & _); [|done..].
  unfold same_but_states. split_and!; try done.
  intros h. unfold agg_states. by rewrite Hk.
Qed.

Lemma agg_put s exec g x :
  st_inv s → st_scope exec → i64_range g →
  let s' := kv_put s exec (agg_key g) x in
  same_but_states s s' exec ∧
  (∀ h, i64_range h → agg_states s' exec h = if decide (h = g) then Some x else agg_states s exec h).
Proof.
  intros Hi Hsc Hg s'. destruct (law_kv_put s exec (agg_key g) x Hi Hsc) as (Hi' & (Hk & Hl & Hq) & _).
  fold s' in Hi', Hk, Hl, Hq. split.
  - unfold same_but_states. split_and!; [done| |done|done]. intros sc k Hne. rewrite Hk. apply abs_kv_set_ne.
    intros ?; simplify_eq. by destruct Hne as [?|Hne]; [|apply (Hne g)].
  - intros h Hh. unfold agg_states. rewrite Hk. case_decide as E.
    + subst. apply abs_kv_set_eq.
    + apply abs_kv_set_ne. intros Heq. apply (f_equal snd) in Heq. by apply E, agg_key_inj.
Qed.

Lemma preload_law s exec gids m m' s' :
  st_inv s → st_scope exec → preload s exec gids m = (m', s') →
  same_but_states s s' exec ∧ (∀ h, agg_states s' exec h = agg_states s exec h) ∧
  (∀ g, m' !! g = match m !! g with
                  | Some x => Some x
                  | None => if decide (g ∈ gids) then agg_states s exec g else None
                  end).
Proof.
  revert s m. induction gids as [|gid gids IH]; intros s m Hi Hsc E; cbn [preload] in E.
  { simplify_eq. split_and!; [by apply same_but_states_refl|done|].
    intros g. destruct (m' !! g); [done|]. by rewrite decide_False by apply not_elem_of_nil. }
  destruct (m !! gid) as [x|] eqn:Em.
  { apply IH in E as (Hs & Ha & Hm); [|done..]. split_and!; [done..|].
    intros g. rewrite Hm. destruct (m !! g) eqn:Eg; [done|].
    assert (g ≠ gid) by congruence. by rewrite elem_cons_ne. }
  destruct (kv_get s exec (agg_key gid)) as [r s1] eqn:E1.
  apply agg_get in E1 as (-> & Hs1 & Ha1); [|done..].
  destruct (agg_states s exec gid) as [x|] eqn:Ex;
    (apply IH in E as (Hs & Ha & Hm); [|by destruct Hs1|done]);
    (split_and!; [by eapply same_but_states_trans | intros; by rewrite Ha, Ha1 |]);
    intros g; rewrite Hm; destruct (decide (g = gid)) as [->|Hg].
  - by rewrite lookup_insert_eq, Em, decide_True by set_solver.
  - rewrite lookup_insert_ne by done. rewrite Ha1.
    by rewrite elem_cons_ne.
  - rewrite Em, Ha1, Ex. by repeat case_decide.
  - rewrite Ha1. by rewrite elem_cons_ne.
Qed.

Lemma write_back_law s exec (l : list (Z * bytes)) :
  st_inv s → st_scope exec → Forall (λ e, i64_range e.1) l → NoDup l.*1 →
  same_but_states s (write_back s exec l) exec ∧
  (∀ h, i64_range h → agg_states (write_back s exec l) exec h =
     match (list_to_map l : gmap Z bytes) !! h with
     | Some x => Some x
     | None => agg_states s exec h
     end).
Proof.
  revert s. induction l as [|[g x] l IH]; intros s Hi Hsc Hf Hnd.
  { split; [by apply same_but_states_refl|]. intros. by simpl. }
  apply Forall_cons in Hf as [Hg Hf]. apply NoDup_cons in Hnd as [Hnin Hnd].
  destruct (agg_put s exec g x Hi Hsc Hg) as [Hs1 Ha1].
  destruct (IH (kv_put s exec (agg_key g) x)) as [Hs2 Ha2]; [by destruct Hs1|done..|].
  split; [by eapply same_but_states_trans|]. intros h Hh. cbn [write_back foldl] in *.
  unfold write_back in Ha2. simpl. rewrite Ha2 by done.
  destruct (decide (h = g)) as [->|Hne].
  - rewrite lookup_insert_eq, not_elem_of_list_to_map_1 by done.
    rewrite Ha1 by done. by rewrite decide_True.
  - rewrite lookup_insert_ne by done. destruct (list_to_map l !! h); [done|].
    rewrite Ha1 by done. by rewrite decide_False.
Qed.

(** ** Fold-style aggregates *)

Context {Row : Type} (rows_of : list (Column A) → list Row)
  (step : option bytes → Row → option bytes).

(** The rows of group [g] in a batch, in order. *)
Definition group_rows (g : Z) (b : RecordBatch A) : list Row :=
  match split_group_ids b with
  | Ok (gids, cols) => snd <$> filter (λ e, e.1 = g) (zip gids (rows_of cols))
  | Err _ => []
  end.

(** An [update] that folds each row into its group's entry, creating the
    entry on the first row that contributes and never removing one. *)
Record is_fold (f : AggregateFunction A Out) : Prop := {
  fold_update states gids cols : length (rows_of cols) = length gids →
    ∃ states', update f states gids cols = Ok states' ∧
      ∀ g, states' !! g =
        foldl step (states !! g) (snd <$> filter (λ e, e.1 = g) (zip gids (rows_of cols)));
  fold_keeps x r : is_Some (step (Some x) r);
}.

(** [combine] merges what two folds produced; a row that starts no state
    changes none. *)
Record is_combine (f : AggregateFunction A Out) : Prop := {
  combine_fold l1 l2 t x :
    foldl step None l1 = Some t → foldl step None l2 = Some x →
    ∃ m, combine f t x = Ok m ∧ foldl step None (l1 ++ l2) = Some m;
  skip_row x r : step None r = None → step (Some x) r = Some x;
}.

Definition batch_ok (b : RecordBatch A) : Prop :=
  ∃ gids cols, split_group_ids b = Ok (gids, cols) ∧
    length (rows_of cols) = length gids ∧ Forall i64_range gids.

Lemma foldl_keeps f x l : is_fold f → is_Some (foldl step (Some x) l).
Proof.
  intros Hf. revert x. induction l as [|r l IH]; intros x; [by eexists|]. simpl.
  destruct (fold_keeps _ Hf x r) as [y ->]. apply IH.
Qed.

Lemma foldl_skip f x l :
  is_fold f → is_combine f → foldl step None l = None → foldl step (Some x) l = Some x.
Proof.
  intros Hf Hc. induction l as [|r l IH]; [done|]. simpl. intros E.
  destruct (step None r) as [y|] eqn:Er.
  - destruct (foldl_keeps f y l Hf) as [? Hy]. congruence.
  - rewrite (skip_row _ Hc) by done. by apply IH.
Qed.

Lemma group_rows_absent g gids (rows : list Row) :
  g ∉ gids → filter (λ e : Z * Row, e.1 = g) (zip gids rows) = [].
Proof.
  intros Hg. apply list_filter_none, Forall_forall. intros [g' r] Hin Heq. simpl in Heq. subst g'.
  by eapply Hg, elem_of_zip_l.
Qed.

Lemma update_law f s exec b :
  is_fold f → st_inv s → st_scope exec → batch_ok b →
  ∃ s', handle_aggregate_update f s exec b = (Ok (), s') ∧ same_but_states s s' exec ∧
    ∀ g, i64_range g → agg_states s' exec g = foldl step (agg_states s exec g) (group_rows g b).
Proof.
  intros Hf Hi Hsc (gids & cols & Hsp & Hlen & Hr). unfold handle_aggregate_update, group_rows.
  rewrite Hsp. destruct (preload s exec gids ∅) as [m s1] eqn:E1.
  apply preload_law in E1 as (Hs1 & Ha1 & Hm); [|done..].
  destruct (fold_update _ Hf m gids cols Hlen) as (m' & -> & Hm').
  assert (∀ g, g ∉ gids → m' !! g = None) as Hout.
  { intros g Hg. rewrite Hm', (group_rows_absent g) by done. simpl.
    by rewrite Hm, lookup_empty, decide_False. }
  destruct (write_back_law s1 exec (map_to_list m')) as [Hs2 Ha2].
  { by destruct Hs1. } { done. }
  { apply Forall_forall. intros [g x] Hin%elem_of_map_to_list. simpl.
    destruct (decide (g ∈ gids)) as [Hg|Hg]; [by eapply Forall_forall in Hr|].
    rewrite Hout in Hin; done. }
  { apply NoDup_fst_map_to_list. }
  eexists. split; [done|]. split; [by eapply same_but_states_trans|].
  intros g Hg. rewrite Ha2, list_to_map_to_list by done.
  destruct (decide (g ∈ gids)) as [Hin|Hin].
  - rewrite Hm'. rewrite Hm, lookup_empty, decide_True by done.
    destruct (foldl step _ _) as [y|] eqn:E; [done|]. rewrite Ha1.
    destruct (agg_states s exec g) as [z|] eqn:Ez; [|done].
    destruct (foldl_keeps f z (snd <$> filter (λ e, e.1 = g) (zip gids (rows_of cols))) Hf).
    congruence.
  - rewrite Hout, (group_rows_absent g) by done. simpl. apply Ha1.
Qed.

(** A worker's batches, in the order they arrive. *)
Fixpoint run_updates f s exec (bs : list (RecordBatch A)) : result () rpc_error * St :=
  match bs with
  | [] => (Ok (), s)
  | b :: bs =>
      match handle_aggregate_update f s exec b with
      | (Ok (), s) => run_updates f s exec bs
      | (Err e, s) => (Err e, s)
      end
  end.

Lemma run_updates_law f s exec bs :
  is_fold f → st_inv s → st_scope exec → Forall batch_ok bs →
  ∃ s', run_updates f s exec bs = (Ok (), s') ∧ same_but_states s s' exec ∧
    ∀ g, i64_range g →
      agg_states s' exec g = foldl step (agg_states s exec g) (bs ≫= group_rows g).
Proof.
  intros Hf. revert s. induction bs as [|b bs IH]; intros s Hi Hsc Hb.
  { exists s. split_and!; [done|by apply same_but_states_refl|done]. }
  apply Forall_cons in Hb as [Hb Hbs].
  destruct (update_law f s exec b Hf Hi Hsc Hb) as (s1 & E1 & Hs1 & Ha1).
  destruct (IH s1) as (s2 & E2 & Hs2 & Ha2); [by destruct Hs1|done..|].
  exists s2. cbn [run_updates]. rewrite E1. split_and!; [done|by eapply same_but_states_trans|].
  intros g Hg. rewrite Ha2, Ha1 by done. cbn [mbind list_bind]. by rewrite foldl_app.
Qed.

(** Merging partial states into one target is folding their rows after the
    target's own. *)
Lemma combine_into_law f s exec t (srcs : list Z) (rows : Z → list Row) acc :
  is_fold f → is_combine f → st_inv s → st_scope exec →
  i64_range t → Forall i64_range srcs → t ∉ srcs →
  agg_states s exec t = foldl step None acc →
  (∀ g, g ∈ srcs → agg_states s exec g = foldl step None (rows g)) →
  ∃ s', combine_loop f s exec srcs (replicate (length srcs) t) = (Ok (), s') ∧
    same_but_states s s' exec ∧
    agg_states s' exec t = foldl step None (acc ++ (srcs ≫= rows)).
Proof.
  intros Hf Hc. revert s acc. induction srcs as [|g srcs IH]; intros s acc Hi Hsc Ht Hr Hn Ha Hg.
  { exists s. cbn [mbind list_bind]. rewrite app_nil_r.
    split_and!; [done|by apply same_but_states_refl|done]. }
  apply Forall_cons in Hr as [Hrg Hr]. apply not_elem_of_cons in Hn as [Hne Hn].
  cbn [combine_loop length replicate].
  destruct (kv_get s exec (agg_key g)) as [source s1] eqn:E1.
  apply agg_get in E1 as (-> & Hs1 & Ha1); [|done..].
  destruct (kv_get s1 exec (agg_key t)) as [target s2] eqn:E2.
  apply agg_get in E2 as (-> & Hs2 & Ha2); [|by destruct Hs1|done].
  rewrite Ha1, Ha, (Hg g) by set_solver.
  assert (same_but_states s s2 exec) as Hs by (by eapply same_but_states_trans).
  cbn [mbind list_bind]. rewrite app_assoc.
  assert (∀ x, foldl step None (acc ++ rows g) = Some x →
    ∃ s', combine_loop f (kv_put s2 exec (agg_key t) x) exec srcs (replicate (length srcs) t) =
      (Ok (), s') ∧ same_but_states s s' exec ∧
      agg_states s' exec t = foldl step None ((acc ++ rows g) ++ (srcs ≫= rows))) as Hput.
  { intros x Hx. destruct (agg_put s2 exec t x) as [Hs3 Ha3]; [by destruct Hs|done..|].
    destruct (IH (kv_put s2 exec (agg_key t) x) (acc ++ rows g)) as (s' & E' & Hs' & Ha');
      [by destruct Hs3|done..| | |].
    - rewrite Ha3, decide_True by done. done.
    - intros h Hh. rewrite Ha3, decide_False; [|set_solver|by eapply Forall_forall in Hr].
      rewrite Ha2, Ha1. apply Hg. set_solver.
    - exists s'. split_and!; [done| |done].
      by eapply same_but_states_trans; [|eapply same_but_states_trans]. }
  destruct (foldl step None acc) as [y|] eqn:Ey, (foldl step None (rows g)) as [z|] eqn:Ez.
  - destruct (combine_fold _ Hc _ _ _ _ Ey Ez) as (m & -> & Hm). by apply Hput.
  - apply Hput. rewrite foldl_app, Ey. by apply (foldl_skip f).
  - apply Hput. by rewrite foldl_app, Ey.
  - destruct (IH s2 (acc ++ rows g)) as (s' & E' & Hs' & Ha'); [by destruct Hs|done..| | |].
    + rewrite Ha2, Ha1, Ha, foldl_app, Ey. done.
    + intros h Hh. rewrite Ha2, Ha1. apply Hg. set_solver.
    + exists s'. split_and!; [done|by eapply same_but_states_trans|done].
Qed.

Lemma load_states_law s exec gids xs s' :
  st_inv s → st_scope exec → load_states s exec gids = (xs, s') →
  same_but_states s s' exec ∧ xs = agg_states s exec <$> gids.
Proof.
  revert s xs. induction gids as [|g gids IH]; intros s xs Hi Hsc E; cbn [load_states] in E.
  { simplify_eq. by split; [apply same_but_states_refl|]. }
  destruct (kv_get s exec (agg_key g)) as [x s1] eqn:E1.
  destruct (load_states s1 exec gids) as [ys s2] eqn:E2. simplify_eq.
  apply agg_get in E1 as (-> & Hs1 & Ha1); [|done..].
  apply IH in E2 as (Hs2 & ->); [|by destruct Hs1|done].
  split; [by eapply same_but_states_trans|]. cbn. f_equal.
  apply list_fmap_ext. intros. by rewrite Ha1.
Qed.

Lemma bind_stash_law s exec arguments :
  st_inv s → st_scope exec →
  let s' := aggregate_bind_stash s exec arguments in
  st_inv s' ∧ v_kv (st_view s') exec AGGARGS = Some arguments ∧
  ∀ g, agg_states s' exec g = agg_states s exec g.
Proof.
  intros Hi Hsc. destruct (law_kv_put s exec AGGARGS arguments Hi Hsc) as (Hi' & (Hk & _) & _).
  unfold aggregate_bind_stash, agg_states. split_and!; [done| |].
  - rewrite Hk. apply abs_kv_set_eq.
  - intros g. rewrite Hk. apply abs_kv_set_ne. intros Heq. apply (f_equal snd) in Heq.
    by apply (agg_key_aggargs g).
Qed.

(** C8: Bind, any number of update batches, a merge of partial groups into
    a target and a finalize return, on any lawful backend, exactly [finalize] of the fold of the
    target's rows followed by the rows of every source group, with the arguments stashed at
    bind; how the rows were cut into batches does not matter, and a group whose rows never
    produced a state is finalized with none. *)
Theorem aggregate_end_to_end f s exec arguments bs t srcs :
  is_fold f → is_combine f → st_inv s → st_scope exec →
  (∀ g, agg_states s exec g = None) → Forall batch_ok bs →
  i64_range t → Forall i64_range srcs → t ∉ srcs →
  ∃ s1 s2 s3,
    run_updates f (aggregate_bind_stash s exec arguments) exec bs = (Ok (), s1) ∧
    handle_aggregate_combine f s1 exec
      [("source_group_id", Int64Array srcs);
       ("target_group_id", Int64Array (replicate (length srcs) t))]%string = (Ok (), s2) ∧
    handle_aggregate_finalize f s2 exec [("group_id", Int64Array [t])]%string =
      (finalize f [t]
         [foldl step None ((bs ≫= group_rows t) ++ (srcs ≫= λ g, bs ≫= group_rows g))]
         (Some arguments), s3).
Proof.
  intros Hf Hc Hi Hsc Hno Hb Ht Hr Hn.
  destruct (bind_stash_law s exec arguments Hi Hsc) as (Hi0 & Hargs & Hag0).
  destruct (run_updates_law f (aggregate_bind_stash s exec arguments) exec bs Hf Hi0 Hsc Hb)
    as (s1 & E1 & Hs1 & Ha1).
  assert (∀ g, i64_range g → agg_states s1 exec g = foldl step None (bs ≫= group_rows g)) as Ha1'.
  { intros g Hg. by rewrite Ha1, Hag0, Hno. }
  destruct (combine_into_law f s1 exec t srcs (λ g, bs ≫= group_rows g) (bs ≫= group_rows t))
    as (s2 & E2 & Hs2 & Ha2); [done|done|by destruct Hs1|done..|by apply Ha1'| |].
  { intros g Hg. apply Ha1'. by eapply Forall_forall in Hr. }
  destruct (load_states s2 exec [t]) as [xs s3] eqn:E3.
  destruct (kv_get s3 exec AGGARGS) as [a s4] eqn:E4.
  exists s1, s2, s4. split_and!; [done|exact E2|].
  unfold handle_aggregate_finalize, downcast_int64. rewrite E3, E4.
  apply load_states_law in E3 as [Hs3 ->]; [|by destruct Hs2|done].
  apply law_kv_get in E4 as (-> & _ & _ & _); [|by destruct Hs3|done].
  do 2 f_equal; [by simpl; rewrite Ha2|].
  assert (same_but_states (aggregate_bind_stash s exec arguments) s3 exec) as (_ & Hk & _)
    by (eapply same_but_states_trans; [done|]; by eapply same_but_states_trans).
  rewrite Hk; [done|]. right. intros g Heq. by apply (agg_key_aggargs g).
Qed.
End facts.
End AggregateFacts.

(** A [string_agg]-like aggregate over one byte column, for the witnesses. *)
Module ConcatAgg.
Definition rows_of (cols : list (Column bytes)) : list byte :=
  match cols with [OtherArray l] => l | _ => [] end.
Definition step (st : option bytes) (r : byte) : option bytes := Some (default [] st ++ [r]).
Definition upd (m : gmap Z bytes) (e : Z * byte) : gmap Z bytes :=
  <[e.1 := default [] (m !! e.1) ++ [e.2]]> m.
Definition agg : AggregateFunction bytes (list (option bytes)) :=
  mkAggregate (λ m gids cols, Ok (foldl upd m (zip gids (rows_of cols))))
    (λ t x, Ok (t ++ x)) (λ _ states _, Ok states).

Lemma agg_is_fold : AggregateFacts.is_fold rows_of step agg.
Proof.
  split; [|by intros; eexists]. intros m gids cols _. eexists. split; [reflexivity|].
  intros g. revert m. induction (zip gids (rows_of cols)) as [|[h r] l IH]; intros m; [done|].
  cbn [foldl]. rewrite IH. rewrite filter_cons. unfold upd. simpl.
  case_decide as Hg; simpl.
  - subst. by rewrite lookup_insert_eq.
  - by rewrite lookup_insert_ne.
Qed.

Lemma foldl_step x l : foldl step (Some x) l = Some (x ++ l).
Proof.
  revert x. induction l as [|r l IH]; intros x; simpl; [by rewrite app_nil_r|].
  unfold step at 2. rewrite IH. simpl. by rewrite <- app_assoc.
Qed.

Lemma agg_is_combine : AggregateFacts.is_combine step agg.
Proof.
  split; [|done]. intros l1 l2 t x H1 H2. exists (t ++ x). split; [done|].
  destruct l2 as [|r l2]; [done|]. rewrite foldl_app, H1. cbn [foldl] in *.
  unfold step at 2 in H2. unfold step at 2. rewrite foldl_step in *. simplify_eq/=.
  by rewrite <- app_assoc.
Qed.
End ConcatAgg.

(** Two batches over groups 1 and 2, merged into 1. *)
Lemma aggregate_end_to_end_witness :
  ∃ s1 s2 s3,
    AggregateFacts.run_updates ConcatAgg.agg
      (Aggregate.aggregate_bind_stash MemoryStorage_new [x01] [x07]) [x01]
      [[("__vgi_group_id", Int64Array [1; 2]); ("v", OtherArray [x0a; x0b])];
       [("v", OtherArray [x0c]); ("__vgi_group_id", Int64Array [2])]]%string = (Ok (), s1) ∧
    Aggregate.handle_aggregate_combine ConcatAgg.agg s1 [x01]
      [("source_group_id", Int64Array [2]); ("target_group_id", Int64Array [1])]%string
      = (Ok (), s2) ∧
    Aggregate.handle_aggregate_finalize ConcatAgg.agg s2 [x01]
      [("group_id", Int64Array [1])]%string = (Ok [Some [x0a; x0b; x0c]], s3).
Proof.
  pose proof (AggregateFacts.aggregate_end_to_end (St := Inner) ConcatAgg.rows_of ConcatAgg.step
    ConcatAgg.agg MemoryStorage_new [x01] [x07]
    [[("__vgi_group_id", Int64Array [1; 2]); ("v", OtherArray [x0a; x0b])];
     [("v", OtherArray [x0c]); ("__vgi_group_id", Int64Array [2])]]%string 1 [2]
    ConcatAgg.agg_is_fold ConcatAgg.agg_is_combine mem_inv_new I) as H.
  apply H.
  - reflexivity.
  - repeat constructor; eexists _, _; (split; [reflexivity|]); (split; [reflexivity|]);
      repeat constructor; by unfold i64_range.
  - by unfold i64_range.
  - repeat constructor; by unfold i64_range.
  - by intros ?%list_elem_of_singleton.
Defined.

(** * The streaming state map *)

Module StateMap.

(** [ser_state_map]: the entries in the order the hash map iterates them. *)
Definition ser_entry (e : bytes * bytes) : bytes :=
  le_bytes 8 (Z.of_nat (length e.1)) ++ e.1 ++ le_bytes 8 (Z.of_nat (length e.2)) ++ e.2.

Definition ser_state_map (m : list (bytes * bytes)) : bytes :=
  le_bytes 8 (Z.of_nat (length m)) ++ (m ≫= ser_entry).

(** [rd]: [n] bytes at [off]; [None] when the sum overflows [usize] or the
    slice is short. *)
Definition rd (b : bytes) (off n : Z) : option (bytes * Z) :=
  let end_ := off + n in
  if usize_max <? end_ then None
  else if Z.of_nat (length b) <? end_ then None
  else Some (take (Z.to_nat n) (drop (Z.to_nat off) b), end_).

Definition rd_len (b : bytes) (off : Z) : option (Z * Z) :=
  match rd b off 8 with Some (raw, off) => Some (le_val raw, off) | None => None end.

(** One turn of the decode loop. *)
Definition rd_entry (b : bytes) (off : Z) : option ((bytes * bytes) * Z) :=
  match rd_len b off with
  | None => None
  | Some (kl, off) =>
      match rd b off kl with
      | None => None
      | Some (k, off) =>
          match rd_len b off with
          | None => None
          | Some (vl, off) =>
              match rd b off vl with
              | None => None
              | Some (v, off) => Some ((k, v), off)
              end
          end
      end
  end.

(** [for _ in 0..count]: a turn that reads an entry consumes at least 16
    bytes, so [fuel] beyond the buffer's length is never reached. *)
Fixpoint de_loop (fuel : nat) (b : bytes) (off count : Z) (m : gmap bytes bytes) : gmap bytes bytes :=
  match fuel with
  | O => m
  | S fuel =>
      if count <=? 0 then m
      else match rd_entry b off with
           | None => m
           | Some ((k, v), off) => de_loop fuel b off (count - 1) (<[k := v]> m)
           end
  end.

Definition de_state_map (b : bytes) : gmap bytes bytes :=
  match rd_len b 0 with
  | None => ∅
  | Some (count, off) => de_loop (S (length b)) b off count ∅
  end.

Lemma rd_app pre x post :
  Z.of_nat (length (pre ++ x ++ post)) ≤ usize_max →
  rd (pre ++ x ++ post) (Z.of_nat (length pre)) (Z.of_nat (length x)) =
  Some (x, Z.of_nat (length (pre ++ x))).
Proof.
  intros Hl. rewrite !length_app in Hl. unfold rd. rewrite !length_app.
  destruct (Z.ltb_spec usize_max (Z.of_nat (length pre) + Z.of_nat (length x))); [lia|].
  destruct (Z.ltb_spec (Z.of_nat (length pre + (length x + length post)))
    (Z.of_nat (length pre) + Z.of_nat (length x))); [lia|].
  rewrite !Nat2Z.id, drop_app_length, take_app_length. do 2 f_equal. lia.
Qed.

Lemma rd_len_app pre n post :
  0 ≤ n < 2 ^ 64 → Z.of_nat (length (pre ++ le_bytes 8 n ++ post)) ≤ usize_max →
  rd_len (pre ++ le_bytes 8 n ++ post) (Z.of_nat (length pre)) =
  Some (n, Z.of_nat (length (pre ++ le_bytes 8 n))).
Proof.
  intros Hn Hl. unfold rd_len. pose proof (rd_app pre (le_bytes 8 n) post Hl) as E.
  change (Z.of_nat (length (le_bytes 8 n))) with 8 in E. rewrite E, le_val_bytes. do 2 f_equal. apply Z.mod_small. lia.
Qed.

Lemma rd_entry_app pre e post :
  Z.of_nat (length (pre ++ ser_entry e ++ post)) ≤ usize_max →
  rd_entry (pre ++ ser_entry e ++ post) (Z.of_nat (length pre)) =
  Some (e, Z.of_nat (length (pre ++ ser_entry e))).
Proof.
  destruct e as [k v]. unfold ser_entry, rd_entry. cbn [fst snd]. intros Hl.
  assert (0 ≤ Z.of_nat (length k) < 2 ^ 64 ∧ 0 ≤ Z.of_nat (length v) < 2 ^ 64) as [Hk Hv].
  { rewrite !length_app in Hl. unfold usize_max in Hl. lia. }
  set (lk := le_bytes 8 (Z.of_nat (length k))) in *.
  set (lv := le_bytes 8 (Z.of_nat (length v))) in *.
  rewrite <- !app_assoc in *. unfold lk at 1. rewrite rd_len_app by done. fold lk.
  rewrite (app_assoc pre lk) in *. rewrite rd_app by done.
  rewrite (app_assoc (pre ++ lk) k) in *. unfold lv at 1. rewrite rd_len_app by done. fold lv.
  rewrite (app_assoc ((pre ++ lk) ++ k) lv) in *. rewrite rd_app by done.
  rewrite !length_app. do 2 f_equal. lia.
Qed.

(** What a truncated buffer still yields is what the whole one yields. *)
Lemma rd_prefix p q off n x :
  0 ≤ off → 0 ≤ n → rd p off n = Some x → rd (p ++ q) off n = Some x ∧ 0 ≤ x.2.
Proof.
  intros Ho Hn. unfold rd. rewrite length_app. destruct (Z.ltb_spec usize_max (off + n)); [done|].
  destruct (Z.ltb_spec (Z.of_nat (length p)) (off + n)); [done|].
  destruct (Z.ltb_spec (Z.of_nat (length p + length q)) (off + n)); [lia|]. intros [= <-].
  split; [|simpl; lia]. do 2 f_equal.
  rewrite drop_app_le, take_app_le; [done|rewrite length_drop|]; lia.
Qed.

Lemma rd_len_prefix p q off x :
  0 ≤ off → rd_len p off = Some x → rd_len (p ++ q) off = Some x ∧ 0 ≤ x.1 ∧ 0 ≤ x.2.
Proof.
  intros Ho. unfold rd_len. destruct (rd p off 8) as [[raw o]|] eqn:E; [|done]. intros [= <-].
  destruct (rd_prefix p q off 8 _ Ho ltac:(lia) E) as [-> ?].
  pose proof (le_val_range raw). split_and!; [done|simpl; lia|done].
Qed.

Lemma rd_entry_prefix p q off x :
  0 ≤ off → rd_entry p off = Some x → rd_entry (p ++ q) off = Some x.
Proof.
  intros Ho. unfold rd_entry. destruct (rd_len p off) as [[kl o1]|] eqn:E1; [|done].
  apply (rd_len_prefix _ q) in E1 as (-> & ? & ?); [|done].
  destruct (rd p o1 kl) as [[k o2]|] eqn:E2; [|done].
  apply (rd_prefix _ q) in E2 as (-> & ?); [|done..].
  destruct (rd_len p o2) as [[vl o3]|] eqn:E3; [|done].
  apply (rd_len_prefix _ q) in E3 as (-> & ? & ?); [|done].
  destruct (rd p o3 vl) as [[v o4]|] eqn:E4; [|done].
  by apply (rd_prefix _ q) in E4 as (-> & ?).
Qed.

Definition ins (m : gmap bytes bytes) (e : bytes * bytes) : gmap bytes bytes := <[e.1 := e.2]> m.

Lemma ser_entry_length e : (16 ≤ length (ser_entry e))%nat.
Proof. unfold ser_entry. rewrite !length_app, !length_le_bytes. lia. Qed.

Lemma ser_entries_length l : (length l ≤ length (l ≫= ser_entry))%nat.
Proof.
  induction l as [|e l IH]; simpl; [lia|]. rewrite length_app.
  pose proof (ser_entry_length e). unfold mbind in IH. lia.
Qed.

Lemma de_loop_entries fuel pre l m :
  Z.of_nat (length (pre ++ (l ≫= ser_entry))) ≤ usize_max → (length l < fuel)%nat →
  de_loop fuel (pre ++ (l ≫= ser_entry)) (Z.of_nat (length pre)) (Z.of_nat (length l)) m =
  foldl ins m l.
Proof.
  revert fuel pre m. induction l as [|[k v] l IH]; intros fuel pre m Hl Hf;
    (destruct fuel as [|fuel]; [simpl in *; lia|]); [done|].
  cbn [mbind list_bind de_loop] in *.
  destruct (Z.leb_spec (Z.of_nat (length ((k, v) :: l))) 0) as [H|_]; [simpl in H; lia|].
  rewrite rd_entry_app by done. rewrite (app_assoc pre) in *.
  replace (Z.of_nat (length ((k, v) :: l)) - 1) with (Z.of_nat (length l)) by (simpl; lia).
  rewrite IH; [done|done|simpl in *; lia].
Qed.

Lemma de_loop_truncated fuel p q pre l m :
  p ++ q = pre ++ (l ≫= ser_entry) → Z.of_nat (length (p ++ q)) ≤ usize_max →
  ∃ l1 l2, l = l1 ++ l2 ∧
    de_loop fuel p (Z.of_nat (length pre)) (Z.of_nat (length l)) m = foldl ins m l1.
Proof.
  revert fuel pre m. induction l as [|[k v] l IH]; intros fuel pre m E Hl;
    (destruct fuel as [|fuel]; [by eexists [], _|]); [by exists [], []|].
  cbn [mbind list_bind de_loop] in *.
  destruct (Z.leb_spec (Z.of_nat (length ((k, v) :: l))) 0) as [H|_]; [simpl in H; lia|].
  destruct (rd_entry p (Z.of_nat (length pre))) as [[[k' v'] off]|] eqn:Er; [|by eexists [], _].
  apply (rd_entry_prefix _ q) in Er; [|lia]. rewrite E in Er, Hl.
  rewrite rd_entry_app in Er by done. simplify_eq. rewrite (app_assoc pre) in E.
  replace (Z.of_nat (length ((k', v') :: l)) - 1) with (Z.of_nat (length l)) by (simpl; lia).
  destruct (IH fuel (pre ++ ser_entry (k', v')) (<[k' := v']> m) E) as (l1 & l2 & -> & ->).
  { by rewrite E, <- app_assoc. }
  by exists ((k', v') :: l1), l2.
Qed.

Lemma foldl_ins_lookup l m k :
  foldl ins m l !! k = match (list_to_map (reverse l) : gmap bytes bytes) !! k with
                       | Some v => Some v | None => m !! k end.
Proof.
  revert m. induction l as [|[k' v] l IH]; intros m; [done|]. cbn [foldl]. rewrite IH.
  rewrite reverse_cons, list_to_map_app. unfold ins. simpl.
  destruct (list_to_map (reverse l) !! k) as [x|] eqn:E.
  - by rewrite (lookup_union_Some_l _ _ _ x).
  - rewrite lookup_union_r by done. destruct (decide (k = k')) as [->|].
    + by rewrite !lookup_insert_eq.
    + by rewrite !lookup_insert_ne, lookup_empty.
Qed.

Lemma foldl_ins_map l m : NoDup l.*1 → list_to_map l = m → foldl ins ∅ l = m.
Proof.
  intros Hnd <-. apply map_eq. intros k. rewrite foldl_ins_lookup, lookup_empty.
  rewrite (list_to_map_proper (reverse l) l).
  - by destruct (list_to_map l !! k).
  - by rewrite reverse_Permutation.
  - apply reverse_Permutation.
Qed.

Lemma rd_count l :
  Z.of_nat (length (ser_state_map l)) ≤ usize_max →
  rd_len (ser_state_map l) 0 =
  Some (Z.of_nat (length l), Z.of_nat (length (le_bytes 8 (Z.of_nat (length l))))).
Proof.
  unfold ser_state_map. intros Hl.
  assert (Z.of_nat (length l) < 2 ^ 64) as Hn.
  { pose proof (ser_entries_length l). rewrite length_app in Hl. unfold usize_max in Hl. lia. }
  exact (rd_len_app [] (Z.of_nat (length l)) (l ≫= ser_entry) ltac:(lia) Hl).
Qed.

(** Whatever order the hash map iterates in, decoding a serialized
    streaming state map gives back the map. *)
Theorem state_map_roundtrip m l :
  l ≡ₚ map_to_list m → Z.of_nat (length (ser_state_map l)) ≤ usize_max →
  de_state_map (ser_state_map l) = m.
Proof.
  intros Hp Hl. unfold de_state_map. rewrite rd_count by done. unfold ser_state_map in *.
  rewrite de_loop_entries; [|done|].
  - apply foldl_ins_map; [rewrite Hp; apply NoDup_fst_map_to_list|].
    rewrite (list_to_map_proper l (map_to_list m)); [apply list_to_map_to_list| |done].
    rewrite Hp. apply NoDup_fst_map_to_list.
  - rewrite length_app. pose proof (ser_entries_length l). lia.
Qed.

Lemma state_map_roundtrip_witness :
  de_state_map (ser_state_map [([x01], [x02; x03]); ([], [x04])]) =
  {[ [x01] := [x02; x03]; [] := [x04] ]}.
Proof.
  apply state_map_roundtrip.
  - apply (NoDup_Permutation); [| |].
    + repeat constructor; set_solver.
    + apply NoDup_map_to_list.
    + intros [k v]. rewrite elem_of_map_to_list, lookup_insert_Some, lookup_singleton_Some.
      set_solver.
  - vm_compute. done.
Defined.

(** Decoding any truncation of a serialized state map never invents or
    alters an entry: the result is part of the map that was written. *)
Theorem state_map_truncation m l p q :
  l ≡ₚ map_to_list m → p ++ q = ser_state_map l →
  Z.of_nat (length (ser_state_map l)) ≤ usize_max → de_state_map p ⊆ m.
Proof.
  intros Hp E Hl. unfold de_state_map.
  destruct (rd_len p 0) as [[count off]|] eqn:Er; [|apply map_empty_subseteq].
  apply (rd_len_prefix _ q) in Er as [Er _]; [|lia]. rewrite E, rd_count in Er by done.
  apply (inj Some), pair_eq in Er as [<- <-]. unfold ser_state_map in *. rewrite <- E in Hl.
  destruct (de_loop_truncated (S (length p)) p q _ l ∅ E Hl) as (l1 & l2 & -> & ->).
  apply map_subseteq_spec. intros k v Hk. rewrite foldl_ins_lookup, lookup_empty in Hk.
  destruct (list_to_map (reverse l1) !! k) eqn:Ek; simplify_eq.
  apply elem_of_list_to_map_2 in Ek.
  apply elem_of_map_to_list. rewrite <- Hp. apply elem_of_app. left.
  by apply elem_of_reverse.
Qed.

Lemma state_map_truncation_witness :
  de_state_map (take 20 (ser_state_map [([x01], [x02; x03])])) ⊆ {[ [x01] := [x02; x03] ]}.
Proof.
  apply (state_map_truncation _ [([x01], [x02; x03])] _
           (drop 20 (ser_state_map [([x01], [x02; x03])]))).
  - by rewrite map_to_list_singleton.
  - apply take_drop.
  - vm_compute. done.
Defined.
End StateMap.
