(* ===== verification/WindowHandlers.v ===== *)
(** The aggregate window handlers of [vgi/src/dispatch.rs]: publishing a
    partition, loading it through the cache, evaluating frames against it and
    destroying it.  The Arrow codec and the worker's window function are
    parameters. *)
From S2P Require Import Prelude StorageSpec StorageMemory WindowCache AggregateState.

Open Scope Z_scope.

(** [byte & (1 << (i % 8)) != 0] of the filter mask; a bit past its end is set. *)
Definition mask_bit (mask : bytes) (i : nat) : bool :=
  match mask !! (i / 8)%nat with
  | Some b => negb (Z.land (Z_of_byte b) (Z.shiftl 1 (Z.of_nat (i mod 8))) =? 0)
  | None => true
  end.

Section handlers.
Context {St : Type} `{FunctionStorage St}.
Context {Batch Schema Col : Type}.
Context (read_batch : bytes → result Batch rpc_error)
        (read_schema : bytes → result Schema rpc_error)
        (num_rows : Batch → nat).

Record CachedWindowPartition := mkPartition {
  partition : Batch;
  output_schema : Schema;
  mask : option (list bool);
}.

Context (accounted : CachedWindowPartition → Z) (max_entries max_bytes : Z).

(** The worker: its store, its cache and the address the next [Arc] gets. *)
Record Worker := mkWorker {
  store : St;
  window_partitions : WindowInner CachedWindowPartition;
  next_addr : Z;
}.

Definition win_key (partition_id : Z) (suffix : string) : bytes :=
  as_bytes ("win_" +:+ Z_to_string partition_id +:+ "_" +:+ suffix).

(** The snapshot loop of [prune], probing storage for each entry's schema. *)
Definition prune_completed_window_partitions (w : Worker) : Worker :=
  let '(s, c) :=
    foldl (λ sc e,
        let '(r, s) := kv_get sc.1 e.1.1 (win_key e.1.2 "o") in
        (s, match r with Some _ => sc.2 | None => prune_one sc.2 e.1 e.2.1 end))
      (store w, window_partitions w) (map_to_list (entries (window_partitions w))) in
  mkWorker s c (next_addr w).

Definition decode_window_partition (pb os : bytes) (mask : option bytes)
  : result CachedWindowPartition rpc_error :=
  match read_batch pb with
  | Err e => Err e
  | Ok partition =>
      match read_schema os with
      | Err e => Err e
      | Ok output_schema =>
          Ok (mkPartition partition output_schema
                match mask with
                | Some (b :: bs) => Some (mask_bit (b :: bs) <$> seq 0 (num_rows partition))
                | _ => None
                end)
      end
  end.

Definition handle_aggregate_window_init (w : Worker) (execution_id : bytes) (partition_id : Z)
    (partition_batch output_schema filter_mask : bytes) : result () rpc_error * Worker :=
  let w := prune_completed_window_partitions w in
  let '(generation, c) := win_remove (window_partitions w) execution_id partition_id in
  let w := mkWorker (store w) c (next_addr w) in
  match decode_window_partition partition_batch output_schema (Some filter_mask) with
  | Err e => (Err e, w)
  | Ok cached =>
      let arc := mkArc (next_addr w) cached in
      let s := kv_put (store w) execution_id (win_key partition_id "p") partition_batch in
      let s := kv_put s execution_id (win_key partition_id "o") output_schema in
      let s := match filter_mask with
               | [] => kv_del s execution_id (win_key partition_id "m")
               | _ => kv_put s execution_id (win_key partition_id "m") filter_mask
               end in
      (Ok (),
       mkWorker s (insert_if_current accounted max_entries max_bytes (window_partitions w)
                     execution_id partition_id arc generation) (next_addr w + 1))
  end.

(** The miss path of [load_window_partition]: read storage, decode, fill. *)
Definition fill_from_storage (w : Worker) (exec : bytes) (partition_id generation : Z)
  : result CachedWindowPartition rpc_error * Worker :=
  let c := window_partitions w in
  let '(pb, s) := kv_get (store w) exec (win_key partition_id "p") in
  match pb with
  | None => (Err (RuntimeError ("aggregate_window: unknown partition_id=" +:+
                    Z_to_string partition_id)), mkWorker s c (next_addr w))
  | Some pb =>
      let '(os, s) := kv_get s exec (win_key partition_id "o") in
      match os with
      | None => (Err (RuntimeError "aggregate_window: missing output schema"),
                 mkWorker s c (next_addr w))
      | Some os =>
          let '(mask, s) := kv_get s exec (win_key partition_id "m") in
          match decode_window_partition pb os mask with
          | Err e => (Err e, mkWorker s c (next_addr w))
          | Ok cached =>
              (Ok cached,
               mkWorker s (insert_if_current accounted max_entries max_bytes c exec partition_id
                             (mkArc (next_addr w) cached) generation) (next_addr w + 1))
          end
      end
  end.

Definition load_window_partition (w : Worker) (exec : bytes) (partition_id : Z)
  : result CachedWindowPartition rpc_error * Worker :=
  let '((cached, _), c) := win_lookup (window_partitions w) (exec, partition_id) in
  let w := mkWorker (store w) c (next_addr w) in
  match cached with
  | Some arc => (Ok (deref arc), w)
  | None =>
      let w := prune_completed_window_partitions w in
      let '((_, generation), c) := win_lookup (window_partitions w) (exec, partition_id) in
      fill_from_storage (mkWorker (store w) c (next_addr w)) exec partition_id generation
  end.

(** The worker's window function, and the output batch built of its column. *)
Context (window : Batch → Schema → list (list (Z * Z)) → option (list bool) → result Col rpc_error).

Definition handle_aggregate_window (w : Worker) (exec : bytes) (partition_id : Z)
    (frame_starts frame_ends : list Z) : result Col rpc_error * Worker :=
  let '(r, w) := load_window_partition w exec partition_id in
  match r with
  | Err e => (Err e, w)
  | Ok cached =>
      (window (partition cached) (output_schema cached) [zip frame_starts frame_ends] (mask cached), w)
  end.

(** [v.get(off).copied().unwrap_or(0)]. *)
Definition get_or_0 (v : list Z) (off : nat) : Z := default 0 (v !! off).

(** [x as usize] of an [i64]. *)
Definition as_usize (x : Z) : Z := x mod 2 ^ 64.

(** The sub-frames of one row: [n] pairs from [off] on. *)
Definition sub_frames (starts ends : list Z) (off n : nat) : list (Z * Z) :=
  (λ i, (get_or_0 starts i, get_or_0 ends i)) <$> seq off n.

(** Splitting the flattened arrays into per-row frame lists, rows [r ..]. *)
Fixpoint split_frames (rows : nat) (r : nat) (off : nat) (frames_per_row starts ends : list Z)
  : list (list (Z * Z)) :=
  match rows with
  | O => []
  | S rows =>
      let n := Z.to_nat (as_usize (get_or_0 frames_per_row r)) in
      sub_frames starts ends off n ::
      split_frames rows (S r) (off + n)%nat frames_per_row starts ends
  end.

Definition handle_aggregate_window_batch (w : Worker) (exec : bytes) (partition_id count : Z)
    (frames_per_row frame_starts frame_ends : list Z) : result Col rpc_error * Worker :=
  let '(r, w) := load_window_partition w exec partition_id in
  match r with
  | Err e => (Err e, w)
  | Ok cached =>
      (window (partition cached) (output_schema cached)
         (split_frames (Z.to_nat (as_usize count)) 0 0 frames_per_row frame_starts frame_ends)
         (mask cached), w)
  end.

Definition handle_aggregate_window_destructor (w : Worker) (exec : bytes) (partition_id : Z)
  : Worker :=
  let s := foldl (λ s sfx, kv_del s exec (win_key partition_id sfx)) (store w) ["p"; "o"; "m"]%string in
  let '(_, c) := win_remove (window_partitions w) exec partition_id in
  prune_completed_window_partitions (mkWorker s c (next_addr w)).

(** [handle_aggregate_destructor]: the whole execution. *)
Definition window_aggregate_destructor (w : Worker) (exec : bytes) : Worker :=
  mkWorker (clear (store w) exec) (clear_execution (window_partitions w) exec) (next_addr w).
End handlers.

(** * The cache is transparent *)

Lemma Z_to_string_inj x y : i64_range x → i64_range y → Z_to_string x = Z_to_string y → x = y.
Proof.
  intros Hx Hy E. apply (f_equal parse_i64) in E. rewrite !parse_i64_to_string in E by done.
  by simplify_eq.
Qed.

Lemma win_key_inj x y s t :
  i64_range x → i64_range y → String.length s = 1%nat → String.length t = 1%nat →
  win_key x s = win_key y t → x = y ∧ s = t.
Proof.
  intros Hx Hy Hs Ht E. unfold win_key in E. rewrite !as_bytes_app in E.
  apply (app_inj_1 _ _ _ _ eq_refl) in E as [_ E].
  apply (app_inj_2 (as_bytes (Z_to_string x)) (as_bytes (Z_to_string y))) in E as [Ez E];
    [|rewrite !length_app, !length_as_bytes; lia].
  apply (app_inj_1 _ _ _ _ eq_refl) in E as [_ E].
  split; [by apply Z_to_string_inj, as_bytes_inj|by apply as_bytes_inj].
Qed.

Section facts.
Context {St : Type} `{StorageLaws St}.
Context {Batch Schema Col : Type}.
Context (read_batch : bytes → result Batch rpc_error)
        (read_schema : bytes → result Schema rpc_error)
        (num_rows : Batch → nat)
        (accounted : CachedWindowPartition (Batch := Batch) (Schema := Schema) → Z)
        (max_entries max_bytes : Z).
Context (window : Batch → Schema → list (list (Z * Z)) → option (list bool) → result Col rpc_error).

Abbreviation worker := (Worker (St := St) (Batch := Batch) (Schema := Schema)).
Abbreviation decode_partition := (decode_window_partition read_batch read_schema num_rows).
Abbreviation load := (load_window_partition read_batch read_schema num_rows accounted max_entries max_bytes).
Abbreviation init := (handle_aggregate_window_init read_batch read_schema num_rows accounted max_entries max_bytes).
Abbreviation window_row := (handle_aggregate_window read_batch read_schema num_rows accounted max_entries max_bytes window).
Abbreviation window_rows := (handle_aggregate_window_batch read_batch read_schema num_rows accounted max_entries max_bytes window).

(** A partition read from storage alone. *)
Definition stored_partition (v : view) (exec : bytes) (pid : Z)
  : result CachedWindowPartition rpc_error :=
  match v_kv v exec (win_key pid "p") with
  | None => Err (RuntimeError ("aggregate_window: unknown partition_id=" +:+ Z_to_string pid))
  | Some pb =>
      match v_kv v exec (win_key pid "o") with
      | None => Err (RuntimeError "aggregate_window: missing output schema")
      | Some os => decode_partition pb os (v_kv v exec (win_key pid "m"))
      end
  end.

(** Every resident entry is what storage holds. *)
Definition coherent (w : worker) : Prop :=
  st_inv (store w) ∧
  ∀ exec pid e, entries (window_partitions w) !! (exec, pid) = Some e →
    st_scope exec ∧ i64_range pid ∧ stored_partition (st_view (store w)) exec pid = Ok (deref e.1).

Lemma stored_partition_proper v1 v2 exec pid :
  v1 ≡ v2 → stored_partition v1 exec pid = stored_partition v2 exec pid.
Proof. intros (Hk & _). unfold stored_partition. by rewrite !Hk. Qed.

Lemma stored_partition_live v exec pid p :
  stored_partition v exec pid = Ok p → is_Some (v_kv v exec (win_key pid "o")).
Proof.
  unfold stored_partition. destruct (v_kv v exec (win_key pid "p")); [|done].
  by destruct (v_kv v exec (win_key pid "o")).
Qed.

(** On a coherent worker the prune probes storage and drops nothing. *)
Lemma prune_coherent w :
  coherent w →
  let w' := prune_completed_window_partitions w in
  coherent w' ∧ window_partitions w' = window_partitions w ∧ next_addr w' = next_addr w ∧
  st_view (store w') ≡ st_view (store w).
Proof.
  intros [Hi Hc] w'. unfold w', prune_completed_window_partitions.
  assert (∀ l s c, st_inv s → st_view s ≡ st_view (store w) →
    (∀ k e, (k, e) ∈ l → entries (window_partitions w) !! k = Some e) →
    ∃ s', foldl (λ sc e, let '(r, s) := kv_get sc.1 e.1.1 (win_key e.1.2 "o") in
        (s, match r with Some _ => sc.2 | None => prune_one sc.2 e.1 e.2.1 end)) (s, c) l = (s', c)
      ∧ st_inv s' ∧ st_view s' ≡ st_view (store w)) as Hfold.
  { intros l. induction l as [|[[exec pid] e] l IH]; intros s c Hs Hv Hl; [by exists s|].
    cbn [foldl fst snd]. destruct (kv_get s exec (win_key pid "o")) as [r s1] eqn:E.
    destruct (Hc exec pid e) as (Hsc & _ & Hst); [apply Hl; by left|].
    apply law_kv_get in E as (-> & Hi1 & Hv1 & _); [|done..].
    assert (v_kv (st_view s) exec (win_key pid "o") = v_kv (st_view (store w)) exec (win_key pid "o"))
      as -> by apply Hv.
    destruct (stored_partition_live _ _ _ _ Hst) as [o ->].
    apply IH; [done|by rewrite Hv1|]. intros k e' Hin. apply Hl. by right. }
  destruct (Hfold (map_to_list (entries (window_partitions w))) (store w) (window_partitions w) Hi
    ltac:(done)) as (s' & -> & Hi' & Hv').
  { intros k e. apply elem_of_map_to_list. }
  simpl. split_and!; [|done..]. split; [done|]. simpl. intros exec pid e He.
  destruct (Hc exec pid e He) as (? & ? & ?). split_and!; [done..|].
  by rewrite (stored_partition_proper _ _ _ _ Hv').
Qed.

Lemma win_lookup_entries {Q : Type} (c : WindowInner Q) key :
  entries (win_lookup c key).2 = entries c ∧ (win_lookup c key).1.1 = fst <$> entries c !! key.
Proof. unfold win_lookup. by destruct (entries c !! key) as [[? ?]|]. Qed.

(** A worker whose entries are those of a coherent one, over an equal view. *)
Lemma coherent_ext w s c a :
  coherent w → st_inv s → st_view s ≡ st_view (store w) →
  (∀ k e, entries c !! k = Some e → entries (window_partitions w) !! k = Some e ∨
     st_scope k.1 ∧ i64_range k.2 ∧ stored_partition (st_view s) k.1 k.2 = Ok (deref e.1)) →
  coherent (mkWorker s c a).
Proof.
  intros [_ Hc] Hs Hv He. split; [done|]. simpl. intros exec pid e Hk.
  destruct (He _ _ Hk) as [Hk'|?]; [|done].
  destruct (Hc _ _ _ Hk') as (? & ? & ?). split_and!; [done..|].
  by rewrite (stored_partition_proper _ _ _ _ Hv).
Qed.

Lemma fill_coherent w exec pid gen :
  coherent w → st_scope exec → i64_range pid →
  let r := fill_from_storage read_batch read_schema num_rows accounted max_entries max_bytes
             w exec pid gen in
  r.1 = stored_partition (st_view (store w)) exec pid ∧ coherent r.2 ∧
  st_view (store r.2) ≡ st_view (store w).
Proof.
  intros Hco Hsc Hpid. unfold fill_from_storage. pose proof (proj1 Hco) as Hi.
  destruct (kv_get (store w) exec (win_key pid "p")) as [pb s3] eqn:E3.
  apply law_kv_get in E3 as (-> & Hi3 & Hv3 & _); [|done..].
  unfold stored_partition.
  destruct (v_kv (st_view (store w)) exec (win_key pid "p")) as [pb|] eqn:Ep;
    [|simpl; split_and!; [done|eapply coherent_ext; eauto|done]].
  destruct (kv_get s3 exec (win_key pid "o")) as [os s4] eqn:E4.
  apply law_kv_get in E4 as (-> & Hi4 & Hv4 & _); [|done..].
  assert (v_kv (st_view s3) exec (win_key pid "o") = v_kv (st_view (store w)) exec (win_key pid "o"))
    as -> by apply Hv3.
  assert (st_view s4 ≡ st_view (store w)) as Hv42 by (by rewrite Hv4).
  destruct (v_kv (st_view (store w)) exec (win_key pid "o")) as [os|] eqn:Eo;
    [|simpl; split_and!; [done|eapply coherent_ext; eauto|done]].
  destruct (kv_get s4 exec (win_key pid "m")) as [mk s5] eqn:E5.
  apply law_kv_get in E5 as (-> & Hi5 & Hv5 & _); [|done..].
  assert (st_view s5 ≡ st_view (store w)) as Hv52 by (by rewrite Hv5).
  assert (v_kv (st_view s4) exec (win_key pid "m") = v_kv (st_view (store w)) exec (win_key pid "m"))
    as -> by apply Hv42.
  destruct (decode_partition pb os _) as [cached|e] eqn:Ed; simpl;
    (split_and!; [done|eapply coherent_ext; eauto|done]).
  intros [ex p] e [[Heq ->]|?]%insert_if_current_entries; [right|by left]. simplify_eq/=.
  split_and!; [done..|]. rewrite (stored_partition_proper _ _ _ _ Hv52). unfold stored_partition.
  by rewrite Ep, Eo.
Qed.

(** Loading through the cache. *)
Lemma load_coherent w exec pid :
  coherent w → st_scope exec → i64_range pid →
  (load w exec pid).1 = stored_partition (st_view (store w)) exec pid ∧
  coherent (load w exec pid).2 ∧
  st_view (store (load w exec pid).2) ≡ st_view (store w).
Proof.
  intros Hco Hsc Hpid. unfold load_window_partition.
  pose proof (win_lookup_entries (window_partitions w) (exec, pid)) as [He1 Hl1].
  destruct (win_lookup (window_partitions w) (exec, pid)) as [[cached g1] c1]. simpl in He1, Hl1.
  assert (coherent (mkWorker (store w) c1 (next_addr w))) as Hco1.
  { eapply coherent_ext; [done|by destruct Hco|done|]. rewrite He1. by left. }
  destruct (entries (window_partitions w) !! (exec, pid)) as [[arc n]|] eqn:Ee;
    simpl in Hl1; subst cached.
  { simpl. split_and!; [|done..]. destruct Hco as [_ Hc]. by destruct (Hc _ _ _ Ee) as (_ & _ & ->). }
  destruct (prune_coherent _ Hco1) as (Hco2 & _ & _ & Hv2). simpl in Hv2.
  set (w2 := prune_completed_window_partitions (mkWorker (store w) c1 (next_addr w))) in *.
  pose proof (win_lookup_entries (window_partitions w2) (exec, pid)) as [He3 _].
  destruct (win_lookup (window_partitions w2) (exec, pid)) as [[cached3 g3] c3]. simpl in He3.
  assert (coherent (mkWorker (store w2) c3 (next_addr w2))) as Hco3.
  { eapply coherent_ext; [done|by destruct Hco2|done|]. rewrite He3. by left. }
  destruct (fill_coherent _ exec pid g3 Hco3 Hsc Hpid) as (-> & Hco4 & Hv4). simpl in Hv4 |- *.
  split_and!; [by apply stored_partition_proper|done|by rewrite Hv4].
Qed.

(** ** Publishing and destroying a partition *)

Definition win_get (s : St) (ex : bytes) (p : Z) (t : string) : option bytes :=
  v_kv (st_view s) ex (win_key p t).

(** [s'] is [s] with one window key of [exec] set to [x]. *)
Definition win_set (s s' : St) exec pid sfx (x : option bytes) : Prop :=
  st_inv s' ∧ ∀ ex p t, i64_range p → String.length t = 1%nat →
    win_get s' ex p t = if decide ((ex, p, t) = (exec, pid, sfx)) then x else win_get s ex p t.

Lemma win_set_intro s s' exec pid sfx x :
  st_inv s' → st_view s' ≡ abs_kv_set (st_view s) exec (win_key pid sfx) x →
  i64_range pid → String.length sfx = 1%nat → win_set s s' exec pid sfx x.
Proof.
  intros Hi (Hk & _) Hp Hs. split; [done|]. intros ex p t Hp' Ht. unfold win_get. rewrite Hk.
  case_decide as E.
  - simplify_eq. apply abs_kv_set_eq.
  - apply abs_kv_set_ne. intros Heq. apply E. apply pair_eq in Heq as [-> Heq].
    by apply win_key_inj in Heq as [-> ->].
Qed.

Lemma win_put s exec pid sfx x :
  st_inv s → st_scope exec → i64_range pid → String.length sfx = 1%nat →
  win_set s (kv_put s exec (win_key pid sfx) x) exec pid sfx (Some x).
Proof. intros Hi Hsc Hp Hs. destruct (law_kv_put s exec (win_key pid sfx) x Hi Hsc) as (?&?&_).
  by apply win_set_intro. Qed.

Lemma win_del s exec pid sfx :
  st_inv s → st_scope exec → i64_range pid → String.length sfx = 1%nat →
  win_set s (kv_del s exec (win_key pid sfx)) exec pid sfx None.
Proof. intros Hi Hsc Hp Hs. destruct (law_kv_del s exec (win_key pid sfx) Hi Hsc) as (?&?&_).
  by apply win_set_intro. Qed.

(** Three keys of one partition set, every other partition left as it was. *)
Lemma win_set3 s s1 s2 s3 exec pid a b c :
  win_set s s1 exec pid "p" a → win_set s1 s2 exec pid "o" b → win_set s2 s3 exec pid "m" c →
  i64_range pid →
  st_inv s3 ∧
  (win_get s3 exec pid "p" = a ∧ win_get s3 exec pid "o" = b ∧ win_get s3 exec pid "m" = c) ∧
  (∀ ex p, i64_range p → (ex, p) ≠ (exec, pid) →
     stored_partition (st_view s3) ex p = stored_partition (st_view s) ex p).
Proof.
  intros [_ H1] [_ H2] [Hi H3] Hp. split; [done|]. split.
  - rewrite !H3, !H2, !H1 by done. split_and!; repeat case_decide; congruence.
  - intros ex p Hp' Hne. unfold stored_partition.
    assert (∀ t, String.length t = 1%nat →
      v_kv (st_view s3) ex (win_key p t) = v_kv (st_view s) ex (win_key p t)) as E.
    { intros t Ht. fold (win_get s3 ex p t) (win_get s ex p t). rewrite H3, H2, H1 by done.
      repeat case_decide; congruence. }
    by rewrite !E.
Qed.

Lemma coherent_change w s c a exec pid :
  coherent w → st_inv s →
  (∀ ex p, i64_range p → (ex, p) ≠ (exec, pid) →
     stored_partition (st_view s) ex p = stored_partition (st_view (store w)) ex p) →
  (∀ ex p e, entries c !! (ex, p) = Some e →
     ((ex, p) ≠ (exec, pid) ∧ entries (window_partitions w) !! (ex, p) = Some e) ∨
     (st_scope ex ∧ i64_range p ∧ stored_partition (st_view s) ex p = Ok (deref e.1))) →
  coherent (mkWorker s c a).
Proof.
  intros [_ Hc] Hs Hst He. split; [done|]. simpl. intros ex p e Hk.
  destruct (He _ _ _ Hk) as [[Hne Hk']|?]; [|done].
  destruct (Hc _ _ _ Hk') as (? & ? & ?). split_and!; [done..|]. by rewrite Hst.
Qed.

Lemma win_remove_entries (c : WindowInner CachedWindowPartition) exec pid :
  entries (win_remove (P := CachedWindowPartition (Batch := Batch) (Schema := Schema)) c exec pid).2
  = delete (exec, pid) (entries c).
Proof. simpl. rewrite remove_key_entries. done. Qed.

Lemma init_coherent w exec pid pb os fm :
  coherent w → st_scope exec → i64_range pid →
  coherent (init w exec pid pb os fm).2 ∧
  ((init w exec pid pb os fm).1 = Ok () →
   stored_partition (st_view (store (init w exec pid pb os fm).2)) exec pid =
   decode_partition pb os (Some fm)).
Proof.
  intros Hco Hsc Hp. unfold handle_aggregate_window_init.
  destruct (prune_coherent _ Hco) as (Hco1 & _ & _ & _).
  set (w1 := prune_completed_window_partitions w) in *.
  pose proof (win_remove_entries (window_partitions w1) exec pid) as He.
  destruct (win_remove (window_partitions w1) exec pid) as [g c]. simpl in He |- *.
  pose proof (proj1 Hco1) as Hi.
  destruct (decode_partition pb os (Some fm)) as [cached|e] eqn:Ed; simpl; last first.
  { split; [|done]. eapply coherent_ext; [done..|]. rewrite He. simpl.
    intros k e0 [_ ?]%lookup_delete_Some. by left. }
  pose proof (win_put (store w1) exec pid "p" pb Hi Hsc Hp eq_refl) as H1.
  pose proof (win_put _ exec pid "o" os (proj1 H1) Hsc Hp eq_refl) as H2.
  set (s2 := kv_put (kv_put _ _ _ _) _ _ _) in *.
  set (s3 := match fm with [] => _ | _ => _ end).
  assert (win_set s2 s3 exec pid "m" (match fm with [] => None | _ => Some fm end)) as H3.
  { unfold s3. destruct fm; [apply win_del|apply win_put]; (done || apply (proj1 H2)). }
  destruct (win_set3 _ _ _ _ _ _ _ _ _ H1 H2 H3 Hp) as (Hi3 & (Ep & Eo & Em) & Hother).
  assert (stored_partition (st_view s3) exec pid = Ok cached) as Hst.
  { unfold stored_partition. fold (win_get s3 exec pid "p") (win_get s3 exec pid "o").
    fold (win_get s3 exec pid "m"). rewrite Ep, Eo, Em, <- Ed. by destruct fm. }
  split; [|by intros _].
  eapply (coherent_change w1 s3 _ _ exec pid); [done..|].
  intros ex p e [[Heq ->]|Hk]%insert_if_current_entries; [right; by simplify_eq/=|left].
  rewrite He in Hk. simpl in Hk. apply lookup_delete_Some in Hk as [? ?]. by split.
Qed.

Lemma window_destructor_coherent w exec pid :
  coherent w → st_scope exec → i64_range pid →
  coherent (handle_aggregate_window_destructor w exec pid) ∧
  is_ok (stored_partition (st_view (store (handle_aggregate_window_destructor w exec pid))) exec pid)
    = false.
Proof.
  intros Hco Hsc Hp. unfold handle_aggregate_window_destructor.
  pose proof (win_remove_entries (window_partitions w) exec pid) as He.
  destruct (win_remove (window_partitions w) exec pid) as [g c]. simpl in He. cbn [foldl].
  pose proof (win_del (store w) exec pid "p" (proj1 Hco) Hsc Hp eq_refl) as H1.
  pose proof (win_del _ exec pid "o" (proj1 H1) Hsc Hp eq_refl) as H2.
  pose proof (win_del _ exec pid "m" (proj1 H2) Hsc Hp eq_refl) as H3.
  destruct (win_set3 _ _ _ _ _ _ _ _ _ H1 H2 H3 Hp) as (Hi3 & (Ep & _) & Hother).
  match type of Hi3 with st_inv ?s => set (s3 := s) in * end.
  assert (coherent (mkWorker s3 c (next_addr w))) as Hco3.
  { eapply (coherent_change w s3 _ _ exec pid); [done..|].
    intros ex p e Hk. rewrite He in Hk. simpl in Hk. apply lookup_delete_Some in Hk as [? ?]. by left. }
  destruct (prune_coherent _ Hco3) as (? & _ & _ & Hv). split; [done|].
  rewrite (stored_partition_proper _ _ _ _ Hv). simpl. unfold stored_partition.
  fold (win_get s3 exec pid "p"). by rewrite Ep.
Qed.

Lemma clear_execution_entries {Q : Type} (c : WindowInner Q) exec k e :
  entries (clear_execution c exec) !! k = Some e → k.1 ≠ exec ∧ entries c !! k = Some e.
Proof.
  unfold clear_execution. set (c1 := bump c).
  assert (∀ l c', entries (foldl remove_key c' l) !! k = Some e →
    k ∉ l ∧ entries c' !! k = Some e) as Hf.
  { induction l as [|k0 l IH]; intros c' Hk; [split; [apply not_elem_of_nil|done]|].
    simpl in Hk. apply IH in Hk as [Hn Hk]. rewrite remove_key_entries in Hk.
    apply lookup_delete_Some in Hk as [? ?]. split; [|done]. by apply not_elem_of_cons. }
  intros [Hn Hk]%Hf. split; [|done]. intros Hexec. apply Hn. apply list_elem_of_filter.
  split; [done|]. apply list_elem_of_fmap. exists (k, e). split; [done|].
  by apply elem_of_map_to_list.
Qed.

Lemma destructor_coherent w exec :
  coherent w → st_scope exec → coherent (window_aggregate_destructor w exec).
Proof.
  intros [Hi Hc] Hsc. unfold window_aggregate_destructor.
  destruct (law_clear (store w) exec Hi Hsc) as (Hi' & (Hk & _) & _).
  split; [done|]. simpl. intros ex p e [Hne He]%clear_execution_entries. simpl in Hne.
  destruct (Hc _ _ _ He) as (? & ? & Hst). split_and!; [done..|]. rewrite <- Hst.
  assert (∀ k, v_kv (st_view (clear (store w) exec)) ex k = v_kv (st_view (store w)) ex k) as E.
  { intros k. rewrite Hk. simpl. by rewrite decide_False. }
  unfold stored_partition. by rewrite !E.
Qed.

(** ** Any sequence of window calls *)

Inductive win_call :=
| CallInit (exec : bytes) (pid : Z) (pb os fm : bytes)
| CallWindow (exec : bytes) (pid : Z) (starts ends : list Z)
| CallBatch (exec : bytes) (pid count : Z) (fpr starts ends : list Z)
| CallDestroyPartition (exec : bytes) (pid : Z)
| CallDestroy (exec : bytes).

Definition call_ok (x : win_call) : Prop :=
  match x with
  | CallInit exec pid _ _ _ | CallWindow exec pid _ _ | CallBatch exec pid _ _ _ _
  | CallDestroyPartition exec pid => st_scope exec ∧ i64_range pid
  | CallDestroy exec => st_scope exec
  end.

Definition win_step (w : worker) (x : win_call) : worker :=
  match x with
  | CallInit exec pid pb os fm => (init w exec pid pb os fm).2
  | CallWindow exec pid starts ends => (window_row w exec pid starts ends).2
  | CallBatch exec pid count fpr starts ends => (window_rows w exec pid count fpr starts ends).2
  | CallDestroyPartition exec pid => handle_aggregate_window_destructor w exec pid
  | CallDestroy exec => window_aggregate_destructor w exec
  end.

Lemma win_step_coherent w x : coherent w → call_ok x → coherent (win_step w x).
Proof.
  intros Hco Hx. destruct x as [exec pid pb os fm|exec pid st en|exec pid n fpr st en|exec pid|exec];
    simpl in *.
  - by apply init_coherent; destruct Hx.
  - destruct (load_coherent w exec pid Hco) as (_ & Hc & _); [by destruct Hx..|].
    unfold handle_aggregate_window. destruct (load w exec pid) as [[c|e] w']; done.
  - destruct (load_coherent w exec pid Hco) as (_ & Hc & _); [by destruct Hx..|].
    unfold handle_aggregate_window_batch. destruct (load w exec pid) as [[c|e] w']; done.
  - by apply window_destructor_coherent; destruct Hx.
  - by apply destructor_coherent.
Qed.

(** C7: After any sequence of window calls, evaluating frames through the
    cache gives exactly the answer, or the error, that decoding the partition from storage gives:
    evictions, oversized entries, refused fills and pruning never show. *)
Theorem window_cache_transparent s calls exec pid count fpr starts ends :
  st_inv s → Forall call_ok calls → st_scope exec → i64_range pid →
  let w := foldl win_step (mkWorker s WindowPartitionCache_new 0) calls in
  (window_rows w exec pid count fpr starts ends).1 =
  (let? p := stored_partition (st_view (store w)) exec pid in
   window (partition p) (output_schema p)
     (split_frames (Z.to_nat (as_usize count)) 0 0 fpr starts ends) (mask p)).
Proof.
  intros Hi Hcs Hsc Hp w.
  assert (coherent w) as Hco.
  { unfold w. assert (coherent (mkWorker s WindowPartitionCache_new 0)) as Hw0.
    { split; [done|]. simpl. intros ex p e. by rewrite lookup_empty. }
    revert Hw0. generalize (mkWorker s (WindowPartitionCache_new (P :=
      CachedWindowPartition (Batch := Batch) (Schema := Schema))) 0).
    clear w. induction Hcs as [|x calls Hx _ IH]; intros w0 Hw0; [done|].
    simpl. apply IH. by apply win_step_coherent. }
  destruct (load_coherent w exec pid Hco Hsc Hp) as (Hl & _ & _).
  unfold handle_aggregate_window_batch. destruct (load w exec pid) as [r w'].
  simpl in Hl. subst r. by destruct (stored_partition _ exec pid).
Qed.

(** A partition that was published can be evaluated at once and on the
    data that was sent, with the filter mask's bits; once destroyed it is an error. *)
Theorem window_init_then_read w exec pid pb os fm p starts ends :
  coherent w → st_scope exec → i64_range pid → decode_partition pb os (Some fm) = Ok p →
  let w1 := (init w exec pid pb os fm).2 in
  (init w exec pid pb os fm).1 = Ok () ∧
  (window_row w1 exec pid starts ends).1 =
    window (partition p) (output_schema p) [zip starts ends] (mask p) ∧
  is_ok (window_row (handle_aggregate_window_destructor w1 exec pid) exec pid starts ends).1 = false.
Proof.
  intros Hco Hsc Hp Hd w1.
  assert ((init w exec pid pb os fm).1 = Ok ()) as Hok.
  { unfold handle_aggregate_window_init. destruct (win_remove _ _ _). by rewrite Hd. }
  destruct (init_coherent w exec pid pb os fm Hco Hsc Hp) as [Hco1 Hst].
  specialize (Hst Hok). fold w1 in Hco1, Hst.
  destruct (window_destructor_coherent w1 exec pid Hco1 Hsc Hp) as [Hco2 Hgone].
  split_and!; [done| |]; unfold handle_aggregate_window.
  - destruct (load_coherent w1 exec pid Hco1 Hsc Hp) as (Hl & _ & _).
    destruct (load w1 exec pid) as [r w']. simpl in Hl. by rewrite Hl, Hst, Hd.
  - destruct (load_coherent _ exec pid Hco2 Hsc Hp) as (Hl & _ & _).
    destruct (load _ exec pid) as [r w']. simpl in Hl. rewrite <- Hl in Hgone. by destruct r.
Qed.
End facts.

Lemma sub_frames_zip starts ends off n :
  length starts = length ends → (off + n ≤ length starts)%nat →
  sub_frames starts ends off n = take n (drop off (zip starts ends)).
Proof.
  intros Hl Hn. apply list_eq. intros i. unfold sub_frames.
  destruct (decide (i < n)%nat) as [Hi|Hi].
  - rewrite list_lookup_fmap, lookup_seq_lt by done. simpl.
    rewrite lookup_take_lt, lookup_drop by done.
    destruct (lookup_lt_is_Some_2 starts (off + i)) as [a Ha]; [lia|].
    destruct (lookup_lt_is_Some_2 ends (off + i)) as [b Hb]; [lia|].
    unfold get_or_0. rewrite Ha, Hb. symmetry. apply lookup_zip_with_Some. eauto.
  - rewrite (lookup_ge_None_2 (_ <$> _)) by (rewrite length_fmap, length_seq; lia).
    symmetry. apply lookup_ge_None_2. rewrite length_take. lia.
Qed.

Lemma split_frames_from done_ rest starts ends off :
  length starts = length ends → Forall (λ n, 0 ≤ n < 2 ^ 63) rest →
  Z.of_nat off + foldr Z.add 0 rest = Z.of_nat (length starts) →
  let frames := split_frames (length rest) (length done_) off (done_ ++ rest) starts ends in
  concat frames = drop off (zip starts ends) ∧ (Z.of_nat ∘ length <$> frames) = rest.
Proof.
  intros Hl. induction rest as [|n rest IH] in done_, off |- *; intros Hr Hs frames.
  { unfold frames. simpl. split; [|done]. symmetry. apply drop_ge.
    rewrite length_zip. simpl in Hs. lia. }
  apply Forall_cons in Hr as [Hn Hr]. unfold frames. cbn [length split_frames].
  assert (get_or_0 (done_ ++ n :: rest) (length done_) = n) as ->
    by (unfold get_or_0; by rewrite list_lookup_middle).
  assert (as_usize n = n) as -> by (apply Z.mod_small; lia).
  simpl in Hs.
  assert (0 ≤ foldr Z.add 0 rest) by (clear -Hr; induction Hr; simpl; lia).
  replace (done_ ++ n :: rest) with ((done_ ++ [n]) ++ rest) by (by rewrite <- app_assoc).
  replace (S (length done_)) with (length (done_ ++ [n])) by (rewrite length_app; simpl; lia).
  destruct (IH (done_ ++ [n]) (off + Z.to_nat n)%nat Hr ltac:(lia)) as [Hc Hf].
  rewrite sub_frames_zip by lia. cbn [concat fmap list_fmap]. split.
  - rewrite Hc, <- drop_drop. apply take_drop.
  - f_equal; [|exact Hf]. simpl. rewrite length_take, length_drop, length_zip. lia.
Qed.

(** When the per-row frame counts add up to the flattened arrays, row [r]
    gets exactly its own number of sub-frames and the rows together are the arrays in order. *)
Theorem split_frames_exact fpr starts ends :
  length starts = length ends → Forall (λ n, 0 ≤ n < 2 ^ 63) fpr →
  foldr Z.add 0 fpr = Z.of_nat (length starts) →
  let frames := split_frames (length fpr) 0 0 fpr starts ends in
  concat frames = zip starts ends ∧ (Z.of_nat ∘ length <$> frames) = fpr.
Proof. intros Hl Hf Hs. exact (split_frames_from [] fpr starts ends 0 Hl Hf Hs). Qed.

Lemma split_frames_exact_witness :
  concat (split_frames 2 0 0 [1; 2] [0; 1; 2] [3; 4; 5]) = [(0, 3); (1, 4); (2, 5)].
Proof.
  apply (split_frames_exact [1; 2] [0; 1; 2] [3; 4; 5]).
  - done.
  - repeat constructor; done.
  - done.
Defined.

(** A worker whose codec is the identity and whose window sums the mask bits. *)
Definition ex_window (b sch : bytes) (frames : list (list (Z * Z))) (m : option (list bool))
  : result (list (list (Z * Z)) * option (list bool)) rpc_error := Ok (frames, m).

Definition ex_calls : list win_call :=
  [CallInit [x01] 7 [x0a; x0b; x0c] [x0d] [x05]; CallWindow [x01] 7 [0] [2]].

Lemma window_cache_transparent_witness :
  let w := foldl (win_step Ok Ok length (λ _, 1) 4 100 ex_window)
             (mkWorker MemoryStorage_new WindowPartitionCache_new 0) ex_calls in
  (handle_aggregate_window_batch Ok Ok length (λ _, 1) 4 100 ex_window w [x01] 7 1 [1] [0] [2]).1 =
  Ok ([[(0, 2)]], Some [true; false; true]).
Proof.
  pose proof (window_cache_transparent (St := Inner) Ok Ok length (λ _, 1) 4 100 ex_window
    MemoryStorage_new ex_calls [x01] 7 1 [1] [0] [2] mem_inv_new) as H.
  cbv zeta in H |- *. rewrite H; [reflexivity| |done|done].
  repeat constructor; done.
Defined.

Lemma window_init_then_read_witness :
  let w1 := (handle_aggregate_window_init Ok Ok length (λ _, 1) 4 100
               (mkWorker MemoryStorage_new WindowPartitionCache_new 0) [x01] 7 [x0a] [x0d] []).2 in
  (handle_aggregate_window Ok Ok length (λ _, 1) 4 100 ex_window w1 [x01] 7 [0] [1]).1 =
  Ok ([[(0, 1)]], None).
Proof.
  pose proof (window_init_then_read (St := Inner) Ok Ok length (λ _, 1) 4 100 ex_window
    (mkWorker MemoryStorage_new WindowPartitionCache_new 0) [x01] 7 [x0a] [x0d] []
    (mkPartition [x0a] [x0d] None) [0] [1]) as H.
  apply H; [|done|done|done]. split; [apply mem_inv_new|]. simpl. intros ex p e.
  by rewrite lookup_empty.
Defined.
