(* ===== verification/CacheControl.v ===== *)
(** Result-cache directives of [vgi-protocol/src/cache_control.rs]: the
    [CacheControl] value a worker advertises, its rendering to batch metadata
    and the client's reading of it back. *)
From S2P Require Import Prelude.

Open Scope Z_scope.

Definition CACHE_TTL_KEY : string := "vgi.cache.ttl".
Definition CACHE_EXPIRES_KEY : string := "vgi.cache.expires".
Definition CACHE_NO_STORE_KEY : string := "vgi.cache.no_store".
Definition CACHE_SCOPE_KEY : string := "vgi.cache.scope".
Definition CACHE_ETAG_KEY : string := "vgi.cache.etag".
Definition CACHE_LAST_MODIFIED_KEY : string := "vgi.cache.last_modified".
Definition CACHE_REVALIDATABLE_KEY : string := "vgi.cache.revalidatable".
Definition CACHE_STALE_WHILE_REVALIDATE_KEY : string := "vgi.cache.stale_while_revalidate".
Definition CACHE_STALE_IF_ERROR_KEY : string := "vgi.cache.stale_if_error".
Definition CACHE_NOT_MODIFIED_KEY : string := "vgi.cache.not_modified".
Definition CACHE_PARTITION_SCOPE_KEY : string := "vgi.cache.partition_scope".
Definition CACHE_PER_VALUE_KEY : string := "vgi.cache.per_value".
Definition CACHE_SCOPE_CATALOG : string := "catalog".
Definition CACHE_SCOPE_TRANSACTION : string := "transaction".

Record CacheControl := mkCacheControl {
  ttl_seconds : option Z;
  expires : option string;
  scope : string;
  no_store : bool;
  etag : option string;
  last_modified : option string;
  revalidatable : bool;
  stale_while_revalidate : option Z;
  stale_if_error : option Z;
  not_modified : bool;
  partition_scope : bool;
  per_value : bool;
}.

(** * Builders *)

Definition CacheControl_default : CacheControl :=
  mkCacheControl None None CACHE_SCOPE_CATALOG false None None false None None false false false.

Definition ttl (seconds : Z) : CacheControl :=
  mkCacheControl (Some (Z.max seconds 0)) None CACHE_SCOPE_CATALOG false None None false None None
    false false false.

Definition no_store_control : CacheControl :=
  mkCacheControl None None CACHE_SCOPE_CATALOG true None None false None None false false false.

(** The chainable setters. *)
Inductive setter :=
| with_transaction_scope
| with_etag (etag : string)
| with_last_modified (last_modified : string)
| with_revalidatable
| with_expires (expires : string)
| with_stale_while_revalidate (seconds : Z)
| with_stale_if_error (seconds : Z)
| with_not_modified
| with_partition_scope
| with_per_value.

Definition apply_setter (c : CacheControl) (s : setter) : CacheControl :=
  let '(mkCacheControl t ex sc ns et lm rv swr sie nm ps pv) := c in
  match s with
  | with_transaction_scope =>
      mkCacheControl t ex CACHE_SCOPE_TRANSACTION ns et lm rv swr sie nm ps pv
  | with_etag e => mkCacheControl t ex sc ns (Some e) lm rv swr sie nm ps pv
  | with_last_modified l => mkCacheControl t ex sc ns et (Some l) rv swr sie nm ps pv
  | with_revalidatable => mkCacheControl t ex sc ns et lm true swr sie nm ps pv
  | with_expires e => mkCacheControl t (Some e) sc ns et lm rv swr sie nm ps pv
  | with_stale_while_revalidate n =>
      mkCacheControl t ex sc ns et lm rv (Some (Z.max n 0)) sie nm ps pv
  | with_stale_if_error n => mkCacheControl t ex sc ns et lm rv swr (Some (Z.max n 0)) nm ps pv
  | with_not_modified => mkCacheControl t ex sc ns et lm rv swr sie true ps pv
  | with_partition_scope => mkCacheControl t ex sc ns et lm rv swr sie nm true pv
  | with_per_value => mkCacheControl t ex sc ns et lm rv swr sie nm ps true
  end.

(** * Metadata *)

Abbreviation Metadata := (gmap string string).

Definition flag (md : Metadata) (key : string) : bool :=
  match md !! key with
  | Some v => bool_decide (v ∈ ["1"; "true"; "True"]%string)
  | None => false
  end.

Definition int (md : Metadata) (key : string) : option Z := md !! key ≫= parse_i64.

Definition text (md : Metadata) (key : string) : option string :=
  match md !! key with
  | Some v => if decide (v = "") then None else Some v
  | None => None
  end.

Definition from_metadata (md : Metadata) : option CacheControl :=
  if existsb (String.prefix "vgi.cache.") (map_to_list md).*1 then
    Some (mkCacheControl
      ((λ v, Z.max v 0) <$> int md CACHE_TTL_KEY)
      (text md CACHE_EXPIRES_KEY)
      (default CACHE_SCOPE_CATALOG (text md CACHE_SCOPE_KEY))
      (flag md CACHE_NO_STORE_KEY)
      (text md CACHE_ETAG_KEY)
      (text md CACHE_LAST_MODIFIED_KEY)
      (flag md CACHE_REVALIDATABLE_KEY)
      (int md CACHE_STALE_WHILE_REVALIDATE_KEY)
      (int md CACHE_STALE_IF_ERROR_KEY)
      (flag md CACHE_NOT_MODIFIED_KEY)
      (flag md CACHE_PARTITION_SCOPE_KEY)
      (flag md CACHE_PER_VALUE_KEY))
  else None.

Definition is_cacheable (c : CacheControl) : bool :=
  negb (no_store c) && (bool_decide (is_Some (ttl_seconds c)) || bool_decide (is_Some (expires c))).

(** [if set { md.insert(key, value) }], field by field. *)
Definition put (md : Metadata) (e : string * option string) : Metadata :=
  match e.2 with Some v => <[e.1 := v]> md | None => md end.

Definition set_flag (b : bool) : option string := if b then Some "1"%string else None.

Definition fields (c : CacheControl) : list (string * option string) :=
  [(CACHE_TTL_KEY, Z_to_string <$> ttl_seconds c);
   (CACHE_EXPIRES_KEY, expires c);
   (CACHE_NO_STORE_KEY, set_flag (no_store c));
   (CACHE_SCOPE_KEY, Some (scope c));
   (CACHE_ETAG_KEY, etag c);
   (CACHE_LAST_MODIFIED_KEY, last_modified c);
   (CACHE_REVALIDATABLE_KEY, set_flag (revalidatable c));
   (CACHE_STALE_WHILE_REVALIDATE_KEY, Z_to_string <$> stale_while_revalidate c);
   (CACHE_STALE_IF_ERROR_KEY, Z_to_string <$> stale_if_error c);
   (CACHE_NOT_MODIFIED_KEY, set_flag (not_modified c));
   (CACHE_PARTITION_SCOPE_KEY, set_flag (partition_scope c));
   (CACHE_PER_VALUE_KEY, set_flag (per_value c))].

Definition to_metadata (c : CacheControl) : Metadata := foldl put ∅ (fields c).

Record ConditionalRequest := mkConditional {
  if_none_match : option string;
  if_modified_since : option string;
}.

Definition is_conditional (r : ConditionalRequest) : bool :=
  bool_decide (is_Some (if_none_match r)) || bool_decide (is_Some (if_modified_since r)).

(** * Round trip *)

(** Find a field of [fields c]. *)
Ltac in_fields := first [apply list_elem_of_here | apply list_elem_of_further; in_fields].

Definition nonempty (o : option string) : Prop := o ≠ Some "".

(** Directives the wire can carry: [i64] values, a non-negative TTL and no
    empty text. *)
Record normalized (c : CacheControl) : Prop := {
  n_ttl t : ttl_seconds c = Some t → 0 ≤ t < 2 ^ 63;
  n_expires : nonempty (expires c);
  n_scope : scope c ≠ "";
  n_etag : nonempty (etag c);
  n_last_modified : nonempty (last_modified c);
  n_swr t : stale_while_revalidate c = Some t → i64_range t;
  n_sie t : stale_if_error c = Some t → i64_range t;
}.

Lemma put_fold_lookup (l : list (string * option string)) k o m :
  NoDup l.*1 → (k, o) ∈ l → m !! k = None → foldl put m l !! k = o.
Proof.
  induction l as [|[k' o'] l IH] in m |- *; intros Hnd Hin Hm; [by apply elem_of_nil in Hin|].
  simpl in Hnd. apply NoDup_cons in Hnd as [Hn Hnd]. cbn [foldl].
  assert (∀ m, k ∉ l.*1 → foldl put m l !! k = m !! k) as Hskip.
  { clear. induction l as [|[k2 o2] l IH]; intros m Hk; [done|]. simpl in Hk.
    apply not_elem_of_cons in Hk as [? Hk]. simpl. rewrite IH by done. unfold put. simpl.
    destruct o2; [by rewrite lookup_insert_ne|done]. }
  apply elem_of_cons in Hin as [[= -> ->]|Hin].
  - rewrite Hskip by done. unfold put. simpl. destruct o'; [by rewrite lookup_insert_eq|done].
  - apply IH; [done..|]. unfold put. simpl. destruct o' as [v|]; [|done].
    rewrite lookup_insert_ne; [done|]. intros ->. apply Hn, list_elem_of_fmap. by eexists (_, _).
Qed.

Lemma field_lookup c k o : (k, o) ∈ fields c → to_metadata c !! k = o.
Proof.
  intros Hin. apply put_fold_lookup; [|done|apply lookup_empty].
  change ((fields c).*1) with ((fields CacheControl_default).*1).
  apply (bool_decide_unpack _). vm_compute. exact I.
Qed.

Lemma int_field c k o :
  (k, Z_to_string <$> o) ∈ fields c → (∀ t, o = Some t → i64_range t) → int (to_metadata c) k = o.
Proof.
  intros Hin Hr. unfold int. rewrite (field_lookup _ _ _ Hin). destruct o as [t|]; [|done].
  simpl. by apply parse_i64_to_string, Hr.
Qed.

Lemma text_field c k o : (k, o) ∈ fields c → nonempty o → text (to_metadata c) k = o.
Proof.
  intros Hin Hr. unfold text. rewrite (field_lookup _ _ _ Hin). destruct o as [t|]; [|done].
  case_decide; [|done]. subst. done.
Qed.

Lemma flag_field c k b : (k, set_flag b) ∈ fields c → flag (to_metadata c) k = b.
Proof. intros Hin. unfold flag. rewrite (field_lookup _ _ _ Hin). by destruct b. Qed.

Lemma from_to_metadata c : normalized c → from_metadata (to_metadata c) = Some c.
Proof.
  intros [Ht He Hs Het Hlm Hsw Hsi]. unfold from_metadata.
  assert (existsb (String.prefix "vgi.cache.") (map_to_list (to_metadata c)).*1 = true) as ->.
  { apply existsb_exists. exists CACHE_SCOPE_KEY. split; [|done].
    apply list_elem_of_In, list_elem_of_fmap. exists (CACHE_SCOPE_KEY, scope c). split; [done|].
    apply elem_of_map_to_list, field_lookup. in_fields. }
  rewrite (int_field c CACHE_TTL_KEY (ttl_seconds c));
    [|in_fields|intros t E; specialize (Ht t E); unfold i64_range; lia].
  rewrite (text_field c CACHE_EXPIRES_KEY (expires c)) by (done || in_fields).
  rewrite (text_field c CACHE_SCOPE_KEY (Some (scope c)));
    [|in_fields|unfold nonempty; congruence].
  rewrite (flag_field c CACHE_NO_STORE_KEY (no_store c)) by in_fields.
  rewrite (text_field c CACHE_ETAG_KEY (etag c)) by (done || in_fields).
  rewrite (text_field c CACHE_LAST_MODIFIED_KEY (last_modified c)) by (done || in_fields).
  rewrite (flag_field c CACHE_REVALIDATABLE_KEY (revalidatable c)) by in_fields.
  rewrite (int_field c CACHE_STALE_WHILE_REVALIDATE_KEY (stale_while_revalidate c))
    by (done || in_fields).
  rewrite (int_field c CACHE_STALE_IF_ERROR_KEY (stale_if_error c)) by (done || in_fields).
  rewrite (flag_field c CACHE_NOT_MODIFIED_KEY (not_modified c)) by in_fields.
  rewrite (flag_field c CACHE_PARTITION_SCOPE_KEY (partition_scope c)) by in_fields.
  rewrite (flag_field c CACHE_PER_VALUE_KEY (per_value c)) by in_fields.
  f_equal. destruct c as [[t|] ex sc ns et lm rv swr sie nm ps pv]; simpl in *; [|done].
  do 2 f_equal. specialize (Ht t eq_refl). lia.
Qed.

Definition setter_ok (s : setter) : Prop :=
  match s with
  | with_etag e | with_last_modified e | with_expires e => e ≠ ""
  | with_stale_while_revalidate n | with_stale_if_error n => i64_range n
  | _ => True
  end.

Lemma apply_setter_normalized c s : normalized c → setter_ok s → normalized (apply_setter c s).
Proof.
  intros [Ht He Hs Het Hlm Hsw Hsi] Hok. destruct c as [t ex sc ns et lm rv swr sie nm ps pv].
  destruct s; split; simpl in *; try done; unfold nonempty; try congruence;
    intros ? [= <-]; unfold i64_range in *; lia.
Qed.

Lemma apply_setters_normalized c ss :
  normalized c → Forall setter_ok ss → normalized (foldl apply_setter c ss).
Proof.
  intros Hc Hs. induction Hs as [|s ss Hs _ IH] in c, Hc |- *; [done|].
  simpl. by apply IH, apply_setter_normalized.
Qed.

(** Directives built with [ttl], [no_store] or the default and any
    sequence of setters (no empty text, [i64] seconds) survive the metadata round trip unchanged. *)
Theorem cache_control_roundtrip base seconds ss :
  i64_range seconds → base ∈ [CacheControl_default; ttl seconds; no_store_control] →
  Forall setter_ok ss →
  from_metadata (to_metadata (foldl apply_setter base ss)) = Some (foldl apply_setter base ss).
Proof.
  intros Hn Hb Hs. apply from_to_metadata, apply_setters_normalized; [|done].
  repeat (apply elem_of_cons in Hb as [->|Hb]); [| | |by apply elem_of_nil in Hb];
    split; simpl; try done; intros ? [= <-]; unfold i64_range in Hn; lia.
Qed.

Lemma cache_control_roundtrip_witness :
  from_metadata (to_metadata (apply_setter (ttl 60) (with_etag "v1"))) =
  Some (apply_setter (ttl 60) (with_etag "v1")).
Proof.
  apply (cache_control_roundtrip (ttl 60) 60 [with_etag "v1"]).
  - by unfold i64_range.
  - set_solver.
  - by repeat constructor.
Defined.

Lemma parse_i64_range s z : parse_i64 s = Some z → i64_range z.
Proof.
  assert (∀ o, in_range (- 2 ^ 63) (2 ^ 63 - 1) o = Some z → i64_range z) as Hr.
  { intros [v|]; [|done]. simpl. destruct (_ && _) eqn:E; [|done]. intros [= <-].
    apply andb_true_iff in E as [?%Z.leb_le ?%Z.leb_le]. unfold i64_range. lia. }
  unfold parse_i64. intros E. repeat case_match; simplify_eq/=; eauto.
Qed.

Lemma text_nonempty md k : nonempty (text md k).
Proof. unfold nonempty, text. repeat case_match; congruence. Qed.

(** Whatever metadata a worker sent, malformed values included, what
    the client read is directives it can itself render and read back unchanged, and a result is
    only ever cacheable when [no_store] is off and a freshness key was readable. *)
Theorem from_metadata_canonical md c :
  from_metadata md = Some c →
  from_metadata (to_metadata c) = Some c ∧
  (is_cacheable c = true ↔
   flag md CACHE_NO_STORE_KEY = false ∧
   (is_Some (int md CACHE_TTL_KEY) ∨ is_Some (text md CACHE_EXPIRES_KEY))).
Proof.
  unfold from_metadata at 1. destruct (existsb _ _); [|done]. intros [= <-]. split.
  - apply from_to_metadata. split; simpl; try apply text_nonempty.
    + intros t. destruct (int md CACHE_TTL_KEY) as [v|] eqn:E; [|done]. intros [= <-].
      unfold int in E. apply bind_Some in E as (x & _ & E%parse_i64_range). unfold i64_range in E. lia.
    + pose proof (text_nonempty md CACHE_SCOPE_KEY) as Hn. unfold nonempty in Hn.
      destruct (text md CACHE_SCOPE_KEY); simpl; [congruence|done].
    + intros t E. unfold int in E. by apply bind_Some in E as (x & _ & E%parse_i64_range).
    + intros t E. unfold int in E. by apply bind_Some in E as (x & _ & E%parse_i64_range).
  - unfold is_cacheable. simpl. rewrite andb_true_iff, orb_true_iff, negb_true_iff.
    by rewrite !bool_decide_eq_true, fmap_is_Some.
Qed.

Lemma from_metadata_canonical_witness :
  from_metadata (to_metadata CacheControl_default) = Some CacheControl_default.
Proof.
  apply (from_metadata_canonical {["vgi.cache.ttl" := "soon"]}%string). vm_compute. reflexivity.
Defined.
