(* ===== verification/ResultCache.v ===== *)
(** The in-memory result cache of [vgi-client/src/cache.rs]: keys and their
    stable encoding, admission, freshness, lookup, revalidation, flushing and
    cap enforcement.  Instants and durations are nanoseconds; the record
    batches, their sizes and the RFC 3339 parser are parameters. *)
From S2P Require Import Prelude Codec CacheControl.

Open Scope Z_scope.

Record CacheKey := mkCacheKey {
  catalog : string;
  identity_scope : string;
  worker_label : string;
  function : string;
  arguments : bytes;
  projection : option (list Z);
  filters : option bytes;
  catalog_version : Z;
  at_ : option (string * string);
  settings : bytes;
  attach_options : bytes;
  row_limit : option Z;
  ordering : option bytes;
  sample : option bytes;
  plan : option bytes;
}.

#[global] Instance cache_key_eq_dec : EqDecision CacheKey.
Proof. solve_decision. Defined.

#[global] Instance cache_key_countable : Countable CacheKey.
Proof.
  refine (inj_countable'
    (λ k, (catalog k, identity_scope k, worker_label k, function k, arguments k, projection k,
           (filters k, catalog_version k, at_ k, settings k, attach_options k, row_limit k,
            (ordering k, sample k, plan k))))
    (λ '(a, b, c, d, e, f, (g, h, i, j, l, m, (n, o, p))), mkCacheKey a b c d e f g h i j l m n o p) _).
  by intros [].
Defined.

(** [DOMAIN]: [b"vgi-client-result-cache-key\0v1"]. *)
Definition KEY_DOMAIN : bytes := as_bytes "vgi-client-result-cache-key" ++ [x00] ++ as_bytes "v1".

Definition stable_bytes (k : CacheKey) : bytes :=
  KEY_DOMAIN ++ enc_string (catalog k) ++ enc_string (identity_scope k) ++
  enc_string (worker_label k) ++ enc_string (function k) ++ enc_bytes (arguments k) ++
  enc_option (enc_list (le_bytes 8)) (projection k) ++
  enc_option enc_bytes (filters k) ++ le_bytes 8 (catalog_version k) ++
  enc_option (enc_pair enc_string enc_string) (at_ k) ++
  enc_bytes (settings k) ++ enc_bytes (attach_options k) ++
  enc_option (le_bytes 8) (row_limit k) ++ enc_option enc_bytes (ordering k) ++
  enc_option enc_bytes (sample k) ++ enc_option enc_bytes (plan k).

(** * Entries *)

Definition NANOS : Z := 1000000000.

(** [Instant] and [SystemTime] hold [i64] seconds. *)
Definition time_max : Z := 2 ^ 63 * NANOS - 1.

Definition checked_add_time (t d : Z) : option Z := if t + d <=? time_max then Some (t + d) else None.

Record CachedEntry (B : Type) := mkEntry {
  batches : list B;
  num_substreams : Z;
  rows : Z;
  nbytes : Z;
  stored_at : Z;
  e_ttl : option Z;
  e_etag : option string;
  e_last_modified : option string;
  e_revalidatable : bool;
  e_stale_while_revalidate : Z;
  e_stale_if_error : Z;
  e_hits : Z;
}.
Arguments mkEntry {B} _ _ _ _ _ _ _ _ _ _ _ _.
Arguments batches {B} _.
Arguments num_substreams {B} _.
Arguments rows {B} _.
Arguments nbytes {B} _.
Arguments stored_at {B} _.
Arguments e_ttl {B} _.
Arguments e_etag {B} _.
Arguments e_last_modified {B} _.
Arguments e_revalidatable {B} _.
Arguments e_stale_while_revalidate {B} _.
Arguments e_stale_if_error {B} _.
Arguments e_hits {B} _.

(** [now.duration_since(earlier)] saturates at zero. *)
Definition duration_since (now earlier : Z) : Z := Z.max 0 (now - earlier).

Definition is_stale_at {B} (e : CachedEntry B) (now : Z) : bool :=
  match e_ttl e with None => false | Some ttl => ttl <=? duration_since now (stored_at e) end.

(** [stored_at + ttl] panics when the sum is past the last instant. *)
Inductive timed (A : Type) :=
| Done (a : A)
| TimePanic.
Arguments Done {A} a.
Arguments TimePanic {A}.

Definition stale_age_at {B} (e : CachedEntry B) (now : Z) : timed (option Z) :=
  match e_ttl e with
  | None => Done None
  | Some ttl =>
      match checked_add_time (stored_at e) ttl with
      | None => TimePanic
      | Some t => Done (if t <=? now then Some (now - t) else None)
      end
  end.

Definition within (limit : Z) (age : timed (option Z)) : timed bool :=
  match age with
  | Done (Some a) => Done (a <=? limit)
  | Done None => Done false
  | TimePanic => TimePanic
  end.

Definition may_serve_while_revalidate_at {B} (e : CachedEntry B) (now : Z) : timed bool :=
  within (e_stale_while_revalidate e) (stale_age_at e now).

Definition may_serve_on_error_at {B} (e : CachedEntry B) (now : Z) : timed bool :=
  within (e_stale_if_error e) (stale_age_at e now).

(** * Admission *)

Inductive Ineligible :=
| NotCacheable
| NoFreshness
| IdentityUnresolved
| EntryTooLarge
| TransactionScoped
| UnsupportedScope.

Record CacheFreshness := mkFreshness {
  expires_at : Z;
  received_at : Z;
  lifetime : Z;
}.

Definition CacheFreshness_at (received_wall received_monotonic life : Z) : option CacheFreshness :=
  match checked_add_time received_wall life with
  | Some t => Some (mkFreshness t received_monotonic life)
  | None => None
  end.

Definition remaining (f : CacheFreshness) (now : Z) : Z :=
  Z.max 0 (lifetime f - duration_since now (received_at f)).

Definition is_expired (f : CacheFreshness) (now : Z) : bool := remaining f now =? 0.
Definition is_immediately_stale (f : CacheFreshness) : bool := lifetime f =? 0.

Record CacheLimits := mkLimits {
  max_entry_bytes : Z;
  max_total_bytes : Z;
  max_entries : Z;
  default_ttl : Z;
}.

Definition CacheLimits_default : CacheLimits :=
  mkLimits (64 * 1024 * 1024) (256 * 1024 * 1024) 131072 0.

Section admission.
(** [chrono::DateTime::parse_from_rfc3339], as nanoseconds since the epoch. *)
Context (parse_rfc3339 : string → option Z).

Definition has_validator (cc : CacheControl) : bool :=
  revalidatable cc &&
  (bool_decide (is_Some (etag cc)) || bool_decide (is_Some (last_modified cc))).

(** The [match] of [freshness_lifetime_at]. *)
Definition advertised_lifetime (limits : CacheLimits) (cc : CacheControl) (received : Z)
  : result Z Ineligible :=
  let fallback :=
    match expires cc with
    | Some value =>
        match parse_rfc3339 value with
        | None => Err NoFreshness
        | Some e => Ok (Z.max 0 (e - received))
        end
    | None => if default_ttl limits =? 0 then Err NoFreshness else Ok (default_ttl limits)
    end in
  match ttl_seconds cc with
  | Some s =>
      if 0 <? s then Ok (s * NANOS)
      else if s =? 0 then (if has_validator cc then Ok 0 else Err NoFreshness)
      else fallback
  | None => fallback
  end.

Definition freshness_lifetime_at (limits : CacheLimits) (cc : CacheControl) (received : Z)
  : result Z Ineligible :=
  match advertised_lifetime limits cc received with
  | Err e => Err e
  | Ok d => if (d =? 0) && negb (has_validator cc) then Err NoFreshness else Ok d
  end.

(** The checks [eligibility] and [freshness_at] share, in order. *)
Definition admissible (control : option CacheControl) (scope_ : option string)
  : result CacheControl Ineligible :=
  match scope_ with
  | None => Err IdentityUnresolved
  | Some _ =>
      match control with
      | None => Err NotCacheable
      | Some cc =>
          if no_store cc then Err NotCacheable
          else if decide (scope cc = CACHE_SCOPE_TRANSACTION) then Err TransactionScoped
          else if decide (scope cc ≠ CACHE_SCOPE_CATALOG) then Err UnsupportedScope
          else Ok cc
      end
  end.

Definition eligibility (limits : CacheLimits) (control : option CacheControl)
    (scope_ : option string) (bytes now_wall : Z) : result Z Ineligible :=
  match admissible control scope_ with
  | Err e => Err e
  | Ok cc =>
      if max_entry_bytes limits <? bytes then Err EntryTooLarge
      else freshness_lifetime_at limits cc now_wall
  end.

Definition freshness_deadline (limits : CacheLimits) (control : option CacheControl)
    (scope_ : option string) (received_wall received_monotonic : Z)
  : result CacheFreshness Ineligible :=
  match admissible control scope_ with
  | Err e => Err e
  | Ok cc =>
      match freshness_lifetime_at limits cc received_wall with
      | Err e => Err e
      | Ok life =>
          match CacheFreshness_at received_wall received_monotonic life with
          | Some f => Ok f
          | None => Err NoFreshness
          end
      end
  end.
End admission.

(** * The cache *)

Record CacheStats := mkStats {
  hits : Z;
  misses : Z;
  inserts : Z;
  evictions_lru : Z;
  evictions_ttl : Z;
  refusals : Z;
  stale_serves : Z;
  revalidations : Z;
  capture_aborts : Z;
  n_entries : Z;
  total_bytes : Z;
}.

Definition CacheStats_default : CacheStats := mkStats 0 0 0 0 0 0 0 0 0 0 0.

Record Slot (B : Type) := mkSlot { entry : CachedEntry B; last_used : Z }.
Arguments mkSlot {B} _ _.
Arguments entry {B} _.
Arguments last_used {B} _.

Record ResultInner (B : Type) := mkResultInner {
  rmap : gmap CacheKey (Slot B);
  stats : CacheStats;
  tick : Z;
}.
Arguments mkResultInner {B} _ _ _.
Arguments rmap {B} _.
Arguments stats {B} _.
Arguments tick {B} _.

Section cache.
Context {B : Type} (num_rows approx_bytes : B → Z).
Implicit Types (c : ResultInner B) (key : CacheKey) (s : CacheStats).

Definition ResultCache_new : ResultInner B := mkResultInner ∅ CacheStats_default 0.

(** [entries -= 1; total_bytes -= n]. *)
Definition forget s (n : Z) : CacheStats :=
  mkStats (hits s) (misses s) (inserts s) (evictions_lru s) (evictions_ttl s) (refusals s)
    (stale_serves s) (revalidations s) (capture_aborts s) (n_entries s - 1) (total_bytes s - n).

Definition add_misses s := mkStats (hits s) (misses s + 1) (inserts s) (evictions_lru s)
  (evictions_ttl s) (refusals s) (stale_serves s) (revalidations s) (capture_aborts s)
  (n_entries s) (total_bytes s).
Definition add_hits s := mkStats (hits s + 1) (misses s) (inserts s) (evictions_lru s)
  (evictions_ttl s) (refusals s) (stale_serves s) (revalidations s) (capture_aborts s)
  (n_entries s) (total_bytes s).
Definition add_evictions_lru s := mkStats (hits s) (misses s) (inserts s) (evictions_lru s + 1)
  (evictions_ttl s) (refusals s) (stale_serves s) (revalidations s) (capture_aborts s)
  (n_entries s) (total_bytes s).
Definition add_evictions_ttl s := mkStats (hits s) (misses s) (inserts s) (evictions_lru s)
  (evictions_ttl s + 1) (refusals s) (stale_serves s) (revalidations s) (capture_aborts s)
  (n_entries s) (total_bytes s).
Definition add_refusals s := mkStats (hits s) (misses s) (inserts s) (evictions_lru s)
  (evictions_ttl s) (refusals s + 1) (stale_serves s) (revalidations s) (capture_aborts s)
  (n_entries s) (total_bytes s).
Definition add_revalidations s := mkStats (hits s) (misses s) (inserts s) (evictions_lru s)
  (evictions_ttl s) (refusals s) (stale_serves s) (revalidations s + 1) (capture_aborts s)
  (n_entries s) (total_bytes s).
Definition add_stored s (n : Z) := mkStats (hits s) (misses s) (inserts s + 1) (evictions_lru s)
  (evictions_ttl s) (refusals s) (stale_serves s) (revalidations s) (capture_aborts s)
  (n_entries s + 1) (total_bytes s + n).

(** [map.remove(key)] with its accounting; [None] when absent. *)
Definition take_out c key : option (CachedEntry B * ResultInner B) :=
  match rmap c !! key with
  | None => None
  | Some slot =>
      Some (entry slot,
            mkResultInner (delete key (rmap c)) (forget (stats c) (nbytes (entry slot))) (tick c))
  end.

Definition with_stats c (f : CacheStats → CacheStats) : ResultInner B :=
  mkResultInner (rmap c) (f (stats c)) (tick c).

(** [tick += 1]. *)
Definition ticked c : ResultInner B := mkResultInner (rmap c) (stats c) (tick c + 1).

Definition hit_entry (e : CachedEntry B) : CachedEntry B :=
  mkEntry (batches e) (num_substreams e) (rows e) (nbytes e) (stored_at e) (e_ttl e) (e_etag e)
    (e_last_modified e) (e_revalidatable e) (e_stale_while_revalidate e) (e_stale_if_error e)
    (e_hits e + 1).

Definition get c key (now : Z) : option (CachedEntry B) * ResultInner B :=
  let c := ticked c in
  match rmap c !! key with
  | None => (None, with_stats c add_misses)
  | Some slot =>
      if is_stale_at (entry slot) now then
        let c := if e_revalidatable (entry slot) then c
                 else mkResultInner (delete key (rmap c))
                        (forget (add_evictions_ttl (stats c)) (nbytes (entry slot))) (tick c) in
        (None, with_stats c add_misses)
      else
        let e := hit_entry (entry slot) in
        (Some e, mkResultInner (<[key := mkSlot e (tick c)]> (rmap c)) (add_hits (stats c)) (tick c))
  end.

Definition get_for_revalidation c key : option (CachedEntry B) :=
  match rmap c !! key with
  | Some slot => if e_revalidatable (entry slot) then Some (entry slot) else None
  | None => None
  end.

(** The loop's condition and its victim. *)
Definition oversized (limits : CacheLimits) (slot : Slot B) : bool :=
  max_entry_bytes limits <? nbytes (entry slot).

Definition has_oversized (limits : CacheLimits) c : bool :=
  existsb (λ e, oversized limits e.2) (map_to_list (rmap c)).

Definition over_caps (limits : CacheLimits) c : bool :=
  has_oversized limits c || (max_entries limits <? n_entries (stats c)) ||
  (max_total_bytes limits <? total_bytes (stats c)).

(** [min_by_key(last_used)]: the first of the least. *)
Fixpoint least_used (l : list (CacheKey * Slot B)) : option (CacheKey * Slot B) :=
  match l with
  | [] => None
  | x :: l =>
      match least_used l with
      | Some y => if last_used y.2 <? last_used x.2 then Some y else Some x
      | None => Some x
      end
  end.

Definition victim (limits : CacheLimits) c : option CacheKey :=
  let big := has_oversized limits c in
  fst <$> least_used
    (filter (λ e, negb big || oversized limits e.2 = true) (map_to_list (rmap c))).

(** The eviction loop; every turn removes an entry, so one turn per entry is
    enough. *)
Fixpoint enforce_loop (fuel : nat) (limits : CacheLimits) c : ResultInner B :=
  match fuel with
  | O => c
  | S fuel =>
      if over_caps limits c then
        match victim limits c with
        | None => c
        | Some k =>
            match take_out c k with
            | Some (_, c) => enforce_loop fuel limits (with_stats c add_evictions_lru)
            | None => enforce_loop fuel limits c
            end
        end
      else c
  end.

Definition enforce_caps (limits : CacheLimits) c : ResultInner B :=
  enforce_loop (S (size (rmap c))) limits c.

Definition set_limits c (limits : CacheLimits) : Z * ResultInner B :=
  let before := n_entries (stats c) in
  let c := enforce_caps limits c in
  (Z.max 0 (before - n_entries (stats c)), c).

(** [u64::try_from(v).ok().map(Duration::from_secs).unwrap_or_default()]. *)
Definition grace (o : option Z) : Z :=
  match o with Some v => if v <? 0 then 0 else v * NANOS | None => 0 end.

Definition insert_with_substreams (limits : CacheLimits) c key (bs : list B) (substreams ttl : Z)
    (control : option CacheControl) (now : Z) : ResultInner B :=
  let n := foldr Z.add 0 (approx_bytes <$> bs) in
  if max_entry_bytes limits <? n then with_stats c add_refusals
  else
    let e := mkEntry bs (Z.max substreams 1) (foldr Z.add 0 (num_rows <$> bs)) n now (Some ttl)
               (control ≫= etag) (control ≫= last_modified)
               (match control with Some cc => revalidatable cc | None => false end)
               (grace (control ≫= stale_while_revalidate)) (grace (control ≫= stale_if_error)) 0 in
    let c := ticked c in
    let c := match take_out c key with Some (_, c) => c | None => c end in
    enforce_caps limits
      (mkResultInner (<[key := mkSlot e (tick c)]> (rmap c)) (add_stored (stats c) n) (tick c)).

Definition slide_entry (e : CachedEntry B) (ttl now : Z) (control : option CacheControl)
  : CachedEntry B :=
  match control with
  | None =>
      mkEntry (batches e) (num_substreams e) (rows e) (nbytes e) now (Some ttl) (e_etag e)
        (e_last_modified e) (e_revalidatable e) (e_stale_while_revalidate e) (e_stale_if_error e)
        (e_hits e)
  | Some cc =>
      mkEntry (batches e) (num_substreams e) (rows e) (nbytes e) now (Some ttl) (etag cc)
        (last_modified cc) (has_validator cc) (grace (stale_while_revalidate cc))
        (grace (stale_if_error cc)) (e_hits e)
  end.

Definition slide_inner c key (ttl : Z) (control : option CacheControl) (now : Z)
  : bool * ResultInner B :=
  let c := ticked c in
  match rmap c !! key with
  | Some slot =>
      (true, mkResultInner (<[key := mkSlot (slide_entry (entry slot) ttl now control) (tick c)]> (rmap c))
               (add_revalidations (stats c)) (tick c))
  | None => (false, c)
  end.

Definition remove c key : bool * ResultInner B :=
  match rmap c !! key with
  | None => (false, c)
  | Some slot =>
      (true, mkResultInner (delete key (rmap c))
               (mkStats (hits (stats c)) (misses (stats c)) (inserts (stats c))
                  (evictions_lru (stats c)) (evictions_ttl (stats c)) (refusals (stats c))
                  (stale_serves (stats c)) (revalidations (stats c)) (capture_aborts (stats c))
                  (Z.max 0 (n_entries (stats c) - 1))
                  (Z.max 0 (total_bytes (stats c) - nbytes (entry slot)))) (tick c))
  end.

(** Dropping a list of keys, with an extra counter update per entry dropped. *)
Fixpoint drop_keys (upd : CacheStats → CacheStats) c (doomed : list CacheKey) : ResultInner B :=
  match doomed with
  | [] => c
  | k :: doomed =>
      match take_out c k with
      | Some (_, c) => drop_keys upd (with_stats c upd) doomed
      | None => drop_keys upd c doomed
      end
  end.

Definition keys_where c (p : CacheKey * Slot B → bool) : list CacheKey :=
  (filter (λ e, p e = true) (map_to_list (rmap c))).*1.

Definition flush_scope c (scope_ : string) : Z * ResultInner B :=
  let doomed := keys_where c (λ e, bool_decide (identity_scope e.1 = scope_)) in
  (Z.of_nat (length doomed), drop_keys id c doomed).

Definition flush_catalog c (cat : string) : Z * ResultInner B :=
  let doomed := keys_where c (λ e, bool_decide (catalog e.1 = cat)) in
  (Z.of_nat (length doomed), drop_keys id c doomed).

Definition flush_all c : Z * ResultInner B :=
  (Z.of_nat (size (rmap c)),
   mkResultInner ∅ (mkStats (hits (stats c)) (misses (stats c)) (inserts (stats c))
     (evictions_lru (stats c)) (evictions_ttl (stats c)) (refusals (stats c))
     (stale_serves (stats c)) (revalidations (stats c)) (capture_aborts (stats c)) 0 0) (tick c)).

Definition reap c (now : Z) : Z * ResultInner B :=
  let doomed := keys_where c (λ e, is_stale_at (entry e.2) now && negb (e_revalidatable (entry e.2))) in
  (Z.of_nat (length doomed), drop_keys add_evictions_ttl c doomed).
End cache.

(** * Invariant and caps *)

Section facts.
Context {B : Type} (num_rows approx_bytes : B → Z).
Hypothesis approx_nonneg : ∀ b, 0 ≤ approx_bytes b.
Implicit Types (c : ResultInner B) (key : CacheKey) (limits : CacheLimits).

Definition slot_bytes (s : Slot B) : Z := nbytes (entry s).

Record result_inv c : Prop := {
  r_count : n_entries (stats c) = Z.of_nat (size (rmap c));
  r_bytes : total_bytes (stats c) = map_sum slot_bytes (rmap c);
  r_nonneg k s : rmap c !! k = Some s → 0 ≤ slot_bytes s;
  r_tick k s : rmap c !! k = Some s → last_used s ≤ tick c;
  r_distinct k1 k2 s1 s2 : rmap c !! k1 = Some s1 → rmap c !! k2 = Some s2 →
    last_used s1 = last_used s2 → k1 = k2;
}.

Record caps limits c : Prop := {
  cap_entries : Z.of_nat (size (rmap c)) ≤ max_entries limits;
  cap_total : map_sum slot_bytes (rmap c) ≤ max_total_bytes limits;
  cap_entry k s : rmap c !! k = Some s → slot_bytes s ≤ max_entry_bytes limits;
}.

(** An update of the counters other than the two that mirror the map. *)
Definition counter_only (f : CacheStats → CacheStats) : Prop :=
  ∀ s, n_entries (f s) = n_entries s ∧ total_bytes (f s) = total_bytes s.

Lemma with_stats_inv c f : counter_only f → result_inv c → result_inv (with_stats c f).
Proof. intros Hf [Hc Hb Hn Ht Hd]. destruct (Hf (stats c)) as [E1 E2]. split; simpl; [by rewrite E1|by rewrite E2|done..]. Qed.

Lemma take_out_inv c key e c' :
  result_inv c → take_out c key = Some (e, c') → result_inv c' ∧ rmap c' = delete key (rmap c) ∧
  tick c' = tick c.
Proof.
  intros [Hc Hb Hn Ht Hd] E. unfold take_out in E.
  destruct (rmap c !! key) as [slot|] eqn:Ek; [|done]. simplify_eq. split; [|done].
  split; simpl.
  - rewrite Hc, (size_delete_Some _ _ _ Ek). lia.
  - rewrite Hb, (map_sum_delete slot_bytes _ _ _ Ek). done.
  - intros k s [_ ?]%lookup_delete_Some. eauto.
  - intros k s [_ ?]%lookup_delete_Some. eauto.
  - intros k1 k2 s1 s2 [_ ?]%lookup_delete_Some [_ ?]%lookup_delete_Some. eauto.
Qed.

Lemma take_out_None c key : take_out c key = None → rmap c !! key = None.
Proof. unfold take_out. by destruct (rmap c !! key). Qed.

Lemma least_used_spec (l : list (CacheKey * Slot B)) :
  match least_used l with
  | None => l = []
  | Some x => x ∈ l ∧ ∀ y, y ∈ l → last_used x.2 ≤ last_used y.2
  end.
Proof.
  induction l as [|x l IH]; [done|]. simpl. destruct (least_used l) as [y|].
  - destruct IH as [Hin Hmin]. destruct (Z.ltb_spec (last_used y.2) (last_used x.2)).
    + split; [by right|]. intros z [->|Hz]%elem_of_cons; [lia|by apply Hmin].
    + split; [by left|]. intros z [->|Hz]%elem_of_cons; [lia|]. specialize (Hmin z Hz). lia.
  - subst l. split; [by left|]. by intros z ->%list_elem_of_singleton.
Qed.

Lemma has_oversized_true limits c :
  has_oversized limits c = true ↔ ∃ k s, rmap c !! k = Some s ∧ oversized limits s = true.
Proof.
  unfold has_oversized. rewrite existsb_exists. split.
  - intros [[k s] [Hin Ho]]. apply list_elem_of_In, elem_of_map_to_list in Hin. eauto.
  - intros (k & s & Hk & Ho). exists (k, s). split; [|done].
    by apply list_elem_of_In, elem_of_map_to_list.
Qed.

(** The victim is resident, oversized if anything is, and least recently used. *)
Lemma victim_spec limits c :
  match victim limits c with
  | None => rmap c = ∅
  | Some k => ∃ s, rmap c !! k = Some s ∧ (has_oversized limits c = true → oversized limits s = true) ∧
      (∀ k' s', rmap c !! k' = Some s' →
         (has_oversized limits c = true → oversized limits s' = true) → last_used s ≤ last_used s')
  end.
Proof.
  unfold victim. set (l := filter _ _). pose proof (least_used_spec l) as Hl.
  assert (∀ k s, (k, s) ∈ l ↔ rmap c !! k = Some s ∧
    (has_oversized limits c = true → oversized limits s = true)) as Hin.
  { intros k s. unfold l. rewrite list_elem_of_filter, elem_of_map_to_list. simpl.
    destruct (has_oversized limits c); simpl; naive_solver. }
  destruct (least_used l) as [[k s]|]; simpl.
  - destruct Hl as [Hm Hmin]. apply Hin in Hm as [Hk Ho]. exists s. split_and!; [done..|].
    intros k' s' Hk' Ho'. apply (Hmin (k', s')). by apply Hin.
  - apply map_empty. intros k. destruct (rmap c !! k) as [s|] eqn:Ek; [|done]. exfalso.
    destruct (has_oversized limits c) eqn:Eo.
    + apply has_oversized_true in Eo as (k' & s' & Hk' & Ho').
      assert ((k', s') ∈ l) as Hx by (apply Hin; eauto). rewrite Hl in Hx. by apply elem_of_nil in Hx.
    + assert ((k, s) ∈ l) as Hx by (apply Hin; naive_solver). rewrite Hl in Hx. by apply elem_of_nil in Hx.
Qed.

Lemma over_caps_false limits c :
  result_inv c → over_caps limits c = false → caps limits c.
Proof.
  intros Hi. unfold over_caps. intros [[Ho He%Z.ltb_ge]%orb_false_iff Ht%Z.ltb_ge]%orb_false_iff.
  split.
  - by rewrite <- (r_count _ Hi).
  - by rewrite <- (r_bytes _ Hi).
  - intros k s Hk. destruct (decide (slot_bytes s ≤ max_entry_bytes limits)) as [|Hn]; [done|].
    assert (has_oversized limits c = true) as Hx; [|congruence].
    apply has_oversized_true. exists k, s. split; [done|]. unfold oversized. apply Z.ltb_lt.
    unfold slot_bytes in Hn. lia.
Qed.

Lemma over_caps_empty limits c :
  result_inv c → rmap c = ∅ → 0 ≤ max_entries limits → 0 ≤ max_total_bytes limits →
  over_caps limits c = false.
Proof.
  intros Hi Hm He Ht. unfold over_caps, has_oversized.
  rewrite (r_count _ Hi), (r_bytes _ Hi), Hm, map_to_list_empty, map_size_empty, map_sum_empty. simpl.
  apply orb_false_iff. split; apply Z.ltb_ge; lia.
Qed.

(** The loop stops with every cap satisfied, having evicted in LRU order. *)
Lemma enforce_loop_spec fuel limits c :
  result_inv c → 0 ≤ max_entries limits → 0 ≤ max_total_bytes limits → (size (rmap c) < fuel)%nat →
  let c' := enforce_loop fuel limits c in
  result_inv c' ∧ over_caps limits c' = false ∧ rmap c' ⊆ rmap c ∧ tick c' = tick c ∧
  (has_oversized limits c = false → ∀ k s k' s',
     rmap c' !! k = Some s → rmap c !! k' = Some s' → rmap c' !! k' = None →
     last_used s' < last_used s).
Proof.
  intros Hi He Ht Hf. induction fuel as [|fuel IH] in c, Hi, Hf |- *; [lia|].
  cbn [enforce_loop]. destruct (over_caps limits c) eqn:Eo; last first.
  { split_and!; try done. intros _ k s k' s' _ Hk' Hn. congruence. }
  pose proof (victim_spec limits c) as Hv. destruct (victim limits c) as [k0|]; last first.
  { pose proof (over_caps_empty limits c Hi Hv He Ht). congruence. }
  destruct Hv as (s0 & Hk0 & Ho0 & Hmin).
  destruct (take_out c k0) as [[e c1]|] eqn:E1; [|apply take_out_None in E1; congruence].
  apply take_out_inv in E1 as (Hi1 & Hm1 & Ht1); [|done].
  assert (result_inv (with_stats c1 add_evictions_lru)) as Hi2 by (by apply with_stats_inv).
  assert (size (rmap c1) < fuel)%nat as Hf1.
  { rewrite Hm1. pose proof (size_delete_Some _ _ _ Hk0). lia. }
  destruct (IH (with_stats c1 add_evictions_lru) Hi2 Hf1) as (Hi3 & Ho3 & Hs3 & Ht3 & Hl3).
  simpl in Hs3, Ht3. split_and!; [done..| | |].
  - etrans; [exact Hs3|]. rewrite Hm1. apply delete_subseteq.
  - by rewrite Ht3.
  - intros Hno k s k' s' Hk Hk' Hn.
    assert (has_oversized limits (with_stats c1 add_evictions_lru) = false) as Hno1.
    { apply not_true_is_false. intros (k2 & s2 & H2 & H2')%has_oversized_true. simpl in H2.
      rewrite Hm1 in H2. apply lookup_delete_Some in H2 as [_ H2].
      assert (has_oversized limits c = true) by (apply has_oversized_true; eauto). congruence. }
    destruct (decide (k' = k0)) as [->|Hne].
    + assert (rmap c !! k = Some s ∧ k ≠ k0) as [Hkc Hkne].
      { eapply lookup_weaken in Hk; [|exact Hs3]. rewrite Hm1 in Hk.
        apply lookup_delete_Some in Hk as [? ?]. done. }
      assert (s' = s0) as -> by congruence.
      assert (last_used s0 ≤ last_used s) by (eapply Hmin; [done|congruence]).
      assert (last_used s0 ≠ last_used s).
      { intros E. by eapply Hkne, eq_sym, (r_distinct _ Hi). }
      lia.
    + eapply Hl3; [done..| |done]. simpl. rewrite Hm1. by rewrite lookup_delete_ne.
Qed.

Lemma enforce_caps_spec limits c :
  result_inv c → 0 ≤ max_entries limits → 0 ≤ max_total_bytes limits →
  let c' := enforce_caps limits c in
  result_inv c' ∧ caps limits c' ∧ rmap c' ⊆ rmap c ∧ tick c' = tick c ∧
  (has_oversized limits c = false → ∀ k s k' s',
     rmap c' !! k = Some s → rmap c !! k' = Some s' → rmap c' !! k' = None →
     last_used s' < last_used s).
Proof.
  intros Hi He Ht. destruct (enforce_loop_spec (S (size (rmap c))) limits c Hi He Ht ltac:(lia))
    as (Hi' & Ho & Hs & Htk & Hl).
  split_and!; [done|by apply over_caps_false|done..].
Qed.

Lemma ticked_inv c : result_inv c → result_inv (ticked c).
Proof. intros [Hc Hb Hn Ht Hd]. split; simpl; [done..| |done]. intros k s Hk. specialize (Ht k s Hk). lia. Qed.

(** Rewriting a resident slot with the current tick. *)
Lemma slot_touch_inv c key slot e f :
  result_inv c → rmap c !! key = Some slot → nbytes e = slot_bytes slot → counter_only f →
  result_inv (mkResultInner (<[key := mkSlot e (tick c + 1)]> (rmap c)) (f (stats c)) (tick c + 1)).
Proof.
  intros [Hc Hb Hn Ht Hd] Hk He Hf. destruct (Hf (stats c)) as [E1 E2]. split; simpl.
  - rewrite E1, Hc, map_size_insert_Some by eauto. done.
  - rewrite E2, Hb, (map_sum_insert_Some slot_bytes _ _ _ _ Hk).
    change (slot_bytes (mkSlot e (tick c + 1))) with (nbytes e). lia.
  - intros k s [[<- <-]|[_ ?]]%lookup_insert_Some; [|by eauto].
    unfold slot_bytes. simpl. rewrite He. eauto.
  - intros k s [[<- <-]|[_ Hk']]%lookup_insert_Some; [simpl; lia|]. specialize (Ht _ _ Hk'). lia.
  - intros k1 k2 s1 s2 [[<- <-]|[? H1]]%lookup_insert_Some [[<- <-]|[? H2]]%lookup_insert_Some;
      simpl; intros E; [done| | |by eauto].
    + specialize (Ht _ _ H2). lia.
    + specialize (Ht _ _ H1). lia.
Qed.

(** Storing an entry under an absent key with a fresh tick. *)
Lemma store_inv c key e n :
  result_inv c → rmap c !! key = None → nbytes e = n → 0 ≤ n →
  (∀ k s, rmap c !! k = Some s → last_used s < tick c) →
  result_inv (mkResultInner (<[key := mkSlot e (tick c)]> (rmap c)) (add_stored (stats c) n) (tick c)).
Proof.
  intros [Hc Hb Hn Ht Hd] Hk He Hp Hlt. split; simpl.
  - rewrite Hc, map_size_insert_None by done. lia.
  - rewrite Hb, map_sum_insert_None by done. change (slot_bytes (mkSlot e (tick c))) with (nbytes e). lia.
  - intros k s [[<- <-]|[_ ?]]%lookup_insert_Some; [|by eauto]. unfold slot_bytes. simpl. lia.
  - intros k s [[<- <-]|[_ Hk']]%lookup_insert_Some; [simpl; lia|eauto].
  - intros k1 k2 s1 s2 [[<- <-]|[? H1]]%lookup_insert_Some [[<- <-]|[? H2]]%lookup_insert_Some;
      simpl; intros E; [done| | |by eauto].
    + specialize (Hlt _ _ H2). lia.
    + specialize (Hlt _ _ H1). lia.
Qed.

Lemma sum_nonneg (bs : list B) : 0 ≤ foldr Z.add 0 (approx_bytes <$> bs).
Proof. induction bs as [|b bs IH]; [done|]. rewrite fmap_cons. cbn [foldr]. pose proof (approx_nonneg b). lia. Qed.

(** What [insert_with_substreams] enforces the caps on. *)
Lemma insert_stored_inv c key e n :
  result_inv c → nbytes e = n → 0 ≤ n →
  let c1 := match take_out (ticked c) key with Some (_, c1) => c1 | None => ticked c end in
  let c2 := mkResultInner (<[key := mkSlot e (tick c1)]> (rmap c1)) (add_stored (stats c1) n) (tick c1) in
  result_inv c2 ∧ rmap c2 = <[key := mkSlot e (tick c + 1)]> (rmap c) ∧ tick c2 = tick c + 1.
Proof.
  intros Hi He Hn c1 c2. pose proof (ticked_inv c Hi) as Hi0.
  assert (result_inv c1 ∧ rmap c1 = delete key (rmap c) ∧ tick c1 = tick c + 1) as (Hi1 & Hm1 & Ht1).
  { unfold c1. destruct (take_out (ticked c) key) as [[e0 c0]|] eqn:E.
    - apply take_out_inv in E as (? & ? & ?); [|done]. done.
    - apply take_out_None in E. simpl in E. by rewrite delete_id. }
  unfold c2. split_and!.
  - apply store_inv; [done| |done|done|].
    + rewrite Hm1. apply lookup_delete_eq.
    + rewrite Hm1, Ht1. intros k s [_ Hk]%lookup_delete_Some. pose proof (r_tick _ Hi _ _ Hk). lia.
  - simpl. by rewrite Hm1, Ht1, insert_delete_eq.
  - done.
Qed.

Lemma drop_keys_spec upd c ks :
  counter_only upd → result_inv c →
  result_inv (drop_keys upd c ks) ∧
  (∀ k, rmap (drop_keys upd c ks) !! k = if decide (k ∈ ks) then None else rmap c !! k).
Proof.
  intros Hu. induction ks as [|k0 ks IH] in c |- *; intros Hi; cbn [drop_keys].
  { split; [done|]. intros k. by rewrite decide_False by apply not_elem_of_nil. }
  destruct (take_out c k0) as [[e c1]|] eqn:E.
  - apply take_out_inv in E as (Hi1 & Hm1 & _); [|done].
    destruct (IH (with_stats c1 upd)) as [Hi2 Hl2]; [by apply with_stats_inv|]. split; [done|].
    intros k. rewrite Hl2. simpl. rewrite Hm1. destruct (decide (k = k0)) as [->|Hne].
    + rewrite (decide_True (P := k0 ∈ k0 :: ks)) by (by left). rewrite lookup_delete_eq. by case_decide.
    + by rewrite elem_cons_ne, lookup_delete_ne.
  - apply take_out_None in E. destruct (IH c Hi) as [Hi2 Hl2]. split; [done|]. intros k. rewrite Hl2.
    destruct (decide (k = k0)) as [->|Hne]; [|by rewrite elem_cons_ne].
    rewrite (decide_True (P := k0 ∈ k0 :: ks)) by (by left). by case_decide.
Qed.

Lemma keys_where_elem c p k :
  k ∈ keys_where c p ↔ ∃ s, rmap c !! k = Some s ∧ p (k, s) = true.
Proof.
  unfold keys_where. rewrite list_elem_of_fmap. split.
  - intros [[k' s] [-> Hin]]. apply list_elem_of_filter in Hin as [? ?%elem_of_map_to_list]. eauto.
  - intros (s & Hk & Hp). exists (k, s). split; [done|]. apply list_elem_of_filter.
    by rewrite elem_of_map_to_list.
Qed.

Lemma caps_subset limits c c' : result_inv c → caps limits c → rmap c' ⊆ rmap c → caps limits c'.
Proof.
  intros Hi [He Ht Hb] Hs. split.
  - pose proof (map_subseteq_size _ _ Hs). lia.
  - etrans; [|exact Ht]. clear He Ht Hb.
    assert (∀ m m' : gmap CacheKey (Slot B), m' ⊆ m → (∀ k s, m !! k = Some s → 0 ≤ slot_bytes s) →
      map_sum slot_bytes m' ≤ map_sum slot_bytes m) as Hmono.
    { intros m m'. revert m. induction m' as [|k s m' Hk IH] using map_ind; intros m Hsub Hn.
      - rewrite map_sum_empty. by apply map_sum_nonneg.
      - assert (m !! k = Some s) as Hmk.
        { eapply lookup_weaken; [|exact Hsub]. apply lookup_insert_eq. }
        assert (m' ⊆ delete k m) as Hsub'.
        { apply map_subseteq_spec. intros k' s' Hk'. rewrite lookup_delete_ne by congruence.
          eapply lookup_weaken; [|exact Hsub]. rewrite lookup_insert_ne by congruence. done. }
        rewrite map_sum_insert_None by done.
        pose proof (map_sum_delete slot_bytes m k s Hmk).
        assert (map_sum slot_bytes m' ≤ map_sum slot_bytes (delete k m)) as Hle; [|lia].
        apply IH; [done|]. intros k' s' [_ ?]%lookup_delete_Some. eauto. }
    apply Hmono; [done|]. apply (r_nonneg _ Hi).
  - intros k s Hk. eapply Hb. by eapply lookup_weaken.
Qed.

(** ** Any sequence of requests *)

Inductive cache_req :=
| RGet (key : CacheKey) (now : Z)
| RInsert (key : CacheKey) (bs : list B) (substreams ttl : Z) (control : option CacheControl) (now : Z)
| RSlide (key : CacheKey) (ttl : Z) (control : option CacheControl) (now : Z)
| RRemove (key : CacheKey)
| RFlushScope (scope_ : string)
| RFlushCatalog (cat : string)
| RFlushAll
| RReap (now : Z)
| RSetLimits (limits : CacheLimits).

Definition result_step (st : CacheLimits * ResultInner B) (r : cache_req)
  : CacheLimits * ResultInner B :=
  let '(limits, c) := st in
  match r with
  | RGet key now => (limits, (get c key now).2)
  | RInsert key bs n ttl control now =>
      (limits, insert_with_substreams num_rows approx_bytes limits c key bs n ttl control now)
  | RSlide key ttl control now => (limits, (slide_inner c key ttl control now).2)
  | RRemove key => (limits, (remove c key).2)
  | RFlushScope s => (limits, (flush_scope c s).2)
  | RFlushCatalog s => (limits, (flush_catalog c s).2)
  | RFlushAll => (limits, (flush_all c).2)
  | RReap now => (limits, (reap c now).2)
  | RSetLimits l => (l, (set_limits c l).2)
  end.

Definition limits_ok limits : Prop := 0 ≤ max_entries limits ∧ 0 ≤ max_total_bytes limits.
Definition req_ok (r : cache_req) : Prop := match r with RSetLimits l => limits_ok l | _ => True end.

(** The caps only look at sizes. *)
Lemma caps_touch limits c key slot e s t :
  caps limits c → rmap c !! key = Some slot → nbytes e = slot_bytes slot →
  caps limits (mkResultInner (<[key := mkSlot e t]> (rmap c)) s (tick c)).
Proof.
  intros [He Ht Hb] Hk Hn. split; simpl.
  - by rewrite map_size_insert_Some by eauto.
  - rewrite (map_sum_insert_Some slot_bytes _ _ _ _ Hk).
    change (slot_bytes (mkSlot e t)) with (nbytes e). lia.
  - intros k s' [[<- <-]|[_ ?]]%lookup_insert_Some; [|by eauto].
    change (slot_bytes (mkSlot e t)) with (nbytes e). rewrite Hn. eauto.
Qed.

Lemma drop_keys_ok limits upd c ks :
  counter_only upd → result_inv c → caps limits c →
  result_inv (drop_keys upd c ks) ∧ caps limits (drop_keys upd c ks).
Proof.
  intros Hu Hi Hc. destruct (drop_keys_spec upd c ks Hu Hi) as [Hi' Hl]. split; [done|].
  apply (caps_subset limits c); [done..|]. apply map_subseteq_spec. intros k s. rewrite Hl. by case_decide.
Qed.

Lemma remove_ok limits c key :
  result_inv c → caps limits c → result_inv (remove c key).2 ∧ caps limits (remove c key).2.
Proof.
  intros Hi Hc. unfold remove. destruct (rmap c !! key) as [slot|] eqn:Ek; [|done].
  destruct (take_out c key) as [[e c1]|] eqn:E; [|apply take_out_None in E; congruence].
  pose proof (take_out_inv _ _ _ _ Hi E) as (Hi1 & Hm1 & _). unfold take_out in E.
  rewrite Ek in E. simplify_eq. simpl.
  pose proof (r_count _ Hi1) as Hn. pose proof (r_bytes _ Hi1) as Hb. simpl in Hn, Hb.
  assert (0 ≤ map_sum slot_bytes (delete key (rmap c))) by (apply map_sum_nonneg, (r_nonneg _ Hi1)).
  rewrite !Z.max_r by lia. split; [exact Hi1|].
  apply (caps_subset limits c); [done..|]. apply delete_subseteq.
Qed.

Lemma result_step_ok limits c r :
  limits_ok limits → req_ok r → result_inv c → caps limits c →
  let '(limits', c') := result_step (limits, c) r in
  limits_ok limits' ∧ result_inv c' ∧ caps limits' c'.
Proof.
  intros [He Ht] Hr Hi Hc.
  destruct r as [key now|key bs n ttl cc now|key ttl cc now|key|s|s| |now|l]; cbn [result_step].
  - split; [done|]. unfold get. cbn [ticked rmap]. destruct (rmap c !! key) as [slot|] eqn:Ek.
    2: { split; [by apply with_stats_inv, ticked_inv|by destruct Hc]. }
    destruct (is_stale_at (entry slot) now).
    + destruct (e_revalidatable (entry slot)); simpl.
      { split; [by apply with_stats_inv, ticked_inv|by destruct Hc]. }
      destruct (drop_keys_ok limits add_evictions_ttl (ticked c) [key]) as [Hi' Hc'];
        [done|by apply ticked_inv|by destruct Hc|].
      unfold drop_keys, take_out in Hi', Hc'. simpl in Hi', Hc'. rewrite Ek in Hi', Hc'.
      split; [|by destruct Hc']. exact (with_stats_inv _ add_misses ltac:(done) Hi').
    + simpl. split; [by eapply (slot_touch_inv c key slot (hit_entry (entry slot)) add_hits)|].
      eapply (caps_touch limits (ticked c)); [by destruct Hc|done|done].
  - split; [done|]. unfold insert_with_substreams.
    destruct (max_entry_bytes limits <? _); [split; [by apply with_stats_inv|by destruct Hc]|].
    match goal with |- context [mkSlot ?e0 _] => set (e := e0) end.
    destruct (insert_stored_inv c key e (nbytes e) Hi eq_refl (sum_nonneg bs)) as (Hi2 & _ & _).
    destruct (enforce_caps_spec limits _ Hi2 He Ht) as (Hi3 & Hc3 & _). by split.
  - split; [done|]. unfold slide_inner. cbn [ticked rmap].
    destruct (rmap c !! key) as [slot|] eqn:Ek;
      [|split; [by apply ticked_inv|by destruct Hc]].
    assert (nbytes (slide_entry (entry slot) ttl now cc) = slot_bytes slot) by (by destruct cc).
    simpl. split; [by eapply (slot_touch_inv c key slot _ add_revalidations)|].
    by eapply (caps_touch limits (ticked c)); [destruct Hc| |].
  - split; [done|]. by apply remove_ok.
  - split; [done|]. by apply drop_keys_ok.
  - split; [done|]. by apply drop_keys_ok.
  - split; [done|]. simpl. split; [|split; simpl].
    + split; simpl; [by rewrite map_size_empty|by rewrite map_sum_empty|..];
        intros *; by rewrite lookup_empty.
    + by rewrite map_size_empty.
    + by rewrite map_sum_empty.
    + intros k s. by rewrite lookup_empty.
  - split; [done|]. by apply drop_keys_ok.
  - destruct Hr as [He' Ht']. destruct (enforce_caps_spec l c Hi He' Ht') as (Hi3 & Hc3 & _). done.
Qed.

Lemma result_new_ok limits :
  limits_ok limits → result_inv (ResultCache_new (B := B)) ∧ caps limits (ResultCache_new (B := B)).
Proof.
  intros [? ?]. split; split; simpl; try (by rewrite map_size_empty); try (by rewrite map_sum_empty);
    intros *; by rewrite lookup_empty.
Qed.

(** After any sequence of lookups, insertions, slides, removals, flushes,
    reaps and cap changes, the entry and byte counters equal what the map holds and the entry,
    total-byte and per-entry caps in force all hold. *)
Theorem result_cache_bounded limits rs :
  limits_ok limits → Forall req_ok rs →
  let '(limits', c) := foldl result_step (limits, ResultCache_new) rs in
  result_inv c ∧ caps limits' c.
Proof.
  intros Hl Hr.
  destruct (result_new_ok limits Hl) as [Hi Hc].
  revert Hi Hc. generalize (ResultCache_new (B := B)). intros c.
  induction Hr as [|r rs Hr _ IH] in limits, c, Hl |- *; intros Hi Hc; [done|]. cbn [foldl].
  pose proof (result_step_ok limits c r Hl Hr Hi Hc) as Hs.
  destruct (result_step (limits, c) r) as [limits' c']. apply IH; by destruct Hs as (?&?&?).
Qed.

(** ** What a hit serves *)

(** The specification: the result last stored for a key, when its lifetime was
    last (re)started and how long it lasts, or nothing once revoked. *)
Definition latest (key : CacheKey) (st : CacheLimits * option (list B * Z * Z)) (r : cache_req)
  : CacheLimits * option (list B * Z * Z) :=
  let '(limits, o) := st in
  match r with
  | RInsert k bs _ ttl _ now =>
      if decide (k = key) then
        if max_entry_bytes limits <? foldr Z.add 0 (approx_bytes <$> bs) then (limits, o)
        else (limits, Some (bs, now, ttl))
      else (limits, o)
  | RSlide k ttl _ now =>
      if decide (k = key) then (limits, (λ '(bs, _, _), (bs, now, ttl)) <$> o) else (limits, o)
  | RRemove k => (limits, if decide (k = key) then None else o)
  | RFlushScope s => (limits, if decide (identity_scope key = s) then None else o)
  | RFlushCatalog s => (limits, if decide (catalog key = s) then None else o)
  | RFlushAll => (limits, None)
  | RSetLimits l => (l, o)
  | RGet _ _ | RReap _ => (limits, o)
  end.

Definition slot_view (s : Slot B) : list B * Z * Z :=
  (batches (entry s), stored_at (entry s), default 0 (e_ttl (entry s))).

(** A resident slot is the latest result of its key. *)
Definition serves key c (o : option (list B * Z * Z)) : Prop :=
  ∀ s, rmap c !! key = Some s → is_Some (e_ttl (entry s)) ∧ o = Some (slot_view s).

Lemma serves_subset key c c' o : serves key c o → rmap c' ⊆ rmap c → serves key c' o.
Proof. intros H Hs s Hk. apply H. by eapply lookup_weaken. Qed.

Lemma result_step_serves key limits c o r :
  limits_ok limits → req_ok r → result_inv c → caps limits c → serves key c o →
  let '(limits', c') := result_step (limits, c) r in
  let '(limits2, o') := latest key (limits, o) r in
  limits2 = limits' ∧ serves key c' o'.
Proof.
  intros [He Ht] Hr Hi Hc Hs.
  assert (∀ upd ks, counter_only upd → rmap (drop_keys upd c ks) ⊆ rmap c) as Hdrop.
  { intros upd ks Hu. destruct (drop_keys_spec upd c ks Hu Hi) as [_ Hl].
    apply map_subseteq_spec. intros k s. rewrite Hl. by case_decide. }
  assert (∀ upd p, counter_only upd →
    (∀ s, rmap c !! key = Some s → p (key, s) = true) →
    serves key (drop_keys upd c (keys_where c p)) None) as Hgone.
  { intros upd p Hu Hp s. destruct (drop_keys_spec upd c (keys_where c p) Hu Hi) as [_ Hl].
    rewrite Hl. case_decide as Hin; [done|]. intros Hk. exfalso. apply Hin, keys_where_elem. eauto. }
  destruct r as [k now|k bs n ttl cc now|k ttl cc now|k|s|s| |now|l]; cbn [result_step latest].
  - split; [done|]. unfold get. cbn [ticked rmap]. destruct (rmap c !! k) as [slot|] eqn:Ek; [|done].
    destruct (is_stale_at (entry slot) now); [destruct (e_revalidatable (entry slot)); [done|]|].
    + eapply serves_subset; [exact Hs|]. simpl. apply delete_subseteq.
    + intros s. simpl. intros [[-> <-]|[_ ?]]%lookup_insert_Some; [|by apply Hs].
      exact (Hs slot Ek).
  - unfold insert_with_substreams.
    destruct (max_entry_bytes limits <? foldr Z.add 0 (approx_bytes <$> bs)) eqn:Eb;
      [by case_decide|].
    match goal with |- context [mkSlot ?e0 _] => set (e := e0) end.
    destruct (insert_stored_inv c k e (nbytes e) Hi eq_refl (sum_nonneg bs)) as (Hi2 & Hm2 & _).
    destruct (enforce_caps_spec limits _ Hi2 He Ht) as (_ & _ & Hsub & _).
    rewrite Hm2 in Hsub. case_decide as Hk; (split; [done|]); intros s Hk';
      (eapply lookup_weaken in Hk'; [|exact Hsub]);
      apply lookup_insert_Some in Hk' as [[? <-]|[? ?]]; try congruence; [|by apply Hs].
    split; [by eexists|done].
  - unfold slide_inner. cbn [ticked rmap]. destruct (rmap c !! k) as [slot|] eqn:Ek.
    + case_decide as Hk; (split; [done|]); intros s; simpl;
        intros [[-> <-]|[? Hk']]%lookup_insert_Some; try congruence; [|by apply Hs].
      destruct (Hs slot) as [_ ->]; [by subst|]. destruct cc; (split; [by eexists|done]).
    + case_decide as Hk; (split; [done|]); [|done]. subst. intros s Hk'. simpl in Hk'. congruence.
  - split; [done|]. unfold remove. destruct (rmap c !! k) as [slot|] eqn:Ek; case_decide as Hk.
    + subst. intros s. simpl. by rewrite lookup_delete_eq.
    + eapply serves_subset; [exact Hs|]. apply delete_subseteq.
    + subst. intros s. simpl. congruence.
    + done.
  - split; [done|]. case_decide as Hk; [|by eapply serves_subset; [exact Hs|apply Hdrop]].
    apply Hgone; [done|]. intros s' _. by apply bool_decide_eq_true.
  - split; [done|]. case_decide as Hk; [|by eapply serves_subset; [exact Hs|apply Hdrop]].
    apply Hgone; [done|]. intros s' _. by apply bool_decide_eq_true.
  - split; [done|]. intros s. simpl. by rewrite lookup_empty.
  - split; [done|]. eapply serves_subset; [exact Hs|by apply Hdrop].
  - split; [done|]. destruct Hr as [He' Ht']. destruct (enforce_caps_spec l c Hi He' Ht') as (_ & _ & ? & _).
    by eapply serves_subset.
Qed.

Lemma result_run_serves key limits c o rs :
  limits_ok limits → Forall req_ok rs → result_inv c → caps limits c → serves key c o →
  serves key (foldl result_step (limits, c) rs).2 (foldl (latest key) (limits, o) rs).2.
Proof.
  intros Hl Hr. induction Hr as [|r rs Hr _ IH] in limits, c, o, Hl |- *; intros Hi Hc Hs; [done|].
  cbn [foldl]. pose proof (result_step_ok limits c r Hl Hr Hi Hc) as H1.
  pose proof (result_step_serves key limits c o r Hl Hr Hi Hc Hs) as H2.
  destruct (result_step (limits, c) r) as [l1 c1]. destruct (latest key (limits, o) r) as [l2 o2].
  destruct H1 as (?&?&?). destruct H2 as [-> ?]. by apply IH.
Qed.

(** C9: A lookup only ever serves the result most recently stored for
    exactly that key and not since removed or flushed, and only strictly within the lifetime that
    the last insertion or revalidation gave it. *)
Theorem result_cache_serves_latest limits rs key now e :
  limits_ok limits → Forall req_ok rs →
  let c := (foldl result_step (limits, ResultCache_new) rs).2 in
  (get c key now).1 = Some e →
  ∃ since ttl, (foldl (latest key) (limits, None) rs).2 = Some (batches e, since, ttl) ∧
    now - since < ttl.
Proof.
  intros Hl Hr c Hg.
  assert (serves key c (foldl (latest key) (limits, None) rs).2) as Hs.
  { destruct (result_new_ok limits Hl) as [Hi Hc]. by apply result_run_serves. }
  unfold get in Hg. cbn [ticked rmap] in Hg. destruct (rmap c !! key) as [slot|] eqn:Ek; [|done].
  destruct (Hs slot Ek) as [[ttl Httl] ->].
  destruct (is_stale_at (entry slot) now) eqn:Est; [done|]. simpl in Hg. simplify_eq/=.
  exists (stored_at (entry slot)), ttl. unfold slot_view. rewrite Httl. split; [done|].
  unfold is_stale_at, duration_since in Est. rewrite Httl in Est. apply Z.leb_gt in Est. lia.
Qed.

(** ** A stored result is found again *)

(** The most recently used entry survives enforcement when it fits on its own. *)
Lemma enforce_loop_keeps fuel limits c key s :
  result_inv c → rmap c !! key = Some s → 1 ≤ max_entries limits →
  slot_bytes s ≤ max_total_bytes limits → has_oversized limits c = false →
  (∀ k s', rmap c !! k = Some s' → k ≠ key → last_used s' < last_used s) →
  rmap (enforce_loop fuel limits c) !! key = Some s.
Proof.
  intros Hi Hk He Ht Ho Hlt. induction fuel as [|fuel IH] in c, Hi, Hk, Ho, Hlt |- *; [done|].
  cbn [enforce_loop]. destruct (over_caps limits c) eqn:Eo; [|done].
  pose proof (victim_spec limits c) as Hv. destruct (victim limits c) as [k0|]; [|done].
  destruct Hv as (s0 & Hk0 & _ & Hmin).
  destruct (take_out c k0) as [[e c1]|] eqn:E1; [|apply take_out_None in E1; congruence].
  apply take_out_inv in E1 as (Hi1 & Hm1 & _); [|done].
  assert (k0 ≠ key) as Hne.
  { intros ->. assert (s0 = s) as -> by congruence.
    assert (rmap c = {[key := s]}) as Hone.
    { apply map_eq. intros k. destruct (decide (k = key)) as [->|Hkne];
        [by rewrite lookup_singleton_eq|]. rewrite lookup_singleton_ne by done.
      destruct (rmap c !! k) as [s'|] eqn:Ek; [|done]. specialize (Hlt _ _ Ek Hkne).
      assert (last_used s ≤ last_used s') by (eapply Hmin; [done|congruence]). lia. }
    unfold over_caps in Eo. rewrite Ho, (r_count _ Hi), (r_bytes _ Hi), Hone in Eo.
    rewrite map_size_singleton in Eo. unfold singletonM, map_singleton in Eo.
    rewrite map_sum_insert_None, map_sum_empty in Eo by apply lookup_empty.
    apply orb_true_iff in Eo as [Eo%Z.ltb_lt|Eo%Z.ltb_lt]; lia. }
  apply IH.
  - by apply with_stats_inv.
  - simpl. rewrite Hm1. by rewrite lookup_delete_ne.
  - apply not_true_is_false. intros (k2 & s2 & H2 & H2')%has_oversized_true. simpl in H2.
    rewrite Hm1 in H2. apply lookup_delete_Some in H2 as [_ H2].
    assert (has_oversized limits c = true) by (apply has_oversized_true; eauto). congruence.
  - simpl. rewrite Hm1. intros k s' [_ ?]%lookup_delete_Some. by apply Hlt.
Qed.

(** A result that fits the caps is served, batch for batch, by every lookup of
    its key before its lifetime is over, whatever had to be evicted to make room. *)
Theorem insert_then_get limits c key bs n ttl control now now' :
  result_inv c → caps limits c → 1 ≤ max_entries limits →
  foldr Z.add 0 (approx_bytes <$> bs) ≤ Z.min (max_entry_bytes limits) (max_total_bytes limits) →
  now ≤ now' < now + ttl →
  let c' := insert_with_substreams num_rows approx_bytes limits c key bs n ttl control now in
  ∃ e, (get c' key now').1 = Some e ∧ batches e = bs ∧ caps limits c'.
Proof.
  intros Hi Hc He Hfit Hnow c'. unfold c', insert_with_substreams.
  destruct (Z.ltb_spec (max_entry_bytes limits) (foldr Z.add 0 (approx_bytes <$> bs))); [lia|].
  match goal with |- context [mkSlot ?e0 _] => set (e := e0) end.
  pose proof (sum_nonneg bs) as Hs0.
  destruct (insert_stored_inv c key e (nbytes e) Hi eq_refl Hs0) as (Hi2 & Hm2 & Ht2).
  set (c2 := mkResultInner _ _ _) in *.
  destruct (enforce_caps_spec limits c2 Hi2 ltac:(lia) ltac:(lia)) as (_ & Hc3 & _).
  assert (rmap (enforce_caps limits c2) !! key = Some (mkSlot e (tick c + 1))) as Hk.
  { apply enforce_loop_keeps; [done|rewrite Hm2; apply lookup_insert_eq|done| | |].
    - change (slot_bytes (mkSlot e (tick c + 1))) with (nbytes e). simpl. lia.
    - apply not_true_is_false. intros (k2 & s2 & H2 & H2')%has_oversized_true.
      unfold oversized in H2'. apply Z.ltb_lt in H2'. rewrite Hm2 in H2.
      apply lookup_insert_Some in H2 as [[_ <-]|[_ H2]]; [simpl in H2'; lia|].
      pose proof (cap_entry _ _ Hc _ _ H2) as Hb. unfold slot_bytes in Hb. lia.
    - rewrite Hm2. intros k s' [[? _]|[_ Hk]]%lookup_insert_Some Hne; [congruence|].
      pose proof (r_tick _ Hi _ _ Hk). simpl. lia. }
  exists (hit_entry e). unfold get. cbn [ticked rmap]. rewrite Hk. cbn [entry].
  assert (is_stale_at e now' = false) as ->; [|done].
  unfold is_stale_at, duration_since. simpl. apply Z.leb_gt. lia.
Qed.

(** Flushing an identity drops every entry of that identity and leaves
    every other one, of the same catalog or not, exactly as it was; the count reported is how many
    went. *)
Theorem flush_scope_isolates c scope_ :
  result_inv c →
  (∀ k, rmap (flush_scope c scope_).2 !! k =
        if decide (identity_scope k = scope_) then None else rmap c !! k) ∧
  (flush_scope c scope_).1 = Z.of_nat (size (rmap c)) - Z.of_nat (size (rmap (flush_scope c scope_).2)).
Proof.
  intros Hi. unfold flush_scope. set (p := λ e, _). cbn [fst snd].
  destruct (drop_keys_spec id c (keys_where c p) ltac:(done) Hi) as [Hi' Hl].
  assert (∀ k, rmap (drop_keys id c (keys_where c p)) !! k =
    if decide (identity_scope k = scope_) then None else rmap c !! k) as Hm.
  { intros k. rewrite Hl. destruct (decide (k ∈ keys_where c p)) as [Hd|Hd],
      (decide (identity_scope k = scope_)) as [Hs|Hs]; try done.
    - apply keys_where_elem in Hd as (s & _ & Hp). unfold p in Hp.
      by apply bool_decide_eq_true in Hp.
    - destruct (rmap c !! k) as [s|] eqn:Ek; [|done]. exfalso. apply Hd, keys_where_elem.
      exists s. split; [done|]. unfold p. by apply bool_decide_eq_true. }
  split; [done|].
  assert (rmap (drop_keys id c (keys_where c p)) = filter (λ e, ¬ p e = true) (rmap c)) as ->.
  { apply map_eq. intros k. rewrite Hm.
    rewrite (lookup_filter_key (λ k : CacheKey, ¬ identity_scope k = scope_)).
    - by repeat case_decide.
    - intros k' v. unfold p. by rewrite bool_decide_eq_true. }
  unfold keys_where. rewrite length_fmap.
  rewrite <- (map_filter_union_complement (λ e, p e = true) (rmap c)) at 2.
  rewrite map_size_disj_union by apply map_disjoint_filter_complement.
  rewrite <- (length_map_to_list (filter (λ e, p e = true) (rmap c))).
  rewrite (Permutation_length (map_to_list_filter_perm (λ e, p e = true) (rmap c))). lia.
Qed.
End facts.

(** * Identity of a key *)

(** What the field types guarantee: lengths and integers of machine width. *)
Definition key_ok (k : CacheKey) : Prop :=
  (fits_u64 (as_bytes (catalog k)) ∧ fits_u64 (as_bytes (identity_scope k)) ∧
   fits_u64 (as_bytes (worker_label k)) ∧ fits_u64 (as_bytes (function k))) ∧
  fits_u64 (arguments k) ∧ option_ok (λ l, fits_u64 l ∧ Forall i64_range l) (projection k) ∧
  option_ok fits_u64 (filters k) ∧ i64_range (catalog_version k) ∧
  option_ok (λ p, fits_u64 (as_bytes p.1) ∧ fits_u64 (as_bytes p.2)) (at_ k) ∧
  fits_u64 (settings k) ∧ fits_u64 (attach_options k) ∧ option_ok i64_range (row_limit k) ∧
  option_ok fits_u64 (ordering k) ∧ option_ok fits_u64 (sample k) ∧ option_ok fits_u64 (plan k).

(** Peel one self-delimiting field off an equation of encodings. *)
Ltac peel d :=
  match goal with
  | E : ?enc ?x ++ _ = ?enc ?y ++ _ |- _ =>
      let E1 := fresh "Eq" in
      apply d in E as [E1 E]; [|done..]
  end.

(** Two cache keys have the same stable encoding only if they agree on
    every field: no identity, argument, filter, setting or version of one scan can be confused
    with another's. *)
Theorem stable_bytes_injective k1 k2 :
  key_ok k1 → key_ok k2 → stable_bytes k1 = stable_bytes k2 → k1 = k2.
Proof.
  intros ((A1 & A2 & A3 & A4) & A5 & A6 & A7 & A8 & A9 & A10 & A11 & A12 & A13 & A14 & A15)
    ((B1 & B2 & B3 & B4) & B5 & B6 & B7 & B8 & B9 & B10 & B11 & B12 & B13 & B14 & B15) E.
  unfold stable_bytes in E. apply app_inv_head in E.
  pose proof (delimiting_option _ _ (delimiting_list _ _ delimiting_i64)) as Dl.
  pose proof (delimiting_option _ _ delimiting_bytes) as Db.
  pose proof (delimiting_option _ _ delimiting_i64) as Di.
  pose proof (delimiting_option _ _ (delimiting_pair _ _ _ _ delimiting_string delimiting_string)) as Dp.
  do 4 peel delimiting_string. peel delimiting_bytes. peel Dl. peel Db. peel delimiting_i64. peel Dp.
  do 2 peel delimiting_bytes. peel Di. do 2 peel Db.
  apply (delimiting_inj _ _ _ _ Db) in E; [|done..].
  destruct k1, k2. simpl in *. by subst.
Qed.

(** * Admission *)

(** A result is admitted only with a resolved identity, directives that do
    not forbid storing, the catalog scope and a size within the cap; its lifetime is positive
    unless a validator makes an immediately stale copy reusable, and an explicit TTL is never
    replaced by the deadline or the client's default. *)
Theorem eligibility_sound parse limits control scope_ n now d :
  0 ≤ default_ttl limits → (∀ cc s, control = Some cc → ttl_seconds cc = Some s → 0 ≤ s) →
  eligibility parse limits control scope_ n now = Ok d →
  is_Some scope_ ∧ n ≤ max_entry_bytes limits ∧
  ∃ cc, control = Some cc ∧ no_store cc = false ∧ scope cc = CACHE_SCOPE_CATALOG ∧
    (0 < d ∨ d = 0 ∧ has_validator cc = true) ∧
    (∀ s, ttl_seconds cc = Some s → d = s * NANOS) ∧
    (ttl_seconds cc = None → expires cc = None → d = default_ttl limits).
Proof.
  intros Hdef Httl. unfold eligibility, admissible. destruct scope_ as [sc|]; [|done].
  destruct control as [cc|]; [|done]. specialize (Httl cc).
  destruct (no_store cc) eqn:Ens; [done|]. case_decide; [done|]. case_decide as Hsc; [done|].
  destruct (Z.ltb_spec (max_entry_bytes limits) n); [done|].
  unfold freshness_lifetime_at. destruct (advertised_lifetime parse limits cc now) as [d'|] eqn:Ea; [|done].
  destruct ((d' =? 0) && negb (has_validator cc)) eqn:Ez; [done|]. intros [= ->].
  split; [by eexists|]. split; [lia|]. exists cc.
  assert (0 ≤ d ∧ (∀ s, ttl_seconds cc = Some s → d = s * NANOS) ∧
    (ttl_seconds cc = None → expires cc = None → d = default_ttl limits)) as (Hd & ? & ?).
  { unfold advertised_lifetime in Ea. unfold NANOS in *.
    destruct (ttl_seconds cc) as [s|] eqn:Et; [specialize (Httl s eq_refl eq_refl)|];
      repeat (case_match; simplify_eq/=); try (split_and!; naive_solver lia). }
  split_and!; [done|done| | |done|done].
  { destruct (decide (scope cc = CACHE_SCOPE_CATALOG)); [done|]. exfalso. eauto. }
  destruct (Z.eqb_spec d 0) as [->|]; [right|left; lia]. split; [done|].
  simpl in Ez. by apply negb_false_iff in Ez.
Qed.

(** A lifetime that [eligibility] admits can be past the last representable
    instant, and the age of such an entry cannot be computed: the addition panics, where
    [freshness_deadline] would have refused the same directives. *)
Theorem huge_ttl_panics (parse : string → option Z) :
  let cc := ttl (2 ^ 63 - 1) in
  let d := (2 ^ 63 - 1) * NANOS in
  eligibility parse CacheLimits_default (Some cc) (Some "id"%string) 10 0 = Ok d ∧
  freshness_deadline parse CacheLimits_default (Some cc) (Some "id"%string) NANOS NANOS
    = Err NoFreshness ∧
  ∀ (b : Z) limits, 10 ≤ max_entry_bytes limits → 10 ≤ max_total_bytes limits →
    1 ≤ max_entries limits →
    ∀ k, ∃ slot,
      rmap (insert_with_substreams (λ _, 1) (λ _, 10) limits ResultCache_new k [b] 1 d (Some cc) NANOS)
        !! k = Some slot ∧ may_serve_on_error_at (entry slot) (2 * NANOS) = TimePanic.
Proof.
  intros cc d. split_and!; [vm_compute; reflexivity..|].
  intros b limits H1 H2 H3 k. eexists. split.
  - unfold insert_with_substreams, take_out. cbn [ticked ResultCache_new rmap].
    rewrite lookup_empty. cbn -[enforce_caps Z.ltb].
    destruct (Z.ltb_spec (max_entry_bytes limits) (10 + 0)); [lia|].
    unfold enforce_caps. cbn [enforce_loop].
    match goal with |- context [over_caps limits ?c] => assert (over_caps limits c = false) as -> end.
    { unfold over_caps, has_oversized. simpl. rewrite insert_empty, map_to_list_singleton. simpl.
      unfold oversized. cbn -[Z.ltb Z.add].
      rewrite !orb_false_iff, !Z.ltb_ge. lia. }
    apply lookup_insert_eq.
  - vm_compute. reflexivity.
Qed.

(** * The limits lock *)

(** [std::sync::RwLock] where a waiting writer blocks new readers, which its
    documentation allows and the futex implementation does. *)
Module LimitsLock.

Inductive lock_op := ReadLock | ReadUnlock | WriteLock | WriteUnlock.

#[global] Instance lock_op_eq_dec : EqDecision lock_op.
Proof. solve_decision. Defined.

(** [eligibility] keeps its read guard across [freshness_lifetime_at], which
    takes another; [freshness_at] takes one; [set_limits] writes. *)
Definition eligibility_locks : list lock_op := [ReadLock; ReadLock; ReadUnlock; ReadUnlock].
Definition freshness_at_locks : list lock_op := [ReadLock; ReadUnlock].
Definition set_limits_locks : list lock_op := [WriteLock; WriteUnlock].

Record lock_state := mkLock {
  readers : nat;
  writer : bool;
  waiting : list nat; (* threads parked in [write] *)
  threads : list (list lock_op);
}.

(** One step of thread [i], or nothing when it has to wait. *)
Definition lock_step (st : lock_state) (i : nat) : option lock_state :=
  match threads st !! i with
  | Some (ReadLock :: rest) =>
      if negb (writer st) && bool_decide (waiting st = []) then
        Some (mkLock (S (readers st)) false (waiting st) (<[i := rest]> (threads st)))
      else None
  | Some (ReadUnlock :: rest) =>
      Some (mkLock (pred (readers st)) (writer st) (waiting st) (<[i := rest]> (threads st)))
  | Some (WriteLock :: rest) =>
      if negb (writer st) && (readers st =? 0)%nat then
        Some (mkLock 0 true (filter (λ j, j ≠ i) (waiting st)) (<[i := rest]> (threads st)))
      else if decide (i ∈ waiting st) then None
      else Some (mkLock (readers st) (writer st) (i :: waiting st) (threads st))
  | Some (WriteUnlock :: rest) =>
      Some (mkLock (readers st) false (waiting st) (<[i := rest]> (threads st)))
  | _ => None
  end.

Definition lock_start (ts : list (list lock_op)) : lock_state := mkLock 0 false [] ts.

Fixpoint lock_run (st : lock_state) (schedule : list nat) : option lock_state :=
  match schedule with
  | [] => Some st
  | i :: schedule => match lock_step st i with Some st => lock_run st schedule | None => None end
  end.

Definition finished (st : lock_state) : Prop := Forall (λ t, t = []) (threads st).
Definition stuck (st : lock_state) : Prop := ∀ i, lock_step st i = None.

(** A cap change that arrives between the two reads of
    [eligibility] leaves both threads waiting for each other for ever; with the single read of
    [freshness_at] the same schedule goes through. *)
Theorem eligibility_lock_can_deadlock :
  (∃ st, lock_run (lock_start [eligibility_locks; set_limits_locks]) [0; 1]%nat = Some st ∧
     stuck st ∧ ¬ finished st) ∧
  (∃ st, lock_run (lock_start [freshness_at_locks; set_limits_locks]) [0; 1; 0; 1; 1]%nat = Some st ∧
     finished st).
Proof.
  split.
  - eexists. split; [vm_compute; reflexivity|]. split.
    + intros [|[|[|i]]]; vm_compute; reflexivity.
    + intros Hf. inversion Hf; discriminate.
  - eexists. split; [vm_compute; reflexivity|]. repeat constructor.
Qed.
End LimitsLock.

(** * Witnesses *)

Definition ex_key (name : string) : CacheKey :=
  mkCacheKey "cat" "cat|alice" "worker" name [x01] None (Some [x02]) 3 None [] [] None None None None.

Definition ex_limits : CacheLimits := mkLimits 100 150 2 0.

Definition ex_reqs : list (cache_req (B := Z)) :=
  [RInsert (ex_key "f") [1] 1 1000 None 5; RInsert (ex_key "g") [2] 1 1000 None 6;
   RSlide (ex_key "f") 500 None 100].

Lemma result_cache_bounded_witness :
  let '(limits', c) :=
    foldl (result_step (λ _ : Z, 1) (λ _, 60)) (ex_limits, ResultCache_new) ex_reqs in
  result_inv c ∧ caps limits' c.
Proof.
  refine (result_cache_bounded (λ _ : Z, 1) (λ _, 60) ltac:(lia) ex_limits ex_reqs _ _).
  - done.
  - repeat constructor.
Defined.

Lemma result_cache_serves_latest_witness :
  ∃ since ttl,
    (foldl (latest (λ _ : Z, 60) (ex_key "f")) (ex_limits, None) ex_reqs).2 = Some ([1], since, ttl) ∧
    599 - since < ttl.
Proof.
  refine (result_cache_serves_latest (λ _ : Z, 1) (λ _, 60) ltac:(lia) ex_limits ex_reqs (ex_key "f") 599
    (mkEntry [1] 1 1 60 100 (Some 500) None None false 0 0 1) _ _ _).
  - done.
  - repeat constructor.
  - vm_compute. reflexivity.
Defined.

Lemma insert_then_get_witness :
  ∃ e, (get (insert_with_substreams (λ _, 1) (λ _, 60) ex_limits (ResultCache_new (B := Z))
     (ex_key "h") [7] 1 50 None 10) (ex_key "h") 40).1 = Some e ∧ batches e = [7] ∧
     caps ex_limits (insert_with_substreams (λ _, 1) (λ _, 60) ex_limits (ResultCache_new (B := Z))
     (ex_key "h") [7] 1 50 None 10).
Proof.
  refine (insert_then_get (λ _ : Z, 1) (λ _, 60) ltac:(lia) ex_limits ResultCache_new (ex_key "h") [7]
    1 50 None 10 40 _ _ _ _ _).
  - by apply (result_new_ok ex_limits).
  - by apply result_new_ok.
  - done.
  - done.
  - done.
Defined.

Lemma flush_scope_isolates_witness :
  (flush_scope (ResultCache_new (B := Z)) "cat|bob").1 = 0.
Proof.
  rewrite (proj2 (flush_scope_isolates (ResultCache_new (B := Z)) "cat|bob"
    (proj1 (result_new_ok ex_limits ltac:(done))))). vm_compute. reflexivity.
Defined.

Lemma stable_bytes_injective_witness :
  bool_decide (stable_bytes (ex_key "f") = stable_bytes (ex_key "g")) = false ∧
  ex_key "fg" = ex_key ("f" +:+ "g").
Proof.
  split; [vm_compute; reflexivity|].
  apply stable_bytes_injective; [..|reflexivity];
    unfold key_ok, fits_u64, i64_range, option_ok; simpl; lia.
Defined.

Lemma eligibility_sound_witness :
  is_Some (Some "id"%string) ∧ 10 ≤ max_entry_bytes ex_limits ∧
  ∃ cc, Some (ttl 60) = Some cc ∧ no_store cc = false ∧ scope cc = CACHE_SCOPE_CATALOG ∧
    (0 < 60 * NANOS ∨ 60 * NANOS = 0 ∧ has_validator cc = true) ∧
    (∀ s, ttl_seconds cc = Some s → 60 * NANOS = s * NANOS) ∧
    (ttl_seconds cc = None → expires cc = None → 60 * NANOS = default_ttl ex_limits).
Proof.
  apply (eligibility_sound (λ _, None) ex_limits (Some (ttl 60)) (Some "id"%string) 10 0 (60 * NANOS)).
  - done.
  - intros cc s [= <-]. simpl. intros [= <-]. done.
  - vm_compute. reflexivity.
Defined.
