(* ===== verification/Aead.v ===== *)
(** The authenticated encryption of [vgi_rpc::crypto], a library: the interface
    the token components are written against, what they rely
    on, and an instance that shows the laws can hold. *)
From S2P Require Import Prelude Codec.

Open Scope Z_scope.

(** [seal_bytes(payload, key, aad, version)] with the nonce it draws first,
    [open_bytes(sealed, key, aad, version)], and the cipher's key that a key of any
    length stands for. *)
Class Aead := {
  normalize_key : bytes → bytes;
  seal_bytes : bytes → bytes → bytes → bytes → byte → bytes;
  open_bytes : bytes → bytes → bytes → byte → result bytes string;
}.

(** A sealed box opens to its payload under its own key, associated data and
    version; nothing but a box sealed so opens; boxes of different contents or
    under different normalized keys differ, a 32-byte key being its own
    normalization, and the box depends on a key through its normalization only; and
    a box is never empty (it starts with the version byte). *)
Class AeadLaws `{Aead} : Prop := {
  normalize_32 k : length k = 32%nat → normalize_key k = k;
  aead_normalized nonce p k k' a v : normalize_key k = normalize_key k' →
    seal_bytes nonce p k a v = seal_bytes nonce p k' a v;
  aead_open nonce p k a v : open_bytes (seal_bytes nonce p k a v) k a v = Ok p;
  aead_auth c k a v p : open_bytes c k a v = Ok p → ∃ nonce, c = seal_bytes nonce p k a v;
  aead_bind nonce nonce' p p' k k' a a' v v' :
    seal_bytes nonce p k a v = seal_bytes nonce' p' k' a' v' →
    p = p' ∧ normalize_key k = normalize_key k' ∧ a = a' ∧ v = v';
  aead_nonempty nonce p k a v : seal_bytes nonce p k a v ≠ [];
}.

(** * An instance *)

(** A self-delimiting string of bytes. *)
Fixpoint box_enc (b : bytes) : bytes := match b with [] => [x00] | c :: r => x01 :: c :: box_enc r end.
Fixpoint box_dec (l : bytes) : option (bytes * bytes) :=
  match l with
  | x00 :: r => Some ([], r)
  | x01 :: c :: r => '(b, r') ← box_dec r; Some (c :: b, r')
  | _ => None
  end.

Lemma box_dec_enc b r : box_dec (box_enc b ++ r) = Some (b, r).
Proof. induction b as [|c b IH]; [done|]. cbn. by rewrite IH. Qed.

(** A key cut or padded to 32 bytes. *)
Definition box_key (k : bytes) : bytes := take 32 (k ++ replicate 32 x00).
Definition box_seal (nonce p k a : bytes) (v : byte) : bytes := v :: box_enc p ++ box_enc (box_key k) ++ a.
Definition box_open (c k a : bytes) (v : byte) : result bytes string :=
  match c with
  | [] => Err "tag"%string
  | _ :: r => match box_dec r with
              | Some (p, _) => if decide (c = box_seal [] p k a v) then Ok p else Err "tag"%string
              | None => Err "tag"%string
              end
  end.

#[global] Instance box_aead : Aead := { normalize_key := box_key; seal_bytes := box_seal; open_bytes := box_open }.

#[global] Instance box_laws : AeadLaws.
Proof.
  split.
  - intros k Hk. cbn. unfold box_key. by rewrite take_app_length'.
  - intros n p k k' a v Hk. cbn in *. unfold box_seal. by rewrite Hk.
  - intros n p k a v. simpl. rewrite box_dec_enc. by rewrite decide_True.
  - intros c k a v p. simpl. unfold box_open. destruct c as [|x r]; [done|].
    destruct (box_dec r) as [[p' r']|]; [|done]. case_decide as E; [|done]. intros [= ->].
    exists []. exact E.
  - intros n n' p p' k k' a a' v v' [= -> E]. apply (f_equal box_dec) in E.
    rewrite !box_dec_enc in E. injection E as -> E. apply (f_equal box_dec) in E.
    rewrite !box_dec_enc in E. by injection E.
  - done.
Qed.
