(* ===== verification/SplitToken.v ===== *)
(** The split-token envelope of [vgi/src/split_token.rs]: a plaintext header
    (version, flags, bind fingerprint, consistency anchor) and a payload that
    is sealed when the worker holds a key.  SHA-256 is a
    parameter; the AEAD of [vgi_rpc::crypto] is the interface [Aead]. *)
From S2P Require Import Prelude Codec Aead.

Open Scope Z_scope.

Definition SPLIT_TOKEN_FORMAT_VERSION : byte := x01.
Definition FLAG_PAYLOAD_SEALED : Z := 1.
Definition RESERVED_FLAGS_MASK : Z := 254.
Definition FINGERPRINT_LEN : nat := 16.
Definition HEADER_LEN : nat := 4 + FINGERPRINT_LEN.
Definition SEAL_VERSION : byte := x01.
Definition AAD_PREFIX : bytes := as_bytes "vgi.split_token.v1" ++ [x00].

(** Why a token is refused; the message of [Invalid] as its cause. *)
Inductive invalid_cause :=
| BadFingerprintLength (n : nat)
| AnchorTooLong (n : nat)
| TooShort (n : nat)
| UnsupportedVersion (v : byte)
| ReservedFlags (flags : byte)
| UnsealedButKeyed
| SealedButKeyless
| Truncated (anchor_len : Z) (n : nat)
| FingerprintMismatch
| FailedAuthentication (e : string).

Inductive SplitTokenError :=
| Invalid (cause : invalid_cause)
| SnapshotExpired
| TransactionEnded.

Definition kind (e : SplitTokenError) : string :=
  match e with
  | Invalid _ => "SPLIT_TOKEN_INVALID"
  | SnapshotExpired => "SPLIT_SNAPSHOT_EXPIRED"
  | TransactionEnded => "SPLIT_TRANSACTION_ENDED"
  end.

(** A caller: [(domain, principal)], or nobody. *)
Abbreviation Auth := (option (string * string)).

Definition identity_tail (auth : Auth) : bytes :=
  match auth with
  | None => x00 :: as_bytes "anonymous"
  | Some (domain, principal) => x01 :: as_bytes domain ++ [x00] ++ as_bytes principal
  end.

(** One [feed(label, value)] of the fingerprint. *)
Definition feed (label : string) (value : bytes) : bytes :=
  as_bytes label ++ [x00] ++ value ++ [x00].

(** The bytes the fingerprint hashes. *)
Definition fingerprint_preimage (schema_path : list string) (function_name : string)
    (arguments settings projection : bytes) : bytes :=
  AAD_PREFIX ++ (schema_path ≫= λ c, feed "schema_path_component" (as_bytes c)) ++
  feed "function_name" (as_bytes function_name) ++ feed "arguments" arguments ++
  feed "settings" settings ++ feed "projection_ids" projection.

(** The bytes between two values: [\0settings\0]. *)
Definition feed_sep : bytes := [x00] ++ as_bytes "settings" ++ [x00].

Section token.
Context (sha256 : bytes → bytes).
Context `{Aead}.

Definition bind_fingerprint (schema_path : list string) (function_name : string)
    (arguments settings projection : bytes) : bytes :=
  take FINGERPRINT_LEN
    (sha256 (fingerprint_preimage schema_path function_name arguments settings projection)).

Definition split_token_aad (header : bytes) (auth : Auth) : bytes := header ++ identity_tail auth.

(** The plaintext header with its anchor. *)
Definition token_header (fingerprint anchor : bytes) (sealed : bool) : bytes :=
  [SPLIT_TOKEN_FORMAT_VERSION; if sealed then x01 else x00] ++
  le_bytes 2 (Z.of_nat (length anchor)) ++ fingerprint ++ anchor.

Definition build_split_token (nonce payload fingerprint anchor : bytes) (signing_key : option bytes)
    (auth : Auth) : result bytes SplitTokenError :=
  if negb (length fingerprint =? FINGERPRINT_LEN)%nat then
    Err (Invalid (BadFingerprintLength (length fingerprint)))
  else if 65535 <? Z.of_nat (length anchor) then Err (Invalid (AnchorTooLong (length anchor)))
  else
    match signing_key with
    | None => Ok (token_header fingerprint anchor false ++ payload)
    | Some key =>
        let body := token_header fingerprint anchor true in
        Ok (body ++ seal_bytes nonce payload key (split_token_aad body auth) SEAL_VERSION)
    end.

Definition byte_at (l : bytes) (i : nat) : byte := default x00 (l !! i).

(** [None] skips the check. *)
Definition mismatch (expected : option bytes) (actual : bytes) : bool :=
  match expected with Some e => negb (bool_decide (actual = e)) | None => false end.

Definition open_split_token (token : bytes) (signing_key : option bytes) (auth : Auth)
    (expected_fingerprint current_anchor : option bytes) : result bytes SplitTokenError :=
  if (length token <? HEADER_LEN)%nat then Err (Invalid (TooShort (length token)))
  else
    let version := byte_at token 0 in
    let flags := Z_of_byte (byte_at token 1) in
    let anchor_len := le_val [byte_at token 2; byte_at token 3] in
    if negb (Byte.eqb version SPLIT_TOKEN_FORMAT_VERSION) then
      Err (Invalid (UnsupportedVersion version))
    else if negb (Z.land flags RESERVED_FLAGS_MASK =? 0) then
      Err (Invalid (ReservedFlags (byte_at token 1)))
    else
      let sealed := negb (Z.land flags FLAG_PAYLOAD_SEALED =? 0) in
      let keyed := bool_decide (is_Some signing_key) in
      if keyed && negb sealed then Err (Invalid UnsealedButKeyed)
      else if negb keyed && sealed then Err (Invalid SealedButKeyless)
      else
        let end_of_anchor := (HEADER_LEN + Z.to_nat anchor_len)%nat in
        if (length token <? end_of_anchor)%nat then
          Err (Invalid (Truncated anchor_len (length token)))
        else
          let fingerprint := take FINGERPRINT_LEN (drop 4 token) in
          let anchor := take (Z.to_nat anchor_len) (drop HEADER_LEN token) in
          let body := take end_of_anchor token in
          let rest := drop end_of_anchor token in
          if mismatch expected_fingerprint fingerprint then
            Err (Invalid FingerprintMismatch)
          else if mismatch current_anchor anchor then
            Err SnapshotExpired
          else
            match signing_key with
            | None => Ok rest
            | Some key =>
                map_err (λ e, Invalid (FailedAuthentication e))
                  (open_bytes rest key (split_token_aad body auth) SEAL_VERSION)
            end.

Definition split_anchor (catalog_version : Z) : bytes := le_bytes 8 catalog_version.
End token.

(** * Reading a token back *)

Section facts.
Context `{AeadLaws}.

Abbreviation build := build_split_token.
Abbreviation open := open_split_token.

Definition header_ok (fingerprint anchor : bytes) : Prop :=
  length fingerprint = FINGERPRINT_LEN ∧ Z.of_nat (length anchor) ≤ 65535.

Lemma build_Ok nonce payload fp anchor key auth t :
  build nonce payload fp anchor key auth = Ok t ↔
  header_ok fp anchor ∧
  t = token_header fp anchor (bool_decide (is_Some key)) ++
      match key with
      | None => payload
      | Some k => seal_bytes nonce payload k (split_token_aad (token_header fp anchor true) auth)
                    SEAL_VERSION
      end.
Proof.
  unfold build_split_token, header_ok. destruct (Nat.eqb_spec (length fp) FINGERPRINT_LEN); simpl; [|naive_solver].
  destruct (Z.ltb_spec 65535 (Z.of_nat (length anchor))); [naive_solver lia|].
  destruct key; simpl; naive_solver.
Qed.

Lemma header_length fp anchor b :
  header_ok fp anchor → length (token_header fp anchor b) = (HEADER_LEN + length anchor)%nat.
Proof. intros [Hf _]. unfold token_header. rewrite !length_app, length_le_bytes, Hf. done. Qed.

Lemma header_anchor_len (anchor rest : bytes) :
  Z.of_nat (length anchor) ≤ 65535 →
  let t := le_bytes 2 (Z.of_nat (length anchor)) ++ rest in
  le_val [byte_at t 0; byte_at t 1] = Z.of_nat (length anchor).
Proof.
  intros Hl t. assert ([byte_at t 0; byte_at t 1] = le_bytes 2 (Z.of_nat (length anchor))) as ->
    by reflexivity.
  rewrite le_val_bytes. apply Z.mod_small. change (256 ^ Z.of_nat 2) with 65536. lia.
Qed.

(** Opening a well-formed token: the checks that are left, in order. *)
Lemma open_header fp anchor sealed rest key auth efp canchor :
  header_ok fp anchor →
  open (token_header fp anchor sealed ++ rest) key auth efp canchor =
  if bool_decide (is_Some key) && negb sealed then Err (Invalid UnsealedButKeyed)
  else if negb (bool_decide (is_Some key)) && sealed then Err (Invalid SealedButKeyless)
  else if mismatch efp fp then Err (Invalid FingerprintMismatch)
  else if mismatch canchor anchor then Err SnapshotExpired
  else match key with
       | None => Ok rest
       | Some k => map_err (λ e, Invalid (FailedAuthentication e))
           (open_bytes rest k (split_token_aad (token_header fp anchor sealed) auth) SEAL_VERSION)
       end.
Proof.
  intros Hok. pose proof (header_length fp anchor sealed Hok) as Hlen. destruct Hok as [Hf Ha].
  set (t := token_header fp anchor sealed ++ rest). unfold open_split_token.
  assert (length t = HEADER_LEN + length anchor + length rest)%nat as Ht
    by (unfold t; by rewrite length_app, Hlen).
  destruct (Nat.ltb_spec (length t) HEADER_LEN); [lia|].
  change (byte_at t 0) with SPLIT_TOKEN_FORMAT_VERSION.
  change (byte_at t 1) with (if sealed then x01 else x00).
  assert (le_val [byte_at t 2; byte_at t 3] = Z.of_nat (length anchor)) as Hal.
  { apply (header_anchor_len anchor (fp ++ anchor ++ rest) Ha). }
  rewrite Hal, Nat2Z.id.
  assert (negb (Byte.eqb SPLIT_TOKEN_FORMAT_VERSION SPLIT_TOKEN_FORMAT_VERSION) = false) as -> by done.
  assert (negb (Z.land (Z_of_byte (if sealed then x01 else x00)) RESERVED_FLAGS_MASK =? 0) = false)
    as -> by (by destruct sealed).
  assert (negb (Z.land (Z_of_byte (if sealed then x01 else x00)) FLAG_PAYLOAD_SEALED =? 0) = sealed)
    as -> by (by destruct sealed).
  destruct (Nat.ltb_spec (length t) (HEADER_LEN + length anchor)); [lia|].
  assert (take (HEADER_LEN + length anchor) t = token_header fp anchor sealed) as ->
    by (unfold t; rewrite <- Hlen; apply take_app_length).
  assert (drop (HEADER_LEN + length anchor) t = rest) as ->
    by (unfold t; rewrite <- Hlen; apply drop_app_length).
  assert (drop 4 t = fp ++ anchor ++ rest) as E4
    by (unfold t, token_header; by rewrite <- !app_assoc).
  assert (take FINGERPRINT_LEN (drop 4 t) = fp) as -> by (rewrite E4, <- Hf; apply take_app_length).
  assert (take (length anchor) (drop HEADER_LEN t) = anchor) as ->; [|done].
  unfold HEADER_LEN. rewrite <- drop_drop, E4, <- Hf, drop_app_length. apply take_app_length.
Qed.

Lemma flag_byte b :
  Z.land (Z_of_byte b) RESERVED_FLAGS_MASK = 0 →
  b = (if negb (Z.land (Z_of_byte b) FLAG_PAYLOAD_SEALED =? 0) then x01 else x00).
Proof. by destruct b. Qed.

(** A token that passed the header checks is a header and a rest. *)
Lemma open_Ok_split t key auth efp canchor p :
  open t key auth efp canchor = Ok p →
  ∃ fp anchor rest, header_ok fp anchor ∧
    t = token_header fp anchor (bool_decide (is_Some key)) ++ rest.
Proof.
  unfold open_split_token. destruct (Nat.ltb_spec (length t) HEADER_LEN) as [|Hl]; [done|].
  destruct (Byte.eqb (byte_at t 0) SPLIT_TOKEN_FORMAT_VERSION) eqn:Ev; cbn [negb]; [|done].
  destruct (Z.eqb_spec (Z.land (Z_of_byte (byte_at t 1)) RESERVED_FLAGS_MASK) 0) as [Er|]; cbn [negb]; [|done].
  apply flag_byte in Er. set (sealed := negb _) in Er |- *.
  destruct (bool_decide (is_Some key) && negb sealed) eqn:E1; [done|].
  destruct (negb (bool_decide (is_Some key)) && sealed) eqn:E2; [done|].
  assert (bool_decide (is_Some key) = sealed) as -> by (by destruct (bool_decide (is_Some key)), sealed).
  set (n := le_val [byte_at t 2; byte_at t 3]).
  destruct (Nat.ltb_spec (length t) (HEADER_LEN + Z.to_nat n)) as [|Hl2]; [done|]. intros _.
  unfold HEADER_LEN, FINGERPRINT_LEN in Hl, Hl2.
  destruct t as [|b0 [|b1 [|b2 [|b3 t]]]]; simpl in Hl; try lia.
  unfold byte_at in *. simpl in Ev, Er, n. apply Byte.byte_dec_bl in Ev as ->.
  pose proof (le_val_range [b2; b3]) as Hn. simpl in Hn.
  assert (length (take (Z.to_nat n) (drop 16 t)) = Z.to_nat n) as Hla.
  { rewrite length_take, length_drop. simpl in Hl2. lia. }
  exists (take 16 t), (take (Z.to_nat n) (drop 16 t)), (drop (Z.to_nat n) (drop 16 t)).
  split; [split; [rewrite length_take; simpl in Hl; unfold FINGERPRINT_LEN; lia|
                  rewrite Hla; unfold n; simpl; lia]|].
  unfold token_header. rewrite Hla, Z2Nat.id by (unfold n; simpl; lia).
  assert (le_bytes 2 n = [b2; b3]) as -> by (apply (le_bytes_val [b2; b3])).
  rewrite <- !app_assoc, (take_drop (Z.to_nat n)), take_drop. simpl. by rewrite <- Er.
Qed.

Lemma header_delimits fp anchor fp' anchor' b r s :
  header_ok fp anchor → header_ok fp' anchor' →
  token_header fp anchor b ++ r = token_header fp' anchor' b ++ s →
  fp = fp' ∧ anchor = anchor' ∧ r = s.
Proof.
  intros [Hf Ha] [Hf' Ha'] E. unfold token_header in E. rewrite <- !app_assoc in E.
  apply app_inv_head in E. apply (delimiting_unsigned 2) in E as [El E]; [|change (256 ^ Z.of_nat 2) with 65536; lia..].
  apply app_inj_1 in E as [-> E]; [|congruence]. apply app_inj_1 in E as [-> ->]; [done|lia].
Qed.

(** NUL ends the domain in the tail, so a domain may not contain one. *)
Definition domain_ok (auth : Auth) : Prop :=
  match auth with Some (domain, _) => x00 ∉ as_bytes domain | None => True end.

Lemma nul_split (d d' p p' : bytes) :
  x00 ∉ d → x00 ∉ d' → d ++ [x00] ++ p = d' ++ [x00] ++ p' → d = d' ∧ p = p'.
Proof.
  induction d as [|b d IH] in d' |- *; destruct d' as [|b' d']; intros Hd Hd' E; simplify_eq/=;
    [done|set_solver..|].
  destruct (IH d') as [-> ->]; [set_solver..|done|done].
Qed.

Lemma identity_tail_inj a b :
  domain_ok a → domain_ok b → identity_tail a = identity_tail b → a = b.
Proof.
  destruct a as [[d p]|], b as [[d' p']|]; intros Ha Hb E; try done; simpl in *; simplify_eq.
  apply nul_split in E as [Ed Ep]; [|done..]. apply as_bytes_inj in Ed as ->.
  by apply as_bytes_inj in Ep as ->.
Qed.

Definition skip_or (o : option bytes) (x : bytes) : Prop := o = None ∨ o = Some x.

Lemma mismatch_false o x : mismatch o x = false ↔ skip_or o x.
Proof.
  unfold mismatch, skip_or. destruct o as [e|]; [|naive_solver].
  rewrite negb_false_iff, bool_decide_eq_true. naive_solver.
Qed.

(** A token built for a bind and an anchor opens to the worker's payload
    for the same worker key state and caller, with or without the bind and anchor checks. *)
Theorem split_token_roundtrip nonce payload fp anchor key auth t efp canchor :
  build nonce payload fp anchor key auth = Ok t →
  skip_or efp fp → skip_or canchor anchor →
  open t key auth efp canchor = Ok payload.
Proof.
  intros [Hok ->]%build_Ok Hf%mismatch_false Hc%mismatch_false.
  rewrite open_header, Hf, Hc by done.
  destruct key as [k|]; simpl; [|done]. by rewrite aead_open.
Qed.

(** C28: A worker that holds a key redeems only tokens sealed with that key and
    the identity tail of the caller presenting them, and gets the payload, the bind fingerprint
    and the anchor they were sealed with: no unsealed, altered or re-headed token opens. The
    tail tells the callers apart whose domains hold no NUL ([domain_ok]), so between such
    callers no token can be borrowed; and what is bound of a bind is its fingerprint, which
    different binds may share ([fingerprint_ambiguous]). *)
Theorem split_token_unforgeable t k auth efp canchor p :
  open t (Some k) auth efp canchor = Ok p →
  ∃ nonce fp anchor,
    build nonce p fp anchor (Some k) auth = Ok t ∧ skip_or efp fp ∧ skip_or canchor anchor ∧
    ∀ nonce' p' fp' anchor' auth', build nonce' p' fp' anchor' (Some k) auth' = Ok t →
      p' = p ∧ fp' = fp ∧ anchor' = anchor ∧ (domain_ok auth → domain_ok auth' → auth' = auth).
Proof.
  intros Ho. destruct (open_Ok_split _ _ _ _ _ _ Ho) as (fp & anchor & rest & Hok & ->).
  rewrite open_header in Ho by done. cbn [bool_decide decide is_Some_dec andb negb] in Ho.
  destruct (mismatch efp fp) eqn:Ef; [done|]. destruct (mismatch canchor anchor) eqn:Ec; [done|].
  apply mismatch_false in Ef, Ec.
  destruct (open_bytes rest k _ SEAL_VERSION) as [p0|e] eqn:Eo; [|done].
  cbn [map_err] in Ho. injection Ho as ->.
  apply aead_auth in Eo as [nonce ->].
  exists nonce, fp, anchor. split_and!; [by apply build_Ok|done..|].
  intros nonce' p' fp' anchor' auth' [Hok' E]%build_Ok.
  apply header_delimits in E as (-> & -> & E); [|done..].
  apply aead_bind in E as (-> & _ & E & _). split_and!; [done..|].
  intros Hd Hd'. symmetry. apply identity_tail_inj; [done..|].
  unfold split_token_aad in E. by apply app_inv_head in E.
Qed.

(** A token is refused with the kind its fault calls for: a mismatch
    between the worker's key state and the token's seal flag and a foreign bind are invalid tokens
    whatever the anchor says, and only a right bind at a stale anchor is an expired snapshot. *)
Theorem split_token_refusals nonce payload fp anchor key auth t auth' efp canchor k :
  build nonce payload fp anchor key auth = Ok t →
  (key = None → open t (Some k) auth' efp canchor = Err (Invalid UnsealedButKeyed)) ∧
  (key = Some k → open t None auth' efp canchor = Err (Invalid SealedButKeyless)) ∧
  (¬ skip_or efp fp → open t key auth' efp canchor = Err (Invalid FingerprintMismatch)) ∧
  (skip_or efp fp → ¬ skip_or canchor anchor →
   open t key auth' efp canchor = Err SnapshotExpired ∧
   kind SnapshotExpired = "SPLIT_SNAPSHOT_EXPIRED"%string).
Proof.
  intros [Hok ->]%build_Ok. split_and!.
  - intros ->. by rewrite open_header.
  - intros ->. by rewrite open_header.
  - intros Hn. rewrite open_header by done.
    assert (mismatch efp fp = true) as ->
      by (apply not_false_is_true; intros ?%mismatch_false; done).
    by destruct key.
  - intros Hf Hn. split; [|done]. rewrite open_header by done.
    apply mismatch_false in Hf as ->.
    assert (mismatch canchor anchor = true) as ->
      by (apply not_false_is_true; intros ?%mismatch_false; done).
    by destruct key.
Qed.
End facts.

(** The hashed bytes of the bind fingerprint do not delimit their
    fields, and a NUL in a domain moves the boundary of the identity tail: different binds have
    one fingerprint and different callers one tail. *)
Theorem fingerprint_ambiguous :
  (∀ sha256, bind_fingerprint sha256 [] "f" (as_bytes "x" ++ feed_sep ++ as_bytes "y") (as_bytes "z") [] =
             bind_fingerprint sha256 [] "f" (as_bytes "x") (as_bytes "y" ++ feed_sep ++ as_bytes "z") []) ∧
  identity_tail (Some (string_of_bytes [x61; x00; x62], "c")%string) =
  identity_tail (Some ("a", string_of_bytes [x62; x00; x63])%string).
Proof. split; [intros; unfold bind_fingerprint; do 2 f_equal|]; vm_compute; reflexivity. Qed.

(** * Witnesses *)

Definition ex_fp : bytes := replicate 16 x07.
Definition ex_token (key : option bytes) (auth : Auth) : bytes :=
  match build_split_token [] [x0a; x0b] ex_fp [x01] key auth with Ok t => t | Err _ => [] end.

Lemma split_token_roundtrip_witness :
  open_split_token (ex_token (Some [x09]) None) (Some [x09]) None (Some ex_fp) None
  = Ok [x0a; x0b].
Proof.
  apply (split_token_roundtrip [] [x0a; x0b] ex_fp [x01] (Some [x09]) None).
  - reflexivity.
  - by right.
  - by left.
Defined.

Lemma split_token_unforgeable_witness :
  ∃ nonce fp anchor,
    build_split_token nonce [x0a; x0b] fp anchor (Some [x09]) None
      = Ok (ex_token (Some [x09]) None) ∧ skip_or None fp ∧ skip_or (Some [x01]) anchor ∧
    ∀ nonce' p' fp' anchor' auth',
      build_split_token nonce' p' fp' anchor' (Some [x09]) auth'
        = Ok (ex_token (Some [x09]) None) →
      p' = [x0a; x0b] ∧ fp' = fp ∧ anchor' = anchor ∧ (domain_ok None → domain_ok auth' → auth' = None).
Proof.
  apply (split_token_unforgeable (ex_token (Some [x09]) None) [x09] None None (Some [x01])).
  vm_compute. reflexivity.
Defined.

Lemma split_token_refusals_witness :
  open_split_token (ex_token None None) (Some [x09]) None None None
  = Err (Invalid UnsealedButKeyed).
Proof.
  apply (split_token_refusals [] [x0a; x0b] ex_fp [x01] None None
    (ex_token None None) None None None [x09]); reflexivity.
Defined.
