(* ===== verification/Retry.v ===== *)
(** The client's retry policy, [vgi-client/src/retry.rs]: classifying a
    failure, reading [Retry-After], the backoff delay and the retry loop.
    Durations are nanoseconds; [f64] arithmetic is the executable IEEE 754
    binary64 of [SpecFloat]; the operation retried, the clock and the sleeps
    are oracles. *)
From S2P Require Import Prelude Float64.

Open Scope Z_scope.

Definition NANO : Z := 1000000000.

(** [Duration::MAX] and [saturating_add]. *)
Definition duration_max : Z := 2 ^ 64 * NANO - 1.
Definition duration_add (a b : Z) : Z := Z.min duration_max (a + b).
Definition duration_mul (a n : Z) : Z := Z.min duration_max (a * n).
Definition from_secs (s : Z) : Z := s * NANO.

(** * Classification *)

Inductive StatusClass := Success | Throttled | Transient | Fatal.

Definition is_retryable (c : StatusClass) : bool :=
  match c with Throttled | Transient => true | Success | Fatal => false end.

Definition classify_status (status : Z) : StatusClass :=
  if (200 <=? status) && (status <=? 299) then Success
  else if status =? 429 then Throttled
  else if (502 <=? status) && (status <=? 504) then Transient
  else Fatal.

(** What the client reads of an [RpcError]. *)
Record RpcError := mkRpcError {
  auth_unavailable : bool;
  message : string;
  retry_after_seconds : option Z;
}.

(** The text after the first occurrence of [pat]. *)
Fixpoint after_first (pat s : string) : option string :=
  if String.prefix pat s then Some (String.substring (String.length pat) (String.length s) s)
  else match s with EmptyString => None | String _ s => after_first pat s end.

Fixpoint take_digits (s : string) : string :=
  match s with
  | String c s => if is_ascii_digit c then String c (take_digits s) else ""
  | EmptyString => ""
  end.

Definition status_in_message (msg : string) : option Z :=
  match after_first "HTTP " msg with
  | None => None
  | Some rest =>
      let digits := take_digits rest in
      if (String.length digits =? 3)%nat then parse_unsigned (2 ^ 16 - 1) digits else None
  end.

Definition classify_error (err : RpcError) : StatusClass * option Z :=
  let after := from_secs <$> retry_after_seconds err in
  if auth_unavailable err then (Transient, after)
  else match status_in_message (message err) with
       | Some status =>
           let class := classify_status status in
           if is_retryable class then (class, after) else (Fatal, None)
       | None => (Fatal, None)
       end.

(** * Retry-After *)

(** UTF-8 encodings of the characters [str::trim] removes. *)
Definition whitespace : list bytes :=
  ([[x09]; [x0a]; [x0b]; [x0c]; [x0d]; [x20]; [xc2; x85]; [xc2; xa0]; [xe1; x9a; x80];
    [xe2; x80; x80]; [xe2; x80; x81]; [xe2; x80; x82]; [xe2; x80; x83]; [xe2; x80; x84];
    [xe2; x80; x85]; [xe2; x80; x86]; [xe2; x80; x87]; [xe2; x80; x88]; [xe2; x80; x89];
    [xe2; x80; x8a]; [xe2; x80; xa8]; [xe2; x80; xa9]; [xe2; x80; xaf]; [xe2; x81; x9f];
    [xe3; x80; x80]])%list.

(** Strip leading members of [ws] while there is one. *)
Fixpoint trim_with (fuel : nat) (ws : list bytes) (l : bytes) : bytes :=
  match fuel with
  | O => l
  | S fuel =>
      match list_find (λ w, w = take (length w) l) ws with
      | Some (_, w) => trim_with fuel ws (drop (length w) l)
      | None => l
      end
  end.

Definition trim_bytes (l : bytes) : bytes :=
  let l := trim_with (length l) whitespace l in
  reverse (trim_with (length l) (reverse <$> whitespace) (reverse l)).

Definition trim (s : string) : string := string_of_bytes (trim_bytes (as_bytes s)).

(** [s.get(a..b)]: [None] out of range or inside a character. *)
Definition char_boundary (l : bytes) (i : nat) : bool :=
  match l !! i with
  | Some b => negb ((128 <=? Z_of_byte b) && (Z_of_byte b <=? 191))
  | None => (i =? length l)%nat
  end.

Definition get_range (s : string) (a b : nat) : option string :=
  let l := as_bytes s in
  if (b <=? length l)%nat && char_boundary l a && char_boundary l b then
    Some (string_of_bytes (take (b - a) (drop a l)))
  else None.

Definition month_of (m : string) : option Z :=
  (λ p, Z.of_nat p.1 + 1) <$>
  list_find (λ x, x = m)
    (["Jan"; "Feb"; "Mar"; "Apr"; "May"; "Jun"; "Jul"; "Aug"; "Sep"; "Oct"; "Nov"; "Dec"]%string).

(** [i64] division truncates; the dividends here are made so that it floors. *)
Definition days_from_civil (y m d : Z) : Z :=
  let y := if m <=? 2 then y - 1 else y in
  let era := Z.quot (if 0 <=? y then y else y - 399) 400 in
  let yoe := y - era * 400 in
  let mp := Z.rem (m + 9) 12 in
  let doy := Z.quot (153 * mp + 2) 5 + d - 1 in
  let doe := yoe * 365 + Z.quot yoe 4 - Z.quot yoe 100 + doy in
  era * 146097 + doe - 719468.

Definition u64_max_Z : Z := 2 ^ 64 - 1.

(** Seconds since the epoch of an IMF-fixdate. *)
Definition parse_http_date (s : string) : option Z :=
  if (String.length s <? 29)%nat ||
     negb (bool_decide (get_range s (String.length s - 3) (String.length s) = Some "GMT"%string))
  then None
  else
    day ← get_range s 5 7 ≫= λ x, parse_unsigned (2 ^ 32 - 1) (trim x);
    month ← get_range s 8 11 ≫= month_of;
    year ← get_range s 12 16 ≫= parse_i64;
    hour ← get_range s 17 19 ≫= parse_unsigned u64_max_Z;
    min ← get_range s 20 22 ≫= parse_unsigned u64_max_Z;
    sec ← get_range s 23 25 ≫= parse_unsigned u64_max_Z;
    if (day =? 0) || (31 <? day) || (23 <? hour) || (59 <? min) || (60 <? sec) then None
    else
      let days := days_from_civil year month day in
      let secs := days * 86400 + (hour * 3600 + min * 60 + Z.min sec 59) in
      if secs <? 0 then None else Some secs.

Fixpoint all_digits (s : string) : bool :=
  match s with String c s => is_ascii_digit c && all_digits s | EmptyString => true end.

Definition parse_retry_after (value : string) (now : Z) : option Z :=
  let v := trim value in
  match v with
  | EmptyString => None
  | _ =>
      if all_digits v then from_secs <$> parse_unsigned u64_max_Z v
      else (λ at_, Z.max 0 (at_ * NANO - now)) <$> parse_http_date v
  end.

(** * Backoff *)

Record RetryPolicy := mkPolicy {
  max_attempts : Z;
  max_elapsed : Z;
  base_delay : Z;
  max_delay : Z;
}.

Definition RetryPolicy_default : RetryPolicy :=
  mkPolicy 5 (from_secs 60) (200 * 1000000) (from_secs 5).

Definition disabled : RetryPolicy :=
  mkPolicy 1 (max_elapsed RetryPolicy_default) (base_delay RetryPolicy_default)
    (max_delay RetryPolicy_default).

(** [1 << shift] with [shift <= 16] always fits a [u32]. *)
Definition window (p : RetryPolicy) (attempt : Z) : Z :=
  let shift := Z.min (Z.max 0 (attempt - 1)) 16 in
  Z.min (duration_mul (base_delay p) (Z.shiftl 1 shift)) (max_delay p).

Definition as_secs_f64 (d : Z) : f64 :=
  f64_add (f64_of_Z (d / NANO)) (f64_div (f64_of_Z (d mod NANO)) (f64_of_Z NANO)).

(** [x.clamp(0.0, 1.0)]; NaN stays NaN. *)
Definition clamp01 (x : f64) : f64 :=
  match SFcompare x (f64_of_Z 0) with
  | Some Lt => f64_of_Z 0
  | _ => match SFcompare x (f64_of_Z 1) with Some Gt => f64_of_Z 1 | _ => x end
  end.

(** Nearest integer to [n / d], ties to even. *)
Definition round_half_even (n d : Z) : Z :=
  let q := n / d in
  let r := n mod d in
  if 2 * r <? d then q else if d <? 2 * r then q + 1 else if Z.even q then q else q + 1.

(** [Duration::from_secs_f64]: to the nearest nanosecond; [None] is its panic
    on a negative, non-finite or too large argument. *)
Definition from_secs_f64 (x : f64) : option Z :=
  match x with
  | S754_zero _ => Some 0
  | S754_finite false m e =>
      let n := if 0 <=? e then Zpos m * 2 ^ e * NANO else round_half_even (Zpos m * NANO) (2 ^ (- e)) in
      if n <=? duration_max then Some n else None
  | _ => None
  end.

Definition delay (p : RetryPolicy) (attempt : Z) (retry_after : option Z) (jitter : f64) : option Z :=
  match from_secs_f64 (f64_mul (as_secs_f64 (window p attempt)) (clamp01 jitter)) with
  | None => None
  | Some jittered => Some (duration_add (default 0 retry_after) jittered)
  end.

Inductive StopReason := NotRetryable | AttemptsExhausted | DeadlineExceeded.
Inductive RetryDecision := RetryIn (d : Z) | Stop (reason : StopReason).

Definition decide_retry (p : RetryPolicy) (class : StatusClass) (attempt elapsed : Z)
    (retry_after : option Z) (jitter : f64) : option RetryDecision :=
  if negb (is_retryable class) then Some (Stop NotRetryable)
  else if max_attempts p <=? attempt then Some (Stop AttemptsExhausted)
  else
    match delay p attempt retry_after jitter with
    | None => None
    | Some d =>
        if max_elapsed p <=? duration_add elapsed d then Some (Stop DeadlineExceeded)
        else Some (RetryIn d)
    end.

(** splitmix64 of the clock, a counter and the process id. *)
Definition jitter_mix (nanos seq pid : Z) : Z :=
  let w := 2 ^ 64 in
  let z := (nanos + seq * 0x9E3779B97F4A7C15 mod w + pid) mod w in
  let z := Z.lxor z (Z.shiftr z 30) * 0xBF58476D1CE4E5B9 mod w in
  let z := Z.lxor z (Z.shiftr z 27) * 0x94D049BB133111EB mod w in
  Z.lxor z (Z.shiftr z 31).

Definition jitter_fraction (nanos seq pid : Z) : f64 :=
  f64_div (f64_of_Z (Z.shiftr (jitter_mix nanos seq pid) 11)) (f64_of_Z (Z.shiftl 1 53)).

(** * The loop *)

(** What a run ended in.  [GaveUp] keeps what the message names. *)
Inductive run_end (T : Type) :=
| Returned (v : T)
| FatalError (e : RpcError)
| GaveUp (attempts : Z) (reason : StopReason) (last : RpcError)
| RunPanic
| OutOfFuel.
Arguments Returned {T} v.
Arguments FatalError {T} e.
Arguments GaveUp {T} attempts reason last.
Arguments RunPanic {T}.
Arguments OutOfFuel {T}.

Section run.
(** Attempt [i] answers [op i] and takes [cost i]; the sleep after it
    oversleeps by [over i]; [jitter i] is drawn for it. *)
Context {T : Type} (op : Z → result T RpcError) (cost over : Z → Z) (jitter : Z → f64).

(** Ends with the attempts made, the time asleep and the time elapsed. *)
Fixpoint run_loop (fuel : nat) (p : RetryPolicy) (attempt slept elapsed : Z)
  : run_end T * (Z * Z * Z) :=
  match fuel with
  | O => (OutOfFuel, (attempt, slept, elapsed))
  | S fuel =>
      let attempt := attempt + 1 in
      let elapsed := elapsed + cost attempt in
      match op attempt with
      | Ok v => (Returned v, (attempt, slept, elapsed))
      | Err err =>
          let '(class, retry_after) := classify_error err in
          match decide_retry p class attempt elapsed retry_after (jitter attempt) with
          | None => (RunPanic, (attempt, slept, elapsed))
          | Some (RetryIn d) => run_loop fuel p attempt (slept + d) (elapsed + d + over attempt)
          | Some (Stop NotRetryable) => (FatalError err, (attempt, slept, elapsed))
          | Some (Stop reason) => (GaveUp attempt reason err, (attempt, slept, elapsed))
          end
      end
  end.

(** [RetryPolicy::run]; the attempt cap bounds the turns. *)
Definition run (p : RetryPolicy) : run_end T * (Z * Z * Z) :=
  run_loop (S (Z.to_nat (max_attempts p))) p 0 0 0.
End run.

Definition starts_with (s pat : string) : bool := String.prefix pat s.

Definition method_is_retryable (method : string) : bool :=
  bool_decide (method ∈ ["bind"; "table_function_plan"; "catalog_catalogs"; "catalog_version";
                         "catalog_contents"]%string) ||
  starts_with method "catalog_schema" || starts_with method "catalog_table_".

(** [RetryTransport::call_unary]: one attempt unless the method is listed. *)
Definition call_unary {T} (op : Z → result T RpcError) (cost over : Z → Z) (jitter : Z → f64)
    (p : RetryPolicy) (method : string) : run_end T * (Z * Z * Z) :=
  if method_is_retryable method then run op cost over jitter p
  else (match op 1 with Ok v => Returned v | Err e => FatalError e end, (1, 0, cost 1)).

(** * Bounds of the loop *)

Lemma round_half_even_nonneg n d : 0 ≤ n → 0 < d → 0 ≤ round_half_even n d.
Proof.
  intros Hn Hd. unfold round_half_even. assert (0 ≤ n / d) by (apply Z.div_pos; lia).
  repeat case_match; lia.
Qed.

Lemma from_secs_f64_range x n : from_secs_f64 x = Some n → 0 ≤ n ≤ duration_max.
Proof.
  destruct x as [b|b| |[] m e]; simpl; intros E; simplify_eq; [done|].
  set (v := if 0 <=? e then _ else _) in E.
  assert (0 ≤ v) as Hv.
  { unfold v, NANO. destruct (Z.leb_spec 0 e).
    - pose proof (Z.pow_nonneg 2 e). nia.
    - apply round_half_even_nonneg; [lia|]. apply Z.pow_pos_nonneg; lia. }
  destruct (Z.leb_spec v duration_max); simplify_eq. lia.
Qed.

(** A retry is only ever granted for a retryable failure, an attempt left, a
    wait no shorter than the server's and time left after it. *)
Lemma decide_retry_RetryIn p class attempt elapsed ra jitter d :
  decide_retry p class attempt elapsed ra jitter = Some (RetryIn d) →
  max_elapsed p ≤ duration_max → 0 ≤ default 0 ra ≤ duration_max →
  is_retryable class = true ∧ attempt < max_attempts p ∧ default 0 ra ≤ d ∧
  elapsed + d < max_elapsed p.
Proof.
  unfold decide_retry. destruct (is_retryable class); simpl; [|done].
  destruct (Z.leb_spec (max_attempts p) attempt); [done|].
  unfold delay. destruct (from_secs_f64 _) as [j|] eqn:Ej; [|done].
  apply from_secs_f64_range in Ej. unfold duration_add.
  destruct (Z.leb_spec (max_elapsed p)
    (Z.min duration_max (elapsed + Z.min duration_max (default 0 ra + j)))); [done|].
  intros [= <-] Hm Hr. split_and!; [done|lia..].
Qed.

(** A granted retry always waits at least what the server asked for
    with [Retry-After], stays within the time budget and has an attempt left; and with no jitter
    drawn it waits exactly what was asked. *)
Theorem retry_after_is_a_floor p class attempt elapsed ra jitter d :
  max_elapsed p ≤ duration_max → 0 ≤ ra ≤ duration_max →
  decide_retry p class attempt elapsed (Some ra) jitter = Some (RetryIn d) →
  ra ≤ d ∧ elapsed + d < max_elapsed p ∧ attempt < max_attempts p ∧
  (is_retryable class = true) ∧
  (jitter = f64_of_Z 0 → as_secs_f64 (window p attempt) ≠ S754_nan →
   (∀ b, as_secs_f64 (window p attempt) ≠ S754_infinity b) → d = ra).
Proof.
  intros Hm Hr E. pose proof (decide_retry_RetryIn _ _ _ _ _ _ _ E Hm Hr) as (Hc & Ha & Hd & He).
  simpl in Hd. split_and!; [done..|]. intros -> Hnan Hinf.
  unfold decide_retry in E. rewrite Hc in E. cbn [negb] in E.
  destruct (max_attempts p <=? attempt); [done|]. unfold delay in E.
  change (clamp01 (f64_of_Z 0)) with (S754_zero false) in E.
  assert (from_secs_f64 (f64_mul (as_secs_f64 (window p attempt)) (S754_zero false)) = Some 0) as Hz.
  { unfold f64_mul. destruct (as_secs_f64 (window p attempt)) as [b|b| |b m e]; done. }
  rewrite Hz in E. unfold duration_add in E. case_match; simplify_eq/=. lia.
Qed.

Lemma retry_after_is_a_floor_witness :
  decide_retry RetryPolicy_default Throttled 1 0 (Some (from_secs 2)) (f64_of_Z 0) =
    Some (RetryIn (from_secs 2)) ∧ from_secs 2 ≤ from_secs 2.
Proof.
  split; [vm_compute; reflexivity|].
  apply (retry_after_is_a_floor RetryPolicy_default Throttled 1 0 (from_secs 2) (f64_of_Z 0)
    (from_secs 2)); vm_compute; (reflexivity || (split; discriminate) || discriminate).
Defined.

Section bounded.
Context {T : Type} (op : Z → result T RpcError) (cost over : Z → Z) (jitter : Z → f64)
  (p : RetryPolicy).
Hypothesis cost_nonneg : ∀ i, 0 ≤ cost i.
Hypothesis over_nonneg : ∀ i, 0 ≤ over i.
Hypothesis budget_ok : 0 < max_elapsed p ≤ duration_max.
(** [retry_after_seconds] is a [u32]. *)
Hypothesis hints_ok : ∀ i e s, op i = Err e → retry_after_seconds e = Some s → 0 ≤ s < 2 ^ 32.

Definition retryable_at (i : Z) : Prop :=
  ∃ e, op i = Err e ∧ is_retryable (classify_error e).1 = true.

(** What an ending says about the last attempt. *)
Definition ends_as (r : run_end T) (n : Z) : Prop :=
  match r with
  | Returned v => op n = Ok v
  | FatalError e => op n = Err e ∧ is_retryable (classify_error e).1 = false
  | GaveUp a reason e => a = n ∧ op n = Err e ∧ reason ≠ NotRetryable
  | RunPanic => retryable_at n
  | OutOfFuel => False
  end.

Lemma hint_range i e : op i = Err e → 0 ≤ default 0 (classify_error e).2 ≤ duration_max.
Proof.
  intros E. unfold classify_error.
  assert (0 ≤ default 0 (from_secs <$> retry_after_seconds e) ≤ duration_max) as H.
  { destruct (retry_after_seconds e) as [s|] eqn:Es; simpl; [|done].
    specialize (hints_ok i e s E Es). unfold from_secs, duration_max, NANO. lia. }
  repeat case_match; simpl; try done; exact H.
Qed.

Lemma run_loop_spec fuel attempt slept elapsed :
  Z.max 1 (max_attempts p) - attempt ≤ Z.of_nat fuel → 0 ≤ attempt →
  attempt < Z.max 1 (max_attempts p) →
  0 ≤ slept ≤ elapsed → slept < max_elapsed p → (∀ i, 1 ≤ i ≤ attempt → retryable_at i) →
  let '(r, (n, s, e)) := run_loop op cost over jitter fuel p attempt slept elapsed in
  1 ≤ n ≤ Z.max 1 (max_attempts p) ∧ 0 ≤ s < max_elapsed p ∧ s ≤ e ∧
  (∀ i, 1 ≤ i < n → retryable_at i) ∧ ends_as r n.
Proof.
  induction fuel as [|fuel IH] in attempt, slept, elapsed |- *; intros Hf Ha Hlt Hs Hb Hr; [lia|].
  cbn [run_loop]. pose proof (cost_nonneg (attempt + 1)) as Hc.
  assert (∀ i, 1 ≤ i < attempt + 1 → retryable_at i) as Hr' by (intros i Hi; apply Hr; lia).
  destruct (op (attempt + 1)) as [v|err] eqn:Eop.
  { split_and!; (done || lia). }
  pose proof (hint_range _ _ Eop) as Hh.
  destruct (classify_error err) as [class ra] eqn:Ecl. simpl in Hh.
  destruct (decide_retry p class (attempt + 1) (elapsed + cost (attempt + 1)) ra (jitter (attempt + 1)))
    as [[d|reason]|] eqn:Ed.
  - apply decide_retry_RetryIn in Ed as (Hcl & Hat & Hd & Htot); [|lia|done].
    pose proof (over_nonneg (attempt + 1)) as Ho.
    apply IH; [lia|lia|lia|lia|lia|].
    intros i Hi. destruct (decide (i = attempt + 1)) as [->|]; [|apply Hr; lia].
    exists err. by rewrite Ecl.
  - assert (1 ≤ attempt + 1 ≤ Z.max 1 (max_attempts p)) as Hn by lia.
    assert (slept ≤ elapsed + cost (attempt + 1)) as Hse by lia.
    destruct reason; (split; [lia|split; [lia|split; [lia|split; [done|]]]]).
    + simpl. rewrite Ecl. split; [done|]. simpl. unfold decide_retry in Ed.
      destruct (is_retryable class); [|done]. simpl in Ed. repeat case_match; by simplify_eq.
    + by split_and!.
    + by split_and!.
  - split; [lia|split; [lia|split; [lia|split; [done|]]]].
    exists err. split; [done|]. rewrite Ecl. simpl. unfold decide_retry in Ed. by destruct (is_retryable class).
Qed.

(** C37: A run always ends: it makes at least one and at most the capped number of
    attempts, every attempt before the last failed in a way the server invited to retry, and the
    time spent asleep stays below the budget, whatever the server sends. *)
Theorem retry_run_bounded :
  let '(r, (n, slept, elapsed)) := run op cost over jitter p in
  1 ≤ n ≤ Z.max 1 (max_attempts p) ∧ 0 ≤ slept < max_elapsed p ∧ slept ≤ elapsed ∧
  (∀ i, 1 ≤ i < n → retryable_at i) ∧ ends_as r n.
Proof. apply run_loop_spec; lia. Qed.
End bounded.

(** Two throttled answers, then success. *)
Definition throttled_ex : RpcError := mkRpcError false "PUT failed: HTTP 429" (Some 1).
Definition op_ex (i : Z) : result Z RpcError := if i <? 3 then Err throttled_ex else Ok 7.

Lemma retry_run_bounded_witness :
  let '(r, (n, slept, elapsed)) :=
    run op_ex (λ _, 0) (λ _, 0) (λ _, f64_of_Z 0) RetryPolicy_default in
  1 ≤ n ≤ Z.max 1 (max_attempts RetryPolicy_default) ∧
  0 ≤ slept < max_elapsed RetryPolicy_default ∧ slept ≤ elapsed ∧
  (∀ i, 1 ≤ i < n → retryable_at op_ex i) ∧ ends_as op_ex r n.
Proof.
  refine (retry_run_bounded op_ex (λ _, 0) (λ _, 0) (λ _, f64_of_Z 0) RetryPolicy_default _ _ _ _).
  - done.
  - done.
  - vm_compute. split; [reflexivity|discriminate].
  - intros i e s. unfold op_ex. destruct (i <? 3); [|done]. intros [= <-]. simpl.
    intros [= <-]. lia.
Defined.

(** A method off the list is sent exactly once, whatever it answers; but the
    list's prefixes also admit methods that create, drop and alter catalog objects. *)
Theorem retry_allowlist {T} (op : Z → result T RpcError) cost over jitter p method :
  (method_is_retryable method = false → (call_unary op cost over jitter p method).2.1.1 = 1) ∧
  Forall (λ m, method_is_retryable m = false)
    ["catalog_attach"; "catalog_detach"; "aggregate_update"; "table_buffering_process";
     "transaction_begin"]%string ∧
  Forall (λ m, method_is_retryable m = true)
    ["catalog_schema_create"; "catalog_schema_drop"; "catalog_table_create"; "catalog_table_drop";
     "catalog_table_rename"; "catalog_table_column_add"; "catalog_table_column_drop"]%string.
Proof.
  split; [|split; repeat constructor]. intros E. unfold call_unary. by rewrite E.
Qed.

(** * The calendar *)

Definition leap (y : Z) : bool :=
  (y mod 4 =? 0) && (negb (y mod 100 =? 0) || (y mod 400 =? 0)).

Definition days_in_month (y m : Z) : Z :=
  if m =? 2 then (if leap y then 29 else 28)
  else if (m =? 4) || (m =? 6) || (m =? 9) || (m =? 11) then 30 else 31.

Definition valid_date (y m d : Z) : Prop := 1 ≤ m ≤ 12 ∧ 1 ≤ d ≤ days_in_month y m.

Definition next_day (y m d : Z) : Z * Z * Z :=
  if d <? days_in_month y m then (y, m, d + 1)
  else if m <? 12 then (y, m + 1, 1) else (y + 1, 1, 1).

(** Days before year [y] of the shifted calendar that starts in March. *)
Definition year_days (y : Z) : Z := 365 * y + y / 4 - y / 100 + y / 400.

Lemma era_floor y : Z.quot (if 0 <=? y then y else y - 399) 400 = y / 400.
Proof.
  destruct (Z.leb_spec 0 y).
  - apply Z.quot_div_nonneg; lia.
  - Z.to_euclidean_division_equations. lia.
Qed.

Lemma days_from_civil_closed y m d :
  1 ≤ m ≤ 12 →
  days_from_civil y m d =
  year_days (if m <=? 2 then y - 1 else y) + (153 * ((m + 9) mod 12) + 2) / 5 + d - 1 - 719468.
Proof.
  intros Hm. unfold days_from_civil. rewrite era_floor.
  set (Y := if m <=? 2 then y - 1 else y).
  assert (0 ≤ Y - Y / 400 * 400 < 400) as Hyoe by (Z.to_euclidean_division_equations; lia).
  assert (0 ≤ (m + 9) mod 12 < 12) as Hmp by (apply Z.mod_pos_bound; lia).
  rewrite Z.rem_mod_nonneg by lia. rewrite !Z.quot_div_nonneg by lia.
  unfold year_days. revert Hyoe. clearbody Y. clear Hmp. intros.
  assert ((Y - Y / 400 * 400) / 4 = Y / 4 - 100 * (Y / 400)) as ->
    by (Z.to_euclidean_division_equations; lia).
  assert ((Y - Y / 400 * 400) / 100 = Y / 100 - 4 * (Y / 400)) as ->
    by (Z.to_euclidean_division_equations; lia).
  lia.
Qed.

Lemma year_days_step y : year_days y = year_days (y - 1) + 365 + (if leap y then 1 else 0).
Proof.
  unfold year_days, leap.
  assert (y / 4 = (y - 1) / 4 + (if y mod 4 =? 0 then 1 else 0)) as ->
    by (destruct (Z.eqb_spec (y mod 4) 0); Z.to_euclidean_division_equations; lia).
  assert (y / 100 = (y - 1) / 100 + (if y mod 100 =? 0 then 1 else 0)) as ->
    by (destruct (Z.eqb_spec (y mod 100) 0); Z.to_euclidean_division_equations; lia).
  assert (y / 400 = (y - 1) / 400 + (if y mod 400 =? 0 then 1 else 0)) as ->
    by (destruct (Z.eqb_spec (y mod 400) 0); Z.to_euclidean_division_equations; lia).
  assert (y mod 100 = 0 → y mod 4 = 0) by (Z.to_euclidean_division_equations; lia).
  assert (y mod 400 = 0 → y mod 100 = 0) by (Z.to_euclidean_division_equations; lia).
  destruct (Z.eqb_spec (y mod 4) 0), (Z.eqb_spec (y mod 100) 0), (Z.eqb_spec (y mod 400) 0);
    simpl; (lia || tauto).
Qed.

(** Evaluate the month offsets of a goal. *)
Ltac month_offsets :=
  repeat match goal with
  | |- context [(153 * (?a mod 12) + 2) / 5] =>
      let v := eval vm_compute in ((153 * (a mod 12) + 2) / 5) in
      change ((153 * (a mod 12) + 2) / 5) with v
  end.

(** The day count is the Gregorian calendar's: 1970-01-01 is day 0 and
    the day after any date, across months, years and leap days, is one more. *)
Theorem days_from_civil_calendar :
  days_from_civil 1970 1 1 = 0 ∧
  ∀ y m d, valid_date y m d →
    let '(y', m', d') := next_day y m d in
    valid_date y' m' d' ∧ days_from_civil y' m' d' = days_from_civil y m d + 1.
Proof.
  split; [reflexivity|]. intros y m d [Hm Hd]. unfold next_day.
  assert (∀ y m, 1 ≤ days_in_month y m) as Hdim
    by (intros; unfold days_in_month; repeat case_match; lia).
  destruct (Z.ltb_spec d (days_in_month y m)).
  { split; [unfold valid_date; lia|]. rewrite !days_from_civil_closed by lia. lia. }
  assert (d = days_in_month y m) as -> by lia. clear Hd.
  pose proof (year_days_step y) as Hy.
  destruct (Z.ltb_spec m 12).
  - split; [unfold valid_date; split; [lia|split; [lia|apply Hdim]]|].
    rewrite !days_from_civil_closed by lia.
    assert (m ∈ [1; 2; 3; 4; 5; 6; 7; 8; 9; 10; 11]) as Hin.
    { assert (m = 1 ∨ m = 2 ∨ m = 3 ∨ m = 4 ∨ m = 5 ∨ m = 6 ∨ m = 7 ∨ m = 8 ∨ m = 9 ∨ m = 10 ∨ m = 11)
        by lia. set_solver. }
    unfold days_in_month.
    repeat (apply elem_of_cons in Hin as [->|Hin]; [month_offsets; simpl; revert Hy;
      destruct (leap y); lia|]). by apply elem_of_nil in Hin.
  - assert (m = 12) as -> by lia. split; [unfold valid_date; split; [lia|split; [lia|apply Hdim]]|].
    rewrite !days_from_civil_closed by lia. unfold days_in_month. simpl.
    replace (y + 1 - 1) with y by lia. month_offsets. lia.
Qed.
