(* ===== verification/AttachTicket.v ===== *)
(** Attach tickets, [vgi/src/attach_ticket.rs]: the payload codec, minting and
    opening a ticket.  The AEAD is [Aead]; base64url is a parameter with the
    laws of [Base64Laws].  Sealing and redeeming are in [AttachSeal]. *)
From S2P Require Import Prelude Codec Float64 Aead.

Open Scope Z_scope.

Definition ATTACH_TICKET_PREFIX : string := "vgia1.".
Definition ATTACH_TICKET_OPTION : string := "vgi_attach_ticket".
Definition TICKET_ENVELOPE_VERSION : byte := x01.
Definition TICKET_AAD_DOMAIN : bytes := as_bytes "vgi.attach_ticket.v1" ++ [x00].
Definition MAX_OPTIONS_BYTES : Z := 16 * 1024.
Definition MAX_TICKET_CHARS : Z := 32 * 1024.
Definition CLOCK_SKEW_SECONDS : Z := 60.
Definition MAX_TEXT : Z := 65535.

Inductive ticket_error :=
| ValueError (msg : string)
| TicketInvalid (detail : string)
| TicketExpired (detail : string)
| InvalidRequest (message : string) (violations : list (string * string))
| ActionDenied (message : string).

(** The [message] of the [RpcError]. *)
Definition err_message (e : ticket_error) : string :=
  match e with
  | ValueError m | TicketInvalid m | TicketExpired m | InvalidRequest m _ | ActionDenied m => m
  end.

Record AttachTicketClaims := mkClaims {
  issued_at : Z;
  expires_at : Z;
  ticket_id : string;
  catalog_name : string;
  data_version_spec : string;
  implementation_version : string;
  options_ipc : bytes;
}.

Definition attach_ticket_aad (principal : string) : bytes := TICKET_AAD_DOMAIN ++ as_bytes principal.

Definition is_lower_hex (b : byte) : bool :=
  let z := Z_of_byte b in ((48 <=? z) && (z <=? 57)) || ((97 <=? z) && (z <=? 102)).

Definition is_ticket_id (value : string) : bool :=
  (String.length value =? 32)%nat && forallb is_lower_hex (as_bytes value).

(** * UTF-8 *)

Definition byte_in (lo hi : Z) (b : byte) : bool := (lo <=? Z_of_byte b) && (Z_of_byte b <=? hi).
Definition cont : byte → bool := byte_in 0x80 0xBF.

(** [String::from_utf8(..).is_ok()]: well-formed sequences of RFC 3629. *)
Fixpoint utf8_valid (l : bytes) : bool :=
  match l with
  | [] => true
  | b0 :: l1 =>
      if byte_in 0 0x7F b0 then utf8_valid l1
      else match l1 with
      | [] => false
      | b1 :: l2 =>
          if byte_in 0xC2 0xDF b0 then cont b1 && utf8_valid l2
          else match l2 with
          | [] => false
          | b2 :: l3 =>
              if byte_in 0xE0 0xEF b0 then
                (if byte_in 0xE0 0xE0 b0 then byte_in 0xA0 0xBF b1
                 else if byte_in 0xED 0xED b0 then byte_in 0x80 0x9F b1 else cont b1) &&
                cont b2 && utf8_valid l3
              else match l3 with
              | [] => false
              | b3 :: l4 =>
                  byte_in 0xF0 0xF4 b0 &&
                  (if byte_in 0xF0 0xF0 b0 then byte_in 0x90 0xBF b1
                   else if byte_in 0xF4 0xF4 b0 then byte_in 0x80 0x8F b1 else cont b1) &&
                  cont b2 && cont b3 && utf8_valid l4
              end
          end
      end
  end.

(** * Payload *)

Definition pack_text (value field : string) : result bytes ticket_error :=
  if MAX_TEXT <? Z.of_nat (String.length value) then
    Err (ValueError (field +:+ " is longer than 65535 bytes"))
  else Ok (le_bytes 2 (Z.of_nat (String.length value)) ++ as_bytes value).

Definition encode_payload (c : AttachTicketClaims) : result bytes ticket_error :=
  if MAX_OPTIONS_BYTES <? Z.of_nat (length (options_ipc c)) then
    Err (ValueError ("options are " +:+ Z_to_string (Z.of_nat (length (options_ipc c))) +:+
                     " bytes; a ticket carries at most " +:+ Z_to_string MAX_OPTIONS_BYTES))
  else
    let? t := pack_text (ticket_id c) "ticket_id" in
    let? n := pack_text (catalog_name c) "catalog_name" in
    let? d := pack_text (data_version_spec c) "data_version_spec" in
    let? v := pack_text (implementation_version c) "implementation_version" in
    Ok (le_bytes 8 (issued_at c) ++ le_bytes 8 (expires_at c) ++ t ++ n ++ d ++ v ++
        le_bytes 4 (Z.of_nat (length (options_ipc c))) ++ options_ipc c).

(** The reader: what is left of the buffer. *)
Definition read_bytes (n : nat) (buf : bytes) : result (bytes * bytes) ticket_error :=
  if (length buf <? n)%nat then Err (TicketInvalid "attach ticket payload is truncated")
  else Ok (take n buf, drop n buf).

Definition read_i64 (buf : bytes) : result (Z * bytes) ticket_error :=
  let? p := read_bytes 8 buf in Ok (le_i64 p.1, p.2).

Definition read_text (buf : bytes) : result (string * bytes) ticket_error :=
  let? p := read_bytes 2 buf in
  let? q := read_bytes (Z.to_nat (le_val p.1)) p.2 in
  if utf8_valid q.1 then Ok (string_of_bytes q.1, q.2)
  else Err (TicketInvalid "attach ticket payload is not UTF-8").

Definition decode_payload (payload : bytes) : result AttachTicketClaims ticket_error :=
  let? p1 := read_i64 payload in
  let? p2 := read_i64 p1.2 in
  let? p3 := read_text p2.2 in
  let? p4 := read_text p3.2 in
  let? p5 := read_text p4.2 in
  let? p6 := read_text p5.2 in
  let? p7 := read_bytes 4 p6.2 in
  let options_len := le_val p7.1 in
  if MAX_OPTIONS_BYTES <? options_len then Err (TicketInvalid "attach ticket options exceed 16 KiB")
  else
    let? p8 := read_bytes (Z.to_nat options_len) p7.2 in
    if negb (length p8.2 =? 0)%nat then Err (TicketInvalid "attach ticket payload has trailing bytes")
    else if negb (is_ticket_id p3.1) then Err (TicketInvalid "attach ticket id is not 32 lowercase hex")
    else if (String.length p4.1 =? 0)%nat then Err (TicketInvalid "attach ticket names no catalog")
    else if negb (p2.1 =? 0) && (p2.1 <=? p1.1) then Err (TicketInvalid "attach ticket lifetime is empty")
    else Ok (mkClaims p1.1 p2.1 p3.1 p4.1 p5.1 p6.1 p8.1).

(** * Minting and opening *)

Section ticket.
Context `{Aead}.
(** base64url without padding; the decoder also accepts stray trailing bits. *)
Context (b64url : bytes → string) (b64_decode : string → option bytes).

Definition is_b64_char (b : byte) : bool :=
  byte_in 48 57 b || byte_in 65 90 b || byte_in 97 122 b || byte_in 45 45 b || byte_in 95 95 b.

Definition b64url_strict (text : string) : result bytes ticket_error :=
  let alphabet_ok := negb (String.length text =? 0)%nat && forallb is_b64_char (as_bytes text) in
  if negb alphabet_ok || (String.length text mod 4 =? 1)%nat then
    Err (TicketInvalid "attach ticket is not unpadded base64url")
  else match b64_decode text with
       | None => Err (TicketInvalid "attach ticket is not unpadded base64url")
       | Some raw =>
           if negb (String.eqb (b64url raw) text) then
             Err (TicketInvalid "attach ticket is not canonical base64url")
           else Ok raw
       end.

Definition mint_with_nonce (signing_key : bytes) (principal : string) (c : AttachTicketClaims)
    (nonce : bytes) : result string ticket_error :=
  if (String.length principal =? 0)%nat then Err (ValueError "a ticket needs a principal")
  else if (String.length (catalog_name c) =? 0)%nat then
    Err (ValueError "a ticket needs a catalog name")
  else if negb (is_ticket_id (ticket_id c)) then
    Err (ValueError "ticket_id must be 32 lowercase hex")
  else if negb (expires_at c =? 0) && (expires_at c <=? issued_at c) then
    Err (ValueError "expires_at must be 0 or after issued_at")
  else
    let? payload := encode_payload c in
    let token := ATTACH_TICKET_PREFIX +:+
      b64url (seal_bytes nonce payload signing_key (attach_ticket_aad principal)
                TICKET_ENVELOPE_VERSION) in
    if MAX_TICKET_CHARS <? Z.of_nat (String.length token) then
      Err (ValueError ("the ticket would be " +:+ Z_to_string (Z.of_nat (String.length token)) +:+
                       " characters; at most " +:+ Z_to_string MAX_TICKET_CHARS +:+ " are accepted"))
    else Ok token.

(** The lifetime test, on the [f64] clock; [expires_at + 60] wraps. *)
Definition lifetime (c : AttachTicketClaims) (now : f64) : result () ticket_error :=
  if f64_lt (f64_add now (f64_of_Z CLOCK_SKEW_SECONDS)) (f64_of_Z (issued_at c)) then
    Err (TicketExpired "attach ticket is not yet valid")
  else if negb (expires_at c =? 0) &&
          f64_le (f64_of_Z (wrap_i64 (expires_at c + CLOCK_SKEW_SECONDS))) now then
    Err (TicketExpired "attach ticket has expired")
  else Ok ().

Definition open_attach_ticket (signing_key : bytes) (token : string) (principal : option string)
    (now : f64) : result AttachTicketClaims ticket_error :=
  match strip_prefix ATTACH_TICKET_PREFIX token with
  | None => Err (TicketInvalid "not an attach ticket")
  | Some body =>
      if MAX_TICKET_CHARS <? Z.of_nat (String.length token) then
        Err (TicketInvalid "attach ticket is too long")
      else
        let? envelope := b64url_strict body in
        match principal with
        | Some p =>
            if (String.length p =? 0)%nat then
              Err (TicketInvalid "an anonymous caller cannot redeem an attach ticket")
            else
              match open_bytes envelope signing_key (attach_ticket_aad p) TICKET_ENVELOPE_VERSION with
              | Err _ => Err (TicketInvalid "attach ticket failed verification")
              | Ok payload =>
                  let? claims := decode_payload payload in
                  let? _ := lifetime claims now in
                  Ok claims
              end
        | None => Err (TicketInvalid "an anonymous caller cannot redeem an attach ticket")
        end
  end.
End ticket.

(** * The payload codec is a bijection *)

Definition text_ok (s : string) : Prop :=
  utf8_valid (as_bytes s) = true ∧ Z.of_nat (String.length s) ≤ MAX_TEXT.

Record claims_ok (c : AttachTicketClaims) : Prop := {
  c_issued : i64_range (issued_at c);
  c_expires : i64_range (expires_at c);
  c_id : is_ticket_id (ticket_id c) = true;
  c_id_text : text_ok (ticket_id c);
  c_catalog : catalog_name c ≠ "";
  c_catalog_text : text_ok (catalog_name c);
  c_data : text_ok (data_version_spec c);
  c_impl : text_ok (implementation_version c);
  c_life : expires_at c = 0 ∨ issued_at c < expires_at c;
  c_options : Z.of_nat (length (options_ipc c)) ≤ MAX_OPTIONS_BYTES;
}.

(** The payload of well-formed claims. *)
Definition text_bytes (s : string) : bytes := le_bytes 2 (Z.of_nat (String.length s)) ++ as_bytes s.

Definition payload_of (c : AttachTicketClaims) : bytes :=
  le_bytes 8 (issued_at c) ++ le_bytes 8 (expires_at c) ++ text_bytes (ticket_id c) ++
  text_bytes (catalog_name c) ++ text_bytes (data_version_spec c) ++
  text_bytes (implementation_version c) ++
  le_bytes 4 (Z.of_nat (length (options_ipc c))) ++ options_ipc c.

Lemma pack_text_ok s f : text_ok s → pack_text s f = Ok (text_bytes s).
Proof.
  intros [_ Hl]. unfold pack_text. destruct (Z.ltb_spec MAX_TEXT (Z.of_nat (String.length s))); [lia|done].
Qed.

Lemma encode_payload_ok c : claims_ok c → encode_payload c = Ok (payload_of c).
Proof.
  intros Hc. unfold encode_payload.
  destruct (Z.ltb_spec MAX_OPTIONS_BYTES (Z.of_nat (length (options_ipc c))));
    [pose proof (c_options _ Hc); lia|].
  rewrite (pack_text_ok (ticket_id c)), (pack_text_ok (catalog_name c)),
    (pack_text_ok (data_version_spec c)), (pack_text_ok (implementation_version c)) by apply Hc.
  done.
Qed.

Lemma read_bytes_app x r : read_bytes (length x) (x ++ r) = Ok (x, r).
Proof.
  unfold read_bytes. rewrite length_app. destruct (Nat.ltb_spec (length x + length r) (length x)); [lia|].
  by rewrite take_app_length, drop_app_length.
Qed.

Lemma read_bytes_inv n buf x r :
  read_bytes n buf = Ok (x, r) → buf = x ++ r ∧ length x = n.
Proof.
  unfold read_bytes. destruct (Nat.ltb_spec (length buf) n); [done|]. intros [= <- <-].
  rewrite take_drop, length_take. split; [done|lia].
Qed.

Lemma read_i64_app z r : i64_range z → read_i64 (le_bytes 8 z ++ r) = Ok (z, r).
Proof.
  intros Hz. unfold read_i64. pose proof (read_bytes_app (le_bytes 8 z) r) as E.
  rewrite length_le_bytes in E. rewrite E. cbn [fst snd]. by rewrite le_i64_bytes.
Qed.

Lemma read_i64_inv buf z r :
  read_i64 buf = Ok (z, r) → i64_range z ∧ buf = le_bytes 8 z ++ r.
Proof.
  unfold read_i64. destruct (read_bytes 8 buf) as [[x r']|] eqn:E; [|done].
  cbn [fst snd]. intros [= <- <-]. apply read_bytes_inv in E as [-> Hl].
  split; [by apply le_i64_range|]. f_equal. symmetry. by apply le_bytes_of_i64.
Qed.

Lemma read_text_app s r : text_ok s → read_text (text_bytes s ++ r) = Ok (s, r).
Proof.
  intros [Hu Hl]. unfold read_text, text_bytes. rewrite <- app_assoc.
  pose proof (read_bytes_app (le_bytes 2 (Z.of_nat (String.length s))) (as_bytes s ++ r)) as E.
  rewrite length_le_bytes in E. rewrite E. cbn [fst snd].
  rewrite le_val_bytes, Z.mod_small, Nat2Z.id
    by (change (256 ^ Z.of_nat 2) with 65536; unfold MAX_TEXT in Hl; lia).
  pose proof (read_bytes_app (as_bytes s) r) as E2. rewrite length_as_bytes in E2. rewrite E2.
  cbn [fst snd]. by rewrite Hu, string_of_as_bytes.
Qed.

Lemma read_text_inv buf s r :
  read_text buf = Ok (s, r) → text_ok s ∧ buf = text_bytes s ++ r.
Proof.
  unfold read_text. destruct (read_bytes 2 buf) as [[x r1]|] eqn:E1; [|done]. cbn [fst snd].
  destruct (read_bytes (Z.to_nat (le_val x)) r1) as [[y r2]|] eqn:E2; [|done]. cbn [fst snd].
  destruct (utf8_valid y) eqn:Eu; [|done]. intros [= <- <-].
  apply read_bytes_inv in E1 as [-> Hx]. apply read_bytes_inv in E2 as [-> Hy].
  pose proof (le_val_range x) as Hr. rewrite Hx in Hr. change (256 ^ Z.of_nat 2) with 65536 in Hr.
  unfold text_ok, text_bytes. rewrite <- length_as_bytes, as_bytes_of_bytes. rewrite Hy, Z2Nat.id by lia.
  split; [split; [done|unfold MAX_TEXT; lia]|]. rewrite <- Hx, le_bytes_val. by rewrite app_assoc.
Qed.

Lemma decode_payload_inv p c :
  decode_payload p = Ok c → claims_ok c ∧ encode_payload c = Ok p.
Proof.
  unfold decode_payload. intros E.
  destruct (read_i64 p) as [[i r1]|] eqn:E1; [|done]. cbn [fst snd] in E.
  destruct (read_i64 r1) as [[x r2]|] eqn:E2; [|done]. cbn [fst snd] in E.
  destruct (read_text r2) as [[t r3]|] eqn:E3; [|done]. cbn [fst snd] in E.
  destruct (read_text r3) as [[n r4]|] eqn:E4; [|done]. cbn [fst snd] in E.
  destruct (read_text r4) as [[d r5]|] eqn:E5; [|done]. cbn [fst snd] in E.
  destruct (read_text r5) as [[v r6]|] eqn:E6; [|done]. cbn [fst snd] in E.
  destruct (read_bytes 4 r6) as [[l r7]|] eqn:E7; [|done]. cbn [fst snd] in E.
  destruct (Z.ltb_spec MAX_OPTIONS_BYTES (le_val l)); [done|].
  destruct (read_bytes (Z.to_nat (le_val l)) r7) as [[o r8]|] eqn:E8; [|done]. cbn [fst snd] in E.
  destruct (Nat.eqb_spec (length r8) 0) as [Hr8|]; [|done]. cbn [negb] in E.
  destruct (is_ticket_id t) eqn:Et; [|done]. cbn [negb] in E.
  destruct (Nat.eqb_spec (String.length n) 0) as [|Hn]; [done|].
  destruct (negb (x =? 0) && (x <=? i)) eqn:Elife; [done|]. injection E as <-.
  apply read_i64_inv in E1 as [Hi ->]. apply read_i64_inv in E2 as [Hx ->].
  apply read_text_inv in E3 as [Ht ->]. apply read_text_inv in E4 as [Hnt ->].
  apply read_text_inv in E5 as [Hd ->]. apply read_text_inv in E6 as [Hv ->].
  apply read_bytes_inv in E7 as [-> Hl]. apply read_bytes_inv in E8 as [-> Ho].
  apply nil_length_inv in Hr8 as ->. rewrite app_nil_r.
  pose proof (le_val_range l) as Hlr.
  assert (Z.of_nat (length o) = le_val l) as Hol by (rewrite Ho, Z2Nat.id; lia).
  assert (claims_ok (mkClaims i x t n d v o)) as Hok.
  { split; simpl; try done; [by intros ->| |by rewrite Hol].
    apply andb_false_iff in Elife as [E%negb_false_iff%Z.eqb_eq|E%Z.leb_gt]; lia. }
  split; [done|]. rewrite encode_payload_ok by done. unfold payload_of.
  cbn [issued_at expires_at ticket_id catalog_name data_version_spec implementation_version options_ipc].
  pose proof (le_bytes_val l) as El. rewrite Hl in El. by rewrite Hol, El.
Qed.

Lemma decode_payload_enc p c :
  claims_ok c → encode_payload c = Ok p → decode_payload p = Ok c.
Proof.
  intros Hok E. rewrite encode_payload_ok in E by done. injection E as <-.
  unfold payload_of, decode_payload.
  rewrite read_i64_app by apply Hok. cbn [fst snd].
  rewrite read_i64_app by apply Hok. cbn [fst snd].
  do 4 (rewrite read_text_app by apply Hok; cbn [fst snd]).
  pose proof (read_bytes_app (le_bytes 4 (Z.of_nat (length (options_ipc c)))) (options_ipc c)) as E7.
  rewrite length_le_bytes in E7. rewrite E7. cbn [fst snd].
  pose proof (c_options _ Hok) as Ho. unfold MAX_OPTIONS_BYTES in *.
  rewrite le_val_bytes, Z.mod_small by (change (256 ^ Z.of_nat 4) with (2 ^ 32); lia).
  destruct (Z.ltb_spec (16 * 1024) (Z.of_nat (length (options_ipc c)))); [lia|].
  rewrite Nat2Z.id. pose proof (read_bytes_app (options_ipc c) []) as E8. rewrite app_nil_r in E8.
  rewrite E8. cbn [fst snd length Nat.eqb negb]. rewrite (c_id _ Hok). cbn [negb].
  destruct (Nat.eqb_spec (String.length (catalog_name c)) 0) as [E0|_].
  { exfalso. apply (c_catalog _ Hok). by destruct (catalog_name c). }
  assert (negb (expires_at c =? 0) && (expires_at c <=? issued_at c) = false) as ->.
  { apply andb_false_iff. rewrite negb_false_iff, Z.eqb_eq, Z.leb_gt. apply (c_life _ Hok). }
  by destruct c.
Qed.

(** The ticket payload codec is exact in both directions: a payload
    decodes to claims precisely when it is the encoding of those claims and they obey every field
    rule, so no two payloads carry the same claims and no byte is ignored. *)
Theorem ticket_payload_bijective p c :
  decode_payload p = Ok c ↔ claims_ok c ∧ encode_payload c = Ok p.
Proof. split; [apply decode_payload_inv|intros [??]; by apply decode_payload_enc]. Qed.

(** * Opening and minting are inverse *)

(** What the tickets rely on of base64url without padding: it decodes what it
    encodes, into its alphabet, never to a length of 1 mod 4, and only the
    empty text to nothing. *)
Class Base64Laws (b64url : bytes → string) (b64_decode : string → option bytes) : Prop := {
  b64_roundtrip b : b64_decode (b64url b) = Some b;
  b64_alphabet b : forallb is_b64_char (as_bytes (b64url b)) = true;
  b64_length b : (String.length (b64url b) mod 4 ≠ 1)%nat;
  b64_nonempty b : b ≠ [] → b64url b ≠ "";
}.

Section ticket_facts.
Context `{AeadLaws} b64url b64_decode `{!Base64Laws b64url b64_decode}.

Lemma b64url_strict_encode raw : raw ≠ [] → b64url_strict b64url b64_decode (b64url raw) = Ok raw.
Proof.
  intros Hne. unfold b64url_strict. rewrite b64_alphabet, b64_roundtrip, String.eqb_refl.
  destruct (Nat.eqb_spec (String.length (b64url raw)) 0) as [E|_].
  { exfalso. apply (b64_nonempty raw Hne). by destruct (b64url raw). }
  destruct (Nat.eqb_spec (String.length (b64url raw) mod 4) 1) as [E|_]; [|done].
  by destruct (b64_length raw).
Qed.

Lemma b64url_strict_inv text raw : b64url_strict b64url b64_decode text = Ok raw → text = b64url raw.
Proof.
  unfold b64url_strict. destruct (_ || _); [done|]. destruct (b64_decode text) as [r|]; [|done].
  destruct (String.eqb_spec (b64url r) text); [|done]. by intros [= ->].
Qed.

(** What a successful mint says. *)
Lemma mint_ok_inv key p c nonce token :
  mint_with_nonce b64url key p c nonce = Ok token ↔
  p ≠ "" ∧ catalog_name c ≠ "" ∧ is_ticket_id (ticket_id c) = true ∧
  (expires_at c = 0 ∨ issued_at c < expires_at c) ∧
  Z.of_nat (String.length token) ≤ MAX_TICKET_CHARS ∧
  ∃ payload, encode_payload c = Ok payload ∧
    token = ATTACH_TICKET_PREFIX +:+
      b64url (seal_bytes nonce payload key (attach_ticket_aad p) TICKET_ENVELOPE_VERSION).
Proof.
  assert (∀ s, (String.length s =? 0)%nat = true ↔ s = "") as Hs.
  { intros s. rewrite Nat.eqb_eq. by destruct s. }
  assert (negb (expires_at c =? 0) && (expires_at c <=? issued_at c) = false ↔
    expires_at c = 0 ∨ issued_at c < expires_at c) as Hlife.
  { by rewrite andb_false_iff, negb_false_iff, Z.eqb_eq, Z.leb_gt. }
  unfold mint_with_nonce.
  destruct (String.length p =? 0)%nat eqn:E1.
  { apply Hs in E1. naive_solver. }
  destruct (String.length (catalog_name c) =? 0)%nat eqn:E2.
  { apply Hs in E2. naive_solver. }
  rewrite <- (not_true_iff_false), Hs in E1, E2.
  destruct (is_ticket_id (ticket_id c)); cbn [negb]; [|naive_solver].
  destruct (negb (expires_at c =? 0) && (expires_at c <=? issued_at c)) eqn:E4; [naive_solver|].
  pose proof (proj1 Hlife eq_refl) as Hl.
  destruct (encode_payload c) as [payload|]; [|naive_solver].
  set (tok := ATTACH_TICKET_PREFIX +:+ _).
  destruct (Z.ltb_spec MAX_TICKET_CHARS (Z.of_nat (String.length tok))) as [Hc|Hc].
  - split; [done|]. intros (_ & _ & _ & _ & Hle & payload' & [= <-] & ->).
    exfalso. unfold tok in Hc. lia.
  - split; [intros [= <-]; repeat (split; [done|]); by exists payload|].
    intros (_ & _ & _ & _ & _ & payload' & [= <-] & ->). done.
Qed.

Lemma open_ok_inv key token principal now c :
  open_attach_ticket b64url b64_decode key token principal now = Ok c →
  ∃ p nonce, principal = Some p ∧ claims_ok c ∧ lifetime c now = Ok () ∧
    mint_with_nonce b64url key p c nonce = Ok token.
Proof.
  unfold open_attach_ticket. destruct (strip_prefix _ token) as [body|] eqn:Ep; [|done].
  apply strip_prefix_Some in Ep as ->.
  destruct (Z.ltb_spec MAX_TICKET_CHARS (Z.of_nat (String.length (ATTACH_TICKET_PREFIX +:+ body))));
    [done|].
  destruct (b64url_strict _ _ body) as [env|] eqn:Eb; [|done]. apply b64url_strict_inv in Eb as ->.
  destruct principal as [p|]; [|done]. destruct (Nat.eqb_spec (String.length p) 0) as [|Hp]; [done|].
  destruct (open_bytes _ _ _ _) as [payload|] eqn:Eo; [|done].
  destruct (decode_payload payload) as [c'|] eqn:Ed; [|done].
  destruct (lifetime c' now) as [[]|] eqn:El; [|done]. intros [= ->].
  apply aead_auth in Eo as [nonce ->]. apply decode_payload_inv in Ed as [Hok Henc].
  exists p, nonce. split; [done|]. split; [done|]. split; [done|]. apply mint_ok_inv.
  split; [by intros ->|]. split; [apply Hok|]. split; [apply Hok|]. split; [apply Hok|].
  split; [done|]. by exists payload.
Qed.

Lemma open_minted key p c nonce token now :
  claims_ok c → mint_with_nonce b64url key p c nonce = Ok token →
  open_attach_ticket b64url b64_decode key token (Some p) now = let? _ := lifetime c now in Ok c.
Proof.
  intros Hok (Hp & _ & _ & _ & Hlen & payload & He & ->)%mint_ok_inv.
  unfold open_attach_ticket. rewrite strip_prefix_app.
  destruct (Z.ltb_spec MAX_TICKET_CHARS (Z.of_nat (String.length
    (ATTACH_TICKET_PREFIX +:+ b64url (seal_bytes nonce payload key (attach_ticket_aad p)
       TICKET_ENVELOPE_VERSION))))); [lia|].
  rewrite b64url_strict_encode by apply aead_nonempty.
  destruct (Nat.eqb_spec (String.length p) 0) as [E|_]; [by destruct p|].
  rewrite aead_open. by rewrite (decode_payload_enc _ _ Hok He).
Qed.

Lemma mint_binds key key' p p' c c' nonce nonce' token :
  claims_ok c → claims_ok c' →
  mint_with_nonce b64url key p c nonce = Ok token →
  mint_with_nonce b64url key' p' c' nonce' = Ok token →
  normalize_key key' = normalize_key key ∧ p' = p ∧ c' = c.
Proof.
  intros Hc Hc' (_ & _ & _ & _ & _ & pl & He & ->)%mint_ok_inv
    (_ & _ & _ & _ & _ & pl' & He' & E)%mint_ok_inv.
  apply (inj (String.append ATTACH_TICKET_PREFIX)) in E.
  apply (f_equal b64_decode) in E. rewrite !b64_roundtrip in E. injection E as E.
  apply aead_bind in E as (<- & Ek & Ea & _).
  apply (inj (app TICKET_AAD_DOMAIN)), as_bytes_inj in Ea as <-.
  pose proof (decode_payload_enc _ _ Hc He) as D. rewrite (decode_payload_enc _ _ Hc' He') in D.
  by injection D as ->.
Qed.

(** C27: A ticket opens, and to given claims, exactly when it was minted with
    the worker's key for the calling principal from those claims and the clock is inside their
    lifetime; and the text determines the principal, the claims and the key up to its
    normalization (the cipher's 32-byte key; a 32-byte key is its own), so a ticket sealed for
    one user, or by a worker whose key normalizes otherwise, never opens for a caller and never
    to other claims. *)
Theorem ticket_unforgeable key token principal now c :
  open_attach_ticket b64url b64_decode key token principal now = Ok c ↔
  ∃ p, principal = Some p ∧ claims_ok c ∧ lifetime c now = Ok () ∧
    (∃ nonce, mint_with_nonce b64url key p c nonce = Ok token) ∧
    ∀ key' p' c' nonce', claims_ok c' →
      mint_with_nonce b64url key' p' c' nonce' = Ok token →
      normalize_key key' = normalize_key key ∧ p' = p ∧ c' = c.
Proof.
  split.
  - intros (p & nonce & -> & Hok & Hl & Hm)%open_ok_inv. exists p. split_and!; try done.
    { by exists nonce. }
    intros key' p' c' nonce' Hc' Hm'. by apply (mint_binds _ _ _ _ _ _ nonce nonce' token).
  - intros (p & -> & Hok & Hl & [nonce Hm] & _). rewrite (open_minted _ _ _ _ _ _ Hok Hm). by rewrite Hl.
Qed.
End ticket_facts.

(** * A concrete base64 and ticket *)

(** Four letters a byte: its two nibbles, then two more letters. *)
Definition letter (n : Z) : byte := byte_of_Z (97 + n).
Definition ex_b64url (b : bytes) : string :=
  string_of_bytes (b ≫= λ x, [letter (Z_of_byte x / 16); letter (Z_of_byte x mod 16); x61; x61]).
Fixpoint ex_unlet (l : bytes) : option bytes :=
  match l with
  | [] => Some []
  | h :: o :: _ :: _ :: r =>
      (byte_of_Z (16 * (Z_of_byte h - 97) + (Z_of_byte o - 97)) ::.) <$> ex_unlet r
  | _ => None
  end.
Definition ex_b64_decode (s : string) : option bytes := ex_unlet (as_bytes s).

Lemma letter_val n : 0 ≤ n < 16 → Z_of_byte (letter n) = 97 + n.
Proof. intros. unfold letter. rewrite Z_of_byte_of_Z, Z.mod_small; lia. Qed.

Lemma nibbles b : 0 ≤ Z_of_byte b / 16 < 16 ∧ 0 ≤ Z_of_byte b mod 16 < 16.
Proof.
  pose proof (Z_of_byte_range b). pose proof (Z.mod_pos_bound (Z_of_byte b) 16).
  split; [split; [apply Z.div_pos; lia|apply Z.div_lt_upper_bound; lia]|lia].
Qed.

#[global] Instance ex_b64_laws : Base64Laws ex_b64url ex_b64_decode.
Proof.
  split.
  - intros b. unfold ex_b64_decode, ex_b64url. rewrite as_bytes_of_bytes.
    induction b as [|x b IH]; [done|]. rewrite bind_cons. cbn [app ex_unlet].
    rewrite IH. destruct (nibbles x). rewrite !letter_val by done. cbn. do 2 f_equal.
    rewrite <- (byte_of_Z_of_byte x) at 3. f_equal.
    pose proof (Z.div_mod (Z_of_byte x) 16). lia.
  - intros b. unfold ex_b64url. rewrite as_bytes_of_bytes. induction b as [|x b IH]; [done|].
    rewrite bind_cons, forallb_app, IH. destruct (nibbles x).
    assert (∀ n, 0 ≤ n < 16 → is_b64_char (letter n) = true) as Hc.
    { intros n Hn. unfold is_b64_char, byte_in. rewrite letter_val by done. lia. }
    cbn [forallb]. by rewrite !Hc.
  - intros b. unfold ex_b64url. rewrite <- length_as_bytes, as_bytes_of_bytes.
    induction b as [|x b IH]; [done|]. rewrite bind_cons, length_app. cbn [length].
    change 4%nat with (1 * 4)%nat at 1. by rewrite Nat.add_comm, Nat.Div0.mod_add.
  - intros [|x b]; [done|]. intros _ E. apply (f_equal as_bytes) in E.
    unfold ex_b64url in E. by rewrite as_bytes_of_bytes in E.
Qed.

Definition ex_claims : AttachTicketClaims :=
  mkClaims 1000 2000 "0123456789abcdef0123456789abcdef" "sales" "" "v1" [x07].
Definition ex_ticket : string :=
  match mint_with_nonce ex_b64url [x01] "alice" ex_claims [] with Ok t => t | Err _ => "" end.

Lemma ex_claims_ok : claims_ok ex_claims.
Proof.
  split; try (by vm_compute); try (split; vm_compute; done). by right.
Qed.

Lemma ticket_unforgeable_witness :
  ∃ p, Some "alice" = Some p ∧ claims_ok ex_claims ∧ lifetime ex_claims (f64_of_Z 1500) = Ok () ∧
    (∃ nonce, mint_with_nonce ex_b64url [x01] p ex_claims nonce = Ok ex_ticket) ∧
    ∀ key' p' c' nonce', claims_ok c' →
      mint_with_nonce ex_b64url key' p' c' nonce' = Ok ex_ticket →
      normalize_key key' = normalize_key [x01] ∧ p' = p ∧ c' = ex_claims.
Proof.
  apply (ticket_unforgeable ex_b64url ex_b64_decode [x01] ex_ticket (Some "alice") (f64_of_Z 1500)
           ex_claims).
  vm_compute. reflexivity.
Defined.
