(* ===== verification/AttachSeal.v ===== *)
(** The attach flow of tickets: the attach options a catalog declares
    ([vgi/src/catalog.rs], [vgi/src/dispatch.rs]), sealing an attach
    ([seal_attach]) and redeeming one in [catalog_attach]
    ([redeem_attach_ticket], [vgi/src/attach_ticket.rs]).  The Arrow IPC reader,
    chrono's [from_timestamp], [{:?}] and Unicode [to_lowercase] are
    parameters. *)
From S2P Require Import Prelude Codec Float64 Aead AttachTicket.

Open Scope Z_scope.

(** * Batches as the attach code reads them *)

(** A column: [Utf8], [Boolean], one of the types [string_value] casts to
    [Utf8] with what arrow's cast gives, or another type. *)
Inductive Column :=
| Utf8Col (values : list (option string))
| BoolCol (values : list (option bool))
| CastCol (cast : option (list (option string)))
| OtherCol.

Record Batch := mkBatch { num_rows : nat; fields : list (string * Column) }.

Definition field_names (b : Batch) : list string := (fields b).*1.

Definition column_by_name (b : Batch) (n : string) : option Column :=
  (λ p : nat * (string * Column), p.2.2) <$> list_find (λ f : string * Column, f.1 = n) (fields b).

(** * Declared options *)

Record CatalogModel := mkModel { model_name : string; attach_option_specs : list bytes }.

Record Dispatcher := mkDispatcher {
  disp_catalog_name : string;
  catalog : CatalogModel;
  secondary : list CatalogModel;
  stored : list CatalogModel;
}.

Definition find_model (name : string) (l : list CatalogModel) : option CatalogModel :=
  snd <$> list_find (λ c, model_name c = name) l.

Definition attach_option_specs_of (disp : Dispatcher) (name : string) : option (list bytes) :=
  let primary := if (String.length (model_name (catalog disp)) =? 0)%nat
                 then disp_catalog_name disp else model_name (catalog disp) in
  if String.eqb primary name then Some (attach_option_specs (catalog disp))
  else match find_model name (secondary disp) with
       | Some sec => Some (attach_option_specs sec)
       | None => attach_option_specs <$> find_model name (stored disp)
       end.

(** Row 0 of a string-like column. *)
Definition string_value (c : Column) : option string :=
  match c with
  | Utf8Col v => mjoin (head v)
  | CastCol (Some v) => mjoin (head v)
  | _ => None
  end.

Section options.
Context (read_batch : bytes → option Batch).

Definition attach_option_names (specs : list bytes) : list string :=
  omap (λ raw, b ← read_batch raw;
    match column_by_name b "name" with
    | Some (Utf8Col v) => if (0 <? num_rows b)%nat then mjoin (head v) else None
    | _ => None
    end) specs.

(** [name.value(0)] of a null slot is the empty string. *)
Definition flagged_attach_option_names (specs : list bytes) (flag : string) : list string :=
  omap (λ raw, b ← read_batch raw;
    if (num_rows b =? 0)%nat then None
    else match column_by_name b flag with
         | Some (BoolCol v) =>
             if bool_decide (mjoin (head v) = Some true) then
               match column_by_name b "name" with
               | Some (Utf8Col n) => Some (default "" (mjoin (head n)))
               | _ => None
               end
             else None
         | _ => None
         end) specs.

Definition required_attach_option_names (specs : list bytes) : list string :=
  flagged_attach_option_names specs "required".

Definition declared_options (specs : list bytes) : list (string * bool) :=
  let required := required_attach_option_names specs in
  (λ n, (n, bool_decide (n ∈ required))) <$> attach_option_names specs.

Context (to_lowercase : string → string).

(** [Err] carries the missing names. *)
Definition validate_required_attach_options (required_names : list string)
    (options_ipc : option bytes) : result () (list string) :=
  let missing supplied :=
    filter (λ n, to_lowercase n ∉ (supplied : list string)) required_names in
  let verdict supplied := match missing supplied with [] => Ok () | m => Err m end in
  match required_names with
  | [] => Ok ()
  | _ =>
      match options_ipc with
      | Some (x :: l) =>
          match read_batch (x :: l) with
          | Some b => verdict (to_lowercase <$> field_names b)
          | None => Ok ()
          end
      | _ => verdict []
      end
  end.
End options.

(** * Redemption *)

Record AuthContext := mkAuth { authenticated : bool; principal : string }.

Record CatalogAttachRequest := mkAttach {
  ar_name : string;
  ar_options : option bytes;
  ar_data_version_spec : option string;
  ar_implementation_version : option string;
  client_capabilities : option bytes;
}.

Definition caller_principal (auth : AuthContext) : option string :=
  if authenticated auth && negb (String.length (principal auth) =? 0)%nat
  then Some (principal auth) else None.

(** [Some(b)] with [b] non-empty. *)
Definition nonempty_bytes (o : option bytes) : option bytes :=
  match o with Some [] | None => None | Some b => Some b end.

Definition some_text (s : string) : option string :=
  if (String.length s =? 0)%nat then None else Some s.

Definition is_ticket_option (n : string) : bool := eq_ignore_ascii_case n ATTACH_TICKET_OPTION.

Section attach.
Context `{Aead} (b64url : bytes → string) (b64_decode : string → option bytes).
Context (read_batch : bytes → option Batch).
(** [format!("{:?}", name)] and [DateTime::from_timestamp(s, 0)]. *)
Context (debug_str : string → string) (from_timestamp : Z → option Z).

Definition restored_request (c : AttachTicketClaims) (caps : option bytes) : CatalogAttachRequest :=
  mkAttach (catalog_name c) (nonempty_bytes (Some (options_ipc c)))
    (some_text (data_version_spec c)) (some_text (implementation_version c)) caps.

Definition redeem_attach_ticket (request : CatalogAttachRequest) (signing_key : option bytes)
    (auth : AuthContext) (now : f64) : result (option CatalogAttachRequest) ticket_error :=
  match nonempty_bytes (ar_options request) with
  | None => Ok None
  | Some options =>
  match read_batch options with
  | None => Ok None
  | Some batch =>
  match list_find (λ n, is_ticket_option n = true) (field_names batch) with
  | None => Ok None
  | Some (ticket_index, _) =>
      let others := omap id (imap (λ i n,
        if (i =? ticket_index)%nat then None
        else Some ("options." +:+ n, "not allowed alongside " +:+ ATTACH_TICKET_OPTION))
        (field_names batch)) in
      match others with
      | _ :: _ =>
          Err (InvalidRequest (ATTACH_TICKET_OPTION +:+ " must be the only attach option") others)
      | [] =>
          match (if (num_rows batch =? 1)%nat
                 then fields batch !! ticket_index ≫= (λ f, string_value f.2) else None) with
          | None => Err (TicketInvalid (ATTACH_TICKET_OPTION +:+ " must be a string"))
          | Some token =>
              match signing_key with
              | None => Err (TicketInvalid "this worker does not redeem attach tickets")
              | Some key =>
                  let? claims := open_attach_ticket b64url b64_decode key token
                                   (caller_principal auth) now in
                  if match nonempty_bytes (Some (options_ipc claims)) with
                     | Some o => bool_decide (read_batch o = None)
                     | None => false
                     end
                  then Err (TicketInvalid "attach ticket options are not an Arrow IPC record")
                  else Ok (Some (restored_request claims (client_capabilities request)))
              end
          end
      end
  end end end.

(** * Sealing *)

Record SealAttachRequest := mkSeal {
  sr_catalog_name : string;
  sr_options : option bytes;
  sr_data_version_spec : string;
  sr_implementation_version : string;
  ttl_seconds : Z;
}.

Record AttachTicket := mkTicket { ticket : string; ticket_expires_at : option Z }.

Definition ticket_expiry (expires_at_seconds : Z) : option Z :=
  if expires_at_seconds =? 0 then None else from_timestamp expires_at_seconds.

(** The option names a request carries: those of a one-row record. *)
Definition option_names (batch : option Batch) : list string :=
  match batch with
  | Some b => if (num_rows b =? 1)%nat then field_names b else []
  | None => []
  end.

Definition undeclared_violation (declared : list (string * bool)) (name : string)
    : option (string * string) :=
  if is_ticket_option name then
    Some ("options." +:+ name, "a ticket cannot seal another ticket")
  else if negb (existsb (λ d, eq_ignore_ascii_case d.1 name) declared) then
    Some ("options." +:+ name, "not an attach option this catalog declares")
  else None.

Definition required_violation (names : list string) (d : string * bool) : option (string * string) :=
  if d.2 && negb (existsb (λ n, eq_ignore_ascii_case n d.1) names)
  then Some ("options." +:+ d.1, "required") else None.

Definition ticket_lifetime (ttl : Z) (max_ttl_seconds : option Z) : option Z :=
  if ttl =? 0 then max_ttl_seconds
  else match max_ttl_seconds with None => Some ttl | Some ceiling => Some (Z.min ttl ceiling) end.

Definition sealed_options (request : SealAttachRequest) (names : list string) : bytes :=
  match sr_options request, names with Some b, _ :: _ => b | _, _ => [] end.

Definition seal_violations (disp : Dispatcher) (request : SealAttachRequest) (batch : option Batch)
    : list (string * string) :=
  let names := option_names batch in
  let options := sealed_options request names in
  (if ttl_seconds request <? 0
   then [("ttl_seconds", "must be 0 (as long as allowed) or positive")] else []) ++
  (if match batch with Some b => (1 <? num_rows b)%nat | None => false end
   then [("options", "must be a one-row record")] else []) ++
  match attach_option_specs_of disp (sr_catalog_name request) with
  | None => [("catalog_name", "no catalog named " +:+ debug_str (sr_catalog_name request))]
  | Some specs =>
      let declared := declared_options read_batch specs in
      omap (undeclared_violation declared) names ++ omap (required_violation names) declared
  end ++
  (if MAX_OPTIONS_BYTES <? Z.of_nat (length options)
   then [("options", Z_to_string (Z.of_nat (length options)) +:+ " bytes; a ticket carries at most "
          +:+ Z_to_string MAX_OPTIONS_BYTES)] else []).

(** The claims a request seals; [now + l] wraps. *)
Definition sealed_claims (max_ttl_seconds : option Z) (request : SealAttachRequest)
    (batch : option Batch) (now : Z) (id : string) : AttachTicketClaims :=
  mkClaims now
    (match ticket_lifetime (ttl_seconds request) max_ttl_seconds with
     | None => 0 | Some l => wrap_i64 (now + l) end)
    id (sr_catalog_name request) (sr_data_version_spec request)
    (sr_implementation_version request) (sealed_options request (option_names batch)).

Definition bad_seal : string := "seal_attach request is invalid".

(** [id] is the fresh ticket id, [nonce] the fresh nonce. *)
Definition seal_attach (disp : Dispatcher) (signing_key : bytes) (max_ttl_seconds : option Z)
    (request : SealAttachRequest) (auth : AuthContext) (now : Z) (id : string) (nonce : bytes)
    : result AttachTicket ticket_error :=
  match caller_principal auth with
  | None => Err (ActionDenied "an anonymous caller cannot seal an attach ticket")
  | Some p =>
      let? batch := match nonempty_bytes (sr_options request) with
                    | None => Ok None
                    | Some b => match read_batch b with
                                | Some r => Ok (Some r)
                                | None => Err (InvalidRequest bad_seal
                                                 [("options", "not an Arrow IPC record")])
                                end
                    end in
      match seal_violations disp request batch with
      | _ :: _ as violations => Err (InvalidRequest bad_seal violations)
      | [] =>
          let claims := sealed_claims max_ttl_seconds request batch now id in
          match mint_with_nonce b64url signing_key p claims nonce with
          | Err e => Err (InvalidRequest bad_seal [("request", err_message e)])
          | Ok t => Ok (mkTicket t (ticket_expiry (expires_at claims)))
          end
      end
  end.
End attach.

(** * Sealing then redeeming *)

Lemma utf8_ascii l : forallb (byte_in 0 0x7F) l = true → utf8_valid l = true.
Proof. induction l as [|b l IH]; [done|]. cbn. intros [E ?]%andb_prop. by rewrite E, IH. Qed.

Lemma ticket_id_text s : is_ticket_id s = true → text_ok s.
Proof.
  intros [El%Nat.eqb_eq Eh]%andb_prop. split; [|rewrite El; by vm_compute].
  apply utf8_ascii. revert Eh. induction (as_bytes s) as [|b l IH]; [done|]. cbn.
  intros [E ?]%andb_prop. rewrite IH by done. revert E. unfold is_lower_hex, byte_in. lia.
Qed.

Lemma omap_nil_None {A B} (f : A → option B) l : omap f l = [] → ∀ x, x ∈ l → f x = None.
Proof.
  induction l as [|a l IH]; cbn; intros E x Hx; [by apply elem_of_nil in Hx|].
  destruct (f a) eqn:Ea; [done|]. apply elem_of_cons in Hx as [->|]; auto.
Qed.

Lemma wrap_i64_range z : i64_range (wrap_i64 z).
Proof.
  unfold wrap_i64, i64_range, to_signed. pose proof (Z.mod_pos_bound z (2 ^ 64)).
  change (2 ^ (64 - 1)) with (2 ^ 63). destruct (_ <? _) eqn:E; lia.
Qed.

(** Every readable spec with a row has a name. *)
Definition named_specs (read_batch : bytes → option Batch) (specs : list bytes) : Prop :=
  ∀ raw b v, raw ∈ specs → read_batch raw = Some b → num_rows b ≠ 0%nat →
    column_by_name b "name" = Some (Utf8Col v) → mjoin (head v) ≠ None.

Section attach_facts.
Context `{AeadLaws} b64url b64_decode `{!Base64Laws b64url b64_decode}.
Context (read_batch : bytes → option Batch) (debug_str : string → string)
  (from_timestamp : Z → option Z) (to_lowercase : string → string).
(** Unicode lower-casing agrees on names ASCII case folding identifies. *)
Context (lower_ascii : ∀ a b, eq_ignore_ascii_case a b = true → to_lowercase a = to_lowercase b).

Lemma required_declared specs n :
  named_specs read_batch specs → n ∈ required_attach_option_names read_batch specs →
  (n, true) ∈ declared_options read_batch specs.
Proof.
  intros Hn Hreq. unfold declared_options. apply list_elem_of_fmap. exists n.
  rewrite bool_decide_true by done. split; [done|].
  unfold required_attach_option_names, flagged_attach_option_names in Hreq.
  apply list_elem_of_omap in Hreq as (raw & Hraw & E).
  apply list_elem_of_omap. exists raw. split; [done|].
  destruct (read_batch raw) as [b|] eqn:Eb; [|done]. cbn in *.
  destruct (Nat.eqb_spec (num_rows b) 0) as [|Hz]; [done|].
  destruct (column_by_name b "required") as [[]|]; try done. case_bool_decide; [|done].
  destruct (column_by_name b "name") as [[w| | |]|] eqn:Ec; try done.
  pose proof (Hn _ _ _ Hraw Eb Hz Ec) as Hw. destruct (num_rows b); [lia|].
  destruct (mjoin (head w)); [by injection E as <-|done].
Qed.

(** What a successful [seal_attach] says. *)
Lemma seal_ok_inv disp key max sreq auth now id nonce t :
  seal_attach b64url read_batch debug_str from_timestamp disp key max sreq auth now id nonce = Ok t →
  let batch := nonempty_bytes (sr_options sreq) ≫= read_batch in
  ∃ p, caller_principal auth = Some p ∧
    (∀ b, nonempty_bytes (sr_options sreq) = Some b → read_batch b ≠ None) ∧
    seal_violations read_batch debug_str disp sreq batch = [] ∧
    mint_with_nonce b64url key p (sealed_claims max sreq batch now id) nonce = Ok (ticket t) ∧
    ticket_expires_at t = ticket_expiry from_timestamp
      (expires_at (sealed_claims max sreq batch now id)).
Proof.
  intros E batch. unfold seal_attach in E. destruct (caller_principal auth) as [p|]; [|done].
  exists p. split; [done|]. subst batch.
  destruct (nonempty_bytes (sr_options sreq)) as [b|]; cbn.
  - destruct (read_batch b) as [r|] eqn:Er; [|done].
    destruct (seal_violations _ _ _ _ _); [|done].
    destruct (mint_with_nonce _ _ _ _ _); [|done]. injection E as <-.
    split; [|done]. intros b' [= ->]. by rewrite Er.
  - destruct (seal_violations _ _ _ _ _); [|done].
    destruct (mint_with_nonce _ _ _ _ _); [|done]. by injection E as <-.
Qed.

Lemma seal_violations_nil disp sreq batch :
  seal_violations read_batch debug_str disp sreq batch = [] →
  0 ≤ ttl_seconds sreq ∧
  Z.of_nat (length (sealed_options sreq (option_names batch))) ≤ MAX_OPTIONS_BYTES ∧
  ∃ specs, attach_option_specs_of disp (sr_catalog_name sreq) = Some specs ∧
    ∀ n, (n, true) ∈ declared_options read_batch specs →
      ∃ m, m ∈ option_names batch ∧ eq_ignore_ascii_case m n = true.
Proof.
  unfold seal_violations. intros (E1 & (_ & (E3 & E4)%app_nil)%app_nil)%app_nil.
  destruct (Z.ltb_spec (ttl_seconds sreq) 0); [done|].
  destruct (Z.ltb_spec MAX_OPTIONS_BYTES
    (Z.of_nat (length (sealed_options sreq (option_names batch))))); [done|].
  split; [done|]. split; [done|].
  destruct (attach_option_specs_of _ _) as [specs|]; [|done]. exists specs. split; [done|].
  apply app_nil in E3 as [_ E3]. intros n Hn.
  pose proof (omap_nil_None _ _ E3 _ Hn) as E. unfold required_violation in E. cbn in E.
  destruct (existsb _ (option_names batch)) eqn:Ex; [|done].
  apply existsb_exists in Ex as (m & Hm & Em). exists m. split; [by apply list_elem_of_In|done].
Qed.

Lemma sealed_claims_ok max sreq batch now id :
  i64_range now → is_ticket_id id = true → sr_catalog_name sreq ≠ "" →
  text_ok (sr_catalog_name sreq) → text_ok (sr_data_version_spec sreq) →
  text_ok (sr_implementation_version sreq) →
  Z.of_nat (length (sealed_options sreq (option_names batch))) ≤ MAX_OPTIONS_BYTES →
  (let c := sealed_claims max sreq batch now id in
   expires_at c = 0 ∨ issued_at c < expires_at c) →
  claims_ok (sealed_claims max sreq batch now id).
Proof.
  intros Hnow Hid Hne Hc Hd Hi Ho Hl. split; try done; [|by apply ticket_id_text].
  cbn. destruct (ticket_lifetime _ _); [apply wrap_i64_range|by vm_compute].
Qed.

Lemma validate_required_ok names options :
  (∀ n, n ∈ names → ∃ o b, options = Some o ∧ o ≠ [] ∧ read_batch o = Some b ∧
     ∃ m, m ∈ field_names b ∧ eq_ignore_ascii_case m n = true) →
  validate_required_attach_options read_batch to_lowercase names options = Ok ().
Proof.
  intros Hall. unfold validate_required_attach_options.
  destruct names as [|n0 names0]; [done|].
  destruct (Hall n0 (list_elem_of_here _ _)) as (o & b & -> & Ho & Eb & _).
  destruct o as [|x l]; [done|]. rewrite Eb.
  rewrite list_filter_none; [done|].
  apply Forall_forall. intros n Hn Hni. apply Hni. destruct (Hall n Hn) as (o' & b' & [= <-] & _ & Eb' & m & Hm & Em).
  rewrite Eb in Eb'. injection Eb' as <-. apply list_elem_of_fmap. exists m.
  split; [symmetry; by apply lower_ascii|done].
Qed.

(** A request whose only option is a ticket is handed to [open_attach_ticket]. *)
Lemma redeem_single request o col token key auth now :
  ar_options request = Some o → o ≠ [] →
  read_batch o = Some (mkBatch 1 [(col, Utf8Col [Some token])]) → is_ticket_option col = true →
  redeem_attach_ticket b64url b64_decode read_batch request (Some key) auth now =
  let? claims := open_attach_ticket b64url b64_decode key token (caller_principal auth) now in
  if match nonempty_bytes (Some (options_ipc claims)) with
     | Some o => bool_decide (read_batch o = None) | None => false end
  then Err (TicketInvalid "attach ticket options are not an Arrow IPC record")
  else Ok (Some (restored_request claims (client_capabilities request))).
Proof.
  intros Ho Hne Hr Hcol. unfold redeem_attach_ticket. rewrite Ho.
  assert (nonempty_bytes (Some o) = Some o) as -> by (by destruct o).
  rewrite Hr. cbn [field_names fields fmap list_fmap fst list_find].
  by rewrite decide_True by done.
Qed.

Lemma sealed_options_readable sreq o b :
  sealed_options sreq (option_names (nonempty_bytes (sr_options sreq) ≫= read_batch)) = o →
  nonempty_bytes (sr_options sreq) ≫= read_batch = Some b → option_names (Some b) ≠ [] →
  o ≠ [] ∧ read_batch o = Some b.
Proof.
  intros Eo Eb Hn. rewrite Eb in Eo. unfold sealed_options in Eo.
  destruct (sr_options sreq) as [[|x l]|]; [done| |done].
  destruct (option_names (Some b)) as [|??]; [done|]. by subst o.
Qed.

(** C26: A ticket that [seal_attach] returned, presented as the only attach option
    by a caller with the same principal inside the ticket's lifetime, restores the attach that was
    sealed: the catalog, the version specs and the options of a one-row record byte for byte (no
    options for an empty one), with the presenting request's capabilities and nothing else of it;
    and the restored options pass the required-option check of the catalog they name. *)
Theorem seal_then_redeem disp key max sreq auth now id nonce t request o col auth' now' specs :
  let batch := nonempty_bytes (sr_options sreq) ≫= read_batch in
  let options := nonempty_bytes (Some (sealed_options sreq (option_names batch))) in
  seal_attach b64url read_batch debug_str from_timestamp disp key max sreq auth now id nonce = Ok t →
  i64_range now → is_ticket_id id = true →
  text_ok (sr_catalog_name sreq) → text_ok (sr_data_version_spec sreq) →
  text_ok (sr_implementation_version sreq) →
  ar_options request = Some o → o ≠ [] →
  read_batch o = Some (mkBatch 1 [(col, Utf8Col [Some (ticket t)])]) → is_ticket_option col = true →
  caller_principal auth' = caller_principal auth →
  lifetime (sealed_claims max sreq batch now id) now' = Ok () →
  attach_option_specs_of disp (sr_catalog_name sreq) = Some specs → named_specs read_batch specs →
  redeem_attach_ticket b64url b64_decode read_batch request (Some key) auth' now' =
    Ok (Some (mkAttach (sr_catalog_name sreq) options (some_text (sr_data_version_spec sreq))
      (some_text (sr_implementation_version sreq)) (client_capabilities request))) ∧
  validate_required_attach_options read_batch to_lowercase
    (required_attach_option_names read_batch specs) options = Ok ().
Proof.
  intros batch options Hseal Hnow Hid Hc Hd Hi Ho Hne Hr Hcol Hp Hlife Hs Hn.
  apply seal_ok_inv in Hseal as (p & Hauth & _ & Hviol & Hmint & _). fold batch in Hviol, Hmint.
  apply seal_violations_nil in Hviol as (_ & Hlen & specs' & Hs' & Hreq).
  rewrite Hs in Hs'. injection Hs' as <-.
  pose proof (proj1 (mint_ok_inv _ _ _ _ _ _) Hmint) as (_ & Hcat & _ & Hlf & _).
  assert (claims_ok (sealed_claims max sreq batch now id)) as Hok by by apply sealed_claims_ok.
  assert (∀ b, batch = Some b → option_names batch ≠ [] →
    options = Some (sealed_options sreq (option_names batch)) ∧
    sealed_options sreq (option_names batch) ≠ [] ∧
    read_batch (sealed_options sreq (option_names batch)) = Some b) as Hread.
  { intros b Eb Hnn. destruct (sealed_options_readable sreq _ b eq_refl Eb) as [Ho1 Ho2].
    { by rewrite <- Eb. }
    split; [|done]. unfold options. fold batch in Ho1. by destruct (sealed_options _ _). }
  assert (nonempty_bytes (Some (sealed_options sreq (option_names batch))) = options) as Hopt by done.
  clearbody options batch. split.
  - rewrite (redeem_single _ _ _ _ _ _ _ Ho Hne Hr Hcol), Hp, Hauth.
    rewrite (open_minted _ _ _ _ _ _ _ _ Hok Hmint), Hlife.
    unfold restored_request.
    cbn [options_ipc catalog_name data_version_spec implementation_version sealed_claims].
    rewrite Hopt.
    destruct (option_names batch) as [|n ns] eqn:En.
    { unfold sealed_options in Hopt. assert (options = None) as -> by (by destruct (sr_options sreq)).
      done. }
    destruct batch as [b|] eqn:Eb; [|done].
    destruct (Hread b eq_refl) as (E1 & _ & E2); [done|]. rewrite E1, E2.
    by rewrite bool_decide_false by done.
  - apply validate_required_ok. intros n Hin.
    destruct (Hreq n (required_declared _ _ Hn Hin)) as (m & Hm & Em).
    destruct batch as [b|] eqn:Eb; [|by apply elem_of_nil in Hm].
    assert (option_names (Some b) ≠ []) as Hnn.
    { intros E. rewrite E in Hm. by apply elem_of_nil in Hm. }
    destruct (Hread b eq_refl Hnn) as (E1 & E2 & E3).
    eexists _, b. split; [done|]. split; [done|]. split; [done|]. exists m. split; [|done].
    revert Hm. cbn. destruct (num_rows b =? 1)%nat; [done|]. intros Hm. by apply elem_of_nil in Hm.
Qed.

(** Every expiry within a minute of [i64::MAX] is already past on a positive clock. *)
Lemma lifetime_max_expired c m e :
  expires_at c = 2 ^ 63 - 1 → ∃ d, lifetime c (S754_finite false m e) = Err (TicketExpired d).
Proof.
  intros He. unfold lifetime. rewrite He. destruct (f64_lt _ _); [by eexists|].
  assert (f64_of_Z (wrap_i64 (2 ^ 63 - 1 + CLOCK_SKEW_SECONDS)) = S754_finite true 4503599627370496 11)
    as -> by (by vm_compute).
  by eexists.
Qed.

(** On a worker without a lifetime ceiling, asking [seal_attach] for the
    longest lifetime that fits yields a ticket that is refused as expired at every (positive) clock:
    [expires_at + 60] wraps around in [open_attach_ticket] (in a debug build it panics instead). *)
Theorem longest_ttl_born_expired disp key sreq auth now id nonce t m e :
  0 ≤ now < 2 ^ 63 - 1 → ttl_seconds sreq = 2 ^ 63 - 1 - now → is_ticket_id id = true →
  text_ok (sr_catalog_name sreq) → text_ok (sr_data_version_spec sreq) →
  text_ok (sr_implementation_version sreq) →
  seal_attach b64url read_batch debug_str from_timestamp disp key None sreq auth now id nonce = Ok t →
  ∃ d, open_attach_ticket b64url b64_decode key (ticket t) (caller_principal auth)
         (S754_finite false m e) = Err (TicketExpired d).
Proof.
  intros Hnow Httl Hid Hc Hd Hi (p & -> & _ & Hviol & Hmint & _)%seal_ok_inv.
  apply seal_violations_nil in Hviol as (_ & Hlen & _).
  pose proof (proj1 (mint_ok_inv _ _ _ _ _ _) Hmint) as (_ & Hcat & _ & Hlf & _).
  set (c := sealed_claims _ _ _ _ _) in *.
  assert (claims_ok c) as Hok.
  { apply sealed_claims_ok; try done. unfold i64_range. lia. }
  assert (expires_at c = 2 ^ 63 - 1) as He.
  { unfold c. cbn [expires_at sealed_claims]. rewrite Httl. unfold ticket_lifetime.
    destruct (Z.eqb_spec (2 ^ 63 - 1 - now) 0); [lia|].
    replace (now + (2 ^ 63 - 1 - now)) with (2 ^ 63 - 1) by lia.
    apply wrap_i64_id. by vm_compute. }
  destruct (lifetime_max_expired c m e He) as [d Hdd]. exists d.
  by rewrite (open_minted _ _ _ _ _ _ _ _ Hok Hmint), Hdd.
Qed.
End attach_facts.

(** * Concrete batches, and the theorems on them *)

Definition ex_read_batch (raw : bytes) : option Batch :=
  match raw with
  | [x01] => Some (mkBatch 1 [("name", Utf8Col [Some "region"]); ("required", BoolCol [Some true])])
  | [x02] => Some (mkBatch 1 [("REGION", Utf8Col [Some "eu"])])
  | x03 :: token => Some (mkBatch 1 [("VGI_attach_ticket", Utf8Col [Some (string_of_bytes token)])])
  | _ => None
  end.
Definition ex_lower (s : string) : string := string_of_bytes (ascii_lower <$> as_bytes s).
Definition ex_disp : Dispatcher := mkDispatcher "" (mkModel "sales" [[x01]]) [] [].
Definition ex_auth : AuthContext := mkAuth true "alice".
Definition ex_seal_request (ttl : Z) : SealAttachRequest := mkSeal "sales" (Some [x02]) "" "v1" ttl.
Definition ex_id : string := "0123456789abcdef0123456789abcdef".
Definition ex_seal (ttl : Z) : result AttachTicket ticket_error :=
  seal_attach ex_b64url ex_read_batch id Some ex_disp [x09] None (ex_seal_request ttl) ex_auth 1000
    ex_id [].
Definition ex_sealed (ttl : Z) : AttachTicket :=
  match ex_seal ttl with Ok t => t | Err _ => mkTicket "" None end.

Lemma ex_lower_ascii a b : eq_ignore_ascii_case a b = true → ex_lower a = ex_lower b.
Proof. unfold eq_ignore_ascii_case, ex_lower. intros E%bool_decide_eq_true. by rewrite E. Qed.

Lemma ex_named : named_specs ex_read_batch [[x01]].
Proof.
  intros raw b v ->%list_elem_of_singleton [= <-] _ E. cbv in E. by injection E as <-.
Qed.

Lemma ex_seal_600 : ex_seal 600 = Ok (ex_sealed 600).
Proof. by vm_compute. Qed.

Lemma ex_seal_max : ex_seal (2 ^ 63 - 1001) = Ok (ex_sealed (2 ^ 63 - 1001)).
Proof. by vm_compute. Qed.

Definition ex_redeem_options : bytes := x03 :: as_bytes (ticket (ex_sealed 600)).

Lemma ex_read_redeem : ex_read_batch ex_redeem_options =
  Some (mkBatch 1 [("VGI_attach_ticket", Utf8Col [Some (ticket (ex_sealed 600))])]).
Proof. unfold ex_redeem_options, ex_read_batch. by rewrite string_of_as_bytes. Qed.

Lemma seal_then_redeem_witness :
  redeem_attach_ticket ex_b64url ex_b64_decode ex_read_batch
    (mkAttach "other" (Some ex_redeem_options) None None (Some [x05])) (Some [x09]) ex_auth
    (f64_of_Z 1500) =
    Ok (Some (mkAttach "sales" (Some [x02]) None (Some "v1") (Some [x05]))) ∧
  validate_required_attach_options ex_read_batch ex_lower
    (required_attach_option_names ex_read_batch [[x01]]) (Some [x02]) = Ok ().
Proof.
  refine (seal_then_redeem ex_b64url ex_b64_decode ex_read_batch id Some ex_lower ex_lower_ascii
    ex_disp [x09] None (ex_seal_request 600) ex_auth 1000 ex_id [] (ex_sealed 600)
    (mkAttach "other" (Some ex_redeem_options) None None (Some [x05]))
    ex_redeem_options "VGI_attach_ticket" ex_auth (f64_of_Z 1500) [[x01]]
    ex_seal_600 _ _ _ _ _ eq_refl _ ex_read_redeem _ eq_refl _ eq_refl ex_named);
    try (by vm_compute); split; by vm_compute.
Defined.

Lemma longest_ttl_born_expired_witness :
  ∃ d, open_attach_ticket ex_b64url ex_b64_decode [x09] (ticket (ex_sealed (2 ^ 63 - 1001)))
         (caller_principal ex_auth) (S754_finite false 6755399441055744 (-42)) = Err (TicketExpired d).
Proof.
  refine (longest_ttl_born_expired ex_b64url ex_b64_decode ex_read_batch id Some ex_disp [x09]
    (ex_seal_request (2 ^ 63 - 1001)) ex_auth 1000 ex_id [] (ex_sealed (2 ^ 63 - 1001))
    6755399441055744 (-42) _ _ _ _ _ _ ex_seal_max); [lia|by vm_compute|by vm_compute|..];
    split; by vm_compute.
Defined.
