(* ===== verification/Arrow.v ===== *)
(** What the filter code uses of Arrow: data types, arrays as sequences of
    optional values, schemas and record batches as data, and the compute kernels
    of the [arrow_*] crates as the operations of a class [Arrow], with the
    documented behaviour the filter code relies on as the laws of [ArrowLaws].
    [logical_value_type], [numeric_type] and [ordered] are the predicates on
    types of [vgi/src/pushdown.rs] and [vgi/src/pushdown/pruning.rs]. *)
From S2P Require Import Prelude Float64.

Open Scope Z_scope.

(** * Data types *)

Inductive TimeUnit := Second | Millisecond | Microsecond | Nanosecond.
#[global] Instance TimeUnit_eq_dec : EqDecision TimeUnit.
Proof. solve_decision. Defined.

(** The types without a child field. *)
Inductive FlatType :=
| FNull | FBoolean
| FInt8 | FInt16 | FInt32 | FInt64 | FUInt8 | FUInt16 | FUInt32 | FUInt64
| FFloat16 | FFloat32 | FFloat64
| FTimestamp (unit : TimeUnit) (tz : option string)
| FDate32 | FDate64 | FTime32 (unit : TimeUnit) | FTime64 (unit : TimeUnit)
| FDuration (unit : TimeUnit) | FInterval (unit : Z)
| FBinary | FFixedSizeBinary (size : Z) | FLargeBinary | FBinaryView
| FUtf8 | FLargeUtf8 | FUtf8View
| FDecimal32 (precision scale : Z) | FDecimal64 (precision scale : Z)
| FDecimal128 (precision scale : Z) | FDecimal256 (precision scale : Z).
#[global] Instance FlatType_eq_dec : EqDecision FlatType.
Proof. solve_decision. Defined.

(** [arrow_schema::DataType]; a field is its name, type, nullability and
    metadata. *)
Inductive DataType :=
| Flat (t : FlatType)
| List (f : Field) | ListView (f : Field) | FixedSizeList (f : Field) (size : Z)
| LargeList (f : Field) | LargeListView (f : Field)
| Struct (fs : list Field)
| Union (fs : list (Z * Field)) (mode : Z)
| Dictionary (key value : DataType)
| Map (f : Field) (sorted : bool)
| RunEndEncoded (ends values : Field)
with Field :=
| mkField (name : string) (data_type : DataType) (is_nullable : bool)
    (metadata : list (string * string)).

Definition name (f : Field) : string := let '(mkField n _ _ _) := f in n.
Definition data_type (f : Field) : DataType := let '(mkField _ t _ _) := f in t.
Definition is_nullable (f : Field) : bool := let '(mkField _ _ b _) := f in b.

Abbreviation Null := (Flat FNull).
Abbreviation Boolean := (Flat FBoolean).
Abbreviation Int64 := (Flat FInt64).
Abbreviation UInt64 := (Flat FUInt64).
Abbreviation Float32 := (Flat FFloat32).
Abbreviation Float64 := (Flat FFloat64).
Abbreviation Utf8 := (Flat FUtf8).

Fixpoint DataType_eq_dec_ (x y : DataType) {struct x} : {x = y} + {x ≠ y}
with Field_eq_dec_ (x y : Field) {struct x} : {x = y} + {x ≠ y}.
Proof.
  - pose proof (DataType_eq_dec_ : EqDecision DataType). pose proof (Field_eq_dec_ : EqDecision Field).
    destruct x, y; try (right; discriminate).
    + destruct (decide (t = t0)); [left|right]; congruence.
    + destruct (Field_eq_dec_ f f0); [left|right]; congruence.
    + destruct (Field_eq_dec_ f f0); [left|right]; congruence.
    + destruct (Field_eq_dec_ f f0), (decide (size = size0)); [left|right..]; congruence.
    + destruct (Field_eq_dec_ f f0); [left|right]; congruence.
    + destruct (Field_eq_dec_ f f0); [left|right]; congruence.
    + destruct (list_eq_dec fs fs0); [left|right]; congruence.
    + assert (∀ l l' : list (Z * Field), {l = l'} + {l ≠ l'}) as Hl.
      { fix go 1. intros [|[z f] l] [|[z' f'] l']; [by left|by right|by right|].
        destruct (decide (z = z')); [|right; congruence].
        destruct (Field_eq_dec_ f f'); [|right; congruence].
        destruct (go l l'); [left|right]; congruence. }
      destruct (Hl fs fs0), (decide (mode = mode0)); [left|right..]; congruence.
    + destruct (DataType_eq_dec_ x1 y1), (DataType_eq_dec_ x2 y2); [left|right..]; congruence.
    + destruct (Field_eq_dec_ f f0), (decide (sorted = sorted0)); [left|right..]; congruence.
    + destruct (Field_eq_dec_ ends ends0), (Field_eq_dec_ values values0); [left|right..]; congruence.
  - destruct x as [n t nu me], y as [n' t' nu' me'].
    destruct (decide (n = n')), (DataType_eq_dec_ t t'), (decide (nu = nu')), (decide (me = me'));
      [left|right..]; congruence.
Defined.
#[global] Instance DataType_eq_dec : EqDecision DataType := DataType_eq_dec_.
#[global] Instance Field_eq_dec : EqDecision Field := Field_eq_dec_.

(** * Predicates on types *)

Fixpoint logical_value_type (t : DataType) : DataType :=
  match t with
  | Dictionary _ v => logical_value_type v
  | v => v
  end.

Definition numeric_type (t : DataType) : bool :=
  match t with
  | Flat (FInt8 | FInt16 | FInt32 | FInt64 | FUInt8 | FUInt16 | FUInt32 | FUInt64 | FFloat16
          | FFloat32 | FFloat64 | FDecimal128 _ _ | FDecimal256 _ _) => true
  | _ => false
  end.

Definition ordered (t : DataType) : bool :=
  match logical_value_type t with
  | Flat (FBoolean | FInt8 | FInt16 | FInt32 | FInt64 | FUInt8 | FUInt16 | FUInt32 | FUInt64
          | FFloat32 | FFloat64 | FDecimal32 _ _ | FDecimal64 _ _ | FDecimal128 _ _
          | FDecimal256 _ _ | FUtf8 | FLargeUtf8 | FUtf8View | FBinary | FLargeBinary
          | FBinaryView | FFixedSizeBinary _ | FDate32 | FDate64 | FTime32 _ | FTime64 _
          | FTimestamp _ _ | FDuration _) => true
  | _ => false
  end.

Definition contextual_type (t : DataType) : bool :=
  match t with
  | Flat (FUtf8 | FLargeUtf8 | FDate32 | FDate64 | FTime32 _ | FTime64 _ | FTimestamp _ _) => true
  | _ => false
  end.

(** [DataType::is_nested]: the types with child arrays. *)
Fixpoint is_nested (t : DataType) : bool :=
  match t with
  | Flat _ => false
  | Dictionary _ v => is_nested v
  | _ => true
  end.

(** The types whose arrays hold NULLs that no top-level validity bit shows. *)
Definition encoded (t : DataType) : bool :=
  match t with
  | Null | Dictionary _ _ | Union _ _ | RunEndEncoded _ _ => true
  | _ => false
  end.

Lemma logical_not_dictionary t k v : logical_value_type t ≠ Dictionary k v.
Proof. revert k v. induction t; simpl; intros; try discriminate. auto. Qed.

Lemma logical_idemp t : logical_value_type (logical_value_type t) = logical_value_type t.
Proof. induction t; simpl; auto. Qed.

Lemma ordered_logical t : ordered (logical_value_type t) = ordered t.
Proof. unfold ordered. by rewrite logical_idemp. Qed.

Lemma ordered_flat t : ordered t = true → ∃ u, logical_value_type t = Flat u.
Proof. unfold ordered. destruct (logical_value_type t); intros; try done. eauto. Qed.

(** * Values, arrays and batches *)

(** A non-NULL value: booleans, the integer of an integer, date, time or decimal
    type, floats, the bytes of a string or binary type, lists, structs, and the
    values of the types the filter code never looks into. *)
Inductive value :=
| VBool (b : bool)
| VInt (z : Z)
| VFloat (f : f64)
| VBytes (s : string)
| VList (l : list (option value))
| VStruct (l : list (option value))
| VOther (n : Z).

(** An [ArrayRef]: its type, its logical values and its top-level validity. *)
Record array := mkArray {
  arr_type : DataType;
  vals : list (option value);
  valid : list bool;
}.

Definition len (a : array) : nat := length (vals a).
(** [Array::is_null]: the validity bit. *)
Definition is_null (a : array) (i : nat) : bool := negb (default true (valid a !! i)).
Definition null_count (a : array) : nat := length (filter (λ b, b = false) (valid a)).
Definition slice (a : array) (i n : nat) : array :=
  mkArray (arr_type a) (take n (drop i (vals a))) (take n (drop i (valid a))).

Definition is_some {A} (o : option A) : bool := if o then true else false.

(** An array of a type that shows all its NULLs. *)
Definition plain_array (t : DataType) (l : list (option value)) : array :=
  mkArray t l (is_some <$> l).

(** [BooleanArray], [StringArray] and what a downcast to them reads. *)
Abbreviation BooleanArray := (list (option bool)).
Definition of_bools (l : BooleanArray) : array := plain_array Boolean ((λ o : option bool, VBool <$> o) <$> l).
Definition as_bool (v : option value) : option bool :=
  match v with Some (VBool b) => Some b | _ => None end.
Definition as_str (v : option value) : option string :=
  match v with Some (VBytes s) => Some s | _ => None end.
Definition as_int (v : option value) : option Z :=
  match v with Some (VInt z) => Some z | _ => None end.
Definition downcast_bools (a : array) : option BooleanArray :=
  if decide (arr_type a = Boolean) then Some (as_bool <$> vals a) else None.
Definition downcast_strings (a : array) : option (list (option string)) :=
  if decide (arr_type a = Utf8) then Some (as_str <$> vals a) else None.

Abbreviation Schema := (list Field).

(** [RecordBatch]; [columns] are parallel to [fields]. *)
Record RecordBatch := mkRecordBatch {
  schema : Schema;
  schema_metadata : gmap string string;
  columns : list array;
  num_rows : nat;
}.

Definition find_field (n : string) (s : Schema) : option (nat * Field) :=
  list_find (λ f, name f = n) s.
Definition column_by_name (b : RecordBatch) (n : string) : option array :=
  '(i, _) ← find_field n (schema b); columns b !! i.

(** * Well-formed arrays *)

(** The range of the integers a flat type stores. *)
Definition int_range (t : FlatType) : option (Z * Z) :=
  match t with
  | FInt8 => Some (- 2 ^ 7, 2 ^ 7) | FInt16 => Some (- 2 ^ 15, 2 ^ 15)
  | FInt32 | FDate32 | FTime32 _ | FDecimal32 _ _ => Some (- 2 ^ 31, 2 ^ 31)
  | FInt64 | FDate64 | FTime64 _ | FTimestamp _ _ | FDuration _ | FDecimal64 _ _ =>
      Some (- 2 ^ 63, 2 ^ 63)
  | FUInt8 => Some (0, 2 ^ 8) | FUInt16 => Some (0, 2 ^ 16)
  | FUInt32 => Some (0, 2 ^ 32) | FUInt64 => Some (0, 2 ^ 64)
  | FDecimal128 _ _ => Some (- 2 ^ 127, 2 ^ 127) | FDecimal256 _ _ => Some (- 2 ^ 255, 2 ^ 255)
  | _ => None
  end.

Definition flat_has_type (t : FlatType) (v : value) : bool :=
  match t, v with
  | FBoolean, VBool _ => true
  | (FFloat16 | FFloat32 | FFloat64), VFloat _ => true
  | (FBinary | FLargeBinary | FBinaryView | FFixedSizeBinary _ | FUtf8 | FLargeUtf8 | FUtf8View),
    VBytes _ => true
  | FInterval _, VOther _ => true
  | t, VInt z => match int_range t with Some (lo, hi) => (lo <=? z) && (z <? hi) | None => false end
  | _, _ => false
  end.

Fixpoint has_type (t : DataType) (v : value) {struct v} : bool :=
  match logical_value_type t, v with
  | Flat u, _ => flat_has_type u v
  | Struct fs, VStruct l =>
      (fix go (l : list (option value)) (fs : list Field) : bool :=
         match l, fs with
         | [], [] => true
         | o :: l, f :: fs =>
             match o with None => true | Some v => has_type (data_type f) v end && go l fs
         | _, _ => false
         end) l fs
  | (List f | ListView f | FixedSizeList f _ | LargeList f | LargeListView f), VList l =>
      forallb (λ o, match o with None => true | Some v => has_type (data_type f) v end) l
  | (Union _ _ | Map _ _ | RunEndEncoded _ _), VOther _ => true
  | _, _ => false
  end.

Definition cell_type (t : DataType) (o : option value) : bool :=
  match o with None => true | Some v => has_type t v end.

(** What holds of every Arrow array: its values have its type, and a type that
    is not encoded shows its NULLs. *)
Definition wf_array (a : array) : Prop :=
  Forall (λ o, cell_type (arr_type a) o = true) (vals a) ∧
  length (valid a) = length (vals a) ∧
  (encoded (arr_type a) = false → valid a = is_some <$> vals a).

(** What [RecordBatch::try_new] checks. *)
Definition wf_batch (b : RecordBatch) : Prop :=
  Forall2 (λ f a, arr_type a = data_type f ∧ wf_array a ∧ len a = num_rows b ∧
                  (is_nullable f = false → null_count a = 0%nat))
    (schema b) (columns b).

(** * The kernels *)

Inductive CmpOp := OpEq | OpNe | OpLt | OpLe | OpGt | OpGe | OpDistinct | OpNotDistinct.
#[global] Instance CmpOp_eq_dec : EqDecision CmpOp.
Proof. solve_decision. Defined.
Inductive NumOp := OpAdd | OpSub | OpMul | OpDiv | OpRem.

(** A comparison operator applied to an order of the operands. *)
Definition holds (op : CmpOp) (c : comparison) : bool :=
  match op, c with
  | (OpEq | OpNotDistinct), Eq | (OpNe | OpDistinct), (Lt | Gt) => true
  | OpLt, Lt | OpLe, (Lt | Eq) | OpGt, Gt | OpGe, (Gt | Eq) => true
  | _, _ => false
  end.

(** SQL comparison of two cells: NULL propagates, except through the NULL-safe
    operators. *)
Definition sql_cell (ord : value → value → comparison) (op : CmpOp) (l r : option value) : option bool :=
  match op, l, r with
  | _, Some a, Some b => Some (holds op (ord a b))
  | OpDistinct, None, None => Some false
  | OpDistinct, _, _ => Some true
  | OpNotDistinct, None, None => Some true
  | OpNotDistinct, _, _ => Some false
  | _, _, _ => None
  end.

(** Element-wise application where a side of length one is repeated. *)
Definition bcast {A B C} (f : A → B → C) (l : list A) (r : list B) : list C :=
  match l, r with
  | [a], _ => f a <$> r
  | _, [b] => (λ a, f a b) <$> l
  | _, _ => zip_with f l r
  end.
Definition bcast_ok (m n : nat) : bool := (m =? n)%nat || (m =? 1)%nat || (n =? 1)%nat.
Definition bcast_len (m n : nat) : nat := if (m =? 1)%nat then n else m.

(** [&dyn Datum]: an array or a scalar. *)
Inductive Datum := ArrayDatum (a : array) | ScalarDatum (a : array).

Definition kleene_and (a b : option bool) : option bool :=
  match a, b with
  | Some false, _ | _, Some false => Some false
  | Some true, Some true => Some true
  | _, _ => None
  end.
Definition kleene_or (a b : option bool) : option bool :=
  match a, b with
  | Some true, _ | _, Some true => Some true
  | Some false, Some false => Some false
  | _, _ => None
  end.

(** The kernels the filter code calls; an [ArrowError] is its text. *)
Class Arrow := {
  scalar_cmp : FlatType → value → value → comparison;
  arrow_cmp : CmpOp → Datum → Datum → result BooleanArray string;
  make_comparator : array → array → result (nat → nat → comparison) string;
  arrow_cast : array → DataType → result array string;
  arrow_and_kleene : BooleanArray → BooleanArray → result BooleanArray string;
  arrow_or_kleene : BooleanArray → BooleanArray → result BooleanArray string;
  arrow_not : BooleanArray → result BooleanArray string;
  arrow_is_null : array → result BooleanArray string;
  arrow_is_not_null : array → result BooleanArray string;
  arrow_take : array → list nat → result array string;
  arrow_numeric : NumOp → array → array → result array string;
  arrow_neg : array → result array string;
  arrow_set_nulls : array → list bool → result array string;
  arrow_concat : list array → result array string;
  arrow_filter : RecordBatch → BooleanArray → result RecordBatch string;
}.

(** The types whose validity can be replaced: all with a validity buffer. *)
Definition maskable (t : DataType) : bool :=
  match t with Null | Union _ _ | RunEndEncoded _ _ => false | _ => true end.

Definition is_float (t : DataType) : bool :=
  match t with Float32 | Float64 => true | _ => false end.

Definition cmp_datum (a : array) : Datum :=
  if (len a =? 1)%nat then ScalarDatum a else ArrayDatum a.

(** The documented behaviour of the kernels. *)
Class ArrowLaws `{Arrow} : Prop := {
  scalar_cmp_refl u a : scalar_cmp u a a = Eq;
  scalar_cmp_sym u a b : scalar_cmp u b a = CompOpp (scalar_cmp u a b);
  scalar_cmp_trans u a b c : scalar_cmp u a b ≠ Gt → scalar_cmp u b c ≠ Gt → scalar_cmp u a c ≠ Gt;
  scalar_cmp_bool a b : scalar_cmp FBoolean (VBool a) (VBool b) = Bool.compare a b;
  scalar_cmp_int u lo hi a b : int_range u = Some (lo, hi) →
    scalar_cmp u (VInt a) (VInt b) = (a ?= b);
  arrow_cmp_spec op l r u : arr_type l = Flat u → arr_type r = Flat u → ordered (Flat u) = true →
    is_float (Flat u) = false →
    wf_array l → wf_array r → bcast_ok (len l) (len r) = true →
    arrow_cmp op (cmp_datum l) (cmp_datum r) = Ok (bcast (sql_cell (scalar_cmp u) op) (vals l) (vals r));
  arrow_cmp_len op l r b : arrow_cmp op (cmp_datum l) (cmp_datum r) = Ok b →
    bcast_ok (len l) (len r) = true ∧ length b = bcast_len (len l) (len r);
  arrow_cast_dictionary a k v : arr_type a = Dictionary k v → wf_array a →
    ∃ c, arrow_cast a (logical_value_type v) = Ok c ∧ arr_type c = logical_value_type v ∧
         vals c = vals a ∧ wf_array c;
  arrow_cast_same a : wf_array a → arrow_cast a (arr_type a) = Ok a;
  arrow_cast_shape a t c : arrow_cast a t = Ok c → wf_array a →
    arr_type c = t ∧ len c = len a ∧ wf_array c;
  arrow_and_kleene_spec a b : length a = length b → arrow_and_kleene a b = Ok (zip_with kleene_and a b);
  arrow_or_kleene_spec a b : length a = length b → arrow_or_kleene a b = Ok (zip_with kleene_or a b);
  arrow_kleene_length a b c : arrow_and_kleene a b = Ok c ∨ arrow_or_kleene a b = Ok c →
    length a = length b;
  arrow_not_spec a : arrow_not a = Ok ((λ o : option bool, negb <$> o) <$> a);
  arrow_is_null_spec a : arrow_is_null a = Ok ((λ o, Some (negb (is_some o))) <$> vals a);
  arrow_is_not_null_spec a : arrow_is_not_null a = Ok ((λ o, Some (is_some o)) <$> vals a);
  arrow_take_repeat a v n : wf_array a → vals a = [v] →
    ∃ c, arrow_take a (replicate n 0%nat) = Ok c ∧ arr_type c = arr_type a ∧
         vals c = replicate n v ∧ wf_array c;
  arrow_numeric_shape op a b c : arr_type a = Float64 → arr_type b = Float64 →
    arrow_numeric op a b = Ok c → wf_array a → wf_array b →
    arr_type c = Float64 ∧ len c = len a ∧ wf_array c;
  arrow_neg_shape a c : arr_type a = Float64 → arrow_neg a = Ok c → wf_array a →
    arr_type c = Float64 ∧ len c = len a ∧ wf_array c;
  arrow_set_nulls_shape a m c : arrow_set_nulls a m = Ok c → wf_array a → length m = len a →
    arr_type c = arr_type a ∧ len c = len a ∧ wf_array c;
  arrow_set_nulls_spec a m : maskable (arr_type a) = true → wf_array a → length m = len a →
    ∃ c, arrow_set_nulls a m = Ok c ∧
         vals c = zip_with (λ (b : bool) o, if b then o else None) m (vals a);
  arrow_concat_spec t l : l ≠ [] → Forall (λ a, arr_type a = t ∧ wf_array a) l →
    ∃ c, arrow_concat l = Ok c ∧ arr_type c = t ∧ vals c = l ≫= vals ∧ wf_array c;
  arrow_concat_err l c : arrow_concat l = Ok c →
    l ≠ [] ∧ ∃ t, Forall (λ a, arr_type a = t) l;
}.

(** * Lemmas on element-wise application *)

Lemma bcast_same {A B C} (f : A → B → C) l r :
  length l = length r → bcast f l r = zip_with f l r.
Proof. destruct l as [|a [|a' l]], r as [|b [|b' r]]; simpl; done || lia. Qed.

Lemma bcast_right {A B C} (f : A → B → C) l b : bcast f l [b] = (λ a, f a b) <$> l.
Proof. by destruct l as [|a [|a' l]]. Qed.

Lemma bcast_left {A B C} (f : A → B → C) a r : bcast f [a] r = f a <$> r.
Proof. done. Qed.

Lemma length_bcast {A B C} (f : A → B → C) l r :
  bcast_ok (length l) (length r) = true → length (bcast f l r) = bcast_len (length l) (length r).
Proof.
  unfold bcast_ok, bcast_len.
  destruct l as [|a [|a' l]], r as [|b [|b' r]]; simpl; rewrite ?length_fmap, ?length_zip_with; simpl;
    try done; intros E; try (apply Nat.eqb_eq in E); repeat case_match; try done; try lia.
  rewrite !orb_false_r in E. apply Nat.eqb_eq in E. lia.
Qed.

Lemma wf_plain t l : Forall (λ o, cell_type t o = true) l → wf_array (plain_array t l).
Proof. intros H. split_and!; [done|simpl; by rewrite length_fmap|done]. Qed.

Lemma wf_of_bools l : wf_array (of_bools l).
Proof. apply wf_plain. apply Forall_fmap, Forall_forall. by intros [b|] _. Qed.

Lemma as_bool_of_bools l : as_bool <$> vals (of_bools l) = l.
Proof.
  unfold of_bools, plain_array; simpl. rewrite <- list_fmap_compose.
  rewrite <- (list_fmap_id l) at 2. apply list_fmap_ext. by intros ? [b|].
Qed.

Lemma downcast_of_bools l : downcast_bools (of_bools l) = Some l.
Proof. unfold downcast_bools. rewrite decide_True by done. by rewrite as_bool_of_bools. Qed.

Lemma len_of_bools l : len (of_bools l) = length l.
Proof. unfold len, of_bools; simpl. by rewrite length_fmap. Qed.

Lemma wf_slice a i n : wf_array a → wf_array (slice a i n).
Proof.
  intros (Ht & Hl & He). unfold wf_array, slice; cbn [arr_type vals valid]. split_and!.
  - by apply Forall_take, Forall_drop.
  - by rewrite !length_take, !length_drop, Hl.
  - intros E. rewrite He by done. by rewrite <- fmap_drop, <- fmap_take.
Qed.

Lemma slice_one a i o : vals a !! i = Some o → vals (slice a i 1) = [o].
Proof. intros E. unfold slice; simpl. by rewrite (drop_S _ _ _ E). Qed.
