(* ===== verification/ArrowModel.v ===== *)
(** A concrete instance of the Arrow kernel interface that satisfies its laws:
    the witnesses of the filter theorems evaluate with it.  Scalars are ordered
    by their integer value or lexicographically by their bytes; casts exist from
    dictionaries to their values, from integers to [Float64] and to [Int64]. *)
From S2P Require Import Prelude Float64 Arrow.

Open Scope Z_scope.

(** * A total preorder on scalars *)

Definition sort_key (v : value) : list Z :=
  match v with
  | VBool b => [0; if b then 1 else 0]
  | VInt z => [1; z]
  | VBytes s => 2 :: (Z_of_byte <$> as_bytes s)
  | _ => [3]
  end.
Definition key_cmp (a b : value) : comparison := lex (sort_key a) (sort_key b).

(** * The kernels *)

Definition datum_array (d : Datum) : array := match d with ArrayDatum a | ScalarDatum a => a end.

Definition model_cmp (op : CmpOp) (l r : Datum) : result BooleanArray string :=
  let l := datum_array l in let r := datum_array r in
  if bool_decide (arr_type l = arr_type r) && bcast_ok (len l) (len r)
  then Ok (bcast (sql_cell key_cmp op) (vals l) (vals r))
  else Err "Invalid comparison operation".

Definition cast_cell (t : DataType) (o : option value) : option value :=
  match t, o with
  | Float64, Some (VInt z) => Some (VFloat (f64_of_Z z))
  | Int64, Some (VInt z) => if (- 2 ^ 63 <=? z) && (z <? 2 ^ 63) then Some (VInt z) else None
  | _, _ => None
  end.

Definition model_cast (a : array) (t : DataType) : result array string :=
  if decide (arr_type a = t) then Ok a
  else match arr_type a, t with
       | Dictionary _ v, _ =>
           if decide (logical_value_type v = t) then Ok (plain_array t (vals a)) else Err "cast"
       | Flat u, (Float64 | Int64) => Ok (plain_array t (cast_cell t <$> vals a))
       | _, _ => Err "cast"
       end.

Definition same_length {A} (f : option bool → option bool → A) (a b : BooleanArray) : result (list A) string :=
  if (length a =? length b)%nat then Ok (zip_with f a b) else Err "different lengths".

Definition model_take (a : array) (idx : list nat) : result array string :=
  Ok (mkArray (arr_type a) ((λ i, mjoin (vals a !! i)) <$> idx) ((λ i, default false (valid a !! i)) <$> idx)).

Definition as_float (o : option value) : option f64 :=
  match o with Some (VFloat f) => Some f | _ => None end.
Definition float_op (op : NumOp) : f64 → f64 → f64 :=
  match op with
  | OpAdd => f64_add | OpMul => f64_mul | OpDiv => f64_div
  | OpSub => λ x y, f64_add x (SFopp y) | OpRem => λ x _, x
  end.
Definition model_numeric (op : NumOp) (a b : array) : result array string :=
  if (len a =? len b)%nat
  then Ok (plain_array Float64
         (zip_with (λ x y, match as_float x, as_float y with
                           | Some x, Some y => Some (VFloat (float_op op x y)) | _, _ => None end)
            (vals a) (vals b)))
  else Err "different lengths".
Definition model_neg (a : array) : result array string :=
  Ok (plain_array Float64 ((λ x, VFloat ∘ SFopp <$> as_float x) <$> vals a)).

Definition model_set_nulls (a : array) (m : list bool) : result array string :=
  if maskable (arr_type a) then
    let v := zip_with (λ (b : bool) o, if b then o else None) m (vals a) in
    Ok (mkArray (arr_type a) v (is_some <$> v))
  else if forallb id m then Ok a
  else Err "array cannot contain a null bitmask".

Definition model_concat (l : list array) : result array string :=
  match l with
  | [] => Err "concat requires input of at least one array"
  | a :: _ =>
      if decide (Forall (λ x, arr_type x = arr_type a) l)
      then Ok (mkArray (arr_type a) (l ≫= vals) (l ≫= valid)) else Err "different data types"
  end.

Definition mask_list {A} (m : BooleanArray) (l : list A) : list A :=
  omap (λ p, if decide (p.1 = Some true) then Some p.2 else None) (zip m l).
Definition model_filter (b : RecordBatch) (m : BooleanArray) : result RecordBatch string :=
  Ok (mkRecordBatch (schema b) (schema_metadata b)
        ((λ a, mkArray (arr_type a) (mask_list m (vals a)) (mask_list m (valid a))) <$> columns b)
        (length (filter (λ x, x = Some true) m))).

#[global] Instance arrow_model : Arrow := {|
  scalar_cmp := λ _, key_cmp;
  arrow_cmp := model_cmp;
  make_comparator := λ _ _, Err "not supported";
  arrow_cast := model_cast;
  arrow_and_kleene := same_length kleene_and;
  arrow_or_kleene := same_length kleene_or;
  arrow_not := λ a, Ok ((λ o : option bool, negb <$> o) <$> a);
  arrow_is_null := λ a, Ok ((λ o, Some (negb (is_some o))) <$> vals a);
  arrow_is_not_null := λ a, Ok ((λ o, Some (is_some o)) <$> vals a);
  arrow_take := model_take;
  arrow_numeric := model_numeric;
  arrow_neg := model_neg;
  arrow_set_nulls := model_set_nulls;
  arrow_concat := model_concat;
  arrow_filter := model_filter;
|}.

(** * The laws *)

Lemma datum_cmp_datum a : datum_array (cmp_datum a) = a.
Proof. unfold cmp_datum. by case_match. Qed.

Lemma cast_cell_type t o : t = Float64 ∨ t = Int64 → cell_type t (cast_cell t o) = true.
Proof.
  intros [-> | ->]; destruct o as [[]|]; simpl; try done.
  case_match; [|done]. done.
Qed.

Lemma has_type_dictionary k u w : has_type (Dictionary k u) w = has_type (logical_value_type u) w.
Proof. destruct w; simpl; by rewrite logical_idemp. Qed.

Lemma model_cast_shape a t c : model_cast a t = Ok c → wf_array a →
  arr_type c = t ∧ len c = len a ∧ wf_array c.
Proof.
  unfold model_cast. intros E Hwf. case_decide as Ht; [by simplify_eq|].
  destruct (arr_type a) eqn:Ea; try done.
  - assert (t = Float64 ∨ t = Int64) as Ht' by (repeat (case_match; try done); auto).
    assert (c = plain_array t (cast_cell t <$> vals a)) as ->
      by (destruct Ht' as [-> | ->]; by simplify_eq).
    split_and!; [done|unfold len; simpl; by rewrite length_fmap|].
    apply wf_plain, Forall_fmap, Forall_forall. intros o _. by apply cast_cell_type.
  - case_decide as Hv; [|done]. simplify_eq. split_and!; [done|done|].
    apply wf_plain. destruct Hwf as (Hf & _). rewrite Ea in Hf.
    eapply Forall_impl; [exact Hf|]. intros [w|]; [|done].
    cbn [cell_type]. by rewrite has_type_dictionary.
Qed.

Lemma model_cast_dict a k v : arr_type a = Dictionary k v →
  model_cast a (logical_value_type v) = Ok (plain_array (logical_value_type v) (vals a)).
Proof.
  intros Ha. unfold model_cast.
  rewrite decide_False by (rewrite Ha; apply not_eq_sym, logical_not_dictionary).
  by rewrite Ha, decide_True by done.
Qed.

Lemma same_length_spec {A} (f : option bool → option bool → A) a b :
  length a = length b → same_length f a b = Ok (zip_with f a b).
Proof. intros H. unfold same_length. by rewrite H, Nat.eqb_refl. Qed.

Lemma Forall_zip_mask t (m : list bool) l :
  Forall (λ o, cell_type t o = true) l →
  Forall (λ o, cell_type t o = true) (zip_with (λ (b : bool) o, if b then o else None) m l).
Proof.
  intros H. induction H in m |- *; destruct m as [|[] m]; simpl; constructor; auto.
Qed.

Lemma model_concat_wf t l : Forall (λ a, arr_type a = t ∧ wf_array a) l →
  wf_array (mkArray t (l ≫= vals) (l ≫= valid)).
Proof.
  induction 1 as [|a l [<- Ha] _ IH]; [by split_and!|].
  destruct Ha as (Ht & Hl & He), IH as (IHt & IHl & IHe). cbn [vals valid arr_type] in *.
  change ((a :: l) ≫= ?f) with (f a ++ (l ≫= f)).
  split_and!; cbn [vals valid arr_type].
  - by apply Forall_app.
  - rewrite !length_app. by f_equal.
  - intros E. rewrite fmap_app, He, IHe by done. done.
Qed.

#[global] Instance arrow_model_laws : ArrowLaws.
Proof.
  split; cbn -[key_cmp].
  - intros. apply lex_refl.
  - intros. apply lex_sym.
  - intros u a b c. apply lex_trans.
  - by intros [] [].
  - intros u lo hi a b _. cbn. by destruct (a ?= b).
  - intros op l r u Hl Hr _ _ _ _ Hb. unfold model_cmp. rewrite !datum_cmp_datum.
    rewrite bool_decide_true by congruence. by rewrite Hb.
  - intros op l r b. unfold model_cmp. rewrite !datum_cmp_datum. case_match eqn:E; [|done].
    apply andb_true_iff in E as [_ E]. intros [= <-]. split; [done|]. by apply length_bcast.
  - intros a k v Ha Hwf. pose proof (model_cast_dict a k v Ha) as E. eexists. split; [exact E|].
    destruct (model_cast_shape _ _ _ E Hwf) as (? & ? & ?). by split_and!.
  - intros a _. unfold model_cast. by rewrite decide_True.
  - apply model_cast_shape.
  - intros a b. apply same_length_spec.
  - intros a b. apply same_length_spec.
  - intros a b c. unfold same_length. destruct (length a =? length b)%nat eqn:E; [|by intros [|]].
    intros _. by apply Nat.eqb_eq.
  - done.
  - done.
  - done.
  - intros a v n Hwf Hv. eexists. split; [done|]. simpl. rewrite !fmap_replicate, Hv.
    destruct Hwf as (Ht & Hl & He). split; [done|]. split; [done|].
    unfold wf_array; cbn [vals valid arr_type]. split_and!.
    + apply Forall_replicate. rewrite Hv in Ht. by inversion Ht.
    + by rewrite !length_replicate.
    + intros E. rewrite He, Hv, fmap_replicate by done. done.
  - intros op a b c _ _. unfold model_numeric. case_match eqn:E; [|done]. apply Nat.eqb_eq in E.
    intros [= <-] _ _. split_and!; [done| |]; cbn -[plain_array].
    + unfold len in *; simpl. rewrite length_zip_with. lia.
    + apply wf_plain. apply Forall_forall. intros o Ho.
      apply elem_of_lookup_zip_with in Ho as (i & x & y & -> & _). by repeat case_match.
  - intros a c _ [= <-] _. split_and!; [done|unfold len; simpl; by rewrite length_fmap|].
    apply wf_plain, Forall_fmap, Forall_forall. intros o _. simpl. by destruct (as_float o).
  - intros a m c. unfold model_set_nulls. case_match; [|by case_match; intros; simplify_eq].
    intros [= <-] (Ht & Hl & He) Hm.
    split; [done|]. unfold wf_array, len in *; cbn [vals valid arr_type]. split_and!; try done.
    + rewrite length_zip_with. lia.
    + by apply Forall_zip_mask.
    + by rewrite length_fmap.
  - intros a m Hmask _ _. unfold model_set_nulls. rewrite Hmask. by eexists.
  - intros t [|a l] Hne Hl; [done|]. cbn [model_concat]. inversion_clear Hl as [|?? [Ha Hwf] Hl'].
    rewrite decide_True.
    + eexists. split; [done|]. split; [done|]. split; [done|]. rewrite Ha.
      apply (model_concat_wf t (a :: l)). by constructor.
    + constructor; [done|]. eapply Forall_impl; [exact Hl'|]. naive_solver congruence.
  - intros [|a l] c; [done|]. cbn [model_concat]. case_decide as Hd; [|done]. split; [done|]. eauto.
Qed.
