(* ===== verification/SqlCompare.v ===== *)
(** SQL comparison of arrays, [vgi/src/pushdown/comparison.rs] and the
    comparison helpers of [vgi/src/pushdown.rs]: floats ordered as DuckDB does
    (signed zeros equal, all NaNs equal and above everything), every other
    scalar type by Arrow's kernels.  [compare_arrays_spec] says that on every
    type with an order the result is the cell-by-cell SQL comparison with respect
    to one total preorder, [sql_ord]. *)
From S2P Require Import Prelude Float64 Arrow ArrowModel.

Open Scope Z_scope.

(** The errors of [vgi_rpc] the code makes: [value_error] and its like; [cvt] is that of an Arrow error. *)
Inductive RpcError := ValueError (msg : string) | TypeError (msg : string) | RuntimeError (msg : string) | ProtocolError (msg : string).
Definition value_error {A} (msg : string) : result A RpcError := Err (ValueError msg).
Definition cvt (e : string) : RpcError := RuntimeError ("filter: " +:+ e).

(** Walks through the [?]s and the early returns of a computation that gave
    [Ok]. *)
Ltac inv_ok H :=
  repeat match type of H with
  | (if ?b then value_error _ else _) = Ok _ =>
      let E := fresh "E" in destruct b eqn:E; [unfold value_error in H; discriminate H|]
  | match ?x with Ok _ => _ | Err _ => Err _ end = Ok _ =>
      let E := fresh "E" in destruct x as [?|?] eqn:E; [|discriminate H]
  | match ?x with pair _ _ => _ end = Ok _ => destruct x
  end.

Definition cmp_of_string (op : string) : option CmpOp :=
  if String.eqb op "eq" then Some OpEq
  else if String.eqb op "ne" then Some OpNe
  else if String.eqb op "lt" then Some OpLt
  else if String.eqb op "le" then Some OpLe
  else if String.eqb op "gt" then Some OpGt
  else if String.eqb op "ge" then Some OpGe
  else if String.eqb op "distinct_from" then Some OpDistinct
  else if String.eqb op "not_distinct_from" then Some OpNotDistinct
  else None.

Definition unknown_comparison (op : string) : string := "unknown comparison " +:+ op.

(** * Floats *)

Definition is_nan (f : f64) : bool := match f with S754_nan => true | _ => false end.
Definition f_eq (a b : f64) : bool := match SFcompare a b with Some Eq => true | _ => false end.
Definition f_gt (a b : f64) : bool := f64_lt b a.
Definition f_ge (a b : f64) : bool := f64_le b a.

Definition float_holds (op : CmpOp) (a b : f64) : bool :=
  match op with
  | OpEq | OpNotDistinct => f_eq a b || (is_nan a && is_nan b)
  | OpNe | OpDistinct => negb (f_eq a b || (is_nan a && is_nan b))
  | OpLt => f64_lt a b || (negb (is_nan a) && is_nan b)
  | OpLe => f64_le a b || is_nan b
  | OpGt => f_gt a b || (is_nan a && negb (is_nan b))
  | OpGe => f_ge a b || is_nan a
  end.

(** The raw slot of a float array; what a NULL slot holds is never observed. *)
Definition float_at (o : option value) : f64 :=
  match o with Some (VFloat f) => f | _ => S754_nan end.

Definition pick (n i : nat) : nat := if (n =? 1)%nat then 0%nat else i.

Definition finish_float (l r : array) (values : list bool) (op : CmpOp) : BooleanArray :=
  match op with
  | OpDistinct =>
      imap (λ i v, let ln := is_null l (pick (len l) i) in let rn := is_null r (pick (len r) i) in
                   Some (xorb ln rn || (negb ln && negb rn && v))) values
  | OpNotDistinct =>
      imap (λ i v, let ln := is_null l (pick (len l) i) in let rn := is_null r (pick (len r) i) in
                   Some ((ln && rn) || (negb ln && negb rn && v))) values
  | _ =>
      imap (λ i v,
        let null :=
          if (len l =? 1)%nat then is_null l 0 || is_null r i
          else if (len r =? 1)%nat then is_null r 0 || is_null l i
          else is_null l i || is_null r i in
        if null then None else Some v) values
  end.

(** [float32_compare] and [float64_compare]. *)
Definition float_compare (l r : array) (op : string) : result BooleanArray string :=
  if negb (bcast_ok (len l) (len r)) then Err "incompatible lengths"
  else match cmp_of_string op with
       | Some o => Ok (finish_float l r (bcast (float_holds o) (float_at <$> vals l) (float_at <$> vals r)) o)
       | None => Err (unknown_comparison op)
       end.

Section sql_compare.
Context `{Arrow}.

Definition arrow_compare (l r : array) (op : string) : result BooleanArray string :=
  match cmp_of_string op with
  | Some o => arrow_cmp o (cmp_datum l) (cmp_datum r)
  | None => Err (unknown_comparison op)
  end.

Definition nested_compare (l r : array) (op : string) : result BooleanArray string :=
  if negb (bcast_ok (len l) (len r)) then Err "incompatible lengths"
  else let? compare := make_comparator l r in
       match cmp_of_string op with
       | Some o =>
           let values := (λ i, let ln := is_null l (pick (len l) i) in
                               let rn := is_null r (pick (len r) i) in
                               holds o (compare (pick (len l) i) (pick (len r) i)) ||
                               match o with
                               | OpDistinct => xorb ln rn | OpNotDistinct => ln && rn | _ => false end)
                         <$> seq 0 (bcast_len (len l) (len r)) in
           Ok (finish_float l r values o)
       | None => Err (unknown_comparison op)
       end.

Definition sql_compare (l r : array) (op : string) : result BooleanArray string :=
  match arr_type l, arr_type r with
  | Float32, Float32 | Float64, Float64 => float_compare l r op
  | tl, tr => if is_nested tl || is_nested tr then nested_compare l r op else arrow_compare l r op
  end.

Definition dictionary_values (a : array) : result array RpcError :=
  match arr_type a with
  | Dictionary _ _ => map_err cvt (arrow_cast a (logical_value_type (arr_type a)))
  | _ => Ok a
  end.

Definition compare_arrays (l r : array) (op : string) : result BooleanArray RpcError :=
  let? l := dictionary_values l in
  let? r := dictionary_values r in
  map_err cvt (sql_compare l r op).
End sql_compare.

(** * The SQL order of floats *)

Definition float_ord (a b : f64) : comparison :=
  match SFcompare a b with
  | Some c => c
  | None => match is_nan a, is_nan b with true, true => Eq | true, false => Gt | _, _ => Lt end
  end.

Definition float_key (f : f64) : list Z :=
  match f with
  | S754_nan => [4]
  | S754_infinity s => [if s then -3 else 3]
  | S754_zero _ => [0]
  | S754_finite false m e => [1; e; Zpos m]
  | S754_finite true m e => [-1; - e; Zneg m]
  end.

Lemma float_holds_ord op a b : float_holds op a b = holds op (float_ord a b).
Proof.
  assert (SFcompare b a = CompOpp <$> SFcompare a b) as Hs.
  { destruct a as [s|s| |s m e], b as [t|t| |t n g]; try (by destruct s) || (by destruct s, t) || done.
    destruct s, t; try done; cbn [SFcompare]; rewrite (Z.compare_antisym e g);
      destruct (e ?= g); try done; simpl;
      change (Pos.compare_cont Eq ?x ?y) with (Pos.compare x y);
      by rewrite (Pos.compare_antisym m n), ?CompOpp_involutive. }
  unfold float_holds, f_gt, f_ge, f64_lt, f64_le, f_eq, float_ord. rewrite Hs.
  destruct op, (SFcompare a b) as [[]|] eqn:E, (is_nan a) eqn:Ea, (is_nan b) eqn:Eb; try done;
    destruct a, b; try done; by destruct s, s0.
Qed.

Lemma float_ord_key a b : float_ord a b = lex (float_key a) (float_key b).
Proof.
  destruct a as [s|s| |s m e], b as [t|t| |t n g]; first [done | by destruct s | by destruct t | by destruct s, t | idtac].
  destruct s, t; try done; unfold float_ord; cbn [SFcompare float_key lex].
  - change (-1 ?= -1) with Eq. rewrite Z.compare_opp, (Z.compare_antisym e g).
    destruct (e ?= g); try done. simpl.
    change (Pos.compare_cont Eq m n) with (Pos.compare m n). by destruct (Pos.compare m n).
  - change (1 ?= 1) with Eq. destruct (e ?= g); try done. simpl.
    change (Pos.compare_cont Eq m n) with (Pos.compare m n). by destruct (Pos.compare m n).
Qed.

Lemma is_null_wf a i o : wf_array a → encoded (arr_type a) = false → vals a !! i = Some o →
  is_null a i = negb (is_some o).
Proof.
  intros (_ & _ & He) Hf Ho. unfold is_null. rewrite He by done. by rewrite list_lookup_fmap, Ho.
Qed.

(** The cell of a repeated operand at row [i]. *)
Lemma lookup_bcast {A B C} (f : A → B → C) l r i :
  bcast_ok (length l) (length r) = true → (i < bcast_len (length l) (length r))%nat →
  ∃ a b, l !! pick (length l) i = Some a ∧ r !! pick (length r) i = Some b ∧
         bcast f l r !! i = Some (f a b).
Proof.
  intros Hb Hi. unfold pick.
  assert ((length l =? 1)%nat = false → (length r =? 1)%nat = false → length l = length r) as Heq.
  { intros E E'. unfold bcast_ok in Hb. rewrite E, E', !orb_false_r in Hb. by apply Nat.eqb_eq. }
  unfold bcast_len in Hi. destruct (length l =? 1)%nat eqn:El.
  - apply Nat.eqb_eq in El. destruct l as [|a [|]]; try done. rewrite bcast_left.
    destruct (length r =? 1)%nat eqn:Er.
    + apply Nat.eqb_eq in Er. destruct r as [|b [|]]; try done. simpl in Hi.
      assert (i = 0%nat) as -> by lia. by eexists _, _.
    + apply lookup_lt_is_Some in Hi as [b Hb']. exists a, b. by rewrite list_lookup_fmap, Hb'.
  - destruct (length r =? 1)%nat eqn:Er.
    + apply Nat.eqb_eq in Er. destruct r as [|b [|]]; try done. rewrite bcast_right.
      apply lookup_lt_is_Some in Hi as [a Ha]. exists a, b. by rewrite list_lookup_fmap, Ha.
    + assert (is_Some (r !! i)) as [b Hr] by (apply lookup_lt_is_Some; rewrite <- Heq by done; done).
      apply lookup_lt_is_Some in Hi as [a Ha]. exists a, b. rewrite bcast_same by auto.
      by rewrite lookup_zip_with, Ha, Hr.
Qed.

(** [finish_float] of a cell, from the validity of its operands. *)
Lemma finish_float_cell l r values op i v :
  values !! i = Some v →
  finish_float l r values op !! i =
  Some (let ln := is_null l (pick (len l) i) in let rn := is_null r (pick (len r) i) in
        match op with
        | OpDistinct => Some (xorb ln rn || (negb ln && negb rn && v))
        | OpNotDistinct => Some ((ln && rn) || (negb ln && negb rn && v))
        | _ => if ln || (if (len l =? 1)%nat then is_null r i else rn) then None else Some v
        end).
Proof.
  intros Hv. unfold finish_float, pick.
  destruct op; rewrite list_lookup_imap, Hv; cbn [fmap option_fmap option_map]; f_equal;
    destruct (len l =? 1)%nat, (len r =? 1)%nat; try done; by rewrite orb_comm.
Qed.

Definition float_value_ord (a b : value) : comparison :=
  float_ord (float_at (Some a)) (float_at (Some b)).

Lemma float_cell_type t o : is_float t = true → cell_type t o = true →
  o = None ∨ ∃ f, o = Some (VFloat f).
Proof.
  intros Ht Ho. destruct o as [v|]; [right|by left].
  destruct t as [[]| | | | | | | | | |]; try done; destruct v; try done; eauto.
Qed.

(** The cell [finish_float] computes is the SQL comparison of the operand cells. *)
Lemma finish_float_sql t l r op i a b values :
  is_float t = true → arr_type l = t → arr_type r = t → wf_array l → wf_array r →
  (i < bcast_len (len l) (len r))%nat →
  vals l !! pick (len l) i = Some a → vals r !! pick (len r) i = Some b →
  values !! i = Some (float_holds op (float_at a) (float_at b)) →
  finish_float l r values op !! i = Some (sql_cell float_value_ord op a b).
Proof.
  intros Ht Hl Hr Wl Wr Hi Ha Hb Hv.
  assert (encoded t = false) as He by (by destruct t as [[]| | | | | | | | | |]).
  rewrite (finish_float_cell _ _ _ _ _ _ Hv). cbv zeta.
  rewrite (is_null_wf l _ a Wl (eq_trans (f_equal encoded Hl) He) Ha).
  rewrite (is_null_wf r _ b Wr (eq_trans (f_equal encoded Hr) He) Hb).
  assert ((if (len l =? 1)%nat then is_null r i else negb (is_some b)) = negb (is_some b)) as ->.
  { destruct (len l =? 1)%nat eqn:El; [|done].
    apply (is_null_wf r _ b Wr (eq_trans (f_equal encoded Hr) He)). rewrite <- Hb.
    unfold pick, bcast_len in *. rewrite El in Hi. destruct (len r =? 1)%nat eqn:Er; [|done].
    apply Nat.eqb_eq in Er. by replace i with 0%nat by lia. }
  destruct Wl as (Wl & _), Wr as (Wr & _).
  rewrite Forall_lookup in Wl, Wr. specialize (Wl _ _ Ha). specialize (Wr _ _ Hb).
  destruct (float_cell_type t a Ht ltac:(congruence)) as [->|[x ->]],
    (float_cell_type t b Ht ltac:(congruence)) as [->|[y ->]];
    cbn [float_at]; rewrite ?float_holds_ord; by destruct op.
Qed.

Lemma lookup_bcast_fmap {A B A' B' C} (g : A → A') (h : B → B') (f : A' → B' → C) l r :
  bcast f (g <$> l) (h <$> r) = bcast (λ a b, f (g a) (h b)) l r.
Proof.
  destruct l as [|a [|a' l]], r as [|b [|b' r]]; try done; simpl.
  - by rewrite <- list_fmap_compose.
  - by rewrite <- list_fmap_compose.
  - do 2 f_equal. change (list_fmap ?A ?B) with (@fmap list _ A B). by rewrite zip_with_fmap_l, zip_with_fmap_r.
Qed.

Lemma float_compare_spec l r op o t : cmp_of_string op = Some o →
  is_float t = true → arr_type l = t → arr_type r = t → wf_array l → wf_array r →
  bcast_ok (len l) (len r) = true →
  float_compare l r op = Ok (bcast (sql_cell float_value_ord o) (vals l) (vals r)).
Proof.
  intros Ho Ht Hl Hr Wl Wr Hb. unfold float_compare. rewrite Hb, Ho, lookup_bcast_fmap.
  cbn [negb]. f_equal. set (vs := bcast _ _ _).
  pose proof (length_bcast (λ a b, float_holds o (float_at a) (float_at b)) _ _ Hb) as Hlen.
  apply list_eq_same_length with (length vs).
  - subst vs. by rewrite Hlen, length_bcast.
  - unfold finish_float. by destruct o; rewrite length_imap.
  - intros i x y Hi Hx Hy. subst vs. rewrite Hlen in Hi.
    destruct (lookup_bcast (sql_cell float_value_ord o) _ _ i Hb Hi) as (a & b & Ha & Hb' & E).
    destruct (lookup_bcast (λ a b, float_holds o (float_at a) (float_at b)) _ _ i Hb Hi)
      as (a' & b' & Ha' & Hb'' & Ev).
    rewrite Ha in Ha'. rewrite Hb' in Hb''. injection Ha' as <-. injection Hb'' as <-.
    rewrite (finish_float_sql t l r o i a b) in Hx by done. congruence.
Qed.

(** * The SQL order *)

Section sql_ord.
Context `{ArrowLaws}.

(** The order of the values of a type: DuckDB's on floats, Arrow's elsewhere. *)
Definition sql_ord (t : DataType) (a b : value) : comparison :=
  match logical_value_type t with
  | Flat u => if is_float (Flat u) then float_value_ord a b else scalar_cmp u a b
  | _ => Eq
  end.

Lemma sql_ord_refl t a : sql_ord t a a = Eq.
Proof.
  unfold sql_ord. destruct (logical_value_type t); try done. case_match.
  - unfold float_value_ord. rewrite float_ord_key. apply lex_refl.
  - apply scalar_cmp_refl.
Qed.

Lemma sql_ord_sym t a b : sql_ord t b a = CompOpp (sql_ord t a b).
Proof.
  unfold sql_ord. destruct (logical_value_type t); try done. case_match.
  - unfold float_value_ord. rewrite !float_ord_key. apply lex_sym.
  - apply scalar_cmp_sym.
Qed.

Lemma sql_ord_trans t a b c : sql_ord t a b ≠ Gt → sql_ord t b c ≠ Gt → sql_ord t a c ≠ Gt.
Proof.
  unfold sql_ord. destruct (logical_value_type t); try done. case_match.
  - unfold float_value_ord. rewrite !float_ord_key. apply lex_trans.
  - apply scalar_cmp_trans.
Qed.

Lemma sql_ord_logical t : sql_ord (logical_value_type t) = sql_ord t.
Proof. unfold sql_ord. by rewrite logical_idemp. Qed.

Lemma dictionary_values_spec a : wf_array a → ∃ c, dictionary_values a = Ok c ∧
  arr_type c = logical_value_type (arr_type a) ∧ vals c = vals a ∧ wf_array c.
Proof.
  intros W. unfold dictionary_values. destruct (arr_type a) as [| | | | | | | |k v| |] eqn:E; try by exists a.
  destruct (arrow_cast_dictionary a k v E W) as (c & Hc & Ht & Hv & Hw).
  exists c. cbn [logical_value_type]. by rewrite Hc.
Qed.

(** On a type with an order, comparing two arrays compares them cell by cell. *)
Lemma compare_arrays_spec l r op o : cmp_of_string op = Some o →
  wf_array l → wf_array r → logical_value_type (arr_type l) = logical_value_type (arr_type r) →
  ordered (arr_type l) = true → bcast_ok (len l) (len r) = true →
  compare_arrays l r op = Ok (bcast (sql_cell (sql_ord (arr_type l)) o) (vals l) (vals r)).
Proof.
  intros Ho Wl Wr Ht Hord Hb. unfold compare_arrays.
  destruct (dictionary_values_spec l Wl) as (l' & -> & Hl & Hvl & Wl').
  destruct (dictionary_values_spec r Wr) as (r' & -> & Hr & Hvr & Wr').
  destruct (ordered_flat _ Hord) as [u Hu]. unfold sql_ord, len in *. rewrite Hu, <- Hvl, <- Hvr in *.
  unfold sql_compare. rewrite <- Ht in Hr. destruct (is_float (Flat u)) eqn:Ef.
  - pose proof (float_compare_spec l' r' op o (Flat u) Ho Ef Hl Hr Wl' Wr' Hb) as E.
    rewrite Hl, Hr. destruct u; try done; by rewrite E.
  - assert (ordered (Flat u) = true) as Hou by (rewrite <- Hu, ordered_logical; done).
    pose proof (arrow_cmp_spec o l' r' u Hl Hr Hou Ef Wl' Wr' Hb) as E.
    rewrite Hl, Hr. unfold arrow_compare. rewrite Ho, E. by destruct u.
Qed.

Lemma finish_float_length l r vs o : length (finish_float l r vs o) = length vs.
Proof. unfold finish_float. by destruct o; rewrite length_imap. Qed.

(** Whatever the types, a comparison that succeeds has the broadcast length. *)
Lemma compare_arrays_length l r op b : wf_array l → wf_array r → compare_arrays l r op = Ok b →
  bcast_ok (len l) (len r) = true ∧ length b = bcast_len (len l) (len r).
Proof.
  intros Wl Wr. unfold compare_arrays.
  destruct (dictionary_values_spec l Wl) as (l' & -> & _ & Hvl & _).
  destruct (dictionary_values_spec r Wr) as (r' & -> & _ & Hvr & _).
  unfold len in *. rewrite <- Hvl, <- Hvr. intros E.
  destruct (sql_compare l' r' op) as [b'|] eqn:E'; [|done]. injection E as <-.
  assert (float_compare l' r' op = Ok b' ∨ nested_compare l' r' op = Ok b' ∨ arrow_compare l' r' op = Ok b')
    as [F|[F|F]] by (revert E'; unfold sql_compare; repeat case_match; auto).
  - unfold float_compare in F. destruct (bcast_ok _ _) eqn:Hb; [|done]. cbn [negb] in F. case_match; [|done].
    simplify_eq. by rewrite finish_float_length, lookup_bcast_fmap, length_bcast by done.
  - unfold nested_compare in F. destruct (bcast_ok _ _) eqn:Hb; [|done]. cbn [negb] in F. destruct (make_comparator l' r') as [cmp|]; [|done].
    destruct (cmp_of_string op) as [o|]; [|done]. injection F as <-.
    split; [done|]. by rewrite finish_float_length, length_fmap, length_seq.
  - unfold arrow_compare in F. case_match; [|done]. by apply (arrow_cmp_len _ _ _ _ F).
Qed.
End sql_ord.
