(* ===== verification/Pushdown.v ===== *)
(** Filter Encoding v2, [vgi/src/pushdown.rs]: the expressions of pushed
    filters, the parser that binds a wire expression to the authoritative output
    schema with its depth and node limits, and the evaluator over Arrow batches.
    JSON decoding is serde's: a document arrives as its wire data. *)
From S2P Require Import Prelude Float64 Arrow ArrowModel SqlCompare.

Open Scope Z_scope.

Definition ENCODING : string := "vgi.filters.v2".
Definition VERSION : string := "2".
Definition SEMANTICS : string := "vgi.duckdb.standard.v1".
Definition NO_CONTEXT : string := "vgi.none.v1".
Definition SESSION_CONTEXT : string := "vgi.duckdb.session.v1".
Definition MAX_DEPTH : Z := 64.
Definition MAX_NODES : Z := 10000.
Definition MAX_PREDICATES : nat := 1024.
Definition MAX_IDS : nat := 4096.
Definition MAX_JSON : Z := Z.shiftl 1 20.
Definition MAX_PAYLOAD : Z := Z.shiftl 16 20.

(** * Expressions *)

Inductive PredicateMode := Required | Advisory.
#[global] Instance PredicateMode_eq_dec : EqDecision PredicateMode.
Proof. solve_decision. Defined.

Inductive Expr :=
| Column (index : nat) (cname : string) (ctype : DataType)
| FieldRef (e : Expr) (index : nat) (fname : string) (ftype : DataType)
| Literal (v : array)
| Comparison (op : string) (left right : Expr)
| And (children : list Expr)
| Or (children : list Expr)
| Not (e : Expr)
| IsNull (e : Expr) (negated : bool)
| In (e : Expr) (values : array) (negated : bool)
| Cast (e : Expr) (target : DataType)
| Arithmetic (op : string) (left right : Expr)
| Negate (e : Expr)
| Call (function : string) (arguments : list Expr)
| RuntimeFilter.

Section Expr_rect.
Context (P : Expr → Prop).
Context (Hcol : ∀ i n t, P (Column i n t)) (Hfield : ∀ e i n t, P e → P (FieldRef e i n t))
  (Hlit : ∀ v, P (Literal v)) (Hcmp : ∀ op l r, P l → P r → P (Comparison op l r))
  (Hand : ∀ l, Forall P l → P (And l)) (Hor : ∀ l, Forall P l → P (Or l))
  (Hnot : ∀ e, P e → P (Not e)) (Hnull : ∀ e b, P e → P (IsNull e b))
  (Hin : ∀ e v b, P e → P (In e v b)) (Hcast : ∀ e t, P e → P (Cast e t))
  (Harith : ∀ op l r, P l → P r → P (Arithmetic op l r)) (Hneg : ∀ e, P e → P (Negate e))
  (Hcall : ∀ f l, Forall P l → P (Call f l)) (Hrt : P RuntimeFilter).

(** Induction on expressions, through the lists of children. *)
Fixpoint Expr_nested_ind (e : Expr) : P e :=
  let all := fix all (l : list Expr) : Forall P l :=
    match l with [] => Forall_nil_2 P | e :: l => Forall_cons_2 P e l (Expr_nested_ind e) (all l) end in
  match e with
  | Column i n t => Hcol i n t
  | FieldRef e i n t => Hfield e i n t (Expr_nested_ind e)
  | Literal v => Hlit v
  | Comparison op l r => Hcmp op l r (Expr_nested_ind l) (Expr_nested_ind r)
  | And l => Hand l (all l)
  | Or l => Hor l (all l)
  | Not e => Hnot e (Expr_nested_ind e)
  | IsNull e b => Hnull e b (Expr_nested_ind e)
  | In e v b => Hin e v b (Expr_nested_ind e)
  | Cast e t => Hcast e t (Expr_nested_ind e)
  | Arithmetic op l r => Harith op l r (Expr_nested_ind l) (Expr_nested_ind r)
  | Negate e => Hneg e (Expr_nested_ind e)
  | Call f l => Hcall f l (all l)
  | RuntimeFilter => Hrt
  end.
End Expr_rect.

Record Predicate := mkPredicate {
  p_id : string;
  p_revision : Z;
  p_mode : PredicateMode;
  p_expression : Expr;
}.

Definition is_runtime_filter (e : Expr) : bool := match e with RuntimeFilter => true | _ => false end.

Fixpoint expr_type (e : Expr) : option DataType :=
  match e with
  | Column _ _ t | FieldRef _ _ _ t => Some t
  | Literal v => Some (arr_type v)
  | Comparison _ _ _ | And _ | Or _ | Not _ | IsNull _ _ | In _ _ _ | Call _ _ | RuntimeFilter =>
      Some Boolean
  | Cast _ t => Some t
  | Arithmetic _ l _ => expr_type l
  | Negate e => expr_type e
  end.

Definition context_op (op : string) : bool := String.eqb op "divide" || String.eqb op "modulo".

Fixpoint requires_context (e : Expr) : bool :=
  match e with
  | Arithmetic op l r => context_op op || requires_context l || requires_context r
  | Cast e t =>
      (match expr_type e with Some s => contextual_type s | None => false end && contextual_type t)
      || requires_context e
  | FieldRef e _ _ _ | Not e | Negate e | IsNull e _ | In e _ _ => requires_context e
  | Comparison _ l r => requires_context l || requires_context r
  | And l | Or l | Call _ l => existsb requires_context l
  | Column _ _ _ | Literal _ | RuntimeFilter => false
  end.

(** * The evaluator *)

Definition starts_with (s p : string) : bool := is_some (strip_prefix p s).
Fixpoint ends_with (s p : string) : bool :=
  String.eqb s p || match s with EmptyString => false | String _ s => ends_with s p end.
Fixpoint contains (s p : string) : bool :=
  starts_with s p || match s with EmptyString => false | String _ s => contains s p end.

Definition num_of_string (op : string) : option NumOp :=
  if String.eqb op "add" then Some OpAdd
  else if String.eqb op "subtract" then Some OpSub
  else if String.eqb op "multiply" then Some OpMul
  else if String.eqb op "divide" then Some OpDiv
  else if String.eqb op "modulo" then Some OpRem
  else None.

Definition all_true (n : nat) : BooleanArray := replicate n (Some true).
Definition all_false (n : nat) : BooleanArray := replicate n (Some false).

Section eval.
Context `{Arrow}.

Definition and_kleene (a b : BooleanArray) : result BooleanArray RpcError :=
  map_err cvt (arrow_and_kleene a b).
Definition or_kleene (a b : BooleanArray) : result BooleanArray RpcError :=
  map_err cvt (arrow_or_kleene a b).

Definition repeat_scalar (a : array) (count : nat) : result array RpcError :=
  if negb (len a =? 1)%nat then value_error "payload literal is not scalar"
  else map_err cvt (arrow_take a (replicate count 0%nat)).

Definition broadcast (l r : array) : result (array * array) RpcError :=
  if (len l =? len r)%nat then Ok (l, r)
  else if (len l =? 1)%nat then let? l := repeat_scalar l (len r) in Ok (l, r)
  else if (len r =? 1)%nat then let? r := repeat_scalar r (len l) in Ok (l, r)
  else value_error "expression lengths are incompatible".

Definition arithmetic (l r : array) (op : string) : result array RpcError :=
  let? (l, r) := broadcast l r in
  let? l := map_err cvt (arrow_cast l Float64) in
  let? r := map_err cvt (arrow_cast r Float64) in
  match num_of_string op with
  | Some o => map_err cvt (arrow_numeric o l r)
  | None => value_error "unknown arithmetic operator"
  end.

Definition negate (a : array) : result array RpcError :=
  let? a := map_err cvt (arrow_cast a Float64) in
  map_err cvt (arrow_neg a).

Fixpoint in_loop (column values : array) (idx : list nat) (acc : BooleanArray) :
    result BooleanArray RpcError :=
  match idx with
  | [] => Ok acc
  | i :: idx =>
      let? v := repeat_scalar (slice values i 1) (len column) in
      let? c := compare_arrays column v "eq" in
      let? acc := or_kleene acc c in
      in_loop column values idx acc
  end.

Definition in_list (column values : array) : result BooleanArray RpcError :=
  let? column := dictionary_values column in
  let? values := dictionary_values values in
  in_loop column values (seq 0 (len values)) (all_false (len column)).

(** The column of a batch a bound reference reads: the one at the bound index
    when its name matches, else the only one of that name. *)
Definition resolve_column (batch : RecordBatch) (index : nat) (cname : string) : result nat RpcError :=
  if bool_decide (name <$> schema batch !! index = Some cname) then Ok index
  else match filter (λ i, name <$> schema batch !! i = Some cname) (seq 0 (length (schema batch))) with
       | [i] => Ok i
       | _ => value_error
           "authoritatively bound column_ref is absent or ambiguous in evaluation batch"
       end.

Definition eval_column (batch : RecordBatch) (index : nat) (cname : string) (ctype : DataType) :
    result array RpcError :=
  let? i := resolve_column batch index cname in
  match schema batch !! i, columns batch !! i with
  | Some f, Some c =>
      if decide (data_type f = ctype) then Ok c
      else value_error "column_ref type changed in evaluation batch"
  | _, _ => value_error "column_ref type changed in evaluation batch"
  end.

(** The cell of a struct's child: NULL where the struct is. *)
Definition struct_child (index : nat) (o : option value) : option value :=
  match o with Some (VStruct l) => mjoin (l !! index) | _ => None end.

Definition eval_field (parent : array) (index : nat) (fname : string) (ftype : DataType) :
    result array RpcError :=
  match arr_type parent with
  | Struct fields =>
      match fields !! index with
      | None => value_error "field_ref index out of range"
      | Some f =>
          if negb (String.eqb (name f) fname)
          then value_error "field_ref name does not match authoritative index"
          else if decide (data_type f = ftype) then
            let child := plain_array (data_type f) (struct_child index <$> vals parent) in
            let nulls := zip_with andb (valid parent) (valid child) in
            map_err cvt (arrow_set_nulls child nulls)
          else value_error "field_ref type changed in evaluation batch"
      end
  | _ => value_error "field_ref input is not struct"
  end.

(** A scalar repeated for every row, an array of the batch's length as it is. *)
Definition fit_rows (v : array) (rows : nat) : result array RpcError :=
  if (len v =? rows)%nat then Ok v else repeat_scalar v rows.

Definition call_cell (function : string) (l r : option string) : option bool :=
  match l, r with
  | Some l, Some r =>
      Some (if String.eqb function "starts_with" then starts_with l r
            else if String.eqb function "ends_with" then ends_with l r
            else if String.eqb function "contains" then contains l r
            else false)
  | _, _ => None
  end.

(** [eval_call] once its arguments are evaluated. *)
Definition string_call (function : string) (l r : array) : result BooleanArray RpcError :=
  let? (l, r) := broadcast l r in
  match downcast_strings l, downcast_strings r with
  | None, _ => value_error "string function input is not utf8"
  | _, None => value_error "string function pattern is not utf8"
  | Some l, Some r => Ok (zip_with (call_cell function) l r)
  end.

Definition to_bool (a : array) : result BooleanArray RpcError :=
  match downcast_bools a with
  | Some b => Ok b
  | None => value_error "predicate expression is not BOOLEAN"
  end.

Fixpoint eval (e : Expr) (batch : RecordBatch) {struct e} : result array RpcError :=
  let eval_bool e := let? a := eval e batch in to_bool a in
  let fold_bool (op : BooleanArray → BooleanArray → result BooleanArray RpcError) :=
    fix fold_bool (children : list Expr) (acc : BooleanArray) : result BooleanArray RpcError :=
      match children with
      | [] => Ok acc
      | c :: children =>
          let? current := eval_bool c in
          let? acc := op acc current in
          fold_bool children acc
      end in
  match e with
  | Column index cname ctype => eval_column batch index cname ctype
  | FieldRef e index fname ftype =>
      let? parent := eval e batch in
      eval_field parent index fname ftype
  | Literal v => fit_rows v (num_rows batch)
  | Comparison op l r =>
      let? l := (match l with Literal v => Ok v | _ => eval l batch end) in
      let? r := (match r with Literal v => Ok v | _ => eval r batch end) in
      let? b := compare_arrays l r op in
      fit_rows (of_bools b) (num_rows batch)
  | And children =>
      let? b := fold_bool and_kleene children (all_true (num_rows batch)) in Ok (of_bools b)
  | Or children =>
      let? b := fold_bool or_kleene children (all_false (num_rows batch)) in Ok (of_bools b)
  | Not e =>
      let? b := eval_bool e in
      let? b := map_err cvt (arrow_not b) in Ok (of_bools b)
  | IsNull e negated =>
      let? v := eval e batch in
      let? b := map_err cvt (if negated then arrow_is_not_null v else arrow_is_null v) in
      Ok (of_bools b)
  | In e values negated =>
      let? v := eval e batch in
      let? b := in_list v values in
      if negated then let? b := map_err cvt (arrow_not b) in Ok (of_bools b)
      else Ok (of_bools b)
  | Cast e target => let? v := eval e batch in map_err cvt (arrow_cast v target)
  | Arithmetic op l r =>
      let? l := eval l batch in
      let? r := eval r batch in
      arithmetic l r op
  | Negate e => let? v := eval e batch in negate v
  | Call function arguments =>
      match arguments with
      | [l; r] =>
          if String.eqb function "list_contains"
          then value_error "list_contains is not implemented for this Arrow type"
          else let? l := eval l batch in
               let? r := eval r batch in
               let? b := string_call function l r in Ok (of_bools b)
      | _ => value_error "standard filter function requires two arguments"
      end
  | RuntimeFilter => value_error "runtime filter has no negotiated evaluator"
  end.

Definition eval_bool (e : Expr) (batch : RecordBatch) : result BooleanArray RpcError :=
  let? a := eval e batch in to_bool a.

Definition fold_bool (op : BooleanArray → BooleanArray → result BooleanArray RpcError)
    (batch : RecordBatch) : list Expr → BooleanArray → result BooleanArray RpcError :=
  fix fold_bool (children : list Expr) (acc : BooleanArray) : result BooleanArray RpcError :=
    match children with
    | [] => Ok acc
    | c :: children =>
        let? current := eval_bool c batch in
        let? acc := op acc current in
        fold_bool children acc
    end.

Lemma eval_And l batch : eval (And l) batch =
  let? b := fold_bool and_kleene batch l (all_true (num_rows batch)) in Ok (of_bools b).
Proof. reflexivity. Qed.
Lemma eval_Or l batch : eval (Or l) batch =
  let? b := fold_bool or_kleene batch l (all_false (num_rows batch)) in Ok (of_bools b).
Proof. reflexivity. Qed.

(** [PushdownFilters::evaluate]: the conjunction of the predicates, an advisory
    one that fails left out. *)
Fixpoint evaluate_loop (predicates : list Predicate) (batch : RecordBatch) (acc : BooleanArray) :
    result BooleanArray RpcError :=
  match predicates with
  | [] => Ok acc
  | p :: predicates =>
      if is_runtime_filter (p_expression p) then evaluate_loop predicates batch acc
      else match eval_bool (p_expression p) batch with
           | Ok current =>
               let? acc := and_kleene acc current in
               evaluate_loop predicates batch acc
           | Err error =>
               if decide (p_mode p = Advisory) then evaluate_loop predicates batch acc else Err error
           end
  end.
End eval.

(** * The filters of a scan *)

Record EvaluationContext := mkContext {
  profile : string;
  time_zone : option string;
  calendar : option string;
  default_collation : option string;
  ieee_floating_point_ops : option bool;
  integer_division : option bool;
  provider_fingerprint : option string;
}.
#[global] Instance EvaluationContext_eq_dec : EqDecision EvaluationContext.
Proof. solve_decision. Defined.

Record PushdownFilters := mkFilters {
  predicates : list Predicate;
  revisions : gmap string Z;
  required_ids : gset string;
  context : EvaluationContext;
  join_keys : list RecordBatch;
  output_schema : Schema;
}.

Definition has_required_predicates (f : PushdownFilters) : bool :=
  negb (bool_decide (required_ids f = ∅)).

Definition evaluate `{Arrow} (f : PushdownFilters) (batch : RecordBatch) : result BooleanArray RpcError :=
  evaluate_loop (predicates f) batch (all_true (num_rows batch)).

Definition apply_filters `{Arrow} (f : PushdownFilters) (batch : RecordBatch) : result RecordBatch RpcError :=
  let? mask := evaluate f batch in
  map_err cvt (arrow_filter batch mask).
