(* ===== verification/PushdownParse.v ===== *)
(** The parser of Filter Encoding v2 ([Parser] in [vgi/src/pushdown.rs]): wire
    expressions bound to the authoritative output schema, with the checks of
    documents, contexts, identifiers and payloads, and the types it guarantees. *)
From S2P Require Import Prelude Float64 Arrow ArrowModel SqlCompare Pushdown.

Open Scope Z_scope.

(** * Wire data *)

(** [serde_json::Value]. *)
Inductive Json :=
| JNull | JBool (b : bool) | JNumber (n : Z) | JString (s : string)
| JArray (l : list Json) | JObject (members : list (string * Json)).

Record Identity := mkIdentity { id_namespace : string; id_name : string; id_version : Z }.

Inductive WireSet :=
| WLiteralSet (value_ref : Z)
| WExternalSet (batch_index column_index : Z) (column_name : string).

Inductive WireFunction := Standard (n : string) | Extension (i : Identity).

Inductive WireExpr :=
| WColumnRef (column_index : Z) (column_name : string)
| WFieldRef (e : WireExpr) (field_index : Z) (field_name : string)
| WLiteral (value_ref : Z)
| WComparison (op : string) (left right : WireExpr)
| WAnd (children : list WireExpr)
| WOr (children : list WireExpr)
| WNot (e : WireExpr)
| WIsNull (e : WireExpr) (negated : bool)
| WIn (e : WireExpr) (set : WireSet) (negated : bool)
| WCast (e : WireExpr) (type_ref : Z)
| WArithmetic (op : string) (left right : WireExpr)
| WNegate (e : WireExpr)
| WCall (function : WireFunction) (arguments : list WireExpr) (options : option Json)
| WRuntimeFilter (algorithm : Identity) (input : WireExpr) (artifact_ref : Z) (null_handling : string).

Record WirePredicate := mkWirePredicate {
  wp_id : string; wp_revision : Z; wp_mode : string; wp_source : string; wp_expression : WireExpr;
}.

(** What the parser reads; its only mutable state, [nodes], is passed along. *)
Record Parser := mkParser {
  ps_batch : RecordBatch;
  ps_join_keys : list RecordBatch;
  ps_schema : Schema;
}.

(** * Checks *)

Definition validate_id (v : string) : result unit RpcError :=
  if (String.length v =? 0)%nat || (128 <? String.length v)%nat
  then value_error "predicate ID must be nonempty and at most 128 bytes" else Ok tt.

Definition is_lower (b : byte) : bool := let z := Z_of_byte b in (97 <=? z) && (z <=? 122).
Definition is_digit (b : byte) : bool := let z := Z_of_byte b in (48 <=? z) && (z <=? 57).

Definition identity_part (v : string) : bool :=
  match as_bytes v with
  | [] => false
  | c :: _ => is_lower c &&
      forallb (λ c, is_lower c || is_digit c || (Z_of_byte c =? 95) || (Z_of_byte c =? 46)) (as_bytes v)
  end.

Definition validate_identity (i : Identity) : result unit RpcError :=
  if negb (identity_part (id_namespace i)) || contains (id_namespace i) ".."
     || negb (identity_part (id_name i)) || contains (id_name i) "." || (id_version i =? 0)
  then value_error "noncanonical function identity" else Ok tt.

Definition canonical_index (index : string) : bool :=
  String.eqb index "0" || (negb (starts_with index "0") && forallb is_digit (as_bytes index)).

Definition canonical_payload_name (n : string) : bool :=
  existsb (λ prefix, match strip_prefix prefix n with
                     | Some index => canonical_index index | None => false end)
    ["value_"; "type_"; "artifact_"].

Definition known_source (s : string) : bool :=
  existsb (String.eqb s) ["query"; "join"; "top_n"; "split_refinement"; "other"].

Definition nonempty (v what : string) : result string RpcError :=
  if (String.length v =? 0)%nat then value_error (what +:+ " must be nonempty") else Ok v.

(** A [u64] always fits a 64-bit [usize]. *)
Definition to_usize (v : Z) : result nat RpcError := Ok (Z.to_nat v).

Definition validate_header (encoding semantics : string) : result unit RpcError :=
  if negb (String.eqb encoding ENCODING) then value_error "document encoding must be vgi.filters.v2"
  else if negb (String.eqb semantics SEMANTICS) then value_error "unsupported filter semantics"
  else Ok tt.

Definition payload (p : Parser) (prefix : string) (reference : Z) : result (Field * array) RpcError :=
  let n := prefix +:+ "_" +:+ Z_to_string reference in
  match find_field n (schema (ps_batch p)) with
  | Some (index, field) =>
      match columns (ps_batch p) !! index with
      | Some column => Ok (field, column)
      | None => value_error ("missing payload field " +:+ n)
      end
  | None => value_error ("missing payload field " +:+ n)
  end.

(** * Expressions *)

Definition bind_column (p : Parser) (column_index : Z) (column_name : string) : result Expr RpcError :=
  let? index := to_usize column_index in
  let? n := nonempty column_name "column name" in
  match ps_schema p !! index with
  | None => value_error "column_ref index is outside the authoritative output schema"
  | Some field =>
      if negb (String.eqb (name field) n)
      then value_error "column_ref name does not match authoritative index"
      else Ok (Column index n (data_type field))
  end.

Definition bind_field (e : Expr) (field_index : Z) (field_name : string) : result Expr RpcError :=
  let? index := to_usize field_index in
  let? n := nonempty field_name "field name" in
  match expr_type e with
  | None => value_error "field_ref parent has no authoritative type"
  | Some (Struct fields) =>
      match fields !! index with
      | None => value_error "field_ref index is outside the authoritative struct"
      | Some field =>
          if negb (String.eqb (name field) n)
          then value_error "field_ref name does not match authoritative index"
          else Ok (FieldRef e index n (data_type field))
      end
  | Some _ => value_error "field_ref parent is not STRUCT"
  end.

(** [list.value(0)] of a list array whose elements are [field]. *)
Definition list_value (field : Field) (a : array) : result array RpcError :=
  if is_null a 0 then value_error "literal IN list must not be NULL"
  else Ok (plain_array (data_type field)
             (match vals a !! 0%nat with Some (Some (VList l)) => l | _ => [] end)).

Definition set_values (p : Parser) (set : WireSet) : result array RpcError :=
  match set with
  | WLiteralSet value_ref =>
      let? (_, a) := payload p "value" value_ref in
      match arr_type a with
      | List f | LargeList f => list_value f a
      | _ => value_error "literal IN payload must be a list scalar"
      end
  | WExternalSet batch_index column_index column_name =>
      let? i := to_usize batch_index in
      match ps_join_keys p !! i with
      | None => value_error "external IN batch unavailable"
      | Some batch =>
          let? index := to_usize column_index in
          match schema batch !! index, columns batch !! index with
          | Some field, Some column =>
              if negb (String.eqb (name field) column_name)
              then value_error "external IN name does not match index"
              else Ok column
          | _, _ => value_error "external IN column out of range"
          end
      end
  end.

Definition same_logical (a b : option DataType) : bool :=
  bool_decide (logical_value_type <$> a = logical_value_type <$> b).

Definition is_boolean (e : Expr) : bool := bool_decide (expr_type e = Some Boolean).

(** The checks of a [call] on its evaluated function name and arguments. *)
Definition bind_call (function : string) (arguments : list Expr) : result Expr RpcError :=
  match arguments with
  | [l; r] =>
      if String.eqb function "list_contains" then
        match expr_type l with
        | Some (List field) =>
            if decide (Some (data_type field) = expr_type r) then Ok (Call function arguments)
            else value_error "list_contains element type mismatch"
        | _ => value_error "list_contains first argument must be LIST"
        end
      else if existsb (λ v, negb (bool_decide (expr_type v = Some Utf8))) arguments
      then value_error "string function arguments must be UTF8"
      else Ok (Call function arguments)
  | _ => value_error "standard filter functions require exactly two arguments"
  end.

Definition standard_function (n : string) : bool :=
  existsb (String.eqb n) ["starts_with"; "ends_with"; "contains"; "list_contains"].

Definition function_name (f : WireFunction) : result string RpcError :=
  match f with
  | Standard n => if standard_function n then Ok n else value_error "unknown standard filter function"
  | Extension i =>
      let? _ := validate_identity i in
      value_error "extension filter function was not advertised"
  end.

Definition known_algorithm (i : Identity) : bool :=
  String.eqb (id_namespace i) "duckdb.runtime_filter" &&
  (String.eqb (id_name i) "bloom" || String.eqb (id_name i) "prefix_range") && (id_version i =? 1).

(** [Parser::expression]; the count of nodes goes in and out. *)
Fixpoint expression (p : Parser) (wire : WireExpr) (depth : Z) (root : bool) (nodes : Z)
    {struct wire} : result (Expr * Z) RpcError :=
  if MAX_DEPTH <? depth then value_error "expression exceeds nesting-depth limit"
  else let nodes := nodes + 1 in
  if MAX_NODES <? nodes then value_error "document exceeds expression-node limit"
  else
  let child w nodes := expression p w (depth + 1) false nodes in
  let exprs := fix exprs (l : list WireExpr) (nodes : Z) : result (list Expr * Z) RpcError :=
    match l with
    | [] => Ok ([], nodes)
    | w :: l =>
        let? (e, nodes) := expression p w (depth + 1) false nodes in
        let? (es, nodes) := exprs l nodes in
        Ok (e :: es, nodes)
    end in
  match wire with
  | WColumnRef column_index column_name =>
      let? e := bind_column p column_index column_name in Ok (e, nodes)
  | WFieldRef e field_index field_name =>
      let? (e, nodes) := child e nodes in
      let? e := bind_field e field_index field_name in Ok (e, nodes)
  | WLiteral value_ref =>
      let? (_, v) := payload p "value" value_ref in Ok (Literal v, nodes)
  | WComparison op l r =>
      if negb (is_some (cmp_of_string op)) then value_error "unknown comparison operator"
      else let? (l, nodes) := child l nodes in
           let? (r, nodes) := child r nodes in
           if negb (same_logical (expr_type l) (expr_type r))
           then value_error "comparison operands have incompatible types"
           else Ok (Comparison op l r, nodes)
  | WAnd children =>
      if (length children <? 2)%nat then value_error "and requires at least two children"
      else let? (values, nodes) := exprs children nodes in
           if negb (forallb is_boolean values) then value_error "and children must resolve to BOOLEAN"
           else Ok (And values, nodes)
  | WOr children =>
      if (length children <? 2)%nat then value_error "or requires at least two children"
      else let? (values, nodes) := exprs children nodes in
           if negb (forallb is_boolean values) then value_error "or children must resolve to BOOLEAN"
           else Ok (Or values, nodes)
  | WNot e =>
      let? (e, nodes) := child e nodes in
      if negb (is_boolean e) then value_error "not operand must resolve to BOOLEAN"
      else Ok (Not e, nodes)
  | WIsNull e negated =>
      let? (e, nodes) := child e nodes in Ok (IsNull e negated, nodes)
  | WIn e set negated =>
      let? (e, nodes) := child e nodes in
      let? values := set_values p set in
      if negb (same_logical (expr_type e) (Some (arr_type values)))
      then value_error "IN expression and set have incompatible types"
      else Ok (In e values negated, nodes)
  | WCast e type_ref =>
      let? (field, value) := payload p "type" type_ref in
      if negb (is_null value 0) then value_error "cast type payload must contain NULL"
      else let? (e, nodes) := child e nodes in Ok (Cast e (data_type field), nodes)
  | WArithmetic op l r =>
      if negb (is_some (num_of_string op)) then value_error "unknown arithmetic operator"
      else let? (l, nodes) := child l nodes in
           let? (r, nodes) := child r nodes in
           match expr_type l with
           | None => value_error "arithmetic left operand has no type"
           | Some t =>
               if negb (numeric_type t) || negb (bool_decide (Some t = expr_type r))
               then value_error "arithmetic operands require one exact numeric type"
               else Ok (Arithmetic op l r, nodes)
           end
  | WNegate e =>
      let? (e, nodes) := child e nodes in
      if match expr_type e with Some t => negb (numeric_type t) | None => true end
      then value_error "negate operand must be numeric"
      else Ok (Negate e, nodes)
  | WCall function arguments options =>
      if (256 <? length arguments)%nat then value_error "call exceeds argument-count limit"
      else if match options with None | Some (JObject []) => false | _ => true end
      then value_error "filter function does not accept options"
      else let? function := function_name function in
           let? (arguments, nodes) := exprs arguments nodes in
           let? e := bind_call function arguments in Ok (e, nodes)
  | WRuntimeFilter algorithm input artifact_ref null_handling =>
      if negb root then value_error "runtime_filter may appear only at predicate root"
      else let? _ := validate_identity algorithm in
           if negb (known_algorithm algorithm) then value_error "unknown runtime-filter algorithm"
           else if negb (String.eqb null_handling "pass" || String.eqb null_handling "reject")
           then value_error "invalid runtime_filter null_handling"
           else let? _ := payload p "artifact" artifact_ref in
                let? (_, nodes) := child input nodes in
                Ok (RuntimeFilter, nodes)
  end.

Definition predicate_mode (mode : string) (delta : bool) : result PredicateMode RpcError :=
  if String.eqb mode "required" then
    if delta then value_error "delta upserts must be advisory" else Ok Required
  else if String.eqb mode "advisory" then Ok Advisory
  else value_error "unknown predicate mode".

(** [Parser::predicate]. *)
Definition predicate (p : Parser) (wire : WirePredicate) (delta : bool) (nodes : Z) :
    result (Predicate * Z) RpcError :=
  let? _ := validate_id (wp_id wire) in
  let? mode := predicate_mode (wp_mode wire) delta in
  if negb (known_source (wp_source wire)) then value_error "unknown predicate source"
  else let? (e, nodes) := expression p (wp_expression wire) 1 true nodes in
  if is_runtime_filter e && negb (bool_decide (mode = Advisory))
  then value_error "runtime_filter predicates must be advisory"
  else if negb (is_runtime_filter e) && negb (is_boolean e)
  then value_error "predicate root must resolve to BOOLEAN"
  else
  let profile := default "" (schema_metadata (ps_batch p) !! "vgi_evaluation_context") in
  if String.eqb profile NO_CONTEXT && requires_context e
  then value_error "context-dependent expression requires session context"
  else Ok (mkPredicate (wp_id wire) (wp_revision wire) mode e, nodes).

(** The children of a node, in order. *)
Definition expressions (p : Parser) (depth : Z) : list WireExpr → Z → result (list Expr * Z) RpcError :=
  fix exprs (l : list WireExpr) (nodes : Z) : result (list Expr * Z) RpcError :=
    match l with
    | [] => Ok ([], nodes)
    | w :: l =>
        let? (e, nodes) := expression p w depth false nodes in
        let? (es, nodes) := exprs l nodes in
        Ok (e :: es, nodes)
    end.

(** * Typing *)

(** What the parser guarantees of an expression over the output schema [s]. *)
Inductive typed (s : Schema) : Expr → DataType → Prop :=
| T_column i f : s !! i = Some f → typed s (Column i (name f) (data_type f)) (data_type f)
| T_field e fs i f : typed s e (Struct fs) → fs !! i = Some f →
    typed s (FieldRef e i (name f) (data_type f)) (data_type f)
| T_literal v : wf_array v → len v = 1%nat → typed s (Literal v) (arr_type v)
| T_comparison op o l r tl tr : cmp_of_string op = Some o → typed s l tl → typed s r tr →
    logical_value_type tl = logical_value_type tr → typed s (Comparison op l r) Boolean
| T_and l : Forall (λ e, typed s e Boolean) l → typed s (And l) Boolean
| T_or l : Forall (λ e, typed s e Boolean) l → typed s (Or l) Boolean
| T_not e : typed s e Boolean → typed s (Not e) Boolean
| T_is_null e t b : typed s e t → typed s (IsNull e b) Boolean
| T_in e t v b : typed s e t → wf_array v → logical_value_type t = logical_value_type (arr_type v) →
    typed s (In e v b) Boolean
| T_cast e t t' : typed s e t → typed s (Cast e t') t'
| T_arithmetic op o l r t : num_of_string op = Some o → typed s l t → typed s r t →
    numeric_type t = true → typed s (Arithmetic op l r) t
| T_negate e t : typed s e t → numeric_type t = true → typed s (Negate e) t
| T_string_call f l r : typed s l Utf8 → typed s r Utf8 → typed s (Call f [l; r]) Boolean
| T_list_call l r f : typed s l (List f) → typed s r (data_type f) →
    typed s (Call "list_contains" [l; r]) Boolean.

Lemma typed_type s e t : typed s e t → expr_type e = Some t.
Proof. induction 1; done. Qed.

Lemma typed_det s e t t' : typed s e t → typed s e t' → t = t'.
Proof. intros H%typed_type H'%typed_type. congruence. Qed.

(** The batches a parser is given: one row of payloads, and join keys. *)
Record wf_parser (p : Parser) : Prop := {
  wfp_batch : wf_batch (ps_batch p);
  wfp_row : num_rows (ps_batch p) = 1%nat;
  wfp_keys : Forall wf_batch (ps_join_keys p);
}.

Lemma wf_batch_lookup b i f c : wf_batch b → schema b !! i = Some f → columns b !! i = Some c →
  arr_type c = data_type f ∧ wf_array c ∧ len c = num_rows b.
Proof. intros W Hf Hc. destruct (Forall2_lookup_lr _ _ _ _ _ _ W Hf Hc) as (? & ? & ? & _). done. Qed.

Lemma payload_wf p prefix r f a : wf_parser p → payload p prefix r = Ok (f, a) →
  wf_array a ∧ len a = 1%nat ∧ arr_type a = data_type f.
Proof.
  intros [Wb Wr _]. unfold payload. destruct (find_field _ _) as [[i f']|] eqn:Ef; [|done].
  destruct (columns _ !! i) as [c|] eqn:Ec; [|done]. intros [= -> ->].
  apply list_find_Some in Ef as (Ef & _).
  destruct (wf_batch_lookup _ _ _ _ Wb Ef Ec) as (? & ? & ?). by rewrite <- Wr.
Qed.

Lemma list_value_wf f a v : arr_type a = List f ∨ arr_type a = LargeList f → wf_array a →
  list_value f a = Ok v → wf_array v.
Proof.
  intros Ht (Hf & _) E. unfold list_value in E. case_match; [done|]. injection E as <-.
  apply wf_plain. destruct (vals a !! 0%nat) as [[[]|]|] eqn:Ev; try done.
  rewrite Forall_lookup in Hf. specialize (Hf _ _ Ev). cbn [cell_type] in Hf.
  assert (forallb (λ o, match o with None => true | Some v => has_type (data_type f) v end) l = true) as Hl.
  { destruct Ht as [Ht|Ht]; rewrite Ht in Hf; exact Hf. }
  apply Forall_forall. intros o Ho. rewrite forallb_forall in Hl. by apply Hl, list_elem_of_In.
Qed.

Lemma set_values_wf p set v : wf_parser p → set_values p set = Ok v → wf_array v.
Proof.
  intros W. destruct set as [r|bi ci cn]; simpl.
  - destruct (payload p "value" r) as [[f a]|] eqn:E; [|done].
    destruct (payload_wf _ _ _ _ _ W E) as (Wa & _ & _).
    destruct (arr_type a) eqn:Ht; try done; intros Hv; eapply list_value_wf; eauto.
  - destruct W as [_ _ Wk]. destruct (ps_join_keys p !! _) as [b|] eqn:Eb; [|done].
    destruct (schema b !! _) as [f|] eqn:Ef; [|done]. destruct (columns b !! _) as [c|] eqn:Ec; [|done].
    case_match; [done|]. intros [= <-]. rewrite Forall_lookup in Wk. specialize (Wk _ _ Eb).
    by destruct (wf_batch_lookup _ _ _ _ Wk Ef Ec) as (? & ? & ?).
Qed.

Section WireExpr_rect.
Context (P : WireExpr → Prop).
Context (Hcol : ∀ i n, P (WColumnRef i n)) (Hfield : ∀ e i n, P e → P (WFieldRef e i n))
  (Hlit : ∀ v, P (WLiteral v)) (Hcmp : ∀ op l r, P l → P r → P (WComparison op l r))
  (Hand : ∀ l, Forall P l → P (WAnd l)) (Hor : ∀ l, Forall P l → P (WOr l))
  (Hnot : ∀ e, P e → P (WNot e)) (Hnull : ∀ e b, P e → P (WIsNull e b))
  (Hin : ∀ e v b, P e → P (WIn e v b)) (Hcast : ∀ e t, P e → P (WCast e t))
  (Harith : ∀ op l r, P l → P r → P (WArithmetic op l r)) (Hneg : ∀ e, P e → P (WNegate e))
  (Hcall : ∀ f l o, Forall P l → P (WCall f l o)) (Hrt : ∀ a e r n, P e → P (WRuntimeFilter a e r n)).

(** Induction on wire expressions, through the lists of children. *)
Fixpoint WireExpr_nested_ind (w : WireExpr) : P w :=
  let all := fix all (l : list WireExpr) : Forall P l :=
    match l with [] => Forall_nil_2 P | e :: l => Forall_cons_2 P e l (WireExpr_nested_ind e) (all l) end in
  match w with
  | WColumnRef i n => Hcol i n
  | WFieldRef e i n => Hfield e i n (WireExpr_nested_ind e)
  | WLiteral v => Hlit v
  | WComparison op l r => Hcmp op l r (WireExpr_nested_ind l) (WireExpr_nested_ind r)
  | WAnd l => Hand l (all l)
  | WOr l => Hor l (all l)
  | WNot e => Hnot e (WireExpr_nested_ind e)
  | WIsNull e b => Hnull e b (WireExpr_nested_ind e)
  | WIn e v b => Hin e v b (WireExpr_nested_ind e)
  | WCast e t => Hcast e t (WireExpr_nested_ind e)
  | WArithmetic op l r => Harith op l r (WireExpr_nested_ind l) (WireExpr_nested_ind r)
  | WNegate e => Hneg e (WireExpr_nested_ind e)
  | WCall f l o => Hcall f l o (all l)
  | WRuntimeFilter a e r n => Hrt a e r n (WireExpr_nested_ind e)
  end.
End WireExpr_rect.

(** The nesting depth and the number of nodes of an expression. *)
Fixpoint height (e : Expr) : nat :=
  match e with
  | Column _ _ _ | Literal _ | RuntimeFilter => 1
  | FieldRef e _ _ _ | Not e | IsNull e _ | In e _ _ | Cast e _ | Negate e => S (height e)
  | Comparison _ l r | Arithmetic _ l r => S (Nat.max (height l) (height r))
  | And l | Or l | Call _ l => S (foldr (λ e n, Nat.max (height e) n) 0%nat l)
  end.

Fixpoint node_count (e : Expr) : nat :=
  match e with
  | Column _ _ _ | Literal _ | RuntimeFilter => 1
  | FieldRef e _ _ _ | Not e | IsNull e _ | In e _ _ | Cast e _ | Negate e => S (node_count e)
  | Comparison _ l r | Arithmetic _ l r => S (node_count l + node_count r)
  | And l | Or l | Call _ l => S (foldr (λ e n, node_count e + n)%nat 0%nat l)
  end.

(** What a call of [expression] that returns [e] from count [n] to [n'] gives. *)
Record parsed (p : Parser) (d : Z) (root : bool) (n : Z) (e : Expr) (n' : Z) : Prop := {
  ps_typed : (root = true ∧ e = RuntimeFilter) ∨ ∃ t, typed (ps_schema p) e t;
  ps_height : Z.of_nat (height e) + d ≤ MAX_DEPTH + 1;
  ps_count : n + Z.of_nat (node_count e) ≤ n';
  ps_limit : n' ≤ MAX_NODES;
}.

Record parsed_list (p : Parser) (d n : Z) (es : list Expr) (n' : Z) : Prop := {
  pl_typed : Forall (λ e, ∃ t, typed (ps_schema p) e t) es;
  pl_height : Forall (λ e, Z.of_nat (height e) + d ≤ MAX_DEPTH + 1) es;
  pl_count : n + Z.of_nat (foldr (λ e m, node_count e + m)%nat 0%nat es) ≤ n';
  pl_limit : n ≤ MAX_NODES → n' ≤ MAX_NODES;
}.

Abbreviation parses p w := (∀ d root n e n', expression p w d root n = Ok (e, n') → parsed p d root n e n').

Lemma expressions_parsed p d l n es n' :
  Forall (λ w, parses p w) l → expressions p d l n = Ok (es, n') → parsed_list p d n es n'.
Proof.
  intros IH. induction IH as [|w l Hw _ IHl] in n, es, n' |- *; cbn [expressions].
  { intros [= <- <-]. split; [constructor|constructor|simpl; lia|done]. }
  destruct (expression p w d false n) as [[e m]|] eqn:Ew; [|done].
  fold (expressions p d). destruct (expressions p d l m) as [[es' m']|] eqn:El; [|done].
  intros [= <- <-]. destruct (Hw _ _ _ _ _ Ew) as [Ht Hh Hc Hm], (IHl _ _ _ El) as [It Ih Ic Im].
  destruct Ht as [[? _]|Ht]; [done|].
  split; [by constructor|by constructor|simpl; lia|auto].
Qed.

Lemma height_list d l : Forall (λ e, Z.of_nat (height e) + (d + 1) ≤ MAX_DEPTH + 1) l → d ≤ MAX_DEPTH →
  Z.of_nat (S (foldr (λ e n, Nat.max (height e) n) 0%nat l)) + d ≤ MAX_DEPTH + 1.
Proof. intros H Hd. induction H; simpl in *; lia. Qed.

Lemma bind_column_typed p i n e : bind_column p i n = Ok e →
  (∃ t, typed (ps_schema p) e t) ∧ height e = 1%nat ∧ node_count e = 1%nat.
Proof.
  unfold bind_column, to_usize, nonempty. destruct (String.length n =? 0)%nat; [done|].
  destruct (ps_schema p !! _) as [f|] eqn:Ef; [|done].
  destruct (String.eqb_spec (name f) n) as [<-|]; [|done]. intros [= <-]. split; [|done].
  eexists. by constructor.
Qed.

Lemma bind_field_typed p e i n e' : (∃ t, typed (ps_schema p) e t) → bind_field e i n = Ok e' →
  (∃ t, typed (ps_schema p) e' t) ∧ height e' = S (height e) ∧ node_count e' = S (node_count e).
Proof.
  intros [t Ht]. unfold bind_field, to_usize, nonempty. destruct (String.length n =? 0)%nat; [done|].
  rewrite (typed_type _ _ _ Ht). destruct t; try done.
  destruct (fs !! _) as [f|] eqn:Ef; [|done].
  destruct (String.eqb_spec (name f) n) as [<-|]; [|done]. intros [= <-]. split; [|done].
  eexists. by econstructor.
Qed.

Lemma is_boolean_typed s e : (∃ t, typed s e t) → is_boolean e = true → typed s e Boolean.
Proof.
  intros [t Ht] E. unfold is_boolean in E. apply bool_decide_eq_true in E.
  rewrite (typed_type _ _ _ Ht) in E. by injection E as ->.
Qed.

Lemma booleans_typed s l : Forall (λ e, ∃ t, typed s e t) l → forallb is_boolean l = true →
  Forall (λ e, typed s e Boolean) l.
Proof.
  intros H. induction H; simpl; [constructor|]. intros [? ?]%andb_true_iff.
  constructor; [by apply is_boolean_typed|auto].
Qed.

Lemma bind_call_typed s f l e : Forall (λ e, ∃ t, typed s e t) l → bind_call f l = Ok e →
  e = Call f l ∧ ∃ t, typed s e t.
Proof.
  intros Hl. unfold bind_call. destruct l as [|a [|b [|]]]; try done.
  apply Forall_cons in Hl as [[ta Ha] Hl]. apply Forall_cons in Hl as [[tb Hb] _].
  pose proof (typed_type _ _ _ Ha) as Ea. pose proof (typed_type _ _ _ Hb) as Eb.
  destruct (String.eqb_spec f "list_contains") as [->|Hf].
  - rewrite Ea, Eb. destruct ta; try done. case_decide as E; [|done]. intros He.
    assert (e = Call "list_contains" [a; b]) as -> by congruence. split; [done|].
    injection E as <-. eexists. by econstructor.
  - cbn [existsb]. rewrite Ea, Eb. repeat case_bool_decide; try done; simplify_eq.
    intros He. assert (e = Call f [a; b]) as -> by (simpl in He; congruence). split; [done|].
    eexists. by constructor.
Qed.

Lemma parsed_child p w d n e n' : parses p w → expression p w d false n = Ok (e, n') →
  (∃ t, typed (ps_schema p) e t) ∧ Z.of_nat (height e) + d ≤ MAX_DEPTH + 1 ∧
  n + Z.of_nat (node_count e) ≤ n' ∧ n' ≤ MAX_NODES.
Proof. intros Hw E. destruct (Hw _ _ _ _ _ E) as [[[? _]|?] ? ? ?]; done. Qed.

Ltac child_ok E IH :=
  destruct (parsed_child _ _ _ _ _ _ IH E) as ([? ?] & ? & ? & ?).

Lemma parses_binary p op l r : parses p l → parses p r →
  parses p (WComparison op l r) ∧ parses p (WArithmetic op l r).
Proof.
  intros Hl Hr. split; intros d root n e n' H; cbn [expression] in H; inv_ok H;
    child_ok E2 Hl; child_ok E3 Hr.
  - injection H as <- <-. unfold same_logical in E4. destruct (cmp_of_string op) as [o|] eqn:Eo; [|done].
    apply negb_false_iff, bool_decide_eq_true in E4. erewrite !typed_type in E4 by eauto.
    injection E4 as E4. split; simpl; try lia. right. eexists. by econstructor.
  - erewrite (typed_type _ e0) in H by eauto. inv_ok H. injection H as <- <-.
    destruct (num_of_string op) as [o|] eqn:Eo; [|done].
    apply orb_false_iff in E4 as [E4 E5]. apply negb_false_iff in E4, E5.
    apply bool_decide_eq_true in E5. erewrite (typed_type _ e1) in E5 by eauto. simplify_eq.
    split; simpl; try lia. right. eexists. by econstructor.
Qed.

Lemma parses_unary p w : parses p w →
  parses p (WNot w) ∧ parses p (WNegate w) ∧ (∀ b, parses p (WIsNull w b)) ∧
  (∀ i n, parses p (WFieldRef w i n)).
Proof.
  intros Hw. split_and!.
  - intros d root n e n' H. cbn [expression] in H. inv_ok H. child_ok E1 Hw. injection H as <- <-.
    apply negb_false_iff in E2. split; simpl; try lia. right. eexists.
    constructor. apply is_boolean_typed; eauto.
  - intros d root n e n' H. cbn [expression] in H. inv_ok H. child_ok E1 Hw. injection H as <- <-.
    erewrite typed_type in E2 by eauto. apply negb_false_iff in E2.
    split; simpl; try lia. right. eexists. by constructor.
  - intros b d root n e n' H. cbn [expression] in H. inv_ok H. child_ok E1 Hw. injection H as <- <-.
    split; simpl; try lia. right. eexists. by econstructor.
  - intros i nm d root n e n' H. cbn [expression] in H. inv_ok H. child_ok E1 Hw.
    injection H as <- <-.
    destruct (bind_field_typed p _ _ _ _ (ex_intro _ _ H0) E2) as (Ht & Hh & Hc).
    split; rewrite ?Hh, ?Hc; try lia. by right.
Qed.

Lemma parses_literal p r : wf_parser p → parses p (WLiteral r).
Proof.
  intros W d root n e n' H. cbn [expression] in H. inv_ok H. injection H as <- <-.
  destruct (payload_wf _ _ _ _ _ W E1) as (? & ? & _). split; simpl; try lia.
  right. eexists. by constructor.
Qed.

Lemma parses_payload p w : wf_parser p → parses p w →
  (∀ set b, parses p (WIn w set b)) ∧ (∀ r, parses p (WCast w r)).
Proof.
  intros W Hw. split_and!.
  - intros set b d root n e n' H. cbn [expression] in H. inv_ok H. child_ok E1 Hw. injection H as <- <-.
    pose proof (set_values_wf _ _ _ W E2) as Wa. unfold same_logical in E3.
    apply negb_false_iff, bool_decide_eq_true in E3. erewrite typed_type in E3 by eauto.
    injection E3 as E3. split; simpl; try lia. right. eexists. by econstructor.
  - intros r d root n e n' H. cbn [expression] in H. inv_ok H. child_ok E3 Hw. injection H as <- <-.
    split; simpl; try lia. right. eexists. by econstructor.
Qed.

Lemma parses_list p l : Forall (λ w, parses p w) l →
  parses p (WAnd l) ∧ parses p (WOr l) ∧ (∀ f o, parses p (WCall f l o)).
Proof.
  intros Hl. split_and!.
  - intros d root n e n' H. cbn [expression] in H. fold (expressions p (d + 1)) in H. inv_ok H.
    destruct (expressions_parsed _ _ _ _ _ _ Hl E2) as [Ht Hh Hc Hm]. injection H as <- <-.
    apply negb_false_iff in E3. split; [|apply height_list; [done|lia]|simpl; lia|lia].
    right. eexists. constructor. by apply booleans_typed.
  - intros d root n e n' H. cbn [expression] in H. fold (expressions p (d + 1)) in H. inv_ok H.
    destruct (expressions_parsed _ _ _ _ _ _ Hl E2) as [Ht Hh Hc Hm]. injection H as <- <-.
    apply negb_false_iff in E3. split; [|apply height_list; [done|lia]|simpl; lia|lia].
    right. eexists. constructor. by apply booleans_typed.
  - intros f o d root n e n' H. cbn [expression] in H. fold (expressions p (d + 1)) in H. inv_ok H.
    destruct (expressions_parsed _ _ _ _ _ _ Hl E4) as [Ht Hh Hc Hm]. injection H as <- <-.
    destruct (bind_call_typed _ _ _ _ Ht E5) as [-> Ht'].
    split; [by right|apply height_list; [done|lia]|simpl; lia|lia].
Qed.

Lemma expression_parsed p w : wf_parser p → parses p w.
Proof.
  intros W. induction w using WireExpr_nested_ind.
  - intros d root m e n' H. cbn [expression] in H. inv_ok H. injection H as <- <-.
    destruct (bind_column_typed _ _ _ _ E1) as (Ht & Hh & Hc).
    split; rewrite ?Hh, ?Hc; try lia. by right.
  - by apply parses_unary.
  - by apply parses_literal.
  - by apply parses_binary.
  - by apply parses_list.
  - by apply parses_list.
  - by apply parses_unary.
  - by apply parses_unary.
  - by apply parses_payload.
  - by apply parses_payload.
  - by apply parses_binary.
  - by apply parses_unary.
  - by apply parses_list.
  - intros d root m e n' H. cbn [expression] in H. inv_ok H. child_ok E6 IHw. injection H as <- <-.
    apply negb_false_iff in E1. split; simpl; try lia. by left.
Qed.
