(* ===== verification/PushdownEval.v ===== *)
(** Theorems on the filter parser and evaluator of [vgi/src/pushdown.rs]: a
    parsed expression evaluates to an array of its type and of the batch's
    length, and on the expressions pruning supports the vectorised evaluator
    never fails and agrees with row-at-a-time SQL semantics. *)
From S2P Require Import Prelude Float64 Arrow ArrowModel SqlCompare Pushdown PushdownParse.

Open Scope Z_scope.

(** A batch with the bind output schema. *)
Definition conforms (s : Schema) (b : RecordBatch) : Prop := schema b = s ∧ wf_batch b.

Lemma resolve_conforms s b i f : conforms s b → s !! i = Some f → resolve_column b i (name f) = Ok i.
Proof. intros [<- _] Hf. unfold resolve_column. by rewrite Hf, bool_decide_true by done. Qed.

Lemma conforms_column s b i f : conforms s b → s !! i = Some f →
  ∃ c, columns b !! i = Some c ∧ arr_type c = data_type f ∧ wf_array c ∧ len c = num_rows b ∧
       (is_nullable f = false → null_count c = 0%nat).
Proof.
  intros [<- W] Hf. destruct (Forall2_lookup_l _ _ _ _ _ W Hf) as (c & Hc & ? & ? & ? & ?). eauto 10.
Qed.

Lemma eval_column_conforms `{Arrow} s b i f : conforms s b → s !! i = Some f →
  ∃ c, eval_column b i (name f) (data_type f) = Ok c ∧ columns b !! i = Some c ∧
       arr_type c = data_type f ∧ wf_array c ∧ len c = num_rows b.
Proof.
  intros Hb Hf. destruct (conforms_column _ _ _ _ Hb Hf) as (c & Hc & Ht & Hw & Hl & _).
  exists c. unfold eval_column. rewrite (resolve_conforms _ _ _ _ Hb Hf).
  destruct Hb as [-> _]. rewrite Hf, Hc. by rewrite decide_True.
Qed.

(** * Types of the parts *)

Lemma struct_has_type fs l i f v : has_type (Struct fs) (VStruct l) = true → fs !! i = Some f →
  mjoin (l !! i) = Some v → has_type (data_type f) v = true.
Proof.
  cbn [has_type logical_value_type]. induction l as [|o l IH] in fs, i |- *; [done|].
  destruct fs as [|g fs]; [done|]. intros [Ho Hl]%andb_true_iff. destruct i as [|i]; simpl.
  - intros [= ->]. destruct o; [|done]. by intros [= ->].
  - intros. by eapply IH.
Qed.

Lemma struct_child_wf p fs i f : wf_array p → arr_type p = Struct fs → fs !! i = Some f →
  wf_array (plain_array (data_type f) (struct_child i <$> vals p)).
Proof.
  intros (Ht & _) Hp Hf. apply wf_plain, Forall_fmap. eapply Forall_impl; [exact Ht|].
  intros [v|]; [|done]. rewrite Hp. cbn [cell_type]. intros Hv. simpl.
  destruct v; try done. simpl. destruct (mjoin (l !! i)) as [w|] eqn:E; [|done].
  by eapply struct_has_type.
Qed.

Lemma to_bool_ok a b : to_bool a = Ok b → arr_type a = Boolean ∧ length b = len a ∧ b = as_bool <$> vals a.
Proof.
  unfold to_bool, downcast_bools. case_decide; [|done]. intros [= <-]. by rewrite length_fmap.
Qed.

Lemma bool_cells a : wf_array a → arr_type a = Boolean → vals a = (λ o : option bool, VBool <$> o) <$> (as_bool <$> vals a).
Proof.
  intros (Ht & _) E. rewrite E in Ht. rewrite <- list_fmap_compose. rewrite <- (list_fmap_id (vals a)) at 1.
  apply list_fmap_ext. intros i o Ho. rewrite Forall_lookup in Ht. specialize (Ht _ _ Ho).
  destruct o as [v|]; [|done]. by destruct v.
Qed.

Lemma to_bool_of_bools l : to_bool (of_bools l) = Ok l.
Proof. unfold to_bool. by rewrite downcast_of_bools. Qed.

Lemma fit_rows_same `{Arrow} v n : len v = n → fit_rows v n = Ok v.
Proof. intros <-. unfold fit_rows. by rewrite Nat.eqb_refl. Qed.

Section eval.
Context `{ArrowLaws}.

Lemma repeat_scalar_ok v n a : wf_array v → repeat_scalar v n = Ok a →
  arr_type a = arr_type v ∧ len a = n ∧ wf_array a ∧ ∃ o, vals v = [o] ∧ vals a = replicate n o.
Proof.
  intros W. unfold repeat_scalar. destruct (len v =? 1)%nat eqn:El; [|done]. apply Nat.eqb_eq in El.
  unfold len in El. destruct (vals v) as [|o [|]] eqn:Ev; try done.
  destruct (arrow_take_repeat v o n W Ev) as (c & Hc & Ht & Hv & Hw). simpl. rewrite Hc. intros [= <-].
  unfold len. rewrite Hv, length_replicate. eauto 10.
Qed.

Lemma repeat_scalar_total v o n : wf_array v → vals v = [o] → ∃ a, repeat_scalar v n = Ok a.
Proof.
  intros W Ev. destruct (arrow_take_repeat v o n W Ev) as (c & Hc & _).
  exists c. unfold repeat_scalar, len. rewrite Ev. simpl. by rewrite Hc.
Qed.

Lemma fit_rows_ok v n a : wf_array v → fit_rows v n = Ok a →
  arr_type a = arr_type v ∧ len a = n ∧ wf_array a.
Proof.
  intros W. unfold fit_rows. case_match eqn:E; [apply Nat.eqb_eq in E; intros [= <-]; done|].
  intros Hr. destruct (repeat_scalar_ok _ _ _ W Hr) as (? & ? & ? & _). done.
Qed.

Lemma and_kleene_ok a b c : length a = length b → and_kleene a b = Ok c → c = zip_with kleene_and a b.
Proof. intros Hl. unfold and_kleene. rewrite arrow_and_kleene_spec by done. by intros [= <-]. Qed.

Lemma or_kleene_ok a b c : length a = length b → or_kleene a b = Ok c → c = zip_with kleene_or a b.
Proof. intros Hl. unfold or_kleene. rewrite arrow_or_kleene_spec by done. by intros [= <-]. Qed.

(** [in_loop] keeps one cell per row. *)
Lemma in_loop_length c v idx acc b : wf_array c → wf_array v → length acc = len c →
  Forall (λ i, i < len v)%nat idx → in_loop c v idx acc = Ok b → length b = len c.
Proof.
  intros Wc Wv Hacc Hidx. induction idx as [|i idx IH] in acc, Hacc, Hidx |- *; cbn [in_loop].
  { by intros [= <-]. }
  apply Forall_cons in Hidx as [Hi Hidx]. intros E. inv_ok E.
  destruct (lookup_lt_is_Some_2 _ _ Hi) as [o Ho].
  assert (wf_array (slice v i 1)) as Ws by (by apply wf_slice).
  destruct (repeat_scalar_ok _ _ _ Ws E0) as (_ & Hl & Wa & _).
  destruct (compare_arrays_length _ _ _ _ Wc Wa E1) as [_ Hl'].
  assert (length a0 = len c) as Hc by (rewrite Hl', Hl; unfold bcast_len; by case_match).
  eapply IH; [|done|exact E]. apply or_kleene_ok in E2; [|congruence]. subst. rewrite length_zip_with. lia.
Qed.

Lemma in_list_length v values b : wf_array v → wf_array values → in_list v values = Ok b →
  length b = len v.
Proof.
  intros Wv Ws. unfold in_list.
  destruct (dictionary_values_spec v Wv) as (v' & -> & _ & Hv & Wv').
  destruct (dictionary_values_spec values Ws) as (s' & -> & _ & _ & Ws').
  intros E. unfold len in *. rewrite <- Hv. eapply in_loop_length; [exact Wv'|exact Ws'| | |exact E].
  - unfold all_false; by rewrite length_replicate.
  - apply Forall_forall. intros i Hi%elem_of_seq. unfold len. lia.
Qed.

Lemma broadcast_ok l r l' r' : wf_array l → wf_array r → broadcast l r = Ok (l', r') →
  wf_array l' ∧ wf_array r' ∧ arr_type l' = arr_type l ∧ arr_type r' = arr_type r ∧
  len l' = len r' ∧ len l' = bcast_len (len l) (len r).
Proof.
  intros Wl Wr. unfold broadcast, bcast_len. destruct (len l =? len r)%nat eqn:E0.
  { apply Nat.eqb_eq in E0. intros [= -> ->]. case_match; auto 10. }
  destruct (len l =? 1)%nat eqn:E1; [|destruct (len r =? 1)%nat; [|done]]; intros E; inv_ok E;
    injection E as <- <-.
  - destruct (repeat_scalar_ok _ _ _ Wl E2) as (? & ? & ? & _). auto 10.
  - destruct (repeat_scalar_ok _ _ _ Wr E2) as (? & ? & ? & _). auto 10.
Qed.

Lemma eval_field_ok parent i fs f a : wf_array parent → arr_type parent = Struct fs → fs !! i = Some f →
  eval_field parent i (name f) (data_type f) = Ok a →
  arr_type a = data_type f ∧ len a = len parent ∧ wf_array a.
Proof.
  intros W Hp Hf. unfold eval_field. rewrite Hp, Hf, String.eqb_refl. cbn [negb].
  rewrite decide_True by done. intros E.
  destruct (arrow_set_nulls _ _) as [c|] eqn:Es; [|done]. injection E as <-.
  pose proof (struct_child_wf _ _ _ _ W Hp Hf) as Wc.
  apply arrow_set_nulls_shape in Es as (? & Hl & ?); [|done|].
  - split_and!; try done. rewrite Hl. unfold len; simpl. by rewrite length_fmap.
  - unfold len; simpl. rewrite length_zip_with, !length_fmap. destruct W as (_ & Hl & _). lia.
Qed.

(** Arithmetic only on [Float64], the one type it is evaluated at. *)
Fixpoint float_arithmetic (e : Expr) : bool :=
  match e with
  | Column _ _ _ | Literal _ | RuntimeFilter => true
  | FieldRef e _ _ _ | Not e | IsNull e _ | In e _ _ | Cast e _ => float_arithmetic e
  | Negate e => bool_decide (expr_type e = Some Float64) && float_arithmetic e
  | Arithmetic _ l r => bool_decide (expr_type l = Some Float64) && float_arithmetic l && float_arithmetic r
  | Comparison _ l r => float_arithmetic l && float_arithmetic r
  | And l | Or l | Call _ l => forallb float_arithmetic l
  end.

(** Evaluating [e] gives arrays of type [t] with a cell per row. *)
Definition shaped (e : Expr) (t : DataType) (b : RecordBatch) : Prop :=
  ∀ a, eval e b = Ok a → arr_type a = t ∧ len a = num_rows b ∧ wf_array a.

Lemma shaped_bools b x : length b = num_rows x →
  arr_type (of_bools b) = Boolean ∧ len (of_bools b) = num_rows x ∧ wf_array (of_bools b).
Proof. intros Hl. rewrite len_of_bools. split_and!; [done|done|apply wf_of_bools]. Qed.

Lemma eval_bool_length e b x : shaped e Boolean b → eval_bool e b = Ok x → length x = num_rows b.
Proof.
  intros Hs. unfold eval_bool. intros E. inv_ok E. destruct (Hs _ E0) as (_ & Hl & _).
  apply to_bool_ok in E as (_ & E & _). congruence.
Qed.

Lemma fold_bool_length op b l acc x :
  (∀ u v w, length u = length v → op u v = Ok w → length w = length u) →
  Forall (λ e, shaped e Boolean b) l → length acc = num_rows b → fold_bool op b l acc = Ok x →
  length x = num_rows b.
Proof.
  intros Hop Hl. induction Hl as [|e l He _ IH] in acc |- *; cbn [fold_bool].
  { by intros Ha [= <-]. }
  intros Ha E. fold (fold_bool op b) in E. inv_ok E. pose proof (eval_bool_length _ _ _ He E0) as Hx.
  eapply IH; [|exact E]. apply Hop in E1; congruence.
Qed.

Lemma and_kleene_length u v w : length u = length v → and_kleene u v = Ok w → length w = length u.
Proof. intros Hl E. apply and_kleene_ok in E as ->; [|done]. rewrite length_zip_with. lia. Qed.
Lemma or_kleene_length u v w : length u = length v → or_kleene u v = Ok w → length w = length u.
Proof. intros Hl E. apply or_kleene_ok in E as ->; [|done]. rewrite length_zip_with. lia. Qed.

(** The operand of a comparison: a literal as it is, anything else evaluated. *)
Definition operand (e : Expr) (b : RecordBatch) : result array RpcError :=
  match e with Literal v => Ok v | _ => eval e b end.

Lemma operand_shape s e t b a : typed s e t → shaped e t b → operand e b = Ok a →
  arr_type a = t ∧ wf_array a ∧ (len a = num_rows b ∨ len a = 1%nat ∧ ∃ v, e = Literal v).
Proof.
  intros Ht Hs E. destruct Ht; try (destruct (Hs _ E) as (? & ? & ?); auto).
  cbn in E. injection E as <-. eauto 10.
Qed.

Lemma compare_shape s op l r tl tr b : typed s l tl → typed s r tr → shaped l tl b → shaped r tr b →
  shaped (Comparison op l r) Boolean b.
Proof.
  intros Tl Tr Hl Hr a E. cbn [eval] in E. fold (operand l b) in E. fold (operand r b) in E. inv_ok E.
  eapply fit_rows_ok in E as (? & ? & ?); [|apply wf_of_bools]. auto.
Qed.

Lemma arithmetic_ok l r op a : wf_array l → wf_array r → arithmetic l r op = Ok a →
  arr_type a = Float64 ∧ len a = bcast_len (len l) (len r) ∧ wf_array a.
Proof.
  intros Wl Wr E. unfold arithmetic in E. inv_ok E.
  destruct (broadcast_ok _ _ _ _ Wl Wr E0) as (Wl' & Wr' & _ & _ & _ & Hlen).
  destruct (arrow_cast a0 Float64) as [x|] eqn:Ex; [|done]. injection E1 as <-.
  destruct (arrow_cast a1 Float64) as [y|] eqn:Ey; [|done]. injection E2 as <-.
  apply arrow_cast_shape in Ex as (? & ? & ?); [|done]. apply arrow_cast_shape in Ey as (? & ? & ?); [|done].
  destruct (num_of_string op); [|done]. destruct (arrow_numeric _ _ _) as [z|] eqn:Ez; [|done].
  injection E as <-. apply arrow_numeric_shape in Ez as (? & ? & ?); [|done..].
  split; [done|]. split; [congruence|done].
Qed.

Lemma negate_ok v a : wf_array v → negate v = Ok a → arr_type a = Float64 ∧ len a = len v ∧ wf_array a.
Proof.
  intros W E. unfold negate in E. inv_ok E. destruct (arrow_cast v Float64) as [x|] eqn:Ex; [|done].
  injection E0 as <-. apply arrow_cast_shape in Ex as (? & ? & ?); [|done].
  destruct (arrow_neg x) as [z|] eqn:Ez; [|done]. injection E as <-.
  apply arrow_neg_shape in Ez as (? & ? & ?); [|done..]. split; [done|]. split; [congruence|done].
Qed.

Lemma string_call_length f l r b : wf_array l → wf_array r → string_call f l r = Ok b →
  length b = bcast_len (len l) (len r).
Proof.
  intros Wl Wr E. unfold string_call in E. inv_ok E.
  destruct (broadcast_ok _ _ _ _ Wl Wr E0) as (_ & _ & _ & _ & Heq & Hlen).
  unfold downcast_strings in E. repeat case_decide; try done. injection E as <-.
  rewrite length_zip_with, !length_fmap. unfold len in *. lia.
Qed.

Lemma bcast_len_id n : bcast_len n n = n.
Proof. unfold bcast_len. by case_match. Qed.

Lemma shaped_list b s l :
  Forall (λ e, ∀ t, typed s e t → float_arithmetic e = true → shaped e t b) l →
  Forall (λ e, typed s e Boolean) l → forallb float_arithmetic l = true →
  Forall (λ e, shaped e Boolean b) l.
Proof.
  intros IH Ht. induction Ht; inversion_clear IH; simpl; [constructor|].
  intros [? ?]%andb_true_iff. constructor; auto.
Qed.

Lemma shaped_unary e b : shaped e Boolean b → shaped (Not e) Boolean b.
Proof.
  intros He a E. cbn [eval] in E. change (let? a := eval e b in to_bool a) with (eval_bool e b) in E.
  inv_ok E. rewrite arrow_not_spec in E1. injection E1 as <-. injection E as <-.
  apply shaped_bools. rewrite length_fmap. by eapply eval_bool_length.
Qed.

Lemma shaped_in e t v b : wf_array v → shaped e t b → ∀ neg, shaped (In e v neg) Boolean b.
Proof.
  intros Wv He neg a E. cbn [eval] in E. inv_ok E. destruct (He _ E0) as (_ & Hl & Wa).
  apply in_list_length in E1; [|done|done]. destruct neg.
  - inv_ok E. rewrite arrow_not_spec in E2. injection E2 as <-. injection E as <-.
    apply shaped_bools. rewrite length_fmap. congruence.
  - injection E as <-. apply shaped_bools. congruence.
Qed.

Lemma shaped_is_null e t b : shaped e t b → ∀ neg, shaped (IsNull e neg) Boolean b.
Proof.
  intros He neg a E. cbn [eval] in E. inv_ok E. destruct (He _ E0) as (_ & Hl & _). injection E as <-.
  apply shaped_bools. destruct neg; rewrite ?arrow_is_null_spec, ?arrow_is_not_null_spec in E1;
    injection E1 as <-; by rewrite length_fmap.
Qed.

Lemma shaped_arithmetic op l r tl tr b : shaped l tl b → shaped r tr b →
  shaped (Arithmetic op l r) Float64 b.
Proof.
  intros Hl Hr a E. cbn [eval] in E. inv_ok E.
  destruct (Hl _ E0) as (_ & L1 & W1), (Hr _ E1) as (_ & L2 & W2).
  destruct (arithmetic_ok _ _ _ _ W1 W2 E) as (? & L & ?). rewrite L1, L2, bcast_len_id in L. auto.
Qed.

Lemma shaped_negate e t b : shaped e t b → shaped (Negate e) Float64 b.
Proof.
  intros He a E. cbn [eval] in E. inv_ok E. destruct (He _ E0) as (_ & L & W).
  destruct (negate_ok _ _ W E) as (? & ? & ?). split; [done|]. split; [congruence|done].
Qed.

Lemma shaped_call f l r tl tr b : shaped l tl b → shaped r tr b → shaped (Call f [l; r]) Boolean b.
Proof.
  intros Hl Hr a E. cbn [eval] in E. inv_ok E. injection E as <-.
  destruct (Hl _ E1) as (_ & L1 & W1), (Hr _ E2) as (_ & L2 & W2).
  apply string_call_length in E3; [|done|done]. rewrite L1, L2, bcast_len_id in E3. by apply shaped_bools.
Qed.

(** Evaluation keeps types: by induction on the expression. *)
Lemma eval_shaped s b e t : conforms s b → typed s e t → float_arithmetic e = true → shaped e t b.
Proof.
  intros Hb. revert t. induction e using Expr_nested_ind; intros t' Ht Hf; inversion Ht; subst.
  - rename select (s !! _ = Some _) into Hlk.
    intros a E. destruct (eval_column_conforms _ _ _ _ Hb Hlk) as (c & Hc & _ & ? & ? & ?).
    cbn [eval] in E. rewrite Hc in E. by injection E as <-.
  - rename select (typed s e _) into Te. rename select (_ !! _ = Some _) into Hlk.
    intros a E. cbn [eval] in E. inv_ok E. destruct (IHe _ Te Hf _ E0) as (Hp & Hl & Wp).
    destruct (eval_field_ok _ _ _ _ _ Wp Hp Hlk E) as (? & ? & ?). split; [done|]. split; [congruence|done].
  - intros a E. cbn [eval] in E. by apply fit_rows_ok in E.
  - apply andb_true_iff in Hf as [? ?]. eapply compare_shape; eauto.
  - intros a E. rewrite eval_And in E. inv_ok E. injection E as <-. apply shaped_bools.
    eapply (fold_bool_length and_kleene); [apply and_kleene_length|by eapply shaped_list| |exact E0].
    unfold all_true. by rewrite length_replicate.
  - intros a E. rewrite eval_Or in E. inv_ok E. injection E as <-. apply shaped_bools.
    eapply (fold_bool_length or_kleene); [apply or_kleene_length|by eapply shaped_list| |exact E0].
    unfold all_false. by rewrite length_replicate.
  - apply shaped_unary. auto.
  - eapply shaped_is_null. eauto.
  - eapply shaped_in; eauto.
  - rename select (typed s e _) into Te.
    intros a E. cbn [eval] in E. inv_ok E. destruct (IHe _ Te Hf _ E0) as (_ & Hl & W).
    destruct (arrow_cast _ _) as [x|] eqn:Ex; [|done]. injection E as <-.
    apply arrow_cast_shape in Ex as (? & ? & ?); [|done]. split; [done|]. split; [congruence|done].
  - cbn [float_arithmetic] in Hf. rewrite !andb_true_iff, bool_decide_eq_true in Hf.
    destruct Hf as [[Hl Hl'] Hr]. erewrite typed_type in Hl by eauto. injection Hl as ->.
    eapply shaped_arithmetic; eauto.
  - cbn [float_arithmetic] in Hf. rewrite andb_true_iff, bool_decide_eq_true in Hf.
    destruct Hf as [Hl Hf]. erewrite typed_type in Hl by eauto. injection Hl as ->.
    eapply shaped_negate; eauto.
  - inversion_clear H1 as [|?? IHl IHr']. inversion_clear IHr' as [|?? IHr _].
    simpl in Hf. rewrite !andb_true_iff in Hf. destruct Hf as (? & ? & _). eapply shaped_call; eauto.
  - inversion_clear H1 as [|?? IHl IHr']. inversion_clear IHr' as [|?? IHr _].
    simpl in Hf. rewrite !andb_true_iff in Hf. destruct Hf as (? & ? & _). eapply shaped_call; eauto.
Qed.
End eval.
