(* ===== verification/PushdownPruning.v ===== *)
(** Pruning with pushed filters, [vgi/src/pushdown/pruning.rs]: the conservative
    domain of a column and the test whether a row of known columns may match.
    Three truth values with the same tables serve both. *)
From S2P Require Import Prelude Float64 Arrow ArrowModel SqlCompare Pushdown PushdownParse PushdownEval.

Open Scope Z_scope.

(** * Domains *)

(** [std::ops::Bound] of one-element non-NULL arrays. *)
Inductive Bound := Included (a : array) | Excluded (a : array) | Unbounded.

Inductive NonNullDomain := Empty | All | Range (lower upper : Bound).

Record ColumnDomain := mkDomain {
  dom_type : DataType;
  non_null : NonNullDomain;
  may_be_null : bool;
}.

Definition is_empty (d : ColumnDomain) : bool :=
  match non_null d with Empty => negb (may_be_null d) | _ => false end.
Definition empty (d : ColumnDomain) : ColumnDomain := mkDomain (dom_type d) Empty false.
Definition only_null (d : ColumnDomain) : ColumnDomain := mkDomain (dom_type d) Empty (may_be_null d).
Definition without_null (d : ColumnDomain) : ColumnDomain := mkDomain (dom_type d) (non_null d) false.
Definition range (d : ColumnDomain) (lower upper : Bound) : ColumnDomain :=
  mkDomain (dom_type d) (Range lower upper) false.

(** [BooleanArray::value(i)]. *)
Definition bool_at (b : BooleanArray) (i : nat) : bool := default false (mjoin (b !! i)).

Definition is_excluded (b : Bound) : bool := match b with Excluded _ => true | _ => false end.
(** [Ordering::then_with] and [bool::cmp]. *)
Definition then_with (a b : comparison) : comparison := match a with Eq => b | c => c end.

Section pruning.
Context `{Arrow}.

Definition scalar_order (l r : array) : result comparison RpcError :=
  let? eq := compare_arrays l r "eq" in
  if bool_at eq 0 then Ok Eq
  else let? lt := compare_arrays l r "lt" in
       if bool_at lt 0 then Ok Lt else Ok Gt.

Definition choose_bound (left right : Bound) (lower maximum : bool) : result Bound RpcError :=
  let? order :=
    (match left, right with
     | Unbounded, Unbounded => Ok Eq
     | Unbounded, _ => Ok (if lower then Lt else Gt)
     | _, Unbounded => Ok (if lower then Gt else Lt)
     | (Included l | Excluded l), (Included r | Excluded r) =>
         let? o := scalar_order l r in
         Ok (then_with o (let excluded := Bool.compare (is_excluded left) (is_excluded right) in
                          if lower then excluded else CompOpp excluded))
     end) in
  Ok (if Bool.eqb (bool_decide (order = Gt)) maximum then left else right).

(** The range between two bounds, or the empty or full domain it denotes. *)
Definition close_range (lower upper : Bound) : result NonNullDomain RpcError :=
  match lower, upper with
  | Unbounded, Unbounded => Ok All
  | Unbounded, _ | _, Unbounded => Ok (Range lower upper)
  | (Included l | Excluded l), (Included u | Excluded u) =>
      let? order := scalar_order l u in
      if bool_decide (order = Gt) ||
         (bool_decide (order = Eq) && (is_excluded lower || is_excluded upper))
      then Ok Empty else Ok (Range lower upper)
  end.

Definition combine_non_null (a b : NonNullDomain) (intersection : bool) : result NonNullDomain RpcError :=
  match a, b with
  | Range l1 u1, Range l2 u2 =>
      let? lower := choose_bound l1 l2 true intersection in
      let? upper := choose_bound u1 u2 false (negb intersection) in
      close_range lower upper
  | Empty, v | v, Empty => if intersection then Ok Empty else Ok v
  | All, v | v, All => if intersection then Ok v else Ok All
  end.

Definition combine (a b : ColumnDomain) (intersection : bool) : result ColumnDomain RpcError :=
  let? nn := combine_non_null (non_null a) (non_null b) intersection in
  Ok (mkDomain (dom_type a) nn
        (if intersection then may_be_null a && may_be_null b else may_be_null a || may_be_null b)).

(** [ColumnDomain::may_contain]. *)
Definition bound_mask (values : array) (b : Bound) (inclusive exclusive : string) :
    result BooleanArray RpcError :=
  match b with
  | Unbounded => Ok (all_true (len values))
  | Included a => compare_arrays values a inclusive
  | Excluded a => compare_arrays values a exclusive
  end.

Definition may_contain (d : ColumnDomain) (values : array) : result (list bool) RpcError :=
  let? values := dictionary_values values in
  if negb (bool_decide (arr_type values = dom_type d))
  then value_error "candidate type differs from column domain"
  else
  let? mask :=
    (match non_null d with
     | Empty => Ok (all_false (len values))
     | All => Ok (all_true (len values))
     | Range lower upper =>
         let? lo := bound_mask values lower "ge" "gt" in
         let? up := bound_mask values upper "le" "lt" in
         and_kleene lo up
     end) in
  Ok (imap (λ i o, if is_some o then bool_at mask i else may_be_null d) (vals values)).

(** * Truth values *)

(** SQL TRUE, FALSE and NULL: the indices 0, 1, 2. *)
Inductive Outcome := TRUE | FALSE | NULL.
#[global] Instance Outcome_eq_dec : EqDecision Outcome.
Proof. solve_decision. Defined.
Definition outcomes : list Outcome := [TRUE; FALSE; NULL].
Definition outcome_index (o : Outcome) : Z := match o with TRUE => 0 | FALSE => 1 | NULL => 2 end.
Definition outcome_bit (o : Outcome) : Z := Z.shiftl 1 (outcome_index o).
Definition UNKNOWN : Z := 7.

Definition truth (l r : Outcome) (and : bool) : Outcome :=
  if and then
    match l, r with
    | FALSE, _ | _, FALSE => FALSE
    | NULL, _ | _, NULL => NULL
    | _, _ => TRUE
    end
  else
    match l, r with
    | TRUE, _ | _, TRUE => TRUE
    | NULL, _ | _, NULL => NULL
    | _, _ => FALSE
    end.

Definition truth_sets (left right : Z) (and : bool) : Z :=
  foldl (λ result p, let '(l, r) := p in
    if negb (Z.land left (outcome_bit l) =? 0) && negb (Z.land right (outcome_bit r) =? 0)
    then Z.lor result (outcome_bit (truth l r and)) else result)
    0 (list_prod outcomes outcomes).

Definition negate_set (v : Z) : Z :=
  Z.lor (Z.lor (Z.shiftl (Z.land v 1) 1) (Z.shiftr (Z.land v 2) 1)) (Z.land v 4).

(** * What is supported *)

Fixpoint simple_value (e : Expr) : bool :=
  match e with
  | Column _ _ _ | Literal _ => true
  | FieldRef e _ _ _ => simple_value e
  | _ => false
  end.

Definition type_ordered (e : Expr) : bool :=
  match expr_type e with Some t => ordered t | None => false end.
Definition logical_boolean (e : Expr) : bool :=
  match expr_type e with Some t => bool_decide (logical_value_type t = Boolean) | None => false end.

Fixpoint supported (e : Expr) : bool :=
  match e with
  | And l | Or l => forallb supported l
  | Not e => supported e
  | Comparison _ l r => simple_value l && simple_value r && type_ordered l
  | In e _ _ => simple_value e && type_ordered e
  | IsNull e _ => simple_value e
  | Column _ _ _ | FieldRef _ _ _ _ | Literal _ => simple_value e && logical_boolean e
  | _ => false
  end.

Fixpoint available (e : Expr) (known : RecordBatch) : bool :=
  match e with
  | Column _ n _ => is_some (column_by_name known n)
  | Literal _ => true
  | FieldRef e _ _ _ | IsNull e _ | In e _ _ => available e known
  | Comparison _ l r => available l known && available r known
  | _ => false
  end.

Definition cell_outcome (o : option bool) : Outcome :=
  match o with Some true => TRUE | Some false => FALSE | None => NULL end.

Definition partial_leaf (e : Expr) (known : RecordBatch) : result (list Z) RpcError :=
  if supported e && available e known then
    let? b := eval_bool e known in Ok ((λ v, outcome_bit (cell_outcome v)) <$> b)
  else Ok (replicate (num_rows known) UNKNOWN).

Fixpoint partial (e : Expr) (known : RecordBatch) {struct e} : result (list Z) RpcError :=
  let fold (and : bool) := fix fold (l : list Expr) (acc : list Z) : result (list Z) RpcError :=
    match l with
    | [] => Ok acc
    | c :: l =>
        let? v := partial c known in
        fold l (zip_with (λ row value, truth_sets row value and) acc v)
    end in
  match e with
  | And l => fold true l (replicate (num_rows known) (outcome_bit TRUE))
  | Or l => fold false l (replicate (num_rows known) (outcome_bit FALSE))
  | Not e => let? v := partial e known in Ok (negate_set <$> v)
  | _ => partial_leaf e known
  end.

(** * Domains of expressions *)

(** [[ColumnDomain; 3]], one per outcome. *)
Record Domains := mkDomains { dom_true : ColumnDomain; dom_false : ColumnDomain; dom_null : ColumnDomain }.
Definition dom_at (d : Domains) (o : Outcome) : ColumnDomain :=
  match o with TRUE => dom_true d | FALSE => dom_false d | NULL => dom_null d end.
Definition dom_set (d : Domains) (o : Outcome) (c : ColumnDomain) : Domains :=
  match o with
  | TRUE => mkDomains c (dom_false d) (dom_null d)
  | FALSE => mkDomains (dom_true d) c (dom_null d)
  | NULL => mkDomains (dom_true d) (dom_false d) c
  end.
Definition swap (d : Domains) : Domains := mkDomains (dom_false d) (dom_true d) (dom_null d).

Definition constant_domains (outcome : option Outcome) (universe : ColumnDomain) : Domains :=
  let at_ o := if decide (outcome = Some o) then universe else empty universe in
  mkDomains (at_ TRUE) (at_ FALSE) (at_ NULL).

Definition all_domains (universe : ColumnDomain) : Domains := mkDomains universe universe universe.

Fixpoint combine_pairs (left right : Domains) (and : bool) (pairs : list (Outcome * Outcome))
    (acc : Domains) : result Domains RpcError :=
  match pairs with
  | [] => Ok acc
  | (l, r) :: pairs =>
      let outcome := truth l r and in
      let? both := combine (dom_at left l) (dom_at right r) true in
      let? joined := combine (dom_at acc outcome) both false in
      combine_pairs left right and pairs (dom_set acc outcome joined)
  end.

Definition combine_domains (left right : Domains) (and : bool) (universe : ColumnDomain) :
    result Domains RpcError :=
  combine_pairs left right and (list_prod outcomes outcomes) (constant_domains None universe).

Definition target (e : Expr) (column : string) : bool :=
  match e with Column _ n _ => String.eqb n column | _ => false end.

Definition reverse_op (op : string) : string :=
  if String.eqb op "lt" then "gt" else if String.eqb op "le" then "ge"
  else if String.eqb op "gt" then "lt" else if String.eqb op "ge" then "le" else op.

Definition comparison_domains (op : string) (value : array) (universe : ColumnDomain) :
    result Domains RpcError :=
  let? value := dictionary_values value in
  if negb (len value =? 1)%nat || negb (bool_decide (arr_type value = dom_type universe))
     || negb (ordered (arr_type value))
  then Ok (all_domains universe)
  else if is_null value 0 then
    Ok (if String.eqb op "distinct_from"
        then mkDomains (without_null universe) (only_null universe) (empty universe)
        else if String.eqb op "not_distinct_from"
        then mkDomains (only_null universe) (without_null universe) (empty universe)
        else constant_domains (Some NULL) universe)
  else
  let bound (included : bool) := if included then Included value else Excluded value in
  let point := range universe (Included value) (Included value) in
  let lower included := range universe (bound included) Unbounded in
  let upper included := range universe Unbounded (bound included) in
  let sides :=
    match cmp_of_string op with
    | Some (OpEq | OpNotDistinct) => Some (point, without_null universe)
    | Some (OpNe | OpDistinct) => Some (without_null universe, point)
    | Some OpLt => Some (upper false, lower true)
    | Some OpLe => Some (upper true, lower false)
    | Some OpGt => Some (lower false, upper true)
    | Some OpGe => Some (lower true, upper false)
    | None => None
    end in
  match sides with
  | None => Ok (all_domains universe)
  | Some (yes, no) =>
      let nullable d := mkDomain (dom_type d) (non_null d) (may_be_null universe) in
      Ok (if String.eqb op "distinct_from" then mkDomains (nullable yes) no (empty universe)
          else if String.eqb op "not_distinct_from" then mkDomains yes (nullable no) (empty universe)
          else mkDomains yes no (only_null universe))
  end.

Fixpoint in_domains (values : array) (idx : list nat) (universe : ColumnDomain) (acc : Domains) :
    result Domains RpcError :=
  match idx with
  | [] => Ok acc
  | i :: idx =>
      let? d := comparison_domains "eq" (slice values i 1) universe in
      let? acc := combine_domains acc d false universe in
      in_domains values idx universe acc
  end.

Fixpoint domains (e : Expr) (column : string) (universe : ColumnDomain) {struct e} :
    result Domains RpcError :=
  let fold (and : bool) := fix fold (l : list Expr) (acc : Domains) : result Domains RpcError :=
    match l with
    | [] => Ok acc
    | c :: l =>
        let? d := domains c column universe in
        let? acc := combine_domains acc d and universe in
        fold l acc
    end in
  match e with
  | And l => fold true l (constant_domains (Some TRUE) universe)
  | Or l => fold false l (constant_domains (Some FALSE) universe)
  | Not c => let? d := domains c column universe in Ok (swap d)
  | Comparison op l r =>
      if target l column then
        match r with
        | Literal v => comparison_domains op v universe
        | _ => Ok (all_domains universe)
        end
      else if target r column then
        match l with
        | Literal v => comparison_domains (reverse_op op) v universe
        | _ => Ok (all_domains universe)
        end
      else Ok (all_domains universe)
  | IsNull c negated =>
      if target c column then
        let d := mkDomains (only_null universe) (without_null universe) (empty universe) in
        Ok (if negated then swap d else d)
      else Ok (all_domains universe)
  | In c values negated =>
      if target c column then
        let? d := in_domains values (seq 0 (len values)) universe (constant_domains (Some FALSE) universe) in
        Ok (if negated then swap d else d)
      else Ok (all_domains universe)
  | Column _ _ _ =>
      if target e column && bool_decide (dom_type universe = Boolean)
      then comparison_domains "eq" (of_bools [Some true]) universe
      else Ok (all_domains universe)
  | Literal v =>
      if bool_decide (arr_type v = Boolean) && (len v =? 1)%nat
      then Ok (constant_domains (Some (cell_outcome (mjoin (as_bool <$> vals v !! 0%nat)))) universe)
      else Ok (all_domains universe)
  | _ => Ok (all_domains universe)
  end.

(** * The entry points *)

Definition pruning_field (f : PushdownFilters) (n : string) : result Field RpcError :=
  match filter (λ x, name x = n) (output_schema f) with
  | [] => value_error ("unknown pruning column: " +:+ n)
  | [x] => Ok x
  | _ => value_error ("ambiguous pruning column: " +:+ n)
  end.

Definition universe_of (field : Field) : ColumnDomain :=
  mkDomain (logical_value_type (data_type field))
    (if decide (data_type field = Null) then Empty else All)
    (is_nullable field || encoded (data_type field)).

Fixpoint domain_loop (ps : list Predicate) (column : string) (universe result_ : ColumnDomain) :
    result ColumnDomain RpcError :=
  match ps with
  | [] => Ok result_
  | p :: ps =>
      if bool_decide (p_mode p = Advisory) && negb (supported (p_expression p))
      then domain_loop ps column universe result_
      else match domains (p_expression p) column universe with
           | Ok d => let? r := combine result_ (dom_true d) true in domain_loop ps column universe r
           | Err _ => domain_loop ps column universe result_
           end
  end.

Definition column_domain (f : PushdownFilters) (column : string) : result ColumnDomain RpcError :=
  let? field := pruning_field f column in
  domain_loop (predicates f) column (universe_of field) (universe_of field).

(** The checks of [may_match] on the known columns, left to right. *)
Fixpoint check_known (f : PushdownFilters) (names : gset string) (fields : list Field)
    (cols : list array) : result unit RpcError :=
  match fields, cols with
  | field :: fields, values :: cols =>
      if decide (name field ∈ names) then value_error "duplicate column in pruning input"
      else let? authoritative := pruning_field f (name field) in
      if negb (bool_decide (data_type authoritative = data_type field))
      then value_error "pruning input type differs from bind schema"
      else if negb (is_nullable authoritative) && (0 <? null_count values)%nat
      then value_error "NULL pruning input violates nonnullable bind field"
      else check_known f ({[name field]} ∪ names) fields cols
  | _, _ => Ok tt
  end.

Fixpoint match_loop (ps : list Predicate) (known : RecordBatch) (possible : list Z) : list Z :=
  match ps with
  | [] => possible
  | p :: ps =>
      if bool_decide (p_mode p = Advisory) && negb (supported (p_expression p))
      then match_loop ps known possible
      else match partial (p_expression p) known with
           | Ok current =>
               match_loop ps known (zip_with (λ row value, truth_sets row value true) possible current)
           | Err _ => match_loop ps known possible
           end
  end.

Definition may_match (f : PushdownFilters) (known : RecordBatch) : result (list bool) RpcError :=
  let? _ := check_known f ∅ (schema known) (columns known) in
  Ok ((λ p, negb (Z.land p 1 =? 0)) <$>
      match_loop (predicates f) known (replicate (num_rows known) (outcome_bit TRUE))).
End pruning.
