(* ===== verification/PushdownRow.v ===== *)
(** Row-at-a-time SQL semantics of the filter expressions pruning supports, and
    the theorem that the vectorised evaluator of [vgi/src/pushdown.rs] computes
    it: on such an expression evaluation never fails, and each row's truth value
    depends on that row only. *)
From S2P Require Import Prelude Float64 Arrow ArrowModel SqlCompare Pushdown PushdownParse PushdownEval.
From S2P Require Import PushdownPruning.

Open Scope Z_scope.

(** The cells of a row, by the index and name a column is bound to. *)
Abbreviation row := (nat → string → option value).

Definition row_cell (b : RecordBatch) (j : nat) : row := λ i n,
  match resolve_column b i n with
  | Ok k => mjoin (c ← columns b !! k; vals c !! j)
  | Err _ => None
  end.

Fixpoint row_value (e : Expr) (r : row) : option value :=
  match e with
  | Column i n _ => r i n
  | FieldRef e i _ _ => struct_child i (row_value e r)
  | Literal v => mjoin (vals v !! 0%nat)
  | _ => None
  end.

Section row_truth.
Context `{Arrow}.

Definition type_ord (e : Expr) : value → value → comparison :=
  match expr_type e with Some t => sql_ord t | None => λ _ _, Eq end.

(** SQL's three-valued truth of a supported predicate in a row. *)
Fixpoint row_truth (e : Expr) (r : row) : option bool :=
  match e with
  | And l => foldl (λ acc c, kleene_and acc (row_truth c r)) (Some true) l
  | Or l => foldl (λ acc c, kleene_or acc (row_truth c r)) (Some false) l
  | Not e => negb <$> row_truth e r
  | Comparison op l x =>
      match cmp_of_string op with
      | Some o => sql_cell (type_ord l) o (row_value l r) (row_value x r)
      | None => None
      end
  | IsNull e negated => Some (Bool.eqb negated (is_some (row_value e r)))
  | In e values negated =>
      let found := foldl (λ acc y, kleene_or acc (sql_cell (type_ord e) OpEq (row_value e r) y))
                     (Some false) (vals values) in
      if negated then negb <$> found else found
  | e => as_bool (row_value e r)
  end.
End row_truth.

(** [P] of every column an expression reads. *)
Fixpoint reads (P : nat → string → DataType → Prop) (e : Expr) : Prop :=
  match e with
  | Column i n t => P i n t
  | FieldRef e _ _ _ | Not e | IsNull e _ | In e _ _ | Cast e _ | Negate e => reads P e
  | Comparison _ l r | Arithmetic _ l r => reads P l ∧ reads P r
  | And l | Or l | Call _ l => foldr (λ c Q, reads P c ∧ Q) True l
  | Literal _ | RuntimeFilter => True
  end.

(** Struct fields tested by the expression have a validity buffer. *)
Definition maskable_value (e : Expr) : bool :=
  match e with FieldRef _ _ _ t => maskable t | _ => true end.
Fixpoint maskable_fields (e : Expr) : bool :=
  match e with
  | And l | Or l => forallb maskable_fields l
  | Not e => maskable_fields e
  | IsNull e _ => maskable_value e
  | _ => true
  end.

(** A list that stands for [n] rows: one cell per row, or one for all. *)
Definition rep {A} (l : list A) (n : nat) (g : nat → A) : Prop :=
  (length l = n ∧ ∀ j, (j < n)%nat → l !! j = Some (g j)) ∨ (∃ y, l = [y] ∧ ∀ j, (j < n)%nat → g j = y).

Lemma bcast_rep {A B C} (f : A → B → C) l r n g h : rep l n g → rep r n h →
  bcast_ok (length l) (length r) = true ∧ rep (bcast f l r) n (λ j, f (g j) (h j)).
Proof.
  intros [[Ll Hl]|(y & -> & Hy)] [[Lr Hr]|(z & -> & Hz)].
  - split; [unfold bcast_ok; by rewrite Ll, Lr, Nat.eqb_refl|]. left. rewrite bcast_same by congruence.
    split; [rewrite length_zip_with; lia|]. intros j Hj. by rewrite lookup_zip_with, Hl, Hr.
  - split; [unfold bcast_ok; simpl; by rewrite orb_true_r|]. left. rewrite bcast_right.
    split; [by rewrite length_fmap|]. intros j Hj. by rewrite list_lookup_fmap, Hl, Hz.
  - split; [unfold bcast_ok; simpl; by rewrite orb_true_r|]. left. rewrite bcast_left.
    split; [by rewrite length_fmap|]. intros j Hj. by rewrite list_lookup_fmap, Hr, Hy.
  - split; [done|]. right. eexists. split; [done|]. intros j Hj. by rewrite Hy, Hz.
Qed.

Lemma fit_rep `{ArrowLaws} v n g : wf_array v → rep (vals v) n g →
  ∃ a, fit_rows v n = Ok a ∧ arr_type a = arr_type v ∧ wf_array a ∧ len a = n ∧
       ∀ j, (j < n)%nat → vals a !! j = Some (g j).
Proof.
  intros Wv [[Lv Hv]|(y & Hy & Hg)].
  { exists v. by rewrite fit_rows_same. }
  destruct (len v =? n)%nat eqn:E.
  - apply Nat.eqb_eq in E. exists v. rewrite fit_rows_same by done. do 4 (split; [done|]).
    intros j Hj. rewrite (Hg j Hj), Hy. unfold len in E. rewrite Hy in E. simpl in E. by destruct j; [|lia].
  - destruct (repeat_scalar_total v y n Wv Hy) as [a Ea].
    destruct (repeat_scalar_ok _ _ _ Wv Ea) as (? & ? & ? & y' & Hy' & Va). exists a. unfold fit_rows. rewrite E.
    do 4 (split; [done|]). intros j Hj. rewrite Va, (Hg j Hj). apply lookup_replicate. split; [congruence|done].
Qed.

Lemma fit_bools `{ArrowLaws} z n g : rep z n g →
  ∃ a, fit_rows (of_bools z) n = Ok a ∧ ∃ w, to_bool a = Ok w ∧ length w = n ∧
       ∀ j, (j < n)%nat → w !! j = Some (g j).
Proof.
  intros Hz. destruct (fit_rep (of_bools z) n (λ j, VBool <$> g j)) as (a & Ea & Ta & Wa & La & Va).
  { apply wf_of_bools. }
  { destruct Hz as [[Lz Hz]|(y & -> & Hy)]; [left|right].
    - split; [simpl; by rewrite length_fmap|]. intros j Hj. simpl. by rewrite list_lookup_fmap, Hz.
    - eexists. split; [done|]. intros j Hj. by rewrite Hy. }
  exists a. split; [done|]. exists (as_bool <$> vals a). unfold to_bool, downcast_bools.
  rewrite decide_True by done. split; [done|]. rewrite length_fmap. split; [done|].
  intros j Hj. rewrite list_lookup_fmap, (Va j Hj). simpl. by destruct (g j).
Qed.

Lemma literal_single v : len v = 1%nat → ∃ y, vals v = [y].
Proof. unfold len. destruct (vals v) as [|y [|]]; try done. by exists y. Qed.

Section rows.
Context `{ArrowLaws} (s : Schema) (b : RecordBatch).
Let n := num_rows b.

(** The column is there with its type. *)
Definition column_ok (i : nat) (nm : string) (t : DataType) : Prop :=
  ∃ k c, resolve_column b i nm = Ok k ∧ columns b !! k = Some c ∧
         eval_column b i nm t = Ok c ∧ arr_type c = t ∧ wf_array c ∧ len c = n.

Lemma simple_eval e t : typed s e t → simple_value e = true → maskable_value e = true →
  reads column_ok e →
  ∃ a, eval e b = Ok a ∧ arr_type a = t ∧ wf_array a ∧ len a = n ∧
       ∀ j, (j < n)%nat → vals a !! j = Some (row_value e (row_cell b j)).
Proof.
  intros Te. induction Te; try done; intros Hs Hm Hr.
  - destruct Hr as (k & c & Hk & Hc & Ec & Tc & Wc & Lc). exists c. cbn [eval]. rewrite Ec.
    repeat (split; [done|]). intros j Hj. cbn [row_value]. unfold row_cell. rewrite Hk, Hc.
    rewrite <- Lc in Hj. destruct (lookup_lt_is_Some_2 _ _ Hj) as [x Hx]. cbn. by rewrite Hx.
  - destruct IHTe as (p & Ep & Tp & Wp & Lp & Vp); [done| |done|].
    { destruct e; try done. simpl. apply typed_type in Te. simpl in Te. by injection Te as ->. }
    cbn [eval]. rewrite Ep. unfold eval_field. rewrite Tp, H1, String.eqb_refl. cbn [negb].
    rewrite decide_True by done. pose proof (struct_child_wf _ _ _ _ Wp Tp H1) as Wc.
    set (child := plain_array _ _) in *.
    assert (length (zip_with andb (valid p) (valid child)) = len child) as Lm.
    { destruct Wp as (_ & Lv & _), Wc as (_ & Lv' & _). rewrite length_zip_with, Lv, Lv'.
      unfold len, child; simpl. rewrite length_fmap. lia. }
    destruct (arrow_set_nulls_spec child (zip_with andb (valid p) (valid child)) Hm Wc Lm) as (a & Ea & Va).
    destruct (arrow_set_nulls_shape _ _ _ Ea Wc Lm) as (Ta & La & Wa).
    assert (len child = n) as Lc by (unfold len, child; simpl; by rewrite length_fmap).
    exists a. rewrite Ea. split; [done|]. split; [done|]. split; [done|]. split; [congruence|].
    intros j Hj. rewrite Va, lookup_zip_with. specialize (Vp j Hj). cbn [row_value].
    set (x := row_value e (row_cell b j)) in *. rewrite lookup_zip_with.
    destruct Wp as (_ & Lv & Ev). rewrite Ev by (by rewrite Tp). rewrite list_lookup_fmap, Vp.
    unfold child; simpl. rewrite !list_lookup_fmap, Vp. simpl. by destruct x as [[]|]; simpl; try destruct (mjoin _).
  - destruct (literal_single v H2) as [y Hy]. cbn [eval row_value]. apply fit_rep; [done|].
    right. exists y. split; [done|]. intros j _. by rewrite Hy.
Qed.

(** The operands of a comparison, and the comparison. *)
Lemma operand_eval e t : typed s e t → simple_value e = true → maskable_value e = true →
  reads column_ok e →
  ∃ a, operand e b = Ok a ∧ arr_type a = t ∧ wf_array a ∧
       rep (vals a) n (λ j, row_value e (row_cell b j)).
Proof.
  intros Te Hs Hm Hr. destruct (simple_eval e t Te Hs Hm Hr) as (a & Ea & Ta & Wa & La & Va).
  destruct e; try done; try (exists a; split; [done|]; split; [done|]; split; [done|]; by left).
  inversion Te; subst. exists v. split; [done|]. split; [done|]. split; [done|]. right.
  destruct (literal_single v) as [y Hy]; [done|]. exists y. split; [done|]. intros j _. cbn. by rewrite Hy.
Qed.

Lemma ordered_maskable e t : typed s e t → ordered t = true → maskable_value e = true.
Proof.
  intros Te Ho. destruct e; try done. apply typed_type in Te. injection Te as ->.
  unfold ordered in Ho. by destruct t as [[]| | | | | | | | | |].
Qed.

Lemma comparison_eval op o l r tl tr : cmp_of_string op = Some o → typed s l tl → typed s r tr →
  logical_value_type tl = logical_value_type tr → supported (Comparison op l r) = true →
  reads column_ok (Comparison op l r) →
  ∃ x, eval_bool (Comparison op l r) b = Ok x ∧ length x = n ∧
       ∀ j, (j < n)%nat → x !! j = Some (row_truth (Comparison op l r) (row_cell b j)).
Proof.
  intros Hop Tl Tr Hlog Hs [Rl Rr]. cbn [supported] in Hs. rewrite !andb_true_iff in Hs.
  destruct Hs as [[Sl Sr] Ho]. unfold type_ordered in Ho. rewrite (typed_type _ _ _ Tl) in Ho.
  assert (ordered tr = true) as Ho' by (by rewrite <- ordered_logical, <- Hlog, ordered_logical).
  destruct (operand_eval l tl Tl Sl (ordered_maskable _ _ Tl Ho) Rl) as (x & Ex & Tx & Wx & Vx).
  destruct (operand_eval r tr Tr Sr (ordered_maskable _ _ Tr Ho') Rr) as (y & Ey & Ty & Wy & Vy).
  unfold eval_bool. cbn [eval]. fold (operand l b). fold (operand r b). rewrite Ex, Ey.
  destruct (bcast_rep (sql_cell (sql_ord tl) o) _ _ _ _ _ Vx Vy) as [Hbc Hrep].
  rewrite (compare_arrays_spec x y op o) by (rewrite ?Tx, ?Ty; done). rewrite Tx.
  set (z := bcast _ _ _) in *. cbn [row_truth]. rewrite Hop. unfold type_ord. rewrite (typed_type _ _ _ Tl).
  fold n. destruct (fit_bools z n _ Hrep) as (a & -> & w & -> & Lw & Vw). exists w. done.
Qed.

(** What the evaluator computes on an expression. *)
Definition row_wise (e : Expr) : Prop :=
  ∃ x, eval_bool e b = Ok x ∧ length x = n ∧ ∀ j, (j < n)%nat → x !! j = Some (row_truth e (row_cell b j)).

Lemma simple_row_wise e : typed s e Boolean → simple_value e = true → reads column_ok e →
  ∃ x, eval_bool e b = Ok x ∧ length x = n ∧
       ∀ j, (j < n)%nat → x !! j = Some (as_bool (row_value e (row_cell b j))).
Proof.
  intros Te Hs Hr. destruct (simple_eval e Boolean Te Hs (ordered_maskable e Boolean Te eq_refl) Hr) as (a & Ea & Ta & Wa & La & Va).
  exists (as_bool <$> vals a). unfold eval_bool. rewrite Ea. unfold to_bool, downcast_bools.
  rewrite decide_True by done. split; [done|]. rewrite length_fmap. split; [done|].
  intros j Hj. by rewrite list_lookup_fmap, (Va j Hj).
Qed.

Lemma is_null_row_wise e t neg : typed s e t → simple_value e = true → maskable_value e = true →
  reads column_ok e → row_wise (IsNull e neg).
Proof.
  intros Te Hs Hm Hr. destruct (simple_eval e t Te Hs Hm Hr) as (a & Ea & Ta & Wa & La & Va).
  unfold row_wise, eval_bool. cbn [eval row_truth]. rewrite Ea.
  destruct neg; rewrite ?arrow_is_null_spec, ?arrow_is_not_null_spec; cbn [map_err];
    rewrite to_bool_of_bools; (eexists; split; [reflexivity|]); rewrite length_fmap; (split; [done|]);
    intros j Hj; rewrite list_lookup_fmap, (Va j Hj); cbn; by destruct (is_some _).
Qed.

Lemma not_row_wise e : row_wise e → row_wise (Not e).
Proof.
  intros (x & Ex & Lx & Vx). unfold row_wise, eval_bool. cbn [eval row_truth].
  change (let? a := eval e b in to_bool a) with (eval_bool e b). rewrite Ex, arrow_not_spec. cbn [map_err].
  rewrite to_bool_of_bools. eexists. split; [reflexivity|]. rewrite length_fmap. split; [done|].
  intros j Hj. by rewrite list_lookup_fmap, (Vx j Hj).
Qed.

Lemma fold_row_wise (k : option bool → option bool → option bool) op l acc g :
  (∀ u v, length u = length v → op u v = Ok (zip_with k u v)) →
  Forall row_wise l → length acc = n → (∀ j, (j < n)%nat → acc !! j = Some (g j)) →
  ∃ x, fold_bool op b l acc = Ok x ∧ length x = n ∧
       ∀ j, (j < n)%nat → x !! j = Some (foldl (λ a c, k a (row_truth c (row_cell b j))) (g j) l).
Proof.
  intros Hop Hl. induction Hl as [|e l (y & Ey & Ly & Vy) _ IH] in acc, g |- *; intros La Va.
  { exists acc. done. }
  cbn [fold_bool foldl]. rewrite Ey, (Hop acc y) by congruence.
  destruct (IH (zip_with k acc y) (λ j, k (g j) (row_truth e (row_cell b j)))) as (x & Ex & Lx & Vx).
  - rewrite length_zip_with. lia.
  - intros j Hj. by rewrite lookup_zip_with, (Va j Hj), (Vy j Hj).
  - exists x. done.
Qed.

Lemma connective_row_wise l : Forall row_wise l → row_wise (And l) ∧ row_wise (Or l).
Proof.
  intros Hl. split; unfold row_wise, eval_bool; rewrite ?eval_And, ?eval_Or; fold n; cbn [row_truth].
  - destruct (fold_row_wise kleene_and and_kleene l (all_true n) (λ _, Some true)) as (x & -> & Lx & Vx); [|done| | |].
    + intros u v Huv. unfold and_kleene. by rewrite arrow_and_kleene_spec.
    + apply length_replicate.
    + intros j Hj. by apply lookup_replicate.
    + rewrite to_bool_of_bools. eauto.
  - destruct (fold_row_wise kleene_or or_kleene l (all_false n) (λ _, Some false)) as (x & -> & Lx & Vx); [|done| | |].
    + intros u v Huv. unfold or_kleene. by rewrite arrow_or_kleene_spec.
    + apply length_replicate.
    + intros j Hj. by apply lookup_replicate.
    + rewrite to_bool_of_bools. eauto.
Qed.

(** The loop of [in_list], a value of the list at a time. *)
Lemma in_loop_row_wise t col vs idx acc g x :
  wf_array col → arr_type col = t → len col = n → ordered t = true →
  (∀ j, (j < n)%nat → vals col !! j = Some (x j)) →
  wf_array vs → logical_value_type (arr_type vs) = logical_value_type t →
  Forall (λ i, i < len vs)%nat idx → length acc = n → (∀ j, (j < n)%nat → acc !! j = Some (g j)) →
  ∃ r, in_loop col vs idx acc = Ok r ∧ length r = n ∧
    ∀ j, (j < n)%nat → r !! j = Some (foldl (λ a i, kleene_or a (sql_cell (sql_ord t) OpEq (x j) (mjoin (vals vs !! i)))) (g j) idx).
Proof.
  intros Wc Tc Lc Ho Vc Wv Hl. induction idx as [|i idx IH] in acc, g |- *; intros Hidx La Va.
  { by exists acc. }
  apply Forall_cons in Hidx as [Hi Hidx]. destruct (lookup_lt_is_Some_2 _ _ Hi) as [y Hy].
  cbn [in_loop foldl]. pose proof (wf_slice vs i 1 Wv) as Ws.
  destruct (repeat_scalar_total (slice vs i 1) y (len col) Ws (slice_one _ _ _ Hy)) as [v Ev]. rewrite Ev.
  destruct (repeat_scalar_ok _ _ _ Ws Ev) as (Tv & Lv & Wv' & y' & Hy' & Vv).
  rewrite (slice_one _ _ _ Hy) in Hy'. injection Hy' as <-. simpl in Tv.
  rewrite (compare_arrays_spec col v "eq" OpEq); [|done|done|done|by rewrite Tc, Tv|by rewrite Tc|].
  2: { rewrite Lv. unfold bcast_ok. by rewrite Nat.eqb_refl. }
  rewrite Vv, bcast_same by (by rewrite length_replicate). rewrite Tc, Hy.
  set (z := zip_with _ _ _). assert (length z = n) as Lz.
  { unfold z. rewrite length_zip_with, length_replicate. unfold len in *. lia. }
  unfold or_kleene. rewrite arrow_or_kleene_spec by congruence. cbn [map_err].
  apply (IH _ (λ j, kleene_or (g j) (sql_cell (sql_ord t) OpEq (x j) (mjoin (Some y))))); [done| |].
  - rewrite length_zip_with. lia.
  - intros j Hj. rewrite lookup_zip_with, (Va j Hj). unfold z. rewrite lookup_zip_with, (Vc j Hj).
    cbn. by rewrite lookup_replicate_2 by congruence.
Qed.

Lemma lookup_seq_all {A} (l : list (option A)) : (λ i, mjoin (l !! i)) <$> seq 0 (length l) = l.
Proof.
  apply list_eq. intros i. rewrite list_lookup_fmap. destruct (decide (i < length l)%nat) as [Hi|Hi].
  - rewrite (proj2 (lookup_seq 0 (length l) i i)) by lia. cbn. by destruct (lookup_lt_is_Some_2 _ _ Hi) as [y ->].
  - rewrite lookup_ge_None_2, lookup_ge_None_2; [done|lia|rewrite length_seq; lia].
Qed.

Lemma foldl_seq_lookup {A B} (h : A → option B → A) (l : list (option B)) a :
  foldl (λ a i, h a (mjoin (l !! i))) a (seq 0 (length l)) = foldl h a l.
Proof.
  trans (foldl h a ((λ i, mjoin (l !! i)) <$> seq 0 (length l))); [|by rewrite lookup_seq_all].
  generalize (seq 0 (length l)). intros idx. revert a. induction idx; intros; simpl; auto.
Qed.

Lemma in_row_wise e t values neg : typed s e t → wf_array values →
  logical_value_type t = logical_value_type (arr_type values) →
  supported (In e values neg) = true → reads column_ok e → row_wise (In e values neg).
Proof.
  intros Te Wv Hl Hs Hr. cbn [supported] in Hs. rewrite andb_true_iff in Hs. destruct Hs as [Sv Ho].
  unfold type_ordered in Ho. rewrite (typed_type _ _ _ Te) in Ho.
  destruct (simple_eval e t Te Sv (ordered_maskable _ _ Te Ho) Hr) as (a & Ea & Ta & Wa & La & Va).
  destruct (dictionary_values_spec a Wa) as (a' & Ea' & Ta' & Va' & Wa').
  destruct (dictionary_values_spec values Wv) as (v' & Ev' & Tv' & Vv' & Wv').
  destruct (in_loop_row_wise (logical_value_type t) a' v' (seq 0 (len v')) (all_false (len a')) (λ _, Some false)
              (λ j, row_value e (row_cell b j))) as (r & Er & Lr & Vr).
  { done. } { congruence. } { unfold len in *. by rewrite Va'. } { by rewrite ordered_logical. }
  { by rewrite Va'. } { done. } { by rewrite Tv', <- Hl, !logical_idemp. }
  { apply Forall_forall. intros i Hi%elem_of_seq. lia. }
  { unfold all_false, len in *. by rewrite length_replicate, Va'. }
  { intros j Hj. apply lookup_replicate_2. unfold len in *. by rewrite Va', La. }
  unfold row_wise, eval_bool, in_list. cbn [eval row_truth]. rewrite Ea. unfold in_list.
  rewrite Ea', Ev', Er. unfold type_ord. rewrite (typed_type _ _ _ Te).
  assert (∀ j, (j < n)%nat → r !! j = Some (foldl (λ acc y, kleene_or acc
            (sql_cell (sql_ord t) OpEq (row_value e (row_cell b j)) y)) (Some false) (vals values))) as Vr'.
  { intros j Hj. rewrite (Vr j Hj). f_equal. unfold len. rewrite Vv', sql_ord_logical.
    apply (foldl_seq_lookup (λ acc y, kleene_or acc (sql_cell (sql_ord t) OpEq (row_value e (row_cell b j)) y))). }
  destruct neg; [rewrite arrow_not_spec; cbn [map_err]|]; rewrite to_bool_of_bools;
    (eexists; split; [reflexivity|]); rewrite ?length_fmap; (split; [done|]); intros j Hj;
    rewrite ?list_lookup_fmap, (Vr' j Hj); done.
Qed.

(** A supported expression never fails and is computed row by row. *)
Lemma supported_row_wise e : typed s e Boolean → supported e = true → maskable_fields e = true →
  reads column_ok e → row_wise e.
Proof.
  assert (∀ l, Forall (λ e, typed s e Boolean → supported e = true → maskable_fields e = true →
    reads column_ok e → row_wise e) l → Forall (λ e, typed s e Boolean) l → forallb supported l = true →
    forallb maskable_fields l = true → foldr (λ c Q, reads column_ok c ∧ Q) True l → Forall row_wise l) as Hlist.
  { intros l IH. induction IH as [|e0 l He _ IHl]; [constructor|]. intros Ht%Forall_cons. destruct Ht as [Te Ht].
    cbn. rewrite !andb_true_iff. intros [? ?] [? ?] [? ?]. constructor; auto. }
  induction e using Expr_nested_ind; intros Te Hs Hm Hr; try done.
  - apply (simple_row_wise _ Te); [done|exact Hr].
  - cbn [supported] in Hs. apply andb_true_iff in Hs as [Hs _]. by apply (simple_row_wise _ Te).
  - by apply (simple_row_wise _ Te).
  - inversion Te; subst. by eapply comparison_eval.
  - inversion Te; subst. apply connective_row_wise. by apply Hlist.
  - inversion Te; subst. apply connective_row_wise. by apply Hlist.
  - inversion Te; subst. apply not_row_wise. by apply IHe.
  - inversion Te; subst. by eapply is_null_row_wise.
  - inversion Te; subst. by eapply in_row_wise.
Qed.

Lemma conforms_reads e t : conforms s b → typed s e t → reads column_ok e.
Proof.
  intros Hb. revert t. assert (∀ l, Forall (λ e, ∀ t, typed s e t → reads column_ok e) l →
    Forall (λ e, typed s e Boolean) l → foldr (λ c Q, reads column_ok c ∧ Q) True l) as Hlist.
  { intros l IH Ht. induction Ht; [done|]. inversion_clear IH. split; [eauto|auto]. }
  induction e using Expr_nested_ind; intros u Te; inversion Te; subst; cbn; eauto.
  - rename select (s !! _ = Some _) into Hlk.
    destruct (eval_column_conforms _ _ _ _ Hb Hlk) as (c & Ec & Hc & ? & ? & ?).
    exists i, c. rewrite (resolve_conforms _ _ _ _ Hb Hlk). auto 10.
  - inversion_clear H1 as [|?? P1 P2]. inversion_clear P2 as [|?? P3 _]. eauto.
  - inversion_clear H1 as [|?? P1 P2]. inversion_clear P2 as [|?? P3 _]. eauto.
Qed.
End rows.
