(* ===== verification/PushdownDomain.v ===== *)
(** Soundness of column domains ([vgi/src/pushdown/pruning.rs]): the operations
    on domains are the set operations up to interval hulls, and the domain
    inferred for a column holds every value the column has in a row the filters
    accept. *)
From S2P Require Import Prelude Float64 Arrow ArrowModel SqlCompare Pushdown PushdownParse PushdownEval.
From S2P Require Import PushdownPruning PushdownRow.

Open Scope Z_scope.

Section domain.
Context `{ArrowLaws}.
Implicit Types (t : DataType).

(** * The order *)

Lemma sql_ord_eq_r t a b v : sql_ord t a b = Eq → sql_ord t v a = sql_ord t v b.
Proof.
  intros E. pose proof (sql_ord_sym t a b) as S1. pose proof (sql_ord_sym t v a) as S2.
  pose proof (sql_ord_sym t v b) as S3. rewrite E in S1. simpl in S1.
  pose proof (sql_ord_trans t v a b) as T1. pose proof (sql_ord_trans t v b a) as T2.
  pose proof (sql_ord_trans t a b v) as T3. pose proof (sql_ord_trans t b a v) as T4.
  rewrite E, S1, S2, S3 in *. destruct (sql_ord t v a), (sql_ord t v b); simpl in *;
    try done; exfalso; (apply T1; done) || (apply T2; done) || (apply T3; done) || (apply T4; done).
Qed.

Lemma sql_ord_lt_below t a b v : sql_ord t a b = Lt → sql_ord t v b ≠ Lt → sql_ord t v a = Gt.
Proof.
  intros E Hv. pose proof (sql_ord_sym t a b) as S1. pose proof (sql_ord_sym t v a) as S2.
  pose proof (sql_ord_sym t v b) as S3. pose proof (sql_ord_trans t b v a) as T1.
  rewrite E, S3 in *. simpl in *. rewrite S1 in T1.
  destruct (sql_ord t v a); [|exfalso|done]; try (destruct (sql_ord t v b); simpl in *; try done; exfalso; by apply T1).
Qed.

Lemma sql_ord_lt_above t a b v : sql_ord t a b = Lt → sql_ord t v a ≠ Gt → sql_ord t v b = Lt.
Proof.
  intros E Hv. destruct (sql_ord t v b) eqn:Eb; [exfalso|done|exfalso]; apply Hv;
    eapply sql_ord_lt_below; try done; by rewrite Eb.
Qed.

(** * Membership *)

(** The value of a one-element array. *)
Definition scalar_value (a : array) : option value := mjoin (head (vals a)).

Definition above (t : DataType) (b : Bound) (v : value) : bool :=
  match b with
  | Unbounded => true
  | Included a => match scalar_value a with Some l => negb (bool_decide (sql_ord t v l = Lt)) | None => true end
  | Excluded a => match scalar_value a with Some l => bool_decide (sql_ord t v l = Gt) | None => true end
  end.
Definition below (t : DataType) (b : Bound) (v : value) : bool :=
  match b with
  | Unbounded => true
  | Included a => match scalar_value a with Some u => negb (bool_decide (sql_ord t v u = Gt)) | None => true end
  | Excluded a => match scalar_value a with Some u => bool_decide (sql_ord t v u = Lt) | None => true end
  end.

Definition in_non_null (t : DataType) (n : NonNullDomain) (v : value) : bool :=
  match n with
  | Empty => false
  | All => true
  | Range lo up => above t lo v && below t up v
  end.

(** The set of cells a domain stands for. *)
Definition mem (d : ColumnDomain) (o : option value) : bool :=
  match o with None => may_be_null d | Some v => in_non_null (dom_type d) (non_null d) v end.

(** Endpoints are non-NULL scalars of the domain's type. *)
Definition wf_scalar (t : DataType) (a : array) : Prop :=
  wf_array a ∧ arr_type a = t ∧ ∃ v, vals a = [Some v].
Definition wf_bound (t : DataType) (b : Bound) : Prop :=
  match b with Unbounded => True | Included a | Excluded a => wf_scalar t a end.
Definition wf_non_null (t : DataType) (n : NonNullDomain) : Prop :=
  match n with Range lo up => ordered t = true ∧ wf_bound t lo ∧ wf_bound t up | _ => True end.
Definition wf_domain (t : DataType) (d : ColumnDomain) : Prop :=
  dom_type d = t ∧ wf_non_null t (non_null d).

Lemma wf_scalar_value t a : wf_scalar t a → ∃ v, scalar_value a = Some v ∧ vals a = [Some v].
Proof. intros (_ & _ & v & E). exists v. unfold scalar_value. by rewrite E. Qed.

Lemma scalar_order_spec t a b va vb : ordered t = true → wf_scalar t a → wf_scalar t b →
  scalar_value a = Some va → scalar_value b = Some vb → scalar_order a b = Ok (sql_ord t va vb).
Proof.
  intros Ho (Wa & Ta & x & Ea) (Wb & Tb & y & Eb). unfold scalar_value. rewrite Ea, Eb.
  intros [= ->] [= ->]. unfold scalar_order.
  assert (bcast_ok (len a) (len b) = true) as Hb by (unfold len; by rewrite Ea, Eb).
  rewrite (compare_arrays_spec a b "eq" OpEq), (compare_arrays_spec a b "lt" OpLt)
    by (done || congruence).
  rewrite Ea, Eb, Ta. unfold bool_at. simpl. by destruct (sql_ord t va vb).
Qed.

(** The chosen bound: the intersection or the union of the two half-lines.
    Two present endpoints first, by the order of their values. *)
Ltac half_line :=
  repeat case_bool_decide; simpl; try done; try congruence; simplify_eq.

Lemma above_mono t a b va vb v (ea eb : bool) : scalar_value a = Some va → scalar_value b = Some vb →
  sql_ord t va vb = Lt →
  above t (if eb then Excluded b else Included b) v = true →
  above t (if ea then Excluded a else Included a) v = true.
Proof.
  intros Ea Eb Hlt. destruct ea, eb; simpl; rewrite Ea, Eb; intros Hv;
    rewrite ?negb_true_iff, ?bool_decide_eq_true, ?bool_decide_eq_false in *;
    pose proof (sql_ord_lt_below t va vb v Hlt); intuition congruence.
Qed.

Lemma below_mono t a b va vb v (ea eb : bool) : scalar_value a = Some va → scalar_value b = Some vb →
  sql_ord t va vb = Lt →
  below t (if ea then Excluded a else Included a) v = true →
  below t (if eb then Excluded b else Included b) v = true.
Proof.
  intros Ea Eb Hlt. destruct ea, eb; simpl; rewrite Ea, Eb; intros Hv;
    rewrite ?negb_true_iff, ?bool_decide_eq_true, ?bool_decide_eq_false in *;
    pose proof (sql_ord_lt_above t va vb v Hlt); intuition congruence.
Qed.

Lemma andb_orb_implied (a b : bool) : (b = true → a = true) → a && b = b ∧ a || b = a.
Proof. destruct a, b; naive_solver. Qed.

Lemma choose_endpoints t a b (ea eb mx : bool) : ordered t = true → wf_scalar t a → wf_scalar t b →
  let l := if ea then Excluded a else Included a in
  let r := if eb then Excluded b else Included b in
  (∃ c, choose_bound l r true mx = Ok c ∧ (c = l ∨ c = r) ∧
     ∀ v, above t c v = if mx then above t l v && above t r v else above t l v || above t r v) ∧
  (∃ c, choose_bound l r false mx = Ok c ∧ (c = l ∨ c = r) ∧
     ∀ v, below t c v = if mx then below t l v || below t r v else below t l v && below t r v).
Proof.
  intros Ho Wa Wb. destruct (wf_scalar_value t a Wa) as (va & Ea & _), (wf_scalar_value t b Wb) as (vb & Eb & _).
  pose proof (scalar_order_spec t a b va vb Ho Wa Wb Ea Eb) as Eo. intros l r.
  assert (∀ lower, choose_bound l r lower mx = let o := then_with (sql_ord t va vb)
    (if lower then Bool.compare ea eb else CompOpp (Bool.compare ea eb)) in
    Ok (if Bool.eqb (bool_decide (o = Gt)) mx then l else r)) as Hc.
  { intros lower. unfold choose_bound, l, r. destruct ea, eb; by rewrite Eo. }
  destruct (sql_ord t va vb) eqn:E; split; rewrite Hc;
    (eexists; split; [reflexivity|split; [case_match; auto|]]); intros v; simpl.
  - pose proof (sql_ord_eq_r t va vb v E) as Ev. unfold l, r.
    destruct ea, eb, mx; simpl; rewrite ?Ea, ?Eb, ?Ev; by destruct (sql_ord t v vb).
  - pose proof (sql_ord_eq_r t va vb v E) as Ev. unfold l, r.
    destruct ea, eb, mx; simpl; rewrite ?Ea, ?Eb, ?Ev; by destruct (sql_ord t v vb).
  - destruct (andb_orb_implied _ _ (above_mono t a b va vb v ea eb Ea Eb E)) as [E1 E2].
    fold l r in E1, E2. rewrite E1, E2. by destruct mx.
  - destruct (andb_orb_implied _ _ (below_mono t a b va vb v ea eb Ea Eb E)) as [E1 E2].
    fold l r in E1, E2. rewrite (andb_comm (below t l v)), (orb_comm (below t l v)), E1, E2. by destruct mx.
  - assert (sql_ord t vb va = Lt) as E' by (rewrite (sql_ord_sym t va vb), E; done).
    destruct (andb_orb_implied _ _ (above_mono t b a vb va v eb ea Eb Ea E')) as [E1 E2].
    fold l r in E1, E2. rewrite (andb_comm (above t l v)), (orb_comm (above t l v)), E1, E2. by destruct mx.
  - assert (sql_ord t vb va = Lt) as E' by (rewrite (sql_ord_sym t va vb), E; done).
    destruct (andb_orb_implied _ _ (below_mono t b a vb va v eb ea Eb Ea E')) as [E1 E2].
    fold l r in E1, E2. rewrite E1, E2. by destruct mx.
Qed.

Lemma bound_cases b : b = Unbounded ∨ ∃ (e : bool) a, b = if e then Excluded a else Included a.
Proof. destruct b as [a|a|]; [right; by exists false, a|right; by exists true, a|by left]. Qed.

Lemma wf_bound_endpoint t (e : bool) a : wf_bound t (if e then Excluded a else Included a) → wf_scalar t a.
Proof. by destruct e. Qed.

Lemma choose_bound_spec t l r mx : ordered t = true → wf_bound t l → wf_bound t r →
  (∃ c, choose_bound l r true mx = Ok c ∧ wf_bound t c ∧
     ∀ v, above t c v = if mx then above t l v && above t r v else above t l v || above t r v) ∧
  (∃ c, choose_bound l r false mx = Ok c ∧ wf_bound t c ∧
     ∀ v, below t c v = if mx then below t l v || below t r v else below t l v && below t r v).
Proof.
  intros Ho Wl Wr. destruct (bound_cases l) as [->|(ea & a & El)], (bound_cases r) as [->|(eb & b & Er)].
  - split; eexists; (split; [reflexivity|]); (split; [by destruct mx|]); intros v; by destruct mx.
  - split; [exists (if mx then r else Unbounded)|exists (if mx then Unbounded else r)]; subst r;
      (split; [by destruct eb, mx|]); (split; [by destruct mx|]); intros v; by destruct mx.
  - split; [exists (if mx then l else Unbounded)|exists (if mx then Unbounded else l)]; subst l;
      (split; [by destruct ea, mx|]); (split; [by destruct mx|]); intros v; destruct mx; simpl;
      by rewrite ?orb_true_r, ?andb_true_r.
  - subst l r. destruct (choose_endpoints t a b ea eb mx Ho (wf_bound_endpoint _ _ _ Wl) (wf_bound_endpoint _ _ _ Wr))
      as [(c & Ec & Hc & Sc) (c' & Ec' & Hc' & Sc')].
    split; [exists c|exists c']; split; try done; split; try done; by destruct Hc, Hc'; subst.
Qed.

(** The emptiness test of a range is exact on the values it keeps. *)
Lemma empty_range t lo up (el eu : bool) : ordered t = true → wf_scalar t lo → wf_scalar t up →
  ∃ o, scalar_order lo up = Ok o ∧
    ((bool_decide (o = Gt) || (bool_decide (o = Eq) && (el || eu))) = true →
     ∀ v, above t (if el then Excluded lo else Included lo) v &&
          below t (if eu then Excluded up else Included up) v = false).
Proof.
  intros Ho Wl Wu. destruct (wf_scalar_value t lo Wl) as (a & Ea & _), (wf_scalar_value t up Wu) as (b & Eb & _).
  rewrite (scalar_order_spec t lo up a b Ho Wl Wu Ea Eb). eexists. split; [reflexivity|].
  intros Hg v. destruct (sql_ord t a b) eqn:E; try done.
  - pose proof (sql_ord_eq_r t a b v E) as Ev.
    destruct el, eu; try done; simpl; rewrite Ea, Eb, Ev; by destruct (sql_ord t v b).
  - assert (sql_ord t b a = Lt) as E' by (rewrite (sql_ord_sym t a b), E; done).
    pose proof (sql_ord_lt_below t b a v E') as Hv.
    destruct el, eu; simpl; rewrite Ea, Eb; destruct (sql_ord t v a), (sql_ord t v b); try done; naive_solver.
Qed.

Lemma close_range_spec t lo up : ordered t = true → wf_bound t lo → wf_bound t up →
  ∃ c, close_range lo up = Ok c ∧ wf_non_null t c ∧
    ∀ v, in_non_null t c v = above t lo v && below t up v.
Proof.
  intros Ho Wl Wu. destruct (bound_cases lo) as [->|(el & x & El)], (bound_cases up) as [->|(eu & y & Eu)].
  - by exists All.
  - exists (Range Unbounded up). subst up. by destruct eu.
  - exists (Range lo Unbounded). subst lo. by destruct el.
  - assert (wf_scalar t x) as Wx by (subst; by destruct el).
    assert (wf_scalar t y) as Wy by (subst; by destruct eu).
    destruct (empty_range t x y el eu Ho Wx Wy) as (o & Eo & Hempty).
    exists (if bool_decide (o = Gt) || (bool_decide (o = Eq) && (el || eu)) then Empty else Range lo up).
    split; [subst; unfold close_range; destruct el, eu; rewrite Eo; simpl; by case_match|].
    subst. destruct (_ || _) eqn:Eg; [|done]. split; [done|]. intros v. by rewrite Hempty.
Qed.

Lemma combine_non_null_spec t a b i : wf_non_null t a → wf_non_null t b →
  ∃ c, combine_non_null a b i = Ok c ∧ wf_non_null t c ∧
    ∀ v, (i = true → in_non_null t c v = in_non_null t a v && in_non_null t b v) ∧
         (i = false → in_non_null t a v || in_non_null t b v = true → in_non_null t c v = true).
Proof.
  intros Wa Wb. destruct a as [| |l1 u1], b as [| |l2 u2];
    try solve [destruct i; eexists; (split; [reflexivity|]); (split; [assumption || exact I|]);
      intros v; split; intros Hi; try discriminate Hi; simpl;
      rewrite ?andb_true_r, ?andb_false_r, ?orb_false_r, ?orb_true_r; done].
  destruct Wa as (Ho & Wl1 & Wu1), Wb as (_ & Wl2 & Wu2). cbn [combine_non_null].
  destruct (choose_bound_spec t l1 l2 i Ho Wl1 Wl2) as [(lo & -> & Wlo & Slo) _].
  destruct (choose_bound_spec t u1 u2 (negb i) Ho Wu1 Wu2) as [_ (up & -> & Wup & Sup)].
  destruct (close_range_spec t lo up Ho Wlo Wup) as (c & -> & Wc & Sc).
  exists c. split; [done|]. split; [done|]. intros v. rewrite Sc, Slo, Sup.
  split; intros ->; simpl; destruct (above t l1 v), (above t l2 v), (below t u1 v), (below t u2 v); done.
Qed.

(** Combining domains: exact intersection, and a union up to the hull. *)
Lemma combine_spec t a b i : wf_domain t a → wf_domain t b →
  ∃ c, combine a b i = Ok c ∧ wf_domain t c ∧
    ∀ o, (i = true → mem c o = mem a o && mem b o) ∧
         (i = false → mem a o || mem b o = true → mem c o = true).
Proof.
  intros [Ta Wa] [Tb Wb]. destruct (combine_non_null_spec t _ _ i Wa Wb) as (c & Ec & Wc & Sc).
  unfold combine. rewrite Ec. eexists. split; [reflexivity|]. split; [done|].
  intros [v|]; [|by split; intros ->]. unfold mem; simpl. rewrite Ta, Tb. apply Sc.
Qed.

(** * Domains per outcome *)

Definition wf_domains (t : DataType) (d : Domains) : Prop := ∀ o, wf_domain t (dom_at d o).

Lemma dom_at_set d o c o' : dom_at (dom_set d o c) o' = if decide (o' = o) then c else dom_at d o'.
Proof. by destruct o, o'. Qed.

Lemma dom_at_swap d o : dom_at (swap d) o = dom_at d (match o with TRUE => FALSE | FALSE => TRUE | NULL => NULL end).
Proof. by destruct o. Qed.

Lemma dom_at_constant o u o' : dom_at (constant_domains o u) o' = if decide (o = Some o') then u else empty u.
Proof. by destruct o'. Qed.

Lemma wf_empty t u : wf_domain t u → wf_domain t (empty u).
Proof. by intros [? _]. Qed.

Lemma wf_constant t o u : wf_domain t u → wf_domains t (constant_domains o u).
Proof. intros W o'. rewrite dom_at_constant. case_decide; [done|by apply wf_empty]. Qed.

Lemma wf_swap t d : wf_domains t d → wf_domains t (swap d).
Proof. intros W o. rewrite dom_at_swap. apply W. Qed.

Lemma combine_pairs_spec t l r and pairs acc : wf_domains t l → wf_domains t r → wf_domains t acc →
  ∃ d, combine_pairs l r and pairs acc = Ok d ∧ wf_domains t d ∧
    ∀ x, (∀ o, mem (dom_at acc o) x = true → mem (dom_at d o) x = true) ∧
         (∀ p q, (p, q) ∈ pairs → mem (dom_at l p) x = true → mem (dom_at r q) x = true →
            mem (dom_at d (truth p q and)) x = true).
Proof.
  intros Wl Wr. induction pairs as [|[p q] pairs IH] in acc |- *; intros Wa; cbn [combine_pairs].
  { exists acc. split; [done|]. split; [done|]. intros x. split; [done|]. intros p q Hp. by apply not_elem_of_nil in Hp. }
  destruct (combine_spec t _ _ true (Wl p) (Wr q)) as (both & -> & Wb & Sb).
  destruct (combine_spec t _ _ false (Wa (truth p q and)) Wb) as (joined & -> & Wj & Sj).
  destruct (IH (dom_set acc (truth p q and) joined)) as (d & Ed & Wd & Sd).
  { intros o. rewrite dom_at_set. case_decide; [done|apply Wa]. }
  exists d. split; [done|]. split; [done|]. intros x. destruct (Sd x) as [Sd1 Sd2].
  assert (∀ o, mem (dom_at acc o) x = true → mem (dom_at d o) x = true) as Hmono.
  { intros o Ho. apply Sd1. rewrite dom_at_set. case_decide as E; [|done]. subst o.
    destruct (Sj x) as [_ Sj']. apply Sj'; [done|]. by rewrite Ho. }
  split; [done|]. intros p' q' [[= -> ->]|Hin]%elem_of_cons Hp Hq; [|by apply Sd2].
  apply Sd1. rewrite dom_at_set, decide_True by done. destruct (Sj x) as [_ Sj'], (Sb x) as [Sb' _].
  apply Sj'; [done|]. rewrite Sb', Hp, Hq by done. by rewrite orb_true_r.
Qed.

Lemma combine_domains_spec t l r and u : wf_domains t l → wf_domains t r → wf_domain t u →
  ∃ d, combine_domains l r and u = Ok d ∧ wf_domains t d ∧
    ∀ x p q, mem (dom_at l p) x = true → mem (dom_at r q) x = true →
             mem (dom_at d (truth p q and)) x = true.
Proof.
  intros Wl Wr Wu.
  destruct (combine_pairs_spec t l r and (list_prod outcomes outcomes) (constant_domains None u) Wl Wr)
    as (d & Ed & Wd & Sd); [by apply wf_constant|].
  exists d. split; [done|]. split; [done|]. intros x p q. destruct (Sd x) as [_ Sd']. apply Sd'.
  apply list_elem_of_In, in_prod; destruct p, q; simpl; auto.
Qed.

(** * Comparisons *)

(** A universe: all non-NULL values, or none. *)
Definition is_universe (t : DataType) (u : ColumnDomain) : Prop :=
  dom_type u = logical_value_type t ∧ (non_null u = All ∨ non_null u = Empty).

Lemma universe_wf t u : is_universe t u → wf_domain (logical_value_type t) u.
Proof. intros [Ht [Hn|Hn]]; split; try done; by rewrite Hn. Qed.

(** The name of an operator. *)
Definition cmp_string (o : CmpOp) : string :=
  match o with
  | OpEq => "eq" | OpNe => "ne" | OpLt => "lt" | OpLe => "le" | OpGt => "gt" | OpGe => "ge"
  | OpDistinct => "distinct_from" | OpNotDistinct => "not_distinct_from"
  end.

Lemma cmp_of_string_inv op o : cmp_of_string op = Some o → op = cmp_string o.
Proof.
  unfold cmp_of_string. intros E.
  repeat match type of E with
  | (if String.eqb ?a ?b then _ else _) = _ =>
      destruct (String.eqb_spec a b); [by simplify_eq|]
  end. done.
Qed.

Lemma reverse_op_spec o : ∃ o', cmp_of_string (reverse_op (cmp_string o)) = Some o' ∧
  ∀ t x y, sql_cell (sql_ord t) o' x y = sql_cell (sql_ord t) o y x.
Proof.
  destruct o; eexists; (split; [reflexivity|]); intros t [x|] [y|]; try done; simpl;
    rewrite (sql_ord_sym t x y); by destruct (sql_ord t x y).
Qed.

(** The three domains of [x op w] for a non-NULL literal [w]: the cell [x] is in
    the domain of the comparison's outcome. *)
Lemma literal_domains t u o v w x :
  is_universe t u → scalar_value v = Some w → mem u x = true →
  let op := cmp_string o in
  let bound (included : bool) := if included then Included v else Excluded v in
  let point := range u (Included v) (Included v) in
  let lower included := range u (bound included) Unbounded in
  let upper included := range u Unbounded (bound included) in
  let '(yes, no) :=
    match o with
    | OpEq | OpNotDistinct => (point, without_null u)
    | OpNe | OpDistinct => (without_null u, point)
    | OpLt => (upper false, lower true) | OpLe => (upper true, lower false)
    | OpGt => (lower false, upper true) | OpGe => (lower true, upper false)
    end in
  let nullable d := mkDomain (dom_type d) (non_null d) (may_be_null u) in
  let d := match o with
           | OpDistinct => mkDomains (nullable yes) no (empty u)
           | OpNotDistinct => mkDomains yes (nullable no) (empty u)
           | _ => mkDomains yes no (only_null u)
           end in
  mem (dom_at d (cell_outcome (sql_cell (sql_ord t) o x (Some w)))) x = true.
Proof.
  intros [Ht Hn] Ev Hx. destruct x as [x|]; [|by destruct o].
  assert (non_null u = All) as Hall by (destruct Hn as [?|Hn]; [done|by unfold mem in Hx; rewrite Hn in Hx]).
  assert (sql_ord (dom_type u) = sql_ord t) as Eo by (rewrite Ht; apply sql_ord_logical).
  destruct o; cbn [sql_cell holds]; destruct (sql_ord t x w) eqn:E;
    unfold mem, dom_at, in_non_null, above, below; cbn -[sql_ord]; rewrite ?Ev, ?Eo, ?Hall, ?E; done.
Qed.

Lemma mem_all t u x o : is_universe t u → mem u x = true → mem (dom_at (all_domains u) o) x = true.
Proof. by destruct o. Qed.

Lemma wf_all t u : is_universe t u → wf_domains (logical_value_type t) (all_domains u).
Proof. intros Hu o. destruct o; by apply universe_wf. Qed.

Lemma wf_mk t a b c : wf_domain t a → wf_domain t b → wf_domain t c → wf_domains t (mkDomains a b c).
Proof. intros ? ? ? []; done. Qed.

Lemma wf_range t u lo up : is_universe t u → ordered t = true →
  wf_bound (logical_value_type t) lo → wf_bound (logical_value_type t) up →
  wf_domain (logical_value_type t) (range u lo up).
Proof. intros [Hu _] Ho Wl Wu. split; [done|]. simpl. by rewrite ordered_logical. Qed.

Lemma wf_same t u nn b : is_universe t u → nn = non_null u ∨ nn = Empty →
  wf_domain (logical_value_type t) (mkDomain (dom_type u) nn b).
Proof. intros Hu Hn. destruct (universe_wf _ _ Hu) as [? ?]. split; [done|]. by destruct Hn as [-> | ->]. Qed.

Ltac wf_dom u :=
  first [apply (wf_range _ u) | apply (wf_same _ u)]; first [assumption | exact I | auto].

(** The domains of a comparison with a literal. *)
Lemma comparison_domains_spec t u op o v : is_universe t u → cmp_of_string op = Some o → wf_array v →
  logical_value_type (arr_type v) = logical_value_type t →
  ∃ d, comparison_domains op v u = Ok d ∧ wf_domains (logical_value_type t) d ∧
    ∀ x, mem u x = true →
      (ordered t = false → ∀ q, mem (dom_at d q) x = true) ∧
      (ordered t = true → ∀ y, vals v = [y] →
         mem (dom_at d (cell_outcome (sql_cell (sql_ord t) o x y))) x = true).
Proof.
  intros Hu Hop Wv Hl. apply cmp_of_string_inv in Hop as ->. unfold comparison_domains.
  destruct (dictionary_values_spec v Wv) as (v' & -> & Tv & Vv & Wv').
  assert (arr_type v' = dom_type u) as Tu by (destruct Hu as [-> _]; congruence).
  rewrite bool_decide_true by done. rewrite Tv, Hl, ordered_logical. cbn [negb]. rewrite orb_false_r.
  destruct (ordered t) eqn:Ho; cbn [negb]; [rewrite orb_false_r|rewrite orb_true_r].
  2: { exists (all_domains u). split; [done|]. split; [by apply wf_all|]. intros x Hx. split; [|done].
       intros _ q. by eapply mem_all. }
  destruct (len v' =? 1)%nat eqn:Elen; cbn [negb].
  2: { exists (all_domains u). split; [done|]. split; [by apply wf_all|]. intros x Hx. split; [done|].
       intros _ y Hy. exfalso. unfold len in Elen. by rewrite Vv, Hy in Elen. }
  apply Nat.eqb_eq in Elen. unfold len in Elen. destruct (vals v') as [|y [|]] eqn:Ey; try done.
  destruct (ordered_flat t Ho) as [f Hf].
  assert (is_null v' 0 = negb (is_some y)) as ->.
  { apply is_null_wf; [done| |by rewrite Ey]. rewrite Tv, Hl, Hf. unfold ordered in Ho. rewrite Hf in Ho. by destruct f. }
  rewrite <- Vv. destruct y as [w|]; cbn [is_some negb].
  - assert (wf_scalar (logical_value_type t) v') as Ws by (split; [done|]; split; [congruence|eauto]).
    assert (scalar_value v' = Some w) as Ew by (unfold scalar_value; by rewrite Ey).
    pose proof (λ x, literal_domains t u o v' w x Hu Ew) as HL.
    destruct o; (eexists; split; [reflexivity|]); (split; [apply wf_mk; wf_dom u|]); intros x Hx;
      (split; [done|]); intros _ y [= <-]; exact (HL x Hx).
  - assert (∀ x, mem u x = true → mem (dom_at (constant_domains (Some NULL) u) NULL) x = true) as HN
      by (intros x Hx; by rewrite dom_at_constant, decide_True by done).
    destruct o; (eexists; split; [reflexivity|]);
      (split; [first [apply wf_constant, universe_wf; assumption | apply wf_mk; wf_dom u]|]); intros x Hx;
      (split; [done|]); intros _ y [= <-]; destruct x; done || exact (HN _ Hx).
Qed.

(** * Domains of expressions *)

Section column.
Context (s : Schema) (b : RecordBatch) (k : nat) (f : Field) (c : array) (u : ColumnDomain).
Context (Hb : conforms s b) (Hk : s !! k = Some f) (Hc : columns b !! k = Some c).
Context (Huniq : ∀ k' f', s !! k' = Some f' → name f' = name f → k' = k).
Context (Hu : is_universe (data_type f) u) (Hcell : ∀ j x, vals c !! j = Some x → mem u x = true).
Let t := data_type f.

(** The outcome of [e] in a row puts the column's cell in its domain. *)
Definition sound (e : Expr) (d : Domains) : Prop :=
  wf_domains (logical_value_type t) d ∧
  ∀ r j o x, eval_bool e b = Ok r → r !! j = Some o → vals c !! j = Some x →
             mem (dom_at d (cell_outcome o)) x = true.

Lemma sound_all e : sound e (all_domains u).
Proof. split; [by apply wf_all|]. intros r j o x _ _ Hx. by eapply mem_all, Hcell. Qed.

Lemma target_column e : typed s e t → target e (name f) = true → e = Column k (name f) t.
Proof.
  intros Ht Htg. destruct e; try done. simpl in Htg. apply String.eqb_eq in Htg as ->.
  inversion Ht; subst. rename select (s !! _ = Some _) into Hlk. rename select (name _ = name f) into Hn.
  apply (Huniq _ _ Hlk) in Hn as ->. rewrite Hk in Hlk. by injection Hlk as <-.
Qed.

Lemma target_typed e t' : typed s e t' → target e (name f) = true → e = Column k (name f) t ∧ t' = t.
Proof.
  intros Ht Htg. destruct e; try done. simpl in Htg. apply String.eqb_eq in Htg as ->.
  inversion Ht; subst. rename select (s !! _ = Some _) into Hlk. rename select (name _ = name f) into Hn.
  apply (Huniq _ _ Hlk) in Hn as ->. rewrite Hk in Hlk. by injection Hlk as <-.
Qed.

Lemma eval_target : eval (Column k (name f) t) b = Ok c ∧ arr_type c = t ∧ wf_array c ∧ len c = num_rows b.
Proof.
  destruct (eval_column_conforms s b k f Hb Hk) as (c' & E & Hc' & ? & ? & ?).
  rewrite Hc in Hc'. injection Hc' as <-. done.
Qed.

Lemma cell_outcome_and x y : cell_outcome (kleene_and x y) = truth (cell_outcome x) (cell_outcome y) true.
Proof. by destruct x as [[]|], y as [[]|]. Qed.
Lemma cell_outcome_or x y : cell_outcome (kleene_or x y) = truth (cell_outcome x) (cell_outcome y) false.
Proof. by destruct x as [[]|], y as [[]|]. Qed.

(** The Boolean kernel of a connective and its truth table. *)
Definition connective (and : bool) : BooleanArray → BooleanArray → result BooleanArray RpcError :=
  if and then and_kleene else or_kleene.

Lemma connective_length and x y z : connective and x y = Ok z →
  length z = length x ∧ length z = length y ∧
  z = zip_with (if and then kleene_and else kleene_or) x y.
Proof.
  intros E. assert (length x = length y) as Hl.
  { destruct and; unfold connective, and_kleene, or_kleene in E;
      [destruct (arrow_and_kleene x y) eqn:Ek|destruct (arrow_or_kleene x y) eqn:Ek]; try done;
      eapply arrow_kleene_length; eauto. }
  destruct and; [apply and_kleene_ok in E|apply or_kleene_ok in E]; try done; subst z;
    rewrite length_zip_with; split_and!; lia || done.
Qed.

Lemma connective_cell and x y z j p : connective and x y = Ok z → z !! j = Some p →
  ∃ q r, x !! j = Some q ∧ y !! j = Some r ∧ cell_outcome p = truth (cell_outcome q) (cell_outcome r) and.
Proof.
  intros E Hj. destruct (connective_length _ _ _ _ E) as (_ & _ & ->).
  apply lookup_zip_with_Some in Hj as (q & r & -> & Hq & Hr). exists q, r.
  destruct and; by rewrite ?cell_outcome_and, ?cell_outcome_or.
Qed.

Lemma bcast_ok_one n : bcast_ok 1 n = true ∧ bcast_ok n 1 = true.
Proof. unfold bcast_ok. simpl. by rewrite !orb_true_r. Qed.

Lemma compare_target_left op o v y : cmp_of_string op = Some o → wf_array v →
  logical_value_type (arr_type v) = logical_value_type t → ordered t = true → vals v = [y] →
  eval_bool (Comparison op (Column k (name f) t) (Literal v)) b =
  Ok ((λ x, sql_cell (sql_ord t) o x y) <$> vals c).
Proof.
  intros Hop Wv Hl Ho Hy. destruct eval_target as (Ec & Tc & Wc & Lc). unfold eval_bool.
  cbn [eval]. cbn [eval] in Ec. rewrite Ec.
  rewrite (compare_arrays_spec c v op o)
    by (try done; unfold len; rewrite ?Tc, ?Hy; done || apply bcast_ok_one).
  rewrite Hy, bcast_right, Tc. rewrite fit_rows_same; [apply to_bool_of_bools|].
  by rewrite len_of_bools, length_fmap.
Qed.

Lemma compare_target_right op o v y : cmp_of_string op = Some o → wf_array v →
  logical_value_type (arr_type v) = logical_value_type t → ordered t = true → vals v = [y] →
  eval_bool (Comparison op (Literal v) (Column k (name f) t)) b =
  Ok ((λ x, sql_cell (sql_ord t) o y x) <$> vals c).
Proof.
  intros Hop Wv Hl Ho Hy. destruct eval_target as (Ec & Tc & Wc & Lc). unfold eval_bool.
  cbn [eval]. cbn [eval] in Ec. rewrite Ec.
  rewrite (compare_arrays_spec v c op o); [|done|done|done|by rewrite Tc| |unfold len; rewrite Hy; apply bcast_ok_one].
  - rewrite Hy, bcast_left, <- (sql_ord_logical (arr_type v)), Hl, sql_ord_logical.
    rewrite fit_rows_same; [apply to_bool_of_bools|]. by rewrite len_of_bools, length_fmap.
  - by rewrite <- ordered_logical, Hl, ordered_logical.
Qed.

Lemma sound_comparison op l r tl tr o : cmp_of_string op = Some o → typed s l tl → typed s r tr →
  logical_value_type tl = logical_value_type tr →
  ∃ d, domains (Comparison op l r) (name f) u = Ok d ∧ sound (Comparison op l r) d.
Proof.
  intros Hop Tl Tr Hlog. cbn [domains].
  destruct (target l (name f)) eqn:El; [|destruct (target r (name f)) eqn:Er]; [| |eauto using sound_all].
  - destruct (target_typed _ _ Tl El) as [-> ->].
    destruct r; try (eexists; split; [reflexivity|apply sound_all]). inversion Tr; subst.
    destruct (comparison_domains_spec t u op o v Hu Hop) as (d & Ed & Wd & Sd); [done|done|].
    exists d. split; [done|]. split; [done|]. intros q j p x Eq Hq Hx. specialize (Sd x (Hcell _ _ Hx)).
    destruct (ordered t) eqn:Ho; [|by apply Sd]. destruct (literal_single v) as [y Hy]; [done|].
    rewrite (compare_target_left op o v y) in Eq by done. injection Eq as <-.
    rewrite list_lookup_fmap, Hx in Hq. injection Hq as <-. by apply Sd.
  - destruct (target_typed _ _ Tr Er) as [-> ->].
    destruct l; try (eexists; split; [reflexivity|apply sound_all]). inversion Tl; subst.
    apply cmp_of_string_inv in Hop as Eop. destruct (reverse_op_spec o) as (o' & Ho' & So'). rewrite <- Eop in Ho'.
    destruct (comparison_domains_spec t u _ o' v Hu Ho') as (d & Ed & Wd & Sd); [done|done|].
    exists d. split; [done|]. split; [done|]. intros q j p x Eq Hq Hx. specialize (Sd x (Hcell _ _ Hx)).
    destruct (ordered t) eqn:Ho; [|by apply Sd]. destruct (literal_single v) as [y Hy]; [done|].
    rewrite (compare_target_right op o v y) in Eq by done. injection Eq as <-.
    rewrite list_lookup_fmap, Hx in Hq. injection Hq as <-. rewrite <- So'. by apply Sd.
Qed.

(** The fold of a connective over its children, on domains. *)
Definition domains_fold (and : bool) : list Expr → Domains → result Domains RpcError :=
  fix fold (l : list Expr) (acc : Domains) : result Domains RpcError :=
    match l with
    | [] => Ok acc
    | e :: l =>
        let? d := domains e (name f) u in
        let? acc := combine_domains acc d and u in
        fold l acc
    end.

Lemma fold_connective_length and l a r : fold_bool (connective and) b l a = Ok r → length r = length a.
Proof.
  induction l as [|e l IH] in a |- *; intros E; cbn [fold_bool] in E; [by injection E as <-|].
  fold (fold_bool (connective and) b) in E. inv_ok E. rewrite (IH _ E).
  by destruct (connective_length and _ _ _ E1).
Qed.

Lemma domains_fold_sound and l acc :
  Forall (λ e, ∃ d, domains e (name f) u = Ok d ∧ sound e d) l → wf_domains (logical_value_type t) acc →
  ∃ d, domains_fold and l acc = Ok d ∧ wf_domains (logical_value_type t) d ∧
    ∀ a r j o x q, fold_bool (connective and) b l a = Ok r → r !! j = Some o → vals c !! j = Some x →
      a !! j = Some q → mem (dom_at acc (cell_outcome q)) x = true →
      mem (dom_at d (cell_outcome o)) x = true.
Proof.
  intros Hl. induction Hl as [|e l (d & Ed & Wd & Sd) _ IH] in acc |- *; intros Wa; cbn [domains_fold].
  { exists acc. split; [done|]. split; [done|]. cbn. intros a r j o x q [= <-]. congruence. }
  rewrite Ed. destruct (combine_domains_spec _ acc d and u Wa Wd (universe_wf _ _ Hu)) as (acc' & -> & Wa' & Sa').
  destruct (IH acc' Wa') as (d' & Ed' & Wd' & Sd'). exists d'. split; [done|]. split; [done|].
  intros a r j o x q E Hr Hx Hq Hm. cbn [fold_bool] in E. fold (fold_bool (connective and) b) in E. inv_ok E.
  assert (is_Some (a1 !! j)) as [p Ep].
  { apply lookup_lt_is_Some. rewrite <- (fold_connective_length _ _ _ _ E). by eapply lookup_lt_Some. }
  destruct (connective_cell and _ _ _ _ _ E1 Ep) as (q' & p' & Hq' & Hp' & Ecell).
  rewrite Hq in Hq'. injection Hq' as <-. eapply Sd'; [exact E|exact Hr|exact Hx|exact Ep|].
  rewrite Ecell. apply Sa'; [done|]. by eapply Sd.
Qed.

Lemma sound_connective (and : bool) l : Forall (λ e, ∃ d, domains e (name f) u = Ok d ∧ sound e d) l →
  ∃ d, domains (if and then And l else Or l) (name f) u = Ok d ∧ sound (if and then And l else Or l) d.
Proof.
  intros Hl. set (start := if and then TRUE else FALSE).
  destruct (domains_fold_sound and l (constant_domains (Some start) u) Hl) as (d & Ed & Wd & Sd);
    [by apply wf_constant, universe_wf|].
  exists d. split; [by destruct and|]. split; [done|]. intros r j o x E Hr Hx.
  assert (fold_bool (connective and) b l (replicate (num_rows b) (Some and)) = Ok r) as Ef.
  { unfold eval_bool in E. destruct and; rewrite ?eval_And, ?eval_Or in E; inv_ok E; inv_ok E0;
      injection E0 as <-; rewrite to_bool_of_bools in E; by injection E as <-. }
  eapply (Sd _ r j o x (Some and) Ef Hr Hx).
  - apply lookup_replicate. split; [done|]. rewrite <- (length_replicate (num_rows b) (Some and)).
    rewrite <- (fold_connective_length _ _ _ _ Ef). by eapply lookup_lt_Some.
  - rewrite dom_at_constant, decide_True by (by destruct and). by eapply Hcell.
Qed.

Lemma sound_not e d : domains e (name f) u = Ok d → sound e d → sound (Not e) (swap d).
Proof.
  intros Ed [Wd Sd]. split; [by apply wf_swap|]. intros r j o x E Hr Hx. unfold eval_bool in E.
  cbn [eval] in E. change (let? a := eval e b in to_bool a) with (eval_bool e b) in E. inv_ok E. inv_ok E0.
  rewrite arrow_not_spec in E2. injection E2 as <-. injection E0 as <-. rewrite to_bool_of_bools in E.
  injection E as <-. rewrite list_lookup_fmap in Hr. destruct (a0 !! j) as [p|] eqn:Ep; [|done].
  injection Hr as <-. rewrite dom_at_swap. specialize (Sd _ _ _ _ eq_refl Ep Hx). by destruct p as [[]|].
Qed.

Lemma sound_is_null e te neg : typed s e te → ∃ d, domains (IsNull e neg) (name f) u = Ok d ∧ sound (IsNull e neg) d.
Proof.
  intros Te. cbn [domains]. destruct (target e (name f)) eqn:Etg; [|eauto using sound_all].
  destruct (target_typed _ _ Te Etg) as [-> ->]. eexists. split; [reflexivity|].
  destruct eval_target as (Ec & _). split.
  { destruct neg; [apply wf_swap|]; apply wf_mk; wf_dom u. }
  intros r j o x E Hr Hx. unfold eval_bool in E. cbn [eval] in E, Ec. rewrite Ec in E.
  pose proof (Hcell _ _ Hx) as Hm.
  destruct neg; rewrite ?arrow_is_null_spec, ?arrow_is_not_null_spec in E; cbn [map_err] in E;
    rewrite to_bool_of_bools in E; injection E as <-; rewrite list_lookup_fmap, Hx in Hr; injection Hr as <-;
    by destruct x.
Qed.

Lemma sound_leaf_column i n t' : typed s (Column i n t') Boolean →
  ∃ d, domains (Column i n t') (name f) u = Ok d ∧ sound (Column i n t') d.
Proof.
  intros Te. cbn [domains]. destruct (target _ _) eqn:Etg; [|eauto using sound_all].
  destruct (target_typed _ _ Te Etg) as [-> Et]. cbn [andb]. case_bool_decide as Hd; [|eauto using sound_all].
  destruct (comparison_domains_spec t u "eq" OpEq (of_bools [Some true]) Hu) as (d & Ed & Wd & Sd);
    [done|apply wf_of_bools|by rewrite <- Et|].
  exists d. split; [done|]. split; [done|]. intros r j o x E Hr Hx. specialize (Sd x (Hcell _ _ Hx)).
  destruct eval_target as (Ec & Tc & Wc & _). unfold eval_bool in E. rewrite Ec in E.
  apply to_bool_ok in E as (_ & _ & ->). rewrite list_lookup_fmap, Hx in Hr. injection Hr as <-.
  destruct Sd as [_ Sd]. specialize (Sd ltac:(by rewrite <- Et) (Some (VBool true)) eq_refl).
  destruct Wc as (Wc & _). rewrite Forall_lookup in Wc. specialize (Wc _ _ Hx). rewrite Tc, <- Et in Wc.
  destruct x as [v|]; [|done]. destruct v; try done. revert Sd. unfold sql_ord. rewrite <- Et.
  cbn [sql_cell logical_value_type is_float]. rewrite scalar_cmp_bool. by destruct b0.
Qed.

Lemma sound_literal v : typed s (Literal v) Boolean →
  ∃ d, domains (Literal v) (name f) u = Ok d ∧ sound (Literal v) d.
Proof.
  intros Te. inversion Te; subst. cbn [domains]. destruct (bool_decide _ && _) eqn:Eg; [|eauto using sound_all].
  eexists. split; [reflexivity|]. split; [by apply wf_constant, universe_wf|].
  intros r j o x E Hr Hx. destruct (literal_single v) as [y Hy]; [done|].
  unfold eval_bool in E. cbn [eval] in E. inv_ok E. apply to_bool_ok in E as (_ & _ & ->).
  rewrite list_lookup_fmap in Hr.
  assert (∃ n, vals a = replicate n y) as [n Ha].
  { unfold fit_rows in E0. case_match; [injection E0 as <-; exists 1%nat; by rewrite Hy|].
    apply repeat_scalar_ok in E0 as (_ & _ & _ & y' & Hy' & ->); [|done]. exists (num_rows b). congruence. }
  rewrite Ha in Hr. destruct (replicate n y !! j) as [y'|] eqn:Ej; [|done].
  apply lookup_replicate in Ej as [-> _]. injection Hr as <-.
  rewrite dom_at_constant, Hy, decide_True by done. by eapply Hcell.
Qed.

Lemma in_loop_connective_length col vs idx a r : in_loop col vs idx a = Ok r → length r = length a.
Proof.
  induction idx as [|i idx IH] in a |- *; intros E; cbn [in_loop] in E; [by injection E as <-|].
  inv_ok E. rewrite (IH _ E). by destruct (connective_length false _ _ _ E2).
Qed.

(** One element of an IN list: the comparison's outcome and its domains. *)
Lemma in_step values i y : wf_array values → logical_value_type (arr_type values) = logical_value_type t →
  vals values !! i = Some y →
  ∃ d, comparison_domains "eq" (slice values i 1) u = Ok d ∧ wf_domains (logical_value_type t) d ∧
    ∀ col vs v cc j o x, wf_array col → arr_type col = logical_value_type t → vals col = vals c →
      wf_array vs → arr_type vs = logical_value_type t → vals vs = vals values →
      repeat_scalar (slice vs i 1) (len col) = Ok v → compare_arrays col v "eq" = Ok cc →
      cc !! j = Some o → vals c !! j = Some x → mem (dom_at d (cell_outcome o)) x = true.
Proof.
  intros Wv Hl Hy.
  destruct (comparison_domains_spec t u "eq" OpEq (slice values i 1) Hu) as (d & Ed & Wd & Sd);
    [done|by apply wf_slice|done|].
  exists d. split; [done|]. split; [done|].
  intros col vs v cc j o x Wc Tc Vc Ws Ts Vs Er Ecmp Ho Hx. specialize (Sd x (Hcell _ _ Hx)).
  destruct (ordered t) eqn:Hord; [|by apply Sd].
  apply repeat_scalar_ok in Er as (Tv & Lv & Wv' & y' & Hy' & Vv); [|by apply wf_slice].
  rewrite (slice_one vs i y) in Hy' by congruence. injection Hy' as <-. simpl in Tv.
  rewrite (compare_arrays_spec col v "eq" OpEq) in Ecmp; [|done|done|done| | |].
  - injection Ecmp as <-. rewrite Vv, bcast_same in Ho by (by rewrite length_replicate).
    apply lookup_zip_with_Some in Ho as (x' & y' & -> & Hx' & Hy'). rewrite Vc, Hx in Hx'. injection Hx' as <-.
    apply lookup_replicate in Hy' as [-> _]. rewrite Tc, sql_ord_logical.
    apply Sd; [done|]. by apply slice_one.
  - by rewrite Tv, Ts, Tc.
  - by rewrite Tc, ordered_logical.
  - rewrite Lv. unfold bcast_ok. by rewrite Nat.eqb_refl.
Qed.

Lemma in_domains_sound values idx acc : wf_array values →
  logical_value_type (arr_type values) = logical_value_type t → Forall (λ i, i < len values)%nat idx →
  wf_domains (logical_value_type t) acc →
  ∃ d, in_domains values idx u acc = Ok d ∧ wf_domains (logical_value_type t) d ∧
    ∀ col vs a r j o x q, wf_array col → arr_type col = logical_value_type t → vals col = vals c →
      wf_array vs → arr_type vs = logical_value_type t → vals vs = vals values →
      in_loop col vs idx a = Ok r → r !! j = Some o → vals c !! j = Some x → a !! j = Some q →
      mem (dom_at acc (cell_outcome q)) x = true → mem (dom_at d (cell_outcome o)) x = true.
Proof.
  intros Wv Hl. induction idx as [|i idx IH] in acc |- *; intros Hidx Wa; cbn [in_domains].
  { exists acc. split; [done|]. split; [done|]. cbn. intros. simplify_eq. done. }
  apply Forall_cons in Hidx as [Hi Hidx]. destruct (lookup_lt_is_Some_2 _ _ Hi) as [y Hy].
  destruct (in_step values i y Wv Hl Hy) as (d & -> & Wd & Sd).
  destruct (combine_domains_spec _ acc d false u Wa Wd (universe_wf _ _ Hu)) as (acc' & -> & Wa' & Sa').
  destruct (IH acc' Hidx Wa') as (d' & Ed' & Wd' & Sd'). exists d'. split; [done|]. split; [done|].
  intros col vs a r j o x q Wc Tc Vc Ws Ts Vs E Hr Hx Hq Hm. cbn [in_loop] in E. inv_ok E.
  assert (is_Some (a2 !! j)) as [p Ep].
  { apply lookup_lt_is_Some. rewrite <- (in_loop_connective_length _ _ _ _ _ E). by eapply lookup_lt_Some. }
  destruct (connective_cell false _ _ _ _ _ E2 Ep) as (q' & p' & Hq' & Hp' & Ecell).
  rewrite Hq in Hq'. injection Hq' as <-. eapply (Sd' col vs); [done..|exact E|exact Hr|exact Hx|exact Ep|].
  rewrite Ecell. apply Sa'; [done|]. eapply (Sd col vs); [done..|exact E0|exact E1|exact Hp'|exact Hx].
Qed.

Lemma sound_in e te values neg : typed s e te → wf_array values →
  logical_value_type te = logical_value_type (arr_type values) →
  ∃ d, domains (In e values neg) (name f) u = Ok d ∧ sound (In e values neg) d.
Proof.
  intros Te Wv Hl. cbn [domains]. destruct (target e (name f)) eqn:Etg; [|eauto using sound_all].
  destruct (target_typed _ _ Te Etg) as [-> ->].
  destruct (in_domains_sound values (seq 0 (len values)) (constant_domains (Some FALSE) u) Wv)
    as (d & -> & Wd & Sd).
  { done. } { apply Forall_forall. intros i Hi%elem_of_seq. lia. } { by apply wf_constant, universe_wf. }
  destruct eval_target as (Ec & Tc & Wc & Lc). eexists. split; [reflexivity|].
  destruct (dictionary_values_spec c Wc) as (c' & Ec' & Tc' & Vc' & Wc').
  destruct (dictionary_values_spec values Wv) as (v' & Ev' & Tv' & Vv' & Wv').
  assert (∀ r j o x, in_list c values = Ok r → r !! j = Some o → vals c !! j = Some x →
            mem (dom_at d (cell_outcome o)) x = true) as Hin.
  { intros r j o x E Hr Hx. unfold in_list in E. rewrite Ec', Ev' in E.
    assert (len v' = len values) as Elen by (unfold len; by rewrite Vv'). rewrite Elen in E.
    eapply (Sd c' v' _ r j o x (Some false)); try done; [congruence|congruence| |].
    - apply lookup_replicate. split; [done|]. unfold len. rewrite Vc'. by eapply lookup_lt_Some.
    - rewrite dom_at_constant, decide_True by done. by eapply Hcell. }
  split; [destruct neg; [by apply wf_swap|done]|].
  intros r j o x E Hr Hx. unfold eval_bool in E. cbn [eval] in E, Ec. rewrite Ec in E.
  destruct (in_list c values) as [b0|]; [|done].
  destruct neg; rewrite ?arrow_not_spec in E; cbn [map_err] in E; rewrite to_bool_of_bools in E;
    injection E as <-; [|by eapply Hin].
  rewrite list_lookup_fmap in Hr. destruct (b0 !! j) as [p|] eqn:Ep; [|done]. injection Hr as <-.
  rewrite dom_at_swap. specialize (Hin _ _ _ _ eq_refl Ep Hx). by destruct p as [[]|].
Qed.

(** Every expression the parser accepts has sound domains. *)
Lemma domains_sound e : typed s e Boolean → ∃ d, domains e (name f) u = Ok d ∧ sound e d.
Proof.
  induction e using Expr_nested_ind; intros Te; try (eexists; split; [reflexivity|apply sound_all]).
  - by apply sound_leaf_column.
  - by apply sound_literal.
  - inversion Te; subst. by eapply sound_comparison.
  - inversion Te as [| | | |? Hl| | | | | | | | |]; subst. apply (sound_connective true).
    rewrite Forall_forall in *. eauto.
  - inversion Te as [| | | | |? Hl| | | | | | | |]; subst. apply (sound_connective false).
    rewrite Forall_forall in *. eauto.
  - inversion Te; subst. destruct IHe as (d & Ed & Sd); [done|]. exists (swap d).
    split; [by cbn [domains]; rewrite Ed|by apply sound_not].
  - inversion Te; subst. by eapply sound_is_null.
  - inversion Te; subst. by eapply sound_in.
Qed.
End column.
End domain.
