(* ===== verification/PushdownSound.v ===== *)
(** The contracts of filter pushdown ([vgi/src/pushdown.rs],
    [vgi/src/pushdown/pruning.rs]): types of parsed filters, soundness of the
    domains [column_domain] infers and of [may_match], against the exact
    evaluation [evaluate]. *)
From S2P Require Import Prelude Float64 Arrow ArrowModel SqlCompare Pushdown PushdownParse PushdownEval.
From S2P Require Import PushdownPruning PushdownRow PushdownDomain.

Open Scope Z_scope.

(** * Filters the parser produces *)

Definition wf_predicate (s : Schema) (p : Predicate) : Prop :=
  (p_expression p = RuntimeFilter ∧ p_mode p = Advisory) ∨ typed s (p_expression p) Boolean.

Definition wf_filters (f : PushdownFilters) : Prop :=
  Forall (wf_predicate (output_schema f)) (predicates f).

(** The struct fields whose NULLs the filters test have a validity buffer: their
    type is not [Null], [Union] or [RunEndEncoded]. *)
Definition maskable_filters (f : PushdownFilters) : Prop :=
  Forall (λ p, maskable_fields (p_expression p) = true) (predicates f).

Lemma predicate_wf p w delta n pr n' : wf_parser p → predicate p w delta n = Ok (pr, n') →
  wf_predicate (ps_schema p) pr ∧ Z.of_nat (height (p_expression pr)) ≤ MAX_DEPTH ∧
  n + Z.of_nat (node_count (p_expression pr)) ≤ n' ∧ n' ≤ MAX_NODES ∧
  p_id pr = wp_id w ∧ p_revision pr = wp_revision w ∧ (delta = true → p_mode pr = Advisory).
Proof.
  intros W H. unfold predicate in H. inv_ok H. injection H as <- <-. cbn.
  destruct (expression_parsed _ _ W _ _ _ _ _ E2) as [Ht Hh Hc Hm].
  split; [|split; [unfold MAX_DEPTH in *; lia|]; split; [done|]; split; [done|]; split; [done|]; split; [done|]].
  - unfold wf_predicate. cbn. destruct Ht as [[_ ->]|Ht].
    + left. split; [done|]. cbn in E3. by case_bool_decide.
    + right. apply is_boolean_typed; [done|]. destruct Ht as [t Ht].
      destruct (is_runtime_filter e) eqn:Er; [by destruct e|]. cbn in E4. by apply negb_false_iff.
  - intros ->. unfold predicate_mode in E0. repeat case_match; try done. by injection E0 as <-.
Qed.

(** * Exact evaluation, a predicate at a time *)

Section sound.
Context `{ArrowLaws}.

Lemma evaluate_loop_length ps b acc r : evaluate_loop ps b acc = Ok r → length r = length acc.
Proof.
  induction ps as [|p ps IH] in acc |- *; cbn [evaluate_loop]; intros E; [by injection E as <-|].
  destruct (is_runtime_filter _); [by apply IH|]. destruct (eval_bool _ b) as [x|].
  - inv_ok E. rewrite (IH _ E). by destruct (connective_length true _ _ _ E0).
  - case_decide; [by apply IH|done].
Qed.

(** A row the filters accept is TRUE for every predicate that evaluates. *)
Lemma evaluate_loop_true ps b acc r j p x : evaluate_loop ps b acc = Ok r → r !! j = Some (Some true) →
  acc !! j = Some (Some true) ∧
  (p ∈ ps → is_runtime_filter (p_expression p) = false → eval_bool (p_expression p) b = Ok x →
   x !! j = Some (Some true)).
Proof.
  induction ps as [|q ps IH] in acc |- *; cbn [evaluate_loop]; intros E Hj.
  { injection E as <-. split; [done|]. by intros ?%not_elem_of_nil. }
  destruct (is_runtime_filter (p_expression q)) eqn:Eq.
  { destruct (IH acc E Hj) as [? IH2]. split; [done|]. intros [->|?]%elem_of_cons; [congruence|auto]. }
  destruct (eval_bool (p_expression q) b) as [y|] eqn:Ey.
  - inv_ok E. destruct (IH a E Hj) as [Ha IH2].
    destruct (connective_cell true _ _ _ _ _ E0 Ha) as (u & v & Hu & Hv & Ht).
    assert (u = Some true ∧ v = Some true) as [-> ->] by (by destruct u as [[]|], v as [[]|]).
    split; [done|]. intros [->|?]%elem_of_cons Hrt Hx; [congruence|auto].
  - case_decide; [|done]. destruct (IH acc E Hj) as [? IH2]. split; [done|].
    intros [->|?]%elem_of_cons Hrt Hx; [congruence|auto].
Qed.

(** A required predicate evaluated, or the whole evaluation failed. *)
Lemma evaluate_loop_required ps b acc r p : evaluate_loop ps b acc = Ok r → p ∈ ps →
  is_runtime_filter (p_expression p) = false → p_mode p = Required →
  ∃ x, eval_bool (p_expression p) b = Ok x.
Proof.
  induction ps as [|q ps IH] in acc |- *; cbn [evaluate_loop]; intros E Hp Hrt Hm.
  { by apply not_elem_of_nil in Hp. }
  destruct (is_runtime_filter (p_expression q)) eqn:Eq.
  { apply elem_of_cons in Hp as [->|Hp]; [congruence|eauto]. }
  apply elem_of_cons in Hp as [<-|Hp].
  - destruct (eval_bool (p_expression p) b) as [y|]; [eauto|]. case_decide; congruence.
  - destruct (eval_bool (p_expression q) b) as [y|]; [inv_ok E; eauto|]. case_decide; [eauto|done].
Qed.

(** A predicate pruning uses is TRUE in every accepted row. *)
Lemma used_predicate_true f b mask j p : wf_filters f → maskable_filters f → conforms (output_schema f) b →
  evaluate f b = Ok mask → mask !! j = Some (Some true) → p ∈ predicates f →
  bool_decide (p_mode p = Advisory) && negb (supported (p_expression p)) = false →
  typed (output_schema f) (p_expression p) Boolean ∧
  ∃ x, eval_bool (p_expression p) b = Ok x ∧ x !! j = Some (Some true).
Proof.
  intros Hwf Hmask Hb E Hj Hp Hu. unfold wf_filters, maskable_filters in *. rewrite Forall_forall in Hwf, Hmask.
  destruct (Hwf p Hp) as [[Ee Em]|Te].
  { rewrite Ee, Em in Hu. done. }
  assert (is_runtime_filter (p_expression p) = false) as Hrt by (destruct (p_expression p); try done; inversion Te).
  split; [done|]. assert (∃ x, eval_bool (p_expression p) b = Ok x) as [x Hx].
  { destruct (p_mode p) eqn:Em; [by eapply evaluate_loop_required|].
    cbn in Hu. apply negb_false_iff in Hu.
    destruct (supported_row_wise _ b _ Te Hu (Hmask p Hp) (conforms_reads _ _ _ _ Hb Te)) as (x & Hx & _). eauto. }
  exists x. split; [done|]. by eapply evaluate_loop_true.
Qed.

(** * Column domains *)

Lemma pruning_field_unique f n fld : pruning_field f n = Ok fld →
  name fld = n ∧ ∀ k k' fld', output_schema f !! k = Some fld → output_schema f !! k' = Some fld' →
                 name fld' = n → k' = k.
Proof.
  unfold pruning_field. destruct (filter _ _) as [|x [|y l]] eqn:E; try done. intros [= ->].
  assert (fld ∈ filter (λ x, name x = n) (output_schema f)) as Hin by (rewrite E; apply list_elem_of_here).
  apply list_elem_of_filter in Hin as [Hn _]. split; [done|]. intros k k' fld' Hk Hk' Hn'.
  destruct (decide (k' = k)) as [|Hne]; [done|exfalso].
  assert (2 ≤ length (filter (λ x, name x = n) (output_schema f)))%nat as Htwo; [|rewrite E in Htwo; simpl in Htwo; lia].
  clear E. generalize dependent (output_schema f). intros l0 Hk Hk'. revert k k' Hne Hk Hk'.
  induction l0 as [|z l0 IH]; intros k k' Hne Hk Hk'; [done|].
  assert (∀ i w, l0 !! i = Some w → name w = n → 1 ≤ length (filter (λ x, name x = n) l0))%nat as Hone.
  { intros i w Hi Hw. assert (w ∈ filter (λ x, name x = n) l0) as Hin'.
    { apply list_elem_of_filter. split; [done|]. by eapply list_elem_of_lookup_2. }
    destruct (filter _ l0); [by apply not_elem_of_nil in Hin'|simpl; lia]. }
  destruct k as [|k], k' as [|k']; try done; simpl in Hk, Hk'.
  - injection Hk as ->. rewrite filter_cons_True by done. simpl. specialize (Hone _ _ Hk' Hn'). lia.
  - injection Hk' as ->. rewrite filter_cons_True by done. simpl. specialize (Hone _ _ Hk Hn). lia.
  - rewrite filter_cons. specialize (IH k k' ltac:(lia) Hk Hk'). case_decide; simpl; lia.
Qed.

Lemma null_count_zero c j : null_count c = 0%nat → wf_array c → encoded (arr_type c) = false →
  vals c !! j ≠ Some None.
Proof.
  intros Hn (_ & _ & He) Hf Hj. unfold null_count in Hn. rewrite He in Hn by done.
  assert (false ∈ filter (λ b, b = false) (is_some <$> vals c)) as Hin.
  { apply list_elem_of_filter. split; [done|]. apply list_elem_of_fmap. exists None.
    split; [done|]. by eapply list_elem_of_lookup_2. }
  destruct (filter _ _); [by apply not_elem_of_nil in Hin|done].
Qed.

(** The cells of a column are in its universe. *)
Lemma universe_mem b s k fld c j x : conforms s b → s !! k = Some fld → columns b !! k = Some c →
  vals c !! j = Some x → mem (universe_of fld) x = true.
Proof.
  intros Hb Hk Hc Hx. destruct (conforms_column _ _ _ _ Hb Hk) as (c' & Hc' & Tc & Wc & _ & Hnull).
  rewrite Hc in Hc'. injection Hc' as <-. unfold universe_of, mem; cbn. destruct x as [v|].
  - case_decide as En; [|done]. exfalso. destruct Wc as (Wc & _). rewrite Forall_lookup in Wc.
    specialize (Wc _ _ Hx). rewrite Tc, En in Wc. by destruct v.
  - destruct (is_nullable fld) eqn:Ei; [done|]. cbn. destruct (encoded (data_type fld)) eqn:Ee; [done|exfalso].
    eapply (null_count_zero c j); [by apply Hnull|done|by rewrite Tc|done].
Qed.

Lemma universe_is fld : is_universe (data_type fld) (universe_of fld).
Proof. split; [done|]. unfold universe_of; cbn. case_decide; auto. Qed.

(** The batch without rows. *)
Definition empty_batch (s : Schema) : RecordBatch :=
  mkRecordBatch s ∅ ((λ f, mkArray (data_type f) [] []) <$> s) 0.

Lemma empty_batch_conforms s : conforms s (empty_batch s).
Proof.
  split; [done|]. unfold wf_batch; cbn [schema columns empty_batch num_rows].
  apply Forall2_fmap_r. induction s; constructor; [|done]. by split_and!.
Qed.

(** The domains of a predicate, against any batch. *)
Lemma predicate_domains f fld k e : pruning_field f (name fld) = Ok fld → output_schema f !! k = Some fld →
  typed (output_schema f) e Boolean →
  ∃ d, domains e (name fld) (universe_of fld) = Ok d ∧ wf_domains (logical_value_type (data_type fld)) d ∧
    ∀ b c, conforms (output_schema f) b → columns b !! k = Some c → sound b fld c e d.
Proof.
  intros Hfld Hk Te. destruct (pruning_field_unique _ _ _ Hfld) as [_ Huniq].
  assert (∀ b c, conforms (output_schema f) b → columns b !! k = Some c →
    ∃ d, domains e (name fld) (universe_of fld) = Ok d ∧ sound b fld c e d) as Hall.
  { intros b c Hb Hc. apply (domains_sound (output_schema f) b k); try done.
    - intros k' fld'. by apply Huniq.
    - apply universe_is.
    - intros j x Hx. by eapply universe_mem. }
  destruct (Hall (empty_batch (output_schema f)) (mkArray (data_type fld) [] [])) as (d & Ed & [Wd _]).
  { apply empty_batch_conforms. } { cbn. by rewrite list_lookup_fmap, Hk. }
  exists d. split; [done|]. split; [done|]. intros b c Hb Hc. destruct (Hall b c Hb Hc) as (d' & Ed' & Sd'). congruence.
Qed.

(** The loop over the predicates: the domain stays well formed and keeps the
    cells that satisfy every predicate used. *)
Lemma domain_loop_sound f fld k ps acc : wf_filters f → maskable_filters f →
  pruning_field f (name fld) = Ok fld → output_schema f !! k = Some fld → (∀ p, p ∈ ps → p ∈ predicates f) →
  wf_domain (logical_value_type (data_type fld)) acc →
  ∃ d, domain_loop ps (name fld) (universe_of fld) acc = Ok d ∧
    wf_domain (logical_value_type (data_type fld)) d ∧
    ∀ b mask c j x, conforms (output_schema f) b → evaluate f b = Ok mask → mask !! j = Some (Some true) →
      columns b !! k = Some c → vals c !! j = Some x → mem acc x = true → mem d x = true.
Proof.
  intros Hwf Hmask Hfld Hk. induction ps as [|p ps IH] in acc |- *; intros Hps Wacc; cbn [domain_loop].
  { by exists acc. }
  assert (∀ q, q ∈ ps → q ∈ predicates f) as Hps' by (intros; apply Hps; by apply list_elem_of_further).
  assert (p ∈ predicates f) as Hp by (apply Hps, list_elem_of_here).
  destruct (bool_decide _ && _) eqn:Eu; [by apply IH|].
  pose proof Hwf as Hwf'. unfold wf_filters in Hwf'. rewrite Forall_forall in Hwf'.
  destruct (Hwf' p Hp) as [[Ee Em]|Te]; [by rewrite Ee, Em in Eu|].
  destruct (predicate_domains f fld k _ Hfld Hk Te) as (d & -> & Wd & Sd).
  destruct (combine_spec _ acc (dom_true d) true Wacc (Wd TRUE)) as (acc' & -> & Wacc' & Sacc').
  destruct (IH acc' Hps' Wacc') as (r & Er & Wr & Sr). exists r. split; [done|]. split; [done|].
  intros b mask c j x Hb Em Hj Hc Hx Hm. eapply Sr; try done.
  destruct (used_predicate_true f b mask j p Hwf Hmask Hb Em Hj Hp Eu) as (_ & y & Hy & Hyj).
  destruct (Sd b c Hb Hc) as [_ Sd']. destruct (Sacc' x) as [-> _]; [|done]. rewrite Hm.
  exact (Sd' _ _ _ _ Hy Hyj Hx).
Qed.

(** * [may_contain] *)

Lemma bound_mask_spec t values bd (incl excl : string) (oi oe : CmpOp) :
  wf_array values → arr_type values = t → ordered t = true → wf_bound t bd →
  cmp_of_string incl = Some oi → cmp_of_string excl = Some oe →
  ∃ m, bound_mask values bd incl excl = Ok m ∧ length m = len values ∧
    ∀ j v, vals values !! j = Some (Some v) → m !! j = Some (Some
      match bd with
      | Unbounded => true
      | Included a => match scalar_value a with Some l => holds oi (sql_ord t v l) | None => true end
      | Excluded a => match scalar_value a with Some l => holds oe (sql_ord t v l) | None => true end
      end).
Proof.
  intros Wv Tv Ho Wb Hi He. destruct bd as [a|a|]; cbn [bound_mask].
  1, 2: destruct Wb as (Wa & Ta & l & El).
  1: rewrite (compare_arrays_spec values a incl oi) by (done || congruence || (unfold len; rewrite El; apply bcast_ok_one)).
  2: rewrite (compare_arrays_spec values a excl oe) by (done || congruence || (unfold len; rewrite El; apply bcast_ok_one)).
  1, 2: rewrite El, bcast_right, Tv; eexists; (split; [reflexivity|]); (split; [by rewrite length_fmap|]);
    intros j v Hv; rewrite list_lookup_fmap, Hv; unfold scalar_value; rewrite El; cbn; do 2 f_equal;
    by destruct oi, oe.
  eexists. split; [reflexivity|]. split; [apply length_replicate|]. intros j v Hv.
  apply lookup_replicate_2. by eapply lookup_lt_Some.
Qed.

Lemma may_contain_spec t d values : wf_domain t d → wf_array values →
  logical_value_type (arr_type values) = t → may_contain d values = Ok (mem d <$> vals values).
Proof.
  intros [Td Wd] Wv Hl. unfold may_contain.
  destruct (dictionary_values_spec values Wv) as (v & -> & Tv & Vv & Wv').
  rewrite bool_decide_true by congruence. cbn [negb].
  assert (∀ m, (∀ j x, vals v !! j = Some (Some x) → m !! j = Some (Some (in_non_null t (non_null d) x))) →
    imap (λ i o, if is_some o then bool_at m i else may_be_null d) (vals v) = mem d <$> vals values) as Hmap.
  { intros m Hm. rewrite <- Vv. apply list_eq. intros j. rewrite list_lookup_imap, list_lookup_fmap.
    destruct (vals v !! j) as [[x|]|] eqn:Ej; try done. cbn. unfold bool_at. rewrite (Hm _ _ Ej). by rewrite Td. }
  destruct (non_null d) as [| |lo up] eqn:En.
  - rewrite Hmap; [done|]. intros j x Hj. apply lookup_replicate_2. by eapply lookup_lt_Some.
  - rewrite Hmap; [done|]. intros j x Hj. apply lookup_replicate_2. by eapply lookup_lt_Some.
  - destruct Wd as (Ho & Wlo & Wup).
    destruct (bound_mask_spec t v lo "ge" "gt" OpGe OpGt Wv') as (m1 & -> & L1 & M1); [congruence|done..|].
    destruct (bound_mask_spec t v up "le" "lt" OpLe OpLt Wv') as (m2 & -> & L2 & M2); [congruence|done..|].
    unfold and_kleene. rewrite arrow_and_kleene_spec by congruence. cbn [map_err]. rewrite Hmap; [done|].
    intros j x Hj. rewrite lookup_zip_with, (M1 _ _ Hj), (M2 _ _ Hj). cbn. do 2 f_equal.
    unfold in_non_null, above, below. destruct lo as [a|a|], up as [a'|a'|]; cbn;
      try destruct (scalar_value a); try destruct (scalar_value a'); cbn;
      try destruct (sql_ord t x _); try destruct (sql_ord t x _); done.
Qed.
End sound.

(** * The theorems *)

(** A predicate the parser accepts is a Boolean expression over the
    bind schema, or an advisory runtime filter; it is nested at most 64 deep and
    is charged at least its nodes against the document's limit of 10000; a delta
    never yields a required predicate. *)
Theorem filter_parse_typed p w delta n pr n' : wf_parser p → predicate p w delta n = Ok (pr, n') →
  wf_predicate (ps_schema p) pr ∧ Z.of_nat (height (p_expression pr)) ≤ MAX_DEPTH ∧
  n + Z.of_nat (node_count (p_expression pr)) ≤ n' ≤ MAX_NODES ∧
  (delta = true → p_mode pr = Advisory).
Proof.
  intros W E. destruct (predicate_wf _ _ _ _ _ _ W E) as (? & ? & ? & ? & _ & _ & ?). auto 10.
Qed.

(** C36: Type soundness of filters: a parsed predicate whose arithmetic is on
    [Float64] evaluates, on a batch of the bind schema, to a Boolean array with
    one cell per row, if it evaluates at all. *)
Theorem filter_eval_typed `{ArrowLaws} p w delta n pr n' b a : wf_parser p →
  predicate p w delta n = Ok (pr, n') → float_arithmetic (p_expression pr) = true →
  conforms (ps_schema p) b → eval (p_expression pr) b = Ok a →
  arr_type a = Boolean ∧ len a = num_rows b ∧ wf_array a.
Proof.
  intros W E Hf Hb Ea. destruct (predicate_wf _ _ _ _ _ _ W E) as ([[Er _]|Te] & _).
  - by rewrite Er in Ea.
  - exact (eval_shaped _ _ _ _ Hb Te Hf _ Ea).
Qed.

(** C25: On the expressions pruning supports, provided that every struct field
    they test with [IS NULL] has a type with a validity buffer (not [Null],
    [Union] or [RunEndEncoded]: [maskable_fields]), the vectorised evaluator never
    fails on a batch of the bind schema, and each cell of its result is the
    three-valued SQL truth of the expression in that row.
    [unmaskable_field_prunes_accepted_row] shows what happens without the proviso. *)
Theorem row_semantics `{ArrowLaws} s b e : conforms s b → typed s e Boolean → supported e = true →
  maskable_fields e = true →
  eval_bool e b = Ok ((λ j, row_truth e (row_cell b j)) <$> seq 0 (num_rows b)).
Proof.
  intros Hb Te Hs Hm. destruct (supported_row_wise _ _ _ Te Hs Hm (conforms_reads _ _ _ _ Hb Te)) as (x & -> & Lx & Vx).
  f_equal. apply list_eq_same_length with (num_rows b); [by rewrite length_fmap, length_seq|done|].
  intros j u v Hj Hu Hv. rewrite (Vx j Hj) in Hu. rewrite list_lookup_fmap, (proj2 (lookup_seq 0 (num_rows b) j j)) in Hv by lia.
  simpl in Hv. congruence.
Qed.

(** C1: For well-typed filters in which every struct field tested with
    [IS NULL] has a type with a validity buffer (not [Null], [Union] or
    [RunEndEncoded]: [maskable_filters]), the domain of a column is always
    inferred, and it is conservative: on any batch of the bind schema,
    [may_contain] keeps the column's value in every row that exact evaluation
    accepts. Without the condition this fails, as
    [unmaskable_field_prunes_accepted_row] shows. *)
Theorem column_domain_sound `{ArrowLaws} f column fld : wf_filters f → maskable_filters f →
  pruning_field f column = Ok fld →
  ∃ d, column_domain f column = Ok d ∧
    ∀ b mask k c, conforms (output_schema f) b → evaluate f b = Ok mask →
      output_schema f !! k = Some fld → columns b !! k = Some c →
      ∃ m, may_contain d c = Ok m ∧ ∀ j, mask !! j = Some (Some true) → m !! j = Some true.
Proof.
  intros Hwf Hmask Hfld. destruct (pruning_field_unique _ _ _ Hfld) as [<- Huniq].
  assert (∃ k, output_schema f !! k = Some fld) as [k Hk].
  { apply list_elem_of_lookup. revert Hfld. unfold pruning_field.
    destruct (filter _ _) as [|x [|]] eqn:Ef; try done. intros [= ->].
    eapply (list_elem_of_filter (λ x, name x = name fld)). rewrite Ef. apply list_elem_of_here. }
  destruct (domain_loop_sound f fld k (predicates f) (universe_of fld) Hwf Hmask Hfld Hk) as (d & Ed & Wd & Sd).
  { done. } { apply universe_wf, universe_is. }
  exists d. unfold column_domain. rewrite Hfld. split; [done|]. intros b mask k' c Hb Em Hk' Hc.
  assert (k' = k) as -> by (by eapply Huniq).
  destruct (conforms_column _ _ _ _ Hb Hk) as (c' & Hc' & Tc & Wc & Lc & _). rewrite Hc in Hc'. injection Hc' as <-.
  eexists. split; [apply (may_contain_spec (logical_value_type (data_type fld))); [done|done|by rewrite Tc]|].
  intros j Hj. assert (j < length (vals c))%nat as Hlt.
  { change (length (vals c)) with (len c). rewrite Lc. apply lookup_lt_Some in Hj.
    unfold evaluate in Em. apply evaluate_loop_length in Em. rewrite Em in Hj. unfold all_true in Hj.
    by rewrite length_replicate in Hj. }
  destruct (lookup_lt_is_Some_2 _ _ Hlt) as [x Hx]. rewrite list_lookup_fmap, Hx. cbn. f_equal.
  eapply Sd; try done. by eapply universe_mem.
Qed.

(** * An example: [a >= 5 AND 9 > a], and the advisory [b IS NOT NULL] *)

Definition field_a : Field := mkField "a" Int64 true [].
Definition field_b : Field := mkField "b" Utf8 true [].
Definition schema_ex : Schema := [field_a; field_b].
Definition int_lit (z : Z) : array := plain_array Int64 [Some (VInt z)].
Definition context_ex : EvaluationContext := mkContext NO_CONTEXT None None None None None None.

Definition payload_ex : RecordBatch :=
  mkRecordBatch [mkField "filter_spec" Utf8 false []; mkField "value_0" Int64 true []; mkField "value_1" Int64 true []]
    {[ "vgi_evaluation_context" := NO_CONTEXT ]}
    [plain_array Utf8 [Some (VBytes "")]; int_lit 5; int_lit 9] 1.
Definition parser_ex : Parser := mkParser payload_ex [] schema_ex.
Definition wire_ex : WirePredicate := mkWirePredicate "p" 0 "required" "query"
  (WAnd [WComparison "ge" (WColumnRef 0 "a") (WLiteral 0); WComparison "gt" (WLiteral 1) (WColumnRef 0 "a")]).
Definition required_ex : Predicate := mkPredicate "p" 0 Required
  (And [Comparison "ge" (Column 0 "a" Int64) (Literal (int_lit 5));
        Comparison "gt" (Literal (int_lit 9)) (Column 0 "a" Int64)]).
Definition advisory_ex : Predicate := mkPredicate "q" 0 Advisory (IsNull (Column 1 "b" Utf8) true).
Definition filters_ex : PushdownFilters :=
  mkFilters [required_ex; advisory_ex] {[ "p" := 0; "q" := 0 ]} {[ "p" ]} context_ex [] schema_ex.
Definition batch_ex : RecordBatch :=
  mkRecordBatch schema_ex ∅
    [plain_array Int64 [Some (VInt 3); Some (VInt 5); None; Some (VInt 9); Some (VInt 8)];
     plain_array Utf8 [Some (VBytes "x"); Some (VBytes "y"); Some (VBytes "z"); None; None]] 5.

Example evaluate_ex : evaluate filters_ex batch_ex =
  Ok [Some false; Some true; None; Some false; Some false].
Proof. vm_compute. reflexivity. Qed.

Lemma int_lit_wf z : (- 2 ^ 63 <=? z) && (z <? 2 ^ 63) = true → wf_array (int_lit z).
Proof. intros Hz. apply wf_plain. constructor; [exact Hz|constructor]. Qed.

Lemma parser_ex_wf : wf_parser parser_ex.
Proof.
  split; [|done|constructor].
  repeat (constructor; [split; [done|]; split; [apply wf_plain; by repeat constructor|by split]|]). constructor.
Qed.

Lemma filters_ex_wf : wf_filters filters_ex.
Proof.
  constructor; [right|constructor; [right|constructor]].
  - constructor. constructor; [|constructor; [|constructor]];
      (eapply T_comparison; [reflexivity| | |reflexivity]);
      (apply (T_column schema_ex 0 field_a); reflexivity) || (apply T_literal; [by apply int_lit_wf|reflexivity]).
  - eapply T_is_null. apply (T_column schema_ex 1 field_b). reflexivity.
Qed.

Lemma batch_ex_conforms : conforms schema_ex batch_ex.
Proof.
  split; [done|].
  repeat (constructor; [split; [done|]; split; [apply wf_plain; by repeat constructor|by split]|]). constructor.
Qed.

Lemma filter_parse_typed_witness :
  predicate parser_ex wire_ex false 0 = Ok (required_ex, 7) ∧
  wf_predicate schema_ex required_ex ∧ Z.of_nat (height (p_expression required_ex)) ≤ MAX_DEPTH ∧
  0 + Z.of_nat (node_count (p_expression required_ex)) ≤ 7 ≤ MAX_NODES ∧
  (false = true → p_mode required_ex = Advisory).
Proof.
  assert (predicate parser_ex wire_ex false 0 = Ok (required_ex, 7)) as E by (vm_compute; reflexivity).
  split; [exact E|]. exact (filter_parse_typed parser_ex wire_ex false 0 required_ex 7 parser_ex_wf E).
Defined.

Lemma filter_eval_typed_witness :
  eval (p_expression required_ex) batch_ex = Ok (of_bools [Some false; Some true; None; Some false; Some true]) ∧
  len (of_bools [Some false; Some true; None; Some false; Some true]) = num_rows batch_ex.
Proof.
  assert (predicate parser_ex wire_ex false 0 = Ok (required_ex, 7)) as E by (vm_compute; reflexivity).
  assert (eval (p_expression required_ex) batch_ex =
    Ok (of_bools [Some false; Some true; None; Some false; Some true])) as Ev by (vm_compute; reflexivity).
  split; [exact Ev|].
  apply (filter_eval_typed parser_ex wire_ex false 0 required_ex 7 batch_ex _ parser_ex_wf E eq_refl
           batch_ex_conforms Ev).
Defined.

Lemma row_semantics_witness :
  eval_bool (p_expression required_ex) batch_ex =
  Ok ((λ j, row_truth (p_expression required_ex) (row_cell batch_ex j)) <$> seq 0 5).
Proof.
  refine (row_semantics schema_ex batch_ex (p_expression required_ex) batch_ex_conforms _ _ _);
    [|vm_compute; reflexivity|vm_compute; reflexivity].
  pose proof filters_ex_wf as Hwf. apply Forall_cons in Hwf as [[[? _]|Te] _]; [discriminate|exact Te].
Defined.

Lemma column_domain_sound_witness :
  ∃ d, column_domain filters_ex "a" = Ok d ∧
    ∀ b mask k c, conforms (output_schema filters_ex) b → evaluate filters_ex b = Ok mask →
      output_schema filters_ex !! k = Some field_a → columns b !! k = Some c →
      ∃ m, may_contain d c = Ok m ∧ ∀ j, mask !! j = Some (Some true) → m !! j = Some true.
Proof.
  refine (column_domain_sound filters_ex "a" field_a filters_ex_wf _ _); [|vm_compute; reflexivity].
  repeat constructor.
Defined.

(** [a + a = 5] over a column of 64-bit integers. *)
Definition sum_ex : Expr := Arithmetic "add" (Column 0 "a" Int64) (Column 0 "a" Int64).
Definition wire_sum : WirePredicate := mkWirePredicate "p" 0 "required" "query"
  (WComparison "eq" (WArithmetic "add" (WColumnRef 0 "a") (WColumnRef 0 "a")) (WLiteral 0)).

(** The parser binds [a + a = 5] as a comparison of [Int64] values, but the
    evaluator computes the sum as [Float64] with any kernels, and the comparison
    of the two fails where the kernels compare equal types only: a required filter
    the parser accepts fails on every batch. *)
Theorem integer_arithmetic_unevaluable :
  predicate parser_ex wire_sum false 0 =
    Ok (mkPredicate "p" 0 Required (Comparison "eq" sum_ex (Literal (int_lit 5))), 5) ∧
  expr_type sum_ex = Some Int64 ∧
  (∀ (A : Arrow), ArrowLaws → ∀ v, eval sum_ex batch_ex = Ok v → arr_type v = Float64) ∧
  eval_bool (Comparison "eq" sum_ex (Literal (int_lit 5))) batch_ex =
    Err (RuntimeError "filter: Invalid comparison operation").
Proof.
  split; [vm_compute; reflexivity|]. split; [done|]. split; [|vm_compute; reflexivity].
  intros A L v E.
  destruct (eval_column_conforms schema_ex batch_ex 0 field_a batch_ex_conforms eq_refl) as (c & Ec & _ & _ & Wc & _).
  change (eval_column batch_ex 0 "a" Int64 = Ok c) in Ec. unfold sum_ex in E. cbn [eval] in E. rewrite Ec in E.
  by destruct (arithmetic_ok c c "add" v Wc Wc E).
Qed.
