(* ===== verification/PushdownMatch.v ===== *)
(** Soundness of [may_match] ([vgi/src/pushdown/pruning.rs]): a row of known
    columns is ruled out only when no full row with those values satisfies the
    filters.  Sets of truth values are bit masks. *)
From S2P Require Import Prelude Float64 Arrow ArrowModel SqlCompare Pushdown PushdownParse PushdownEval.
From S2P Require Import PushdownPruning PushdownRow PushdownDomain PushdownSound.

Open Scope Z_scope.

(** * Sets of outcomes *)

Definition has (v : Z) (o : Outcome) : bool := Z.testbit v (outcome_index o).

Lemma has_land v o : negb (Z.land v (outcome_bit o) =? 0) = has v o.
Proof.
  unfold has, outcome_bit. rewrite Z.shiftl_1_l. set (k := outcome_index o).
  assert (0 ≤ k) as Hk by (by destruct o).
  destruct (Z.testbit v k) eqn:E.
  - apply negb_true_iff, Z.eqb_neq. intros Hz.
    assert (Z.testbit (Z.land v (2 ^ k)) k = true) as Ht by (rewrite Z.land_spec, E, Z.pow2_bits_true; done).
    rewrite Hz, Z.bits_0 in Ht. done.
  - apply negb_false_iff, Z.eqb_eq. apply Z.bits_inj'. intros i Hi. rewrite Z.bits_0, Z.land_spec.
    destruct (Z.eq_dec i k) as [->|Hne]; [by rewrite E|]. rewrite Z.pow2_bits_false by lia. apply andb_false_r.
Qed.

Lemma has_lor a b o : has (Z.lor a b) o = has a o || has b o.
Proof. apply Z.lor_spec. Qed.

Lemma has_bit o o' : has (outcome_bit o) o' = bool_decide (o = o').
Proof. by destruct o, o'. Qed.

Lemma truth_sets_fold l r and pairs acc p q : has l p = true → has r q = true →
  let res := foldl (λ result x, let '(p, q) := x in
    if negb (Z.land l (outcome_bit p) =? 0) && negb (Z.land r (outcome_bit q) =? 0)
    then Z.lor result (outcome_bit (truth p q and)) else result) acc pairs in
  (∀ o, has acc o = true → has res o = true) ∧ ((p, q) ∈ pairs → has res (truth p q and) = true).
Proof.
  intros Hl Hr. induction pairs as [|[p' q'] pairs IH] in acc |- *; cbn [foldl].
  { split; [done|]. by intros ?%not_elem_of_nil. }
  match goal with |- context [foldl _ ?x pairs] => set (acc' := x) end. destruct (IH acc') as [IH1 IH2]. split.
  - intros o Ho. apply IH1. unfold acc'. case_match; [|done]. by rewrite has_lor, Ho.
  - intros [[= -> ->]|Hin]%elem_of_cons; [|by apply IH2]. apply IH1. unfold acc'.
    rewrite !has_land, Hl, Hr. cbn. rewrite has_lor, has_bit, bool_decide_true by done. apply orb_true_r.
Qed.

(** The set of a connective holds the outcome of any two members. *)
Lemma truth_sets_has l r and p q : has l p = true → has r q = true →
  has (truth_sets l r and) (truth p q and) = true.
Proof.
  intros Hl Hr. apply (truth_sets_fold l r and (list_prod outcomes outcomes) 0 p q Hl Hr).
  apply list_elem_of_In, in_prod; destruct p, q; simpl; auto.
Qed.

Definition negate_outcome (o : Outcome) : Outcome := match o with TRUE => FALSE | FALSE => TRUE | NULL => NULL end.

Lemma negate_set_has v o : has v o = true → has (negate_set v) (negate_outcome o) = true.
Proof.
  intros Hv. unfold negate_set. rewrite !has_lor. unfold has in *.
  destruct o; cbn [negate_outcome outcome_index] in *.
  - rewrite Z.shiftl_spec, Z.land_spec by lia. change (1 - 1) with 0. by rewrite Hv.
  - rewrite Z.shiftr_spec, Z.land_spec by lia. change (0 + 1) with 1. rewrite Hv. by rewrite orb_true_r.
  - rewrite (Z.land_spec v 4), Hv. by rewrite orb_true_r.
Qed.

Section matching.
Context `{ArrowLaws}.

(** * Rows that agree *)

Lemma row_value_ext e r r' : reads (λ i n _, r i n = r' i n) e → row_value e r = row_value e r'.
Proof. induction e; cbn; try done. intros Hr. by rewrite IHe. Qed.

Lemma row_truth_ext e r r' : reads (λ i n _, r i n = r' i n) e → row_truth e r = row_truth e r'.
Proof.
  assert (∀ (k : option bool → option bool → option bool) l a,
    Forall (λ e, reads (λ i n _, r i n = r' i n) e → row_truth e r = row_truth e r') l →
    foldr (λ c Q, reads (λ i n _, r i n = r' i n) c ∧ Q) True l →
    foldl (λ acc c, k acc (row_truth c r)) a l = foldl (λ acc c, k acc (row_truth c r')) a l) as Hlist.
  { intros k l a IH. revert a. induction IH as [|c l Hc _ IHl]; intros a; [done|]. cbn. intros [Hr Hl].
    rewrite (Hc Hr). by apply IHl. }
  induction e using Expr_nested_ind; cbn; intros Hr; try done.
  - by rewrite Hr.
  - by rewrite (row_value_ext e r r' Hr).
  - destruct Hr as [Hl Hr]. by rewrite (row_value_ext e1 r r' Hl), (row_value_ext e2 r r' Hr).
  - by apply Hlist.
  - by apply Hlist.
  - by rewrite IHe.
  - by rewrite (row_value_ext e r r' Hr).
  - by rewrite (row_value_ext e r r' Hr).
Qed.

(** * The known columns *)

Section known.
Context (f : PushdownFilters) (known b : RecordBatch) (i j : nat).
Context (Wk : wf_batch known) (Hb : conforms (output_schema f) b).

(** The row [i] of [known] is part of the row [j] of [b]. *)
Definition agrees : Prop :=
  ∀ c k fld, column_by_name known (name fld) = Some c → output_schema f !! k = Some fld →
    ∃ c', columns b !! k = Some c' ∧ vals c !! i = vals c' !! j.

Lemma check_known_spec fields cols names : check_known f names fields cols = Ok tt →
  length fields = length cols →
  NoDup (name <$> fields) ∧ (∀ n, n ∈ name <$> fields → n ∉ names) ∧
  ∀ fld, fld ∈ fields → ∃ a, pruning_field f (name fld) = Ok a ∧ data_type a = data_type fld.
Proof.
  induction fields as [|fld fields IH] in cols, names |- *; cbn [check_known].
  { intros _ _. split; [constructor|]. split; intros ? ?%not_elem_of_nil; done. }
  destruct cols as [|v cols]; [done|]. case_decide as Hn; [done|]. intros E Hlen. inv_ok E.
  apply negb_false_iff, bool_decide_eq_true in E1.
  destruct (IH _ _ E ltac:(by injection Hlen)) as (Hnd & Hni & Hf). cbn. split; [|split].
  - constructor; [|done]. intros Hin. apply (Hni _ Hin). set_solver.
  - intros n [->|Hin]%elem_of_cons; [done|]. specialize (Hni _ Hin). set_solver.
  - intros fld' [->|Hin]%elem_of_cons; [eauto|auto].
Qed.

Context (Hcheck : check_known f ∅ (schema known) (columns known) = Ok tt) (Hag : agrees) (Hi : (i < num_rows known)%nat).

Lemma known_fields : NoDup (name <$> schema known) ∧
  ∀ fld, fld ∈ schema known → ∃ a, pruning_field f (name fld) = Ok a ∧ data_type a = data_type fld.
Proof.
  destruct (check_known_spec _ _ _ Hcheck (Forall2_length _ _ _ Wk)) as (? & _ & ?). done.
Qed.

Lemma names_inj k k' fld fld' : schema known !! k = Some fld → schema known !! k' = Some fld' →
  name fld = name fld' → k = k'.
Proof.
  intros Hk Hk' En. destruct known_fields as [Hnd _].
  apply (NoDup_lookup _ k k' (name fld) Hnd).
  - by rewrite list_lookup_fmap, Hk.
  - rewrite list_lookup_fmap, Hk'. cbn. by rewrite En.
Qed.

Lemma resolve_known idx k fld : schema known !! k = Some fld → resolve_column known idx (name fld) = Ok k.
Proof.
  intros Hk. unfold resolve_column. case_bool_decide as Hidx.
  - destruct (schema known !! idx) as [fld'|] eqn:E; [|done]. injection Hidx as Hn. f_equal. by eapply names_inj.
  - assert (filter (λ x, name <$> schema known !! x = Some (name fld)) (seq 0 (length (schema known))) ≡ₚ [k]) as Hp.
    { apply NoDup_Permutation; [apply NoDup_filter, NoDup_seq|apply NoDup_singleton|]. intros x.
      rewrite list_elem_of_filter, elem_of_seq, list_elem_of_singleton. split.
      - intros [Hx _]. destruct (schema known !! x) as [fld'|] eqn:E; [|done]. injection Hx as Hn. by eapply names_inj.
      - intros ->. rewrite Hk. split; [done|]. apply lookup_lt_Some in Hk. lia. }
    by apply Permutation_singleton_r in Hp as ->.
Qed.

Lemma pruning_field_eq idx fld a : output_schema f !! idx = Some fld → pruning_field f (name fld) = Ok a → a = fld.
Proof.
  intros Hidx. unfold pruning_field. destruct (filter _ _) as [|x [|]] eqn:E; try done. intros [= ->].
  assert (fld ∈ [a]) as Hin by (rewrite <- E; apply list_elem_of_filter; split; [done|by eapply list_elem_of_lookup_2]).
  by apply list_elem_of_singleton in Hin.
Qed.

(** A known column reads as the bind schema says, with the cells of the full row. *)
Lemma known_column idx fld : output_schema f !! idx = Some fld →
  is_some (column_by_name known (name fld)) = true →
  column_ok known idx (name fld) (data_type fld) ∧
  row_cell known i idx (name fld) = row_cell b j idx (name fld).
Proof.
  intros Hidx Hsome. destruct (column_by_name known (name fld)) as [c|] eqn:Ec; [|done].
  pose proof Ec as Ec'. unfold column_by_name in Ec'. destruct (find_field _ _) as [[k fld']|] eqn:Ef; [|done]. cbn in Ec'.
  apply list_find_Some in Ef as (Hk & Hn & _).
  destruct (wf_batch_lookup _ _ _ _ Wk Hk Ec') as (Tc & Wc & Lc).
  destruct known_fields as [_ Hf]. destruct (Hf fld') as (a & Ha & Ta); [by eapply list_elem_of_lookup_2|].
  rewrite Hn in Ha. apply (pruning_field_eq idx) in Ha as ->; [|done].
  pose proof (resolve_known idx k fld' Hk) as Er. rewrite Hn in Er. split.
  - exists k, c. split; [done|]. split; [done|]. unfold eval_column. rewrite Er, Hk, Ec'.
    rewrite decide_True by done. split; [done|]. split; [congruence|done].
  - unfold row_cell. rewrite Er, (resolve_conforms _ _ _ _ Hb Hidx), Ec'.
    destruct (Hag c idx fld Ec Hidx) as (c' & -> & Hcells). cbn. by rewrite Hcells.
Qed.

Lemma available_reads (P : nat → string → DataType → Prop) e t :
  (∀ idx fld, output_schema f !! idx = Some fld → is_some (column_by_name known (name fld)) = true →
              P idx (name fld) (data_type fld)) →
  typed (output_schema f) e t → available e known = true → reads P e.
Proof.
  intros HP Te. induction Te; cbn; try done; auto. rewrite andb_true_iff. naive_solver.
Qed.

(** The mask [v] of the known row holds the outcome of [e] in the full row. *)
Definition covers (e : Expr) (v : list Z) : Prop :=
  length v = num_rows known ∧
  ∀ r o, eval_bool e b = Ok r → r !! j = Some o → ∃ z, v !! i = Some z ∧ has z (cell_outcome o) = true.

Lemma unknown_covers e : covers e (replicate (num_rows known) UNKNOWN).
Proof.
  split; [apply length_replicate|]. intros r o _ _. exists UNKNOWN. split; [by apply lookup_replicate_2|].
  by destruct (cell_outcome o).
Qed.

Lemma leaf_covers e v : typed (output_schema f) e Boolean → maskable_fields e = true →
  partial_leaf e known = Ok v → covers e v.
Proof.
  intros Te Hm. unfold partial_leaf. destruct (supported e && available e known) eqn:Es.
  2: { intros [= <-]. apply unknown_covers. }
  apply andb_true_iff in Es as [Hs Hav]. intros E. inv_ok E. injection E as <-.
  assert (reads (column_ok known) e) as Hr by (eapply available_reads; [|done|done]; intros; by apply known_column).
  assert (reads (λ x n _, row_cell known i x n = row_cell b j x n) e) as Hr'
    by (eapply available_reads; [|done|done]; intros; by apply known_column).
  destruct (supported_row_wise _ known e Te Hs Hm Hr) as (x & Ex & Lx & Vx). rewrite E0 in Ex. injection Ex as ->.
  split; [by rewrite length_fmap|]. intros r o Er Ho.
  destruct (supported_row_wise _ b e Te Hs Hm (conforms_reads _ _ _ _ Hb Te)) as (y & Ey & Ly & Vy).
  rewrite Er in Ey. injection Ey as ->. assert (j < num_rows b)%nat as Hj by (rewrite <- Ly; by eapply lookup_lt_Some).
  rewrite (Vy j Hj) in Ho. injection Ho as <-. rewrite list_lookup_fmap, (Vx i Hi). eexists. split; [done|].
  rewrite (row_truth_ext e _ _ Hr'), has_bit. by apply bool_decide_true.
Qed.

(** The fold of a connective over its children, on masks. *)
Definition partial_fold (and : bool) : list Expr → list Z → result (list Z) RpcError :=
  fix fold (l : list Expr) (acc : list Z) : result (list Z) RpcError :=
    match l with
    | [] => Ok acc
    | c :: l =>
        let? v := partial c known in
        fold l (zip_with (λ row value, truth_sets row value and) acc v)
    end.

Lemma partial_fold_covers (and : bool) l acc v :
  Forall (λ e, ∀ w, partial e known = Ok w → covers e w) l → length acc = num_rows known →
  partial_fold and l acc = Ok v →
  length v = num_rows known ∧
  ∀ a r q o z, fold_bool (connective and) b l a = Ok r → r !! j = Some o → a !! j = Some q →
    acc !! i = Some z → has z (cell_outcome q) = true →
    ∃ z', v !! i = Some z' ∧ has z' (cell_outcome o) = true.
Proof.
  intros Hl. induction Hl as [|e l He _ IH] in acc |- *; intros La E; cbn [partial_fold] in E.
  { injection E as <-. split; [done|]. cbn. intros a r q o z [= <-] Ho Hq Hz Hh. simplify_eq. eauto. }
  fold (partial_fold and) in E. inv_ok E. destruct (He _ eq_refl) as [Lw Cw].
  apply IH in E as [Lv Cv]; [|rewrite length_zip_with; lia]. split; [done|].
  intros x r q o z Ef Hr Hq Hz Hh. cbn [fold_bool] in Ef. fold (fold_bool (connective and) b) in Ef. inv_ok Ef.
  assert (is_Some (a1 !! j)) as [p Ep].
  { apply lookup_lt_is_Some. rewrite <- (fold_connective_length _ _ _ _ _ Ef). by eapply lookup_lt_Some. }
  destruct (connective_cell and _ _ _ _ _ E1 Ep) as (q' & p' & Hq' & Hp' & Ecell).
  rewrite Hq in Hq'. injection Hq' as <-. destruct (Cw _ _ eq_refl Hp') as (z' & Hz' & Hh').
  eapply (Cv a1 r p o); [done|done|done| |].
  - rewrite lookup_zip_with, Hz, Hz'. done.
  - rewrite Ecell. by apply truth_sets_has.
Qed.

Lemma connective_covers (and : bool) l v : Forall (λ e, ∀ w, partial e known = Ok w → covers e w) l →
  partial_fold and l (replicate (num_rows known) (outcome_bit (if and then TRUE else FALSE))) = Ok v →
  covers (if and then And l else Or l) v.
Proof.
  intros Hl E. destruct (partial_fold_covers and l _ v Hl ltac:(apply length_replicate) E) as [Lv Cv].
  split; [done|]. intros r o Er Ho.
  assert (fold_bool (connective and) b l (replicate (num_rows b) (Some and)) = Ok r) as Ef.
  { unfold eval_bool in Er. destruct and; rewrite ?eval_And, ?eval_Or in Er; inv_ok Er; inv_ok E0;
      injection E0 as <-; rewrite to_bool_of_bools in Er; by injection Er as <-. }
  eapply (Cv _ r (Some and) o _ Ef Ho).
  - apply lookup_replicate_2. rewrite <- (length_replicate (num_rows b) (Some and)).
    rewrite <- (fold_connective_length _ _ _ _ _ Ef). by eapply lookup_lt_Some.
  - by apply lookup_replicate_2.
  - rewrite has_bit. apply bool_decide_true. by destruct and.
Qed.

Lemma not_covers e v : covers e v → covers (Not e) (negate_set <$> v).
Proof.
  intros [Lv Cv]. split; [by rewrite length_fmap|]. intros r o E Ho. unfold eval_bool in E.
  cbn [eval] in E. change (let? a := eval e b in to_bool a) with (eval_bool e b) in E. inv_ok E. inv_ok E0.
  rewrite arrow_not_spec in E2. injection E2 as <-. injection E0 as <-. rewrite to_bool_of_bools in E.
  injection E as <-. rewrite list_lookup_fmap in Ho. destruct (a0 !! j) as [p|] eqn:Ep; [|done].
  injection Ho as <-. destruct (Cv _ _ eq_refl Ep) as (z & Hz & Hh). rewrite list_lookup_fmap, Hz.
  eexists. split; [done|]. apply negate_set_has in Hh. by destruct p as [[]|].
Qed.

Lemma partial_covers e v : typed (output_schema f) e Boolean → maskable_fields e = true →
  partial e known = Ok v → covers e v.
Proof.
  assert (∀ l, Forall (λ e, ∀ v, typed (output_schema f) e Boolean → maskable_fields e = true →
    partial e known = Ok v → covers e v) l → Forall (λ e, typed (output_schema f) e Boolean) l →
    forallb maskable_fields l = true → Forall (λ e, ∀ w, partial e known = Ok w → covers e w) l) as Hlist.
  { intros l IH Ht. induction Ht; inversion_clear IH; cbn; [constructor|]. rewrite andb_true_iff.
    intros [? ?]. constructor; auto. }
  revert v. induction e using Expr_nested_ind; intros w Te Hm E; try (by apply leaf_covers).
  - inversion Te; subst. apply (connective_covers true); [by apply Hlist|exact E].
  - inversion Te; subst. apply (connective_covers false); [by apply Hlist|exact E].
  - inversion Te; subst. cbn [partial] in E. inv_ok E. injection E as <-. apply not_covers. by apply IHe.
Qed.

(** Through the predicates, TRUE stays possible for an accepted row. *)
Lemma match_loop_true mask ps possible z : wf_filters f → maskable_filters f →
  evaluate f b = Ok mask → mask !! j = Some (Some true) → (∀ p, p ∈ ps → p ∈ predicates f) →
  possible !! i = Some z → has z TRUE = true →
  ∃ z', match_loop ps known possible !! i = Some z' ∧ has z' TRUE = true.
Proof.
  intros Hwf Hmask Em Hj. induction ps as [|p ps IH] in possible, z |- *; intros Hps Hz Hh; cbn [match_loop].
  { eauto. }
  assert (∀ q, q ∈ ps → q ∈ predicates f) as Hps' by (intros; apply Hps; by apply list_elem_of_further).
  assert (p ∈ predicates f) as Hp by (apply Hps, list_elem_of_here).
  destruct (bool_decide _ && _) eqn:Eu; [by eapply IH|].
  destruct (partial (p_expression p) known) as [v|] eqn:Ep; [|by eapply IH].
  destruct (used_predicate_true f b mask j p Hwf Hmask Hb Em Hj Hp Eu) as (Te & x & Hx & Hxj).
  pose proof Hmask as Hm. unfold maskable_filters in Hm. rewrite Forall_forall in Hm.
  destruct (partial_covers _ _ Te (Hm p Hp) Ep) as [_ Cv]. destruct (Cv _ _ Hx Hxj) as (z' & Hz' & Hh').
  eapply (IH _ (truth_sets z z' true)); [done| |].
  - by rewrite lookup_zip_with, Hz, Hz'.
  - exact (truth_sets_has z z' true TRUE TRUE Hh Hh').
Qed.
End known.
End matching.

(** C4: For well-typed filters in which every struct field tested with
    [IS NULL] has a type with a validity buffer (not [Null], [Union] or
    [RunEndEncoded]: [maskable_filters]), [may_match] never rules out a matching
    row: when a full batch of the bind schema has a row that agrees with row [i]
    of the known columns and that exact evaluation accepts, the mask keeps row
    [i]. Without the condition this fails, as
    [unmaskable_field_prunes_accepted_row] shows. *)
Theorem may_match_sound `{ArrowLaws} f known b i j m mask : wf_filters f → maskable_filters f →
  wf_batch known → conforms (output_schema f) b → may_match f known = Ok m → (i < num_rows known)%nat →
  agrees f known b i j → evaluate f b = Ok mask → mask !! j = Some (Some true) → m !! i = Some true.
Proof.
  intros Hwf Hmask Wk Hb E Hi Hag Em Hj. unfold may_match in E. inv_ok E. destruct a. injection E as <-.
  destruct (match_loop_true f known b i j Wk Hb E0 Hag Hi mask (predicates f)
    (replicate (num_rows known) (outcome_bit TRUE)) (outcome_bit TRUE) Hwf Hmask Em Hj) as (z & Hz & Hh).
  { done. } { by apply lookup_replicate_2. } { done. }
  rewrite list_lookup_fmap, Hz. cbn. f_equal. change 1 with (outcome_bit TRUE). by rewrite has_land.
Qed.

(** Only the column [a] is known. *)
Definition known_ex : RecordBatch :=
  mkRecordBatch [field_a] ∅ [plain_array Int64 [Some (VInt 5); Some (VInt 12)]] 2.

Lemma may_match_sound_witness :
  may_match filters_ex known_ex = Ok [true; false] ∧ [true; false] !! 0%nat = Some true.
Proof.
  assert (may_match filters_ex known_ex = Ok [true; false]) as E by (vm_compute; reflexivity).
  split; [exact E|].
  refine (may_match_sound filters_ex known_ex batch_ex 0 1 [true; false]
           [Some false; Some true; None; Some false; Some false] filters_ex_wf _ _ batch_ex_conforms E _ _ _ _).
  - repeat constructor.
  - constructor; [|constructor]. split; [done|]. split; [apply wf_plain; by repeat constructor|by split].
  - cbn. lia.
  - intros c k fld Hc Hk. destruct k as [|[|k]]; [| |discriminate Hk]; cbn in Hk.
    + injection Hk as <-. cbn in Hc. eexists. split; [reflexivity|]. by injection Hc as <-.
    + injection Hk as <-. discriminate Hc.
  - vm_compute. reflexivity.
  - reflexivity.
Defined.

(** * A struct field without a validity buffer *)

(** The advisory filter [s.u IS NULL AND a = 5] over a struct [s] with a union
    field [u], on a batch whose second struct is NULL. *)
Definition union_type : DataType := Union [] 0.
Definition struct_type : DataType := Struct [mkField "u" union_type true []].
Definition schema_union : Schema := [mkField "s" struct_type true []; field_a].
Definition union_predicate : Predicate := mkPredicate "p" 0 Advisory
  (And [IsNull (FieldRef (Column 0 "s" struct_type) 0 "u" union_type) false;
        Comparison "eq" (Column 1 "a" Int64) (Literal (int_lit 5))]).
Definition filters_union : PushdownFilters :=
  mkFilters [union_predicate] {[ "p" := 0 ]} ∅ context_ex [] schema_union.
Definition batch_union : RecordBatch :=
  mkRecordBatch schema_union ∅
    [plain_array struct_type [Some (VStruct [Some (VOther 1)]); None];
     plain_array Int64 [Some (VInt 6); Some (VInt 5)]] 2.
Definition known_union : RecordBatch :=
  mkRecordBatch [field_a] ∅ [plain_array Int64 [Some (VInt 6)]] 1.

Lemma filters_union_wf : wf_filters filters_union.
Proof.
  constructor; [right|constructor]. constructor. constructor; [|constructor; [|constructor]].
  - eapply T_is_null. apply (T_field _ _ [mkField "u" union_type true []] 0 (mkField "u" union_type true [])); [|reflexivity].
    apply (T_column schema_union 0 (mkField "s" struct_type true [])). reflexivity.
  - eapply T_comparison; [reflexivity| | |reflexivity].
    + apply (T_column schema_union 1 field_a). reflexivity.
    + apply T_literal; [by apply int_lit_wf|reflexivity].
Qed.

(** Why pruning needs [maskable_filters]: on well-typed filters that test a
    union field for NULL, the kernels refuse the struct's NULLs, the advisory
    predicate is skipped and the row with [a = 6] is accepted, while the inferred
    domain of [a] and [may_match] rule it out. *)
Theorem unmaskable_field_prunes_accepted_row :
  wf_filters filters_union ∧ conforms schema_union batch_union ∧
  supported (p_expression union_predicate) = true ∧
  eval_bool (p_expression union_predicate) batch_union =
    Err (RuntimeError "filter: array cannot contain a null bitmask") ∧
  evaluate filters_union batch_union = Ok [Some true; Some true] ∧
  (let? d := column_domain filters_union "a" in
   may_contain d (plain_array Int64 [Some (VInt 6); Some (VInt 5)])) = Ok [false; true] ∧
  may_match filters_union known_union = Ok [false].
Proof.
  split; [exact filters_union_wf|]. split.
  { split; [done|].
    repeat (constructor; [split; [done|]; split; [apply wf_plain; by repeat constructor|by split]|]). constructor. }
  repeat (split; [vm_compute; reflexivity|]). vm_compute. reflexivity.
Qed.
