(* ===== verification/PushdownDelta.v ===== *)
(** Dynamic filters, [vgi/src/pushdown.rs]: documents and contexts, the initial
    snapshot, deltas applied atomically to the filters of a scan, and the
    compacted delta history an HTTP stream replays every turn.  The Arrow IPC
    reader and serde's decoders are the operations of the class [FilterWire]. *)
From S2P Require Import Prelude Float64 Arrow ArrowModel SqlCompare Pushdown PushdownParse PushdownEval.
From S2P Require Import PushdownPruning PushdownRow PushdownDomain PushdownSound.

Open Scope Z_scope.

(** * Base64 *)

Definition b64_code (b : byte) : option Z :=
  let z := Z_of_byte b in
  if (65 <=? z) && (z <=? 90) then Some (z - 65)
  else if (97 <=? z) && (z <=? 122) then Some (z - 97 + 26)
  else if (48 <=? z) && (z <=? 57) then Some (z - 48 + 52)
  else if z =? 43 then Some 62
  else if z =? 47 then Some 63
  else None.

(** [u8::is_ascii_whitespace] and the padding. *)
Definition b64_skipped (b : byte) : bool :=
  existsb (Z.eqb (Z_of_byte b)) [9; 10; 12; 13; 32; 61].

(** Up to four characters. *)
Definition b64_chunk (chunk : bytes) : option bytes :=
  codes ← mapM b64_code chunk;
  let bits := foldl (λ bits c, Z.lor (Z.shiftl bits 6) c) 0 codes in
  let bits := Z.shiftl bits (6 * (4 - Z.of_nat (length chunk))) in
  Some ((λ index, byte_of_Z (Z.shiftr bits (16 - Z.of_nat index * 8))) <$> seq 0 (length chunk - 1)).

Fixpoint b64_chunks (l : bytes) : option bytes :=
  match l with
  | a :: b :: c :: d :: rest =>
      x ← b64_chunk [a; b; c; d]; y ← b64_chunks rest; Some (x ++ y)
  | [] => Some []
  | l => b64_chunk l
  end.

Definition b64_decode (s : string) : option bytes :=
  let clean := filter (λ c, b64_skipped c = false) (as_bytes s) in
  if (length clean mod 4 =? 1)%nat then None else b64_chunks clean.

(** * Documents *)

Inductive Document :=
| Snapshot (encoding semantics : string) (predicates : list Json)
| Delta (encoding semantics : string) (updates : list Json).

Record WireUpdate := mkWireUpdate {
  wu_operation : string;
  wu_id : string;
  wu_revision : Z;
  wu_mode : option string;
  wu_source : option string;
  wu_expression : option WireExpr;
}.

(** [Value::get] on an object, [as_str] and [as_u64]. *)
Definition json_get (key : string) (j : Json) : option Json :=
  match j with JObject ms => snd ∘ snd <$> list_find (λ p, p.1 = key) ms | _ => None end.
Definition as_json_str (j : Json) : option string := match j with JString s => Some s | _ => None end.
Definition as_u64 (j : Json) : option Z :=
  match j with JNumber n => if (0 <=? n) && (n <? 2 ^ 64) then Some n else None | _ => None end.

(** The IPC reader and serde's decoders; a decoding error is its text. *)
Class FilterWire := {
  read_schema : bytes → result Schema RpcError;
  read_batch : bytes → result RecordBatch RpcError;
  parse_document : string → result Document string;
  parse_wire_predicate : Json → result WirePredicate string;
  parse_wire_update : Json → result WireUpdate string;
}.

(** What their documentation gives: the reader returns well-formed batches, and
    an update decoded from an object has the object's id and revision. *)
Class FilterWireLaws `{FilterWire} : Prop := {
  read_batch_wf bs b : read_batch bs = Ok b → wf_batch b;
  parse_wire_update_id j u : parse_wire_update j = Ok u →
    (json_get "id" j ≫= as_json_str) = Some (wu_id u) ∧
    (json_get "revision" j ≫= as_u64) = Some (wu_revision u);
}.

Definition json_error (e : string) : RpcError := ValueError ("invalid filter JSON: " +:+ e).

Definition validate_wire_schema (s : Schema) : result unit RpcError :=
  match s with
  | [] => value_error "filter RecordBatch has no filter_spec"
  | first :: _ =>
      if negb (String.eqb (name first) "filter_spec") || negb (bool_decide (data_type first = Utf8))
         || is_nullable first
      then value_error "first field must be filter_spec: utf8 not null" else Ok tt
  end.

Definition context_keys : list string :=
  ["vgi_time_zone"; "vgi_calendar"; "vgi_default_collation"; "vgi_ieee_floating_point_ops";
   "vgi_integer_division"; "vgi_context_provider_fingerprint"].

Definition context_get (md : gmap string string) (key : string) : result string RpcError :=
  match md !! key with
  | Some v => Ok v
  | None => value_error ("missing schema metadata " +:+ key)
  end.

Definition parse_context (md : gmap string string) : result EvaluationContext RpcError :=
  let? encoding := context_get md "vgi_filter_encoding" in
  if negb (String.eqb encoding ENCODING) then value_error "unsupported filter encoding/version"
  else let? version := context_get md "vgi_filter_version" in
  if negb (String.eqb version VERSION) then value_error "unsupported filter encoding/version"
  else let? prof := context_get md "vgi_evaluation_context" in
  if String.eqb prof NO_CONTEXT then
    if existsb (λ key, is_some (md !! key)) context_keys
    then value_error "vgi.none.v1 forbids session context metadata"
    else Ok (mkContext prof None None None None None None)
  else if negb (String.eqb prof SESSION_CONTEXT) then value_error "unknown evaluation context"
  else value_error "vgi.duckdb.session.v1 evaluation context was not advertised".

(** The names of the payload fields: canonical and distinct, types NULL. *)
Fixpoint check_payloads (names : gset string) (fields : list Field) (cols : list array) :
    result unit RpcError :=
  match fields, cols with
  | field :: fields, col :: cols =>
      if bool_decide (name field ∈ names) || negb (canonical_payload_name (name field))
      then value_error "noncanonical or duplicate payload field name"
      else if starts_with (name field) "type_" && negb (is_null col 0)
      then value_error "type payload must contain NULL"
      else check_payloads ({[name field]} ∪ names) fields cols
  | _, _ => Ok tt
  end.

Section wire.
Context `{FilterWire}.

Definition validate_batch (batch : RecordBatch) : result (EvaluationContext * Document) RpcError :=
  if negb (num_rows batch =? 1)%nat then value_error "filter RecordBatch must contain exactly one row"
  else match schema batch, columns batch with
  | first :: fields, column :: cols =>
      if negb (String.eqb (name first) "filter_spec") || negb (bool_decide (data_type first = Utf8))
      then value_error "first field must be filter_spec: utf8 not null"
      else match downcast_strings column with
      | None => value_error "filter_spec is not utf8"
      | Some strings =>
          if is_null column 0 then value_error "filter_spec must not be NULL"
          else let raw := default "" (mjoin (strings !! 0%nat)) in
          if MAX_JSON <? Z.of_nat (String.length raw) then value_error "filter JSON exceeds 1 MiB"
          else let? _ := check_payloads ∅ fields cols in
               let? ctx := parse_context (schema_metadata batch) in
               let? doc := map_err json_error (parse_document raw) in
               Ok (ctx, doc)
      end
  | _, _ => value_error "filter RecordBatch has no filter_spec"
  end.

(** * The snapshot *)

(** The loop of [parse_snapshot_batch]; [acc] are the predicates so far. *)
Fixpoint snapshot_loop (p : Parser) (raws : list Json) (nodes : Z) (acc : list Predicate)
    (revs : gmap string Z) (required : gset string) :
    result (list Predicate * gmap string Z * gset string) RpcError :=
  match raws with
  | [] => Ok (acc, revs, required)
  | raw :: raws =>
      let? wire := map_err json_error (parse_wire_predicate raw) in
      let? (pr, nodes) := predicate p wire false nodes in
      if negb (p_revision pr =? 0) then value_error "snapshot predicate revisions must be zero"
      else if is_some (revs !! p_id pr) then value_error "duplicate predicate ID"
      else snapshot_loop p raws nodes (acc ++ [pr]) (<[p_id pr := 0]> revs)
             (if decide (p_mode pr = Required) then {[p_id pr]} ∪ required else required)
  end.

Definition parse_snapshot_batch (batch : RecordBatch) (keys : list RecordBatch)
    (output : option Schema) : result PushdownFilters RpcError :=
  let? (ctx, doc) := validate_batch batch in
  match doc with
  | Delta _ _ _ => value_error "initial filter document must be a snapshot"
  | Snapshot encoding semantics raws =>
      let? _ := validate_header encoding semantics in
      if (MAX_PREDICATES <? length raws)%nat then value_error "snapshot exceeds predicate limit"
      else if negb (length raws =? 0)%nat && negb (is_some output) then
        value_error "Filter Encoding v2 requires the authoritative unprojected bind output schema"
      else
      let s := default [] output in
      let? (ps, revs, required) := snapshot_loop (mkParser batch keys s) raws 0 [] ∅ ∅ in
      Ok (mkFilters ps revs required ctx keys s)
  end.

Fixpoint read_batches (l : list bytes) : result (list RecordBatch) RpcError :=
  match l with
  | [] => Ok []
  | x :: l => let? b := read_batch x in let? bs := read_batches l in Ok (b :: bs)
  end.

(** [parse_with_join_keys_and_schema]. *)
Definition parse_filters (bs : bytes) (keys : list bytes) (output : option Schema) :
    result PushdownFilters RpcError :=
  if MAX_PAYLOAD <? Z.of_nat (length bs) then value_error "filter payload exceeds 16 MiB"
  else let? s := read_schema bs in
       let? _ := validate_wire_schema s in
       let? batch := read_batch bs in
       let? keys := read_batches keys in
       parse_snapshot_batch batch keys output.

(** * Deltas *)

(** The shape of an update, before its revision is looked at. *)
Definition check_update (u : WireUpdate) : result unit RpcError :=
  if String.eqb (wu_operation u) "remove" then
    if is_some (wu_mode u) || is_some (wu_source u) || is_some (wu_expression u)
    then value_error "remove update has predicate properties" else Ok tt
  else if String.eqb (wu_operation u) "upsert" then
    if negb (bool_decide (wu_mode u = Some "advisory"))
       || negb (match wu_source u with Some source => known_source source | None => false end)
       || negb (is_some (wu_expression u))
    then value_error "invalid delta upsert properties" else Ok tt
  else value_error "delta operation must be remove or upsert".

Definition retain_other (id : string) (ps : list Predicate) : list Predicate :=
  filter (λ q, p_id q ≠ id) ps.

Definition with_predicates (f : PushdownFilters) (ps : list Predicate) : PushdownFilters :=
  mkFilters ps (revisions f) (required_ids f) (context f) (join_keys f) (output_schema f).
Definition with_revision (f : PushdownFilters) (id : string) (r : Z) : PushdownFilters :=
  mkFilters (predicates f) (<[id := r]> (revisions f)) (required_ids f) (context f) (join_keys f)
    (output_schema f).

(** Whether the update is not newer than what is applied. *)
Definition is_stale (f : PushdownFilters) (u : WireUpdate) : bool :=
  match revisions f !! wu_id u with Some old => wu_revision u <=? old | None => false end.

(** One update that is not stale. *)
Definition apply_update (p : Parser) (next : PushdownFilters) (nodes : Z) (u : WireUpdate) :
    result (PushdownFilters * Z) RpcError :=
  if String.eqb (wu_operation u) "remove" then
    Ok (with_revision (with_predicates next (retain_other (wu_id u) (predicates next)))
          (wu_id u) (wu_revision u), nodes)
  else if String.eqb (wu_operation u) "upsert" then
    match wu_mode u, wu_source u, wu_expression u with
    | None, _, _ => value_error "upsert missing mode"
    | _, None, _ => value_error "upsert missing source"
    | _, _, None => value_error "upsert missing expression"
    | Some mode, Some source, Some e =>
        let? (pr, nodes) := predicate p (mkWirePredicate (wu_id u) (wu_revision u) mode source e) true nodes in
        Ok (with_revision (with_predicates next (retain_other (wu_id u) (predicates next) ++ [pr]))
              (wu_id u) (wu_revision u), nodes)
    end
  else value_error "delta operation must be remove or upsert".

(** The loop of [apply_delta]; [required] are the required ids of the filters. *)
Fixpoint delta_loop (p : Parser) (required : gset string) (raws : list Json) (next : PushdownFilters)
    (seen : gset string) (nodes : Z) (changed : bool) : result (PushdownFilters * bool) RpcError :=
  match raws with
  | [] => Ok (next, changed)
  | raw :: raws =>
      let? u := map_err json_error (parse_wire_update raw) in
      let? _ := validate_id (wu_id u) in
      if decide (wu_id u ∈ seen) then value_error "duplicate delta predicate ID"
      else if decide (wu_id u ∈ required) then value_error "delta targets required predicate"
      else let? _ := check_update u in
      let seen := {[wu_id u]} ∪ seen in
      if is_stale next u then delta_loop p required raws next seen nodes changed
      else let? (next, nodes) := apply_update p next nodes u in
           delta_loop p required raws next seen nodes true
  end.

(** [apply_delta]: the filters after the delta and whether anything changed; an
    error leaves the filters as they were. *)
Definition apply_delta (f : PushdownFilters) (bs : bytes) : result (PushdownFilters * bool) RpcError :=
  if MAX_PAYLOAD <? Z.of_nat (length bs) then value_error "filter payload exceeds 16 MiB"
  else let? s := read_schema bs in
       let? _ := validate_wire_schema s in
       let? batch := read_batch bs in
       let? (ctx, doc) := validate_batch batch in
       if negb (bool_decide (ctx = context f)) then value_error "evaluation context changed within one scan"
       else match doc with
       | Snapshot _ _ _ => value_error "dynamic filter document must be a delta"
       | Delta encoding semantics raws =>
           let? _ := validate_header encoding semantics in
           let? (next, changed) :=
             delta_loop (mkParser batch (join_keys f) (output_schema f)) (required_ids f) raws f ∅ 0 false in
           if (MAX_IDS <? size (revisions next))%nat then value_error "delta exceeds predicate-ID limit"
           else Ok (next, changed)
       end.

Definition apply_delta_b64 (f : PushdownFilters) (encoded : string) :
    result (PushdownFilters * bool) RpcError :=
  match b64_decode encoded with
  | None => value_error "invalid base64 filter delta"
  | Some bs => apply_delta f bs
  end.

(** * The delta history *)

Record DeltaHistory := mkHistory { h_deltas : list string; h_order : list string }.

Definition predicate_order (f : PushdownFilters) : list string := p_id <$> predicates f.

(** Takes the predicates out of the map by id, in the recorded order. *)
Fixpoint take_by_id (by_id : gmap string Predicate) (order : list string) :
    result (list Predicate * gmap string Predicate) RpcError :=
  match order with
  | [] => Ok ([], by_id)
  | id :: order =>
      match by_id !! id with
      | None => value_error "recorded predicate order does not match the replayed filter state"
      | Some p =>
          let? (ps, rest) := take_by_id (delete id by_id) order in
          Ok (p :: ps, rest)
      end
  end.

Definition restore_predicate_order (f : PushdownFilters) (order : list string) :
    result PushdownFilters RpcError :=
  if decide (predicate_order f = order) then Ok f
  else
  let by_id := foldl (λ m p, <[p_id p := p]> m) ∅ (predicates f) in
  let? (reordered, rest) := take_by_id by_id order in
  if decide (rest = ∅) then Ok (with_predicates f reordered)
  else value_error "recorded predicate order does not match the replayed filter state".

Fixpoint update_revisions (raws : list Json) : result (list (string * Z)) RpcError :=
  match raws with
  | [] => Ok []
  | raw :: raws =>
      match json_get "id" raw ≫= as_json_str, json_get "revision" raw ≫= as_u64 with
      | Some id, Some r => let? l := update_revisions raws in Ok ((id, r) :: l)
      | _, _ => value_error "delta update is missing its id or revision"
      end
  end.

Definition delta_revisions_b64 (encoded : string) : result (list (string * Z)) RpcError :=
  match b64_decode encoded with
  | None => value_error "invalid base64 filter delta"
  | Some bs =>
      let? batch := read_batch bs in
      let? (_, doc) := validate_batch batch in
      match doc with
      | Snapshot _ _ _ => value_error "dynamic filter document must be a delta"
      | Delta _ _ raws => update_revisions raws
      end
  end.

(** [needed |= wanted.remove(&pair)] over the pairs of one delta. *)
Fixpoint take_wanted (wanted : gset (string * Z)) (pairs : list (string * Z)) (needed : bool) :
    gset (string * Z) * bool :=
  match pairs with
  | [] => (wanted, needed)
  | x :: pairs => take_wanted (wanted ∖ {[x]}) pairs (needed || bool_decide (x ∈ wanted))
  end.

Fixpoint compact (wanted : gset (string * Z)) (deltas : list string) : result (list string) RpcError :=
  match deltas with
  | [] => Ok []
  | d :: deltas =>
      let? pairs := delta_revisions_b64 d in
      let '(wanted, needed) := take_wanted wanted pairs false in
      let? kept := compact wanted deltas in
      Ok (if needed then d :: kept else kept)
  end.

Definition record_delta (h : DeltaHistory) (f : PushdownFilters) (encoded : string) :
    result (DeltaHistory * PushdownFilters) RpcError :=
  let? (next, changed) := apply_delta_b64 f encoded in
  if negb changed then Ok (h, next)
  else let wanted : gset (string * Z) := list_to_set (map_to_list (revisions next)) in
       let? kept := compact wanted (h_deltas h ++ [encoded]) in
       Ok (mkHistory kept (predicate_order next), next).

Fixpoint replay_deltas (deltas : list string) (f : PushdownFilters) : result PushdownFilters RpcError :=
  match deltas with
  | [] => Ok f
  | d :: deltas => let? (f, _) := apply_delta_b64 f d in replay_deltas deltas f
  end.

Definition replay (h : DeltaHistory) (f : PushdownFilters) : result PushdownFilters RpcError :=
  match h_deltas h with
  | [] => Ok f
  | _ =>
      let? f := replay_deltas (h_deltas h) f in
      restore_predicate_order f (h_order h)
  end.
End wire.
