(* ===== verification/PushdownReplay.v ===== *)
(** The delta protocol of dynamic filters ([vgi/src/pushdown.rs]): what a delta
    does to the filters of a scan, id by id, and that replaying the compacted
    history of [DeltaHistory] rebuilds the live filters exactly. *)
From S2P Require Import Prelude Float64 Arrow ArrowModel SqlCompare Pushdown PushdownParse PushdownEval.
From S2P Require Import PushdownPruning PushdownRow PushdownDomain PushdownSound PushdownDelta.

Open Scope Z_scope.

(** * The node count only limits *)

(** [r'] is [r] with its node count lower by [k]. *)
Definition shifted {A} (k : Z) (r r' : result (A * Z) RpcError) : Prop :=
  ∀ x n, r = Ok (x, n) → r' = Ok (x, n - k).

Lemma expressions_shift p d l n k :
  Forall (λ w, ∀ d root n, 0 ≤ k → shifted k (expression p w d root n) (expression p w d root (n - k))) l →
  0 ≤ k → shifted k (expressions p d l n) (expressions p d l (n - k)).
Proof.
  intros Hl Hk. induction Hl as [|w l Hw _ IH] in n |- *; intros x n' E; cbn [expressions] in *.
  { by injection E as <- <-. }
  fold (expressions p d) in *. inv_ok E. injection E as <- <-.
  rewrite (Hw _ _ _ Hk _ _ E0). by rewrite (IH _ _ _ E1).
Qed.

Ltac shift_node H :=
  cbn [expression] in H |- *; inv_ok H;
  match goal with E : (MAX_NODES <? ?n + 1) = false |- context [?n - ?k + 1] =>
    rewrite (proj2 (Z.ltb_ge MAX_NODES (n - k + 1))) by (apply Z.ltb_ge in E; lia);
    replace (n - k + 1) with (n + 1 - k) by lia
  end.

Lemma expression_shift p w k : 0 ≤ k →
  ∀ d root n, shifted k (expression p w d root n) (expression p w d root (n - k)).
Proof.
  intros Hk. assert (∀ l d n, Forall (λ w, ∀ d root n, shifted k (expression p w d root n)
    (expression p w d root (n - k))) l → shifted k (expressions p d l n) (expressions p d l (n - k))) as Hlist.
  { intros l d n Hl. apply expressions_shift; [|done]. eapply Forall_impl; [exact Hl|]. auto. }
  induction w using WireExpr_nested_ind; intros d root n0 e n' E.
  - shift_node E. by injection E as <- <-.
  - shift_node E. injection E as <- <-. rewrite (IHw _ _ _ _ _ E2). by rewrite E3.
  - shift_node E. by injection E as <- <-.
  - shift_node E. injection E as <- <-. rewrite (IHw1 _ _ _ _ _ E3), (IHw2 _ _ _ _ _ E4). by rewrite E5.
  - cbn [expression] in E |- *. fold (expressions p (d + 1)) in E |- *. shift_node E. injection E as <- <-.
    rewrite (Hlist _ _ _ H _ _ E3). by rewrite E4.
  - cbn [expression] in E |- *. fold (expressions p (d + 1)) in E |- *. shift_node E. injection E as <- <-.
    rewrite (Hlist _ _ _ H _ _ E3). by rewrite E4.
  - shift_node E. injection E as <- <-. rewrite (IHw _ _ _ _ _ E2). by rewrite E3.
  - shift_node E. injection E as <- <-. by rewrite (IHw _ _ _ _ _ E2).
  - shift_node E. injection E as <- <-. rewrite (IHw _ _ _ _ _ E2). by rewrite E4.
  - shift_node E. injection E as <- <-. by rewrite (IHw _ _ _ _ _ E4).
  - shift_node E. rewrite (IHw1 _ _ _ _ _ E3), (IHw2 _ _ _ _ _ E4).
    destruct (expr_type e0); [|done]. inv_ok E. by injection E as <- <-.
  - shift_node E. injection E as <- <-. rewrite (IHw _ _ _ _ _ E2). by rewrite E3.
  - cbn [expression] in E |- *. fold (expressions p (d + 1)) in E |- *. shift_node E. injection E as <- <-.
    rewrite (Hlist _ _ _ H _ _ E5). by rewrite E6.
  - shift_node E. injection E as <- <-. by rewrite (IHw _ _ _ _ _ E7).
Qed.

Lemma predicate_shift p w delta n k pr n' : 0 ≤ k → predicate p w delta n = Ok (pr, n') →
  predicate p w delta (n - k) = Ok (pr, n' - k).
Proof.
  intros Hk E. unfold predicate in *. inv_ok E. injection E as <- <-.
  rewrite (expression_shift _ _ _ Hk _ _ _ _ _ E3). by rewrite E4, E5, E6.
Qed.

(** The predicate an upsert installs does not depend on the count. *)
Lemma predicate_det p w delta n m pr pr' n' m' :
  predicate p w delta n = Ok (pr, n') → predicate p w delta m = Ok (pr', m') → pr = pr'.
Proof.
  intros E E'. destruct (Z.le_ge_cases m n) as [Hle|Hle].
  - apply (predicate_shift _ _ _ _ (n - m)) in E; [|lia]. replace (n - (n - m)) with m in E by lia. congruence.
  - apply (predicate_shift _ _ _ _ (m - n)) in E'; [|lia]. replace (m - (m - n)) with n in E' by lia. congruence.
Qed.

(** * Filters id by id *)

Fixpoint pred_of (ps : list Predicate) (id : string) : option Predicate :=
  match ps with
  | [] => None
  | p :: ps => if decide (p_id p = id) then Some p else pred_of ps id
  end.

(** What the filters hold for an id: its revision, and its predicate unless
    removed. *)
Definition entry_at (f : PushdownFilters) (x : string) : option (Z * option Predicate) :=
  r ← revisions f !! x; Some (r, pred_of (predicates f) x).

(** Ids are distinct and have revisions. *)
Record wf_state (f : PushdownFilters) : Prop := {
  ws_nodup : NoDup (predicate_order f);
  ws_known : ∀ p, p ∈ predicates f → is_Some (revisions f !! p_id p);
}.

Definition same_scan (f g : PushdownFilters) : Prop :=
  required_ids f = required_ids g ∧ context f = context g ∧ join_keys f = join_keys g ∧
  output_schema f = output_schema g.

(** [g] has every id of [f], at the same or a later revision. *)
Definition newer (f g : PushdownFilters) : Prop :=
  ∀ x r, revisions f !! x = Some r → ∃ r', revisions g !! x = Some r' ∧ r ≤ r'.

#[global] Instance same_scan_equiv : Equivalence same_scan.
Proof. split; unfold same_scan; [done|intros ??; naive_solver|intros ???; naive_solver congruence]. Qed.

#[global] Instance newer_preorder : PreOrder newer.
Proof.
  split; [intros f x r; eauto with lia|]. intros f g h Hfg Hgh x r Hx.
  destruct (Hfg _ _ Hx) as (r' & Hr' & ?), (Hgh _ _ Hr') as (r'' & ? & ?). eexists. split; [done|lia].
Qed.

Lemma pred_of_Some ps x p : pred_of ps x = Some p → p ∈ ps ∧ p_id p = x.
Proof.
  induction ps as [|q ps IH]; cbn; [done|]. case_decide; [intros [= ->]; split; [apply list_elem_of_here|done]|].
  intros [? ?]%IH. split; [by apply list_elem_of_further|done].
Qed.

Lemma pred_of_elem ps p : NoDup (p_id <$> ps) → p ∈ ps → pred_of ps (p_id p) = Some p.
Proof.
  induction ps as [|q ps IH]; intros Hnd Hp; [by apply not_elem_of_nil in Hp|]. cbn in Hnd.
  apply NoDup_cons in Hnd as [Hq Hnd]. cbn. apply elem_of_cons in Hp as [<-|Hp]; [by rewrite decide_True|].
  case_decide as E; [|by apply IH]. exfalso. apply Hq. rewrite E. by apply list_elem_of_fmap_2.
Qed.

Lemma pred_of_retain ps x y : pred_of (retain_other x ps) y = if decide (y = x) then None else pred_of ps y.
Proof.
  unfold retain_other. induction ps as [|q ps IH]; [by cbn; case_decide|].
  destruct (decide (p_id q = x)) as [Hq|Hq].
  - rewrite filter_cons_False by naive_solver. rewrite IH. cbn. repeat case_decide; congruence.
  - rewrite filter_cons_True by done. cbn [pred_of]. destruct (decide (p_id q = y)) as [Hy|Hy].
    + by rewrite decide_False by congruence.
    + apply IH.
Qed.

Lemma pred_of_app ps qs x : pred_of (ps ++ qs) x = match pred_of ps x with Some p => Some p | None => pred_of qs x end.
Proof. induction ps as [|p ps IH]; cbn; [done|]. by case_decide. Qed.

Lemma order_retain ps x : p_id <$> retain_other x ps = filter (λ y, y ≠ x) (p_id <$> ps).
Proof.
  unfold retain_other. induction ps as [|q ps IH]; [done|]. rewrite fmap_cons, !filter_cons.
  case_decide; rewrite ?fmap_cons; by rewrite IH.
Qed.

(** * One update *)

Section replay.
Context `{FilterWireLaws}.

(** What a checked update installs for its id: nothing, or the parsed predicate. *)
Definition installs (p : Parser) (u : WireUpdate) (c : option Predicate) : Prop :=
  (wu_operation u = "remove" ∧ c = None) ∨
  (wu_operation u = "upsert" ∧ ∃ mode source e pr n n',
     wu_mode u = Some mode ∧ wu_source u = Some source ∧ wu_expression u = Some e ∧ c = Some pr ∧
     predicate p (mkWirePredicate (wu_id u) (wu_revision u) mode source e) true n = Ok (pr, n')).

Lemma installs_det p u c c' : installs p u c → installs p u c' → c = c'.
Proof.
  intros [[Hr ->]|(Hu & m & s & e & pr & n & n' & Em & Es & Ee & -> & Ep)]
         [[Hr' ->]|(Hu' & m' & s' & e' & pr' & q & q' & Em' & Es' & Ee' & -> & Ep')]; try congruence.
  rewrite Em' in Em. rewrite Es' in Es. rewrite Ee' in Ee. simplify_eq. f_equal. by eapply predicate_det.
Qed.

Lemma predicate_id p w delta n pr n' : predicate p w delta n = Ok (pr, n') → p_id pr = wp_id w.
Proof. intros E. unfold predicate in E. inv_ok E. by injection E as <- <-. Qed.

Lemma wf_with f ps id r : wf_state f → NoDup (p_id <$> ps) →
  (∀ p, p ∈ ps → p ∈ predicates f ∨ p_id p = id) →
  wf_state (with_revision (with_predicates f ps) id r).
Proof.
  intros [Hn Hk] Hnd Hps. split; [done|]. cbn. intros p Hp. destruct (decide (p_id p = id)) as [->|Hne].
  - rewrite lookup_insert_eq. eauto.
  - rewrite lookup_insert_ne by done. destruct (Hps p Hp) as [Hin|]; [by apply Hk|done].
Qed.

Lemma apply_update_spec p f nodes u f' nodes' : apply_update p f nodes u = Ok (f', nodes') → wf_state f →
  wf_state f' ∧ same_scan f f' ∧ (is_stale f u = false → newer f f') ∧
  ∃ c, installs p u c ∧
    ∀ x, entry_at f' x = if decide (x = wu_id u) then Some (wu_revision u, c) else entry_at f x.
Proof.
  intros E W. unfold apply_update in E.
  assert (∀ ps, is_stale f u = false → newer f (with_revision (with_predicates f ps) (wu_id u) (wu_revision u))) as Hnew.
  { intros ps Hs x r Hx. cbn. destruct (decide (x = wu_id u)) as [->|Hne].
    - rewrite lookup_insert_eq. eexists. split; [done|]. unfold is_stale in Hs. rewrite Hx in Hs. apply Z.leb_gt in Hs. lia.
    - rewrite lookup_insert_ne by done. eauto with lia. }
  assert (NoDup (p_id <$> retain_other (wu_id u) (predicates f))) as Hnd
    by (rewrite order_retain; apply NoDup_filter; apply W).
  destruct (String.eqb_spec (wu_operation u) "remove") as [Hr|Hr].
  - injection E as <- <-. split; [|split; [done|split; [by apply Hnew|]]].
    + apply wf_with; [done|done|]. intros q Hq. left. by apply list_elem_of_filter in Hq as [_ Hq].
    + exists None. split; [by left|]. intros x. unfold entry_at; cbn. rewrite pred_of_retain.
      case_decide as Hx; [subst; by rewrite lookup_insert_eq|by rewrite lookup_insert_ne by done].
  - destruct (String.eqb_spec (wu_operation u) "upsert") as [Hu|]; [|done].
    destruct (wu_mode u) as [m|] eqn:Em; [|done]. destruct (wu_source u) as [s|] eqn:Es; [|done].
    destruct (wu_expression u) as [e|] eqn:Ee; [|done]. inv_ok E. injection E as <- <-.
    pose proof (predicate_id _ _ _ _ _ _ E0) as Hid. cbn in Hid.
    split; [|split; [done|split; [by apply Hnew|]]].
    + apply wf_with; [done| |].
      * rewrite fmap_app. apply NoDup_app. split; [done|]. split; [|apply NoDup_singleton].
        intros y Hy ->%list_elem_of_singleton. rewrite order_retain, Hid in Hy. by apply list_elem_of_filter in Hy as [? _].
      * intros q [Hq|Hq%list_elem_of_singleton]%elem_of_app; [left; by apply list_elem_of_filter in Hq as [_ Hq]|].
        right. by subst.
    + exists (Some p0). split; [right; split; [done|]; eauto 15|].
      intros x. unfold entry_at; cbn. rewrite pred_of_app, pred_of_retain. cbn. rewrite Hid.
      case_decide as Hx; [subst; by rewrite lookup_insert_eq, decide_True|].
      rewrite lookup_insert_ne by done. rewrite decide_False by done. by destruct (pred_of _ x).
Qed.

(** * One delta *)

Definition parsed_as (raws : list Json) (us : list WireUpdate) : Prop :=
  Forall2 (λ raw u, parse_wire_update raw = Ok u) raws us.

(** The effect of the updates [us] with distinct ids, from [f] to [f']. *)
Definition effect (p : Parser) (us : list WireUpdate) (f f' : PushdownFilters) : Prop :=
  (∀ x, x ∉ wu_id <$> us → entry_at f' x = entry_at f x) ∧
  (∀ u, u ∈ us → if is_stale f u then entry_at f' (wu_id u) = entry_at f (wu_id u)
                 else ∃ c, installs p u c ∧ entry_at f' (wu_id u) = Some (wu_revision u, c)).

Lemma is_stale_entry f g u : entry_at f (wu_id u) = entry_at g (wu_id u) → is_stale f u = is_stale g u.
Proof.
  unfold entry_at, is_stale. destruct (revisions f !! _), (revisions g !! _); cbn; congruence.
Qed.

Lemma effect_cons p u us f g f' : wu_id u ∉ wu_id <$> us →
  (if is_stale f u then g = f
   else ∃ c, installs p u c ∧ ∀ x, entry_at g x = if decide (x = wu_id u) then Some (wu_revision u, c) else entry_at f x) →
  effect p us g f' → effect p (u :: us) f f'.
Proof.
  intros Hnotin Hg [Hout Hin].
  assert (∀ x, x ≠ wu_id u → entry_at g x = entry_at f x) as Hother.
  { intros x Hx. destruct (is_stale f u); [by subst|]. destruct Hg as (c & _ & Hg). by rewrite Hg, decide_False. }
  split.
  - intros x Hx. cbn in Hx. apply not_elem_of_cons in Hx as [Hne Hx]. rewrite Hout by done. by apply Hother.
  - intros v [->|Hv]%elem_of_cons.
    + rewrite Hout by done. destruct (is_stale f u); [by subst|]. destruct Hg as (c & Hc & Hg).
      exists c. split; [done|]. by rewrite Hg, decide_True.
    + assert (wu_id v ≠ wu_id u) as Hne by (intros E; apply Hnotin; rewrite <- E; by apply list_elem_of_fmap_2).
      specialize (Hin v Hv). rewrite (is_stale_entry g f v (Hother _ Hne)) in Hin. by rewrite (Hother _ Hne) in Hin.
Qed.

(** What a successful run of the updates gives. *)
Record delta_run (p : Parser) (req seen : gset string) (raws : list Json) (f : PushdownFilters) (ch : bool)
    (f' : PushdownFilters) (ch' : bool) (us : list WireUpdate) : Prop := {
  dr_parsed : parsed_as raws us;
  dr_nodup : NoDup (wu_id <$> us);
  dr_ids : ∀ u, u ∈ us → wu_id u ∉ seen ∧ wu_id u ∉ req;
  dr_wf : wf_state f';
  dr_same : same_scan f f';
  dr_newer : newer f f';
  dr_effect : effect p us f f';
  dr_unchanged : ch' = false → ch = false ∧ f' = f;
  dr_changed : ch' = true → ch = true ∨ ∃ u, u ∈ us ∧ is_stale f u = false;
}.

Lemma delta_run_cons p req seen raw raws f ch g ch2 f' ch' u us :
  parse_wire_update raw = Ok u → wu_id u ∉ seen → wu_id u ∉ req → same_scan f g → newer f g →
  (if is_stale f u then g = f ∧ ch2 = ch
   else ch2 = true ∧ ∃ c, installs p u c ∧
        ∀ x, entry_at g x = if decide (x = wu_id u) then Some (wu_revision u, c) else entry_at f x) →
  delta_run p req ({[wu_id u]} ∪ seen) raws g ch2 f' ch' us →
  delta_run p req seen (raw :: raws) f ch f' ch' (u :: us).
Proof.
  intros Eu Hseen Hreq Hs Hn Hstep [Hp Hnd Hids W' Hsame Hnew Heff Hun Hch].
  assert (wu_id u ∉ wu_id <$> us) as Hni.
  { intros (v & Ev & Hv)%list_elem_of_fmap. destruct (Hids v Hv) as [Hv' _]. apply Hv'. rewrite <- Ev. set_solver. }
  split; [by constructor|by constructor| |done|by trans g|by trans g| | |].
  - intros v [->|Hv]%elem_of_cons; [done|]. destruct (Hids v Hv). split; [set_solver|done].
  - eapply effect_cons; [done| |done]. destruct (is_stale f u); naive_solver.
  - intros E. destruct (Hun E) as [-> ->]. destruct (is_stale f u); naive_solver.
  - intros E. destruct (is_stale f u) eqn:Es.
    + destruct Hstep as [-> ->]. destruct (Hch E) as [|(v & Hv & Hvs)]; [by left|right].
      exists v. split; [by apply list_elem_of_further|done].
    + right. exists u. split; [apply list_elem_of_here|done].
Qed.

Lemma delta_loop_spec p req raws f seen nodes ch f' ch' :
  delta_loop p req raws f seen nodes ch = Ok (f', ch') → wf_state f →
  ∃ us, delta_run p req seen raws f ch f' ch' us.
Proof.
  induction raws as [|raw raws IH] in f, seen, nodes, ch |- *; cbn [delta_loop]; intros E W.
  { injection E as <- <-. exists []. split; try done; [constructor|constructor| | |auto].
    - by intros ? ?%not_elem_of_nil.
    - split; [done|]. by intros ? ?%not_elem_of_nil. }
  destruct (parse_wire_update raw) as [u|] eqn:Eu; [|done]. cbn [map_err] in E. inv_ok E.
  destruct (is_stale f u) eqn:Es.
  - destruct (IH _ _ _ _ E W) as (us & Hrun). exists (u :: us).
    eapply (delta_run_cons _ _ _ _ _ _ _ f ch); [done|done|done|done|done|by rewrite Es|done].
  - inv_ok E. destruct (apply_update_spec _ _ _ _ _ _ E4 W) as (Wg & Sg & Ng & c & Hc & Hg).
    destruct (IH _ _ _ _ E Wg) as (us & Hrun). exists (u :: us).
    eapply (delta_run_cons _ _ _ _ _ _ _ p0 true); [done|done|done|done|by apply Ng| |done].
    rewrite Es. eauto.
Qed.

(** A delta that reports no change leaves the filters as they were. *)
Lemma delta_loop_unchanged p req raws f seen nodes ch f' :
  delta_loop p req raws f seen nodes ch = Ok (f', false) → ch = false ∧ f' = f.
Proof.
  induction raws as [|raw raws IH] in f, seen, nodes, ch |- *; cbn [delta_loop]; intros E.
  { by injection E as <- <-. }
  inv_ok E. destruct (is_stale f a); [by eapply IH|]. inv_ok E. by destruct (IH _ _ _ _ E).
Qed.

(** A delta that applies to [f] applies to newer filters of the scan. *)
Lemma predicate_count p w delta n pr n' : wf_parser p → predicate p w delta n = Ok (pr, n') → n ≤ n'.
Proof. intros W E. destruct (predicate_wf _ _ _ _ _ _ W E) as (_ & _ & ? & _). lia. Qed.

Lemma apply_update_transfer p f g u n m f' n' : wf_parser p → m ≤ n →
  apply_update p f n u = Ok (f', n') → ∃ g' m', apply_update p g m u = Ok (g', m') ∧ m' ≤ n' ∧ n ≤ n' ∧
    revisions g' = <[wu_id u := wu_revision u]> (revisions g) ∧
    revisions f' = <[wu_id u := wu_revision u]> (revisions f).
Proof.
  intros Wp Hm E. unfold apply_update in *. destruct (String.eqb (wu_operation u) "remove").
  { injection E as <- <-. eexists _, _. split; [done|]. auto with lia. }
  destruct (String.eqb (wu_operation u) "upsert"); [|done].
  destruct (wu_mode u) as [md|]; [|done]. destruct (wu_source u) as [s|]; [|done].
  destruct (wu_expression u) as [e|]; [|done]. inv_ok E. injection E as <- <-.
  pose proof (predicate_count _ _ _ _ _ _ Wp E0).
  apply (predicate_shift _ _ _ _ (n - m)) in E0; [|lia]. replace (n - (n - m)) with m in E0 by lia. rewrite E0.
  eexists _, _. split; [done|]. split; [lia|]. auto.
Qed.

Lemma delta_loop_transfer p req raws f g seen n m ch ch2 f' ch' : wf_parser p → m ≤ n → newer f g →
  delta_loop p req raws f seen n ch = Ok (f', ch') →
  ∃ g' ch2', delta_loop p req raws g seen m ch2 = Ok (g', ch2').
Proof.
  intros Wp. induction raws as [|raw raws IH] in f, g, seen, n, m, ch, ch2 |- *; cbn [delta_loop]; intros Hm Hnew E.
  { eauto. }
  destruct (parse_wire_update raw) as [u|] eqn:Eu; [|done]. cbn [map_err] in E |- *.
  destruct (validate_id (wu_id u)); [|done]. destruct (decide (wu_id u ∈ seen)); [done|].
  destruct (decide (wu_id u ∈ req)); [done|]. destruct (check_update u); [|done].
  destruct (is_stale f u) eqn:Es.
  - assert (is_stale g u = true) as ->; [|by eapply IH]. unfold is_stale in *.
    destruct (revisions f !! wu_id u) as [r|] eqn:Er; [|done]. apply Z.leb_le in Es.
    destruct (Hnew _ _ Er) as (r' & -> & ?). apply Z.leb_le. lia.
  - destruct (apply_update p f n u) as [[f2 n2]|] eqn:Ea; [|done].
    destruct (apply_update_transfer p f g u n m f2 n2 Wp Hm Ea) as (g2 & m2 & Eg & Hm2 & Hn2 & Rg & Rf).
    destruct (is_stale g u) eqn:Esg.
    + eapply (IH f2 g _ n2 m); [lia| |exact E]. intros x r. rewrite Rf. unfold is_stale in Esg.
      destruct (decide (x = wu_id u)) as [->|Hne]; [|rewrite lookup_insert_ne by done; apply Hnew].
      rewrite lookup_insert_eq. intros [= <-]. destruct (revisions g !! wu_id u) as [r'|]; [|done].
      apply Z.leb_le in Esg. eauto.
    + rewrite Eg. eapply (IH f2 g2 _ n2 m2); [lia| |exact E]. intros x r. rewrite Rf, Rg.
      destruct (decide (x = wu_id u)) as [->|Hne]; [rewrite !lookup_insert_eq; eauto with lia|].
      rewrite !lookup_insert_ne by done. apply Hnew.
Qed.

(** What a delta's bytes decode to, whatever filters it is applied to. *)
Definition delta_doc (d : string) (ctx : EvaluationContext) (batch : RecordBatch) (raws : list Json) : Prop :=
  ∃ bs sch enc sem, b64_decode d = Some bs ∧ (MAX_PAYLOAD <? Z.of_nat (length bs)) = false ∧
    read_schema bs = Ok sch ∧ validate_wire_schema sch = Ok tt ∧ read_batch bs = Ok batch ∧
    validate_batch batch = Ok (ctx, Delta enc sem raws) ∧ validate_header enc sem = Ok tt.

Lemma apply_delta_b64_ok f d f' ch : apply_delta_b64 f d = Ok (f', ch) ↔
  ∃ batch raws, delta_doc d (context f) batch raws ∧
    delta_loop (mkParser batch (join_keys f) (output_schema f)) (required_ids f) raws f ∅ 0 false = Ok (f', ch) ∧
    (size (revisions f') ≤ MAX_IDS)%nat.
Proof.
  unfold apply_delta_b64, apply_delta. split.
  - destruct (b64_decode d) as [bs|] eqn:Ed; [|done]. intros E. inv_ok E. destruct a0.
    apply negb_false_iff, bool_decide_eq_true in E5. subst e. destruct d0; [done|]. inv_ok E. destruct a0.
    injection E as <- <-. apply Nat.ltb_ge in E7. exists a1, updates. split; [|done].
    exists bs, a, encoding, semantics. auto 10.
  - intros (batch & raws & (bs & sch & enc & sem & -> & -> & -> & -> & -> & -> & Hh) & El & Hsz).
    rewrite bool_decide_true by done. cbn [negb]. rewrite Hh, El.
    by rewrite (proj2 (Nat.ltb_ge _ _) Hsz).
Qed.

Lemma delta_doc_det d c b r c' b' r' : delta_doc d c b r → delta_doc d c' b' r' → c = c' ∧ b = b' ∧ r = r'.
Proof.
  intros (bs & sch & en & se & E1 & _ & _ & _ & E2 & E3 & _) (bs' & sch' & en' & se' & E1' & _ & _ & _ & E2' & E3' & _).
  rewrite E1' in E1. injection E1 as ->. rewrite E2' in E2. injection E2 as ->. rewrite E3' in E3. by simplify_eq.
Qed.

Lemma validate_batch_row batch r : validate_batch batch = Ok r → num_rows batch = 1%nat.
Proof. unfold validate_batch. intros E. inv_ok E. apply negb_false_iff in E0. by apply Nat.eqb_eq. Qed.

Definition pairs_of (us : list WireUpdate) : list (string * Z) := (λ u, (wu_id u, wu_revision u)) <$> us.

Lemma update_revisions_parsed raws us : parsed_as raws us → update_revisions raws = Ok (pairs_of us).
Proof.
  induction 1 as [|raw u raws us Hu _ IH]; [done|]. cbn [update_revisions].
  destruct (parse_wire_update_id _ _ Hu) as [-> ->]. by rewrite IH.
Qed.

(** A delta of the scan that started with [f0]: its parser and its updates. *)
Record delta_info (f0 : PushdownFilters) (d : string) (p : Parser) (us : list WireUpdate) : Prop := {
  di_doc : ∃ batch raws, delta_doc d (context f0) batch raws ∧ parsed_as raws us ∧
    p = mkParser batch (join_keys f0) (output_schema f0);
  di_pairs : delta_revisions_b64 d = Ok (pairs_of us);
  di_nodup : NoDup (wu_id <$> us);
  di_total : ∀ g, same_scan f0 g → newer f0 g → wf_state g →
    ∃ raws g' ch, delta_run p (required_ids f0) ∅ raws g false g' ch us ∧
      ((size (revisions g') ≤ MAX_IDS)%nat → apply_delta_b64 g d = Ok (g', ch));
  di_sound : ∀ g g' ch, same_scan f0 g → newer f0 g → wf_state g → apply_delta_b64 g d = Ok (g', ch) →
    ∃ raws, delta_run p (required_ids f0) ∅ raws g false g' ch us;
}.

Lemma parsed_as_det raws us us' : parsed_as raws us → parsed_as raws us' → us = us'.
Proof.
  intros Hp. revert us'. induction Hp as [|raw u raws us Hu _ IH]; intros us' Hp'; inversion_clear Hp'; [done|].
  f_equal; [congruence|auto].
Qed.

Lemma applicable_info f0 d r : wf_state f0 → Forall wf_batch (join_keys f0) → apply_delta_b64 f0 d = Ok r →
  ∃ p us, delta_info f0 d p us.
Proof.
  destruct r as [f' ch]. intros W Wk E. pose proof E as (batch & raws & Hdoc & El & Hsz)%apply_delta_b64_ok.
  set (p := mkParser batch (join_keys f0) (output_schema f0)) in *.
  destruct (delta_loop_spec _ _ _ _ _ _ _ _ _ El W) as (us & Hrun). exists p, us.
  pose proof Hdoc as (bs & sch & enc & sem & Ebs & _ & _ & _ & Eb & Ev & _).
  assert (wf_parser p) as Wp by (split; [by eapply read_batch_wf|by eapply validate_batch_row|done]).
  assert (∀ g g' chg, same_scan f0 g → wf_state g →
    delta_loop p (required_ids f0) raws g ∅ 0 false = Ok (g', chg) →
    delta_run p (required_ids f0) ∅ raws g false g' chg us) as Hloop.
  { intros g g' chg Sg Wg Eg. destruct (delta_loop_spec _ _ _ _ _ _ _ _ _ Eg Wg) as (us' & Hrun').
    by rewrite (parsed_as_det _ _ _ (dr_parsed _ _ _ _ _ _ _ _ _ Hrun) (dr_parsed _ _ _ _ _ _ _ _ _ Hrun')). }
  split.
  - exists batch, raws. split; [done|]. split; [apply Hrun|done].
  - unfold delta_revisions_b64. rewrite Ebs, Eb, Ev. apply update_revisions_parsed, Hrun.
  - apply Hrun.
  - intros g Sg Ng Wg. destruct (delta_loop_transfer p (required_ids f0) raws f0 g ∅ 0 0 false false f' ch Wp)
      as (g' & chg & Eg); [lia|done|done|]. exists raws, g', chg. split; [by apply Hloop|].
    intros Hs. apply apply_delta_b64_ok. destruct Sg as (Sr & Sc & Sk & Ss). exists batch, raws.
    rewrite <- Sc, <- Sk, <- Ss, <- Sr. done.
  - intros g g' chg Sg Ng Wg (batch' & raws' & Hdoc' & Eg & _)%apply_delta_b64_ok.
    destruct (delta_doc_det _ _ _ _ _ _ _ Hdoc Hdoc') as (_ & <- & <-). exists raws. apply Hloop; [done|done|].
    destruct Sg as (Sr & Sc & Sk & Ss). unfold p. by rewrite Sk, Ss, Sr.
Qed.

(** * Compaction *)

Definition carries (d : string) (w : string * Z) : Prop := ∃ ps, delta_revisions_b64 d = Ok ps ∧ w ∈ ps.

#[local] Instance carries_dec d w : Decision (carries d w).
Proof.
  destruct (delta_revisions_b64 d) as [ps|] eqn:E.
  - destruct (decide (w ∈ ps)) as [Hw|Hw]; [left; by exists ps|right]. intros (ps' & E' & Hw'). congruence.
  - right. intros (ps & E' & _). congruence.
Defined.

Definition first_carrier (h : list string) (w : string * Z) (d : string) : Prop :=
  ∃ pre post, h = pre ++ d :: post ∧ carries d w ∧ ∀ d', d' ∈ pre → ¬ carries d' w.

Lemma first_carrier_app h w d l : first_carrier h w d → first_carrier (h ++ l) w d.
Proof. intros (pre & post & -> & Hrest). exists pre, (post ++ l). by rewrite <- app_assoc. Qed.

Lemma take_wanted_spec W ps nd W' nd' : take_wanted W ps nd = (W', nd') →
  (∀ w, w ∈ W' ↔ w ∈ W ∧ w ∉ ps) ∧ (nd' = true ↔ nd = true ∨ ∃ w, w ∈ ps ∧ w ∈ W) ∧
  (size W' + (if nd' && negb nd then 1 else 0) ≤ size W)%nat.
Proof.
  induction ps as [|x ps IH] in W, nd |- *; cbn [take_wanted]; intros E.
  { injection E as <- <-. split; [|split; [|destruct nd; cbn; lia]].
    - intros w. split; [|tauto]. intros Hw. split; [done|apply not_elem_of_nil].
    - split; [auto|]. intros [|(w & Hw & _)]; [done|]. by apply not_elem_of_nil in Hw. }
  destruct (IH _ _ E) as (H1 & H2 & H3). split.
  { intros w. rewrite H1, elem_of_difference, elem_of_singleton, not_elem_of_cons. tauto. }
  assert (size (W ∖ {[x]}) + (if bool_decide (x ∈ W) then 1 else 0) ≤ size W)%nat as Hsz.
  { case_bool_decide as Hx; [|rewrite Nat.add_0_r; apply subseteq_size; set_solver].
    rewrite <- (size_singleton x (C := gset (string * Z))), Nat.add_comm, <- size_union by set_solver.
    apply subseteq_size. set_solver. }
  split.
  - rewrite H2, orb_true_iff, bool_decide_eq_true. split.
    + intros [[?|?]|(w & Hw & [? ?]%elem_of_difference)]; [by left|right; exists x|right; exists w].
      * split; [apply list_elem_of_here|done].
      * split; [by apply list_elem_of_further|done].
    + intros [?|(w & [->|Hw]%elem_of_cons & HW)]; [auto|auto|].
      destruct (decide (w = x)) as [->|]; [auto|]. right. exists w.
      split; [done|]. by apply elem_of_difference; rewrite elem_of_singleton.
  - destruct nd, nd', (bool_decide (x ∈ W)); cbn in *; lia.
Qed.

Lemma compact_spec W ds : (∀ d, d ∈ ds → ∃ ps, delta_revisions_b64 d = Ok ps) →
  ∃ kept, compact W ds = Ok kept ∧ (∀ d, d ∈ kept → d ∈ ds) ∧ (length kept ≤ size W)%nat ∧
    ∀ w d, w ∈ W → first_carrier ds w d → first_carrier kept w d.
Proof.
  induction ds as [|d ds IH] in W |- *; intros Hds; cbn [compact].
  { exists []. split; [done|]. split; [done|]. split; [cbn; lia|]. intros w d _ (pre & post & E & _). by destruct pre. }
  destruct (Hds d) as [ps Eps]; [apply list_elem_of_here|]. rewrite Eps.
  destruct (take_wanted W ps false) as [W' nd] eqn:Et. destruct (take_wanted_spec _ _ _ _ _ Et) as (H1 & H2 & H3).
  destruct (IH W') as (kept & -> & Hsub & Hlen & Hfc); [intros; apply Hds; by apply list_elem_of_further|].
  exists (if nd then d :: kept else kept). split; [done|]. split; [|split].
  - intros x Hx. destruct nd; [apply elem_of_cons in Hx as [->|Hx]; [apply list_elem_of_here|]|];
      apply list_elem_of_further; by apply Hsub.
  - destruct nd; cbn in *; lia.
  - intros w x Hw (pre & post & E & Hc & Hpre). destruct pre as [|y pre]; injection E as -> ->.
    + destruct Hc as (ps' & Eps' & Hin). rewrite Eps in Eps'. injection Eps' as <-.
      assert (nd = true) as -> by (apply H2; right; eauto). exists [], kept. split; [done|].
      split; [by exists ps|]. by intros ? ?%not_elem_of_nil.
    + assert (¬ carries y w) as Hy by (apply Hpre, list_elem_of_here).
      assert (w ∈ W') as Hw' by (apply H1; split; [done|]; intros Hin; apply Hy; by exists ps).
      destruct (Hfc w x Hw') as (pre' & post' & -> & Hc' & Hpre').
      { exists pre, post. split; [done|]. split; [done|]. intros z Hz. apply Hpre. by apply list_elem_of_further. }
      destruct nd; [exists (y :: pre'), post'|exists pre', post']; split; try done; split; try done.
      intros z [->|Hz]%elem_of_cons; [done|]. by apply Hpre'.
Qed.

(** * The history of a scan *)

Section scan.
Context (f0 : PushdownFilters) (W0 : wf_state f0) (Wk0 : Forall wf_batch (join_keys f0)).
Context (Hsize0 : (size (revisions f0) ≤ MAX_IDS)%nat).

(** The history of live filters: every delta applies to the initial filters and
    carries nothing newer than what is live, and each id that changed has its
    revision installed by the first delta that carries it. *)
Record history_inv (ds : list string) (f : PushdownFilters) : Prop := {
  hi_same : same_scan f0 f;
  hi_wf : wf_state f;
  hi_newer : newer f0 f;
  hi_size : (size (revisions f) ≤ MAX_IDS)%nat;
  hi_info : ∀ d, d ∈ ds → ∃ p us, delta_info f0 d p us;
  hi_upper : ∀ d x r, d ∈ ds → carries d (x, r) → ∃ r', revisions f !! x = Some r' ∧ r ≤ r';
  hi_live : ∀ x r c, entry_at f x = Some (r, c) → entry_at f0 x = Some (r, c) ∨
    (∀ r0, revisions f0 !! x = Some r0 → r0 < r) ∧
    ∃ d p us u, first_carrier ds (x, r) d ∧ delta_info f0 d p us ∧ u ∈ us ∧ wu_id u = x ∧ wu_revision u = r ∧
      installs p u c;
}.

Lemma carries_info d p us w : delta_info f0 d p us → carries d w ↔ ∃ u, u ∈ us ∧ w = (wu_id u, wu_revision u).
Proof.
  intros [_ Hp _ _ _]. unfold carries. rewrite Hp. unfold pairs_of. split.
  - intros (ps & [= <-] & Hw). apply list_elem_of_fmap in Hw as (u & -> & Hu). eauto.
  - intros (u & Hu & ->). eexists. split; [done|]. by apply (list_elem_of_fmap_2 (λ u, (wu_id u, wu_revision u))).
Qed.

Lemma entry_revision f x r c : entry_at f x = Some (r, c) → revisions f !! x = Some r.
Proof. unfold entry_at. destruct (revisions f !! x); cbn; congruence. Qed.

Lemma history_init : history_inv [] f0.
Proof.
  split; try done; try (by intros ? ?%not_elem_of_nil).
  - intros d x r Hd. by apply not_elem_of_nil in Hd.
  - by left.
Qed.

(** One delta, from live filters. *)
Lemma history_step ds f d p us raws f' ch : history_inv ds f → delta_info f0 d p us →
  delta_run p (required_ids f0) ∅ raws f false f' ch us → (size (revisions f') ≤ MAX_IDS)%nat →
  history_inv (ds ++ [d]) f'.
Proof.
  intros [Hs Hw Hn _ Hinfo Hup Hlive] Hd [_ Hnd _ W' S' N' [Hout Hin] _ _] Hsz.
  split; [by trans f|done|by trans f|done| | |].
  - intros x [Hx|Hx%list_elem_of_singleton]%elem_of_app; [auto|subst; eauto].
  - intros x y r [Hx|Hx%list_elem_of_singleton]%elem_of_app Hc.
    + destruct (Hup _ _ _ Hx Hc) as (r1 & Hr1 & ?). destruct (N' _ _ Hr1) as (r2 & ? & ?). exists r2. split; [done|lia].
    + subst x. apply (carries_info _ _ _ _ Hd) in Hc as (u & Hu & [= -> ->]). specialize (Hin u Hu).
      unfold is_stale in Hin. destruct (revisions f !! wu_id u) as [r1|] eqn:Er.
      * destruct (N' _ _ Er) as (r2 & Hr2 & ?). exists r2. split; [done|].
        destruct (wu_revision u <=? r1) eqn:El; [apply Z.leb_le in El; lia|].
        destruct Hin as (c & _ & Hc%entry_revision). rewrite Hr2 in Hc. injection Hc as ->. lia.
      * destruct Hin as (c & _ & Hc%entry_revision). eauto with lia.
  - intros x r c Hx.
    assert (entry_at f' x = entry_at f x → entry_at f0 x = Some (r, c) ∨
      (∀ r0, revisions f0 !! x = Some r0 → r0 < r) ∧ ∃ d' p us u, first_carrier (ds ++ [d]) (x, r) d' ∧
        delta_info f0 d' p us ∧ u ∈ us ∧ wu_id u = x ∧ wu_revision u = r ∧ installs p u c) as Hsame.
    { intros E. rewrite E in Hx. destruct (Hlive _ _ _ Hx) as [?|(Hr & d' & p' & us' & u & Hc & Hrest)]; [by left|right].
      split; [done|]. exists d', p', us', u. split; [by apply first_carrier_app|done]. }
    destruct (decide (x ∈ wu_id <$> us)) as [(u & -> & Hu)%list_elem_of_fmap|Hni]; [|by apply Hsame, Hout].
    specialize (Hin u Hu). destruct (is_stale f u) eqn:Es; [by apply Hsame|].
    destruct Hin as (c' & Hc' & E). rewrite E in Hx. injection Hx as <- <-. right.
    assert (∀ r', revisions f !! wu_id u = Some r' → r' < wu_revision u) as Hlt.
    { intros r' Hr'. unfold is_stale in Es. rewrite Hr' in Es. by apply Z.leb_gt in Es. }
    split.
    + intros r0 Hr0. destruct (Hn _ _ Hr0) as (r' & Hr' & ?). specialize (Hlt _ Hr'). lia.
    + exists d, p, us, u. split; [|done]. exists ds, []. split; [done|].
      split; [apply (carries_info _ _ _ _ Hd); eauto|]. intros d' Hd' Hc.
      destruct (Hup _ _ _ Hd' Hc) as (r' & Hr' & ?). specialize (Hlt _ Hr'). lia.
Qed.

Lemma history_compact ds kept f : history_inv ds f → (∀ d, d ∈ kept → d ∈ ds) →
  (∀ x r d, revisions f !! x = Some r → first_carrier ds (x, r) d → first_carrier kept (x, r) d) →
  history_inv kept f.
Proof.
  intros [Hs Hw Hn Hz Hinfo Hup Hlive] Hsub Hfc. split; try done; [eauto|eauto|].
  intros x r c Hx. destruct (Hlive _ _ _ Hx) as [?|(Hr & d & p & us & u & Hc & Hrest)]; [by left|right].
  split; [done|]. exists d, p, us, u. split; [|done]. apply Hfc; [|done]. by eapply entry_revision.
Qed.

(** * Replay *)

(** The filters [g] rebuilt by a prefix [past] of the history of [f]. *)
Record replay_inv (past : list string) (f g : PushdownFilters) : Prop := {
  ri_same : same_scan f0 g;
  ri_wf : wf_state g;
  ri_newer : newer f0 g;
  ri_older : newer g f;
  ri_done : ∀ x r c, entry_at f x = Some (r, c) →
    entry_at f0 x = Some (r, c) ∨ (∃ d, d ∈ past ∧ carries d (x, r)) → entry_at g x = Some (r, c);
  ri_open : ∀ x r c, entry_at f x = Some (r, c) → entry_at f0 x ≠ Some (r, c) →
    (∀ d, d ∈ past → ¬ carries d (x, r)) → ∀ r1, revisions g !! x = Some r1 → r1 < r;
}.

Lemma delta_info_det d p us p' us' : delta_info f0 d p us → delta_info f0 d p' us' → p = p' ∧ us = us'.
Proof.
  intros [(b & r & Hd & Hp & ->) _ _ _ _] [(b' & r' & Hd' & Hp' & ->) _ _ _ _].
  destruct (delta_doc_det _ _ _ _ _ _ _ Hd Hd') as (_ & -> & ->). split; [done|]. by eapply parsed_as_det.
Qed.

Lemma same_id us u v : NoDup (wu_id <$> us) → u ∈ us → v ∈ us → wu_id u = wu_id v → u = v.
Proof.
  intros Hnd (i & Hi)%list_elem_of_lookup (j & Hj)%list_elem_of_lookup E.
  assert (i = j) as ->; [|congruence]. apply (NoDup_lookup (wu_id <$> us) i j (wu_id u) Hnd).
  - by rewrite list_lookup_fmap, Hi.
  - rewrite list_lookup_fmap, Hj. cbn. by rewrite E.
Qed.

Lemma newer_size f g : newer f g → (size (revisions f) ≤ size (revisions g))%nat.
Proof.
  intros Hn. rewrite <- !size_dom. apply subseteq_size. intros x (r & Hx)%elem_of_dom.
  destruct (Hn _ _ Hx) as (r' & ? & _). by apply elem_of_dom.
Qed.

Lemma first_carrier_unique ds past d rest w d1 : ds = past ++ d :: rest → carries d w →
  (∀ d', d' ∈ past → ¬ carries d' w) → first_carrier ds w d1 → d1 = d.
Proof.
  intros -> Hc Hpast (pre & post & E & Hc1 & Hpre).
  revert pre E Hpre. induction past as [|y past IH]; intros [|z pre] E Hpre; cbn in E; injection E as -> E.
  - done.
  - exfalso. by apply (Hpre z (list_elem_of_here _ _)).
  - exfalso. by apply (Hpast d1 (list_elem_of_here _ _)).
  - apply (IH ltac:(intros; apply Hpast; by apply list_elem_of_further) pre E). intros. apply Hpre. by apply list_elem_of_further.
Qed.

(** The cell of one id, through one delta of the history. *)
Lemma replay_entry ds past d rest f g g' p us raws ch : history_inv ds f → ds = past ++ d :: rest →
  replay_inv past f g → delta_info f0 d p us → delta_run p (required_ids f0) ∅ raws g false g' ch us →
  ∀ x r c, entry_at f x = Some (r, c) →
    (entry_at f0 x = Some (r, c) ∨ (∃ d', d' ∈ past ++ [d] ∧ carries d' (x, r)) → entry_at g' x = Some (r, c)) ∧
    (entry_at f0 x ≠ Some (r, c) → (∀ d', d' ∈ past ++ [d] → ¬ carries d' (x, r)) →
     ∀ r1, revisions g' !! x = Some r1 → r1 < r).
Proof.
  intros HI -> HR Hd Hrun x r c Hx. pose proof (dr_effect _ _ _ _ _ _ _ _ _ Hrun) as [Hout Hin].
  assert (∀ u, u ∈ us → wu_id u = x → wu_revision u ≤ r) as Hle.
  { intros u Hu <-. destruct (hi_upper _ _ HI d (wu_id u) (wu_revision u)) as (r' & Hr' & ?).
    - apply elem_of_app. right. apply list_elem_of_here.
    - apply (carries_info _ _ _ _ Hd). eauto.
    - rewrite (entry_revision _ _ _ _ Hx) in Hr'. by injection Hr' as <-. }
  assert (entry_at g x = Some (r, c) → entry_at g' x = Some (r, c)) as Hkeep.
  { intros Hg. destruct (decide (x ∈ wu_id <$> us)) as [(u & -> & Hu)%list_elem_of_fmap|Hni]; [|by rewrite Hout].
    specialize (Hin u Hu). unfold is_stale in Hin. rewrite (entry_revision _ _ _ _ Hg) in Hin.
    rewrite (proj2 (Z.leb_le _ _) (Hle u Hu eq_refl)) in Hin. congruence. }
  split.
  - intros Hcase.
    destruct (hi_live _ _ HI _ _ _ Hx) as [E0|(Hr & d1 & p1 & us1 & u1 & Hfc & Hd1 & Hu1 & Hid & Hrev & Hinst)].
    { apply Hkeep. eapply ri_done; eauto. }
    assert (entry_at f0 x ≠ Some (r, c)) as E0 by (intros E%entry_revision; specialize (Hr _ E); lia).
    destruct (decide (Exists (λ d', carries d' (x, r)) past)) as [(d' & Hd' & Hc)%Exists_exists|Hno].
    { apply Hkeep. eapply ri_done; eauto. }
    assert (∀ d', d' ∈ past → ¬ carries d' (x, r)) as Hpast.
    { intros d' Hd' Hc. apply Hno, Exists_exists. eauto. }
    destruct Hcase as [?|(d' & [Hd'|Hd'%list_elem_of_singleton]%elem_of_app & Hc)]; [done|by destruct (Hpast d')|].
    subst d'. assert (d1 = d) as -> by (by eapply first_carrier_unique).
    destruct (delta_info_det _ _ _ _ _ Hd Hd1) as [<- <-]. specialize (Hin u1 Hu1). rewrite Hid in Hin.
    assert (is_stale g u1 = false) as Es.
    { unfold is_stale. rewrite Hid. destruct (revisions g !! x) as [r1|] eqn:Er; [|done].
      apply Z.leb_gt. rewrite Hrev. by eapply (ri_open _ _ _ HR). }
    rewrite Es in Hin. destruct Hin as (c' & Hc' & E). rewrite E, Hrev. do 2 f_equal. by eapply installs_det.
  - intros E0 Hno r1 Hr1.
    assert (∀ r2, revisions g !! x = Some r2 → r2 < r) as Hg.
    { eapply (ri_open _ _ _ HR); [done|done|]. intros d' Hd'. apply Hno, elem_of_app. by left. }
    destruct (decide (x ∈ wu_id <$> us)) as [(u & -> & Hu)%list_elem_of_fmap|Hni].
    + specialize (Hin u Hu). destruct (is_stale g u) eqn:Es.
      * apply Hg. unfold entry_at in Hin. rewrite Hr1 in Hin. destruct (revisions g !! wu_id u); cbn in Hin; congruence.
      * destruct Hin as (c' & _ & E%entry_revision). rewrite Hr1 in E. injection E as ->.
        specialize (Hle u Hu eq_refl). destruct (decide (wu_revision u = r)) as [<-|]; [|lia].
        exfalso. apply (Hno d); [apply elem_of_app; right; apply list_elem_of_here|].
        apply (carries_info _ _ _ _ Hd). eauto.
    + apply Hg. specialize (Hout _ Hni). unfold entry_at in Hout. rewrite Hr1 in Hout.
      destruct (revisions g !! x); cbn in Hout; congruence.
Qed.

Lemma replay_step ds past d rest f g : history_inv ds f → ds = past ++ d :: rest → replay_inv past f g →
  ∃ g' ch, apply_delta_b64 g d = Ok (g', ch) ∧ replay_inv (past ++ [d]) f g'.
Proof.
  intros HI Eds HR. destruct (hi_info _ _ HI d) as (p & us & Hd).
  { rewrite Eds. apply elem_of_app. right. apply list_elem_of_here. }
  destruct (di_total _ _ _ _ Hd g (ri_same _ _ _ HR) (ri_newer _ _ _ HR) (ri_wf _ _ _ HR)) as (raws & g' & ch & Hrun & Happ).
  pose proof (replay_entry _ _ _ _ _ _ _ _ _ _ _ HI Eds HR Hd Hrun) as Hentry.
  assert (newer g' f) as Hold.
  { intros x r Hx. destruct (dr_effect _ _ _ _ _ _ _ _ _ Hrun) as [Hout Hin].
    assert (entry_at g' x = entry_at g x → ∃ r', revisions f !! x = Some r' ∧ r ≤ r') as Hsame.
    { unfold entry_at. rewrite Hx. destruct (revisions g !! x) as [r1|] eqn:Er; cbn; [|done]. intros [= -> _].
      by apply (ri_older _ _ _ HR). }
    destruct (decide (x ∈ wu_id <$> us)) as [(u & -> & Hu)%list_elem_of_fmap|Hni]; [|by apply Hsame, Hout].
    specialize (Hin u Hu). destruct (is_stale g u); [by apply Hsame|].
    destruct Hin as (c & _ & E%entry_revision). rewrite Hx in E. injection E as ->.
    apply (hi_upper _ _ HI d); [rewrite Eds; apply elem_of_app; right; apply list_elem_of_here|].
    apply (carries_info _ _ _ _ Hd). eauto. }
  exists g', ch. split.
  - apply Happ. etrans; [by apply newer_size|apply (hi_size _ _ HI)].
  - split.
    + trans g; [apply HR|apply Hrun].
    + apply Hrun.
    + trans g; [apply HR|apply Hrun].
    + done.
    + intros x r c Hx. by apply Hentry.
    + intros x r c Hx. by apply Hentry.
Qed.

Lemma replay_deltas_spec ds past rest f g : history_inv ds f → ds = past ++ rest → replay_inv past f g →
  ∃ g', replay_deltas rest g = Ok g' ∧ replay_inv ds f g'.
Proof.
  intros HI. induction rest as [|d rest IH] in past, g |- *; intros Eds HR; cbn [replay_deltas].
  { exists g. rewrite app_nil_r in Eds. by subst. }
  destruct (replay_step _ _ _ _ _ _ HI Eds HR) as (g' & ch & -> & HR').
  apply (IH (past ++ [d])); [|done]. by rewrite <- app_assoc.
Qed.

Lemma replay_init ds f : history_inv ds f → replay_inv [] f f0.
Proof.
  intros HI. split; try done; [apply HI| |].
  - intros x r c Hx [?|(d & Hd & _)]; [done|]. by apply not_elem_of_nil in Hd.
  - intros x r c Hx E0 _ r1 Hr1. destruct (hi_live _ _ HI _ _ _ Hx) as [?|[Hlt _]]; [done|]. by apply Hlt.
Qed.

Lemma replay_entries ds f g x : history_inv ds f → replay_inv ds f g → entry_at g x = entry_at f x.
Proof.
  intros HI HR. destruct (entry_at f x) as [[r c]|] eqn:E.
  - eapply (ri_done _ _ _ HR); [done|]. destruct (hi_live _ _ HI _ _ _ E) as [?|(_ & d & p & us & u & Hfc & _)]; [by left|right].
    destruct Hfc as (pre & post & -> & Hc & _). exists d. split; [|done]. apply elem_of_app. right. apply list_elem_of_here.
  - unfold entry_at in *. destruct (revisions g !! x) as [r|] eqn:Er; [|done].
    destruct (ri_older _ _ _ HR _ _ Er) as (r' & Hr' & _). by rewrite Hr' in E.
Qed.

(** * Restoring the order *)

Lemma entries_predicates f g x : wf_state f → wf_state g → (∀ x, entry_at g x = entry_at f x) →
  pred_of (predicates g) x = pred_of (predicates f) x.
Proof.
  intros [_ Kf] [_ Kg] He. specialize (He x). unfold entry_at in He.
  destruct (revisions g !! x) as [r|] eqn:Eg, (revisions f !! x) as [r'|] eqn:Ef; cbn in He; try done; [congruence|].
  assert (∀ h, (∀ p, p ∈ predicates h → is_Some (revisions h !! p_id p)) → revisions h !! x = None →
    pred_of (predicates h) x = None) as Hnone.
  { intros h Kh Eh. destruct (pred_of (predicates h) x) as [p|] eqn:Ep; [|done].
    apply pred_of_Some in Ep as [Hp <-]. destruct (Kh p Hp). congruence. }
  by rewrite !Hnone.
Qed.

Lemma omap_pred_of (qs ps : list Predicate) : NoDup (p_id <$> ps) → (∀ p, p ∈ qs → p ∈ ps) → omap (pred_of ps) (p_id <$> qs) = qs.
Proof.
  intros Hnd Hsub. induction qs as [|q qs IH]; [done|]. cbn.
  rewrite (pred_of_elem ps q Hnd) by (apply Hsub, list_elem_of_here). f_equal. apply IH.
  intros p Hp. apply Hsub. by apply list_elem_of_further.
Qed.

Lemma by_id_lookup (ps : list Predicate) (m : gmap string Predicate) x : NoDup (p_id <$> ps) →
  foldl (λ m p, <[p_id p := p]> m) m ps !! x = match pred_of ps x with Some p => Some p | None => m !! x end.
Proof.
  induction ps as [|p ps IH] in m |- *; [done|]. intros [Hp Hnd]%NoDup_cons. cbn. rewrite IH by done.
  destruct (pred_of ps x) as [q|] eqn:Eq.
  - rewrite decide_False; [done|]. intros <-. apply Hp. apply pred_of_Some in Eq as [Hq <-]. by apply list_elem_of_fmap_2.
  - destruct (decide (p_id p = x)) as [<-|Hne]; [by rewrite lookup_insert_eq|by rewrite lookup_insert_ne].
Qed.

Lemma take_by_id_spec (m : gmap string Predicate) (qs : list Predicate) : NoDup (p_id <$> qs) → (∀ q, q ∈ qs → m !! p_id q = Some q) →
  (∀ x, x ∉ p_id <$> qs → m !! x = None) → take_by_id m (p_id <$> qs) = Ok (qs, ∅).
Proof.
  induction qs as [|q qs IH] in m |- *; cbn; intros Hnd Hin Hout.
  { do 2 f_equal. apply map_eq. intros x. rewrite Hout, lookup_empty; [done|apply not_elem_of_nil]. }
  apply NoDup_cons in Hnd as [Hq Hnd]. rewrite Hin by apply list_elem_of_here. rewrite IH; [done|done| |].
  - intros r Hr. rewrite lookup_delete_ne; [apply Hin; by apply list_elem_of_further|].
    intros E. apply Hq. rewrite E. by apply list_elem_of_fmap_2.
  - intros x Hx. destruct (decide (p_id q = x)) as [<-|Hne]; [apply lookup_delete_eq|].
    rewrite lookup_delete_ne by done. apply Hout. apply not_elem_of_cons. auto.
Qed.

Lemma filters_eq f g : same_scan f g → (∀ x, entry_at g x = entry_at f x) → predicates f = predicates g → f = g.
Proof.
  intros (Hr & Hc & Hk & Hs) He Hp. assert (revisions f = revisions g) as Hrev.
  { apply map_eq. intros x. specialize (He x). unfold entry_at in He.
    destruct (revisions f !! x), (revisions g !! x); cbn in He; congruence. }
  destruct f, g. cbn in *. congruence.
Qed.

Lemma restore_spec f g : wf_state f → wf_state g → same_scan f g → (∀ x, entry_at g x = entry_at f x) →
  restore_predicate_order g (predicate_order f) = Ok f.
Proof.
  intros Wf Wg Hs He. unfold restore_predicate_order.
  assert (∀ x, pred_of (predicates g) x = pred_of (predicates f) x) as Hpred by (intros; by apply entries_predicates).
  pose proof (ws_nodup _ Wf) as Nf. pose proof (ws_nodup _ Wg) as Ng. unfold predicate_order in *.
  case_decide as Eo.
  - f_equal. symmetry. apply filters_eq; [done|done|].
    rewrite <- (omap_pred_of (predicates f) (predicates f) Nf), <- (omap_pred_of (predicates g) (predicates g) Ng) by done.
    rewrite Eo. apply list_omap_ext. apply Forall2_same_length_lookup. split; [done|].
    intros i x y Hx Hy. rewrite Hx in Hy. injection Hy as <-. symmetry. apply Hpred.
  - rewrite (take_by_id_spec _ (predicates f)); [|done| |].
    + rewrite decide_True by done. f_equal. symmetry. apply filters_eq; [done| |done].
      intros x. rewrite <- He. unfold entry_at; cbn. by rewrite <- Hpred.
    + intros q Hq. rewrite by_id_lookup, Hpred, pred_of_elem by done. done.
    + intros x Hx. rewrite by_id_lookup, Hpred by done. destruct (pred_of (predicates f) x) as [q|] eqn:E; [|apply lookup_empty].
      exfalso. apply Hx. apply pred_of_Some in E as [Hq <-]. by apply list_elem_of_fmap_2.
Qed.

(** * A scan's turns *)

(** The live filters and the history after some deltas of the scan that started
    with [f0]. A delta whose updates are all stale may be anything; a delta that
    changes the live filters is one the initial filters accept too, that is, its
    stale updates are well formed as well. *)
Inductive recorded : DeltaHistory → PushdownFilters → Prop :=
| recorded_init : recorded (mkHistory [] []) f0
| recorded_step h f d h' f' : recorded h f →
    (∀ g, apply_delta_b64 f d = Ok (g, true) → ∃ r, apply_delta_b64 f0 d = Ok r) →
    record_delta h f d = Ok (h', f') → recorded h' f'.

Lemma wanted_size (m : gmap string Z) : size (list_to_set (map_to_list m) : gset (string * Z)) = size m.
Proof. rewrite size_list_to_set by apply NoDup_map_to_list. by rewrite length_map_to_list. Qed.

Lemma record_step h f d h' f' : history_inv (h_deltas h) f →
  (∀ g, apply_delta_b64 f d = Ok (g, true) → ∃ r, apply_delta_b64 f0 d = Ok r) →
  record_delta h f d = Ok (h', f') →
  (h' = h ∧ f' = f) ∨
  (history_inv (h_deltas h') f' ∧ h_deltas h' ≠ [] ∧ h_order h' = predicate_order f' ∧
   (length (h_deltas h') ≤ size (revisions f'))%nat).
Proof.
  intros HI Happ E. unfold record_delta in E. inv_ok E.
  pose proof E0 as Hok. apply apply_delta_b64_ok in Hok as (? & ? & _ & Eloop & Hsz).
  destruct b; cbn in E.
  2: { injection E as <- <-. left. split; [done|]. by destruct (delta_loop_unchanged _ _ _ _ _ _ _ _ Eloop). }
  destruct (Happ _ eq_refl) as [r Hr]. destruct (applicable_info f0 d r W0 Wk0 Hr) as (q & us & Hd).
  destruct (di_sound _ _ _ _ Hd f _ _ (hi_same _ _ HI) (hi_newer _ _ HI) (hi_wf _ _ HI) E0) as (raws & Hrun).
  right. pose proof (history_step _ _ _ _ _ _ _ _ HI Hd Hrun Hsz) as HI'.
  set (wanted := list_to_set (map_to_list (revisions p)) : gset (string * Z)) in E.
  destruct (compact_spec wanted (h_deltas h ++ [d])) as (kept & Ek & Hsub & Hlen & Hfc).
  { intros d' Hd'. destruct (hi_info _ _ HI' d' Hd') as (q' & us' & Hd2). eexists. apply (di_pairs _ _ _ _ Hd2). }
  rewrite Ek in E. injection E as <- <-. cbn.
  assert (history_inv kept p) as HI''.
  { eapply history_compact; [exact HI'|done|]. intros y r' d' Hx. apply Hfc. apply elem_of_list_to_set, elem_of_map_to_list. done. }
  split; [done|]. split; [|split; [done|by unfold wanted in Hlen; rewrite wanted_size in Hlen]].
  destruct (dr_changed _ _ _ _ _ _ _ _ _ Hrun eq_refl) as [?|(u & Hu & Hs)]; [done|].
  destruct (dr_effect _ _ _ _ _ _ _ _ _ Hrun) as [_ Hin]. specialize (Hin u Hu). rewrite Hs in Hin.
  destruct Hin as (c & _ & Hc). intros ->.
  destruct (hi_live _ _ HI'' _ _ _ Hc) as [E0'|(_ & d' & _ & _ & _ & (pre & post & E & _) & _)]; [|by destruct pre].
  apply entry_revision in E0'. destruct (hi_newer _ _ HI _ _ E0') as (r' & Hr' & ?).
  unfold is_stale in Hs. rewrite Hr' in Hs. apply Z.leb_gt in Hs. lia.
Qed.

Lemma recorded_inv h f : recorded h f → history_inv (h_deltas h) f ∧
  ((h_deltas h = [] ∧ f = f0) ∨ (h_deltas h ≠ [] ∧ h_order h = predicate_order f)) ∧
  (length (h_deltas h) ≤ size (revisions f))%nat.
Proof.
  induction 1 as [|h f d h' f' _ (HI & Ho & Hl) Happ Hrec].
  - split; [apply history_init|]. split; [by left|]. cbn. lia.
  - destruct (record_step _ _ _ _ _ HI Happ Hrec) as [[-> ->]|(HI' & Hne & Ho' & Hl')]; [done|]. auto.
Qed.

Lemma replay_spec h f : recorded h f → replay h f0 = Ok f.
Proof.
  intros Hrec. destruct (recorded_inv h f Hrec) as (HI & Ho & _). unfold replay.
  destruct (h_deltas h) as [|d ds] eqn:Eh; [destruct Ho as [[_ ->]|[? _]]; done|].
  destruct Ho as [[? _]|[_ Ho]]; [done|].
  destruct (replay_deltas_spec (d :: ds) [] (d :: ds) f f0 HI eq_refl (replay_init _ _ HI)) as (g & -> & HR).
  rewrite Ho. apply restore_spec; [apply HI|apply HR| |].
  - trans f0; [symmetry; apply HI|apply HR].
  - intros x. by eapply replay_entries.
Qed.
End scan.
End replay.

(** * Filters from a snapshot on *)

Section filters.
Context `{FilterWireLaws}.

Record good_filters (f : PushdownFilters) : Prop := {
  gf_typed : wf_filters f;
  gf_state : wf_state f;
  gf_keys : Forall wf_batch (join_keys f);
  gf_size : (size (revisions f) ≤ MAX_IDS)%nat;
}.

Lemma snapshot_loop_spec p raws n acc revs req ps revs' req' : wf_parser p →
  snapshot_loop p raws n acc revs req = Ok (ps, revs', req') →
  Forall (wf_predicate (ps_schema p)) acc → NoDup (p_id <$> acc) → dom revs = list_to_set (p_id <$> acc) →
  Forall (wf_predicate (ps_schema p)) ps ∧ NoDup (p_id <$> ps) ∧ dom revs' = list_to_set (p_id <$> ps) ∧
  length ps = (length acc + length raws)%nat.
Proof.
  intros Wp. induction raws as [|raw raws IH] in n, acc, revs, req |- *; cbn [snapshot_loop]; intros E Ht Hnd Hdom.
  { injection E as <- <- <-. cbn. split_and!; try done. }
  inv_ok E. destruct (predicate_wf _ _ _ _ _ _ Wp E1) as (Hpr & _).
  destruct (revs !! p_id p0) eqn:Er; [done|]. apply not_elem_of_dom in Er.
  rewrite Hdom, elem_of_list_to_set in Er.
  destruct (IH _ _ _ _ E) as (R1 & R2 & R3 & R4).
  - apply Forall_app. auto.
  - rewrite fmap_app. apply NoDup_app. split; [done|]. split; [|apply NoDup_singleton].
    intros x Hx Hx'%list_elem_of_singleton. by subst.
  - rewrite dom_insert_L, Hdom, fmap_app, list_to_set_app_L. cbn. set_solver.
  - split; [done|]. split; [done|]. split; [done|]. rewrite R4, length_app. cbn. lia.
Qed.

Lemma read_batches_wf l bs : read_batches l = Ok bs → Forall wf_batch bs.
Proof.
  induction l as [|x l IH] in bs |- *; cbn [read_batches]; intros E; [injection E as <-; constructor|].
  inv_ok E. injection E as <-. constructor; [by eapply read_batch_wf|by apply IH].
Qed.

Lemma parse_filters_good bs keys output f : parse_filters bs keys output = Ok f → good_filters f.
Proof.
  intros E. unfold parse_filters in E. inv_ok E. apply read_batches_wf in E4.
  unfold parse_snapshot_batch in E. inv_ok E. destruct d; [|done]. inv_ok E. injection E as <-.
  assert (wf_parser (mkParser a1 a2 (default [] output))) as Wp
    by (split; [by eapply read_batch_wf|by eapply validate_batch_row|done]).
  destruct (snapshot_loop_spec _ _ _ _ _ _ _ _ _ Wp E9) as (R1 & R2 & R3 & R4); [constructor|constructor|done|].
  split; [done| |done|]; cbn.
  - split; [done|]. cbn. intros p Hp. apply elem_of_dom. rewrite R3, elem_of_list_to_set. by apply list_elem_of_fmap_2.
  - rewrite <- size_dom, R3, size_list_to_set by done. rewrite length_fmap, R4.
    apply Nat.ltb_ge in E7. unfold MAX_PREDICATES, MAX_IDS in *. cbn. lia.
Qed.

Lemma apply_update_typed p f n u f' n' : wf_parser p → apply_update p f n u = Ok (f', n') →
  Forall (wf_predicate (ps_schema p)) (predicates f) → Forall (wf_predicate (ps_schema p)) (predicates f').
Proof.
  intros Wp E Hf. unfold apply_update in E.
  assert (Forall (wf_predicate (ps_schema p)) (retain_other (wu_id u) (predicates f))) as Hr.
  { rewrite Forall_forall in *. intros q Hq. apply Hf. by apply list_elem_of_filter in Hq as [_ Hq]. }
  destruct (String.eqb (wu_operation u) "remove"); [by injection E as <- <-|].
  destruct (String.eqb (wu_operation u) "upsert"); [|done].
  destruct (wu_mode u); [|done]. destruct (wu_source u); [|done]. destruct (wu_expression u); [|done].
  inv_ok E. injection E as <- <-. cbn. apply Forall_app. split; [done|].
  constructor; [|constructor]. by destruct (predicate_wf _ _ _ _ _ _ Wp E0).
Qed.

Lemma delta_loop_typed p req raws f seen n ch f' ch' : wf_parser p →
  delta_loop p req raws f seen n ch = Ok (f', ch') →
  Forall (wf_predicate (ps_schema p)) (predicates f) → Forall (wf_predicate (ps_schema p)) (predicates f').
Proof.
  intros Wp. induction raws as [|raw raws IH] in f, seen, n, ch |- *; cbn [delta_loop]; intros E Hf.
  { by injection E as <- <-. }
  inv_ok E. destruct (is_stale f a); [by eapply IH|]. inv_ok E. eapply IH; [exact E|]. by eapply apply_update_typed.
Qed.

(** A delta keeps the filters good, and the required predicates as they are. *)
Lemma apply_delta_good f d f' ch : good_filters f → apply_delta_b64 f d = Ok (f', ch) →
  good_filters f' ∧ same_scan f f' ∧ newer f f' ∧ (ch = false → f' = f) ∧
  ∀ x, x ∈ required_ids f → entry_at f' x = entry_at f x.
Proof.
  intros [Ht Hs Hk Hz] (batch & raws & Hdoc & El & Hsz)%apply_delta_b64_ok.
  pose proof Hdoc as (bs & sch & enc & sem & _ & _ & _ & _ & Eb & Ev & _).
  assert (wf_parser (mkParser batch (join_keys f) (output_schema f))) as Wp
    by (split; [by eapply read_batch_wf|by eapply validate_batch_row|done]).
  destruct (delta_loop_spec _ _ _ _ _ _ _ _ _ El Hs) as (us & [_ _ Hids Wf' Hsame Hnew [Hout _] Hun _]).
  pose proof Hsame as (Sr & Sc & Sk & Ss). split; [split; [|done|by rewrite <- Sk|done]|].
  - unfold wf_filters. rewrite <- Ss. by eapply (delta_loop_typed _ _ _ _ _ _ _ _ _ Wp El).
  - split; [done|]. split; [done|]. split; [intros E; by apply Hun|].
    intros x Hx. apply Hout. intros (u & -> & Hu)%list_elem_of_fmap. by destruct (Hids u Hu).
Qed.

(** The filters a scan can hold: a snapshot and deltas. *)
Inductive reachable (f0 : PushdownFilters) : PushdownFilters → Prop :=
| reachable_init : reachable f0 f0
| reachable_delta f d f' ch : reachable f0 f → apply_delta_b64 f d = Ok (f', ch) → reachable f0 f'.
End filters.

(** * The theorems *)

(** Whatever deltas a scan receives after its snapshot, its predicates stay
    Boolean expressions over the bind schema with distinct ids of known revision,
    revisions only grow, and the required predicates are those of the snapshot. *)
Theorem filters_invariant `{FilterWireLaws} bs keys output f0 f : parse_filters bs keys output = Ok f0 →
  reachable f0 f →
  wf_filters f ∧ wf_state f ∧ newer f0 f ∧ same_scan f0 f ∧
  ∀ x, x ∈ required_ids f0 → entry_at f x = entry_at f0 x.
Proof.
  intros Hp Hr. assert (good_filters f ∧ newer f0 f ∧ same_scan f0 f ∧
    ∀ x, x ∈ required_ids f0 → entry_at f x = entry_at f0 x) as ([? ? _ _] & ? & ? & ?); [|done].
  induction Hr as [|f d f' ch _ (Hg & Hn & Hs & He) Hd].
  - split; [by eapply parse_filters_good|]. done.
  - destruct (apply_delta_good _ _ _ _ Hg Hd) as (Hg' & Hs' & Hn' & _ & He'). split; [done|].
    split; [by trans f|]. split; [by trans f|]. intros x Hx. rewrite He'; [by apply He|].
    destruct Hs as (<- & _). done.
Qed.

(** C3: When every delta that changed the live filters is one the scan's initial
    filters accept as well ([recorded]: the updates in it that were stale when it
    arrived are well formed too), replaying the compacted history over the initial
    filters gives exactly the live filters: predicates, their order, revisions and
    tombstones; and the history holds at most one delta per predicate id. Deltas
    that changed nothing are unrestricted. Without the condition the replay can
    fail, as [stale_update_breaks_replay] shows. *)
Theorem delta_replay_rebuilds `{FilterWireLaws} bs keys output f0 h f :
  parse_filters bs keys output = Ok f0 → recorded f0 h f →
  replay h f0 = Ok f ∧ (length (h_deltas h) ≤ size (revisions f))%nat.
Proof.
  intros Hp Hr. destruct (parse_filters_good _ _ _ _ Hp) as [_ Hs Hk Hz]. split.
  - by apply replay_spec.
  - by apply (recorded_inv f0 Hs Hk Hz h f Hr).
Qed.

(** * An example *)

(** A wire whose payloads are one byte: the number of a filter batch.  An update
    is an object whose [value] names the literal column [a] is compared with. *)
Definition spec_batch (spec : string) : RecordBatch :=
  mkRecordBatch
    [mkField "filter_spec" Utf8 false []; mkField "value_0" Int64 true []; mkField "value_1" Int64 true []]
    {[ "vgi_filter_encoding" := ENCODING; "vgi_filter_version" := VERSION;
       "vgi_evaluation_context" := NO_CONTEXT ]}
    [plain_array Utf8 [Some (VBytes spec)]; int_lit 5; int_lit 9] 1.

Definition update_ex (op id : string) (revision : Z) (value : option Z) : Json :=
  JObject ([("operation", JString op); ("id", JString id); ("revision", JNumber revision)] ++
           match value with Some v => [("value", JNumber v)] | None => [] end).
Definition member_str (key : string) (j : Json) : option string := json_get key j ≫= as_json_str.
Definition member_u64 (key : string) (j : Json) : option Z := json_get key j ≫= as_u64.
Definition value_expr (j : Json) : option WireExpr :=
  (λ v, WComparison "ge" (WColumnRef 0 "a") (WLiteral v)) <$> member_u64 "value" j.

Definition documents_ex : list (string * Document) :=
  [("snapshot", Snapshot ENCODING SEMANTICS [update_ex "" "p" 0 (Some 0)]);
   ("one", Delta ENCODING SEMANTICS [update_ex "upsert" "A" 5 (Some 0)]);
   ("two", Delta ENCODING SEMANTICS [update_ex "upsert" "A" 1 (Some 1); update_ex "upsert" "B" 2 (Some 1)]);
   ("three", Delta ENCODING SEMANTICS [update_ex "remove" "A" 6 None]);
   ("four", Delta ENCODING SEMANTICS [update_ex "upsert" "A" 1 (Some 2); update_ex "upsert" "B" 2 (Some 1)])].

Definition payload_batch (bs : bytes) : result RecordBatch RpcError :=
  match bs with
  | [b] => match documents_ex !! Z.to_nat (Z_of_byte b) with
           | Some (spec, _) => Ok (spec_batch spec)
           | None => value_error "malformed IPC stream"
           end
  | _ => value_error "malformed IPC stream"
  end.

#[export] Instance wire_model : FilterWire := {
  read_schema bs := let? b := payload_batch bs in Ok (schema b);
  read_batch := payload_batch;
  parse_document s :=
    match list_find (λ p, p.1 = s) documents_ex with Some (_, (_, d)) => Ok d | None => Err "expected value" end;
  parse_wire_predicate j :=
    match member_str "id" j, value_expr j with
    | Some id, Some e => Ok (mkWirePredicate id 0 "required" "query" e)
    | _, _ => Err "missing field"
    end;
  parse_wire_update j :=
    match member_str "operation" j, member_str "id" j, member_u64 "revision" j with
    | Some op, Some id, Some r =>
        let e := value_expr j in
        Ok (mkWireUpdate op id r ((λ _, "advisory") <$> e) ((λ _, "join") <$> e) e)
    | _, _, _ => Err "missing field"
    end;
}.

Lemma spec_batch_wf spec : wf_batch (spec_batch spec).
Proof.
  repeat (constructor; [split; [done|]; split; [apply wf_plain; by repeat constructor|by split]|]). constructor.
Qed.

#[export] Instance wire_model_laws : FilterWireLaws.
Proof.
  split.
  - intros bs b. cbn. unfold payload_batch. destruct bs as [|x [|]]; try done.
    destruct (documents_ex !! _) as [[]|]; [|done]. intros [= <-]. apply spec_batch_wf.
  - intros j u. cbn. unfold member_str, member_u64. destruct (_ ≫= as_json_str) as [op|]; [|done].
    destruct (json_get "id" j ≫= as_json_str); [|done]. destruct (json_get "revision" j ≫= as_u64); [|done].
    intros [= <-]. done.
Qed.

Definition start_ex : result PushdownFilters RpcError := parse_filters [byte_of_Z 0] [] (Some schema_ex).
Definition filters_start : PushdownFilters := Eval vm_compute in
  match start_ex with Ok f => f | Err _ => filters_ex end.

(** A scan's turns, from the snapshot on. *)
Definition run_ex (ds : list string) : result (DeltaHistory * PushdownFilters) RpcError :=
  foldl (λ acc d, let? (h, f) := acc in record_delta h f d)
    (let? f := start_ex in Ok (mkHistory [] [], f)) ds.

Definition outcome_ex (ds : list string) : DeltaHistory * PushdownFilters :=
  match run_ex ds with Ok x => x | Err _ => (mkHistory [] [], filters_ex) end.

Lemma turn_ex ds d :
  is_ok (apply_delta_b64 filters_start d) = true →
  record_delta (outcome_ex ds).1 (outcome_ex ds).2 d = Ok (outcome_ex (ds ++ [d])) →
  recorded filters_start (outcome_ex ds).1 (outcome_ex ds).2 →
  recorded filters_start (outcome_ex (ds ++ [d])).1 (outcome_ex (ds ++ [d])).2.
Proof.
  intros Ha Hd Hr. destruct (apply_delta_b64 filters_start d) as [r|] eqn:E; [|done].
  eapply recorded_step; [exact Hr|by intros; exists r|]. by rewrite Hd, <- surjective_pairing.
Qed.

Lemma filters_invariant_witness :
  wf_filters (outcome_ex ["AQ=="]).2 ∧ entry_at (outcome_ex ["AQ=="]).2 "p" = entry_at filters_start "p".
Proof.
  assert (parse_filters [byte_of_Z 0] [] (Some schema_ex) = Ok filters_start) as E0 by (vm_compute; reflexivity).
  assert (apply_delta_b64 filters_start "AQ==" = Ok ((outcome_ex ["AQ=="]).2, true)) as E1
    by (vm_compute; reflexivity).
  destruct (filters_invariant [byte_of_Z 0] [] (Some schema_ex) filters_start _ E0
    (reachable_delta _ _ _ _ _ (reachable_init _) E1)) as (Hw & _ & _ & _ & He).
  split; [exact Hw|]. apply He. vm_compute. reflexivity.
Defined.

Lemma delta_replay_rebuilds_witness :
  h_deltas (outcome_ex ["AQ=="; "Ag=="; "Aw=="]).1 = ["Ag=="; "Aw=="] ∧
  replay (outcome_ex ["AQ=="; "Ag=="; "Aw=="]).1 filters_start = Ok (outcome_ex ["AQ=="; "Ag=="; "Aw=="]).2.
Proof.
  split; [vm_compute; reflexivity|].
  assert (parse_filters [byte_of_Z 0] [] (Some schema_ex) = Ok filters_start) as E0 by (vm_compute; reflexivity).
  assert (recorded filters_start (outcome_ex ["AQ=="; "Ag=="; "Aw=="]).1 (outcome_ex ["AQ=="; "Ag=="; "Aw=="]).2) as Hr.
  { apply (turn_ex ["AQ=="; "Ag=="] "Aw=="); [vm_compute; reflexivity..|].
    apply (turn_ex ["AQ=="] "Ag=="); [vm_compute; reflexivity..|].
    apply (turn_ex [] "AQ=="); [vm_compute; reflexivity..|apply recorded_init]. }
  exact (proj1 (delta_replay_rebuilds [byte_of_Z 0] [] (Some schema_ex) filters_start _ _ E0 Hr)).
Defined.

(** A stale update is skipped before its expression is parsed, so the
    live filters accept the delta [BA==] whose update of [A] names no payload; once
    compaction has dropped [AQ==], which made it stale, the replay parses it and
    fails. *)
Theorem stale_update_breaks_replay :
  ∃ h f, run_ex ["AQ=="; "BA=="; "Aw=="] = Ok (h, f) ∧ h_deltas h = ["BA=="; "Aw=="] ∧
    replay h filters_start = Err (ValueError "missing payload field value_2").
Proof.
  exists (outcome_ex ["AQ=="; "BA=="; "Aw=="]).1, (outcome_ex ["AQ=="; "BA=="; "Aw=="]).2.
  split; [vm_compute; reflexivity|]. split; vm_compute; reflexivity.
Qed.
