(* ===== verification/PushdownViews.v ===== *)
(** The convenience views of pushed filters ([vgi/src/pushdown.rs]): the columns a
    filter reads, the constants, discrete values and integer bounds it implies for
    a column, and its printed forms; with the theorems that a row the filters
    accept lies within what the views report. *)
From S2P Require Import Prelude Float64 Arrow ArrowModel SqlCompare Pushdown PushdownParse PushdownEval.
From S2P Require Import PushdownPruning PushdownRow PushdownDomain PushdownSound.

Open Scope Z_scope.

(** * Columns of an expression *)

Fixpoint collect_columns (e : Expr) : gset string :=
  match e with
  | Column _ n _ => {[n]}
  | FieldRef e _ _ _ | Not e | Negate e | IsNull e _ | In e _ _ | Cast e _ => collect_columns e
  | Comparison _ l r | Arithmetic _ l r => collect_columns l ∪ collect_columns r
  | And l | Or l | Call _ l => foldr (λ c acc, collect_columns c ∪ acc) ∅ l
  | Literal _ | RuntimeFilter => ∅
  end.

Fixpoint root_column (e : Expr) : option string :=
  match e with
  | Column _ n _ => Some n
  | FieldRef e _ _ _ => root_column e
  | _ => None
  end.

Definition mentions (e : Expr) (column : string) : bool := bool_decide (column ∈ collect_columns e).

Definition boolean_column (e : Expr) : option string :=
  match e with
  | Column _ n t => if decide (t = Boolean) then Some n else None
  | _ => None
  end.

Definition boolean_column_leaf (e : Expr) : option (string * bool) :=
  match e with
  | Not inner => (λ n, (n, false)) <$> boolean_column inner
  | _ => (λ n, (n, true)) <$> boolean_column e
  end.

(** * The filter view *)

Inductive Filter :=
| FConstant (column_name op : string)
| FIn (column_name : string)
| FJoinKeys (column_name : string)
| FIsNull (column_name : string)
| FIsNotNull (column_name : string)
| FAnd (l : list Filter)
| FOr (l : list Filter)
| FStruct (column_name child_name : string) (child : Filter)
| FOther (kind column_name : string).

Definition column_name (f : Filter) : string :=
  match f with
  | FConstant n _ | FIn n | FJoinKeys n | FIsNull n | FIsNotNull n | FStruct n _ _ | FOther _ n => n
  | FAnd _ | FOr _ => ""
  end.

Definition root_name (e : Expr) : string := default "" (root_column e).

Fixpoint filter_view (e : Expr) : Filter :=
  match boolean_column_leaf e with
  | Some (n, _) => FConstant n "eq"
  | None =>
      match e with
      | Comparison op l _ => FConstant (root_name l) op
      | In e _ _ => FIn (root_name e)
      | IsNull e true => FIsNotNull (root_name e)
      | IsNull e false => FIsNull (root_name e)
      | And l => FAnd (filter_view <$> l)
      | Or l => FOr (filter_view <$> l)
      | FieldRef e _ n _ => FStruct (root_name e) n (FOther "field_ref" (root_name e))
      | e => FOther "expression" (root_name e)
      end
  end.

(** * Constants and discrete values *)

Definition bool_literal (b : bool) : array := of_bools [Some b].

Definition constant_for (e : Expr) (column : string) : option array :=
  let leaf := match boolean_column_leaf e with
              | Some (n, v) => if String.eqb n column then Some (bool_literal v) else None
              | None => None
              end in
  match e with
  | Comparison op l r =>
      if String.eqb op "eq" && bool_decide (root_column l = Some column)
      then match r with Literal v => Some v | _ => None end
      else leaf
  | _ => leaf
  end.

Record ConstantFilter := mkConstant { cf_column : string; cf_op : string; cf_value : array }.

Definition flipped (op : string) : string :=
  if String.eqb op "gt" then "lt"
  else if String.eqb op "ge" then "le"
  else if String.eqb op "lt" then "gt"
  else if String.eqb op "le" then "ge"
  else op.

Fixpoint collect_constant_filters (e : Expr) : list ConstantFilter :=
  match boolean_column_leaf e with
  | Some (n, v) => [mkConstant n "eq" (bool_literal v)]
  | None =>
      match e with
      | And l => l ≫= collect_constant_filters
      | Comparison op (Column _ n _) (Literal v) => [mkConstant n op v]
      | Comparison op (Literal v) (Column _ n _) => [mkConstant n (flipped op) v]
      | _ => []
      end
  end.

Definition in_values_for (e : Expr) (column : string) : option array :=
  match e with
  | In e values false => if decide (root_column e = Some column) then Some values else None
  | _ => None
  end.

(** [Iterator::find_map]. *)
Definition find_map {A B} (f : A → option B) : list A → option B :=
  fix find_map l := match l with
    | [] => None
    | x :: l => match f x with Some y => Some y | None => find_map l end
    end.

(** [Iterator::reduce]. *)
Definition reduce {A} (f : A → A → A) (l : list A) : option A :=
  match l with [] => None | x :: l => Some (foldl f x l) end.

Section views.
Context `{Arrow}.

Fixpoint values_for (e : Expr) (column : string) : option array :=
  match e with
  | And l => find_map (λ c, values_for c column) l
  | Or l =>
      arrays ← mapM (λ c, values_for c column) l;
      match arrow_concat arrays with Ok a => Some a | Err _ => None end
  | e => match constant_for e column with Some v => Some v | None => in_values_for e column end
  end.

(** * Integer bounds *)

Record ColumnBounds := mkBounds { b_min : option Z; b_max : option Z }.

Definition int_of (o : option value) : option Z := match o with Some (VInt z) => Some z | _ => None end.

Definition array_values_i64 (values : array) : option (list Z) :=
  match arrow_cast values Int64 with
  | Ok casted => Some (omap int_of (vals casted))
  | Err _ => None
  end.

Definition saturating_i64 (z : Z) : Z := Z.max (- 2 ^ 63) (Z.min (2 ^ 63 - 1) z).

Definition literal_bound (op : string) (e : Expr) (reversed : bool) : option ColumnBounds :=
  match e with
  | Literal v =>
      z ← array_values_i64 v ≫= head;
      let op := if reversed then flipped op else op in
      if String.eqb op "eq" then Some (mkBounds (Some z) (Some z))
      else if String.eqb op "gt" then Some (mkBounds (Some (saturating_i64 (z + 1))) None)
      else if String.eqb op "ge" then Some (mkBounds (Some z) None)
      else if String.eqb op "lt" then Some (mkBounds None (Some (saturating_i64 (z - 1))))
      else if String.eqb op "le" then Some (mkBounds None (Some z))
      else None
  | _ => None
  end.

Definition array_bounds_i64 (values : array) : option ColumnBounds :=
  zs ← array_values_i64 values;
  if (length zs =? 0)%nat then None
  else Some (mkBounds (reduce Z.min zs) (reduce Z.max zs)).

Definition intersect_bounds (l r : ColumnBounds) : ColumnBounds :=
  mkBounds
    (match b_min l, b_min r with Some a, Some b => Some (Z.max a b) | Some a, None => Some a | None, o => o end)
    (match b_max l, b_max r with Some a, Some b => Some (Z.min a b) | Some a, None => Some a | None, o => o end).

Definition union_bounds (l r : ColumnBounds) : ColumnBounds :=
  mkBounds
    (match b_min l, b_min r with Some a, Some b => Some (Z.min a b) | _, _ => None end)
    (match b_max l, b_max r with Some a, Some b => Some (Z.max a b) | _, _ => None end).

Fixpoint bounds_for (e : Expr) (column : string) : option ColumnBounds :=
  match e with
  | Comparison op l r =>
      if decide (root_column l = Some column) then literal_bound op r false
      else if decide (root_column r = Some column) then literal_bound op l true
      else None
  | In e values false => if decide (root_column e = Some column) then array_bounds_i64 values else None
  | And l => reduce intersect_bounds (omap (λ c, bounds_for c column) l)
  | Or l => bs ← mapM (λ c, bounds_for c column) l; reduce union_bounds bs
  | _ => None
  end.

(** * The views of a scan's filters *)

Definition filtered_columns (f : PushdownFilters) : gset string :=
  foldr (λ p acc, collect_columns (p_expression p) ∪ acc) ∅ (predicates f).
Definition has_filter_for_column (f : PushdownFilters) (column : string) : bool :=
  bool_decide (column ∈ filtered_columns f).
Definition filters (f : PushdownFilters) : list Filter := (λ p, filter_view (p_expression p)) <$> predicates f.
Definition get_column_filters (f : PushdownFilters) (column : string) : list Filter :=
  (λ p, filter_view (p_expression p)) <$>
  filter (λ p, mentions (p_expression p) column = true) (predicates f).
Definition get_column_values (f : PushdownFilters) (column : string) : option array :=
  find_map (λ p, values_for (p_expression p) column) (predicates f).
Definition get_column_in_values (f : PushdownFilters) (column : string) : option array :=
  find_map (λ p, in_values_for (p_expression p) column) (predicates f).
Definition get_column_constant (f : PushdownFilters) (column : string) : option array :=
  find_map (λ p, constant_for (p_expression p) column) (predicates f).
Definition constant_filters (f : PushdownFilters) : list ConstantFilter :=
  predicates f ≫= λ p, collect_constant_filters (p_expression p).
Definition get_column_constant_filters (f : PushdownFilters) (column : string) : list ConstantFilter :=
  filter (λ c, cf_column c = column) (constant_filters f).
Definition get_column_values_i64 (f : PushdownFilters) (column : string) : option (list Z) :=
  get_column_values f column ≫= array_values_i64.
Definition get_column_bounds (f : PushdownFilters) (column : string) : option ColumnBounds :=
  reduce intersect_bounds (omap (λ p, bounds_for (p_expression p) column) (predicates f)).
Definition column_summary (f : PushdownFilters) (column : string) : nat * option Z * option Z :=
  let values := default [] (get_column_values_i64 f column) in
  match get_column_bounds f column with
  | Some b => (length values, b_min b, b_max b)
  | None => (length values, None, None)
  end.

(** * Printing *)

Definition op_symbol (op : string) : string :=
  match cmp_of_string op with
  | Some OpEq => "=" | Some OpNe => "!=" | Some OpLt => "<" | Some OpLe => "<="
  | Some OpGt => ">" | Some OpGe => ">="
  | Some OpDistinct => "IS DISTINCT FROM" | Some OpNotDistinct => "IS NOT DISTINCT FROM"
  | None => "?"
  end.

Definition string_at (a : array) (i : nat) : string :=
  default "" (downcast_strings a ≫= λ l, mjoin (l !! i)).

Definition fmt_scalar (a : array) (i : nat) : string :=
  if is_null a i then "NULL"
  else if decide (arr_type a = Utf8) then "'" +:+ string_at a i +:+ "'"
  else if decide (arr_type a = Boolean) then
    if default false (downcast_bools a ≫= λ l, mjoin (l !! i)) then "True" else "False"
  else match arrow_cast (slice a i 1) Utf8 with Ok a => string_at a 0 | Err _ => "" end.

Definition bool_str (b : bool) : string := if b then "true" else "false".

Fixpoint format_expr (e : Expr) : string :=
  let format_predicate c :=
    match boolean_column_leaf c with
    | Some (n, v) => n +:+ " = " +:+ bool_str v
    | None => format_expr c
    end in
  match e with
  | Column _ n _ => n
  | FieldRef e _ n _ => format_expr e +:+ "." +:+ n
  | Literal v => if (len v =? 0)%nat then "NULL" else fmt_scalar v 0
  | Comparison op l r => format_expr l +:+ " " +:+ op_symbol op +:+ " " +:+ format_expr r
  | And l => "(" +:+ String.concat " AND " (format_predicate <$> l) +:+ ")"
  | Or l => "(" +:+ String.concat " OR " (format_predicate <$> l) +:+ ")"
  | Not e => "NOT (" +:+ format_expr e +:+ ")"
  | IsNull e negated => format_expr e +:+ " IS " +:+ (if negated then "NOT " else "") +:+ "NULL"
  | In e values negated =>
      format_expr e +:+ " " +:+ (if negated then "NOT " else "") +:+ "IN (" +:+
      String.concat ", " (fmt_scalar values <$> seq 0 (len values)) +:+ ")"
  | _ => "(expression)"
  end.

Definition format_predicate (e : Expr) : string :=
  match boolean_column_leaf e with
  | Some (n, v) => n +:+ " = " +:+ bool_str v
  | None => format_expr e
  end.

Fixpoint format_filter_repr (e : Expr) : string :=
  match e with
  | Comparison op l r =>
      "ConstantFilter(" +:+ format_expr l +:+ " " +:+ op_symbol op +:+ " " +:+ format_expr r +:+ ")"
  | And l => "AndFilter([" +:+ String.concat ", " (format_filter_repr <$> l) +:+ "])"
  | Or l => "OrFilter([" +:+ String.concat ", " (format_filter_repr <$> l) +:+ "])"
  | e => format_expr e
  end.

Definition format_pushed (f : PushdownFilters) : string :=
  match predicates f with
  | [] => "(none)"
  | ps => String.concat " AND " ((λ p, format_predicate (p_expression p)) <$> ps)
  end.

Definition format_repr (f : PushdownFilters) : string :=
  match predicates f with
  | [] => "(none)"
  | ps => "PushdownFilters([" +:+ String.concat ", " ((λ p, format_filter_repr (p_expression p)) <$> ps) +:+ "])"
  end.
End views.

(** * Soundness *)

(** Row [j] makes the expression TRUE. *)
Definition accepted `{Arrow} (b : RecordBatch) (j : nat) (e : Expr) : Prop :=
  ∃ x, eval_bool e b = Ok x ∧ x !! j = Some (Some true).

Lemma find_map_Some {A B} (f : A → option B) l y : find_map f l = Some y → ∃ x, x ∈ l ∧ f x = Some y.
Proof.
  induction l as [|x l IH]; [done|]. cbn [find_map]. destruct (f x) as [z|] eqn:E.
  - intros [= <-]. exists x. split; [apply list_elem_of_here|done].
  - intros (x' & ? & ?)%IH. exists x'. split; [by apply list_elem_of_further|done].
Qed.

Lemma reduce_invariant {A} (P : A → Prop) (f : A → A → A) l y : (∀ a b, P a → P b → P (f a b)) →
  Forall P l → reduce f l = Some y → P y.
Proof.
  intros Hf Hl. destruct Hl as [|x l Hx Hl]; [done|]. intros [= <-].
  induction Hl in x, Hx |- *; simpl; auto.
Qed.

(** An operation that can only widen keeps what one element has. *)
Lemma reduce_widen {A} (P : A → Prop) (f : A → A → A) l x y : (∀ a b, P a ∨ P b → P (f a b)) →
  x ∈ l → P x → reduce f l = Some y → P y.
Proof.
  intros Hf Hx Px. destruct l as [|z l]; [done|]. intros [= <-].
  assert (P z ∨ ∃ x', x' ∈ l ∧ P x') as H by (apply elem_of_cons in Hx as [->|?]; eauto). clear Hx.
  induction l as [|w l IH] in z, H |- *; simpl.
  - destruct H as [?|(? & ?%not_elem_of_nil & _)]; done.
  - apply IH. destruct H as [?|(x' & [->|?]%elem_of_cons & ?)]; eauto.
Qed.

Section accepted.
Context `{ArrowLaws} (s : Schema) (b : RecordBatch) (j : nat).

Lemma fold_and_accepted l acc r : fold_bool and_kleene b l acc = Ok r → r !! j = Some (Some true) →
  acc !! j = Some (Some true) ∧ Forall (accepted b j) l.
Proof.
  induction l as [|e l IH] in acc |- *; cbn [fold_bool]; intros E Hj.
  { injection E as <-. split; [done|constructor]. }
  inv_ok E. destruct (IH _ E Hj) as [Ha Hl].
  destruct (connective_cell true _ _ _ _ _ E1 Ha) as (u & v & Hu & Hv & Ht).
  assert (u = Some true ∧ v = Some true) as [-> ->] by (by destruct u as [[]|], v as [[]|]).
  split; [done|]. constructor; [by eexists|done].
Qed.

Lemma fold_or_accepted l acc r : fold_bool or_kleene b l acc = Ok r → r !! j = Some (Some true) →
  acc !! j = Some (Some true) ∨ Exists (accepted b j) l.
Proof.
  induction l as [|e l IH] in acc |- *; cbn [fold_bool]; intros E Hj.
  { injection E as <-. by left. }
  inv_ok E. destruct (IH _ E Hj) as [Ha|Hl]; [|right; by constructor 2].
  destruct (connective_cell false _ _ _ _ _ E1 Ha) as (u & v & Hu & Hv & Ht).
  assert (u = Some true ∨ v = Some true) as [-> | ->].
  { destruct u as [[]|], v as [[]|]; try done; auto. }
  - by left.
  - right. constructor 1. by eexists.
Qed.

Lemma accepted_And l : accepted b j (And l) → Forall (accepted b j) l.
Proof.
  intros (x & E & Hj). unfold eval_bool in E. rewrite eval_And in E. inv_ok E. inv_ok E0. injection E0 as <-.
  rewrite to_bool_of_bools in E. injection E as <-. by destruct (fold_and_accepted _ _ _ E1 Hj).
Qed.

Lemma accepted_Or l : accepted b j (Or l) → Exists (accepted b j) l.
Proof.
  intros (x & E & Hj). unfold eval_bool in E. rewrite eval_Or in E. inv_ok E. inv_ok E0. injection E0 as <-.
  rewrite to_bool_of_bools in E. injection E as <-. destruct (fold_or_accepted _ _ _ E1 Hj) as [Hr|?]; [|done].
  by apply lookup_replicate in Hr as [? _].
Qed.
End accepted.

Section column.
Context `{ArrowLaws} (s : Schema) (b : RecordBatch) (j : nat) (k : nat) (f : Field) (c : array) (x : option value).
Context (Hb : conforms s b) (Hk : s !! k = Some f) (Hc : columns b !! k = Some c) (Hx : vals c !! j = Some x).
Context (Huniq : ∀ k' f', s !! k' = Some f' → name f' = name f → k' = k).
Let t := data_type f.
Context (Ho : ordered t = true).

Lemma root_column_typed e te : typed s e te → root_column e = Some (name f) →
  (e = Column k (name f) t ∧ te = t) ∨ ∃ fs, t = Struct fs.
Proof.
  induction 1; cbn [root_column]; try done.
  - intros [= En]. left. assert (i = k) as -> by (by eapply Huniq). rewrite Hk in H1. by injection H1 as <-.
  - intros Hr. destruct (IHtyped Hr) as [[_ E]|?]; right; eauto.
Qed.

Lemma root_is_column e te : typed s e te → root_column e = Some (name f) → e = Column k (name f) t ∧ te = t.
Proof.
  intros Ht Hr. destruct (root_column_typed e te Ht Hr) as [?|[fs Hs]]; [done|]. by rewrite Hs in Ho.
Qed.

Lemma accepted_left op o v : typed s (Literal v) (arr_type v) → cmp_of_string op = Some o →
  logical_value_type t = logical_value_type (arr_type v) →
  accepted b j (Comparison op (Column k (name f) t) (Literal v)) →
  ∃ y, vals v = [y] ∧ sql_cell (sql_ord t) o x y = Some true.
Proof.
  intros Tv Hop Hl (r & Er & Hj). inversion Tv; subst. destruct (literal_single v) as [y Hy]; [done|].
  rewrite (compare_target_left s b k f c Hb Hk Hc op o v y) in Er by done. injection Er as <-.
  rewrite list_lookup_fmap, Hx in Hj. injection Hj as Hj. eauto.
Qed.

Lemma accepted_right op o v : typed s (Literal v) (arr_type v) → cmp_of_string op = Some o →
  logical_value_type t = logical_value_type (arr_type v) →
  accepted b j (Comparison op (Literal v) (Column k (name f) t)) →
  ∃ y, vals v = [y] ∧ sql_cell (sql_ord t) o y x = Some true.
Proof.
  intros Tv Hop Hl (r & Er & Hj). inversion Tv; subst. destruct (literal_single v) as [y Hy]; [done|].
  rewrite (compare_target_right s b k f c Hb Hk Hc op o v y) in Er by done. injection Er as <-.
  rewrite list_lookup_fmap, Hx in Hj. injection Hj as Hj. eauto.
Qed.

Lemma foldl_or_true {A} (g : A → option bool) l acc :
  foldl (λ a y, kleene_or a (g y)) acc l = Some true → acc = Some true ∨ ∃ y, y ∈ l ∧ g y = Some true.
Proof.
  induction l as [|y l IH] in acc |- *; simpl; [auto|]. intros [Ha|(z & ? & ?)]%IH.
  - destruct acc as [[]|], (g y) as [[]|] eqn:E; try done; auto; right; exists y; split; try done; apply list_elem_of_here.
  - right. exists z. split; [by apply list_elem_of_further|done].
Qed.

Lemma column_reads : reads (column_ok b) (Column k (name f) t).
Proof. eapply conforms_reads; [exact Hb|]. by constructor. Qed.

Lemma column_row : row_value (Column k (name f) t) (row_cell b j) = x.
Proof. cbn. unfold row_cell. rewrite (resolve_conforms _ _ _ _ Hb Hk), Hc. cbn. by rewrite Hx. Qed.

Lemma column_in_range : (j < num_rows b)%nat.
Proof.
  destruct (conforms_column _ _ _ _ Hb Hk) as (c' & Hc' & _ & _ & Lc & _). rewrite Hc in Hc'. injection Hc' as <-.
  rewrite <- Lc. by eapply lookup_lt_Some.
Qed.

Lemma accepted_in values : wf_array values → logical_value_type t = logical_value_type (arr_type values) →
  accepted b j (In (Column k (name f) t) values false) →
  ∃ y, y ∈ vals values ∧ sql_cell (sql_ord t) OpEq x y = Some true.
Proof.
  intros Wv Hl (r & Er & Hj).
  destruct (in_row_wise s b (Column k (name f) t) t values false) as (r' & Er' & _ & Vr); try done.
  { by constructor. } { apply column_reads. }
  rewrite Er in Er'. injection Er' as <-. rewrite (Vr j column_in_range) in Hj. injection Hj as Hj.
  pose proof column_row as Hr. cbn [row_truth] in Hj. cbn [row_value] in Hj, Hr. rewrite Hr in Hj.
  apply foldl_or_true in Hj as [?|?]; done.
Qed.

Lemma boolean_leaf_shape e v : typed s e Boolean → boolean_column_leaf e = Some (name f, v) →
  t = Boolean ∧ e = if v then Column k (name f) t else Not (Column k (name f) t).
Proof.
  assert (∀ e, typed s e Boolean → boolean_column e = Some (name f) → t = Boolean ∧ e = Column k (name f) t) as Hcol.
  { intros e' Te Hn. destruct e'; try done. unfold boolean_column in Hn. case_decide as Et; [|done].
    injection Hn as ->. destruct (root_is_column _ _ Te eq_refl) as [-> E]. done. }
  intros Te Hl. destruct e as [i n u| | | | | |e| | | | | | |]; try done; unfold boolean_column_leaf in Hl.
  - destruct (boolean_column (Column i n u)) as [n'|] eqn:E; [|done]. cbn in Hl.
    assert (n' = name f ∧ v = true) as [-> ->] by (split; congruence). by apply Hcol.
  - destruct (boolean_column e) as [n'|] eqn:E; [|done]. cbn in Hl.
    assert (n' = name f ∧ v = false) as [-> ->] by (split; congruence). inversion Te; subst.
    destruct (Hcol e) as [? ->]; done.
Qed.

Lemma accepted_boolean e v : typed s e Boolean → boolean_column_leaf e = Some (name f, v) → accepted b j e →
  t = Boolean ∧ x = Some (VBool v).
Proof.
  intros Te Hl (r & Er & Hj). destruct (boolean_leaf_shape e v Te Hl) as [Et He]. split; [done|].
  destruct (supported_row_wise s b e Te) as (r' & Er' & _ & Vr).
  { subst e. by destruct v; cbn; rewrite Et. } { subst e. by destruct v. }
  { by eapply conforms_reads. }
  rewrite Er in Er'. injection Er' as <-. rewrite (Vr j column_in_range) in Hj. injection Hj as Hj.
  pose proof column_row as Hr. subst e. destruct v; cbn [row_truth] in Hj; rewrite Hr in Hj;
    destruct x as [[[]| | | | | |]|]; done.
Qed.
End column.

(** * Discrete values *)

Section values.
Context `{ArrowLaws} (s : Schema) (b : RecordBatch) (j : nat) (k : nat) (f : Field) (c : array) (x : option value).
Context (Hb : conforms s b) (Hk : s !! k = Some f) (Hc : columns b !! k = Some c) (Hx : vals c !! j = Some x).
Context (Huniq : ∀ k' f', s !! k' = Some f' → name f' = name f → k' = k).
Let t := data_type f.
Context (Ho : ordered t = true).

Definition equals_one (vs : array) : Prop := ∃ y, y ∈ vals vs ∧ sql_cell (sql_ord t) OpEq x y = Some true.

Lemma constant_for_sound e vs : typed s e Boolean → constant_for e (name f) = Some vs →
  wf_array vs ∧ (accepted b j e → equals_one vs).
Proof.
  intros Te Hv. assert (∀ n v, boolean_column_leaf e = Some (n, v) →
    (if String.eqb n (name f) then Some (bool_literal v) else None) = Some vs →
    wf_array vs ∧ (accepted b j e → equals_one vs)) as Hleaf.
  { intros n v Hl E. destruct (String.eqb_spec n (name f)) as [->|]; [|done]. injection E as <-.
    split; [apply wf_of_bools|]. intros Hacc.
    destruct (accepted_boolean s b j k f c x Hb Hk Hc Hx Huniq Ho e v Te Hl Hacc) as [Et Ex].
    exists (Some (VBool v)). split; [apply list_elem_of_here|]. rewrite Ex. unfold sql_cell. by rewrite sql_ord_refl. }
  unfold constant_for in Hv.
  destruct e; try (destruct (boolean_column_leaf _) as [[??]|] eqn:E; [by eapply Hleaf|done]).
  destruct (String.eqb_spec op "eq") as [->|]; [|done]. case_bool_decide as Hr; [|done]. cbn in Hv.
  destruct e2; try done. injection Hv as <-. inversion Te; subst.
  rename select (typed s e1 _) into T1. rename select (typed s (Literal _) _) into T2.
  destruct (root_is_column s k f Hk Huniq Ho e1 _ T1 Hr) as [-> ->]. inversion T2; subst.
  split; [done|]. intros Hacc.
  destruct (accepted_left s b j k f c x Hb Hk Hc Hx Ho "eq" OpEq v T2 eq_refl) as (y & Hy & Hs); [done..|].
  exists y. rewrite Hy. split; [apply list_elem_of_here|done].
Qed.

Lemma in_values_for_sound e vs : typed s e Boolean → in_values_for e (name f) = Some vs →
  wf_array vs ∧ (accepted b j e → equals_one vs).
Proof.
  intros Te Hv. destruct e; try done. cbn in Hv. destruct negated; [done|]. case_decide as Hr; [|done].
  injection Hv as <-. inversion Te; subst. rename select (typed s e _) into T1.
  destruct (root_is_column s k f Hk Huniq Ho e _ T1 Hr) as [-> ->]. split; [done|]. intros Hacc.
  eapply accepted_in; eauto.
Qed.

Lemma concat_sound l arrays a : arrow_concat arrays = Ok a →
  Forall2 (λ e w, values_for e (name f) = Some w) l arrays →
  (∀ i e w, l !! i = Some e → arrays !! i = Some w → wf_array w ∧ (accepted b j e → equals_one w)) →
  wf_array a ∧ (accepted b j (Or l) → equals_one a).
Proof.
  intros Ea Em Hall. destruct (arrow_concat_err _ _ Ea) as (Hne & u & Hu).
  destruct (arrow_concat_spec u arrays) as (a' & Ea' & _ & Va & Wa).
  { done. }
  { apply Forall_lookup. intros i w Hw. rewrite Forall_lookup in Hu. split; [by eapply Hu|].
    destruct (Forall2_lookup_r _ _ _ _ _ Em Hw) as (e & He & _). by destruct (Hall _ _ _ He Hw). }
  rewrite Ea in Ea'. injection Ea' as <-. split; [done|]. intros Hacc%accepted_Or.
  apply Exists_exists in Hacc as (e & (i & Hi)%list_elem_of_lookup & Hacc).
  destruct (Forall2_lookup_l _ _ _ _ _ Em Hi) as (w & Hw & _). destruct (Hall _ _ _ Hi Hw) as [_ Sw].
  destruct (Sw Hacc) as (y & Hy & Hs). exists y. split; [|done]. rewrite Va. apply list_elem_of_bind.
  exists w. split; [done|]. by eapply list_elem_of_lookup_2.
Qed.

Lemma values_for_sound e vs : typed s e Boolean → values_for e (name f) = Some vs →
  wf_array vs ∧ (accepted b j e → equals_one vs).
Proof.
  revert vs. induction e using Expr_nested_ind; intros vs Te Hv;
    try (cbn [values_for] in Hv;
         destruct (constant_for _ _) as [w|] eqn:E in Hv;
         [injection Hv as ->; by eapply constant_for_sound|by eapply in_values_for_sound]).
  - apply find_map_Some in Hv as (e & He & Hv). inversion Te as [| | | |? Tl| | | | | | | | |]; subst.
    rewrite Forall_forall in H1, Tl. destruct (H1 e He vs (Tl e He) Hv) as [Wv Sv]. split; [done|].
    intros Hacc%accepted_And. rewrite Forall_forall in Hacc. by apply Sv, Hacc.
  - cbn [values_for] in Hv. destruct (mapM _ l) as [arrays|] eqn:Em; [|done]. cbn in Hv.
    destruct (arrow_concat arrays) as [a|] eqn:Ea; [|done]. injection Hv as <-.
    apply mapM_Some in Em. inversion Te as [| | | | |? Tl| | | | | | | |]; subst.
    rewrite Forall_forall in H1, Tl.
    assert (∀ i e w, l !! i = Some e → arrays !! i = Some w → wf_array w ∧ (accepted b j e → equals_one w)) as Hall.
    { intros i e w Hi Hw. apply H1; [by eapply list_elem_of_lookup_2|by eapply Tl, list_elem_of_lookup_2|].
      by destruct (Forall2_lookup_lr _ _ _ _ _ _ Em Hi Hw). }
    by eapply concat_sound.
Qed.
End values.

(** * Integer bounds *)

Definition in_bounds (bd : ColumnBounds) (z : Z) : Prop :=
  (∀ m, b_min bd = Some m → m ≤ z) ∧ (∀ m, b_max bd = Some m → z ≤ m).

Lemma intersect_in l r z : in_bounds l z → in_bounds r z → in_bounds (intersect_bounds l r) z.
Proof.
  destruct l as [[a|] [a'|]], r as [[c|] [c'|]]; unfold in_bounds; cbn; intros [Hl Hl'] [Hr Hr']; split;
    intros m [= <-]; auto; try (apply Z.max_lub; by auto); try (apply Z.min_glb; by auto).
Qed.

Lemma union_in l r z : in_bounds l z ∨ in_bounds r z → in_bounds (union_bounds l r) z.
Proof.
  destruct l as [[a|] [a'|]], r as [[c|] [c'|]]; unfold in_bounds; cbn; intros [[Hl Hl']|[Hl Hl']]; split;
    intros m [= <-]; try specialize (Hl _ eq_refl); try specialize (Hl' _ eq_refl); lia.
Qed.

Lemma reduce_min_le zs m z : reduce Z.min zs = Some m → z ∈ zs → m ≤ z.
Proof. intros E Hz. apply (reduce_widen (λ m, m ≤ z) Z.min zs z m); try done. lia. Qed.
Lemma reduce_max_ge zs m z : reduce Z.max zs = Some m → z ∈ zs → z ≤ m.
Proof. intros E Hz. apply (reduce_widen (λ m, z ≤ m) Z.max zs z m); try done. lia. Qed.

Lemma flipped_cell `{ArrowLaws} t op o : cmp_of_string op = Some o →
  ∃ o', cmp_of_string (flipped op) = Some o' ∧ ∀ x y, sql_cell (sql_ord t) o y x = sql_cell (sql_ord t) o' x y.
Proof.
  intros ->%cmp_of_string_inv. destruct (reverse_op_spec o) as (o' & Ho & Hs). exists o'.
  split; [by destruct o|]. intros x y. by rewrite <- Hs.
Qed.

Section bounds.
Context `{ArrowLaws} (s : Schema) (b : RecordBatch) (j : nat) (k : nat) (f : Field) (c : array) (x : option value).
Context (Hb : conforms s b) (Hk : s !! k = Some f) (Hc : columns b !! k = Some c) (Hx : vals c !! j = Some x).
Context (Huniq : ∀ k' f', s !! k' = Some f' → name f' = name f → k' = k).
Let t := data_type f.
Context (Hint : logical_value_type t = Int64).

Lemma int_ordered : ordered t = true.
Proof. by rewrite <- ordered_logical, Hint. Qed.

Lemma array_values_int v : wf_array v → logical_value_type (arr_type v) = Int64 →
  array_values_i64 v = Some (omap int_of (vals v)).
Proof.
  intros Wv Hv. unfold array_values_i64. destruct (arr_type v) as [| | | | | | | |ky vt| |] eqn:E; try done; cbn in Hv.
  - rewrite <- Hv, <- E, arrow_cast_same by done. done.
  - destruct (arrow_cast_dictionary v ky vt E Wv) as (a & Ea & _ & Va & _). rewrite Hv in Ea. by rewrite Ea, Va.
Qed.

Lemma int_cell v o : wf_array v → logical_value_type (arr_type v) = Int64 → Some o ∈ vals v →
  ∃ z, o = VInt z ∧ - 2 ^ 63 ≤ z < 2 ^ 63.
Proof.
  intros (Ht & _) Hv Hin. rewrite Forall_forall in Ht. specialize (Ht _ Hin). cbn [cell_type] in Ht.
  destruct o; cbn in Ht; rewrite Hv in Ht; try done. exists z. split; [done|]. cbn in Ht. lia.
Qed.

(** A TRUE comparison with a column of 64-bit integers compares integers. *)
Lemma int_compare o v y : wf_array v → logical_value_type (arr_type v) = Int64 → y ∈ vals v →
  sql_cell (sql_ord t) o x y = Some true → o ≠ OpDistinct → o ≠ OpNotDistinct →
  ∃ z w, x = Some (VInt z) ∧ y = Some (VInt w) ∧ - 2 ^ 63 ≤ z < 2 ^ 63 ∧ holds o (z ?= w) = true.
Proof.
  intros Wv Hv Hy Hs Hd Hn. destruct (conforms_column _ _ _ _ Hb Hk) as (c' & Hc' & Tc & Wc & _ & _).
  rewrite Hc in Hc'. injection Hc' as <-.
  destruct x as [p|] eqn:Ex; [|by destruct o, y]. destruct y as [q|]; [|by destruct o].
  destruct (int_cell c p Wc) as (z & -> & Hz); [by rewrite Tc|by eapply list_elem_of_lookup_2|].
  destruct (int_cell v q Wv Hv Hy) as (w & -> & _). exists z, w. split; [done|]. split; [done|]. split; [done|].
  unfold sql_cell, sql_ord in Hs. rewrite Hint in Hs. cbn [is_float] in Hs.
  rewrite (scalar_cmp_int FInt64 (- 2 ^ 63) (2 ^ 63) z w eq_refl) in Hs. destruct o; by injection Hs.
Qed.

(** The bound a comparison with a literal gives. *)
Lemma literal_bound_sound op o v y bd (reversed : bool) : cmp_of_string op = Some o → wf_array v →
  logical_value_type (arr_type v) = Int64 → vals v = [y] →
  (if reversed then sql_cell (sql_ord t) o y x else sql_cell (sql_ord t) o x y) = Some true →
  literal_bound op (Literal v) reversed = Some bd → ∃ z, x = Some (VInt z) ∧ in_bounds bd z.
Proof.
  intros Hop Wv Hv Hy Hs Hbd. unfold literal_bound in Hbd.
  rewrite (array_values_int v Wv Hv), Hy in Hbd. cbn [mbind option_bind] in Hbd.
  destruct (head (omap int_of [y])) as [w|] eqn:Ew; [|done]. cbn in Hbd.
  set (op' := if reversed then flipped op else op) in *.
  assert (∃ o', cmp_of_string op' = Some o' ∧ sql_cell (sql_ord t) o' x y = Some true) as (o' & Hop' & Hs').
  { destruct reversed; [|by exists o]. destruct (flipped_cell t op o Hop) as (o' & ? & Hf).
    exists o'. split; [done|]. by rewrite <- Hf. }
  apply cmp_of_string_inv in Hop'. clearbody op'. subst op'.
  assert (o' ≠ OpDistinct ∧ o' ≠ OpNotDistinct) as [Hd Hn] by (split; intros ->; done).
  destruct (int_compare o' v y Wv Hv) as (z & w' & Hz & -> & Hr & Hh); [rewrite Hy; apply list_elem_of_here|done..|].
  injection Ew as <-. exists z. split; [done|]. unfold saturating_i64 in Hbd.
  destruct o'; try done; injection Hbd as <-; split; cbn [b_min b_max]; intros m [= <-];
    destruct (Z.compare_spec z w'); try done; lia.
Qed.

Lemma array_bounds_sound values y bd : wf_array values → logical_value_type (arr_type values) = Int64 →
  y ∈ vals values → sql_cell (sql_ord t) OpEq x y = Some true → array_bounds_i64 values = Some bd →
  ∃ z, x = Some (VInt z) ∧ in_bounds bd z.
Proof.
  intros Wv Hv Hy Hs Hbd. destruct (int_compare OpEq values y Wv Hv Hy Hs) as (z & w & Hz & -> & _ & Hh); [done..|].
  destruct (Z.compare_spec z w) as [->| |]; try done. exists w. split; [done|].
  unfold array_bounds_i64 in Hbd. rewrite array_values_int in Hbd by done. cbn [mbind option_bind] in Hbd.
  destruct (length _ =? 0)%nat; [done|]. injection Hbd as <-.
  assert (w ∈ omap int_of (vals values)) as Hin by (apply list_elem_of_omap; by eexists).
  split; cbn; intros m Hm; [by eapply reduce_min_le|by eapply reduce_max_ge].
Qed.

Lemma bounds_for_sound e bd : typed s e Boolean → bounds_for e (name f) = Some bd → accepted b j e →
  ∃ z, x = Some (VInt z) ∧ in_bounds bd z.
Proof.
  pose proof int_ordered as Ho. revert bd. induction e using Expr_nested_ind; intros bd Te Hbd Hacc; try done.
  - cbn [bounds_for] in Hbd. inversion Te as [| | |? o ? ? ? ? Hop Tl Tr Hlog| | | | | | | | | |]; subst.
    case_decide as Hl; [|case_decide as Hr; [|done]].
    + destruct (root_is_column s k f Hk Huniq Ho e1 _ Tl Hl) as [-> ->]. destruct e2; try done. inversion Tr; subst.
      destruct (accepted_left s b j k f c x Hb Hk Hc Hx Ho op o v Tr Hop) as (y & Hy & Hs); [done..|].
      eapply (literal_bound_sound op o v y bd false); try done. by rewrite <- Hlog.
    + destruct (root_is_column s k f Hk Huniq Ho e2 _ Tr Hr) as [-> ->]. destruct e1; try done. inversion Tl; subst.
      destruct (accepted_right s b j k f c x Hb Hk Hc Hx Ho op o v Tl Hop) as (y & Hy & Hs); [done..|].
      eapply (literal_bound_sound op o v y bd true); try done. by rewrite Hlog.
  - inversion Te as [| | | |? Tl| | | | | | | | |]; subst. apply accepted_And in Hacc.
    rewrite Forall_forall in Hacc, Tl, H1. cbn [bounds_for] in Hbd.
    assert (Forall (λ bd, ∃ z, x = Some (VInt z) ∧ in_bounds bd z) (omap (λ c, bounds_for c (name f)) l)) as Hall.
    { apply Forall_forall. intros bd' (e & He & E)%list_elem_of_omap. by eapply H1, Hacc; [|apply Tl| |]. }
    eapply (reduce_invariant _ _ _ _ _ Hall Hbd). Unshelve. intros l1 r1 (z & -> & Hz) (z' & [= <-] & Hz').
    exists z. split; [done|]. by apply intersect_in.
  - inversion Te as [| | | | |? Tl| | | | | | | |]; subst. apply accepted_Or, Exists_exists in Hacc as (e & He & Hacc).
    rewrite Forall_forall in Tl, H1. cbn [bounds_for] in Hbd. destruct (mapM _ l) as [bs|] eqn:Em; [|done].
    apply mapM_Some in Em. apply list_elem_of_lookup in He as (i & Hi).
    destruct (Forall2_lookup_l _ _ _ _ _ Em Hi) as (bd' & Hbd' & E).
    assert (e ∈ l) as He by (by eapply list_elem_of_lookup_2).
    destruct (H1 e He bd' (Tl e He) E Hacc) as (z & Hz & Hin). exists z. split; [done|].
    eapply (reduce_widen (λ bd, in_bounds bd z) union_bounds bs bd'); [intros; by apply union_in| |done|done].
    by eapply list_elem_of_lookup_2.
  - cbn [bounds_for] in Hbd. destruct b0; [done|]. case_decide as Hr; [|done]. inversion Te; subst.
    rename select (typed s e _) into T1. destruct (root_is_column s k f Hk Huniq Ho e _ T1 Hr) as [-> ->].
    destruct (accepted_in s b j k f c x Hb Hk Hc Hx Ho v) as (y & Hy & Hs); [done..|].
    eapply (array_bounds_sound v y); try done. by match goal with E : logical_value_type _ = logical_value_type _ |- _ => rewrite <- E end.
Qed.
End bounds.

(** * Constant filters *)

(** What a constant filter says of row [j]. *)
Definition satisfied `{Arrow} (s : Schema) (b : RecordBatch) (j : nat) (cf : ConstantFilter) : Prop :=
  ∃ k f c x o y, s !! k = Some f ∧ name f = cf_column cf ∧ columns b !! k = Some c ∧ vals c !! j = Some x ∧
    cmp_of_string (cf_op cf) = Some o ∧ vals (cf_value cf) = [y] ∧ sql_cell (sql_ord (data_type f)) o x y = Some true.

Section constants.
Context `{ArrowLaws} (s : Schema) (b : RecordBatch) (j : nat).
Context (Hb : conforms s b) (Hj : (j < num_rows b)%nat) (Hnd : NoDup (name <$> s)).

Lemma names_unique k k' f f' : s !! k = Some f → s !! k' = Some f' → name f' = name f → k' = k.
Proof.
  intros Hk Hk' Hn. eapply (NoDup_lookup (name <$> s)); [done|rewrite list_lookup_fmap, Hk'; done|].
  rewrite list_lookup_fmap, Hk. cbn. by rewrite Hn.
Qed.

Lemma column_cell i n u te : typed s (Column i n u) te → ∃ f c x, s !! i = Some f ∧ n = name f ∧ u = data_type f ∧
  columns b !! i = Some c ∧ vals c !! j = Some x.
Proof.
  intros T. inversion T as [? f Hf| | | | | | | | | | | | |]; subst.
  destruct (conforms_column _ _ _ _ Hb Hf) as (c & Hc & _ & _ & Lc & _).
  rewrite <- Lc in Hj. destruct (lookup_lt_is_Some_2 _ _ Hj) as [x Hx]. by exists f, c, x.
Qed.

Lemma leaf_satisfied e n v : typed s e Boolean → accepted b j e → boolean_column_leaf e = Some (n, v) →
  satisfied s b j (mkConstant n "eq" (bool_literal v)).
Proof.
  intros Te Hacc Hl. assert (∃ i u, typed s (Column i n u) Boolean) as (i & u & Tc).
  { assert (∀ e', typed s e' Boolean → boolean_column e' = Some n → ∃ i u, typed s (Column i n u) Boolean) as Hcol.
    { intros [] T E; try done. unfold boolean_column in E. case_decide; [|done]. injection E as ->. eauto. }
    destruct e as [i n' u| | | | | |e| | | | | | |]; try done; unfold boolean_column_leaf in Hl.
    - apply fmap_Some in Hl as (n1 & E & [= -> ->]). by eapply Hcol.
    - apply fmap_Some in Hl as (n1 & E & [= -> ->]). inversion Te; subst. by eapply Hcol. }
  destruct (column_cell _ _ _ _ Tc) as (f & c & x & Hf & -> & -> & Hc & Hx).
  assert (ordered (data_type f) = true) as Ho by (apply typed_type in Tc; cbn in Tc; injection Tc as ->; done).
  destruct (accepted_boolean s b j i f c x Hb Hf Hc Hx) with e v as [Et ->]; try done.
  { intros k' f' Hk' Hn. by eapply names_unique. }
  exists i, f, c, (Some (VBool v)), OpEq, (Some (VBool v)). repeat (split; [done|]).
  unfold sql_cell. by rewrite sql_ord_refl.
Qed.

(** A comparison of a column and a literal, on either side. *)
Lemma comparison_satisfied op l r cf : typed s (Comparison op l r) Boolean → accepted b j (Comparison op l r) →
  cf ∈ collect_constant_filters (Comparison op l r) → ordered (arr_type (cf_value cf)) = true → satisfied s b j cf.
Proof.
  intros Te Hacc Hin Ho. inversion Te as [| | |? o ? ? ? ? Hop Tl Tr Hlog| | | | | | | | | |]; subst.
  destruct l as [i n u| |v| | | | | | | | | | |], r as [i' n' u'| |v'| | | | | | | | | | |]; cbn in Hin;
    try (by apply not_elem_of_nil in Hin); apply list_elem_of_singleton in Hin as ->; cbn [cf_value] in Ho.
  - destruct (column_cell _ _ _ _ Tl) as (f & c & x & Hf & -> & -> & Hc & Hx).
    pose proof (typed_type _ _ _ Tl) as [= <-]. pose proof (typed_type _ _ _ Tr) as [= <-].
    assert (ordered (data_type f) = true) as Ho' by (by rewrite <- ordered_logical, Hlog, ordered_logical).
    destruct (accepted_left s b j i f c x Hb Hf Hc Hx Ho' op o v' Tr Hop Hlog Hacc) as (y & Hy & Hs).
    by exists i, f, c, x, o, y.
  - destruct (column_cell _ _ _ _ Tr) as (f & c & x & Hf & -> & -> & Hc & Hx).
    pose proof (typed_type _ _ _ Tl) as [= <-]. pose proof (typed_type _ _ _ Tr) as [= <-].
    assert (ordered (data_type f) = true) as Ho' by (by rewrite <- ordered_logical, <- Hlog, ordered_logical).
    destruct (accepted_right s b j i' f c x Hb Hf Hc Hx Ho' op o v Tl Hop (eq_sym Hlog) Hacc) as (y & Hy & Hs).
    destruct (flipped_cell (data_type f) op o Hop) as (o' & Hop' & Hfl). rewrite Hfl in Hs.
    by exists i', f, c, x, o', y.
Qed.

Lemma constants_sound e cf : typed s e Boolean → accepted b j e → cf ∈ collect_constant_filters e →
  ordered (arr_type (cf_value cf)) = true → satisfied s b j cf.
Proof.
  induction e using Expr_nested_ind; intros Te Hacc Hin Ho; try (by apply not_elem_of_nil in Hin);
    try (by eapply comparison_satisfied).
  - cbn [collect_constant_filters] in Hin. destruct (boolean_column_leaf _) as [[n0 v0]|] eqn:El;
      [|by apply not_elem_of_nil in Hin]. apply list_elem_of_singleton in Hin as ->. by eapply leaf_satisfied.
  - cbn in Hin. apply list_elem_of_bind in Hin as (e & Hin & He). apply accepted_And in Hacc.
    inversion Te as [| | | |? Tl| | | | | | | | |]; subst. rewrite Forall_forall in Hacc, Tl, H1. by apply (H1 e); auto.
  - cbn [collect_constant_filters] in Hin. destruct (boolean_column_leaf _) as [[n0 v0]|] eqn:El;
      [|by apply not_elem_of_nil in Hin]. apply list_elem_of_singleton in Hin as ->. by eapply leaf_satisfied.
Qed.
End constants.

(** * The theorems *)

(** Row [j] makes every predicate TRUE. *)
Definition accepts `{Arrow} (f : PushdownFilters) (b : RecordBatch) (j : nat) : Prop :=
  Forall (λ p, accepted b j (p_expression p)) (predicates f).

Lemma accepted_typed `{Arrow} f b j p : wf_filters f → accepts f b j → p ∈ predicates f →
  typed (output_schema f) (p_expression p) Boolean ∧ accepted b j (p_expression p).
Proof.
  intros Hwf Hacc Hp. unfold wf_filters, accepts in *. rewrite Forall_forall in Hwf, Hacc.
  split; [|by apply Hacc]. destruct (Hwf p Hp) as [[Ee _]|?]; [|done].
  destruct (Hacc p Hp) as (x & Hx & _). by rewrite Ee in Hx.
Qed.

(** Every constant filter holds of every accepted row: in a row all predicates
    accept, the cell of the column the filter names compares TRUE with its literal
    under its (column-left) operator. *)
Theorem constant_filters_sound `{ArrowLaws} f b j cf : wf_filters f → conforms (output_schema f) b →
  NoDup (name <$> output_schema f) → (j < num_rows b)%nat → accepts f b j → cf ∈ constant_filters f →
  ordered (arr_type (cf_value cf)) = true → satisfied (output_schema f) b j cf.
Proof.
  intros Hwf Hb Hnd Hj Hacc Hin Ho. apply list_elem_of_bind in Hin as (p & Hin & Hp).
  destruct (accepted_typed f b j p Hwf Hacc Hp) as [Te Ha]. by eapply constants_sound.
Qed.

(** The discrete values reported for a column of an ordered type are complete:
    in a row all predicates accept, the column's cell equals one of them. *)
Theorem column_values_sound `{ArrowLaws} f fld b j k c x vs : wf_filters f → conforms (output_schema f) b →
  pruning_field f (name fld) = Ok fld → ordered (data_type fld) = true → accepts f b j →
  output_schema f !! k = Some fld → columns b !! k = Some c → vals c !! j = Some x →
  get_column_values f (name fld) = Some vs →
  ∃ y, y ∈ vals vs ∧ sql_cell (sql_ord (data_type fld)) OpEq x y = Some true.
Proof.
  intros Hwf Hb Hfld Ho Hacc Hk Hc Hx (p & Hp & Hv)%find_map_Some.
  destruct (accepted_typed f b j p Hwf Hacc Hp) as [Te Ha].
  destruct (pruning_field_unique _ _ _ Hfld) as [_ Huniq].
  by eapply (values_for_sound (output_schema f) b j k fld c x Hb Hk Hc Hx); eauto.
Qed.

(** The integer bounds reported for a column of 64-bit integers hold: in a row
    all predicates accept, the cell is an integer within them, the saturating
    arithmetic of exclusive endpoints included. *)
Theorem column_bounds_sound `{ArrowLaws} f fld b j k c x bd : wf_filters f → conforms (output_schema f) b →
  pruning_field f (name fld) = Ok fld → logical_value_type (data_type fld) = Int64 → accepts f b j →
  output_schema f !! k = Some fld → columns b !! k = Some c → vals c !! j = Some x →
  get_column_bounds f (name fld) = Some bd → ∃ z, x = Some (VInt z) ∧ in_bounds bd z.
Proof.
  intros Hwf Hb Hfld Hint Hacc Hk Hc Hx Hbd. destruct (pruning_field_unique _ _ _ Hfld) as [_ Huniq].
  eapply (reduce_invariant (λ bd, ∃ z, x = Some (VInt z) ∧ in_bounds bd z)); [| |exact Hbd].
  - intros l r (z & -> & Hz) (z' & [= <-] & Hz'). exists z. split; [done|]. by apply intersect_in.
  - apply Forall_forall. intros bd' (p & Hp & E)%list_elem_of_omap.
    destruct (accepted_typed f b j p Hwf Hacc Hp) as [Te Ha].
    by eapply (bounds_for_sound (output_schema f) b j k fld c x Hb Hk Hc Hx); eauto.
Qed.

(** Row 1 of the example batch, [a = 5] and [b = "y"], is accepted. *)
Lemma accepts_ex : accepts filters_ex batch_ex 1.
Proof. constructor; [|constructor; [|constructor]]; (eexists; split; [vm_compute; reflexivity|reflexivity]). Qed.

Lemma constant_filters_sound_witness :
  constant_filters filters_ex = [mkConstant "a" "ge" (int_lit 5); mkConstant "a" "lt" (int_lit 9)] ∧
  satisfied schema_ex batch_ex 1 (mkConstant "a" "lt" (int_lit 9)).
Proof.
  assert (constant_filters filters_ex = [mkConstant "a" "ge" (int_lit 5); mkConstant "a" "lt" (int_lit 9)]) as E
    by (vm_compute; reflexivity).
  split; [exact E|].
  refine (constant_filters_sound filters_ex batch_ex 1 (mkConstant "a" "lt" (int_lit 9)) filters_ex_wf
           batch_ex_conforms _ _ accepts_ex _ _).
  - vm_compute. repeat constructor; set_solver.
  - cbn. lia.
  - rewrite E. right. left.
  - reflexivity.
Defined.

Lemma column_bounds_sound_witness :
  get_column_bounds filters_ex "a" = Some (mkBounds (Some 5) (Some 8)) ∧
  ∃ z, Some (VInt 5) = Some (VInt z) ∧ in_bounds (mkBounds (Some 5) (Some 8)) z.
Proof.
  assert (get_column_bounds filters_ex "a" = Some (mkBounds (Some 5) (Some 8))) as E by (vm_compute; reflexivity).
  split; [exact E|].
  exact (column_bounds_sound filters_ex field_a batch_ex 1 0 _ (Some (VInt 5)) _ filters_ex_wf batch_ex_conforms
           eq_refl eq_refl accepts_ex eq_refl eq_refl eq_refl E).
Defined.

(** [a = 5 OR a = 9], as two discrete values. *)
Definition values_ex : PushdownFilters :=
  mkFilters [mkPredicate "p" 0 Required
    (Or [Comparison "eq" (Column 0 "a" Int64) (Literal (int_lit 5));
         Comparison "eq" (Column 0 "a" Int64) (Literal (int_lit 9))])]
    {[ "p" := 0 ]} {[ "p" ]} context_ex [] schema_ex.

Lemma values_ex_wf : wf_filters values_ex.
Proof.
  constructor; [right|constructor]. constructor. repeat constructor;
    (eapply T_comparison; [reflexivity| | |reflexivity]);
    (apply (T_column schema_ex 0 field_a); reflexivity) || (apply T_literal; [by apply int_lit_wf|reflexivity]).
Qed.

Lemma column_values_sound_witness :
  ∃ vs y, get_column_values values_ex "a" = Some vs ∧ y ∈ vals vs ∧
    sql_cell (sql_ord Int64) OpEq (Some (VInt 5)) y = Some true.
Proof.
  assert (get_column_values values_ex "a" = Some (plain_array Int64 [Some (VInt 5); Some (VInt 9)])) as E
    by (vm_compute; reflexivity).
  assert (accepts values_ex batch_ex 1) as Ha
    by (constructor; [|constructor]; eexists; split; [vm_compute; reflexivity|reflexivity]).
  eexists. destruct (column_values_sound values_ex field_a batch_ex 1 0 _ (Some (VInt 5)) _ values_ex_wf batch_ex_conforms
           eq_refl eq_refl Ha eq_refl eq_refl eq_refl E) as (y & Hy & Hs).
  exists y. split; [exact E|]. split; [exact Hy|exact Hs].
Defined.

(** A column of structs and the filter [s.x = 5]. *)
Definition struct_type : DataType := Struct [mkField "x" Int64 true []].
Definition struct_filters : PushdownFilters :=
  mkFilters [mkPredicate "p" 0 Required
    (Comparison "eq" (FieldRef (Column 0 "s" struct_type) 0 "x" Int64) (Literal (int_lit 5)))]
    {[ "p" := 0 ]} {[ "p" ]} context_ex [] [mkField "s" struct_type true []].

(** [get_column_constant], [get_column_values] and [get_column_bounds] report
    the constant of a struct field as a constant of the whole struct column, with
    a type the column does not have; [constant_filters] and [column_domain] do not. *)
Theorem struct_field_reported_as_column :
  wf_filters struct_filters ∧
  get_column_constant struct_filters "s" = Some (int_lit 5) ∧
  get_column_values struct_filters "s" = Some (int_lit 5) ∧
  get_column_bounds struct_filters "s" = Some (mkBounds (Some 5) (Some 5)) ∧
  constant_filters struct_filters = [] ∧
  column_domain struct_filters "s" = Ok (universe_of (mkField "s" struct_type true [])).
Proof.
  split; [|vm_compute; by split_and!]. constructor; [right|constructor].
  eapply T_comparison; [reflexivity| |apply T_literal; [by apply int_lit_wf|reflexivity]|reflexivity].
  apply (T_field _ _ [mkField "x" Int64 true []] 0 (mkField "x" Int64 true [])); [|reflexivity].
  by apply (T_column [mkField "s" struct_type true []] 0 (mkField "s" struct_type true [])).
Qed.
