(* ===== verification/Ipc.v ===== *)
(** Arrow IPC streams, [vgi-protocol/src/ipc.rs]: a batch or a bare schema to and
    from bytes.  The stream writer of [arrow_ipc] and the nullability-relaxing
    reader of [vgi_rpc] are the operations of the class [IpcStream]; a table of
    encodings is an instance that satisfies its laws. *)
From S2P Require Import Prelude Float64 Arrow SqlCompare.

Open Scope Z_scope.

Definition type_error {A} (msg : string) : result A RpcError := Err (TypeError msg).
Definition runtime_error {A} (msg : string) : result A RpcError := Err (RuntimeError msg).

Abbreviation metadata := (gmap string string).

(** [RecordBatch::try_new], as far as it depends on lengths, nulls and types. *)
Definition try_new (s : Schema) (md : metadata) (cols : list array) : result RecordBatch string :=
  if negb (length s =? length cols)%nat then Err "number of columns must match number of fields in schema"
  else match cols with
  | [] => Err "must either specify a row count or at least one column"
  | c :: _ =>
      if existsb (λ a, negb (len a =? len c)%nat) cols then Err "all columns in a record batch must have the same length"
      else match find (λ '(f, a), negb (is_nullable f) && negb (null_count a =? 0)%nat) (zip s cols) with
      | Some (f, _) => Err ("Column '" +:+ name f +:+ "' is declared as non-nullable but contains null values")
      | None =>
          if existsb (λ '(f, a), negb (bool_decide (arr_type a = data_type f))) (zip s cols)
          then Err "column types must match schema types" else Ok (mkRecordBatch s md cols (len c))
      end
  end.

(** Where a writer failed: when it was created, at a batch, or at the end. *)
Inductive WriteError := AtNew (e : string) | AtWrite (e : string) | AtFinish (e : string).

(** An open reader: the schema of the stream and its first batch, if any. *)
Record Reader := mkReader {
  reader_schema : Schema;
  reader_metadata : metadata;
  reader_first : result (option RecordBatch) RpcError;
}.

(** [StreamWriter::try_new], [write] of each batch and [finish]; and
    [StreamReader::new] with [relax_nullability]. *)
Class IpcStream := {
  write_stream : Schema → metadata → list RecordBatch → result bytes WriteError;
  open_stream : bytes → result Reader RpcError;
}.

(** [relax_nullability]: every field is promoted to nullable. *)
Definition relax (f : Field) : Field := let '(mkField n t _ md) := f in mkField n t true md.

Definition read_as (s : Schema) (md : metadata) (b : RecordBatch) : RecordBatch :=
  mkRecordBatch (relax <$> s) md (columns b) (num_rows b).

(** A stream of one batch under a schema of its column types reads back as it,
    a stream of none has no batch, and a stream is never empty. *)
Class IpcLaws `{IpcStream} : Prop := {
  stream_batch s md b bs : write_stream s md [b] = Ok bs → arr_type <$> columns b = data_type <$> s →
    open_stream bs = Ok (mkReader s md (Ok (Some (read_as s md b))));
  stream_bare s md bs : write_stream s md [] = Ok bs → open_stream bs = Ok (mkReader s md (Ok None));
  stream_nonempty s md l bs : write_stream s md l = Ok bs → bs ≠ [];
}.

Section ipc.
Context `{IpcStream}.

Definition batch_error (e : WriteError) : RpcError :=
  RuntimeError (match e with
                | AtNew e => "ipc writer: " +:+ e
                | AtWrite e => "ipc write: " +:+ e
                | AtFinish e => "ipc finish: " +:+ e
                end).
Definition schema_error (e : WriteError) : RpcError :=
  RuntimeError (match e with
                | AtNew e | AtWrite e => "ipc schema writer: " +:+ e
                | AtFinish e => "ipc schema finish: " +:+ e
                end).

Definition write_batch_with_schema (batch : RecordBatch) (s : Schema) (md : metadata) : result bytes RpcError :=
  map_err batch_error (write_stream s md [batch]).
Definition write_batch (batch : RecordBatch) : result bytes RpcError :=
  write_batch_with_schema batch (schema batch) (schema_metadata batch).

Definition read_batch (bs : bytes) : result RecordBatch RpcError :=
  let? reader := open_stream bs in
  let? first := reader_first reader in
  match first with
  | Some batch => Ok batch
  | None => type_error "ipc stream had no record batch"
  end.

Definition read_schema (bs : bytes) : result (Schema * metadata) RpcError :=
  let? reader := open_stream bs in Ok (reader_schema reader, reader_metadata reader).

Definition write_schema (s : Schema) (md : metadata) : result bytes RpcError :=
  map_err schema_error (write_stream s md []).
End ipc.

Section laws.
Context `{IpcLaws}.

Lemma map_err_Ok {A E F} (f : E → F) (r : result A E) x : map_err f r = Ok x → r = Ok x.
Proof. by destruct r; intros [= ->]. Qed.

Lemma read_written b s md bs : write_batch_with_schema b s md = Ok bs → arr_type <$> columns b = data_type <$> s →
  bs ≠ [] ∧ read_batch bs = Ok (read_as s md b) ∧ read_schema bs = Ok (s, md).
Proof.
  intros E%map_err_Ok Ht. split; [by eapply stream_nonempty|]. unfold read_batch, read_schema.
  by rewrite (stream_batch _ _ _ _ E Ht).
Qed.

Lemma read_bare s md bs : write_schema s md = Ok bs →
  bs ≠ [] ∧ read_batch bs = type_error "ipc stream had no record batch" ∧ read_schema bs = Ok (s, md).
Proof.
  intros E%map_err_Ok. split; [by eapply stream_nonempty|]. unfold read_batch, read_schema.
  by rewrite (stream_bare _ _ _ E).
Qed.

Lemma wf_batch_types b : wf_batch b → arr_type <$> columns b = data_type <$> schema b.
Proof.
  unfold wf_batch. generalize (columns b) (schema b). intros cs fs W. induction W as [|f c fs cs [E _] _ IH]; [done|].
  cbn. by rewrite E, IH.
Qed.
End laws.

(** * An instance: a table of encodings *)

Section decisions.
#[local] Instance f64_eq_dec : EqDecision f64.
Proof. solve_decision. Defined.

Fixpoint value_eq_dec_ (x y : value) {struct x} : {x = y} + {x ≠ y}.
Proof.
  assert (∀ l l' : list (option value), {l = l'} + {l ≠ l'}) as Hl.
  { fix go 1. intros [|[v|] l] [|[v'|] l']; try (by left); try (by right).
    - destruct (value_eq_dec_ v v'); [|right; congruence]. destruct (go l l'); [left|right]; congruence.
    - destruct (go l l'); [left|right]; congruence. }
  destruct x, y; try (right; discriminate).
  - destruct (decide (b = b0)); [left|right]; congruence.
  - destruct (decide (z = z0)); [left|right]; congruence.
  - destruct (decide (f = f0)); [left|right]; congruence.
  - destruct (decide (s = s0)); [left|right]; congruence.
  - destruct (Hl l l0); [left|right]; congruence.
  - destruct (Hl l l0); [left|right]; congruence.
  - destruct (decide (n = n0)); [left|right]; congruence.
Defined.
End decisions.
#[global] Instance value_eq_dec : EqDecision value := value_eq_dec_.
#[global] Instance array_eq_dec : EqDecision array.
Proof. solve_decision. Defined.
#[global] Instance RecordBatch_eq_dec : EqDecision RecordBatch.
Proof. solve_decision. Defined.

(** What a stream holds. *)
Record Stream := mkStream { st_schema : Schema; st_metadata : metadata; st_batches : list RecordBatch }.
#[global] Instance Stream_eq_dec : EqDecision Stream.
Proof. solve_decision. Defined.

Definition lookup_stream (table : list (bytes * Stream)) (bs : bytes) : option Stream :=
  snd ∘ snd <$> list_find (λ e, e.1 = bs) table.
Definition encode_stream (table : list (bytes * Stream)) (st : Stream) : option bytes :=
  fst ∘ snd <$> list_find (λ e, e.2 = st) table.

Definition table_stream (table : list (bytes * Stream)) : IpcStream := {|
  write_stream s md l :=
    match encode_stream table (mkStream s md l) with Some bs => Ok bs | None => Err (AtWrite "unsupported") end;
  open_stream bs :=
    match lookup_stream table bs with
    | Some st => Ok (mkReader (st_schema st) (st_metadata st)
                       (Ok (read_as (st_schema st) (st_metadata st) <$> head (st_batches st))))
    | None => value_error "malformed IPC stream"
    end;
|}.

Lemma table_stream_laws table : NoDup (fst <$> table) → Forall (λ e, e.1 ≠ []) table →
  @IpcLaws (table_stream table).
Proof.
  intros Hnd Hne. assert (∀ st bs, encode_stream table st = Some bs → lookup_stream table bs = Some st ∧ bs ≠ []) as Henc.
  { unfold encode_stream, lookup_stream. intros st bs. destruct (list_find (λ e, e.2 = st) table) as [[i e]|] eqn:E; [|done].
    intros [= <-]. apply list_find_Some in E as (Hi & He & _). cbn. destruct e as [bs st']. cbn in *. subst st'. split.
    - destruct (list_find (λ e, e.1 = bs) table) as [[j e']|] eqn:E'.
      + apply list_find_Some in E' as (Hj & He' & _). cbn. f_equal. destruct e' as [bs' st']. cbn in *. subst bs'.
        assert (i = j) as ->; [|congruence]. eapply (NoDup_lookup (fst <$> table)); [done|..];
          rewrite list_lookup_fmap; [by rewrite Hi|by rewrite Hj].
      + apply list_find_None in E'. rewrite Forall_forall in E'. exfalso.
        apply (E' (bs, st)); [by eapply list_elem_of_lookup_2|done].
    - rewrite Forall_forall in Hne. by apply (Hne (bs, st)), list_elem_of_lookup_2 with i. }
  split; cbn.
  - intros s md b bs. destruct (encode_stream _ _) as [x|] eqn:E; [|done]. intros [= ->] _.
    by destruct (Henc _ _ E) as [-> _].
  - intros s md bs. destruct (encode_stream _ _) as [x|] eqn:E; [|done]. intros [= ->].
    by destruct (Henc _ _ E) as [-> _].
  - intros s md l bs. destruct (encode_stream _ _) as [x|] eqn:E; [|done]. intros [= ->].
    by destruct (Henc _ _ E) as [_ ?].
Qed.
