(* ===== verification/Arguments.v ===== *)
(** Call arguments, [vgi/src/arguments.rs]: the wire blob parsed into positional
    and named one-row arrays, its serializers, and the expansion of the densely
    packed constants to their declared positions. *)
From S2P Require Import Prelude Float64 Arrow ArrowModel SqlCompare Pushdown Ipc.

Open Scope Z_scope.

(** * Parsed arguments *)

Record Arguments := mkArguments {
  positional : list (option array);
  named : gmap string array;
  args_schema : option Schema;
  positional_fields : list (option Field);
}.
Definition no_arguments : Arguments := mkArguments [] ∅ None [].

(** The child array of a struct column. *)
Definition struct_column (sa : array) (i : nat) (f : Field) : array :=
  plain_array (data_type f) (struct_child i <$> vals sa).

(** The loop over the fields of the [args] struct: the positional arrays with
    their indices, and the named ones. *)
Fixpoint collect_args (sa : array) (i : nat) (fields : list Field)
    (pos : list (Z * (array * Field))) (nm : gmap string array) :
    list (Z * (array * Field)) * gmap string array :=
  match fields with
  | [] => (pos, nm)
  | f :: fields =>
      let col := struct_column sa i f in
      match strip_prefix "positional_" (name f) with
      | Some idx =>
          let pos := match parse_unsigned usize_max idx with
                     | Some k => pos ++ [(k, (col, f))]
                     | None => pos
                     end in
          collect_args sa (S i) fields pos (<[name f := col]> nm)
      | None =>
          match strip_prefix "named_" (name f) with
          | Some actual => collect_args sa (S i) fields pos (<[name f := col]> (<[actual := col]> nm))
          | None => collect_args sa (S i) fields pos (<[name f := col]> nm)
          end
      end
  end.

(** [vec![None; max_idx + 1]], which the code assumes can be allocated, then one
    write per entry. *)
Definition place {A} (entries : list (Z * A)) : list (option A) :=
  match entries with
  | [] => []
  | _ =>
      let max_idx := foldr Z.max 0 (fst <$> entries) in
      foldl (λ acc e, <[Z.to_nat e.1 := Some e.2]> acc) (replicate (Z.to_nat (max_idx + 1)) None) entries
  end.

Definition index_le {A} (x y : Z * A) : Prop := x.1 ≤ y.1.
#[global] Instance index_le_dec {A} (x y : Z * A) : Decision (index_le x y).
Proof. unfold index_le. apply _. Defined.

Definition parse_batch (batch : RecordBatch) : result Arguments RpcError :=
  match schema batch, columns batch with
  | [f], [sa] =>
      if String.eqb (name f) "args" then
        match arr_type sa with
        | Struct fields =>
            let '(pos, nm) := collect_args sa 0 fields [] ∅ in
            Ok (mkArguments (place (prod_map id fst <$> pos)) nm
                  (match pos with
                   | [] => None
                   | _ => Some ((snd ∘ snd) <$> merge_sort index_le pos)
                   end)
                  (place (prod_map id snd <$> pos)))
        | _ => type_error "'args' column is not a struct"
        end
      else Ok (mkArguments [Some sa] {[name f := sa]} (Some [f]) [])
  | fields, cols =>
      Ok (mkArguments (Some <$> cols)
            (foldl (λ m '(f, c), <[name f := c]> m) ∅ (zip fields cols)) (Some fields) [])
  end.

Definition parse_arguments `{IpcStream} (bs : bytes) : result Arguments RpcError :=
  match bs with
  | [] => Ok no_arguments
  | _ => let? batch := read_batch bs in parse_batch batch
  end.

(** * Serializers *)

Definition positional_field (i : nat) (a : array) : Field :=
  mkField ("positional_" +:+ Z_to_string (Z.of_nat i)) (arr_type a) true [].
Definition positional_struct (values : list array) : DataType := Struct (imap positional_field values).

(** The struct array of arguments of one length (of others [StructArray::from]
    panics): a cell per argument. *)
Definition args_array (values : list array) : array :=
  plain_array (positional_struct values)
    ((λ j, Some (VStruct ((λ a, mjoin (vals a !! j)) <$> values))) <$>
       seq 0 (match values with a :: _ => len a | [] => 0%nat end)).

Definition args_batch (values : list array) : RecordBatch :=
  mkRecordBatch [mkField "args" (positional_struct values) false []] ∅ [args_array values]
    (len (args_array values)).

Definition serialize_positional `{IpcStream} (values : list array) : result bytes RpcError :=
  match values with
  | [] => write_schema [mkField "args" (Struct []) false []] ∅
  | _ => write_batch (args_batch values)
  end.

Definition scan_fields (values : list array) (nameds : list (string * array)) : list Field :=
  imap (λ i a, mkField ("arg_" +:+ Z_to_string (Z.of_nat i)) (arr_type a) false []) values ++
  ((λ '(n, a), mkField n (arr_type a) false []) <$> nameds).
Definition serialize_scan_args_named `{IpcStream} (values : list array) (nameds : list (string * array)) :
    result bytes RpcError :=
  match values, nameds with
  | [], [] => write_schema [] ∅
  | _, _ =>
      let? batch := map_err (λ e, RuntimeError ("serialize scan args: " +:+ e))
                      (try_new (scan_fields values nameds) ∅ (values ++ (snd <$> nameds))) in
      write_batch batch
  end.
Definition serialize_scan_args `{IpcStream} (values : list array) : result bytes RpcError :=
  serialize_scan_args_named values [].

(** * Accessors *)

Definition num_positional (a : Arguments) : nat := length (positional a).
Definition arg (a : Arguments) (pos : nat) : option array := mjoin (positional a !! pos).
Definition arg_field (a : Arguments) (pos : nat) : option Field := mjoin (positional_fields a !! pos).

(** * Argument specs *)

(** [ArgSpec], less the documentation and the discovery-only constraints. *)
Record ArgSpec := mkArgSpec {
  spec_name : string;
  position : Z;
  arrow_type : string;
  is_const : bool;
  is_varargs : bool;
  arrow_data_type : option DataType;
}.

Definition const_positions (specs : list ArgSpec) : list nat :=
  (λ s, Z.to_nat (position s)) <$> filter (λ s, (0 <=? position s) && is_const s = true) specs.
Definition max_position (specs : list ArgSpec) : Z :=
  foldl (λ m s, if m <? position s then position s else m) 0 specs.

(** [remap_positional]. *)
Definition remap_positional (a : Arguments) (specs : list ArgSpec) : Arguments :=
  if (length (positional a) =? 0)%nat || (length specs =? 0)%nat then a
  else
  let const_positions := const_positions specs in
  let max_pos := max_position specs in
  if (length const_positions =? length specs)%nat then a
  else if max_pos <? Z.of_nat (length (positional a)) then a
  else
  let expanded := foldl (λ acc '(i, orig),
      match arg a i with Some v => <[orig := Some v]> acc | None => acc end)
    (replicate (Z.to_nat max_pos + 1) None)
    (zip (seq 0 (length const_positions)) const_positions) in
  mkArguments expanded (named a) (args_schema a) (positional_fields a).

(** * Round trip *)

Lemma place_from {A} (i : nat) (xs : list A) (pre : list (option A)) : length pre = i →
  foldl (λ acc e, <[Z.to_nat e.1 := Some e.2]> acc) (pre ++ replicate (length xs) None)
    (imap (λ j x, (Z.of_nat (i + j), x)) xs) = pre ++ (Some <$> xs).
Proof.
  induction xs as [|x xs IH] in i, pre |- *; intros Hi; cbn [imap foldl length replicate]; [done|].
  cbn [fst snd]. rewrite Nat.add_0_r, Nat2Z.id. rewrite insert_app_r_alt by lia.
  rewrite Hi, Nat.sub_diag. cbn. rewrite (cons_middle (Some x) pre), app_assoc.
  rewrite (imap_ext _ (λ j x, (Z.of_nat (S i + j), x))) by (intros; cbn; do 2 f_equal; lia).
  rewrite (IH (S i) (pre ++ [Some x])) by (rewrite length_app; cbn; lia).
  by rewrite <- app_assoc.
Qed.

Lemma foldr_max_from {A} (i : nat) (xs : list A) : xs ≠ [] →
  foldr Z.max 0 (fst <$> imap (λ j x, (Z.of_nat (i + j), x)) xs) = Z.of_nat (i + length xs - 1).
Proof.
  induction xs as [|x xs IH] in i |- *; [done|]. intros _. cbn [imap fmap list_fmap foldr fst].
  rewrite (imap_ext _ (λ j x, (Z.of_nat (S i + j), x))) by (intros; cbn; do 2 f_equal; lia).
  destruct xs as [|y xs]; [cbn; lia|]. change (list_fmap ?B ?C fst) with (fmap (A := B) (B := C) fst).
  rewrite (IH (S i)) by done. cbn [length]. lia.
Qed.

(** Writing the entries of consecutive indices gives the list. *)
Lemma place_imap {A} (xs : list A) : place (imap (λ i x, (Z.of_nat i, x)) xs) = Some <$> xs.
Proof.
  destruct xs as [|x xs]; [done|]. unfold place.
  pose proof (foldr_max_from 0 (x :: xs)) as Hm. pose proof (place_from 0 (x :: xs) [] eq_refl) as Hp.
  cbn [Nat.add] in Hm, Hp. destruct (imap _ (x :: xs)) eqn:E; [done|]. rewrite Hm by done.
  replace (Z.to_nat (Z.of_nat (length (x :: xs) - 1) + 1)) with (length (x :: xs)) by (cbn; lia). exact Hp.
Qed.

Lemma collect_positional (sa : array) (values : list array) (i : nat) pos nm :
  Z.of_nat (i + length values) ≤ usize_max →
  (collect_args sa i (imap (λ j a, positional_field (i + j) a) values) pos nm).1 =
  pos ++ imap (λ j a, (Z.of_nat (i + j),
    (struct_column sa (i + j) (positional_field (i + j) a), positional_field (i + j) a))) values.
Proof.
  induction values as [|v values IH] in i, pos, nm |- *; cbn [imap length]; intros Hn.
  { cbn. by rewrite app_nil_r. }
  cbn [collect_args]. rewrite Nat.add_0_r.
  change (name (positional_field i v)) with ("positional_" +:+ Z_to_string (Z.of_nat i)). rewrite strip_prefix_app.
  rewrite parse_unsigned_to_string by lia.
  rewrite (imap_ext _ (λ j a, positional_field (S i + j) a)) by (intros; cbn; by rewrite Nat.add_succ_r).
  rewrite IH by (cbn in *; lia). rewrite <- app_assoc. cbn [app]. do 2 f_equal.
  apply imap_ext. intros j x _. cbn. by rewrite <- Nat.add_succ_r.
Qed.

(** The cells of the child arrays of the [args] struct. *)
Lemma args_column values i v n : values !! i = Some v → Forall (λ a, len a = n) values →
  struct_child i <$> vals (args_array values) = vals v.
Proof.
  intros Hv Hlen. assert (len v = n) as Lv by (rewrite Forall_forall in Hlen; by eapply Hlen, list_elem_of_lookup_2).
  assert (match values with a :: _ => len a | [] => 0%nat end = n) as Hn.
  { destruct values as [|a values]; [done|]. by apply Forall_cons in Hlen as [? _]. }
  unfold args_array. rewrite Hn. unfold plain_array; cbn [vals]. rewrite <- list_fmap_compose.
  apply list_eq. intros j. rewrite list_lookup_fmap. destruct (decide (j < n)%nat) as [Hj|Hj].
  - rewrite (proj2 (lookup_seq 0 n j j)) by lia. cbn. rewrite list_lookup_fmap, Hv. cbn.
    unfold len in Lv. destruct (vals v !! j) eqn:E; [done|]. apply lookup_ge_None in E. lia.
  - rewrite (proj2 (lookup_ge_None (seq 0 n) j)) by (rewrite length_seq; lia). cbn. symmetry.
    apply lookup_ge_None. unfold len in Lv. lia.
Qed.

(** An argument as the parser returns it. *)
Definition same_cells (a b : array) : Prop := arr_type a = arr_type b ∧ vals a = vals b.

Lemma parse_args_batch values n : values ≠ [] → Z.of_nat (length values) ≤ usize_max →
  Forall (λ a, len a = n) values →
  ∃ a, parse_batch (args_batch values) = Ok a ∧ num_positional a = length values ∧
    ∀ i v, values !! i = Some v → ∃ v', arg a i = Some v' ∧ same_cells v' v.
Proof.
  intros Hne Hb Hlen. unfold parse_batch. cbn -[args_array collect_args].
  assert (arr_type (args_array values) = Struct (imap positional_field values)) as -> by done.
  pose proof (collect_positional (args_array values) values 0 [] ∅ Hb) as Hc. cbn [Nat.add app] in Hc.
  change (imap (λ j a, positional_field j a) values) with (imap positional_field values) in Hc.
  destruct (collect_args _ _ _ _ _) as [pos nm] eqn:Ec. cbn [fst] in Hc. subst pos.
  eexists. split; [done|]. unfold num_positional, arg. cbn [positional].
  assert (prod_map id fst <$> imap (λ j a, (Z.of_nat j, (struct_column (args_array values) j (positional_field j a),
    positional_field j a))) values = imap (λ i x, (Z.of_nat i, x))
    (imap (λ j a, struct_column (args_array values) j (positional_field j a)) values)) as ->.
  { apply list_eq. intros k. rewrite list_lookup_fmap, !list_lookup_imap. by destruct (values !! k). }
  rewrite place_imap. split; [by rewrite length_fmap, length_imap|].
  intros i v Hi. exists (struct_column (args_array values) i (positional_field i v)).
  rewrite list_lookup_fmap, list_lookup_imap, Hi. split; [done|]. split; [done|].
  unfold struct_column, plain_array; cbn [vals]. by eapply args_column.
Qed.

Lemma struct_typed fs l : Forall2 (λ f o, cell_type (data_type f) o = true) fs l →
  has_type (Struct fs) (VStruct l) = true.
Proof.
  intros Hl. cbn. induction Hl as [|f o fs l Ho _ IH]; [done|]. cbn in *. rewrite IH, andb_true_r.
  by destruct o.
Qed.

Lemma args_batch_wf values n : Forall (λ a, wf_array a ∧ len a = n) values → wf_batch (args_batch values).
Proof.
  intros Hv. unfold args_batch, wf_batch. cbn [schema columns num_rows]. constructor; [|constructor].
  split; [done|]. split; [|split; [done|]].
  - apply wf_plain, Forall_fmap, Forall_forall. intros j _. cbn [compose cell_type].
    apply struct_typed. apply Forall2_same_length_lookup_2.
    { by rewrite length_imap, length_fmap. }
    intros i f o Hf Ho. rewrite list_lookup_imap in Hf. rewrite list_lookup_fmap in Ho.
    destruct (values !! i) as [a|] eqn:Ea; [|done]. injection Hf as <-. injection Ho as <-. cbn.
    rewrite Forall_lookup in Hv. destruct (Hv i a Ea) as [(Ht & _) _].
    destruct (vals a !! j) as [x|] eqn:Ex; [|done]. cbn. rewrite Forall_lookup in Ht. by apply (Ht j).
  - intros _. unfold null_count, args_array, plain_array; cbn [valid]. rewrite <- list_fmap_compose.
    rewrite list_filter_none; [done|]. apply Forall_fmap, Forall_forall. done.
Qed.

(** * Declared positions *)

Lemma expand_spec (a : Arguments) (ps : list nat) (i : nat) (acc : list (option array)) :
  NoDup ps → Forall (λ p, p < length acc)%nat ps →
  let r := foldl (λ acc '(i, orig), match arg a i with Some v => <[orig := Some v]> acc | None => acc end)
    acc (zip (seq i (length ps)) ps) in
  length r = length acc ∧ (∀ p, p ∉ ps → r !! p = acc !! p) ∧
  (∀ k p, ps !! k = Some p → acc !! p = Some None → r !! p = Some (arg a (i + k))).
Proof.
  intros Hnd Hr. induction ps as [|q ps IH] in i, acc, Hnd, Hr |- *; cbn.
  { split; [done|]. split; [done|]. by intros [|]. }
  apply NoDup_cons in Hnd as [Hq Hnd]. apply Forall_cons in Hr as [Hlt Hr].
  set (acc' := match arg a i with Some v => <[q := Some v]> acc | None => acc end).
  assert (length acc' = length acc) as Hl by (unfold acc'; case_match; [by rewrite length_insert|done]).
  assert (∀ p, p ≠ q → acc' !! p = acc !! p) as Hne.
  { intros p Hp. unfold acc'. case_match; [|done]. by rewrite list_lookup_insert_ne by done. }
  destruct (IH (S i) acc' Hnd) as (I1 & I2 & I3); [by rewrite Hl|]. split; [congruence|]. split.
  - intros p [Hp Hps]%not_elem_of_cons. rewrite I2, Hne by done. done.
  - intros [|k] p; cbn.
    + intros [= <-] Hacc. rewrite I2 by done. rewrite Nat.add_0_r. unfold acc'.
      destruct (arg a i) eqn:E; [by rewrite list_lookup_insert_eq|done].
    + intros Hk Hacc. rewrite (I3 k p Hk); [by rewrite Nat.add_succ_r|]. rewrite Hne; [done|].
      intros ->. apply Hq. by eapply list_elem_of_lookup_2.
Qed.

Lemma foldl_max_ge specs m :
  m ≤ foldl (λ m s, if m <? position s then position s else m) m specs ∧
  ∀ s, s ∈ specs → position s ≤ foldl (λ m s, if m <? position s then position s else m) m specs.
Proof.
  induction specs as [|s specs IH] in m |- *; cbn; [split; [lia|by intros ? ?%not_elem_of_nil]|].
  destruct (IH (if m <? position s then position s else m)) as [I1 I2].
  split; [case_match; lia|]. intros s' [->|?]%elem_of_cons; [case_match; lia|auto].
Qed.

Lemma const_position_range specs p : p ∈ const_positions specs → (p < Z.to_nat (max_position specs) + 1)%nat.
Proof.
  intros (s & -> & Hs)%list_elem_of_fmap. apply list_elem_of_filter in Hs as [Hp Hs].
  apply andb_true_iff in Hp as [Hp _]. pose proof (proj2 (foldl_max_ge specs 0) s Hs). unfold max_position. lia.
Qed.

Lemma arg_mk e nm sch fs p : arg (mkArguments e nm sch fs) p = mjoin (e !! p).
Proof. done. Qed.

(** Densely packed constants land on their declared positions: when there are
    column arguments among the specs and no more values than positions, the [k]-th
    value is the argument at the [k]-th constant's position, and every other
    position is absent. *)
Theorem remap_positional_spec (a : Arguments) (specs : list ArgSpec) :
  positional a ≠ [] → specs ≠ [] → length (const_positions specs) ≠ length specs →
  Z.of_nat (length (positional a)) ≤ max_position specs → NoDup (const_positions specs) →
  let r := remap_positional a specs in
  num_positional r = (Z.to_nat (max_position specs) + 1)%nat ∧
  (∀ k p, const_positions specs !! k = Some p → arg r p = arg a k) ∧
  (∀ p, p ∉ const_positions specs → arg r p = None).
Proof.
  intros Hp Hs Hc Hm Hnd r. subst r. unfold remap_positional.
  destruct (length (positional a) =? 0)%nat eqn:E1; [apply Nat.eqb_eq in E1; by destruct (positional a)|].
  destruct (length specs =? 0)%nat eqn:E2; [apply Nat.eqb_eq in E2; by destruct specs|]. cbn [orb].
  rewrite (proj2 (Nat.eqb_neq _ _) Hc). destruct (Z.ltb_spec (max_position specs) (Z.of_nat (length (positional a)))); [lia|].
  set (m := (Z.to_nat (max_position specs) + 1)%nat).
  assert (Forall (λ p, p < length (replicate m (@None array)))%nat (const_positions specs)) as Hr.
  { apply Forall_forall. intros p Hin. rewrite length_replicate. by apply const_position_range. }
  destruct (expand_spec a (const_positions specs) 0 (replicate m None) Hnd Hr) as (L & O & K).
  unfold num_positional. cbn [positional]. split; [by rewrite L, length_replicate|]. split.
  - intros k p Hk. assert (p ∈ const_positions specs) as Hin by (by eapply list_elem_of_lookup_2).
    rewrite arg_mk, (K k p Hk); [done|]. apply lookup_replicate_2. by apply const_position_range.
  - intros p Hin. rewrite arg_mk, O by done. destruct (decide (p < m)%nat).
    + by rewrite lookup_replicate_2.
    + rewrite lookup_ge_None_2; [done|]. rewrite length_replicate. lia.
Qed.

(** Serialized positional arguments parse back: as many arguments, each with the
    type and cells it was given. *)
Theorem arguments_roundtrip `{IpcLaws} values n bs : values ≠ [] → Z.of_nat (length values) ≤ usize_max →
  Forall (λ a, wf_array a ∧ len a = n) values → serialize_positional values = Ok bs →
  ∃ a, parse_arguments bs = Ok a ∧ num_positional a = length values ∧
    ∀ i v, values !! i = Some v → ∃ v', arg a i = Some v' ∧ same_cells v' v.
Proof.
  intros Hne Hb Hv Hw. unfold serialize_positional in Hw. destruct values as [|v0 values]; [done|].
  set (vs := v0 :: values) in *.
  destruct (read_written _ _ _ _ Hw (wf_batch_types _ (args_batch_wf vs n Hv))) as (Hbs & Er & _).
  destruct (parse_args_batch vs n Hne Hb) as (a & Ea & Ha).
  { eapply Forall_impl; [exact Hv|]. by intros x [_ ?]. }
  exists a. unfold parse_arguments. destruct bs; [done|]. rewrite Er. exact (conj Ea Ha).
Qed.

(** The encoding of no positional arguments is a bare schema, which the parser
    refuses: it is not the inverse it is documented to be. *)
Theorem no_arguments_unparseable `{IpcLaws} bs : serialize_positional [] = Ok bs →
  parse_arguments bs = Err (TypeError "ipc stream had no record batch").
Proof.
  intros Hw. destruct (read_bare _ _ _ Hw) as (Hbs & Er & _). unfold parse_arguments.
  destruct bs; [done|]. by rewrite Er.
Qed.

(** * Examples *)

Definition int_arg (z : Z) : array := plain_array Int64 [Some (VInt z)].
Definition text_arg (t : string) : array := plain_array Utf8 [Some (VBytes t)].

Definition args_stream : IpcStream :=
  table_stream [([x01], mkStream (schema (args_batch [int_arg 7; text_arg "x"])) ∅ [args_batch [int_arg 7; text_arg "x"]]);
                ([x02], mkStream [mkField "args" (Struct []) false []] ∅ [])].
#[local] Existing Instance args_stream.
Lemma args_stream_laws : IpcLaws.
Proof. apply table_stream_laws; vm_compute; repeat constructor; set_solver. Qed.

Lemma arguments_roundtrip_witness :
  serialize_positional [int_arg 7; text_arg "x"] = Ok [x01] ∧
  ∃ a, parse_arguments [x01] = Ok a ∧ num_positional a = 2%nat ∧
    ∀ i v, [int_arg 7; text_arg "x"] !! i = Some v → ∃ v', arg a i = Some v' ∧ same_cells v' v.
Proof.
  assert (serialize_positional [int_arg 7; text_arg "x"] = Ok [x01]) as E by (vm_compute; reflexivity).
  split; [exact E|].
  refine (@arguments_roundtrip args_stream args_stream_laws [int_arg 7; text_arg "x"] 1 [x01] _ _ _ E).
  - discriminate.
  - vm_compute. discriminate.
  - repeat constructor.
Defined.

Lemma no_arguments_unparseable_witness :
  serialize_positional [] = Ok [x02] ∧
  parse_arguments [x02] = Err (TypeError "ipc stream had no record batch").
Proof.
  assert (serialize_positional [] = Ok [x02]) as E by (vm_compute; reflexivity).
  split; [exact E|]. exact (@no_arguments_unparseable args_stream args_stream_laws [x02] E).
Defined.

(** A column and two constants, as in [f(col, 1, 'x')]. *)
Definition mixed_specs : list ArgSpec :=
  [mkArgSpec "col" 0 "any" false false None; mkArgSpec "n" 1 "int64" true false None;
   mkArgSpec "s" 2 "varchar" true false None].

Lemma remap_positional_spec_witness :
  let a := mkArguments [Some (int_arg 7); Some (text_arg "x")] ∅ None [] in
  let r := remap_positional a mixed_specs in
  num_positional r = 3%nat ∧ arg r 1 = Some (int_arg 7) ∧ arg r 2 = Some (text_arg "x") ∧ arg r 0 = None.
Proof.
  intros a r. destruct (remap_positional_spec a mixed_specs) as (Hn & Hk & Hr).
  - discriminate.
  - discriminate.
  - vm_compute. discriminate.
  - vm_compute. discriminate.
  - vm_compute. repeat constructor; set_solver.
  - split; [exact Hn|]. split; [exact (Hk 0%nat 1%nat eq_refl)|]. split; [exact (Hk 1%nat 2%nat eq_refl)|].
    apply Hr. vm_compute. set_solver.
Defined.
