(* ===== verification/Overload.v ===== *)
(** Overload resolution, [vgi/src/overload.rs]: candidates of one name are scored
    against the call's constants and input columns, and the best wins. *)
From S2P Require Import Prelude Float64 Arrow ArrowModel SqlCompare Pushdown Ipc Arguments.

Open Scope Z_scope.

(** * Types *)

(** [catalog::arg_type_to_arrow]. *)
Definition arg_type_to_arrow (t : string) : DataType :=
  let one_of l := existsb (String.eqb t) l in
  if one_of ["int8"] then Flat FInt8 else if one_of ["int16"] then Flat FInt16
  else if one_of ["int32"] then Flat FInt32 else if one_of ["int64"] then Flat FInt64
  else if one_of ["uint8"] then Flat FUInt8 else if one_of ["uint16"] then Flat FUInt16
  else if one_of ["uint32"] then Flat FUInt32 else if one_of ["uint64"] then Flat FUInt64
  else if one_of ["float32"; "float"] then Flat FFloat32 else if one_of ["float64"; "double"] then Flat FFloat64
  else if one_of ["bool"; "boolean"] then Flat FBoolean
  else if one_of ["varchar"; "string"; "utf8"] then Flat FUtf8
  else if one_of ["blob"; "binary"] then Flat FBinary
  else Flat FNull.

Definition is_integer (t : DataType) : bool :=
  match t with
  | Flat (FInt8 | FInt16 | FInt32 | FInt64 | FUInt8 | FUInt16 | FUInt32 | FUInt64) => true
  | _ => false
  end.
Definition is_float_or_decimal (t : DataType) : bool :=
  match t with
  | Flat (FFloat16 | FFloat32 | FFloat64 | FDecimal128 _ _ | FDecimal256 _ _) => true
  | _ => false
  end.
Definition is_string (t : DataType) : bool := match t with Flat (FUtf8 | FLargeUtf8) => true | _ => false end.
Definition is_binary (t : DataType) : bool := match t with Flat (FBinary | FLargeBinary) => true | _ => false end.

Definition same_family (a b : DataType) : bool :=
  (is_integer a && is_integer b) || (is_float_or_decimal a && is_float_or_decimal b)
  || (is_string a && is_string b) || (is_binary a && is_binary b).

Fixpoint nested_structurally_equal (a b : DataType) {struct a} : bool :=
  let child (x y : Field) := match x with mkField _ t _ _ => nested_structurally_equal t (data_type y) end in
  match a, b with
  | (List x | LargeList x), (List y | LargeList y) => child x y
  | FixedSizeList x nx, FixedSizeList y ny => (nx =? ny) && child x y
  | Map x _, Map y _ => child x y
  | Struct fx, Struct fy =>
      (fix go (l r : list Field) : bool :=
         match l, r with
         | [], [] => true
         | x :: l, y :: r => child x y && go l r
         | _, _ => false
         end) fx fy
  | _, _ => bool_decide (a = b)
  end.

(** * Scores *)

Definition score_type (actual : DataType) (spec : ArgSpec) : option Z :=
  let expected := match arrow_data_type spec with
                  | Some t => t | None => arg_type_to_arrow (arrow_type spec) end in
  if (negb (is_some (arrow_data_type spec)) &&
      (String.eqb (arrow_type spec) "any" || String.eqb (arrow_type spec) ""))
     || bool_decide (expected = Null)
  then Some 0
  else if bool_decide (actual = expected) then Some 2
  else if nested_structurally_equal actual expected then Some 2
  else if same_family actual expected then Some 1
  else None.

(** The scores of the pairs there are, or a rejection. *)
Fixpoint sum_scores (pairs : list (DataType * ArgSpec)) : option Z :=
  match pairs with
  | [] => Some 0
  | (t, spec) :: pairs => s ← score_type t spec; r ← sum_scores pairs; Some (s + r)
  end.

Definition score_columns (nonconst : list ArgSpec) (varargs : option ArgSpec) (s : Schema) : option Z :=
  match varargs with
  | Some vs =>
      if is_const vs then sum_scores (zip (data_type <$> s) nonconst)
      else sum_scores ((λ f, (data_type f, vs)) <$> s)
  | None => sum_scores (zip (data_type <$> s) nonconst)
  end.

(** The constant specs with the values at their ordinals, then the values the
    constant varargs spec takes. *)
Definition const_pairs (consts : list ArgSpec) (a : Arguments) : list (DataType * ArgSpec) :=
  let fixed := filter (λ s, is_varargs s = false) consts in
  omap (λ '(i, s), (λ v, (arr_type v, s)) <$> arg a i) (zip (seq 0 (length fixed)) fixed).
Definition varargs_pairs (varargs : option ArgSpec) (a : Arguments) : list (DataType * ArgSpec) :=
  match varargs with
  | Some vs =>
      if is_const vs && (0 <=? position vs) then
        let first := Z.to_nat (position vs) in
        omap (λ i, (λ v, (arr_type v, vs)) <$> arg a i) (seq first (num_positional a - first))
      else []
  | None => []
  end.

Definition positional_specs (const : bool) (specs : list ArgSpec) : list ArgSpec :=
  filter (λ s, (0 <=? position s) && Bool.eqb (is_const s) const = true) specs.

(** Whether the numbers of constants and columns fit. *)
Definition counts_fit (specs : list ArgSpec) (blended : bool) (a : Arguments) (input : option Schema) : bool :=
  let consts := positional_specs true specs in
  let nonconst := positional_specs false specs in
  let fields := match input with Some s => length s | None => 0%nat end in
  let varargs := find (λ s, is_varargs s) specs in
  if blended then
    match input, varargs with
    | None, _ => true
    | Some _, Some _ => (length (filter (λ s, is_varargs s = false) nonconst) <=? fields)%nat
    | Some _, None => (fields =? length nonconst)%nat
    end
  else
    match varargs with
    | Some vs =>
        if is_const vs then (length consts - 1 <=? num_positional a)%nat
        else (length consts <=? num_positional a)%nat
             && (negb (is_some input) || (length nonconst - 1 <=? fields)%nat)
    | None =>
        (num_positional a =? length consts)%nat
        && (negb (is_some input) || (length nonconst =? 0)%nat || (fields =? length nonconst)%nat)
    end.

Definition score_candidate (specs : list ArgSpec) (blended : bool) (a : Arguments) (input : option Schema) :
    option Z :=
  let consts := positional_specs true specs in
  let nonconst := positional_specs false specs in
  let varargs := find (λ s, is_varargs s) specs in
  if negb (counts_fit specs blended a input) then None
  else if blended then
    match input with Some s => score_columns nonconst varargs s | None => Some 0 end
  else
    c ← sum_scores (const_pairs consts a);
    v ← sum_scores (varargs_pairs varargs a);
    f ← (match input with Some s => score_columns nonconst varargs s | None => Some 0 end);
    Some (c + v + f).

(** * Resolution *)

Fixpoint best_of (specs_of : nat → list ArgSpec) (blended_of : nat → bool) (a : Arguments)
    (input : option Schema) (idxs : list nat) (best : option (nat * Z)) : option (nat * Z) :=
  match idxs with
  | [] => best
  | i :: idxs =>
      let best := match score_candidate (specs_of i) (blended_of i) a input with
                  | Some score =>
                      if match best with Some (_, b) => b <? score | None => true end
                      then Some (i, score) else best
                  | None => best
                  end in
      best_of specs_of blended_of a input idxs best
  end.

Definition resolve_overload_blended (count : nat) (specs_of : nat → list ArgSpec) (blended_of : nat → bool)
    (a : Arguments) (input : option Schema) : option nat :=
  if (count =? 1)%nat then Some 0%nat
  else fst <$> best_of specs_of blended_of a input (seq 0 count) None.

Definition resolve_overload (count : nat) (specs_of : nat → list ArgSpec) (a : Arguments)
    (input : option Schema) : option nat :=
  resolve_overload_blended count specs_of (λ _, false) a input.

(** * The best candidate *)

Section best.
Context (specs_of : nat → list ArgSpec) (blended_of : nat → bool) (a : Arguments) (input : option Schema).
Let score (i : nat) : option Z := score_candidate (specs_of i) (blended_of i) a input.

(** [r] is the first candidate of [l] with the highest score, if any fits. *)
Definition winner (l : list nat) (r : option (nat * Z)) : Prop :=
  match r with
  | None => ∀ j, j ∈ l → score j = None
  | Some (i, s) => ∃ pre post, l = pre ++ i :: post ∧ score i = Some s ∧
      (∀ j sj, j ∈ pre → score j = Some sj → sj < s) ∧ (∀ j sj, j ∈ post → score j = Some sj → sj ≤ s)
  end.

Lemma winner_snoc l r i : winner l r →
  winner (l ++ [i])
    match score i with
    | Some s => if match r with Some (_, b) => b <? s | None => true end then Some (i, s) else r
    | None => r
    end.
Proof.
  intros Hr. destruct (score i) as [s|] eqn:Es.
  - destruct r as [[k b]|]; cbn in *.
    + destruct Hr as (pre & post & -> & Hk & Hpre & Hpost). destruct (Z.ltb_spec b s) as [Hlt|Hge].
      * exists (pre ++ k :: post), []. split; [done|]. split; [done|]. split; [|by intros ? ? ?%not_elem_of_nil].
        intros j sj [Hj|[->|Hj]%elem_of_cons]%elem_of_app Hs; [specialize (Hpre j sj Hj Hs); lia| |specialize (Hpost j sj Hj Hs); lia].
        rewrite Hk in Hs. injection Hs as <-. done.
      * exists pre, (post ++ [i]). split; [by rewrite <- app_assoc|]. split; [done|]. split; [done|].
        intros j sj [Hj| ->%list_elem_of_singleton]%elem_of_app Hs; [by eapply Hpost|]. rewrite Es in Hs. injection Hs as <-. done.
    + exists l, []. split; [done|]. split; [done|]. split; [|by intros ? ? ?%not_elem_of_nil].
      intros j sj Hj Hs. by rewrite Hr in Hs.
  - destruct r as [[k b]|]; cbn in *.
    + destruct Hr as (pre & post & -> & Hk & Hpre & Hpost). exists pre, (post ++ [i]).
      split; [by rewrite <- app_assoc|]. split; [done|]. split; [done|].
      intros j sj [Hj| ->%list_elem_of_singleton]%elem_of_app Hs; [by eapply Hpost|]. by rewrite Es in Hs.
    + intros j [Hj| ->%list_elem_of_singleton]%elem_of_app; auto.
Qed.

Lemma best_of_winner idxs l r : winner l r → winner (l ++ idxs) (best_of specs_of blended_of a input idxs r).
Proof.
  induction idxs as [|i idxs IH] in l, r |- *; cbn [best_of]; intros Hr; [by rewrite app_nil_r|].
  rewrite cons_middle, app_assoc. apply IH. exact (winner_snoc l r i Hr).
Qed.
End best.

(** Overload resolution picks the first compatible candidate with the highest
    score, and reports none exactly when no candidate is compatible.  A name with
    a single candidate is not scored at all. *)
Theorem overload_best count specs_of blended_of a input : count ≠ 1%nat →
  match resolve_overload_blended count specs_of blended_of a input with
  | Some i => (i < count)%nat ∧ ∃ s, score_candidate (specs_of i) (blended_of i) a input = Some s ∧
      ∀ j sj, (j < count)%nat → score_candidate (specs_of j) (blended_of j) a input = Some sj →
              sj ≤ s ∧ ((j < i)%nat → sj < s)
  | None => ∀ j, (j < count)%nat → score_candidate (specs_of j) (blended_of j) a input = None
  end.
Proof.
  intros Hc. unfold resolve_overload_blended. rewrite (proj2 (Nat.eqb_neq _ _) Hc).
  pose proof (best_of_winner specs_of blended_of a input (seq 0 count) [] None) as Hw.
  destruct (best_of _ _ _ _ _ _) as [[i s]|]; cbn [fmap option_fmap option_map fst] in *.
  - destruct Hw as (pre & post & Hl & Hs & Hpre & Hpost); [by intros ? ?%not_elem_of_nil|]. cbn [app] in Hl.
    assert (∀ j, (j < count)%nat → seq 0 count !! j = Some j) as Hseq by (intros; apply lookup_seq; lia).
    assert (length pre = i) as Hi.
    { assert (seq 0 count !! length pre = Some i) as E by (rewrite Hl; by apply list_lookup_middle).
      apply lookup_seq in E. lia. }
    assert ((i < count)%nat) as Hlt.
    { assert (i ∈ seq 0 count) as Hin by (rewrite Hl; apply elem_of_app; right; apply list_elem_of_here).
      apply elem_of_seq in Hin. lia. }
    split; [done|]. exists s. split; [done|]. intros j sj Hj Hsj. specialize (Hseq j Hj). rewrite Hl in Hseq.
    apply lookup_app_Some in Hseq as [Hp|[Hge Hp]].
    + apply list_elem_of_lookup_2 in Hp. specialize (Hpre j sj Hp Hsj). lia.
    + assert (j = i ∨ j ∈ post) as [->|Hjp].
      { apply list_elem_of_lookup_2 in Hp. by apply elem_of_cons in Hp. }
      * rewrite Hs in Hsj. injection Hsj as <-. lia.
      * specialize (Hpost j sj Hjp Hsj). lia.
  - intros j Hj. apply Hw; [by intros ? ?%not_elem_of_nil|]. apply elem_of_seq. lia.
Qed.

(** * Structural equality *)

Section DataType_rect.
Context (P : DataType → Prop).
Context (Hflat : ∀ t, P (Flat t)) (Hlist : ∀ f, P (data_type f) → P (List f))
  (Hlv : ∀ f, P (ListView f)) (Hfix : ∀ f n, P (data_type f) → P (FixedSizeList f n))
  (Hll : ∀ f, P (data_type f) → P (LargeList f)) (Hllv : ∀ f, P (LargeListView f))
  (Hstruct : ∀ fs, Forall (λ f, P (data_type f)) fs → P (Struct fs)) (Hunion : ∀ fs m, P (Union fs m))
  (Hdict : ∀ k v, P (Dictionary k v)) (Hmap : ∀ f b, P (data_type f) → P (Map f b))
  (Hree : ∀ e v, P (RunEndEncoded e v)).

(** Induction on types through the fields the comparison looks into. *)
Fixpoint DataType_fields_ind (t : DataType) : P t :=
  let field (f : Field) : P (data_type f) := match f with mkField _ t _ _ => DataType_fields_ind t end in
  let all := fix all (fs : list Field) : Forall (λ f, P (data_type f)) fs :=
    match fs with [] => Forall_nil_2 _ | f :: fs => Forall_cons_2 _ f fs (field f) (all fs) end in
  match t with
  | Flat t => Hflat t
  | List f => Hlist f (field f)
  | ListView f => Hlv f
  | FixedSizeList f n => Hfix f n (field f)
  | LargeList f => Hll f (field f)
  | LargeListView f => Hllv f
  | Struct fs => Hstruct fs (all fs)
  | Union fs m => Hunion fs m
  | Dictionary k v => Hdict k v
  | Map f b => Hmap f b (field f)
  | RunEndEncoded e v => Hree e v
  end.
End DataType_rect.

(** A type without the names, nullability and metadata of the fields of its
    lists, structs and maps, and with one kind of list and of map. *)
Fixpoint erase (t : DataType) : DataType :=
  let field (f : Field) := match f with mkField _ t _ _ => mkField "" (erase t) true [] end in
  match t with
  | List f | LargeList f => List (field f)
  | FixedSizeList f n => FixedSizeList (field f) n
  | Map f _ => Map (field f) false
  | Struct fs => Struct (field <$> fs)
  | t => t
  end.
Definition erase_field (f : Field) : Field := mkField "" (erase (data_type f)) true [].

Lemma nse_child x y : nested_structurally_equal (data_type x) (data_type y) =
  match x with mkField _ t _ _ => nested_structurally_equal t (data_type y) end.
Proof. by destruct x. Qed.

Lemma nse_struct fx fy : nested_structurally_equal (Struct fx) (Struct fy) =
  match fx, fy with
  | [], [] => true
  | x :: l, y :: r => nested_structurally_equal (data_type x) (data_type y) && nested_structurally_equal (Struct l) (Struct r)
  | _, _ => false
  end.
Proof. destruct fx as [|[] fx], fy; reflexivity. Qed.

Lemma erase_struct fs : erase (Struct fs) = Struct (erase_field <$> fs).
Proof. cbn. f_equal. apply list_fmap_ext. by intros i [] _. Qed.

(** Two nested types match exactly when they are the same up to the names,
    nullability and metadata of their fields, the size class of lists and the
    sortedness of maps; so the match is an equivalence. *)
Theorem structural_match a b : nested_structurally_equal a b = bool_decide (erase a = erase b).
Proof.
  revert b. assert (∀ x y, (∀ b, nested_structurally_equal (data_type x) b = bool_decide (erase (data_type x) = erase b)) →
    nested_structurally_equal (data_type x) (data_type y) = bool_decide (erase_field x = erase_field y)) as Hf.
  { intros x y IH. rewrite IH. apply bool_decide_ext. unfold erase_field. split; [by intros ->|by intros [= ->]]. }
  assert (∀ x, match x with mkField _ t _ _ => mkField "" (erase t) true [] end = erase_field x) as He by (by intros []).
  induction a using DataType_fields_ind; intros u; destruct u; cbn [nested_structurally_equal erase];
    try done; try (by apply bool_decide_ext; split; [intros [=]|intros [=]]); rewrite ?He;
    try (rewrite <- nse_child, (Hf _ _ IHa); apply bool_decide_ext; split; congruence).
  - rewrite <- nse_child, (Hf _ _ IHa). destruct (Z.eqb_spec n size) as [->|Hn]; cbn [andb].
    + apply bool_decide_ext. split; congruence.
    + symmetry. apply bool_decide_eq_false. congruence.
  - change (nested_structurally_equal (Struct fs) (Struct fs0) = bool_decide (erase (Struct fs) = erase (Struct fs0))).
    rewrite !erase_struct. revert fs0. induction H as [|x fs Hx _ IH]; intros [|y fs0]; rewrite nse_struct; try done.
    rewrite (Hf _ _ Hx), IH. rewrite <- bool_decide_and. apply bool_decide_ext. cbn [fmap list_fmap].
    split; [intros [-> ?]; congruence|]. intros E. split; congruence.
Qed.

(** * Examples *)

Definition overloads_ex (i : nat) : list ArgSpec :=
  [mkArgSpec "x" 0 (if (i =? 0)%nat then "int64" else "varchar") true false None].
Definition text_call : Arguments := mkArguments [Some (text_arg "x")] ∅ None [].

Lemma overload_best_witness :
  resolve_overload_blended 2 overloads_ex (λ _, false) text_call None = Some 1%nat ∧
  ∃ s, score_candidate (overloads_ex 1) false text_call None = Some s.
Proof.
  pose proof (overload_best 2 overloads_ex (λ _, false) text_call None ltac:(lia)) as H.
  assert (resolve_overload_blended 2 overloads_ex (λ _, false) text_call None = Some 1%nat) as E
    by (vm_compute; reflexivity).
  rewrite E in H. destruct H as (_ & s & Hs & _). split; [exact E|]. exists s. exact Hs.
Defined.

(** A function with one overload is called even when its arguments are
    incompatible, although the documentation says [None]; beside another overload
    the same call is rejected. *)
Theorem single_candidate_unchecked :
  score_candidate (overloads_ex 0) false text_call None = None ∧
  resolve_overload 1 overloads_ex text_call None = Some 0%nat ∧
  resolve_overload 2 (λ _, overloads_ex 0) text_call None = None.
Proof. vm_compute. split_and!; reflexivity. Qed.

(** A text column, then any number of integer columns. *)
Definition joined_specs : list ArgSpec :=
  [mkArgSpec "sep" 0 "varchar" false false None; mkArgSpec "values" 1 "int64" false true None].

(** A column before a varargs column is scored as one of the varargs: the call
    its declaration describes is rejected, and one whose first column has the
    type of the varargs is accepted. *)
Theorem fixed_column_before_varargs :
  let column n t := mkField n t true [] in
  score_candidate joined_specs false no_arguments (Some [column "a" Utf8; column "b" Int64]) = None ∧
  score_candidate joined_specs false no_arguments (Some [column "a" Int64; column "b" Int64]) = Some 4.
Proof. vm_compute. split; reflexivity. Qed.
