(* ===== verification/Registry.v ===== *)
(** The function registry of the dispatcher ([vgi/src/dispatch.rs]): functions
    registered with the catalog schema they are declared in, the resolution of a
    call through its catalog, schema and overloads, the catalogs' function
    listings and their cache. *)
From S2P Require Import Prelude Float64 Arrow ArrowModel SqlCompare Pushdown Ipc Arguments Overload AttachTicket.

Open Scope Z_scope.

(** * Data *)

Inductive FnKind := Scalar | Table | TableInOut | Buffering | Aggregate.
#[global] Instance FnKind_eq_dec : EqDecision FnKind.
Proof. solve_decision. Defined.
#[global] Instance FnKind_countable : Countable FnKind.
Proof.
  apply (inj_countable' (λ k, match k with Scalar => 0 | Table => 1 | TableInOut => 2 | Buffering => 3 | Aggregate => 4 end)%nat
    (λ n, match n with 0 => Scalar | 1 => Table | 2 => TableInOut | 3 => Buffering | _ => Aggregate end)%nat).
  by intros [].
Defined.

Inductive ListingKind := LScalar | LTable | LAggregate.
#[global] Instance ListingKind_eq_dec : EqDecision ListingKind.
Proof. solve_decision. Defined.
#[global] Instance ListingKind_countable : Countable ListingKind.
Proof.
  apply (inj_countable' (λ k, match k with LScalar => 0 | LTable => 1 | LAggregate => 2 end)%nat
    (λ n, match n with 0 => LScalar | 1 => LTable | _ => LAggregate end)%nat).
  by intros [].
Defined.

(** The catalog ([None] the primary, else an index of the secondaries), whether
    the attach is the [projection_repro] app, the schema path and the kind. *)
Abbreviation FunctionListingKey := (option nat * bool * list string * ListingKind)%type.

Record FunctionScope := mkScope { scope_catalog : string; scope_schema_path : list string }.
#[global] Instance FunctionScope_eq_dec : EqDecision FunctionScope.
Proof. solve_decision. Defined.

(** [FunctionScope::matches] and [in_catalog]. *)
Definition in_catalog (h : FunctionScope) (catalog : string) : bool := eq_ignore_ascii_case (scope_catalog h) catalog.
Definition matches (h : FunctionScope) (catalog : string) (path : list string) : bool :=
  eq_ignore_ascii_case (scope_catalog h) catalog
  && (length (scope_schema_path h) =? length path)%nat
  && forallb (λ '(l, r), eq_ignore_ascii_case l r) (zip (scope_schema_path h) path).

Inductive ScopeKind :=
| Schema_ (path : list string) | CopyHandler | Bound | UnlistedScanFunction | LegacyPeer.
Record CallScope := mkCall { call_catalog_name : string; call_kind : ScopeKind }.

Inductive ResolveError :=
| UnknownFunction (name : string)
| NotInSchema (name : string) (path : list string) (catalog : string)
| NotInCatalog (name catalog : string)
| AmbiguousFunction (name catalog : string)
| NoMatchingOverload (name : string)
| NoSchemaPath (name : string).

(** A record of a listing: the schema it is advertised in and the rest. *)
Record FunctionInfo := mkInfo { info_schema_path : list string; info_body : bytes }.
Definition advertise_in (info : FunctionInfo) (path : list string) : FunctionInfo := mkInfo path (info_body info).

(** The function traits, as far as the registry looks at them. *)
Class Functions (F : Type) := {
  fn_name : F → string;
  argument_specs : F → list ArgSpec;
  input_from_args : F → bool;
  has_finish : F → bool;
  resume_supported : F → bool;
  max_workers : F → Z;
  input_rows_per_call : F → option Z;
  function_info : FnKind → F → result FunctionInfo RpcError;
  serialize_info : FunctionInfo → result bytes RpcError;
  to_result_batch : list bytes → result bytes RpcError;
}.

(** A cached listing: its encoded items and its whole response. *)
Record FunctionListing := mkListing { items : list bytes; response : bytes }.

(** The registries by kind, the homes parallel to them, and what is served.  Of a
    catalog model only the name matters here. *)
Record Dispatcher (F : Type) := mkDispatcher {
  catalog_name : string;
  catalog_model : string;
  secondary : list string;
  secondary_functions : list (list string);
  hidden_functions : gset string;
  functions : gmap (FnKind * string) (list F);
  scopes : gmap (FnKind * string) (list FunctionScope);
  function_listings : gmap FunctionListingKey FunctionListing;
  catalog_generation : Z;
}.
Arguments mkDispatcher {F}. Arguments catalog_name {F}. Arguments catalog_model {F}. Arguments secondary {F}.
Arguments secondary_functions {F}. Arguments hidden_functions {F}. Arguments functions {F}.
Arguments scopes {F}. Arguments function_listings {F}. Arguments catalog_generation {F}.

Definition MAIN_SCHEMA : string := "main".
Definition PROJ_REPRO_APP : string := "projection_repro".
Definition PROJ_REPRO_PREFIX : string := "proj_repro".
Definition MAX_CACHED_FUNCTION_LISTINGS : nat := 1024.
Definition SEC_MARKER : bytes := x00 :: as_bytes "sec" ++ [x00].

(** * Secondary attach data *)

Definition encode_secondary_opaque (name : string) (scope : bytes) : bytes :=
  SEC_MARKER ++ as_bytes name ++ [x00] ++ scope.

Fixpoint strip_bytes (p l : bytes) : option bytes :=
  match p, l with
  | [], l => Some l
  | a :: p, b :: l => if decide (a = b) then strip_bytes p l else None
  | _ :: _, [] => None
  end.

(** The bytes before and after the first zero. *)
Fixpoint split_zero (l : bytes) : option (bytes * bytes) :=
  match l with
  | [] => None
  | b :: l => if decide (b = x00) then Some ([], l) else '(x, y) ← split_zero l; Some (b :: x, y)
  end.

Definition decode_secondary_opaque (bs : bytes) : option (string * bytes) :=
  rest ← strip_bytes SEC_MARKER bs;
  '(n, scope) ← split_zero rest;
  if utf8_valid n then Some (string_of_bytes n, scope) else None.

Section dispatcher.
Context {F : Type} `{Functions F}.
Implicit Type d : Dispatcher F.

Definition new_dispatcher (name : string) : Dispatcher F :=
  mkDispatcher name "" [] [] ∅ ∅ ∅ ∅ 0.

(** * Registration *)

Definition function_listings_changed d : Dispatcher F :=
  mkDispatcher (catalog_name d) (catalog_model d) (secondary d) (secondary_functions d) (hidden_functions d)
    (functions d) (scopes d) ∅ (catalog_generation d + 1).

Definition with_scopes d (s : gmap (FnKind * string) (list FunctionScope)) : Dispatcher F :=
  mkDispatcher (catalog_name d) (catalog_model d) (secondary d) (secondary_functions d) (hidden_functions d)
    (functions d) s (function_listings d) (catalog_generation d).

Definition push {A} (m : gmap (FnKind * string) (list A)) (k : FnKind * string) (x : A) :
    gmap (FnKind * string) (list A) := <[k := default [] (m !! k) ++ [x]]> m.

Definition note_scope d (kind : FnKind) (name : string) (scope : FunctionScope) : Dispatcher F :=
  function_listings_changed (with_scopes d (push (scopes d) (kind, name) scope)).

Definition primary_catalog_name d : string :=
  if String.eqb (catalog_model d) "" then catalog_name d else catalog_model d.

Definition default_home d : FunctionScope := mkScope (primary_catalog_name d) [MAIN_SCHEMA].

(** [register_scalar_scoped] and its four siblings. *)
Definition register_scoped d (kind : FnKind) (f : F) (scope : FunctionScope) : Dispatcher F :=
  let pushed := mkDispatcher (catalog_name d) (catalog_model d) (secondary d) (secondary_functions d)
    (hidden_functions d) (push (functions d) (kind, fn_name f) f) (scopes d) (function_listings d)
    (catalog_generation d) in
  note_scope pushed kind (fn_name f) scope.

(** [register_scalar] and its siblings other than the table-in-out one. *)
Definition register d (kind : FnKind) (f : F) : Dispatcher F := register_scoped d kind f (default_home d).

(** The assertions at registration; [None] is the panic. *)
Definition register_table_in_out_scoped d (f : F) (scope : FunctionScope) : option (Dispatcher F) :=
  if resume_supported f && (max_workers f =? 1) then None
  else match input_rows_per_call f with
  | Some n =>
      if input_from_args f && (1 <=? n) then Some (register_scoped d TableInOut f scope) else None
  | None => Some (register_scoped d TableInOut f scope)
  end.

Definition register_table_in_out d (f : F) : option (Dispatcher F) :=
  let specs := argument_specs f in
  if input_from_args f
     && (has_finish f
         || existsb (λ s, String.eqb (arrow_type s) "table") specs
         || existsb (λ s, (0 <=? position s) && is_const s) specs
         || negb (existsb (λ s, (0 <=? position s) && negb (is_const s)) specs))
  then None
  else register_table_in_out_scoped d f (default_home d).

Definition register_table_if_absent d (f : F) : Dispatcher F :=
  if is_some (functions d !! (Table, fn_name f)) then d else register d Table f.

Definition hide_function d (name : string) : Dispatcher F :=
  function_listings_changed
    (mkDispatcher (catalog_name d) (catalog_model d) (secondary d) (secondary_functions d)
       ({[name]} ∪ hidden_functions d) (functions d) (scopes d) (function_listings d) (catalog_generation d)).

(** Rebases the homes in the primary when it is renamed. *)
Definition rebase (old new : string) (h : FunctionScope) : FunctionScope :=
  if in_catalog h old then mkScope new (scope_schema_path h) else h.

Definition set_catalog d (model : string) : Dispatcher F :=
  let old := primary_catalog_name d in
  let scopes' := if negb (String.eqb model "") && negb (eq_ignore_ascii_case model old)
                 then fmap (M := gmap (FnKind * string)) (λ hs : list FunctionScope, rebase old model <$> hs) (scopes d)
                 else scopes d in
  function_listings_changed
    (mkDispatcher (catalog_name d) model (secondary d) (secondary_functions d) (hidden_functions d)
       (functions d) scopes' (function_listings d) (catalog_generation d)).

Definition adopt (from to : FunctionScope) (h : FunctionScope) : FunctionScope := if decide (h = from) then to else h.

Definition register_secondary_catalog d (model : string) (names : list string) : Dispatcher F :=
  let from := default_home d in
  let to := mkScope model [MAIN_SCHEMA] in
  let scopes' := foldl (λ m n,
      foldl (λ m kind, alter (λ hs : list FunctionScope, adopt from to <$> hs) (kind, n) m) m
        [Scalar; Table; TableInOut; Buffering; Aggregate]) (scopes d) names in
  function_listings_changed
    (mkDispatcher (catalog_name d) (catalog_model d) (secondary d ++ [model]) (secondary_functions d ++ [names])
       (hidden_functions d) (functions d) scopes' (function_listings d) (catalog_generation d)).

(** * Resolution *)

Definition homes_of d (kind : FnKind) (name : string) : list FunctionScope := default [] (scopes d !! (kind, name)).

Definition home_matches (homes : list FunctionScope) (catalog : string) (path : list string) (i : nat) : bool :=
  match homes !! i with Some h => matches h catalog path | None => false end.
Definition home_in_catalog (homes : list FunctionScope) (catalog : string) (i : nat) : bool :=
  match homes !! i with Some h => in_catalog h catalog | None => false end.

Definition dotted (path : list string) : string := String.concat "." path.

Definition scoped_indices d (kind : FnKind) (name : string) (n : nat) (call : CallScope) :
    result (list nat) ResolveError :=
  let homes := homes_of d kind name in
  match call_kind call with
  | Schema_ path =>
      match filter (λ i, home_matches homes (call_catalog_name call) path i = true) (seq 0 n) with
      | [] => Err (NotInSchema name path (call_catalog_name call))
      | exact => Ok exact
      end
  | _ =>
      let idxs := filter (λ i, home_in_catalog homes (call_catalog_name call) i = true) (seq 0 n) in
      match idxs with
      | [] => Err (NotInCatalog name (call_catalog_name call))
      | _ =>
          let schemas : gset string :=
            list_to_set (omap (λ i, (λ h, dotted (scope_schema_path h)) <$> homes !! i) idxs) in
          if (1 <? size schemas)%nat then Err (AmbiguousFunction name (call_catalog_name call)) else Ok idxs
      end
  end.

Definition candidates d (kind : FnKind) (name : string) : result (list F) ResolveError :=
  match functions d !! (kind, name) with Some fs => Ok fs | None => Err (UnknownFunction name) end.

(** [resolve_scalar] and [resolve_table]; with [blended] the flag of the function,
    [resolve_table_in_out]. *)
Definition resolve_scored (blended : bool) d (kind : FnKind) (name : string) (a : Arguments.Arguments)
    (input : option Schema) (call : CallScope) : result F ResolveError :=
  let? cands := candidates d kind name in
  let? idxs := scoped_indices d kind name (length cands) call in
  let cand i := idxs !! i ≫= λ k, cands !! k in
  let specs_of i := match cand i with Some f => argument_specs f | None => [] end in
  let blended_of i := blended && match cand i with Some f => input_from_args f | None => false end in
  match resolve_overload_blended (length idxs) specs_of blended_of a input ≫= cand with
  | Some f => Ok f
  | None => Err (NoMatchingOverload name)
  end.

Definition resolve_scalar d := resolve_scored false d Scalar.
Definition resolve_table d := resolve_scored false d Table.
Definition resolve_table_in_out d := resolve_scored true d TableInOut.

(** [resolve_buffering] and [resolve_aggregate]. *)
Definition resolve_first d (kind : FnKind) (name : string) (call : CallScope) : result F ResolveError :=
  let? cands := candidates d kind name in
  let? idxs := scoped_indices d kind name (length cands) call in
  match head idxs ≫= λ k, cands !! k with Some f => Ok f | None => Err (UnknownFunction name) end.
Definition resolve_buffering d := resolve_first d Buffering.
Definition resolve_aggregate d := resolve_first d Aggregate.

(** The secondary an attach names. *)
Definition secondary_index d (attach : option bytes) : option nat :=
  bs ← attach; '(name, _) ← decode_secondary_opaque bs; fst <$> list_find (λ c, c = name) (secondary d).

Definition call_catalog d (attach : option bytes) : string :=
  match secondary_index d attach ≫= λ i, secondary d !! i with
  | Some c => c
  | None => primary_catalog_name d
  end.

Definition named_path (path : option (list string)) : option (list string) :=
  p ← path; if negb (length p =? 0)%nat && forallb (λ part, negb (String.eqb part "")) p then Some p else None.

Definition for_bind (catalog : string) (path : option (list string)) (name : string)
    (is_copy hidden legacy_peer : bool) : result CallScope ResolveError :=
  match named_path path with
  | Some p => Ok (mkCall catalog (Schema_ p))
  | None =>
      if is_copy then Ok (mkCall catalog CopyHandler)
      else if legacy_peer then Ok (mkCall catalog LegacyPeer)
      else if hidden then Ok (mkCall catalog UnlistedScanFunction)
      else Err (NoSchemaPath name)
  end.

Definition bound_scope (catalog : string) (path : option (list string)) : CallScope :=
  match named_path path with
  | Some p => mkCall catalog (Schema_ p)
  | None => mkCall catalog Bound
  end.

Definition bind_scope d (attach : option bytes) (path : option (list string)) (name : string)
    (is_copy legacy_peer : bool) : result CallScope ResolveError :=
  for_bind (call_catalog d attach) path name is_copy (bool_decide (name ∈ hidden_functions d)) legacy_peer.

(** * Listings *)

Definition declared_in d (kind : FnKind) (name : string) (i : nat) (catalog : string) (path : list string) : bool :=
  home_matches (homes_of d kind name) catalog path i.

(** [catalog_identity] of the catalog a key names. *)
Definition key_catalog d (catalog : option nat) : string :=
  match catalog ≫= λ i, secondary d !! i with Some c => c | None => primary_catalog_name d end.

Definition visible d (catalog : option nat) (proj_repro : bool) (name : string) : bool :=
  negb (bool_decide (name ∈ hidden_functions d))
  && Bool.eqb (starts_with name PROJ_REPRO_PREFIX) proj_repro
  && match catalog with
     | Some i => is_some (secondary_functions d !! i) || negb (bool_decide (name ∈ mjoin (secondary_functions d)))
     | None => negb (bool_decide (name ∈ mjoin (secondary_functions d)))
     end.

Definition string_le (a b : string) : Prop := String.leb a b = true.
#[local] Instance string_le_dec a b : Decision (string_le a b).
Proof. unfold string_le. apply _. Defined.

Definition names_of d (kind : FnKind) : list string :=
  omap (λ '((k, n), _), if decide (k = kind) then Some n else None) (map_to_list (functions d)).

(** The instances of one kind a listing holds, in advertisement order. *)
Definition listed d (key : FunctionListingKey) (kind : FnKind) : list F :=
  let '(catalog, proj_repro, path, _) := key in
  merge_sort string_le (filter (λ n, visible d catalog proj_repro n = true) (names_of d kind)) ≫= λ n,
    omap (λ '(i, f), if declared_in d kind n i (key_catalog d catalog) path then Some f else None)
      (imap pair (default [] (functions d !! (kind, n)))).

Definition listing_kinds (k : ListingKind) : list FnKind :=
  match k with LScalar => [Scalar] | LTable => [Table; TableInOut; Buffering] | LAggregate => [Aggregate] end.

Fixpoint infos_of (path : list string) (kind : FnKind) (fs : list F) : result (list FunctionInfo) RpcError :=
  match fs with
  | [] => Ok []
  | f :: fs => let? info := function_info kind f in
               let? infos := infos_of path kind fs in Ok (advertise_in info path :: infos)
  end.

Fixpoint build_kinds d (key : FunctionListingKey) (kinds : list FnKind) : result (list FunctionInfo) RpcError :=
  match kinds with
  | [] => Ok []
  | kind :: kinds => let? infos := infos_of key.1.2 kind (listed d key kind) in
                     let? rest := build_kinds d key kinds in Ok (infos ++ rest)
  end.
Definition build_function_listing d (key : FunctionListingKey) : result (list FunctionInfo) RpcError :=
  build_kinds d key (listing_kinds key.2).

Fixpoint serialize_items (infos : list FunctionInfo) : result (list bytes) RpcError :=
  match infos with
  | [] => Ok []
  | i :: infos => let? x := serialize_info i in let? xs := serialize_items infos in Ok (x :: xs)
  end.

Definition with_listings d (m : gmap FunctionListingKey FunctionListing) : Dispatcher F :=
  mkDispatcher (catalog_name d) (catalog_model d) (secondary d) (secondary_functions d) (hidden_functions d)
    (functions d) (scopes d) m (catalog_generation d).

(** What a listing is built to on its first request. *)
Definition fresh_listing d (key : FunctionListingKey) : result FunctionListing RpcError :=
  let? infos := build_function_listing d key in
  let? its := serialize_items infos in
  let? resp := to_result_batch its in
  Ok (mkListing its resp).

(** [function_listing]: the listing and the dispatcher with its cache. *)
Definition function_listing d (key : FunctionListingKey) : result FunctionListing RpcError * Dispatcher F :=
  match function_listings d !! key with
  | Some l => (Ok l, d)
  | None =>
      match fresh_listing d key with
      | Err e => (Err e, d)
      | Ok l =>
          if (length (items l) =? 0)%nat then (Ok l, d)
          else if (MAX_CACHED_FUNCTION_LISTINGS <=? size (function_listings d))%nat then (Ok l, d)
          else (Ok l, with_listings d (<[key := l]> (function_listings d)))
      end
  end.

(** [normalize_function_type] and the kinds it stands for; no letter outside
    ASCII lower-cases into one of these words. *)
Definition lower (t : string) : string := string_of_bytes (ascii_lower <$> as_bytes t).
Definition strip_suffix_fn (t : string) : string :=
  let l := as_bytes t in let n := (length l - 9)%nat in
  if decide (drop n l = as_bytes "_function") then string_of_bytes (take n l) else t.
Definition listing_filter (t : string) : list ListingKind :=
  if String.eqb t "" then [LScalar; LTable; LAggregate]
  else let t := strip_suffix_fn (lower t) in
       if String.eqb t "scalar" then [LScalar]
       else if String.eqb t "table" || String.eqb t "table_buffering" then [LTable]
       else if String.eqb t "aggregate" then [LAggregate] else [].

Definition function_listing_keys d (attach : option bytes) (path : list string) (type_filter : string) :
    list FunctionListingKey :=
  let proj_repro := match attach with Some bs => bool_decide (bs = as_bytes PROJ_REPRO_APP) | None => false end in
  (λ kind, (secondary_index d attach, proj_repro, path, kind)) <$> listing_filter type_filter.

(** The loop shared by [handle_contents_functions] and [function_items]. *)
Fixpoint listing_items d (keys : list FunctionListingKey) : result (list bytes) RpcError * Dispatcher F :=
  match keys with
  | [] => (Ok [], d)
  | key :: keys =>
      match function_listing d key with
      | (Err e, d) => (Err e, d)
      | (Ok l, d) =>
          match listing_items d keys with
          | (Err e, d) => (Err e, d)
          | (Ok rest, d) => (Ok (items l ++ rest), d)
          end
      end
  end.
Definition function_items d (attach : option bytes) (path : list string) (type_filter : string) :
    result (list bytes) RpcError * Dispatcher F :=
  listing_items d (function_listing_keys d attach path type_filter).

(** A request for one kind is served the cached response whole. *)
Definition handle_contents_functions d (attach : option bytes) (path : list string) (type_filter : string) :
    result bytes RpcError * Dispatcher F :=
  match function_listing_keys d attach path type_filter with
  | [key] => match function_listing d key with
             | (Err e, d) => (Err e, d)
             | (Ok l, d) => (Ok (response l), d)
             end
  | keys => match listing_items d keys with
            | (Err e, d) => (Err e, d)
            | (Ok its, d) => (to_result_batch its, d)
            end
  end.

(** * Reachable dispatchers *)

(** What a worker does to a dispatcher: registrations, catalogs, and listings. *)
Inductive registry_step d : Dispatcher F → Prop :=
| step_register kind f scope : kind ≠ TableInOut → registry_step d (register_scoped d kind f scope)
| step_register_default kind f : kind ≠ TableInOut → registry_step d (register d kind f)
| step_table_in_out_scoped f scope d' :
    register_table_in_out_scoped d f scope = Some d' → registry_step d d'
| step_table_in_out f d' : register_table_in_out d f = Some d' → registry_step d d'
| step_if_absent f : registry_step d (register_table_if_absent d f)
| step_hide name : registry_step d (hide_function d name)
| step_set_catalog model : registry_step d (set_catalog d model)
| step_secondary model names : registry_step d (register_secondary_catalog d model names)
| step_contents attach path t : registry_step d (handle_contents_functions d attach path t).2
| step_items attach path t : registry_step d (function_items d attach path t).2.

Definition reachable d : Prop := ∃ name, rtc registry_step (new_dispatcher name) d.

(** Homes parallel to the instances, which are filed under their own names; the
    cached listings as they would be built now, and boundedly many. *)
Record registry_ok d : Prop := {
  homes_parallel kind name :
    length (homes_of d kind name) = length (default [] (functions d !! (kind, name)));
  filed_by_name kind name : Forall (λ f, fn_name f = name) (default [] (functions d !! (kind, name)));
  secondary_parallel : length (secondary d) = length (secondary_functions d);
  listings_fresh key l : function_listings d !! key = Some l → fresh_listing d key = Ok l;
  listings_bounded : (size (function_listings d) ≤ MAX_CACHED_FUNCTION_LISTINGS)%nat;
}.
End dispatcher.
