(* ===== verification/RegistryFacts.v ===== *)
(** Theorems on the function registry: what every reachable dispatcher keeps, what
    a schema-qualified call resolves to, that a function is advertised exactly
    where it can be bound, and that the listing cache cannot be observed. *)
From S2P Require Import Prelude Float64 Arrow ArrowModel SqlCompare Pushdown Ipc Arguments Overload AttachTicket.
From S2P Require Import Registry.

Open Scope Z_scope.

Section facts.
Context {F : Type} `{Functions F}.
Implicit Type d : Dispatcher F.

(** ** The invariant *)

Lemma push_lookup {A} (m : gmap (FnKind * string) (list A)) k x k' :
  default [] (push m k x !! k') = default [] (m !! k') ++ (if decide (k' = k) then [x] else []).
Proof.
  unfold push. case_decide as E; [subst; by rewrite lookup_insert_eq|].
  by rewrite lookup_insert_ne, app_nil_r.
Qed.

(** A listing does not look at the cache it is stored in. *)
Lemma listed_with_listings d m key kind : listed (with_listings d m) key kind = listed d key kind.
Proof. by destruct key as [[[c b] path] k]. Qed.

Lemma build_with_listings d m key kinds : build_kinds (with_listings d m) key kinds = build_kinds d key kinds.
Proof. induction kinds as [|kind kinds IH]; simpl; [done|]. by rewrite listed_with_listings, IH. Qed.

Lemma fresh_with_listings d m key : fresh_listing (with_listings d m) key = fresh_listing d key.
Proof. unfold fresh_listing, build_function_listing. by rewrite build_with_listings. Qed.

(** Dropping the cache re-establishes what the invariant says of it. *)
Lemma changed_ok d :
  (∀ kind name, length (homes_of d kind name) = length (default [] (functions d !! (kind, name)))) →
  (∀ kind name, Forall (λ f, fn_name f = name) (default [] (functions d !! (kind, name)))) →
  length (secondary d) = length (secondary_functions d) →
  registry_ok (function_listings_changed d).
Proof.
  intros Hp Hn Hs. split; simpl; [exact Hp|exact Hn|exact Hs|..].
  - intros key l. by rewrite lookup_empty.
  - rewrite map_size_empty. lia.
Qed.

Lemma register_scoped_ok d kind f scope : registry_ok d → registry_ok (register_scoped d kind f scope).
Proof.
  intros [Hp Hn Hs _ _]. apply changed_ok; simpl; [intros k n..|exact Hs].
  - unfold homes_of; simpl. rewrite !push_lookup, !length_app. fold (homes_of d k n). rewrite Hp.
    by case_decide.
  - rewrite push_lookup. apply Forall_app; split; [apply Hn|]. case_decide; [|done].
    simplify_eq. by constructor.
Qed.

(** An operation on homes that keeps their number keeps them parallel. *)
Lemma length_alter_homes (m : gmap (FnKind * string) (list FunctionScope)) (g : FunctionScope → FunctionScope) k k' :
  length (default [] (alter (λ hs : list FunctionScope, g <$> hs) k m !! k')) = length (default [] (m !! k')).
Proof.
  destruct (decide (k = k')) as [->|]; [rewrite lookup_alter_eq|by rewrite lookup_alter_ne].
  destruct (m !! k'); simpl; [by rewrite length_fmap|done].
Qed.

Lemma length_fmap_homes (m : gmap (FnKind * string) (list FunctionScope)) (g : FunctionScope → FunctionScope) k :
  length (default [] (fmap (M := gmap (FnKind * string)) (λ hs : list FunctionScope, g <$> hs) m !! k))
    = length (default [] (m !! k)).
Proof. rewrite lookup_fmap. destruct (m !! k); simpl; [by rewrite length_fmap|done]. Qed.

Lemma length_adopted (from to : FunctionScope) (names : list string) (kinds : list FnKind) (m : gmap (FnKind * string) (list FunctionScope)) (k : FnKind * string) :
  length (default [] (foldl (λ m n, foldl (λ m kind,
      alter (λ hs : list FunctionScope, adopt from to <$> hs) (kind, n) m) m kinds) m names !! k))
    = length (default [] (m !! k)).
Proof.
  revert m. induction names as [|n names IH]; intros m; simpl; [done|]. rewrite IH. clear IH.
  revert m. induction kinds as [|c kinds IH]; intros m; simpl; [done|]. by rewrite IH, length_alter_homes.
Qed.

Lemma set_catalog_ok d model : registry_ok d → registry_ok (set_catalog d model).
Proof.
  intros [Hp Hn Hs _ _]. apply changed_ok; simpl; [|exact Hn|exact Hs].
  intros k n. rewrite <- Hp. unfold homes_of; simpl. case_match; [apply length_fmap_homes|done].
Qed.

Lemma register_secondary_ok d model names : registry_ok d → registry_ok (register_secondary_catalog d model names).
Proof.
  intros [Hp Hn Hs _ _]. apply changed_ok; simpl; [|exact Hn|].
  - intros k n. rewrite <- Hp. unfold homes_of; simpl. apply (length_adopted _ _ _ [_; _; _; _; _]).
  - rewrite !length_app. simpl. lia.
Qed.

Lemma function_listing_ok d key : registry_ok d → registry_ok (function_listing d key).2.
Proof.
  intros Hd. unfold function_listing. destruct (_ !! key) eqn:?; [done|].
  destruct (fresh_listing d key) eqn:Hf; [|done].
  repeat case_match; try done. destruct Hd as [Hp Hn Hs Hl Hb].
  apply Nat.leb_gt in H1. split; simpl; [done..| |].
  - intros key' l'. rewrite fresh_with_listings, lookup_insert_Some.
    intros [[<- <-]|[_ Hk]]; [exact Hf|by apply Hl].
  - rewrite map_size_insert_None by done. lia.
Qed.

Lemma listing_items_ok d keys : registry_ok d → registry_ok (listing_items d keys).2.
Proof.
  revert d. induction keys as [|key keys IH]; intros d Hd; simpl; [done|].
  pose proof (function_listing_ok d key Hd) as Hd'. destruct (function_listing d key) as [[l|e] d']; [|done].
  specialize (IH d' Hd'). by destruct (listing_items d' keys) as [[its|e] d''].
Qed.

Lemma handle_contents_ok d attach path t : registry_ok d → registry_ok (handle_contents_functions d attach path t).2.
Proof.
  intros Hd. unfold handle_contents_functions.
  set (keys := function_listing_keys d attach path t). clearbody keys.
  destruct keys as [|key [|key' keys]]; [done| |].
  - pose proof (function_listing_ok d key Hd) as Hd'. by destruct (function_listing d key) as [[l|e] d'].
  - pose proof (listing_items_ok d (key :: key' :: keys) Hd) as Hd'.
    by destruct (listing_items d _) as [[l|e] d'].
Qed.

Lemma register_tio_scoped_ok d f scope d' :
  register_table_in_out_scoped d f scope = Some d' → registry_ok d → registry_ok d'.
Proof.
  unfold register_table_in_out_scoped. intros Hr Hd.
  repeat case_match; simplify_eq; by apply register_scoped_ok.
Qed.

Lemma registry_step_ok d d' : registry_step d d' → registry_ok d → registry_ok d'.
Proof.
  intros [] Hd.
  - by apply register_scoped_ok.
  - by apply register_scoped_ok.
  - by eapply register_tio_scoped_ok.
  - unfold register_table_in_out in *. case_match; [done|]. by eapply register_tio_scoped_ok.
  - unfold register_table_if_absent. case_match; [done|]. by apply register_scoped_ok.
  - destruct Hd as [Hp Hn Hs _ _]. by apply changed_ok.
  - by apply set_catalog_ok.
  - by apply register_secondary_ok.
  - by apply handle_contents_ok.
  - by apply listing_items_ok.
Qed.

Lemma new_dispatcher_ok name : registry_ok (new_dispatcher name).
Proof.
  split; intros; unfold homes_of in *; simpl in *; rewrite ?lookup_empty in *; try done.
  rewrite map_size_empty. lia.
Qed.

Lemma reachable_ok d : reachable d → registry_ok d.
Proof.
  intros [name Hr]. pose proof (new_dispatcher_ok name) as H0.
  induction Hr as [|d1 d2 d3 Hs _ IH]; [done|]. by apply IH, (registry_step_ok d1).
Qed.

(** ** Resolution *)

(** The instances of a name with their homes. *)
Definition instances d (kind : FnKind) (name : string) : list (F * FunctionScope) :=
  zip (default [] (functions d !! (kind, name))) (homes_of d kind name).

(** The instances declared in a schema, the specification of a qualified call. *)
Definition declared d (kind : FnKind) (name catalog : string) (path : list string) : list F :=
  (filter (λ p, matches p.2 catalog path = true) (instances d kind name)).*1.

Lemma filter_of_fmap {A B} (f : A → B) (P : B → Prop) `{∀ x, Decision (P x)} (l : list A) :
  filter P (f <$> l) = f <$> filter (λ x, P (f x)) l.
Proof. induction l as [|x l IH]; [done|]. csimpl. rewrite !filter_cons, IH. by case_decide. Qed.

Lemma omap_of_fmap {A B C} (f : A → B) (g : B → option C) (l : list A) :
  omap g (f <$> l) = omap (λ x, g (f x)) l.
Proof. induction l as [|x l IH]; [done|]. csimpl. by rewrite IH. Qed.

(** Selecting the positions of a list whose element satisfies [p] is filtering it. *)
Lemma select_positions {A B} (l : list A) (hs : list B) (p : B → bool) :
  length hs = length l →
  omap (λ k, l !! k) (filter (λ i, match hs !! i with Some h => p h | None => false end = true) (seq 0 (length l)))
    = (filter (λ x, p x.2 = true) (zip l hs)).*1.
Proof.
  revert hs. induction l as [|x l IH]; intros [|h hs] Hl; try done. injection Hl as Hl.
  change (seq 0 (length (x :: l))) with (0%nat :: seq 1 (length l)).
  rewrite <- fmap_S_seq. cbn [zip_with]. rewrite !filter_cons, filter_of_fmap. simpl.
  assert (E : omap (λ k, (x :: l) !! k) (S <$> filter (λ i, match hs !! i with Some h0 => p h0 | None => false end = true)
            (seq 0 (length l))) = (filter (λ x, p x.2 = true) (zip l hs)).*1).
  { rewrite omap_of_fmap. exact (IH hs Hl). }
  case_match; simpl; [f_equal|]; exact E.
Qed.

(** Only the pointwise values of the candidates matter to overload resolution. *)
Lemma best_of_ext (s s' : nat → list ArgSpec) (b b' : nat → bool) a input idxs best :
  (∀ i, s i = s' i) → (∀ i, b i = b' i) → best_of s b a input idxs best = best_of s' b' a input idxs best.
Proof.
  intros Hs Hb. revert best. induction idxs as [|i idxs IH]; intros best; simpl; [done|]. by rewrite Hs, Hb, IH.
Qed.

Lemma resolve_ext n (s s' : nat → list ArgSpec) (b b' : nat → bool) a input :
  (∀ i, s i = s' i) → (∀ i, b i = b' i) →
  resolve_overload_blended n s b a input = resolve_overload_blended n s' b' a input.
Proof. intros Hs Hb. unfold resolve_overload_blended. by rewrite (best_of_ext s s' b b'). Qed.

(** The scoring of the instances of a list, the specification of a call that is
    resolved by its arguments. *)
Definition resolve_among (blended : bool) (name : string) (l : list F) (a : Arguments.Arguments)
    (input : option Schema) : result F ResolveError :=
  let specs_of i := match l !! i with Some f => argument_specs f | None => [] end in
  let blended_of i := blended && match l !! i with Some f => input_from_args f | None => false end in
  match resolve_overload_blended (length l) specs_of blended_of a input ≫= λ i, l !! i with
  | Some f => Ok f
  | None => Err (NoMatchingOverload name)
  end.

Lemma select_lookup {A} (l : list A) (ks : list nat) i : Forall (λ k, (k < length l)%nat) ks →
  (ks !! i ≫= λ k, l !! k) = omap (λ k, l !! k) ks !! i ∧ length (omap (λ k, l !! k) ks) = length ks.
Proof.
  intros Hk. revert i. induction Hk as [|k ks Hk _ IH]; intros i; [done|].
  destruct (lookup_lt_is_Some_2 l k Hk) as [x Hx]. csimpl. rewrite Hx. simpl.
  split; [|f_equal; apply (IH 0%nat)]. destruct i as [|i]; [exact Hx|apply IH].
Qed.

Lemma matching_positions_lt (p : nat → bool) n :
  Forall (λ k, (k < n)%nat) (filter (λ i, p i = true) (seq 0 n)).
Proof. apply Forall_forall. intros k [_ Hk]%list_elem_of_filter. apply elem_of_seq in Hk. lia. Qed.

(** What a qualified call narrows the instances to. *)
Lemma scoped_indices_qualified d kind name fs c p :
  registry_ok d → functions d !! (kind, name) = Some fs →
  match scoped_indices d kind name (length fs) (mkCall c (Schema_ p)) with
  | Ok idxs => declared d kind name c p ≠ [] ∧ Forall (λ k, (k < length fs)%nat) idxs ∧
               omap (λ k, fs !! k) idxs = declared d kind name c p
  | Err e => e = NotInSchema name p c ∧ declared d kind name c p = []
  end.
Proof.
  intros [Hp _ _ _ _] Hf. specialize (Hp kind name). rewrite Hf in Hp. simpl in Hp.
  assert (Hsel := select_positions fs (homes_of d kind name) (λ h, matches h c p) Hp).
  assert (Hlt := matching_positions_lt (home_matches (homes_of d kind name) c p) (length fs)).
  unfold scoped_indices. simpl. unfold declared, instances. rewrite Hf. simpl. rewrite <- Hsel.
  unfold home_matches in *. set (ks := filter _ (seq 0 (length fs))) in *.
  destruct (decide (ks = [])) as [E|E].
  - rewrite E. done.
  - assert (∃ k ks', ks = k :: ks') as (k & ks' & Ek) by (destruct ks; [done|eauto]). rewrite Ek in *.
    split; [|done]. apply Forall_cons in Hlt as [Hk _]. destruct (lookup_lt_is_Some_2 fs k Hk) as [x Hx].
    csimpl. by rewrite Hx.
Qed.

(** A schema-qualified call reaches exactly the instances declared in that
    catalog and schema: it fails when there is none, and otherwise resolves among
    them alone, by the arguments (scalar, table and table-in-out) or to the first
    registered (buffering and aggregate). *)
Theorem qualified_resolution d kind name a input blended c p : reachable d →
  let reply (f : list F → result F ResolveError) :=
    match functions d !! (kind, name), declared d kind name c p with
    | None, _ => Err (UnknownFunction name)
    | Some _, [] => Err (NotInSchema name p c)
    | Some _, l => f l
    end in
  resolve_scored blended d kind name a input (mkCall c (Schema_ p)) =
    reply (λ l, resolve_among blended name l a input) ∧
  resolve_first d kind name (mkCall c (Schema_ p)) =
    reply (λ l, match l with f :: _ => Ok f | [] => Err (UnknownFunction name) end).
Proof.
  intros Hd%reachable_ok. unfold resolve_scored, resolve_first, candidates.
  destruct (functions d !! (kind, name)) as [fs|] eqn:Hf; [|done]. cbn -[scoped_indices declared].
  pose proof (scoped_indices_qualified d kind name fs c p Hd Hf) as Hs.
  destruct (scoped_indices _ _ _ _ _) as [idxs|e]; [|by destruct Hs as [-> ->]].
  destruct Hs as (Hne & Hlt & Hom). cbn -[declared].
  assert (Hc : ∀ i, (idxs !! i ≫= λ k, fs !! k) = declared d kind name c p !! i)
    by (intros i; rewrite <- Hom; by apply select_lookup).
  assert (Hl : length (declared d kind name c p) = length idxs)
    by (rewrite <- Hom; by apply (select_lookup fs idxs 0)).
  specialize (Hc 0%nat) as H0. rewrite <- head_lookup in H0.
  destruct (declared d kind name c p) as [|f l]; [done|]. split; [|by rewrite H0].
  unfold resolve_among. rewrite <- Hl.
  erewrite (resolve_ext (length (f :: l))) by (intros i; by rewrite Hc).
  destruct (resolve_overload_blended _ _ _ _ _); [|done]. simpl. by rewrite <- Hc.
Qed.

(** ** Listings *)

Lemma names_of_spec d kind n : n ∈ names_of d kind ↔ is_Some (functions d !! (kind, n)).
Proof.
  unfold names_of. rewrite list_elem_of_omap. split.
  - intros ([[k m] fs] & Hm & Hn). apply elem_of_map_to_list in Hm. case_decide; [|done]. simplify_eq. eauto.
  - intros [fs Hf]. exists (kind, n, fs). rewrite elem_of_map_to_list. by rewrite decide_True.
Qed.

(** The instances of a listing: those visible and declared in its schema. *)
Lemma listed_spec d c b path lk kind f :
  f ∈ listed d (c, b, path, lk) kind ↔
  ∃ n fs i, functions d !! (kind, n) = Some fs ∧ fs !! i = Some f ∧
    visible d c b n = true ∧ declared_in d kind n i (key_catalog d c) path = true.
Proof.
  unfold listed. rewrite list_elem_of_bind. setoid_rewrite merge_sort_Permutation.
  setoid_rewrite list_elem_of_filter. setoid_rewrite names_of_spec. setoid_rewrite list_elem_of_omap.
  setoid_rewrite elem_of_lookup_imap. split.
  - intros (n & ([i g] & (j & y & Ej & Hj) & Hi) & Hv & fs & Hf). simplify_eq.
    rewrite Hf in Hj. simpl in Hj. case_match; [|done]. simplify_eq. eauto 10.
  - intros (n & fs & i & Hf & Hi & Hv & Hdec). exists n. split; [|by rewrite Hf; eauto].
    exists (i, f). rewrite Hdec. split; [|done]. exists i, f. by rewrite Hf.
Qed.

(** The catalog of a listing's key is the catalog a call through the same attach
    resolves in. *)
Lemma key_catalog_call d attach : key_catalog d (secondary_index d attach) = call_catalog d attach.
Proof. done. Qed.

(** A function instance is advertised in a schema exactly when its name is
    visible there and it is among the candidates that a call of its kind, through
    the same attach and naming that schema, is resolved from. Which kind a bind
    looks in, and which of the candidates it takes, is [handle_bind]'s. *)
Theorem advertised_iff_candidate d attach path t key kind f is_copy legacy :
  reachable d → named_path (Some path) = Some path → key ∈ function_listing_keys d attach path t →
  f ∈ listed d key kind ↔
  visible d key.1.1.1 key.1.1.2 (fn_name f) = true ∧
  ∃ call fs idxs i,
    bind_scope d attach (Some path) (fn_name f) is_copy legacy = Ok call ∧
    candidates d kind (fn_name f) = Ok fs ∧
    scoped_indices d kind (fn_name f) (length fs) call = Ok idxs ∧ i ∈ idxs ∧ fs !! i = Some f.
Proof.
  intros Hd%reachable_ok Hpath Hkey. apply list_elem_of_fmap in Hkey as (lk & -> & _). cbn [fst snd].
  rewrite listed_spec, key_catalog_call. unfold bind_scope, for_bind, candidates. rewrite Hpath.
  set (c := call_catalog d attach). split.
  - intros (n & fs & i & Hf & Hi & Hv & Hdec).
    pose proof (filed_by_name d Hd kind n) as Hn. rewrite Hf in Hn. simpl in Hn.
    rewrite (Forall_lookup_1 _ _ _ _ Hn Hi). split; [done|]. rewrite Hf.
    pose proof (lookup_lt_Some _ _ _ Hi) as Hlt.
    assert (Hin : i ∈ filter (λ i, home_matches (homes_of d kind n) c path i = true) (seq 0 (length fs)))
      by (apply list_elem_of_filter; rewrite elem_of_seq; split; [exact Hdec|lia]).
    eexists _, fs, _, i. split_and!; [done..| |exact Hin|done]. unfold scoped_indices; simpl.
    destruct (filter _ _); [by apply not_elem_of_nil in Hin|done].
  - intros (Hv & call & fs & idxs & i & [= <-] & Hf & Hs & Hi & Hfi). destruct (functions d !! _) eqn:Hfs; [|done].
    simplify_eq. exists (fn_name f), fs, i. split_and!; [done..|]. unfold scoped_indices in Hs; simpl in Hs.
    case_match; [done|]. simplify_eq. rewrite <- H0 in Hi. by apply list_elem_of_filter in Hi as [Hi _].
Qed.

Lemma function_listing_fresh d key : registry_ok d →
  (function_listing d key).1 = fresh_listing d key ∧
  ∃ m, (function_listing d key).2 = with_listings d m.
Proof.
  assert (Hself : with_listings d (function_listings d) = d) by by destruct d.
  intros [_ _ _ Hl _]. unfold function_listing. destruct (_ !! key) as [l|] eqn:Hk; cbn [fst snd].
  - split; [by rewrite (Hl _ _ Hk)|]. by exists (function_listings d).
  - destruct (fresh_listing d key) as [l|e]; [|split; [done|]; by exists (function_listings d)].
    destruct (length (items l) =? 0)%nat; [split; [done|]; by exists (function_listings d)|].
    case_match; (split; [reflexivity|]); [by exists (function_listings d)|]. by eexists.
Qed.

(** The reply to a listing request without a cache: every listing built anew. *)
Fixpoint fresh_items d (keys : list FunctionListingKey) : result (list bytes) RpcError :=
  match keys with
  | [] => Ok []
  | key :: keys => let? l := fresh_listing d key in let? rest := fresh_items d keys in Ok (items l ++ rest)
  end.
Definition contents_uncached d attach path t : result bytes RpcError :=
  let? its := fresh_items d (function_listing_keys d attach path t) in to_result_batch its.

Lemma fresh_items_with_listings d m keys : fresh_items (with_listings d m) keys = fresh_items d keys.
Proof. induction keys as [|key keys IH]; simpl; [done|]. by rewrite fresh_with_listings, IH. Qed.

Lemma listing_items_fresh d keys : registry_ok d → (listing_items d keys).1 = fresh_items d keys.
Proof.
  revert d. induction keys as [|key keys IH]; intros d Hd; simpl; [done|].
  pose proof (function_listing_ok d key Hd) as Hd'.
  destruct (function_listing_fresh d key Hd) as [H1 [m H2]].
  destruct (function_listing d key) as [[l|e] d']; simpl in *; subst d'; rewrite <- H1; [|done]. simpl.
  specialize (IH _ Hd'). rewrite fresh_items_with_listings in IH. rewrite <- IH.
  by destruct (listing_items _ keys) as [[its|e] d''].
Qed.

(** The listing cache cannot be observed: whatever was registered, hidden,
    renamed and listed before, a listing request is answered as if every listing
    were built anew. *)
Theorem listing_cache_transparent d attach path t : reachable d →
  (handle_contents_functions d attach path t).1 = contents_uncached d attach path t ∧
  (function_items d attach path t).1 = fresh_items d (function_listing_keys d attach path t).
Proof.
  intros Hd%reachable_ok. split; [|by apply listing_items_fresh].
  unfold handle_contents_functions, contents_uncached.
  set (keys := function_listing_keys d attach path t). clearbody keys.
  assert (Hmany : (match listing_items d keys with (Err e, d) => (Err e, d) | (Ok its, d) => (to_result_batch its, d) end).1
    = (let? its := fresh_items d keys in to_result_batch its)).
  { rewrite <- listing_items_fresh by done. by destruct (listing_items d keys) as [[its|e] d']. }
  destruct keys as [|key [|key' keys]]; [done| |done]. clear Hmany.
  destruct (function_listing_fresh d key Hd) as [H1 _]. simpl. rewrite <- H1.
  destruct (function_listing d key) as [[l|e] d'] eqn:E; simpl; [|done]. simpl in H1. rewrite app_nil_r.
  unfold fresh_listing in H1. destruct (build_function_listing d key) as [infos|]; [|done]. simpl in H1.
  destruct (serialize_items infos) as [its|]; [|done]. simpl in H1.
  destruct (to_result_batch its) as [r|] eqn:Er; simpl in H1; by simplify_eq.
Qed.

(** Every sequence of registrations, catalog changes and listings keeps one
    home for each registered instance, files instances under their own names, and
    bounds the listing cache. *)
Theorem registry_invariant d : reachable d →
  (∀ kind name, length (homes_of d kind name) = length (default [] (functions d !! (kind, name))) ∧
                Forall (λ f, fn_name f = name) (default [] (functions d !! (kind, name)))) ∧
  length (secondary d) = length (secondary_functions d) ∧ (size (function_listings d) ≤ 1024)%nat.
Proof.
  intros [Hp Hn Hs _ Hb]%reachable_ok. split; [|by split]. intros kind name. split; [apply Hp|apply Hn].
Qed.

(** ** Renaming the primary catalog *)

Lemma eq_ignore_case_refl a : eq_ignore_ascii_case a a = true.
Proof. by apply bool_decide_eq_true. Qed.

Lemma eq_ignore_case_sym a b : eq_ignore_ascii_case a b = eq_ignore_ascii_case b a.
Proof. unfold eq_ignore_ascii_case. apply bool_decide_ext. split; congruence. Qed.

Lemma eq_ignore_case_cong a b c : eq_ignore_ascii_case a b = true → eq_ignore_ascii_case c a = eq_ignore_ascii_case c b.
Proof. unfold eq_ignore_ascii_case. intros E%bool_decide_eq_true. apply bool_decide_ext. by rewrite E. Qed.

(** Installing a catalog model that renames the primary moves exactly the
    primary's functions to the new name: an instance is found under the new name
    when it was under the old one or already under the new one, and every other
    catalog keeps its functions. *)
Theorem rename_keeps_reachable d model kind name i path : model ≠ "" →
  let old := primary_catalog_name d in
  primary_catalog_name (set_catalog d model) = model ∧
  declared_in (set_catalog d model) kind name i model path =
    declared_in d kind name i old path || declared_in d kind name i model path ∧
  (∀ c, eq_ignore_ascii_case old c = false → eq_ignore_ascii_case model c = false →
        declared_in (set_catalog d model) kind name i c path = declared_in d kind name i c path).
Proof.
  intros Hm. unfold primary_catalog_name at 2, set_catalog at 1. cbn [catalog_model catalog_name function_listings_changed].
  apply String.eqb_neq in Hm as Hm'. rewrite Hm'. split; [done|].
  unfold declared_in, home_matches, homes_of, set_catalog. cbn [scopes function_listings_changed]. rewrite Hm'.
  set (old := primary_catalog_name d). cbn [negb andb].
  destruct (eq_ignore_ascii_case model old) eqn:E; cbn [negb].
  - split; [|done]. destruct (default [] (scopes d !! (kind, name)) !! i) as [h|]; [|done].
    unfold matches. rewrite (eq_ignore_case_cong _ _ (scope_catalog h) E). by rewrite orb_diag.
  - rewrite lookup_fmap. destruct (scopes d !! (kind, name)) as [hs|]; [|done]. cbn.
    rewrite list_lookup_fmap. destruct (hs !! i) as [h|]; [|done]. cbn. unfold rebase, in_catalog.
    destruct (eq_ignore_ascii_case (scope_catalog h) old) eqn:Eh; unfold matches; cbn; rewrite ?Eh.
    + split.
      * rewrite eq_ignore_case_refl. by destruct (_ =? _)%nat, (forallb _ _), (eq_ignore_ascii_case (scope_catalog h) model).
      * intros c Ho Hc. rewrite Hc. rewrite eq_ignore_case_sym, <- (eq_ignore_case_cong _ _ c Eh), eq_ignore_case_sym in Ho.
        by rewrite Ho.
    + done.
Qed.

End facts.

(** * A concrete worker *)

(** Functions told apart by a tag, with integer arguments. *)
Record ex_fn := mkFn { ex_name : string; ex_tag : Z; ex_specs : list ArgSpec }.
#[global] Instance ex_functions : Functions ex_fn := {
  fn_name := ex_name;
  argument_specs := ex_specs;
  input_from_args _ := false;
  has_finish _ := false;
  resume_supported _ := false;
  max_workers _ := 4;
  input_rows_per_call _ := None;
  function_info _ f := Ok (mkInfo ["main"] [byte_of_Z (ex_tag f)]);
  serialize_info i := Ok (info_body i);
  to_result_batch its := Ok (mjoin its);
}.

Definition fn (name : string) (tag : Z) : ex_fn := mkFn name tag [].
Definition served : Dispatcher ex_fn :=
  let d := register (new_dispatcher "w") Scalar (fn "f" 1) in
  let d := register_scoped d Scalar (fn "f" 2) (mkScope "w" ["data"]) in
  let d := set_catalog d "Example" in
  (handle_contents_functions d None ["data"] "scalar").2.

Lemma served_reachable : reachable served.
Proof.
  exists "w". unfold served.
  eapply rtc_l; [by apply (step_register_default _ Scalar (fn "f" 1))|].
  eapply rtc_l; [by apply (step_register _ Scalar (fn "f" 2) (mkScope "w" ["data"]))|].
  eapply rtc_l; [apply (step_set_catalog _ "Example")|].
  apply rtc_once. apply step_contents.
Qed.

Lemma registry_invariant_witness :
  length (homes_of served Scalar "f") = 2%nat ∧
  (∀ kind name, length (homes_of served kind name) = length (default [] (functions served !! (kind, name))) ∧
                Forall (λ f, fn_name f = name) (default [] (functions served !! (kind, name)))).
Proof.
  split; [vm_compute; reflexivity|]. exact (proj1 (registry_invariant served served_reachable)).
Defined.

Lemma qualified_resolution_witness :
  resolve_first served Scalar "f" (mkCall "example" (Schema_ ["DATA"])) = Ok (fn "f" 2) ∧
  resolve_scored false served Scalar "f" (mkArguments [] ∅ None []) None (mkCall "example" (Schema_ ["DATA"]))
    = resolve_among false "f" [fn "f" 2] (mkArguments [] ∅ None []) None.
Proof.
  pose proof (qualified_resolution served Scalar "f" (mkArguments [] ∅ None []) None false "example" ["DATA"]
    served_reachable) as [H1 H2].
  split; [rewrite H2|rewrite H1]; vm_compute; reflexivity.
Defined.

Lemma advertised_iff_candidate_witness :
  fn "f" 2 ∈ listed served (None, false, ["data"], LScalar) Scalar ∧
  visible served None false "f" = true.
Proof.
  assert (fn "f" 2 ∈ listed served (None, false, ["data"], LScalar) Scalar) as Hin
    by (apply (list_elem_of_lookup_2 _ 0); vm_compute; reflexivity).
  split; [exact Hin|].
  apply (advertised_iff_candidate served None ["data"] "scalar" (None, false, ["data"], LScalar) Scalar (fn "f" 2)
    false false served_reachable); [vm_compute; reflexivity| |exact Hin].
  apply (list_elem_of_lookup_2 _ 0); vm_compute; reflexivity.
Defined.

Lemma listing_cache_transparent_witness :
  is_Some (function_listings served !! (None, false, ["data"], LScalar)) ∧
  (handle_contents_functions served None ["data"] "scalar").1 = Ok [x02] ∧
  (handle_contents_functions served None ["data"] "scalar").1 = contents_uncached served None ["data"] "scalar".
Proof.
  split; [exists (mkListing [[x02]] [x02]); vm_compute; reflexivity|].
  split; [vm_compute; reflexivity|]. exact (proj1 (listing_cache_transparent served None ["data"] "scalar" served_reachable)).
Defined.

Lemma rename_keeps_reachable_witness :
  declared_in (set_catalog (register (new_dispatcher "w") Scalar (fn "f" 1)) "Example") Scalar "f" 0 "Example" ["main"] = true.
Proof.
  rewrite (proj1 (proj2 (rename_keeps_reachable (register (new_dispatcher "w") Scalar (fn "f" 1)) "Example"
    Scalar "f" 0 ["main"] ltac:(done)))). vm_compute. reflexivity.
Defined.

(** ** Findings *)

(** Registering a secondary catalog that names a function moves an instance
    that was declared explicitly in the primary's default schema, which the code
    says it leaves alone: the instance is no longer reachable in the schema it was
    declared in. *)
Theorem secondary_adopts_explicit_home :
  let d := register_scoped (new_dispatcher "w") Scalar (fn "f" 1) (mkScope "w" ["main"]) in
  let d' := register_secondary_catalog d "other" ["f"] in
  resolve_first d Scalar "f" (mkCall "w" (Schema_ ["main"])) = Ok (fn "f" 1) ∧
  resolve_first d' Scalar "f" (mkCall "w" (Schema_ ["main"])) = Err (NotInSchema "f" ["main"] "w") ∧
  resolve_first d' Scalar "f" (mkCall "other" (Schema_ ["main"])) = Ok (fn "f" 1).
Proof. vm_compute. done. Qed.

(** An instance declared in the primary under a name that a secondary owns is
    bindable through the primary but never advertised by it. *)
Theorem primary_instance_unlisted :
  let d := register_secondary_catalog (register (new_dispatcher "w") Scalar (fn "f" 1)) "other" ["f"] in
  let d' := register_scoped d Scalar (fn "f" 2) (mkScope "w" ["main"]) in
  resolve_first d' Scalar "f" (mkCall "w" (Schema_ ["main"])) = Ok (fn "f" 2) ∧
  (function_items d' None ["main"] "scalar").1 = Ok [] ∧
  (function_items d' (Some (encode_secondary_opaque "other" [])) ["main"] "scalar").1 = Ok [[x01]].
Proof. vm_compute. done. Qed.

(** The ambiguity check compares the schemas' names joined with dots, so a
    call that names no schema reaches both the schema [a.b] and the schema [b]
    nested in [a] without being refused as ambiguous. *)
Theorem dotted_schemas_conflated :
  let d := register_scoped (new_dispatcher "w") Aggregate (fn "f" 1) (mkScope "w" ["a"; "b"]) in
  let d := register_scoped d Aggregate (fn "f" 2) (mkScope "w" ["a.b"]) in
  scoped_indices d Aggregate "f" 2 (mkCall "w" Bound) = Ok [0; 1]%nat ∧
  matches (mkScope "w" ["a"; "b"]) "w" ["a.b"] = false ∧
  resolve_aggregate d "f" (mkCall "w" Bound) = Ok (fn "f" 1).
Proof. vm_compute. done. Qed.
