(* ===== verification/Opaque.v ===== *)
(** Sealed attach and transaction values, [vgi/src/opaque.rs]: what the worker
    hands a client to hold, sealed for that client, and opens again wherever a
    request carries it, at any depth of nested request batches. *)
From S2P Require Import Prelude Codec Float64 Arrow ArrowModel SqlCompare Pushdown Ipc Aead SplitToken.

Open Scope Z_scope.

(** * Data *)

Definition ATTACH_ENVELOPE_VERSION : byte := x02.
Definition TRANSACTION_ENVELOPE_VERSION : byte := x02.
Definition ATTACH_AAD_PREFIX : bytes := as_bytes "vgi.attach_opaque_data.v1" ++ [x00].
Definition TRANSACTION_AAD_PREFIX : bytes := as_bytes "vgi.transaction_opaque_data.v1" ++ [x00].
Definition ATTACH_FIELD : string := "attach_opaque_data".
Definition TRANSACTION_FIELD : string := "transaction_opaque_data".
Definition NESTED_FIELDS : list string := ["request"; "bind_call"].

(** The uniform rejection; its status is always [INVALID_ARGUMENT] with kind
    [opaque_data_not_recognized]. *)
Definition opaque_data_rejected (field : string) : RpcError := ValueError (field +:+ " not recognized").

(** How opening ends early: an error reply, a panic, or nesting deeper than the
    model follows. *)
Inductive OpenError := Rpc (e : RpcError) | Panicked | TooDeep.

(** * Sealing *)

Definition attach_aad (auth : Auth) : bytes := ATTACH_AAD_PREFIX ++ identity_tail auth.
Definition transaction_aad (auth : Auth) (attach_envelope : bytes) : bytes :=
  TRANSACTION_AAD_PREFIX ++ identity_tail auth ++ [x00] ++ attach_envelope.

(** [BinaryArray]. *)
Abbreviation Binary := (Flat FBinary).
Abbreviation LargeBinary := (Flat FLargeBinary).
Abbreviation BinaryArray := (list (option bytes)).
Definition binary_cell (v : option value) : option bytes := as_bytes <$> as_str v.
Definition of_binary (l : BinaryArray) : array :=
  plain_array Binary ((λ o : option bytes, (VBytes ∘ string_of_bytes) <$> o) <$> l).

Definition is_binary_type (t : DataType) : bool :=
  match t with Flat (FBinary | FLargeBinary) => true | _ => false end.

(** [map_binary]: the values from row [row] on. *)
Fixpoint map_binary (f : nat → bytes → result bytes OpenError) (row : nat) (values : BinaryArray) :
    result BinaryArray OpenError :=
  match values with
  | [] => Ok []
  | o :: values =>
      let? x := match o with
                | None => Ok None
                | Some [] => Ok (Some [])
                | Some v => let? w := f row v in Ok (Some w)
                end in
      let? xs := map_binary f (S row) values in
      Ok (x :: xs)
  end.

Definition lift {A} (r : result A RpcError) : result A OpenError := map_err Rpc r.

Section opaque.
Context `{Arrow, IpcStream, Aead}.

(** The sealer's key is an argument; a nonce is drawn per sealed value. *)
Definition seal_attach (key nonce plaintext : bytes) (auth : Auth) : bytes :=
  seal_bytes nonce plaintext key (attach_aad auth) ATTACH_ENVELOPE_VERSION.
Definition open_attach (key envelope : bytes) (auth : Auth) : result bytes RpcError :=
  map_err (λ _, opaque_data_rejected ATTACH_FIELD)
    (open_bytes envelope key (attach_aad auth) ATTACH_ENVELOPE_VERSION).
Definition seal_transaction (key nonce plaintext : bytes) (auth : Auth) (attach_envelope : bytes) : bytes :=
  seal_bytes nonce plaintext key (transaction_aad auth attach_envelope) TRANSACTION_ENVELOPE_VERSION.
Definition open_transaction (key envelope : bytes) (auth : Auth) (attach_envelope : bytes) : result bytes RpcError :=
  map_err (λ _, opaque_data_rejected TRANSACTION_FIELD)
    (open_bytes envelope key (transaction_aad auth attach_envelope) TRANSACTION_ENVELOPE_VERSION).

Definition binary_column (batch : RecordBatch) (n : string) : result (option BinaryArray) RpcError :=
  match column_by_name batch n with
  | None => Ok None
  | Some column =>
      let field_error := opaque_data_rejected (if String.eqb n TRANSACTION_FIELD then TRANSACTION_FIELD else ATTACH_FIELD) in
      let downcast (a : array) := if decide (arr_type a = Binary) then Some (binary_cell <$> vals a) else None in
      match arr_type column with
      | Binary => Ok (downcast column)
      | LargeBinary =>
          match arrow_cast column Binary with Ok a => Ok (downcast a) | Err _ => Err field_error end
      | Null => Ok None
      | _ => if String.eqb n ATTACH_FIELD || String.eqb n TRANSACTION_FIELD then Err field_error else Ok None
      end
  end.

(** Decoded, transformed, and encoded again under the declared schema. *)
Definition rewrite_nested (f : RecordBatch → result RecordBatch OpenError) (nested : bytes) : result bytes OpenError :=
  let? declared := lift (read_schema nested) in
  let? batch := lift (read_batch nested) in
  let? out := f batch in
  lift (write_batch_with_schema out declared.1 declared.2).

(** * Opening a request *)

Definition touches (n : string) : bool :=
  String.eqb n ATTACH_FIELD || String.eqb n TRANSACTION_FIELD || bool_decide (n ∈ NESTED_FIELDS).

(** [.expect("present")]. *)
Definition expect {A} (o : option A) : result A OpenError :=
  match o with Some x => Ok x | None => Err Panicked end.

(** The sealed attach of the row of a transaction. *)
Definition row_attach (sealed_attach : option BinaryArray) (row : nat) : result bytes OpenError :=
  match sealed_attach ≫= λ a, mjoin (a !! row) with
  | Some attach => Ok attach
  | None => Err (Rpc (opaque_data_rejected TRANSACTION_FIELD))
  end.

(** The replacement of one column; [rec] opens a nested batch. *)
Definition open_column (rec : RecordBatch → result RecordBatch OpenError) (key : bytes) (auth : Auth)
    (batch : RecordBatch) (sealed_attach : option BinaryArray) (field : Field) (column : array) :
    result array OpenError :=
  let n := name field in
  if String.eqb n ATTACH_FIELD then
    let? values := expect sealed_attach in
    let? out := map_binary (λ _ sealed, lift (open_attach key sealed auth)) 0 values in
    Ok (of_binary out)
  else if String.eqb n TRANSACTION_FIELD then
    let? o := lift (binary_column batch TRANSACTION_FIELD) in
    let? values := expect o in
    let? out := map_binary (λ row sealed,
                  let? attach := row_attach sealed_attach row in
                  lift (open_transaction key sealed auth attach)) 0 values in
    Ok (of_binary out)
  else if bool_decide (n ∈ NESTED_FIELDS) && is_binary_type (arr_type column) then
    let? o := lift (binary_column batch n) in
    let? values := expect o in
    let? out := map_binary (λ _ nested, rewrite_nested rec nested) 0 values in
    Ok (of_binary out)
  else Ok column.

Fixpoint open_columns (f : Field → array → result array OpenError) (fields : Schema) (cols : list array) :
    result (list array) OpenError :=
  match fields, cols with
  | field :: fields, column :: cols =>
      let? c := f field column in let? cs := open_columns f fields cols in Ok (c :: cs)
  | _, _ => Ok []
  end.

(** [open_batch]; the fuel bounds the nesting the model follows. *)
Fixpoint open_batch (fuel : nat) (key : bytes) (auth : Auth) (batch : RecordBatch) : result RecordBatch OpenError :=
  match fuel with
  | O => Err TooDeep
  | S fuel =>
      if negb (existsb (λ f, touches (name f)) (schema batch)) then Ok batch
      else
        let? sealed_attach := lift (binary_column batch ATTACH_FIELD) in
        let? cols := open_columns (open_column (open_batch fuel key auth) key auth batch sealed_attach)
                       (schema batch) (columns batch) in
        lift (map_err (λ e, RuntimeError ("rebuild opened request: " +:+ e))
                (try_new (schema batch) (schema_metadata batch) cols))
  end.

(** * Sealing a result *)

Definition rebuild_sealed (e : string) : RpcError := RuntimeError ("rebuild sealed result: " +:+ e).

(** The attach a new transaction is bound to. *)
Definition request_attach (request : RecordBatch) : result bytes RpcError :=
  let? o := binary_column request ATTACH_FIELD in
  match o ≫= λ a, mjoin (a !! 0%nat) with
  | Some attach => Ok attach
  | None => Err (opaque_data_rejected ATTACH_FIELD)
  end.

(** The value of a result record sealed in place. *)
Definition seal_inner (nonce : nat → bytes) (key : bytes) (auth : Auth) (field : string) (attach : option bytes)
    (inner : RecordBatch) : result RecordBatch OpenError :=
  let? o := lift (binary_column inner field) in
  match o with
  | None => Ok inner
  | Some values =>
      let? sealed := map_binary (λ row plaintext,
          Ok (match attach with
              | None => seal_attach key (nonce row) plaintext auth
              | Some attach => seal_transaction key (nonce row) plaintext auth attach
              end)) 0 values in
      match find_field field (schema inner) with
      | None => Err Panicked
      | Some (index, _) =>
          lift (map_err rebuild_sealed
            (try_new (schema inner) (schema_metadata inner) (<[index := of_binary sealed]> (columns inner))))
      end
  end.

Definition seal_result (nonce : nat → nat → bytes) (key : bytes) (method : string) (request : RecordBatch)
    (result_ : option RecordBatch) (auth : Auth) : result (option RecordBatch) OpenError :=
  if negb (String.eqb method "catalog_attach" || String.eqb method "catalog_transaction_begin") then Ok result_
  else
  let field := if String.eqb method "catalog_attach" then ATTACH_FIELD else TRANSACTION_FIELD in
  match result_ with
  | None => Ok None
  | Some envelope =>
      let? attach := (if String.eqb field TRANSACTION_FIELD
                      then let? a := lift (request_attach request) in Ok (Some a) else Ok None) in
      let? o := lift (binary_column envelope "result") in
      match o with
      | None => Err (Rpc (RuntimeError "result envelope has no result column"))
      | Some outer =>
          let? sealed_outer := map_binary (λ row nested,
              rewrite_nested (seal_inner (nonce row) key auth field attach) nested) 0 outer in
          let? b := lift (map_err rebuild_sealed
                      (try_new (schema envelope) (schema_metadata envelope) [of_binary sealed_outer])) in
          Ok (Some b)
      end
  end.
End opaque.
