(* ===== verification/OpaqueFacts.v ===== *)
(** Theorems on sealed opaque values: a request opens exactly when every value it
    carries was sealed for its caller, what seals are bound to, that minted values
    reopen, and how a bad value is refused. *)
From S2P Require Import Prelude Codec Float64 Arrow ArrowModel SqlCompare Pushdown Ipc Aead SplitToken Opaque.

Open Scope Z_scope.

(** * The specification of an opened request *)

(** [ws] are the values [vs] from row [row] on, null and empty values as they are
    and every other related by [P]. *)
Inductive mapped (P : nat → bytes → bytes → Prop) : nat → BinaryArray → BinaryArray → Prop :=
| mapped_nil row : mapped P row [] []
| mapped_null row vs ws : mapped P (S row) vs ws → mapped P row (None :: vs) (None :: ws)
| mapped_empty row vs ws : mapped P (S row) vs ws → mapped P row (Some [] :: vs) (Some [] :: ws)
| mapped_value row v w vs ws :
    v ≠ [] → P row v w → mapped P (S row) vs ws → mapped P row (Some v :: vs) (Some w :: ws).

Section spec.
Context `{Arrow, IpcStream, Aead}.
Context (key : bytes) (auth : Auth).

(** The sealed attach in a row of a request. *)
Definition attach_at (b : RecordBatch) (row : nat) (attach : bytes) : Prop :=
  ∃ vs, binary_column b ATTACH_FIELD = Ok (Some vs) ∧ vs !! row = Some (Some attach).

(** A column that holds the values of [n], mapped by [P]. *)
Definition column_mapped (b : RecordBatch) (n : string) (P : nat → bytes → bytes → Prop) (c' : array) : Prop :=
  ∃ vs ws, binary_column b n = Ok (Some vs) ∧ mapped P 0 vs ws ∧ c' = of_binary ws.

(** A column of the opened request [c'] and the one it was sent as. *)
Definition opened_column (R : RecordBatch → RecordBatch → Prop) (b : RecordBatch) (f : Field) (c c' : array) : Prop :=
  if String.eqb (name f) ATTACH_FIELD then
    column_mapped b ATTACH_FIELD (λ _ v w, ∃ nonce, v = seal_attach key nonce w auth) c'
  else if String.eqb (name f) TRANSACTION_FIELD then
    column_mapped b TRANSACTION_FIELD (λ row v w,
      ∃ nonce attach, attach_at b row attach ∧ v = seal_transaction key nonce w auth attach) c'
  else if bool_decide (name f ∈ NESTED_FIELDS) && is_binary_type (arr_type c) then
    column_mapped b (name f) (λ _ v w, ∃ s md inner inner',
      read_schema v = Ok (s, md) ∧ read_batch v = Ok inner ∧ R inner inner' ∧
      write_batch_with_schema inner' s md = Ok w) c'
  else c' = c.

(** The request [b'] the dispatcher sees for [b], nested at most [n] deep. *)
Fixpoint opened (n : nat) (b b' : RecordBatch) : Prop :=
  match n with
  | O => False
  | S n =>
      if existsb (λ f, touches (name f)) (schema b) then
        (∃ sealed, binary_column b ATTACH_FIELD = Ok sealed) ∧
        ∃ cols, Forall2 (λ p c', opened_column (opened n) b p.1 p.2 c') (zip (schema b) (columns b)) cols ∧
                try_new (schema b) (schema_metadata b) cols = Ok b'
      else b' = b
  end.
End spec.

Section facts.
Context `{Arrow, IpcStream, AeadLaws}.

Lemma lift_Ok {A} (r : result A RpcError) x : lift r = Ok x ↔ r = Ok x.
Proof. destruct r; simpl; split; congruence. Qed.

Lemma map_binary_spec f P row vs ws : (∀ row v w, f row v = Ok w ↔ P row v w) →
  map_binary f row vs = Ok ws ↔ mapped P row vs ws.
Proof.
  intros Hf. revert row ws. induction vs as [|o vs IH]; intros row ws; cbn [map_binary].
  - split; [intros [= <-]; constructor|by inversion 1].
  - destruct o as [[|b v]|].
    + split.
      * destruct (map_binary f (S row) vs) eqn:E; [|done]. intros [= <-]. by constructor; apply IH.
      * inversion 1 as [|?? ? Hm|?? ? Hm|]; simplify_eq. apply IH in Hm. by rewrite Hm.
    + split.
      * destruct (f row (b :: v)) as [w|] eqn:Ef; [|done]. cbn.
        destruct (map_binary f (S row) vs) eqn:E; [|done]. intros [= <-]. apply Hf in Ef.
        constructor; [done..|by apply IH].
      * inversion 1 as [|?? ? Hm|?? ? Hm|????? _ Hp Hm]; simplify_eq. apply Hf in Hp. apply IH in Hm. by rewrite Hp, Hm.
    + split.
      * destruct (map_binary f (S row) vs) eqn:E; [|done]. intros [= <-]. by constructor; apply IH.
      * inversion 1 as [|?? ? Hm|?? ? Hm|]; simplify_eq. apply IH in Hm. by rewrite Hm.
Qed.

Lemma open_columns_spec f P fs cs cs' : (∀ a c c', f a c = Ok c' ↔ P a c c') →
  open_columns f fs cs = Ok cs' ↔ Forall2 (λ p c', P p.1 p.2 c') (zip fs cs) cs'.
Proof.
  intros Hf. revert cs cs'. induction fs as [|a fs IH]; intros [|c cs] cs'; cbn [open_columns zip_with];
    try (split; [intros [= <-]; constructor|by inversion 1]).
  split.
  - destruct (f a c) as [c'|] eqn:E; [|done]. cbn. destruct (open_columns f fs cs) eqn:E'; [|done].
    intros [= <-]. constructor; [by apply Hf|by apply IH].
  - inversion 1 as [|???? Hp Hr]; simplify_eq. apply Hf in Hp. apply IH in Hr. cbn in Hp. by rewrite Hp, Hr.
Qed.

Lemma open_attach_spec key auth v w : lift (open_attach key v auth) = Ok w ↔ ∃ nonce, v = seal_attach key nonce w auth.
Proof.
  rewrite lift_Ok. unfold open_attach, seal_attach. split.
  - intros E%map_err_Ok. by apply aead_auth in E.
  - intros [nonce ->]. by rewrite aead_open.
Qed.

Lemma open_transaction_spec key auth attach v w :
  lift (open_transaction key v auth attach) = Ok w ↔ ∃ nonce, v = seal_transaction key nonce w auth attach.
Proof.
  rewrite lift_Ok. unfold open_transaction, seal_transaction. split.
  - intros E%map_err_Ok. by apply aead_auth in E.
  - intros [nonce ->]. by rewrite aead_open.
Qed.

Lemma row_attach_spec b sealed row attach : binary_column b ATTACH_FIELD = Ok sealed →
  row_attach sealed row = Ok attach ↔ attach_at b row attach.
Proof.
  intros Hs. unfold row_attach, attach_at. rewrite Hs. split.
  - destruct sealed as [vs|]; [|done]. simpl. destruct (vs !! row) as [[a|]|] eqn:E; simpl; [|done..].
    intros [= ->]. eauto.
  - intros (vs & [= ->] & Hv). simpl. by rewrite Hv.
Qed.

Lemma rewrite_nested_spec f R v w : (∀ b b', f b = Ok b' ↔ R b b') →
  rewrite_nested f v = Ok w ↔ ∃ s md inner inner',
    read_schema v = Ok (s, md) ∧ read_batch v = Ok inner ∧ R inner inner' ∧ write_batch_with_schema inner' s md = Ok w.
Proof.
  intros Hf. unfold rewrite_nested. split.
  - destruct (read_schema v) as [[s md]|]; [|done]. destruct (read_batch v) as [b|]; [|done]. simpl.
    destruct (f b) as [b'|] eqn:E; [|done]. rewrite lift_Ok. intros Hw. apply Hf in E. eauto 10.
  - intros (s & md & b & b' & -> & -> & Hr & Hw). simpl. apply Hf in Hr. rewrite Hr. by apply lift_Ok.
Qed.

(** A column read, checked present, mapped and rebuilt. *)
Lemma mapped_column_spec b n f P c' : (∀ row v w, f row v = Ok w ↔ P row v w) →
  (let? o := lift (binary_column b n) in let? values := expect o in
   let? out := map_binary f 0 values in Ok (of_binary out)) = Ok c' ↔ column_mapped b n P c'.
Proof.
  intros Hf. unfold column_mapped. split.
  - destruct (binary_column b n) as [[vs|]|]; [|done..]. simpl. destruct (map_binary f 0 vs) as [ws|] eqn:E; [|done].
    intros [= <-]. apply (map_binary_spec _ _ _ _ _ Hf) in E. eauto.
  - intros (vs & ws & -> & Hm & ->). simpl. apply (map_binary_spec _ _ _ _ _ Hf) in Hm. by rewrite Hm.
Qed.

Lemma open_column_spec rec R key auth b sealed f c c' :
  (∀ b b', rec b = Ok b' ↔ R b b') → binary_column b ATTACH_FIELD = Ok sealed →
  open_column rec key auth b sealed f c = Ok c' ↔ opened_column key auth R b f c c'.
Proof.
  intros Hr Hs. unfold open_column, opened_column. destruct (String.eqb (name f) ATTACH_FIELD).
  - rewrite <- (mapped_column_spec b ATTACH_FIELD (λ _ sealed, lift (open_attach key sealed auth)))
      by (intros; apply open_attach_spec). by rewrite Hs.
  - destruct (String.eqb (name f) TRANSACTION_FIELD).
    + apply mapped_column_spec. intros row v w. split.
      * destruct (row_attach sealed row) as [attach|] eqn:E; [|done]. intros Ho%open_transaction_spec.
        destruct Ho as [nonce ->]. apply (row_attach_spec b _ _ _ Hs) in E. eauto.
      * intros (nonce & attach & Ha & ->). apply (row_attach_spec b _ _ _ Hs) in Ha. rewrite Ha.
        apply open_transaction_spec. eauto.
    + destruct (_ && _).
      * apply mapped_column_spec. intros row v w. by apply rewrite_nested_spec.
      * split; [by intros [= ->]|by intros ->].
Qed.

(** C31: A request opens to [b'] exactly when: the attach and transaction columns
    read as [Binary]; each non-empty attach value, at whatever depth, was
    sealed under the worker's key for the caller, and each transaction for the
    caller and the attach beside it; each request nested in a binary column
    decodes, opens likewise and encodes again; and Arrow accepts the batch rebuilt of the sent schema and
    the opened columns. Then [b'] is that batch: the plaintexts in place of the
    sealed values, and everything else as it was sent. A [LargeBinary] or
    null-typed attach column never opens ([large_binary_attach_refused],
    [null_typed_attach_panics]). *)
Theorem open_batch_exact n key auth b b' : open_batch n key auth b = Ok b' ↔ opened key auth n b b'.
Proof.
  revert b b'. induction n as [|n IH]; intros b b'; [done|]. cbn [open_batch opened].
  destruct (existsb _ (schema b)); cbn [negb]; [|split; [by intros [= ->]|by intros ->]].
  destruct (binary_column b ATTACH_FIELD) as [sealed|] eqn:Hs; cbn [lift map_err].
  2: { split; [done|]. by intros [[? ?] _]. }
  assert (Hcols := λ cols, open_columns_spec (open_column (open_batch n key auth) key auth b sealed)
    (opened_column key auth (opened key auth n) b) (schema b) (columns b) cols
    (λ f c c', open_column_spec _ _ key auth b sealed f c c' IH Hs)).
  split.
  - destruct (open_columns _ _ _) as [cols|] eqn:E; [|done]. rewrite lift_Ok. intros Ht%map_err_Ok.
    split; [eauto|]. exists cols. split; [|exact Ht]. by apply Hcols.
  - intros [_ (cols & Hc & Ht)]. apply Hcols in Hc. rewrite Hc, Ht. done.
Qed.

(** ** What a sealed value is bound to *)

Definition identity_ok (auth : Auth) : Prop :=
  match auth with Some (domain, principal) => x00 ∉ as_bytes domain ∧ x00 ∉ as_bytes principal | None => True end.

Lemma identity_ok_domain auth : identity_ok auth → domain_ok auth.
Proof. destruct auth as [[d p]|]; [by intros [? _]|done]. Qed.

Lemma identity_tail_delimits a a' (e e' : bytes) : identity_ok a → identity_ok a' →
  identity_tail a ++ [x00] ++ e = identity_tail a' ++ [x00] ++ e' → a = a' ∧ e = e'.
Proof.
  destruct a as [[d p]|], a' as [[d' p']|]; intros Ha Hb E; try done; cbn -[as_bytes] in E; simplify_eq.
  - rewrite <- !app_assoc in E. destruct Ha as [Hd Hp], Hb as [Hd' Hp'].
    apply (nul_split _ _ (as_bytes p ++ [x00] ++ e) (as_bytes p' ++ [x00] ++ e')) in E as [Ed E]; [|done..].
    apply nul_split in E as [Ep ->]; [|done..]. apply as_bytes_inj in Ed as ->. by apply as_bytes_inj in Ep as ->.
  - done.
Qed.

(** A sealed attach determines the normalized key, the plaintext and the caller it was
    sealed for, a sealed transaction also the attach it belongs to, and neither can
    stand in for the other. *)
Theorem opaque_values_bound key nonce p auth e key' nonce' p' auth' e' : identity_ok auth → identity_ok auth' →
  (seal_attach key nonce p auth = seal_attach key' nonce' p' auth' →
   normalize_key key = normalize_key key' ∧ p = p' ∧ auth = auth') ∧
  (seal_transaction key nonce p auth e = seal_transaction key' nonce' p' auth' e' →
   normalize_key key = normalize_key key' ∧ p = p' ∧ auth = auth' ∧ e = e') ∧
  seal_attach key nonce p auth ≠ seal_transaction key' nonce' p' auth' e'.
Proof.
  intros Ha Ha'. split_and!.
  - intros (-> & Ek & Ead & _)%aead_bind. apply app_inv_head in Ead. split_and!; [done..|].
    by apply identity_tail_inj; [apply identity_ok_domain..|].
  - intros (-> & Ek & Ead & _)%aead_bind. apply app_inv_head in Ead.
    by destruct (identity_tail_delimits _ _ _ _ Ha Ha' Ead) as [-> ->].
  - intros (_ & _ & Ead & _)%aead_bind. discriminate Ead.
Qed.

(** ** Values the worker mints *)

Lemma binary_of_binary b n ws : column_by_name b n = Some (of_binary ws) → binary_column b n = Ok (Some ws).
Proof.
  intros E. unfold binary_column. rewrite E. cbn. do 2 f_equal. rewrite <- list_fmap_compose.
  rewrite <- (list_fmap_id ws) at 2. apply list_fmap_ext. intros i [x|] _; cbn; [|done].
  by rewrite as_bytes_of_bytes.
Qed.

Lemma try_new_Ok s md cols b : try_new s md cols = Ok b →
  b = mkRecordBatch s md cols (num_rows b) ∧ length s = length cols ∧ arr_type <$> cols = data_type <$> s.
Proof.
  unfold try_new. destruct (length s =? length cols)%nat eqn:El; [|done]. apply Nat.eqb_eq in El. simpl.
  destruct cols as [|c cols]; [done|]. destruct (existsb _ (c :: cols)); [done|].
  destruct (find _ _) as [[? ?]|]; [done|]. destruct (existsb _ (zip s _)) eqn:Et; [done|]. intros [= <-].
  split_and!; [done..|]. revert El Et. generalize (c :: cols) as l. clear. induction s as [|f s IH]; intros [|a l] El Et; try done.
  simpl in Et. apply orb_false_iff in Et as [Ea Et]. apply negb_false_iff, bool_decide_eq_true in Ea.
  csimpl. f_equal; [done|]. apply IH; [by injection El|done].
Qed.

Lemma column_read_as b n md : column_by_name (read_as (schema b) md b) n = column_by_name b n.
Proof.
  unfold column_by_name, find_field, read_as. cbn [schema columns]. rewrite list_find_fmap.
  assert (list_find ((λ f, name f = n) ∘ relax) (schema b) = list_find (λ f, name f = n) (schema b)) as ->.
  { apply list_find_ext. by intros []. }
  by destruct (list_find _ (schema b)) as [[i f]|].
Qed.

(** The field of a result that is sealed, and its seal. *)
Definition seal_value (key nonce p : bytes) (auth : Auth) (attach : option bytes) : bytes :=
  match attach with None => seal_attach key nonce p auth | Some a => seal_transaction key nonce p auth a end.

Lemma seal_inner_value nonce key auth field attach inner out p :
  seal_inner nonce key auth field attach inner = Ok out → p ≠ [] →
  binary_column inner field = Ok (Some [Some p]) →
  schema out = schema inner ∧ arr_type <$> columns out = data_type <$> schema inner ∧
  column_by_name out field = Some (of_binary [Some (seal_value key (nonce 0%nat) p auth attach)]).
Proof.
  intros Hs Hp Hb. unfold seal_inner in Hs. rewrite Hb in Hs. cbn [lift map_err] in Hs.
  destruct p as [|c p]; [done|]. cbn [map_binary] in Hs.
  unfold binary_column, column_by_name in Hb. destruct (find_field field (schema inner)) as [[i f]|] eqn:Ef; [|done].
  cbn in Hb. destruct (columns inner !! i) as [col|] eqn:Ec; [|done]. clear Hb.
  apply lift_Ok, map_err_Ok, try_new_Ok in Hs as (-> & _ & Ht). cbn [schema columns].
  split_and!; [done|exact Ht|].
  unfold column_by_name. cbn [schema columns]. rewrite Ef. cbn [mbind option_bind]. rewrite list_lookup_insert_eq by by eapply lookup_lt_Some.
  by destruct attach.
Qed.

Context `{!IpcLaws}.

(** A record a handler wrote, with its value sealed by [seal_result], as the client
    reads it. *)
Lemma sealed_record nonce key auth field attach record bs bs' p :
  write_batch record = Ok bs → wf_batch record → p ≠ [] →
  binary_column record field = Ok (Some [Some p]) →
  rewrite_nested (seal_inner nonce key auth field attach) bs = Ok bs' →
  ∃ out, read_batch bs' = Ok out ∧
         binary_column out field = Ok (Some [Some (seal_value key (nonce 0%nat) p auth attach)]).
Proof.
  intros Hw Hwf Hp Hb Hr. destruct (read_written _ _ _ _ Hw (wf_batch_types _ Hwf)) as (_ & Hread & Hschema).
  unfold rewrite_nested in Hr. rewrite Hread, Hschema in Hr. cbn [lift map_err] in Hr.
  destruct (seal_inner _ _ _ _ _ _) as [out|] eqn:Hs; [|done]. apply lift_Ok in Hr. cbn [fst snd] in Hr.
  apply (seal_inner_value _ _ _ _ _ _ _ p) in Hs as (Hsch & Ht & Hc); [|done|].
  2: { unfold binary_column in *. by rewrite column_read_as. }
  assert (Ht' : arr_type <$> columns out = data_type <$> schema record).
  { rewrite Ht. cbn. rewrite <- list_fmap_compose. apply list_fmap_ext. by intros ? []. }
  destruct (read_written _ _ _ _ Hr Ht') as (_ & Hread' & _). eexists. split; [exact Hread'|].
  apply binary_of_binary. rewrite <- Hc. unfold column_by_name. by rewrite Hsch.
Qed.

(** The attach a worker mints reaches the client sealed for it, and a request
    that carries it back opens to the plaintext; so does a transaction, beside the
    attach it was begun under. *)
Theorem minted_values_reopen nonce key auth method request envelope envelope' record bs p attach :
  write_batch record = Ok bs → wf_batch record → p ≠ [] →
  binary_column envelope "result" = Ok (Some [Some bs]) →
  (method = "catalog_attach" ∧ attach = None ∧ binary_column record ATTACH_FIELD = Ok (Some [Some p]) ∨
   ∃ a, method = "catalog_transaction_begin" ∧ attach = Some a ∧ request_attach request = Ok a ∧
        binary_column record TRANSACTION_FIELD = Ok (Some [Some p])) →
  seal_result nonce key method request (Some envelope) auth = Ok (Some envelope') →
  ∃ bs' out sealed, binary_column envelope' "result" = Ok (Some [Some bs']) ∧ read_batch bs' = Ok out ∧
    sealed = seal_value key (nonce 0%nat 0%nat) p auth attach ∧
    match attach with
    | None => binary_column out ATTACH_FIELD = Ok (Some [Some sealed]) ∧ open_attach key sealed auth = Ok p
    | Some a => binary_column out TRANSACTION_FIELD = Ok (Some [Some sealed]) ∧
                open_transaction key sealed auth a = Ok p
    end.
Proof.
  intros Hw Hwf Hp He Hm Hs.
  set (field := match attach with None => ATTACH_FIELD | Some _ => TRANSACTION_FIELD end).
  assert (Hb : binary_column record field = Ok (Some [Some p])) by (by destruct Hm as [(_ & -> & ?)|(a & _ & -> & _ & ?)]).
  assert (Hs' : (let? so := map_binary (λ row nested, rewrite_nested (seal_inner (nonce row) key auth field attach) nested) 0
                   [Some bs] in
                 let? b := lift (map_err rebuild_sealed (try_new (schema envelope) (schema_metadata envelope) [of_binary so])) in
                 Ok (Some b)) = Ok (Some envelope')).
  { rewrite <- Hs. unfold seal_result. rewrite He. destruct Hm as [(-> & -> & _)|(a & -> & -> & Hq & _)]; cbn -[map_binary]; [done|].
    by rewrite Hq. }
  clear Hs. cbn [map_binary] in Hs'.
  destruct (read_written _ _ _ _ Hw (wf_batch_types _ Hwf)) as (Hne & _). destruct bs as [|c bs]; [done|].
  destruct (rewrite_nested _ _) as [bs'|] eqn:Hr; [|done].
  destruct (sealed_record _ _ _ _ _ _ _ _ p Hw Hwf Hp Hb Hr) as (out & Ho & Hv).
  destruct (try_new _ _ _) as [b|] eqn:Hn; [|done]. cbn in Hs'. injection Hs' as <-.
  apply try_new_Ok in Hn as (-> & Hl & _).
  exists bs', out, (seal_value key (nonce 0%nat 0%nat) p auth attach). split_and!; [|done|done|].
  - apply binary_of_binary. unfold column_by_name. cbn [schema columns]. unfold binary_column, column_by_name in He.
    destruct (find_field "result" (schema envelope)) as [[i f]|] eqn:Ef; [|done]. cbn [mbind option_bind].
    apply list_find_Some in Ef as [Ei _]. apply lookup_lt_Some in Ei. cbn in Hl. by destruct i; [|lia].
  - subst field. destruct attach as [a|]; (split; [exact Hv|]); 
      unfold seal_value, open_attach, open_transaction, seal_attach, seal_transaction; by rewrite aead_open.
Qed.
End facts.

(** ** Findings *)

(** A request with an attach column alone. *)
Definition flat_request (t : DataType) (c : array) : RecordBatch :=
  mkRecordBatch [mkField ATTACH_FIELD t true []] ∅ [c] (len c).

(** An attach column of Arrow's null type, which reads as no value, panics
    the worker whatever the caller and the key. *)
Theorem null_typed_attach_panics `{Arrow, IpcStream, Aead} n key auth vs :
  open_batch (S n) key auth (flat_request Null (mkArray Null vs (replicate (length vs) true))) = Err Panicked.
Proof. reflexivity. Qed.

(** An attach column of 64-bit offsets is documented to be cast down, but the
    rebuilt request never fits its schema: no value in it is accepted, not even a
    properly sealed one. *)
Theorem large_binary_attach_refused `{Arrow, IpcStream, Aead} n key auth c b :
  arr_type c = LargeBinary → open_batch (S n) key auth (flat_request LargeBinary c) ≠ Ok b.
Proof.
  intros Hc. cbn [open_batch flat_request schema columns schema_metadata].
  replace (existsb (λ f, touches (name f)) _) with true by reflexivity. cbn [negb].
  unfold binary_column. replace (column_by_name _ ATTACH_FIELD) with (Some c) by reflexivity.
  rewrite Hc. cbn [lift map_err]. destruct (arrow_cast c Binary) as [a|]; [|done]. cbn [map_err].
  cbn [open_columns]. unfold open_column. replace (String.eqb _ ATTACH_FIELD) with true by reflexivity.
  destruct (if decide (arr_type a = Binary) then _ else _) as [vs|]; [|done].
  unfold lift at 1, expect. cbn [map_err]. destruct (map_binary (λ (_ : nat) sealed, lift (open_attach key sealed auth)) 0 vs) as [ws|]; [|done].
  intros (_ & _ & E)%lift_Ok%map_err_Ok%try_new_Ok. discriminate E.
Qed.

(** * A concrete worker and client *)

Definition alice : Auth := Some ("bearer", "alice").
Definition minted_record (p : bytes) : RecordBatch := flat_request Binary (of_binary [Some p]).
Definition nonces (i j : nat) : bytes := [].
Definition sealed_ex : bytes := seal_attach [x09] [] [x61] alice.

(** Two records and their encodings. *)
Definition opaque_stream : IpcStream :=
  let stream b := mkStream (schema b) (schema_metadata b) [b] in
  table_stream [([x01], stream (minted_record [x61])); ([x02], stream (minted_record sealed_ex))].
#[local] Existing Instance opaque_stream.
Lemma opaque_stream_laws : @IpcLaws opaque_stream.
Proof. apply table_stream_laws; vm_compute; repeat constructor; set_solver. Qed.

Definition envelope_of (bs : bytes) : RecordBatch :=
  mkRecordBatch [mkField "result" Binary false []] ∅ [of_binary [Some bs]] 1.

Lemma minted_values_reopen_witness :
  seal_result nonces [x09] "catalog_attach" (envelope_of []) (Some (envelope_of [x01])) alice
    = Ok (Some (envelope_of [x02])) ∧
  ∃ bs' out sealed, binary_column (envelope_of [x02]) "result" = Ok (Some [Some bs']) ∧ read_batch bs' = Ok out ∧
    sealed = seal_value [x09] [] [x61] alice None ∧
    binary_column out ATTACH_FIELD = Ok (Some [Some sealed]) ∧ open_attach [x09] sealed alice = Ok [x61].
Proof.
  assert (seal_result nonces [x09] "catalog_attach" (envelope_of []) (Some (envelope_of [x01])) alice
    = Ok (Some (envelope_of [x02]))) as E by (vm_compute; reflexivity).
  split; [exact E|].
  apply (@minted_values_reopen _ opaque_stream _ _ opaque_stream_laws nonces [x09] alice "catalog_attach" (envelope_of [])
    (envelope_of [x01]) (envelope_of [x02]) (minted_record [x61]) [x01] [x61] None).
  - vm_compute. reflexivity.
  - repeat constructor.
  - discriminate.
  - vm_compute. reflexivity.
  - left. split; [reflexivity|]. split; [reflexivity|]. vm_compute. reflexivity.
  - exact E.
Defined.

Lemma opaque_values_bound_witness :
  x00 ∉ as_bytes "alice" ∧
  (seal_attach [x09] [] [x61] alice = seal_attach [x09] [] [x61] None → alice = None).
Proof.
  assert (x00 ∉ as_bytes "alice") as Ha by (vm_compute; set_solver).
  assert (x00 ∉ as_bytes "bearer") as Hb by (vm_compute; set_solver).
  split; [exact Ha|]. intros E.
  destruct (opaque_values_bound [x09] [] [x61] alice [] [x09] [] [x61] None []) as [H _]; [by split|done|].
  apply H in E. apply E.
Defined.

Lemma open_batch_exact_witness :
  open_batch 1 [x09] alice (minted_record sealed_ex) = Ok (minted_record [x61]) ∧
  opened [x09] alice 1 (minted_record sealed_ex) (minted_record [x61]).
Proof.
  assert (open_batch 1 [x09] alice (minted_record sealed_ex) = Ok (minted_record [x61])) as E
    by (vm_compute; reflexivity).
  split; [exact E|]. apply (open_batch_exact 1 [x09] alice (minted_record sealed_ex) (minted_record [x61])). exact E.
Defined.
