(* ===== verification/Location.v ===== *)
(** Worker locations, [vgi-client/src/location.rs]: the [LOCATION] string parsed
    into a transport and its address, the tokenizer of command lines, the label
    and the cache fingerprint of a location. *)
From S2P Require Import Prelude Codec SqlCompare.

Open Scope Z_scope.

(** * Data *)

Inductive VgiLocation :=
| Subprocess (argv : list string)
| Http (url : string)
| Httpi (url : string)
| Iroh (url : string)
| Unix (path : string)
| Tcp (host : string) (port : Z)
| Launch (argv : list string).
#[global] Instance VgiLocation_eq_dec : EqDecision VgiLocation.
Proof. solve_decision. Defined.

Definition location_error {A} (msg : string) : result A RpcError := Err (ValueError msg).

(** * [str::trim] *)

(** The UTF-8 encodings of the characters with the White_Space property. *)
Definition white_space : list bytes :=
  [[x09]; [x0a]; [x0b]; [x0c]; [x0d]; [x20]; [xc2; x85]; [xc2; xa0]; [xe1; x9a; x80];
   [xe2; x80; x80]; [xe2; x80; x81]; [xe2; x80; x82]; [xe2; x80; x83]; [xe2; x80; x84]; [xe2; x80; x85];
   [xe2; x80; x86]; [xe2; x80; x87]; [xe2; x80; x88]; [xe2; x80; x89]; [xe2; x80; x8a];
   [xe2; x80; xa8]; [xe2; x80; xa9]; [xe2; x80; xaf]; [xe2; x81; x9f]; [xe3; x80; x80]].

Fixpoint drop_prefix (p l : bytes) : option bytes :=
  match p, l with
  | [], l => Some l
  | a :: p, b :: l => if decide (a = b) then drop_prefix p l else None
  | _ :: _, [] => None
  end.

(** Strips leading occurrences of the given byte strings, all of them non-empty. *)
Fixpoint strip_leading (fuel : nat) (ws : list bytes) (l : bytes) : bytes :=
  match fuel with
  | O => l
  | S fuel =>
      match omap (λ w, drop_prefix w l) ws with
      | rest :: _ => strip_leading fuel ws rest
      | [] => l
      end
  end.
Definition trim_start (l : bytes) : bytes := strip_leading (length l) white_space l.
Definition trim_end (l : bytes) : bytes := rev (strip_leading (length l) ((@rev byte) <$> white_space) (rev l)).
Definition trim (s : string) : string := string_of_bytes (trim_end (trim_start (as_bytes s))).

(** * Command lines *)

(** The quoting state and what has been read so far.  The characters the
    tokenizer looks at are ASCII, and it copies the others, so it is written over
    the bytes of the payload. *)
Inductive State := Default | InDouble | InSingle.
#[global] Instance State_eq_dec : EqDecision State.
Proof. solve_decision. Defined.

Record Tokens := mkTokens { tk_out : list string; tk_token : bytes; tk_has : bool }.
Definition push_byte (t : Tokens) (c : byte) : Tokens := mkTokens (tk_out t) (tk_token t ++ [c]) true.
Definition start_token (t : Tokens) : Tokens := mkTokens (tk_out t) (tk_token t) true.
Definition end_token (t : Tokens) : Tokens :=
  if tk_has t then mkTokens (tk_out t ++ [string_of_bytes (tk_token t)]) [] false else t.

Definition is_blank (c : byte) : bool := bool_decide (c ∈ [x20; x09; x0a]).
Definition DQUOTE : byte := x22.
Definition SQUOTE : byte := x27.
Definition BACKSLASH : byte := x5c.
Definition double_escapable (c : byte) : bool := bool_decide (c ∈ [DQUOTE; BACKSLASH; x24; x60; x0a]).

(** The loop; [windows] is [cfg!(windows)]. *)
Fixpoint tokenize (windows : bool) (st : State) (t : Tokens) (l : bytes) : result Tokens RpcError :=
  match l with
  | [] => if decide (st = Default) then Ok t else location_error "unterminated quote in LOCATION argv"
  | c :: l =>
      match st with
      | Default =>
          if is_blank c then tokenize windows Default (end_token t) l
          else if decide (c = DQUOTE) then tokenize windows InDouble (start_token t) l
          else if decide (c = SQUOTE) then tokenize windows InSingle (start_token t) l
          else if bool_decide (c = BACKSLASH) && negb windows then
            match l with
            | [] => location_error "trailing backslash in LOCATION argv"
            | d :: l => tokenize windows Default (push_byte t d) l
            end
          else tokenize windows Default (push_byte t c) l
      | InDouble =>
          if decide (c = DQUOTE) then tokenize windows Default t l
          else if bool_decide (c = BACKSLASH) && negb windows then
            match l with
            | [] => tokenize windows InDouble (push_byte t c) l
            | d :: l' =>
                if double_escapable d then tokenize windows InDouble (push_byte t d) l'
                else tokenize windows InDouble (push_byte t BACKSLASH) l
            end
          else tokenize windows InDouble (push_byte t c) l
      | InSingle =>
          if decide (c = SQUOTE) then tokenize windows Default t l
          else tokenize windows InSingle (push_byte t c) l
      end
  end.

Definition parse_launch_argv (windows : bool) (payload : string) : result (list string) RpcError :=
  let? t := tokenize windows Default (mkTokens [] [] false) (as_bytes payload) in
  match tk_out (end_token t) with
  | [] => location_error "LOCATION has an empty argv"
  | out => Ok out
  end.

(** * Parsing a location *)

Definition starts_with_ (s p : string) : bool := bool_decide (is_Some (strip_prefix p s)).

(** [rsplit_once(':')]: around the last occurrence of [c]. *)
Fixpoint rsplit_once (c : ascii) (s : string) : option (string * string) :=
  match s with
  | EmptyString => None
  | String d s =>
      match rsplit_once c s with
      | Some (h, t) => Some (String d h, t)
      | None => if Ascii.eqb d c then Some (EmptyString, s) else None
      end
  end.

Definition parse_hostport (hostport : string) : result VgiLocation RpcError :=
  match rsplit_once ":" hostport with
  | None => location_error "tcp:// LOCATION needs host:port"
  | Some (host, port) =>
      match parse_unsigned 65535 port with
      | None => location_error "tcp:// LOCATION has a bad port"
      | Some p => if String.eqb host "" then location_error "tcp:// LOCATION has no host" else Ok (Tcp host p)
      end
  end.

Definition resolvers : list string := ["oci://"; "docker://"; "github://"; "github-auto://"; "worker:"].

Definition parse_location (windows : bool) (location : string) : result VgiLocation RpcError :=
  let s := trim location in
  if String.eqb s "" then location_error "LOCATION is empty"
  else match strip_prefix "launch:" s with
  | Some rest => let? argv := parse_launch_argv windows rest in Ok (Launch argv)
  | None =>
  if starts_with_ s "http://" || starts_with_ s "https://" then Ok (Http s)
  else if starts_with_ s "httpi://" then Ok (Httpi s)
  else if starts_with_ s "iroh://" then Ok (Iroh s)
  else match strip_prefix "unix://" s with
  | Some path => if String.eqb path "" then location_error "unix:// LOCATION has no path" else Ok (Unix path)
  | None =>
  match strip_prefix "tcp://" s with
  | Some hostport => parse_hostport hostport
  | None =>
  match find (starts_with_ s) resolvers with
  | Some scheme => location_error (scheme +:+ " LOCATIONs are not supported by this client")
  | None => let? argv := parse_launch_argv windows s in Ok (Subprocess argv)
  end end end end.

(** * Labels and fingerprints *)

Definition label (loc : VgiLocation) : string :=
  match loc with
  | Subprocess argv => default "worker" (head argv)
  | Http url | Httpi url | Iroh url => url
  | Unix p => "unix://" +:+ p
  | Tcp host port => "tcp://" +:+ host +:+ ":" +:+ Z_to_string port
  | Launch argv => "launch:" +:+ default "" (head argv)
  end.

(** What is fed to the digest: every field with its length before it. *)
Definition fingerprint_field (b : bytes) : bytes := enc_bytes b.
Definition fingerprint_argv (argv : list string) : bytes :=
  fingerprint_field (le_bytes 8 (Z.of_nat (length argv))) ++ (argv ≫= λ a, fingerprint_field (as_bytes a)).

Definition fingerprint_body (loc : VgiLocation) : bytes :=
  match loc with
  | Subprocess argv => fingerprint_field (as_bytes "subprocess") ++ fingerprint_argv argv
  | Http url => fingerprint_field (as_bytes "http") ++ fingerprint_field (as_bytes url)
  | Httpi url => fingerprint_field (as_bytes "httpi") ++ fingerprint_field (as_bytes url)
  | Iroh url => fingerprint_field (as_bytes "iroh") ++ fingerprint_field (as_bytes url)
  | Unix path => fingerprint_field (as_bytes "unix") ++ fingerprint_field (as_bytes path)
  | Tcp host port => fingerprint_field (as_bytes "tcp") ++ fingerprint_field (as_bytes host) ++
                     fingerprint_field (le_bytes 2 port)
  | Launch argv => fingerprint_field (as_bytes "launch") ++ fingerprint_argv argv
  end.
Definition location_preimage (loc : VgiLocation) : bytes :=
  fingerprint_field (as_bytes "vgi-location-cache-fingerprint-v1") ++ fingerprint_body loc.

Definition hex_digit (z : Z) : ascii := Ascii.ascii_of_N (Z.to_N (if z <? 10 then 48 + z else 87 + z)).
Definition hex_byte (b : byte) : string :=
  String (hex_digit (Z_of_byte b / 16)) (String (hex_digit (Z_of_byte b mod 16)) "").
Definition cache_fingerprint (sha256 : bytes → bytes) (loc : VgiLocation) : string :=
  foldr (λ b s, hex_byte b +:+ s) "" (sha256 (location_preimage loc)).

(** * Theorems *)

(** ** Quoting *)

(** A command line that names exactly the given arguments. *)
Definition quote_arg (a : string) : bytes :=
  [SQUOTE] ++ (as_bytes a ≫= λ c, if decide (c = SQUOTE) then [SQUOTE; BACKSLASH; SQUOTE; SQUOTE] else [c]) ++ [SQUOTE].
Fixpoint quote_argv (argv : list string) : bytes :=
  match argv with
  | [] => []
  | a :: argv => quote_arg a ++ [x20] ++ quote_argv argv
  end.

Lemma tokenize_quoted out tok (a rest : bytes) :
  tokenize false InSingle (mkTokens out tok true)
    ((a ≫= λ c, if decide (c = SQUOTE) then [SQUOTE; BACKSLASH; SQUOTE; SQUOTE] else [c]) ++ SQUOTE :: rest)
  = tokenize false Default (mkTokens out (tok ++ a) true) rest.
Proof.
  revert tok. induction a as [|c a IH]; intros tok; [by rewrite app_nil_r|].
  cbn [mbind list_bind]. destruct (decide (c = SQUOTE)) as [->|Hc].
  - change (tokenize false InSingle (mkTokens out (tok ++ [SQUOTE]) true)
      ((a ≫= λ c, if decide (c = SQUOTE) then [SQUOTE; BACKSLASH; SQUOTE; SQUOTE] else [c]) ++ SQUOTE :: rest)
      = tokenize false Default (mkTokens out (tok ++ SQUOTE :: a) true) rest).
    by rewrite IH, <- app_assoc.
  - cbn [app tokenize]. rewrite decide_False by done. unfold push_byte. cbn [tk_out tk_token].
    by rewrite IH, <- app_assoc.
Qed.

Lemma tokenize_argv out argv :
  tokenize false Default (mkTokens out [] false) (quote_argv argv) = Ok (mkTokens (out ++ argv) [] false).
Proof.
  revert out. induction argv as [|a argv IH]; intros out; cbn [quote_argv]; [by rewrite app_nil_r|].
  unfold quote_arg. rewrite <- !app_assoc. cbn [app].
  change (tokenize false Default ?t (SQUOTE :: ?l)) with (tokenize false InSingle (start_token t) l).
  unfold start_token. cbn [tk_out tk_token]. rewrite tokenize_quoted. cbn [app].
  change (tokenize false Default ?t (x20 :: ?l)) with (tokenize false Default (end_token t) l).
  unfold end_token. cbn [tk_has tk_out tk_token]. by rewrite string_of_as_bytes, IH, <- app_assoc.
Qed.

(** Every non-empty argument vector can be written as a command line, whatever
    bytes its arguments hold, and the tokenizer reads it back exactly. *)
Theorem argv_roundtrip argv : argv ≠ [] → parse_launch_argv false (string_of_bytes (quote_argv argv)) = Ok argv.
Proof.
  intros Hne. unfold parse_launch_argv. rewrite as_bytes_of_bytes, tokenize_argv. by destruct argv.
Qed.

(** ** Trimming *)

Definition no_leading (ws : list bytes) (l : bytes) : Prop := omap (λ w, drop_prefix w l) ws = [].

Lemma drop_prefix_app w l : drop_prefix w (w ++ l) = Some l.
Proof. induction w as [|b w IH]; [done|]. cbn. by rewrite decide_True. Qed.

Lemma drop_prefix_Some w l r : drop_prefix w l = Some r ↔ l = w ++ r.
Proof.
  split; [|by intros ->; apply drop_prefix_app]. revert l. induction w as [|b w IH]; intros [|c l]; cbn; try congruence.
  case_decide; [subst|done]. intros E. by rewrite (IH l E).
Qed.

Lemma no_leading_spec ws l : no_leading ws l ↔ ∀ w r, w ∈ ws → l ≠ w ++ r.
Proof.
  unfold no_leading. split.
  - intros E w r Hw ->. assert (r ∈ omap (λ w', drop_prefix w' (w ++ r)) ws) as Hin
      by (apply list_elem_of_omap; exists w; by rewrite drop_prefix_app).
    rewrite E in Hin. by apply not_elem_of_nil in Hin.
  - intros Hn. destruct (omap _ ws) as [|r rs] eqn:E; [done|].
    assert (r ∈ omap (λ w, drop_prefix w l) ws) as Hin by (rewrite E; left).
    apply list_elem_of_omap in Hin as (w & Hw & Hd). apply drop_prefix_Some in Hd. by eapply Hn in Hd.
Qed.

Lemma strip_leading_none fuel ws l : no_leading ws l → strip_leading fuel ws l = l.
Proof. destruct fuel; [done|]. cbn. unfold no_leading. by intros ->. Qed.

(** Stripping ends with nothing left to strip, on a suffix of the input. *)
Lemma strip_leading_spec fuel ws l : Forall (λ w, w ≠ []) ws → (length l ≤ fuel)%nat →
  no_leading ws (strip_leading fuel ws l) ∧ ∃ p, l = p ++ strip_leading fuel ws l.
Proof.
  intros Hws. revert l. induction fuel as [|fuel IH]; intros l Hl; cbn [strip_leading].
  - assert (l = []) as -> by (by destruct l; [|cbn in Hl; lia]). split; [|by exists []].
    apply no_leading_spec. intros w r Hw. rewrite Forall_forall in Hws. destruct w; [by apply Hws in Hw|done].
  - destruct (omap _ ws) as [|r rs] eqn:E; [split; [exact E|by exists []]|].
    assert (r ∈ omap (λ w, drop_prefix w l) ws) as Hin by (rewrite E; left).
    apply list_elem_of_omap in Hin as (w & Hw & Hd). apply drop_prefix_Some in Hd as ->.
    rewrite length_app in Hl. rewrite Forall_forall in Hws. specialize (Hws w Hw).
    assert (length w ≠ 0%nat) by (by destruct w). destruct (IH r) as (Hn & p & Hp); [lia|].
    split; [exact Hn|]. exists (w ++ p). rewrite <- app_assoc. by f_equal.
Qed.

Lemma white_space_nonempty : Forall (λ w, w ≠ []) white_space.
Proof. by repeat constructor. Qed.
Lemma white_space_rev_nonempty : Forall (λ w, w ≠ []) ((@rev byte) <$> white_space).
Proof. by repeat constructor. Qed.

Lemma trim_fixed l : no_leading white_space l → no_leading ((@rev byte) <$> white_space) (rev l) →
  trim_end (trim_start l) = l.
Proof.
  intros Hs He. unfold trim_end, trim_start. rewrite (strip_leading_none _ _ l Hs), (strip_leading_none _ _ _ He).
  apply rev_involutive.
Qed.

Lemma trim_idemp s : trim (trim s) = trim s.
Proof.
  unfold trim. rewrite as_bytes_of_bytes. f_equal. set (l := trim_start (as_bytes s)).
  destruct (strip_leading_spec (length (as_bytes s)) white_space (as_bytes s) white_space_nonempty ltac:(lia)) as [Hl _].
  destruct (strip_leading_spec (length l) ((@rev byte) <$> white_space) (rev l) white_space_rev_nonempty) as (Hr & p & Hp).
  { rewrite length_rev. lia. }
  apply trim_fixed.
  - apply no_leading_spec. intros w r Hw E. fold (trim_start (as_bytes s)) in Hl. fold l in Hl.
    rewrite no_leading_spec in Hl. apply (Hl w (r ++ rev p) Hw). apply (f_equal (@rev byte)) in Hp.
    rewrite rev_involutive, rev_app_distr in Hp. unfold trim_end in E. rewrite E, <- app_assoc in Hp. exact Hp.
  - unfold trim_end. by rewrite rev_involutive.
Qed.

(** ** Labels *)

Lemma parse_trim windows s : parse_location windows (trim s) = parse_location windows s.
Proof. unfold parse_location. by rewrite trim_idemp. Qed.

Definition all_digits (s : string) : Prop := Forall (λ b, b ∈ [x30; x31; x32; x33; x34; x35; x36; x37; x38; x39]) (as_bytes s).

Lemma digits_val_digits s acc v : digits_val acc s = Some v → all_digits s.
Proof.
  unfold all_digits. revert acc. induction s as [|c s IH]; intros acc; cbn; [constructor|].
  destruct (digit_of c) as [d|] eqn:Ed; [|done]. intros Hv. constructor; [|by eapply IH].
  clear -Ed. destruct c as [[] [] [] [] [] [] [] []]; try discriminate Ed; vm_compute; set_solver.
Qed.

Lemma Z_to_string_digits z : 0 ≤ z → all_digits (Z_to_string z) ∧ Z_to_string z ≠ "".
Proof.
  intros Hz. unfold Z_to_string. rewrite (proj2 (Z.ltb_ge _ _)) by done.
  split; [by eapply digits_val_digits, digits_val_nonneg|].
  pose proof (parse_digits_dec z Hz) as Hp. intros E. by rewrite E in Hp.
Qed.

Lemma rsplit_digits s : all_digits s → rsplit_once ":" s = None.
Proof.
  induction s as [|c s IH]; [done|]. unfold all_digits in *. cbn [as_bytes String.list_byte_of_string rsplit_once].
  intros [Hc Hs]%Forall_cons. rewrite IH by exact Hs. destruct (Ascii.eqb_spec c ":") as [->|]; [|done].
  exfalso. revert Hc. vm_compute. intros Hc. repeat (apply elem_of_cons in Hc as [Hc|Hc]; [discriminate|]).
  by apply not_elem_of_nil in Hc.
Qed.

Lemma rsplit_last h t : rsplit_once ":" t = None → rsplit_once ":" (h +:+ String ":" t) = Some (h, t).
Proof.
  intros Ht. induction h as [|c h IH].
  - change ("" +:+ String ":" t) with (String ":" t). cbn [rsplit_once]. by rewrite Ht.
  - change (String c h +:+ String ":" t) with (String c (h +:+ String ":" t)). cbn [rsplit_once]. by rewrite IH.
Qed.

(** The label of an address ends in a digit, which is not white space. *)
Lemma trim_tcp_label host port : 0 ≤ port → trim (label (Tcp host port)) = label (Tcp host port).
Proof.
  intros Hp. destruct (Z_to_string_digits port Hp) as [Hd Hne]. cbn [label]. unfold trim.
  rewrite trim_fixed; [apply string_of_as_bytes| |].
  - reflexivity.
  - rewrite !as_bytes_app, !rev_app_distr.
    destruct (exists_last (l := as_bytes (Z_to_string port))) as (ds & d & E).
    { intros E. apply Hne. by apply as_bytes_inj. }
    unfold all_digits in Hd. rewrite E in *. rewrite rev_app_distr. apply Forall_app in Hd as [_ Hd].
    apply Forall_cons in Hd as [Hd _]. cbn [rev app]. clear -Hd.
    repeat (apply elem_of_cons in Hd as [->|Hd]; [reflexivity|]). by apply not_elem_of_nil in Hd.
Qed.

Definition is_address (loc : VgiLocation) : Prop :=
  match loc with Subprocess _ | Launch _ => False | _ => True end.

Lemma parse_hostport_Ok s loc : parse_hostport s = Ok loc →
  ∃ host port, loc = Tcp host port ∧ host ≠ "" ∧ 0 ≤ port ≤ 65535.
Proof.
  unfold parse_hostport. destruct (rsplit_once ":" s) as [[h t]|]; [|done].
  destruct (parse_unsigned 65535 t) as [p|] eqn:Ep; [|done].
  destruct (String.eqb_spec h ""); [done|]. intros [= <-]. exists h, p. split_and!; try done.
  - unfold parse_unsigned, in_range in Ep. repeat case_match; simplify_eq; lia.
  - unfold parse_unsigned, in_range in Ep. repeat case_match; simplify_eq; lia.
Qed.

Lemma parse_tcp_label windows host port : host ≠ "" → 0 ≤ port ≤ 65535 →
  parse_location windows (label (Tcp host port)) = Ok (Tcp host port).
Proof.
  intros Hh Hp. unfold parse_location. rewrite trim_tcp_label by lia.
  change (label (Tcp host port)) with ("tcp://" +:+ (host +:+ String ":" (Z_to_string port))).
  assert (Hhp : parse_hostport (host +:+ String ":" (Z_to_string port)) = Ok (Tcp host port)).
  { unfold parse_hostport. rewrite rsplit_last by (apply rsplit_digits, Z_to_string_digits; lia).
    rewrite parse_unsigned_to_string by lia. by destruct (String.eqb_spec host ""). }
  revert Hhp. generalize (host +:+ String ":" (Z_to_string port)). intros hp Hhp. exact Hhp.
Qed.

(** The label of a parsed network address parses back to the same address. *)
Theorem address_label_roundtrip windows s loc : parse_location windows s = Ok loc → is_address loc →
  parse_location windows (label loc) = Ok loc.
Proof.
  intros Hp Ha. rewrite <- parse_trim in Hp. assert (Ht := trim_idemp s).
  destruct (decide (label loc = trim s)) as [->|Hl]; [done|].
  assert (∃ host port, loc = Tcp host port ∧ host ≠ "" ∧ 0 ≤ port ≤ 65535) as (host & port & -> & Hh & Hb);
    [|by apply parse_tcp_label].
  unfold parse_location in Hp. rewrite Ht in Hp. revert Hp Hl. generalize (trim s). clear -Ha. intros t.
  destruct (String.eqb t ""); [done|].
  destruct (strip_prefix "launch:" t); [by destruct (parse_launch_argv _ _); intros [= <-]|].
  do 3 (case_match; [by intros [= <-]|]).
  destruct (strip_prefix "unix://" t) as [p|] eqn:Ep.
  { case_match; [done|]. intros [= <-]. by apply strip_prefix_Some in Ep as ->. }
  destruct (strip_prefix "tcp://" t); [intros Hp _; by eapply parse_hostport_Ok|].
  case_match; [done|]. by destruct (parse_launch_argv _ _); intros [= <-].
Qed.

(** ** Fingerprints *)

Definition fits (s : string) : Prop := fits_u64 (as_bytes s).
(** Strings shorter than 2^64 bytes, and a port that is one. *)
Definition location_ok (loc : VgiLocation) : Prop :=
  match loc with
  | Subprocess argv | Launch argv => fits_u64 argv ∧ Forall fits argv
  | Http s | Httpi s | Iroh s | Unix s => fits s
  | Tcp host port => fits host ∧ 0 ≤ port < 65536
  end.

Lemma field_inj a b r s : fits_u64 a → fits_u64 b →
  fingerprint_field a ++ r = fingerprint_field b ++ s → a = b ∧ r = s.
Proof. intros. by apply delimiting_bytes. Qed.

Lemma field_alone a b : fits_u64 a → fits_u64 b → fingerprint_field a = fingerprint_field b → a = b.
Proof. intros Ha Hb E. by apply (delimiting_inj _ _ _ _ delimiting_bytes). Qed.

Lemma argv_inj l l' : fits_u64 l → fits_u64 l' → Forall fits l → Forall fits l' →
  fingerprint_argv l = fingerprint_argv l' → l = l'.
Proof.
  intros Hl Hl' Hf Hf' E. unfold fingerprint_argv in E.
  apply field_inj in E as [En E]; [|unfold fits_u64; rewrite length_le_bytes; lia..].
  assert (Hlen : length l = length l').
  { unfold fits_u64 in *. assert (Z.of_nat (length l) = Z.of_nat (length l')); [|lia].
    apply (delimiting_inj _ _ _ _ (delimiting_unsigned 8)); [lia..|done]. }
  clear Hl Hl' En. revert l' Hlen Hf' E. induction Hf as [|a l Ha _ IH]; intros [|b l'] Hlen Hf' E; try done.
  apply Forall_cons in Hf' as [Hb Hf']. cbn [mbind list_bind] in E.
  apply field_inj in E as [Ea E]; [|done..]. apply as_bytes_inj in Ea as ->. f_equal. apply IH; [by injection Hlen|done..].
Qed.

(** The digest of a location is taken over bytes that determine the location:
    two locations share a cache fingerprint only through a collision of the
    digest. *)
Theorem location_fingerprint_injective l l' : location_ok l → location_ok l' →
  location_preimage l = location_preimage l' → l = l'.
Proof.
  intros Hl Hl' E. unfold location_preimage in E. apply app_inv_head in E.
  assert (Htag : ∀ a b r s, (length a ≤ 10)%nat → (length b ≤ 10)%nat →
    fingerprint_field a ++ r = fingerprint_field b ++ s → a = b ∧ r = s).
  { intros a b r s Ha Hb. apply field_inj; unfold fits_u64; lia. }
  destruct l, l'; cbn [fingerprint_body location_ok] in *; apply Htag in E as [Et E]; try discriminate Et; try (cbn; lia).
  - f_equal. destruct Hl, Hl'. by apply argv_inj.
  - f_equal. by apply as_bytes_inj, field_alone.
  - f_equal. by apply as_bytes_inj, field_alone.
  - f_equal. by apply as_bytes_inj, field_alone.
  - f_equal. by apply as_bytes_inj, field_alone.
  - destruct Hl as [Hh Hp], Hl' as [Hh' Hp']. apply field_inj in E as [Eh E]; [|done..].
    apply as_bytes_inj in Eh as ->. f_equal. apply field_alone in E; [|unfold fits_u64; rewrite length_le_bytes; lia..].
    apply (delimiting_inj _ _ _ _ (delimiting_unsigned 2)); [lia..|done].
  - f_equal. destruct Hl, Hl'. by apply argv_inj.
Qed.

(** * Witnesses *)

Lemma argv_roundtrip_witness :
  parse_launch_argv false (string_of_bytes (quote_argv ["my worker"; "it's"; ""])) = Ok ["my worker"; "it's"; ""].
Proof. apply (argv_roundtrip ["my worker"; "it's"; ""]). discriminate. Defined.

Lemma address_label_roundtrip_witness :
  parse_location false " tcp://[::1]:0080 " = Ok (Tcp "[::1]" 80) ∧
  parse_location false (label (Tcp "[::1]" 80)) = Ok (Tcp "[::1]" 80).
Proof.
  assert (parse_location false " tcp://[::1]:0080 " = Ok (Tcp "[::1]" 80)) as E by (vm_compute; reflexivity).
  split; [exact E|]. exact (address_label_roundtrip false " tcp://[::1]:0080 " (Tcp "[::1]" 80) E I).
Defined.

Lemma location_fingerprint_injective_witness :
  location_preimage (Tcp "h" 1) = location_preimage (Tcp "h" 1) ∧
  (location_preimage (Launch ["w"]) = location_preimage (Subprocess ["w"]) → Launch ["w"] = Subprocess ["w"]).
Proof.
  split; [reflexivity|]. apply (location_fingerprint_injective (Launch ["w"]) (Subprocess ["w"]));
    (split; [unfold fits_u64; cbn; lia|]); (constructor; [unfold fits, fits_u64; cbn; lia|constructor]).
Defined.
