(* ===== verification/Pool.v ===== *)
(** The client's connection pool, [vgi-client/src/pool.rs]: idle connections keyed
    by location, options and the address of the shared auth object, taken newest
    first, evicted when idle too long or beyond the cap. *)
From S2P Require Import Prelude SqlCompare Location.

Open Scope Z_scope.

(** * Data *)

Definition DEFAULT_IDLE_TIMEOUT : Z := 5 * 10 ^ 9.
Definition DEFAULT_MAX_IDLE : Z := 256.

Record PoolConfig := mkPoolConfig { idle_timeout : Z; max_idle : Z }.
Definition default_config : PoolConfig := mkPoolConfig DEFAULT_IDLE_TIMEOUT DEFAULT_MAX_IDLE.
Definition disabled : PoolConfig := mkPoolConfig 0 0.
Definition pooling_enabled (c : PoolConfig) : bool := (0 <? max_idle c) && negb (idle_timeout c =? 0).

(** [ConnectionOptions] of client.rs. *)
Record ConnectionOptions := mkOptions {
  worker_debug : bool;
  launcher_idle_timeout : option Z;
  launcher_state_dir : option string;
  rpc_timeout : option Z;
}.
#[global] Instance ConnectionOptions_eq_dec : EqDecision ConnectionOptions.
Proof. solve_decision. Defined.
#[global] Instance ConnectionOptions_countable : Countable ConnectionOptions.
Proof.
  apply (inj_countable' (λ o, (worker_debug o, launcher_idle_timeout o, launcher_state_dir o, rpc_timeout o))
    (λ '(a, b, c, d), mkOptions a b c d)). by intros [].
Defined.
#[global] Instance VgiLocation_countable : Countable VgiLocation.
Proof.
  apply (inj_countable' (λ l, match l with
    | Subprocess a => (0%nat, a, 0) | Http u => (1%nat, [u], 0) | Httpi u => (2%nat, [u], 0)
    | Iroh u => (3%nat, [u], 0) | Unix p => (4%nat, [p], 0) | Tcp h p => (5%nat, [h], p)
    | Launch a => (6%nat, a, 0) end)
   (λ '(n, a, z), match n, a with
    | 0%nat, _ => Subprocess a | 1%nat, [u] => Http u | 2%nat, [u] => Httpi u | 3%nat, [u] => Iroh u
    | 4%nat, [p] => Unix p | 5%nat, [h] => Tcp h z | _, _ => Launch a end)).
  by intros [].
Defined.

Record PoolKey := mkPoolKey {
  location : VgiLocation;
  connection_options : option ConnectionOptions;
  auth_scope : option Z;
}.
#[global] Instance PoolKey_eq_dec : EqDecision PoolKey.
Proof. solve_decision. Defined.
#[global] Instance PoolKey_countable : Countable PoolKey.
Proof.
  apply (inj_countable' (λ k, (location k, connection_options k, auth_scope k)) (λ '(a, b, c), mkPoolKey a b c)).
  by intros [].
Defined.

(** A shared auth object: its address and the principal it stands for. *)
Record CatalogAuth := mkAuth { auth_addr : Z; auth_principal : Z }.

(** An open connection: which one it is, what it was opened with, the auth object
    it holds, and whether an exchange left it reusable. *)
Record VgiClient := mkClient {
  conn_id : nat;
  conn_location : VgiLocation;
  conn_options : option ConnectionOptions;
  conn_auth : option CatalogAuth;
  exchange_is_reusable : bool;
}.

Record Idle := mkIdle { idle_client : VgiClient; since : Z }.

(** The counters; they do not reach 2^64. *)
Record Counters := mkCounters {
  hits : Z; misses : Z; evicted_idle : Z; evicted_full : Z; discarded_poisoned : Z }.
Definition no_counts : Counters := mkCounters 0 0 0 0 0.
Definition add_hit (c : Counters) := mkCounters (hits c + 1) (misses c) (evicted_idle c) (evicted_full c) (discarded_poisoned c).
Definition add_miss (c : Counters) := mkCounters (hits c) (misses c + 1) (evicted_idle c) (evicted_full c) (discarded_poisoned c).
Definition add_idle (n : Z) (c : Counters) := mkCounters (hits c) (misses c) (evicted_idle c + n) (evicted_full c) (discarded_poisoned c).
Definition add_full (c : Counters) := mkCounters (hits c) (misses c) (evicted_idle c) (evicted_full c + 1) (discarded_poisoned c).
Definition add_poisoned (c : Counters) := mkCounters (hits c) (misses c) (evicted_idle c) (evicted_full c) (discarded_poisoned c + 1).

(** [PoolInner]; its mutex is held for the whole of each operation. *)
Record WorkerPool := mkPool {
  idle : gmap PoolKey (list Idle);
  config : PoolConfig;
  counters : Counters;
}.
Definition new_pool (c : PoolConfig) : WorkerPool := mkPool ∅ c no_counts.

(** A checked-out connection. *)
Record PooledClient := mkPooled { pc_key : PoolKey; pc_client : VgiClient; poisoned : bool }.

(** * Keys *)

Definition anonymous (loc : VgiLocation) : PoolKey := mkPoolKey loc None None.
Definition authenticated (loc : VgiLocation) (auth : CatalogAuth) (options : ConnectionOptions) : PoolKey :=
  mkPoolKey loc (Some options) (Some (auth_addr auth)).

(** * Operations *)

Definition live (p : WorkerPool) (now : Z) (e : Idle) : bool := now - since e <=? idle_timeout (config p).

(** The loop of [take_idle] over a bucket whose last entry comes first: the client
    taken, the bucket left, and how many were evicted on the way. *)
Fixpoint take_loop (p : WorkerPool) (now : Z) (newest_first : list Idle) (evicted : Z) :
    option VgiClient * list Idle * Z :=
  match newest_first with
  | [] => (None, [], evicted)
  | e :: rest =>
      if live p now e then (Some (idle_client e), reverse rest, evicted) else take_loop p now rest (evicted + 1)
  end.

Definition take_idle (p : WorkerPool) (now : Z) (key : PoolKey) : option VgiClient * WorkerPool :=
  if negb (pooling_enabled (config p)) then (None, p)
  else match idle p !! key with
  | None => (None, p)
  | Some bucket =>
      let '(c, rest, evicted) := take_loop p now (reverse bucket) 0 in
      (c, mkPool (<[key := rest]> (idle p)) (config p) (add_idle evicted (counters p)))
  end.

Definition count (p : WorkerPool) (f : Counters → Counters) : WorkerPool := mkPool (idle p) (config p) (f (counters p)).

(** [acquire_with]; [connect] is what opening a new connection would give. *)
Definition acquire_with (p : WorkerPool) (now : Z) (key : PoolKey) (connect : result VgiClient RpcError) :
    result PooledClient RpcError * WorkerPool :=
  match take_idle p now key with
  | (Some client, p) => (Ok (mkPooled key client false), count p add_hit)
  | (None, p) =>
      let p := count p add_miss in
      match connect with
      | Ok client => (Ok (mkPooled key client false), p)
      | Err e => (Err e, p)
      end
  end.

(** What [VgiClient::connect_*] opens for a caller, as connection [id], or the
    error [fault]. *)
Definition connect_with (fault : option RpcError) (id : nat) (loc : VgiLocation)
    (options : option ConnectionOptions) (auth : option CatalogAuth) : result VgiClient RpcError :=
  match fault with Some e => Err e | None => Ok (mkClient id loc options auth true) end.

Definition acquire (p : WorkerPool) (now : Z) (fault : option RpcError) (id : nat) (loc : VgiLocation) :=
  acquire_with p now (anonymous loc) (connect_with fault id loc None None).
Definition acquire_with_options (p : WorkerPool) (now : Z) (fault : option RpcError) (id : nat) (loc : VgiLocation)
    (options : ConnectionOptions) :=
  acquire_with p now (mkPoolKey loc (Some options) None) (connect_with fault id loc (Some options) None).
(** The constructor of an authenticated connection cannot fail. *)
Definition acquire_with_auth (p : WorkerPool) (now : Z) (id : nat) (loc : VgiLocation) (auth : CatalogAuth)
    (options : ConnectionOptions) : result PooledClient RpcError * WorkerPool :=
  match loc with
  | Http _ => acquire_with p now (authenticated loc auth options) (connect_with None id loc (Some options) (Some auth))
  | _ => (Err (ValueError "authenticated connections require an HTTP(S) LOCATION"), p)
  end.

Definition held (m : gmap PoolKey (list Idle)) : Z := map_sum (λ l, Z.of_nat (length l)) m.

Definition release (p : WorkerPool) (now : Z) (key : PoolKey) (client : VgiClient) : WorkerPool :=
  if negb (pooling_enabled (config p)) then p
  else if max_idle (config p) <=? held (idle p) then count p add_full
  else mkPool (<[key := default [] (idle p !! key) ++ [mkIdle client now]]> (idle p)) (config p) (counters p).

(** [Drop for PooledClient]. *)
Definition drop_client (p : WorkerPool) (now : Z) (c : PooledClient) : WorkerPool :=
  if poisoned c || negb (exchange_is_reusable (pc_client c)) then count p add_poisoned
  else release p now (pc_key c) (pc_client c).

(** [poison]; and [with]: a failed use poisons.  The use may leave the exchange
    unusable. *)
Definition poison (c : PooledClient) : PooledClient := mkPooled (pc_key c) (pc_client c) true.
Definition use_client {T} (c : PooledClient) (out : result T RpcError) (reusable : bool) : PooledClient * result T RpcError :=
  let cl := pc_client c in
  let c := mkPooled (pc_key c)
    (mkClient (conn_id cl) (conn_location cl) (conn_options cl) (conn_auth cl) (exchange_is_reusable cl && reusable))
    (poisoned c) in
  (match out with Err _ => poison c | Ok _ => c end, out).

Definition flush (p : WorkerPool) : Z * WorkerPool := (held (idle p), mkPool ∅ (config p) (counters p)).

Definition reap (p : WorkerPool) (now : Z) : Z * WorkerPool :=
  let kept : gmap PoolKey (list Idle) := (λ b : list Idle, filter (λ e, live p now e = true) b) <$> idle p in
  let closed := held (idle p) - held kept in
  (closed, mkPool (filter (λ kb, kb.2 ≠ []) kept) (config p) (add_idle closed (counters p))).

Record PoolStats := mkStats {
  st_hits : Z; st_misses : Z; st_evicted_idle : Z; st_evicted_full : Z; st_discarded : Z; st_idle : Z }.
Definition stats (p : WorkerPool) : PoolStats :=
  let c := counters p in
  mkStats (hits c) (misses c) (evicted_idle c) (evicted_full c) (discarded_poisoned c) (held (idle p)).
