(* ===== verification/PoolFacts.v ===== *)
(** Theorems on the connection pool, over everything its users do: acquire, use,
    poison and drop connections, allocate and free auth objects, reap and flush. *)
From S2P Require Import Prelude SqlCompare Location Pool.

Open Scope Z_scope.

(** * The pool and its users *)

(** The pool, the connections checked out, the auth objects the program holds a
    handle to (principal by address), the next connection, and the clock.  An
    object lives as long as a handle or a connection holds it. *)
Record World := mkWorld {
  w_pool : WorkerPool;
  w_out : list PooledClient;
  w_handles : gmap Z Z;
  w_next : nat;
  w_now : Z;
}.

Definition idle_clients (m : gmap PoolKey (list Idle)) : list VgiClient :=
  map_to_list m ≫= λ kb, idle_client <$> kb.2.
Definition clients (w : World) : list VgiClient := (pc_client <$> w_out w) ++ idle_clients (idle (w_pool w)).

Definition holds_auth (addr : Z) (c : VgiClient) : Prop := auth_addr <$> conn_auth c = Some addr.

(** What an acquisition leaves: the connection checked out, if there is one. *)
Definition acquired (w : World) (r : result PooledClient RpcError * WorkerPool) : World :=
  mkWorld r.2 (match r.1 with Ok g => w_out w ++ [g] | Err _ => w_out w end) (w_handles w) (S (w_next w)) (w_now w).

Inductive pool_step (w : World) : World → Prop :=
| step_alloc a i : w_handles w !! a = None → Forall (λ c, ¬ holds_auth a c) (clients w) →
    pool_step w (mkWorld (w_pool w) (w_out w) (<[a := i]> (w_handles w)) (w_next w) (w_now w))
| step_free a : pool_step w (mkWorld (w_pool w) (w_out w) (delete a (w_handles w)) (w_next w) (w_now w))
| step_tick t : 0 ≤ t → pool_step w (mkWorld (w_pool w) (w_out w) (w_handles w) (w_next w) (w_now w + t))
| step_acquire fault loc :
    pool_step w (acquired w (acquire (w_pool w) (w_now w) fault (w_next w) loc))
| step_acquire_options fault loc o :
    pool_step w (acquired w (acquire_with_options (w_pool w) (w_now w) fault (w_next w) loc o))
| step_acquire_auth loc a i o : w_handles w !! a = Some i →
    pool_step w (acquired w (acquire_with_auth (w_pool w) (w_now w) (w_next w) loc (mkAuth a i) o))
| step_use l1 g l2 (out : result unit RpcError) reusable : w_out w = l1 ++ g :: l2 →
    pool_step w (mkWorld (w_pool w) (l1 ++ (use_client g out reusable).1 :: l2) (w_handles w) (w_next w) (w_now w))
| step_drop l1 g l2 : w_out w = l1 ++ g :: l2 →
    pool_step w (mkWorld (drop_client (w_pool w) (w_now w) g) (l1 ++ l2) (w_handles w) (w_next w) (w_now w))
| step_reap : pool_step w (mkWorld (reap (w_pool w) (w_now w)).2 (w_out w) (w_handles w) (w_next w) (w_now w))
| step_flush : pool_step w (mkWorld (flush (w_pool w)).2 (w_out w) (w_handles w) (w_next w) (w_now w)).

Definition start (c : PoolConfig) : World := mkWorld (new_pool c) [] ∅ 0 0.
Definition pool_reachable (w : World) : Prop := ∃ c, rtc pool_step (start c) w.

(** * The invariant *)

(** A connection belongs under a key: it was opened as the key says, and the
    object at its auth's address, if it still has a handle, is that auth. *)
Definition fits_key (handles : gmap Z Z) (k : PoolKey) (c : VgiClient) : Prop :=
  conn_location c = location k ∧ conn_options c = connection_options k ∧
  auth_addr <$> conn_auth c = auth_scope k ∧
  (∀ a i, conn_auth c = Some a → handles !! auth_addr a = Some i → i = auth_principal a).

Record pool_ok (w : World) : Prop := {
  idle_fit k b e : idle (w_pool w) !! k = Some b → e ∈ b → fits_key (w_handles w) k (idle_client e);
  out_fit g : g ∈ w_out w → fits_key (w_handles w) (pc_key g) (pc_client g);
  ids_unique : NoDup (conn_id <$> clients w);
  ids_known : Forall (λ i, (i < w_next w)%nat) (conn_id <$> clients w);
  idle_bounded : held (idle (w_pool w)) ≤ Z.max 0 (max_idle (config (w_pool w)));
  idle_disabled : pooling_enabled (config (w_pool w)) = false → held (idle (w_pool w)) = 0;
}.

(** ** Idle connections as a list *)

Lemma idle_clients_delete m k b : m !! k = Some b →
  idle_clients m ≡ₚ (idle_client <$> b) ++ idle_clients (delete k m).
Proof.
  intros Hk. unfold idle_clients. rewrite <- (insert_delete_id m k b Hk) at 1.
  rewrite map_to_list_insert by apply lookup_delete_eq. done.
Qed.

Lemma idle_clients_insert m k b :
  idle_clients (<[k := b]> m) ≡ₚ (idle_client <$> b) ++ idle_clients (delete k m).
Proof.
  rewrite (idle_clients_delete _ k b) by apply lookup_insert_eq. by rewrite delete_insert_eq.
Qed.

Lemma idle_clients_default m k : idle_clients m ≡ₚ (idle_client <$> default [] (m !! k)) ++ idle_clients (delete k m).
Proof.
  destruct (m !! k) as [b|] eqn:Hk; [by apply idle_clients_delete|]. cbn. by rewrite delete_id.
Qed.

Lemma held_clients m : held m = Z.of_nat (length (idle_clients m)).
Proof.
  induction m as [|k b m Hk IH] using map_ind; [done|]. unfold held in *.
  rewrite map_sum_insert_None, IH by done. rewrite idle_clients_insert, length_app, length_fmap, delete_id by done. lia.
Qed.

(** Mapping the buckets to sub-lists and dropping empty ones keeps a sub-multiset. *)
Lemma idle_clients_filter (P : Idle → Prop) `{∀ e, Decision (P e)} (m : gmap PoolKey (list Idle)) :
  idle_clients (filter (λ kb, kb.2 ≠ []) ((λ b : list Idle, filter P b) <$> m)) ⊆+ idle_clients m ∧
  held (filter (λ kb, kb.2 ≠ []) ((λ b : list Idle, filter P b) <$> m)) = held ((λ b : list Idle, filter P b) <$> m).
Proof.
  induction m as [|k b m Hk [IH1 IH2]] using map_ind; [rewrite fmap_empty, map_filter_empty; done|].
  rewrite fmap_insert. set (m' := _ <$> m) in *.
  assert (Hk' : m' !! k = None) by (unfold m'; by rewrite lookup_fmap, Hk).
  destruct (decide (filter P b = [])) as [E|E].
  - rewrite map_filter_insert_False by (cbn; naive_solver). rewrite (delete_id m') by done.
    rewrite (idle_clients_insert m k b), (delete_id m) by done. split; [by apply submseteq_inserts_l|].
    rewrite IH2. unfold held. rewrite map_sum_insert_None by done. rewrite E. cbn. lia.
  - rewrite map_filter_insert_True by done.
    assert (Hf : filter (λ kb, kb.2 ≠ []) m' !! k = None) by (apply map_lookup_filter_None_2; by left).
    rewrite !idle_clients_insert, !delete_id by done. split.
    + apply submseteq_app; [|done]. apply fmap_submseteq, sublist_submseteq, sublist_filter.
    + unfold held in *. rewrite !map_sum_insert_None by done. by rewrite IH2.
Qed.

(** ** Taking a connection *)

(** The loop takes the newest connection that is still live. *)
Lemma take_loop_spec p now l n : let '(c, rest, ev) := take_loop p now l n in
  ∃ dead, Forall (λ e, live p now e = false) dead ∧ ev = n + Z.of_nat (length dead) ∧
  match c with
  | None => l = dead ∧ rest = []
  | Some c => ∃ e older, l = dead ++ e :: older ∧ live p now e = true ∧ c = idle_client e ∧ rest = reverse older
  end.
Proof.
  revert n. induction l as [|e l IH]; intros n; cbn [take_loop].
  - exists []. split_and!; [done|cbn; lia|done..].
  - destruct (live p now e) eqn:El.
    + exists []. split_and!; [done|cbn; lia|]. by exists e, l.
    + specialize (IH (n + 1)). destruct (take_loop p now l (n + 1)) as [[c rest] ev].
      destruct IH as (dead & Hd & -> & Hc). exists (e :: dead). split_and!; [by constructor|cbn; lia|].
      destruct c as [c|].
      * destruct Hc as (e' & older & -> & ? & ? & ?). by exists e', older.
      * by destruct Hc as [-> ->].
Qed.

(** What [take_idle] does to the idle connections: it removes the one it hands out
    and the expired ones beside it, in the key's own bucket. *)
Lemma take_idle_spec p now key c p' : take_idle p now key = (c, p') →
  config p' = config p ∧
  (∃ gone, idle_clients (idle p) ≡ₚ (match c with Some c => [c] | None => [] end) ++ gone ++ idle_clients (idle p')) ∧
  (∀ k b e, idle p' !! k = Some b → e ∈ b → ∃ b', idle p !! k = Some b' ∧ e ∈ b') ∧
  (∀ c', c = Some c' → ∃ b e, idle p !! key = Some b ∧ e ∈ b ∧ c' = idle_client e).
Proof.
  unfold take_idle. destruct (negb _).
  { intros [= <- <-]. split_and!; [done|by exists []|eauto|done]. }
  destruct (idle p !! key) as [bucket|] eqn:Hk.
  2: { intros [= <- <-]. split_and!; [done|by exists []|eauto|done]. }
  pose proof (take_loop_spec p now (reverse bucket) 0) as Hs. destruct (take_loop _ _ _ _) as [[c0 rest] ev].
  destruct Hs as (dead & _ & _ & Hc). intros [= <- <-]. cbn [idle config]. split_and!; [done|..].
  - exists (idle_client <$> dead). rewrite (idle_clients_delete _ key bucket Hk), idle_clients_insert, !app_assoc.
    apply Permutation_app_tail. rewrite <- (reverse_involutive bucket). destruct c0 as [c0|].
    + destruct Hc as (e & older & -> & _ & -> & ->). rewrite reverse_app, reverse_cons, <- app_assoc, !fmap_app. cbn.
      rewrite (reverse_Permutation dead). solve_Permutation.
    + destruct Hc as [-> ->]. cbn. rewrite (reverse_Permutation dead). by rewrite app_nil_r.
  - intros k b e [[<- <-]|[_ Hb]]%lookup_insert_Some He; [|eauto]. exists bucket. split; [done|].
    rewrite <- (reverse_involutive bucket). rewrite elem_of_reverse. destruct c0 as [c0|].
    + destruct Hc as (e' & older & -> & _ & _ & ->). rewrite elem_of_app, elem_of_cons. rewrite elem_of_reverse in He. auto.
    + destruct Hc as [_ ->]. by apply not_elem_of_nil in He.
  - intros c' ->. destruct Hc as (e & older & Hb & _ & -> & _). exists bucket, e. split_and!; [done| |done].
    apply elem_of_reverse. rewrite Hb. apply elem_of_app. right. left.
Qed.

(** ** Preservation *)

Lemma NoDup_submseteq_inv {A} (l k : list A) : l ⊆+ k → NoDup k → NoDup l.
Proof. intros [k' ->]%submseteq_Permutation Hn. by apply NoDup_app in Hn as [? _]. Qed.

Lemma Forall_submseteq_inv {A} (P : A → Prop) (l k : list A) : l ⊆+ k → Forall P k → Forall P l.
Proof. intros [k' ->]%submseteq_Permutation Hk. by apply Forall_app in Hk as [? _]. Qed.

(** A step that opens no connection. *)
Lemma pool_ok_shrink w w' : pool_ok w →
  config (w_pool w') = config (w_pool w) → w_handles w' = w_handles w → (w_next w ≤ w_next w')%nat →
  (conn_id <$> clients w') ⊆+ (conn_id <$> clients w) →
  held (idle (w_pool w')) ≤ held (idle (w_pool w)) →
  (∀ k b e, idle (w_pool w') !! k = Some b → e ∈ b → fits_key (w_handles w) k (idle_client e)) →
  (∀ g, g ∈ w_out w' → fits_key (w_handles w) (pc_key g) (pc_client g)) → pool_ok w'.
Proof.
  intros [_ _ Hu Hk Hb Hd] Hc Hh Hn Hs Hl Hi Ho. split; rewrite ?Hc, ?Hh; try done.
  - by eapply NoDup_submseteq_inv.
  - eapply Forall_impl; [by eapply Forall_submseteq_inv|]. cbn. lia.
  - lia.
  - intros E. specialize (Hd E). pose proof (held_clients (idle (w_pool w'))). lia.
Qed.

Lemma acquire_ok w key connect : pool_ok w →
  (∀ c, connect = Ok c → conn_id c = w_next w ∧ fits_key (w_handles w) key c) →
  pool_ok (acquired w (acquire_with (w_pool w) (w_now w) key connect)).
Proof.
  intros Hw Hc. unfold acquire_with. destruct (take_idle _ _ _) as [c p'] eqn:Ht.
  destruct (take_idle_spec _ _ _ _ _ Ht) as (Hcf & (gone & Hperm) & Hsub & Htaken).
  assert (Hheld : held (idle p') ≤ held (idle (w_pool w))).
  { rewrite !held_clients, Hperm, !length_app. lia. }
  assert (Hfit : ∀ k b e, idle p' !! k = Some b → e ∈ b → fits_key (w_handles w) k (idle_client e)).
  { intros k b e Hb He. destruct (Hsub k b e Hb He) as (b' & Hb' & He'). by eapply (idle_fit w Hw). }
  destruct c as [c|]; [|destruct connect as [c|e]].
  - apply (pool_ok_shrink w); cbn; [done|done|done|lia| |done|done|].
    + apply fmap_submseteq. unfold clients; cbn. rewrite fmap_app, Hperm. cbn.
      rewrite <- app_assoc. apply submseteq_skips_l. cbn. apply submseteq_skip, submseteq_inserts_l. done.
    + intros g [Hg| ->%list_elem_of_singleton]%elem_of_app; [by apply (out_fit w Hw)|]. cbn.
      destruct (Htaken c eq_refl) as (b & e & Hb & He & ->). by eapply (idle_fit w Hw).
  - destruct (Hc c eq_refl) as [Hid Hcfit].
    assert (Hids : conn_id <$> clients (acquired w (Ok (mkPooled key c false), count p' add_miss)) ⊆+
                   w_next w :: (conn_id <$> clients w)).
    { rewrite <- Hid, <- fmap_cons. apply fmap_submseteq. unfold clients; cbn. rewrite fmap_app, Hperm. cbn.
      rewrite <- app_assoc. cbn. rewrite <- Permutation_middle. apply submseteq_skip, submseteq_skips_l.
      by apply submseteq_inserts_l. }
    destruct Hw as [Hif Hof Hu Hk Hb Hd]. split; cbn; rewrite ?Hcf; try done.
    + intros g [Hg| ->%list_elem_of_singleton]%elem_of_app; [by apply Hof|done].
    + eapply NoDup_submseteq_inv; [exact Hids|]. constructor; [|done].
      intros Hin. rewrite Forall_forall in Hk. apply Hk in Hin. lia.
    + eapply Forall_submseteq_inv; [exact Hids|]. constructor; [lia|]. eapply Forall_impl; [exact Hk|]. cbn. lia.
    + lia.
    + intros E. specialize (Hd E). pose proof (held_clients (idle p')). lia.
  - apply (pool_ok_shrink w); cbn; [done|done|done|lia| |done|done|apply (out_fit w Hw)].
    apply fmap_submseteq. unfold clients; cbn. rewrite Hperm. cbn. apply submseteq_skips_l. by apply submseteq_inserts_l.
Qed.

Lemma drop_ok w l1 g l2 : pool_ok w → w_out w = l1 ++ g :: l2 →
  pool_ok (mkWorld (drop_client (w_pool w) (w_now w) g) (l1 ++ l2) (w_handles w) (w_next w) (w_now w)).
Proof.
  intros Hw Ho. set (p := w_pool w). assert (Hg : g ∈ w_out w) by (rewrite Ho; set_solver).
  assert (Hsame : ∀ p', config p' = config p → idle p' = idle p →
    pool_ok (mkWorld p' (l1 ++ l2) (w_handles w) (w_next w) (w_now w))).
  { intros p' Hcf Hi. apply (pool_ok_shrink w); cbn; rewrite ?Hi; [done|done|done|lia| |done|apply (idle_fit w Hw)|].
    - apply fmap_submseteq. unfold clients; cbn. rewrite ?Hi, Ho, !fmap_app. cbn. rewrite <- !app_assoc.
      apply submseteq_skips_l. by apply submseteq_cons.
    - intros g' Hg'. apply (out_fit w Hw). rewrite Ho. set_solver. }
  unfold drop_client. destruct (_ || _); [by apply Hsame|]. unfold release. fold p.
  destruct (pooling_enabled (config p)) eqn:Hen; cbn [negb]; [|by apply Hsame].
  destruct (Z.leb_spec (max_idle (config p)) (held (idle p))); [by apply Hsame|].
  assert (Hperm : idle_clients (<[pc_key g := default [] (idle p !! pc_key g) ++ [mkIdle (pc_client g) (w_now w)]]> (idle p))
    ≡ₚ pc_client g :: idle_clients (idle p)).
  { rewrite idle_clients_insert, (idle_clients_default (idle p) (pc_key g)), fmap_app. cbn. solve_Permutation. }
  assert (Hids : ∀ m, idle_clients m ≡ₚ pc_client g :: idle_clients (idle p) →
    conn_id <$> (pc_client <$> l1 ++ l2) ++ idle_clients m ≡ₚ conn_id <$> clients w).
  { intros m Hm. apply fmap_Permutation. unfold clients. rewrite Hm, Ho, !fmap_app. cbn. solve_Permutation. }
  specialize (Hids _ Hperm). destruct Hw as [Hif Hof Hu Hk Hb Hd]. split; cbn.
  - intros k b e [[<- <-]|[_ Hkb]]%lookup_insert_Some He; [|by eapply Hif].
    apply elem_of_app in He as [He| ->%list_elem_of_singleton]; [|by apply Hof].
    destruct (idle p !! pc_key g) as [b|] eqn:Eb; [by eapply Hif|]. by apply not_elem_of_nil in He.
  - intros g' Hg'. apply Hof. rewrite Ho. set_solver.
  - by rewrite Hids.
  - by rewrite Hids.
  - rewrite held_clients, Hperm in *. cbn. pose proof (held_clients (idle p)). lia.
  - intros E. by rewrite Hen in E.
Qed.

Lemma reap_ok w : pool_ok w → pool_ok (mkWorld (reap (w_pool w) (w_now w)).2 (w_out w) (w_handles w) (w_next w) (w_now w)).
Proof.
  intros Hw. set (p := w_pool w).
  destruct (idle_clients_filter (λ e, live p (w_now w) e = true) (idle p)) as [Hs _].
  apply (pool_ok_shrink w); cbn; [done|done|done|lia| | | |apply (out_fit w Hw)].
  - apply fmap_submseteq. by apply submseteq_skips_l.
  - rewrite !held_clients. apply submseteq_length in Hs. fold p. lia.
  - intros k b e [Hb _]%map_lookup_filter_Some He. rewrite lookup_fmap in Hb.
    destruct (idle p !! k) as [b0|] eqn:E; [|done]. injection Hb as <-.
    apply list_elem_of_filter in He as [_ He]. by eapply (idle_fit w Hw).
Qed.

Lemma flush_ok w : pool_ok w → pool_ok (mkWorld (flush (w_pool w)).2 (w_out w) (w_handles w) (w_next w) (w_now w)).
Proof.
  intros Hw. apply (pool_ok_shrink w); cbn; [done|done|done|lia| | | |apply (out_fit w Hw)].
  - apply fmap_submseteq. apply submseteq_skips_l, submseteq_nil_l.
  - pose proof (held_clients (idle (w_pool w))). change (held ∅) with 0. lia.
  - intros k b e Hb. by rewrite lookup_empty in Hb.
Qed.

(** Using a connection changes neither what it is nor where it belongs. *)
Lemma use_ok w l1 g l2 (out : result unit RpcError) r : pool_ok w → w_out w = l1 ++ g :: l2 →
  pool_ok (mkWorld (w_pool w) (l1 ++ (use_client g out r).1 :: l2) (w_handles w) (w_next w) (w_now w)).
Proof.
  intros Hw Ho. set (g' := (use_client g out r).1).
  assert (Hg' : pc_key g' = pc_key g ∧ conn_id (pc_client g') = conn_id (pc_client g) ∧
    conn_location (pc_client g') = conn_location (pc_client g) ∧ conn_options (pc_client g') = conn_options (pc_client g) ∧
    conn_auth (pc_client g') = conn_auth (pc_client g)) by (unfold g', use_client; by destruct out).
  destruct Hg' as (Ek & Ei & El & Eo & Ea). clearbody g'. apply (pool_ok_shrink w); cbn; [done|done|done|lia| |done|apply (idle_fit w Hw)|].
  - unfold clients; cbn. rewrite Ho, !fmap_app. cbn. by rewrite Ei.
  - intros g0 [Hg0|[->|Hg0]%elem_of_cons]%elem_of_app.
    + apply (out_fit w Hw). rewrite Ho. set_solver.
    + unfold fits_key. rewrite Ek, El, Eo, Ea. apply (out_fit w Hw). rewrite Ho. set_solver.
    + apply (out_fit w Hw). rewrite Ho. set_solver.
Qed.

(** A change of handles that keeps every connection's auth in place. *)
Lemma handles_ok w h' t : pool_ok w →
  (∀ c a i, c ∈ clients w → conn_auth c = Some a → h' !! auth_addr a = Some i → w_handles w !! auth_addr a = Some i) →
  pool_ok (mkWorld (w_pool w) (w_out w) h' (w_next w) t).
Proof.
  intros [Hif Hof Hu Hk Hb Hd] Hh. split; cbn; try done.
  - intros k b e Hkb He. destruct (Hif k b e Hkb He) as (Hl & Ho & Ha & Hp). split_and!; [done..|].
    intros a i Hc Hi. eapply Hp; [done|]. eapply Hh; [|done..]. unfold clients. apply elem_of_app. right.
    unfold idle_clients. apply list_elem_of_bind. exists (k, b). split; [by apply list_elem_of_fmap_2|].
    by apply elem_of_map_to_list.
  - intros g Hg. destruct (Hof g Hg) as (Hl & Ho & Ha & Hp). split_and!; [done..|].
    intros a i Hc Hi. eapply Hp; [done|]. eapply Hh; [|done..]. unfold clients. apply elem_of_app. left.
    by apply list_elem_of_fmap_2.
Qed.

Lemma pool_step_ok w w' : pool_step w w' → pool_ok w → pool_ok w'.
Proof.
  intros [] Hw.
  - apply handles_ok; [done|]. intros c a0 j Hc Ha Hj.
    destruct (decide (a = auth_addr a0)) as [->|]; [|by rewrite lookup_insert_ne in Hj].
    rewrite Forall_forall in H0. destruct (H0 c Hc). unfold holds_auth. by rewrite Ha.
  - apply handles_ok; [done|]. intros c a0 j _ _ [_ Hj]%lookup_delete_Some. done.
  - by apply handles_ok.
  - apply acquire_ok; [done|]. intros c Hc. destruct fault; [done|]. injection Hc as <-. by split.
  - apply acquire_ok; [done|]. intros c Hc. destruct fault; [done|]. injection Hc as <-. by split.
  - unfold acquire_with_auth. destruct loc; try (apply (pool_ok_shrink w); cbn; [done|done|done|lia|done|done|apply (idle_fit w Hw)|apply (out_fit w Hw)]).
    apply acquire_ok; [done|]. intros c [= <-]. split; [done|]. split_and!; [done..|].
    intros a0 j [= <-] Hj. cbn in *. congruence.
  - by apply use_ok.
  - by apply drop_ok.
  - by apply reap_ok.
  - by apply flush_ok.
Qed.

Lemma pool_reachable_ok w : pool_reachable w → pool_ok w.
Proof.
  intros [c Hr]. assert (H0 : pool_ok (start c)).
  { split; cbn; try done; [by intros ? ?%not_elem_of_nil|constructor|unfold held; rewrite map_sum_empty; lia]. }
  induction Hr as [|w1 w2 w3 Hs _ IH]; [done|]. by apply IH, (pool_step_ok w1).
Qed.

(** * Theorems *)

(** C32: Whatever was acquired, dropped, freed and re-allocated before, a caller
    with an auth object gets a connection to the location it named, with its
    options, that holds that very object: never another principal's, although the
    pool tells objects apart by address and addresses are reused. *)
Theorem pool_hands_out_own_auth w loc a i o g p' : pool_reachable w → w_handles w !! a = Some i →
  acquire_with_auth (w_pool w) (w_now w) (w_next w) loc (mkAuth a i) o = (Ok g, p') →
  conn_location (pc_client g) = loc ∧ conn_options (pc_client g) = Some o ∧
  conn_auth (pc_client g) = Some (mkAuth a i).
Proof.
  intros Hw%pool_reachable_ok Ha Hq.
  assert (Hok := pool_step_ok _ _ (step_acquire_auth w loc a i o Ha) Hw). rewrite Hq in Hok.
  assert (Hkey : pc_key g = authenticated loc (mkAuth a i) o).
  { unfold acquire_with_auth, acquire_with in Hq. destruct loc; try done.
    destruct (take_idle _ _ _) as [[c|] p1]; cbn in Hq; by simplify_eq. }
  destruct (out_fit _ Hok g) as (Hl & Ho & Hau & Hp); [cbn; set_solver|]. rewrite Hkey in *. cbn in *.
  split_and!; [done..|]. destruct (conn_auth (pc_client g)) as [[a' i']|] eqn:E; [|done]. injection Hau as ->.
  by rewrite (Hp _ i eq_refl Ha).
Qed.

(** No connection is checked out twice or idle while checked out, at most
    [max_idle] are idle, and none when pooling is disabled. *)
Theorem pool_connections_exclusive w : pool_reachable w →
  NoDup (conn_id <$> clients w) ∧ held (idle (w_pool w)) ≤ Z.max 0 (max_idle (config (w_pool w))) ∧
  (pooling_enabled (config (w_pool w)) = false → held (idle (w_pool w)) = 0).
Proof. intros [_ _ Hu _ Hb Hd]%pool_reachable_ok. done. Qed.

(** A reused connection is the newest of its bucket that has not been idle for
    longer than the timeout; the newer, expired ones are closed and counted, the
    older ones are kept. *)
Theorem take_newest_live p now key bucket : pooling_enabled (config p) = true → idle p !! key = Some bucket →
  let '(c, p') := take_idle p now key in
  ∃ older expired, Forall (λ e, live p now e = false) expired ∧
    evicted_idle (counters p') = evicted_idle (counters p) + Z.of_nat (length expired) ∧
    match c with
    | Some c => ∃ e, bucket = older ++ e :: expired ∧ c = idle_client e ∧ now - since e ≤ idle_timeout (config p) ∧
                     idle p' = <[key := older]> (idle p)
    | None => bucket = expired ∧ idle p' = <[key := []]> (idle p)
    end.
Proof.
  intros Hen Hb. unfold take_idle. rewrite Hen, Hb. cbn [negb].
  pose proof (take_loop_spec p now (reverse bucket) 0) as Hs. destruct (take_loop _ _ _ _) as [[c rest] ev].
  destruct Hs as (dead & Hd & -> & Hc).
  assert (Hlen : length (reverse dead) = length dead) by apply length_reverse.
  destruct c as [c|].
  - destruct Hc as (e & old & Hr & He & -> & ->). exists (reverse old), (reverse dead).
    split_and!; [by rewrite reverse_Permutation|cbn; lia|]. exists e. apply (f_equal reverse) in Hr.
    rewrite reverse_involutive, reverse_app, reverse_cons, <- app_assoc in Hr. apply Z.leb_le in He. done.
  - destruct Hc as [Hr ->]. exists [], (reverse dead). split_and!; [by rewrite reverse_Permutation|cbn; lia| |done].
    by rewrite <- Hr, reverse_involutive.
Qed.

(** * A run *)

Definition url : VgiLocation := Http "http://h".
Definition opts : ConnectionOptions := mkOptions false None None None.
(** One object used and freed, its connection back in the pool; its address still
    held by that connection. *)
Definition w_alloc : World := mkWorld (new_pool default_config) [] (<[7 := 1]> ∅) 0 0.
Definition w_acq : World := acquired w_alloc (acquire_with_auth (w_pool w_alloc) 0 0 url (mkAuth 7 1) opts).
Definition guard_ex : PooledClient :=
  mkPooled (authenticated url (mkAuth 7 1) opts) (mkClient 0 url (Some opts) (Some (mkAuth 7 1)) true) false.
Definition w_back : World := mkWorld (drop_client (w_pool w_acq) 0 guard_ex) [] (w_handles w_acq) 1 0.

Lemma w_back_reachable : pool_reachable w_back.
Proof.
  exists default_config.
  eapply rtc_l; [apply (step_alloc (start default_config) 7 1); [apply lookup_empty|constructor]|].
  eapply rtc_l; [apply (step_acquire_auth w_alloc url 7 1 opts); vm_compute; reflexivity|].
  apply rtc_once. apply (step_drop w_acq [] guard_ex []). vm_compute. reflexivity.
Qed.

Lemma pool_hands_out_own_auth_witness :
  (acquire_with_auth (w_pool w_back) (w_now w_back) (w_next w_back) url (mkAuth 7 1) opts).1 = Ok guard_ex ∧
  conn_auth (pc_client guard_ex) = Some (mkAuth 7 1).
Proof.
  destruct (acquire_with_auth (w_pool w_back) (w_now w_back) (w_next w_back) url (mkAuth 7 1) opts) as [r p'] eqn:E.
  assert (r = Ok guard_ex) as -> by (apply (f_equal fst) in E; vm_compute in E; by rewrite <- E).
  split; [reflexivity|].
  exact (proj2 (proj2 (pool_hands_out_own_auth w_back url 7 1 opts guard_ex p' w_back_reachable eq_refl E))).
Defined.

Lemma pool_connections_exclusive_witness :
  clients w_back = [pc_client guard_ex] ∧ NoDup (conn_id <$> clients w_back).
Proof.
  split; [vm_compute; reflexivity|]. exact (proj1 (pool_connections_exclusive w_back w_back_reachable)).
Defined.

Lemma take_newest_live_witness :
  ∃ older expired e, [mkIdle (pc_client guard_ex) 0] = older ++ e :: expired ∧
    idle (take_idle (w_pool w_back) 1 (pc_key guard_ex)).2 = <[pc_key guard_ex := older]> (idle (w_pool w_back)).
Proof.
  pose proof (take_newest_live (w_pool w_back) 1 (pc_key guard_ex) [mkIdle (pc_client guard_ex) 0]
    eq_refl ltac:(vm_compute; reflexivity)) as H.
  destruct (take_idle (w_pool w_back) 1 (pc_key guard_ex)) as [c p'] eqn:E.
  assert (c = Some (pc_client guard_ex)) as -> by (apply (f_equal fst) in E; vm_compute in E; by rewrite <- E).
  destruct H as (older & expired & _ & _ & e & Hb & _ & _ & Hi). exists older, expired, e. split; [exact Hb|].
  exact Hi.
Defined.

(** ** Finding *)

Definition conn_to (id : nat) (loc : VgiLocation) : VgiClient := mkClient id loc None None true.

(** Reaping is documented to happen on every acquire, but no acquire reaps:
    an expired connection to one location still counts against the cap, and makes
    the pool close a fresh connection to another, which a reap would have let it
    keep. *)
Theorem expired_connections_fill_the_pool :
  let p := release (new_pool (mkPoolConfig 5 1)) 0 (anonymous (Tcp "a" 1)) (conn_to 0 (Tcp "a" 1)) in
  let '(r, p') := acquire p 100 None 1 (Tcp "b" 1) in
  r = Ok (mkPooled (anonymous (Tcp "b" 1)) (conn_to 1 (Tcp "b" 1)) false) ∧
  evicted_full (counters (release p' 100 (anonymous (Tcp "b" 1)) (conn_to 1 (Tcp "b" 1)))) = 1 ∧
  held (idle (release (reap p' 100).2 100 (anonymous (Tcp "b" 1)) (conn_to 1 (Tcp "b" 1)))) = 1 ∧
  evicted_full (counters (release (reap p' 100).2 100 (anonymous (Tcp "b" 1)) (conn_to 1 (Tcp "b" 1)))) = 0.
Proof. vm_compute. done. Qed.
