(* ===== verification/CatalogContents.v ===== *)
(** [catalog_contents], [vgi/src/catalog_contents.rs]: shaping a catalog's snapshot
    into the wire response, its validation, etags and digests. *)
From S2P Require Import Prelude Codec SqlCompare.

Open Scope Z_scope.

(** * Data *)

(** A schema of a snapshot with its encoded items. *)
Record SchemaContents := mkContents {
  sc_path : list string;
  sc_schema : bytes;
  sc_tables : list bytes;
  sc_views : list bytes;
  scalar_functions : list bytes;
  aggregate_functions : list bytes;
  table_functions : list bytes;
  scalar_macros : list bytes;
  table_macros : list bytes;
  indexes : list bytes;
}.

Record CatalogContentsResult := mkContentsResult {
  cr_schemas : list SchemaContents;
  cr_etag : option string;
  cr_not_modified : bool;
}.
Definition full (schemas : list SchemaContents) (etag : option string) : CatalogContentsResult :=
  mkContentsResult schemas etag false.
Definition not_modified_result (etag : string) : CatalogContentsResult := mkContentsResult [] (Some etag) true.

Inductive CatalogContentsEtag := NoEtag | ContentHash.
#[global] Instance CatalogContentsEtag_eq_dec : EqDecision CatalogContentsEtag.
Proof. solve_decision. Defined.

(** The response: its six streams in wire order. *)
Record CatalogContentsResponse := mkResponse {
  catalog_version : Z;
  etag : option string;
  not_modified : bool;
  streams : list (option bytes);
}.
Definition unchanged (version : Z) (e : string) : CatalogContentsResponse :=
  mkResponse version (Some e) true (replicate 6 None).

(** The kinds of item streams, and the code that merges items into a stream and
    reads the path of a schema item: the [VgiArrow] encodings. *)
Inductive ItemKind := KSchema | KTable | KView | KFunction | KMacro | KIndex.
Class ItemCodec := {
  merge : ItemKind → list bytes → result (option bytes) RpcError;
  schema_info_path : bytes → result (list string) RpcError;
}.

(** * Digests *)

(** What [catalog_contents_digest] hashes. *)
Definition contents_preimage (schemas : list SchemaContents) : bytes :=
  le_bytes 8 (Z.of_nat (length schemas)) ++
  (schemas ≫= λ e, enc_list enc_string (sc_path e) ++ enc_bytes (sc_schema e) ++
    ([sc_tables e; sc_views e; scalar_functions e; aggregate_functions e; table_functions e; scalar_macros e;
      table_macros e; indexes e] ≫= enc_list enc_bytes)).

(** What [catalog_response_digest] hashes. *)
Definition response_preimage (r : CatalogContentsResponse) : bytes :=
  as_bytes "vgi.catalog.contents.2.2" ++ [x00] ++ le_bytes 8 (catalog_version r) ++
  (streams r ≫= λ s, match s with None => [x00] | Some v => x01 :: enc_bytes v end).

Section finish.
Context `{ItemCodec} (hex_sha256 : bytes → string).

Definition catalog_contents_digest (schemas : list SchemaContents) : string := hex_sha256 (contents_preimage schemas).
Definition catalog_response_digest (r : CatalogContentsResponse) : string := hex_sha256 (response_preimage r).

(** * Validation *)

Definition contents_error {A} (msg : string) : result A RpcError := Err (ValueError msg).

(** The first loop of [validate_paths]: the paths seen. *)
Fixpoint check_entries (seen : list (list string)) (schemas : list SchemaContents) :
    result (list (list string)) RpcError :=
  match schemas with
  | [] => Ok seen
  | e :: schemas =>
      if bool_decide (sc_path e = []) then contents_error "catalog_contents returned a schema with an empty path"
      else if bool_decide (sc_path e ∈ seen) then contents_error "catalog_contents returned duplicate schema path"
      else
        let? p := schema_info_path (sc_schema e) in
        if bool_decide (p = sc_path e) then check_entries (sc_path e :: seen) schemas
        else contents_error "catalog_contents: path differs from its SchemaInfo.path"
  end.

Definition parent (path : list string) : list string := take (length path - 1) path.

(** The second loop. *)
Fixpoint check_parents (seen : list (list string)) (schemas : list SchemaContents) : result unit RpcError :=
  match schemas with
  | [] => Ok ()
  | e :: schemas =>
      let p := parent (sc_path e) in
      if negb (bool_decide (p = [])) && negb (bool_decide (p ∈ seen))
      then contents_error "catalog_contents returned schema path without its parent"
      else check_parents seen schemas
  end.

Definition validate_paths (schemas : list SchemaContents) : result unit RpcError :=
  let? seen := check_entries [] schemas in check_parents seen schemas.

(** * The response *)

Definition path_shorter (a b : SchemaContents) : Prop := (length (sc_path a) ≤ length (sc_path b))%nat.
#[global] Instance path_shorter_dec a b : Decision (path_shorter a b).
Proof. unfold path_shorter. apply _. Defined.

Definition from_schema_contents (version : Z) (e : option string) (l : list SchemaContents) :
    result CatalogContentsResponse RpcError :=
  let? schemas := merge KSchema (sc_schema <$> l) in
  let? tables := merge KTable (l ≫= sc_tables) in
  let? views := merge KView (l ≫= sc_views) in
  let? functions := merge KFunction (l ≫= λ s, scalar_functions s ++ aggregate_functions s ++ table_functions s) in
  let? macros := merge KMacro (l ≫= λ s, scalar_macros s ++ table_macros s) in
  let? idx := merge KIndex (l ≫= indexes) in
  Ok (mkResponse version e false [schemas; tables; views; functions; macros; idx]).

(** The etag is the one the client holds. *)
Definition revalidates (e if_none_match : option string) : bool :=
  match e with Some _ => bool_decide (e = if_none_match) | None => false end.

Definition finish (r : CatalogContentsResult) (if_none_match : option string) (version : Z)
    (mode : CatalogContentsEtag) : result CatalogContentsResponse RpcError :=
  if cr_not_modified r then
    match cr_etag r, if_none_match with
    | Some e, Some inm =>
        if String.eqb e inm then
          match cr_schemas r with
          | [] => Ok (unchanged version e)
          | _ => contents_error "catalog_contents returned not_modified with schemas; it must return none"
          end
        else contents_error "catalog_contents returned not_modified, but only a catalog whose etag equals if_none_match may"
    | _, _ => contents_error "catalog_contents returned not_modified, but only a catalog whose etag equals if_none_match may"
    end
  else
    let? _ := validate_paths (cr_schemas r) in
    let sorted := merge_sort path_shorter (cr_schemas r) in
    match cr_etag r with
    | Some e => 
        if revalidates (Some e) if_none_match then Ok (unchanged version e)
        else from_schema_contents version (Some e) sorted
    | None =>
        let? response := from_schema_contents version None sorted in
        if decide (mode = ContentHash) then
          let e := catalog_response_digest response in
          if revalidates (Some e) if_none_match then Ok (unchanged version e)
          else Ok (mkResponse version (Some e) false (streams response))
        else Ok response
    end.
End finish.

(** * Theorems *)

(** ** What the digest covers *)

(** Every list and byte string shorter than 2^64. *)
Definition contents_ok (e : SchemaContents) : Prop :=
  (fits_u64 (sc_path e) ∧ Forall (λ p, fits_u64 (as_bytes p)) (sc_path e)) ∧ fits_u64 (sc_schema e) ∧
  Forall (λ l, fits_u64 l ∧ Forall fits_u64 l)
    [sc_tables e; sc_views e; scalar_functions e; aggregate_functions e; table_functions e; scalar_macros e;
     table_macros e; indexes e].

Lemma delimiting_items : delimiting (λ l : list bytes, fits_u64 l ∧ Forall fits_u64 l) (enc_list enc_bytes).
Proof. apply delimiting_list, delimiting_bytes. Qed.

(** A fixed number of self-delimiting encodings in a row. *)
Lemma delimiting_bind {A} (P : A → Prop) (enc : A → bytes) (x y : list A) (r s : bytes) : delimiting P enc →
  length x = length y → Forall P x → Forall P y → (x ≫= enc) ++ r = (y ≫= enc) ++ s → x = y ∧ r = s.
Proof.
  intros Hd Hl Px. revert y Hl. induction Px as [|a x Pa _ IH]; intros [|b y] Hl Py E; try done.
  apply Forall_cons in Py as [Pb Py]. cbn [mbind list_bind] in E. rewrite <- !app_assoc in E.
  apply Hd in E as [-> E]; [|done..]. destruct (IH y) as [-> ->]; [by injection Hl|done..].
Qed.

Lemma delimiting_entry : delimiting contents_ok (λ e, enc_list enc_string (sc_path e) ++ enc_bytes (sc_schema e) ++
    ([sc_tables e; sc_views e; scalar_functions e; aggregate_functions e; table_functions e; scalar_macros e;
      table_macros e; indexes e] ≫= enc_list enc_bytes)).
Proof.
  intros x y r s (Hp & Hs & Hk) (Hp' & Hs' & Hk') E. rewrite <- !app_assoc in E.
  apply (delimiting_list _ _ delimiting_string) in E as [Ep E]; [|done..].
  apply delimiting_bytes in E as [Es E]; [|done..].
  apply (delimiting_bind _ _ _ _ _ _ delimiting_items) in E as [Ek ->]; [|done..].
  split; [|done]. destruct x, y. cbn in *. by simplify_eq.
Qed.

(** The digest of a snapshot is taken over bytes that determine the snapshot:
    two snapshots share an etag only through a collision of the digest. *)
Theorem contents_digest_injective l l' : fits_u64 l → fits_u64 l' → Forall contents_ok l → Forall contents_ok l' →
  contents_preimage l = contents_preimage l' → l = l'.
Proof.
  intros Hl Hl' Hf Hf' E. unfold contents_preimage, fits_u64 in *.
  apply (delimiting_unsigned 8) in E as [En E]; [|lia..].
  rewrite <- (app_nil_r (l ≫= _)), <- (app_nil_r (l' ≫= _)) in E.
  apply (delimiting_bind _ _ _ _ _ _ delimiting_entry) in E as [-> _]; [done|lia|done..].
Qed.

(** ** Validation *)

Section facts.
Context `{ItemCodec} (hex_sha256 : bytes → string).

Lemma check_entries_spec seen l seen' : check_entries seen l = Ok seen' ↔
  seen' = reverse (sc_path <$> l) ++ seen ∧ Forall (λ e, sc_path e ≠ [] ∧ schema_info_path (sc_schema e) = Ok (sc_path e)) l ∧
  NoDup (sc_path <$> l) ∧ (∀ p, p ∈ seen → p ∉ sc_path <$> l).
Proof.
  revert seen. induction l as [|e l IH]; intros seen; cbn [check_entries].
  { split; [intros [= <-]|intros (-> & _); reflexivity]. split_and!; [done|constructor|constructor|].
    intros p _. apply not_elem_of_nil. }
  rewrite fmap_cons, reverse_cons, <- app_assoc, Forall_cons, NoDup_cons.
  destruct (bool_decide_reflect (sc_path e = [])) as [E|E]; [split; [done|naive_solver]|].
  destruct (bool_decide_reflect (sc_path e ∈ seen)) as [Hs|Hs].
  { split; [done|]. intros (_ & _ & _ & Hd). destruct (Hd _ Hs). left. }
  destruct (schema_info_path (sc_schema e)) as [p|] eqn:Hp; [|split; [done|naive_solver]].
  destruct (bool_decide_reflect (p = sc_path e)) as [->|]; [|split; [done|naive_solver]].
  rewrite IH. cbn [app]. split.
  - intros (-> & Hf & Hn & Hd). split_and!; try done; [|].
    + apply Hd. left.
    + intros q Hq. rewrite not_elem_of_cons. split; [by intros ->|]. apply Hd. by right.
  - intros (-> & [_ Hf] & [Hni Hn] & Hd). split_and!; [done..|].
    intros q [->|Hq]%elem_of_cons; [done|]. intros Hl. apply (Hd q Hq). by right.
Qed.

Lemma check_parents_spec seen l : check_parents seen l = Ok () ↔
  Forall (λ e, parent (sc_path e) = [] ∨ parent (sc_path e) ∈ seen) l.
Proof.
  induction l as [|e l IH]; cbn [check_parents]; [done|]. rewrite Forall_cons, <- IH.
  destruct (bool_decide_reflect (parent (sc_path e) = [])), (bool_decide_reflect (parent (sc_path e) ∈ seen));
    cbn; naive_solver.
Qed.

(** What a valid snapshot is: distinct non-empty paths, each the one inside its
    schema item, and closed under parents. *)
Definition valid_snapshot (l : list SchemaContents) : Prop :=
  NoDup (sc_path <$> l) ∧
  Forall (λ e, sc_path e ≠ [] ∧ schema_info_path (sc_schema e) = Ok (sc_path e) ∧
               (parent (sc_path e) = [] ∨ parent (sc_path e) ∈ sc_path <$> l)) l.

Lemma validate_paths_spec l : validate_paths l = Ok () ↔ valid_snapshot l.
Proof.
  unfold validate_paths, valid_snapshot. split.
  - destruct (check_entries [] l) as [seen|] eqn:E; [|done]. intros Hp.
    apply check_entries_spec in E as (-> & Hf & Hn & _). apply check_parents_spec in Hp. split; [done|].
    rewrite app_nil_r in Hp. rewrite Forall_forall in *. intros e He. destruct (Hf e He) as [? ?].
    split_and!; [done..|]. destruct (Hp e He) as [?|Hin]; [by left|right]. by rewrite elem_of_reverse in Hin.
  - intros [Hn Hf]. assert (check_entries [] l = Ok (reverse (sc_path <$> l))) as ->.
    { apply check_entries_spec. rewrite app_nil_r. split_and!; [done| |done|intros p Hp; by apply not_elem_of_nil in Hp].
      eapply Forall_impl; [exact Hf|]. naive_solver. }
    apply check_parents_spec. eapply Forall_impl; [exact Hf|]. intros e (_ & _ & [?|?]); [by left|right].
    by apply elem_of_reverse.
Qed.

(** ** The response *)

(** Items come parents first. *)
Definition parents_first (l : list SchemaContents) : Prop :=
  ∀ i e, l !! i = Some e → parent (sc_path e) ≠ [] →
  ∃ j e', (j < i)%nat ∧ l !! j = Some e' ∧ sc_path e' = parent (sc_path e).

#[local] Instance path_shorter_total : Total path_shorter.
Proof. intros a b. unfold path_shorter. lia. Qed.
#[local] Instance path_shorter_trans : Transitive path_shorter.
Proof. intros a b c. unfold path_shorter. lia. Qed.

Lemma sorted_lookup (l : list SchemaContents) i j a b : StronglySorted path_shorter l → (i ≤ j)%nat →
  l !! i = Some a → l !! j = Some b → path_shorter a b.
Proof.
  intros Hs. revert i j. induction Hs as [|x l _ IH Hf]; intros i j Hij Ha Hb; [by rewrite lookup_nil in Ha|].
  destruct i as [|i], j as [|j]; cbn in Ha, Hb; [simplify_eq; by unfold path_shorter| |lia|].
  - simplify_eq. rewrite Forall_forall in Hf. apply Hf. by eapply list_elem_of_lookup_2.
  - apply (IH i j); [lia|done..].
Qed.

Lemma sorted_parents_first l : valid_snapshot l → parents_first (merge_sort path_shorter l).
Proof.
  intros [_ Hf] i e Hi Hp. assert (Hperm := merge_sort_Permutation path_shorter l).
  assert (He : e ∈ l) by (rewrite <- Hperm; by eapply list_elem_of_lookup_2).
  rewrite Forall_forall in Hf. destruct (Hf e He) as (Hne & _ & [?|Hin]); [done|].
  apply list_elem_of_fmap in Hin as (e' & Hpar & He'). rewrite <- Hperm in He'.
  apply list_elem_of_lookup in He' as [j Hj]. exists j, e'. split_and!; [|done|done].
  destruct (Nat.lt_ge_cases j i) as [|Hge]; [done|exfalso].
  assert (Hs := sorted_lookup _ i j e e' (StronglySorted_merge_sort path_shorter l) Hge Hi Hj).
  unfold path_shorter in Hs. rewrite <- Hpar in Hs. unfold parent in Hs. rewrite length_take in Hs.
  destruct (sc_path e); [done|cbn in Hs; lia].
Qed.

Lemma from_schema_contents_Ok v e l r : from_schema_contents v e l = Ok r →
  catalog_version r = v ∧ etag r = e ∧ not_modified r = false ∧ from_schema_contents v None l = Ok (mkResponse v None false (streams r)).
Proof.
  unfold from_schema_contents. repeat (destruct (merge _ _); [|done]). by intros [= <-].
Qed.

(** The wire rules of catalog_contents hold of every response, whatever the
    catalog's hook returned: "not modified" only with the etag the client sent and
    no streams; otherwise the streams of a valid snapshot, parents first, under an
    etag the client does not already hold, which is there whenever content hashing
    is on. *)
Theorem finish_rules r inm v mode resp : finish hex_sha256 r inm v mode = Ok resp →
  catalog_version resp = v ∧
  if not_modified resp then ∃ e, etag resp = Some e ∧ inm = Some e ∧ streams resp = replicate 6 None
  else (etag resp ≠ None → etag resp ≠ inm) ∧ (mode = ContentHash → etag resp ≠ None) ∧ valid_snapshot (cr_schemas r) ∧
       ∃ l, l ≡ₚ cr_schemas r ∧ parents_first l ∧ from_schema_contents v None l = Ok (mkResponse v None false (streams resp)).
Proof.
  unfold finish. destruct (cr_not_modified r).
  { destruct (cr_etag r) as [e|], inm as [i|]; try done. destruct (String.eqb_spec e i) as [->|]; [|done].
    destruct (cr_schemas r); [|done]. intros [= <-]. cbn. eauto. }
  destruct (validate_paths (cr_schemas r)) as [[]|] eqn:Hv; [|done]. apply validate_paths_spec in Hv.
  assert (Hsort : ∃ l, l = merge_sort path_shorter (cr_schemas r) ∧ l ≡ₚ cr_schemas r ∧ parents_first l)
    by (eexists; split_and!; [done|apply merge_sort_Permutation|by apply sorted_parents_first]).
  destruct Hsort as (l & <- & Hp & Hl). destruct (cr_etag r) as [e|].
  - cbn [revalidates]. destruct (bool_decide_reflect (Some e = inm)) as [<-|Hne].
    { intros [= <-]. cbn. eauto. }
    intros (Hver & He & Hnm & Hf)%from_schema_contents_Ok. rewrite Hnm, He. eauto 10.
  - destruct (from_schema_contents v None l) as [r0|] eqn:Hf; [|done].
    destruct (from_schema_contents_Ok _ _ _ _ Hf) as (Hver & He & Hnm & Hf'). rewrite Hf in Hf'.
    destruct (decide (mode = ContentHash)) as [->|Hm].
    + cbn [revalidates]. destruct (bool_decide_reflect (Some (catalog_response_digest hex_sha256 r0) = inm)) as [<-|Hne];
        intros [= <-]; cbn; [by eauto|]. rewrite Hf' in Hf. split_and!; [done..|]. by exists l.
    + intros [= <-]. rewrite Hnm, He. split; [done|]. split_and!; try done. exists l. by rewrite Hf, Hf'.
Qed.
End facts.

(** * Examples *)

Definition example_entry : SchemaContents := mkContents ["main"] [x01] [[x02]] [] [] [] [] [] [] [].

Lemma contents_digest_injective_witness :
  contents_preimage [example_entry] = contents_preimage [example_entry] ∧ [example_entry] = [example_entry].
Proof.
  split; [reflexivity|]. apply contents_digest_injective; [reflexivity|reflexivity|..|reflexivity].
  - repeat constructor.
  - repeat constructor.
Defined.

Definition example_codec : ItemCodec := {|
  merge := λ _ l, Ok (match l with [] => None | _ => Some (concat l) end);
  schema_info_path := λ _, Ok ["main"];
|}.

Lemma finish_rules_witness :
  ∃ resp, @finish example_codec (λ _, "h") (full [example_entry] (Some "e2")) (Some "e1") 7 ContentHash = Ok resp ∧
    catalog_version resp = 7 ∧ not_modified resp = false ∧ etag resp = Some "e2".
Proof.
  eexists. split; [vm_compute; reflexivity|].
  pose proof (@finish_rules example_codec (λ _, "h") (full [example_entry] (Some "e2")) (Some "e1") 7 ContentHash _ eq_refl) as H.
  cbn in H. destruct H as [Hv _]. split; [exact Hv|]. split; reflexivity.
Defined.
