(* ===== verification/StoredCatalog.v ===== *)
(** Stored catalogs, [vgi/src/stored_catalog.rs]: DDL-capable catalogs whose state is
    an event log in the worker's storage, replayed on every read. *)
From S2P Require Import Prelude StorageSpec Float64 Arrow SqlCompare CatalogContents.

Open Scope Z_scope.

(** * Data *)

(** The error of a catalog call, by its code. *)
Inductive CatError :=
| NotFound (msg : string)
| InvalidArgument (msg : string)
| Conflict (msg : string)
| Unimplemented (msg : string)
| OtherError (e : RpcError).

Inductive OnConflict := OnError | OnIgnore | OnReplace.
#[global] Instance OnConflict_eq_dec : EqDecision OnConflict.
Proof. solve_decision. Defined.

Abbreviation Tags := (list (string * string)).

Inductive Event :=
| Attached
| SchemaCreate (path : list string) (comment : option string) (tags : Tags) (on_conflict : OnConflict)
| SchemaDrop (path : list string) (ignore_not_found cascade : bool)
| TableCreate (path : list string) (name : string) (columns : bytes)
    (not_null : list Z) (unique : list (list Z)) (check : list string) (primary_key : list (list Z))
    (on_conflict : OnConflict)
| TableDrop (path : list string) (name : string) (ignore_not_found : bool)
| ViewCreate (path : list string) (name definition : string) (aliases : list string) (comment : option string)
    (tags column_comments : Tags) (on_conflict : OnConflict)
| ViewCommentSet (path : list string) (name : string) (column comment : option string) (ignore_not_found : bool)
| ViewDrop (path : list string) (name : string) (ignore_not_found : bool).

Record StoredTable := mkTable { t_name : string; t_columns : bytes }.
Record StoredView := mkView {
  v_name : string; v_definition : string; v_aliases : list string; v_comment : option string;
  v_tags : Tags; v_column_comments : Tags }.
Record StoredSchema := mkSchema {
  s_path : list string; s_comment : option string; s_tags : Tags;
  s_tables : list StoredTable; s_views : list StoredView }.
Record State := mkState { version : Z; schemas : list StoredSchema }.

Definition DEFAULT_SCHEMA : string := "main".

(** * Names *)

Definition same (a b : string) : bool := eq_ignore_ascii_case a b.
Definition same_path (a b : list string) : bool :=
  (length a =? length b)%nat && forallb (λ '(x, y), same x y) (zip a b).

Definition empty_schema (path : list string) : StoredSchema := mkSchema path None [] [] [].
Definition table (s : StoredSchema) (n : string) : option StoredTable := find (λ t, same (t_name t) n) (s_tables s).
Definition view_ (s : StoredSchema) (n : string) : option StoredView := find (λ v, same (v_name v) n) (s_views s).

Definition new_state : State := mkState 1 [empty_schema [DEFAULT_SCHEMA]].
Definition schema_ (st : State) (path : list string) : option StoredSchema :=
  find (λ s, same_path (s_path s) path) (schemas st).

Definition dotted_path (path : list string) : string := String.concat "." path.
Definition schema_missing {A} (path : list string) : result A CatError :=
  Err (NotFound ("Schema '" +:+ dotted_path path +:+ "' not found")).

(** [iter().position(p)]. *)
Fixpoint pos_of {A} (p : A → bool) (l : list A) : option nat :=
  match l with
  | [] => None
  | x :: l => if p x then Some 0%nat else S <$> pos_of p l
  end.

(** [schema_mut(path)?] and what is done to the schema. *)
Definition schema_mut {A} (st : State) (path : list string) (f : StoredSchema → result (A * StoredSchema) CatError) :
    result (A * State) CatError :=
  match pos_of (λ s, same_path (s_path s) path) (schemas st) with
  | None => schema_missing path
  | Some i =>
      match schemas st !! i with
      | Some s => let? (a, s) := f s in Ok (a, mkState (version st) (<[i := s]> (schemas st)))
      | None => schema_missing path
      end
  end.

(** * Applying an event *)

(** [CREATE] of a named object beside others of its kind: whether it changed the list,
    and the list. *)
Definition put_named {T} (name_of : T → string) (kind : string) (items : list T) (x : T) (on_conflict : OnConflict) :
    result (bool * list T) CatError :=
  match pos_of (λ y, same (name_of y) (name_of x)) items with
  | Some i =>
      match on_conflict with
      | OnIgnore => Ok (false, items)
      | OnReplace => Ok (true, <[i := x]> items)
      | OnError => Err (Conflict (kind +:+ " with name '" +:+ name_of x +:+ "' already exists"))
      end
  | None => Ok (true, items ++ [x])
  end.

(** [Vec::remove]. *)
Fixpoint remove_at {T} (i : nat) (l : list T) : list T :=
  match i, l with
  | _, [] => []
  | O, _ :: l => l
  | S i, x :: l => x :: remove_at i l
  end.

Definition drop_named {T} (st : State) (path : list string) (n : string) (ignore_not_found : bool) (kind : string)
    (list_of : StoredSchema → list T) (set : list T → StoredSchema → StoredSchema) (name_of : T → string) :
    result (bool * State) CatError :=
  let missing := if ignore_not_found then Ok (false, st)
                 else Err (NotFound (kind +:+ " '" +:+ dotted_path path +:+ "." +:+ n +:+ "' not found")) in
  match pos_of (λ s, same_path (s_path s) path) (schemas st) with
  | None => missing
  | Some i =>
      match schemas st !! i with
      | None => missing
      | Some s =>
          match pos_of (λ x, same (name_of x) n) (list_of s) with
          | Some j => Ok (true, mkState (version st) (<[i := set (remove_at j (list_of s)) s]> (schemas st)))
          | None => missing
          end
      end
  end.

Definition set_tables (l : list StoredTable) (s : StoredSchema) : StoredSchema :=
  mkSchema (s_path s) (s_comment s) (s_tags s) l (s_views s).
Definition set_views (l : list StoredView) (s : StoredSchema) : StoredSchema :=
  mkSchema (s_path s) (s_comment s) (s_tags s) (s_tables s) l.

Definition with_schemas (st : State) (l : list StoredSchema) : State := mkState (version st) l.

(** A schema below [path]. *)
Definition is_child (path : list string) (s : StoredSchema) : bool :=
  (length path <? length (s_path s))%nat && same_path (take (length path) (s_path s)) path.

Definition schema_create (st : State) (path : list string) (comment : option string) (tags : Tags)
    (on_conflict : OnConflict) : result (bool * State) CatError :=
  match path with
  | [] => Err (InvalidArgument "schema path must not be empty")
  | _ =>
      let up := take (length path - 1) path in
      if (1 <? length path)%nat && negb (bool_decide (is_Some (schema_ st up))) then schema_missing up
      else
        let fresh := mkSchema path comment tags [] [] in
        match pos_of (λ s, same_path (s_path s) path) (schemas st) with
        | Some i =>
            match on_conflict with
            | OnIgnore => Ok (false, st)
            | OnReplace => Ok (true, with_schemas st (<[i := fresh]> (schemas st)))
            | OnError => Err (Conflict ("Schema with name '" +:+ dotted_path path +:+ "' already exists"))
            end
        | None => Ok (true, with_schemas st (schemas st ++ [fresh]))
        end
  end.

Definition occupied (st : State) (s : StoredSchema) (path : list string) : bool :=
  negb (length (s_tables s) =? 0)%nat || negb (length (s_views s) =? 0)%nat || existsb (is_child path) (schemas st).

Definition schema_drop (st : State) (path : list string) (ignore_not_found cascade : bool) :
    result (bool * State) CatError :=
  match pos_of (λ s, same_path (s_path s) path) (schemas st) ≫= λ i, schemas st !! i with
  | None => if ignore_not_found then Ok (false, st) else schema_missing path
  | Some s =>
      if same_path path [DEFAULT_SCHEMA] then Err (Conflict "cannot drop the default schema 'main'")
      else if occupied st s path && negb cascade
      then Err (Conflict ("Schema '" +:+ dotted_path path +:+ "' is not empty; use CASCADE"))
      else Ok (true, with_schemas st
             (filter (λ s, negb (same_path (s_path s) path) && negb (is_child path s) = true) (schemas st)))
  end.

Definition table_create (s : StoredSchema) (n : string) (columns : bytes) (on_conflict : OnConflict) :
    result (bool * StoredSchema) CatError :=
  if bool_decide (is_Some (view_ s n)) then Err (Conflict ("A view named '" +:+ n +:+ "' already exists"))
  else let? (b, l) := put_named t_name "Table" (s_tables s) (mkTable n columns) on_conflict in
       Ok (b, set_tables l s).

Definition view_create (s : StoredSchema) (v : StoredView) (on_conflict : OnConflict) :
    result (bool * StoredSchema) CatError :=
  if bool_decide (is_Some (table s (v_name v))) then Err (Conflict ("A table named '" +:+ v_name v +:+ "' already exists"))
  else let? (b, l) := put_named v_name "View" (s_views s) v on_conflict in
       Ok (b, set_views l s).

Definition set_comment (v : StoredView) (column comment : option string) : StoredView :=
  match column with
  | Some c =>
      mkView (v_name v) (v_definition v) (v_aliases v) (v_comment v) (v_tags v)
        (filter (λ kv, kv.1 ≠ c) (v_column_comments v) ++ match comment with Some x => [(c, x)] | None => [] end)
  | None => mkView (v_name v) (v_definition v) (v_aliases v) comment (v_tags v) (v_column_comments v)
  end.

Definition view_comment_set (s : StoredSchema) (n : string) (column comment : option string) (ignore_not_found : bool) :
    result (bool * StoredSchema) CatError :=
  match pos_of (λ v, same (v_name v) n) (s_views s) with
  | None => if ignore_not_found then Ok (false, s)
            else Err (Conflict ("View with name '" +:+ n +:+ "' does not exist"))
  | Some i => Ok (true, set_views (alter (λ v, set_comment v column comment) i (s_views s)) s)
  end.

(** [State::apply]: whether the catalog changed, and the state. *)
Definition apply (st : State) (e : Event) : result (bool * State) CatError :=
  match e with
  | Attached => Ok (false, st)
  | SchemaCreate path comment tags oc => schema_create st path comment tags oc
  | SchemaDrop path ignore cascade => schema_drop st path ignore cascade
  | TableCreate path n columns _ _ _ _ oc => schema_mut st path (λ s, table_create s n columns oc)
  | TableDrop path n ignore => drop_named st path n ignore "Table" s_tables set_tables t_name
  | ViewCreate path n definition aliases comment tags column_comments oc =>
      schema_mut st path (λ s, view_create s (mkView n definition aliases comment tags column_comments) oc)
  | ViewCommentSet path n column comment ignore =>
      schema_mut st path (λ s, view_comment_set s n column comment ignore)
  | ViewDrop path n ignore => drop_named st path n ignore "View" s_views set_views v_name
  end.

(** Replay: an event that does not apply is skipped, without a version bump. *)
Definition step (st : State) (e : Event) : State :=
  match apply st e with
  | Ok (true, st') => mkState (version st' + 1) (schemas st')
  | _ => st
  end.

(** * Column checks *)

(** [require_unconstrained_columns]; the fuel is the depth it refuses to pass. *)
Definition MAX_COLUMN_DEPTH : nat := 64.
Definition has_key (k : string) (md : list (string * string)) : bool := existsb (λ kv, String.eqb kv.1 k) md.
Definition logical_key (k : string) : bool :=
  String.eqb k "ARROW:extension:name" || bool_decide (is_Some (strip_prefix "vgi.logical_type." k)).

Fixpoint visit (fuel : nat) (f : Field) (top : bool) : result unit CatError :=
  match fuel with
  | O => Err (Unimplemented "catalog_table_create: column nesting exceeds supported depth")
  | S fuel =>
      let '(mkField n t nullable md) := f in
      if top && has_key "is_row_id" md then Ok ()
      else if existsb (λ kv, logical_key kv.1) md
      then Err (Unimplemented "catalog_table_create: logical column types require negotiation")
      else if negb nullable
      then Err (Unimplemented ("catalog_table_create: column '" +:+ n +:+ "' is non-nullable"))
      else match t with
           | Struct children =>
               (fix go (l : list Field) : result unit CatError :=
                  match l with [] => Ok () | c :: l => let? _ := visit fuel c false in go l end) children
           | _ => Ok ()
           end
  end.
Fixpoint require_unconstrained_columns (fields : Schema) : result unit CatError :=
  match fields with
  | [] => Ok ()
  | f :: fields => let? _ := visit (S MAX_COLUMN_DEPTH) f true in require_unconstrained_columns fields
  end.

(** * Sessions *)

Record SchemaInfo := mkSchemaInfo {
  si_path : list string; si_comment : option string; si_attach : bytes; si_tags : Tags; si_counts : list (string * Z) }.
Record ViewInfo := mkViewInfo {
  vi_comment : option string; vi_tags : Tags; vi_name : string; vi_schema_path : list string;
  vi_definition : string; vi_column_comments : Tags; vi_aliases : list string; vi_security : string }.

(** The code the catalog calls: serde's JSON of an event, the encodings of the
    listed items (for a table with the checks of its stored columns), and the
    checks of the columns of a new table. *)
Class CatalogCodec := {
  encode_event : Event → result bytes string;
  decode_event : bytes → result Event string;
  schema_item : SchemaInfo → result bytes RpcError;
  view_item : ViewInfo → result bytes RpcError;
  table_item : list string → StoredTable → result bytes RpcError;
  read_columns : bytes → result Schema RpcError;
  validate_columns : bytes → list string → result unit RpcError;
}.

(** [StoredCatalog]; the provider is given the attach, the client's etag, the version,
    the generation and the snapshot as built. *)
Record StoredCatalog := mkStored {
  c_name : string;
  c_versioned : bool;
  c_provider : option (bytes → option string → Z → Z → result (list SchemaContents) RpcError →
                       result CatalogContentsResult RpcError);
  c_etag : CatalogContentsEtag;
}.

Definition LOG_NS : bytes := as_bytes "ddl".
Definition LOG_KEY : bytes := as_bytes "log".
Definition option_list {A} (o : option A) : list A := match o with Some x => [x] | None => [] end.
Definition other {A} (r : result A RpcError) : result A CatError := map_err OtherError r.

(** [OnConflict::parse]. *)
Definition parse_on_conflict (s : string) : result OnConflict CatError :=
  let l := string_of_bytes (ascii_lower <$> as_bytes s) in
  if String.eqb l "error" || String.eqb l "" then Ok OnError
  else if String.eqb l "ignore" then Ok OnIgnore
  else if String.eqb l "replace" then Ok OnReplace
  else Err (InvalidArgument ("unknown on_conflict '" +:+ l +:+ "' (expected error, ignore or replace)")).

Fixpoint collect {A B E} (f : A → result B E) (l : list A) : result (list B) E :=
  match l with
  | [] => Ok []
  | x :: l => let? y := f x in let? ys := collect f l in Ok (y :: ys)
  end.

Definition schema_info (attach : bytes) (s : StoredSchema) : SchemaInfo :=
  mkSchemaInfo (s_path s) (s_comment s) attach (s_tags s)
    [("table", Z.of_nat (length (s_tables s))); ("view", Z.of_nat (length (s_views s))); ("macro", 0); ("index", 0);
     ("scalar_function", 0); ("aggregate_function", 0); ("table_function", 0)].
Definition view_info (path : list string) (v : StoredView) : ViewInfo :=
  mkViewInfo (v_comment v) (v_tags v) (v_name v) path (v_definition v) (v_column_comments v) (v_aliases v) "regular".

Section sessions.
Context {St : Type} `{FunctionStorage St, CatalogCodec, ItemCodec} (hex_sha256 : bytes → string).

Definition scope (cat : StoredCatalog) (session : bytes) : bytes :=
  as_bytes "vgi.stored_catalog" ++ [x00] ++ as_bytes (c_name cat) ++ [x00] ++ session.

Definition append_event (cat : StoredCatalog) (s : St) (session : bytes) (e : Event) : result unit CatError * St :=
  match encode_event e with
  | Ok b => (Ok (), (append s (scope cat session) LOG_NS LOG_KEY b).2)
  | Err m => (Err (OtherError (RuntimeError (c_name cat +:+ ": encode DDL: " +:+ m))), s)
  end.

Definition decode (cat : StoredCatalog) (b : bytes) : result Event CatError :=
  map_err (λ m, OtherError (RuntimeError (c_name cat +:+ ": corrupt DDL log: " +:+ m))) (decode_event b).

(** The loop of [load]. *)
Fixpoint replay (cat : StoredCatalog) (st : State) (log : list bytes) : result State CatError :=
  match log with
  | [] => Ok st
  | b :: log => let? e := decode cat b in replay cat (step st e) log
  end.

Definition load (cat : StoredCatalog) (s : St) (session : bytes) : result State CatError :=
  let detached := Err (NotFound ("catalog '" +:+ c_name cat +:+ "' is not attached (unknown or detached session)")) in
  match snd <$> scan s (scope cat session) LOG_NS LOG_KEY (-1) usize_max with
  | [] => detached
  | b :: log =>
      let? e := decode cat b in
      match e with Attached => replay cat new_state log | _ => detached end
  end.

Definition mutate (cat : StoredCatalog) (s : St) (session : bytes) (e : Event) : result unit CatError * St :=
  match load cat s session with
  | Err err => (Err err, s)
  | Ok st =>
      match apply st e with
      | Err err => (Err err, s)
      | Ok (true, _) => append_event cat s session e
      | Ok (false, _) => (Ok (), s)
      end
  end.

Definition reported_version (cat : StoredCatalog) (st : State) : Z := if c_versioned cat then version st else 0.

(** [attach]: the version it reports. *)
Definition attach_catalog (cat : StoredCatalog) (s : St) (session : bytes) : result Z CatError * St :=
  match append_event cat (clear s (scope cat session)) session Attached with
  | (Err e, s) => (Err e, s)
  | (Ok _, s) => ((let? st := load cat s session in Ok (reported_version cat st)), s)
  end.

(** * Listings *)

Definition table_items (st : State) (path : list string) : result (list bytes) RpcError :=
  match schema_ st path with
  | Some s => collect (table_item (s_path s)) (s_tables s)
  | None => Ok []
  end.
Definition view_items (st : State) (path : list string) : result (list bytes) RpcError :=
  match schema_ st path with
  | Some s => collect (λ v, view_item (view_info (s_path s) v)) (s_views s)
  | None => Ok []
  end.

Definition snapshot (st : State) (attach : bytes) : result (list SchemaContents) RpcError :=
  collect (λ s,
    let? item := schema_item (schema_info attach s) in
    let? tables := table_items st (s_path s) in
    let? views := view_items st (s_path s) in
    Ok (mkContents (s_path s) item tables views [] [] [] [] [] [])) (schemas st).

Definition contents (cat : StoredCatalog) (s : St) (attach session : bytes) (if_none_match : option string) :
    result CatalogContentsResponse CatError :=
  let? st := load cat s session in
  let v := reported_version cat st in
  let build := snapshot st attach in
  let? r := other (match c_provider cat with
                   | Some provider => provider attach if_none_match v (Z.max 0 (version st)) build
                   | None => let? l := build in Ok (full l None)
                   end) in
  other (finish hex_sha256 r if_none_match v (c_etag cat)).

(** * Requests *)

(** A decoded catalog request. *)
Inductive CatRequest :=
| Detach | GetVersion | TransactionBegin | TransactionEnd
| ListSchemas | SchemaGet (path : list string)
| ContentsTables (path : list string) | ContentsViews (path : list string) | ContentsNone
| TableGet (path : list string) (name : string) | ViewGet (path : list string) (name : string)
| ColumnStatistics | ScanFunctionGet
| Contents (if_none_match : option string)
| CreateSchema (path : list string) (comment : option string) (tags : option Tags) (options : bool) (on_conflict : string)
| DropSchema (path : list string) (ignore_not_found cascade : bool)
| CreateTable (path : list string) (name : string) (columns : bytes) (constraints extras : bool) (on_conflict : string)
| DropTable (path : list string) (name : string) (ignore_not_found : bool)
| CreateView (path : list string) (name definition : string) (aliases : option (list string)) (comment : option string)
    (tags column_comments : option Tags) (security on_conflict : string)
| SetViewColumnComment (path : list string) (name : string) (column_path : list string) (comment : option string)
    (ignore_not_found : bool)
| SetViewComment (path : list string) (name : string) (comment : option string) (ignore_not_found : bool)
| DropView (path : list string) (name : string) (ignore_not_found : bool)
| OtherMethod (name : string).

Inductive CatReply :=
| Nothing | Version (v : Z) | Begun | Items (l : list bytes) | NoStatistics | ContentsOf (r : CatalogContentsResponse).

Definition raw_identifier (n : string) : bool := negb (String.eqb n "") && negb (bool_decide (x00 ∈ as_bytes n)).

(** What a DDL request appends, if its own checks pass: changes of a view, and the others. *)
Definition view_event_of (r : CatRequest) : result (option Event) CatError :=
  match r with
  | SetViewColumnComment path n column_path comment ignore =>
      match column_path with
      | [c] => if raw_identifier c then Ok (Some (ViewCommentSet path n (Some c) comment ignore))
               else Err (OtherError (ValueError "view column comments require one raw output identifier"))
      | _ => Err (OtherError (ValueError "view column comments require one raw output identifier"))
      end
  | SetViewComment path n comment ignore => Ok (Some (ViewCommentSet path n None comment ignore))
  | DropView path n ignore => Ok (Some (ViewDrop path n ignore))
  | _ => Ok None
  end.
Definition event_of (cat : StoredCatalog) (r : CatRequest) : result (option Event) CatError :=
  match r with
  | CreateSchema path comment tags options oc =>
      if options then Err (Unimplemented "catalog_schema_create requires negotiated vgi.schema.options.create.v1")
      else let? c := parse_on_conflict oc in Ok (Some (SchemaCreate path comment (default [] tags) c))
  | DropSchema path ignore cascade => Ok (Some (SchemaDrop path ignore cascade))
  | CreateTable path n columns constraints extras oc =>
      if constraints then Err (Unimplemented ("catalog '" +:+ c_name cat +:+ "' does not support CREATE TABLE constraints"))
      else if extras then Err (Unimplemented "catalog_table_create requires negotiated table profiles")
      else
        let? _ := other (validate_columns columns path) in
        let? fields := other (read_columns columns) in
        let? _ := require_unconstrained_columns fields in
        let? c := parse_on_conflict oc in
        Ok (Some (TableCreate path n columns [] [] [] [] c))
  | DropTable path n ignore => Ok (Some (TableDrop path n ignore))
  | CreateView path n definition aliases comment tags column_comments security oc =>
      if existsb (λ kv, negb (raw_identifier kv.1)) (default [] column_comments)
      then Err (OtherError (ValueError "view column comments require raw output identifiers"))
      else if negb (String.eqb security "regular") then Err (OtherError (ValueError "view security mode is unsupported"))
      else let? c := parse_on_conflict oc in
           Ok (Some (ViewCreate path n definition (default [] aliases) comment (default [] tags)
                       (default [] column_comments) c))
  | _ => view_event_of r
  end.

(** The requests that read. *)
Definition handle_read (cat : StoredCatalog) (s : St) (attach session : bytes) (r : CatRequest) : result CatReply CatError :=
  match r with
  | GetVersion => let? st := load cat s session in Ok (Version (reported_version cat st))
  | TransactionBegin => Ok Begun
  | TransactionEnd => Ok Nothing
  | ListSchemas =>
      let? st := load cat s session in
      let? l := other (collect (λ x, schema_item (schema_info attach x)) (schemas st)) in Ok (Items l)
  | SchemaGet path =>
      let? st := load cat s session in
      let? l := other (collect (λ x, schema_item (schema_info attach x)) (option_list (schema_ st path))) in Ok (Items l)
  | ContentsTables path => let? st := load cat s session in let? l := other (table_items st path) in Ok (Items l)
  | ContentsViews path => let? st := load cat s session in let? l := other (view_items st path) in Ok (Items l)
  | ContentsNone => Ok (Items [])
  | TableGet path n =>
      let? st := load cat s session in
      let? l := other (collect (table_item path) (option_list (schema_ st path ≫= λ x, table x n))) in Ok (Items l)
  | ViewGet path n =>
      let? st := load cat s session in
      let? l := other (collect (λ v, view_item (view_info path v)) (option_list (schema_ st path ≫= λ x, view_ x n))) in
      Ok (Items l)
  | ColumnStatistics => Ok NoStatistics
  | ScanFunctionGet =>
      Err (Unimplemented ("catalog '" +:+ c_name cat +:+ "' stores table metadata only; its tables have no rows to scan"))
  | Contents inm => let? x := contents cat s attach session inm in Ok (ContentsOf x)
  | OtherMethod m => Err (Unimplemented ("catalog '" +:+ c_name cat +:+ "' does not support " +:+ m))
  | _ => Ok Nothing
  end.

Definition handle (cat : StoredCatalog) (s : St) (attach session : bytes) (r : CatRequest) : result CatReply CatError * St :=
  match r with
  | Detach => (Ok Nothing, clear s (scope cat session))
  | _ =>
      match event_of cat r with
      | Err e => (Err e, s)
      | Ok (Some e) => let '(out, s) := mutate cat s session e in ((let? _ := out in Ok Nothing), s)
      | Ok None => (handle_read cat s attach session r, s)
      end
  end.
End sessions.
