(* ===== verification/StoredCatalogFacts.v ===== *)
(** Stored catalogs: the abstract catalog they implement, a finite map from
    case-folded schema paths to case-folded object names, and the proof that the
    replayed event log refines it; sessions over a storage backend; snapshots. *)
From S2P Require Import Prelude StorageSpec Float64 Arrow SqlCompare CatalogContents StoredCatalog StorageMemory StorageBackends.

Open Scope Z_scope.

(** * The abstract catalog *)

(** Identifiers are equal up to ASCII case: [fold] is the canonical spelling. *)
Definition fold (n : string) : bytes := ascii_lower <$> as_bytes n.
Abbreviation fpath := (list bytes).
Definition fold_path (p : list string) : fpath := fold <$> p.

Inductive Object := OTable (t : StoredTable) | OView (v : StoredView).
Record ASchema := mkASchema { a_path : list string; a_comment : option string; a_tags : Tags; a_objects : gmap bytes Object }.
Abbreviation ACatalog := (gmap fpath ASchema).

Definition is_view (o : Object) : bool := match o with OView _ => true | _ => false end.
Definition with_objects (s : ASchema) (m : gmap bytes Object) : ASchema := mkASchema (a_path s) (a_comment s) (a_tags s) m.

(** [CREATE] of an object: the other kind may not hold the name. *)
Definition spec_put (c : ACatalog) (path : list string) (n : string) (o : Object) (oc : OnConflict) :
    result (bool * ACatalog) CatError :=
  let kind := if is_view o then "View" else "Table" in
  let clash := if is_view o then "A table named '" else "A view named '" in
  match c !! fold_path path with
  | None => schema_missing path
  | Some s =>
      let put := Ok (true, <[fold_path path := with_objects s (<[fold n := o]> (a_objects s))]> c) in
      match a_objects s !! fold n with
      | None => put
      | Some o' =>
          if negb (Bool.eqb (is_view o') (is_view o)) then Err (Conflict (clash +:+ n +:+ "' already exists"))
          else match oc with
               | OnIgnore => Ok (false, c)
               | OnReplace => put
               | OnError => Err (Conflict (kind +:+ " with name '" +:+ n +:+ "' already exists"))
               end
      end
  end.

(** [DROP] of an object of one kind. *)
Definition spec_drop (c : ACatalog) (path : list string) (n : string) (ignore view : bool) :
    result (bool * ACatalog) CatError :=
  let kind := if view then "View" else "Table" in
  let missing := if ignore then Ok (false, c)
                 else Err (NotFound (kind +:+ " '" +:+ dotted_path path +:+ "." +:+ n +:+ "' not found")) in
  match c !! fold_path path with
  | None => missing
  | Some s =>
      match a_objects s !! fold n with
      | Some o => if Bool.eqb (is_view o) view
                  then Ok (true, <[fold_path path := with_objects s (delete (fold n) (a_objects s))]> c) else missing
      | None => missing
      end
  end.

Definition spec_comment (c : ACatalog) (path : list string) (n : string) (column comment : option string) (ignore : bool) :
    result (bool * ACatalog) CatError :=
  match c !! fold_path path with
  | None => schema_missing path
  | Some s =>
      match a_objects s !! fold n with
      | Some (OView v) =>
          Ok (true, <[fold_path path := with_objects s (<[fold n := OView (set_comment v column comment)]> (a_objects s))]> c)
      | _ => if ignore then Ok (false, c) else Err (Conflict ("View with name '" +:+ n +:+ "' does not exist"))
      end
  end.

Definition spec_schema_create (c : ACatalog) (path : list string) (comment : option string) (tags : Tags) (oc : OnConflict) :
    result (bool * ACatalog) CatError :=
  let up := take (length path - 1) path in
  if bool_decide (path = []) then Err (InvalidArgument "schema path must not be empty")
  else if negb (bool_decide (up = [])) && bool_decide (c !! fold_path up = None) then schema_missing up
  else
    let put := Ok (true, <[fold_path path := mkASchema path comment tags ∅]> c) in
    match c !! fold_path path, oc with
    | None, _ | Some _, OnReplace => put
    | Some _, OnIgnore => Ok (false, c)
    | Some _, OnError => Err (Conflict ("Schema with name '" +:+ dotted_path path +:+ "' already exists"))
    end.

(** Dropping a schema drops everything below it. *)
Definition spec_schema_drop (c : ACatalog) (path : list string) (ignore cascade : bool) : result (bool * ACatalog) CatError :=
  match c !! fold_path path with
  | None => if ignore then Ok (false, c) else schema_missing path
  | Some s =>
      if bool_decide (fold_path path = [fold DEFAULT_SCHEMA]) then Err (Conflict "cannot drop the default schema 'main'")
      else if negb cascade && negb (bool_decide (size (a_objects s) = 0%nat)
                    && bool_decide (map_Forall (λ k _, fold_path path `prefix_of` k → k = fold_path path) c))
      then Err (Conflict ("Schema '" +:+ dotted_path path +:+ "' is not empty; use CASCADE"))
      else Ok (true, filter (λ kv, ¬ fold_path path `prefix_of` kv.1) c)
  end.

Definition spec_apply (c : ACatalog) (e : Event) : result (bool * ACatalog) CatError :=
  match e with
  | Attached => Ok (false, c)
  | SchemaCreate path comment tags oc => spec_schema_create c path comment tags oc
  | SchemaDrop path ignore cascade => spec_schema_drop c path ignore cascade
  | TableCreate path n columns _ _ _ _ oc => spec_put c path n (OTable (mkTable n columns)) oc
  | ViewCreate path n definition aliases comment tags column_comments oc =>
      spec_put c path n (OView (mkView n definition aliases comment tags column_comments)) oc
  | TableDrop path n ignore => spec_drop c path n ignore false
  | ViewDrop path n ignore => spec_drop c path n ignore true
  | ViewCommentSet path n column comment ignore => spec_comment c path n column comment ignore
  end.

(** ** What a replayed state stands for *)

Definition objects (s : StoredSchema) : list (bytes * Object) :=
  ((λ t, (fold (t_name t), OTable t)) <$> s_tables s) ++ ((λ v, (fold (v_name v), OView v)) <$> s_views s).
Definition abs_schema (s : StoredSchema) : ASchema :=
  mkASchema (s_path s) (s_comment s) (s_tags s) (list_to_map (objects s)).
Definition entry (s : StoredSchema) : fpath * ASchema := (fold_path (s_path s), abs_schema s).
Definition abs (st : State) : ACatalog := list_to_map (entry <$> schemas st).

Definition wf_schema (s : StoredSchema) : Prop := NoDup (objects s).*1.
Definition keys (st : State) : list fpath := fold_path ∘ s_path <$> schemas st.
Definition up (k : fpath) : fpath := take (length k - 1) k.

(** Paths are distinct up to case, [main] is there, every schema's parent is, and the
    tables and views of a schema share one name space. *)
Record wf (st : State) : Prop := {
  wf_keys : NoDup (keys st);
  wf_main : [fold DEFAULT_SCHEMA] ∈ keys st;
  wf_nonempty : [] ∉ keys st;
  wf_up : ∀ k, k ∈ keys st → up k ≠ [] → up k ∈ keys st;
  wf_schemas : Forall wf_schema (schemas st);
  wf_version : 1 ≤ version st;
}.

(** * Names *)

Lemma same_fold a b : same a b = bool_decide (fold a = fold b).
Proof. done. Qed.

Lemma same_path_fold a b : same_path a b = bool_decide (fold_path a = fold_path b).
Proof.
  apply eq_true_iff_eq. rewrite bool_decide_eq_true. unfold same_path, fold_path.
  induction a as [|x a IH] in b |- *; destruct b as [|y b]; try done.
  cbn [length zip zip_with forallb fmap list_fmap]. rewrite same_fold. cbn [Nat.eqb].
  destruct (bool_decide_reflect (fold x = fold y)) as [->|]; cbn [andb].
  - rewrite IH. split; [by intros ->|by intros [=]].
  - rewrite andb_false_r. split; [done|]. by intros [=].
Qed.

Lemma pos_of_Some {A} (p : A → bool) l i : pos_of p l = Some i ↔
  ∃ x, l !! i = Some x ∧ p x = true ∧ ∀ j y, (j < i)%nat → l !! j = Some y → p y = false.
Proof.
  induction l as [|a l IH] in i |- *; cbn [pos_of].
  { split; [done|]. intros (x & Hx & _). by rewrite lookup_nil in Hx. }
  destruct (p a) eqn:Ea.
  - split.
    + intros [= <-]. exists a. split_and!; [done..|]. intros; lia.
    + intros (x & Hx & Hp & Hl). destruct i; [done|]. specialize (Hl 0%nat a ltac:(lia) eq_refl). congruence.
  - destruct i as [|i].
    + destruct (pos_of p l); cbn; split; try done; intros (x & [= <-] & ? & _); congruence.
    + transitivity (pos_of p l = Some i); [destruct (pos_of p l); cbn; split; congruence|]. rewrite IH.
      split; intros (x & Hx & Hp & Hl); exists x; (split_and!; [done..|]).
      * intros [|j] y Hj Hy; [by cbn in Hy; simplify_eq|]. apply (Hl j); [lia|done].
      * intros j y Hj Hy. apply (Hl (S j)); [lia|done].
Qed.

Lemma pos_of_None {A} (p : A → bool) l : pos_of p l = None ↔ Forall (λ x, p x = false) l.
Proof.
  induction l as [|a l IH]; cbn [pos_of]; [by split|]. rewrite Forall_cons, <- IH.
  destruct (p a), (pos_of p l); cbn; naive_solver.
Qed.

Lemma pos_of_find {A} (p : A → bool) l : find p l = pos_of p l ≫= λ i, l !! i.
Proof.
  induction l as [|a l IH]; cbn [find pos_of]; [done|]. destruct (p a); [done|]. rewrite IH. by destruct (pos_of p l).
Qed.

(** * Lists of keyed items as finite maps *)

Section keyed.
Context {K T V : Type} `{Countable K} (key : T → K) (val : T → V).

Definition kmap (l : list T) : gmap K V := list_to_map ((λ x, (key x, val x)) <$> l).

Lemma kmap_keys l : ((λ x, (key x, val x)) <$> l).*1 = key <$> l.
Proof. by rewrite <- list_fmap_compose. Qed.

Lemma kmap_pos k l : match pos_of (λ x, bool_decide (key x = k)) l with
  | Some i => ∃ x, l !! i = Some x ∧ key x = k ∧ kmap l !! k = Some (val x)
  | None => k ∉ key <$> l ∧ kmap l !! k = None
  end.
Proof.
  induction l as [|a l IH]; unfold kmap; cbn [pos_of fmap list_fmap list_to_map foldr]; [by split; [apply not_elem_of_nil|]|].
  change (list_to_map _) with (kmap l). cbn [fst snd].
  destruct (bool_decide_reflect (key a = k)) as [<-|Hne].
  { exists a. split_and!; [done..|]. apply lookup_insert_eq. }
  rewrite lookup_insert_ne by done. destruct (pos_of _ l) as [i|]; cbn; [done|].
  destruct IH as [Hni ->]. split; [|done]. rewrite not_elem_of_cons. by split; [intros ->|].
Qed.

Lemma kmap_None k l : kmap l !! k = None ↔ k ∉ key <$> l.
Proof. unfold kmap. by rewrite <- not_elem_of_list_to_map, kmap_keys. Qed.

Lemma kmap_app l x : key x ∉ key <$> l → kmap (l ++ [x]) = <[key x := val x]> (kmap l).
Proof.
  intros Hx. unfold kmap. rewrite fmap_app, list_to_map_app. cbn.
  rewrite <- insert_union_r by (by apply kmap_None). by rewrite map_union_empty.
Qed.

Lemma keyed_insert (l : list T) i x y : l !! i = Some x → key y = key x → key <$> <[i := y]> l = key <$> l.
Proof.
  intros Hi Hk. rewrite list_fmap_insert, Hk. apply list_insert_id. by rewrite list_lookup_fmap, Hi.
Qed.

Lemma kmap_insert l i x y : NoDup (key <$> l) → l !! i = Some x → key y = key x →
  kmap (<[i := y]> l) = <[key x := val y]> (kmap l).
Proof.
  induction l as [|a l IH] in i |- *; intros Hn Hi Hk; [by rewrite lookup_nil in Hi|].
  cbn [fmap list_fmap] in Hn. apply NoDup_cons in Hn as [Hni Hn]. unfold kmap in *. destruct i as [|i]; cbn in Hi |- *.
  - simplify_eq. by rewrite Hk, insert_insert_eq.
  - rewrite IH by done. apply insert_insert_ne. intros E. apply Hni. rewrite E.
    apply list_elem_of_fmap. exists x. by split; [|eapply list_elem_of_lookup_2].
Qed.

Lemma kmap_remove l i x : NoDup (key <$> l) → l !! i = Some x → kmap (remove_at i l) = delete (key x) (kmap l).
Proof.
  induction l as [|a l IH] in i |- *; intros Hn Hi; [by rewrite lookup_nil in Hi|].
  cbn [fmap list_fmap] in Hn. apply NoDup_cons in Hn as [Hni Hn]. unfold kmap in *. destruct i as [|i]; cbn in Hi |- *.
  - simplify_eq. rewrite delete_insert_id; [done|]. by apply kmap_None.
  - rewrite IH by done. rewrite delete_insert_ne; [done|]. intros E. apply Hni. rewrite <- E.
    apply list_elem_of_fmap. exists x. by split; [|eapply list_elem_of_lookup_2].
Qed.

Lemma kmap_in l i x : NoDup (key <$> l) → l !! i = Some x → kmap l !! key x = Some (val x).
Proof.
  intros Hn Hi. apply elem_of_list_to_map_1; [by rewrite kmap_keys|].
  apply (list_elem_of_fmap_2 (λ x, (key x, val x))). by eapply list_elem_of_lookup_2.
Qed.

Lemma keyed_remove (l : list T) i : sublist (key <$> remove_at i l) (key <$> l).
Proof.
  induction l as [|a l IH] in i |- *; destruct i as [|i]; cbn; try done; [by apply sublist_cons|].
  apply sublist_skip, IH.
Qed.

Lemma kmap_filter (P : K → Prop) `{∀ k, Decision (P k)} l :
  kmap (filter (λ x, P (key x)) l) = filter (λ kv, P kv.1) (kmap l).
Proof.
  induction l as [|a l IH]; [done|]. rewrite filter_cons. unfold kmap in *. cbn [fmap list_fmap list_to_map foldr fst snd].
  case_decide; cbn.
  - rewrite IH. by rewrite map_filter_insert_True.
  - rewrite IH. rewrite map_filter_insert_False by done. rewrite map_filter_delete.
    symmetry. apply delete_id. apply map_lookup_filter_None. right. by intros v _.
Qed.

Lemma keyed_filter (P : K → Prop) `{∀ k, Decision (P k)} (l : list T) : key <$> filter (λ x, P (key x)) l = filter P (key <$> l).
Proof. induction l as [|a l IH]; [done|]. rewrite fmap_cons, !filter_cons. case_decide; rewrite ?fmap_cons; by rewrite IH. Qed.
End keyed.

(** * Objects of a schema *)

Abbreviation tmap := (kmap (fold ∘ t_name) OTable).
Abbreviation vmap := (kmap (fold ∘ v_name) OView).
Abbreviation smap := (kmap (fold_path ∘ s_path) abs_schema).

Lemma abs_objects s : a_objects (abs_schema s) = tmap (s_tables s) ∪ vmap (s_views s).
Proof. unfold abs_schema, objects, a_objects, kmap. by rewrite list_to_map_app. Qed.

Lemma wf_schema_alt s : wf_schema s ↔ NoDup (fold ∘ t_name <$> s_tables s) ∧ NoDup (fold ∘ v_name <$> s_views s) ∧
  tmap (s_tables s) ##ₘ vmap (s_views s).
Proof.
  unfold wf_schema, objects. rewrite fmap_app, NoDup_app, <- !list_fmap_compose.
  rewrite map_disjoint_spec. split.
  - intros (H1 & Hd & H2). split_and!; [done..|]. intros k x y Hx Hy.
    destruct (decide (k ∈ fold ∘ t_name <$> s_tables s)) as [Hk|Hk].
    + apply Hd, (kmap_None (fold ∘ v_name) OView) in Hk. congruence.
    + apply (kmap_None _ OTable) in Hk. congruence.
  - intros (H1 & H2 & H3). split_and!; [done| |done]. intros k Hk Hv.
    destruct (tmap (s_tables s) !! k) eqn:Et; [|by apply kmap_None in Et].
    destruct (vmap (s_views s) !! k) eqn:Ev; [|by apply kmap_None in Ev]. by eapply H3.
Qed.

(** A schema whose tables, or views, change to a list with the same effect on the map. *)
Lemma set_tables_wf s l : wf_schema s → NoDup (fold ∘ t_name <$> l) → tmap l ##ₘ vmap (s_views s) → wf_schema (set_tables l s).
Proof. rewrite !wf_schema_alt. naive_solver. Qed.
Lemma set_views_wf s l : wf_schema s → NoDup (fold ∘ v_name <$> l) → tmap (s_tables s) ##ₘ vmap l → wf_schema (set_views l s).
Proof. rewrite !wf_schema_alt. naive_solver. Qed.

(** [put_named] on the map of the items. *)
Lemma put_named_spec {T V} (name_of : T → string) (val : T → V) kind items x oc : NoDup (fold ∘ name_of <$> items) →
  let m := kmap (fold ∘ name_of) val in
  match m items !! fold (name_of x), oc with
  | Some _, OnIgnore => put_named name_of kind items x oc = Ok (false, items)
  | Some _, OnError => put_named name_of kind items x oc = Err (Conflict (kind +:+ " with name '" +:+ name_of x +:+ "' already exists"))
  | _, _ => ∃ l, put_named name_of kind items x oc = Ok (true, l) ∧ NoDup (fold ∘ name_of <$> l) ∧
              m l = <[fold (name_of x) := val x]> (m items)
  end.
Proof.
  intros Hn m. unfold put_named. assert (Hp := kmap_pos (fold ∘ name_of) val (fold (name_of x)) items).
  change (λ y, same (name_of y) (name_of x)) with (λ y, bool_decide ((fold ∘ name_of) y = fold (name_of x))).
  destruct (pos_of _ items) as [i|].
  - destruct Hp as (y & Hy & Hk & Hm). unfold m. rewrite Hm. destruct oc; [done..|]. eexists. split_and!; [done| |].
    + by erewrite keyed_insert.
    + erewrite kmap_insert by done. by rewrite Hk.
  - destruct Hp as [Hni Hm]. unfold m. rewrite Hm. eexists. split_and!; [done| |by apply (kmap_app (fold ∘ name_of))].
    rewrite fmap_app. apply NoDup_app. split_and!; [done| |apply NoDup_singleton].
    intros k Hk Hk2. cbn in Hk2. apply list_elem_of_singleton in Hk2 as ->. done.
Qed.

(** * Schemas of a state *)

Lemma find_schema_case st path : 
  (pos_of (λ s, same_path (s_path s) path) (schemas st) = None ∧ abs st !! fold_path path = None ∧ fold_path path ∉ keys st) ∨
  ∃ i s, pos_of (λ s, same_path (s_path s) path) (schemas st) = Some i ∧ schemas st !! i = Some s ∧
    fold_path (s_path s) = fold_path path ∧ abs st !! fold_path path = Some (abs_schema s).
Proof.
  assert (Hp := kmap_pos (fold_path ∘ s_path) abs_schema (fold_path path) (schemas st)).
  assert (pos_of (λ s, same_path (s_path s) path) (schemas st) =
    pos_of (λ s, bool_decide ((fold_path ∘ s_path) s = fold_path path)) (schemas st)) as ->.
  { generalize (schemas st). intros l. induction l as [|a l IH]; [done|]. cbn [pos_of]. by rewrite same_path_fold, IH. }
  destruct (pos_of _ _) as [i|]; [right|left]; destruct Hp; naive_solver.
Qed.

Lemma schema_Some st path s : schema_ st path = Some s → abs st !! fold_path path = Some (abs_schema s) ∧ s ∈ schemas st.
Proof.
  unfold schema_. rewrite pos_of_find. destruct (find_schema_case st path) as [(-> & _)|(i & s' & -> & Hi & _ & Ha)]; [done|].
  cbn. rewrite Hi. intros [= ->]. split; [done|]. by eapply list_elem_of_lookup_2.
Qed.

Lemma schema_None st path : schema_ st path = None ↔ fold_path path ∉ keys st.
Proof.
  unfold schema_. rewrite pos_of_find. destruct (find_schema_case st path) as [(-> & _ & ?)|(i & s & -> & Hi & Hk & _)].
  - by split.
  - cbn. rewrite Hi. split; [done|]. intros Hn. destruct Hn. rewrite <- Hk. unfold keys.
    apply (list_elem_of_fmap_2 (fold_path ∘ s_path)). by eapply list_elem_of_lookup_2.
Qed.

Lemma abs_None st k : abs st !! k = None ↔ k ∉ keys st.
Proof. apply kmap_None. Qed.

(** One schema replaced by another of the same path up to case. *)
Lemma update_schema st i s s' : wf st → schemas st !! i = Some s → fold_path (s_path s') = fold_path (s_path s) → wf_schema s' →
  let st' := mkState (version st) (<[i := s']> (schemas st)) in
  wf st' ∧ abs st' = <[fold_path (s_path s) := abs_schema s']> (abs st).
Proof.
  intros Hw Hi Hp Hs. assert (Hk : keys (mkState (version st) (<[i := s']> (schemas st))) = keys st) by (by eapply keyed_insert).
  split; [|by apply (kmap_insert (fold_path ∘ s_path)); [apply Hw|..]].
  destruct Hw. constructor; rewrite ?Hk; try done. by apply Forall_insert.
Qed.

(** An application of an event and its abstract counterpart. *)
Definition refines (st : State) (r : result (bool * State) CatError) (sp : result (bool * ACatalog) CatError) : Prop :=
  match r with
  | Ok (b, st') => wf st' ∧ version st' = version st ∧ sp = Ok (b, abs st') ∧ (b = false → st' = st)
  | Err x => sp = Err x
  end.

(** The schema an event names is missing, or is changed by a step on its own. *)
Lemma schema_mut_refines st path (f : StoredSchema → result (bool * StoredSchema) CatError) sp : wf st →
  (abs st !! fold_path path = None → sp = schema_missing path) →
  (∀ s, abs st !! fold_path path = Some (abs_schema s) → wf_schema s →
    match f s with
    | Ok (b, s') => s_path s' = s_path s ∧ wf_schema s' ∧ sp = Ok (b, if b then <[fold_path path := abs_schema s']> (abs st) else abs st) ∧
                    (b = false → s' = s)
    | Err x => sp = Err x
    end) →
  refines st (schema_mut st path f) sp.
Proof.
  intros Hw Hnone Hsome. unfold schema_mut. destruct (find_schema_case st path) as [(-> & Ha & _)|(i & s & -> & Hi & Hk & Ha)].
  { by apply Hnone. }
  rewrite Hi. specialize (Hsome s Ha). assert (wf_schema s) as Hs by (eapply Forall_lookup; [apply Hw|done]).
  specialize (Hsome Hs). destruct (f s) as [[b s']|]; [|done]. destruct Hsome as (Hp & Hs' & -> & Hb).
  destruct (update_schema st i s s') as [Hw' Habs]; [done..|by rewrite Hp|done|].
  split_and!; [done..| |].
  - rewrite Habs, Hk. destruct b; [done|]. rewrite (Hb eq_refl). by rewrite insert_id.
  - intros ->. rewrite (Hb eq_refl), list_insert_id by done. by destruct st.
Qed.

(** ** Objects by kind *)

Lemma kmap_val {K T V} `{Countable K} (key : T → K) (val : T → V) l k v : kmap key val l !! k = Some v → ∃ x, v = val x.
Proof. intros (x & [= _ ->] & _)%elem_of_list_to_map_2%list_elem_of_fmap. by exists x. Qed.

Lemma tmap_kind l k o : tmap l !! k = Some o → is_view o = false.
Proof. by intros [x ->]%kmap_val. Qed.
Lemma vmap_kind l k o : vmap l !! k = Some o → is_view o = true.
Proof. by intros [x ->]%kmap_val. Qed.

Lemma find_kmap {T V} (name_of : T → string) (val : T → V) l n :
  bool_decide (is_Some (find (λ x, same (name_of x) n) l)) = bool_decide (is_Some (kmap (fold ∘ name_of) val l !! fold n)).
Proof.
  rewrite pos_of_find. assert (Hp := kmap_pos (fold ∘ name_of) val (fold n) l).
  change (λ x, same (name_of x) n) with (λ x, bool_decide ((fold ∘ name_of) x = fold n)).
  destruct (pos_of _ l) as [i|].
  - destruct Hp as (x & Hx & _ & ->). cbn. rewrite Hx. done.
  - destruct Hp as [_ ->]. done.
Qed.

(** The object of a name is the table of that name, or else the view. *)
Lemma object_lookup s k : wf_schema s → a_objects (abs_schema s) !! k =
  match vmap (s_views s) !! k with Some v => Some v | None => tmap (s_tables s) !! k end.
Proof.
  intros (_ & _ & Hd)%wf_schema_alt. rewrite abs_objects. destruct (vmap (s_views s) !! k) eqn:E.
  - by rewrite lookup_union_r by (by eapply map_disjoint_Some_l).
  - rewrite lookup_union, E. by destruct (tmap (s_tables s) !! k).
Qed.

Lemma abs_set_tables s l : abs_schema (set_tables l s) = with_objects (abs_schema s) (tmap l ∪ vmap (s_views s)).
Proof. transitivity (with_objects (abs_schema s) (a_objects (abs_schema (set_tables l s)))); [done|]. by rewrite abs_objects. Qed.
Lemma abs_set_views s l : abs_schema (set_views l s) = with_objects (abs_schema s) (tmap (s_tables s) ∪ vmap l).
Proof. transitivity (with_objects (abs_schema s) (a_objects (abs_schema (set_views l s)))); [done|]. by rewrite abs_objects. Qed.

Lemma table_create_refines st path n columns oc : wf st →
  refines st (schema_mut st path (λ s, table_create s n columns oc)) (spec_put (abs st) path n (OTable (mkTable n columns)) oc).
Proof.
  intros Hw. unfold spec_put. apply schema_mut_refines; [done|by intros ->|]. intros s -> Hs. rewrite object_lookup by done.
  unfold table_create, view_. rewrite (find_kmap v_name OView). destruct (vmap (s_views s) !! fold n) eqn:Ev; cbn [bool_decide].
  { by erewrite vmap_kind. }
  change (bool_decide (is_Some (@None Object))) with false. cbv iota.
  assert (Hs' := Hs). apply wf_schema_alt in Hs' as (Ht & Hv & Hd).
  assert (Hput := put_named_spec t_name OTable "Table" (s_tables s) (mkTable n columns) oc Ht). cbn [t_name] in Hput.
  assert (Hset : ∀ l, NoDup (fold ∘ t_name <$> l) → tmap l = <[fold n := OTable (mkTable n columns)]> (tmap (s_tables s)) →
    wf_schema (set_tables l s) ∧
    abs_schema (set_tables l s) = with_objects (abs_schema s) (<[fold n := OTable (mkTable n columns)]> (a_objects (abs_schema s)))).
  { intros l Hl Hm. split; [apply set_tables_wf; try done; rewrite Hm; by apply map_disjoint_insert_l_2|].
    by rewrite abs_set_tables, Hm, abs_objects, insert_union_l. }
  destruct (tmap (s_tables s) !! fold n) as [o|] eqn:Et.
  - rewrite (tmap_kind _ _ _ Et). destruct oc; cbn [is_view Bool.eqb negb]; cbn beta iota zeta in Hput; [by rewrite Hput|rewrite Hput; by destruct s|].
    destruct Hput as (l & -> & Hl & Hm). cbn beta iota. by destruct (Hset l Hl Hm) as [? ->].
  - destruct Hput as (l & -> & Hl & Hm). cbn beta iota. by destruct (Hset l Hl Hm) as [? ->].
Qed.

Lemma view_create_refines st path v oc : wf st →
  refines st (schema_mut st path (λ s, view_create s v oc)) (spec_put (abs st) path (v_name v) (OView v) oc).
Proof.
  intros Hw. unfold spec_put. apply schema_mut_refines; [done|by intros ->|]. intros s -> Hs. rewrite object_lookup by done.
  assert (Hs' := Hs). apply wf_schema_alt in Hs' as (Ht & Hv & Hd).
  unfold view_create, table. rewrite (find_kmap t_name OTable).
  destruct (tmap (s_tables s) !! fold (v_name v)) eqn:Et; cbn [bool_decide].
  { rewrite (map_disjoint_Some_l _ _ _ _ Hd Et), (tmap_kind _ _ _ Et). done. }
  change (bool_decide (is_Some (@None Object))) with false. cbv iota.
  assert (Hput := put_named_spec v_name OView "View" (s_views s) v oc Hv). cbn beta zeta in Hput.
  assert (Hset : ∀ l, NoDup (fold ∘ v_name <$> l) → vmap l = <[fold (v_name v) := OView v]> (vmap (s_views s)) →
    wf_schema (set_views l s) ∧
    abs_schema (set_views l s) = with_objects (abs_schema s) (<[fold (v_name v) := OView v]> (a_objects (abs_schema s)))).
  { intros l Hl Hm. split; [apply set_views_wf; try done; rewrite Hm; by apply map_disjoint_insert_r_2|].
    by rewrite abs_set_views, Hm, abs_objects, insert_union_r. }
  destruct (vmap (s_views s) !! fold (v_name v)) as [o|] eqn:Ev.
  - rewrite (vmap_kind _ _ _ Ev). destruct oc; cbn [is_view Bool.eqb negb]; cbn beta iota zeta in Hput; [by rewrite Hput|rewrite Hput; by destruct s|].
    destruct Hput as (l & -> & Hl & Hm). cbn beta iota. by destruct (Hset l Hl Hm) as [? ->].
  - destruct Hput as (l & -> & Hl & Hm). cbn beta iota. by destruct (Hset l Hl Hm) as [? ->].
Qed.

Lemma set_comment_name v column comment : v_name (set_comment v column comment) = v_name v.
Proof. by destruct column. Qed.

Lemma view_comment_refines st path n column comment ignore : wf st →
  refines st (schema_mut st path (λ s, view_comment_set s n column comment ignore)) (spec_comment (abs st) path n column comment ignore).
Proof.
  intros Hw. unfold spec_comment. apply schema_mut_refines; [done|by intros ->|]. intros s -> Hs. rewrite object_lookup by done.
  assert (Hs' := Hs). apply wf_schema_alt in Hs' as (Ht & Hv & Hd).
  unfold view_comment_set. assert (Hp := kmap_pos (fold ∘ v_name) OView (fold n) (s_views s)).
  change (λ v, same (v_name v) n) with (λ v, bool_decide ((fold ∘ v_name) v = fold n)).
  destruct (pos_of _ (s_views s)) as [i|].
  - destruct Hp as (v & Hi & Hk & Hm). rewrite Hm. assert (alter (λ v, set_comment v column comment) i (s_views s) =
      <[i := set_comment v column comment]> (s_views s)) as ->.
    { rewrite list_insert_alter. apply list_alter_ext; [|done]. intros x Hx. congruence. }
    assert (Hkey : (fold ∘ v_name) (set_comment v column comment) = (fold ∘ v_name) v) by (cbn; by rewrite set_comment_name).
    assert (Hins := kmap_insert (fold ∘ v_name) OView _ i v _ Hv Hi Hkey). rewrite Hk in Hins.
    assert (Htn : tmap (s_tables s) !! fold n = None) by (by eapply map_disjoint_Some_r).
    split_and!; [done| | |done].
    + apply set_views_wf; [done| |rewrite Hins; by apply map_disjoint_insert_r_2]. by rewrite (keyed_insert _ _ _ v).
    + by rewrite abs_set_views, Hins, abs_objects, insert_union_r.
  - destruct Hp as [_ ->]. destruct (tmap (s_tables s) !! fold n) as [o|] eqn:Et.
    + apply kmap_val in Et as [x ->]. by destruct ignore.
    + by destruct ignore.
Qed.

(** ** Drops of objects *)

Lemma drop_named_refines {T} st path n ignore view (list_of : StoredSchema → list T) set name_of (val : T → Object) : wf st →
  (∀ s, wf_schema s → NoDup (fold ∘ name_of <$> list_of s)) →
  (∀ s k, wf_schema s → kmap (fold ∘ name_of) val (list_of s) !! k =
     match a_objects (abs_schema s) !! k with Some o => if Bool.eqb (is_view o) view then Some o else None | None => None end) →
  (∀ s i x, wf_schema s → list_of s !! i = Some x → let s' := set (remove_at i (list_of s)) s in
     s_path s' = s_path s ∧ wf_schema s' ∧
     abs_schema s' = with_objects (abs_schema s) (delete (fold (name_of x)) (a_objects (abs_schema s)))) →
  refines st (drop_named st path n ignore (if view then "View" else "Table") list_of set name_of)
    (spec_drop (abs st) path n ignore view).
Proof.
  intros Hw Hnd Hmap Hset. unfold drop_named, spec_drop.
  destruct (find_schema_case st path) as [(-> & -> & _)|(i & s & -> & Hi & Hk & ->)]; [by destruct ignore|]. rewrite Hi.
  assert (wf_schema s) as Hs by (eapply Forall_lookup; [apply Hw|done]).
  assert (Hp := kmap_pos (fold ∘ name_of) val (fold n) (list_of s)).
  change (λ x, same (name_of x) n) with (λ x, bool_decide ((fold ∘ name_of) x = fold n)).
  destruct (pos_of _ (list_of s)) as [j|].
  - destruct Hp as (x & Hj & Hx & Hm). rewrite (Hmap s _ Hs) in Hm. cbn in Hx.
    destruct (a_objects (abs_schema s) !! fold n) as [o|] eqn:Eo; [|done]. destruct (Bool.eqb (is_view o) view); [|done].
    destruct (Hset s j x Hs Hj) as (Hp & Hs' & Ha). rewrite Hx in Ha. rewrite <- Ha, <- Hk.
    destruct (update_schema st i s (set (remove_at j (list_of s)) s)) as [Hw' <-]; [done..|by rewrite Hp|done|]. done.
  - destruct Hp as [_ Hm]. rewrite (Hmap s _ Hs) in Hm.
    destruct (a_objects (abs_schema s) !! fold n) as [o|]; [|by destruct ignore].
    destruct (Bool.eqb (is_view o) view); [done|by destruct ignore].
Qed.

Lemma table_drop_refines st path n ignore : wf st →
  refines st (drop_named st path n ignore "Table" s_tables set_tables t_name) (spec_drop (abs st) path n ignore false).
Proof.
  intros Hw. apply (drop_named_refines _ _ _ _ false _ _ _ OTable Hw).
  - by intros s (? & _)%wf_schema_alt.
  - intros s k Hs. rewrite object_lookup by done. apply wf_schema_alt in Hs as (_ & _ & Hd).
    destruct (vmap (s_views s) !! k) eqn:Ev; [rewrite (vmap_kind _ _ _ Ev); by eapply map_disjoint_Some_r|].
    destruct (tmap (s_tables s) !! k) eqn:Et; [by rewrite (tmap_kind _ _ _ Et)|done].
  - intros s i x Hs Hi s'. assert (Hs' := Hs). apply wf_schema_alt in Hs' as (Ht & Hv & Hd).
    assert (Hm := kmap_remove (fold ∘ t_name) OTable _ _ _ Ht Hi). split_and!; [done| |].
    + apply set_tables_wf; [done|eapply sublist_NoDup; [|apply keyed_remove]; done|]. rewrite Hm. by apply map_disjoint_delete_l.
    + unfold s'. rewrite abs_set_tables, Hm, abs_objects, delete_union. do 2 f_equal. symmetry. apply delete_id.
      eapply map_disjoint_Some_l; [done|]. by apply (kmap_in (fold ∘ t_name) OTable _ i).
Qed.

Lemma view_drop_refines st path n ignore : wf st →
  refines st (drop_named st path n ignore "View" s_views set_views v_name) (spec_drop (abs st) path n ignore true).
Proof.
  intros Hw. apply (drop_named_refines _ _ _ _ true _ _ _ OView Hw).
  - by intros s (_ & ? & _)%wf_schema_alt.
  - intros s k Hs. rewrite object_lookup by done.
    destruct (vmap (s_views s) !! k) eqn:Ev; [by rewrite (vmap_kind _ _ _ Ev)|].
    destruct (tmap (s_tables s) !! k) eqn:Et; [by rewrite (tmap_kind _ _ _ Et)|done].
  - intros s i x Hs Hi s'. assert (Hs' := Hs). apply wf_schema_alt in Hs' as (Ht & Hv & Hd).
    assert (Hm := kmap_remove (fold ∘ v_name) OView _ _ _ Hv Hi). split_and!; [done| |].
    + apply set_views_wf; [done|eapply sublist_NoDup; [|apply keyed_remove]; done|]. rewrite Hm. by apply map_disjoint_delete_r.
    + unfold s'. rewrite abs_set_views, Hm, abs_objects, delete_union. do 2 f_equal. symmetry. apply delete_id.
      eapply map_disjoint_Some_r; [done|]. by apply (kmap_in (fold ∘ v_name) OView _ i).
Qed.

(** ** Schemas *)

Lemma fold_path_take n p : fold_path (take n p) = take n (fold_path p).
Proof. unfold fold_path. by rewrite fmap_take. Qed.
Lemma length_fold_path p : length (fold_path p) = length p.
Proof. apply length_fmap. Qed.
Lemma fold_path_nil p : fold_path p = [] ↔ p = [].
Proof. by destruct p. Qed.
Lemma up_fold p : up (fold_path p) = fold_path (take (length p - 1) p).
Proof. unfold up. by rewrite fold_path_take, length_fold_path. Qed.

Lemma path_up_nil {A} (p : list A) : p ≠ [] → (1 <? length p)%nat = negb (bool_decide (take (length p - 1) p = [])).
Proof. destruct p as [|a [|b p]]; [done|done|]. intros _. by rewrite bool_decide_false. Qed.

Lemma schema_create_refines st path comment tags oc : wf st →
  refines st (schema_create st path comment tags oc) (spec_schema_create (abs st) path comment tags oc).
Proof.
  intros Hw. unfold schema_create, spec_schema_create. destruct path as [|a q] eqn:Ep; [done|]. rewrite <- Ep in *.
  assert (path ≠ []) as Hne by (by rewrite Ep). clear a q Ep. rewrite path_up_nil, (bool_decide_false (path = [])) by done.
  set (fresh := mkSchema path comment tags [] []). assert (wf_schema fresh) as Hf by constructor.
  set (p := take (length path - 1) path).
  assert (negb (bool_decide (is_Some (schema_ st p))) = bool_decide (abs st !! fold_path p = None)) as ->.
  { rewrite <- bool_decide_not. apply bool_decide_ext. by rewrite abs_None, <- schema_None, <- eq_None_not_Some. }
  destruct (negb (bool_decide (p = [])) && _) eqn:Eup; [done|].
  destruct (find_schema_case st path) as [(-> & -> & Hk)|(i & s & -> & Hi & Hk & ->)].
  - unfold refines, with_schemas. split_and!; [|done| |done].
    + assert (keys (mkState (version st) (schemas st ++ [fresh])) = keys st ++ [fold_path path]) as Hkeys by (unfold keys; cbn [schemas]; by rewrite fmap_app).
      destruct Hw. constructor; try done; rewrite ?Hkeys.
      * apply NoDup_app. split_and!; [done| |apply NoDup_singleton]. by intros k ? ->%list_elem_of_singleton.
      * set_solver.
      * rewrite elem_of_app, list_elem_of_singleton. intros [?|E]; [done|]. by symmetry in E; apply fold_path_nil in E.
      * intros k [Hin| ->%list_elem_of_singleton]%elem_of_app Hu; [apply elem_of_app; left; by apply wf_up0|].
        rewrite up_fold in *. fold p in Hu |- *. apply elem_of_app. left. rewrite fold_path_nil in Hu.
        rewrite (bool_decide_false _ Hu) in Eup. cbn in Eup. apply bool_decide_eq_false in Eup.
        destruct (decide (fold_path p ∈ keys st)) as [|Hn]; [done|]. by apply abs_None in Hn.
      * apply Forall_app. by split; [|constructor].
    + do 2 f_equal. symmetry. by apply (kmap_app (fold_path ∘ s_path) abs_schema).
  - destruct oc; [done..|]. destruct (update_schema st i s fresh) as [? Ha]; [done|done|done|done|].
    unfold refines, with_schemas. split_and!; [done..| |done]. by rewrite Ha, Hk.
Qed.

Lemma is_child_prefix path s : same_path (s_path s) path || is_child path s = bool_decide (fold_path path `prefix_of` fold_path (s_path s)).
Proof.
  apply eq_true_iff_eq. rewrite orb_true_iff, bool_decide_eq_true. unfold is_child.
  rewrite !same_path_fold, andb_true_iff, !bool_decide_eq_true, Nat.ltb_lt, fold_path_take, <- (length_fold_path path), <- (length_fold_path (s_path s)).
  split.
  - intros [->|[_ E]]; [done|]. rewrite <- E at 1. exists (drop (length (fold_path path)) (fold_path (s_path s))).
    by rewrite <- E, take_drop.
  - intros [k Hk]. rewrite Hk, length_app, take_app_length. destruct k; [left; by rewrite app_nil_r|right; cbn; split; [lia|done]].
Qed.

Lemma is_child_strict path s : is_child path s = true ↔
  fold_path path `prefix_of` fold_path (s_path s) ∧ fold_path (s_path s) ≠ fold_path path.
Proof.
  assert (Hc := is_child_prefix path s). rewrite same_path_fold in Hc.
  destruct (bool_decide_reflect (fold_path (s_path s) = fold_path path)) as [E|E]; cbn [orb] in Hc.
  - split; [|by intros [_ ?]]. unfold is_child. intros [Hl%Nat.ltb_lt _]%andb_true_iff.
    apply (f_equal length) in E. rewrite !length_fold_path in E. lia.
  - rewrite Hc, bool_decide_eq_true. naive_solver.
Qed.

Lemma abs_size s : wf_schema s → size (a_objects (abs_schema s)) = (length (s_tables s) + length (s_views s))%nat.
Proof.
  intros Hs. unfold abs_schema, a_objects. rewrite map_size_list_to_map by done. unfold objects.
  by rewrite length_app, !length_fmap.
Qed.

Lemma existsb_child st path : existsb (is_child path) (schemas st) =
  negb (bool_decide (map_Forall (λ k _, fold_path path `prefix_of` k → k = fold_path path) (abs st))).
Proof.
  apply eq_true_iff_eq. rewrite existsb_exists, negb_true_iff, bool_decide_eq_false. split.
  - intros (s & Hin & Hc) Hall. apply is_child_strict in Hc as [Hp Hne]. apply Hne.
    destruct (abs st !! fold_path (s_path s)) as [a|] eqn:E; [by eapply Hall|].
    apply abs_None in E. destruct E. apply (list_elem_of_fmap_2 (fold_path ∘ s_path)), list_elem_of_In, Hin.
  - intros Hn. destruct (decide (Exists (λ s, is_child path s = true) (schemas st))) as [He|He].
    { apply Exists_exists in He as (s & Hin & Hc). exists s. split; [by apply list_elem_of_In|done]. }
    destruct Hn. intros k a Hk Hp. apply elem_of_list_to_map_2, list_elem_of_fmap in Hk as (s & [= -> ->] & Hin).
    destruct (decide (fold_path (s_path s) = fold_path path)) as [|Hne]; [done|]. destruct He.
    apply Exists_exists. exists s. split; [done|]. by apply is_child_strict.
Qed.

Lemma drop_filter st path : filter (λ s, negb (same_path (s_path s) path) && negb (is_child path s) = true) (schemas st) =
  filter (λ s, ¬ fold_path path `prefix_of` (fold_path ∘ s_path) s) (schemas st).
Proof.
  apply list_filter_iff. intros s. cbn. rewrite <- negb_orb, is_child_prefix, negb_true_iff. apply bool_decide_eq_false.
Qed.

Lemma schema_drop_wf st path : wf st → fold_path path ≠ [] → fold_path path ≠ [fold DEFAULT_SCHEMA] →
  wf (with_schemas st (filter (λ s, ¬ fold_path path `prefix_of` (fold_path ∘ s_path) s) (schemas st))).
Proof.
  intros [] Hne Hmain. assert (Hkeys : keys (with_schemas st (filter (λ s, ¬ fold_path path `prefix_of` (fold_path ∘ s_path) s) (schemas st)))
    = filter (λ k, ¬ fold_path path `prefix_of` k) (keys st)) by (unfold keys; exact (keyed_filter (fold_path ∘ s_path) (λ k, ¬ fold_path path `prefix_of` k) (schemas st))).
  constructor; rewrite ?Hkeys; try done.
  - by apply NoDup_filter.
  - apply list_elem_of_filter. split; [|done]. intros Hp. destruct (fold_path path) as [|k [|k' p]]; [done| |].
    + apply prefix_cons_inv_1 in Hp as ->. done.
    + apply prefix_cons_inv_2 in Hp. by apply prefix_nil_not in Hp.
  - intros [_ ?]%list_elem_of_filter. done.
  - intros k [Hk Hin]%list_elem_of_filter Hu. apply list_elem_of_filter. split; [|by apply wf_up0].
    intros Hp. apply Hk. etrans; [exact Hp|]. unfold up. exists (drop (length k - 1) k). by rewrite take_drop.
  - apply Forall_forall. intros s [_ Hin]%list_elem_of_filter. by eapply Forall_forall in wf_schemas0.
Qed.

Lemma schema_drop_refines st path ignore cascade : wf st →
  refines st (schema_drop st path ignore cascade) (spec_schema_drop (abs st) path ignore cascade).
Proof.
  intros Hw. unfold schema_drop, spec_schema_drop.
  destruct (find_schema_case st path) as [(-> & -> & Hk)|(i & s & -> & Hi & Hk & ->)]; cbn [mbind option_bind].
  { by destruct ignore. }
  rewrite Hi, same_path_fold. assert (wf_schema s) as Hs by (eapply Forall_lookup; [apply Hw|done]).
  destruct (bool_decide_reflect (fold_path path = fold_path [DEFAULT_SCHEMA])) as [E|Hmain].
  { by rewrite bool_decide_true. }
  rewrite bool_decide_false by done. rewrite andb_comm.
  assert (occupied st s path = negb (bool_decide (size (a_objects (abs_schema s)) = 0%nat) &&
    bool_decide (map_Forall (λ k _, fold_path path `prefix_of` k → k = fold_path path) (abs st)))) as <-.
  { unfold occupied. rewrite existsb_child, negb_andb, abs_size by done. f_equal.
    by destruct (s_tables s), (s_views s). }
  destruct (negb cascade && occupied st s path); [done|]. rewrite drop_filter.
  assert (fold_path path ≠ []) as Hne.
  { intros E. apply (wf_nonempty st Hw). rewrite <- E, <- Hk. apply (list_elem_of_fmap_2 (fold_path ∘ s_path)).
    by eapply list_elem_of_lookup_2. }
  split_and!; [by apply schema_drop_wf|done| |done]. do 2 f_equal. symmetry.
  exact (kmap_filter (fold_path ∘ s_path) abs_schema (λ k, ¬ fold_path path `prefix_of` k) (schemas st)).
Qed.

(** Every event. *)
Lemma apply_spec st e : wf st → refines st (apply st e) (spec_apply (abs st) e).
Proof.
  destruct e; cbn [apply spec_apply]; eauto using schema_create_refines, schema_drop_refines, table_create_refines,
    table_drop_refines, view_comment_refines, view_drop_refines.
  - intros Hw. by split_and!.
  - intros Hw. by apply (view_create_refines st path (mkView _ _ _ _ _ _)).
Qed.

Lemma new_state_wf : wf new_state.
Proof. constructor; cbn; [apply NoDup_singleton|set_solver| | |by repeat constructor|lia]; set_solver. Qed.

(** * Replaying a log *)

(** What [load] computes from the events after the first. *)
Definition replayed (es : list Event) : State := foldl step new_state es.

(** The abstract catalog after a log: events that do not apply are skipped. *)
Definition spec_step (c : ACatalog) (e : Event) : ACatalog :=
  match spec_apply c e with Ok (true, c') => c' | _ => c end.

Lemma step_wf st e : wf st → wf (step st e) ∧ abs (step st e) = spec_step (abs st) e ∧
  (step st e = st ∧ spec_step (abs st) e = abs st ∨ version (step st e) = version st + 1).
Proof.
  intros Hw. assert (Ha := apply_spec st e Hw). unfold step, spec_step, refines in *.
  destruct (apply st e) as [[[] st']|x].
  - destruct Ha as (Hw' & Hv & -> & _). split_and!; [|done|right; cbn; lia]. destruct Hw'. constructor; try done. cbn. lia.
  - destruct Ha as (Hw' & Hv & -> & Hst). rewrite <- (Hst eq_refl). eauto.
  - rewrite Ha. eauto.
Qed.

Lemma replay_from_wf st es : wf st → wf (foldl step st es) ∧ abs (foldl step st es) = foldl spec_step (abs st) es ∧
  version st ≤ version (foldl step st es) ≤ version st + Z.of_nat (length es) ∧
  (version (foldl step st es) = version st → foldl step st es = st).
Proof.
  induction es as [|e es IH] in st |- *; intros Hw; cbn [foldl length]; [split_and!; auto; lia|].
  destruct (step_wf st e Hw) as (Hw' & Ha & Hc). destruct (IH (step st e) Hw') as (? & ? & ? & Heq).
  rewrite Ha in *. destruct Hc as [[E _]|E]; [rewrite E in *; split_and!; auto; lia|].
  split_and!; [done..|lia|lia|lia].
Qed.

Lemma replayed_wf es : wf (replayed es).
Proof. apply (replay_from_wf new_state es new_state_wf). Qed.

(** C21: Whatever events a session's log holds, including ones that lost a race and no
    longer apply, replaying it gives the abstract catalog those events describe:
    schemas keyed by their path up to case, each with one name space for its
    tables and views, [main] always there and no schema without its parent. *)
Theorem stored_catalog_refines es : wf (replayed es) ∧ abs (replayed es) = foldl spec_step (abs new_state) es.
Proof. destruct (replay_from_wf new_state es new_state_wf) as (? & ? & _). done. Qed.

(** * Sessions *)

Section sessions.
Context {St : Type} `{StorageLaws St} `{CatalogCodec}.

(** [serde_json] reads back what it wrote. *)
Context (event_codec : ∀ e b, encode_event e = Ok b → decode_event b = Ok e).

(** The session's log holds [Attached] and then these events. *)
Definition attached (cat : StoredCatalog) (s : St) (session : bytes) (es : list Event) : Prop :=
  st_inv s ∧ st_scope (scope cat session) ∧ Z.of_nat (length es) < usize_max ∧
  Forall2 (λ r e, decode_event r.2 = Ok e) (v_log (st_view s) (scope cat session) LOG_NS LOG_KEY) (Attached :: es).

Lemma replay_events cat st (rows : log_rows) es : Forall2 (λ r e, decode_event r.2 = Ok e) rows es →
  replay cat st (snd <$> rows) = Ok (foldl step st es).
Proof.
  intros Hf. induction Hf as [|r e rows es Hd _ IH] in st |- *; [done|]. cbn [fmap list_fmap replay foldl].
  unfold decode. rewrite Hd. apply IH.
Qed.

Lemma load_attached cat s session es : attached cat s session es → load cat s session = Ok (replayed es).
Proof.
  intros (Hi & Hsc & Hn & Hf). unfold load. rewrite law_scan by (done || unfold usize_max; lia).
  rewrite list_filter_all by (eapply Forall_impl; [by apply (law_log_nonneg s (scope cat session) LOG_NS LOG_KEY)|]; intros [? ?]; cbn; lia).
  rewrite take_z_all by (rewrite (Forall2_length _ _ _ Hf); cbn [length]; unfold usize_max in *; lia).
  apply Forall2_cons_inv_r in Hf as (r & rows & Hd & Hf & ->). cbn [fmap list_fmap]. unfold decode. rewrite Hd.
  cbn. by apply replay_events.
Qed.

Lemma append_attached cat s session es e b : attached cat s session es → st_room s 1 → Z.of_nat (length es) + 1 < usize_max →
  encode_event e = Ok b → attached cat (append s (scope cat session) LOG_NS LOG_KEY b).2 session (es ++ [e]).
Proof.
  intros (Hi & Hsc & Hn & Hf) Hr Hl He. destruct (append s _ _ _ b) as [id s'] eqn:Ea.
  apply (law_append _ _ _ _ _ _ _ 0) in Ea as (Hi' & Hv & _); [|done..].
  split_and!; [done..|rewrite length_app; cbn; lia|]. cbn [snd]. rewrite Hv, abs_append_eq.
  change (Attached :: es ++ [e]) with ((Attached :: es) ++ [e]). apply Forall2_app; [done|]. constructor; [by apply event_codec|done].
Qed.

(** Appends to, and clears of, one scope leave the sessions of the others. *)
Lemma append_other cat s session es sc b : attached cat s session es → st_scope sc → st_room s 1 → scope cat session ≠ sc →
  attached cat (append s sc LOG_NS LOG_KEY b).2 session es ∧ st_inv (append s sc LOG_NS LOG_KEY b).2.
Proof.
  intros (Hi & Hsc & Hn & Hf) Hsc' Hr Hne. destruct (append s sc _ _ b) as [id s'] eqn:Ea.
  apply (law_append _ _ _ _ _ _ _ 0) in Ea as (Hi' & Hv & _); [|done..].
  split; [|done]. split_and!; [done..|]. cbn [snd]. rewrite Hv. cbn. rewrite decide_False by (intros E; by simplify_eq). by rewrite app_nil_r.
Qed.
Lemma clear_other cat s session es sc : attached cat s session es → st_scope sc → scope cat session ≠ sc →
  attached cat (clear s sc) session es.
Proof.
  intros (Hi & Hsc & Hn & Hf) Hsc' Hne. destruct (law_clear s sc Hi Hsc') as (Hi' & Hv & _).
  split_and!; [done..|]. rewrite Hv. cbn. by rewrite decide_False.
Qed.

(** C23: A DDL call does to its session what the abstract catalog does: it fails with
    the abstract catalog's error and leaves the store alone, does nothing where the
    statement allows it, or appends its event, after which the session loads as the
    changed catalog with the version one higher. *)
Theorem ddl_refines cat s session es e b : attached cat s session es → st_room s 1 → Z.of_nat (length es) + 1 < usize_max →
  encode_event e = Ok b →
  match spec_apply (abs (replayed es)) e with
  | Err x => mutate cat s session e = (Err x, s)
  | Ok (false, _) => mutate cat s session e = (Ok (), s)
  | Ok (true, c') => ∃ s' st', mutate cat s session e = (Ok (), s') ∧ attached cat s' session (es ++ [e]) ∧
      load cat s' session = Ok st' ∧ abs st' = c' ∧ version st' = version (replayed es) + 1
  end.
Proof.
  intros Ha Hr Hl He. unfold mutate. rewrite (load_attached _ _ _ _ Ha).
  assert (Hw := replayed_wf es).
  assert (Hs := apply_spec _ e Hw). unfold refines in Hs. destruct (apply (replayed es) e) as [[c st']|x] eqn:Eap.
  - destruct Hs as (Hw' & Hv & -> & _). destruct c; [|done]. unfold append_event. rewrite He.
    assert (Ha' := append_attached _ _ _ _ _ _ Ha Hr Hl He). eexists _, _. split_and!; [done|done|by apply load_attached|..].
    all: unfold replayed; rewrite foldl_snoc; fold (replayed es); unfold step; rewrite Eap; cbn; done || lia.
  - by rewrite Hs.
Qed.

(** A client that polls the catalog version sees every change: two loads of a session
    that report the same version of a versioned catalog loaded the same catalog, and
    the version counts the changes, never more than the events appended. *)
Theorem version_shows_changes cat s s' session es es' : attached cat s session es → attached cat s' session (es ++ es') →
  ∃ st st', load cat s session = Ok st ∧ load cat s' session = Ok st' ∧
    version st ≤ version st' ≤ version st + Z.of_nat (length es') ∧ (version st' = version st → st' = st).
Proof.
  intros Ha Ha'. exists (replayed es), (replayed (es ++ es')). split_and!; [by apply load_attached..| | |].
  all: unfold replayed; rewrite foldl_app; fold (replayed es).
  all: by destruct (replay_from_wf (replayed es) es' (replayed_wf es)) as (_ & _ & [? ?] & ?).
Qed.

(** ** Privacy *)

Definition no_nul (n : string) : Prop := x00 ∉ as_bytes n.

Lemma split_at_nul (a b c d : bytes) : x00 ∉ a → x00 ∉ b → a ++ x00 :: c = b ++ x00 :: d → a = b ∧ c = d.
Proof.
  revert b. induction a as [|x a IH]; intros [|y b] Ha Hb E; cbn in E; [by simplify_eq|..].
  - injection E as <- _. destruct Hb. left.
  - injection E as -> _. destruct Ha. left.
  - injection E as -> E. apply not_elem_of_cons in Ha as [_ Ha], Hb as [_ Hb]. by destruct (IH b Ha Hb E) as [-> ->].
Qed.

Lemma scope_inj cat cat' session session' : no_nul (c_name cat) → no_nul (c_name cat') →
  scope cat session = scope cat' session' → c_name cat = c_name cat' ∧ session = session'.
Proof.
  unfold scope. intros Hn Hn' E. apply app_inv_head in E. cbn [app] in E. injection E as E.
  apply split_at_nul in E as [E ->]; [|done..]. split; [by apply as_bytes_inj|done].
Qed.

Context `{ItemCodec} (hex : bytes → string).

Lemma mutate_other cat s session cat' session' es e : attached cat' s session' es → st_scope (scope cat session) → st_room s 1 →
  scope cat' session' ≠ scope cat session → attached cat' (mutate cat s session e).2 session' es.
Proof.
  intros Ha Hsc Hr Hne. unfold mutate, append_event. destruct (load _ _ _) as [st|]; [|done].
  destruct (apply st e) as [[[] ?]|]; [|done..]. destruct (encode_event e); [|done]. by apply append_other.
Qed.

(** Two attaches never see each other's objects: whatever request one session makes,
    DDL, a read, a detach or a new attach, the log of any other session is what it was. *)
Theorem sessions_private cat s session a r cat' session' es : attached cat' s session' es →
  no_nul (c_name cat) → no_nul (c_name cat') → (c_name cat, session) ≠ (c_name cat', session') →
  st_scope (scope cat session) → st_room s 1 →
  attached cat' (handle hex cat s a session r).2 session' es ∧ attached cat' (attach_catalog cat s session).2 session' es.
Proof.
  intros Ha Hn Hn' Hd Hsc Hr. assert (scope cat' session' ≠ scope cat session) as Hne.
  { intros E. apply scope_inj in E as [E1 E2]; [|done..]. congruence. }
  split.
  - assert (r = Detach ∨ handle hex cat s a session r = match event_of cat r with
        | Err e => (Err e, s)
        | Ok (Some e) => let '(out, s) := mutate cat s session e in ((let? _ := out in Ok Nothing), s)
        | Ok None => (handle_read hex cat s a session r, s)
        end) as [->| ->] by (destruct r; auto); [by apply clear_other|].
    destruct (event_of cat r) as [[e|]|]; [|done..]. assert (Hm := mutate_other cat s session cat' session' es e Ha Hsc Hr Hne).
    by destruct (mutate cat s session e).
  - unfold attach_catalog, append_event. destruct (encode_event Attached) as [b|]; cbn [snd]; [|by apply clear_other].
    destruct (law_clear s (scope cat session)) as (_ & _ & Hroom); [apply Ha|done|].
    apply append_other; [by apply clear_other|done|by apply Hroom|done].
Qed.

Lemma attach_fresh cat s session b : st_inv s → st_scope (scope cat session) → st_room s 1 → encode_event Attached = Ok b →
  attached cat (attach_catalog cat s session).2 session [].
Proof.
  intros Hi Hsc Hr He. destruct (law_clear s (scope cat session) Hi Hsc) as (Hi' & Hv & Hroom).
  unfold attach_catalog, append_event. rewrite He.
  destruct (append (clear s (scope cat session)) (scope cat session) LOG_NS LOG_KEY b) as [id s'] eqn:Ea.
  apply (law_append _ _ _ _ _ _ _ 0) in Ea as (Hi2 & Hv2 & _); [|by auto..]. cbn [snd].
  split_and!; [done..|]. rewrite Hv2. cbn. rewrite decide_True by done. rewrite Hv. cbn. rewrite decide_True by done.
  constructor; [by apply event_codec|done].
Qed.

(** An attach starts the session over as an empty catalog with only [main], at
    version 1 (or 0 when unversioned), whatever its log held; a detach makes it unknown. *)
Theorem session_lifecycle cat s session a b : st_inv s → st_scope (scope cat session) → st_room s 1 →
  encode_event Attached = Ok b →
  (let '(out, s') := attach_catalog cat s session in
   out = Ok (if c_versioned cat then 1 else 0) ∧ attached cat s' session [] ∧ load cat s' session = Ok new_state) ∧
  (let '(out, s') := handle hex cat s a session Detach in
   out = Ok Nothing ∧ load cat s' session =
     Err (NotFound ("catalog '" +:+ c_name cat +:+ "' is not attached (unknown or detached session)"))).
Proof.
  intros Hi Hsc Hr He. destruct (law_clear s (scope cat session) Hi Hsc) as (Hi' & Hv & Hroom). split.
  - assert (Ha := attach_fresh cat s session b Hi Hsc Hr He). destruct (attach_catalog cat s session) as [out s'] eqn:Es.
    cbn in Ha. assert (Hl := load_attached _ _ _ _ Ha). split_and!; [|done|done].
    unfold attach_catalog, append_event in Es. rewrite He in Es. injection Es as <- <-. rewrite Hl.
    unfold reported_version. by destruct (c_versioned cat).
  - cbn [handle]. split; [done|]. unfold load. rewrite law_scan by (done || unfold usize_max; lia).
    rewrite Hv. cbn. by rewrite decide_True.
Qed.
End sessions.

(** * Snapshots *)

Section snapshots.
Context `{CatalogCodec, ItemCodec}.

(** The path inside an encoded schema item is the schema's. *)
Context (schema_item_path : ∀ i b, schema_item i = Ok b → schema_info_path b = Ok (si_path i)).

Lemma collect_Forall2 {A B E} (f : A → result B E) l m : collect f l = Ok m → Forall2 (λ x y, f x = Ok y) l m.
Proof.
  induction l as [|x l IH] in m |- *; cbn [collect]; [by intros [= <-]; constructor|].
  destruct (f x) as [y|] eqn:Ef; [|done]. destruct (collect f l) as [ys|]; [|done]. intros [= <-].
  constructor; [done|by apply IH].
Qed.

Lemma schema_self st s : wf st → s ∈ schemas st → schema_ st (s_path s) = Some s.
Proof.
  intros Hw Hin. unfold schema_. rewrite pos_of_find. destruct (find_schema_case st (s_path s)) as [(_ & _ & Hn)|(i & s' & -> & Hi & Hk & _)].
  { destruct Hn. by apply (list_elem_of_fmap_2 (fold_path ∘ s_path)). }
  cbn. rewrite Hi. f_equal. apply list_elem_of_lookup in Hin as [j Hj].
  assert (i = j) as <-; [|congruence]. eapply NoDup_lookup; [apply (wf_keys st Hw)|..]; unfold keys; rewrite list_lookup_fmap.
  - rewrite Hi. cbn. by rewrite Hk.
  - by rewrite Hj.
Qed.

(** A schema and its entry in the snapshot. *)
Definition listed (attach : bytes) (s : StoredSchema) (c : SchemaContents) : Prop :=
  sc_path c = s_path s ∧ schema_item (schema_info attach s) = Ok (sc_schema c) ∧
  Forall2 (λ t b, table_item (s_path s) t = Ok b) (s_tables s) (sc_tables c) ∧
  Forall2 (λ v b, view_item (view_info (s_path s) v) = Ok b) (s_views s) (sc_views c) ∧
  scalar_functions c = [] ∧ aggregate_functions c = [] ∧ table_functions c = [] ∧ scalar_macros c = [] ∧
  table_macros c = [] ∧ indexes c = [].

Lemma snapshot_listed st attach l : wf st → snapshot st attach = Ok l → Forall2 (listed attach) (schemas st) l.
Proof.
  intros Hw E%collect_Forall2. assert (Hall : Forall (λ s, s ∈ schemas st) (schemas st)) by (by apply Forall_forall).
  revert E Hall. generalize (schemas st) at 1 3 4. intros ss E. induction E as [|s c ss l Hc _ IH]; intros Hall; [constructor|].
  apply Forall_cons in Hall as [Hs Hall]. constructor; [|by apply IH].
  destruct (schema_item (schema_info attach s)) as [item|] eqn:Ei; [|done].
  unfold table_items, view_items in Hc. rewrite (schema_self st s Hw Hs) in Hc.
  destruct (collect (table_item (s_path s)) (s_tables s)) as [tb|] eqn:Et; [|done].
  destruct (collect (λ v, view_item (view_info (s_path s) v)) (s_views s)) as [vb|] eqn:Ev; [|done].
  injection Hc as <-. unfold listed. cbn. split_and!; try done; by apply collect_Forall2.
Qed.

Lemma listed_paths attach ss l : Forall2 (listed attach) ss l → sc_path <$> l = s_path <$> ss.
Proof. induction 1 as [|s c ss l (E & _) _ IH]; [done|]. cbn. by rewrite E, IH. Qed.

Lemma fold_nodup (l : list StoredSchema) : NoDup (fold_path ∘ s_path <$> l) → NoDup (s_path <$> l).
Proof. rewrite list_fmap_compose. apply NoDup_fmap_1. Qed.

(** A replayed snapshot passes the wire checks exactly when every schema's parent is
    spelled as in the schema's own path. *)
Lemma snapshot_valid st attach l : wf st → snapshot st attach = Ok l →
  validate_paths l = Ok () ↔
  Forall (λ s, parent (s_path s) = [] ∨ parent (s_path s) ∈ s_path <$> schemas st) (schemas st).
Proof.
  intros Hw Hl%snapshot_listed; [|done]. rewrite validate_paths_spec. unfold valid_snapshot.
  rewrite (listed_paths _ _ _ Hl). split.
  - intros [_ Hf]. apply Forall_forall. intros s Hs. assert (Hp : s_path s ∈ sc_path <$> l) by (rewrite (listed_paths _ _ _ Hl); by apply (list_elem_of_fmap_2 s_path)).
    apply list_elem_of_fmap in Hp as (c & Hp & Hc). rewrite Forall_forall in Hf. rewrite Hp. apply (Hf c Hc).
  - intros Hf. split; [apply fold_nodup, Hw|]. apply Forall_forall. intros c Hc.
    apply list_elem_of_lookup in Hc as [i Hc]. destruct (Forall2_lookup_r _ _ _ _ _ Hl Hc) as (s & Hs & Hp & Hi & _).
    apply list_elem_of_lookup_2 in Hs. rewrite Hp. split_and!.
    + intros E. apply (wf_nonempty st Hw). apply list_elem_of_fmap. exists s. cbn. by rewrite E.
    + by rewrite (schema_item_path _ _ Hi).
    + rewrite Forall_forall in Hf. by apply Hf.
Qed.

(** Names without upper-case ASCII letters are their own canonical spelling. *)
Definition lower_names (p : list string) : Prop := Forall (λ n, as_bytes n = fold n) p.
Definition lower_event (e : Event) : Prop := match e with SchemaCreate p _ _ _ => lower_names p | _ => True end.

Lemma lower_path_inj p q : lower_names p → lower_names q → fold_path p = fold_path q → p = q.
Proof.
  unfold fold_path. intros Hp. revert q. induction Hp as [|x p Hx _ IH]; intros [|y q] Hq E; try done.
  apply Forall_cons in Hq as [Hy Hq]. cbn in E. injection E as E1 E2. rewrite (IH q Hq E2). f_equal.
  apply as_bytes_inj. by rewrite Hx, Hy.
Qed.

Lemma spec_step_lower c e : map_Forall (λ _ a, lower_names (a_path a)) c → lower_event e →
  map_Forall (λ _ a, lower_names (a_path a)) (spec_step c e).
Proof.
  intros Hc He. unfold spec_step. destruct e; cbn [spec_apply]; [done|..].
  - unfold spec_schema_create. repeat case_match; simplify_eq; try done; by apply map_Forall_insert_2.
  - unfold spec_schema_drop. repeat case_match; simplify_eq; try done.
    intros k a [Hk _]%map_lookup_filter_Some. by eapply Hc.
  - unfold spec_put. repeat case_match; simplify_eq; try done; (apply map_Forall_insert_2; [|done]); cbn; by eapply Hc.
  - unfold spec_drop. repeat case_match; simplify_eq; try done; (apply map_Forall_insert_2; [|done]); cbn; by eapply Hc.
  - unfold spec_put. repeat case_match; simplify_eq; try done; (apply map_Forall_insert_2; [|done]); cbn; by eapply Hc.
  - unfold spec_comment. repeat case_match; simplify_eq; try done; (apply map_Forall_insert_2; [|done]); cbn; by eapply Hc.
  - unfold spec_drop. repeat case_match; simplify_eq; try done; (apply map_Forall_insert_2; [|done]); cbn; by eapply Hc.
Qed.

Lemma replayed_lower es s : Forall lower_event es → s ∈ schemas (replayed es) → lower_names (s_path s).
Proof.
  intros Hes Hs. assert (Hw := replayed_wf es). destruct (replay_from_wf new_state es new_state_wf) as (_ & Habs & _).
  assert (Hl : map_Forall (λ _ a, lower_names (a_path a)) (foldl spec_step (abs new_state) es)).
  { assert (map_Forall (λ _ a, lower_names (a_path a)) (abs new_state)) as H1.
    { intros k a Hk. apply elem_of_list_to_map_2, list_elem_of_fmap in Hk as (x & [= _ ->] & Hx).
      apply list_elem_of_singleton in Hx as ->. repeat constructor. }
    clear -Hes H1. revert H1. generalize (abs new_state) as c. induction Hes as [|e es He _ IH]; intros c H1; [done|].
    cbn. by apply IH, spec_step_lower. }
  rewrite <- Habs in Hl. fold (replayed es) in Hl. apply list_elem_of_lookup in Hs as [i Hi].
  apply (Hl (fold_path (s_path s)) (abs_schema s)). apply (kmap_in (fold_path ∘ s_path) abs_schema _ i); [apply Hw|done].
Qed.

(** The snapshot of a session lists each of its schemas once, with its own item and
    the items of exactly its tables and views; where schema names are created without
    upper-case letters, [catalog_contents] accepts it. *)
Theorem snapshot_complete es attach l : snapshot (replayed es) attach = Ok l →
  Forall2 (listed attach) (schemas (replayed es)) l ∧ (Forall lower_event es → validate_paths l = Ok ()).
Proof.
  intros Hl. assert (Hw := replayed_wf es). split; [by apply snapshot_listed|]. intros Hes.
  apply (snapshot_valid _ attach l Hw Hl). apply Forall_forall. intros s Hs.
  destruct (decide (parent (s_path s) = [])) as [|Hne]; [by left|right].
  assert (Hup : fold_path (parent (s_path s)) ∈ keys (replayed es)).
  { unfold parent in *. rewrite <- up_fold. apply (wf_up _ Hw); [by apply (list_elem_of_fmap_2 (fold_path ∘ s_path))|].
    rewrite up_fold. by rewrite fold_path_nil. }
  apply list_elem_of_fmap in Hup as (s' & E & Hs'). apply list_elem_of_fmap. exists s'. split; [|done].
  apply lower_path_inj; [|by eapply replayed_lower|done]. unfold parent. apply Forall_take. by eapply replayed_lower.
Qed.
End snapshots.

(** * Sample codecs *)

Module Sample.
#[local] Instance StoredEvent_eq_dec : EqDecision Event.
Proof. solve_decision. Defined.

(** Events are encoded by their number in a list. *)
Definition events : list Event :=
  [Attached; SchemaCreate ["a"] None [] OnError; SchemaCreate ["A"] None [] OnError; SchemaCreate ["a"; "b"] None [] OnError;
   TableCreate ["MAIN"] "T" [x01] [] [] [] [] OnError; ViewCreate ["main"] "t" "SELECT 1" [] None [] [] OnError].
Definition number (e : Event) : result bytes string :=
  match pos_of (λ x, bool_decide (x = e)) events with Some i => Ok [byte_of_Z (Z.of_nat i)] | None => Err "no number" end.
Definition numbered (b : bytes) : result Event string :=
  match b with
  | [n] => match events !! Z.to_nat (Z_of_byte n) with Some e => Ok e | None => Err "no event" end
  | _ => Err "no event"
  end.

(** A path as the digits of its number. *)
Fixpoint bits (p : positive) : bytes :=
  match p with xH => [] | xO p => x00 :: bits p | xI p => x01 :: bits p end.
Fixpoint of_bits (l : bytes) : positive :=
  match l with [] => xH | b :: l => if byte_eq_dec b x00 then xO (of_bits l) else xI (of_bits l) end.

#[export] Instance catalog_codec : CatalogCodec := {
  encode_event := number;
  decode_event := numbered;
  schema_item i := Ok (bits (countable.encode (si_path i)));
  view_item v := Ok (as_bytes (vi_name v));
  table_item _ t := Ok (t_columns t);
  read_columns _ := Ok [];
  validate_columns _ _ := Ok ();
}.
#[export] Instance item_codec : ItemCodec := {
  merge _ l := Ok (match l with [] => None | _ => Some (concat l) end);
  schema_info_path b := match countable.decode (of_bits b) with Some p => Ok p | None => Err (ValueError "no path") end;
}.

Lemma event_codec e b : encode_event e = Ok b → decode_event b = Ok e.
Proof.
  cbn. unfold number. destruct (pos_of _ events) as [i|] eqn:Ei; [|done]. intros [= <-].
  apply pos_of_Some in Ei as (x & Hx & He%bool_decide_eq_true & _). subst x. cbn [numbered].
  assert (Z.of_nat i < 256) as Hi by (apply lookup_lt_Some in Hx; cbn in Hx; lia).
  rewrite Z_of_byte_of_Z, Z.mod_small, Nat2Z.id by lia. by rewrite Hx.
Qed.

Lemma of_bits_bits p : of_bits (bits p) = p.
Proof. induction p as [p IH|p IH|]; cbn; [by rewrite IH..|done]. Qed.
Lemma schema_item_path i b : schema_item i = Ok b → schema_info_path b = Ok (si_path i).
Proof. cbn. intros [= <-]. rewrite of_bits_bits. by rewrite countable.decode_encode. Qed.

Definition cat : StoredCatalog := mkStored "scratch" true None NoEtag.
Definition session : bytes := [x07].
Definition store : Inner := (attach_catalog cat MemoryStorage_new session).2.

Lemma store_attached : attached cat store session [].
Proof.
  by apply (attach_fresh event_codec cat MemoryStorage_new session [x00]); [exact mem_inv_new|..].
Qed.
End Sample.

#[local] Existing Instances Sample.catalog_codec Sample.item_codec.

Lemma ddl_refines_witness :
  ∃ s' st', mutate Sample.cat Sample.store Sample.session (TableCreate ["MAIN"] "T" [x01] [] [] [] [] OnError) = (Ok (), s') ∧
    load Sample.cat s' Sample.session = Ok st' ∧ version st' = 2 ∧
    (a_objects <$> abs st' !! [as_bytes "main"]) = Some {[ as_bytes "t" := OTable (mkTable "T" [x01]) ]}.
Proof.
  pose proof (ddl_refines Sample.event_codec Sample.cat Sample.store Sample.session []
    (TableCreate ["MAIN"] "T" [x01] [] [] [] [] OnError) [x04] Sample.store_attached) as H.
  destruct H as (s' & st' & Hm & _ & Hl & Ha & Hv); [reflexivity..|]. exists s', st'.
  split; [exact Hm|]. split; [exact Hl|]. split; [exact Hv|]. rewrite Ha. vm_compute. reflexivity.
Defined.

(** After a table is created, the version has moved. *)
Lemma version_shows_changes_witness :
  ∃ st, load Sample.cat Sample.store Sample.session = Ok st ∧ version st = 1 ∧ st = new_state.
Proof.
  destruct (version_shows_changes Sample.cat Sample.store Sample.store Sample.session [] []
    Sample.store_attached Sample.store_attached) as (st & st' & Hl & Hl' & Hv & Heq).
  exists st. split; [exact Hl|]. vm_compute in Hl. injection Hl as <-. split; reflexivity.
Defined.

Lemma sessions_private_witness :
  attached Sample.cat (handle (λ _, "") Sample.cat Sample.store [] [x08] (DropSchema ["main"] false true)).2 Sample.session [].
Proof.
  apply (sessions_private (λ _, "") Sample.cat Sample.store [x08] [] (DropSchema ["main"] false true) Sample.cat Sample.session []).
  - exact Sample.store_attached.
  - apply (bool_decide_unpack (x00 ∉ as_bytes (c_name Sample.cat))). vm_compute. exact I.
  - apply (bool_decide_unpack (x00 ∉ as_bytes (c_name Sample.cat))). vm_compute. exact I.
  - discriminate.
  - exact I.
  - reflexivity.
Defined.

Lemma session_lifecycle_witness :
  (attach_catalog Sample.cat Sample.store Sample.session).1 = Ok 1 ∧
  load Sample.cat (handle (λ _, "") Sample.cat Sample.store [] Sample.session Detach).2 Sample.session =
    Err (NotFound "catalog 'scratch' is not attached (unknown or detached session)").
Proof.
  destruct (session_lifecycle Sample.event_codec (λ _, "") Sample.cat Sample.store Sample.session [] [x00]) as [Ha Hd].
  - exact (proj1 Sample.store_attached).
  - exact I.
  - reflexivity.
  - reflexivity.
  - destruct (attach_catalog Sample.cat Sample.store Sample.session). split; [apply Ha|apply Hd].
Defined.

Lemma snapshot_complete_witness :
  ∃ l, snapshot (replayed [SchemaCreate ["a"] None [] OnError; SchemaCreate ["a"; "b"] None [] OnError]) [] = Ok l ∧
    length l = 3%nat ∧ validate_paths l = Ok ().
Proof.
  eexists. split; [vm_compute; reflexivity|]. split; [reflexivity|].
  eapply (snapshot_complete Sample.schema_item_path [SchemaCreate ["a"] None [] OnError; SchemaCreate ["a"; "b"] None [] OnError] []).
  - vm_compute. reflexivity.
  - repeat constructor.
Defined.

(** Schema paths are matched up to case by DDL but compared exactly by the wire checks:
    after [CREATE SCHEMA A; CREATE SCHEMA a.b], both accepted, [catalog_contents] of the
    session fails, for every client etag, until one of the schemas is dropped. *)
Theorem mixed_case_parent_blocks_contents :
  let call s r := handle (λ _, "") Sample.cat s [] Sample.session r in
  let s1 := (call Sample.store (CreateSchema ["A"] None None false "error")).2 in
  let s2 := (call s1 (CreateSchema ["a"; "b"] None None false "error")).2 in
  (call Sample.store (CreateSchema ["A"] None None false "error")).1 = Ok Nothing ∧
  (call s1 (CreateSchema ["a"; "b"] None None false "error")).1 = Ok Nothing ∧
  (call s2 GetVersion).1 = Ok (Version 3) ∧
  ∀ etag, (call s2 (Contents etag)).1 =
    Err (OtherError (ValueError "catalog_contents returned schema path without its parent")).
Proof. vm_compute. done. Qed.
