(* ===== verification/SqlExpression.v ===== *)
(** The reader of scalar SQL in catalog metadata, [vgi/src/sql_expression.rs]: a
    tokenizer and a recursive-descent recognizer of CHECK comparisons and
    generated-column expressions, with the checks of both grammars. *)
From S2P Require Import Prelude Float64 Arrow SqlCompare.

Open Scope Z_scope.

(** * Characters *)

(** A [char] is its code point; a string's [chars] are the decoding of its bytes. *)
Abbreviation char := Z.
Definition code (c : ascii) : char := Z.of_N (N_of_ascii c).
Notation "'ch' c" := (code c%char) (at level 5, c at level 0) : vgi_scope.

Definition utf8 (c : char) : bytes :=
  byte_of_Z <$>
  (if c <? 0x80 then [c]
   else if c <? 0x800 then [0xC0 + c / 64; 0x80 + c mod 64]
   else if c <? 0x10000 then [0xE0 + c / 4096; 0x80 + c / 64 mod 64; 0x80 + c mod 64]
   else [0xF0 + c / 262144; 0x80 + c / 4096 mod 64; 0x80 + c / 64 mod 64; 0x80 + c mod 64]).

Fixpoint decode_chars (l : bytes) : list char :=
  match l with
  | [] => []
  | b :: l1 =>
      let z := Z_of_byte b in
      let low (x : byte) := Z_of_byte x - 0x80 in
      if z <? 0x80 then z :: decode_chars l1
      else match l1 with
           | b1 :: l2 =>
               if z <? 0xE0 then (z - 0xC0) * 64 + low b1 :: decode_chars l2
               else match l2 with
                    | b2 :: l3 =>
                        if z <? 0xF0 then (z - 0xE0) * 4096 + low b1 * 64 + low b2 :: decode_chars l3
                        else match l3 with
                             | b3 :: l4 => (z - 0xF0) * 262144 + low b1 * 4096 + low b2 * 64 + low b3 :: decode_chars l4
                             | [] => []
                             end
                    | [] => []
                    end
           | [] => []
           end
  end.
Definition chars (s : string) : list char := decode_chars (as_bytes s).
(** [iter().collect::<String>()]. *)
Definition collect_string (l : list char) : string := string_of_bytes (l ≫= utf8).

Definition is_ascii_digit (c : char) : bool := (48 <=? c) && (c <=? 57).
Definition is_ascii_alphanumeric (c : char) : bool :=
  is_ascii_digit c || ((65 <=? c) && (c <=? 90)) || ((97 <=? c) && (c <=? 122)).
Definition ascii_upper (b : byte) : byte :=
  let z := Z_of_byte b in if (97 <=? z) && (z <=? 122) then byte_of_Z (z - 32) else b.
Definition to_ascii_uppercase (s : string) : string := string_of_bytes (ascii_upper <$> as_bytes s).
Definition to_ascii_lowercase (s : string) : string := string_of_bytes (ascii_lower <$> as_bytes s).

(** Unicode's character classes: [char::is_whitespace], [is_alphabetic], [is_alphanumeric]. *)
Class CharClasses := {
  is_whitespace : char → bool;
  is_alphabetic : char → bool;
  is_alphanumeric : char → bool;
}.
(** What Unicode fixes of the ASCII range. *)
Class CharLaws `{CharClasses} := {
  whitespace_ascii c : 0 ≤ c < 128 → is_whitespace c = ((9 <=? c) && (c <=? 13)) || (c =? 32);
  alphabetic_ascii c : 0 ≤ c < 128 → is_alphabetic c = ((65 <=? c) && (c <=? 90)) || ((97 <=? c) && (c <=? 122));
  alphanumeric_ascii c : 0 ≤ c < 128 → is_alphanumeric c = is_ascii_alphanumeric c;
  alphabetic_alphanumeric c : is_alphabetic c = true → is_alphanumeric c = true;
}.

(** * Tokens *)

Definition MAX_SQL : Z := 1024 * 1024.
Definition MAX_DEPTH : nat := 64.
Definition MAX_NODES : Z := 4096.

Inductive Token :=
| Ident (w : string) | Quoted (w : string) | Number (t : string) | Str | Op (o : string)
| LParen | RParen | Comma | Dot.
#[global] Instance Token_eq_dec : EqDecision Token.
Proof. solve_decision. Defined.

(** A message, or a loop of the model that ran out of turns. *)
Inductive PError := Msg (m : string) | Stuck.
Abbreviation P T := (result T PError).

Fixpoint span (p : char → bool) (l : list char) : list char * list char :=
  match l with
  | c :: r => if p c then let '(a, b) := span p r in (c :: a, b) else ([], l)
  | [] => ([], [])
  end.

Definition head_is (p : char → bool) (l : list char) : bool :=
  match l with c :: _ => p c | [] => false end.

(** [skip_quoted], from after the opening quote: the raw text and what follows the
    closing quote. *)
Fixpoint skip_quoted (quote : char) (l : list char) : P (list char * list char) :=
  match l with
  | [] => Err (Msg "unterminated quoted text")
  | c :: r =>
      if c =? quote then
        match r with
        | d :: r' => if d =? quote then let? (raw, rest) := skip_quoted quote r' in Ok (c :: d :: raw, rest)
                     else Ok ([], r)
        | [] => Ok ([], r)
        end
      else if (c =? 92) && (quote =? ch "'") then
        match r with
        | d :: r' => let? (raw, rest) := skip_quoted quote r' in Ok (c :: d :: raw, rest)
        | [] => Err (Msg "unterminated quoted text")
        end
      else let? (raw, rest) := skip_quoted quote r in Ok (c :: raw, rest)
  end.

(** [replace] of a doubled double quote by one. *)
Fixpoint undouble (l : list char) : list char :=
  match l with
  | c :: r =>
      match r with
      | d :: r' => if (c =? 34) && (d =? 34) then c :: undouble r' else c :: undouble r
      | [] => [c]
      end
  | [] => []
  end.

(** After a block comment's opening: what follows its end. *)
Fixpoint close_comment (l : list char) : option (list char) :=
  match l with
  | c :: r => if (c =? ch "*") && head_is (Z.eqb (ch "/")) r then Some (tail r) else close_comment r
  | [] => None
  end.

Definition digit_or_underscore (c : char) : bool := is_ascii_digit c || (c =? ch "_").
Definition one_of (l : list ascii) (c : char) : bool := existsb (λ a, code a =? c) l.

(** A literal opens with [0x] or [0b]. *)
Definition radix_prefix (l : list char) : bool :=
  match l with c :: d :: _ => (c =? ch "0") && one_of ["x"; "X"; "b"; "B"]%char d | _ => false end.

(** The fraction of a literal. *)
Definition lex_fraction (a r : list char) : list char * list char :=
  match r with
  | c :: r' => if c =? ch "." then let '(b, r') := span digit_or_underscore r' in (a ++ c :: b, r') else (a, r)
  | [] => (a, r)
  end.

(** The exponent of a literal: taken when a digit follows. *)
Definition lex_exponent (a r : list char) : list char * list char :=
  match r with
  | e :: r1 =>
      if one_of ["e"; "E"]%char e then
        let '(sign, r2) := match r1 with
                           | s :: r2 => if one_of ["+"; "-"]%char s then ([s], r2) else ([], r1)
                           | [] => ([], r1)
                           end in
        if head_is is_ascii_digit r2 then let '(b, r3) := span is_ascii_digit r2 in (a ++ e :: sign ++ b, r3)
        else (a, r)
      else (a, r)
  | [] => (a, r)
  end.

(** The text of a numeric literal and what follows. *)
Definition lex_number (l : list char) : list char * list char :=
  if radix_prefix l then
    let '(a, r) := span (λ c, is_ascii_alphanumeric c || (c =? ch "_")) (drop 2 l) in (take 2 l ++ a, r)
  else
    let '(a, r) := span digit_or_underscore l in
    let '(a, r) := lex_fraction a r in
    lex_exponent a r.

Definition OPERATORS : list ascii :=
  ["<"; ">"; "="; "!"; "|"; ":"; "+"; "-"; "*"; "/"; "%"; "^"; "~"; "&"; "#"; "@"; "?"; "["; "]"; "{"; "}"; ";"]%char.
Definition TWO : list string :=
  ["<="; ">="; "<>"; "!="; "=="; "||"; "::"; "//"; "**"; ":="; "=>"; "->"; "<<"; ">>"; "!~"; "~~"; "^@"].

(** The token of a single character, or of two. *)
Definition lex_symbol (c : char) (r : list char) : P (Token * list char) :=
  if c =? ch "(" then Ok (LParen, r)
  else if c =? ch ")" then Ok (RParen, r)
  else if c =? ch "," then Ok (Comma, r)
  else if c =? ch "." then Ok (Dot, r)
  else if one_of OPERATORS c then
    let two := collect_string [c; default (ch " ") (head r)] in
    if existsb (String.eqb two) TWO then Ok (Op two, tail r) else Ok (Op (collect_string [c]), r)
  else Err (Msg "unexpected character").

Section tokenizer.
Context `{CharClasses}.

(** One token, or skipped text, off a non-empty text. *)
Definition lex_one (c : char) (r : list char) : P (option Token * list char) :=
  if is_whitespace c then Ok (None, r)
  else if (c =? ch "-") && head_is (Z.eqb (ch "-")) r then Ok (None, (span (λ c, negb (c =? 10)) (c :: r)).2)
  else if (c =? ch "/") && head_is (Z.eqb (ch "*")) r then
    match close_comment (tail r) with Some r => Ok (None, r) | None => Err (Msg "unterminated comment") end
  else if is_ascii_digit c || ((c =? ch ".") && head_is is_ascii_digit r) then
    let '(a, r) := lex_number (c :: r) in Ok (Some (Number (collect_string a)), r)
  else if is_alphabetic c || (c =? ch "_") then
    let '(a, r) := span (λ c, is_alphanumeric c || (c =? ch "_") || (c =? ch "$")) (c :: r) in
    let word := collect_string a in
    if (String.eqb word "E" || String.eqb word "e") && head_is (Z.eqb (ch "'")) r
    then let? (_, r) := skip_quoted (ch "'") (tail r) in Ok (Some Str, r)
    else Ok (Some (Ident word), r)
  else if c =? 34 then
    let? (raw, r) := skip_quoted 34 r in Ok (Some (Quoted (collect_string (undouble raw))), r)
  else if c =? ch "'" then let? (_, r) := skip_quoted (ch "'") r in Ok (Some Str, r)
  else let? (t, r) := lex_symbol c r in Ok (Some t, r).

(** The loop of [tokenize]: every turn consumes a character. *)
Fixpoint tokenize_loop (fuel : nat) (l : list char) : P (list Token) :=
  match l with
  | [] => Ok []
  | c :: r =>
      match fuel with
      | O => Err Stuck
      | S fuel =>
          let? (t, r) := lex_one c r in
          let? ts := tokenize_loop fuel r in
          Ok (match t with Some t => t :: ts | None => ts end)
      end
  end.
Definition tokenize (sql : string) : P (list Token) := tokenize_loop (length (chars sql)) (chars sql).
End tokenizer.

(** * Expressions *)

Inductive Literal := LNull | LBoolean | LInteger | LOtherNumeric | LVarchar.
#[global] Instance Literal_eq_dec : EqDecision Literal.
Proof. solve_decision. Defined.

Inductive Expr :=
| ELiteral (l : Literal)
| EColumn (parts : list string)
| ECast (try_cast qualified : bool) (type_name : string) (child : Expr)
| ECompare (l r : Expr)
| EConjunction (parts : list Expr)
| ENot (e : Expr)
| EIsNull (e : Expr)
| ECoalesce (args : list Expr)
| EFunction (name : string) (qualified : bool) (args : list Expr) (decorated : bool)
| EUnsupported (what : string).

Definition function (n : string) (args : list Expr) : Expr := EFunction n false args false.

(** [i64::from_str_radix(_, radix).is_ok()] of text without a sign, and [str::parse::<i64>]. *)
Definition digit_value (c : byte) : Z :=
  let z := Z_of_byte c in
  if (48 <=? z) && (z <=? 57) then z - 48
  else if (97 <=? z) && (z <=? 122) then z - 87
  else if (65 <=? z) && (z <=? 90) then z - 55 else 99.
Definition radix_ok (radix : Z) (l : bytes) : bool :=
  negb (bool_decide (l = [])) && forallb (λ c, digit_value c <? radix) l
  && (foldl (λ n c, n * radix + digit_value c) 0 l <? 2 ^ 63).

(** [number]: what a numeric literal is. *)
Definition number (text : string) : Literal :=
  let digits := string_of_bytes (filter (λ c, c ≠ x5f) (as_bytes text)) in
  let lower := to_ascii_lowercase digits in
  let integer :=
    match strip_prefix "0x" lower with
    | Some hex => radix_ok 16 (as_bytes hex)
    | None =>
        match strip_prefix "0b" lower with
        | Some bin => radix_ok 2 (as_bytes bin)
        | None => if bool_decide (x2e ∈ as_bytes lower) || bool_decide (x65 ∈ as_bytes lower) then false
                  else radix_ok 10 (as_bytes digits)
        end
    end in
  if integer then LInteger else LOtherNumeric.

(** * The parser *)

Definition keyword (t : option Token) (word : string) : bool :=
  match t with Some (Ident w) => eq_ignore_ascii_case w word | _ => false end.

(** A turn of a loop: go on, or leave it. *)
Inductive turn A := Again (a : A) (pos : nat) | Done (a : A) (pos : nat).
Arguments Again {A} a pos.
Arguments Done {A} a pos.

Fixpoint loop {A} (turns : nat) (step : A → nat → P (turn A)) (a : A) (pos : nat) : P (A * nat) :=
  match turns with
  | O => Err Stuck
  | S turns =>
      let? t := step a pos in
      match t with Again a pos => loop turns step a pos | Done a pos => Ok (a, pos) end
  end.

Definition PREDICATES : list string := ["IN"; "BETWEEN"; "LIKE"; "ILIKE"; "SIMILAR"; "GLOB"].
Definition COMPARISONS : list string := ["="; "=="; "!="; "<>"; "<"; ">"; "<="; ">="].
Definition GENERIC : list string := ["->"; "<<"; ">>"; "&"; "#"; "~"; "!~"; "~~"; "^@"; "@"; "?"].

(** A parser at a position. *)
Abbreviation parser A := (nat → P (A * nat)).

(** What a level calls one level of nesting below; [None] past the bound. *)
Record Below := mkBelow { b_or : parser Expr; b_not : parser Expr; b_unary : parser Expr }.
Definition entering (below : option Below) (f : Below → parser Expr) : parser Expr :=
  match below with Some b => f b | None => λ _, Err (Msg "expression nesting is too deep") end.

Section parser.
Context (tokens : list Token).

Definition peek (pos : nat) : option Token := tokens !! pos.
Definition is_op (pos : nat) (op : string) : bool :=
  match peek pos with Some (Op o) => String.eqb o op | _ => false end.
Definition op_in (pos : nat) (l : list string) : option string :=
  match peek pos with Some (Op o) => if existsb (String.eqb o) l then Some o else None | _ => None end.
Definition is_token (pos : nat) (t : Token) : bool := bool_decide (peek pos = Some t).
(** [expect(token)?]: the position after it. *)
Definition expect (t : Token) (pos : nat) : P nat :=
  if is_token pos t then Ok (S pos) else Err (Msg "expected token").
(** A loop has at most one turn per token, and one to leave it. *)
Definition looping {A} (step : A → nat → P (turn A)) (a : A) (pos : nat) : P (A * nat) := loop (S (length tokens)) step a pos.

(** ** Names and calls *)

(** The body of a type modifier: [depth] open parentheses. *)
Fixpoint skip_modifier (turns : nat) (depth : nat) (pos : nat) : P nat :=
  match depth with
  | O => Ok pos
  | S d =>
      match turns with
      | O => Err Stuck
      | S turns =>
          match peek pos with
          | None => Err (Msg "unterminated type modifier")
          | Some LParen => skip_modifier turns (S depth) (S pos)
          | Some RParen => skip_modifier turns d (S pos)
          | Some _ => skip_modifier turns depth (S pos)
          end
      end
  end.

Fixpoint skip_subscript (turns : nat) (pos : nat) : P nat :=
  if is_op pos "]" then Ok pos
  else match turns with
       | O => Err Stuck
       | S turns => match peek pos with None => Err (Msg "unterminated array type") | Some _ => skip_subscript turns (S pos) end
       end.

Definition type_part (parts : list string) (pos : nat) : P (turn (list string)) :=
  match peek pos with
  | Some (Ident w | Quoted w) =>
      if is_token (S pos) Dot then Ok (Again (parts ++ [w]) (S (S pos))) else Ok (Done (parts ++ [w]) (S pos))
  | _ => Err (Msg "expected a type name")
  end.

Definition type_name_ (pos : nat) : P ((string * bool) * nat) :=
  let? (parts, pos) := looping type_part [] pos in
  let n := to_ascii_uppercase (default "" (last parts)) in
  let '(n, pos) := if String.eqb n "DOUBLE" && keyword (peek pos) "PRECISION" then ("DOUBLE PRECISION", S pos) else (n, pos) in
  let '(n, pos) := if String.eqb n "CHARACTER" && keyword (peek pos) "VARYING" then ("CHARACTER VARYING", S pos) else (n, pos) in
  let? pos := if is_token pos LParen then skip_modifier (S (length tokens)) 1 (S pos) else Ok pos in
  let? (n, pos) := if is_op pos "["
                   then let? pos := skip_subscript (S (length tokens)) pos in Ok (n +:+ "[]", S pos)
                   else Ok (n, pos) in
  Ok ((n, (1 <? length parts)%nat), pos).

(** One more part of a qualified name, or its end, or an unsupported star. *)
Definition name_part (acc : list string + string) (pos : nat) : P (turn (list string + string)) :=
  match acc with
  | inr _ => Ok (Done acc pos)
  | inl parts =>
      if is_token pos Dot then
        match peek (S pos) with
        | Some (Ident w | Quoted w) => Ok (Again (inl (parts ++ [w])) (S (S pos)))
        | Some (Op o) => if String.eqb o "*" then Ok (Done (inr "star") (S (S pos))) else Err (Msg "expected a name after '.'")
        | _ => Err (Msg "expected a name after '.'")
        end
      else Ok (Done acc pos)
  end.

(** To the next closing parenthesis, or the end. *)
Fixpoint skip_order (turns : nat) (pos : nat) : P nat :=
  match peek pos with
  | Some RParen | None => Ok pos
  | Some _ => match turns with O => Err Stuck | S turns => skip_order turns (S pos) end
  end.

Section below.
Context (expression : parser Expr).

Definition argument (acc : list Expr * bool) (pos : nat) : P (turn (list Expr * bool)) :=
  let '(args, decorated) := acc in
  let named := match peek pos, peek (S pos) with
               | Some (Ident _ | Quoted _), Some (Op o) => String.eqb o ":=" || String.eqb o "=>"
               | _, _ => false
               end in
  let '(decorated, pos) := if named then (true, S (S pos)) else (decorated, pos) in
  let? (e, pos) := expression pos in
  let args := args ++ [e] in
  let? (decorated, pos) := if keyword (peek pos) "ORDER"
                           then let? pos := skip_order (length tokens) (S pos) in Ok (true, pos) else Ok (decorated, pos) in
  match peek pos with
  | Some Comma => Ok (Again (args, decorated) (S pos))
  | Some RParen => Ok (Done (args, decorated) (S pos))
  | _ => Err (Msg "expected ',' or ')' in argument list")
  end.

(** The arguments after the opening parenthesis, and whether the call is decorated. *)
Definition arguments (pos : nat) : P ((list Expr * bool) * nat) :=
  let '(decorated, pos) := if keyword (peek pos) "DISTINCT" || keyword (peek pos) "ALL" then (true, S pos) else (false, pos) in
  if is_token pos RParen then Ok (([], decorated), S pos)
  else if is_op pos "*" then let? pos := expect RParen (S pos) in Ok (([], true), pos)
  else looping argument ([], decorated) pos.

Definition name_tail (first : string) (pos : nat) : P (Expr * nat) :=
  let? (parts, pos) := looping name_part (inl [first]) pos in
  match parts with
  | inr what => Ok (EUnsupported what, pos)
  | inl parts =>
      if negb (is_token pos LParen) then Ok (EColumn parts, pos)
      else
        let? (ad, pos) := arguments (S pos) in
        let '(args, decorated) := ad in
        if keyword (peek pos) "FILTER" || keyword (peek pos) "OVER" || keyword (peek pos) "WITHIN"
        then Ok (EUnsupported "aggregate or window call", pos)
        else
          let n := default "" (last parts) in
          let qualified := (1 <? length parts)%nat in
          if eq_ignore_ascii_case n "coalesce" && negb qualified && negb decorated then Ok (ECoalesce args, pos)
          else Ok (EFunction n qualified args decorated, pos)
  end.

(** After [CAST (] or [TRY_CAST (]. *)
Definition cast_tail (try_cast : bool) (pos : nat) : P (Expr * nat) :=
  let? (child, pos) := expression pos in
  if negb (keyword (peek pos) "AS") then Err (Msg "expected AS in CAST")
  else
    let? (tq, pos) := type_name_ (S pos) in
    let? pos := expect RParen pos in
    Ok (ECast try_cast tq.2 tq.1 child, pos).

(** One more element of a row constructor. *)
Definition row_part (acc : unit) (pos : nat) : P (turn unit) :=
  if is_token pos Comma then let? (_, pos) := expression (S pos) in Ok (Again () pos) else Ok (Done () pos).

(** After an opening parenthesis. *)
Definition paren_tail (pos : nat) : P (Expr * nat) :=
  if keyword (peek pos) "SELECT" || keyword (peek pos) "WITH" then Ok (EUnsupported "subquery", pos)
  else
    let? (first, pos) := expression pos in
    if is_token pos Comma then
      let? (_, pos) := looping row_part () pos in
      let? pos := expect RParen pos in
      Ok (EUnsupported "row constructor", pos)
    else let? pos := expect RParen pos in Ok (first, pos).

Definition primary (pos : nat) : P (Expr * nat) :=
  match peek pos with
  | None => Err (Msg "unexpected end of expression")
  | Some (Number text) => Ok (ELiteral (number text), S pos)
  | Some Str => Ok (ELiteral LVarchar, S pos)
  | Some LParen => paren_tail (S pos)
  | Some (Quoted n) => name_tail n (S pos)
  | Some (Ident word) =>
      let upper := to_ascii_uppercase word in
      let pos := S pos in
      if String.eqb upper "NULL" then Ok (ELiteral LNull, pos)
      else if String.eqb upper "TRUE" || String.eqb upper "FALSE" then Ok (ELiteral LBoolean, pos)
      else if existsb (String.eqb upper) ["CASE"; "EXISTS"; "ARRAY"; "INTERVAL"; "SELECT"] then Ok (EUnsupported upper, pos)
      else if (String.eqb upper "CAST" || String.eqb upper "TRY_CAST") && is_token pos LParen
      then cast_tail (String.eqb upper "TRY_CAST") (S pos)
      else if is_token pos Str then Ok (EUnsupported "typed literal", S pos)
      else name_tail word pos
  | Some _ => Err (Msg "unexpected token")
  end.
End below.

(** ** Operators, from the tightest *)

Section levels.
Context (below : option Below).

Definition cast_part (acc : Expr) (pos : nat) : P (turn Expr) :=
  if is_op pos "::" then
    let? (tq, pos) := type_name_ (S pos) in Ok (Again (ECast false tq.2 tq.1 acc) pos)
  else Ok (Done acc pos).

Definition postfix (pos : nat) : P (Expr * nat) :=
  let? (e, pos) := primary (entering below b_or) pos in
  let? (e, pos) := looping cast_part e pos in
  if is_op pos "[" then Ok (EUnsupported "subscript", pos) else Ok (e, pos).

Definition numeric_literal (e : Expr) : bool :=
  match e with ELiteral (LInteger | LOtherNumeric) => true | _ => false end.

Definition unary (pos : nat) : P (Expr * nat) :=
  if is_op pos "-" || is_op pos "+" then
    let negative := is_op pos "-" in
    let? (inner, pos) := entering below b_unary (S pos) in
    if numeric_literal inner then Ok (inner, pos) else Ok (function (if negative then "-" else "+") [inner], pos)
  else postfix pos.

(** Left-associative operators of [ops] over [operand]. *)
Definition binary (ops : list string) (operand : parser Expr) (build : string → Expr → Expr → Expr)
    (acc : Expr) (pos : nat) : P (turn Expr) :=
  match op_in pos ops with
  | Some o => let? (rhs, pos) := operand (S pos) in Ok (Again (build o acc rhs) pos)
  | None => Ok (Done acc pos)
  end.
Definition apply_op (o : string) (l r : Expr) : Expr := function o [l; r].

Definition power (pos : nat) : P (Expr * nat) :=
  let? (lhs, pos) := unary pos in
  looping (binary ["^"; "**"] unary (λ _, apply_op "^")) lhs pos.

Definition multiplicative (pos : nat) : P (Expr * nat) :=
  let? (lhs, pos) := power pos in
  looping (binary ["*"; "/"; "%"; "//"] power apply_op) lhs pos.

Definition additive (pos : nat) : P (Expr * nat) :=
  let? (lhs, pos) := multiplicative pos in
  looping (binary ["+"; "-"] multiplicative apply_op) lhs pos.

Definition concat (pos : nat) : P (Expr * nat) :=
  let? (lhs, pos) := additive pos in
  looping (binary ("||" :: GENERIC) additive
             (λ o l r, if String.eqb o "||" then apply_op "||" l r else EUnsupported ("operator " +:+ o))) lhs pos.

Definition predicate (t : option Token) : bool := existsb (keyword t) PREDICATES.

Definition comparison (pos : nat) : P (Expr * nat) :=
  let? (lhs, pos) := concat pos in
  if predicate (peek pos) || (keyword (peek pos) "NOT" && predicate (peek (S pos)))
  then Ok (EUnsupported "IN / BETWEEN / LIKE predicate", pos)
  else match op_in pos COMPARISONS with
       | Some _ => let? (rhs, pos) := concat (S pos) in Ok (ECompare lhs rhs, pos)
       | None => Ok (lhs, pos)
       end.

Definition is_part (acc : Expr) (pos : nat) : P (turn Expr) :=
  if keyword (peek pos) "ISNULL" then Ok (Again (EIsNull acc) (S pos))
  else if keyword (peek pos) "NOTNULL" then Ok (Again (ENot (EIsNull acc)) (S pos))
  else if keyword (peek pos) "IS" then
    let negated := keyword (peek (S pos)) "NOT" in
    let pos := if negated then S (S pos) else S pos in
    if keyword (peek pos) "NULL" then Ok (Again (if negated then ENot (EIsNull acc) else EIsNull acc) (S pos))
    else Ok (Done (EUnsupported "IS predicate") (S pos))
  else Ok (Done acc pos).
Definition is_ (pos : nat) : P (Expr * nat) :=
  let? (lhs, pos) := comparison pos in looping is_part lhs pos.

Definition not_ (pos : nat) : P (Expr * nat) :=
  if keyword (peek pos) "NOT" then let? (inner, pos) := entering below b_not (S pos) in Ok (ENot inner, pos)
  else is_ pos.

(** [AND] and [OR]. *)
Definition more (word : string) (operand : parser Expr) (parts : list Expr) (pos : nat) : P (turn (list Expr)) :=
  if keyword (peek pos) word then let? (e, pos) := operand (S pos) in Ok (Again (parts ++ [e]) pos)
  else Ok (Done parts pos).
Definition conjunction (parts : list Expr) : Expr := match parts with [e] => e | _ => EConjunction parts end.
Definition and_ (pos : nat) : P (Expr * nat) :=
  let? (e, pos) := not_ pos in
  let? (parts, pos) := looping (more "AND" not_) [e] pos in
  Ok (conjunction parts, pos).
Definition or_ (pos : nat) : P (Expr * nat) :=
  let? (e, pos) := and_ pos in
  let? (parts, pos) := looping (more "OR" and_) [e] pos in
  Ok (conjunction parts, pos).
End levels.

(** The levels with [room] more levels of nesting below them. *)
Fixpoint levels (room : nat) : Below :=
  let below := match room with O => None | S room => Some (levels room) end in
  mkBelow (or_ below) (not_ below) (unary below).

(** [expression] at depth 0: [MAX_DEPTH * 4] levels may be entered. *)
Definition expression (pos : nat) : P (Expr * nat) := b_or (levels (MAX_DEPTH * 4 - 1)) pos.
End parser.

(** The trailing semicolons are dropped. *)
Fixpoint strip_semicolons (l : list Token) : list Token :=
  match l with
  | [] => []
  | t :: l => match strip_semicolons l with
              | [] => if bool_decide (t = Op ";") then [] else [t]
              | l => t :: l
              end
  end.

Section checks.
Context `{CharClasses}.

Definition parse (sql : string) : P Expr :=
  if String.eqb sql "" || (MAX_SQL <? Z.of_nat (String.length sql)) || bool_decide (x00 ∈ as_bytes sql)
  then Err (Msg "invalid SQL size or text")
  else
    let? tokens := tokenize sql in
    let tokens := strip_semicolons tokens in
    let? (e, pos) := expression tokens 0 in
    if (pos =? length tokens)%nat then Ok e
    else Err (Msg "expected exactly one scalar expression without query clauses").

(** * The two grammars *)

Definition metadata (f : Field) : list (string * string) := let '(mkField _ _ _ md) := f in md.
Definition has_metadata (f : Field) (k : string) : bool := existsb (λ kv, String.eqb kv.1 k) (metadata f).
Definition is_row_id (f : Field) : bool := has_metadata f "is_row_id".

(** The unique top-level column of a name, up to case. *)
Definition column (columns : Schema) (n : string) : P Field :=
  match filter (λ f, eq_ignore_ascii_case (name f) n = true) columns with
  | [f] => Ok f
  | [] => Err (Msg "references unknown column")
  | _ => Err (Msg "column reference is ambiguous")
  end.

Definition signed_numeric (t : DataType) : bool :=
  match t with Flat (FInt8 | FInt16 | FInt32 | FInt64 | FFloat32 | FFloat64) => true | _ => false end.

(** An operand of a CHECK comparison. *)
Definition check_operand (columns : Schema) (e : Expr) : P unit :=
  match e with
  | ELiteral (LInteger | LOtherNumeric) => Ok ()
  | ELiteral _ => Err (Msg "CHECK requires non-NULL numeric literals")
  | EColumn [n] =>
      let? f := column columns n in
      if is_row_id f then Err (Msg "CHECK references the synthetic row-id column")
      else if has_metadata f "ARROW:extension:name" then Err (Msg "column is extension-typed")
      else if signed_numeric (data_type f) then Ok ()
      else Err (Msg "CHECK requires primitive signed numeric columns")
  | EColumn _ => Err (Msg "CHECK requires unqualified column references")
  | _ => Err (Msg "operands must be numeric literals or column references")
  end.

Definition check_numeric_comparison (sql : string) (columns : Schema) : P unit :=
  let? e := parse sql in
  match e with
  | ECompare lhs rhs => let? _ := check_operand columns lhs in check_operand columns rhs
  | _ => Err (Msg "the DuckDB extension reads only one numeric comparison")
  end.

Definition CAST_TYPES : list string :=
  ["BOOLEAN"; "BOOL"; "LOGICAL"; "TINYINT"; "INT1"; "SMALLINT"; "INT2"; "SHORT"; "INTEGER"; "INT"; "INT4"; "SIGNED"; "INT32";
   "BIGINT"; "INT8"; "LONG"; "INT64"; "VARCHAR"; "TEXT"; "STRING"; "CHAR"; "BPCHAR"; "NVARCHAR"; "CHARACTER VARYING"; "NULL"].
Definition generated_cast_type (n : string) : bool := existsb (String.eqb n) CAST_TYPES.
Definition generated_type (t : DataType) : bool :=
  match t with Flat (FBoolean | FInt8 | FInt16 | FInt32 | FInt64 | FUtf8) => true | _ => false end.
Definition FUNCTIONS : list string := ["+"; "-"; "*"; "%"; "abs"; "lower"; "upper"].
Definition allowed_function (n : string) : bool :=
  existsb (String.eqb (to_ascii_lowercase n)) FUNCTIONS || String.eqb n "||".

(** The checks of one node, and its children. *)
Definition node_children (columns : Schema) (e : Expr) : P (list Expr) :=
  match e with
  | ELiteral LOtherNumeric => Err (Msg "unsupported scalar literal type")
  | ELiteral _ => Ok []
  | EColumn [n] =>
      let? f := column columns n in
      if negb (generated_type (data_type f)) || has_metadata f "ARROW:extension:name"
      then Err (Msg "unsupported generated operand type") else Ok []
  | EColumn _ => Err (Msg "column references must be unqualified")
  | ECast try_cast qualified t child =>
      if try_cast || qualified || negb (generated_cast_type t) then Err (Msg "unsupported scalar cast") else Ok [child]
  | ECompare a b => Ok [a; b]
  | EConjunction parts | ECoalesce parts => Ok parts
  | ENot a | EIsNull a => Ok [a]
  | EFunction n qualified args decorated =>
      if qualified || decorated || negb (allowed_function n) then Err (Msg "unsupported scalar function") else Ok args
  | EUnsupported _ => Err (Msg "outside the supported deterministic scalar grammar")
  end.

(** [generated_node]: the node count after it.  [room] is [MAX_DEPTH - depth]. *)
Fixpoint generated_node (columns : Schema) (room : nat) (e : Expr) (nodes : Z) : P Z :=
  let nodes := nodes + 1 in
  if MAX_NODES <? nodes then Err (Msg "scalar expression is too complex")
  else
    let? children := node_children columns e in
    (fix go (l : list Expr) (nodes : Z) : P Z :=
       match l with
       | [] => Ok nodes
       | c :: l =>
           match room with
           | O => Err (Msg "scalar expression is too complex")
           | S room => let? nodes := generated_node columns room c nodes in go l nodes
           end
       end) children nodes.

Definition check_generated (sql : string) (columns : Schema) : P unit :=
  let? e := parse sql in
  let? _ := generated_node columns MAX_DEPTH e 0 in
  Ok ().
End checks.
