(* ===== verification/SqlExpressionFacts.v ===== *)
(** Theorems on the SQL reader: it always ends with an expression or a message,
    reads back every expression of its grammar, and the two checks accept exactly
    the expressions of the grammars they stand for. *)
From S2P Require Import Prelude Float64 Arrow SqlCompare SqlExpression.

Open Scope Z_scope.

(** * The tokenizer ends *)

Lemma span_length p l : (length (span p l).2 ≤ length l)%nat.
Proof. induction l as [|c l IH]; cbn; [done|]. destruct (p c); [|done]. destruct (span p l); cbn in *. lia. Qed.

Lemma span_cons_length p c l : p c = true → (length (span p (c :: l)).2 ≤ length l)%nat.
Proof. intros Hc. cbn. rewrite Hc. assert (Hs := span_length p l). by destruct (span p l). Qed.

Lemma skip_quoted_length q l : match skip_quoted q l with
  | Ok (_, r) => (length r ≤ length l)%nat | Err e => e ≠ Stuck end.
Proof.
  induction l as [l IH] using (induction_ltof1 _ length). destruct l as [|c r]; [done|].
  assert (IHr : ∀ l, (length l < length (c :: r))%nat → match skip_quoted q l with
    | Ok (_, r) => (length r ≤ length l)%nat | Err e => e ≠ Stuck end) by (intros l Hl; by apply IH). clear IH.
  cbn [skip_quoted]. destruct (c =? q); [|destruct ((c =? 92) && (q =? ch "'"))].
  - destruct r as [|d r']; [cbn; lia|]. destruct (d =? q); [|cbn; lia].
    specialize (IHr r' ltac:(cbn; lia)). destruct (skip_quoted q r') as [[? ?]|]; [cbn in *; lia|done].
  - destruct r as [|d r']; [done|]. specialize (IHr r' ltac:(cbn; lia)).
    destruct (skip_quoted q r') as [[? ?]|]; [cbn in *; lia|done].
  - specialize (IHr r ltac:(cbn; lia)). destruct (skip_quoted q r) as [[? ?]|]; [cbn in *; lia|done].
Qed.

Lemma close_comment_length l r : close_comment l = Some r → (length r ≤ length l)%nat.
Proof.
  induction l as [|c l IH]; cbn; [done|]. destruct (_ && _).
  - intros [= <-]. destruct l; cbn; lia.
  - intros E%IH. lia.
Qed.

Lemma lex_fraction_length a r : (length (lex_fraction a r).2 ≤ length r)%nat.
Proof.
  unfold lex_fraction. destruct r as [|c r]; [done|]. destruct (c =? ch "."); [|done].
  assert (Hs := span_length digit_or_underscore r). destruct (span digit_or_underscore r). cbn in *. lia.
Qed.
Lemma lex_exponent_length a r : (length (lex_exponent a r).2 ≤ length r)%nat.
Proof.
  unfold lex_exponent. destruct r as [|e r]; [done|]. destruct (one_of _ e); [|done].
  assert (H : (length (match r with s :: r2 => if one_of ["+"; "-"]%char s then ([s], r2) else ([], r) | [] => ([], r) end).2 ≤ length r)%nat).
  { destruct r as [|s r]; [done|]. destruct (one_of _ s); cbn; lia. }
  destruct (match r with s :: r2 => if one_of ["+"; "-"]%char s then ([s], r2) else ([], r) | [] => ([], r) end) as [sign r2].
  cbn in H. destruct (head_is _ r2); [|done]. assert (Hs := span_length is_ascii_digit r2).
  destruct (span is_ascii_digit r2). cbn in *. lia.
Qed.

(** A literal consumes its first character. *)
Lemma lex_number_length c r : is_ascii_digit c || ((c =? ch ".") && head_is is_ascii_digit r) = true →
  (length (lex_number (c :: r)).2 ≤ length r)%nat.
Proof.
  intros Hc. unfold lex_number. destruct (radix_prefix (c :: r)) eqn:Hr.
  { cbn in Hr. destruct r as [|d r]; [done|]. change (drop 2 (c :: d :: r)) with r.
    assert (Hs := span_length (λ c, is_ascii_alphanumeric c || (c =? ch "_")) r).
    destruct (span _ r). cbn in *. lia. }
  destruct (digit_or_underscore c) eqn:Hd.
  - assert (Hs := span_cons_length digit_or_underscore c r Hd). destruct (span digit_or_underscore (c :: r)) as [a r1].
    assert (Hf := lex_fraction_length a r1). destruct (lex_fraction a r1) as [a2 r2].
    assert (He := lex_exponent_length a2 r2). cbn in *. lia.
  - assert (span digit_or_underscore (c :: r) = ([], c :: r)) as -> by (cbn; by rewrite Hd).
    unfold digit_or_underscore in Hd. apply orb_false_iff in Hd as [Hd _]. rewrite Hd in Hc. cbn [orb] in Hc.
    apply andb_true_iff in Hc as [Hc _]. cbn [lex_fraction]. rewrite Hc.
    assert (Hs := span_length digit_or_underscore r). destruct (span digit_or_underscore r) as [b r1].
    assert (He := lex_exponent_length ([] ++ c :: b) r1). cbn in *. lia.
Qed.

Section tokenizer.
Context `{CharLaws}.

Lemma lex_one_length c r : match lex_one c r with
  | Ok (_, r') => (length r' ≤ length r)%nat | Err e => e ≠ Stuck end.
Proof.
  unfold lex_one. destruct (is_whitespace c); [done|].
  destruct ((c =? ch "-") && _) eqn:Hm.
  { apply andb_true_iff in Hm as [Hm%Z.eqb_eq _]. apply span_cons_length. by rewrite Hm. }
  destruct ((c =? ch "/") && _).
  { destruct (close_comment (tail r)) as [r'|] eqn:Hc; [|done]. apply close_comment_length in Hc. destruct r; cbn in *; lia. }
  destruct (is_ascii_digit c || _) eqn:Hn.
  { assert (Hl := lex_number_length c r Hn). by destruct (lex_number (c :: r)). }
  destruct (is_alphabetic c || (c =? ch "_")) eqn:Ha.
  { set (p := λ c, is_alphanumeric c || (c =? ch "_") || (c =? ch "$")).
    assert (p c = true) as Hp.
    { unfold p. apply orb_true_iff in Ha as [Ha| ->]; [by rewrite (alphabetic_alphanumeric _ Ha)|by rewrite orb_true_r]. }
    assert (Hs := span_cons_length p c r Hp). destruct (span p (c :: r)) as [a r']. cbn in Hs. cbv zeta.
    destruct ((String.eqb (collect_string a) "E" || String.eqb (collect_string a) "e") && head_is (Z.eqb (ch "'")) r'); [|exact Hs]. assert (Hq := skip_quoted_length (ch "'") (tail r')).
    destruct (skip_quoted _ _) as [[? ?]|]; [|done]. destruct r'; cbn in *; lia. }
  destruct (c =? 34).
  { assert (Hq := skip_quoted_length 34 r). by destruct (skip_quoted 34 r) as [[? ?]|]. }
  destruct (c =? ch "'").
  { assert (Hq := skip_quoted_length (ch "'") r). by destruct (skip_quoted (ch "'") r) as [[? ?]|]. }
  unfold lex_symbol. repeat case_match; simplify_eq; try done; destruct r; cbn; lia.
Qed.

Lemma tokenize_loop_total fuel l : (length l ≤ fuel)%nat → tokenize_loop fuel l ≠ Err Stuck.
Proof.
  induction fuel as [|fuel IH] in l |- *; intros Hl; (destruct l as [|c r]; [done|]); [cbn in Hl; lia|].
  cbn [tokenize_loop]. assert (Ho := lex_one_length c r). destruct (lex_one c r) as [[t r']|e]; [|congruence].
  specialize (IH r'). cbn in Hl. destruct (tokenize_loop fuel r') as [ts|e]; [done|]. intros E. apply IH; [lia|congruence].
Qed.
End tokenizer.

(** * The parser ends *)

Section parser.
Context (tokens : list Token).

(** A result at or after a position, or a message. *)
Definition fine {A} (pos : nat) (r : P (A * nat)) : Prop :=
  match r with Ok (_, pos') => (pos ≤ pos')%nat | Err e => e ≠ Stuck end.
Definition fine_nat (pos : nat) (r : P nat) : Prop := match r with Ok pos' => (pos ≤ pos')%nat | Err e => e ≠ Stuck end.
Definition fine_parser {A} (f : nat → P (A * nat)) : Prop := ∀ pos, fine pos (f pos).

Lemma fine_bind {A B} pos (r : P (A * nat)) (k : A → nat → P (B * nat)) : fine pos r →
  (∀ a pos', (pos ≤ pos')%nat → fine pos' (k a pos')) → fine pos (let? (a, pos') := r in k a pos').
Proof.
  destruct r as [[a p]|]; cbn; [|done]. intros Hp Hk. specialize (Hk a p Hp). unfold fine in *.
  destruct (k a p) as [[b q]|]; [lia|done].
Qed.
Lemma fine_bind_nat {B} pos (r : P nat) (k : nat → P (B * nat)) : fine_nat pos r →
  (∀ pos', (pos ≤ pos')%nat → fine pos' (k pos')) → fine pos (let? pos' := r in k pos').
Proof.
  destruct r as [p|]; cbn; [|done]. intros Hp Hk. specialize (Hk p Hp). unfold fine in *. destruct (k p) as [[b q]|]; [lia|done].
Qed.
Lemma fine_S {A} pos (r : P (A * nat)) : fine (S pos) r → fine pos r.
Proof. unfold fine. destruct r as [[? ?]|]; [lia|done]. Qed.
Lemma fine_ok {A} pos (a : A) : fine pos (Ok (a, pos)).
Proof. cbn. lia. Qed.

Lemma peek_lt pos t : peek tokens pos = Some t → (pos < length tokens)%nat.
Proof. apply lookup_lt_Some. Qed.
Lemma keyword_lt pos w : keyword (peek tokens pos) w = true → (pos < length tokens)%nat.
Proof. unfold keyword. destruct (peek tokens pos) eqn:E; [|done]. intros _. by eapply peek_lt. Qed.
Lemma is_token_lt pos t : is_token tokens pos t = true → (pos < length tokens)%nat.
Proof. unfold is_token. intros E%bool_decide_eq_true. by eapply peek_lt. Qed.
Lemma is_op_lt pos o : is_op tokens pos o = true → (pos < length tokens)%nat.
Proof. unfold is_op. destruct (peek tokens pos) eqn:E; [|done]. intros _. by eapply peek_lt. Qed.
Lemma op_in_lt pos l o : op_in tokens pos l = Some o → (pos < length tokens)%nat.
Proof. unfold op_in. destruct (peek tokens pos) eqn:E; [|done]. intros _. by eapply peek_lt. Qed.

(** A turn that goes on has consumed a token. *)
Definition fine_turn {A} (pos : nat) (r : P (turn A)) : Prop :=
  match r with
  | Ok (Again _ pos') => (pos < pos')%nat ∧ (pos < length tokens)%nat
  | Ok (Done _ pos') => (pos ≤ pos')%nat
  | Err e => e ≠ Stuck
  end.

Lemma loop_fine {A} (step : A → nat → P (turn A)) n a pos : (∀ a pos, fine_turn pos (step a pos)) →
  (length tokens - pos < n)%nat → fine pos (loop n step a pos).
Proof.
  intros Hs. revert a pos. induction n as [|n IH]; intros a pos Hn; [lia|]. cbn [loop].
  specialize (Hs a pos). destruct (step a pos) as [[a' p|a' p]|e]; cbn in Hs; [|done|done].
  destruct Hs as [H1 H2]. specialize (IH a' p ltac:(lia)). unfold fine in *. destruct (loop n step a' p) as [[? ?]|]; [lia|done].
Qed.
Lemma looping_fine {A} (step : A → nat → P (turn A)) a pos : (∀ a pos, fine_turn pos (step a pos)) →
  fine pos (looping tokens step a pos).
Proof. intros Hs. apply loop_fine; [done|lia]. Qed.

Lemma skip_modifier_fine n d pos : (length tokens - pos < n)%nat → fine_nat pos (skip_modifier tokens n d pos).
Proof.
  induction n as [|n IH] in d, pos |- *; intros Hn; [lia|]. destruct d as [|d]; [cbn; lia|]. cbn [skip_modifier].
  destruct (peek tokens pos) as [t|] eqn:E; [|done]. apply peek_lt in E.
  assert (∀ d, fine_nat pos (skip_modifier tokens n d (S pos))) as Hd.
  { intros d'. specialize (IH d' (S pos) ltac:(lia)). unfold fine_nat in *. destruct (skip_modifier _ _ _ _); [lia|done]. }
  destruct t; apply Hd.
Qed.
Lemma skip_subscript_fine n pos : (length tokens - pos < n)%nat → fine_nat pos (skip_subscript tokens n pos).
Proof.
  induction n as [|n IH] in pos |- *; intros Hn; [lia|]. cbn [skip_subscript]. destruct (is_op tokens pos "]"); [cbn; lia|].
  destruct (peek tokens pos) as [t|] eqn:E; [|done]. apply peek_lt in E.
  specialize (IH (S pos) ltac:(lia)). unfold fine_nat in *. destruct (skip_subscript _ _ _); [lia|done].
Qed.
Lemma skip_order_fine n pos : (length tokens - pos ≤ n)%nat → fine_nat pos (skip_order tokens n pos).
Proof.
  induction n as [|n IH] in pos |- *; intros Hn; cbn [skip_order]; destruct (peek tokens pos) as [t|] eqn:E; try (cbn; lia).
  - apply peek_lt in E. lia.
  - apply peek_lt in E. specialize (IH (S pos) ltac:(lia)). unfold fine_nat in *.
    destruct t; try lia; destruct (skip_order _ _ _); (lia || done).
Qed.
Lemma expect_fine t pos : fine_nat pos (expect tokens t pos).
Proof. unfold expect. destruct (is_token _ _ _); cbn; [lia|done]. Qed.

Lemma type_name_fine : fine_parser (type_name_ tokens).
Proof.
  intros pos. unfold type_name_. apply fine_bind.
  { apply looping_fine. intros parts p. unfold type_part. destruct (peek tokens p) as [[]|] eqn:E; try done.
    all: apply peek_lt in E; destruct (is_token _ _ _); cbn; lia. }
  intros parts p Hp. set (n0 := to_ascii_uppercase _).
  destruct (String.eqb n0 "DOUBLE" && _); [apply fine_S|].
  all: match goal with |- fine ?q _ => generalize q; clear p Hp; intros p end.
  all: match goal with |- context [String.eqb ?n "CHARACTER" && _] => destruct (String.eqb n "CHARACTER" && _); [apply fine_S|] end.
  all: match goal with |- fine ?q _ => generalize q; clear p; intros p end.
  all: apply fine_bind_nat; [destruct (is_token tokens p LParen); [|cbn; lia];
         assert (Hf := skip_modifier_fine (S (length tokens)) 1 (S p) ltac:(lia)); unfold fine_nat in *;
         destruct (skip_modifier _ _ _ _); [lia|done]|].
  all: intros q Hq; apply fine_bind; [|intros n2 q2 _; apply fine_ok].
  all: destruct (is_op tokens q "["); [|apply fine_ok].
  all: assert (Hf := skip_subscript_fine (S (length tokens)) q ltac:(lia)); unfold fine_nat, fine in *;
       destruct (skip_subscript _ _ _); [lia|done].
Qed.

Lemma name_part_fine acc pos : fine_turn pos (name_part tokens acc pos).
Proof.
  unfold name_part. destruct acc as [parts|]; [|cbn; lia]. destruct (is_token tokens pos Dot) eqn:E; [|cbn; lia].
  apply is_token_lt in E. destruct (peek tokens (S pos)) as [[]|]; try done; try (cbn; lia).
  destruct (String.eqb _ _); [cbn; lia|done].
Qed.

Section below.
Context (expr : nat → P (Expr * nat)) (Hexpr : fine_parser expr).

Lemma argument_fine acc pos : fine_turn pos (argument tokens expr acc pos).
Proof.
  unfold argument. destruct acc as [args dec].
  cbv zeta. match goal with |- context [if ?b then (true, S (S pos)) else (dec, pos)] => generalize b; intros named end.
  assert (Hn : ∃ d q, (if named then (true, S (S pos)) else (dec, pos)) = (d, q) ∧ (pos ≤ q)%nat)
    by (destruct named; eexists _, _; (split; [done|lia])).
  destruct Hn as (d & q & -> & Hq). specialize (Hexpr q). unfold fine in Hexpr.
  destruct (expr q) as [[e q2]|]; [|done].
  assert (Ho : match (if keyword (peek tokens q2) "ORDER" then let? pos := skip_order tokens (length tokens) (S q2) in Ok (true, pos)
                      else Ok (d, q2)) with Ok (_, q3) => (q2 ≤ q3)%nat | Err e => e ≠ Stuck end).
  { destruct (keyword _ _); [|done]. assert (Hf := skip_order_fine (length tokens) (S q2) ltac:(lia)). unfold fine_nat in Hf.
    destruct (skip_order _ _ _); [lia|done]. }
  destruct (if keyword (peek tokens q2) "ORDER" then _ else _) as [[d3 q3]|]; [|done].
  destruct (peek tokens q3) as [[]|] eqn:E; try done; apply peek_lt in E; cbn; lia.
Qed.

Lemma arguments_fine : fine_parser (arguments tokens expr).
Proof.
  intros pos. unfold arguments. destruct (_ || _); [apply fine_S|]; cbv beta iota zeta.
  all: match goal with |- fine ?q _ => generalize q; clear pos; intros pos end.
  all: destruct (is_token tokens pos RParen); [cbn; lia|]; destruct (is_op tokens pos "*");
    [|apply looping_fine, argument_fine].
  all: apply fine_S, fine_bind_nat; [apply expect_fine|intros; apply fine_ok].
Qed.

Lemma name_tail_fine first : fine_parser (name_tail tokens expr first).
Proof.
  intros pos. unfold name_tail. apply fine_bind; [apply looping_fine, name_part_fine|].
  intros [parts|what] p _; [|apply fine_ok]. destruct (negb _); [apply fine_ok|].
  apply fine_S, fine_bind; [apply arguments_fine|]. intros [args d] q _.
  destruct (_ || _); [apply fine_ok|]. destruct (_ && _); apply fine_ok.
Qed.

Lemma cast_tail_fine b : fine_parser (cast_tail tokens expr b).
Proof.
  intros pos. unfold cast_tail. apply fine_bind; [apply Hexpr|]. intros e p _. destruct (negb _); [done|].
  apply fine_S, fine_bind; [apply type_name_fine|]. intros tq q _. apply fine_bind_nat; [apply expect_fine|intros; apply fine_ok].
Qed.

Lemma paren_tail_fine : fine_parser (paren_tail tokens expr).
Proof.
  intros pos. unfold paren_tail. destruct (_ || _); [apply fine_ok|]. apply fine_bind; [apply Hexpr|]. intros e p _.
  destruct (is_token tokens p Comma); [|apply fine_bind_nat; [apply expect_fine|intros; apply fine_ok]].
  apply fine_bind; [|intros [] q _; apply fine_bind_nat; [apply expect_fine|intros; apply fine_ok]].
  apply looping_fine. intros acc q. unfold row_part. destruct (is_token tokens q Comma) eqn:E; [|cbn; lia].
  apply is_token_lt in E. specialize (Hexpr (S q)). unfold fine in Hexpr. destruct (expr (S q)) as [[? ?]|]; [cbn; lia|done].
Qed.

Lemma primary_fine : fine_parser (primary tokens expr).
Proof.
  intros pos. unfold primary. destruct (peek tokens pos) as [[]|]; try done; cbv zeta; try (apply fine_S; apply fine_ok).
  - destruct (String.eqb _ "NULL"); [apply fine_S, fine_ok|]. destruct (_ || _); [apply fine_S, fine_ok|].
    destruct (existsb _ _); [apply fine_S, fine_ok|]. destruct (_ && _); [do 2 apply fine_S; apply cast_tail_fine|].
    destruct (is_token _ _ Str); [do 2 apply fine_S; apply fine_ok|]. apply fine_S, name_tail_fine.
  - apply fine_S, name_tail_fine.
  - apply fine_S, paren_tail_fine.
Qed.
End below.

Section levels.
Context (below : option Below).
Context (Hor : fine_parser (entering below b_or)) (Hnot : fine_parser (entering below b_not)) (Hun : fine_parser (entering below b_unary)).

Lemma postfix_fine : fine_parser (postfix tokens below).
Proof.
  intros pos. unfold postfix. apply fine_bind; [by apply primary_fine|]. intros e p _. apply fine_bind.
  - apply looping_fine. intros a q. unfold cast_part. destruct (is_op tokens q "::") eqn:E; [|cbn; lia].
    apply is_op_lt in E. assert (Hf := type_name_fine (S q)). unfold fine in Hf. destruct (type_name_ tokens (S q)) as [[? ?]|]; [cbn; lia|done].
  - intros e' q _. destruct (is_op _ _ _); apply fine_ok.
Qed.
Lemma unary_fine : fine_parser (unary tokens below).
Proof.
  intros pos. unfold unary. destruct (_ || _); [|apply postfix_fine]. apply fine_S, fine_bind; [apply Hun|].
  intros e p _. destruct (numeric_literal e); apply fine_ok.
Qed.
Lemma binary_fine ops operand build acc pos : fine_parser operand → fine_turn pos (binary tokens ops operand build acc pos).
Proof.
  intros Ho. unfold binary. destruct (op_in tokens pos ops) eqn:E; [|cbn; lia]. apply op_in_lt in E.
  specialize (Ho (S pos)). unfold fine in Ho. destruct (operand (S pos)) as [[? ?]|]; [cbn; lia|done].
Qed.
Lemma left_assoc_fine (operand : nat → P (Expr * nat)) ops build : fine_parser operand →
  fine_parser (λ pos, let? (lhs, pos) := operand pos in looping tokens (binary tokens ops operand build) lhs pos).
Proof. intros Ho pos. apply fine_bind; [apply Ho|]. intros e p _. apply looping_fine. intros. by apply binary_fine. Qed.
Lemma concat_fine : fine_parser (concat tokens below).
Proof. repeat apply left_assoc_fine. apply unary_fine. Qed.
Lemma comparison_fine : fine_parser (comparison tokens below).
Proof.
  intros pos. unfold comparison. apply fine_bind; [apply concat_fine|]. intros e p _. destruct (_ || _); [apply fine_ok|].
  destruct (op_in _ _ _); [|apply fine_ok]. apply fine_S, fine_bind; [apply concat_fine|]. intros; apply fine_ok.
Qed.
Lemma is_fine : fine_parser (is_ tokens below).
Proof.
  intros pos. unfold is_. apply fine_bind; [apply comparison_fine|]. intros e p _. apply looping_fine. intros a q. unfold is_part.
  destruct (keyword (peek tokens q) "ISNULL") eqn:E1; [apply keyword_lt in E1; cbn; lia|].
  destruct (keyword (peek tokens q) "NOTNULL") eqn:E2; [apply keyword_lt in E2; cbn; lia|].
  destruct (keyword (peek tokens q) "IS") eqn:E3; [|cbn; lia]. apply keyword_lt in E3. cbv zeta.
  destruct (keyword (peek tokens (S q)) "NOT"); destruct (keyword _ "NULL"); cbn; lia.
Qed.
Lemma not_fine : fine_parser (not_ tokens below).
Proof.
  intros pos. unfold not_. destruct (keyword _ _); [|apply is_fine]. apply fine_S, fine_bind; [apply Hnot|]. intros; apply fine_ok.
Qed.
Lemma more_fine word operand acc pos : fine_parser operand → fine_turn pos (more tokens word operand acc pos).
Proof.
  intros Ho. unfold more. destruct (keyword (peek tokens pos) word) eqn:E; [|cbn; lia]. apply keyword_lt in E.
  specialize (Ho (S pos)). unfold fine in Ho. destruct (operand (S pos)) as [[? ?]|]; [cbn; lia|done].
Qed.
Lemma or_fine : fine_parser (or_ tokens below).
Proof.
  assert (fine_parser (and_ tokens below)) as Ha.
  { intros pos. unfold and_. apply fine_bind; [apply not_fine|]. intros e p _. apply fine_bind; [|intros; apply fine_ok].
    apply looping_fine. intros. apply more_fine, not_fine. }
  intros pos. unfold or_. apply fine_bind; [apply Ha|]. intros e p _. apply fine_bind; [|intros; apply fine_ok].
  apply looping_fine. intros. by apply more_fine.
Qed.
End levels.

Lemma levels_fine room : fine_parser (b_or (levels tokens room)) ∧ fine_parser (b_not (levels tokens room)) ∧ fine_parser (b_unary (levels tokens room)).
Proof.
  induction room as [|room (H1 & H2 & H3)]; cbn [levels b_or b_not b_unary].
  - split_and!; [apply or_fine|apply not_fine|apply unary_fine]; by intros pos.
  - split_and!; [apply or_fine|apply not_fine|apply unary_fine]; done.
Qed.
End parser.

(** Reading a text always ends, with an expression or a message: no loop of the
    tokenizer or of the parser can run on, whatever the text. *)
Theorem sql_parse_terminates `{CharLaws} sql : parse sql ≠ Err Stuck.
Proof.
  unfold parse. destruct (_ || _); [done|]. assert (Ht := tokenize_loop_total (length (chars sql)) (chars sql) ltac:(lia)).
  unfold tokenize. destruct (tokenize_loop _ _) as [ts|]; [|congruence].
  destruct (levels_fine (strip_semicolons ts) (MAX_DEPTH * 4 - 1)) as (Ho & _ & _). specialize (Ho 0%nat).
  unfold expression, fine in *. destruct (b_or _ 0%nat) as [[e p]|]; [|congruence]. by destruct (_ =? _)%nat.
Qed.

(** * The generated-column grammar *)

Definition children (e : Expr) : list Expr :=
  match e with
  | ECast _ _ _ c => [c]
  | ECompare a b => [a; b]
  | EConjunction l | ECoalesce l | EFunction _ _ l _ => l
  | ENot a | EIsNull a => [a]
  | ELiteral _ | EColumn _ | EUnsupported _ => []
  end.

Definition sum_list (l : list Z) : Z := foldr Z.add 0 l.
Definition max_list (l : list nat) : nat := foldr Nat.max 0%nat l.

(** The number of nodes, and the length of the longest path to a leaf. *)
Fixpoint nodes (e : Expr) : Z :=
  1 + match e with
      | ECast _ _ _ c => nodes c
      | ECompare a b => nodes a + nodes b
      | EConjunction l | ECoalesce l | EFunction _ _ l _ => sum_list (map nodes l)
      | ENot a | EIsNull a => nodes a
      | ELiteral _ | EColumn _ | EUnsupported _ => 0
      end.
Fixpoint height (e : Expr) : nat :=
  match e with
  | ECast _ _ _ c => S (height c)
  | ECompare a b => Nat.max (S (height a)) (S (height b))
  | EConjunction l | ECoalesce l | EFunction _ _ l _ => max_list (map (λ c, S (height c)) l)
  | ENot a | EIsNull a => S (height a)
  | ELiteral _ | EColumn _ | EUnsupported _ => 0
  end.

Lemma nodes_children e : nodes e = 1 + sum_list (map nodes (children e)).
Proof. destruct e; cbn [nodes children]; unfold sum_list; cbn [map foldr]; lia. Qed.
Lemma height_children e : height e = max_list (map (λ c, S (height c)) (children e)).
Proof. destruct e; cbn [height children]; unfold max_list; cbn [map foldr]; try done; lia. Qed.
Lemma max_list_le l n : (max_list l ≤ n)%nat ↔ Forall (λ x, (x ≤ n)%nat) l.
Proof. unfold max_list. induction l as [|x l IH]; cbn [foldr]; [split; [constructor|lia]|]. rewrite Forall_cons, <- IH. lia. Qed.

(** Induction over the expressions below. *)
Lemma expr_induction (Q : Expr → Prop) : (∀ e, Forall Q (children e) → Q e) → ∀ e, Q e.
Proof.
  intros Hq. fix IH 1. intros e. apply Hq. destruct e; cbn [children].
  all: try (constructor; fail).
  all: try (induction parts as [|c l Hl]; constructor; [apply IH|exact Hl]).
  all: try (induction args as [|c l Hl]; constructor; [apply IH|exact Hl]).
  all: repeat (constructor; [apply IH|]); constructor.
Qed.

Lemma nodes_pos e : 1 ≤ nodes e.
Proof.
  induction e as [e IH] using expr_induction. rewrite nodes_children. 
  assert (0 ≤ sum_list (map nodes (children e))); [|lia]. induction IH as [|c l Hc _ IHl]; cbn; [lia|]. unfold sum_list in *. lia.
Qed.

(** What a generated column may be computed from, over the columns of a table. *)
Inductive in_grammar (columns : Schema) : Expr → Prop :=
| G_literal l : l ≠ LOtherNumeric → in_grammar columns (ELiteral l)
| G_column n f : column columns n = Ok f → generated_type (data_type f) = true →
    has_metadata f "ARROW:extension:name" = false → in_grammar columns (EColumn [n])
| G_cast t e : generated_cast_type t = true → in_grammar columns e → in_grammar columns (ECast false false t e)
| G_compare a b : in_grammar columns a → in_grammar columns b → in_grammar columns (ECompare a b)
| G_conjunction l : Forall (in_grammar columns) l → in_grammar columns (EConjunction l)
| G_not e : in_grammar columns e → in_grammar columns (ENot e)
| G_is_null e : in_grammar columns e → in_grammar columns (EIsNull e)
| G_coalesce l : Forall (in_grammar columns) l → in_grammar columns (ECoalesce l)
| G_function n l : allowed_function n = true → Forall (in_grammar columns) l → in_grammar columns (EFunction n false l false).

(** The checks of one node are those of its form. *)
Lemma in_grammar_node columns e : in_grammar columns e ↔
  node_children columns e = Ok (children e) ∧ Forall (in_grammar columns) (children e).
Proof.
  split.
  - intros Hg. destruct Hg as [l Hl|n f Hc Ht Hm|t e Ht|a b|l Hl|e|e|l Hl|n l Hn Hl]; cbn [node_children children];
      rewrite ?Hc, ?Ht, ?Hm, ?Hn; auto.
    destruct l; auto. done.
  - destruct e; cbn [node_children children]; intros [Hn Hc]; try done.
    + constructor. intros ->. done.
    + destruct parts as [|n [|]]; try done. destruct (column columns n) as [f|] eqn:Hcol; [|done].
      destruct (generated_type (data_type f)) eqn:Ht; [|done]. destruct (has_metadata f _) eqn:Hm; [done|]. by econstructor.
    + destruct try_cast, qualified; try done. cbn [orb] in Hn. destruct (generated_cast_type type_name) eqn:Ht; [|done].
      apply Forall_cons in Hc as [Hc _]. by constructor.
    + apply Forall_cons in Hc as [Ha [Hb _]%Forall_cons]. by constructor.
    + by constructor.
    + apply Forall_cons in Hc as [Hc _]. by constructor.
    + apply Forall_cons in Hc as [Hc _]. by constructor.
    + by constructor.
    + destruct qualified, decorated; try done. cbn [orb] in Hn. destruct (allowed_function _) eqn:Ha; [|done]. by constructor.
Qed.

Lemma node_children_Ok columns e l : node_children columns e = Ok l → l = children e.
Proof. destruct e; cbn [node_children children]; repeat case_match; intros E; simplify_eq; done. Qed.

(** The counting loop over the children of a node. *)
Definition nodes_loop (columns : Schema) (room : nat) : list Expr → Z → P Z :=
  fix go (l : list Expr) (n : Z) : P Z :=
    match l with
    | [] => Ok n
    | c :: l =>
        match room with
        | O => Err (Msg "scalar expression is too complex")
        | S room => let? n := generated_node columns room c n in go l n
        end
    end.
Lemma generated_node_unfold columns room e n : generated_node columns room e n =
  if MAX_NODES <? n + 1 then Err (Msg "scalar expression is too complex")
  else let? cs := node_children columns e in nodes_loop columns room cs (n + 1).
Proof. by destruct room. Qed.

Lemma nodes_loop_spec columns room l n m : n ≤ MAX_NODES →
  (∀ r, room = S r → ∀ e n m, generated_node columns r e n = Ok m ↔
     in_grammar columns e ∧ (height e ≤ r)%nat ∧ m = n + nodes e ∧ m ≤ MAX_NODES) →
  nodes_loop columns room l n = Ok m ↔
  Forall (in_grammar columns) l ∧ Forall (λ c, (S (height c) ≤ room)%nat) l ∧ m = n + sum_list (map nodes l) ∧ m ≤ MAX_NODES.
Proof.
  intros Hn IH. induction l as [|c l IHl] in n, Hn |- *; cbn [nodes_loop map sum_list foldr].
  { rewrite Z.add_0_r. split; [intros [= <-]; auto|]. by intros (_ & _ & -> & _). }
  rewrite !Forall_cons. destruct room as [|r]; [split; [done|]; intros (_ & [? _] & _); lia|].
  assert (Hc := IH r eq_refl c n). destruct (generated_node columns r c n) as [n'|] eqn:E.
  - destruct (proj1 (Hc n') eq_refl) as (Hg & Hh & -> & Hm). rewrite IHl by lia. unfold sum_list. split.
    + intros (? & ? & -> & ?). split_and!; auto; lia.
    + intros ([_ ?] & [_ ?] & -> & ?). split_and!; auto; lia.
  - split; [done|]. intros ([Hg Hl] & [Hh _] & -> & Hm). exfalso.
    assert (Hpos : 0 ≤ sum_list (map nodes l)).
    { clear. induction l as [|c l IH]; cbn; [lia|]. pose proof (nodes_pos c). unfold sum_list in *. lia. }
    unfold sum_list in *. pose proof (proj2 (Hc (n + nodes c))) as Hk. discriminate Hk. split_and!; auto; lia.
Qed.

Lemma generated_node_spec columns room e n m : generated_node columns room e n = Ok m ↔
  in_grammar columns e ∧ (height e ≤ room)%nat ∧ m = n + nodes e ∧ m ≤ MAX_NODES.
Proof.
  induction room as [|room IH] in e, n, m |- *; rewrite generated_node_unfold, nodes_children, height_children, max_list_le, Forall_map, in_grammar_node.
  all: assert (0 ≤ sum_list (map nodes (children e))) as Hpos.
  all: try (clear; induction (children e) as [|c l IHl]; cbn; [lia|]; pose proof (nodes_pos c); unfold sum_list in *; lia).
  all: destruct (Z.ltb_spec MAX_NODES (n + 1)); [split; [done|]; intros (_ & _ & -> & ?); lia|].
  all: destruct (node_children columns e) as [cs|] eqn:E; [|split; [done|]; by intros ((? & _) & _)].
  all: assert (cs = children e) as -> by (by eapply node_children_Ok); rewrite nodes_loop_spec by (lia || (intros r [= <-]; exact IH) || done).
  all: unfold compose; split; [intros (? & ? & -> & ?)|intros ((_ & ?) & ? & -> & ?)]; split_and!; auto; lia.
Qed.

Section exact.
Context `{CharClasses}.

(** The check of a generated column's SQL accepts exactly the texts that read as an
    expression of the documented grammar over the table's columns, at most 64 levels
    deep and with at most 4096 nodes. *)
Theorem generated_check_exact sql columns : check_generated sql columns = Ok () ↔
  ∃ e, parse sql = Ok e ∧ in_grammar columns e ∧ (height e ≤ MAX_DEPTH)%nat ∧ nodes e ≤ MAX_NODES.
Proof.
  unfold check_generated. destruct (parse sql) as [e|]; [|split; [done|]; by intros (? & ? & _)].
  destruct (generated_node columns MAX_DEPTH e 0) as [m|] eqn:E.
  - apply generated_node_spec in E as (? & ? & -> & ?). split; [|done]. intros _. exists e. auto.
  - split; [done|]. intros (e' & [= <-] & Hg & Hh & Hn).
    rewrite (proj2 (generated_node_spec columns MAX_DEPTH e 0 (0 + nodes e)) (conj Hg (conj Hh (conj eq_refl Hn)))) in E. done.
Qed.

(** What a CHECK may compare. *)
Inductive check_term (columns : Schema) : Expr → Prop :=
| T_integer : check_term columns (ELiteral LInteger)
| T_other : check_term columns (ELiteral LOtherNumeric)
| T_column n f : column columns n = Ok f → is_row_id f = false → has_metadata f "ARROW:extension:name" = false →
    signed_numeric (data_type f) = true → check_term columns (EColumn [n]).

Lemma check_operand_spec columns e : check_operand columns e = Ok () ↔ check_term columns e.
Proof.
  split.
  - destruct e as [l|parts| | | | | | | |]; cbn; try done.
    + destruct l; try done; intros _; constructor.
    + destruct parts as [|n [|]]; try done. destruct (column columns n) as [f|] eqn:Hc; [|done].
      destruct (is_row_id f) eqn:Hr; [done|]. destruct (has_metadata f _) eqn:Hm; [done|].
      destruct (signed_numeric _) eqn:Hs; [|done]. intros _. by econstructor.
  - intros [| |n f Hc Hr Hm Hs]; cbn; [done..|]. by rewrite Hc, Hr, Hm, Hs.
Qed.

(** The check of a CHECK constraint accepts exactly one comparison of numeric
    literals and unambiguous, signed numeric, non-extension columns other than the
    row id. *)
Theorem check_exact sql columns : check_numeric_comparison sql columns = Ok () ↔
  ∃ l r, parse sql = Ok (ECompare l r) ∧ check_term columns l ∧ check_term columns r.
Proof.
  unfold check_numeric_comparison. destruct (parse sql) as [e|]; [|split; [done|]; by intros (? & ? & ? & _)].
  destruct e; try (split; [done|]; by intros (? & ? & ? & _)).
  setoid_rewrite <- check_operand_spec.
  destruct (check_operand columns e1) as [[]|] eqn:E1.
  - split; [intros; exists e1, e2; auto|]. intros (l & r & [= <- <-] & _ & ?). done.
  - split; [done|]. intros (l & r & [= <- <-] & ? & _). congruence.
Qed.
End exact.
