(* ===== verification/SqlPrint.v ===== *)
(** The grammar the SQL reader accepts, with the usual precedences, and the proof that
    the tokenizer and the parser read every sentence of it as the expression it means:
    the text has a parenthesis only where the precedences need one. *)
From S2P Require Import Prelude Float64 Arrow SqlCompare SqlExpression SqlExpressionFacts.

Open Scope Z_scope.

(** * Sentences *)

(** [x IS NULL], [x IS NOT NULL], [x ISNULL], [x NOTNULL]. *)
Inductive NullTest := Is_null | Is_not_null | Isnull | Notnull.

Inductive Sentence :=
| SLiteral (l : Literal)
| SColumn (parts : list string)
| SCast (try_cast qualified : bool) (t : string) (s : Sentence)
| SCall (n : string) (qualified : bool) (args : list Sentence) (distinct : bool)
| SColons (s : Sentence) (qualified : bool) (t : string)
| SSign (negative : bool) (s : Sentence)
| SBinary (o : string) (a b : Sentence)
| SCompare (o : string) (a b : Sentence)
| SNull (t : NullTest) (s : Sentence)
| SNot (s : Sentence)
| SAnd (l : list Sentence)
| SOr (l : list Sentence).

Definition subs (s : Sentence) : list Sentence :=
  match s with
  | SLiteral _ | SColumn _ => []
  | SCast _ _ _ s | SColons s _ _ | SSign _ s | SNull _ s | SNot s => [s]
  | SBinary _ a b | SCompare _ a b => [a; b]
  | SCall _ _ l _ | SAnd l | SOr l => l
  end.

Lemma sentence_induction (Q : Sentence → Prop) : (∀ s, Forall Q (subs s) → Q s) → ∀ s, Q s.
Proof.
  intros Hq. fix IH 1. intros s. apply Hq. destruct s; cbn [subs].
  all: try (constructor; fail).
  all: try (induction args as [|c l Hl]; constructor; [apply IH|exact Hl]).
  all: try (induction l as [|c l Hl]; constructor; [apply IH|exact Hl]).
  all: repeat (constructor; [apply IH|]); constructor.
Qed.

(** The expression a sentence means. *)
Fixpoint meaning (s : Sentence) : Expr :=
  match s with
  | SLiteral l => ELiteral l
  | SColumn parts => EColumn parts
  | SCast tc q t s => ECast tc q t (meaning s)
  | SCall n q args d =>
      if eq_ignore_ascii_case n "coalesce" && negb q && negb d then ECoalesce (map meaning args)
      else EFunction n q (map meaning args) d
  | SColons s q t => ECast false q t (meaning s)
  | SSign neg s =>
      if numeric_literal (meaning s) then meaning s else function (if neg : bool then "-" else "+") [meaning s]
  | SBinary o a b => function (if String.eqb o "**" then "^" else o) [meaning a; meaning b]
  | SCompare _ a b => ECompare (meaning a) (meaning b)
  | SNull (Is_null | Isnull) s => EIsNull (meaning s)
  | SNull (Is_not_null | Notnull) s => ENot (EIsNull (meaning s))
  | SNot s => ENot (meaning s)
  | SAnd l | SOr l => EConjunction (map meaning l)
  end.

(** ** Precedences *)

Definition POWERS : list string := ["^"; "**"].
Definition FACTORS : list string := ["*"; "/"; "%"; "//"].
Definition SUMS : list string := ["+"; "-"].

(** From the loosest, [OR], to the tightest, [::] and the operands. *)
Definition op_level (o : string) : nat :=
  if existsb (String.eqb o) POWERS then 9 else if existsb (String.eqb o) FACTORS then 8
  else if existsb (String.eqb o) SUMS then 7 else 6.
Definition level (s : Sentence) : nat :=
  match s with
  | SOr _ => 1
  | SAnd _ => 2
  | SNot _ => 3
  | SNull _ _ => 4
  | SCompare _ _ _ => 5
  | SBinary o _ _ => op_level o
  | SSign _ _ => 10
  | SColons _ _ _ => 11
  | _ => 12
  end.

(** ** Tokens *)

Fixpoint sep_by (s : Token) (l : list (list Token)) : list Token :=
  match l with
  | [] => []
  | x :: l => match l with [] => x | _ => x ++ s :: sep_by s l end
  end.
Definition paren (l : list Token) : list Token := LParen :: l ++ [RParen].
Definition qualifier (q : bool) : list Token := if q then [Quoted "s"; Dot] else [].
Definition literal_token (l : Literal) : Token :=
  match l with
  | LNull => Ident "NULL" | LBoolean => Ident "TRUE" | LInteger => Number "1" | LOtherNumeric => Number "1.5" | LVarchar => Str
  end.
Definition null_test (t : NullTest) : list Token :=
  match t with
  | Is_null => [Ident "IS"; Ident "NULL"]
  | Is_not_null => [Ident "IS"; Ident "NOT"; Ident "NULL"]
  | Isnull => [Ident "ISNULL"]
  | Notnull => [Ident "NOTNULL"]
  end.
(** Parentheses around a part that binds looser than its place. *)
Definition wrap (k : nat) (c : Sentence) (l : list Token) : list Token := if (level c <? k)%nat then paren l else l.

Fixpoint print (s : Sentence) : list Token :=
  match s with
  | SLiteral l => [literal_token l]
  | SColumn parts => sep_by Dot (map (λ n, [Quoted n]) parts)
  | SCast tc q t s =>
      Ident (if tc then "TRY_CAST" else "CAST") :: LParen :: print s ++ Ident "AS" :: qualifier q ++ [Quoted t; RParen]
  | SCall n q l d =>
      qualifier q ++ Quoted n :: LParen :: (if d then [Ident "DISTINCT"] else []) ++ sep_by Comma (map print l) ++ [RParen]
  | SColons s q t => wrap 11 s (print s) ++ Op "::" :: qualifier q ++ [Quoted t]
  | SSign neg s => Op (if neg then "-" else "+") :: wrap 10 s (print s)
  | SBinary o a b => wrap (op_level o) a (print a) ++ Op o :: wrap (S (op_level o)) b (print b)
  | SCompare o a b => wrap 6 a (print a) ++ Op o :: wrap 6 b (print b)
  | SNull t s => wrap 4 s (print s) ++ null_test t
  | SNot s => Ident "NOT" :: wrap 3 s (print s)
  | SAnd l => sep_by (Ident "AND") (map (λ c, wrap 3 c (print c)) l)
  | SOr l => sep_by (Ident "OR") (map (λ c, wrap 2 c (print c)) l)
  end.

(** ** Well-formed sentences *)

Definition OPS : list string := "||" :: "::" :: POWERS ++ FACTORS ++ SUMS ++ COMPARISONS.
Definition node_ok (s : Sentence) : bool :=
  match s with
  | SColumn parts => negb (length parts =? 0)%nat
  | SCast _ _ t _ | SColons _ _ t => String.eqb (to_ascii_uppercase t) t
  | SBinary o _ _ => existsb (String.eqb o) ("||" :: POWERS ++ FACTORS ++ SUMS)
  | SCompare o _ _ => existsb (String.eqb o) COMPARISONS
  | SAnd l | SOr l => (1 <? length l)%nat
  | _ => true
  end.
(** The names in a node: any text without NUL. *)
Definition node_names (s : Sentence) : list string :=
  match s with SColumn parts => parts | SCast _ _ t _ | SColons _ _ t => [t] | SCall n _ _ _ => [n] | _ => [] end.
Definition scalar (c : char) : Prop := 0 < c < 0x110000.
Definition text (s : string) : Prop := Forall scalar (chars s) ∧ collect_string (chars s) = s.
Inductive well_formed : Sentence → Prop :=
| Well_formed s : node_ok s = true → Forall text (node_names s) → Forall well_formed (subs s) → well_formed s.

(** The nesting the parser enters: a parenthesis, the parts of a cast or a call, the
    operand of a sign or a [NOT]. *)
Definition wrap_depth (k : nat) (c : Sentence) (n : nat) : nat := if (level c <? k)%nat then S n else n.
Fixpoint depth (s : Sentence) : nat :=
  match s with
  | SLiteral _ | SColumn _ => 0
  | SCast _ _ _ s => S (depth s)
  | SCall _ _ l _ => max_list (map (λ c, S (depth c)) l)
  | SColons s _ _ => wrap_depth 11 s (depth s)
  | SSign _ s => S (wrap_depth 10 s (depth s))
  | SBinary o a b => Nat.max (wrap_depth (op_level o) a (depth a)) (wrap_depth (S (op_level o)) b (depth b))
  | SCompare _ a b => Nat.max (wrap_depth 6 a (depth a)) (wrap_depth 6 b (depth b))
  | SNull _ s => wrap_depth 4 s (depth s)
  | SNot s => S (wrap_depth 3 s (depth s))
  | SAnd l => max_list (map (λ c, wrap_depth 3 c (depth c)) l)
  | SOr l => max_list (map (λ c, wrap_depth 2 c (depth c)) l)
  end.

(** ** What is printed *)

Definition plain_word (w : string) : Prop :=
  w ∈ ["NULL"; "TRUE"; "CAST"; "TRY_CAST"; "NOT"; "AS"; "AND"; "OR"; "IS"; "ISNULL"; "NOTNULL"; "DISTINCT"].
Definition shown (t : Token) : Prop :=
  match t with
  | Ident w => plain_word w
  | Quoted w => text w
  | Number n => n ∈ ["1"; "1.5"]
  | Op o => o ∈ OPS
  | _ => True
  end.

Lemma sep_by_Forall (Q : Token → Prop) t ls : Q t → Forall (Forall Q) ls → Forall Q (sep_by t ls).
Proof.
  intros Ht Hf. induction Hf as [|l ls Hl Hf IH]; [constructor|]. cbn [sep_by]. destruct ls; [done|].
  apply Forall_app. split; [done|]. by constructor.
Qed.

Lemma text_s : text "s".
Proof. split; [|reflexivity]. by repeat constructor. Qed.

Lemma shown_word w : existsb (String.eqb w) ["NULL"; "TRUE"; "CAST"; "TRY_CAST"; "NOT"; "AS"; "AND"; "OR"; "IS"; "ISNULL"; "NOTNULL"; "DISTINCT"] = true →
  shown (Ident w).
Proof. intros Hw. apply existsb_exists in Hw as (k & Hk & ->%String.eqb_eq). by apply list_elem_of_In. Qed.
Lemma shown_op o l : existsb (String.eqb o) l = true → l ⊆ OPS → shown (Op o).
Proof. intros Hw Hl. apply existsb_exists in Hw as (k & Hk & ->%String.eqb_eq). by apply Hl, list_elem_of_In. Qed.
#[local] Hint Resolve shown_word : core.

Lemma paren_shown l : Forall shown l → Forall shown (paren l).
Proof. intros Hl. constructor; [done|]. apply Forall_app. by repeat constructor. Qed.
Lemma wrap_shown k c l : Forall shown l → Forall shown (wrap k c l).
Proof. intros Hl. unfold wrap. destruct (_ <? _)%nat; [by apply paren_shown|done]. Qed.
Lemma qualifier_shown q : Forall shown (qualifier q).
Proof. destruct q; repeat constructor; apply text_s. Qed.
#[local] Hint Resolve paren_shown wrap_shown qualifier_shown : core.

Lemma print_shown s : well_formed s → Forall shown (print s).
Proof.
  induction s as [s IH] using sentence_induction. intros Hp. destruct Hp as [s Hn Ht Hc].
  assert (Hall : Forall (λ c, Forall shown (print c)) (subs s)) by (rewrite Forall_forall in *; auto). clear IH Hc.
  assert (Hw : ∀ w k l, existsb (String.eqb w) ["AND"; "OR"] = true → Forall (λ c, Forall shown (print c)) l →
    Forall shown (sep_by (Ident w) (map (λ c, wrap k c (print c)) l))).
  { intros w k l Hw Hl. apply sep_by_Forall.
    - apply existsb_exists in Hw as (w' & Hin & ->%String.eqb_eq). by destruct Hin as [<-|[<-|[]]]; apply shown_word.
    - apply Forall_map. eapply Forall_impl; [exact Hl|]. auto. }
  destruct s as [l|ps|tc q t c|n q l d|c q t|neg c|o a b|o a b|t c|c|l|l]; cbn [print subs node_names node_ok] in *;
    repeat match goal with H : Forall _ (_ :: _) |- _ => apply Forall_cons in H as [? H] end;
    try (by apply Hw).
  - apply Forall_singleton. destruct l; first [by apply shown_word|cbn; by repeat constructor|exact I].
  - apply sep_by_Forall; [exact I|]. apply Forall_map. eapply Forall_impl; [exact Ht|]. intros n Hn'. by apply Forall_singleton.
  - constructor; [destruct tc; by apply shown_word|]. constructor; [exact I|].
    apply Forall_app. split; [done|]. constructor; [by apply shown_word|]. apply Forall_app. split; [auto|]. constructor; [done|by repeat constructor].
  - apply Forall_app. split; [auto|]. constructor; [done|]. constructor; [exact I|].
    apply Forall_app. split; [destruct d; [apply Forall_singleton; by apply shown_word|constructor]|].
    apply Forall_app. split; [apply sep_by_Forall; [exact I|by apply Forall_map]|by repeat constructor].
  - apply Forall_app. split; [auto|]. constructor; [by apply (shown_op "::" OPS)|]. apply Forall_app. split; [auto|by apply Forall_singleton].
  - constructor; [destruct neg; by apply (shown_op _ OPS)|auto].
  - apply Forall_app. split; [auto|]. constructor; [|auto]. eapply shown_op; [exact Hn|]. by apply (bool_decide_unpack _).
  - apply Forall_app. split; [auto|]. constructor; [|auto]. eapply shown_op; [exact Hn|]. by apply (bool_decide_unpack _).
  - apply Forall_app. split; [auto|]. destruct t; repeat (constructor; [by apply shown_word|]); constructor.
  - constructor; [by apply shown_word|auto].
Qed.

(** * Reading *)

Section reading.
Context (tokens : list Token).

(** The parser [f] reads [l] as [e] wherever a token of [stops] follows. *)
Definition reads {A} (f : nat → P (A * nat)) (l : list Token) (e : A) (stops : list (option Token)) : Prop :=
  ∀ pos post, drop pos tokens = l ++ post → head post ∈ stops → f pos = Ok (e, (pos + length l)%nat).

Lemma peek_drop pos l : drop pos tokens = l → peek tokens pos = head l.
Proof. intros <-. unfold peek. rewrite head_lookup, lookup_drop. by rewrite Nat.add_0_r. Qed.
Lemma peek_at pos t l : drop pos tokens = t :: l → peek tokens pos = Some t.
Proof. by intros ->%peek_drop. Qed.
Lemma drop_next pos t l : drop pos tokens = t :: l → drop (S pos) tokens = l.
Proof. intros E. rewrite <- Nat.add_1_r, <- drop_drop, E. done. Qed.
Lemma drop_after pos l post : drop pos tokens = l ++ post → drop (pos + length l) tokens = post.
Proof. intros E. by rewrite <- drop_drop, E, drop_app_length. Qed.
Lemma length_after pos l post : drop pos tokens = l ++ post → (length l ≤ length tokens)%nat.
Proof. intros E. apply (f_equal length) in E. rewrite length_drop, length_app in E. lia. Qed.

(** What may follow a phrase of each level: the operators of the looser levels, and the
    ends of an expression. *)
Definition ENDS : list (option Token) := [None; Some RParen; Some Comma; Some (Ident "AS")].
Definition ops (l : list string) : list (option Token) := map (λ o, Some (Op o)) l.
Definition words (l : list string) : list (option Token) := map (λ w, Some (Ident w)) l.
Definition next (k : nat) : list (option Token) :=
  match k with
  | 1 => words ["OR"]
  | 2 => words ["AND"]
  | 4 => words ["IS"; "ISNULL"; "NOTNULL"]
  | 5 => ops COMPARISONS
  | 6 => ops ["||"]
  | 7 => ops SUMS
  | 8 => ops FACTORS
  | 9 => ops POWERS
  | 11 => ops ["::"]
  | _ => []
  end%nat.
Fixpoint stops (k : nat) : list (option Token) := match k with O => ENDS | S k => next k ++ stops k end.

(** A property of every stop, by computation. *)
Lemma stops_all (Q : option Token → bool) k t : forallb Q (stops k) = true → t ∈ stops k → Q t = true.
Proof. rewrite forallb_forall. intros Hf Ht. by apply Hf, list_elem_of_In. Qed.
Lemma stops_none (Q : option Token → bool) k t : forallb (λ t, negb (Q t)) (stops k) = true → t ∈ stops k → Q t = false.
Proof. intros Hf Ht. apply negb_true_iff. by apply (stops_all (λ t, negb (Q t)) k). Qed.
Lemma stops_S k : stops k ⊆ stops (S k).
Proof. intros t Ht. cbn [stops]. apply elem_of_app. by right. Qed.
Lemma stops_le j k : (j ≤ k)%nat → stops j ⊆ stops k.
Proof. induction 1 as [|k _ IH]; [done|]. etrans; [exact IH|apply stops_S]. Qed.
Lemma ends_stops k : ENDS ⊆ stops k.
Proof. apply (stops_le 0). lia. Qed.

Lemma loop_again {A} (step : A → nat → P (turn A)) n a pos a' pos' : step a pos = Ok (Again a' pos') →
  loop (S n) step a pos = loop n step a' pos'.
Proof. intros E. cbn [loop]. by rewrite E. Qed.
Lemma loop_done {A} (step : A → nat → P (turn A)) n a pos a' pos' : step a pos = Ok (Done a' pos') →
  loop (S n) step a pos = Ok (a', pos').
Proof. intros E. cbn [loop]. by rewrite E. Qed.

(** ** Left-associative levels *)

Section chains.
Context (operand : nat → P (Expr * nat)) (step : Expr → nat → P (turn Expr)).
Context (inner outer : list (option Token)).

(** After [l] the loop has [e] in hand, and goes on with whatever follows. *)
Definition chains (l : list Token) (e : Expr) : Prop :=
  ∀ pos post, drop pos tokens = l ++ post → head post ∈ inner →
    ∃ n a p, operand pos = Ok (a, p) ∧ (n ≤ length l)%nat ∧ ∀ m, loop (n + m) step a p = loop m step e (pos + length l)%nat.

Lemma chains_operand l e : reads operand l e inner → chains l e.
Proof. intros Hr pos post E Hp. exists 0%nat, e, (pos + length l)%nat. split; [by apply (Hr pos post)|]. split; [lia|done]. Qed.

Lemma chains_next l e l2 e2 : chains l e → l2 ≠ [] → head l2 ∈ inner →
  (∀ pos post, drop pos tokens = l2 ++ post → head post ∈ inner → step e pos = Ok (Again e2 (pos + length l2)%nat)) →
  chains (l ++ l2) e2.
Proof.
  intros Hc Hne Hh Hs pos post E Hp. rewrite <- app_assoc in E.
  destruct (Hc pos _ E) as (n & a & p & Ho & Hn & Hl); [by destruct l2|].
  exists (S n), a, p. split; [done|]. rewrite length_app. split; [destruct l2; [done|cbn; lia]|]. intros m.
  replace (S n + m)%nat with (n + S m)%nat by lia. rewrite Hl. erewrite loop_again by exact (Hs _ _ (drop_after _ _ _ E) Hp).
  f_equal. lia.
Qed.

Lemma chains_end l e : chains l e → outer ⊆ inner → (∀ pos, peek tokens pos ∈ outer → step e pos = Ok (Done e pos)) →
  reads (λ pos, let? (a, p) := operand pos in looping tokens step a p) l e outer.
Proof.
  intros Hc Hsub Hd pos post E Hp. destruct (Hc pos post E (Hsub _ Hp)) as (n & a & p & Ho & Hn & Hl). rewrite Ho. unfold looping.
  assert (Hlen := length_after _ _ _ E). replace (S (length tokens)) with (n + S (length tokens - n))%nat by lia.
  rewrite Hl. apply loop_done, Hd. by rewrite (peek_drop _ _ (drop_after _ _ _ E)).
Qed.
End chains.

(** ** Conjunctions *)

Lemma sep_by_cons s x ls : sep_by s (x :: ls) = x ++ (ls ≫= λ l, s :: l).
Proof.
  induction ls as [|y ls IH] in x |- *; [by rewrite app_nil_r|]. cbn [sep_by] in *. rewrite IH. done.
Qed.

Lemma length_bind_sep (s : Token) (ls : list (list Token)) : (length ls ≤ length (ls ≫= λ l, s :: l))%nat.
Proof. induction ls as [|l ls IH]; [done|]. rewrite bind_cons, length_app. cbn [length]. lia. Qed.

Section conjunctions.
Context (word : string) (operand : nat → P (Expr * nat)) (inner outer : list (option Token)).
Context (Hword : eq_ignore_ascii_case word word = true) (Hin : Some (Ident word) ∈ inner) (Hsub : outer ⊆ inner).
Context (Houter : ∀ t, t ∈ outer → keyword t word = false).

Lemma more_loop ls es : Forall2 (λ l e, reads operand l e inner) ls es →
  ∀ n acc pos post, drop pos tokens = (ls ≫= λ l, Ident word :: l) ++ post → head post ∈ outer → (length ls < n)%nat →
  loop n (more tokens word operand) acc pos = Ok (acc ++ es, (pos + length (ls ≫= λ l, Ident word :: l))%nat).
Proof.
  intros Hf. induction Hf as [|l e ls es He Hf IH]; intros n acc pos post E Hp Hn; (destruct n as [|n]; [cbn in Hn; lia|]).
  - rewrite app_nil_r, Nat.add_0_r. apply loop_done. unfold more. rewrite (peek_drop _ post E). by rewrite (Houter _ Hp).
  - rewrite bind_cons, <- app_assoc in E. cbn [app] in E. assert (Hd := drop_next _ _ _ E).
    assert (Hh : head ((ls ≫= λ l, Ident word :: l) ++ post) ∈ inner) by (destruct ls as [|l2 ls2]; [by apply Hsub|done]).
    erewrite loop_again.
    2: { unfold more. rewrite (peek_at _ _ _ E). cbn [keyword]. rewrite Hword, (He _ _ Hd Hh). reflexivity. }
    assert (Hd2 := drop_after _ _ _ Hd). rewrite (IH n _ _ post Hd2 Hp) by (cbn in Hn; lia).
    rewrite <- app_assoc. do 2 f_equal. rewrite bind_cons, length_app. cbn [length]. lia.
Qed.

Lemma conjunction_reads ls es : Forall2 (λ l e, reads operand l e inner) ls es → ls ≠ [] →
  reads (λ pos, let? (e, pos) := operand pos in
                let? (parts, pos) := looping tokens (more tokens word operand) [e] pos in
                Ok (conjunction parts, pos)) (sep_by (Ident word) ls) (conjunction es) outer.
Proof.
  intros Hf Hne pos post E Hp. destruct Hf as [|l e ls es He Hf]; [done|]. rewrite sep_by_cons in *.
  rewrite <- app_assoc in E.
  assert (Hh : head ((ls ≫= λ l, Ident word :: l) ++ post) ∈ inner) by (destruct ls; [by apply Hsub|done]).
  rewrite (He pos _ E Hh). assert (Hd := drop_after _ _ _ E). assert (Hl := length_after _ _ _ Hd). unfold looping.
  rewrite (more_loop ls es Hf _ _ _ post Hd Hp).
  2: { pose proof (length_bind_sep (Ident word) ls). lia. }
  cbn [app]. rewrite length_app. by rewrite Nat.add_assoc.
Qed.
End conjunctions.

(** ** Levels *)

Definition parser_at (k : nat) (below : option Below) : nat → P (Expr * nat) :=
  match k with
  | 1 => or_ tokens below
  | 2 => and_ tokens below
  | 3 => not_ tokens below
  | 4 => is_ tokens below
  | 5 => comparison tokens below
  | 6 => concat tokens below
  | 7 => additive tokens below
  | 8 => multiplicative tokens below
  | 9 => power tokens below
  | 10 => unary tokens below
  | 11 => postfix tokens below
  | _ => primary tokens (entering below b_or)
  end%nat.

(** The turn of the loop of a left-associative level. *)
Definition step_at (k : nat) (below : option Below) : Expr → nat → P (turn Expr) :=
  match k with
  | 4 => is_part tokens
  | 6 => binary tokens ("||" :: GENERIC) (additive tokens below)
           (λ o l r, if String.eqb o "||" then apply_op "||" l r else EUnsupported ("operator " +:+ o))
  | 7 => binary tokens SUMS (multiplicative tokens below) apply_op
  | 8 => binary tokens FACTORS (power tokens below) apply_op
  | 9 => binary tokens POWERS (unary tokens below) (λ _, apply_op "^")
  | _ => cast_part tokens
  end%nat.
Definition left_level (k : nat) : bool := existsb (Nat.eqb k) [4; 6; 7; 8; 9; 11]%nat.
Definition chain_at (k : nat) (below : option Below) : list Token → Expr → Prop :=
  chains (parser_at (S k) below) (step_at k below) (stops (S k)).

(** The first tokens of a phrase of a level. *)
Definition sign (t : option Token) : bool := match t with Some (Op o) => String.eqb o "-" || String.eqb o "+" | _ => false end.
Definition FIRST : list string := ["NULL"; "TRUE"; "CAST"; "TRY_CAST"; "NOT"].
Definition starts (l : list Token) : bool :=
  match head l with
  | Some (LParen | Str | Number _ | Quoted _) => true
  | Some (Ident w) => existsb (String.eqb w) FIRST
  | t => sign t
  end.
Definition opens (k : nat) (l : list Token) : bool :=
  starts l && ((k <=? 3)%nat || negb (keyword (head l) "NOT")) && ((k <=? 10)%nat || negb (sign (head l))).

Lemma opens_le j k l : (j ≤ k)%nat → opens k l = true → opens j l = true.
Proof.
  unfold opens. intros Hj [[-> H3]%andb_true_iff H10]%andb_true_iff. cbn [andb].
  destruct (Nat.leb_spec j 3), (Nat.leb_spec k 3), (Nat.leb_spec j 10), (Nat.leb_spec k 10); cbn [orb] in *; try lia; rewrite ?H3, ?H10; done.
Qed.
Lemma opens_starts k l : opens k l = true → starts l = true.
Proof. unfold opens. by intros [[-> _]%andb_true_iff _]%andb_true_iff. Qed.
Lemma starts_nil l : starts l = true → l ≠ [].
Proof. by intros Hs ->. Qed.
Lemma starts_app l l2 : starts l = true → head (l ++ l2) = head l.
Proof. by destruct l. Qed.
Lemma opens_app k l l2 : opens k l = true → opens k (l ++ l2) = true.
Proof. intros Ho. assert (Hs := opens_starts _ _ Ho). unfold opens, starts in *. by rewrite (starts_app l l2 Hs). Qed.

Lemma starts_keyword l w : starts l = true → existsb (λ k, eq_ignore_ascii_case k w) FIRST = false → keyword (head l) w = false.
Proof.
  unfold starts, keyword. destruct (head l) as [[w'| | | | | | | |]|]; try done. intros Hs Hk.
  apply existsb_exists in Hs as (k & Hin & E%String.eqb_eq). subst k. destruct (eq_ignore_ascii_case w' w) eqn:Ew; [|done].
  rewrite <- Hk. symmetry. apply existsb_exists. by exists w'.
Qed.

Section below.
Context (below : option Below).

Definition op_of (t : option Token) (l : list string) : option string :=
  match t with Some (Op o) => if existsb (String.eqb o) l then Some o else None | _ => None end.
Lemma op_in_stops pos l k : forallb (λ t, match op_of t l with Some _ => false | None => true end) (stops k) = true →
  peek tokens pos ∈ stops k → op_in tokens pos l = None.
Proof.
  intros Hf Hp. assert (H := stops_all _ k _ Hf Hp). cbn beta in H. change (op_in tokens pos l) with (op_of (peek tokens pos) l).
  by destruct (op_of _ _).
Qed.
Lemma is_op_stops pos o k : forallb (λ t, match op_of t [o] with Some _ => false | None => true end) (stops k) = true →
  peek tokens pos ∈ stops k → is_op tokens pos o = false.
Proof.
  intros Hf Hp. assert (H := op_in_stops _ _ _ Hf Hp). unfold op_in, is_op in *. destruct (peek tokens pos) as [[]|]; try done.
  cbn in H. by destruct (String.eqb _ _).
Qed.
Lemma keyword_stops pos w k : forallb (λ t, negb (keyword t w)) (stops k) = true → peek tokens pos ∈ stops k → keyword (peek tokens pos) w = false.
Proof. intros Hf Hp. by apply (stops_none (λ t, keyword t w) k). Qed.

(** A loop ends at a looser operator. *)
Lemma step_done k e pos : left_level k = true → peek tokens pos ∈ stops k → step_at k below e pos = Ok (Done e pos).
Proof.
  intros Hk Hp. apply existsb_exists in Hk as (k' & Hin & ->%Nat.eqb_eq).
  destruct Hin as [<-|[<-|[<-|[<-|[<-|[<-|[]]]]]]]; cbn [step_at].
  - unfold is_part. by rewrite !(keyword_stops _ _ 4) by (done || reflexivity).
  - unfold binary. by rewrite (op_in_stops _ _ 6) by (done || reflexivity).
  - unfold binary. by rewrite (op_in_stops _ _ 7) by (done || reflexivity).
  - unfold binary. by rewrite (op_in_stops _ _ 8) by (done || reflexivity).
  - unfold binary. by rewrite (op_in_stops _ _ 9) by (done || reflexivity).
  - unfold cast_part. by rewrite (is_op_stops _ _ 11) by (done || reflexivity).
Qed.

Lemma chain_reads k l e : left_level k = true → chain_at k below l e → reads (parser_at k below) l e (stops k).
Proof.
  intros Hk Hc. assert (Hr := chains_end _ _ _ (stops k) l e Hc (stops_S k) (λ pos, step_done k e pos Hk)).
  apply existsb_exists in Hk as (k' & Hin & ->%Nat.eqb_eq). destruct Hin as [<-|[<-|[<-|[<-|[<-|[<-|[]]]]]]]; try exact Hr.
  intros pos post E Hp. cbn [parser_at]. unfold postfix. specialize (Hr pos post E Hp). cbn [parser_at step_at] in Hr.
  destruct (primary tokens (entering below b_or) pos) as [[a p]|]; [|done]. rewrite Hr.
  rewrite (is_op_stops _ _ 11); [done|reflexivity|]. by rewrite (peek_drop _ _ (drop_after _ _ _ E)).
Qed.

(** A phrase of a level is one of every looser level. *)
Lemma lower k l e : (1 ≤ k ≤ 11)%nat → opens (S k) l = true → reads (parser_at (S k) below) l e (stops (S k)) → reads (parser_at k below) l e (stops k).
Proof.
  intros Hk Ho Hr. destruct (left_level k) eqn:Hl; [by apply chain_reads, chains_operand|].
  assert (Hne := starts_nil _ (opens_starts _ _ Ho)).
  assert (k = 1 ∨ k = 2 ∨ k = 3 ∨ k = 5 ∨ k = 10)%nat as [->|[->|[->|[->| ->]]]].
  { destruct k as [|[|[|[|[|[|[|[|[|[|[|[|k]]]]]]]]]]]]; cbn in Hl; try done; lia. }
  - apply (conjunction_reads "OR" _ (stops 2) (stops 1) eq_refl ltac:(left) (stops_S 1) (λ t, stops_none (λ t, keyword t "OR") 1 t eq_refl) [l] [e]);
      [by constructor|done].
  - apply (conjunction_reads "AND" _ (stops 3) (stops 2) eq_refl ltac:(left) (stops_S 2) (λ t, stops_none (λ t, keyword t "AND") 2 t eq_refl) [l] [e]);
      [by constructor|done].
  - intros pos post E Hp. cbn [parser_at]. unfold not_. rewrite (peek_drop _ _ E), (starts_app l post (opens_starts _ _ Ho)).
    unfold opens in Ho. cbn [Nat.leb orb] in Ho. apply andb_true_iff in Ho as [[_ Hn%negb_true_iff]%andb_true_iff _]. rewrite Hn.
    by apply (Hr pos post).
  - intros pos post E Hp. cbn [parser_at] in *. unfold comparison. assert (Hp6 := stops_S 5 _ Hp). rewrite (Hr pos post E Hp6).
    assert (Hpk : peek tokens (pos + length l) ∈ stops 5) by (by rewrite (peek_drop _ _ (drop_after _ _ _ E))).
    unfold predicate. rewrite (stops_none (λ t, existsb (keyword t) PREDICATES) 5 _ eq_refl Hpk).
    rewrite (keyword_stops _ "NOT" 5 eq_refl Hpk). cbn [orb andb]. by rewrite (op_in_stops _ _ 5) by (done || reflexivity).
  - intros pos post E Hp. cbn [parser_at]. unfold unary.
    assert (is_op tokens pos "-" || is_op tokens pos "+" = sign (head l)) as ->.
    { unfold is_op. rewrite (peek_drop _ _ E), (starts_app l post (opens_starts _ _ Ho)). unfold sign. by destruct (head l) as [[]|]. }
    unfold opens in Ho. cbn [Nat.leb orb] in Ho. apply andb_true_iff in Ho as [_ Hn%negb_true_iff]. rewrite Hn. by apply (Hr pos post).
Qed.

(** A phrase: read at its level and at every looser one. *)
Definition phrase (k : nat) (l : list Token) (e : Expr) : Prop :=
  ∀ j, (1 ≤ j ≤ k)%nat → reads (parser_at j below) l e (stops j) ∧ (left_level j = true → chain_at j below l e).
Lemma phrase_le j k l e : (j ≤ k)%nat → phrase k l e → phrase j l e.
Proof. intros Hj Hp i Hi. apply Hp. lia. Qed.

Lemma phrase_top k l e : (k ≤ 12)%nat → opens k l = true → reads (parser_at k below) l e (stops k) → (left_level k = true → chain_at k below l e) →
  phrase k l e.
Proof.
  intros Hk Ho Hr Hc. enough (∀ d j, k = (j + d)%nat → (1 ≤ j)%nat → reads (parser_at j below) l e (stops j) ∧ (left_level j = true → chain_at j below l e)) as H.
  { intros j Hj. apply (H (k - j)%nat); lia. }
  induction d as [|d IH]; intros j Hd Hj; [replace j with k by lia; done|].
  destruct (IH (S j) ltac:(lia) ltac:(lia)) as [Hr' _]. split.
  - apply lower; [lia| |done]. apply (opens_le _ k); [lia|done].
  - intros _. by apply chains_operand.
Qed.
Lemma phrase_chain k l e : (k ≤ 12)%nat → opens k l = true → left_level k = true → chain_at k below l e → phrase k l e.
Proof. intros Hk Ho Hl Hc. apply phrase_top; auto. by apply chain_reads. Qed.
End below.

Lemma stops_not t k : forallb (λ t', negb (bool_decide (t' = t))) (stops k) = true → ∀ t', t' ∈ stops k → t' ≠ t.
Proof. intros Hf t' Ht. apply (stops_none (λ t', bool_decide (t' = t)) k t' Hf) in Ht. by apply bool_decide_eq_false in Ht. Qed.

(** ** Primaries *)

Section primaries.
Context (expr : nat → P (Expr * nat)).

Lemma paren_reads l e : reads expr l e (stops 1) → starts l = true → reads (primary tokens expr) (paren l) e (stops 12).
Proof.
  intros Hr Hs pos post E _. unfold paren in *. cbn [app] in E. rewrite <- app_assoc in E. cbn [app] in E.
  unfold primary. rewrite (peek_at _ _ _ E). assert (Hd := drop_next _ _ _ E). unfold paren_tail. rewrite (peek_drop _ _ Hd).
  assert (head (l ++ RParen :: post) = head l) as -> by (by destruct l). rewrite !starts_keyword by done. cbn [orb].
  rewrite (Hr _ _ Hd) by (right; left). assert (Hd2 := drop_after _ _ _ Hd). unfold expect, is_token. rewrite (peek_at _ _ _ Hd2).
  rewrite bool_decide_false by done. rewrite bool_decide_true by done. do 2 f_equal. cbn. rewrite length_app. cbn. lia.
Qed.

(** The parts of a dotted name. *)
Lemma name_loop ps : ∀ n acc pos post, drop pos tokens = (ps ≫= λ p, [Dot; Quoted p]) ++ post → head post ≠ Some Dot → (length ps < n)%nat →
  loop n (name_part tokens) (inl acc) pos = Ok (inl (acc ++ ps), (pos + length (ps ≫= λ p, [Dot; Quoted p]))%nat).
Proof.
  induction ps as [|p ps IH]; intros n acc pos post E Hp Hn; (destruct n as [|n]; [cbn in Hn; lia|]).
  - rewrite app_nil_r, Nat.add_0_r. apply loop_done. unfold name_part, is_token. rewrite (peek_drop _ post E).
    by rewrite bool_decide_false.
  - rewrite bind_cons, <- app_assoc in E. cbn [app] in E. assert (Hd := drop_next _ _ _ E). erewrite loop_again.
    2: { unfold name_part, is_token. rewrite (peek_at _ _ _ E), bool_decide_true by done. rewrite (peek_at _ _ _ Hd). reflexivity. }
    rewrite (IH n _ _ post (drop_next _ _ _ Hd) Hp) by (cbn in Hn; lia). rewrite <- app_assoc. do 2 f_equal.
    rewrite bind_cons, length_app. cbn [length]. lia.
Qed.

Lemma dotted_bind ps : sep_by Dot (map (λ n, [Quoted n]) ps) = match ps with [] => [] | p :: ps => Quoted p :: (ps ≫= λ p, [Dot; Quoted p]) end.
Proof.
  destruct ps as [|p ps]; [done|]. cbn [map]. rewrite sep_by_cons. cbn [app]. f_equal.
  induction ps as [|q ps IH]; [done|]. cbn [map]. by rewrite !bind_cons, IH.
Qed.

Lemma length_bind_dotted (ps : list string) : (length ps ≤ length (ps ≫= λ p, [Dot; Quoted p]))%nat.
Proof. induction ps as [|p ps IH]; [done|]. rewrite bind_cons, length_app. cbn [length]. lia. Qed.

Lemma sql_column_reads ps : ps ≠ [] → reads (primary tokens expr) (sep_by Dot (map (λ n, [Quoted n]) ps)) (EColumn ps) (stops 12).
Proof.
  intros Hne pos post E Hp. rewrite dotted_bind in *. destruct ps as [|p ps]; [done|]. cbn [app] in E.
  unfold primary. rewrite (peek_at _ _ _ E). assert (Hd := drop_next _ _ _ E). unfold name_tail, looping.
  assert (Hnd : head post ≠ Some Dot ∧ head post ≠ Some LParen) by (split; by apply (stops_not _ 12)).
  rewrite (name_loop ps _ [p] _ post Hd) by (apply Hnd || (pose proof (length_bind_dotted ps); apply length_after in Hd; lia)).
  unfold is_token. rewrite (peek_drop _ _ (drop_after _ _ _ Hd)). rewrite bool_decide_false by apply Hnd. cbn. do 2 f_equal. lia.
Qed.

(** An argument is not read as a named one. *)
Lemma unnamed l t1 t2 r post : Forall shown l → head post ∈ stops 1 → l ++ post = t1 :: t2 :: r → l ≠ [] →
  match t2 with Op o => String.eqb o ":=" || String.eqb o "=>" = false | _ => True end.
Proof.
  intros Hl Hp E Hne. destruct l as [|x [|y l]]; [done|..]; cbn [app] in E.
  - injection E as -> E. rewrite E in Hp. cbn [head] in Hp. destruct t2 as [| | | |o| | | |]; try done.
    assert (H := stops_none (λ t, match t with Some (Op o) => true | _ => false end) 1 _ eq_refl Hp). done.
  - injection E as -> -> _. apply Forall_cons in Hl as [_ [Hy _]%Forall_cons]. destruct t2 as [| | | |o| | | |]; try done. cbn [shown] in Hy.
    assert (Forall (λ o, String.eqb o ":=" || String.eqb o "=>" = false) OPS) as Hf by (repeat constructor).
    rewrite Forall_forall in Hf. by apply Hf.
Qed.

Lemma argument_reads l e acc (d : bool) pos post : reads expr l e (stops 1) → Forall shown l → l ≠ [] → drop pos tokens = l ++ post →
  match head post with
  | Some Comma => argument tokens expr (acc, d) pos = Ok (Again (acc ++ [e], d) (S (pos + length l)))
  | Some RParen => argument tokens expr (acc, d) pos = Ok (Done (acc ++ [e], d) (S (pos + length l)))
  | _ => True
  end.
Proof.
  intros Hr Hn Hne E. assert (Hargs : head post = Some Comma ∨ head post = Some RParen → argument tokens expr (acc, d) pos =
    match peek tokens (pos + length l) with
    | Some Comma => Ok (Again (acc ++ [e], d) (S (pos + length l)))
    | Some RParen => Ok (Done (acc ++ [e], d) (S (pos + length l)))
    | _ => Err (Msg "expected ',' or ')' in argument list")
    end).
  { intros Hh. assert (He : head post ∈ (stops 1)) by (destruct Hh as [-> | ->]; [do 2 right; left|right; left]).
    unfold argument. assert (match peek tokens pos, peek tokens (S pos) with
      | Some (Ident _ | Quoted _), Some (Op o) => String.eqb o ":=" || String.eqb o "=>" | _, _ => false end = false) as ->.
    { unfold peek. rewrite <- (Nat.add_0_r pos), <- Nat.add_succ_r, <- !lookup_drop. rewrite E.
      destruct (l ++ post) as [|t1 [|t2 rest]] eqn:El; [done|by destruct t1|]. assert (Hu := unnamed _ _ _ _ _ Hn He El Hne). cbn.
      destruct t1, t2; done. }
    rewrite (Hr pos post E He). assert (keyword (peek tokens (pos + length l)) "ORDER" = false) as ->; [|done].
    rewrite (peek_drop _ _ (drop_after _ _ _ E)). by destruct Hh as [-> | ->]. }
  destruct (head post) as [[]|] eqn:Eh; try done; rewrite Hargs by auto; by rewrite (peek_drop _ _ (drop_after _ _ _ E)), Eh.
Qed.

Lemma arguments_loop ls es : Forall2 (λ l e, reads expr l e (stops 1) ∧ Forall shown l ∧ l ≠ []) ls es → ls ≠ [] →
  ∀ n acc d pos post, drop pos tokens = sep_by Comma ls ++ RParen :: post → (length ls ≤ n)%nat →
  loop n (argument tokens expr) (acc, d) pos = Ok ((acc ++ es, d), (pos + S (length (sep_by Comma ls)))%nat).
Proof.
  intros Hf. induction Hf as [|l e ls es (Hr & Hu & Hne) Hf IH]; [done|]. intros _ n acc d pos post E Hn.
  destruct n as [|n]; [cbn in Hn; lia|]. destruct ls as [|l2 ls].
  - apply Forall2_nil_inv_l in Hf as ->. cbn [sep_by] in *. assert (Ha := argument_reads l e acc d pos _ Hr Hu Hne E). cbn [head] in Ha.
    erewrite loop_done by exact Ha. do 2 f_equal. lia.
  - cbn [sep_by] in E. rewrite <- app_assoc in E. cbn [app] in E. assert (Ha := argument_reads l e acc d pos _ Hr Hu Hne E). cbn [head] in Ha.
    erewrite loop_again by exact Ha. assert (Hd := drop_next _ _ _ (drop_after _ _ _ E)).
    rewrite (IH ltac:(done) n _ _ _ post Hd) by (cbn in *; lia). rewrite <- app_assoc. do 2 f_equal.
    change (sep_by Comma (l :: l2 :: ls)) with (l ++ Comma :: sep_by Comma (l2 :: ls)). rewrite length_app. cbn [length]. lia.
Qed.

Lemma length_sep_by s (ls : list (list Token)) : Forall (λ l, l ≠ []) ls → (length ls ≤ length (sep_by s ls))%nat.
Proof.
  intros Hf. induction Hf as [|l ls Hl Hf IH]; [done|]. cbn [sep_by]. destruct ls as [|l2 ls]; [destruct l; cbn; [done|lia]|].
  rewrite length_app. cbn [length] in *. lia.
Qed.

(** The parenthesised arguments of a call. *)
Lemma arguments_read ls es (d : bool) pos post : Forall2 (λ l e, reads expr l e (stops 1) ∧ Forall shown l ∧ l ≠ []) ls es → Forall (λ l, starts l = true) ls →
  drop pos tokens = (if d then [Ident "DISTINCT"] else []) ++ sep_by Comma ls ++ RParen :: post →
  arguments tokens expr pos = Ok ((es, d), (pos + length ((if d then [Ident "DISTINCT"] else []) ++ sep_by Comma ls ++ [RParen]))%nat).
Proof.
  intros Hf Hs E. unfold arguments.
  assert (Hk : ∀ pos, drop pos tokens = sep_by Comma ls ++ RParen :: post →
    keyword (peek tokens pos) "DISTINCT" || keyword (peek tokens pos) "ALL" = false ∧
    (if is_token tokens pos RParen then Ok (([], d), S pos)
     else if is_op tokens pos "*" then let? pos := expect tokens RParen (S pos) in Ok (([], true), pos)
     else looping tokens (argument tokens expr) ([], d) pos) = Ok ((es, d), (pos + S (length (sep_by Comma ls)))%nat)).
  { intros p Ep. unfold is_token, is_op. destruct ls as [|l ls].
    { apply Forall2_nil_inv_l in Hf as ->. cbn in Ep. rewrite (peek_at _ _ _ Ep). split; [done|]. rewrite bool_decide_true by done.
      cbn. do 2 f_equal. lia. }
    assert (Hh : head (sep_by Comma (l :: ls) ++ RParen :: post) = head l ∧ starts l = true).
    { apply Forall_cons in Hs as [Hs _]. split; [|done]. rewrite sep_by_cons. by destruct l. }
    destruct Hh as [Hh Hl]. rewrite (peek_drop _ _ Ep), Hh. rewrite !starts_keyword by done. split; [done|].
    assert (bool_decide (head l = Some RParen) = false) as -> by (apply bool_decide_eq_false; unfold starts in Hl; by destruct (head l) as [[]|]).
    assert (match head l with Some (Op o) => (o =? "*")%string | _ => false end = false) as ->.
    { unfold starts, sign in Hl. destruct (head l) as [[| | | |o| | | |]|]; try done.
      apply orb_true_iff in Hl as [Hl|Hl]; apply String.eqb_eq in Hl as ->; done. }
    unfold looping. apply (arguments_loop _ _ Hf ltac:(done) _ [] d p post Ep).
    apply length_after in Ep. pose proof (length_sep_by Comma (l :: ls)) as Hsep.
    enough (length (l :: ls) ≤ length (sep_by Comma (l :: ls)))%nat by lia. apply Hsep.
    eapply Forall_impl; [exact Hs|]. by intros [|? ?]. }
  destruct d.
  - cbn [app] in E. rewrite (peek_at _ _ _ E). change (keyword (Some (Ident "DISTINCT")) "DISTINCT") with true. cbn [orb]. cbv iota beta zeta.
    destruct (Hk (S pos) (drop_next _ _ _ E)) as [_ ->]. do 2 f_equal. rewrite !length_app. cbn. lia.
  - cbn [app] in E. destruct (Hk pos E) as [-> Hk2]. cbv iota beta zeta. rewrite Hk2. do 2 f_equal. rewrite !length_app. cbn. lia.
Qed.
Lemma call_reads ls es n q (d : bool) : Forall2 (λ l e, reads expr l e (stops 1) ∧ Forall shown l ∧ l ≠ []) ls es → Forall (λ l, starts l = true) ls →
  reads (primary tokens expr)
    (qualifier q ++ Quoted n :: LParen :: (if d then [Ident "DISTINCT"] else []) ++ sep_by Comma ls ++ [RParen])
    (if eq_ignore_ascii_case n "coalesce" && negb q && negb d then ECoalesce es else EFunction n q es d) (stops 12).
Proof.
  intros Hf Hs pos post E Hp.
  assert (E' : drop pos tokens = Quoted (if q then "s" else n) ::
    ((if q then [n] else []) ≫= λ p, [Dot; Quoted p]) ++ LParen :: (if d then [Ident "DISTINCT"] else []) ++ sep_by Comma ls ++ RParen :: post).
  { rewrite E. destruct q; cbn [qualifier mbind list_bind app]; rewrite <- !app_assoc; done. }
  unfold primary. rewrite (peek_at _ _ _ E'). assert (Hd := drop_next _ _ _ E'). unfold name_tail, looping.
  rewrite (name_loop _ _ [if q then "s" else n] _ _ Hd).
  2: done.
  2: { destruct q; cbn; [|lia]. apply length_after in Hd. cbn in Hd. lia. }
  assert (Hd2 := drop_after _ _ _ Hd). unfold is_token. rewrite (peek_at _ _ _ Hd2), bool_decide_true by done. cbn [negb].
  assert (Hd3 := drop_next _ _ _ Hd2). rewrite (arguments_read ls es d _ post Hf Hs Hd3).
  assert (Hd4 : drop (S (S pos + length ((if q then [n] else []) ≫= λ p, [Dot; Quoted p])) +
      length ((if d then [Ident "DISTINCT"] else []) ++ sep_by Comma ls ++ [RParen])) tokens = post).
  { apply drop_after. rewrite Hd3. rewrite <- !app_assoc. done. }
  rewrite (peek_drop _ _ Hd4).
  assert (keyword (head post) "FILTER" || keyword (head post) "OVER" || keyword (head post) "WITHIN" = false) as ->
    by (exact (stops_none (λ t, keyword t "FILTER" || keyword t "OVER" || keyword t "WITHIN") 12 _ eq_refl Hp)).
  assert (default "" (last ([if q then "s" else n] ++ (if q then [n] else []))) = n ∧
    (1 <? length ([if q then "s" else n] ++ (if q then [n] else [])))%nat = q) as [-> ->] by (by destruct q).
  assert (Hlen : (S (S pos + length ((if q then [n] else []) ≫= λ p, [Dot; Quoted p])) +
      length ((if d then [Ident "DISTINCT"] else []) ++ sep_by Comma ls ++ [RParen]))%nat =
    (pos + length (qualifier q ++ Quoted n :: LParen :: (if d then [Ident "DISTINCT"] else []) ++ sep_by Comma ls ++ [RParen]))%nat)
    by (destruct q; cbn; lia).
  rewrite Hlen. by destruct (_ && _).
Qed.

Lemma type_reads q t pos post : to_ascii_uppercase t = t → drop pos tokens = qualifier q ++ Quoted t :: post → head post ∈ stops 12 →
  type_name_ tokens pos = Ok ((t, q), (pos + length (qualifier q ++ [Quoted t]))%nat).
Proof.
  intros Ht E Hp. assert (Hnd : head post ≠ Some Dot ∧ head post ≠ Some LParen) by (split; by apply (stops_not _ 12)). unfold type_name_.
  assert (Hloop : looping tokens (type_part tokens) [] pos = Ok ((if q then ["s"] else []) ++ [t], (pos + length (qualifier q ++ [Quoted t]))%nat)).
  { unfold looping. destruct q; cbn [qualifier app] in *.
    - assert (Hd := drop_next _ _ _ E). assert (Hd2 := drop_next _ _ _ Hd). assert (Hd3 := drop_next _ _ _ Hd2).
      assert (Hlen : (1 ≤ length tokens)%nat) by (apply (f_equal length) in E; rewrite length_drop in E; cbn in E; lia).
      destruct (length tokens) as [|k]; [lia|]. erewrite loop_again.
      2: { unfold type_part. rewrite (peek_at _ _ _ E). unfold is_token. rewrite (peek_at _ _ _ Hd), bool_decide_true by done. reflexivity. }
      erewrite loop_done.
      2: { unfold type_part. rewrite (peek_at _ _ _ Hd2). unfold is_token. rewrite (peek_drop _ _ Hd3), bool_decide_false by apply Hnd. reflexivity. }
      cbn. do 2 f_equal. lia.
    - assert (Hd := drop_next _ _ _ E). erewrite loop_done.
      2: { unfold type_part. rewrite (peek_at _ _ _ E). unfold is_token. rewrite (peek_drop _ _ Hd), bool_decide_false by apply Hnd. reflexivity. }
      cbn. do 2 f_equal. lia. }
  rewrite Hloop. assert (Hd : drop (pos + length (qualifier q ++ [Quoted t])) tokens = post) by (apply drop_after; rewrite E, <- app_assoc; done).
  assert (default "" (last ((if q then ["s"] else []) ++ [t])) = t ∧ (1 <? length ((if q then ["s"] else []) ++ [t]))%nat = q) as [-> ->] by (by destruct q).
  rewrite Ht. rewrite <- (peek_drop _ _ Hd) in Hp, Hnd. rewrite (keyword_stops _ "PRECISION" 12 eq_refl Hp), andb_false_r. cbv beta iota zeta.
  rewrite (keyword_stops _ "VARYING" 12 eq_refl Hp), andb_false_r. cbv beta iota zeta. unfold is_token.
  rewrite bool_decide_false by apply Hnd. cbv beta iota. by rewrite (is_op_stops _ "[" 12 eq_refl Hp).
Qed.

Lemma cast_reads l e (tc : bool) q t : reads expr l e (stops 1) → to_ascii_uppercase t = t →
  reads (primary tokens expr) (Ident (if tc then "TRY_CAST" else "CAST") :: LParen :: l ++ Ident "AS" :: qualifier q ++ [Quoted t; RParen])
    (ECast tc q t e) (stops 12).
Proof.
  intros Hr Ht pos post E _. cbn [app] in E. rewrite <- app_assoc in E. cbn [app] in E. rewrite <- app_assoc in E. cbn [app] in E.
  assert (Hd := drop_next _ _ _ E). assert (Hd2 := drop_next _ _ _ Hd).
  assert (Hc : primary tokens expr pos = cast_tail tokens expr tc (S (S pos))).
  { unfold primary. rewrite (peek_at _ _ _ E). unfold is_token. rewrite (peek_at _ _ _ Hd). by destruct tc. }
  rewrite Hc. unfold cast_tail. rewrite (Hr _ _ Hd2) by (do 3 right; left).
  assert (Hd3 := drop_after _ _ _ Hd2). rewrite (peek_at _ _ _ Hd3). change (keyword (Some (Ident "AS")) "AS") with true. cbn [negb].
  assert (Hd4 := drop_next _ _ _ Hd3). rewrite (type_reads q t _ (RParen :: post) Ht Hd4) by (apply ends_stops; right; left).
  assert (Hd5 : drop (S (S (S pos) + length l) + length (qualifier q ++ [Quoted t])) tokens = RParen :: post).
  { apply drop_after. rewrite Hd4, <- app_assoc. done. }
  unfold expect, is_token. rewrite (peek_at _ _ _ Hd5), bool_decide_true by done. cbn [fst snd]. do 2 f_equal.
  destruct q; cbn; rewrite !length_app; cbn; lia.
Qed.

Lemma literal_reads l : reads (primary tokens expr) [literal_token l] (ELiteral l) (stops 12).
Proof.
  intros pos post E _. unfold primary. destruct l; cbn [literal_token app] in E; rewrite (peek_at _ _ _ E); cbn [length]; rewrite Nat.add_1_r; done.
Qed.
End primaries.
(** ** Operators *)

Lemma binary_next names operand build inner la ea lb eb o :
  chains operand (binary tokens names operand build) inner la ea → Some (Op o) ∈ inner → existsb (String.eqb o) names = true →
  reads operand lb eb inner → chains operand (binary tokens names operand build) inner (la ++ Op o :: lb) (build o ea eb).
Proof.
  intros Hc Hi Ho Hr. apply (chains_next _ _ _ la ea); [done..|]. intros pos post E Hp. cbn [app] in E.
  unfold binary, op_in. rewrite (peek_at _ _ _ E), Ho, (Hr _ post (drop_next _ _ _ E) Hp). do 2 f_equal. cbn [length]. lia.
Qed.

Lemma binary_chain o below la ea lb eb : existsb (String.eqb o) ("||" :: POWERS ++ FACTORS ++ SUMS) = true →
  chain_at (op_level o) below la ea → reads (parser_at (S (op_level o)) below) lb eb (stops (S (op_level o))) →
  chain_at (op_level o) below (la ++ Op o :: lb) (function (if String.eqb o "**" then "^" else o) [ea; eb]).
Proof.
  intros Ho Hc Hr. apply existsb_exists in Ho as (o' & Hin & ->%String.eqb_eq). cbn [app In POWERS FACTORS SUMS] in Hin.
  repeat (destruct Hin as [<-|Hin]); [..|done];
    (refine (binary_next _ _ _ _ _ _ _ _ _ Hc _ _ Hr); [by apply (bool_decide_unpack _)|reflexivity]).
Qed.

(** Decides the keyword tests of concrete words. *)
Ltac keywords :=
  repeat match goal with
         | |- context [keyword (Some (Ident ?a)) ?b] =>
             let v := eval vm_compute in (keyword (Some (Ident a)) b) in change (keyword (Some (Ident a)) b) with v
         end; cbv iota zeta.

Lemma colons_chain below l e q t : to_ascii_uppercase t = t → chain_at 11 below l e →
  chain_at 11 below (l ++ Op "::" :: qualifier q ++ [Quoted t]) (ECast false q t e).
Proof.
  intros Ht Hc. apply (chains_next _ _ _ l e); [done|done|by left|]. intros pos post E Hp. cbn [app] in E. cbn [step_at].
  unfold cast_part, is_op. rewrite (peek_at _ _ _ E). change ("::" =? "::")%string with true. cbv iota.
  rewrite <- app_assoc in E. cbn [app] in E. rewrite (type_reads q t _ post Ht (drop_next _ _ _ E) Hp). do 2 f_equal. cbn [length]. lia.
Qed.

Lemma null_chain below l e t : chain_at 4 below l e →
  chain_at 4 below (l ++ null_test t) (match t with Is_null | Isnull => EIsNull e | Is_not_null | Notnull => ENot (EIsNull e) end).
Proof.
  intros Hc. apply (chains_next _ _ _ l e); [done|by destruct t|destruct t; by apply (bool_decide_unpack _)|].
  intros pos post E Hp. cbn [step_at]. unfold is_part.
  destruct t; cbn [null_test app] in E; rewrite (peek_at _ _ _ E); keywords; cbn [null_test length]; try (do 2 f_equal; lia);
    assert (Hd := drop_next _ _ _ E); rewrite (peek_at _ _ _ Hd); keywords; rewrite ?(peek_at _ _ _ Hd); keywords.
  - do 2 f_equal. lia.
  - rewrite (peek_at _ _ _ (drop_next _ _ _ Hd)). keywords. do 2 f_equal. lia.
Qed.

Lemma compare_reads below la ea lb eb o : existsb (String.eqb o) COMPARISONS = true →
  reads (concat tokens below) la ea (stops 6) → reads (concat tokens below) lb eb (stops 6) →
  reads (comparison tokens below) (la ++ Op o :: lb) (ECompare ea eb) (stops 5).
Proof.
  intros Ho Ha Hb pos post E Hp. unfold comparison. rewrite <- app_assoc in E. cbn [app] in E.
  assert (Hin : Some (Op o) ∈ stops 6).
  { apply existsb_exists in Ho as (o' & Hin & ->%String.eqb_eq). apply elem_of_app. left. unfold ops.
    apply list_elem_of_In. by apply (in_map (λ o, Some (Op o))). }
  rewrite (Ha pos _ E Hin). assert (Hd := drop_after _ _ _ E). unfold op_in. rewrite (peek_at _ _ _ Hd).
  change (predicate (Some (Op o)) || (keyword (Some (Op o)) "NOT" && predicate (peek tokens (S (pos + length la))))) with false.
  cbv iota. rewrite Ho. rewrite (Hb _ post (drop_next _ _ _ Hd) (stops_S 5 _ Hp)). do 2 f_equal. rewrite length_app. cbn. lia.
Qed.

(** ** Sentences *)

Definition below_of (room : nat) : option Below := match room with O => None | S r => Some (levels tokens r) end.
Lemma entering_or r : entering (below_of (S r)) b_or = parser_at 1 (below_of r).
Proof. by destruct r. Qed.
Lemma entering_not r : entering (below_of (S r)) b_not = parser_at 3 (below_of r).
Proof. by destruct r. Qed.
Lemma entering_unary r : entering (below_of (S r)) b_unary = parser_at 10 (below_of r).
Proof. by destruct r. Qed.

Definition understood (c : Sentence) : Prop :=
  Forall shown (print c) ∧ opens (level c) (print c) = true ∧
  ∀ room, (depth c ≤ room)%nat → phrase (below_of room) (level c) (print c) (meaning c).

Lemma level_range c : (1 ≤ level c ≤ 12)%nat.
Proof. destruct c; cbn [level]; try lia. unfold op_level. repeat destruct (existsb _ _); lia. Qed.

Lemma understood_reads c room : understood c → (depth c ≤ room)%nat → reads (parser_at 1 (below_of room)) (print c) (meaning c) (stops 1).
Proof. intros (_ & _ & Hp) Hd. apply (Hp room Hd). pose proof (level_range c). lia. Qed.

Lemma operand_phrase below l e : opens 12 l = true → reads (primary tokens (entering below b_or)) l e (stops 12) → phrase below 12 l e.
Proof. intros Ho Hr. by apply phrase_top. Qed.

Lemma wrap_opens k c : (k ≤ 12)%nat → opens (level c) (print c) = true → opens k (wrap k c (print c)) = true.
Proof.
  intros Hk Ho. unfold wrap. destruct (Nat.ltb_spec (level c) k); [|by apply (opens_le _ (level c))].
  apply (opens_le _ 12); [done|reflexivity].
Qed.

Lemma wrap_phrase k c room : (1 ≤ k ≤ 12)%nat → understood c → (wrap_depth k c (depth c) ≤ room)%nat →
  phrase (below_of room) k (wrap k c (print c)) (meaning c).
Proof.
  intros Hk Hc. pose proof (understood_reads c) as Hr. destruct (Hc) as (_ & Ho & Hp). unfold wrap, wrap_depth.
  destruct (Nat.ltb_spec (level c) k) as [|Hl]; intros Hd; [|apply (phrase_le _ _ (level c)); auto].
  destruct room as [|r]; [lia|]. apply (phrase_le _ _ 12); [lia|]. apply operand_phrase; [done|].
  apply paren_reads; [rewrite entering_or; apply Hr; [done|lia]|by apply (opens_starts (level c))].
Qed.

Lemma op_level_left o : left_level (op_level o) = true ∧ (6 ≤ op_level o ≤ 9)%nat.
Proof. unfold op_level. repeat destruct (existsb _ _); (split; [done|lia]). Qed.

Lemma sentence_binary o a b room : existsb (String.eqb o) ("||" :: POWERS ++ FACTORS ++ SUMS) = true → understood a → understood b →
  (depth (SBinary o a b) ≤ room)%nat → opens (op_level o) (print (SBinary o a b)) = true →
  phrase (below_of room) (op_level o) (print (SBinary o a b)) (meaning (SBinary o a b)).
Proof.
  intros Ho Ha Hb Hd Hop. destruct (op_level_left o) as [Hl Hr]. cbn [depth print meaning] in *. apply phrase_chain; [lia|done..|].
  apply binary_chain; [done|..].
  - apply (wrap_phrase (op_level o) a room); [lia|done|lia|lia|done].
  - apply (wrap_phrase (S (op_level o)) b room); [lia|done|lia|lia].
Qed.

Lemma sentence_sign neg c room : understood c → (depth (SSign neg c) ≤ room)%nat →
  phrase (below_of room) 10 (print (SSign neg c)) (meaning (SSign neg c)).
Proof.
  intros Hc Hd. cbn [depth] in Hd. destruct room as [|r]; [lia|]. apply phrase_top; [lia|by destruct neg| |done].
  intros pos post E Hp. cbn [parser_at print app meaning length] in *. unfold unary, is_op. rewrite (peek_at _ _ _ E), entering_unary.
  destruct (wrap_phrase 10 c r ltac:(lia) Hc ltac:(lia) 10%nat ltac:(lia)) as [Hr _].
  assert (He := Hr (S pos) post (drop_next _ _ _ E) Hp). destruct neg; cbn [String.eqb Ascii.eqb Bool.eqb orb]; cbv iota zeta; rewrite He;
    destruct (numeric_literal (meaning c)); do 2 f_equal; lia.
Qed.

Lemma sentence_not c room : understood c → (depth (SNot c) ≤ room)%nat → phrase (below_of room) 3 (print (SNot c)) (meaning (SNot c)).
Proof.
  intros Hc Hd. cbn [depth] in Hd. destruct room as [|r]; [lia|]. apply phrase_top; [lia|done| |done].
  intros pos post E Hp. cbn [parser_at print app meaning length] in *. unfold not_. rewrite (peek_at _ _ _ E), entering_not.
  destruct (wrap_phrase 3 c r ltac:(lia) Hc ltac:(lia) 3%nat ltac:(lia)) as [Hr _]. change (keyword (Some (Ident "NOT")) "NOT") with true. cbv iota.
  rewrite (Hr (S pos) post (drop_next _ _ _ E) Hp). do 2 f_equal. lia.
Qed.

Lemma max_list_in (l : list Sentence) (f : Sentence → nat) n : (max_list (map f l) ≤ n)%nat → Forall (λ c, (f c ≤ n)%nat) l.
Proof. rewrite max_list_le. by rewrite Forall_map. Qed.

(** The parts of a conjunction, at the level below it. *)
Lemma parts_read k l room : (1 ≤ k ≤ 12)%nat → Forall understood l → (max_list (map (λ c, wrap_depth k c (depth c)) l) ≤ room)%nat →
  Forall2 (λ ts e, reads (parser_at k (below_of room)) ts e (stops k)) (map (λ c, wrap k c (print c)) l) (map meaning l).
Proof.
  intros Hk Hl Hd%max_list_in. apply Forall2_fmap_2, Forall_Forall2_diag. rewrite Forall_forall in *. intros c Hc.
  apply (wrap_phrase k c room); auto. lia.
Qed.
Lemma conjunction_many es : (1 < length es)%nat → conjunction es = EConjunction es.
Proof. destruct es as [|x [|y es]]; cbn; (lia || done). Qed.

Lemma sentence_and l room : Forall understood l → (1 < length l)%nat → (depth (SAnd l) ≤ room)%nat → opens 2 (print (SAnd l)) = true →
  phrase (below_of room) 2 (print (SAnd l)) (meaning (SAnd l)).
Proof.
  intros Hl Hn Hd Ho. apply phrase_top; [lia|done| |done]. cbn [meaning print depth] in *. rewrite <- conjunction_many by (by rewrite length_map).
  apply (conjunction_reads "AND" _ (stops 3) (stops 2) eq_refl ltac:(left) (stops_S 2) (λ t, stops_none (λ t, keyword t "AND") 2 t eq_refl));
    [by apply (parts_read 3 l room); [lia|..]|by destruct l; [cbn in Hn; lia|]].
Qed.
Lemma sentence_or l room : Forall understood l → (1 < length l)%nat → (depth (SOr l) ≤ room)%nat → opens 1 (print (SOr l)) = true →
  phrase (below_of room) 1 (print (SOr l)) (meaning (SOr l)).
Proof.
  intros Hl Hn Hd Ho. apply phrase_top; [lia|done| |done]. cbn [meaning print depth] in *. rewrite <- conjunction_many by (by rewrite length_map).
  apply (conjunction_reads "OR" _ (stops 2) (stops 1) eq_refl ltac:(left) (stops_S 1) (λ t, stops_none (λ t, keyword t "OR") 1 t eq_refl));
    [by apply (parts_read 2 l room); [lia|..]|by destruct l; [cbn in Hn; lia|]].
Qed.

(** The arguments of a call. *)
Lemma arguments_understood l room : Forall understood l → (max_list (map (λ c, S (depth c)) l) ≤ room)%nat →
  Forall2 (λ ts e, reads (entering (below_of room) b_or) ts e (stops 1) ∧ Forall shown ts ∧ ts ≠ []) (map print l) (map meaning l) ∧
  Forall (λ ts, starts ts = true) (map print l).
Proof.
  intros Hl Hd%max_list_in. split.
  - apply Forall2_fmap_2, Forall_Forall2_diag. rewrite Forall_forall in *. intros c Hc. destruct (Hl c Hc) as (Hs & Ho & _).
    specialize (Hd c Hc). cbn in Hd. destruct room as [|r]; [lia|]. rewrite entering_or. split_and!; [|done|by apply starts_nil, (opens_starts (level c))].
    apply understood_reads; [auto|lia].
  - apply Forall_map. eapply Forall_impl; [exact Hl|]. intros c (_ & Ho & _). by apply (opens_starts (level c)).
Qed.

Lemma sentence_call n q l d room : Forall understood l → (depth (SCall n q l d) ≤ room)%nat →
  phrase (below_of room) 12 (print (SCall n q l d)) (meaning (SCall n q l d)).
Proof.
  intros Hl Hd. destruct (arguments_understood l room Hl Hd) as [Ha Hs]. apply operand_phrase; [by destruct q|]. by apply call_reads.
Qed.
Lemma sentence_cast tc q t c room : understood c → to_ascii_uppercase t = t → (depth (SCast tc q t c) ≤ room)%nat →
  phrase (below_of room) 12 (print (SCast tc q t c)) (meaning (SCast tc q t c)).
Proof.
  intros Hc Ht Hd. cbn [depth] in Hd. destruct room as [|r]; [lia|]. apply operand_phrase; [by destruct tc|].
  apply cast_reads; [|done]. rewrite entering_or. apply understood_reads; [done|lia].
Qed.

Lemma sep_opens k s l (f : Sentence → list Token) : l ≠ [] → Forall (λ c, opens k (f c) = true) l → opens k (sep_by s (map f l)) = true.
Proof. intros Hne Hf. destruct Hf as [|c l Hc Hf]; [done|]. cbn [map]. rewrite sep_by_cons. by apply opens_app. Qed.

Lemma print_opens s : node_ok s = true → Forall (λ c, opens (level c) (print c) = true) (subs s) → opens (level s) (print s) = true.
Proof.
  intros Hn Hs. destruct s as [l|ps|tc q t c|n q l d|c q t|neg c|o a b|o a b|t c|c|l|l]; cbn [level print subs node_ok] in *;
    repeat match goal with H : Forall _ (_ :: _) |- _ => apply Forall_cons in H as [? H] end;
    try (by apply opens_app, wrap_opens; [lia|]).
  - by destruct l.
  - rewrite dotted_bind. by destruct ps.
  - by destruct tc.
  - by destruct q.
  - by destruct neg.
  - apply opens_app, wrap_opens; [|done]. destruct (op_level_left o). lia.
  - apply opens_app, (opens_le _ 6), wrap_opens; [lia|lia|done].
  - done.
  - apply sep_opens; [by destruct l|]. eapply Forall_impl; [exact Hs|]. cbn. intros c Hc.
    apply (opens_le _ 3); [lia|]. apply wrap_opens; [lia|done].
  - apply sep_opens; [by destruct l|]. eapply Forall_impl; [exact Hs|]. cbn. intros c Hc.
    apply (opens_le _ 2); [lia|]. apply wrap_opens; [lia|done].
Qed.

Lemma well_formed_inv s : well_formed s → node_ok s = true ∧ Forall well_formed (subs s).
Proof. by destruct 1. Qed.

Lemma sentence_understood s : well_formed s → understood s.
Proof.
  induction s as [s IH] using sentence_induction. intros Hw. assert (Hsh := print_shown s Hw). apply well_formed_inv in Hw as [Hn Hc].
  assert (Hg : Forall understood (subs s)) by (rewrite Forall_forall in *; auto). clear IH Hc.
  assert (Ho : opens (level s) (print s) = true).
  { apply print_opens; [done|]. eapply Forall_impl; [exact Hg|]. by intros c (_ & ? & _). }
  split_and!; [done..|]. intros room Hd.
  destruct s as [l|ps|tc q t c|n q l d|c q t|neg c|o a b|o a b|t c|c|l|l]; cbn [level subs node_ok] in *;
    repeat match goal with H : Forall _ (_ :: _) |- _ => apply Forall_cons in H as [? H] end.
  - apply operand_phrase; [done|apply literal_reads].
  - apply operand_phrase; [done|]. apply sql_column_reads. by destruct ps.
  - apply sentence_cast; [done|by apply String.eqb_eq|done].
  - by apply sentence_call.
  - cbn [depth] in Hd. apply phrase_chain; [lia|done..|]. apply colons_chain; [by apply String.eqb_eq|].
    apply (wrap_phrase 11 c room); [lia|done|done|lia|done].
  - by apply sentence_sign.
  - by apply sentence_binary.
  - cbn [depth] in Hd. apply phrase_top; [lia|done| |done]. apply compare_reads; [done|..].
    + apply (wrap_phrase 6 a room); [lia|done|lia|lia].
    + apply (wrap_phrase 6 b room); [lia|done|lia|lia].
  - cbn [depth] in Hd. apply phrase_chain; [lia|done..|]. assert (Hx := null_chain (below_of room) (wrap 4 c (print c)) (meaning c) t).
    destruct t; apply Hx; (apply (wrap_phrase 4 c room); [lia|done|done|lia|done]).
  - by apply sentence_not.
  - apply sentence_and; try done. by apply Nat.ltb_lt.
  - apply sentence_or; try done. by apply Nat.ltb_lt.
Qed.
End reading.

(** * Texts *)

(** ** UTF-8 *)

Lemma decode_utf8 c r : scalar c → decode_chars (utf8 c ++ r) = c :: decode_chars r.
Proof.
  unfold scalar, utf8. intros Hc.
  assert (Hb : ∀ z, 0 ≤ z < 256 → Z_of_byte (byte_of_Z z) = z) by (intros z Hz; rewrite Z_of_byte_of_Z; by apply Z.mod_small).
  destruct (Z.ltb_spec c 0x80); [|destruct (Z.ltb_spec c 0x800); [|destruct (Z.ltb_spec c 0x10000)]];
    cbn [fmap list_fmap app decode_chars].
  - rewrite Hb by lia. destruct (Z.ltb_spec c 0x80); [done|lia].
  - rewrite !Hb by (Z.to_euclidean_division_equations; lia).
    destruct (Z.ltb_spec (0xC0 + c / 64) 0x80); [Z.to_euclidean_division_equations; lia|].
    destruct (Z.ltb_spec (0xC0 + c / 64) 0xE0); [|Z.to_euclidean_division_equations; lia].
    f_equal. Z.to_euclidean_division_equations; lia.
  - rewrite !Hb by (Z.to_euclidean_division_equations; lia).
    destruct (Z.ltb_spec (0xE0 + c / 4096) 0x80); [Z.to_euclidean_division_equations; lia|].
    destruct (Z.ltb_spec (0xE0 + c / 4096) 0xE0); [Z.to_euclidean_division_equations; lia|].
    destruct (Z.ltb_spec (0xE0 + c / 4096) 0xF0); [|Z.to_euclidean_division_equations; lia].
    f_equal. Z.to_euclidean_division_equations; lia.
  - rewrite !Hb by (Z.to_euclidean_division_equations; lia).
    destruct (Z.ltb_spec (0xF0 + c / 262144) 0x80); [Z.to_euclidean_division_equations; lia|].
    destruct (Z.ltb_spec (0xF0 + c / 262144) 0xE0); [Z.to_euclidean_division_equations; lia|].
    destruct (Z.ltb_spec (0xF0 + c / 262144) 0xF0); [Z.to_euclidean_division_equations; lia|].
    f_equal. Z.to_euclidean_division_equations; lia.
Qed.

Lemma chars_collect l : Forall scalar l → chars (collect_string l) = l.
Proof.
  intros Hl. unfold chars, collect_string. rewrite as_bytes_of_bytes. induction Hl as [|c l Hc _ IH]; [done|].
  rewrite bind_cons, decode_utf8 by done. by rewrite IH.
Qed.

(** ** Printing tokens *)

Fixpoint double_quotes (l : list char) : list char :=
  match l with [] => [] | c :: l => if c =? 34 then c :: c :: double_quotes l else c :: double_quotes l end.

Definition show (t : Token) : list char :=
  match t with
  | Ident w | Number w | Op w => chars w
  | Quoted w => 34 :: double_quotes (chars w) ++ [34]
  | Str => [39; 39]
  | LParen => [40]
  | RParen => [41]
  | Comma => [44]
  | Dot => [46]
  end.
Definition render (ts : list Token) : list char := ts ≫= λ t, show t ++ [32].
Definition to_sql (s : Sentence) : string := collect_string (render (print s)).

Lemma skip_quoted_double l r : head_is (Z.eqb 34) r = false → skip_quoted 34 (double_quotes l ++ 34 :: r) = Ok (double_quotes l, r).
Proof.
  intros Hr. induction l as [|c l IH]; cbn [double_quotes].
  - cbn [app skip_quoted]. rewrite Z.eqb_refl. destruct r as [|d r]; [done|]. cbn [head_is] in Hr. by rewrite Z.eqb_sym, Hr.
  - destruct (c =? 34) eqn:E.
    + apply Z.eqb_eq in E as ->. cbn [app skip_quoted]. rewrite Z.eqb_refl. by rewrite IH.
    + cbn [app skip_quoted]. rewrite E. change (34 =? ch "'") with false. rewrite andb_false_r. by rewrite IH.
Qed.

Lemma undouble_double l : undouble (double_quotes l) = l.
Proof.
  induction l as [|c l IH]; [done|]. cbn [double_quotes]. destruct (c =? 34) eqn:E.
  - cbn [undouble]. rewrite E. cbn [andb]. by rewrite IH.
  - destruct (double_quotes l) as [|d r] eqn:Ed; [by destruct l as [|x l]; [|cbn in Ed; destruct (x =? 34)]|].
    cbn [undouble] in *. rewrite E. cbn [andb]. by rewrite IH.
Qed.

Section lexing.
Context `{CharLaws}.

(** The classes of the ASCII characters used. *)
Ltac ascii_classes := rewrite ?whitespace_ascii, ?alphabetic_ascii, ?alphanumeric_ascii by lia.

Lemma span_app p a b : forallb p a = true → head_is p b = false → span p (a ++ b) = (a, b).
Proof.
  induction a as [|x a IH]; cbn [forallb app].
  - intros _ Hb. destruct b as [|y b]; [done|]. cbn [span head_is] in *. by rewrite Hb.
  - intros [Hx Ha]%andb_true_iff Hb. cbn [span]. rewrite Hx, IH; done.
Qed.

Definition word_char (c : char) : bool := is_ascii_alphanumeric c || (c =? ch "_").

Lemma word_char_range c : word_char c = true → 48 ≤ c < 123.
Proof.
  unfold word_char, is_ascii_alphanumeric, is_ascii_digit. change (ch "_") with 95.
  repeat match goal with |- context [?a <=? ?b] => destruct (Z.leb_spec a b) end; destruct (Z.eqb_spec c 95); cbn; lia.
Qed.

(** A word of letters that starts with one. *)
Lemma lex_word c w r : ((65 <=? c) && (c <=? 90)) || ((97 <=? c) && (c <=? 122)) = true → forallb word_char w = true →
  lex_one c (w ++ 32 :: r) = Ok (Some (Ident (collect_string (c :: w))), 32 :: r).
Proof.
  intros Hc Hw. assert (Hr : 65 ≤ c < 123 ∧ c ≠ 95).
  { repeat match type of Hc with context [?a <=? ?b] => destruct (Z.leb_spec a b) in Hc end; cbn in Hc; try done; lia. }
  unfold lex_one. ascii_classes.
  destruct (Z.leb_spec 9 c), (Z.leb_spec c 13), (Z.eqb_spec c 32); cbn [andb orb]; try lia.
  change (ch "-") with 45. change (ch "/") with 47. change (ch ".") with 46.
  destruct (Z.eqb_spec c 45), (Z.eqb_spec c 47), (Z.eqb_spec c 46); try lia. cbn [andb].
  assert (is_ascii_digit c = false) as -> by (unfold is_ascii_digit; destruct (Z.leb_spec 48 c), (Z.leb_spec c 57); cbn; lia).
  rewrite Hc. cbn [orb]. change (c :: w ++ 32 :: r) with ((c :: w) ++ 32 :: r).
  rewrite span_app.
  - cbn [head_is]. change (ch "'" =? 32) with false. by rewrite andb_false_r.
  - cbn [forallb]. ascii_classes. assert (is_ascii_alphanumeric c = true) as ->.
    { unfold is_ascii_alphanumeric. rewrite <- orb_assoc, Hc. apply orb_true_r. }
    cbn [orb andb]. rewrite forallb_forall in *. intros x Hx. specialize (Hw x Hx). assert (Hx' := word_char_range x Hw).
    ascii_classes. unfold word_char in Hw. by rewrite Hw.
  - cbn [head_is]. by ascii_classes.
Qed.

(** The words printed. *)
Definition word_ok (w : string) : bool :=
  match chars w with
  | c :: l => (((65 <=? c) && (c <=? 90)) || ((97 <=? c) && (c <=? 122))) && forallb word_char l && String.eqb (collect_string (c :: l)) w
  | [] => false
  end.
Lemma plain_word_ok w : plain_word w → word_ok w = true.
Proof.
  unfold plain_word. intros Ht. repeat (apply elem_of_cons in Ht as [->|Ht]; [vm_compute; reflexivity|]). by apply not_elem_of_nil in Ht.
Qed.

Ltac lex_ascii := unfold lex_one; ascii_classes; vm_compute; reflexivity.
(** The characters of concrete text. *)
Ltac lex_text :=
  match goal with |- context [chars ?t] => let v := eval vm_compute in (chars t) in replace (chars t) with v by (vm_compute; reflexivity) end;
  cbn [app]; eexists _, _; split; [reflexivity|lex_ascii].

Lemma lex_show t r : shown t → ∃ c r0, show t ++ 32 :: r = c :: r0 ∧ lex_one c r0 = Ok (Some t, 32 :: r).
Proof.
  intros Ht. destruct t as [w|w|n| |o| | | |]; cbn [show shown] in *.
  - apply plain_word_ok in Ht. unfold word_ok in Ht. destruct (chars w) as [|c l]; [done|].
    apply andb_true_iff in Ht as [[Hc Hl]%andb_true_iff Hw%String.eqb_eq].
    exists c, (l ++ 32 :: r). split; [done|]. rewrite lex_word by done. by rewrite Hw.
  - exists 34, (double_quotes (chars w) ++ 34 :: 32 :: r). split; [cbn; by rewrite <- app_assoc|].
    unfold lex_one. ascii_classes. cbn. rewrite skip_quoted_double by done. rewrite undouble_double. destruct Ht as [_ ->]. done.
  - repeat (apply elem_of_cons in Ht as [->|Ht]; [lex_text|]). by apply not_elem_of_nil in Ht.
  - exists 39, (39 :: 32 :: r). split; [done|]. lex_ascii.
  - unfold OPS in Ht. cbn [app POWERS FACTORS SUMS COMPARISONS] in Ht.
    repeat (apply elem_of_cons in Ht as [->|Ht]; [lex_text|]). by apply not_elem_of_nil in Ht.
  - exists 40, (32 :: r). split; [done|]. lex_ascii.
  - exists 41, (32 :: r). split; [done|]. lex_ascii.
  - exists 44, (32 :: r). split; [done|]. lex_ascii.
  - exists 46, (32 :: r). split; [done|]. lex_ascii.
Qed.

Lemma tokenize_render ts : Forall shown ts → ∀ fuel, (length (render ts) ≤ fuel)%nat → tokenize_loop fuel (render ts) = Ok ts.
Proof.
  intros Hf. induction Hf as [|t ts Ht _ IH]; intros fuel Hl; [by destruct fuel|]. unfold render in *.
  rewrite bind_cons, <- app_assoc in *. cbn [app] in *. set (rest := ts ≫= λ t, show t ++ [32]) in *.
  destruct (lex_show t rest Ht) as (c & r0 & E & Ho). rewrite E in *.
  assert (Hlen := lex_one_length c r0). rewrite Ho in Hlen. cbn [length] in Hl, Hlen.
  destruct fuel as [|[|fuel]]; [lia|lia|]. cbn [tokenize_loop]. rewrite Ho.
  assert (lex_one 32 rest = Ok (None, rest)) as -> by (unfold lex_one; by ascii_classes). by rewrite IH by lia.
Qed.
End lexing.

(** ** Round trip *)

Lemma strip_semicolons_id l : Forall shown l → strip_semicolons l = l.
Proof.
  induction 1 as [|t l Ht _ IH]; [done|]. cbn [strip_semicolons]. rewrite IH. destruct l; [|done].
  rewrite bool_decide_false; [done|]. intros ->. cbn [shown] in Ht.
  by assert (Hf : bool_decide (";" ∈ OPS) = false) by (vm_compute; reflexivity); apply bool_decide_eq_false in Hf.
Qed.

Lemma double_quotes_Forall (Q : char → Prop) l : Forall Q l → Forall Q (double_quotes l).
Proof. induction 1 as [|c l Hc _ IH]; [constructor|]. cbn. destruct (c =? 34); repeat (constructor; [done|]); done. Qed.

Lemma show_scalar t : shown t → Forall scalar (show t).
Proof.
  assert (Hc : ∀ l, forallb (λ c, (0 <? c) && (c <? 0x110000)) l = true → Forall scalar l).
  { intros l Hl. rewrite forallb_forall in Hl. apply Forall_forall. intros c Hc%list_elem_of_In%Hl. unfold scalar. lia. }
  destruct t as [w|w|n| |o| | | |]; cbn [show shown]; intros Ht.
  - unfold plain_word in Ht. repeat (apply elem_of_cons in Ht as [->|Ht]; [apply Hc; vm_compute; reflexivity|]). by apply not_elem_of_nil in Ht.
  - constructor; [done|]. apply Forall_app. split; [apply double_quotes_Forall, Ht|by repeat constructor].
  - repeat (apply elem_of_cons in Ht as [->|Ht]; [apply Hc; vm_compute; reflexivity|]). by apply not_elem_of_nil in Ht.
  - by repeat constructor.
  - unfold OPS in Ht. cbn [app POWERS FACTORS SUMS COMPARISONS] in Ht.
    repeat (apply elem_of_cons in Ht as [->|Ht]; [apply Hc; vm_compute; reflexivity|]). by apply not_elem_of_nil in Ht.
  - by repeat constructor.
  - by repeat constructor.
  - by repeat constructor.
  - by repeat constructor.
Qed.
Lemma render_scalar ts : Forall shown ts → Forall scalar (render ts).
Proof.
  induction 1 as [|t ts Ht _ IH]; [constructor|]. unfold render in *. rewrite bind_cons, !Forall_app.
  split_and!; [by apply show_scalar|by repeat constructor|done].
Qed.

Lemma utf8_no_nul c : scalar c → x00 ∉ utf8 c.
Proof.
  intros Hc Hin. unfold utf8 in Hin. apply list_elem_of_fmap in Hin as (z & E & Hz).
  apply (f_equal Z_of_byte) in E. rewrite Z_of_byte_of_Z in E. change (Z_of_byte x00) with 0 in E. unfold scalar in Hc.
  assert (0 < z < 256); [|rewrite Z.mod_small in E; lia].
  destruct (Z.ltb_spec c 0x80); [|destruct (Z.ltb_spec c 0x800); [|destruct (Z.ltb_spec c 0x10000)]];
    repeat (apply elem_of_cons in Hz as [->|Hz]; [Z.to_euclidean_division_equations; lia|]); by apply not_elem_of_nil in Hz.
Qed.
Lemma collect_no_nul l : Forall scalar l → x00 ∉ as_bytes (collect_string l).
Proof.
  intros Hl. unfold collect_string. rewrite as_bytes_of_bytes. intros (c & Hc & Hin)%list_elem_of_bind.
  rewrite Forall_forall in Hl. by apply (utf8_no_nul c (Hl c Hin)).
Qed.


(** ** An example *)

#[local] Instance ascii_chars : CharClasses := {|
  is_whitespace c := ((9 <=? c) && (c <=? 13)) || (c =? 32);
  is_alphabetic c := ((65 <=? c) && (c <=? 90)) || ((97 <=? c) && (c <=? 122));
  is_alphanumeric := is_ascii_alphanumeric;
|}.
#[local] Instance ascii_laws : CharLaws.
Proof.
  split; try done. intros c. cbn [is_alphabetic is_alphanumeric ascii_chars]. unfold is_ascii_alphanumeric.
  rewrite <- orb_assoc. intros ->. apply orb_true_r.
Qed.

(** [a - b - (c - 1) * -d ^ 1 :: BIGINT = 1 OR NOT x || y < '' AND (p OR s.f(q, NOT r)) IS NOT NULL],
    its names in quotes. *)
Definition example : Sentence :=
  let v n := SColumn [n] in
  SOr [SCompare "=" (SBinary "-" (SBinary "-" (v "a") (v "b"))
                       (SBinary "*" (SBinary "-" (v "c") (SLiteral LInteger))
                          (SBinary "^" (SSign true (v "d")) (SColons (SLiteral LInteger) false "BIGINT"))))
         (SLiteral LInteger);
       SAnd [SNot (SCompare "<" (SBinary "||" (v "x") (v "y")) (SLiteral LVarchar));
             SNull Is_not_null (SOr [v "p"; SCall "f" true [v "q"; SNot (v "r")] false])]].


Lemma sql_parse_terminates_witness : parse "a IN (1" ≠ Err Stuck.
Proof. apply sql_parse_terminates. Defined.

(** A backslash escapes the closing quote of a plain string too, so a string that ends
    in one is refused. *)
Lemma backslash_string_refused : check_generated "'\'" [] = Err (Msg "unterminated quoted text").
Proof. vm_compute. reflexivity. Qed.
