(* ===== verification/Wire.v ===== *)
(** Typed calls.  [vgi-protocol/src/wire.rs]: a DTO as a one-row batch and the
    [{result: binary}] envelope; [vgi-protocol/src/protocol/dtos.rs]: the columns
    a peer of an older protocol leaves out; [vgi-client/src/wire_call.rs]: a typed
    request turned into a typed response.  The derived [VgiArrow] of a DTO is the
    class [VgiArrow]; a length-prefixed codec gives instances of it. *)
From S2P Require Import Prelude Codec Float64 Arrow SqlCompare Ipc.

Open Scope Z_scope.

(** [VgiArrow] of a DTO: the name it describes itself by, the one-row struct
    array it builds, as the batch of its children, and the value of a row. *)
Class VgiArrow (T : Type) := {
  describe_name : string;
  build_singleton : T → result RecordBatch RpcError;
  read_row : RecordBatch → nat → result T RpcError;
}.
Arguments describe_name T {_}.

(** A batch as the other side of an IPC stream sees it. *)
Definition relay (b : RecordBatch) : RecordBatch := read_as (schema b) (schema_metadata b) b.

(** What a derived implementation builds is one row of the declared types, which
    reads back as the value, by name, so also once its fields became nullable. *)
Class VgiArrowLaws (T : Type) `{VgiArrow T} : Prop := {
  built x b : build_singleton x = Ok b →
    num_rows b = 1%nat ∧ arr_type <$> columns b = data_type <$> schema b ∧ read_row (relay b) 0 = Ok x;
}.

(** * DTOs as batches *)

Definition to_batch {T} `{VgiArrow T} (value : T) : result RecordBatch RpcError := build_singleton value.
Definition from_batch {T} `{VgiArrow T} (batch : RecordBatch) : result T RpcError :=
  if (num_rows batch =? 0)%nat then type_error ("empty request batch for " +:+ describe_name T)
  else read_row batch 0.

(** The envelopes: the schema of a response, and of a wrapped request. *)
Definition result_binary_schema : Schema := [mkField "result" (Flat FBinary) false []].
Definition nullable_result_binary_schema : Schema := [mkField "result" (Flat FBinary) true []].
Definition request_binary_schema : Schema := [mkField "request" (Flat FBinary) true []].
(** [BinaryArray::from(vec![bytes])]. *)
Definition binary_singleton (bs : bytes) : array := plain_array (Flat FBinary) [Some (VBytes (string_of_bytes bs))].

Definition result_batch_from_bytes (bs : bytes) : result RecordBatch RpcError :=
  map_err (λ e, RuntimeError ("build result envelope: " +:+ e))
    (try_new result_binary_schema ∅ [binary_singleton bs]).
Definition nullable_result_batch_from_bytes (bs : bytes) : result RecordBatch RpcError :=
  map_err (λ e, RuntimeError ("build result envelope: " +:+ e))
    (try_new nullable_result_binary_schema ∅ [binary_singleton bs]).

(** [params_schema_for] over the generated table. *)
Definition params_schema_for (generated : string → option Schema) (method : string) : Schema :=
  default request_binary_schema (generated method).

Section wire.
Context `{IpcStream}.

Definition to_result_batch {T} `{VgiArrow T} (value : T) : result RecordBatch RpcError :=
  let? inner := to_batch value in
  let? bs := write_batch inner in
  map_err (λ e, RuntimeError ("build result envelope: " +:+ e))
    (try_new result_binary_schema ∅ [binary_singleton bs]).

(** The response of a method without fields: a batch of no columns inside. *)
Definition empty_result_batch : result RecordBatch RpcError :=
  let? bs := write_batch (mkRecordBatch [] ∅ [] 0) in
  map_err (λ e, RuntimeError ("build empty envelope: " +:+ e))
    (try_new result_binary_schema ∅ [binary_singleton bs]).

(** [encode_record] and [decode_record] of [vgi-protocol/src/constraints.rs]. *)
Definition encode_record {T} `{VgiArrow T} (value : T) : result bytes RpcError :=
  let? b := to_batch value in write_batch b.
Definition decode_record {T} `{VgiArrow T} (bs : bytes) : result T RpcError :=
  let? b := read_batch bs in from_batch b.
End wire.

(** * Columns older peers omit *)

Definition has_column (b : RecordBatch) (n : string) : bool := is_some (column_by_name b n).
Definition null_array (t : DataType) (rows : nat) : array := plain_array t (replicate rows None).

(** The fields and columns to append, in order. *)
Definition missing (b : RecordBatch) (wanted : list (Field * array)) : list (Field * array) :=
  filter (λ fa, has_column b (name fa.1) = false) wanted.
Definition backfill (message : string) (b : RecordBatch) (wanted : list (Field * array)) : result RecordBatch RpcError :=
  match missing b wanted with
  | [] => Ok b
  | m => map_err (λ e, TypeError (message +:+ e)) (try_new (schema b ++ m.*1) ∅ (columns b ++ m.*2))
  end.

Definition ensure_nullable_columns (b : RecordBatch) (optional : list (string * DataType)) : result RecordBatch RpcError :=
  backfill "backfill plan request: " b
    ((λ nt : string * DataType, (mkField nt.1 nt.2 true [], null_array nt.2 (num_rows b))) <$> optional).

Definition backfill_init_request (b : RecordBatch) : result RecordBatch RpcError :=
  ensure_nullable_columns b
    [("split_tokens", List (mkField "item" (Flat FLargeBinary) true [])); ("row_limit", Int64)].

(** The columns newer workers send, with the value their absence means. *)
Definition function_info_columns (rows : nat) : list (Field * array) :=
  [(mkField "parameter_default_values" (Flat FBinary) true [], null_array (Flat FBinary) rows)] ++
  ((λ n, (mkField n Boolean false [], of_bools (replicate rows (Some false)))) <$>
     ["supports_splits"; "filters_exactly_applied"; "supports_positions"]) ++
  [(mkField "split_token_ttl_seconds" Int64 true [], null_array Int64 rows)].
Definition backfill_function_info (b : RecordBatch) : result RecordBatch RpcError :=
  backfill "backfill FunctionInfo: " b (function_info_columns (num_rows b)).

(** * The client's calls *)

(** [ItemsResult]. *)
Record ItemsResult := mkItemsResult { items : list bytes }.

Section calls.
Context `{IpcStream} `{VgiArrow ItemsResult}.
(** How an [RpcError] prints, and the transport: what it answers to a call. *)
Variable display : RpcError → string.
Variable call_unary : string → RecordBatch → result RecordBatch RpcError.

Definition envelope {T} `{VgiArrow T} (inner : T) : result bytes RpcError :=
  let? batch := to_batch inner in write_batch batch.

(** [arr.value(0)] of a null row is the empty slice. *)
Definition unwrap_result (batch : RecordBatch) (method : string) : result RecordBatch RpcError :=
  match column_by_name batch "result" with
  | None => type_error (method +:+ ": response is missing the `result` column")
  | Some col =>
      if decide (arr_type col = Flat FBinary) then
        match vals col with
        | [] => type_error (method +:+ ": response envelope carried no rows")
        | v :: _ => read_batch (default [] (as_bytes <$> as_str v))
        end
      else type_error (method +:+ ": `result` column is not Binary")
  end.

Definition call_batch {P} `{VgiArrow P} (method : string) (params : P) : result RecordBatch RpcError :=
  let? batch := to_batch params in
  let? response := call_unary method batch in
  unwrap_result response method.

Definition call_raw {R} `{VgiArrow R} (method : string) (params : RecordBatch) : result R RpcError :=
  let? response := call_unary method params in
  let? inner := unwrap_result response method in
  from_batch inner.

Definition call {P R} `{VgiArrow P} `{VgiArrow R} (method : string) (params : P) : result R RpcError :=
  let? batch := to_batch params in call_raw method batch.

Definition call_unit {P} `{VgiArrow P} (method : string) (params : P) : result unit RpcError :=
  let? batch := to_batch params in
  let? response := call_unary method batch in
  match columns response with
  | [] => Ok ()
  | _ => let? _ := unwrap_result response method in Ok ()
  end.

(** The blobs from index [i] on. *)
Fixpoint decode_blobs_from {I} `{VgiArrow I} (i : nat) (method : string) (blobs : list bytes) : result (list I) RpcError :=
  match blobs with
  | [] => Ok []
  | blob :: blobs =>
      let at_item := method +:+ ": item " +:+ Z_to_string (Z.of_nat i) in
      let? batch := map_err (λ e, TypeError (at_item +:+ " is not a readable IPC batch: " +:+ display e)) (read_batch blob) in
      let? batch := if String.eqb method "catalog_schema_contents_functions"
                    then backfill_function_info batch else Ok batch in
      let? x := map_err (λ e, TypeError (at_item +:+ " failed to decode: " +:+ display e)) (from_batch batch) in
      let? xs := decode_blobs_from (S i) method blobs in
      Ok (x :: xs)
  end.
Definition decode_item_blobs {I} `{VgiArrow I} (blobs : list bytes) (method : string) : result (list I) RpcError :=
  decode_blobs_from 0 method blobs.
Definition decode_items {I} `{VgiArrow I} (r : ItemsResult) (method : string) : result (list I) RpcError :=
  decode_item_blobs (items r) method.

Definition call_items_raw {I} `{VgiArrow I} (method : string) (params : RecordBatch) : result (list I) RpcError :=
  let? r := call_raw method params in decode_items r method.
Definition call_items {P I} `{VgiArrow P} `{VgiArrow I} (method : string) (params : P) : result (list I) RpcError :=
  let? r := call method params in decode_items r method.
End calls.

(** * Calls are transparent *)

Section laws.
Context `{IpcLaws}.

Lemma decode_relayed {T} `{VgiArrowLaws T} (x : T) b : to_batch x = Ok b → from_batch (relay b) = Ok x.
Proof. intros E. destruct (built _ _ E) as (Hn & _ & Hr). unfold from_batch. cbn. by rewrite Hn, Hr. Qed.

Lemma encode_record_Ok {T} `{VgiArrow T} (x : T) bs :
  encode_record x = Ok bs → ∃ b, to_batch x = Ok b ∧ write_batch b = Ok bs.
Proof. unfold encode_record. destruct (to_batch x) as [b|]; [|done]. by exists b. Qed.

Lemma read_encoded {T} `{VgiArrowLaws T} (x : T) b bs :
  to_batch x = Ok b → write_batch b = Ok bs → read_batch bs = Ok (relay b).
Proof. intros E Ew. destruct (built _ _ E) as (_ & Ht & _). by destruct (read_written _ _ _ _ Ew Ht) as (_ & ? & _). Qed.

Lemma decode_encoded {T} `{VgiArrowLaws T} (x : T) bs : encode_record x = Ok bs → decode_record bs = Ok x.
Proof.
  intros (b & Eb & Ew)%encode_record_Ok. unfold decode_record. rewrite (read_encoded _ _ _ Eb Ew). cbn. by apply decode_relayed.
Qed.

Lemma encoded_nonempty {T} `{VgiArrowLaws T} (x : T) bs : encode_record x = Ok bs → bs ≠ [].
Proof. intros (b & Eb & Ew)%encode_record_Ok. destruct (built _ _ Eb) as (_ & Ht & _). by destruct (read_written _ _ _ _ Ew Ht). Qed.

(** The envelope of some bytes, relayed, gives the batch they hold. *)
Lemma unwrap_relayed bs env m : result_batch_from_bytes bs = Ok env → unwrap_result (relay env) m = read_batch bs.
Proof.
  unfold result_batch_from_bytes. cbn -[as_bytes string_of_bytes]. intros [= <-].
  unfold unwrap_result. cbn -[as_bytes string_of_bytes read_batch].
  rewrite decide_True by done. cbn -[as_bytes string_of_bytes read_batch]. rewrite decide_True by done.
  by rewrite as_bytes_of_bytes.
Qed.

Lemma to_result_batch_eq {T} `{VgiArrow T} (x : T) : to_result_batch x = let? bs := encode_record x in result_batch_from_bytes bs.
Proof. unfold to_result_batch, encode_record. destruct (to_batch x) as [b|]; [|done]. by destruct (write_batch b). Qed.

(** A handler that decodes its parameters, runs [f] and wraps its answer, behind a
    transport that relays both batches. *)
Definition serve {P R} `{VgiArrow P} `{VgiArrow R} (f : string → P → result R RpcError) (method : string)
    (params : RecordBatch) : result RecordBatch RpcError :=
  let? p := from_batch params in
  let? r := f method p in
  to_result_batch r.
Definition over_wire (handler : string → RecordBatch → result RecordBatch RpcError) (method : string)
    (params : RecordBatch) : result RecordBatch RpcError :=
  let? response := handler method (relay params) in Ok (relay response).

Lemma call_raw_served {P R} `{VgiArrowLaws P} `{VgiArrowLaws R} (f : string → P → result R RpcError) method p b :
  to_batch p = Ok b → (∀ r, f method p = Ok r → is_ok (encode_record r) = true) →
  call_raw (over_wire (serve f)) method b = f method p.
Proof.
  intros Eb He. unfold call_raw, over_wire, serve. rewrite (decode_relayed _ _ Eb). destruct (f method p) as [r|e]; [|done].
  specialize (He r eq_refl). rewrite to_result_batch_eq. destruct (encode_record r) as [bs|] eqn:Er; [|done].
  destruct (result_batch_from_bytes bs) as [env|e] eqn:Ee; [|done]. rewrite (unwrap_relayed _ _ method Ee).
  apply decode_encoded in Er. done.
Qed.

(** A typed call is the function the worker serves: whatever
    the worker's function answers for the parameters, value or error, is what [call]
    returns, through the two batches, the two relays and the result envelope. *)
Theorem typed_call_transparent {P R} `{VgiArrowLaws P} `{VgiArrowLaws R} (f : string → P → result R RpcError) method p :
  is_ok (to_batch p) = true → (∀ r, f method p = Ok r → is_ok (encode_record r) = true) →
  call (over_wire (serve f)) method p = f method p.
Proof. intros Hp Hr. unfold call. destruct (to_batch p) as [b|] eqn:Eb; [|done]. by apply call_raw_served. Qed.

Lemma decode_item_blobs_encoded {I} `{VgiArrowLaws I} display method (xs : list I) blobs i :
  method ≠ "catalog_schema_contents_functions" → Forall2 (λ x bs, encode_record x = Ok bs) xs blobs →
  decode_blobs_from display i method blobs = Ok xs.
Proof.
  intros Hm F. revert i. induction F as [|x bs xs blobs E F IH]; intros i; cbn [decode_blobs_from]; [done|].
  apply encode_record_Ok in E as (b & Eb & Ew). rewrite (read_encoded _ _ _ Eb Ew). cbn [map_err].
  rewrite (proj2 (String.eqb_neq _ _) Hm). rewrite (decode_relayed _ _ Eb). cbn [map_err]. by rewrite IH.
Qed.

(** A listing returns the worker's items, all of them and in
    their order. *)
Theorem items_call_transparent {P I} `{VgiArrowLaws P} `{VgiArrowLaws ItemsResult} `{VgiArrowLaws I}
    display (f : string → P → result ItemsResult RpcError) method p (xs : list I) blobs :
  method ≠ "catalog_schema_contents_functions" → is_ok (to_batch p) = true →
  f method p = Ok (mkItemsResult blobs) → is_ok (encode_record (mkItemsResult blobs)) = true →
  Forall2 (λ x bs, encode_record x = Ok bs) xs blobs →
  call_items display (over_wire (serve f)) method p = Ok xs.
Proof.
  intros Hm Hp Hf He Hx. unfold call_items, call. destruct (to_batch p) as [b|] eqn:Eb; [|done].
  rewrite (call_raw_served f _ _ _ Eb) by (rewrite Hf; by intros r [= <-]). rewrite Hf.
  by apply decode_item_blobs_encoded.
Qed.
End laws.

(** * Backfilling keeps what a peer sent *)

Lemma find_field_app n s t :
  find_field n (s ++ t) = match find_field n s with Some r => Some r | None => prod_map (λ i, i + length s)%nat id <$> find_field n t end.
Proof.
  unfold find_field. destruct (list_find _ s) as [[i f]|] eqn:E; [by apply list_find_app_l|by apply list_find_app_r].
Qed.

Section backfill.
Variables (b : RecordBatch) (wanted : list (Field * array)) (message : string).
Hypothesis Hb : wf_batch b.
Hypothesis Hw : Forall (λ fa, arr_type fa.2 = data_type fa.1 ∧ len fa.2 = num_rows b ∧
                               (is_nullable fa.1 = false → null_count fa.2 = 0%nat)) wanted.

Let ok (f : Field) (a : array) : Prop :=
  arr_type a = data_type f ∧ len a = num_rows b ∧ (is_nullable f = false → null_count a = 0%nat).

Lemma try_new_ok s md cols : Forall2 ok s cols → cols ≠ [] → try_new s md cols = Ok (mkRecordBatch s md cols (num_rows b)).
Proof.
  intros F Hne. pose proof (Forall2_length _ _ _ F) as Hl. unfold try_new. rewrite Hl, Nat.eqb_refl. cbn [negb].
  destruct cols as [|c cs] eqn:Ec; [done|]. rewrite <- Ec in *.
  assert (∀ a, a ∈ cols → len a = num_rows b) as Hlen.
  { intros a (i & Hi)%list_elem_of_lookup. destruct (Forall2_lookup_r _ _ _ _ _ F Hi) as (f & _ & _ & ? & _). done. }
  assert (len c = num_rows b) as Hc by (apply Hlen; rewrite Ec; left).
  assert (existsb (λ a, negb (len a =? len c)%nat) cols = false) as ->.
  { apply not_true_iff_false. intros (a & Ha & Hn)%existsb_exists. apply list_elem_of_In in Ha.
    rewrite (Hlen a Ha), Hc, Nat.eqb_refl in Hn. done. }
  rewrite Hc. clear Ec Hne Hlen Hc c cs Hl.
  assert (∀ f a, (f, a) ∈ zip s cols → ok f a) as Hz.
  { intros f a (i & Hi)%list_elem_of_lookup. apply lookup_zip_Some in Hi as [Hf Ha]. by eapply Forall2_lookup_lr. }
  destruct (find _ (zip s cols)) as [[f a]|] eqn:Ef.
  - apply find_some in Ef as [Hin Hp]. apply list_elem_of_In, Hz in Hin as (_ & _ & Hnull).
    apply andb_true_iff in Hp as [Hn Hp]. rewrite negb_true_iff in Hn. rewrite (Hnull Hn) in Hp. done.
  - assert (existsb (λ '(f, a), negb (bool_decide (arr_type a = data_type f))) (zip s cols) = false) as ->; [|done].
    apply not_true_iff_false. intros ([f a] & Ha & Hn)%existsb_exists. apply list_elem_of_In, Hz in Ha as (Ht & _).
    rewrite bool_decide_true in Hn by done. done.
Qed.

Lemma missing_ok : Forall2 ok (missing b wanted).*1 (missing b wanted).*2.
Proof.
  unfold missing. rewrite Forall2_fmap. apply Forall_Forall2_diag, Forall_forall. intros fa [_ H]%list_elem_of_filter.
  rewrite Forall_forall in Hw. exact (Hw fa H).
Qed.

Lemma backfill_batch : missing b wanted ≠ [] →
  backfill message b wanted =
    Ok (mkRecordBatch (schema b ++ (missing b wanted).*1) ∅ (columns b ++ (missing b wanted).*2) (num_rows b)).
Proof.
  unfold backfill. destruct (missing b wanted) as [|m ms] eqn:E; [done|]. intros _. rewrite <- E. rewrite try_new_ok; [done|..].
  - apply Forall2_app; [|exact missing_ok]. eapply Forall2_impl; [exact Hb|]. unfold ok. naive_solver.
  - rewrite E. by destruct (columns b).
Qed.

(** A column that was there stays as it was; one that was not is the first wanted of its name. *)
Lemma backfill_lookup n : NoDup (name ∘ fst <$> wanted) →
  ∃ b', backfill message b wanted = Ok b' ∧ num_rows b' = num_rows b ∧
  (has_column b n = true → column_by_name b' n = column_by_name b n) ∧
  (∀ f a, has_column b n = false → (f, a) ∈ wanted → name f = n → column_by_name b' n = Some a).
Proof.
  intros Hnd. destruct (decide (missing b wanted = [])) as [E|E].
  { exists b. unfold backfill. rewrite E. split_and!; [done..|]. intros f a Hn Hin <-. exfalso.
    assert ((f, a) ∈ missing b wanted) as Hm by (by apply list_elem_of_filter). rewrite E in Hm. by apply not_elem_of_nil in Hm. }
  eexists. split; [by apply backfill_batch|]. split; [done|]. pose proof (Forall2_length _ _ _ Hb) as Hl.
  unfold has_column, column_by_name. cbn [schema columns]. rewrite find_field_app.
  destruct (find_field n (schema b)) as [[i f]|] eqn:Ef; cbn [is_some mbind option_bind].
  - apply list_find_Some in Ef as (Hi & _ & _). apply lookup_lt_Some in Hi. rewrite lookup_app_l by lia.
    split; [done|]. intros f' a Hn. destruct (columns b !! i) eqn:Ec; [done|]. apply lookup_ge_None in Ec. lia.
  - split; [done|]. intros f a _ Hin <-.
    assert ((f, a) ∈ missing b wanted) as Hm.
    { apply list_elem_of_filter. split; [|done]. unfold has_column, column_by_name. cbn. by rewrite Ef. }
    apply list_elem_of_lookup in Hm as (j & Hj).
    assert (find_field (name f) (missing b wanted).*1 = Some (j, f)) as ->.
    { apply list_find_Some. rewrite list_lookup_fmap, Hj. split_and!; [done..|]. intros k g Hk Hlt Hne.
      rewrite list_lookup_fmap in Hk. destruct (missing b wanted !! k) as [ga|] eqn:Eg; [|done]. injection Hk as <-.
      assert (NoDup (name ∘ fst <$> missing b wanted)) as Hnd'.
      { eapply sublist_NoDup; [exact Hnd|]. apply fmap_sublist, sublist_filter. }
      assert (k = j); [|lia]. eapply NoDup_lookup; [exact Hnd'|..]; rewrite list_lookup_fmap; [by rewrite Eg|by rewrite Hj; cbn; rewrite Hne]. }
    cbn. rewrite lookup_app_r by lia. replace (j + length (schema b) - length (columns b))%nat with j by lia.
    by rewrite list_lookup_fmap, Hj.
Qed.
End backfill.

Definition function_info_defaults (rows : nat) : list (string * array) :=
  [("parameter_default_values", null_array (Flat FBinary) rows);
   ("supports_splits", of_bools (replicate rows (Some false)));
   ("filters_exactly_applied", of_bools (replicate rows (Some false)));
   ("supports_positions", of_bools (replicate rows (Some false)));
   ("split_token_ttl_seconds", null_array Int64 rows)].

Lemma len_replicate {A} (t : DataType) (f : A → option value) rows (v : A) :
  len (plain_array t (f <$> replicate rows v)) = rows.
Proof. unfold len, plain_array. cbn [vals]. by rewrite length_fmap, length_replicate. Qed.

Lemma bools_no_nulls rows b : null_count (of_bools (replicate rows (Some b))) = 0%nat.
Proof.
  unfold null_count, of_bools, plain_array. cbn [valid]. rewrite !fmap_replicate. rewrite list_filter_none; [done|].
  apply Forall_forall. intros x [-> _]%elem_of_replicate. done.
Qed.

(** Backfilling a listing of an older worker always
    succeeds: every column it sent is kept, and each newer column it left out reads as
    the default (no default values, no splits, no exact filters, no positions, no
    lifetime) in every row. *)
Theorem backfill_function_info_exact b n : wf_batch b →
  ∃ b', backfill_function_info b = Ok b' ∧ num_rows b' = num_rows b ∧
  (has_column b n = true → column_by_name b' n = column_by_name b n) ∧
  (∀ a, has_column b n = false → (n, a) ∈ function_info_defaults (num_rows b) → column_by_name b' n = Some a).
Proof.
  intros Hb. unfold backfill_function_info.
  destruct (backfill_lookup b (function_info_columns (num_rows b)) "backfill FunctionInfo: " Hb) with (n := n) as (b' & E & Hr & Hk & Hd); [| |
    exists b'; split; [exact E|split; [exact Hr|split; [exact Hk|]]]].
  - cbn [function_info_columns app fmap list_fmap]. unfold null_array. rewrite !Forall_cons. cbn [fst snd].
    split_and!; try done; try (by intros _; apply bools_no_nulls);
      first [unfold len; cbn [vals plain_array]; by rewrite length_replicate | apply len_replicate].
  - cbn. apply NoDup_ListNoDup. repeat (constructor; [cbn; intuition discriminate|]). constructor.
  - intros a Hn Ha. unfold function_info_defaults in Ha. rewrite !elem_of_cons in Ha.
    destruct Ha as [[= -> ->]|[[= -> ->]|[[= -> ->]|[[= -> ->]|[[= -> ->]|[]%not_elem_of_nil]]]]];
      [eapply (Hd (mkField _ (Flat FBinary) true [])) | eapply (Hd (mkField _ Boolean false []))..
      | eapply (Hd (mkField _ Int64 true []))]; try done;
      cbn [function_info_columns app fmap list_fmap]; rewrite !elem_of_cons; auto 10.
Qed.

(** * An instance: a length-prefixed codec *)

(** The batch that holds a string, and the streams of such batches. *)
Definition text_schema : Schema := [mkField "value" Utf8 false []].
Definition text_batch (s : string) : RecordBatch := mkRecordBatch text_schema ∅ [plain_array Utf8 [Some (VBytes s)]] 1.
Definition text_of (b : RecordBatch) : option string :=
  match columns b with a :: _ => head (vals a) ≫= as_str | [] => None end.

#[local] Instance text_stream : IpcStream := {|
  write_stream s md l :=
    match l with
    | [b] => match text_of b with
             | Some t => if decide (s = text_schema ∧ md = ∅ ∧ b = text_batch t) then Ok (x01 :: as_bytes t)
                         else Err (AtWrite "unsupported")
             | None => Err (AtWrite "unsupported")
             end
    | _ => Err (AtWrite "unsupported")
    end;
  open_stream bs :=
    match bs with
    | x01 :: t => Ok (mkReader text_schema ∅ (Ok (Some (read_as text_schema ∅ (text_batch (string_of_bytes t))))))
    | _ => value_error "malformed IPC stream"
    end;
|}.
#[local] Instance text_stream_laws : IpcLaws.
Proof.
  split; cbn.
  - intros s md b bs. destruct (text_of b) as [t|]; [|done]. destruct (decide _) as [(-> & -> & ->)|]; [|done].
    intros [= <-] _. cbn. by rewrite string_of_as_bytes.
  - done.
  - intros s md l bs. destruct l as [|b [|]]; [done| |done]. destruct (text_of b); [|done]. destruct (decide _); [|done]. by intros [= <-].
Qed.

(** Any type with an executable codec. *)
#[local] Instance ser_arrow {T} `{Ser T} : VgiArrow T := {|
  describe_name := "value";
  build_singleton x := Ok (text_batch (string_of_bytes (ser x)));
  read_row b _ := match text_of b ≫= (λ t, de (as_bytes t)) with
                  | Some (x, []) => Ok x
                  | _ => type_error "malformed value"
                  end;
|}.
#[local] Instance ser_arrow_laws {T} `{Ser T} : VgiArrowLaws T.
Proof.
  split. intros x b [= <-]. split_and!; [done..|]. cbn -[as_bytes string_of_bytes]. rewrite as_bytes_of_bytes.
  by rewrite <- (app_nil_r (ser x)), de_ser.
Qed.

Lemma text_read {T} `{Ser T} (x : T) : from_batch (text_batch (string_of_bytes (ser x))) = Ok x.
Proof.
  unfold from_batch. cbn -[as_bytes string_of_bytes]. by rewrite as_bytes_of_bytes, <- (app_nil_r (ser x)), de_ser.
Qed.

Lemma text_encode_total {T} `{Ser T} (x : T) : encode_record x = Ok (x01 :: ser x).
Proof.
  unfold encode_record, write_batch, write_batch_with_schema. cbn -[as_bytes string_of_bytes].
  destruct (decide _) as [|[]]; [|done]. cbn [map_err]. by rewrite as_bytes_of_bytes.
Qed.

Lemma text_row {T} `{Ser T} (x : T) b bs : to_batch x = Ok b → write_batch b = Ok bs →
  b = text_batch (string_of_bytes (ser x)) ∧ bs = x01 :: ser x.
Proof.
  intros Eb Ew. pose proof (text_encode_total x) as E. unfold encode_record in E. rewrite Eb, Ew in E.
  split; [by injection Eb|by injection E].
Qed.

#[local] Instance Ser_items : Ser ItemsResult := ser_via items mkItemsResult (λ r, match r with mkItemsResult _ => eq_refl end).

Lemma typed_call_transparent_witness :
  let f := (λ m s, if String.eqb m "fail" then Err (ValueError s) else Ok (s +:+ "!")) : string → string → result string RpcError in
  call (over_wire (serve f)) "echo" "hello" = Ok "hello!" ∧ call (over_wire (serve f)) "fail" "hello" = Err (A := string) (ValueError "hello").
Proof.
  intros f. split; (rewrite (typed_call_transparent f); [done|done|]; intros r _; by rewrite text_encode_total).
Defined.

Lemma items_call_transparent_witness :
  let f := (λ _ s, Ok (mkItemsResult [x01 :: ser s; x01 :: ser "b"])) : string → string → result ItemsResult RpcError in
  call_items (λ _, "error") (over_wire (serve f)) "catalog_schemas" "a" = Ok ["a"; "b"].
Proof.
  intros f. apply (items_call_transparent (λ _, "error") f "catalog_schemas" "a" ["a"; "b"] [x01 :: ser "a"; x01 :: ser "b"]);
    [done|done|done|by rewrite text_encode_total|]. repeat constructor; apply text_encode_total.
Defined.

Lemma backfill_function_info_exact_witness :
  ∃ b', backfill_function_info (text_batch "f") = Ok b' ∧ column_by_name b' "value" = column_by_name (text_batch "f") "value" ∧
        column_by_name b' "supports_splits" = Some (of_bools [Some false]).
Proof.
  assert (wf_batch (text_batch "f")) as W. { repeat constructor; try done. }
  destruct (backfill_function_info_exact (text_batch "f") "value" W) as (b' & E & _ & Hk & _).
  destruct (backfill_function_info_exact (text_batch "f") "supports_splits" W) as (b'' & E' & _ & _ & Hd).
  rewrite E in E'. injection E' as <-. exists b'. split; [done|]. split; [by apply Hk|]. apply Hd; [done|].
  cbn. right. left.
Defined.
