(* ===== verification/CatalogCollections.v ===== *)
(** The collections of catalog metadata, [vgi-protocol/src/catalog.rs]: records as
    a stream of bounded batches, reading one back, and the client's grouping of
    the six streams of a [catalog_contents] response by schema. *)
From S2P Require Import Prelude Codec SqlCompare Arrow Ipc Wire CatalogContents.

Open Scope Z_scope.

(** * Streams of several batches *)

(** What [vgi_rpc::wire::StreamReader] yields: the batches with their metadata,
    then the end of the stream at a position of its input, or an error. *)
Record Records := mkRecords {
  rec_items : list (RecordBatch * metadata);
  rec_end : result nat RpcError;
}.

(** The reader, after [relax_nullability] or not. *)
Class RecordStream := { open_records : bool → bytes → result Records RpcError }.

(** A stream of batches of the declared types reads back as them, to its last
    byte. *)
Class RecordStreamLaws `{IpcStream} `{RecordStream} : Prop := {
  records_written s md l bs : write_stream s md l = Ok bs →
    Forall (λ b, arr_type <$> columns b = data_type <$> s) l →
    (∃ first, open_stream bs = Ok (mkReader s md (Ok first))) ∧
    open_records true bs = Ok (mkRecords ((λ b, (read_as s md b, ∅)) <$> l) (Ok (length bs)));
}.

(** [DataType::equals_datatype]. *)
Class TypeEquality := {
  equals_datatype : DataType → DataType → bool;
  equals_datatype_refl t : equals_datatype t t = true;
}.

(** * NULLs where the schema allows them *)

Definition null_ok (f : Field) : result unit RpcError :=
  if is_nullable f then Ok () else value_error "required catalog field is null".

Definition dictionary_index (key : DataType) : result unit RpcError :=
  match key with
  | Flat FInt16 | Flat FInt32 => Ok ()
  | _ => type_error "unsupported catalog dictionary index type"
  end.

(** [validate_value] of a value that is there; a map's value is the list of its
    entries.  Inside a value, a dictionary cell without a value is one without a
    key. *)
Fixpoint validate_some (v : value) (f : Field) {struct v} : result unit RpcError :=
  match data_type f, v with
  | Struct fs, VStruct l =>
      (fix go (l : list (option value)) (fs : list Field) : result unit RpcError :=
         match l, fs with
         | o :: l, g :: fs =>
             let? _ := match o with None => null_ok g | Some v => validate_some v g end in go l fs
         | _, _ => Ok ()
         end) l fs
  | (List g | Map g _), VList l =>
      (fix go (l : list (option value)) : result unit RpcError :=
         match l with
         | [] => Ok ()
         | o :: l => let? _ := match o with None => null_ok g | Some v => validate_some v g end in go l
         end) l
  | Dictionary k _, _ => dictionary_index k
  | _, _ => Ok ()
  end.

Definition validate_value (a : array) (f : Field) (row : nat) : result unit RpcError :=
  if is_null a row then null_ok f
  else
    match vals a !! row with
    | Some (Some v) => validate_some v f
    | _ =>
        match data_type f with
        | Dictionary k _ =>
            let? _ := dictionary_index k in
            if is_nullable f then Ok () else value_error "invalid catalog dictionary value"
        | _ => Ok ()
        end
    end.

Fixpoint validate_rows (a : array) (f : Field) (rows : list nat) : result unit RpcError :=
  match rows with
  | [] => Ok ()
  | r :: rows => let? _ := validate_value a f r in validate_rows a f rows
  end.

Fixpoint validate_columns (n : nat) (cols : list array) (fs : list Field) : result unit RpcError :=
  match cols, fs with
  | a :: cols, f :: fs => let? _ := validate_rows a f (seq 0 n) in validate_columns n cols fs
  | _, _ => Ok ()
  end.

(** * Records *)

(** The schema of a DTO and the batch [Vec::<T>::build_singleton] makes of many. *)
Class VgiRecords (T : Type) `{VgiArrow T} := {
  flat_schema : Schema;
  build_rows : list T → result RecordBatch RpcError;
}.
Arguments flat_schema T {_ _}.

(** What is built has the DTO's schema, NULLs only where it allows them, and its
    rows read back. *)
Class VgiRecordsLaws (T : Type) `{VgiRecords T} : Prop := {
  rows_built xs b : build_rows xs = Ok b →
    num_rows b = length xs ∧ arr_type <$> columns b = data_type <$> flat_schema T ∧
    validate_columns (num_rows b) (columns b) (flat_schema T) = Ok () ∧
    ∀ i x, xs !! i = Some x → read_row (read_as (flat_schema T) ∅ b) i = Ok x;
  singleton_built x b : build_singleton x = Ok b →
    schema b = flat_schema T ∧ schema_metadata b = ∅ ∧
    validate_columns (num_rows b) (columns b) (flat_schema T) = Ok ();
}.

(** * Encoding and decoding a collection *)

(** A key that would make the batch a pointer, a log line or an error. *)
Definition pointer_key (k : string) : bool :=
  String.prefix "vgi_rpc.location" k || String.prefix "vgi_rpc.log_" k || String.prefix "vgi_rpc.error_" k.
Definition has_pointer (md : metadata) : bool := existsb pointer_key (map_to_list md).*1.

Section collections.
Context `{IpcStream} `{RecordStream} `{TypeEquality}.

Section records.
Context {T : Type} `{VgiRecords T}.

(** The batches of the values, [batch_size] rows each. *)
Fixpoint build_batches (fuel : nat) (batch_size : nat) (values : list T) : result (list RecordBatch) RpcError :=
  match fuel, values with
  | _, [] => Ok []
  | O, _ => value_error "out of fuel"
  | S fuel, _ =>
      let? b := build_rows (take batch_size values) in
      let? bs := build_batches fuel batch_size (drop batch_size values) in
      Ok (b :: bs)
  end.

(** [RpcError::from] an Arrow error. *)
Definition arrow_error (e : WriteError) : RpcError :=
  match e with AtNew m | AtWrite m | AtFinish m => RuntimeError m end.

(** The values are built before the stream is written; the source alternates, so
    when both fail it may report the other error. *)
Definition encode_collection_with_batch_size (values : list T) (batch_size : nat) :
    result (option bytes) RpcError :=
  if (batch_size =? 0)%nat then value_error "catalog batch size must be positive"
  else
    match values with
    | [] => Ok None
    | _ =>
        let? batches := build_batches (length values) batch_size values in
        let? out := map_err arrow_error (write_stream (flat_schema T) ∅ batches) in
        Ok (Some out)
    end.
Definition encode_collection (values : list T) : result (option bytes) RpcError :=
  encode_collection_with_batch_size values 1024.

Definition same_column (a b : Field) : bool :=
  String.eqb (name a) (name b) && equals_datatype (data_type a) (data_type b).
Fixpoint same_columns (declared expected : Schema) : bool :=
  match declared, expected with
  | [], [] => true
  | a :: declared, b :: expected => same_column a b && same_columns declared expected
  | _, _ => false
  end.

Fixpoint read_rows (b : RecordBatch) (rows : list nat) : result (list T) RpcError :=
  match rows with
  | [] => Ok []
  | r :: rows => let? x := read_row b r in let? xs := read_rows b rows in Ok (x :: xs)
  end.

Fixpoint decode_batches (items : list (RecordBatch * metadata)) (end_ : result nat RpcError) (size : nat) :
    result (list T) RpcError :=
  match items with
  | [] =>
      let? position := end_ in
      if (position =? size)%nat then Ok [] else value_error "trailing catalog metadata bytes"
  | (batch, md) :: items =>
      if has_pointer md then value_error "nested metadata cannot contain external pointers"
      else
        let? _ := validate_columns (num_rows batch) (columns batch) (flat_schema T) in
        let? rows := read_rows batch (seq 0 (num_rows batch)) in
        let? more := decode_batches items end_ size in
        Ok (rows ++ more)
  end.

Definition decode_collection (bs : option bytes) : result (list T) RpcError :=
  match bs with
  | None => Ok []
  | Some bs =>
      let? declared := read_schema bs in
      if negb (same_columns declared.1 (flat_schema T))
      then type_error ("catalog collection schema does not match " +:+ describe_name T)
      else
        let? reader := open_records true bs in
        decode_batches (rec_items reader) (rec_end reader) (length bs)
  end.

Fixpoint decode_all (items : list bytes) : result (list T) RpcError :=
  match items with
  | [] => Ok []
  | i :: items => let? xs := decode_collection (Some i) in let? ys := decode_all items in Ok (xs ++ ys)
  end.
Definition merge_items (items : list bytes) : result (option bytes) RpcError :=
  let? records := decode_all items in encode_collection records.

Definition item (x : T) : result bytes RpcError := let? b := to_batch x in write_batch b.
End records.
Arguments merge_items T {_ _}.
Arguments decode_collection T {_ _}.
Arguments decode_all T {_ _}.

(** * Grouping by schema *)

(** The schema a row belongs to (of a [SchemaInfo], the schema it is), and the
    kind of a function or macro. *)
Class CatalogRow (T : Type) := { schema_path : T → list string }.
Class KindedRow (T : Type) := { row_kind : T → string }.

Definition set_schema_items (e : SchemaContents) (t v s a f sm tm x : list bytes) : SchemaContents :=
  mkContents (sc_path e) (sc_schema e) t v s a f sm tm x.
Definition push_table (b : bytes) (e : SchemaContents) : SchemaContents :=
  set_schema_items e (sc_tables e ++ [b]) (sc_views e) (scalar_functions e) (aggregate_functions e)
    (table_functions e) (scalar_macros e) (table_macros e) (indexes e).
Definition push_view (b : bytes) (e : SchemaContents) : SchemaContents :=
  set_schema_items e (sc_tables e) (sc_views e ++ [b]) (scalar_functions e) (aggregate_functions e)
    (table_functions e) (scalar_macros e) (table_macros e) (indexes e).
Definition push_scalar_function (b : bytes) (e : SchemaContents) : SchemaContents :=
  set_schema_items e (sc_tables e) (sc_views e) (scalar_functions e ++ [b]) (aggregate_functions e)
    (table_functions e) (scalar_macros e) (table_macros e) (indexes e).
Definition push_aggregate_function (b : bytes) (e : SchemaContents) : SchemaContents :=
  set_schema_items e (sc_tables e) (sc_views e) (scalar_functions e) (aggregate_functions e ++ [b])
    (table_functions e) (scalar_macros e) (table_macros e) (indexes e).
Definition push_table_function (b : bytes) (e : SchemaContents) : SchemaContents :=
  set_schema_items e (sc_tables e) (sc_views e) (scalar_functions e) (aggregate_functions e)
    (table_functions e ++ [b]) (scalar_macros e) (table_macros e) (indexes e).
Definition push_scalar_macro (b : bytes) (e : SchemaContents) : SchemaContents :=
  set_schema_items e (sc_tables e) (sc_views e) (scalar_functions e) (aggregate_functions e)
    (table_functions e) (scalar_macros e ++ [b]) (table_macros e) (indexes e).
Definition push_table_macro (b : bytes) (e : SchemaContents) : SchemaContents :=
  set_schema_items e (sc_tables e) (sc_views e) (scalar_functions e) (aggregate_functions e)
    (table_functions e) (scalar_macros e) (table_macros e ++ [b]) (indexes e).
Definition push_index (b : bytes) (e : SchemaContents) : SchemaContents :=
  set_schema_items e (sc_tables e) (sc_views e) (scalar_functions e) (aggregate_functions e)
    (table_functions e) (scalar_macros e) (table_macros e) (indexes e ++ [b]).

(** Where a row of each category is pushed. *)
Definition push : Type := bytes → SchemaContents → SchemaContents.
Definition function_slot {T} `{KindedRow T} (row : T) : result push RpcError :=
  let kind := row_kind row in
  if bool_decide (kind ∈ ["SCALAR"; "scalar"; "SCALAR_FUNCTION"]) then Ok push_scalar_function
  else if bool_decide (kind ∈ ["AGGREGATE"; "aggregate"; "AGGREGATE_FUNCTION"]) then Ok push_aggregate_function
  else if bool_decide (kind ∈ ["TABLE"; "TABLE_BUFFERING"; "table"; "table_buffering"; "table_in_out"; "TABLE_FUNCTION"])
  then Ok push_table_function
  else type_error ("unsupported catalog function type " +:+ kind).
Definition macro_slot {T} `{KindedRow T} (row : T) : result push RpcError :=
  let kind := row_kind row in
  if bool_decide (kind ∈ ["SCALAR"; "scalar"; "SCALAR_MACRO"]) then Ok push_scalar_macro
  else if bool_decide (kind ∈ ["TABLE"; "table"; "TABLE_MACRO"]) then Ok push_table_macro
  else type_error ("unsupported catalog macro type " +:+ kind).

Section rows.
Context {T : Type} `{VgiRecords T} `{CatalogRow T}.

(** The loop over the rows of one category. *)
Fixpoint place (slot : T → result push RpcError) (paths : gmap (list string) nat) (rows : list T)
    (schemas : list SchemaContents) : result (list SchemaContents) RpcError :=
  match rows with
  | [] => Ok schemas
  | row :: rows =>
      match paths !! schema_path row with
      | None => type_error "catalog object refers to absent schema"
      | Some index =>
          let? add := slot row in
          let? b := item row in
          place slot paths rows (alter (add b) index schemas)
      end
  end.

(** The loop over the schemas. *)
Fixpoint open_schemas (rows : list T) (paths : gmap (list string) nat) (schemas : list SchemaContents) :
    result (gmap (list string) nat * list SchemaContents) RpcError :=
  match rows with
  | [] => Ok (paths, schemas)
  | info :: rows =>
      let path := schema_path info in
      if bool_decide (path = []) || bool_decide ("" ∈ path) || bool_decide (is_Some (paths !! path))
      then type_error "catalog contains empty or duplicate schema path"
      else if bool_decide (1 < length path)%nat && negb (bool_decide (is_Some (paths !! parent path)))
      then type_error "catalog schema parent missing or out of order"
      else
        let? b := item info in
        open_schemas rows (<[path := length schemas]> paths)
          (schemas ++ [mkContents path b [] [] [] [] [] [] [] []])
  end.
End rows.

Section contents.
Context (SchemaInfo TableInfo ViewInfo FunctionInfo MacroInfo IndexInfo : Type).
Context `{VgiRecords SchemaInfo} `{VgiRecords TableInfo} `{VgiRecords ViewInfo} `{VgiRecords FunctionInfo}
  `{VgiRecords MacroInfo} `{VgiRecords IndexInfo}.
Context `{CatalogRow SchemaInfo} `{CatalogRow TableInfo} `{CatalogRow ViewInfo} `{CatalogRow FunctionInfo}
  `{CatalogRow MacroInfo} `{CatalogRow IndexInfo}.
Context `{KindedRow FunctionInfo} `{KindedRow MacroInfo}.

Definition schema_contents (r : CatalogContentsResponse) : result (list SchemaContents) RpcError :=
  if not_modified r then
    if existsb (@is_some bytes) (streams r) || negb (is_some (etag r))
    then type_error "not_modified requires an ETag and six null streams"
    else Ok []
  else
    let stream i := mjoin (streams r !! i) in
    let? infos := decode_collection SchemaInfo (stream 0%nat) in
    let? opened := open_schemas infos ∅ [] in
    let '(paths, schemas) := opened in
    let? tables := decode_collection TableInfo (stream 1%nat) in
    let? schemas := place (λ _, Ok push_table) paths tables schemas in
    let? views := decode_collection ViewInfo (stream 2%nat) in
    let? schemas := place (λ _, Ok push_view) paths views schemas in
    let? functions := decode_collection FunctionInfo (stream 3%nat) in
    let? schemas := place function_slot paths functions schemas in
    let? macros := decode_collection MacroInfo (stream 4%nat) in
    let? schemas := place macro_slot paths macros schemas in
    let? idx := decode_collection IndexInfo (stream 5%nat) in
    place (λ _, Ok push_index) paths idx schemas.

(** The codec [catalog_contents] shapes its responses with. *)
Definition collections_codec : ItemCodec := {|
  merge kind :=
    match kind with
    | KSchema => merge_items SchemaInfo
    | KTable => merge_items TableInfo
    | KView => merge_items ViewInfo
    | KFunction => merge_items FunctionInfo
    | KMacro => merge_items MacroInfo
    | KIndex => merge_items IndexInfo
    end;
  schema_info_path b :=
    let? batch := read_batch b in
    let? info := from_batch (T := SchemaInfo) batch in
    Ok (schema_path info);
|}.
End contents.
End collections.
