(* ===== verification/CatalogCollectionsFacts.v ===== *)
(** What [CatalogCollections] promises: a collection reads back as the records it
    was made of, and the client's view of a [catalog_contents] response is the
    snapshot the worker shaped it from. *)
From S2P Require Import Prelude Codec SqlCompare Arrow Ipc Wire CatalogContents CatalogCollections.

Open Scope nat_scope.

Section facts.
Context `{RecordStreamLaws} `{TypeEquality}.

Lemma same_columns_refl s : same_columns s s = true.
Proof.
  induction s as [|f s IH]; [done|]. cbn. unfold same_column. by rewrite String.eqb_refl, equals_datatype_refl, IH.
Qed.

Lemma no_pointer : has_pointer ∅ = false.
Proof. done. Qed.

Lemma list_alter_twice {A} (f g : A → A) i (l : list A) : alter g i (alter f i l) = alter (g ∘ f) i l.
Proof. revert i. induction l as [|a l IH]; intros [|i]; [done..|]. by apply (f_equal (cons a)), IH. Qed.

(** * One collection *)

Section records.
Context {T : Type} `{VgiRecords T} `{!VgiArrowLaws T} `{!VgiRecordsLaws T}.

Lemma read_rows_all b (xs : list T) k :
  (∀ i x, xs !! i = Some x → read_row b (k + i) = Ok x) → read_rows b (seq k (length xs)) = Ok xs.
Proof.
  revert k. induction xs as [|x xs IH]; intros k Hr; [done|]. cbn [length seq read_rows].
  assert (read_row b k = Ok x) as -> by (rewrite <- (Nat.add_0_r k) at 1; by apply Hr).
  rewrite IH; [done|]. intros i y Hi. rewrite Nat.add_succ_comm. by apply Hr.
Qed.

(** A batch that holds the rows [xs] of [T]. *)
Record holds_rows (b : RecordBatch) (xs : list T) : Prop := {
  hr_rows : num_rows b = length xs;
  hr_types : arr_type <$> columns b = data_type <$> flat_schema T;
  hr_valid : validate_columns (num_rows b) (columns b) (flat_schema T) = Ok ();
  hr_read i x : xs !! i = Some x → read_row (read_as (flat_schema T) ∅ b) i = Ok x;
}.

Lemma build_rows_holds xs b : build_rows xs = Ok b → holds_rows b xs.
Proof. intros (? & ? & ? & ?)%rows_built. by split. Qed.

Lemma decode_batches_holds bs xss size : Forall2 holds_rows bs xss →
  decode_batches ((λ b, (read_as (flat_schema T) ∅ b, ∅)) <$> bs) (Ok size) size = Ok (concat xss).
Proof.
  induction 1 as [|b xs bs xss Hb _ IH]; cbn -[has_pointer]; [by rewrite Nat.eqb_refl|].
  rewrite no_pointer, (hr_valid _ _ Hb), (hr_rows _ _ Hb), IH.
  rewrite read_rows_all; [done|]. intros i x Hi. by apply (hr_read _ _ Hb).
Qed.

Lemma decode_written bs xss out : Forall2 holds_rows bs xss →
  write_stream (flat_schema T) ∅ bs = Ok out → decode_collection (Some out) = Ok (concat xss).
Proof.
  intros Hb Hw. destruct (records_written _ _ _ _ Hw) as [[first Ho] Hr].
  { clear Hw. induction Hb as [|b xs bs xss Hb _ IH]; constructor; [apply (hr_types _ _ Hb)|done]. }
  unfold decode_collection, read_schema. rewrite Ho. cbn [reader_schema reader_metadata fst].
  rewrite same_columns_refl, Hr. by apply decode_batches_holds.
Qed.

Lemma build_batches_holds fuel n xs bs : 0 < n → build_batches fuel n xs = Ok bs →
  ∃ xss, concat xss = xs ∧ Forall2 holds_rows bs xss.
Proof.
  intros Hn. revert xs bs. induction fuel as [|fuel IH]; intros [|x xs] bs; cbn [build_batches]; try done;
    try (intros [= <-]; exists []; by split).
  destruct (build_rows _) as [b|] eqn:Eb; [|done].
  destruct (build_batches _ _ _) as [bs'|] eqn:Ebs; [|done]. intros [= <-].
  destruct (IH _ _ Ebs) as (xss & Hc & Hf). exists (take n (x :: xs) :: xss). split.
  - cbn [concat]. by rewrite Hc, take_drop.
  - constructor; [by apply build_rows_holds|done].
Qed.

(** The batches are built: fuel is enough. *)
Lemma build_batches_total n xs : 0 < n → (∀ ys, ∃ b, build_rows ys = Ok b) →
  ∀ fuel, length xs ≤ fuel → ∃ bs, build_batches fuel n xs = Ok bs.
Proof.
  intros Hn Hb fuel. revert xs. induction fuel as [|fuel IH]; intros [|x xs] Hl; cbn [build_batches]; eauto; [cbn in Hl; lia|].
  destruct (Hb (take n (x :: xs))) as [b ->].
  destruct (IH (drop n (x :: xs))) as [bs ->]; [rewrite length_drop; cbn in *; lia|]. eauto.
Qed.

Lemma encode_decode_collection n xs o :
  encode_collection_with_batch_size xs n = Ok o → decode_collection o = Ok xs.
Proof.
  unfold encode_collection_with_batch_size. destruct (Nat.eqb_spec n 0) as [|Hn]; [done|].
  destruct xs as [|x xs]; [by intros [= <-]|].
  destruct (build_batches _ _ _) as [bs|] eqn:Eb; [|done].
  destruct (map_err _ _) as [out|] eqn:Ew; [|done]. intros [= <-]. apply map_err_Ok in Ew.
  apply build_batches_holds in Eb as (xss & <- & Hf); [|lia]. by eapply decode_written.
Qed.

Lemma decode_item x b : item x = Ok b → decode_collection (Some b) = Ok [x].
Proof.
  unfold item, to_batch, write_batch, write_batch_with_schema. destruct (build_singleton x) as [rb|] eqn:Eb; [|done].
  intros Hw%map_err_Ok. destruct (built _ _ Eb) as (Hn & Ht & Hr). destruct (singleton_built _ _ Eb) as (Hs & Hm & Hv).
  rewrite Hs, Hm in Hw. change [x] with (concat [[x]]). eapply decode_written; [|exact Hw].
  repeat constructor; [done|by rewrite <- Hs|done|]. intros [|i] y Hy; [|done]. injection Hy as <-.
  unfold relay in Hr. by rewrite Hs, Hm in Hr.
Qed.

Notation items := (Forall2 (λ x b, item (T := T) x = Ok b)).

Lemma decode_all_items xs bs : items xs bs → decode_all bs = Ok xs.
Proof. induction 1 as [|x b xs bs Hx _ IH]; [done|]. cbn [decode_all]. by rewrite (decode_item _ _ Hx), IH. Qed.

Lemma merge_items_decode xs bs o : items xs bs → merge_items bs = Ok o → decode_collection o = Ok xs.
Proof.
  intros Hi. unfold merge_items. rewrite (decode_all_items _ _ Hi). apply encode_decode_collection.
Qed.

(** * Placing rows *)

Context `{CatalogRow T}.

(** Rows of one schema, pushed to the same list of it. *)
Lemma place_one (slot : T → result push RpcError) paths add rows bs i schemas more :
  items rows bs → Forall (λ r, paths !! schema_path r = Some i ∧ slot r = Ok add) rows →
  place slot paths (rows ++ more) schemas = place slot paths more (alter (λ e, foldl (λ e b, add b e) e bs) i schemas).
Proof.
  intros Hi. revert schemas. induction Hi as [|r b rows bs Hr _ IH]; intros schemas Hf.
  - cbn. f_equal. rewrite list_alter_id; [done|]. by intros.
  - apply Forall_cons in Hf as [[Hp Hs] Hf]. cbn [app place]. rewrite Hp, Hs, Hr, IH by done.
    f_equal. by rewrite list_alter_twice.
Qed.

(** Rows of many schemas: each schema changes by the effect of its own rows. *)
Lemma place_groups {G} (slot : T → result push RpcError) paths (rows : G → list T) (eff : G → SchemaContents → SchemaContents)
    gs pre todo : length todo = length gs →
  (∀ j g, gs !! j = Some g → ∀ schemas more, place slot paths (rows g ++ more) schemas =
     place slot paths more (alter (eff g) (length pre + j) schemas)) →
  place slot paths (gs ≫= rows) (pre ++ todo) = Ok (pre ++ zip_with eff gs todo).
Proof.
  revert pre todo. induction gs as [|g gs IH]; intros pre [|e todo] Hl Hp; try done.
  cbn [mbind list_bind zip_with]. rewrite (Hp 0 g eq_refl), alter_app_r. change (alter (eff g) 0 (e :: todo)) with (eff g e :: todo).
  rewrite (cons_middle _ pre), app_assoc, IH; [by rewrite <- app_assoc|cbn in Hl; lia|].
  intros j g' Hj schemas more. rewrite length_app, <- Nat.add_assoc. by apply (Hp (S j)).
Qed.
End records.

(** * Snapshots *)

Section snapshots.
Context (SchemaInfo TableInfo ViewInfo FunctionInfo MacroInfo IndexInfo : Type).
Context `{VgiRecords SchemaInfo} `{VgiRecords TableInfo} `{VgiRecords ViewInfo} `{VgiRecords FunctionInfo}
  `{VgiRecords MacroInfo} `{VgiRecords IndexInfo}.
Context `{CatalogRow SchemaInfo} `{CatalogRow TableInfo} `{CatalogRow ViewInfo} `{CatalogRow FunctionInfo}
  `{CatalogRow MacroInfo} `{CatalogRow IndexInfo}.
Context `{KindedRow FunctionInfo} `{KindedRow MacroInfo}.

(** A schema and what is in it. *)
Record Group := mkGroup {
  g_info : SchemaInfo;
  g_tables : list TableInfo;
  g_views : list ViewInfo;
  g_scalars : list FunctionInfo;
  g_aggregates : list FunctionInfo;
  g_table_functions : list FunctionInfo;
  g_scalar_macros : list MacroInfo;
  g_table_macros : list MacroInfo;
  g_indexes : list IndexInfo;
}.
Definition g_functions (g : Group) : list FunctionInfo := g_scalars g ++ g_aggregates g ++ g_table_functions g.
Definition g_macros (g : Group) : list MacroInfo := g_scalar_macros g ++ g_table_macros g.
Definition g_path (g : Group) : list string := schema_path (g_info g).

Definition in_schema {T} `{CatalogRow T} (p : list string) (rows : list T) : Prop :=
  Forall (λ r, schema_path r = p) rows.
Definition kind_in {T} `{KindedRow T} (kinds : list string) (rows : list T) : Prop :=
  Forall (λ r, row_kind r ∈ kinds) rows.

(** Everything in a schema names it, and functions and macros are listed under
    their kind. *)
Record group_ok (g : Group) : Prop := {
  go_path : g_path g ≠ [] ∧ "" ∉ g_path g;
  go_tables : in_schema (g_path g) (g_tables g);
  go_views : in_schema (g_path g) (g_views g);
  go_functions : in_schema (g_path g) (g_functions g);
  go_macros : in_schema (g_path g) (g_macros g);
  go_indexes : in_schema (g_path g) (g_indexes g);
  go_scalar : kind_in ["SCALAR"; "scalar"; "SCALAR_FUNCTION"] (g_scalars g);
  go_aggregate : kind_in ["AGGREGATE"; "aggregate"; "AGGREGATE_FUNCTION"] (g_aggregates g);
  go_table : kind_in ["TABLE"; "TABLE_BUFFERING"; "table"; "table_buffering"; "table_in_out"; "TABLE_FUNCTION"]
    (g_table_functions g);
  go_scalar_macro : kind_in ["SCALAR"; "scalar"; "SCALAR_MACRO"] (g_scalar_macros g);
  go_table_macro : kind_in ["TABLE"; "table"; "TABLE_MACRO"] (g_table_macros g);
}.

(** The author's snapshot entry of a schema: its records as items. *)
Notation items := (Forall2 (λ x b, item x = Ok b)).
Record encodes (g : Group) (e : SchemaContents) : Prop := {
  en_path : sc_path e = g_path g;
  en_schema : item (g_info g) = Ok (sc_schema e);
  en_tables : items (g_tables g) (sc_tables e);
  en_views : items (g_views g) (sc_views e);
  en_scalars : items (g_scalars g) (scalar_functions e);
  en_aggregates : items (g_aggregates g) (aggregate_functions e);
  en_table_functions : items (g_table_functions g) (table_functions e);
  en_scalar_macros : items (g_scalar_macros g) (scalar_macros e);
  en_table_macros : items (g_table_macros g) (table_macros e);
  en_indexes : items (g_indexes g) (indexes e);
}.

(** ** Pushing many items *)

Definition push_all (add : push) (bs : list bytes) (e : SchemaContents) : SchemaContents :=
  foldl (λ e b, add b e) e bs.
Definition functions_effect (e' e : SchemaContents) : SchemaContents :=
  push_all push_table_function (table_functions e')
    (push_all push_aggregate_function (aggregate_functions e')
       (push_all push_scalar_function (scalar_functions e') e)).
Definition macros_effect (e' e : SchemaContents) : SchemaContents :=
  push_all push_table_macro (table_macros e') (push_all push_scalar_macro (scalar_macros e') e).

Ltac pushes bs :=
  let IH := fresh in unfold push_all;
  induction bs as [|? bs IH] using rev_ind; [by rewrite app_nil_r|];
  by rewrite foldl_app, IH, app_assoc.

Lemma push_all_table bs p s t v a b c d e f : push_all push_table bs (mkContents p s t v a b c d e f) = mkContents p s (t ++ bs) v a b c d e f.
Proof. pushes bs. Qed.
Lemma push_all_view bs p s t v a b c d e f : push_all push_view bs (mkContents p s t v a b c d e f) = mkContents p s t (v ++ bs) a b c d e f.
Proof. pushes bs. Qed.
Lemma push_all_scalar_function bs p s t v a b c d e f :
  push_all push_scalar_function bs (mkContents p s t v a b c d e f) = mkContents p s t v (a ++ bs) b c d e f.
Proof. pushes bs. Qed.
Lemma push_all_aggregate_function bs p s t v a b c d e f :
  push_all push_aggregate_function bs (mkContents p s t v a b c d e f) = mkContents p s t v a (b ++ bs) c d e f.
Proof. pushes bs. Qed.
Lemma push_all_table_function bs p s t v a b c d e f :
  push_all push_table_function bs (mkContents p s t v a b c d e f) = mkContents p s t v a b (c ++ bs) d e f.
Proof. pushes bs. Qed.
Lemma push_all_scalar_macro bs p s t v a b c d e f :
  push_all push_scalar_macro bs (mkContents p s t v a b c d e f) = mkContents p s t v a b c (d ++ bs) e f.
Proof. pushes bs. Qed.
Lemma push_all_table_macro bs p s t v a b c d e f :
  push_all push_table_macro bs (mkContents p s t v a b c d e f) = mkContents p s t v a b c d (e ++ bs) f.
Proof. pushes bs. Qed.
Lemma push_all_index bs p s t v a b c d e f :
  push_all push_index bs (mkContents p s t v a b c d e f) = mkContents p s t v a b c d e (f ++ bs).
Proof. pushes bs. Qed.

Definition bare (e : SchemaContents) : SchemaContents := mkContents (sc_path e) (sc_schema e) [] [] [] [] [] [] [] [].

(** All the pushes of its rows rebuild an entry. *)
Lemma pushes_rebuild e :
  push_all push_index (indexes e) (macros_effect e (functions_effect e
    (push_all push_view (sc_views e) (push_all push_table (sc_tables e) (bare e))))) = e.
Proof.
  unfold macros_effect, functions_effect, bare.
  by rewrite push_all_table, push_all_view, push_all_scalar_function, push_all_aggregate_function,
    push_all_table_function, push_all_scalar_macro, push_all_table_macro, push_all_index; destruct e.
Qed.

(** ** The schemas *)

(** [paths] finds the entry of each path. *)
Definition finds (paths : gmap (list string) nat) (l : list SchemaContents) : Prop :=
  ∀ p i, paths !! p = Some i ↔ (sc_path <$> l) !! i = Some p.

Lemma finds_snoc paths l e : finds paths l → sc_path e ∉ sc_path <$> l →
  finds (<[sc_path e := length l]> paths) (l ++ [e]).
Proof.
  intros Hf Hn p i. rewrite fmap_app, lookup_app, length_fmap.
  destruct (decide (p = sc_path e)) as [->|Hp].
  - rewrite lookup_insert_eq. destruct ((sc_path <$> l) !! i) as [q|] eqn:E.
    + pose proof (lookup_lt_Some _ _ _ E) as Hlt. rewrite length_fmap in Hlt. split; intros [= Heq]; [lia|subst q].
      by destruct Hn; apply list_elem_of_lookup_2 with i.
    + apply lookup_ge_None in E. rewrite length_fmap in E. split; [intros [= <-]; by rewrite Nat.sub_diag|].
      intros Hi%lookup_lt_Some. cbn in Hi. f_equal. lia.
  - rewrite lookup_insert_ne by done. rewrite (Hf p i). destruct ((sc_path <$> l) !! i) as [q|] eqn:E; [done|].
    split; [done|]. intros Hi. destruct (i - length l) as [|k] eqn:Ek; cbn in Hi; [congruence|done].
Qed.

Lemma open_schemas_spec gs es : Forall2 encodes gs es → Forall group_ok gs → ∀ done paths,
  finds paths done → NoDup (sc_path <$> (done ++ es)) → parents_first (done ++ es) →
  ∃ paths', open_schemas (g_info <$> gs) paths (bare <$> done) = Ok (paths', bare <$> (done ++ es)) ∧
    finds paths' (done ++ es).
Proof.
  induction 1 as [|g e gs es Hg _ IH]; intros Hok done paths Hf Hn Hp.
  { rewrite app_nil_r. by exists paths. }
  apply Forall_cons in Hok as [Ho Hok]. destruct (go_path g Ho) as [Hne Hem].
  assert (Hnew : sc_path e ∉ sc_path <$> done).
  { rewrite fmap_app, NoDup_app in Hn. intros Hin. destruct Hn as (_ & Hd & _). apply (Hd _ Hin). left. }
  cbn [fmap list_fmap open_schemas]. fold (g_path g). rewrite <- (en_path g e Hg) in *.
  rewrite (bool_decide_false (sc_path e = [])), (bool_decide_false ("" ∈ sc_path e)) by done.
  rewrite (bool_decide_false (is_Some (paths !! sc_path e))).
  2: { intros [i Hi%Hf]. by apply Hnew, list_elem_of_lookup_2 with i. }
  cbn [orb]. assert (bool_decide (1 < length (sc_path e)) && negb (bool_decide (is_Some (paths !! parent (sc_path e)))) = false) as ->.
  { destruct (decide (1 < length (sc_path e))) as [Hlen|Hlen]; [|by rewrite (bool_decide_false _ Hlen)].
    apply andb_false_intro2, negb_false_iff, bool_decide_true.
    destruct (Hp (length done) e) as (j & e' & Hj & He' & Hpar); [by rewrite list_lookup_middle| |].
    - unfold parent. intros Hl%(f_equal length). rewrite length_take in Hl. cbn in Hl. lia.
    - exists j. apply Hf. rewrite lookup_app_l in He' by done. rewrite list_lookup_fmap, He'. cbn. by rewrite Hpar. }
  rewrite (en_schema g e Hg), length_fmap. specialize (IH Hok (done ++ [e]) (<[sc_path e := length done]> paths)).
  rewrite <- app_assoc, (fmap_app bare) in IH. by apply IH; [apply finds_snoc|..].
Qed.

(** ** The rows *)

Lemma function_slot_scalar (r : FunctionInfo) :
  row_kind r ∈ ["SCALAR"; "scalar"; "SCALAR_FUNCTION"] → function_slot r = Ok push_scalar_function.
Proof. intros Hk. unfold function_slot. by rewrite bool_decide_true. Qed.
Lemma function_slot_aggregate (r : FunctionInfo) :
  row_kind r ∈ ["AGGREGATE"; "aggregate"; "AGGREGATE_FUNCTION"] → function_slot r = Ok push_aggregate_function.
Proof.
  intros Hk. unfold function_slot. rewrite bool_decide_false, bool_decide_true; [done|done|].
  intros Hs. set_unfold. naive_solver congruence.
Qed.
Lemma function_slot_table (r : FunctionInfo) :
  row_kind r ∈ ["TABLE"; "TABLE_BUFFERING"; "table"; "table_buffering"; "table_in_out"; "TABLE_FUNCTION"] →
  function_slot r = Ok push_table_function.
Proof.
  intros Hk. unfold function_slot. rewrite bool_decide_false, bool_decide_false, bool_decide_true; [done|done|..];
    intros Hs; set_unfold; naive_solver congruence.
Qed.
Lemma macro_slot_scalar (r : MacroInfo) : row_kind r ∈ ["SCALAR"; "scalar"; "SCALAR_MACRO"] → macro_slot r = Ok push_scalar_macro.
Proof. intros Hk. unfold macro_slot. by rewrite bool_decide_true. Qed.
Lemma macro_slot_table (r : MacroInfo) : row_kind r ∈ ["TABLE"; "table"; "TABLE_MACRO"] → macro_slot r = Ok push_table_macro.
Proof.
  intros Hk. unfold macro_slot. rewrite bool_decide_false, bool_decide_true; [done|done|].
  intros Hs. set_unfold. naive_solver congruence.
Qed.

(** Rows of one schema that go to one list. *)
Lemma placed {T} `{VgiRecords T} `{CatalogRow T} `{!VgiArrowLaws T} `{!VgiRecordsLaws T} (slot : T → result push RpcError)
    paths p i add rows bs more schemas : paths !! p = Some i → items rows bs → in_schema p rows →
  Forall (λ r, slot r = Ok add) rows →
  place slot paths (rows ++ more) schemas = place slot paths more (alter (push_all add bs) i schemas).
Proof.
  intros Hi Hit Hin Hs. unfold push_all. eapply place_one; [done|]. unfold in_schema in Hin. rewrite Forall_forall in *.
  intros r Hr. rewrite (Hin r Hr). by auto.
Qed.

(** ** Reading a response back *)

Context `{!VgiArrowLaws SchemaInfo, !VgiArrowLaws TableInfo, !VgiArrowLaws ViewInfo, !VgiArrowLaws FunctionInfo,
  !VgiArrowLaws MacroInfo, !VgiArrowLaws IndexInfo}.
Context `{!VgiRecordsLaws SchemaInfo, !VgiRecordsLaws TableInfo, !VgiRecordsLaws ViewInfo, !VgiRecordsLaws FunctionInfo,
  !VgiRecordsLaws MacroInfo, !VgiRecordsLaws IndexInfo}.

(** An entry with the records it holds. *)
Notation entry := (Group * SchemaContents)%type.
Definition entry_ok (p : entry) : Prop := group_ok p.1 ∧ encodes p.1 p.2.

Lemma items_bind {T} `{VgiRecords T} (rows : entry → list T) (bytes_of : SchemaContents → list bytes) (ps : list entry) :
  Forall (λ p, items (rows p) (bytes_of p.2)) ps → items (ps ≫= rows) (ps.*2 ≫= bytes_of).
Proof. induction 1 as [|p ps Hp _ IH]; cbn; [constructor|]. by apply Forall2_app. Qed.

Lemma stage {T} `{VgiRecords T} `{CatalogRow T} (slot : T → result push RpcError) paths (rows : entry → list T)
    (eff : entry → SchemaContents → SchemaContents) (f : entry → SchemaContents) ps :
  finds paths ps.*2 →
  (∀ p i, p ∈ ps → paths !! sc_path p.2 = Some i → ∀ schemas more,
     place slot paths (rows p ++ more) schemas = place slot paths more (alter (eff p) i schemas)) →
  place slot paths (ps ≫= rows) (f <$> ps) = Ok ((λ p, eff p (f p)) <$> ps).
Proof.
  intros Hf Hp. rewrite <- (app_nil_l (f <$> ps)). rewrite (place_groups _ _ _ eff); [..|].
  - cbn [app]. f_equal. clear. induction ps as [|p ps IH]; cbn; [done|]. by f_equal.
  - by rewrite length_fmap.
  - intros j p Hj. apply Hp; [by eapply list_elem_of_lookup_2|]. apply Hf. cbn. by rewrite !list_lookup_fmap, Hj.
Qed.

Section stages.
Variables (paths : gmap (list string) nat) (ps : list entry) (f : entry → SchemaContents).
Hypothesis (Hok : Forall entry_ok ps).
Hypothesis (Hf : finds paths ps.*2).

Lemma entry_of p : p ∈ ps → group_ok p.1 ∧ encodes p.1 p.2.
Proof. rewrite Forall_forall in Hok. apply Hok. Qed.

(** A category whose rows all go to one list. *)
Lemma stage_single {T} `{VgiRecords T} `{CatalogRow T} `{!VgiArrowLaws T} `{!VgiRecordsLaws T}
    (add : push) (rows : Group → list T) (bytes_of : SchemaContents → list bytes) :
  (∀ g, group_ok g → in_schema (g_path g) (rows g)) → (∀ g e, encodes g e → items (rows g) (bytes_of e)) →
  place (λ _, Ok add) paths (ps ≫= λ p, rows p.1) (f <$> ps) =
  Ok ((λ p, push_all add (bytes_of p.2) (f p)) <$> ps).
Proof.
  intros Hin Hit. apply (stage _ _ _ (λ p, push_all add (bytes_of p.2)) f ps Hf).
  intros p i [Hg He]%entry_of Hi schemas more. eapply placed; [exact Hi|by apply Hit| |by apply Forall_true].
  rewrite (en_path _ _ He). by apply Hin.
Qed.

Lemma stage_functions :
  place function_slot paths (ps ≫= λ p, g_functions p.1) (f <$> ps) =
  Ok ((λ p, functions_effect p.2 (f p)) <$> ps).
Proof.
  apply (stage _ _ _ (λ p, functions_effect p.2) f ps Hf). intros p i [Hg He]%entry_of Hi schemas more.
  pose proof (go_functions _ Hg) as Hin. unfold g_functions, in_schema in *. rewrite <- (en_path _ _ He) in Hin.
  apply Forall_app in Hin as [Hin1 [Hin2 Hin3]%Forall_app]. rewrite <- !app_assoc.
  rewrite (placed _ _ _ _ push_scalar_function _ _ _ _ Hi (en_scalars _ _ He) Hin1);
    [|eapply Forall_impl; [exact (go_scalar _ Hg)|exact function_slot_scalar]].
  rewrite (placed _ _ _ _ push_aggregate_function _ _ _ _ Hi (en_aggregates _ _ He) Hin2);
    [|eapply Forall_impl; [exact (go_aggregate _ Hg)|exact function_slot_aggregate]].
  rewrite (placed _ _ _ _ push_table_function _ _ _ _ Hi (en_table_functions _ _ He) Hin3);
    [|eapply Forall_impl; [exact (go_table _ Hg)|exact function_slot_table]].
  by rewrite !list_alter_twice.
Qed.

Lemma stage_macros :
  place macro_slot paths (ps ≫= λ p, g_macros p.1) (f <$> ps) = Ok ((λ p, macros_effect p.2 (f p)) <$> ps).
Proof.
  apply (stage _ _ _ (λ p, macros_effect p.2) f ps Hf). intros p i [Hg He]%entry_of Hi schemas more.
  pose proof (go_macros _ Hg) as Hin. unfold g_macros, in_schema in *. rewrite <- (en_path _ _ He) in Hin.
  apply Forall_app in Hin as [Hin1 Hin2]. rewrite <- !app_assoc.
  rewrite (placed _ _ _ _ push_scalar_macro _ _ _ _ Hi (en_scalar_macros _ _ He) Hin1);
    [|eapply Forall_impl; [exact (go_scalar_macro _ Hg)|exact macro_slot_scalar]].
  rewrite (placed _ _ _ _ push_table_macro _ _ _ _ Hi (en_table_macros _ _ He) Hin2);
    [|eapply Forall_impl; [exact (go_table_macro _ Hg)|exact macro_slot_table]].
  by rewrite !list_alter_twice.
Qed.

(** What the merged stream of a category decodes to. *)
Lemma merged {T} `{VgiRecords T} `{!VgiArrowLaws T} `{!VgiRecordsLaws T} (rows : Group → list T)
    (bytes_of : SchemaContents → list bytes) o :
  (∀ g e, encodes g e → items (rows g) (bytes_of e)) → merge_items (T := T) (ps.*2 ≫= bytes_of) = Ok o →
  decode_collection (T := T) o = Ok (ps ≫= λ p, rows p.1).
Proof.
  intros Hit. apply merge_items_decode. apply (items_bind (λ p, rows p.1)). eapply Forall_impl; [exact Hok|].
  intros p [_ He]. by apply Hit.
Qed.
End stages.

Lemma encodes_functions g e : encodes g e →
  items (g_functions g) (scalar_functions e ++ aggregate_functions e ++ table_functions e).
Proof. intros He. unfold g_functions. repeat apply Forall2_app; apply He. Qed.
Lemma encodes_macros g e : encodes g e → items (g_macros g) (scalar_macros e ++ table_macros e).
Proof. intros He. unfold g_macros. repeat apply Forall2_app; apply He. Qed.

Lemma entries_schemas ps : Forall entry_ok ps → items (g_info <$> ps.*1) (sc_schema <$> ps.*2).
Proof. induction 1 as [|p ps [_ He] _ IH]; cbn; constructor; [apply He|done]. Qed.
Lemma entries_encode ps : Forall entry_ok ps → Forall2 encodes ps.*1 ps.*2.
Proof. induction 1 as [|p ps [_ He] _ IH]; cbn; by constructor. Qed.
Lemma entries_groups ps : Forall entry_ok ps → Forall group_ok ps.*1.
Proof. induction 1 as [|p ps [Hg _] _ IH]; cbn; by constructor. Qed.

Lemma from_contents_read v e ps r : Forall entry_ok ps → NoDup (sc_path <$> ps.*2) → parents_first ps.*2 →
  @from_schema_contents (collections_codec SchemaInfo TableInfo ViewInfo FunctionInfo MacroInfo IndexInfo) v e ps.*2 = Ok r →
  schema_contents SchemaInfo TableInfo ViewInfo FunctionInfo MacroInfo IndexInfo r = Ok ps.*2.
Proof.
  intros Hok Hn Hp. unfold from_schema_contents. cbn [merge collections_codec].
  destruct (merge_items (T := SchemaInfo) _) as [s0|] eqn:E0; [|done].
  destruct (merge_items (T := TableInfo) _) as [s1|] eqn:E1; [|done].
  destruct (merge_items (T := ViewInfo) _) as [s2|] eqn:E2; [|done].
  destruct (merge_items (T := FunctionInfo) _) as [s3|] eqn:E3; [|done].
  destruct (merge_items (T := MacroInfo) _) as [s4|] eqn:E4; [|done].
  destruct (merge_items (T := IndexInfo) _) as [s5|] eqn:E5; [|done]. intros [= <-].
  unfold schema_contents. cbn [not_modified streams lookup list_lookup mjoin option_join].
  rewrite (merge_items_decode _ _ _ (entries_schemas _ Hok) E0).
  destruct (open_schemas_spec ps.*1 ps.*2) with (done := @nil SchemaContents) (paths := (∅ : gmap (list string) nat))
    as (paths & Hopen & Hf); [..|done|done|].
  { by apply entries_encode. }
  { by apply entries_groups. }
  { intros p i. rewrite lookup_empty. by split; [done|intros Hi%list_elem_of_lookup_2%elem_of_nil]. }
  cbn [app] in Hopen, Hf. rewrite fmap_nil in Hopen. rewrite Hopen. cbv beta iota zeta.
  rewrite (merged ps Hok g_tables sc_tables _ en_tables E1), <- list_fmap_compose. cbv beta iota.
  rewrite (stage_single paths ps _ Hok Hf push_table g_tables sc_tables go_tables en_tables). cbv beta iota.
  rewrite (merged ps Hok g_views sc_views _ en_views E2). cbv beta iota.
  rewrite (stage_single paths ps _ Hok Hf push_view g_views sc_views go_views en_views). cbv beta iota.
  rewrite (merged ps Hok g_functions _ _ encodes_functions E3). cbv beta iota.
  rewrite (stage_functions paths ps _ Hok Hf). cbv beta iota.
  rewrite (merged ps Hok g_macros _ _ encodes_macros E4). cbv beta iota.
  rewrite (stage_macros paths ps _ Hok Hf). cbv beta iota.
  rewrite (merged ps Hok g_indexes indexes _ en_indexes E5). cbv beta iota.
  rewrite (stage_single paths ps _ Hok Hf push_index g_indexes indexes go_indexes en_indexes).
  f_equal. apply list_fmap_ext. intros i p _. apply pushes_rebuild.
Qed.

(** An entry whose bytes are the items of some schema's records. *)
Definition describes (e : SchemaContents) : Prop := ∃ g, entry_ok (g, e).

Lemma describes_entries l : Forall describes l → ∃ ps, ps.*2 = l ∧ Forall entry_ok ps.
Proof.
  induction 1 as [|e l [g Hg] _ (ps & <- & IH)]; [by exists []|]. exists ((g, e) :: ps). by split; [|constructor].
Qed.

Abbreviation read_response := (schema_contents SchemaInfo TableInfo ViewInfo FunctionInfo MacroInfo IndexInfo).
Abbreviation codec := (collections_codec SchemaInfo TableInfo ViewInfo FunctionInfo MacroInfo IndexInfo).

(** C20: A client reads back the snapshot the worker took, when every entry of the
    snapshot [describes] its schema: no part of the schema's path is empty, every
    item is of that schema and in the list of its kind, and every item's bytes are
    the canonical encoding of one row. Then grouping the six merged streams of the
    response by schema gives the very entries of the snapshot, byte for byte, each
    schema after its parent, however many batches the streams were cut into.
    [empty_part_unreadable] shows what becomes of a path with an empty part. *)
Theorem catalog_contents_roundtrip hex r inm v mode resp :
  Forall describes (cr_schemas r) → @finish codec hex r inm v mode = Ok resp → not_modified resp = false →
  ∃ l, read_response resp = Ok l ∧ l ≡ₚ cr_schemas r ∧ parents_first l.
Proof.
  intros Hd Hf Hm. destruct (@finish_rules codec hex r inm v mode resp Hf) as [_ Hrules]. rewrite Hm in Hrules.
  destruct Hrules as (_ & _ & [Hn _] & l & Hperm & Hpf & Hfrom). exists l. split_and!; [|done|done].
  rewrite <- Hperm in Hd, Hn. destruct (describes_entries l Hd) as (ps & <- & Hok).
  apply (from_contents_read _ _ _ _ Hok Hn Hpf) in Hfrom. unfold schema_contents in *. cbn [not_modified streams] in Hfrom.
  by rewrite Hm.
Qed.

(** ** A snapshot no client can read *)

Lemma open_schemas_empty_component (rows : list SchemaInfo) paths schemas info :
  info ∈ rows → "" ∈ schema_path info → ∃ err, open_schemas rows paths schemas = Err err.
Proof.
  intros Hin He. revert paths schemas. induction rows as [|row rows IH]; [by apply elem_of_nil in Hin|].
  intros paths schemas. cbn [open_schemas]. apply elem_of_cons in Hin as [->|Hin].
  - rewrite (bool_decide_true ("" ∈ _)), orb_true_r by done. by eexists.
  - case_match; [by eexists|]. case_match; [by eexists|]. destruct (item row); [by apply IH|by eexists].
Qed.

(** The worker's own validation lets a schema name with an empty part through, and
    every client then refuses the whole response. *)
Theorem empty_part_unreadable hex r inm v mode resp g e :
  Forall (λ e, ∃ g, encodes g e) (cr_schemas r) → e ∈ cr_schemas r → encodes g e → "" ∈ sc_path e →
  @finish codec hex r inm v mode = Ok resp → not_modified resp = false → ∃ err, read_response resp = Err err.
Proof.
  intros Hd Hin He Hempty Hf Hm. destruct (@finish_rules codec hex r inm v mode resp Hf) as [_ Hrules]. rewrite Hm in Hrules.
  destruct Hrules as (_ & _ & _ & l & Hperm & _ & Hfrom). rewrite <- Hperm in Hd, Hin.
  assert (∃ infos : list SchemaInfo, items infos (sc_schema <$> l) ∧ ∃ info, info ∈ infos ∧ "" ∈ schema_path info) as (infos & Hit & info & Hi & Hp).
  { clear -Hd Hin He Hempty. induction Hd as [|e' l [g' Hg'] Hd IH]; [by apply elem_of_nil in Hin|].
    assert (∃ infos : list SchemaInfo, items infos (sc_schema <$> l)) as [infos Hit'].
    { clear -Hd. induction Hd as [|x l [y Hy] _ [infos IH]]; [by exists []|]. exists (g_info y :: infos). constructor; [apply Hy|done]. }
    apply elem_of_cons in Hin as [->|Hin].
    - exists (g_info g :: infos). split; [constructor; [apply He|done]|]. exists (g_info g). split; [left|].
      fold (g_path g). by rewrite <- (en_path _ _ He).
    - destruct (IH Hin) as (infos' & Hit & info & Hi & Hp). exists (g_info g' :: infos'). split; [constructor; [apply Hg'|done]|].
      exists info. split; [by right|done]. }
  unfold from_schema_contents in Hfrom. cbn [merge collections_codec] in Hfrom.
  destruct (merge_items (T := SchemaInfo) _) as [s0|] eqn:E0; [|done].
  unfold schema_contents. rewrite Hm.
  repeat (destruct (merge_items _) as [?|] in Hfrom; [|done]). injection Hfrom as Hst. rewrite <- Hst.
  cbn [lookup list_lookup mjoin option_join]. rewrite (merge_items_decode _ _ _ Hit E0).
  destruct (open_schemas_empty_component infos ∅ [] info Hi Hp) as [err ->]. by exists err.
Qed.
End snapshots.
End facts.

(** * Examples *)

(** Rows of a path and a kind, in streams of any number of batches. *)
Definition pair_schema : Schema := [mkField "path" Utf8 false []; mkField "kind" Utf8 false []].
Definition text_column (l : list string) : array := plain_array Utf8 ((λ x, Some (VBytes x)) <$> l).
Definition pair_batch (l : list (string * string)) : RecordBatch :=
  mkRecordBatch pair_schema ∅ [text_column l.*1; text_column l.*2] (length l).
Definition text_at (a : array) (i : nat) : option string := vals a !! i ≫= as_str.
Definition row_of (b : RecordBatch) (i : nat) : option (string * string) :=
  match columns b with
  | [p; k] => x ← text_at p i; y ← text_at k i; Some (x, y)
  | _ => None
  end.
Definition rows_of (b : RecordBatch) : list (string * string) := omap (row_of b) (seq 0 (num_rows b)).

Lemma row_of_pair l i : row_of (pair_batch l) i = l !! i.
Proof.
  unfold row_of, pair_batch, text_at, text_column. cbn. rewrite !list_lookup_fmap.
  by destruct (l !! i) as [[x y]|].
Qed.

#[local] Instance pair_stream : IpcStream := {|
  write_stream s md l :=
    if decide (s = pair_schema ∧ md = ∅ ∧ l = pair_batch <$> (rows_of <$> l)) then Ok (x01 :: ser (rows_of <$> l))
    else Err (AtWrite "unsupported");
  open_stream bs :=
    match bs with
    | x01 :: t => match de (T := list (list (string * string))) t with
                  | Some (l, []) => Ok (mkReader pair_schema ∅ (Ok (read_as pair_schema ∅ <$> head (pair_batch <$> l))))
                  | _ => value_error "malformed IPC stream"
                  end
    | _ => value_error "malformed IPC stream"
    end;
|}.
#[local] Instance pair_records : RecordStream := {|
  open_records _ bs :=
    match bs with
    | x01 :: t => match de (T := list (list (string * string))) t with
                  | Some (l, []) => Ok (mkRecords ((λ r, (read_as pair_schema ∅ (pair_batch r), ∅)) <$> l) (Ok (length bs)))
                  | _ => value_error "malformed IPC stream"
                  end
    | _ => value_error "malformed IPC stream"
    end;
|}.
#[local] Instance pair_records_laws : RecordStreamLaws.
Proof.
  split. intros s md l bs. cbn [write_stream pair_stream]. destruct (decide _) as [(-> & -> & El)|]; [|done]. intros Hbs _.
  assert (bs = x01 :: ser (rows_of <$> l)) as -> by congruence.
  pose proof (de_ser (T := list (list (string * string))) (rows_of <$> l) []) as Hde. rewrite app_nil_r in Hde.
  cbn [open_stream pair_stream open_records pair_records]. rewrite Hde. split; [by eexists|]. do 2 f_equal.
  rewrite El at 2. by rewrite <- !list_fmap_compose.
Qed.
#[local] Instance exact_types : TypeEquality.
Proof. refine {| equals_datatype a b := bool_decide (a = b) |}. intros t. by apply bool_decide_true. Defined.
#[local] Instance pair_arrow : VgiArrow (string * string) := {|
  describe_name := "pair";
  build_singleton x := Ok (pair_batch [x]);
  read_row b i := match row_of b i with Some x => Ok x | None => type_error "malformed row" end;
|}.
#[local] Instance pair_vgi_records : VgiRecords (string * string) := {|
  flat_schema := pair_schema;
  build_rows l := Ok (pair_batch l);
|}.
#[local] Instance pair_arrow_laws : VgiArrowLaws (string * string).
Proof. split. intros x b [= <-]. split_and!; [done..|]. by destruct x. Qed.

Lemma text_column_valid l f : Forall (λ i, i < length l) (seq 0 (length l)) → data_type f = Utf8 →
  validate_rows (text_column l) f (seq 0 (length l)) = Ok ().
Proof.
  intros Hf Ht. induction Hf as [|i rest Hi _ IH]; [done|]. cbn [validate_rows]. rewrite IH.
  apply lookup_lt_is_Some_2 in Hi as [x Hx]. unfold validate_value, is_null, text_column, plain_array. cbn.
  rewrite !list_lookup_fmap, Hx. cbn. by rewrite Ht.
Qed.
Lemma pair_batch_valid l : validate_columns (length l) (columns (pair_batch l)) pair_schema = Ok ().
Proof.
  cbn [validate_columns pair_batch columns pair_schema].
  assert (∀ {A} (l : list A), Forall (λ i, i < length l) (seq 0 (length l))) as Hs.
  { intros A l0. apply Forall_forall. intros i Hi%elem_of_seq. lia. }
  pose proof (text_column_valid l.*1) as H1. pose proof (text_column_valid l.*2) as H2. rewrite !length_fmap in H1, H2.
  by rewrite H1, H2 by (done || apply Hs).
Qed.
#[local] Instance pair_records_built : VgiRecordsLaws (string * string).
Proof.
  split.
  - intros xs b [= <-]. split_and!; [done|done|apply pair_batch_valid|]. intros i x Hx. cbn [read_row pair_arrow].
    change (row_of (read_as _ _ _) i) with (row_of (pair_batch xs) i). by rewrite row_of_pair, Hx.
  - intros x b [= <-]. split_and!; [done..|]. apply (pair_batch_valid [x]).
Qed.
#[local] Instance pair_row : CatalogRow (string * string) := {| schema_path x := [x.1] |}.
#[local] Instance pair_kind : KindedRow (string * string) := {| row_kind := snd |}.

Notation P := (string * string)%type.
Definition encoded_item (x : P) : bytes := default [] (match item x with Ok b => Some b | Err _ => None end).
Definition pair_entry (path : string) (tables : list P) (scalars : list P) : SchemaContents :=
  mkContents [path] (encoded_item (path, "")) (encoded_item <$> tables) [] (encoded_item <$> scalars) [] [] [] [] [].
Definition pair_group (path : string) (tables scalars : list P) : Group P P P P P P :=
  mkGroup P P P P P P (path, "") tables [] scalars [] [] [] [] [].
Definition two_schemas : CatalogContentsResult :=
  full [pair_entry "main" [("main", "t"); ("main", "u")] [("main", "SCALAR")]; pair_entry "aux" [("aux", "t")] []] None.

Lemma two_schemas_described : Forall (describes P P P P P P) (cr_schemas two_schemas).
Proof.
  repeat constructor; [exists (pair_group "main" [("main", "t"); ("main", "u")] [("main", "SCALAR")])
    |exists (pair_group "aux" [("aux", "t")] [])]; (split; [split|split]); cbn; try (repeat constructor; done);
    (split; [done|]; rewrite list_elem_of_singleton; done).
Qed.

Definition two_response : CatalogContentsResponse :=
  match @finish (collections_codec P P P P P P) (λ _, "h") two_schemas None 7 NoEtag with
  | Ok r => r
  | Err _ => unchanged 0 ""
  end.

Lemma catalog_contents_roundtrip_witness :
  @finish (collections_codec P P P P P P) (λ _, "h") two_schemas None 7 NoEtag = Ok two_response ∧
  ∃ l, schema_contents P P P P P P two_response = Ok l ∧ l ≡ₚ cr_schemas two_schemas.
Proof.
  assert (@finish (collections_codec P P P P P P) (λ _, "h") two_schemas None 7 NoEtag = Ok two_response) as Hf
    by (vm_compute; reflexivity).
  split; [exact Hf|].
  destruct (catalog_contents_roundtrip P P P P P P (λ _, "h") two_schemas None 7 NoEtag _ two_schemas_described Hf)
    as (l & H1 & H2 & _); [vm_compute; reflexivity|]. exists l. split; [exact H1|exact H2].
Defined.

(** A schema named by the empty string: the worker answers, the client cannot read
    the answer. *)
Example empty_name_unreadable : ∃ resp,
  @finish (collections_codec P P P P P P) (λ _, "h") (full [pair_entry "" [] []] None) None 7 NoEtag = Ok resp ∧
  is_ok (schema_contents P P P P P P resp) = false.
Proof. eexists. split; vm_compute; reflexivity. Qed.
