(* ===== verification/ConstraintRecord.v ===== *)
(** Constraint records and catalog-capability profiles,
    [vgi-protocol/src/constraints.rs]: a constraint in authoring vocabulary, its
    canonical encoding as nested IPC records, its decoding, and the profiles of an
    attach.  The wire records are DTOs of the class [Wire.VgiArrow].  Errors are
    the variants of the source's messages with what they print. *)
From S2P Require Import Prelude Codec Float64 Arrow SqlCompare Ipc Wire.

Open Scope Z_scope.

(** * Wire records *)

Record QueryEvaluationContext := mkContext {
  timezone : string;
  collation : string;
  default_order : string;
  default_null_order : string;
  preserve_insertion_order : bool;
}.
Record SqlExpression := mkSqlExpression {
  sx_sql : string;
  sx_profile : string;
  sx_schema_path : list string;
  sx_evaluation_context : QueryEvaluationContext;
}.
Record CatalogObjectRef := mkObjectRef {
  or_kind : string;
  or_schema_path : list string;
  or_name : string;
  or_owner_table : option string;
}.
Record ForeignKeyDefinition := mkForeignKey {
  fk_referenced_table : bytes;
  fk_referenced_column_paths : list (list string);
  fk_match : string;
  fk_on_update : string;
  fk_on_delete : string;
}.
Record ConstraintDefinition := mkDefinition {
  cd_kind : string;
  cd_column_paths : list (list string);
  cd_declared_name : option string;
  cd_check_expression : option bytes;
  cd_foreign_key : option bytes;
}.
Record ConstraintInfo := mkInfo {
  ci_ref : bytes;
  ci_definition : bytes;
  ci_enforcement : string;
  ci_validation : string;
  ci_referenced_constraint : option bytes;
}.
Record CatalogCapabilities := mkCapabilities {
  cc_read : list string;
  cc_ddl : list string;
  cc_write : list string;
  cc_transaction : list string;
}.
(** [ClientCapabilities], as far as the agreement reads it. *)
Record ClientCapabilities := mkClient { cl_engine : string; cl_catalog : option bytes }.

Definition CONSTRAINT_RECORDS_READ : string := "vgi.constraint.records.read.v1".
Definition ROW_SCALAR_EXPRESSION : string := "vgi.expression.duckdb.scalar.v1".

Definition default_evaluation_context : QueryEvaluationContext :=
  mkContext "UTC" "binary" "asc" "nulls_last" true.
Definition is_default_evaluation_context (c : QueryEvaluationContext) : bool :=
  String.eqb (timezone c) "UTC" && String.eqb (collation c) "binary" && String.eqb (default_order c) "asc" &&
  String.eqb (default_null_order c) "nulls_last" && preserve_insertion_order c.

(** * Authoring vocabulary *)

Inductive ConstraintKind := NotNull | PrimaryKey | Unique | Check | ForeignKey.
#[global] Instance ConstraintKind_eq_dec : EqDecision ConstraintKind.
Proof. solve_decision. Defined.
Inductive ConstraintEnforcement := Enforced | MetadataOnly.
#[global] Instance ConstraintEnforcement_eq_dec : EqDecision ConstraintEnforcement.
Proof. solve_decision. Defined.
Inductive ConstraintValidation := AllRows | FutureWrites | Unvalidated.
#[global] Instance ConstraintValidation_eq_dec : EqDecision ConstraintValidation.
Proof. solve_decision. Defined.

Definition kind_str (k : ConstraintKind) : string :=
  match k with
  | NotNull => "NOT_NULL" | PrimaryKey => "PRIMARY_KEY" | Unique => "UNIQUE" | Check => "CHECK"
  | ForeignKey => "FOREIGN_KEY"
  end.
Definition enforcement_str (e : ConstraintEnforcement) : string :=
  match e with Enforced => "ENFORCED" | MetadataOnly => "METADATA_ONLY" end.
Definition validation_str (v : ConstraintValidation) : string :=
  match v with AllRows => "ALL_ROWS" | FutureWrites => "FUTURE_WRITES" | Unvalidated => "UNVALIDATED" end.

Record ForeignKeyReference := mkReference {
  fr_schema_path : list string;
  fr_table : string;
  fr_columns : list (list string);
  fr_constraint_id : string;
}.

Record ConstraintRecord := mkRecord {
  cr_schema_path : list string;
  cr_table : string;
  cr_id : string;
  cr_kind : ConstraintKind;
  cr_columns : list (list string);
  cr_enforcement : ConstraintEnforcement;
  cr_validation : ConstraintValidation;
  cr_declared_name : option string;
  cr_check_sql : option string;
  cr_references : option ForeignKeyReference;
}.

(** [ConstraintRecord::new], [with_columns], [enforced], [is_readable]. *)
Definition new_record (schema_path : list string) (table id : string) (kind : ConstraintKind) : ConstraintRecord :=
  mkRecord schema_path table id kind [] MetadataOnly Unvalidated None None None.
Definition with_columns (r : ConstraintRecord) (columns : list (list string)) : ConstraintRecord :=
  mkRecord (cr_schema_path r) (cr_table r) (cr_id r) (cr_kind r) columns (cr_enforcement r) (cr_validation r)
    (cr_declared_name r) (cr_check_sql r) (cr_references r).
Definition enforced (r : ConstraintRecord) : ConstraintRecord :=
  mkRecord (cr_schema_path r) (cr_table r) (cr_id r) (cr_kind r) (cr_columns r) Enforced AllRows
    (cr_declared_name r) (cr_check_sql r) (cr_references r).
Definition is_readable (r : ConstraintRecord) : bool :=
  bool_decide (cr_enforcement r = Enforced) && bool_decide (cr_validation r = AllRows).

(** * Errors *)

Inductive ShapeError :=
| BadId | NoTable | CheckSqlMismatch | CheckHasColumns | NoColumns | BadComponents | NotNullArity
| ReferencesMismatch | ForeignKeyArity | NoReferencedId.
Inductive RecordError :=
| Codec (e : RpcError)
| UnknownName (what value : string)
| BadShape (table id : string) (e : ShapeError)
| IdentityKind (kind : string)
| LacksReferencedConstraint.

Definition parse_kind (value : string) : result ConstraintKind RecordError :=
  if String.eqb value "NOT_NULL" then Ok NotNull
  else if String.eqb value "PRIMARY_KEY" then Ok PrimaryKey
  else if String.eqb value "UNIQUE" then Ok Unique
  else if String.eqb value "CHECK" then Ok Check
  else if String.eqb value "FOREIGN_KEY" then Ok ForeignKey
  else Err (UnknownName "ConstraintKind" value).
Definition parse_enforcement (value : string) : result ConstraintEnforcement RecordError :=
  if String.eqb value "ENFORCED" then Ok Enforced
  else if String.eqb value "METADATA_ONLY" then Ok MetadataOnly
  else Err (UnknownName "ConstraintEnforcement" value).
Definition parse_validation (value : string) : result ConstraintValidation RecordError :=
  if String.eqb value "ALL_ROWS" then Ok AllRows
  else if String.eqb value "FUTURE_WRITES" then Ok FutureWrites
  else if String.eqb value "UNVALIDATED" then Ok Unvalidated
  else Err (UnknownName "ConstraintValidation" value).

(** [str::contains('\0')] and [str::is_empty]. *)
Definition has_nul (s : string) : bool := existsb (Byte.eqb x00) (as_bytes s).
Definition is_empty (s : string) : bool := String.eqb s "".
(** [str::starts_with]. *)
Definition starts_with (p s : string) : bool := is_some (strip_prefix p s).
Definition null {A} (l : list A) : bool := match l with [] => true | _ => false end.

(** * Shape *)

Definition shape_error (r : ConstraintRecord) : option ShapeError :=
  let is_check := bool_decide (cr_kind r = Check) in
  let is_fk := bool_decide (cr_kind r = ForeignKey) in
  if is_empty (cr_id r) || has_nul (cr_id r) then Some BadId
  else if is_empty (cr_table r) then Some NoTable
  else if negb (Bool.eqb is_check (is_some (cr_check_sql r))) then Some CheckSqlMismatch
  else if negb (Bool.eqb is_check (null (cr_columns r))) then Some (if is_check then CheckHasColumns else NoColumns)
  else if existsb (λ p, null p || existsb (λ c, is_empty c || has_nul c) p) (cr_columns r) then Some BadComponents
  else if bool_decide (cr_kind r = NotNull) && negb (length (cr_columns r) =? 1)%nat then Some NotNullArity
  else if negb (Bool.eqb is_fk (is_some (cr_references r))) then Some ReferencesMismatch
  else match cr_references r with
  | Some target =>
      if negb (length (fr_columns target) =? length (cr_columns r))%nat then Some ForeignKeyArity
      else if is_empty (fr_constraint_id target) then Some NoReferencedId
      else None
  | None => None
  end.
Definition check_shape (r : ConstraintRecord) : result unit RecordError :=
  match shape_error r with Some e => Err (BadShape (cr_table r) (cr_id r) e) | None => Ok () end.

(** [Option::map] then [transpose]. *)
Definition traverse {A B E} (f : A → result B E) (o : option A) : result (option B) E :=
  match o with None => Ok None | Some a => let? b := f a in Ok (Some b) end.

Class WireRecords := {
  #[global] wire_expression :: VgiArrow SqlExpression;
  #[global] wire_object_ref :: VgiArrow CatalogObjectRef;
  #[global] wire_foreign_key :: VgiArrow ForeignKeyDefinition;
  #[global] wire_definition :: VgiArrow ConstraintDefinition;
  #[global] wire_info :: VgiArrow ConstraintInfo;
  #[global] wire_capabilities :: VgiArrow CatalogCapabilities;
  #[global] wire_client :: VgiArrow ClientCapabilities;
}.
Class WireRecordLaws `{WireRecords} : Prop := {
  #[global] law_expression :: VgiArrowLaws SqlExpression;
  #[global] law_object_ref :: VgiArrowLaws CatalogObjectRef;
  #[global] law_foreign_key :: VgiArrowLaws ForeignKeyDefinition;
  #[global] law_definition :: VgiArrowLaws ConstraintDefinition;
  #[global] law_info :: VgiArrowLaws ConstraintInfo;
  #[global] law_capabilities :: VgiArrowLaws CatalogCapabilities;
  #[global] law_client :: VgiArrowLaws ClientCapabilities;
}.

Section records.
Context `{IpcStream} `{WireRecords}.

Definition enc {T} `{VgiArrow T} (x : T) : result bytes RecordError := map_err Codec (encode_record x).
Definition dec {T} `{VgiArrow T} (bs : bytes) : result T RecordError := map_err Codec (decode_record bs).

Definition object_ref (kind : string) (schema_path : list string) (name : string) (owner : option string) :
    result bytes RecordError :=
  enc (mkObjectRef kind schema_path name owner).

Definition constraint_record (spec : ConstraintRecord) : result bytes RecordError :=
  let? _ := check_shape spec in
  let? check_expression := traverse (λ sql,
      enc (mkSqlExpression sql ROW_SCALAR_EXPRESSION (cr_schema_path spec) default_evaluation_context)) (cr_check_sql spec) in
  let? foreign_key := traverse (λ target,
      let? t := object_ref "table" (fr_schema_path target) (fr_table target) None in
      enc (mkForeignKey t (fr_columns target) "SIMPLE" "NO_ACTION" "NO_ACTION")) (cr_references spec) in
  let? referenced_constraint := traverse (λ target,
      object_ref "constraint" (fr_schema_path target) (fr_constraint_id target) (Some (fr_table target))) (cr_references spec) in
  let? ref := object_ref "constraint" (cr_schema_path spec) (cr_id spec) (Some (cr_table spec)) in
  let? definition := enc (mkDefinition (kind_str (cr_kind spec)) (cr_columns spec) (cr_declared_name spec)
                            check_expression foreign_key) in
  enc (mkInfo ref definition (enforcement_str (cr_enforcement spec)) (validation_str (cr_validation spec))
         referenced_constraint).
Definition encode (r : ConstraintRecord) : result bytes RecordError := constraint_record r.

Definition read_references (info : ConstraintInfo) (raw : bytes) : result ForeignKeyReference RecordError :=
  let? fk := dec raw in
  let? target := dec (fk_referenced_table fk) in
  let? key := traverse (dec (T := CatalogObjectRef)) (ci_referenced_constraint info) in
  match key with
  | None => Err LacksReferencedConstraint
  | Some key => Ok (mkReference (or_schema_path target) (or_name target) (fk_referenced_column_paths fk) (or_name key))
  end.

Definition read_constraint_record (bs : bytes) : result ConstraintRecord RecordError :=
  let? info := dec bs in
  let? identity := dec (ci_ref info) in
  if negb (String.eqb (or_kind identity) "constraint") then Err (IdentityKind (or_kind identity)) else
  let? definition := dec (ci_definition info) in
  let? check_sql := traverse (λ raw, let? e := dec raw in Ok (sx_sql e)) (cd_check_expression definition) in
  let? references := traverse (read_references info) (cd_foreign_key definition) in
  let? kind := parse_kind (cd_kind definition) in
  let? enforcement := parse_enforcement (ci_enforcement info) in
  let? validation := parse_validation (ci_validation info) in
  let record := mkRecord (or_schema_path identity) (default "" (or_owner_table identity)) (or_name identity) kind
                  (cd_column_paths definition) enforcement validation (cd_declared_name definition) check_sql references in
  let? _ := check_shape record in
  Ok record.

(** * Profiles *)

(** [Vec<String>]'s [sort] is by bytes, then [dedup] drops adjacent repeats. *)
Fixpoint str_leb (a b : bytes) : bool :=
  match a, b with
  | [], _ => true
  | _ :: _, [] => false
  | x :: a, y :: b => (Z_of_byte x <? Z_of_byte y) || ((Z_of_byte x =? Z_of_byte y) && str_leb a b)
  end.
Definition str_le (a b : string) : Prop := str_leb (as_bytes a) (as_bytes b) = true.
#[global] Instance str_le_dec : RelDecision str_le := λ a b, bool_eq_dec _ _.
Fixpoint dedup (l : list string) : list string :=
  match l with
  | a :: (b :: _) as l => if String.eqb a b then dedup l else a :: dedup l
  | l => l
  end.
Definition sorted_unique (l : list string) : list string := dedup (merge_sort str_le l).

Definition normalize_read_profiles (read : list string) : list string :=
  let read := sorted_unique read in
  if existsb (String.eqb CONSTRAINT_RECORDS_READ) read then read
  else filter (λ p, p ≠ ROW_SCALAR_EXPRESSION) read.

Definition select_read_profiles (available : list string) (client_capabilities : option bytes) :
    result (list string) RecordError :=
  match client_capabilities with
  | None | Some [] => Ok []
  | Some raw =>
      let? client := dec raw in
      let? offered := match cl_catalog client with
                      | None | Some [] => Ok []
                      | Some catalog => let? c := dec catalog in Ok (cc_read c)
                      end in
      Ok (normalize_read_profiles (filter (λ p, p ∈ offered) available))
  end.

Definition catalog_capabilities (read ddl write transaction : list string) : result bytes RecordError :=
  enc (mkCapabilities (sorted_unique read) (sorted_unique ddl) (sorted_unique write) (sorted_unique transaction)).
Definition read_catalog_capabilities (bs : bytes) : result CatalogCapabilities RecordError :=
  match bs with [] => Ok (mkCapabilities [] [] [] []) | _ => dec bs end.
Definition client_catalog_capabilities : CatalogCapabilities :=
  mkCapabilities [CONSTRAINT_RECORDS_READ; ROW_SCALAR_EXPRESSION] [] [] [].
End records.

(** * The record codec *)

Lemma kind_str_parse k : parse_kind (kind_str k) = Ok k.
Proof. by destruct k. Qed.
Lemma enforcement_str_parse e : parse_enforcement (enforcement_str e) = Ok e.
Proof. by destruct e. Qed.
Lemma validation_str_parse v : parse_validation (validation_str v) = Ok v.
Proof. by destruct v. Qed.

(** Walks through a computation that gave [Ok]. *)
Ltac step_ok H :=
  match type of H with
  | match ?x with Ok _ => _ | Err _ => _ end = Ok _ =>
      let E := fresh "E" in destruct x as [|] eqn:E; [|discriminate H]
  | (if ?b then Err _ else _) = Ok _ => let E := fresh "E" in destruct b eqn:E; [discriminate H|]
  end.

Section facts.
Context `{IpcLaws} `{WireRecordLaws}.

Lemma dec_enc {T} `{VgiArrowLaws T} (x : T) bs : enc x = Ok bs → dec bs = Ok x.
Proof. intros E%map_err_Ok. unfold dec. by rewrite (decode_encoded _ _ E). Qed.

Lemma enc_nonempty {T} `{VgiArrowLaws T} (x : T) bs : enc x = Ok bs → bs ≠ [].
Proof. intros E%map_err_Ok. by eapply encoded_nonempty. Qed.

Lemma traverse_Some {A B E} (f : A → result B E) a o : traverse f (Some a) = Ok o → ∃ b, f a = Ok b ∧ o = Some b.
Proof. cbn. destruct (f a) as [b|]; intros [= <-]. by exists b. Qed.
Lemma traverse_None {A B E} (f : A → result B E) o : traverse f None = Ok o → o = None.
Proof. by intros [= <-]. Qed.

Lemma check_shape_Ok r u : check_shape r = Ok u ↔ shape_error r = None.
Proof. unfold check_shape. destruct u, (shape_error r); naive_solver. Qed.

(** The three optional parts, written and read back. *)
Lemma check_part (spec : ConstraintRecord) o :
  traverse (λ sql, enc (mkSqlExpression sql ROW_SCALAR_EXPRESSION (cr_schema_path spec) default_evaluation_context))
    (cr_check_sql spec) = Ok o →
  traverse (λ raw, let? e := dec raw in Ok (sx_sql e)) o = Ok (E := RecordError) (cr_check_sql spec).
Proof.
  destruct (cr_check_sql spec) as [sql|]; intros E.
  - apply traverse_Some in E as (b & E & ->). cbn. by rewrite (dec_enc _ _ E).
  - by apply traverse_None in E as ->.
Qed.

Lemma references_part info target t fk key :
  object_ref "table" (fr_schema_path target) (fr_table target) None = Ok t →
  enc (mkForeignKey t (fr_columns target) "SIMPLE" "NO_ACTION" "NO_ACTION") = Ok fk →
  object_ref "constraint" (fr_schema_path target) (fr_constraint_id target) (Some (fr_table target)) = Ok key →
  ci_referenced_constraint info = Some key → read_references info fk = Ok target.
Proof.
  intros Et Efk Ek Hi. unfold read_references. rewrite (dec_enc _ _ Efk), Hi. cbn [fk_referenced_table].
  rewrite (dec_enc _ _ Et). cbn [traverse]. rewrite (dec_enc _ _ Ek). cbn. by destruct target.
Qed.

(** A constraint that encodes reads back as itself, of
    every kind, with its label, its CHECK text and its foreign-key target. *)
Theorem constraint_record_roundtrip spec bs : constraint_record spec = Ok bs → read_constraint_record bs = Ok spec.
Proof.
  unfold constraint_record. intros E. do 6 step_ok E. rename E0 into Hshape.
  unfold read_constraint_record. rewrite (dec_enc _ _ E). cbn [ci_ref ci_definition ci_enforcement ci_validation].
  rewrite (dec_enc _ _ E4). cbn [or_kind String.eqb negb Ascii.eqb]. change (String.eqb "constraint" "constraint") with true.
  rewrite (dec_enc _ _ E5). cbn [negb cd_check_expression cd_foreign_key cd_kind or_schema_path or_owner_table or_name cd_column_paths cd_declared_name].
  rewrite (check_part _ _ E1), kind_str_parse, enforcement_str_parse, validation_str_parse. cbn [default].
  assert (traverse (read_references (mkInfo a3 a4 (enforcement_str (cr_enforcement spec)) (validation_str (cr_validation spec)) a2)) a1
          = Ok (cr_references spec)) as ->.
  { destruct (cr_references spec) as [target|].
    - apply traverse_Some in E2 as (fk & E2 & ->). apply traverse_Some in E3 as (key & E3 & ->). step_ok E2. cbn [traverse].
      by rewrite (references_part _ target _ _ key E0 E2 E3).
    - by apply traverse_None in E2 as ->. }
  destruct a. destruct spec; cbn in *. by rewrite Hshape.
Qed.

(** A record that reads has the shape the builder requires, so
    the builder refuses it only if the codec does. *)
Theorem read_record_well_shaped bs r : read_constraint_record bs = Ok r →
  shape_error r = None ∧ (∀ e, constraint_record r = Err e → ∃ rpc, e = Codec rpc).
Proof.
  intros E. assert (shape_error r = None) as Hs.
  { unfold read_constraint_record in E. repeat step_ok E. injection E as <-. by eapply check_shape_Ok. }
  split; [done|]. intros e. unfold constraint_record. rewrite (proj2 (check_shape_Ok r ()) Hs).
  unfold traverse, object_ref, enc. destruct (cr_check_sql r), (cr_references r);
    repeat (match goal with |- context [map_err Codec ?x] => destruct x end; cbn [map_err]; try (intros [= <-]; by eexists)); done.
Qed.
End facts.

(** * Sorted profiles *)

Lemma str_leb_refl a : str_leb a a = true.
Proof. induction a as [|x a IH]; cbn; [done|]. rewrite Z.eqb_refl, IH. by rewrite orb_true_r. Qed.
Lemma str_leb_antisym a b : str_leb a b = true → str_leb b a = true → a = b.
Proof.
  revert b. induction a as [|x a IH]; intros [|y b]; cbn; [done..|].
  rewrite !orb_true_iff, !andb_true_iff, !Z.ltb_lt, !Z.eqb_eq. intros [?|[Hx H1]] [?|[? H2]]; [lia..|].
  apply Z_of_byte_inj in Hx as ->. by rewrite (IH _ H1 H2).
Qed.
Lemma str_leb_trans a b c : str_leb a b = true → str_leb b c = true → str_leb a c = true.
Proof.
  revert b c. induction a as [|x a IH]; intros [|y b] [|z c]; cbn; try done.
  rewrite !orb_true_iff, !andb_true_iff, !Z.ltb_lt, !Z.eqb_eq. intros [?|[-> H1]] [?|[<- H2]]; try (left; lia).
  right. split; [done|]. by eapply IH.
Qed.
Lemma str_leb_total a b : str_leb a b = true ∨ str_leb b a = true.
Proof.
  revert b. induction a as [|x a IH]; intros [|y b]; cbn; [by left|by left|by right|].
  rewrite !orb_true_iff, !andb_true_iff, !Z.ltb_lt, !Z.eqb_eq.
  destruct (Z.lt_trichotomy (Z_of_byte x) (Z_of_byte y)) as [?|[->|?]]; [by left; left| |by right; left].
  destruct (IH b) as [?|?]; [left|right]; right; done.
Qed.
#[global] Instance str_le_total : Total str_le.
Proof. intros a b. apply str_leb_total. Qed.
#[global] Instance str_le_trans : Transitive str_le.
Proof. intros a b c. apply str_leb_trans. Qed.

Lemma dedup_elem l x : x ∈ dedup l ↔ x ∈ l.
Proof.
  induction l as [|a l IH]; cbn; [done|]. destruct l as [|b l]; [done|].
  destruct (String.eqb_spec a b) as [->|]; [|by rewrite !(elem_of_cons _ x a), IH].
  rewrite IH, !elem_of_cons. naive_solver.
Qed.

Definition str_lt (a b : string) : Prop := str_le a b ∧ a ≠ b.

Lemma dedup_sorted l : StronglySorted str_le l → StronglySorted str_lt (dedup l).
Proof.
  induction l as [|a l IH]; cbn; intros S; [constructor|]. apply StronglySorted_inv in S as [S Ha].
  destruct l as [|b l]; [repeat constructor|]. specialize (IH S). destruct (String.eqb_spec a b) as [|Hne]; [done|].
  constructor; [done|]. apply Forall_forall. intros x Hx. apply (dedup_elem (b :: l)) in Hx. rewrite Forall_forall in Ha.
  split; [by apply Ha|].
  intros ->. apply elem_of_cons in Hx as [->|Hx]; [done|]. apply Hne. apply StronglySorted_inv in S as [_ Hb].
  rewrite Forall_forall in Hb. specialize (Hb x Hx). assert (str_le x b) as Hxb by (apply Ha, elem_of_cons; by left).
  apply as_bytes_inj, str_leb_antisym; assumption.
Qed.

Lemma sorted_unique_spec l : StronglySorted str_lt (sorted_unique l) ∧ ∀ x, x ∈ sorted_unique l ↔ x ∈ l.
Proof.
  split; [apply dedup_sorted, StronglySorted_merge_sort; apply _|]. intros x. unfold sorted_unique.
  by rewrite dedup_elem, merge_sort_Permutation.
Qed.

Lemma strongly_sorted_filter {A} (R : relation A) (P : A → Prop) `{∀ x, Decision (P x)} l :
  StronglySorted R l → StronglySorted R (filter P l).
Proof.
  induction 1 as [|a l S IH Ha]; [constructor|]. rewrite filter_cons. destruct (decide (P a)); [|done]. constructor; [done|].
  apply Forall_forall. intros x [_ Hx]%list_elem_of_filter. rewrite Forall_forall in Ha. by apply Ha.
Qed.

(** What [normalize_read_profiles] promises. *)
Definition selects (read : list string) (x : string) : Prop :=
  x ∈ read ∧ (x = ROW_SCALAR_EXPRESSION → CONSTRAINT_RECORDS_READ ∈ read).

Lemma normalize_spec read :
  StronglySorted str_lt (normalize_read_profiles read) ∧ ∀ x, x ∈ normalize_read_profiles read ↔ selects read x.
Proof.
  destruct (sorted_unique_spec read) as [S E]. unfold normalize_read_profiles, selects.
  destruct (existsb _ _) eqn:Ex.
  - split; [done|]. intros x. rewrite E. apply existsb_exists in Ex as (y & Hy & Hr). apply String.eqb_eq in Hr as <-.
    apply list_elem_of_In, E in Hy. naive_solver.
  - split; [by apply strongly_sorted_filter|]. intros x. rewrite list_elem_of_filter, E.
    assert (CONSTRAINT_RECORDS_READ ∉ read) as Hn.
    { intros Hin. apply not_true_iff_false in Ex. apply Ex, existsb_exists. exists CONSTRAINT_RECORDS_READ.
      split; [by apply list_elem_of_In, E|apply String.eqb_refl]. }
    naive_solver.
Qed.

(** * An instance of the records' codec *)

#[local] Instance Ser_context : Ser QueryEvaluationContext :=
  ser_via (λ c, (timezone c, collation c, default_order c, default_null_order c, preserve_insertion_order c))
    (λ '(a, b, c, d, e), mkContext a b c d e) (λ c, match c with mkContext _ _ _ _ _ => eq_refl end).
#[local] Instance Ser_expression : Ser SqlExpression :=
  ser_via (λ e, (sx_sql e, sx_profile e, sx_schema_path e, sx_evaluation_context e))
    (λ '(a, b, c, d), mkSqlExpression a b c d) (λ e, match e with mkSqlExpression _ _ _ _ => eq_refl end).
#[local] Instance Ser_object_ref : Ser CatalogObjectRef :=
  ser_via (λ e, (or_kind e, or_schema_path e, or_name e, or_owner_table e))
    (λ '(a, b, c, d), mkObjectRef a b c d) (λ e, match e with mkObjectRef _ _ _ _ => eq_refl end).
#[local] Instance Ser_foreign_key : Ser ForeignKeyDefinition :=
  ser_via (λ e, (fk_referenced_table e, fk_referenced_column_paths e, fk_match e, fk_on_update e, fk_on_delete e))
    (λ '(a, b, c, d, e), mkForeignKey a b c d e) (λ e, match e with mkForeignKey _ _ _ _ _ => eq_refl end).
#[local] Instance Ser_definition : Ser ConstraintDefinition :=
  ser_via (λ e, (cd_kind e, cd_column_paths e, cd_declared_name e, cd_check_expression e, cd_foreign_key e))
    (λ '(a, b, c, d, e), mkDefinition a b c d e) (λ e, match e with mkDefinition _ _ _ _ _ => eq_refl end).
#[local] Instance Ser_info : Ser ConstraintInfo :=
  ser_via (λ e, (ci_ref e, ci_definition e, ci_enforcement e, ci_validation e, ci_referenced_constraint e))
    (λ '(a, b, c, d, e), mkInfo a b c d e) (λ e, match e with mkInfo _ _ _ _ _ => eq_refl end).
#[local] Instance Ser_capabilities : Ser CatalogCapabilities :=
  ser_via (λ e, (cc_read e, cc_ddl e, cc_write e, cc_transaction e))
    (λ '(a, b, c, d), mkCapabilities a b c d) (λ e, match e with mkCapabilities _ _ _ _ => eq_refl end).
#[local] Instance Ser_client : Ser ClientCapabilities :=
  ser_via (λ e, (cl_engine e, cl_catalog e)) (λ '(a, b), mkClient a b) (λ e, match e with mkClient _ _ => eq_refl end).

#[local] Existing Instances text_stream text_stream_laws.
#[local] Instance text_records : WireRecords := {|
  wire_expression := ser_arrow; wire_object_ref := ser_arrow; wire_foreign_key := ser_arrow;
  wire_definition := ser_arrow; wire_info := ser_arrow; wire_capabilities := ser_arrow; wire_client := ser_arrow;
|}.
#[local] Instance text_record_laws : WireRecordLaws.
Proof. split; apply ser_arrow_laws. Qed.

Definition sample_fk : ConstraintRecord :=
  mkRecord ["main"] "orders" "orders.fk" ForeignKey [["user_id"]] Enforced AllRows (Some "fk") None
    (Some (mkReference ["main"] "users" [["id"]] "users.pk")).
Definition sample_fk_bytes : bytes := Eval vm_compute in match constraint_record sample_fk with Ok b => b | Err _ => [] end.

Lemma constraint_record_roundtrip_witness : read_constraint_record sample_fk_bytes = Ok sample_fk.
Proof. apply (constraint_record_roundtrip sample_fk). vm_compute. reflexivity. Defined.

Lemma read_record_well_shaped_witness : shape_error sample_fk = None.
Proof. apply (read_record_well_shaped sample_fk_bytes). vm_compute. reflexivity. Defined.
