(* ===== verification/Constraints.v ===== *)
(** Serving constraint records, [vgi/src/constraints.rs]: the capability agreement
    of an attach, the checks of a table's records, the columns a table is served
    with, and the targets of foreign keys.  Errors are the variants of the source's
    messages with what they print; an index out of bounds is [PathPanic]. *)
From S2P Require Import Prelude Codec Float64 Arrow SqlCompare Ipc SqlExpression Wire ConstraintRecord.

Open Scope Z_scope.

Definition MAX_DEPTH : nat := 64.
Definition MAX_RECORDS : nat := 1024.
Definition MAX_RECORD_BYTES : Z := 8 * 1024 * 1024.
Definition MAX_PATHS : nat := 1024.
Definition MAX_IDENTIFIER : nat := 4096.

(** * Capability agreement *)

Definition empty_capabilities : CatalogCapabilities := mkCapabilities [] [] [] [].
Definition sorted_union (a b : list string) : list string := sorted_unique (a ++ b).
Definition read_profiles_for (has_records : bool) : list string :=
  if has_records then [CONSTRAINT_RECORDS_READ; ROW_SCALAR_EXPRESSION] else [].

Definition merge (base : CatalogCapabilities) (read : list string) : CatalogCapabilities :=
  mkCapabilities (normalize_read_profiles (sorted_union (cc_read base) read)) (sorted_union (cc_ddl base) [])
    (sorted_union (cc_write base) []) (sorted_union (cc_transaction base) []).

Inductive AgreementError := Agreement (e : RecordError) | EmptyAgreement.

Section agreement.
Context `{IpcStream} `{WireRecords}.

Definition agree_capabilities (auto_read : list string) (hook : option (bytes * bytes)) (client_capabilities : option bytes) :
    result (option (bytes * bytes)) RecordError :=
  match auto_read with
  | [] => Ok hook
  | _ =>
      let? selected_read := select_read_profiles auto_read client_capabilities in
      let? (available, selected) :=
        match hook with
        | None => Ok (empty_capabilities, empty_capabilities)
        | Some (available, selected) =>
            let? a := read_catalog_capabilities available in
            let? s := read_catalog_capabilities selected in
            Ok (a, s)
        end in
      let? a := enc (merge available auto_read) in
      let? s := enc (merge selected selected_read) in
      Ok (Some (a, s))
  end.

Definition constraint_read_agreement (client_capabilities : option bytes) : result (bytes * bytes) AgreementError :=
  let? o := map_err Agreement (agree_capabilities (read_profiles_for true) None client_capabilities) in
  match o with Some p => Ok p | None => Err EmptyAgreement end.
End agreement.

(** * Paths *)

Inductive PathError := PathMissing (path : list string) | NotOrdinaryStruct (path : list string) | PathPanic.

Definition ordinary (md : list (string * string)) : bool :=
  negb (existsb (λ kv, String.eqb kv.1 "ARROW:extension:name" || starts_with "vgi.logical_type." kv.1) md).
Definition ordinary_struct_children (f : Field) : option (list Field) :=
  match data_type f with
  | Struct children => if ordinary (metadata f) then Some children else None
  | _ => None
  end.

Definition identifier (value : string) : bool :=
  negb (is_empty value) && (String.length value <=? MAX_IDENTIFIER)%nat && negb (has_nul value).

(** The rest of a path below a field. *)
Fixpoint resolve_below (path : list string) (f : Field) (rest : list string) : result unit PathError :=
  match rest with
  | [] => Ok ()
  | part :: rest =>
      match ordinary_struct_children f with
      | None => Err (NotOrdinaryStruct path)
      | Some children =>
          match filter (λ c, name c = part) children with
          | [child] => resolve_below path child rest
          | _ => Err (PathMissing path)
          end
      end
  end.
Definition resolve_path (columns : Schema) (path : list string) : result unit PathError :=
  match path with
  | [] => Err PathPanic
  | first :: rest =>
      match find_field first columns with
      | None => Err (PathMissing path)
      | Some (_, f) => if is_row_id f then Err (PathMissing path) else resolve_below path f rest
      end
  end.

Inductive PathsError := TooManyPaths | PathSize | PathComponents | DuplicatePath (path : list string).

Fixpoint check_paths_from (seen : gset (list string)) (paths : list (list string)) : result unit PathsError :=
  match paths with
  | [] => Ok ()
  | path :: paths =>
      if null path || (MAX_DEPTH <? length path)%nat then Err PathSize
      else if negb (forallb identifier path) then Err PathComponents
      else if bool_decide (path ∈ seen) then Err (DuplicatePath path)
      else check_paths_from ({[path]} ∪ seen) paths
  end.
Definition check_paths (paths : list (list string)) : result unit PathsError :=
  if (MAX_PATHS <? length paths)%nat then Err TooManyPaths else check_paths_from ∅ paths.

(** * Payloads *)

Inductive PayloadError :=
| PayloadCodec (e : RecordError)
| CheckProfile (profile : string) | CheckSchema (path : list string) | CheckContext
| NotTableReference | NotConstraintReference | OtherSchema (path : list string)
| KeyNotOwned (key table : string) | MatchUnsupported (m : string) | ActionUnsupported (label action : string)
| NestedReference.

Definition supported_action (action : string) : bool := String.eqb action "NO_ACTION" || String.eqb action "RESTRICT".

Section served.
Context `{IpcStream} `{WireRecords} `{CharClasses}.

Definition pdec {T} `{VgiArrow T} (bs : bytes) : result T PayloadError := map_err PayloadCodec (dec bs).

Definition check_expression (schema_path : list string) (raw : bytes) : result unit PayloadError :=
  let? e := pdec raw in
  if negb (String.eqb (sx_profile e) ROW_SCALAR_EXPRESSION) then Err (CheckProfile (sx_profile e))
  else if negb (bool_decide (sx_schema_path e = schema_path)) then Err (CheckSchema (sx_schema_path e))
  else if negb (is_default_evaluation_context (sx_evaluation_context e)) then Err CheckContext
  else Ok ().

Definition check_foreign_key (schema_path : list string) (record : ConstraintRecord) (fk key : bytes) : result unit PayloadError :=
  let? fk := pdec fk in
  let? table := pdec (T := CatalogObjectRef) (fk_referenced_table fk) in
  let? key := pdec (T := CatalogObjectRef) key in
  if negb (String.eqb (or_kind table) "table") || is_some (or_owner_table table) then Err NotTableReference
  else if negb (String.eqb (or_kind key) "constraint") then Err NotConstraintReference
  else if negb (bool_decide (or_schema_path table = schema_path)) || negb (bool_decide (or_schema_path key = schema_path))
  then Err (OtherSchema (or_schema_path table))
  else if negb (bool_decide (or_owner_table key = Some (or_name table))) then Err (KeyNotOwned (or_name key) (or_name table))
  else if negb (String.eqb (fk_match fk) "SIMPLE") then Err (MatchUnsupported (fk_match fk))
  else if negb (supported_action (fk_on_update fk)) then Err (ActionUnsupported "ON UPDATE" (fk_on_update fk))
  else if negb (supported_action (fk_on_delete fk)) then Err (ActionUnsupported "ON DELETE" (fk_on_delete fk))
  else if existsb (λ p, negb (length p =? 1)%nat) (default [] (fr_columns <$> cr_references record)) then Err NestedReference
  else Ok ().

Definition check_payloads (raw : bytes) (schema_path : list string) (record : ConstraintRecord) : result unit PayloadError :=
  let? info := pdec raw in
  let? definition := pdec (ci_definition info) in
  let? _ := match cd_check_expression definition with Some e => check_expression schema_path e | None => Ok () end in
  match cd_foreign_key definition, ci_referenced_constraint info with
  | Some fk, Some key => check_foreign_key schema_path record fk key
  | _, _ => Ok ()
  end.

(** * The records of a table *)

Inductive OneError :=
| ForeignSchema (path : list string) | ForeignTable (table : string) | BadIdentity
| NotReadable (e : ConstraintEnforcement) (v : ConstraintValidation)
| BadLabel | DuplicateLabel (label : string)
| BadPaths (e : PathsError) | BadReferencedPaths (e : PathsError) | BadPayload (e : PayloadError)
| BadCheck (e : PError) | BadPath (e : PathError) | NestedPath (path : list string) | SecondPrimaryKey (first : string).
Inductive TableError :=
| TooManyRecords | RecordsTooLarge | NotCanonical (index : nat) (e : RecordError)
| DuplicateIdentity (id : string) | OnConstraint (id : string) (e : OneError) | NestingTooDeep.

Fixpoint sizes_ok (total : Z) (constraints : list bytes) : bool :=
  match constraints with
  | [] => true
  | raw :: constraints =>
      let n := Z.of_nat (length raw) in
      let total := total + n in
      negb ((n =? 0) || (MAX_RECORD_BYTES <? n) || (MAX_RECORD_BYTES <? total)) && sizes_ok total constraints
  end.

(** What the loop has seen: identities, lower-cased labels, the primary key. *)
Record Seen := mkSeen { ids : gset string; labels : gset string; primary_key : option string }.
Definition nothing_seen : Seen := mkSeen ∅ ∅ None.

Definition lift_one {A E} (id : string) (f : E → OneError) (r : result A E) : result A TableError :=
  map_err (λ e, OnConstraint id (f e)) r.

(** The label of a record, added to the labels seen. *)
Definition see_label (id : string) (label : option string) (seen : gset string) : result (gset string) TableError :=
  match label with
  | None => Ok seen
  | Some label =>
      if negb (identifier label) then Err (OnConstraint id BadLabel)
      else if bool_decide (to_ascii_lowercase label ∈ seen) then Err (OnConstraint id (DuplicateLabel label))
      else Ok ({[to_ascii_lowercase label]} ∪ seen)
  end.

(** The columns of a key: top-level and resolvable. *)
Fixpoint check_key_paths (columns : Schema) (id : string) (paths : list (list string)) : result unit TableError :=
  match paths with
  | [] => Ok ()
  | path :: paths =>
      if negb (length path =? 1)%nat then Err (OnConstraint id (NestedPath path))
      else let? _ := lift_one id BadPath (resolve_path columns path) in check_key_paths columns id paths
  end.

(** The checks that depend on the kind; the primary key seen after them. *)
Definition check_kind (columns : Schema) (record : ConstraintRecord) (pk : option string) : result (option string) TableError :=
  let id := cr_id record in
  match cr_kind record with
  | Check =>
      let? _ := lift_one id BadCheck (check_numeric_comparison (default "" (cr_check_sql record)) columns) in Ok pk
  | NotNull =>
      match cr_columns record with
      | [] => Err (OnConstraint id (BadPath PathPanic))
      | path :: _ => let? _ := lift_one id BadPath (resolve_path columns path) in Ok pk
      end
  | PrimaryKey =>
      let? _ := check_key_paths columns id (cr_columns record) in
      match pk with
      | Some first => Err (OnConstraint id (SecondPrimaryKey first))
      | None => Ok (Some id)
      end
  | Unique | ForeignKey => let? _ := check_key_paths columns id (cr_columns record) in Ok pk
  end.

(** One turn of the loop. *)
Definition check_one (schema_path : list string) (table : string) (columns : Schema) (seen : Seen) (index : nat)
    (raw : bytes) : result (ConstraintRecord * Seen) TableError :=
  let? record := map_err (NotCanonical index) (read_constraint_record raw) in
  let id := cr_id record in
  if negb (length schema_path =? 1)%nat || negb (bool_decide (cr_schema_path record = schema_path))
  then Err (OnConstraint id (ForeignSchema (cr_schema_path record)))
  else if negb (String.eqb (cr_table record) table) then Err (OnConstraint id (ForeignTable (cr_table record)))
  else if negb (identifier (cr_id record)) || negb (identifier (cr_table record)) then Err (OnConstraint id BadIdentity)
  else if bool_decide (id ∈ ids seen) then Err (DuplicateIdentity id)
  else if negb (is_readable record) then Err (OnConstraint id (NotReadable (cr_enforcement record) (cr_validation record)))
  else
    let? labels := see_label id (cr_declared_name record) (labels seen) in
    let? _ := lift_one id BadPaths (check_paths (cr_columns record)) in
    let? _ := match cr_references record with
              | Some target => lift_one id BadReferencedPaths (check_paths (fr_columns target))
              | None => Ok ()
              end in
    let? _ := lift_one id BadPayload (check_payloads raw schema_path record) in
    let? pk := check_kind columns record (primary_key seen) in
    Ok (record, mkSeen ({[id]} ∪ ids seen) labels pk).

Fixpoint check_loop (schema_path : list string) (table : string) (columns : Schema) (seen : Seen) (index : nat)
    (constraints : list bytes) : result (list ConstraintRecord) TableError :=
  match constraints with
  | [] => Ok []
  | raw :: constraints =>
      let? (record, seen) := check_one schema_path table columns seen index raw in
      let? records := check_loop schema_path table columns seen (S index) constraints in
      Ok (record :: records)
  end.

Definition checked_records (schema_path : list string) (table : string) (columns : Schema) (constraints : list bytes) :
    result (list ConstraintRecord) TableError :=
  if (MAX_RECORDS <? length constraints)%nat then Err TooManyRecords
  else if negb (sizes_ok 0 constraints) then Err RecordsTooLarge
  else check_loop schema_path table columns nothing_seen 0 constraints.

Definition validate_table_constraints (schema_path : list string) (table : string) (columns : Schema)
    (constraints : list bytes) : result unit TableError :=
  let? _ := checked_records schema_path table columns constraints in Ok ().

(** * Served columns *)

Definition with_nullable (f : Field) (nullable : bool) : Field := let '(mkField n t _ md) := f in mkField n t nullable md.
Definition with_data_type (f : Field) (t : DataType) : Field := let '(mkField n _ b md) := f in mkField n t b md.

(** One field of [normalize_fields]; the nesting bound is tested on entering the
    children. *)
Fixpoint normalize_field (required : gset (list string)) (prefix : list string) (f : Field) {struct f} : result Field TableError :=
  if null prefix && is_row_id f then Ok f
  else
    let path := prefix ++ [name f] in
    let out := with_nullable f (bool_decide (path ∉ required)) in
    match f with
    | mkField _ (Struct children) _ md =>
        if ordinary md then
          if (MAX_DEPTH <? length path)%nat then Err NestingTooDeep
          else
            let? cs := (fix go (l : list Field) : result (list Field) TableError :=
                          match l with
                          | [] => Ok []
                          | c :: l => let? c := normalize_field required path c in let? l := go l in Ok (c :: l)
                          end) children in
            Ok (with_data_type out (Struct cs))
        else Ok out
    | _ => Ok out
    end.
Fixpoint normalize_all (required : gset (list string)) (prefix : list string) (l : list Field) : result (list Field) TableError :=
  match l with
  | [] => Ok []
  | c :: l => let? c := normalize_field required prefix c in let? l := normalize_all required prefix l in Ok (c :: l)
  end.
Definition normalize_fields (fields : list Field) (prefix : list string) (required : gset (list string)) :
    result (list Field) TableError :=
  if (MAX_DEPTH <? length prefix)%nat then Err NestingTooDeep else normalize_all required prefix fields.

Definition required_paths (records : list ConstraintRecord) : gset (list string) :=
  list_to_set (filter (λ r, cr_kind r = NotNull ∨ cr_kind r = PrimaryKey) records ≫= cr_columns).

Definition served_columns (schema_path : list string) (table : string) (columns : Schema) (md : gmap string string)
    (constraints : list bytes) : result (Schema * gmap string string) TableError :=
  let? records := checked_records schema_path table columns constraints in
  let? fields := normalize_fields columns [] (required_paths records) in
  Ok (fields, md).

(** * Foreign-key targets *)

Inductive TargetError :=
| NoSuchTable (table : string) | NoSuchKey (id table : string) | NotAKey (id : string) (kind : ConstraintKind)
| OtherColumns (want have : list (list string)).
Record ForeignKeyError := mkForeignKeyError { fe_table : string; fe_id : string; fe_error : TargetError }.

Definition ok_of {A E} (r : result A E) : option A := match r with Ok a => Some a | Err _ => None end.
Definition decoded_tables (tables : list (string * list bytes)) : list (string * list ConstraintRecord) :=
  (λ nr : string * list bytes, (nr.1, omap (M := list) (ok_of ∘ read_constraint_record) nr.2)) <$> tables.
(** [collect] into a map: a later table replaces an earlier one of its name. *)
Definition keys_of (decoded : list (string * list ConstraintRecord)) : gmap string (list ConstraintRecord) :=
  foldl (λ m nr, <[to_ascii_lowercase nr.1 := nr.2]> m) ∅ decoded.

Definition is_key (k : ConstraintKind) : bool := bool_decide (k = PrimaryKey) || bool_decide (k = Unique).
Definition check_target (keys : gmap string (list ConstraintRecord)) (target : ForeignKeyReference) : option TargetError :=
  match keys !! to_ascii_lowercase (fr_table target) with
  | None => Some (NoSuchTable (fr_table target))
  | Some records =>
      match find (λ r, String.eqb (cr_id r) (fr_constraint_id target)) records with
      | None => Some (NoSuchKey (fr_constraint_id target) (fr_table target))
      | Some key =>
          if negb (is_key (cr_kind key)) then Some (NotAKey (cr_id key) (cr_kind key))
          else if bool_decide (list_to_set (C := gset (list string)) (fr_columns target) = list_to_set (cr_columns key)) then None
          else Some (OtherColumns (fr_columns target) (cr_columns key))
      end
  end.
Fixpoint check_targets (keys : gmap string (list ConstraintRecord)) (table : string) (records : list ConstraintRecord) :
    result unit ForeignKeyError :=
  match records with
  | [] => Ok ()
  | r :: records =>
      match cr_references r with
      | None => check_targets keys table records
      | Some target =>
          match check_target keys target with
          | Some e => Err (mkForeignKeyError table (cr_id r) e)
          | None => check_targets keys table records
          end
      end
  end.
Fixpoint check_all_targets (keys : gmap string (list ConstraintRecord)) (decoded : list (string * list ConstraintRecord)) :
    result unit ForeignKeyError :=
  match decoded with
  | [] => Ok ()
  | (table, records) :: decoded => let? _ := check_targets keys table records in check_all_targets keys decoded
  end.
Definition validate_foreign_key_targets (tables : list (string * list bytes)) : result unit ForeignKeyError :=
  let decoded := decoded_tables tables in check_all_targets (keys_of decoded) decoded.
End served.
