(* ===== verification/ConstraintsFacts.v ===== *)
(** What serving constraint records guarantees: exactly the tables whose records
    are well formed together pass, the nullability a client sees is the set of
    claimed paths, foreign keys are closed within a schema, and the capability
    agreement selects what both sides have. *)
From S2P Require Import Prelude Codec Float64 Arrow SqlCompare Ipc SqlExpression SqlPrint Wire ConstraintRecord Constraints.

Open Scope Z_scope.

#[local] Opaque MAX_DEPTH MAX_PATHS MAX_RECORDS MAX_RECORD_BYTES MAX_IDENTIFIER.

(** * Paths *)

Lemma check_paths_from_Ok seen paths u : check_paths_from seen paths = Ok u ↔
  Forall (λ p, p ≠ [] ∧ (length p ≤ MAX_DEPTH)%nat ∧ Forall (λ c, identifier c = true) p ∧ p ∉ seen) paths ∧ NoDup paths.
Proof.
  revert seen. induction paths as [|p paths IH]; intros seen; cbn.
  { split; [split; constructor|by destruct u]. }
  rewrite Forall_cons, NoDup_cons.
  assert (forallb identifier p = true ↔ Forall (λ c, identifier c = true) p) as Hid.
  { rewrite forallb_forall, Forall_forall. by setoid_rewrite list_elem_of_In. }
  destruct (null p || _) eqn:E1.
  { split; [done|]. intros [[(Hp & Hl & _) _] _]. apply orb_true_iff in E1 as [E1|E1]; [by destruct p|].
    apply Nat.ltb_lt in E1. lia. }
  apply orb_false_iff in E1 as [E1 El]. apply Nat.ltb_ge in El. assert (p ≠ []) as Hp by (by destruct p).
  destruct (forallb identifier p) eqn:E2; cbn; [|split; [done|]; naive_solver].
  destruct (bool_decide (p ∈ seen)) eqn:E3.
  { apply bool_decide_eq_true in E3. split; [done|]. naive_solver. }
  apply bool_decide_eq_false in E3. rewrite IH. split.
  - intros [F N]. split; [split|split; [|done]].
    + split_and!; [done..|by apply Hid|done].
    + eapply Forall_impl; [exact F|]. intros q (? & ? & ? & Hn). rewrite not_elem_of_union in Hn. naive_solver.
    + intros Hin. rewrite Forall_forall in F. destruct (F p Hin) as (_ & _ & _ & Hn). rewrite not_elem_of_union in Hn.
      set_solver.
  - intros [[_ F] [Hin N]]. split; [|done]. apply Forall_forall. intros q Hq. rewrite Forall_forall in F.
    destruct (F q Hq) as (? & ? & ? & Hn). split_and!; [done..|]. rewrite not_elem_of_union, not_elem_of_singleton. split; [congruence|done].
Qed.

Definition good_paths (paths : list (list string)) : Prop :=
  (length paths ≤ MAX_PATHS)%nat ∧ NoDup paths ∧
  Forall (λ p, p ≠ [] ∧ (length p ≤ MAX_DEPTH)%nat ∧ Forall (λ c, identifier c = true) p) paths.

Lemma check_paths_Ok paths u : check_paths paths = Ok u ↔ good_paths paths.
Proof.
  unfold check_paths, good_paths. destruct (Nat.ltb_spec MAX_PATHS (length paths)) as [Hl|Hl].
  { split; [done|]. lia. }
  rewrite check_paths_from_Ok. split.
  - intros [F N]. split_and!; [done..|]. eapply Forall_impl; [exact F|]. naive_solver.
  - intros (_ & N & F). split; [|done]. eapply Forall_impl; [exact F|]. set_solver.
Qed.

Lemma lift_one_Ok {A E} id (f : E → OneError) (r : result A E) x : lift_one id f r = Ok x ↔ r = Ok x.
Proof. destruct r; cbn; naive_solver. Qed.

Section facts.
Context `{IpcLaws} `{WireRecordLaws} `{CharClasses}.

Lemma check_key_paths_Ok columns id paths u : check_key_paths columns id paths = Ok u ↔
  Forall (λ p, length p = 1%nat ∧ resolve_path columns p = Ok ()) paths.
Proof.
  induction paths as [|p paths IH]; cbn; [by destruct u|]. rewrite Forall_cons, <- IH.
  destruct (Nat.eqb_spec (length p) 1) as [El|El]; cbn; [|naive_solver].
  destruct (lift_one id BadPath _) as [[]|e] eqn:E.
  - apply lift_one_Ok in E. naive_solver.
  - destruct (resolve_path columns p) as [[]|e'] eqn:E'; naive_solver.
Qed.

(** * The records of a table *)

(** What a kind requires of the table's columns. *)
Definition kind_ok (columns : Schema) (r : ConstraintRecord) : Prop :=
  match cr_kind r with
  | Check => check_numeric_comparison (default "" (cr_check_sql r)) columns = Ok ()
  | NotNull => ∃ p, cr_columns r = [p] ∧ resolve_path columns p = Ok ()
  | PrimaryKey | Unique | ForeignKey => Forall (λ p, length p = 1%nat ∧ resolve_path columns p = Ok ()) (cr_columns r)
  end.

(** What every record must satisfy on its own. *)
Record record_ok (schema_path : list string) (table : string) (columns : Schema) (raw : bytes) (r : ConstraintRecord) : Prop := {
  ok_reads : read_constraint_record raw = Ok r;
  ok_schema : length schema_path = 1%nat ∧ cr_schema_path r = schema_path;
  ok_table : cr_table r = table;
  ok_identity : identifier (cr_id r) = true ∧ identifier (cr_table r) = true;
  ok_readable : cr_enforcement r = Enforced ∧ cr_validation r = AllRows;
  ok_label : ∀ l, cr_declared_name r = Some l → identifier l = true;
  ok_paths : good_paths (cr_columns r);
  ok_references : ∀ t, cr_references r = Some t → good_paths (fr_columns t);
  ok_payloads : check_payloads raw schema_path r = Ok ();
  ok_kind : kind_ok columns r;
}.

Definition label_of (r : ConstraintRecord) : option string := to_ascii_lowercase <$> cr_declared_name r.
Definition is_pk (r : ConstraintRecord) : Prop := cr_kind r = PrimaryKey.
#[global] Instance is_pk_dec r : Decision (is_pk r).
Proof. unfold is_pk. apply _. Defined.

(** A record that reads has one path if it is a NOT_NULL. *)
Lemma not_null_one_path raw r : read_constraint_record raw = Ok r → cr_kind r = NotNull → ∃ p, cr_columns r = [p].
Proof.
  intros E Hk. apply read_record_well_shaped in E as [E _]. unfold shape_error in E. rewrite Hk in E.
  repeat match type of E with (if ?b then Some _ else _) = None => destruct b eqn:?; [discriminate E|] end.
  match goal with Hn : _ && negb _ = false |- _ => rename Hn into Hn' end. rewrite bool_decide_true in Hn' by done.
  cbn in Hn'. apply negb_false_iff, Nat.eqb_eq in Hn'. destruct (cr_columns r) as [|p [|]]; [done| |done]. by exists p.
Qed.

Lemma check_kind_Ok columns raw r pk pk' : read_constraint_record raw = Ok r →
  check_kind columns r pk = Ok pk' ↔
  kind_ok columns r ∧ (is_pk r → pk = None) ∧ pk' = if decide (is_pk r) then Some (cr_id r) else pk.
Proof.
  intros Hr. unfold check_kind, kind_ok. assert (is_pk r ↔ cr_kind r = PrimaryKey) as Hpk by done.
  assert (∀ paths, is_ok (check_key_paths columns (cr_id r) paths) = true ↔
    Forall (λ p, length p = 1%nat ∧ resolve_path columns p = Ok ()) paths) as Hkey.
  { intros paths. rewrite <- (check_key_paths_Ok _ (cr_id r) _ ()). destruct (check_key_paths _ _ _) as [[]|]; naive_solver. }
  destruct (cr_kind r) eqn:Hk; [| | | |];
    [rewrite decide_False by naive_solver|rewrite decide_True by naive_solver|rewrite decide_False by naive_solver..].
  - destruct (not_null_one_path _ _ Hr Hk) as [p ->].
    destruct (resolve_path columns p) as [[]|e] eqn:E'; cbn; [naive_solver|]. split; [done|].
    intros ((q & [= <-] & Hq) & _). congruence.
  - specialize (Hkey (cr_columns r)). destruct (check_key_paths _ _ _); cbn in Hkey.
    + destruct pk; split; [done| |intros [= <-]|]; naive_solver.
    + split; [done|]. intros (F & _). apply Hkey in F. done.
  - specialize (Hkey (cr_columns r)). destruct (check_key_paths _ _ _); cbn in Hkey.
    + split; [intros [= <-]|]; naive_solver.
    + split; [done|]. intros (F & _). apply Hkey in F. done.
  - destruct (check_numeric_comparison _ _) as [[]|] eqn:E'; cbn; naive_solver.
  - specialize (Hkey (cr_columns r)). destruct (check_key_paths _ _ _); cbn in Hkey.
    + split; [intros [= <-]|]; naive_solver.
    + split; [done|]. intros (F & _). apply Hkey in F. done.
Qed.

Lemma see_label_Ok id o seen seen' : see_label id o seen = Ok seen' ↔
  (∀ l, o = Some l → identifier l = true ∧ to_ascii_lowercase l ∉ seen) ∧
  seen' = match o with Some l => {[to_ascii_lowercase l]} ∪ seen | None => seen end.
Proof.
  destruct o as [l|]; cbn; [|naive_solver]. destruct (identifier l) eqn:Ei; cbn.
  - case_bool_decide as Hs.
    + split; [done|]. intros [Hl _]. by destruct (Hl l eq_refl).
    + split; [intros [= <-]; split; [|done]; by intros ? [= <-]|]. by intros [_ ->].
  - split; [done|]. intros [Hl _]. destruct (Hl l eq_refl). congruence.
Qed.

Definition kind_seen (seen : Seen) (r : ConstraintRecord) : Seen :=
  mkSeen ({[cr_id r]} ∪ ids seen) (match label_of r with Some l => {[l]} ∪ labels seen | None => labels seen end)
    (if decide (is_pk r) then Some (cr_id r) else primary_key seen).

(** What a record must satisfy next to those seen. *)
Definition fresh (seen : Seen) (r : ConstraintRecord) : Prop :=
  cr_id r ∉ ids seen ∧ (∀ l, label_of r = Some l → l ∉ labels seen) ∧ (is_pk r → primary_key seen = None).

Lemma is_readable_spec r : is_readable r = true ↔ cr_enforcement r = Enforced ∧ cr_validation r = AllRows.
Proof. unfold is_readable. by rewrite andb_true_iff, !bool_decide_eq_true. Qed.

Lemma check_one_Ok sp t columns seen i raw r seen' : check_one sp t columns seen i raw = Ok (r, seen') ↔
  record_ok sp t columns raw r ∧ fresh seen r ∧ seen' = kind_seen seen r.
Proof.
  unfold check_one. split.
  - intros E. step_ok E. apply map_err_Ok in E0 as Hr. repeat step_ok E. injection E as <- <-.
    apply orb_false_iff in E1 as [Hl%negb_false_iff%Nat.eqb_eq Hs%negb_false_iff%bool_decide_eq_true].
    apply negb_false_iff, String.eqb_eq in E2. apply orb_false_iff in E3 as [Hi%negb_false_iff Ht%negb_false_iff].
    apply bool_decide_eq_false in E4. apply negb_false_iff, is_readable_spec in E5.
    apply see_label_Ok in E6 as [Hlab ->]. apply lift_one_Ok, check_paths_Ok in E7. apply lift_one_Ok in E9.
    destruct a2, a3. apply (check_kind_Ok _ _ _ _ _ Hr) in E10 as (Hk & Hpk & ->).
    split; [|split].
    + constructor; try done.
      * intros l El. by destruct (Hlab l El).
      * intros tg Ht'. rewrite Ht' in E8. apply lift_one_Ok, check_paths_Ok in E8. done.
    + split_and!; [done| |done]. unfold label_of. intros l. destruct (cr_declared_name a) as [l'|]; [|done].
      intros [= <-]. by destruct (Hlab l').
    + unfold kind_seen, label_of. by destruct (cr_declared_name a).
  - intros ([Hr [Hl Hs] Ht [Hi Hit] Hread Hlab Hp Href Hpay Hk] & (Hid & Hlf & Hpk) & ->). rewrite Hr. cbn [map_err].
    rewrite Hl, Hs, Ht, Hi, bool_decide_true by done. rewrite <- Ht, Hit, String.eqb_refl. cbn [Nat.eqb negb orb].
    rewrite bool_decide_false by done. rewrite (proj2 (is_readable_spec r) Hread). cbn [negb].
    rewrite (proj2 (see_label_Ok _ _ _ (labels (kind_seen seen r)))).
    2:{ split; [|unfold kind_seen, label_of; by destruct (cr_declared_name r)]. intros l El. split; [by apply Hlab|]. apply Hlf.
        unfold label_of. by rewrite El. }
    rewrite (proj2 (lift_one_Ok _ _ _ ()) (proj2 (check_paths_Ok _ ()) Hp)).
    assert (match cr_references r with Some target => lift_one (cr_id r) BadReferencedPaths (check_paths (fr_columns target)) | None => Ok () end
            = Ok ()) as ->.
    { destruct (cr_references r) as [tg|]; [|done]. apply lift_one_Ok, check_paths_Ok. by apply Href. }
    rewrite (proj2 (lift_one_Ok _ _ _ ()) Hpay).
    by rewrite (proj2 (check_kind_Ok columns raw r _ (primary_key (kind_seen seen r)) Hr)).
Qed.

(** The records are pairwise compatible and compatible with those seen. *)
Definition compatible (seen : Seen) (rs : list ConstraintRecord) : Prop :=
  NoDup (cr_id <$> rs) ∧ NoDup (omap label_of rs) ∧ (length (filter is_pk rs) ≤ 1)%nat ∧ Forall (fresh seen) rs.

Lemma compatible_cons seen r rs : compatible seen (r :: rs) ↔ fresh seen r ∧ compatible (kind_seen seen r) rs.
Proof.
  unfold compatible. rewrite fmap_cons, NoDup_cons, Forall_cons, filter_cons, list_elem_of_fmap, !Forall_forall.
  assert (NoDup (omap label_of (r :: rs)) ↔ (∀ l, label_of r = Some l → l ∉ omap label_of rs) ∧ NoDup (omap label_of rs)) as ->.
  { cbn. destruct (label_of r) as [l|]; [rewrite NoDup_cons; naive_solver|naive_solver]. }
  unfold fresh at 2 4. cbn [ids labels primary_key kind_seen].
  setoid_rewrite elem_of_union. setoid_rewrite elem_of_singleton. setoid_rewrite list_elem_of_omap.
  assert ((length (filter is_pk rs) ≤ 0)%nat ↔ ∀ x, x ∈ rs → ¬ is_pk x) as Hpk.
  { rewrite Nat.le_0_r, length_zero_iff_nil. split.
    - intros E x Hx Hp. assert (x ∈ filter is_pk rs) as Hin by (by apply list_elem_of_filter). rewrite E in Hin. by apply not_elem_of_nil in Hin.
    - intros Hn. apply list_filter_none, Forall_forall. done. }
  destruct (decide (is_pk r)) as [Hr|Hr]; cbn [length]; destruct (label_of r) as [l|] eqn:El.
  all: try setoid_rewrite elem_of_union; try setoid_rewrite elem_of_singleton.
  all: try rewrite <- Nat.succ_le_mono, Hpk.
  all: split; [intros ((Hn & Hnd) & (Hl & Hnl) & Hc & Hf & Hfs)|intros (Hf & Hnd & Hnl & Hc & Hfs)]; split_and!; try done.
  all: try naive_solver lia.
Qed.

Lemma check_loop_Ok sp t columns seen i raws rs : check_loop sp t columns seen i raws = Ok rs ↔
  Forall2 (record_ok sp t columns) raws rs ∧ compatible seen rs.
Proof.
  revert seen i rs. induction raws as [|raw raws IH]; intros seen i rs; cbn [check_loop].
  - split; [|by intros [->%Forall2_nil_inv_l _]]. intros [= <-]. split; [done|]. by repeat constructor; cbn; try lia.
  - destruct (check_one sp t columns seen i raw) as [[r seen']|e] eqn:E.
    + apply check_one_Ok in E as (Hr & Hf & ->). specialize (IH (kind_seen seen r) (S i)).
      destruct (check_loop _ _ _ _ _ raws) as [rs'|e] eqn:E.
      * destruct (proj1 (IH rs') eq_refl) as [F C]. split.
        -- intros [= <-]. split; [by constructor|]. by apply compatible_cons.
        -- intros [F' C']. apply Forall2_cons_inv_l in F' as (r' & rs'' & Hr' & F' & ->).
           assert (r' = r) as -> by (pose proof (ok_reads _ _ _ _ _ Hr); pose proof (ok_reads _ _ _ _ _ Hr'); congruence).
           apply compatible_cons in C' as [_ C']. pose proof (proj2 (IH rs'') (conj F' C')). congruence.
      * split; [done|]. intros [F' C']. apply Forall2_cons_inv_l in F' as (r' & rs'' & Hr' & F' & ->).
        assert (r' = r) as -> by (pose proof (ok_reads _ _ _ _ _ Hr); pose proof (ok_reads _ _ _ _ _ Hr'); congruence).
        apply compatible_cons in C' as [_ C']. by pose proof (proj2 (IH rs'') (conj F' C')).
    + split; [done|]. intros [F C]. apply Forall2_cons_inv_l in F as (r & rs' & Hr & _ & ->).
      apply compatible_cons in C as [Hf _].
      pose proof (proj2 (check_one_Ok sp t columns seen i raw r _) (conj Hr (conj Hf eq_refl))). congruence.
Qed.

Definition total_bytes (raws : list bytes) : Z := foldr (λ raw n, Z.of_nat (length raw) + n) 0 raws.

Lemma total_bytes_nonneg raws : 0 ≤ total_bytes raws.
Proof. induction raws; cbn; [lia|]. fold (total_bytes raws). lia. Qed.

Lemma sizes_ok_spec total raws : 0 ≤ total → sizes_ok total raws = true ↔
  Forall (λ raw, raw ≠ []) raws ∧ (raws = [] ∨ total + total_bytes raws ≤ MAX_RECORD_BYTES).
Proof.
  revert total. induction raws as [|raw raws IH]; intros total Ht; cbn [sizes_ok total_bytes foldr]; [naive_solver|].
  fold (total_bytes raws). rewrite andb_true_iff, negb_true_iff, !orb_false_iff, Z.eqb_neq, !Z.ltb_ge, IH, Forall_cons by lia.
  assert (Z.of_nat (length raw) ≠ 0 ↔ raw ≠ []) as -> by (destruct raw; cbn [length]; split; intros ?; solve [done|lia]).
  pose proof (total_bytes_nonneg raws). split.
  - intros (((? & ?) & ?) & ? & [->|?]); (split; [done|]); right; cbn in *; lia.
  - intros ((? & ?) & [?|?]); [done|]. split_and!; [done|lia|lia|done|]. right. lia.
Qed.

(** A table's records pass exactly when there are at most 1024, none
    is empty and together they fit 8 MiB, each one decodes, belongs to the table and its
    one-component schema, is attested ENFORCED + ALL_ROWS, has well-formed paths that
    resolve, payloads and (for CHECK) an expression within the rules; and together the
    identities are distinct, the labels are distinct up to case, and at most one is a
    PRIMARY KEY.  The decoded records are returned in order. *)
Theorem checked_records_exact sp t columns raws rs : checked_records sp t columns raws = Ok rs ↔
  (length raws ≤ MAX_RECORDS)%nat ∧ Forall (λ raw, raw ≠ []) raws ∧ total_bytes raws ≤ MAX_RECORD_BYTES ∧
  Forall2 (record_ok sp t columns) raws rs ∧
  NoDup (cr_id <$> rs) ∧ NoDup (omap label_of rs) ∧ (length (filter is_pk rs) ≤ 1)%nat.
Proof.
  unfold checked_records. destruct (Nat.ltb_spec MAX_RECORDS (length raws)) as [Hl|Hl]; [split; [done|lia]|].
  destruct (sizes_ok 0 raws) eqn:Es; cbn [negb].
  - apply (sizes_ok_spec 0) in Es as [Hne Hs]; [|lia]. rewrite check_loop_Ok. unfold compatible.
    assert (total_bytes raws ≤ MAX_RECORD_BYTES) by (destruct Hs as [->|?]; [cbn; by vm_compute|lia]).
    assert (Forall (fresh nothing_seen) rs) by (apply Forall_forall; intros r _; unfold fresh; cbn; set_solver). tauto.
  - split; [done|]. intros (_ & Hne & Hs & _). apply not_true_iff_false in Es. destruct Es. apply sizes_ok_spec; [lia|]. auto.
Qed.

(** The loop never indexes out of bounds. *)
Lemma checked_kind_no_panic raw r columns pk id : read_constraint_record raw = Ok r →
  Forall (λ p, p ≠ []) (cr_columns r) → check_kind columns r pk ≠ Err (OnConstraint id (BadPath PathPanic)).
Proof.
  intros Hr Hp. assert (∀ rest path f, resolve_below path f rest ≠ Err PathPanic) as Hb.
  { induction rest as [|x rest IH]; intros path f; cbn; [done|]. destruct (ordinary_struct_children f); [|done].
    destruct (filter _ _) as [|c [|]]; [done|apply IH|done]. }
  assert (∀ path, path ≠ [] → resolve_path columns path ≠ Err PathPanic) as Hres.
  { intros [|x path] Hne; [done|]. cbn. destruct (find_field x columns) as [[i f]|]; [|done]. destruct (is_row_id f); [done|apply Hb]. }
  assert (∀ path, path ≠ [] → lift_one (cr_id r) BadPath (resolve_path columns path) ≠ Err (OnConstraint id (BadPath PathPanic))) as Hl.
  { intros path Hne E. specialize (Hres path Hne). destruct (resolve_path columns path) as [|[]]; cbn in E; congruence. }
  assert (∀ paths, Forall (λ p, p ≠ []) paths → check_key_paths columns (cr_id r) paths ≠ Err (OnConstraint id (BadPath PathPanic))) as Hk.
  { induction 1 as [|p paths Hne F IH]; cbn; [done|]. destruct (negb _); [done|]. specialize (Hl p Hne).
    destruct (lift_one _ _ _); [done|congruence]. }
  unfold check_kind. specialize (Hk _ Hp). destruct (cr_kind r) eqn:Ek.
  - destruct (not_null_one_path _ _ Hr Ek) as [p Ep]. rewrite Ep in *. apply Forall_cons in Hp as [Hp _].
    specialize (Hl p Hp). destruct (lift_one _ _ _); [done|congruence].
  - destruct (check_key_paths _ _ _); [by destruct pk|congruence].
  - destruct (check_key_paths _ _ _); [done|congruence].
  - destruct (check_numeric_comparison _ _); done.
  - destruct (check_key_paths _ _ _); [done|congruence].
Qed.
End facts.

(** * Served columns *)

(** The field at a position, down through ordinary structs, and its path of names. *)
Fixpoint field_at (fs : list Field) (position : list nat) : option (list string * Field) :=
  match position with
  | [] => None
  | i :: rest =>
      f ← fs !! i;
      match rest with
      | [] => Some ([name f], f)
      | _ => children ← ordinary_struct_children f;
             '(p, g) ← field_at children rest;
             Some (name f :: p, g)
      end
  end.

Lemma field_at_below fs i j rest : field_at fs (i :: j :: rest) =
  (f ← fs !! i; children ← ordinary_struct_children f; '(p, g) ← field_at children (j :: rest); Some (name f :: p, g)).
Proof. done. Qed.

(** A served field: the nullability says whether its path is required; all else
    is kept, but for the children of an ordinary struct, served in turn. *)
Definition served_as (required : gset (list string)) (prefix : list string) (x y : list string * Field) : Prop :=
  x.1 = y.1 ∧ name x.2 = name y.2 ∧ metadata x.2 = metadata y.2 ∧
  is_nullable y.2 = bool_decide (prefix ++ x.1 ∉ required) ∧
  (ordinary_struct_children x.2 = None → data_type y.2 = data_type x.2).

Section served_fields.
Variable required : gset (list string).

Lemma normalize_field_eq prefix f : normalize_field required prefix f =
  if null prefix && is_row_id f then Ok f
  else
    let path := prefix ++ [name f] in
    let out := with_nullable f (bool_decide (path ∉ required)) in
    match ordinary_struct_children f with
    | Some children =>
        if (MAX_DEPTH <? length path)%nat then Err NestingTooDeep
        else let? cs := normalize_all required path children in Ok (with_data_type out (Struct cs))
    | None => Ok out
    end.
Proof.
  destruct f as [n t b md]. destruct t; try done. unfold ordinary_struct_children.
  cbn [normalize_field data_type metadata name]. destruct (_ && _); [done|].
  destruct (ordinary md); [|done]. cbn zeta. destruct (MAX_DEPTH <? _)%nat; [done|]. generalize (prefix ++ [n]). intros path.
  match goal with |- (match ?g fs with Ok _ => _ | Err _ => _ end) = _ =>
    assert (g fs = normalize_all required path fs) as -> by (induction fs as [|c fs IH]; cbn; [done|by rewrite IH]) end.
  done.
Qed.

Lemma normalize_all_Forall2 prefix l l' : normalize_all required prefix l = Ok l' →
  Forall2 (λ f f', normalize_field required prefix f = Ok f') l l'.
Proof.
  revert l'. induction l as [|f l IH]; intros l' E; cbn in E; [injection E as <-; constructor|].
  destruct (normalize_field required prefix f) as [f'|] eqn:Ef; [|done]. destruct (normalize_all required prefix l) as [l''|]; [|done].
  injection E as <-. constructor; [done|by apply IH].
Qed.

(** A field that is not the row id: its own part and its children. *)
Lemma normalize_field_Ok prefix f f' : null prefix && is_row_id f = false → normalize_field required prefix f = Ok f' →
  served_as required prefix ([name f], f) ([name f'], f') ∧
  match ordinary_struct_children f with
  | Some cs => ∃ cs', normalize_all required (prefix ++ [name f]) cs = Ok cs' ∧ ordinary_struct_children f' = Some cs'
  | None => ordinary_struct_children f' = None
  end.
Proof.
  intros Hrow. rewrite normalize_field_eq, Hrow. cbn zeta. unfold served_as.
  destruct (ordinary_struct_children f) as [cs|] eqn:Ec.
  - destruct (MAX_DEPTH <? _)%nat; [done|]. destruct (normalize_all _ _ cs) as [cs'|] eqn:En; [|done]. intros [= <-].
    destruct f as [n t b md]. unfold ordinary_struct_children in *. cbn in Ec |- *. destruct t; try done.
    destruct (ordinary md) eqn:Eo; [|done]. injection Ec as ->. split; [done|]. exists cs'. done.
  - intros [= <-]. destruct f as [n t b md]. split; [done|]. exact Ec.
Qed.

Lemma field_at_served : ∀ position l l' prefix, normalize_all required prefix l = Ok l' →
  (∀ i f, head position = Some i → l !! i = Some f → null prefix && is_row_id f = false) →
  option_Forall2 (served_as required prefix) (field_at l position) (field_at l' position).
Proof.
  induction position as [|i rest IH]; intros l l' prefix E Hrow; [constructor|].
  pose proof (Forall2_length _ _ _ (normalize_all_Forall2 _ _ _ E)) as Hl.
  cbn [field_at]. destruct (l !! i) as [f|] eqn:Ei; cbn [mbind option_bind].
  2:{ apply lookup_ge_None in Ei. rewrite (proj2 (lookup_ge_None l' i)) by lia. constructor. }
  destruct (Forall2_lookup_l _ _ _ _ _ (normalize_all_Forall2 _ _ _ E) Ei) as (f' & Ei' & Ef). rewrite Ei'. cbn [mbind option_bind].
  destruct (normalize_field_Ok _ _ _ (Hrow i f eq_refl Ei) Ef) as [Hs Hc]. destruct rest as [|j rest]; [by constructor|].
  destruct Hs as (Hn & _ & _). cbn in Hn. injection Hn as Hn.
  destruct (ordinary_struct_children f) as [cs|]; [|rewrite Hc; constructor]. destruct Hc as (cs' & En & ->). cbn [mbind option_bind].
  destruct (IH cs cs' (prefix ++ [name f]) En) as [[p g] [p' g'] (H1 & H2 & H3 & H4 & H5)|]; [by destruct prefix| |constructor].
  cbn in *. subst p'. constructor. rewrite <- Hn. split_and!; cbn; try done. by rewrite <- app_assoc in H4.
Qed.

(** The row-id columns of the table are left alone. *)
Lemma row_id_untouched l l' i f : normalize_all required [] l = Ok l' → l !! i = Some f → is_row_id f = true → l' !! i = Some f.
Proof.
  intros E Ei Hr. destruct (Forall2_lookup_l _ _ _ _ _ (normalize_all_Forall2 _ _ _ E) Ei) as (f' & Ei' & Ef).
  rewrite normalize_field_eq, Hr in Ef. by injection Ef as <-.
Qed.
End served_fields.

(** A path that resolves is the path of a position. *)
Lemma resolve_below_position path rest f : resolve_below path f rest = Ok () → rest ≠ [] →
  ∃ cs position g, ordinary_struct_children f = Some cs ∧ field_at cs position = Some (rest, g).
Proof.
  revert f. induction rest as [|x rest IH]; intros f E Hne; [done|]. cbn in E.
  destruct (ordinary_struct_children f) as [cs|] eqn:Ec; [|done]. destruct (filter _ cs) as [|c [|]] eqn:Ef; [done| |done].
  assert (c ∈ filter (λ c, name c = x) cs) as [Hn Hin]%list_elem_of_filter by (rewrite Ef; by left).
  apply list_elem_of_lookup in Hin as (i & Hi). exists cs. destruct rest as [|y rest].
  { exists [i], c. split; [done|]. cbn. rewrite Hi. cbn. by rewrite Hn. }
  destruct (IH c E) as (cs' & pos & g & Hc & Hg); [done|]. exists (i :: pos), g. split; [done|].
  destruct pos as [|j pos]; [done|]. rewrite field_at_below, Hi. cbn [mbind option_bind]. rewrite Hc. cbn [mbind option_bind].
  rewrite Hg. cbn. by rewrite Hn.
Qed.

Lemma resolve_path_position columns path : resolve_path columns path = Ok () →
  ∃ i f pos g, columns !! i = Some f ∧ is_row_id f = false ∧ field_at columns (i :: pos) = Some (path, g).
Proof.
  destruct path as [|x rest]; [done|]. cbn [resolve_path]. destruct (find_field x columns) as [[i f]|] eqn:Ef; [|done].
  apply list_find_Some in Ef as (Hi & Hn & _). destruct (is_row_id f) eqn:Hr; [done|]. intros E.
  exists i, f. destruct rest as [|y rest].
  { exists [], f. split_and!; [done..|]. cbn. rewrite Hi. cbn. by rewrite Hn. }
  destruct (resolve_below_position _ _ _ E) as (cs & pos & g & Hc & Hg); [done|]. exists pos, g. split_and!; [done..|].
  destruct pos as [|j pos]; [done|]. rewrite field_at_below, Hi. cbn [mbind option_bind]. rewrite Hc. cbn [mbind option_bind].
  rewrite Hg. cbn. by rewrite Hn.
Qed.

Section serving.
Context `{IpcLaws} `{WireRecordLaws} `{CharClasses}.

Lemma required_paths_spec rs p : p ∈ required_paths rs ↔ ∃ r, r ∈ rs ∧ (cr_kind r = NotNull ∨ cr_kind r = PrimaryKey) ∧ p ∈ cr_columns r.
Proof.
  unfold required_paths. rewrite elem_of_list_to_set, list_elem_of_bind. setoid_rewrite list_elem_of_filter. naive_solver.
Qed.

(** The paths a NOT_NULL or PRIMARY_KEY record claims resolve. *)
Lemma claimed_path_resolves sp t columns raws rs p : checked_records sp t columns raws = Ok rs → p ∈ required_paths rs →
  resolve_path columns p = Ok ().
Proof.
  intros (_ & _ & _ & F & _)%checked_records_exact (r & Hr & Hk & Hp)%required_paths_spec.
  apply list_elem_of_lookup in Hr as (i & Hi). destruct (Forall2_lookup_r _ _ _ _ _ F Hi) as (raw & _ & Hok).
  pose proof (ok_kind _ _ _ _ _ Hok) as Hkind. unfold kind_ok in Hkind. destruct Hk as [Hk|Hk]; rewrite Hk in Hkind.
  - destruct Hkind as (q & Eq & Hq). rewrite Eq in Hp. by apply list_elem_of_singleton in Hp as ->.
  - rewrite Forall_forall in Hkind. by apply Hkind.
Qed.


(** * Foreign keys of a schema *)

Lemma keys_of_lookup decoded n : NoDup ((to_ascii_lowercase ∘ fst) <$> decoded) →
  ∀ rs, keys_of decoded !! n = Some rs ↔ ∃ t, (t, rs) ∈ decoded ∧ to_ascii_lowercase t = n.
Proof.
  intros Hnd rs. unfold keys_of.
  assert (∀ m : gmap string (list ConstraintRecord), (∀ t rs, (t, rs) ∈ decoded → m !! to_ascii_lowercase t = None) →
    foldl (λ m nr, <[to_ascii_lowercase nr.1 := nr.2]> m) m decoded !! n = Some rs ↔
    m !! n = Some rs ∨ ∃ t, (t, rs) ∈ decoded ∧ to_ascii_lowercase t = n) as Hgen.
  { induction decoded as [|[t0 rs0] decoded IH]; intros m Hm; cbn [foldl].
    - split; [by left|]. intros [?|(t & []%not_elem_of_nil & _)]; done.
    - rewrite fmap_cons, NoDup_cons in Hnd. destruct Hnd as [Hn Hnd]. rewrite IH; [|done|].
      + setoid_rewrite elem_of_cons. rewrite lookup_insert_Some. specialize (Hm t0 rs0 ltac:(by left)). cbn [fst snd]. split.
        * intros [[(<- & <-)|(? & ?)]|(t & ? & ?)]; [right; exists t0; auto|by left|right; exists t; auto].
        * intros [?|(t & [[= -> ->]|?] & <-)]; [|by left; left|right; exists t; auto].
          left. right. split; [|done]. intros E. rewrite E in Hm. congruence.
      + intros t rs' Hin. cbn [fst snd]. rewrite lookup_insert_ne; [apply (Hm t rs'); by right|]. intros E. apply Hn.
        apply list_elem_of_fmap. exists (t, rs'). done. }
  rewrite Hgen by done. rewrite lookup_empty. naive_solver.
Qed.

Lemma check_targets_Ok keys t rs u : check_targets keys t rs = Ok u ↔
  ∀ r target, r ∈ rs → cr_references r = Some target → check_target keys target = None.
Proof.
  destruct u. induction rs as [|r rs IH]; cbn; [by split; [intros _ ? ? []%not_elem_of_nil|]|]. setoid_rewrite elem_of_cons.
  destruct (cr_references r) as [tg|] eqn:Er; [|naive_solver]. destruct (check_target keys tg) eqn:Et; [|naive_solver].
  split; [done|]. intros Hall. rewrite (Hall r tg) in Et; naive_solver.
Qed.

Lemma check_all_targets_Ok keys decoded u : check_all_targets keys decoded = Ok u ↔
  ∀ t rs r target, (t, rs) ∈ decoded → r ∈ rs → cr_references r = Some target → check_target keys target = None.
Proof.
  destruct u. induction decoded as [|[t rs] decoded IH]; cbn; [by split; [intros _ ? ? ? ? []%not_elem_of_nil|]|].
  setoid_rewrite elem_of_cons. destruct (check_targets keys t rs) as [[]|] eqn:E.
  - rewrite check_targets_Ok in E. rewrite IH. split; [|eauto]. intros Hall t' rs' r target [[= -> ->]|Hin]; eauto.
  - split; [done|]. intros Hall. assert (check_targets keys t rs = Ok ()) by (apply check_targets_Ok; eauto). congruence.
Qed.

(** A schema's tables with their columns, and the records each is served with. *)
Definition table_of (x : string * Schema * list bytes) : string * list bytes := (x.1.1, x.2).

Lemma decoded_served sp ts rss : Forall2 (λ x rs, checked_records sp x.1.1 x.1.2 x.2 = Ok rs) ts rss →
  decoded_tables (table_of <$> ts) = zip (ts.*1.*1) rss.
Proof.
  induction 1 as [|[[t cols] raws] rs ts rss E F IH]; [done|]. cbn. unfold decoded_tables in IH. rewrite IH. f_equal. f_equal.
  cbn in E. apply checked_records_exact in E as (_ & _ & _ & F' & _). clear -F'. induction F' as [|raw r raws rs Hok F IH]; [done|].
  cbn. rewrite (ok_reads _ _ _ _ _ Hok). cbn. by rewrite IH.
Qed.

(** The target of a foreign key is a key of a table. *)
Definition references_key (ts : list (string * Schema * list bytes)) (rss : list (list ConstraintRecord)) (target : ForeignKeyReference) : Prop :=
  ∃ u rs key, (u, rs) ∈ zip (ts.*1.*1) rss ∧ to_ascii_lowercase u = to_ascii_lowercase (fr_table target) ∧
    key ∈ rs ∧ cr_id key = fr_constraint_id target ∧ (cr_kind key = PrimaryKey ∨ cr_kind key = Unique) ∧
    (∀ p, p ∈ fr_columns target ↔ p ∈ cr_columns key).

Lemma find_by_id rs id key : NoDup (cr_id <$> rs) → key ∈ rs → cr_id key = id → find (λ r, String.eqb (cr_id r) id) rs = Some key.
Proof.
  induction rs as [|r rs IH]; intros Hnd Hin <-; [by apply not_elem_of_nil in Hin|]. rewrite fmap_cons, NoDup_cons in Hnd.
  destruct Hnd as [Hn Hnd]. cbn. apply elem_of_cons in Hin as [->|Hin]; [by rewrite String.eqb_refl|].
  destruct (String.eqb_spec (cr_id r) (cr_id key)) as [E|]; [|by apply IH]. exfalso. apply Hn, list_elem_of_fmap. by exists key.
Qed.

Lemma check_target_None ts rss target : NoDup ((to_ascii_lowercase ∘ fst) <$> zip (ts.*1.*1) rss) →
  Forall (λ rs, NoDup (cr_id <$> rs)) rss →
  check_target (keys_of (zip (ts.*1.*1) rss)) target = None ↔ references_key ts rss target.
Proof.
  intros Hnd Hids. unfold check_target, references_key. pose proof (keys_of_lookup _ (to_ascii_lowercase (fr_table target)) Hnd) as Hk.
  assert (∀ k, is_key k = true ↔ k = PrimaryKey ∨ k = Unique) as Hkey.
  { intros k. unfold is_key. by rewrite orb_true_iff, !bool_decide_eq_true. }
  assert (∀ l l' : list (list string), list_to_set (C := gset (list string)) l = list_to_set l' ↔ ∀ p, p ∈ l ↔ p ∈ l') as Hset.
  { intros l l'. rewrite set_eq. by setoid_rewrite elem_of_list_to_set. }
  destruct (keys_of _ !! _) as [rs|] eqn:El.
  - destruct (proj1 (Hk rs) eq_refl) as (u & Hu & Elow).
    assert (∀ u' rs', (u', rs') ∈ zip ts.*1.*1 rss → to_ascii_lowercase u' = to_ascii_lowercase (fr_table target) → rs' = rs) as Huniq.
    { intros u' rs' Hin1 Hin2. assert (Some rs = Some rs') as [= <-]; [|done]. apply Hk. eauto. }
    assert (NoDup (cr_id <$> rs)) as Hrs.
    { rewrite Forall_forall in Hids. apply Hids. apply list_elem_of_lookup in Hu as (i & (_ & Hi)%lookup_zip_Some).
      by eapply list_elem_of_lookup_2. }
    destruct (find _ rs) as [key|] eqn:Ef.
    + pose proof Ef as [Hin Eid%String.eqb_eq]%find_some. apply list_elem_of_In in Hin.
      assert (∀ key', key' ∈ rs → cr_id key' = fr_constraint_id target → key' = key) as Hone.
      { intros key' Hk1 Hk2. pose proof (find_by_id _ _ _ Hrs Hk1 Hk2). congruence. }
      destruct (is_key (cr_kind key)) eqn:Eis; cbn.
      * case_bool_decide as Hs.
        -- split; [|done]. intros _. exists u, rs, key. rewrite Hset in Hs. split_and!; try done. by apply Hkey.
        -- split; [done|]. intros (u' & rs' & key' & Hu' & Elow' & Hin' & Eid' & _ & Hcols). destruct Hs. apply Hset.
           rewrite (Huniq _ _ Hu' Elow') in Hin'. by rewrite (Hone _ Hin' Eid') in Hcols.
      * split; [done|]. intros (u' & rs' & key' & Hu' & Elow' & Hin' & Eid' & Hk' & _). rewrite (Huniq _ _ Hu' Elow') in Hin'.
        rewrite (Hone _ Hin' Eid') in Hk'. apply Hkey in Hk'. congruence.
    + split; [done|]. intros (u' & rs' & key' & Hu' & Elow' & Hin' & Eid' & _). rewrite (Huniq _ _ Hu' Elow') in Hin'.
      rewrite (find_by_id _ _ _ Hrs Hin' Eid') in Ef. done.
  - split; [done|]. intros (u & rs & key & Hu & Elow & _). assert (None = Some rs) as [=]. apply Hk. eauto.
Qed.

(** A schema whose tables are all served (with names distinct up to
    case) passes the foreign-key check exactly when every foreign key among its records names
    a PRIMARY KEY or UNIQUE record of one of those tables, with the same set of columns. *)
Theorem foreign_keys_closed sp ts rss :
  Forall2 (λ x rs, checked_records sp x.1.1 x.1.2 x.2 = Ok rs) ts rss →
  NoDup ((to_ascii_lowercase ∘ fst ∘ fst) <$> ts) →
  validate_foreign_key_targets (table_of <$> ts) = Ok () ↔
  ∀ rs r target, rs ∈ rss → r ∈ rs → cr_references r = Some target → references_key ts rss target.
Proof.
  intros F Hnd. unfold validate_foreign_key_targets. rewrite (decoded_served sp ts rss F), check_all_targets_Ok.
  pose proof (Forall2_length _ _ _ F) as Hl.
  assert (NoDup ((to_ascii_lowercase ∘ fst) <$> zip (ts.*1.*1) rss)) as Hnd'.
  { rewrite list_fmap_compose, fst_zip by (rewrite !length_fmap; lia). by rewrite <- !list_fmap_compose. }
  assert (Forall (λ rs, NoDup (cr_id <$> rs)) rss) as Hids.
  { eapply Forall2_Forall_r; [exact F|]. apply Forall_forall. intros x _ rs E. by apply checked_records_exact in E as (_ & _ & _ & _ & ? & _). }
  setoid_rewrite (check_target_None ts rss _ Hnd' Hids). split.
  - intros Hall rs r target Hrs. apply list_elem_of_lookup in Hrs as (i & Hi).
    destruct (Forall2_lookup_r _ _ _ _ _ F Hi) as (x & Hx & _). apply (Hall x.1.1 rs).
    apply list_elem_of_lookup. exists i. apply lookup_zip_Some. by rewrite !list_lookup_fmap, Hx.
  - intros Hall t rs r target Hin. apply (Hall rs). apply list_elem_of_lookup in Hin as (i & (_ & Hi)%lookup_zip_Some).
    by eapply list_elem_of_lookup_2.
Qed.
End serving.

(** * The capability agreement *)

Section agreement.
Context `{IpcLaws} `{WireRecordLaws}.

(** What a client's capabilities offer to read. *)
Definition client_offers (client : option bytes) (p : string) : Prop :=
  ∃ raw c catalog caps, client = Some raw ∧ raw ≠ [] ∧ dec raw = Ok c ∧ cl_catalog c = Some catalog ∧ catalog ≠ [] ∧
    dec catalog = Ok caps ∧ p ∈ cc_read caps.

Lemma select_read_profiles_spec available client l : select_read_profiles available client = Ok l →
  ∀ p, p ∈ l ↔ p ∈ available ∧ client_offers client p ∧
              (p = ROW_SCALAR_EXPRESSION → CONSTRAINT_RECORDS_READ ∈ available ∧ client_offers client CONSTRAINT_RECORDS_READ).
Proof.
  unfold select_read_profiles. destruct client as [raw|].
  2:{ intros [= <-] p. split; [by intros []%not_elem_of_nil|]. intros (_ & (? & ? & ? & ? & [=] & _) & _). }
  destruct raw as [|b raw].
  { intros [= <-] p. split; [by intros []%not_elem_of_nil|]. intros (_ & (? & ? & ? & ? & [= <-] & [] & _) & _). done. }
  destruct (dec (b :: raw)) as [c|] eqn:Ec; [|done].
  assert (∀ offered : list string, (∀ p, p ∈ offered ↔ client_offers (Some (b :: raw)) p) →
    ∀ p, p ∈ normalize_read_profiles (filter (λ p, p ∈ offered) available) ↔
      p ∈ available ∧ client_offers (Some (b :: raw)) p ∧
      (p = ROW_SCALAR_EXPRESSION → CONSTRAINT_RECORDS_READ ∈ available ∧ client_offers (Some (b :: raw)) CONSTRAINT_RECORDS_READ)) as Hgen.
  { intros offered Ho p. rewrite (proj2 (normalize_spec _)). unfold selects. rewrite !list_elem_of_filter, !Ho. tauto. }
  assert (∀ p, client_offers (Some (b :: raw)) p ↔ ∃ catalog caps, cl_catalog c = Some catalog ∧ catalog ≠ [] ∧ dec catalog = Ok caps ∧ p ∈ cc_read caps) as Hoff.
  { intros p. unfold client_offers. split; [|intros (cat & caps & ? & ? & ? & ?); by exists (b :: raw), c, cat, caps]. intros (raw' & c' & cat & caps & [= <-] & _ & Ec' & ? & ? & ? & ?).
    rewrite Ec in Ec'. injection Ec' as <-. by exists cat, caps. }
  destruct (cl_catalog c) as [[|b' cat]|] eqn:Ecat; cbn.
  - intros [= <-]. apply Hgen. intros p. rewrite Hoff. split; [by intros []%not_elem_of_nil|]. by intros (? & ? & [= <-] & [] & _).
  - destruct (dec (b' :: cat)) as [caps|] eqn:Ed; [|done]. intros [= <-]. apply Hgen. intros p. rewrite Hoff.
    split; [intros Hp; by exists (b' :: cat), caps|]. intros (cat' & caps' & [= <-] & _ & E & Hp). rewrite Ed in E. by injection E as <-.
  - intros [= <-]. apply Hgen. intros p. rewrite Hoff. split; [by intros []%not_elem_of_nil|]. by intros (? & ? & [=] & _).
Qed.

Lemma merge_read base read p : p ∈ cc_read (merge base read) ↔ selects (cc_read base ++ read) p.
Proof.
  cbn. rewrite (proj2 (normalize_spec _)). unfold selects, sorted_union. by rewrite !(proj2 (sorted_unique_spec _)).
Qed.

Lemma read_encoded_capabilities c bs : enc c = Ok bs → read_catalog_capabilities bs = Ok c.
Proof. intros E. pose proof (enc_nonempty _ _ E). unfold read_catalog_capabilities. destruct bs; [done|]. by apply dec_enc. Qed.

(** The agreement of an attach with constraint records: every record profile
    is advertised; what is selected was selected by the hook or is implemented and offered by
    the client; the scalar-expression profile is never selected without constraint records;
    what is selected is advertised, if that holds of the hook; both lists are sorted without
    repeats. *)
Theorem agreement_sound hook client a s (HA HS : CatalogCapabilities) :
  agree_capabilities (read_profiles_for true) hook client = Ok (Some (a, s)) →
  match hook with
  | None => HA = empty_capabilities ∧ HS = empty_capabilities
  | Some (x, y) => read_catalog_capabilities x = Ok HA ∧ read_catalog_capabilities y = Ok HS
  end →
  ∃ A S, read_catalog_capabilities a = Ok A ∧ read_catalog_capabilities s = Ok S ∧
  StronglySorted str_lt (cc_read A) ∧ StronglySorted str_lt (cc_read S) ∧
  (∀ p, p ∈ cc_read A ↔ p ∈ cc_read HA ∨ p ∈ read_profiles_for true) ∧
  (∀ p, p ∈ cc_read S → p ∈ cc_read HS ∨ p ∈ read_profiles_for true ∧ client_offers client p) ∧
  (ROW_SCALAR_EXPRESSION ∈ cc_read S → CONSTRAINT_RECORDS_READ ∈ cc_read S) ∧
  (client_offers client CONSTRAINT_RECORDS_READ → ∀ p, p ∈ read_profiles_for true → client_offers client p → p ∈ cc_read S) ∧
  ((∀ p, p ∈ cc_read HS → p ∈ cc_read HA) → ∀ p, p ∈ cc_read S → p ∈ cc_read A).
Proof.
  intros E Hhook. unfold agree_capabilities in E. cbn [read_profiles_for] in E.
  destruct (select_read_profiles _ _) as [sel|] eqn:Es; [|done]. pose proof (select_read_profiles_spec _ _ _ Es) as Hsel. clear Es.
  assert (∃ x y, enc (merge HA (read_profiles_for true)) = Ok x ∧ enc (merge HS sel) = Ok y ∧ a = x ∧ s = y) as (x & y & Ex & Ey & -> & ->).
  { cbn [read_profiles_for]. destruct hook as [[hx hy]|]; [destruct Hhook as [E1 E2]; rewrite E1, E2 in E|destruct Hhook as [-> ->]];
      cbv beta iota in E; step_ok E; step_ok E; injection E as <- <-; eauto 10. }
  clear E. exists (merge HA (read_profiles_for true)), (merge HS sel).
  assert (∀ p, p ∈ cc_read (merge HA (read_profiles_for true)) ↔ p ∈ cc_read HA ∨ p ∈ read_profiles_for true) as HAeq.
  { intros p. rewrite merge_read. unfold selects. rewrite !elem_of_app. split; [tauto|]. intros Hp. split; [done|]. intros _. right. by left. }
  assert (∀ p, p ∈ cc_read (merge HS sel) → p ∈ cc_read HS ∨ p ∈ read_profiles_for true ∧ client_offers client p) as HSsub.
  { intros p. rewrite merge_read. unfold selects. rewrite elem_of_app, Hsel. unfold read_profiles_for. tauto. }
  split_and!; [by apply read_encoded_capabilities..|apply normalize_spec|apply normalize_spec|done|done| | |].
  - rewrite !merge_read. unfold selects. intros [Hp Hr]. specialize (Hr eq_refl). split; [done|]. intros [=].
  - intros Hrec p Hp Ho. rewrite merge_read. unfold selects. rewrite !elem_of_app, !Hsel. unfold read_profiles_for in Hp.
    assert (CONSTRAINT_RECORDS_READ ∈ [CONSTRAINT_RECORDS_READ; ROW_SCALAR_EXPRESSION]) as Hin by (by left). naive_solver.
  - intros Hsub p Hp. apply HAeq. destruct (HSsub p Hp) as [?|[? _]]; auto.
Qed.
End agreement.

(** * Witnesses *)

#[local] Existing Instances text_stream text_stream_laws text_records text_record_laws ascii_chars.

Definition sample_columns : Schema :=
  [mkField "id" Int64 true []; mkField "s" (Struct [mkField "x" Float64 true []; mkField "y" Float64 false []]) false [("comment", "kept")];
   mkField "rowid" Int64 false [("is_row_id", "true")]].
Definition sample_pk : ConstraintRecord := enforced (with_columns (new_record ["main"] "users" "users.pk" PrimaryKey) [["id"]]).
Definition sample_nn : ConstraintRecord := enforced (with_columns (new_record ["main"] "users" "users.x" NotNull) [["s"; "x"]]).
Definition sample_check : ConstraintRecord :=
  mkRecord ["main"] "users" "users.c" Check [] Enforced AllRows (Some "positive") (Some "id >= 0") None.
Definition raw_of (r : ConstraintRecord) : bytes := match constraint_record r with Ok b => b | Err _ => [] end.
Definition sample_raws : list bytes := Eval vm_compute in raw_of <$> [sample_pk; sample_nn; sample_check].
Definition orders_raws : list bytes := Eval vm_compute in raw_of <$> [sample_fk].
Definition orders_columns : Schema := [mkField "user_id" Int64 true []].

Lemma checked_records_exact_witness :
  checked_records ["main"] "users" sample_columns sample_raws = Ok [sample_pk; sample_nn; sample_check] ∧
  NoDup (cr_id <$> [sample_pk; sample_nn; sample_check]).
Proof.
  assert (checked_records ["main"] "users" sample_columns sample_raws = Ok [sample_pk; sample_nn; sample_check]) as E
    by (vm_compute; reflexivity).
  split; [exact E|]. apply (checked_records_exact ["main"] "users" sample_columns sample_raws _) in E. apply E.
Defined.


Lemma foreign_keys_closed_witness :
  validate_foreign_key_targets [("users", sample_raws); ("orders", orders_raws)] = Ok () ∧
  references_key [("users", sample_columns, sample_raws); ("orders", orders_columns, orders_raws)]
    [[sample_pk; sample_nn; sample_check]; [sample_fk]] (mkReference ["main"] "users" [["id"]] "users.pk").
Proof.
  pose proof (foreign_keys_closed ["main"] [("users", sample_columns, sample_raws); ("orders", orders_columns, orders_raws)]
    [[sample_pk; sample_nn; sample_check]; [sample_fk]]) as T.
  assert (validate_foreign_key_targets [("users", sample_raws); ("orders", orders_raws)] = Ok ()) as E by (vm_compute; reflexivity).
  split; [exact E|]. destruct T as [T _].
  - constructor; [vm_compute; reflexivity|]. constructor; [vm_compute; reflexivity|constructor].
  - apply (bool_decide_unpack _). vm_compute. exact I.
  - apply (T E [sample_fk] sample_fk); [right; left|left|reflexivity].
Defined.

Definition sample_client : bytes := Eval vm_compute in
  match enc (mkClient "duckdb" (ok_of (enc client_catalog_capabilities))) with Ok b => b | Err _ => [] end.

Lemma agreement_sound_witness :
  ∃ a s A S, agree_capabilities (read_profiles_for true) None (Some sample_client) = Ok (Some (a, s)) ∧
    read_catalog_capabilities a = Ok A ∧ read_catalog_capabilities s = Ok S ∧
    (ROW_SCALAR_EXPRESSION ∈ cc_read S → CONSTRAINT_RECORDS_READ ∈ cc_read S).
Proof.
  destruct (agree_capabilities (read_profiles_for true) None (Some sample_client)) as [[[a s]|]|e] eqn:E;
    [|exfalso; revert E; vm_compute; discriminate..].
  destruct (agreement_sound None (Some sample_client) a s empty_capabilities empty_capabilities E) as (A & S & EA & ES & _ & _ & _ & _ & Hrow & _);
    [by split|]. exists a, s, A, S. split; [reflexivity|]. split; [exact EA|]. split; [exact ES|exact Hrow].
Defined.
