(* ===== verification/ColumnExpressions.v ===== *)
(** Column metadata of served tables, [vgi/src/column_expressions.rs] and
    [vgi/src/column_metadata.rs]: the carrier of a generated column's expression,
    the translation of the legacy key, and the rules checked on every field at any
    depth.  Base64, the strict IPC reader and the JSON reader are parameters.
    Errors are the variants of the source's messages. *)
From S2P Require Import Prelude Codec Float64 Arrow SqlCompare Ipc SqlExpression SqlPrint Wire ConstraintRecord.

Open Scope Z_scope.

Definition GENERATED : string := "vgi.column.generated.v1".
Definition GENERATION : string := "vgi.column.generation.v1".
Definition LEGACY_GENERATED : string := "generated_expression".
Definition PROFILE : string := "vgi.expression.duckdb.scalar.v1".
Definition MAXIMUM : Z := 8 * 1024 * 1024.
(** [4 * MAXIMUM.div_ceil(3)]. *)
Definition MAX_TEXT : Z := 4 * ((MAXIMUM + 2) / 3).

Inductive ColumnError :=
| BadText | BadProfile | BadOwner | OtherOwner | BadContext
| BadSize | BadBase64 | NotCanonicalBase64 | BadIpc (e : string) | BadRecordSchema | NoRow | NotOneRow
| NotOneBatch | TrailingIpc | ColumnRpc (e : RpcError)
| MixedLegacy (column : string)
| NotNullable (column : string) | UnsupportedType (column : string) | NotDefaultContext (column : string)
| NestedSchema (column : string) | BadExpression (column : string) (e : PError)
| UnknownVersion | LegacyNested | PairIncomplete | NotVirtual | HasDefault | Unsupported
| NoPhysicalColumn
| BadTags (column : string) (e : string).

(** [HashMap::get], [contains_key], [remove]. *)
Definition get (md : list (string * string)) (k : string) : option string :=
  snd ∘ snd <$> list_find (λ kv, kv.1 = k) md.
Definition contains_key (md : list (string * string)) (k : string) : bool := is_some (get md k).
Definition remove_key (md : list (string * string)) (k : string) : list (string * string) :=
  filter (λ kv, kv.1 ≠ k) md.
Definition with_metadata (f : Field) (md : list (string * string)) : Field := let '(mkField n t b _) := f in mkField n t b md.

(** * Every field at any depth *)

Section walk.
Context {E : Type} (check : Field → result unit E).

(** A field, then the fields of its type. *)
Fixpoint walk_field (f : Field) : result unit E :=
  let? _ := check f in
  match f with mkField _ t _ _ => walk_type t end
with walk_type (t : DataType) : result unit E :=
  match t with
  | Struct fs => (fix go (l : list Field) := match l with [] => Ok () | f :: l => let? _ := walk_field f in go l end) fs
  | List f | LargeList f | ListView f | LargeListView f | FixedSizeList f _ | Map f _ => walk_field f
  | Dictionary _ v => walk_type v
  | Union fs _ =>
      (fix go (l : list (Z * Field)) := match l with [] => Ok () | (_, f) :: l => let? _ := walk_field f in go l end) fs
  | RunEndEncoded a b => let? _ := walk_field a in walk_field b
  | Flat _ => Ok ()
  end.
Fixpoint walk_fields (l : list Field) : result unit E :=
  match l with [] => Ok () | f :: l => let? _ := walk_field f in walk_fields l end.
End walk.

(** * Tags *)

(** A JSON object as [serde_json] visits it: keys in order, each with its value
    if that is a string; [None] for what is not an object, or broken. *)
Class JsonMap := json_entries : string → option (list (string * option string)).

Section tags.
Context `{JsonMap}.

Fixpoint visit_map (seen : gset string) (entries : list (string * option string)) : result unit string :=
  match entries with
  | [] => Ok ()
  | (key, value) :: entries =>
      if bool_decide (key ∈ seen) then Err "duplicate column tag key"
      else match value with
           | None => Err "invalid type"
           | Some _ => visit_map ({[key]} ∪ seen) entries
           end
  end.
Definition string_tags (text : string) : result unit string :=
  match json_entries text with
  | None => Err "a JSON object of unique string keys and string values"
  | Some entries => visit_map ∅ entries
  end.

Definition check_tags (f : Field) : result unit ColumnError :=
  match get (metadata f) "tags" with
  | None => Ok ()
  | Some tags => map_err (BadTags (name f)) (string_tags tags)
  end.
Definition validate_column_metadata (s : Schema) : result unit ColumnError := walk_fields check_tags s.
End tags.

(** * The carrier of an expression *)

(** [base64]'s standard engine, and [arrow_ipc]'s stream reader without the
    nullability relaxation: the schema, what each [next] returns, and where the
    cursor stands after the last of them; and [ArrayData::validate_full]. *)
Class Carrier := {
  b64_encode : bytes → string;
  b64_decode : string → option bytes;
  strict_reader : bytes → result (Schema * list (result RecordBatch string) * nat) string;
  validate_full : array → result unit string;
  expression_schema : Schema;
}.

Section carrier.
Context `{IpcStream} `{WireRecords} `{CharClasses} `{Carrier} `{JsonMap}.

Definition text (value : string) (maximum : nat) : result unit ColumnError :=
  if is_empty value || has_nul value || (maximum <? String.length value)%nat then Err BadText else Ok ().
Fixpoint texts (values : list string) (maximum : nat) : result unit ColumnError :=
  match values with [] => Ok () | v :: values => let? _ := text v maximum in texts values maximum end.

Definition orders : list string := ["asc"; "desc"].
Definition null_orders : list string :=
  ["nulls_first"; "nulls_last"; "nulls_first_on_asc_last_on_desc"; "nulls_last_on_asc_first_on_desc"].

Definition expression (value : SqlExpression) (owner : list string) : result unit ColumnError :=
  let? _ := text (sx_sql value) (1024 * 1024) in
  if forallb is_whitespace (chars (sx_sql value)) || negb (String.eqb (sx_profile value) PROFILE) then Err BadProfile
  else if (32 <? length (sx_schema_path value))%nat then Err BadOwner
  else
    let? _ := texts (sx_schema_path value) 4096 in
    if negb (bool_decide (sx_schema_path value = owner)) then Err OtherOwner
    else
      let context := sx_evaluation_context value in
      let? _ := text (timezone context) 256 in
      let? _ := text (collation context) 256 in
      if negb (bool_decide (default_order context ∈ orders)) || negb (bool_decide (default_null_order context ∈ null_orders))
      then Err BadContext else Ok ().

Fixpoint validate_columns (cols : list array) : result unit ColumnError :=
  match cols with
  | [] => Ok ()
  | a :: cols => let? _ := map_err BadIpc (validate_full a) in validate_columns cols
  end.

Definition encoded (value : string) (owner : list string) : result SqlExpression ColumnError :=
  if is_empty value || (MAX_TEXT <? Z.of_nat (String.length value)) then Err BadSize
  else match b64_decode value with
  | None => Err BadBase64
  | Some bs =>
      if null bs || (MAXIMUM <? Z.of_nat (length bs)) || negb (String.eqb (b64_encode bs) value) then Err NotCanonicalBase64
      else
        let? (s, batches, position) := map_err BadIpc (strict_reader bs) in
        if negb (bool_decide (s = expression_schema)) then Err BadRecordSchema
        else match batches with
        | [] => Err NoRow
        | Err e :: _ => Err (BadIpc e)
        | Ok row :: more =>
            if negb (num_rows row =? 1)%nat || existsb (λ a, negb (null_count a =? 0)%nat) (columns row) then Err NotOneRow
            else
              let? _ := validate_columns (columns row) in
              match more with
              | _ :: _ => Err NotOneBatch
              | [] =>
                  if negb (position =? length bs)%nat then Err TrailingIpc
                  else
                    let? value := map_err ColumnRpc (from_batch row) in
                    let? _ := expression value owner in
                    Ok value
              end
        end
  end.

Definition generated_metadata (sql : string) (owner : list string) : result string ColumnError :=
  let value := mkSqlExpression sql PROFILE owner default_evaluation_context in
  let? _ := expression value owner in
  let? b := map_err ColumnRpc (to_batch value) in
  let? bs := map_err ColumnRpc (write_batch b) in
  Ok (b64_encode bs).

(** * The legacy key *)

Definition translate_field (owner : list string) (f : Field) : result Field ColumnError :=
  match get (metadata f) LEGACY_GENERATED with
  | None => Ok f
  | Some sql =>
      let md := remove_key (metadata f) LEGACY_GENERATED in
      if contains_key md GENERATED || contains_key md GENERATION then Err (MixedLegacy (name f))
      else
        let? carrier := generated_metadata sql owner in
        Ok (with_metadata f (md ++ [(GENERATED, carrier); (GENERATION, "virtual")]))
  end.
Fixpoint translate_fields (owner : list string) (l : list Field) : result (list Field) ColumnError :=
  match l with
  | [] => Ok []
  | f :: l => let? f := translate_field owner f in let? l := translate_fields owner l in Ok (f :: l)
  end.
Definition translate_legacy_generated (s : Schema) (owner : list string) : result Schema ColumnError :=
  if existsb (λ f, contains_key (metadata f) LEGACY_GENERATED) s then translate_fields owner s else Ok s.

(** * Generated columns *)

Definition generated_column (f : Field) (value : string) (s : Schema) (owner : list string) : result unit ColumnError :=
  if negb (is_nullable f) then Err (NotNullable (name f))
  else if contains_key (metadata f) "ARROW:extension:name" || negb (generated_type (data_type f)) then Err (UnsupportedType (name f))
  else
    let? e := encoded value owner in
    if negb (is_default_evaluation_context (sx_evaluation_context e)) then Err (NotDefaultContext (name f))
    else if negb (length owner =? 1)%nat then Err (NestedSchema (name f))
    else map_err (BadExpression (name f)) (check_generated (sx_sql e) s).

(** The inner [field] of [validate], but for the fields below it. *)
Definition check_generated_metadata (owner : list string) (allow_generated : bool) (f : Field) : result unit ColumnError :=
  let md := metadata f in
  if existsb (λ kv, (starts_with "vgi.column.generated." kv.1 && negb (String.eqb kv.1 GENERATED)) ||
                    (starts_with "vgi.column.generation." kv.1 && negb (String.eqb kv.1 GENERATION))) md
  then Err UnknownVersion
  else if contains_key md LEGACY_GENERATED then Err LegacyNested
  else if negb (Bool.eqb (contains_key md GENERATED) (contains_key md GENERATION)) then Err PairIncomplete
  else match get md GENERATED with
  | None => Ok ()
  | Some value =>
      if negb (bool_decide (get md GENERATION = Some "virtual")) then Err NotVirtual
      else if contains_key md "default" || contains_key md "vgi.column.default.v1" then Err HasDefault
      else
        let? _ := encoded value owner in
        if negb allow_generated then Err Unsupported else Ok ()
  end.

(** The loop over the top-level fields, with its two flags. *)
Fixpoint validate_from (s : Schema) (owner : list string) (allow_generated : bool) (physical generated : bool) (l : list Field) :
    result (bool * bool) ColumnError :=
  match l with
  | [] => Ok (physical, generated)
  | f :: l =>
      let? _ := walk_field (check_generated_metadata owner allow_generated) f in
      match get (metadata f) GENERATED with
      | Some value =>
          let? _ := generated_column f value s owner in
          validate_from s owner allow_generated physical true l
      | None => validate_from s owner allow_generated (physical || negb (contains_key (metadata f) "is_row_id")) generated l
      end
  end.
Definition validate (s : Schema) (owner : list string) (allow_generated : bool) : result unit ColumnError :=
  let? (physical, generated) := validate_from s owner allow_generated false false s in
  if generated && negb physical then Err NoPhysicalColumn else Ok ().
End carrier.

(** * The walk reaches every field *)

(** The fields directly inside a type. *)
Fixpoint children_of (t : DataType) : list Field :=
  match t with
  | Struct fs => fs
  | List f | LargeList f | ListView f | LargeListView f | FixedSizeList f _ | Map f _ => [f]
  | Dictionary _ v => children_of v
  | Union fs _ => fs.*2
  | RunEndEncoded a b => [a; b]
  | Flat _ => []
  end.

(** A field among others, or somewhere inside one of them. *)
Inductive occurs (fs : list Field) : Field → Prop :=
| occurs_here f : f ∈ fs → occurs fs f
| occurs_below g f : g ∈ fs → occurs (children_of (data_type g)) f → occurs fs f.

Section field_induction.
Variable P : Field → Prop.
Hypothesis step : ∀ n t b md, Forall P (children_of t) → P (mkField n t b md).
Fixpoint field_induction (f : Field) : P f :=
  match f with mkField n t b md => step n t b md (type_induction t) end
with type_induction (t : DataType) : Forall P (children_of t) :=
  match t with
  | Flat _ => Forall_nil_2 P
  | Struct fs => (fix go (l : list Field) : Forall P l :=
                    match l with [] => Forall_nil_2 P | f :: l => Forall_cons_2 P f l (field_induction f) (go l) end) fs
  | List f | LargeList f | ListView f | LargeListView f | FixedSizeList f _ | Map f _ =>
      Forall_cons_2 P f [] (field_induction f) (Forall_nil_2 P)
  | Dictionary _ v => type_induction v
  | Union fs _ => (fix go (l : list (Z * Field)) : Forall P l.*2 :=
                     match l with [] => Forall_nil_2 P | f :: l => Forall_cons_2 P f.2 l.*2 (field_induction f.2) (go l) end) fs
  | RunEndEncoded a b => Forall_cons_2 P a [b] (field_induction a) (Forall_cons_2 P b [] (field_induction b) (Forall_nil_2 P))
  end.
End field_induction.

Section walk_facts.
Context {E : Type} (check : Field → result unit E).

Lemma walk_type_eq t : walk_type check t = walk_fields check (children_of t).
Proof.
  assert (∀ r : result unit E, match r with Ok _ => Ok () | Err e => Err e end = r) as Hr by (by intros [[]|]).
  induction t as [| | | | | |fs|fs|k v IHv| |]; cbn; rewrite ?Hr; try done.
  induction fs as [|[z f] fs IH]; cbn; [done|]. by rewrite <- IH.
Qed.

Lemma walk_field_eq f : walk_field check f = let? _ := check f in walk_fields check (children_of (data_type f)).
Proof. destruct f as [n t b md]. cbn. destruct (check _); [|done]. apply walk_type_eq. Qed.

Lemma walk_fields_Ok l u : walk_fields check l = Ok u ↔ Forall (λ f, walk_field check f = Ok ()) l.
Proof.
  destruct u. induction l as [|f l IH]; cbn; [done|]. rewrite Forall_cons, <- IH.
  destruct (walk_field check f) as [[]|]; naive_solver.
Qed.

Lemma walk_field_Ok f : walk_field check f = Ok () ↔ ∀ g, occurs [f] g → check g = Ok ().
Proof.
  induction f as [n t b md IH] using field_induction. rewrite walk_field_eq. cbn [data_type].
  assert (walk_fields check (children_of t) = Ok () ↔ ∀ g, occurs (children_of t) g → check g = Ok ()) as Ht.
  { rewrite walk_fields_Ok. rewrite Forall_forall in IH |- *. split.
    - intros Hall g [g' Hin|g' g'' Hin Ho]; [apply (IH _ Hin)|apply (IH _ Hin)]; auto; [left|eapply occurs_below; [|done]]; by left.
    - intros Hall f Hin. apply IH; [done|]. intros g [g' ->%list_elem_of_singleton|g' g'' ->%list_elem_of_singleton Ho]; apply Hall;
        [by left|by eapply occurs_below]. }
  destruct (check (mkField n t b md)) as [[]|] eqn:Ec.
  - rewrite Ht. split.
    + intros Hall g [g' ->%list_elem_of_singleton|g' g'' ->%list_elem_of_singleton Ho]; [done|]. by apply Hall.
    + intros Hall g Ho. apply Hall. eapply occurs_below; [by left|done].
  - split; [done|]. intros Hall. rewrite (Hall (mkField n t b md)) in Ec; [done|]. left. by left.
Qed.

(** The walk succeeds exactly when the check does on every field, at any depth. *)
Lemma walk_fields_spec l u : walk_fields check l = Ok u ↔ ∀ g, occurs l g → check g = Ok ().
Proof.
  rewrite walk_fields_Ok, Forall_forall. setoid_rewrite walk_field_Ok. split.
  - intros Hall g [g' Hin|g' g'' Hin Ho]; apply (Hall _ Hin); [left; by left|eapply occurs_below; [by left|done]].
  - intros Hall f Hin g [g' ->%list_elem_of_singleton|g' g'' ->%list_elem_of_singleton Ho]; apply Hall;
      [by left|by eapply occurs_below].
Qed.
End walk_facts.

(** * Tags *)

Lemma visit_map_Ok seen entries u : visit_map seen entries = Ok u ↔
  NoDup entries.*1 ∧ Forall (λ kv, kv.1 ∉ seen ∧ is_some kv.2 = true) entries.
Proof.
  destruct u. revert seen. induction entries as [|[k v] entries IH]; intros seen; cbn [visit_map fmap list_fmap fst snd].
  { split; [split; constructor|done]. }
  rewrite NoDup_cons, Forall_cons. cbn [fst snd]. case_bool_decide as Hk; [split; [done|tauto]|].
  destruct v as [v|]; [|split; [done|]; cbn; intros (_ & (_ & [=]) & _)]. rewrite IH, !Forall_forall. split.
  - intros [Hnd Hall]. split_and!; [|done|done|done|].
    + intros (kv & -> & Hin)%list_elem_of_fmap. destruct (Hall kv Hin) as [Hn _]. set_solver.
    + intros kv Hin. destruct (Hall kv Hin). set_solver.
  - intros ((Hn & Hnd) & _ & Hall). split; [done|]. intros kv Hin. destruct (Hall kv Hin) as [Hs Hv]. split; [|done].
    rewrite not_elem_of_union, not_elem_of_singleton. split; [|done]. intros <-. apply Hn, list_elem_of_fmap. by exists kv.
Qed.

(** Column metadata passes exactly when the tags of every field, at any
    depth of any nested type, are a JSON object whose keys are distinct and whose values
    are strings. *)
Theorem column_tags_exact `{JsonMap} s : validate_column_metadata s = Ok () ↔
  ∀ f tags, occurs s f → get (metadata f) "tags" = Some tags →
    ∃ entries, json_entries tags = Some entries ∧ NoDup entries.*1 ∧ Forall (λ kv, kv.2 ≠ None) entries.
Proof.
  unfold validate_column_metadata. rewrite walk_fields_spec. unfold check_tags, string_tags.
  assert (∀ entries, visit_map ∅ entries = Ok () ↔ NoDup entries.*1 ∧ Forall (λ kv : string * option string, kv.2 ≠ None) entries) as Hv.
  { intros entries. rewrite visit_map_Ok, !Forall_forall. split; intros [? Hall]; (split; [done|]); intros [k [v|]] Hin;
      specialize (Hall _ Hin); cbn in *; set_solver. }
  split.
  - intros Hall f tags Ho Et. specialize (Hall f Ho). rewrite Et in Hall. destruct (json_entries tags) as [entries|]; [|done].
    exists entries. split; [done|]. apply Hv. destruct (visit_map ∅ entries) as [[]|]; done.
  - intros Hall f Ho. destruct (get (metadata f) "tags") as [tags|] eqn:Et; [|done]. destruct (Hall f tags Ho Et) as (entries & -> & He).
    by rewrite (proj2 (Hv entries) He).
Qed.

(** * Generated columns *)

(** What the carrier code relies on: base64 decodes what it encodes, in at
    most four characters for three bytes; a one-row stream of an expression, read strictly,
    is that row of its schema, without nulls and well formed, and nothing else. *)
Class CarrierLaws `{IpcStream} `{WireRecords} `{Carrier} : Prop := {
  b64_roundtrip bs : b64_decode (b64_encode bs) = Some bs;
  b64_length bs : bs ≠ [] → 0 < Z.of_nat (String.length (b64_encode bs)) ≤ 4 * ((Z.of_nat (length bs) + 2) / 3);
  strict_row (e : SqlExpression) b bs : to_batch e = Ok b → write_batch b = Ok bs →
    bs ≠ [] ∧ strict_reader bs = Ok (expression_schema, [Ok b], length bs) ∧ num_rows b = 1%nat ∧
    Forall (λ a, null_count a = 0%nat ∧ validate_full a = Ok ()) (columns b) ∧ from_batch b = Ok e;
}.

Section carrier_facts.
Context `{CarrierLaws} `{CharClasses} `{JsonMap}.

Lemma validate_columns_Ok cols : Forall (λ a, null_count a = 0%nat ∧ validate_full a = Ok ()) cols →
  validate_columns cols = Ok () ∧ existsb (λ a, negb (null_count a =? 0)%nat) cols = false.
Proof.
  induction 1 as [|a cols [Hn Hv] _ [IH1 IH2]]; cbn; [done|]. rewrite Hv, Hn. cbn. done.
Qed.

(** The carrier built for a generated column reads back, under the
    same owner, as its SQL with the scalar profile and the default context, as long as its
    encoding is within the 8 MiB bound. *)
Theorem generated_carrier_roundtrip sql owner carrier bs : generated_metadata sql owner = Ok carrier →
  b64_decode carrier = Some bs → Z.of_nat (length bs) ≤ MAXIMUM →
  encoded carrier owner = Ok (mkSqlExpression sql PROFILE owner default_evaluation_context).
Proof.
  unfold generated_metadata. set (e := mkSqlExpression sql PROFILE owner default_evaluation_context).
  destruct (expression e owner) as [[]|] eqn:Ee; [|done].
  destruct (to_batch e) as [b|] eqn:Eb; [|done]. cbn [map_err]. destruct (write_batch b) as [bs'|] eqn:Ew; [|done]. cbn [map_err].
  intros [= <-]. rewrite b64_roundtrip. intros [= <-] Hlen. destruct (strict_row _ _ _ Eb Ew) as (Hne & Er & Hrows & Hcols & Ef).
  destruct (b64_length bs' Hne) as [Hpos Hle].
  assert (Z.of_nat (String.length (b64_encode bs')) ≤ MAX_TEXT) as Ht.
  { etransitivity; [exact Hle|]. unfold MAX_TEXT. apply Z.mul_le_mono_nonneg_l; [lia|]. apply Z.div_le_mono; lia. }
  assert (is_empty (b64_encode bs') = false) as Hemp.
  { apply not_true_iff_false. intros Hemp%String.eqb_eq. rewrite Hemp in Hpos. cbn in Hpos. lia. }
  unfold encoded. rewrite Hemp, (proj2 (Z.ltb_ge _ _)), b64_roundtrip by lia. cbn [orb].
  assert (null bs' = false) as -> by (by destruct bs'). rewrite (proj2 (Z.ltb_ge _ _)), String.eqb_refl by lia. cbn [orb negb].
  rewrite Er. cbn [map_err]. rewrite bool_decide_true by done. cbn [negb].
  destruct (validate_columns_Ok _ Hcols) as [-> ->]. rewrite Hrows, !Nat.eqb_refl. cbn [negb orb]. rewrite Ef. cbn [map_err].
  by rewrite Ee.
Qed.
End carrier_facts.

Section generated_facts.
Context `{IpcStream} `{WireRecords} `{CharClasses} `{Carrier} `{JsonMap}.

Lemma validate_from_Ok s owner allow physical generated l r : validate_from s owner allow physical generated l = Ok r ↔
  (∀ f, occurs l f → check_generated_metadata owner allow f = Ok ()) ∧
  (∀ f v, f ∈ l → get (metadata f) GENERATED = Some v → generated_column f v s owner = Ok ()) ∧
  r = (physical || existsb (λ f, negb (contains_key (metadata f) GENERATED) && negb (contains_key (metadata f) "is_row_id")) l,
       generated || existsb (λ f, contains_key (metadata f) GENERATED) l).
Proof.
  revert physical generated. induction l as [|f l IH]; intros physical generated; cbn [validate_from existsb].
  { rewrite !orb_false_r. split; [intros [= <-]|by intros (_ & _ & ->)].
    split_and!; [|by intros ? ? []%not_elem_of_nil|done]. by intros f [? []%not_elem_of_nil|? ? []%not_elem_of_nil _]. }
  assert ((∀ g, occurs (f :: l) g → check_generated_metadata owner allow g = Ok ()) ↔
    walk_field (check_generated_metadata owner allow) f = Ok () ∧ ∀ g, occurs l g → check_generated_metadata owner allow g = Ok ()) as ->.
  { rewrite <- (walk_fields_spec _ (f :: l) ()), <- (walk_fields_spec _ l ()). cbn [walk_fields].
    destruct (walk_field _ f) as [[]|]; naive_solver. }
  destruct (walk_field _ f) as [[]|] eqn:Ew; [|naive_solver]. setoid_rewrite elem_of_cons.
  assert (contains_key (metadata f) GENERATED = is_some (get (metadata f) GENERATED)) as -> by done.
  destruct (get (metadata f) GENERATED) as [v|] eqn:Eg; cbn [is_some negb andb orb].
  - destruct (generated_column f v s owner) as [[]|] eqn:Ec.
    + rewrite IH, orb_true_r. cbn [orb]. split; intros (Ha & Hb & Hc); naive_solver.
    + split; [done|]. intros (_ & Hall & _). specialize (Hall f v (or_introl eq_refl) Eg). congruence.
  - rewrite IH, orb_assoc. split; intros (Ha & Hb & Hc); naive_solver.
Qed.

(** A carrier that is within the rules at top level. *)
Definition well_generated (s : Schema) (owner : list string) (f : Field) (v : string) : Prop :=
  is_nullable f = true ∧ contains_key (metadata f) "ARROW:extension:name" = false ∧ generated_type (data_type f) = true ∧
  length owner = 1%nat ∧ ∃ e, encoded v owner = Ok e ∧ is_default_evaluation_context (sx_evaluation_context e) = true ∧
  check_generated (sx_sql e) s = Ok ().

Lemma generated_column_Ok f v s owner : generated_column f v s owner = Ok () ↔ well_generated s owner f v.
Proof.
  unfold generated_column, well_generated. destruct (is_nullable f); cbn; [|naive_solver].
  destruct (contains_key _ _); cbn; [naive_solver|]. destruct (generated_type (data_type f)); cbn; [|naive_solver].
  destruct (encoded v owner) as [e|]; [|naive_solver]. destruct (is_default_evaluation_context _) eqn:Ed; cbn.
  2:{ split; [done|]. intros (_ & _ & _ & _ & e' & [= <-] & Hd & _). congruence. }
  destruct (Nat.eqb_spec (length owner) 1); cbn; [|naive_solver].
  destruct (check_generated (sx_sql e) s) as [[]|] eqn:Ec; cbn.
  - split; [|done]. intros _. split_and!; [done..|]. by exists e.
  - split; [done|]. intros (_ & _ & _ & _ & e' & [= <-] & _ & Hc). congruence.
Qed.

(** A schema's generated columns pass exactly when every field, at any
    depth, carries the two keys together or not at all, in the known version, as VIRTUAL,
    without a default and decodable; every top-level generated column is nullable, of a
    supported type, in a one-component schema and within the expression grammar; and some
    column is physical if any is generated. *)
Theorem generated_columns_exact s owner allow : validate s owner allow = Ok () ↔
  (∀ f, occurs s f → check_generated_metadata owner allow f = Ok ()) ∧
  (∀ f v, f ∈ s → get (metadata f) GENERATED = Some v → well_generated s owner f v) ∧
  ((∃ f, f ∈ s ∧ contains_key (metadata f) GENERATED = true) →
   ∃ f, f ∈ s ∧ contains_key (metadata f) GENERATED = false ∧ contains_key (metadata f) "is_row_id" = false).
Proof.
  unfold validate. setoid_rewrite <- generated_column_Ok.
  assert (∀ p : Field → bool, existsb p s = true ↔ ∃ f, f ∈ s ∧ p f = true) as Hex.
  { intros p. rewrite existsb_exists. by setoid_rewrite list_elem_of_In. }
  set (ph := existsb (λ f, negb (contains_key (metadata f) GENERATED) && negb (contains_key (metadata f) "is_row_id")) s).
  set (ge := existsb (λ f, contains_key (metadata f) GENERATED) s).
  assert (ph = true ↔ ∃ f, f ∈ s ∧ contains_key (metadata f) GENERATED = false ∧ contains_key (metadata f) "is_row_id" = false) as <-.
  { unfold ph. rewrite Hex. setoid_rewrite andb_true_iff. by setoid_rewrite negb_true_iff. }
  rewrite <- (Hex (λ f, contains_key (metadata f) GENERATED)). fold ge.
  pose proof (validate_from_Ok s owner allow false false s) as Hv. cbn [orb] in Hv. fold ph ge in Hv.
  destruct (validate_from s owner allow false false s) as [r|e].
  - destruct (proj1 (Hv r) eq_refl) as (H1' & H2' & ->). destruct ge, ph; cbn; naive_solver.
  - split; [done|]. intros (H1' & H2' & _). by pose proof (proj2 (Hv (ph, ge)) (conj H1' (conj H2' eq_refl))).
Qed.
End generated_facts.

(** * Witnesses *)

#[local] Existing Instances text_stream text_records ascii_chars Ser_expression.

(** A carrier that is the bytes themselves, and two tag objects. *)
#[local] Instance text_carrier : Carrier := {|
  b64_encode := string_of_bytes;
  b64_decode s := Some (as_bytes s);
  strict_reader bs := match bs with
                      | x01 :: t => Ok (text_schema, [Ok (text_batch (string_of_bytes t))], length bs)
                      | _ => Err "malformed IPC stream"
                      end;
  validate_full _ := Ok ();
  expression_schema := text_schema;
|}.
#[local] Instance text_carrier_laws : CarrierLaws.
Proof.
  split.
  - intros bs. cbn -[as_bytes string_of_bytes]. by rewrite as_bytes_of_bytes.
  - intros bs Hne. cbn -[as_bytes string_of_bytes Z.mul Z.div Z.of_nat]. rewrite <- length_as_bytes, as_bytes_of_bytes.
    split; [destruct bs; cbn [length]; [done|lia]|]. pose proof (Z.mul_succ_div_gt (Z.of_nat (length bs) + 2) 3). lia.
  - intros e b bs Eb Ew. destruct (text_row e b bs Eb Ew) as [-> ->]. cbn [strict_reader text_carrier].
    split_and!; [done|reflexivity|reflexivity|by repeat constructor|apply text_read].
Qed.
#[local] Instance sample_json : JsonMap := λ s,
  if String.eqb s "{a:b}" then Some [("a", Some "b")] else if String.eqb s "{a:b,a:c}" then Some [("a", Some "b"); ("a", Some "c")] else None.

Definition sample_carrier : string := Eval vm_compute in
  match generated_metadata "a + 1" ["main"] with Ok c => c | Err _ => "" end.
Definition generated_schema : Schema :=
  [mkField "a" Int64 true [("tags", "{a:b}")]; mkField "g" Int64 true [(GENERATED, sample_carrier); (GENERATION, "virtual")]].

Lemma generated_carrier_roundtrip_witness :
  encoded sample_carrier ["main"] = Ok (mkSqlExpression "a + 1" PROFILE ["main"] default_evaluation_context).
Proof.
  apply (generated_carrier_roundtrip "a + 1" ["main"] sample_carrier (as_bytes sample_carrier)); [vm_compute; reflexivity|reflexivity|].
  vm_compute. discriminate.
Defined.

Lemma column_tags_exact_witness :
  validate_column_metadata generated_schema = Ok () ∧
  ∃ entries, json_entries "{a:b}" = Some entries ∧ NoDup entries.*1 ∧ Forall (λ kv, kv.2 ≠ None) entries.
Proof.
  assert (validate_column_metadata generated_schema = Ok ()) as E by (vm_compute; reflexivity). split; [exact E|].
  apply (proj1 (column_tags_exact generated_schema) E (mkField "a" Int64 true [("tags", "{a:b}")])); [left; left|reflexivity].
Defined.

Lemma generated_columns_exact_witness :
  validate generated_schema ["main"] true = Ok () ∧
  well_generated generated_schema ["main"] (mkField "g" Int64 true [(GENERATED, sample_carrier); (GENERATION, "virtual")]) sample_carrier.
Proof.
  assert (validate generated_schema ["main"] true = Ok ()) as E by (vm_compute; reflexivity). split; [exact E|].
  apply (proj1 (generated_columns_exact generated_schema ["main"] true) E); [right; left|reflexivity].
Defined.
