(* ===== verification/CatalogModel.v ===== *)
(** Declarative catalogs, [vgi/src/catalog.rs]: schemas with views, macros and
    function-backed tables; the columns and the description a table is served
    with, required filters, time travel, macros, version specs and the capability
    agreement of an attach.  Errors are the variants of the source's messages. *)
From S2P Require Import Prelude Codec Float64 Arrow SqlCompare Ipc SqlExpression SqlPrint Wire ConstraintRecord Constraints.
From S2P Require Import ConstraintsFacts ColumnExpressions.

Open Scope Z_scope.

(** * Data *)

Record TimeTravelVersion := mkTimeTravel {
  tt_version : Z;
  tt_columns : Schema;
  tt_scan_function : string;
  tt_scan_arguments : bytes;
  tt_timestamp_year : option Z;
}.

(** [CatTable]; statistics, branches and the embedded function by what the code
    here reads of them. *)
Record CatTable := mkTable {
  t_constraints : list bytes;
  t_definition_revision : option bytes;
  t_constraint_versions : gmap Z (list bytes * option bytes);
  t_name : string;
  t_columns : Schema;
  t_schema_metadata : gmap string string;
  t_scan_function : string;
  t_scan_arguments : bytes;
  t_comment : option string;
  t_cardinality : option Z;
  t_not_null : list Z;
  t_primary_key : list (list Z);
  t_unique : list (list Z);
  t_check : list string;
  t_foreign_keys : list bytes;
  t_tags : list (string * string);
  t_inline_scan : bool;
  t_has_branches : bool;
  t_has_statistics : bool;
  t_time_travel : list TimeTravelVersion;
  t_required_filters : list (list (list string));
  t_supports_time_travel : bool;
}.

Record MacroParameter := mkParameter {
  mp_name : string;
  mp_declared_type : option bytes;
  mp_default_value : option bytes;
  mp_default_expression : option bytes;
  mp_documentation : option string;
}.
Record MacroOverload := mkOverload {
  mo_parameters : list MacroParameter;
  mo_definition : string;
  mo_profile : string;
  mo_schema_path : list string;
  mo_macro_type : string;
  mo_evaluation_context : QueryEvaluationContext;
}.
Record CatMacro := mkMacro {
  m_overloads : option (list MacroOverload);
  m_name : string;
  m_parameters : list string;
  m_definition : string;
  m_table_macro : bool;
  m_comment : option string;
  m_defaults : list (string * Z);
  m_parameter_docs : list (string * string);
}.
Record MacroInfo := mkMacroInfo {
  mi_comment : option string;
  mi_tags : list (string * string);
  mi_name : string;
  mi_schema_path : list string;
  mi_macro_type : string;
  mi_overloads : list MacroOverload;
}.

Record CatView := mkView {
  v_name : string;
  v_definition : string;
  v_aliases : list string;
  v_security : string;
  v_comment : option string;
  v_tags : list (string * string);
  v_column_comments : list (string * string);
}.
Record ViewInfo := mkViewInfo {
  vi_comment : option string;
  vi_tags : list (string * string);
  vi_name : string;
  vi_schema_path : list string;
  vi_definition : string;
  vi_column_comments : list (string * string);
  vi_aliases : list string;
  vi_security : string;
}.

Record CatSchema := mkSchema {
  s_name : string;
  s_path : list string;
  s_comment : option string;
  s_tags : list (string * string);
  s_views : list CatView;
  s_macros : list CatMacro;
  s_tables : list CatTable;
}.
(** [CatalogModel]: the fields the code here reads. *)
Record CatalogModel := mkModel {
  c_schemas : list CatSchema;
  c_version_schemas : gmap string (list CatSchema);
  c_capability_agreement : option (option bytes → result (bytes * bytes) RecordError);
}.

(** * Schemas *)

Definition effective_path (s : CatSchema) : list string := match s_path s with [] => [s_name s] | p => p end.
Definition schema_path (m : CatalogModel) (path : list string) : option CatSchema :=
  find (λ s, bool_decide (effective_path s = path)) (c_schemas m).
Definition schema (m : CatalogModel) (name : string) : option CatSchema := schema_path m [name].
Definition schemas_for (m : CatalogModel) (version : option string) : list CatSchema :=
  default (c_schemas m) (version ≫= λ v, c_version_schemas m !! v).
(** [schemas.iter().chain(version_schemas.values().flatten())]. *)
Definition all_schemas (m : CatalogModel) : list CatSchema :=
  c_schemas m ++ mjoin (snd <$> map_to_list (c_version_schemas m)).
Definition has_constraint_records (m : CatalogModel) : bool :=
  existsb (λ t, negb (null (t_constraints t)) ||
                existsb (λ kv : Z * (list bytes * option bytes), negb (null kv.2.1)) (map_to_list (t_constraint_versions t)))
    (all_schemas m ≫= s_tables).

Definition view_info (path : list string) (v : CatView) : ViewInfo :=
  mkViewInfo (v_comment v) (v_tags v) (v_name v) path (v_definition v) (v_column_comments v) (v_aliases v) (v_security v).

(** * Required filters *)

Inductive FilterError := EmptyGroup | EmptyPath | DuplicateFilterPath | BadPart | UnknownColumn | NonStructParent.

Fixpoint filter_path (fields : list Field) (path : list string) : result unit FilterError :=
  match path with
  | [] => Ok ()
  | part :: rest =>
      if is_empty part || has_nul part then Err BadPart
      else match filter (λ f, name f = part) fields with
      | [f] =>
          match rest with
          | [] => Ok ()
          | _ => match data_type f with
                 | Struct children => filter_path children rest
                 | _ => Err NonStructParent
                 end
          end
      | _ => Err UnknownColumn
      end
  end.
Fixpoint filter_group (fields : list Field) (seen : gset (list string)) (group : list (list string)) : result unit FilterError :=
  match group with
  | [] => Ok ()
  | path :: group =>
      if null path then Err EmptyPath
      else if bool_decide (path ∈ seen) then Err DuplicateFilterPath
      else let? _ := filter_path fields path in filter_group fields ({[path]} ∪ seen) group
  end.
Fixpoint validate_required_filters (columns : Schema) (groups : list (list (list string))) : result unit FilterError :=
  match groups with
  | [] => Ok ()
  | group :: groups =>
      if null group then Err EmptyGroup
      else let? _ := filter_group columns ∅ group in validate_required_filters columns groups
  end.

(** * Serving a table *)

Inductive CatalogError :=
| LegacyField (field : string)
| Columns (e : ColumnError)
| Records (e : TableError)
| Targets (e : ForeignKeyError)
| Filters (e : FilterError)
| Rpc (e : RpcError).

Record ScanFunctionResult := mkScan {
  sf_function_name : string;
  sf_arguments : bytes;
  sf_required_extensions : list string;
  sf_schema_path : option (list string);
}.
Record TableInfo := mkTableInfo {
  ti_comment : option string;
  ti_tags : list (string * string);
  ti_name : string;
  ti_schema_path : list string;
  ti_columns : bytes;
  ti_constraints : list bytes;
  ti_definition_revision : option bytes;
  ti_write_result_modes : list (string * string);
  ti_supports_column_statistics : bool;
  ti_scan_function : option bytes;
  ti_insert_function : option bytes;
  ti_update_function : option bytes;
  ti_delete_function : option bytes;
  ti_cardinality_estimate : option Z;
  ti_cardinality_max : option Z;
  ti_column_statistics : option bytes;
  ti_bind_result : option bytes;
  ti_required_filters : list (list (list string));
  ti_options : option bytes;
  ti_layout : option bytes;
}.

Section serving.
Context `{IpcStream} `{WireRecords} `{CharClasses} `{Carrier} `{JsonMap} `{VgiArrow ScanFunctionResult}.

Definition legacy_fields (t : CatTable) : list (string * bool) :=
  [("not_null", negb (null (t_not_null t))); ("unique", negb (null (t_unique t)));
   ("primary_key", negb (null (t_primary_key t))); ("check", negb (null (t_check t)));
   ("foreign_keys", negb (null (t_foreign_keys t)))].

Definition served_table_columns (path : list string) (t : CatTable) : result (Schema * gmap string string) CatalogError :=
  match find snd (legacy_fields t) with
  | Some (field, _) => Err (LegacyField field)
  | None =>
      let? columns := map_err Columns (translate_legacy_generated (t_columns t) path) in
      let? served := map_err Records (served_columns path (t_name t) columns (t_schema_metadata t) (t_constraints t)) in
      let? _ := map_err Columns (validate_column_metadata served.1) in
      let? _ := map_err Columns (validate served.1 path true) in
      Ok served
  end.

Definition scan_function_result (path : list string) (t : CatTable) : ScanFunctionResult :=
  mkScan (t_scan_function t) (t_scan_arguments t) [] (Some path).

Definition table_info (path : list string) (t : CatTable) (scan_function_schema : option (list string)) :
    result TableInfo CatalogError :=
  let? columns := served_table_columns path t in
  let? scan := if t_inline_scan t && negb (is_empty (t_scan_function t))
               then map_err Rpc (encode_record (scan_function_result (default path scan_function_schema) t))
               else Ok [] in
  let? _ := map_err Filters (validate_required_filters (t_columns t) (t_required_filters t)) in
  let? cols := map_err Rpc (write_schema columns.1 columns.2) in
  Ok (mkTableInfo (t_comment t) (t_tags t) (t_name t) path cols (t_constraints t) (t_definition_revision t)
        [] (t_has_statistics t) (Some scan) (Some []) (Some []) (Some []) (t_cardinality t) (t_cardinality t) (Some []) (Some [])
        (t_required_filters t) None None).

Definition validate_foreign_keys (s : CatSchema) : result unit CatalogError :=
  map_err Targets (validate_foreign_key_targets ((λ t, (t_name t, t_constraints t)) <$> s_tables s)).

Fixpoint validate_tables_of (path : list string) (ts : list CatTable) : result unit CatalogError :=
  match ts with [] => Ok () | t :: ts => let? _ := table_info path t None in validate_tables_of path ts end.
Fixpoint validate_schemas (ss : list CatSchema) : result unit CatalogError :=
  match ss with
  | [] => Ok ()
  | s :: ss =>
      let? _ := validate_foreign_keys s in
      let? _ := validate_tables_of (effective_path s) (s_tables s) in
      validate_schemas ss
  end.
Definition validate_tables (m : CatalogModel) : result unit CatalogError := validate_schemas (all_schemas m).

Definition capability_agreement_for (m : CatalogModel) (client_capabilities : option bytes) :
    result (option (bytes * bytes)) RecordError :=
  let? hook := match c_capability_agreement m with
               | None => Ok None
               | Some hook => let? p := hook client_capabilities in Ok (Some p)
               end in
  agree_capabilities (read_profiles_for (has_constraint_records m)) hook client_capabilities.
End serving.

(** * Time travel *)

Inductive AtError := NoTimeTravel | BadVersion | UnknownVersion (v : Z) | BadTimestamp | NoVersionAt (min_year : Z) | BadUnit (u : string).

(** [max_by_key(|t| t.version)]: the last of the greatest. *)
Fixpoint max_version (l : list TimeTravelVersion) : option TimeTravelVersion :=
  match l with
  | [] => None
  | t :: l => match max_version l with
              | Some m => Some (if tt_version m <? tt_version t then t else m)
              | None => Some t
              end
  end.
Definition is_current_version (t : CatTable) (v : Z) : bool :=
  bool_decide (tt_version <$> max_version (t_time_travel t) = Some v).

Fixpoint min_year (l : list TimeTravelVersion) : option Z :=
  match l with
  | [] => None
  | t :: l => match tt_timestamp_year t, min_year l with
              | Some y, Some m => Some (Z.min y m)
              | Some y, None => Some y
              | None, m => m
              end
  end.

(** [timestamp_year.is_some_and(|ty| ty <= year)]. *)
Definition valid_at (year : Z) (t : TimeTravelVersion) : bool :=
  match tt_timestamp_year t with Some y => y <=? year | None => false end.

(** [str::get(..4)]: four bytes that end at a character. *)
Definition first_four (s : string) : option string :=
  let b := as_bytes s in
  if (length b <? 4)%nat then None
  else match drop 4 b with
  | x :: _ => if (0x80 <=? Z_of_byte x) && (Z_of_byte x <? 0xC0) then None else Some (string_of_bytes (take 4 b))
  | [] => Some s
  end.

Section time_travel.
(** [str::to_uppercase]. *)
Variable to_uppercase : string → string.

(** Four bytes hold no [i64] outside [i32], so the year's [parse] is [parse_i64]'s. *)
Definition resolve_version (t : CatTable) (at_unit at_value : option string) : result (option TimeTravelVersion) AtError :=
  let has_at := match at_unit with Some u => negb (is_empty u) | None => false end in
  match t_time_travel t with
  | [] => if has_at && negb (t_has_branches t) && negb (t_supports_time_travel t) then Err NoTimeTravel else Ok None
  | versions =>
      match option_map to_uppercase at_unit with
      | None => Ok (max_version versions)
      | Some unit_ =>
          if is_empty unit_ then Ok (max_version versions)
          else if String.eqb unit_ "VERSION" then
            match at_value ≫= parse_i64 with
            | None => Err BadVersion
            | Some want =>
                match find (λ v, tt_version v =? want) versions with
                | Some v => Ok (Some v)
                | None => Err (UnknownVersion want)
                end
            end
          else if String.eqb unit_ "TIMESTAMP" then
            match (v ← at_value; y ← first_four v; parse_i64 y) with
            | None => Err BadTimestamp
            | Some year =>
                match max_version (filter (λ v, valid_at year v = true) versions) with
                | Some v => Ok (Some v)
                | None => Err (NoVersionAt (default 0 (min_year versions)))
                end
            end
          else Err (BadUnit unit_)
      end
  end.
End time_travel.

(** * Macros *)

Inductive MacroError :=
| FamilyAndSimple | OtherOwnerOrKind | UnresolvedDefault | BadDefinition | UnknownParameter | BadParameter
| DuplicateDefault | RequiredAfterDefault | MacroRpc (e : RpcError).

Section macros.
Context `{IpcStream} `{CharClasses}.

Definition build_macro_defaults (defaults : list (string * Z)) : result bytes RpcError :=
  match defaults with
  | [] => Ok []
  | _ =>
      let fields := (λ nv : string * Z, mkField nv.1 Int64 false []) <$> defaults in
      let cols := (λ nv : string * Z, plain_array Int64 [Some (VInt nv.2)]) <$> defaults in
      let? batch := map_err RuntimeError (try_new fields ∅ cols) in
      write_batch batch
  end.

(** The parameters of a simple macro, with the names and the default seen so far. *)
Fixpoint macro_parameters (m : CatMacro) (seen : gset string) (seen_default : bool) (names : list string) :
    result (list MacroParameter) MacroError :=
  match names with
  | [] => Ok []
  | n :: names =>
      if is_empty n || has_nul n || bool_decide (to_ascii_lowercase n ∈ seen) then Err BadParameter
      else
        let defaults := filter (λ nv, nv.1 = n) (m_defaults m) in
        if (1 <? length defaults)%nat then Err DuplicateDefault
        else if seen_default && null defaults then Err RequiredAfterDefault
        else
          let? default_value := match defaults with
                                | [] => Ok None
                                | _ => let? b := map_err MacroRpc (build_macro_defaults defaults) in Ok (Some b)
                                end in
          let documentation := snd <$> find (λ nd, String.eqb nd.1 n) (m_parameter_docs m) in
          let? rest := macro_parameters m ({[to_ascii_lowercase n]} ∪ seen) (seen_default || negb (null defaults)) names in
          Ok (mkParameter n None default_value None documentation :: rest)
  end.

(** The checks of a declared family. *)
Fixpoint check_family (path : list string) (kind : string) (family : list MacroOverload) : result unit MacroError :=
  match family with
  | [] => Ok ()
  | o :: family =>
      if negb (bool_decide (mo_schema_path o = path)) || negb (String.eqb (mo_macro_type o) kind) then Err OtherOwnerOrKind
      else if existsb (λ p, is_some (mp_default_expression p)) (mo_parameters o) then Err UnresolvedDefault
      else check_family path kind family
  end.

Definition macro_overloads (path : list string) (m : CatMacro) : result (list MacroOverload) MacroError :=
  let kind := if m_table_macro m then "table" else "scalar" in
  match m_overloads m with
  | Some family =>
      if null family || negb (null (m_parameters m)) || negb (is_empty (m_definition m)) || negb (null (m_defaults m))
         || negb (null (m_parameter_docs m))
      then Err FamilyAndSimple
      else let? _ := check_family path kind family in Ok family
  | None =>
      if forallb is_whitespace (chars (m_definition m)) || has_nul (m_definition m) then Err BadDefinition
      else if negb (forallb (λ n, bool_decide (n ∈ m_parameters m)) ((m_defaults m).*1 ++ (m_parameter_docs m).*1))
      then Err UnknownParameter
      else
        let? parameters := macro_parameters m ∅ false (m_parameters m) in
        Ok [mkOverload parameters (m_definition m) "duckdb.macro.v1" path kind default_evaluation_context]
  end.

Definition macro_info (path : list string) (m : CatMacro) : result MacroInfo MacroError :=
  let? overloads := macro_overloads path m in
  Ok (mkMacroInfo (m_comment m) [] (m_name m) path (if m_table_macro m then "TABLE" else "SCALAR") overloads).

(** The local documentation schema, and the documentation read back from it. *)
Definition macro_argument_field (defaults : list (string * Z)) (docs : list (string * string)) (n : string) : Field :=
  let ty := if bool_decide (n ∈ defaults.*1) then Int64 else Null in
  mkField n ty true (match find (λ nd, String.eqb nd.1 n) docs with
                     | Some (_, doc) => if is_empty doc then [] else [("vgi_doc", doc)]
                     | None => []
                     end).
Definition macro_arguments_schema (parameters : list string) (defaults : list (string * Z)) (docs : list (string * string)) : Schema :=
  macro_argument_field defaults docs <$> parameters.
Definition macro_parameter_docs_from_schema (s : Schema) : list (string * string) :=
  omap (λ f, pair (name f) <$> get (metadata f) "vgi_doc") s.
Definition build_macro_arguments_schema (m : CatMacro) : result bytes RpcError :=
  if null (m_parameters m) && null (m_parameter_docs m) then Ok []
  else write_schema (macro_arguments_schema (m_parameters m) (m_defaults m) (m_parameter_docs m)) ∅.
End macros.

(** * Version specs *)

(** [str::split('.')]. *)
Fixpoint split_dot (s : string) : list string :=
  match s with
  | EmptyString => [""]
  | String c s =>
      if Ascii.eqb c "." then "" :: split_dot s
      else match split_dot s with
           | p :: ps => String c p :: ps
           | [] => [String c ""]
           end
  end.

Abbreviation semver := (Z * Z * Z)%type.
Definition parse_u32 (s : string) : option Z := parse_unsigned (2 ^ 32 - 1) s.
Definition parse_semver (v : string) : option semver :=
  match split_dot v with
  | [a; b; c] => a ← parse_u32 a; b ← parse_u32 b; c ← parse_u32 c; Some (a, b, c)
  | _ => None
  end.

(** The order of the triples, and of the pairs the source sorts. *)
Definition semver_leb (x y : semver) : bool :=
  let '(a, b, c) := x in
  let '(a', b', c') := y in
  (a <? a') || ((a =? a') && ((b <? b') || ((b =? b') && (c <=? c')))).
Definition entry_le (x y : semver * string) : Prop :=
  semver_leb x.1 y.1 = true ∧ (x.1 = y.1 → str_le x.2 y.2).
#[global] Instance entry_le_dec : RelDecision entry_le.
Proof. intros x y. unfold entry_le. destruct (decide (x.1 = y.1)); apply _. Defined.

Definition sorted_versions (supported : list string) : list (semver * string) :=
  merge_sort entry_le (omap (λ v, (λ t, (t, v)) <$> parse_semver v) supported).

(** [trim_start_matches(['^', '~'])]. *)
Fixpoint trim_marks (s : string) : string :=
  match s with
  | String c r => if Ascii.eqb c "^" || Ascii.eqb c "~" then trim_marks r else s
  | EmptyString => s
  end.
Definition rfind {A} (p : A → bool) (l : list A) : option A := find p (rev l).

(** [None]: the unsupported-version error. *)
Definition resolve_version_npm (spec : option string) (supported : list string) (default_version : string) : option string :=
  match spec with
  | None => Some default_version
  | Some s =>
      if is_empty s then Some default_version
      else
        let sorted := sorted_versions supported in
        match parse_semver s with
        | Some _ => if bool_decide (s ∈ supported) then Some s else None
        | None =>
            let nums := split_dot (trim_marks s) in
            let mark := match s with String c _ => Ascii.eqb c "^" || Ascii.eqb c "~" | EmptyString => false end in
            let caret := match s with String c _ => Ascii.eqb c "^" | EmptyString => false end in
            match mark, nums with
            | false, [a] =>
                major ← parse_u32 a; snd <$> rfind (λ tv : semver * string, tv.1.1.1 =? major) sorted
            | false, [a; b] =>
                let pinned := a +:+ "." +:+ b +:+ ".0" in if bool_decide (pinned ∈ supported) then Some pinned else None
            | true, _ =>
                base ← parse_semver (trim_marks s);
                snd <$> rfind (λ tv : semver * string,
                  (tv.1.1.1 =? base.1.1) && semver_leb base tv.1 && (caret || (tv.1.1.2 =? base.1.2))) sorted
            | false, _ => None
            end
        end
  end.
