(* ===== verification/CatalogModelFacts.v ===== *)
(** What a declarative catalog serves: a table's columns, generated columns and
    constraints agree; required filters name columns; a version spec, an AT clause
    and a macro mean what they say. *)
From S2P Require Import Prelude Codec Float64 Arrow SqlCompare Ipc SqlExpression SqlPrint Wire ConstraintRecord Constraints.
From S2P Require Import ConstraintsFacts ColumnExpressions CatalogModel.

Open Scope Z_scope.

(** * Version specs *)

Lemma semver_leb_refl x : semver_leb x x = true.
Proof. destruct x as [[a b] c]. cbn. rewrite !Z.eqb_refl, Z.leb_refl. cbn. by rewrite !orb_true_r. Qed.

Lemma semver_leb_spec a b c a' b' c' : semver_leb (a, b, c) (a', b', c') = true ↔
  a < a' ∨ a = a' ∧ (b < b' ∨ b = b' ∧ c ≤ c').
Proof. cbn. rewrite orb_true_iff, andb_true_iff, orb_true_iff, andb_true_iff, !Z.ltb_lt, !Z.eqb_eq, Z.leb_le. done. Qed.

Lemma semver_leb_trans x y z : semver_leb x y = true → semver_leb y z = true → semver_leb x z = true.
Proof. destruct x as [[a b] c], y as [[a' b'] c'], z as [[a'' b''] c'']. rewrite !semver_leb_spec. lia. Qed.
Lemma semver_leb_total x y : semver_leb x y = true ∨ semver_leb y x = true.
Proof. destruct x as [[a b] c], y as [[a' b'] c']. rewrite !semver_leb_spec. lia. Qed.
Lemma semver_leb_antisym x y : semver_leb x y = true → semver_leb y x = true → x = y.
Proof.
  destruct x as [[a b] c], y as [[a' b'] c']. rewrite !semver_leb_spec. intros. assert (a = a' ∧ b = b' ∧ c = c') as (-> & -> & ->) by lia. done.
Qed.

#[global] Instance entry_le_total : Total entry_le.
Proof.
  intros [t v] [t' v']. unfold entry_le. cbn. destruct (decide (t = t')) as [->|Hne].
  - rewrite semver_leb_refl. destruct (total str_le v v'); [left|right]; done.
  - destruct (semver_leb_total t t'); [left|right]; split; done.
Qed.
#[global] Instance entry_le_trans : Transitive entry_le.
Proof.
  intros [t v] [t' v'] [t'' v'']. unfold entry_le. cbn. intros [H1 S1] [H2 S2]. split; [by eapply semver_leb_trans|].
  intros <-. assert (t = t') as <- by (by apply semver_leb_antisym). etransitivity; [by apply S1|by apply S2].
Qed.

Lemma sorted_versions_spec supported :
  StronglySorted entry_le (sorted_versions supported) ∧
  ∀ t v, (t, v) ∈ sorted_versions supported ↔ v ∈ supported ∧ parse_semver v = Some t.
Proof.
  split; [apply StronglySorted_merge_sort; apply _|]. intros t v. unfold sorted_versions.
  rewrite merge_sort_Permutation, list_elem_of_omap. split.
  - intros (v' & Hv & E). destruct (parse_semver v') as [t'|] eqn:Ep; cbn in E; [|done]. injection E as <- <-. done.
  - intros [Hv E]. exists v. by rewrite E.
Qed.

(** The last match of a sorted list is the greatest. *)
Lemma rfind_sorted {A} (R : relation A) `{!Reflexive R} (p : A → bool) l : StronglySorted R l →
  match rfind p l with
  | Some x => x ∈ l ∧ p x = true ∧ ∀ y, y ∈ l → p y = true → R y x
  | None => ∀ y, y ∈ l → p y = false
  end.
Proof.
  unfold rfind. intros S. induction l as [|a l IH] using rev_ind; [by intros y []%not_elem_of_nil|].
  rewrite rev_app_distr. cbn. apply StronglySorted_app in S as (Hal & S & _). specialize (IH S).
  destruct (p a) eqn:Ep.
  - split_and!; [apply elem_of_app; right; by left|done|]. intros y [Hy| ->%list_elem_of_singleton]%elem_of_app _; [|done].
    apply Hal; [done|by left].
  - destruct (find p (rev l)) as [x|].
    + destruct IH as (Hx & Hp & Hmax). split_and!; [apply elem_of_app; by left|done|].
      intros y [Hy| ->%list_elem_of_singleton]%elem_of_app Hy'; [by apply Hmax|congruence].
    + intros y [Hy| ->%list_elem_of_singleton]%elem_of_app; [by apply IH|done].
Qed.

(** What a range spec asks for: a bare major version, or at least a base with the
    same major (caret) or the same major and minor (tilde). *)
Inductive spec_range : string → (semver → Prop) → Prop :=
| range_major s major : split_dot s = [s] → trim_marks s = s → parse_u32 s = Some major →
    spec_range s (λ t, t.1.1 = major)
| range_caret r base : parse_semver (trim_marks r) = Some base →
    spec_range (String "^" r) (λ t, t.1.1 = base.1.1 ∧ semver_leb base t = true)
| range_tilde r base : parse_semver (trim_marks r) = Some base →
    spec_range (String "~" r) (λ t, t.1.1 = base.1.1 ∧ t.1.2 = base.1.2 ∧ semver_leb base t = true).

Definition best_of (supported : list string) (p : semver → Prop) (o : option string) : Prop :=
  match o with
  | Some v => v ∈ supported ∧ ∃ t, parse_semver v = Some t ∧ p t ∧
              ∀ v' t', v' ∈ supported → parse_semver v' = Some t' → p t' → semver_leb t' t = true
  | None => ∀ v t, v ∈ supported → parse_semver v = Some t → ¬ p t
  end.

Lemma rfind_best supported (q : semver * string → bool) (p : semver → Prop) : (∀ t v, q (t, v) = true ↔ p t) →
  best_of supported p (snd <$> rfind q (sorted_versions supported)).
Proof.
  intros Hq. destruct (sorted_versions_spec supported) as [S E].
  assert (Reflexive entry_le) as Hrefl by (intros x; split; [apply semver_leb_refl|intros _; apply str_leb_refl]).
  pose proof (rfind_sorted entry_le q _ S) as Hf. destruct (rfind q _) as [[t v]|]; cbn.
  - destruct Hf as ((Hv & Et)%E & Hp & Hmax). split; [done|]. exists t. split_and!; [done|by apply (Hq t v)|].
    intros v' t' Hv' Et' Hp'. apply (Hmax (t', v')); [by apply E|by apply Hq].
  - intros v t Hv Et Hp. assert (q (t, v) = false) by (apply Hf, E; done). apply (Hq t v) in Hp. congruence.
Qed.

Lemma trim_marks_length s : (String.length (trim_marks s) ≤ String.length s)%nat.
Proof.
  induction s as [|c s IH]; [done|]. cbn [trim_marks]. destruct (_ || _); cbn [String.length]; lia.
Qed.

Lemma parse_marked c r : Ascii.eqb c "." = false → Ascii.eqb c "+" = false → digit_of c = None → parse_semver (String c r) = None.
Proof.
  intros Hd Hp Hn. unfold parse_semver. cbn [split_dot]. rewrite Hd.
  destruct (split_dot r) as [|x [|y [|z [|]]]]; try done. cbn [mbind option_bind].
  assert (parse_u32 (String c x) = None) as ->; [|done]. unfold parse_u32, parse_unsigned. rewrite Hp. cbn. by rewrite Hn.
Qed.

(** A bare major, caret or tilde version spec resolves to a supported
    version in its range, and to the greatest one; it is refused exactly when no supported
    version is in the range. *)
Theorem version_spec_best supported default_version s p : spec_range s p →
  best_of supported p (resolve_version_npm (Some s) supported default_version).
Proof.
  destruct 1 as [s major Hsplit Htrim Hm|r base Hb|r base Hb]; unfold resolve_version_npm.
  - assert (is_empty s = false) as -> by (destruct s; [done|done]).
    assert (parse_semver s = None) as -> by (unfold parse_semver; by rewrite Hsplit).
    rewrite Htrim, Hsplit.
    assert (match s with String c _ => Ascii.eqb c "^" || Ascii.eqb c "~" | EmptyString => false end = false) as ->.
    { destruct s as [|c s]; [done|]. destruct (Ascii.eqb c "^" || Ascii.eqb c "~") eqn:Ec; [|done]. exfalso. cbn in Htrim.
      rewrite Ec in Htrim. apply (f_equal String.length) in Htrim. pose proof (trim_marks_length s). cbn in Htrim. lia. }
    rewrite Hm. cbn [mbind option_bind]. apply rfind_best. intros t v. cbn. apply Z.eqb_eq.
  - assert (is_empty (String "^" r) = false) as -> by done. rewrite parse_marked by done.
    change (trim_marks (String "^" r)) with (trim_marks r). rewrite Hb. cbn [mbind option_bind]. apply rfind_best. intros t v. cbn [fst snd].
    change (Ascii.eqb "^" "^") with true. rewrite !andb_true_iff, Z.eqb_eq. cbn [orb]. naive_solver.
  - assert (is_empty (String "~" r) = false) as -> by done. rewrite parse_marked by done.
    change (trim_marks (String "~" r)) with (trim_marks r). rewrite Hb. cbn [mbind option_bind]. apply rfind_best. intros t v. cbn [fst snd].
    change (Ascii.eqb "~" "^") with false. cbn [orb]. rewrite !andb_true_iff, !Z.eqb_eq. naive_solver.
Qed.

(** A caret keeps the major version only, also below 1.0.0, where npm's keeps the
    first nonzero part. *)
Example caret_zero_major : resolve_version_npm (Some "^0.2.3") ["0.2.9"; "0.3.0"] "" = Some "0.3.0".
Proof. vm_compute. reflexivity. Qed.

(** * Time travel *)

Lemma max_version_spec l : match max_version l with
  | Some m => m ∈ l ∧ ∀ t, t ∈ l → tt_version t ≤ tt_version m
  | None => l = []
  end.
Proof.
  induction l as [|t l IH]; cbn; [done|]. destruct (max_version l) as [m|].
  - destruct IH as [Hm Hmax]. destruct (Z.ltb_spec (tt_version m) (tt_version t)).
    + split; [by left|]. intros x [->|Hx]%elem_of_cons; [lia|]. specialize (Hmax x Hx). lia.
    + split; [by right|]. intros x [->|Hx]%elem_of_cons; [done|]. by apply Hmax.
  - subst l. split; [by left|]. intros x ->%list_elem_of_singleton. lia.
Qed.

Section at_clause.
Variable to_uppercase : string → string.

(** The versions an AT clause admits. *)
Inductive at_admits : option string → option string → (TimeTravelVersion → Prop) → Prop :=
| at_none value : at_admits None value (λ _, True)
| at_empty u value : to_uppercase u = "" → at_admits (Some u) value (λ _, True)
| at_version u s want : to_uppercase u = "VERSION" → parse_i64 s = Some want → at_admits (Some u) (Some s) (λ t, tt_version t = want)
| at_timestamp u s y year : to_uppercase u = "TIMESTAMP" → first_four s = Some y → parse_i64 y = Some year →
    at_admits (Some u) (Some s) (λ t, ∃ ty, tt_timestamp_year t = Some ty ∧ ty ≤ year).

(** An AT clause on a time-travel table selects a version it admits, and the
    latest of them; it fails exactly when it admits none. *)
Theorem at_clause_exact t at_unit at_value p : t_time_travel t ≠ [] → at_admits at_unit at_value p →
  match resolve_version to_uppercase t at_unit at_value with
  | Ok (Some v) => v ∈ t_time_travel t ∧ p v ∧ ∀ v', v' ∈ t_time_travel t → p v' → tt_version v' ≤ tt_version v
  | Ok None => False
  | Err _ => ∀ v, v ∈ t_time_travel t → ¬ p v
  end.
Proof.
  intros Hne Hat. unfold resolve_version. destruct (t_time_travel t) as [|v0 vs] eqn:Et; [done|]. rewrite <- Et in *. clear Et v0 vs.
  pose proof (max_version_spec (t_time_travel t)) as Hmax. destruct Hat as [value|u value Hu|u s want Hu Hs|u s y year Hu Hf Hy].
  - cbn. destruct (max_version _); [|done]. naive_solver.
  - cbn. rewrite Hu. cbn. destruct (max_version _); [|done]. naive_solver.
  - cbn [option_map]. rewrite Hu. cbn [mbind option_bind]. rewrite Hs. cbn. destruct (find _ _) as [v|] eqn:Ef.
    + apply find_some in Ef as [Hin Hv%Z.eqb_eq]. apply list_elem_of_In in Hin. split_and!; [done..|]. intros v' _ ->. lia.
    + intros v Hv Hw. apply list_elem_of_In in Hv. pose proof (find_none _ _ Ef v Hv) as Hn. apply Z.eqb_neq in Hn. done.
  - cbn [option_map]. rewrite Hu. cbn [mbind option_bind]. rewrite Hf. cbn [mbind option_bind]. rewrite Hy. cbn -[filter max_version].
    assert (∀ v, valid_at year v = true ↔ ∃ ty, tt_timestamp_year v = Some ty ∧ ty ≤ year) as Hv.
    { intros v. unfold valid_at. destruct (tt_timestamp_year v) as [ty|]; [rewrite Z.leb_le; naive_solver|]. naive_solver. }
    pose proof (max_version_spec (filter (λ v, valid_at year v = true) (t_time_travel t))) as Hm.
    destruct (max_version (filter _ _)) as [v|].
    + destruct Hm as [[Hva Hin]%list_elem_of_filter Hm]. split_and!; [done|by apply Hv|]. intros v' Hin' Hp'. apply Hm.
      apply list_elem_of_filter. split; [by apply Hv|done].
    + intros v Hin Hp. assert (v ∈ filter (λ v, valid_at year v = true) (t_time_travel t)) as Hf' by (apply list_elem_of_filter; split; [by apply Hv|done]).
      rewrite Hm in Hf'. by apply not_elem_of_nil in Hf'.
Qed.
End at_clause.

(** * Required filters *)

(** A path names one column at every level. *)
Inductive names_column : list Field → list string → Field → Prop :=
| names_here fields part f : is_empty part = false → has_nul part = false → filter (λ f, name f = part) fields = [f] →
    names_column fields [part] f
| names_below fields part f children rest g : is_empty part = false → has_nul part = false →
    filter (λ f, name f = part) fields = [f] → data_type f = Struct children → names_column children rest g →
    names_column fields (part :: rest) g.

Lemma filter_path_Ok fields path : path ≠ [] → filter_path fields path = Ok () ↔ ∃ g, names_column fields path g.
Proof.
  revert fields. induction path as [|part rest IH]; intros fields Hne; [done|]. cbn [filter_path].
  destruct (is_empty part) eqn:E1; cbn [orb]. { split; [done|]. intros [g Hn]. inversion Hn; congruence. }
  destruct (has_nul part) eqn:E2; cbn [orb]. { split; [done|]. intros [g Hn]. inversion Hn; congruence. }
  destruct (filter _ fields) as [|f [|]] eqn:E3.
  1,3: split; [done|]; intros [g Hn]; inversion Hn; congruence.
  destruct rest as [|x rest].
  - split; [|done]. intros _. exists f. by apply names_here.
  - destruct (data_type f) eqn:E4; try (split; [done|]; intros [g Hn]; inversion Hn; congruence).
    rewrite IH by done. split; intros [g Hn]; [exists g; by eapply names_below|].
    inversion Hn; simplify_eq. exists g. congruence.
Qed.

Lemma filter_group_Ok fields seen group : filter_group fields seen group = Ok () ↔
  NoDup group ∧ Forall (λ path, path ∉ seen ∧ ∃ g, names_column fields path g) group.
Proof.
  revert seen. induction group as [|path group IH]; intros seen; cbn [filter_group]; [split; [repeat constructor|done]|].
  rewrite NoDup_cons, Forall_cons. destruct path as [|part rest].
  { cbn. split; [done|]. intros [_ [[_ [g Hn]] _]]. inversion Hn. }
  cbn [null]. set (path := part :: rest). case_bool_decide as Hs; [split; [done|tauto]|].
  pose proof (filter_path_Ok fields path ltac:(done)) as Hp. destruct (filter_path fields path) as [[]|].
  - rewrite IH. destruct Hp as [Hp _]. specialize (Hp eq_refl). rewrite !Forall_forall. split.
    + intros [Hnd Hall]. split_and!; try done.
      * intros Hin. destruct (Hall _ Hin) as [Hn _]. set_solver.
      * intros q Hq. destruct (Hall q Hq). set_solver.
    + intros ((Hn & Hnd) & _ & Hall). split; [done|]. intros q Hq. destruct (Hall q Hq) as [Hqs Hqn]. split; [|done].
      rewrite not_elem_of_union, not_elem_of_singleton. split; [congruence|done].
  - split; [done|]. intros (_ & (_ & Hg) & _). by apply Hp in Hg.
Qed.

(** A table's required filters pass exactly when every group has at
    least one path, no group repeats one, and every path names exactly one column at every
    level of the declared schema, down through structs. *)
Theorem required_filters_exact columns groups : validate_required_filters columns groups = Ok () ↔
  Forall (λ group, group ≠ [] ∧ NoDup group ∧ Forall (λ path, ∃ g, names_column columns path g) group) groups.
Proof.
  induction groups as [|group groups IH]; cbn [validate_required_filters]; [split; [constructor|done]|]. rewrite Forall_cons.
  destruct group as [|path group]; [cbn; split; [done|]; intros [[[] _] _]; done|]. cbn [null].
  set (g := path :: group).
  assert (filter_group columns ∅ g = Ok () ↔ NoDup g ∧ Forall (λ path, ∃ g, names_column columns path g) g) as Hg.
  { rewrite filter_group_Ok, !Forall_forall. set_solver. }
  destruct (filter_group columns ∅ g) as [[]|].
  - rewrite IH. naive_solver.
  - split; [done|]. intros [(_ & Hnd & Hall) _]. by pose proof (proj2 Hg (conj Hnd Hall)).
Qed.

(** * Macros *)

Section macros.
Context `{IpcLaws} `{CharClasses}.

(** The batch of one default, as a client reads it. *)
Definition default_batch (n : string) (v : Z) : RecordBatch :=
  relay (mkRecordBatch [mkField n Int64 false []] ∅ [plain_array Int64 [Some (VInt v)]] 1).

Lemma build_one_default n v b : build_macro_defaults [(n, v)] = Ok b → read_batch b = Ok (default_batch n v).
Proof.
  cbn. intros E. by destruct (read_written _ _ _ _ E) as (_ & ? & _).
Qed.

(** What one parameter carries. *)
Definition carries (m : CatMacro) (p : MacroParameter) : Prop :=
  mp_documentation p = snd <$> find (λ nd, String.eqb nd.1 (mp_name p)) (m_parameter_docs m) ∧
  mp_default_expression p = None ∧
  match mp_default_value p with
  | None => ∀ v, (mp_name p, v) ∉ m_defaults m
  | Some b => ∃ v, filter (λ nv, nv.1 = mp_name p) (m_defaults m) = [(mp_name p, v)] ∧ read_batch b = Ok (default_batch (mp_name p) v)
  end.

Lemma macro_parameters_Ok m seen sd names ps : macro_parameters m seen sd names = Ok ps →
  mp_name <$> ps = names ∧ NoDup (to_ascii_lowercase <$> names) ∧ Forall (λ n, to_ascii_lowercase n ∉ seen) names ∧
  Forall (carries m) ps ∧
  ∃ req opt, ps = req ++ opt ∧ (sd = true → req = []) ∧ Forall (λ p, mp_default_value p = None) req ∧
             Forall (λ p, is_some (mp_default_value p) = true) opt.
Proof.
  revert seen sd ps. induction names as [|n names IH]; intros seen sd ps; cbn [macro_parameters].
  { intros [= <-]. split_and!; [done|constructor..|]. by exists [], []. }
  destruct (_ || bool_decide _) eqn:E1; [done|]. apply orb_false_iff in E1 as [_ Hs%bool_decide_eq_false].
  destruct (1 <? _)%nat eqn:E2; [done|]. apply Nat.ltb_ge in E2.
  set (ds := filter (λ nv, nv.1 = n) (m_defaults m)) in *. destruct (sd && null ds) eqn:E3; [done|].
  destruct (match ds with [] => Ok None | _ => _ end) as [dv|] eqn:E4; [|done].
  destruct (macro_parameters m _ _ names) as [rest|] eqn:E5; [|done]. intros [= <-].
  apply IH in E5 as (Hn & Hnd & Hf & Hc & req & opt & -> & Hsd & Hr & Ho).
  assert (carries m (mkParameter n None dv None (snd <$> find (λ nd, String.eqb nd.1 n) (m_parameter_docs m)))) as Hcar.
  { split_and!; [done..|]. cbn [mp_default_value mp_name]. destruct ds as [|[n' v] [|]] eqn:Ed; [|..|cbn in E2; lia].
    - injection E4 as <-. intros v Hin. assert ((n, v) ∈ ds) as Hin' by (by apply list_elem_of_filter). rewrite Ed in Hin'.
      by apply not_elem_of_nil in Hin'.
    - assert ((n', v) ∈ ds) as [Hn' _]%list_elem_of_filter by (rewrite Ed; by left). cbn in Hn'. subst n'.
      destruct (build_macro_defaults [(n, v)]) as [b|] eqn:Eb; [|done]. cbn in E4. injection E4 as <-. exists v. split; [by rewrite <- Ed|].
      by apply build_one_default. }
  split_and!.
  - cbn [fmap list_fmap mp_name]. by rewrite Hn.
  - rewrite fmap_cons, NoDup_cons. split; [|done]. intros (n' & E & Hin)%list_elem_of_fmap. rewrite Forall_forall in Hf.
    specialize (Hf n' Hin). rewrite <- E in Hf. set_solver.
  - constructor; [done|]. eapply Forall_impl; [exact Hf|]. set_solver.
  - by constructor.
  - destruct ds as [|d ds'] eqn:Ed.
    + injection E4 as <-. rewrite andb_true_r in E3. subst sd. exists (mkParameter n None None None (snd <$> find (λ nd, String.eqb nd.1 n) (m_parameter_docs m)) :: req), opt.
      split_and!; [done|done| |done]. by constructor.
    + assert (∃ b, dv = Some b) as [b ->]. { destruct (map_err _ _) as [b|]; [|done]. injection E4 as <-. by exists b. }
      rewrite orb_true_r in Hsd. rewrite (Hsd eq_refl). eexists [], _. split_and!; [done|done|done|]. by constructor.
Qed.

(** A simple macro is served as one overload with its parameters in
    order, distinct up to case; the parameters with a default come last; each carries its own
    declared default, which a client reads back, and its own documentation. *)
Theorem simple_macro_served path m info : macro_info path m = Ok info → m_overloads m = None →
  ∃ o req opt, mi_overloads info = [o] ∧ mo_schema_path o = path ∧ mo_definition o = m_definition m ∧
  mp_name <$> mo_parameters o = m_parameters m ∧ NoDup (to_ascii_lowercase <$> m_parameters m) ∧
  mo_parameters o = req ++ opt ∧ Forall (λ p, mp_default_value p = None) req ∧
  Forall (λ p, is_some (mp_default_value p) = true) opt ∧ Forall (carries m) (mo_parameters o) ∧
  (∀ n v, (n, v) ∈ m_defaults m → ∃ p b, p ∈ opt ∧ mp_name p = n ∧ mp_default_value p = Some b ∧ read_batch b = Ok (default_batch n v)).
Proof.
  unfold macro_info, macro_overloads. intros E Hn. rewrite Hn in E. destruct (_ || has_nul _); [done|].
  destruct (negb (forallb _ _)) eqn:Ek; [done|]. apply negb_false_iff in Ek. rewrite forallb_forall in Ek.
  destruct (macro_parameters m ∅ false (m_parameters m)) as [ps|] eqn:Ep; [|done]. injection E as <-. cbn [mi_overloads].
  apply macro_parameters_Ok in Ep as (Hnames & Hnd & _ & Hc & req & opt & -> & _ & Hr & Ho).
  eexists _, req, opt. split; [reflexivity|]. cbn. split_and!; try done. intros n v Hin.
  assert (n ∈ m_parameters m) as Hp.
  { apply (bool_decide_eq_true (n ∈ m_parameters m)), Ek, list_elem_of_In, elem_of_app. left. apply list_elem_of_fmap. by exists (n, v). }
  rewrite <- Hnames in Hp. apply list_elem_of_fmap in Hp as (p & -> & Hp). rewrite Forall_forall in Hc.
  destruct (Hc p Hp) as (_ & _ & Hd). destruct (mp_default_value p) as [b|] eqn:Eb; [|by apply Hd in Hin].
  destruct Hd as (v' & Hf & Hread). assert ((mp_name p, v) ∈ filter (λ nv, nv.1 = mp_name p) (m_defaults m)) as Hin' by (by apply list_elem_of_filter).
  rewrite Hf in Hin'. apply list_elem_of_singleton in Hin' as [= ->]. exists p, b. split_and!; [|done..].
  apply elem_of_app in Hp as [Hp|Hp]; [|done]. rewrite Forall_forall in Hr. specialize (Hr p Hp). congruence.
Qed.
End macros.

(** The documentation of a parameter: the first entry of its name, unless empty. *)
Definition doc_of (docs : list (string * string)) (n : string) : option (string * string) :=
  match find (λ nd, String.eqb nd.1 n) docs with
  | Some (_, doc) => if is_empty doc then None else Some (n, doc)
  | None => None
  end.

(** The documentation put into a macro's argument schema reads back: every
    documented parameter with its text, in parameter order, and nothing else. *)
Theorem macro_docs_roundtrip parameters defaults docs :
  macro_parameter_docs_from_schema (macro_arguments_schema parameters defaults docs) = omap (doc_of docs) parameters.
Proof.
  assert (∀ n, pair (name (macro_argument_field defaults docs n)) <$> get (metadata (macro_argument_field defaults docs n)) "vgi_doc"
    = doc_of docs n) as Hn.
  { intros n. unfold macro_argument_field, doc_of. cbn [name metadata]. destruct (find _ docs) as [[n' doc]|]; [|done].
    by destruct (is_empty doc). }
  unfold macro_parameter_docs_from_schema, macro_arguments_schema.
  induction parameters as [|n parameters IH]; [done|]. rewrite fmap_cons. cbn [omap list_omap] in *. rewrite Hn.
  destruct (doc_of docs n); by rewrite IH.
Qed.

(** * Served tables *)

Lemma get_app_fresh md k v rest : contains_key md k = false → get (md ++ (k, v) :: rest) k = Some v.
Proof.
  unfold contains_key, get. intros Hn. destruct (list_find (λ kv, kv.1 = k) md) as [|] eqn:E; [done|].
  rewrite list_find_app_r by done. cbn. by rewrite decide_True.
Qed.

Section tables.
Context `{IpcLaws} `{WireRecordLaws} `{CharClasses} `{Carrier} `{JsonMap} `{VgiArrowLaws ScanFunctionResult}.

Lemma translate_fields_Ok owner l l' : translate_fields owner l = Ok l' → Forall2 (λ f f', translate_field owner f = Ok f') l l'.
Proof.
  revert l'. induction l as [|f l IH]; intros l' E; cbn in E; [injection E as <-; constructor|].
  destruct (translate_field owner f) as [f'|] eqn:Ef; [|done]. destruct (translate_fields owner l) as [l''|]; [|done].
  injection E as <-. constructor; [done|by apply IH].
Qed.

Lemma translate_legacy_Ok s owner s' : translate_legacy_generated s owner = Ok s' → Forall2 (λ f f', translate_field owner f = Ok f') s s'.
Proof.
  unfold translate_legacy_generated. destruct (existsb _ s) eqn:E; [apply translate_fields_Ok|]. intros [= <-].
  apply not_true_iff_false in E. apply Forall_Forall2_diag, Forall_forall. intros f Hf. unfold translate_field.
  destruct (get (metadata f) LEGACY_GENERATED) eqn:Eg; [|done]. destruct E. apply existsb_exists. exists f.
  split; [by apply list_elem_of_In|]. unfold contains_key. by rewrite Eg.
Qed.

(** A field with the legacy key carries the canonical pair after translation. *)
Lemma translate_field_legacy owner f f' sql : translate_field owner f = Ok f' → get (metadata f) LEGACY_GENERATED = Some sql →
  name f' = name f ∧ ∃ v, get (metadata f') GENERATED = Some v ∧ generated_metadata sql owner = Ok v.
Proof.
  intros E Hl. unfold translate_field in E. rewrite Hl in E. destruct (_ || _) eqn:Ek; [done|]. apply orb_false_iff in Ek as [Hg _].
  destruct (generated_metadata sql owner) as [v|]; [|done]. injection E as <-. destruct f as [n ty b md]. split; [done|]. exists v.
  split; [|done]. cbn [with_metadata metadata]. by apply get_app_fresh.
Qed.

Lemma served_columns_Ok path n cols md raws fields md' : served_columns path n cols md raws = Ok (fields, md') →
  ∃ rs, checked_records path n cols raws = Ok rs ∧ md' = md ∧ normalize_all (required_paths rs) [] cols = Ok fields.
Proof.
  unfold served_columns. destruct (checked_records path n cols raws) as [rs|] eqn:Ec; [|done].
  unfold normalize_fields. cbn [length]. destruct (MAX_DEPTH <? 0)%nat; [done|]. destruct (normalize_all _ _ _) as [fs|] eqn:En; [|done].
  intros [= <- <-]. by exists rs.
Qed.

(** A top-level field keeps its name and metadata when served, and its nullability is
    whether its path is required. *)
Lemma served_top required f f' : normalize_field required [] f = Ok f' →
  name f' = name f ∧ metadata f' = metadata f ∧ (is_row_id f = false → is_nullable f' = bool_decide ([name f] ∉ required)).
Proof.
  intros E. destruct (is_row_id f) eqn:Hr.
  - rewrite normalize_field_eq, Hr in E. injection E as <-. done.
  - apply normalize_field_Ok in E as [(_ & Hn & Hm & Hnull & _) _]; [|done]. cbn in *. done.
Qed.

Lemma legacy_none t : find snd (legacy_fields t) = None →
  t_not_null t = [] ∧ t_unique t = [] ∧ t_primary_key t = [] ∧ t_check t = [] ∧ t_foreign_keys t = [].
Proof.
  unfold legacy_fields. destruct (t_not_null t), (t_unique t), (t_primary_key t), (t_check t), (t_foreign_keys t); cbn; try done.
Qed.

(** C33: A table that is described to clients: the columns they decode have the names
    and metadata of the declared ones, with legacy generated columns translated, and pass the
    generated-column and constraint rules together.  The records sent are those that check against these columns, and
    a decoded column other than the row id is nullable exactly when no NOT_NULL or PRIMARY_KEY
    record names it.  No legacy field is set and no field at any depth keeps the legacy
    generated key; a column that declared one carries the canonical expression made from its
    SQL; each generated column is within the rules, hence nullable, and unless it is the row id
    no NOT_NULL or PRIMARY_KEY record names it; and an inlined scan decodes to the table's
    scan. *)
Theorem served_table_consistent path t schema_of_scan info : table_info path t schema_of_scan = Ok info →
  ∃ fields md cols rs, read_schema (ti_columns info) = Ok (fields, md) ∧
  translate_legacy_generated (t_columns t) path = Ok cols ∧
  checked_records path (t_name t) cols (ti_constraints info) = Ok rs ∧
  Forall2 (λ c f, name f = name c ∧ metadata f = metadata c ∧
    (is_row_id c = false → is_nullable f = bool_decide ([name c] ∉ required_paths rs))) cols fields ∧
  (t_not_null t = [] ∧ t_unique t = [] ∧ t_primary_key t = [] ∧ t_check t = [] ∧ t_foreign_keys t = []) ∧
  (∀ f, occurs fields f → contains_key (metadata f) LEGACY_GENERATED = false) ∧
  (∀ i f sql, t_columns t !! i = Some f → get (metadata f) LEGACY_GENERATED = Some sql →
     ∃ f' v, fields !! i = Some f' ∧ name f' = name f ∧ get (metadata f') GENERATED = Some v ∧ generated_metadata sql path = Ok v) ∧
  (∀ f v, f ∈ fields → get (metadata f) GENERATED = Some v →
     well_generated fields path f v ∧ (is_row_id f = false → [name f] ∉ required_paths rs)) ∧
  (t_inline_scan t = true → t_scan_function t ≠ "" →
     decode_record (default [] (ti_scan_function info)) = Ok (scan_function_result (default path schema_of_scan) t)).
Proof.
  unfold table_info, served_table_columns. intros E. destruct (find snd (legacy_fields t)) as [[]|] eqn:El; [done|].
  apply legacy_none in El. repeat step_ok E. rename a into served.
  assert (∃ cols, map_err Columns (translate_legacy_generated (t_columns t) path) = Ok cols ∧
    map_err Records (served_columns path (t_name t) cols (t_schema_metadata t) (t_constraints t)) = Ok served ∧
    map_err Columns (validate_column_metadata served.1) = Ok () ∧ map_err Columns (validate served.1 path true) = Ok ())
    as (cols & Etr & Es & _ & Ev).
  { repeat step_ok E0. injection E0 as <-. destruct a4, a5. eauto. }
  clear E0. injection E as <-. cbn [ti_columns ti_constraints ti_scan_function default].
  destruct served as [fields md]. cbn [fst snd] in *. apply map_err_Ok in Etr, Es, Ev, E3. pose proof Etr as Etr'. apply translate_legacy_Ok in Etr.
  apply served_columns_Ok in Es as (rs & Ec & -> & En). apply normalize_all_Forall2 in En.
  exists fields, (t_schema_metadata t), cols, rs.
  unfold validate in Ev. destruct (validate_from _ _ _ _ _ _) as [r|] eqn:Evf; [|done]. apply validate_from_Ok in Evf as (Hall & Hgen & _).
  split; [by destruct (read_bare _ _ _ E3) as (_ & _ & ?)|]. split; [done|]. split; [done|].
  split. { eapply Forall2_impl; [exact En|]. intros c f Hcf. by apply served_top. }
  split; [exact El|]. split; [|split; [|split]].
  - intros f Ho. specialize (Hall f Ho). unfold check_generated_metadata in Hall. destruct (existsb _ _); [done|].
    by destruct (contains_key (metadata f) LEGACY_GENERATED).
  - intros i f sql Hi Hl. destruct (Forall2_lookup_l _ _ _ _ _ Etr Hi) as (f1 & Hi1 & E1f).
    destruct (Forall2_lookup_l _ _ _ _ _ En Hi1) as (f2 & Hi2 & E2f). destruct (translate_field_legacy _ _ _ _ E1f Hl) as (Hn1 & v & Hv & Eg).
    destruct (served_top _ _ _ E2f) as (Hn2 & Hm2 & _). exists f2, v. split_and!; [done|congruence|by rewrite Hm2|done].
  - intros f v Hf Hg. pose proof (proj1 (generated_column_Ok _ _ _ _) (Hgen f v Hf Hg)) as Hw. split; [done|]. intros Hrow Hin.
    apply list_elem_of_lookup in Hf as (i & Hi). destruct (Forall2_lookup_r _ _ _ _ _ En Hi) as (f0 & Hi0 & E0f).
    destruct (served_top _ _ _ E0f) as (Hn & Hm & Hnull). destruct Hw as (Hwn & _).
    assert (is_row_id f0 = false) as Hrow0. { unfold is_row_id, has_metadata in *. by rewrite <- Hm. }
    rewrite Hnull, <- Hn in Hwn by done. by apply bool_decide_eq_true in Hwn.
  - intros Hi Hne. rewrite Hi in E1. cbn [andb] in E1. destruct (is_empty (t_scan_function t)) eqn:Ee.
    { by apply String.eqb_eq in Ee. }
    cbn [negb] in E1. apply map_err_Ok in E1. by apply decode_encoded.
Qed.
End tables.

(** * Witnesses *)

Lemma version_spec_best_witness :
  resolve_version_npm (Some "^1.2.0") ["1.2.3"; "1.10.0"; "2.0.0"] "" = Some "1.10.0" ∧
  best_of ["1.2.3"; "1.10.0"; "2.0.0"] (λ t, t.1.1 = 1 ∧ semver_leb (1, 2, 0) t = true) (Some "1.10.0").
Proof.
  split; [vm_compute; reflexivity|].
  apply (version_spec_best ["1.2.3"; "1.10.0"; "2.0.0"] "" "^1.2.0"). apply (range_caret "1.2.0" (1, 2, 0)). vm_compute. reflexivity.
Defined.

Definition sample_table : CatTable :=
  mkTable sample_raws None ∅ "users"
    [mkField "id" Int64 true []; mkField "s" (Struct [mkField "x" Float64 true []]) false [];
     mkField "twice" Int64 true [("generated_expression", "id + id")]] ∅ "scan_users" [] None None [] [] [] [] [] [] false false false
    [mkTimeTravel 1 [] "f" [] (Some 2020); mkTimeTravel 2 [] "f" [] (Some 2024)] [[["id"]; ["s"; "x"]]] false.

Lemma at_clause_exact_witness :
  resolve_version (λ s, s) sample_table (Some "TIMESTAMP") (Some "2023-01-01") = Ok (Some (mkTimeTravel 1 [] "f" [] (Some 2020))) ∧
  (∀ v', v' ∈ t_time_travel sample_table → (∃ ty, tt_timestamp_year v' = Some ty ∧ ty ≤ 2023) → tt_version v' ≤ 1).
Proof.
  split; [vm_compute; reflexivity|].
  pose proof (at_clause_exact (λ s, s) sample_table (Some "TIMESTAMP") (Some "2023-01-01") _ ltac:(discriminate)
    (at_timestamp (λ s, s) "TIMESTAMP" "2023-01-01" "2023" 2023 eq_refl eq_refl eq_refl)) as T.
  destruct (resolve_version _ _ _ _) as [[v|]|] eqn:E in T; [|done|vm_compute in E; discriminate].
  assert (v = mkTimeTravel 1 [] "f" [] (Some 2020)) as -> by (vm_compute in E; congruence). apply T.
Defined.

Definition sample_macro : CatMacro := mkMacro None "add" ["a"; "b"] "a + b" false None [("b", 7)] [("a", "left")].
Definition macro_stream : IpcStream :=
  table_stream [([x01], mkStream [mkField "b" Int64 false []] ∅ [mkRecordBatch [mkField "b" Int64 false []] ∅ [plain_array Int64 [Some (VInt 7)]] 1])].
#[local] Existing Instance ascii_chars.

Lemma simple_macro_served_witness :
  ∃ info o p b, macro_info (H := macro_stream) ["main"] sample_macro = Ok info ∧ mi_overloads info = [o] ∧ p ∈ mo_parameters o ∧
    mp_name p = "b" ∧ mp_default_value p = Some b ∧ read_batch (H := macro_stream) b = Ok (default_batch "b" 7).
Proof.
  assert (@IpcLaws macro_stream) as L.
  { apply table_stream_laws; [apply NoDup_singleton|]. by apply Forall_singleton. }
  destruct (macro_info (H := macro_stream) ["main"] sample_macro) as [info|e] eqn:E; [|exfalso; revert E; vm_compute; discriminate].
  destruct (simple_macro_served (H0 := L) ["main"] sample_macro info E eq_refl) as (o & req & opt & Eo & _ & _ & _ & _ & Ep & _ & _ & _ & Hd).
  destruct (Hd "b" 7) as (p & b & Hp & Hn & Hb & Hr); [left|]. exists info, o, p, b. rewrite Ep.
  split; [reflexivity|]. split; [exact Eo|]. split; [apply elem_of_app; by right|]. split; [exact Hn|]. split; [exact Hb|exact Hr].
Defined.

(** Text records, and one bare schema. *)
Definition with_bare (s0 : Schema) : IpcStream := {|
  write_stream s md l :=
    match l with
    | [] => if decide (s = s0 ∧ md = ∅) then Ok [x02] else Err (AtWrite "unsupported")
    | _ => @write_stream text_stream s md l
    end;
  open_stream bs := match bs with [x02] => Ok (mkReader s0 ∅ (Ok None)) | _ => @open_stream text_stream bs end;
|}.
Lemma with_bare_laws s0 : @IpcLaws (with_bare s0).
Proof.
  split.
  - intros s md b bs E Ht. cbn -[text_stream] in E. apply (stream_batch (IpcLaws := text_stream_laws)) in E as E'; [|done].
    cbn in E. destruct (text_of b); [|done]. destruct (decide _); [|done]. injection E as <-. exact E'.
  - intros s md bs E. cbn in E. destruct (decide _) as [[-> ->]|]; [|done]. by injection E as <-.
  - intros s md [|b l] bs E; cbn -[text_stream] in E; [destruct (decide _); [|done]; by injection E as <-|].
    by eapply (stream_nonempty (IpcLaws := text_stream_laws)).
Qed.

#[local] Existing Instances text_records text_record_laws text_carrier sample_json.
#[local] Instance Ser_scan : Ser ScanFunctionResult :=
  ser_via (λ e, (sf_function_name e, sf_arguments e, sf_required_extensions e, sf_schema_path e))
    (λ '(a, b, c, d), mkScan a b c d) (λ e, match e with mkScan _ _ _ _ => eq_refl end).
#[local] Instance scan_arrow : VgiArrow ScanFunctionResult := ser_arrow.
#[local] Instance scan_arrow_laws : VgiArrowLaws ScanFunctionResult := ser_arrow_laws.
Definition sample_served : Schema := Eval vm_compute in
  match served_table_columns (H := text_stream) ["main"] sample_table with Ok (fields, _) => fields | Err _ => [] end.

Lemma served_table_consistent_witness :
  ∃ info fields md f v, table_info (H := with_bare sample_served) ["main"] sample_table None = Ok info ∧
    read_schema (H := with_bare sample_served) (ti_columns info) = Ok (fields, md) ∧ fields !! 2%nat = Some f ∧
    get (metadata f) GENERATED = Some v ∧ generated_metadata (H := with_bare sample_served) "id + id" ["main"] = Ok v.
Proof.
  destruct (table_info (H := with_bare sample_served) ["main"] sample_table None) as [info|e] eqn:E;
    [|exfalso; revert E; vm_compute; discriminate].
  destruct (served_table_consistent (H0 := with_bare_laws sample_served) ["main"] sample_table None info E)
    as (fields & md & cols & rs & Er & _ & _ & _ & _ & _ & Hl & _).
  destruct (Hl 2%nat (mkField "twice" Int64 true [("generated_expression", "id + id")]) "id + id" eq_refl eq_refl) as (f & v & Hi & _ & Hg & Hm).
  exists info, fields, md, f, v. split; [reflexivity|]. split; [exact Er|]. split; [exact Hi|]. split; [exact Hg|exact Hm].
Defined.
