(* ===== verification/ClientArguments.v ===== *)
(** Call arguments as the client builds them, [vgi-client/src/args.rs]: values,
    the positional and named builders and the IPC blob of a bind.  The worker's
    reader of that blob is [Arguments]; the theorems compose the two. *)
From S2P Require Import Prelude Float64 Arrow ArrowModel SqlCompare Pushdown Ipc Arguments.

Open Scope Z_scope.

Module Args.

(** [ArgValue]. *)
Inductive ArgValue :=
| AInt (v : Z) | AFloat (v : f64) | AText (v : string) | ABool (v : bool)
| AArrow (a : array)
| ANull (t : DataType)
| APlaceholder (t : DataType).

Definition arg_type (v : ArgValue) : DataType :=
  match v with
  | AInt _ => Int64 | AFloat _ => Float64 | AText _ => Utf8 | ABool _ => Boolean
  | AArrow a => arr_type a
  | ANull t | APlaceholder t => t
  end.

Definition to_array (v : ArgValue) : array :=
  match v with
  | AInt z => plain_array Int64 [Some (VInt z)]
  | AFloat f => plain_array Float64 [Some (VFloat f)]
  | AText s => plain_array Utf8 [Some (VBytes s)]
  | ABool b => plain_array Boolean [Some (VBool b)]
  | AArrow a => a
  | ANull t | APlaceholder t => plain_array t [None]
  end.

Record Arguments := mkArguments {
  args_positional : list ArgValue;
  args_named : list (string * ArgValue);
}.
Definition new : Arguments := mkArguments [] [].

Definition positional (a : Arguments) (value : ArgValue) : Arguments :=
  mkArguments (args_positional a ++ [value]) (args_named a).

(** [iter_mut().find]: the first entry of the name is overwritten. *)
Fixpoint set_named (name : string) (value : ArgValue) (l : list (string * ArgValue)) : option (list (string * ArgValue)) :=
  match l with
  | [] => None
  | e :: l => if decide (e.1 = name) then Some ((e.1, value) :: l) else cons e <$> set_named name value l
  end.
Definition named (a : Arguments) (name : string) (value : ArgValue) : Arguments :=
  mkArguments (args_positional a)
    (match set_named name value (args_named a) with
     | Some l => l
     | None => args_named a ++ [(name, value)]
     end).

Definition is_empty (a : Arguments) : bool :=
  match args_positional a, args_named a with [], [] => true | _, _ => false end.

(** * The blob *)

Definition positional_arg_field (i : nat) (v : ArgValue) : Field :=
  mkField ("positional_" +:+ Z_to_string (Z.of_nat i)) (arg_type v) true [].
Definition named_field (e : string * ArgValue) : Field := mkField ("named_" +:+ e.1) (arg_type e.2) true [].

Definition arg_fields (a : Arguments) : list Field :=
  imap positional_arg_field (args_positional a) ++ (named_field <$> args_named a).
Definition arg_arrays (a : Arguments) : list array :=
  (to_array <$> args_positional a) ++ (to_array ∘ snd <$> args_named a).

(** [StructArray::new_empty_fields(1, None)] and [StructArray::new], which panics
    unless its arrays have one length. *)
Definition struct_array (fields : list Field) (arrays : list array) : option array :=
  match arrays with
  | [] => Some (plain_array (Struct fields) [Some (VStruct [])])
  | c :: _ =>
      if existsb (λ a, negb (len a =? len c)%nat) arrays then None
      else Some (plain_array (Struct fields)
             ((λ j, Some (VStruct ((λ a, mjoin (vals a !! j)) <$> arrays))) <$> seq 0 (len c)))
  end.

(** [Arguments::to_ipc]; [None] is the panic. *)
Definition to_ipc `{IpcStream} (a : Arguments) : option (result bytes RpcError) :=
  sa ← struct_array (arg_fields a) (arg_arrays a);
  Some (if (len sa =? 1)%nat
        then write_batch (mkRecordBatch [mkField "args" (Struct (arg_fields a)) false []] ∅ [sa] 1)
        else runtime_error "build arguments batch: all columns in a record batch must have the specified row count").
End Args.

(** * Built arguments *)

(** A caller's chain of builder calls. *)
Inductive build_step := Positional (v : Args.ArgValue) | Named (n : string) (v : Args.ArgValue).
Definition build (steps : list build_step) : Args.Arguments :=
  foldl (λ a s, match s with Positional v => Args.positional a v | Named n v => Args.named a n v end) Args.new steps.

(** What the chain says: its positional values, and the last value of a name. *)
Definition given_positional (steps : list build_step) : list Args.ArgValue :=
  omap (λ s, match s with Positional v => Some v | Named _ _ => None end) steps.
Fixpoint given_named (n : string) (steps : list build_step) : option Args.ArgValue :=
  match steps with
  | [] => None
  | s :: steps =>
      match given_named n steps, s with
      | Some v, _ => Some v
      | None, Named m v => if decide (m = n) then Some v else None
      | None, Positional _ => None
      end
  end.

Section builder.
Import Args.

Lemma set_named_None n v l : set_named n v l = None → n ∉ l.*1.
Proof.
  induction l as [|[m w] l IH]; cbn; [intros _; apply not_elem_of_nil|]. case_decide as E; [done|].
  destruct (set_named n v l); [done|]. intros _. apply not_elem_of_cons. split; [congruence|auto].
Qed.

Lemma set_named_Some n v l l' : set_named n v l = Some l' →
  l'.*1 = l.*1 ∧ (NoDup l.*1 → (n, v) ∈ l' ∧ ∀ m w, m ≠ n → (m, w) ∈ l' ↔ (m, w) ∈ l).
Proof.
  induction l as [|[m w] l IH] in l' |- *; cbn; [done|]. case_decide as E.
  - subst m. intros [= <-]. split; [done|]. intros _. split; [left|]. intros m' w' Hm. rewrite !elem_of_cons. naive_solver.
  - destruct (set_named n v l) as [l1|] eqn:E1; [|done]. intros [= <-]. destruct (IH l1 eq_refl) as [H1 H2].
    split; [cbn; by rewrite H1|]. intros [_ Hnd]%NoDup_cons. destruct (H2 Hnd) as [H3 H4]. split; [by right|].
    intros m' w' Hm. rewrite !elem_of_cons, H4 by done. done.
Qed.

(** The invariant of the builder: names are unique. *)
Definition names_unique (a : Args.Arguments) : Prop := NoDup (args_named a).*1.

Lemma named_spec a n v : names_unique a → names_unique (named a n v) ∧ (n, v) ∈ args_named (named a n v) ∧
  ∀ m w, m ≠ n → (m, w) ∈ args_named (named a n v) ↔ (m, w) ∈ args_named a.
Proof.
  unfold names_unique, named. cbn [args_named]. intros Hnd. destruct (set_named n v (args_named a)) as [l|] eqn:E.
  - destruct (set_named_Some _ _ _ _ E) as [H1 H2]. destruct (H2 Hnd) as [H3 H4]. by rewrite H1.
  - apply set_named_None in E. split_and!.
    + rewrite fmap_app. apply NoDup_app. split_and!; [done| |by apply NoDup_singleton].
      intros x Hx ->%list_elem_of_singleton. done.
    + apply elem_of_app. right. by apply list_elem_of_singleton.
    + intros m w Hm. rewrite elem_of_app, list_elem_of_singleton. naive_solver.
Qed.

Lemma given_named_app n xs ys :
  given_named n (xs ++ ys) = match given_named n ys with Some v => Some v | None => given_named n xs end.
Proof. induction xs as [|x xs IH]; cbn; [by case_match|]. rewrite IH. by destruct (given_named n ys). Qed.

Lemma build_spec steps : names_unique (build steps) ∧ args_positional (build steps) = given_positional steps ∧
  ∀ n v, (n, v) ∈ args_named (build steps) ↔ given_named n steps = Some v.
Proof.
  induction steps as [|s steps (I1 & I2 & I3)] using rev_ind.
  { split_and!; [constructor|done|]. intros n v. split; [by intros ?%not_elem_of_nil|done]. }
  unfold build in *. rewrite foldl_app. cbn [foldl]. unfold given_positional in *. rewrite omap_app.
  destruct s as [v|m v]; cbn [omap list_omap].
  - split_and!; [done|cbn [positional args_positional]; by rewrite I2|]. intros n w. rewrite given_named_app. cbn [given_named]. apply I3.
  - destruct (named_spec _ m v I1) as (J1 & J2 & J3). split_and!; [done|cbn [named args_positional]; by rewrite I2, app_nil_r|].
    intros n w. rewrite given_named_app. cbn [given_named]. case_decide as E.
    + subst n. split; [|by intros [= ->]]. intros Hin. f_equal.
      apply list_elem_of_lookup in J2 as (i & Hi), Hin as (j & Hj).
      assert (i = j) as ->; [|rewrite Hi in Hj; by injection Hj]. eapply (NoDup_lookup _ i j m J1); rewrite list_lookup_fmap; [by rewrite Hi|by rewrite Hj].
    + rewrite J3 by congruence. apply I3.
Qed.
End builder.

(** * Round trip *)

Section roundtrip.
Import Args.

Lemma arr_type_to_array v : arr_type (to_array v) = arg_type v.
Proof. by destruct v. Qed.

Lemma positional_fields_eq vs i :
  imap (λ j, positional_arg_field (i + j)) vs = imap (λ j a, positional_field (i + j) a) (to_array <$> vs).
Proof.
  apply list_eq. intros k. rewrite !list_lookup_imap, list_lookup_fmap. destruct (vs !! k) as [v|]; [|done]. cbn.
  unfold positional_arg_field, positional_field. by rewrite arr_type_to_array.
Qed.

Lemma collect_args_app sa fs gs i pos nm :
  collect_args sa i (fs ++ gs) pos nm =
  let '(pos', nm') := collect_args sa i fs pos nm in collect_args sa (i + length fs) gs pos' nm'.
Proof.
  induction fs as [|f fs IH] in i, pos, nm |- *; cbn [app collect_args length]; [by rewrite Nat.add_0_r|].
  rewrite <- Nat.add_succ_comm. destruct (strip_prefix _ _); [by rewrite IH|]. destruct (strip_prefix _ _); by rewrite IH.
Qed.

Lemma named_field_prefix n : strip_prefix "positional_" ("named_" +:+ n) = None.
Proof. done. Qed.

(** The named fields bind their names, as long as no name looks like a field's. *)
Lemma collect_named sa nvs i pos nm :
  NoDup nvs.*1 → (∀ n, n ∈ nvs.*1 → strip_prefix "named_" n = None) →
  let r := collect_args sa i (named_field <$> nvs) pos nm in
  r.1 = pos ∧ (∀ k e, nvs !! k = Some e → r.2 !! e.1 = Some (struct_column sa (i + k) (named_field e))) ∧
  (∀ n, n ∉ nvs.*1 → strip_prefix "named_" n = None → r.2 !! n = nm !! n).
Proof.
  induction nvs as [|e nvs IH] in i, nm |- *; [by intros _ _; split_and!; [|by intros []|]|].
  intros [Hn Hnd]%NoDup_cons Hp. cbn [fmap list_fmap collect_args].
  change (name (named_field e)) with ("named_" +:+ e.1). rewrite named_field_prefix, strip_prefix_app.
  set (nm' := <["named_" +:+ e.1 := _]> _).
  destruct (IH (S i) nm' Hnd) as (I1 & I2 & I3); [intros n ?; apply Hp; by right|].
  split; [done|]. assert (∀ n, strip_prefix "named_" n = None → nm' !! n = if decide (n = e.1) then Some (struct_column sa i (named_field e)) else nm !! n) as Hm.
  { intros n Hs. unfold nm'. rewrite lookup_insert_ne; [|intros <-; by rewrite strip_prefix_app in Hs].
    case_decide as E; [subst n; by rewrite lookup_insert_eq|by rewrite lookup_insert_ne]. }
  split.
  - intros [|k] e'; cbn.
    + intros [= <-]. rewrite Nat.add_0_r. rewrite I3, Hm; [by rewrite decide_True|apply Hp; left|done|apply Hp; left].
    + rewrite Nat.add_succ_r. apply I2.
  - intros n [Hne Hnn]%not_elem_of_cons Hs. rewrite I3, Hm by done. by rewrite decide_False.
Qed.

(** The child arrays of the struct. *)
Lemma struct_array_column fs vs sa i v : struct_array fs vs = Some sa → vs !! i = Some v →
  arr_type sa = Struct fs ∧ struct_child i <$> vals sa = vals v.
Proof.
  intros Hs Hv. destruct vs as [|c vs]; [done|]. cbn [struct_array] in Hs.
  destruct (existsb _ (c :: vs)) eqn:Ex; [done|]. injection Hs as <-. split; [done|].
  apply (args_column (c :: vs) i v (len c) Hv). apply Forall_forall. intros a Ha.
  destruct (Nat.eqb_spec (len a) (len c)); [done|]. exfalso.
  assert (existsb (λ a, negb (len a =? len c)%nat) (c :: vs) = true); [|congruence].
  apply existsb_exists. exists a. split; [by apply list_elem_of_In|]. by rewrite (proj2 (Nat.eqb_neq _ _)).
Qed.

Lemma struct_array_type fs vs sa : struct_array fs vs = Some sa → arr_type sa = Struct fs.
Proof. unfold struct_array. repeat case_match; by intros [= <-]. Qed.

(** What the parser makes of the struct of the arguments. *)
Lemma parse_built a sa : names_unique a → (∀ n, n ∈ (args_named a).*1 → strip_prefix "named_" n = None) →
  Z.of_nat (length (args_positional a)) ≤ usize_max → struct_array (arg_fields a) (arg_arrays a) = Some sa →
  ∃ w, parse_batch (mkRecordBatch [mkField "args" (Struct (arg_fields a)) true []] ∅ [sa] 1) = Ok w ∧
    num_positional w = length (args_positional a) ∧
    (∀ i v, args_positional a !! i = Some v → ∃ v', arg w i = Some v' ∧ same_cells v' (to_array v)) ∧
    (∀ n v, (n, v) ∈ args_named a → ∃ v', Arguments.named w !! n = Some v' ∧ same_cells v' (to_array v)).
Proof.
  intros Hnd Hp Hlen Hs. unfold parse_batch. cbn [schema columns name]. rewrite (struct_array_type _ _ _ Hs).
  change (String.eqb "args" "args") with true. cbn [andb]. cbv iota. unfold arg_fields at 1. rewrite collect_args_app.
  pose proof (positional_fields_eq (args_positional a) 0) as Ef. cbn [Nat.add] in Ef.
  change (imap (λ j, positional_arg_field j) ?l) with (imap positional_arg_field l) in Ef. rewrite Ef, length_imap, length_fmap.
  pose proof (collect_positional sa (to_array <$> args_positional a) 0 [] ∅) as Hc. cbn [Nat.add app] in Hc.
  rewrite length_fmap in Hc. specialize (Hc Hlen). destruct (collect_args sa 0 _ [] ∅) as [pos nm]. cbn [fst] in Hc. subst pos.
  cbv beta iota. rewrite Nat.add_0_l.
  set (pos := imap _ (to_array <$> args_positional a)). set (k := length (args_positional a)).
  pose proof (collect_named sa (args_named a) k pos nm Hnd Hp) as (C1 & C2 & _).
  destruct (collect_args sa k _ pos nm) as [pos' nm']. cbn [fst snd] in C1, C2. subst pos'.
  eexists. split; [reflexivity|]. unfold num_positional, arg. cbn [Arguments.positional Arguments.named].
  assert (prod_map id fst <$> pos = imap (λ i x, (Z.of_nat i, x))
    (imap (λ j x, struct_column sa j (positional_field j x)) (to_array <$> args_positional a))) as ->.
  { apply list_eq. intros j. unfold pos. rewrite list_lookup_fmap, !list_lookup_imap. by destruct ((to_array <$> _) !! j). }
  rewrite place_imap. split_and!.
  - by rewrite length_fmap, length_imap, length_fmap.
  - intros i v Hi. rewrite list_lookup_fmap, list_lookup_imap, list_lookup_fmap, Hi. cbn. eexists. split; [reflexivity|].
    split; [done|]. cbn. eapply struct_array_column; [exact Hs|]. unfold arg_arrays. rewrite lookup_app_l.
    + by rewrite list_lookup_fmap, Hi.
    + rewrite length_fmap. by eapply lookup_lt_Some.
  - intros n v (j & Hj)%list_elem_of_lookup. exists (struct_column sa (k + j) (named_field (n, v))). split; [exact (C2 j (n, v) Hj)|].
    split; [cbn; by rewrite arr_type_to_array|]. cbn. eapply struct_array_column; [exact Hs|]. unfold arg_arrays.
    rewrite lookup_app_r by (rewrite length_fmap; lia). rewrite length_fmap.
    replace (k + j - length (args_positional a))%nat with j by lia. by rewrite list_lookup_fmap, Hj.
Qed.

(** A call is encoded whenever its Arrow values have one row; nothing panics. *)
Lemma to_ipc_one_row `{IpcStream} a : Forall (λ v, len v = 1%nat) (arg_arrays a) →
  ∃ sa, struct_array (arg_fields a) (arg_arrays a) = Some sa ∧
        to_ipc a = Some (write_batch (mkRecordBatch [mkField "args" (Struct (arg_fields a)) false []] ∅ [sa] 1)).
Proof.
  intros Hf. assert (∃ sa, struct_array (arg_fields a) (arg_arrays a) = Some sa ∧ len sa = 1%nat) as (sa & E & L).
  { unfold struct_array. destruct (arg_arrays a) as [|c vs] eqn:Ea; [by eexists|]. rewrite <- Ea in *.
    assert (len c = 1%nat) as Hc by (rewrite Ea in Hf; by apply Forall_cons in Hf as [? _]). rewrite Hc.
    destruct (existsb _ (arg_arrays a)) eqn:Ex.
    - apply existsb_exists in Ex as (x & Hx & Hn). apply list_elem_of_In in Hx. rewrite Forall_forall in Hf.
      by rewrite (Hf x Hx) in Hn.
    - by eexists. }
  exists sa. unfold to_ipc. rewrite E. cbn. by rewrite L.
Qed.

(** C24: The worker reads the call the client built: every positional
    argument in order and, for every name, the value given last, each with its type
    and cells; unless a name itself begins with [named_]. *)
Theorem client_arguments_roundtrip `{IpcLaws} steps bs :
  (∀ n v, Named n v ∈ steps → strip_prefix "named_" n = None) →
  Z.of_nat (length (given_positional steps)) ≤ usize_max →
  to_ipc (build steps) = Some (Ok bs) →
  ∃ w, parse_arguments bs = Ok w ∧ num_positional w = length (given_positional steps) ∧
    (∀ i v, given_positional steps !! i = Some v → ∃ v', arg w i = Some v' ∧ same_cells v' (to_array v)) ∧
    (∀ n v, given_named n steps = Some v → ∃ v', Arguments.named w !! n = Some v' ∧ same_cells v' (to_array v)).
Proof.
  intros Hn Hlen E. destruct (build_spec steps) as (B1 & B2 & B3). rewrite <- B2 in Hlen.
  unfold to_ipc in E. destruct (struct_array _ _) as [sa|] eqn:Es; [|done]. cbn in E. injection E as E.
  destruct (len sa =? 1)%nat; [|done].
  assert (∀ n, n ∈ (args_named (build steps)).*1 → strip_prefix "named_" n = None) as Hp.
  { intros n ([n' v] & -> & Hin)%list_elem_of_fmap. apply B3 in Hin. cbn. clear -Hn Hin.
    induction steps as [|s steps IH]; [done|]. cbn in Hin. destruct (given_named n' steps) as [v'|] eqn:Eg.
    - apply IH; [|by injection Hin as ->]. intros m w Hm. apply (Hn m w). by right.
    - destruct s as [|m w]; [done|]. case_decide; [|done]. subst. eapply Hn. left. }
  destruct (parse_built _ _ B1 Hp Hlen Es) as (w & W1 & W2 & W3 & W4).
  apply read_written in E as (Hne & Er & _); [|cbn; by rewrite (struct_array_type _ _ _ Es)].
  exists w. unfold parse_arguments. destruct bs; [done|]. rewrite Er.
  unfold read_as. cbn [columns num_rows schema schema_metadata fmap list_fmap relax]. rewrite W1, W2, B2. split_and!; [done..|by rewrite <- B2|]. intros n v Hg. apply W4, B3, Hg.
Qed.
End roundtrip.

(** * Examples *)

Section examples.
Definition example_steps : list build_step :=
  [Positional (Args.AInt 7); Named "mode" (Args.AText "a"); Positional (Args.ANull Utf8); Named "mode" (Args.AText "b")].
Definition shadow_steps : list build_step := [Named "named_x" (Args.AInt 1); Named "x" (Args.AInt 2)].
Definition built_stream (steps : list build_step) : Stream :=
  let a := build steps in
  mkStream [mkField "args" (Struct (Args.arg_fields a)) false []] ∅
    [mkRecordBatch [mkField "args" (Struct (Args.arg_fields a)) false []] ∅
       (option_list (Args.struct_array (Args.arg_fields a) (Args.arg_arrays a))) 1].
#[local] Instance built_args_stream : IpcStream :=
  table_stream [([x01], built_stream example_steps); ([x02], built_stream shadow_steps); ([x03], built_stream [])].
#[local] Instance built_args_laws : IpcLaws.
Proof.
  apply table_stream_laws; [|by repeat constructor]. apply NoDup_ListNoDup. repeat (constructor; [cbn; intuition discriminate|]). constructor.
Qed.

Lemma client_arguments_roundtrip_witness :
  ∃ bs w, Args.to_ipc (build example_steps) = Some (Ok bs) ∧ parse_arguments bs = Ok w ∧ num_positional w = 2%nat ∧
    ∃ v, Arguments.named w !! "mode" = Some v ∧ vals v = [Some (VBytes "b")].
Proof.
  assert (Args.to_ipc (build example_steps) = Some (Ok [x01])) as E by (vm_compute; reflexivity).
  assert (∀ n v, Named n v ∈ example_steps → strip_prefix "named_" n = None) as Hn.
  { intros n v. unfold example_steps. rewrite !elem_of_cons. intros [|[|[|[|[]%not_elem_of_nil]]]]; by simplify_eq. }
  destruct (client_arguments_roundtrip example_steps [x01] Hn ltac:(vm_compute; discriminate) E) as (w & W1 & W2 & _ & W4).
  exists [x01], w. split_and!; [exact E|exact W1|exact W2|].
  destruct (W4 "mode" (Args.AText "b") eq_refl) as (v & Hv & _ & Hc). by exists v.
Defined.

(** A named argument called [named_x] is read as the value of [x] when [x] is given
    after it: the worker also files each argument under its raw field name. *)
Theorem named_prefix_shadowed :
  ∃ bs w v, Args.to_ipc (build shadow_steps) = Some (Ok bs) ∧ parse_arguments bs = Ok w ∧
    given_named "named_x" shadow_steps = Some (Args.AInt 1) ∧
    Arguments.named w !! "named_x" = Some v ∧ vals v = [Some (VInt 2)].
Proof. exists [x02]. eexists _, _. split_and!; vm_compute; reflexivity. Qed.

(** No arguments are one row of an empty struct, which is not the empty blob. *)
Theorem no_arguments_one_row :
  Args.to_ipc (build []) = Some (Ok [x03]) ∧ is_ok (parse_arguments [x03]) = true.
Proof. split; vm_compute; reflexivity. Qed.
End examples.
