(* ===== verification/ClientScan.v ===== *)
(** Producer scans of the client, [vgi-client/src/scan.rs]: bind, init and drain.
    The transport is the class [VgiTransport] of [vgi-client/src/transport.rs]: a
    state that answers unary calls and opens streams; an open stream borrows the
    transport and gives it back when it is dropped.  A schema is its fields: its
    metadata is never read here.  Error texts leave out quoted types. *)
From S2P Require Import Prelude Float64 Arrow SqlCompare Ipc CacheControl Wire ClientArguments.

Open Scope Z_scope.

(** * Transports *)

(** [ProducerStream]. *)
Class ProducerStream (S : Type) := {
  header : S → option RecordBatch;
  tick_with_metadata : S → option Metadata → result (option (RecordBatch * Metadata)) RpcError * S;
  cancel : S → result unit RpcError * S;
}.
(** [ExchangeStream]. *)
Class ExchangeStream (X : Type) := {
  exchange_header : X → option RecordBatch;
  exchange_with_metadata : X → RecordBatch → option Metadata → result (option (RecordBatch * Metadata)) RpcError * X;
  close_exchange : X → result unit RpcError * X;
  cancel_exchange : X → result unit RpcError * X;
}.
(** [VgiTransport]; the functions to [T] end the borrow of a stream. *)
Class VgiTransport (T S X : Type) := {
  transport_producer :: ProducerStream S;
  transport_exchange :: ExchangeStream X;
  call_unary : T → string → RecordBatch → result RecordBatch RpcError * T;
  open_producer : T → string → RecordBatch → option Metadata → bool → S + RpcError * T;
  open_exchange_stream : T → string → RecordBatch → bool → X + RpcError * T;
  end_producer : S → T;
  end_exchange : X → T;
}.

(** [VgiClient], as far as calls and streams use it: the shared flag says whether
    the connection may be pooled again. *)
Record VgiClient (T : Type) := mkClient { transport : T; exchange_reusable : bool }.
Arguments mkClient {T} transport exchange_reusable.
Arguments transport {T} _.
Arguments exchange_reusable {T} _.

(** A typed call on a transport that changes state. *)
Definition typed_call `{IpcStream} {T S X} `{VgiTransport T S X} {P R} `{VgiArrow P} `{VgiArrow R}
    (c : VgiClient T) (method : string) (params : P) : result R RpcError * VgiClient T :=
  match to_batch params with
  | Err e => (Err e, c)
  | Ok b =>
      let '(r, t) := call_unary (transport c) method b in
      (call_raw (λ _ _, r) method b, mkClient t (exchange_reusable c))
  end.

(** * Binds *)

Record SecretLookupRequest := mkLookup {
  secret_type : string;
  lookup_scope : option string;
  lookup_name : option string;
}.

Inductive FunctionType := FnTable | FnTableBuffering | FnTableInOut | FnScalar | FnAggregate.
Definition function_type_str (f : FunctionType) : string :=
  match f with
  | FnTable | FnTableInOut => "TABLE"
  | FnTableBuffering => "TABLE_BUFFERING"
  | FnScalar => "SCALAR"
  | FnAggregate => "AGGREGATE"
  end.

(** [At] and the parts of [AttachedCatalog] a bind sends. *)
Record At := mkAt { unit_of : string; value_of : string }.
Record AttachedCatalog := mkAttached { handle : bytes; transaction : option bytes }.

Record BindSpec := mkBindSpec {
  function_name : string;
  function_type : FunctionType;
  schema_path : option (list string);
  arguments : Args.Arguments;
  argument_names : option (list (option string));
  raw_arguments : option bytes;
  settings : option bytes;
  at_ : option At;
}.

(** The builders. *)
Definition table (function_name : string) : BindSpec :=
  mkBindSpec function_name FnTable None Args.new None None None None.
Definition with_raw_arguments (s : BindSpec) (args : bytes) : BindSpec :=
  mkBindSpec (function_name s) (function_type s) (schema_path s) (arguments s) (argument_names s) (Some args) (settings s) (at_ s).
Definition in_schema_path (s : BindSpec) (path : list string) : BindSpec :=
  mkBindSpec (function_name s) (function_type s) (Some path) (arguments s) (argument_names s) (raw_arguments s) (settings s) (at_ s).
Definition in_schema (s : BindSpec) (sch : string) : BindSpec := in_schema_path s [sch].
Definition with_arguments (s : BindSpec) (args : Args.Arguments) : BindSpec :=
  mkBindSpec (function_name s) (function_type s) (schema_path s) args (argument_names s) (raw_arguments s) (settings s) (at_ s).
Definition with_argument_names (s : BindSpec) (names : list (option string)) : BindSpec :=
  mkBindSpec (function_name s) (function_type s) (schema_path s) (arguments s) (Some names) (raw_arguments s) (settings s) (at_ s).

(** [BindRequest] and [BindResponse] of [vgi-protocol/src/protocol/dtos.rs]. *)
Record CopyFromContext := mkCopyFrom { from_format : string; from_file_path : string; expected_schema : bytes }.
Record CopyToContext := mkCopyTo { to_format : string; to_file_path : string }.
Record BindRequest := mkBindRequest {
  br_function_name : string;
  br_arguments : bytes;
  br_function_type : string;
  br_input_schema : option bytes;
  br_settings : option bytes;
  br_secrets : option bytes;
  br_attach_opaque_data : option bytes;
  br_transaction_opaque_data : option bytes;
  br_resolved_secrets_provided : bool;
  br_at_unit : option string;
  br_at_value : option string;
  br_copy_from : option CopyFromContext;
  br_copy_to : option CopyToContext;
  br_schema_path : option (list string);
  br_argument_names : option (list (option string));
}.
Inductive BindRepeatability := Unknown | StableWithinQuery.
Record BindResponse := mkBindResponse {
  output_schema_ipc : bytes;
  response_opaque_data : option bytes;
  lookup_secret_types : list string;
  lookup_scopes : list string;
  lookup_names : list string;
  projection_expression_profiles : list string;
  repeatability : BindRepeatability;
}.
(** The request structs with one [request] column. *)
Record RequestParams := mkRequestParams { request : bytes }.

Record BoundFunction := mkBound {
  bound_name : string;
  bind_call : bytes;
  response : BindResponse;
  output_schema : Schema;
}.

Definition opaque_data (b : BoundFunction) : option bytes := response_opaque_data (response b).

(** [get(index).filter(|value| !value.is_empty())]. *)
Definition nonempty_at (l : list string) (i : nat) : option string :=
  match l !! i with Some v => if decide (v = "") then None else Some v | None => None end.
Definition required_secrets (b : BoundFunction) : list SecretLookupRequest :=
  imap (λ i t, mkLookup t (nonempty_at (lookup_scopes (response b)) i) (nonempty_at (lookup_names (response b)) i))
    (lookup_secret_types (response b)).

Section binds.
Context `{IpcStream} {T S X : Type} `{VgiTransport T S X}.
Context `{VgiArrow BindRequest} `{VgiArrow BindResponse} `{VgiArrow RequestParams}.

(** The request a spec becomes, around the bytes of its arguments. *)
Definition bind_request (cat : AttachedCatalog) (spec : BindSpec) (args : bytes) (input_schema secrets : option bytes)
    (resolved : bool) : BindRequest :=
  mkBindRequest (function_name spec) args (function_type_str (function_type spec)) input_schema (settings spec) secrets
    (Some (handle cat)) (transaction cat) resolved (unit_of <$> at_ spec) (value_of <$> at_ spec)
    None None (schema_path spec) (argument_names spec).

(** Sends the bind and reads its answer; the bytes sent are kept for [init]. *)
Definition send_bind (c : VgiClient T) (name : string) (req : BindRequest) : result BoundFunction RpcError * VgiClient T :=
  match envelope req with
  | Err e => (Err e, c)
  | Ok bind_call =>
      let '(r, c) := typed_call c "bind" (mkRequestParams bind_call) in
      (let? response := r in
       let? output :=
         match lookup_secret_types response with
         | [] => map_err (λ _, TypeError "bind returned an unreadable output schema") (read_schema (output_schema_ipc response))
         | _ => Ok ([], ∅)
         end in
       Ok (mkBound name bind_call response output.1), c)
  end.

(** [bind_resolved]; [None] is the panic of encoding the arguments. *)
Definition bind_resolved (c : VgiClient T) (cat : AttachedCatalog) (spec : BindSpec) (secrets : option bytes)
    (resolved_secrets_provided : bool) : option (result BoundFunction RpcError * VgiClient T) :=
  args ← match raw_arguments spec with Some raw => Some (Ok raw) | None => Args.to_ipc (arguments spec) end;
  Some (match args with
        | Err e => (Err e, c)
        | Ok args => send_bind c (function_name spec) (bind_request cat spec args None secrets resolved_secrets_provided)
        end).
Definition bind (c : VgiClient T) (cat : AttachedCatalog) (spec : BindSpec) := bind_resolved c cat spec None false.
Definition bind_with_resolved_secrets (c : VgiClient T) (cat : AttachedCatalog) (spec : BindSpec) (secrets : bytes) :=
  bind_resolved c cat spec (Some secrets) true.
End binds.

(** * Scan options *)

Inductive SortDirection := Ascending | Descending.
Definition direction_str (d : SortDirection) : string := match d with Ascending => "ASC" | Descending => "DESC" end.
Inductive NullOrder := First | Last.
Definition null_order_str (n : NullOrder) : string := match n with First => "NULLS_FIRST" | Last => "NULLS_LAST" end.

Record OrderBy := mkOrderBy { column : string; direction : SortDirection; null_order : NullOrder; limit : option Z }.
Record Sample := mkSample { percentage : f64; seed : option Z }.

Record ScanOptions := mkScanOptions {
  projection : option (list Z);
  filter_columns : option (list Z);
  pushdown_filters : option bytes;
  join_keys : option (list bytes);
  order_by : option OrderBy;
  sample : option Sample;
  execution_id : option bytes;
  init_opaque_data : option bytes;
  substream_id : option bytes;
  split_tokens : option (list bytes);
  row_limit : option Z;
  if_none_match : option string;
  if_modified_since : option string;
}.
Definition default_options : ScanOptions :=
  mkScanOptions None None None None None None None None None None None None None.
Definition with_execution_id (o : ScanOptions) (id : bytes) : ScanOptions :=
  mkScanOptions (projection o) (filter_columns o) (pushdown_filters o) (join_keys o) (order_by o) (sample o) (Some id)
    (init_opaque_data o) (substream_id o) (split_tokens o) (row_limit o) (if_none_match o) (if_modified_since o).

Definition union_projection (projection filter_columns : option (list Z)) : option (list Z) :=
  out ← projection;
  Some (foldl (λ out c, if decide (c ∈ out) then out else out ++ [c]) out (default [] filter_columns)).
Definition wire_projection (o : ScanOptions) : option (list Z) := union_projection (projection o) (filter_columns o).
Definition wire_index_of (o : ScanOptions) (column : Z) : option nat :=
  ids ← wire_projection o; fst <$> list_find (λ c, c = column) ids.

(** [InitRequest]. *)
Record InitRequest := mkInitRequest {
  ir_bind_call : bytes;
  ir_output_schema : bytes;
  ir_bind_opaque_data : option bytes;
  ir_projection_ids : option (list Z);
  ir_pushdown_filters : option bytes;
  ir_join_keys : option (list bytes);
  ir_split_tokens : option (list bytes);
  ir_row_limit : option Z;
  ir_phase : option string;
  ir_finalize_state_id : option bytes;
  ir_execution_id : option bytes;
  ir_init_opaque_data : option bytes;
  ir_substream_id : option bytes;
  ir_order_by_column_name : option string;
  ir_order_by_direction : option string;
  ir_order_by_null_order : option string;
  ir_order_by_limit : option Z;
  ir_tablesample_percentage : option f64;
  ir_tablesample_seed : option Z;
}.
Definition init_request (b : BoundFunction) (o : ScanOptions) (phase : option string) (finalize_state_id : option bytes) : InitRequest := {|
  ir_bind_call := bind_call b;
  ir_output_schema := output_schema_ipc (response b);
  ir_bind_opaque_data := response_opaque_data (response b);
  ir_projection_ids := wire_projection o;
  ir_pushdown_filters := pushdown_filters o;
  ir_join_keys := join_keys o;
  ir_phase := phase;
  ir_execution_id := execution_id o;
  ir_init_opaque_data := init_opaque_data o;
  ir_substream_id := substream_id o;
  ir_order_by_column_name := column <$> order_by o;
  ir_order_by_direction := direction_str ∘ direction <$> order_by o;
  ir_order_by_null_order := null_order_str ∘ null_order <$> order_by o;
  ir_order_by_limit := order_by o ≫= limit;
  ir_tablesample_percentage := percentage <$> sample o;
  ir_tablesample_seed := sample o ≫= seed;
  ir_finalize_state_id := finalize_state_id;
  ir_split_tokens := split_tokens o;
  ir_row_limit := row_limit o;
|}.

(** * Base64 *)

Definition BASE64_TABLE : bytes := as_bytes "ABCDEFGHIJKLMNOPQRSTUVWXYZabcdefghijklmnopqrstuvwxyz0123456789+/".
Definition base64_char (bits shift : Z) : byte := nth (Z.to_nat (Z.land (Z.shiftr bits shift) 63)) BASE64_TABLE x00.
(** The four characters of one chunk of up to three bytes. *)
Definition base64_chunk (chunk : bytes) : bytes :=
  let b i := Z_of_byte (nth i chunk x00) in
  let bits := Z.lor (Z.lor (Z.shiftl (b 0%nat) 16) (Z.shiftl (b 1%nat) 8)) (b 2%nat) in
  [base64_char bits 18; base64_char bits 12;
   (if (1 <? length chunk)%nat then base64_char bits 6 else x3d);
   (if (2 <? length chunk)%nat then base64_char bits 0 else x3d)].
Fixpoint base64_chunks (data : bytes) : bytes :=
  match data with
  | a :: b :: c :: rest => base64_chunk [a; b; c] ++ base64_chunks rest
  | [] => []
  | chunk => base64_chunk chunk
  end.
Definition base64_encode (data : bytes) : string := string_of_bytes (base64_chunks data).

(** * Projections of schemas and batches *)

(** [Schema::project] and [RecordBatch::project] of Arrow. *)
Definition at_indices {A} (l : list A) (idx : list nat) : option (list A) := mapM (λ i, l !! i) idx.
Definition schema_project (s : Schema) (idx : list nat) : result Schema string :=
  match at_indices s idx with Some s => Ok s | None => Err "project index out of bounds" end.
Definition batch_project (b : RecordBatch) (idx : list nat) : result RecordBatch string :=
  match at_indices (schema b) idx, at_indices (columns b) idx with
  | Some s, Some cols => Ok (mkRecordBatch s (schema_metadata b) cols (num_rows b))
  | _, _ => Err "project index out of bounds"
  end.

(** [usize::try_from] of each id. *)
Definition usize_ids (ids : list Z) : option (list nat) := mapM (λ i, if i <? 0 then None else Some (Z.to_nat i)) ids.
Definition project_schema (s : Schema) (ids : option (list Z)) : result Schema RpcError :=
  match ids with
  | None => Ok s
  | Some ids =>
      match usize_ids ids with
      | None => type_error "negative projection index"
      | Some idx => map_err (λ e, TypeError ("projection is not valid for the bind output schema: " +:+ e)) (schema_project s idx)
      end
  end.

Definition check_batch_schema (function : string) (expected : Schema) (batch : RecordBatch) : result unit RpcError :=
  let got := schema batch in
  if negb (length got =? length expected)%nat then
    type_error ("function `" +:+ function +:+ "` emitted a batch with " +:+ Z_to_string (Z.of_nat (length got)) +:+
      " column(s) but its bind resolved " +:+ Z_to_string (Z.of_nat (length expected)))
  else match find (λ wh, negb (String.eqb (name wh.1) (name wh.2)) || negb (bool_decide (data_type wh.1 = data_type wh.2)))
               (zip expected got) with
  | Some _ => type_error ("function `" +:+ function +:+ "` emitted a batch that does not match the schema its bind resolved")
  | None => Ok ()
  end.

(** * Scans *)

(** [GlobalInitResponse]. *)
Record GlobalInitResponse := mkGlobalInit {
  gi_execution_id : bytes;
  gi_opaque_data : option bytes;
  gi_max_workers : Z;
}.

(** [Scan], with the flag it shares with its client. *)
Record Scan (S : Type) := mkScan {
  stream : S;
  scan_header : GlobalInitResponse;
  function : string;
  scan_schema : Schema;
  emitted_schema : Schema;
  last_cache_control : option CacheControl;
  connection_reusable : bool;
  finished : bool;
}.
Arguments mkScan {S} _ _ _ _ _ _ _ _.
Arguments stream {S} _.
Arguments scan_header {S} _.
Arguments function {S} _.
Arguments scan_schema {S} _.
Arguments emitted_schema {S} _.
Arguments last_cache_control {S} _.
Arguments connection_reusable {S} _.
Arguments finished {S} _.

Section scan_updates.
Context {S : Type}.
Definition set_stream (s : S) (sc : Scan S) : Scan S :=
  mkScan s (scan_header sc) (function sc) (scan_schema sc) (emitted_schema sc) (last_cache_control sc) (connection_reusable sc) (finished sc).
Definition set_schema (s : Schema) (sc : Scan S) : Scan S :=
  mkScan (stream sc) (scan_header sc) (function sc) s (emitted_schema sc) (last_cache_control sc) (connection_reusable sc) (finished sc).
Definition set_cache_control (cc : option CacheControl) (sc : Scan S) : Scan S :=
  mkScan (stream sc) (scan_header sc) (function sc) (scan_schema sc) (emitted_schema sc) cc (connection_reusable sc) (finished sc).
Definition unusable (sc : Scan S) : Scan S :=
  mkScan (stream sc) (scan_header sc) (function sc) (scan_schema sc) (emitted_schema sc) (last_cache_control sc) false (finished sc).
Definition set_finished (sc : Scan S) : Scan S :=
  mkScan (stream sc) (scan_header sc) (function sc) (scan_schema sc) (emitted_schema sc) (last_cache_control sc) (connection_reusable sc) true.
End scan_updates.

Section scans.
Context {S : Type} `{ProducerStream S}.

(** [trim_to_projection]. *)
Definition trim_to_projection (sc : Scan S) (batch : RecordBatch) : result RecordBatch RpcError :=
  let keep := length (scan_schema sc) in
  if (keep =? length (columns batch))%nat then Ok batch
  else map_err (λ e, RuntimeError ("function `" +:+ function sc +:+ "`: could not drop the filter-only columns from a batch: " +:+ e))
         (batch_project batch (seq 0 keep)).

(** The loop of [next_batch_with_pushdown_filters]; [None] when the fuel, one per
    tick, ran out. *)
Fixpoint next_loop (fuel : nat) (metadata : option Metadata) (sc : Scan S) :
    option (result (option RecordBatch) RpcError * Scan S) :=
  match fuel with
  | O => None
  | Datatypes.S fuel =>
      let '(next, s) := tick_with_metadata (stream sc) metadata in
      let sc := set_stream s sc in
      match next with
      | Err e => Some (Err e, unusable sc)
      | Ok None => Some (Ok None, set_finished sc)
      | Ok (Some (batch, md)) =>
          let sc := match from_metadata md with Some cc => set_cache_control (Some cc) sc | None => sc end in
          if (num_rows batch =? 0)%nat then next_loop fuel metadata sc
          else match check_batch_schema (function sc) (emitted_schema sc) batch with
          | Err e => Some (Err e, unusable sc)
          | Ok _ =>
              match trim_to_projection sc batch with
              | Ok batch => Some (Ok (Some batch), sc)
              | Err e => Some (Err e, unusable sc)
              end
          end
      end
  end.

Definition filter_metadata (filters : option bytes) : option Metadata :=
  (λ f, {[ "vgi_pushdown_filters" := base64_encode f ]}) <$> filters.
Definition next_batch_with_pushdown_filters (fuel : nat) (filters : option bytes) (sc : Scan S) :
    option (result (option RecordBatch) RpcError * Scan S) :=
  if finished sc then Some (Ok None, sc) else next_loop fuel (filter_metadata filters) sc.
Definition next_batch (fuel : nat) (sc : Scan S) := next_batch_with_pushdown_filters fuel None sc.

(** [collect]; the fuel bounds the batches, and the ticks of each. *)
Fixpoint collect_loop (fuel ticks : nat) (out : list RecordBatch) (sc : Scan S) :
    option (result (list RecordBatch) RpcError * Scan S) :=
  match fuel with
  | O => None
  | Datatypes.S fuel =>
      '(r, sc) ← next_batch ticks sc;
      match r with
      | Err e => Some (Err e, sc)
      | Ok None => Some (Ok out, sc)
      | Ok (Some b) => collect_loop fuel ticks (out ++ [b]) sc
      end
  end.
Definition collect (fuel : nat) (sc : Scan S) := collect_loop fuel fuel [] sc.

Definition cancel_scan (sc : Scan S) : result unit RpcError * Scan S :=
  if finished sc then (Ok (), sc)
  else
    let sc := set_finished sc in
    let '(result, s) := cancel (stream sc) in
    let sc := set_stream s sc in
    (result, if is_ok result then sc else unusable sc).

(** [Drop]: the same, with nowhere to report a failure. *)
Definition drop_scan (sc : Scan S) : Scan S :=
  if finished sc then sc
  else
    let sc := set_finished sc in
    let '(result, s) := cancel (stream sc) in
    let sc := set_stream s sc in
    if is_ok result then sc else unusable sc.
End scans.

Section open.
Context `{IpcStream} {T S X : Type} `{VgiTransport T S X}.
Context `{VgiArrow GlobalInitResponse} `{VgiArrow InitRequest} `{VgiArrow RequestParams}.

(** The end of a scan's borrow. *)
Definition into_client (sc : Scan S) : VgiClient T := mkClient (end_producer (stream sc)) (connection_reusable sc).

(** [Scan::open]: the scan, or the error and the client after it. *)
Definition open_scan (c : VgiClient T) (params : RecordBatch) (md : option Metadata) (function : string) (sch : Schema) :
    Scan S + RpcError * VgiClient T :=
  match open_producer (transport c) "init" params md true with
  | inr (error, t) => inr (error, mkClient t false)
  | inl s =>
      match match header s with
            | None => type_error "init did not return a GlobalInitResponse header"
            | Some b => from_batch b
            end with
      | Err error => let '(_, s) := cancel s in inr (error, mkClient (end_producer s) false)
      | Ok h => inl (mkScan s h function sch sch None (exchange_reusable c) false)
      end
  end.
Definition open_projected (c : VgiClient T) (params : RecordBatch) (md : option Metadata) (function : string)
    (sch emitted : Schema) : Scan S + RpcError * VgiClient T :=
  match open_scan c params md function emitted with
  | inl sc => inl (set_schema sch sc)
  | inr e => inr e
  end.

Definition CACHE_IF_NONE_MATCH_KEY : string := "vgi.cache.if_none_match".
Definition CACHE_IF_MODIFIED_SINCE_KEY : string := "vgi.cache.if_modified_since".
(** The conditional headers, as [scan] and [conditional_request_metadata] build
    them. *)
Definition conditional_request_metadata (o : ScanOptions) : option Metadata :=
  let md : Metadata := match if_none_match o with Some v => {[ CACHE_IF_NONE_MATCH_KEY := v ]} | None => ∅ end in
  let md := match if_modified_since o with Some v => <[CACHE_IF_MODIFIED_SINCE_KEY := v]> md | None => md end in
  if decide (md = ∅) then None else Some md.

(** The params batch of an [init]. *)
Definition init_params (req : InitRequest) : result RecordBatch RpcError :=
  let? bs := envelope req in to_batch (mkRequestParams bs).

Definition scan (c : VgiClient T) (b : BoundFunction) (o : ScanOptions) : Scan S + RpcError * VgiClient T :=
  match (let? sch := project_schema (output_schema b) (projection o) in
         let? emitted := project_schema (output_schema b) (wire_projection o) in
         let? params := init_params (init_request b o None None) in
         Ok (sch, emitted, params)) with
  | Err e => inr (e, c)
  | Ok (sch, emitted, params) => open_projected c params (conditional_request_metadata o) (bound_name b) sch emitted
  end.
End open.
