(* ===== verification/ClientScanFacts.v ===== *)
(** What the client's scans guarantee ([ClientScan]): pushed filters reach the
    worker byte for byte, filter-only columns never reach the caller, the batches a
    caller sees are its projection of the worker's table, and a stream is ended
    exactly once, with the connection pooled again only if nothing failed. *)
From S2P Require Import Prelude Float64 Arrow SqlCompare Ipc CacheControl Wire ClientArguments ClientScan.
From S2P Require Import PushdownDelta.

Open Scope Z_scope.

(** * Base64 *)

Lemma base64_code_char n : 0 ≤ n < 64 →
  let ch := nth (Z.to_nat n) BASE64_TABLE x00 in b64_code ch = Some n ∧ b64_skipped ch = false.
Proof.
  intros Hn. assert (Forall (λ k, let ch := nth k BASE64_TABLE x00 in b64_code ch = Some (Z.of_nat k) ∧ b64_skipped ch = false) (seq 0 64)) as F.
  { vm_compute. repeat constructor. }
  rewrite Forall_forall in F. specialize (F (Z.to_nat n)). rewrite Z2Nat.id in F by lia. apply F. apply elem_of_seq. lia.
Qed.

Lemma lor_shiftl_add a c k : 0 ≤ k → 0 ≤ c < 2 ^ k → Z.lor (Z.shiftl a k) c = a * 2 ^ k + c.
Proof.
  intros Hk Hc. rewrite Z.shiftl_mul_pow2 by done.
  assert (Z.land (a * 2 ^ k) c = 0) as Hl.
  { apply Z.bits_inj'. intros i Hi. rewrite Z.land_spec, Z.bits_0. destruct (Z.lt_ge_cases i k).
    - by rewrite Z.mul_pow2_bits_low.
    - by rewrite <- (Z.mod_small c (2 ^ k)), Z.mod_pow2_bits_high, andb_false_r by lia. }
  by rewrite <- Z.lxor_lor, <- Z.add_nocarry_lxor.
Qed.

(** The sextets of 24 bits, and the bits of three bytes. *)
Lemma base64_char_sextet bits k : 0 ≤ k → base64_char bits k = nth (Z.to_nat (bits / 2 ^ k mod 64)) BASE64_TABLE x00.
Proof. intros Hk. unfold base64_char. rewrite Z.shiftr_div_pow2 by done. by rewrite (Z.land_ones _ 6) by done. Qed.

Lemma three_bytes a b c : 0 ≤ a < 256 → 0 ≤ b < 256 → 0 ≤ c < 256 →
  Z.lor (Z.lor (Z.shiftl a 16) (Z.shiftl b 8)) c = a * 65536 + b * 256 + c.
Proof.
  intros Ha Hb Hc. rewrite (lor_shiftl_add a (Z.shiftl b 8) 16) by (rewrite ?Z.shiftl_mul_pow2; lia).
  rewrite Z.shiftl_mul_pow2 by lia.
  replace (a * 2 ^ 16 + b * 2 ^ 8) with ((a * 256 + b) * 2 ^ 8) by lia. rewrite <- (Z.shiftl_mul_pow2 _ 8) by lia.
  rewrite lor_shiftl_add by lia. lia.
Qed.

Section base64.
Implicit Types chunk : bytes.

Definition chunk_bits chunk : Z :=
  Z_of_byte (nth 0 chunk x00) * 65536 + Z_of_byte (nth 1 chunk x00) * 256 + Z_of_byte (nth 2 chunk x00).
Definition sextet chunk (i : Z) : Z := chunk_bits chunk / 2 ^ (18 - 6 * i) mod 64.
Definition sextet_char chunk (i : Z) : byte := nth (Z.to_nat (sextet chunk i)) BASE64_TABLE x00.

Lemma base64_chunk_eq chunk : base64_chunk chunk =
  [sextet_char chunk 0; sextet_char chunk 1;
   (if (1 <? length chunk)%nat then sextet_char chunk 2 else x3d); (if (2 <? length chunk)%nat then sextet_char chunk 3 else x3d)].
Proof.
  unfold base64_chunk. rewrite three_bytes by apply Z_of_byte_range. rewrite !base64_char_sextet by lia. done.
Qed.

Lemma chunk_bits_range chunk : 0 ≤ chunk_bits chunk < 16777216.
Proof.
  unfold chunk_bits. pose proof (Z_of_byte_range (nth 0 chunk x00)). pose proof (Z_of_byte_range (nth 1 chunk x00)).
  pose proof (Z_of_byte_range (nth 2 chunk x00)). lia.
Qed.
Lemma sextet_range chunk i : 0 ≤ sextet chunk i < 64.
Proof. by apply Z.mod_pos_bound. Qed.
Lemma sextet_code chunk i : b64_code (sextet_char chunk i) = Some (sextet chunk i) ∧ b64_skipped (sextet_char chunk i) = false.
Proof. apply base64_code_char, sextet_range. Qed.

Lemma chunk_byte chunk i : (i < 3)%nat → byte_of_Z (Z.shiftr (chunk_bits chunk) (16 - Z.of_nat i * 8)) = nth i chunk x00.
Proof.
  intros Hi. apply Z_of_byte_inj. rewrite Z_of_byte_of_Z, Z.shiftr_div_pow2 by lia. unfold chunk_bits.
  pose proof (Z_of_byte_range (nth 0 chunk x00)). pose proof (Z_of_byte_range (nth 1 chunk x00)).
  pose proof (Z_of_byte_range (nth 2 chunk x00)).
  destruct i as [|[|[|]]]; [change (2 ^ (16 - Z.of_nat 0 * 8)) with 65536|change (2 ^ (16 - Z.of_nat 1 * 8)) with 256
    |change (2 ^ (16 - Z.of_nat 2 * 8)) with 1|lia]; Z.div_mod_to_equations; lia.
Qed.

(** The sextets of a chunk of [k] bytes, shifted into place, are its bits. *)
Lemma sextets_bits chunk :
  let x i := sextet chunk i in
  (((x 0 * 64 + x 1) * 64 + x 2) * 64 + x 3 = chunk_bits chunk) ∧
  ((length chunk ≤ 2)%nat → ((x 0 * 64 + x 1) * 64 + x 2) * 64 = chunk_bits chunk) ∧
  ((length chunk ≤ 1)%nat → (x 0 * 64 + x 1) * 4096 = chunk_bits chunk).
Proof.
  cbv zeta. unfold sextet. change (2 ^ (18 - 6 * 0)) with 262144. change (2 ^ (18 - 6 * 1)) with 4096.
  change (2 ^ (18 - 6 * 2)) with 64. change (2 ^ (18 - 6 * 3)) with 1. pose proof (chunk_bits_range chunk) as R.
  assert (∀ i, (length chunk ≤ i)%nat → Z_of_byte (nth i chunk x00) = 0) as Hz by (intros i Hi; by rewrite nth_overflow).
  unfold chunk_bits in *. pose proof (Z_of_byte_range (nth 0 chunk x00)). pose proof (Z_of_byte_range (nth 1 chunk x00)).
  split_and!; [|intros Hl; rewrite (Hz 2%nat) in * by lia|intros Hl; rewrite (Hz 2%nat), (Hz 1%nat) in * by lia];
    Z.div_mod_to_equations; lia.
Qed.

(** The characters of a chunk before its padding. *)
Definition chunk_chars chunk : bytes := sextet_char chunk <$> [0; 1] ++ (if (1 <? length chunk)%nat then [2] else []) ++ (if (2 <? length chunk)%nat then [3] else []).

Lemma chunk_chars_clean chunk rest : filter (λ c, b64_skipped c = false) (base64_chunk chunk ++ rest) =
  chunk_chars chunk ++ filter (λ c, b64_skipped c = false) rest.
Proof.
  rewrite base64_chunk_eq. unfold chunk_chars. pose proof (λ i, proj2 (sextet_code chunk i)) as Hs.
  destruct (1 <? length chunk)%nat, (2 <? length chunk)%nat; cbn [app fmap list_fmap];
    repeat first [rewrite filter_cons_True by done | rewrite filter_cons_False by done]; done.
Qed.

Lemma decode_chunk chunk : (1 ≤ length chunk ≤ 3)%nat → b64_chunk (chunk_chars chunk) = Some chunk.
Proof.
  intros Hl. destruct (sextets_bits chunk) as (S3 & S2 & S1). pose proof (chunk_byte chunk) as Hb.
  pose proof (sextet_range chunk) as R. unfold b64_chunk, chunk_chars.
  destruct chunk as [|a [|b [|c [|]]]]; cbn [length] in *; try lia; cbn [Nat.ltb Nat.leb app fmap list_fmap mapM];
    rewrite !(proj1 (sextet_code _ _)); cbn [mbind option_bind mret option_ret foldl length];
    rewrite !lor_shiftl_add by (try lia; apply R); rewrite Z.mul_0_l, Z.add_0_l; change (2 ^ 6) with 64;
    rewrite Z.shiftl_mul_pow2 by lia.
  - change (2 ^ (6 * (4 - Z.of_nat 2))) with 4096. rewrite S1 by lia. cbn [Nat.sub seq fmap list_fmap]. by rewrite Hb by lia.
  - change (2 ^ (6 * (4 - Z.of_nat 3))) with 64. rewrite S2 by lia. cbn [Nat.sub seq fmap list_fmap]. by rewrite !Hb by lia.
  - change (2 ^ (6 * (4 - Z.of_nat 4))) with 1. rewrite Z.mul_1_r, S3. cbn [Nat.sub seq fmap list_fmap]. by rewrite !Hb by lia.
Qed.

(** By chunks of three bytes. *)
Lemma chunks_ind (P : bytes → Prop) :
  P [] → (∀ chunk, (1 ≤ length chunk ≤ 2)%nat → P chunk) → (∀ a b c rest, P rest → P (a :: b :: c :: rest)) → ∀ l, P l.
Proof.
  intros H0 H1 H3. fix IH 1. intros [|a [|b [|c rest]]]; [done|apply H1; cbn; lia|apply H1; cbn; lia|by apply H3].
Qed.

Lemma base64_clean data :
  let clean := filter (λ c, b64_skipped c = false) (base64_chunks data) in
  (length clean mod 4 ≠ 1)%nat ∧ b64_chunks clean = Some data.
Proof.
  induction data as [|chunk Hl|a b c rest [IH1 IH2]] using chunks_ind; [done|..].
  - assert (base64_chunks chunk = base64_chunk chunk) as -> by (destruct chunk as [|? [|? [|]]]; cbn in Hl; done || lia).
    rewrite <- (app_nil_r (base64_chunk chunk)), chunk_chars_clean, filter_nil, app_nil_r.
    pose proof (decode_chunk chunk ltac:(lia)) as E.
    destruct chunk as [|x [|y [|]]]; cbn [length] in *; try lia; (split; [cbn; lia|exact E]).
  - cbn [base64_chunks]. rewrite chunk_chars_clean. pose proof (decode_chunk [a; b; c] ltac:(cbn; lia)) as E.
    unfold chunk_chars in *. cbn [length Nat.ltb Nat.leb app fmap list_fmap] in *. cbv zeta. split.
    + cbn [length]. change (S (S (S (S ?n)))) with (4 + n)%nat. rewrite <- Nat.Div0.add_mod_idemp_l. exact IH1.
    + cbn [b64_chunks]. rewrite E. cbn [mbind option_bind]. by rewrite IH2.
Qed.

(** What the client sends as a tick's filter is what the worker decodes. *)
Lemma base64_reaches_worker data : b64_decode (base64_encode data) = Some data.
Proof.
  unfold b64_decode, base64_encode. rewrite as_bytes_of_bytes. destruct (base64_clean data) as [H1 H2].
  by rewrite (proj2 (Nat.eqb_neq _ _) H1).
Qed.
End base64.

(** * Projections *)

(** The wire projection is the caller's, then the filter-only columns, once each. *)
Lemma union_fold (out fs : list Z) : ∃ extra,
  foldl (λ out c, if decide (c ∈ out) then out else out ++ [c]) out fs = out ++ extra ∧
  NoDup extra ∧ (∀ c, c ∈ extra ↔ c ∈ fs ∧ c ∉ out).
Proof.
  induction fs as [|f fs IH] in out |- *; cbn [foldl].
  { exists []. rewrite app_nil_r. split_and!; [done|constructor|]. intros c. rewrite elem_of_nil. naive_solver. }
  case_decide as Hin.
  - destruct (IH out) as (e & E & N & M). exists e. split_and!; [done|done|]. intros c. rewrite M, elem_of_cons. naive_solver.
  - destruct (IH (out ++ [f])) as (e & E & N & M). exists (f :: e). rewrite E, <- app_assoc. split_and!; [done| |].
    + apply NoDup_cons. split; [|done]. rewrite M, elem_of_app, list_elem_of_singleton. naive_solver.
    + intros c. rewrite elem_of_cons, M, elem_of_app, list_elem_of_singleton, elem_of_cons. destruct (decide (c = f)); naive_solver.
Qed.

Lemma union_projection_spec p fs : ∃ extra, union_projection (Some p) fs = Some (p ++ extra) ∧ NoDup extra ∧
  ∀ c, c ∈ extra ↔ c ∈ default [] fs ∧ c ∉ p.
Proof. destruct (union_fold p (default [] fs)) as (e & E & H). exists e. unfold union_projection. cbn. by rewrite E. Qed.

Lemma at_indices_app {A} (l : list A) i j r : at_indices l (i ++ j) = Some r ↔
  ∃ x y, at_indices l i = Some x ∧ at_indices l j = Some y ∧ r = x ++ y.
Proof.
  unfold at_indices. split.
  - intros E%mapM_Some. apply Forall2_app_inv_l in E as (x & y & Hx & Hy & ->). exists x, y. by rewrite !mapM_Some.
  - intros (x & y & Hx%mapM_Some & Hy%mapM_Some & ->). apply mapM_Some. by apply Forall2_app.
Qed.

Lemma at_indices_length {A} (l : list A) i r : at_indices l i = Some r → length r = length i.
Proof. intros E%mapM_Some. by apply Forall2_length in E. Qed.

Lemma at_indices_seq {A} (l : list A) k : (k ≤ length l)%nat → at_indices l (seq 0 k) = Some (take k l).
Proof.
  intros Hk. apply mapM_Some. apply Forall2_same_length_lookup_2; [rewrite length_seq, length_take; lia|].
  intros i n x [-> Hi]%lookup_seq Hx. cbn in *. by rewrite lookup_take_lt in Hx by lia.
Qed.

Lemma usize_ids_app i j r : usize_ids (i ++ j) = Some r ↔ ∃ x y, usize_ids i = Some x ∧ usize_ids j = Some y ∧ r = x ++ y.
Proof.
  unfold usize_ids. split.
  - intros E%mapM_Some. apply Forall2_app_inv_l in E as (x & y & Hx & Hy & ->). exists x, y. by rewrite !mapM_Some.
  - intros (x & y & Hx%mapM_Some & Hy%mapM_Some & ->). apply mapM_Some. by apply Forall2_app.
Qed.

Lemma project_schema_Some s ids s' : project_schema s (Some ids) = Ok s' ↔ ∃ idx, usize_ids ids = Some idx ∧ at_indices s idx = Some s'.
Proof.
  unfold project_schema, schema_project. destruct (usize_ids ids) as [idx|]; [|naive_solver].
  destruct (at_indices s idx) as [x|] eqn:E; cbn; [|naive_solver]. split; [intros [= ->]; by exists idx|].
  intros (? & [= <-] & ?). congruence.
Qed.

(** The projection of a batch to ids of the bind schema, all of it without one. *)
Definition project_batch (ids : option (list Z)) (b : RecordBatch) : option RecordBatch :=
  match ids with
  | None => Some b
  | Some ids => idx ← usize_ids ids; match batch_project b idx with Ok r => Some r | Err _ => None end
  end.

Lemma project_batch_Some ids b r : project_batch (Some ids) b = Some r ↔ ∃ idx s cols,
  usize_ids ids = Some idx ∧ at_indices (schema b) idx = Some s ∧ at_indices (columns b) idx = Some cols ∧
  r = mkRecordBatch s (schema_metadata b) cols (num_rows b).
Proof.
  cbn. unfold batch_project. split.
  - destruct (usize_ids ids) as [idx|]; [|done]. cbn. destruct (at_indices (schema b) idx) as [s|] eqn:Es; [|done].
    destruct (at_indices (columns b) idx) as [cols|] eqn:Ec; [|done]. intros [= <-]. by exists idx, s, cols.
  - intros (idx & s & cols & -> & Es & Ec & ->). cbn. by rewrite Es, Ec.
Qed.

(** A schema of the names and types of another. *)
Definition conforms (want have : Schema) : Prop := Forall2 (λ w h, name w = name h ∧ data_type w = data_type h) want have.

Lemma check_batch_schema_ok f s b : check_batch_schema f s b = Ok () ↔ conforms s (schema b).
Proof.
  unfold check_batch_schema, conforms. destruct (Nat.eqb_spec (length (schema b)) (length s)) as [Hl|Hl]; cbn [negb].
  2: { split; [done|]. intros F%Forall2_length. lia. }
  destruct (find _ (zip s (schema b))) as [[w h]|] eqn:E.
  - split; [done|]. intros F. apply find_some in E as [Hin Hb]. apply list_elem_of_In, list_elem_of_lookup in Hin as (i & Hi).
    apply lookup_zip_Some in Hi as [Hw Hh]. cbn in Hb. destruct (Forall2_lookup_lr _ _ _ _ _ _ F Hw Hh) as [En Et].
    by rewrite En, String.eqb_refl, bool_decide_true in Hb.
  - split; [|done]. intros _. apply Forall2_same_length_lookup_2; [done|]. intros i w h Hw Hh.
    pose proof (find_none _ _ E (w, h)) as Hn. cbn in Hn.
    rewrite orb_false_iff, !negb_false_iff, String.eqb_eq, bool_decide_eq_true in Hn. apply Hn, list_elem_of_In.
    apply list_elem_of_lookup. exists i. by apply lookup_zip_Some.
Qed.

Lemma conforms_at want have idx s s' : conforms want have → at_indices want idx = Some s → at_indices have idx = Some s' → conforms s s'.
Proof.
  intros F E%mapM_Some E'%mapM_Some. revert s' E'. induction E as [|i w idx s Hw _ IH]; intros s' E'; inversion E' as [|? h ? ? Hh]; subst; constructor.
  - exact (Forall2_lookup_lr _ _ _ _ _ _ F Hw Hh).
  - by apply IH.
Qed.

(** * One scan *)

Section scan.
Context {S : Type} `{ProducerStream S}.
Implicit Types sc : Scan S.

(** What holds of a scan the client opened: the caller's schema is the beginning of
    what the worker emits. *)
Definition trims sc : Prop := ∃ extra, emitted_schema sc = scan_schema sc ++ extra.

Lemma trim_checked sc b : trims sc → conforms (emitted_schema sc) (schema b) → length (columns b) = length (schema b) →
  trim_to_projection sc b = Ok (mkRecordBatch (take (length (scan_schema sc)) (schema b)) (schema_metadata b)
    (take (length (scan_schema sc)) (columns b)) (num_rows b)).
Proof.
  intros [ex Hex] F Hl. pose proof (Forall2_length _ _ _ F) as Hn. rewrite Hex, length_app in Hn. unfold trim_to_projection.
  destruct (Nat.eqb_spec (length (scan_schema sc)) (length (columns b))) as [E|E].
  - rewrite !firstn_all2 by lia. by destruct b.
  - unfold batch_project. by rewrite !at_indices_seq by lia.
Qed.

(** The stream answers plain ticks with these batches, then ends. *)
Inductive streams : S → list (RecordBatch * Metadata) → S → Prop :=
| streams_end s s' : tick_with_metadata s None = (Ok None, s') → streams s [] s'
| streams_more s b md s1 l s' : tick_with_metadata s None = (Ok (Some (b, md)), s1) → streams s1 l s' → streams s ((b, md) :: l) s'.

(** What a tick leaves alone. *)
Definition same_scan sc sc' : Prop :=
  scan_schema sc' = scan_schema sc ∧ emitted_schema sc' = emitted_schema sc ∧ function sc' = function sc ∧
  connection_reusable sc' = connection_reusable sc.

Definition trimmed sc (b : RecordBatch) : RecordBatch :=
  mkRecordBatch (take (length (scan_schema sc)) (schema b)) (schema_metadata b) (take (length (scan_schema sc)) (columns b)) (num_rows b).

Definition rows (e : RecordBatch * Metadata) : Prop := num_rows e.1 ≠ 0%nat.
#[local] Instance rows_dec e : Decision (rows e).
Proof. unfold rows. apply _. Defined.

Definition emitted_ok sc (e : RecordBatch * Metadata) : Prop :=
  conforms (emitted_schema sc) (schema e.1) ∧ length (columns e.1) = length (schema e.1).

(** One pull takes the stream to its first batch with rows, or to its end. *)
Lemma next_loop_streams sc l s' ticks : streams (stream sc) l s' → finished sc = false → trims sc →
  Forall (emitted_ok sc) l → (length l < ticks)%nat →
  ∃ r sc', next_loop ticks None sc = Some (Ok r, sc') ∧ same_scan sc sc' ∧
  ((r = None ∧ filter rows l = [] ∧ stream sc' = s' ∧ finished sc' = true) ∨
   (∃ e l', r = Some (trimmed sc e.1) ∧ filter rows l = e :: filter rows l' ∧ (length l' < length l)%nat ∧ Forall (emitted_ok sc) l' ∧
            streams (stream sc') l' s' ∧ finished sc' = false)).
Proof.
  intros Hs. remember (stream sc) as s eqn:Es. revert sc ticks Es. induction Hs as [s s' Ht|s b md s1 l s' Ht Hs IH]; intros sc ticks -> Hf Htr Hok Hlt.
  { destruct ticks as [|ticks]; [cbn in Hlt; lia|]. cbn [next_loop]. rewrite Ht. eexists _, _. split; [done|]. split; [done|]. by left. }
  destruct ticks as [|ticks]; [cbn in Hlt; lia|]. cbn [next_loop]. rewrite Ht.
  set (sc1 := match from_metadata md with Some cc => set_cache_control (Some cc) (set_stream s1 sc) | None => set_stream s1 sc end).
  assert (same_scan sc sc1 ∧ stream sc1 = s1 ∧ finished sc1 = false) as (Hsame & E1 & Hf1) by (unfold sc1; by destruct (from_metadata md)).
  pose proof Hsame as (A1 & A2 & A3 & A4). apply Forall_cons in Hok as [[Hc Hl] Hok].
  assert (trims sc1) as Htr1 by (unfold trims; by rewrite A1, A2).
  assert (∀ l, Forall (emitted_ok sc) l ↔ Forall (emitted_ok sc1) l) as Hiff by (intros; unfold emitted_ok; by rewrite A2).
  assert (∀ b, trimmed sc1 b = trimmed sc b) as Htm by (intros; unfold trimmed; by rewrite A1).
  destruct (Nat.eqb_spec (num_rows b) 0) as [Hz|Hnz].
  - destruct (IH sc1 ticks (eq_sym E1) Hf1 Htr1) as (r & sc' & N1 & (B1 & B2 & B3 & B4) & N3); [by apply Hiff|cbn in Hlt; lia|].
    exists r, sc'. split; [done|]. split; [by repeat split; congruence|]. rewrite filter_cons_False by (intros Hr; by apply Hr).
    destruct N3 as [?|(e & l' & -> & ? & ? & ? & ? & ?)]; [by left|]. right. exists e, l'. rewrite Htm, Hiff. cbn. split_and!; done || lia.
  - rewrite (proj2 (check_batch_schema_ok _ _ _)) by by rewrite A2. rewrite (trim_checked sc1 b); [|done|by rewrite A2|done].
    eexists _, sc1. split; [done|]. split; [done|]. right. exists (b, md), l. fold (trimmed sc1 b). rewrite Htm.
    rewrite filter_cons_True by done. rewrite E1. split_and!; done || (cbn; lia).
Qed.

Lemma same_scan_trans a b c : same_scan a b → same_scan b c → same_scan a c.
Proof. unfold same_scan. naive_solver congruence. Qed.

(** Draining gives the batches with rows, trimmed. *)
Lemma collect_streams fuel ticks sc l s' out : streams (stream sc) l s' → finished sc = false → trims sc →
  Forall (emitted_ok sc) l → (length l < ticks)%nat → (length l < fuel)%nat →
  ∃ sc', collect_loop fuel ticks out sc = Some (Ok (out ++ (trimmed sc ∘ fst <$> filter rows l)), sc') ∧
    same_scan sc sc' ∧ stream sc' = s' ∧ finished sc' = true.
Proof.
  induction fuel as [|fuel IH] in sc, l, out |- *; [lia|]. intros Hs Hf Htr Hok Ht Hl. cbn [collect_loop].
  unfold next_batch, next_batch_with_pushdown_filters. rewrite Hf.
  change (filter_metadata None) with (@None Metadata).
  destruct (next_loop_streams sc l s' ticks Hs Hf Htr Hok Ht) as (r & sc1 & -> & Hsame & [(-> & Hn & Hst & Hfin)|(e & l' & -> & Hn & Hlt & Hok' & Hs' & Hf')]); cbn [mbind option_bind].
  - exists sc1. rewrite Hn, app_nil_r. done.
  - pose proof Hsame as (A1 & A2 & A3 & A4).
    destruct (IH sc1 l' (out ++ [trimmed sc e.1]) Hs' Hf') as (sc2 & E & Hsame2 & Hst & Hfin).
    + unfold trims. by rewrite A1, A2.
    + unfold emitted_ok. by rewrite A2.
    + lia.
    + lia.
    + exists sc2. rewrite E, Hn, <- app_assoc. cbn [app fmap list_fmap].
      assert (trimmed sc1 = trimmed sc) as -> by (unfold trimmed; by rewrite A1). split; [done|].
      split; [by eapply same_scan_trans|done].
Qed.
End scan.

Section opened.
Context `{IpcStream} {T S X : Type} `{VgiTransport T S X}.
Context `{VgiArrow GlobalInitResponse} `{VgiArrow InitRequest} `{VgiArrow RequestParams}.

Lemma open_projected_inl (c : VgiClient T) params md f sch emitted sc : open_projected c params md f sch emitted = inl sc →
  scan_schema sc = sch ∧ emitted_schema sc = emitted ∧ finished sc = false ∧ connection_reusable sc = exchange_reusable c.
Proof.
  unfold open_projected, open_scan. destruct (open_producer _ _ _ _ _) as [s|[e t]]; [|done].
  destruct (match header s with Some b => from_batch b | None => _ end) as [h|e]; [|by destruct (cancel s)]. by intros [= <-].
Qed.

Lemma scan_opened (c : VgiClient T) b o sc : scan c b o = inl sc →
  project_schema (output_schema b) (projection o) = Ok (scan_schema sc) ∧
  project_schema (output_schema b) (wire_projection o) = Ok (emitted_schema sc) ∧
  finished sc = false ∧ connection_reusable sc = exchange_reusable c ∧ trims sc.
Proof.
  unfold scan. destruct (project_schema _ (projection o)) as [sch|] eqn:Ep; [|done].
  destruct (project_schema _ (wire_projection o)) as [em|] eqn:Ew; [|done]. destruct (init_params _) as [params|]; [|done].
  unfold trims. intros (-> & -> & -> & ->)%open_projected_inl. split_and!; [done..|].
  unfold wire_projection in Ew. destruct (projection o) as [p|].
  - destruct (union_projection_spec p (filter_columns o)) as (ex & Eu & _). rewrite Eu in Ew.
    apply project_schema_Some in Ep as (i1 & U1 & P1), Ew as (i2 & U2 & P2).
    apply usize_ids_app in U2 as (x & y & Hx & Hy & ->). rewrite Hx in U1. injection U1 as ->.
    apply at_indices_app in P2 as (u & v & Hu & Hv & ->). rewrite P1 in Hu. injection Hu as ->. by exists v.
  - cbn in *. simplify_eq. exists []. by rewrite app_nil_r.
Qed.

(** A batch trimmed from the wire projection is the caller's projection. *)
Lemma trimmed_projection b o (sc : Scan S) full e :
  project_schema (output_schema b) (projection o) = Ok (scan_schema sc) →
  conforms (output_schema b) (schema full) → length (columns full) = length (schema full) →
  project_batch (wire_projection o) full = Some e → project_batch (projection o) full = Some (trimmed sc e).
Proof.
  intros Hp Hc Hl He. unfold wire_projection in He. pose proof (Forall2_length _ _ _ Hc) as Hlen. destruct (projection o) as [p|].
  - destruct (union_projection_spec p (filter_columns o)) as (ex & Eu & _). rewrite Eu in He.
    apply project_batch_Some in He as (i2 & s2 & c2 & U & P & C & ->). apply usize_ids_app in U as (x & y & Hx & Hy & ->).
    apply at_indices_app in P as (s & s' & Hs & _ & ->), C as (cs & cs' & Hcs & _ & ->).
    apply project_schema_Some in Hp as (i1 & U1 & P1). rewrite Hx in U1. injection U1 as <-.
    apply project_batch_Some. exists x, s, cs. split_and!; [done..|]. unfold trimmed. cbn.
    assert (length (scan_schema sc) = length s ∧ length (scan_schema sc) = length cs) as [L1 L2].
    { apply at_indices_length in P1, Hs, Hcs. split; congruence. }
    by rewrite L1, take_app_length, <- L1, L2, take_app_length.
  - cbn in *. injection He as <-. injection Hp as Hp. f_equal. unfold trimmed. rewrite <- Hp.
    rewrite !firstn_all2 by lia. by destruct full.
Qed.

Lemma projected_ok b o (sc : Scan S) full e :
  project_schema (output_schema b) (wire_projection o) = Ok (emitted_schema sc) →
  conforms (output_schema b) (schema full) → length (columns full) = length (schema full) →
  project_batch (wire_projection o) full = Some e.1 → emitted_ok sc e.
Proof.
  intros Hp Hc Hl He. destruct (wire_projection o) as [ids|].
  - apply project_batch_Some in He as (i & s & cs & U & P & C & Ee). apply project_schema_Some in Hp as (i' & U' & P').
    rewrite U in U'. injection U' as <-. unfold emitted_ok. rewrite Ee. cbn. split; [by eapply conforms_at|].
    apply at_indices_length in P, C. congruence.
  - injection He as He. injection Hp as Hp. unfold emitted_ok. by rewrite <- He, <- Hp.
Qed.

(** C12: A scan returns the caller's projection of the worker's table: when
    the worker answers with the columns the init asked for, draining the scan gives
    every batch that has rows, in order, with exactly the projected columns; the
    columns a pushed filter needed in addition are gone. *)
Theorem scan_returns_projection (c : VgiClient T) b o (sc : Scan S) fulls emitted s' fuel :
  scan c b o = inl sc →
  Forall (λ f, conforms (output_schema b) (schema f) ∧ length (columns f) = length (schema f)) fulls →
  Forall2 (λ f e, project_batch (wire_projection o) f = Some e.1) fulls emitted →
  streams (stream sc) emitted s' → (length emitted < fuel)%nat →
  ∃ out sc', collect fuel sc = Some (Ok out, sc') ∧
    Forall2 (λ f r, project_batch (projection o) f = Some r) (filter (λ f, num_rows f ≠ 0%nat) fulls) out ∧
    stream sc' = s' ∧ finished sc' = true ∧ connection_reusable sc' = exchange_reusable c.
Proof.
  intros (Hp & Hw & Hf & Hr & Htr)%scan_opened Hfull Hem Hst Hlt.
  assert (Forall (emitted_ok sc) emitted) as Hok.
  { clear -Hfull Hem Hw. induction Hem as [|f e fulls emitted He _ IH]; [constructor|]. apply Forall_cons in Hfull as [[? ?] Hfull].
    constructor; [by eapply projected_ok|auto]. }
  destruct (collect_streams fuel fuel sc emitted s' [] Hst Hf Htr Hok Hlt Hlt) as (sc' & E & (_ & _ & _ & A4) & E1 & E2).
  eexists _, sc'. split; [exact E|]. split; [|by rewrite A4].
  clear -Hfull Hem Hp. cbn [app]. induction Hem as [|f e fulls emitted He _ IH]; [constructor|]. apply Forall_cons in Hfull as [[? ?] Hfull].
  pose proof (trimmed_projection _ _ sc _ _ Hp ltac:(done) ltac:(done) He) as Ht.
  assert (num_rows f = num_rows e.1) as Hrows.
  { destruct (wire_projection o); [|by injection He as <-]. by apply project_batch_Some in He as (? & ? & ? & _ & _ & _ & ->). }
  destruct (decide (num_rows f = 0%nat)) as [Hz|Hnz].
  - rewrite (filter_cons_False _ f) by auto. rewrite filter_cons_False by (unfold rows; rewrite <- Hrows; auto). auto.
  - rewrite (filter_cons_True _ f) by done. rewrite filter_cons_True by (unfold rows; by rewrite <- Hrows). constructor; auto.
Qed.
End opened.

(** * The life of a scan *)

(** The calls a stream saw, with their outcome. *)
Inductive stream_event := Answered | Ended | TickFailed | Cancelled (ok : bool).
Definition terminal (e : stream_event) : bool := match e with Ended | Cancelled _ => true | _ => false end.
Definition succeeded (e : stream_event) : bool := match e with TickFailed => false | Cancelled ok => ok | _ => true end.

(** Any stream, with a log of its calls. *)
#[global] Instance logged_stream {S} `{ProducerStream S} : ProducerStream (S * list stream_event) := {|
  header s := header s.1;
  tick_with_metadata s md :=
    let '(r, s') := tick_with_metadata s.1 md in
    (r, (s', s.2 ++ [match r with Ok (Some _) => Answered | Ok None => Ended | Err _ => TickFailed end]));
  cancel s := let '(r, s') := cancel s.1 in (r, (s', s.2 ++ [Cancelled (is_ok r)]));
|}.

(** What a caller does with a scan before dropping it; a cancellation that
    succeeded counts as no batch. *)
Inductive scan_op := NextBatch (filters : option bytes) | CancelScan.
Definition scan_step {S} `{ProducerStream S} (fuel : nat) (op : scan_op) (sc : Scan S) :
    option (result (option RecordBatch) RpcError * Scan S) :=
  match op with
  | NextBatch filters => next_batch_with_pushdown_filters fuel filters sc
  | CancelScan => let '(r, sc) := cancel_scan sc in Some (match r with Ok _ => Ok None | Err e => Err e end, sc)
  end.
Fixpoint run_scan {S} `{ProducerStream S} (fuel : nat) (ops : list scan_op) (sc : Scan S) :
    option (list (result (option RecordBatch) RpcError) * Scan S) :=
  match ops with
  | [] => Some ([], sc)
  | op :: ops =>
      '(r, sc) ← scan_step fuel op sc;
      '(rs, sc) ← run_scan fuel ops sc;
      Some (r :: rs, sc)
  end.

Section lifecycle.
Context {S : Type} `{ProducerStream S}.
Hypothesis batches : ∀ s md b md' s', tick_with_metadata s md = (Ok (Some (b, md')), s') → length (columns b) = length (schema b).
Implicit Types sc : Scan (S * list stream_event).

Definition log sc : list stream_event := (stream sc).2.

(** A stream that is not over has seen no terminal call; one that is over ends with
    its only one. *)
Definition ended_once sc : Prop :=
  if finished sc then ∃ pre last, log sc = pre ++ [last] ∧ forallb (negb ∘ terminal) pre = true ∧ terminal last = true
  else forallb (negb ∘ terminal) (log sc) = true.

(** What one call does to a scan. *)
Record step_ok sc (r : result (option RecordBatch) RpcError) sc' : Prop := {
  step_once : ended_once sc → ended_once sc';
  step_log : ∃ new, log sc' = log sc ++ new ∧
    connection_reusable sc' = connection_reusable sc && is_ok r && forallb succeeded new;
  step_schemas : scan_schema sc' = scan_schema sc ∧ emitted_schema sc' = emitted_schema sc;
  step_batch b : r = Ok (Some b) → trims sc → conforms (scan_schema sc) (schema b) ∧ num_rows b ≠ 0%nat;
}.

Lemma open_snoc l e : forallb (negb ∘ terminal) (l ++ [e]) = forallb (negb ∘ terminal) l && negb (terminal e).
Proof. rewrite forallb_app. cbn. by rewrite andb_true_r. Qed.

Lemma trim_conforms sc b b' : trims sc → conforms (emitted_schema sc) (schema b) → length (columns b) = length (schema b) →
  trim_to_projection sc b = Ok b' → conforms (scan_schema sc) (schema b') ∧ num_rows b' = num_rows b.
Proof.
  intros Ht Hc Hl. rewrite (trim_checked sc b Ht Hc Hl). intros [= <-]. cbn. split; [|done]. destruct Ht as [ex Hex]. rewrite Hex in Hc.
  apply Forall2_app_inv_l in Hc as (x & y & Hx & _ & Es). rewrite Es, (Forall2_length _ _ _ Hx). by rewrite take_app_length.
Qed.

Lemma next_loop_step fuel md sc r sc' : finished sc = false → next_loop fuel md sc = Some (r, sc') → step_ok sc r sc'.
Proof.
  induction fuel as [|fuel IH] in sc |- *; [done|]. intros Hf. cbn [next_loop].
  destruct (tick_with_metadata (stream sc) md) as [next s] eqn:Et.
  assert (∃ e, s.2 = log sc ++ [e] ∧ e = match next with Ok (Some _) => Answered | Ok None => Ended | Err _ => TickFailed end) as (e & Es & He).
  { cbn in Et. destruct (tick_with_metadata (stream sc).1 md). injection Et as <- <-. by eexists. }
  destruct next as [[[b md']|]|err]; subst e.
  - assert (length (columns b) = length (schema b)) as Hl.
    { cbn in Et. destruct (tick_with_metadata (stream sc).1 md) eqn:E'. simplify_eq. by eapply batches. }
    set (sc1 := match from_metadata md' with Some cc => _ | None => _ end).
    assert (log sc1 = log sc ++ [Answered] ∧ finished sc1 = false ∧ connection_reusable sc1 = connection_reusable sc ∧
            scan_schema sc1 = scan_schema sc ∧ emitted_schema sc1 = emitted_schema sc) as (A1 & A2 & A3 & A4 & A5).
    { unfold sc1, log. destruct (from_metadata md'); cbn; by rewrite Es. }
    assert (ended_once sc → ended_once sc1) as Hon.
    { unfold ended_once. rewrite Hf, A2, A1, open_snoc. intros ->. done. }
    assert (trims sc → trims sc1) as Htr by (unfold trims; by rewrite A4, A5).
    assert (∀ e (sc2 := unusable sc1), step_ok sc (Err e) sc2) as Herr.
    { intros e sc2. split; [exact Hon| |by split|done]. exists [Answered]. split; [done|]. cbn. by rewrite andb_false_r. }
    destruct (Nat.eqb_spec (num_rows b) 0) as [Hz|Hnz].
    + intros E. destruct (IH sc1 A2 E) as [B1 (new & B2 & B3) [B4 B5] B6]. split.
      * auto.
      * exists (Answered :: new). split; [by rewrite B2, A1, <- app_assoc|]. by rewrite B3, A3.
      * split; congruence.
      * intros b' Hb' Ht. rewrite <- A4. by apply B6; [|apply Htr].
    + destruct (check_batch_schema _ _ b) as [[]|err] eqn:Ec; [|intros [= <- <-]; apply Herr].
      apply check_batch_schema_ok in Ec. destruct (trim_to_projection sc1 b) as [b'|err] eqn:Eb; [|intros [= <- <-]; apply Herr].
      intros [= <- <-]. split; [done|exists [Answered]; by rewrite A1, A3, !andb_true_r|by split|].
      intros x [= <-] Ht. rewrite <- A4. destruct (trim_conforms sc1 b b' (Htr Ht) Ec Hl Eb) as [C1 C2]. split; [done|]. by rewrite C2.
  - intros [= <- <-]. split; [|exists [Ended]; split; [exact Es|cbn; by rewrite !andb_true_r]|by split|done].
    unfold ended_once. cbn [finished set_finished]. rewrite Hf. intros Ho. by exists (log sc), Ended.
  - intros [= <- <-]. split; [|exists [TickFailed]; split; [exact Es|cbn; by rewrite !andb_false_r]|by split|done].
    unfold ended_once. cbn [finished unusable set_stream]. rewrite Hf. change (log (unusable (set_stream s sc))) with (s.2).
    rewrite Es, open_snoc. intros ->. done.
Qed.

(** Nothing happens to a scan that is over. *)
Lemma step_idle sc r : is_ok r = true → (∀ b, r ≠ Ok (Some b)) → step_ok sc r sc.
Proof.
  intros Hr Hb. split; [done| |done|by intros b ?%Hb]. exists []. cbn. by rewrite app_nil_r, Hr, !andb_true_r.
Qed.

(** Cancelling, and dropping, cancel the stream unless it is over. *)
Lemma cancel_step sc r sc' : cancel_scan sc = (r, sc') →
  step_ok sc (match r with Ok _ => Ok None | Err e => Err e end) sc' ∧ finished sc' = true ∧ drop_scan sc = sc'.
Proof.
  unfold cancel_scan, drop_scan. destruct (finished sc) eqn:Hf.
  { intros [= <- <-]. split; [by apply step_idle|done]. }
  destruct (cancel (stream (set_finished sc))) as [res s] eqn:Ec. cbn in Ec.
  assert (s.2 = log sc ++ [Cancelled (is_ok res)]) as Es by (destruct (cancel (stream sc).1); by injection Ec as <- <-).
  intros [= <- <-]. set (sc1 := if is_ok res then _ else _).
  assert (log sc1 = log sc ++ [Cancelled (is_ok res)] ∧ finished sc1 = true ∧ connection_reusable sc1 = connection_reusable sc && is_ok res ∧
          scan_schema sc1 = scan_schema sc ∧ emitted_schema sc1 = emitted_schema sc) as (A1 & A2 & A3 & A4 & A5).
  { unfold sc1. destruct res; cbn; rewrite ?andb_true_r, ?andb_false_r; (split; [exact Es|done]). }
  split; [|done]. split.
  - unfold ended_once. rewrite Hf, A2, A1. intros Ho. by exists (log sc), (Cancelled (is_ok res)).
  - exists [Cancelled (is_ok res)]. split; [done|]. rewrite A3. cbn. by destruct res; rewrite ?andb_true_r, ?andb_false_r.
  - by split.
  - by destruct res.
Qed.

Lemma scan_step_ok fuel op sc r sc' : scan_step fuel op sc = Some (r, sc') → step_ok sc r sc'.
Proof.
  destruct op as [filters|]; cbn.
  - unfold next_batch_with_pushdown_filters. destruct (finished sc) eqn:Hf; [|by apply next_loop_step].
    intros [= <- <-]. by apply step_idle.
  - destruct (cancel_scan sc) as [res sc1] eqn:E. intros [= <- <-]. by apply (cancel_step _ _ _ E).
Qed.

Lemma run_scan_ok fuel ops sc outs sc' : run_scan fuel ops sc = Some (outs, sc') → trims sc → ended_once sc →
  ended_once sc' ∧ trims sc' ∧
  (∃ new, log sc' = log sc ++ new ∧ connection_reusable sc' = connection_reusable sc && forallb is_ok outs && forallb succeeded new) ∧
  (∀ b, Ok (Some b) ∈ outs → conforms (scan_schema sc) (schema b) ∧ num_rows b ≠ 0%nat).
Proof.
  induction ops as [|op ops IH] in sc, outs |- *; cbn [run_scan].
  { intros [= <- <-] Ht Ho. split_and!; [done|done|exists []; cbn; by rewrite app_nil_r, !andb_true_r|by intros b ?%not_elem_of_nil]. }
  destruct (scan_step fuel op sc) as [[r sc1]|] eqn:Es; [|done]. cbn. destruct (run_scan fuel ops sc1) as [[rs sc2]|] eqn:Er; [|done].
  intros [= <- <-] Ht Ho. destruct (scan_step_ok _ _ _ _ _ Es) as [S1 (n1 & S2 & S3) [S4 S5] S6].
  destruct (IH sc1 rs Er) as (R1 & R2 & (n2 & R3 & R4) & R5); [unfold trims; by rewrite S4, S5|auto|].
  split_and!; [done|done| |].
  - exists (n1 ++ n2). split; [by rewrite R3, S2, app_assoc|]. rewrite R4, S3, forallb_app. cbn [forallb].
    destruct (connection_reusable sc), (is_ok r), (forallb succeeded n1), (forallb is_ok rs), (forallb succeeded n2); done.
  - intros b [E|Hin]%elem_of_cons; [by apply S6|]. rewrite <- S4. by apply R5.
Qed.

(** C13: Whatever a caller does with an opened scan, and whatever the stream
    answers: once the scan is dropped its stream saw exactly one terminal call, the
    last one (its end or one cancellation), the connection is reusable exactly when
    it was before and every call of the caller and of the stream succeeded, and each
    batch the caller got has rows and the names and types of the schema it asked for. *)
Theorem scan_lifecycle fuel ops sc outs sc1 :
  log sc = [] → finished sc = false → trims sc → run_scan fuel ops sc = Some (outs, sc1) →
  let sc2 := drop_scan sc1 in
  (∃ pre last, log sc2 = pre ++ [last] ∧ forallb (negb ∘ terminal) pre = true ∧ terminal last = true) ∧
  connection_reusable sc2 = connection_reusable sc && forallb is_ok outs && forallb succeeded (log sc2) ∧
  (∀ b, Ok (Some b) ∈ outs → conforms (scan_schema sc) (schema b) ∧ num_rows b ≠ 0%nat).
Proof.
  intros Hl Hf Ht Hr. assert (ended_once sc) as Ho by (unfold ended_once; by rewrite Hf, Hl).
  destruct (run_scan_ok _ _ _ _ _ Hr Ht Ho) as (R1 & R2 & (n1 & R3 & R4) & R5).
  destruct (cancel_scan sc1) as [r sc2'] eqn:E. destruct (cancel_step _ _ _ E) as ([C1 (n2 & C2 & C3) _ _] & C4 & C5).
  cbv zeta. rewrite C5. specialize (C1 R1). unfold ended_once in C1. rewrite C4 in C1. split_and!; [done| |done].
  rewrite C3, R4, C2, R3, Hl. cbn [app]. rewrite forallb_app.
  assert (forallb succeeded n2 = true → is_ok (match r with Ok _ => Ok None | Err e => Err e end : result (option RecordBatch) RpcError) = true) as Hr2.
  { clear -E C2. unfold cancel_scan in E. destruct (finished sc1); [by injection E as <- _|]. cbn in E.
    destruct (cancel (stream sc1).1) as [res s]. injection E as <- <-. destruct res; [done|]. cbn in C2.
    apply app_inv_head in C2. by subst n2. }
  destruct (forallb succeeded n2), (is_ok (match r with Ok _ => Ok None | Err e => Err e end)); try (by specialize (Hr2 eq_refl));
    destruct (connection_reusable sc), (forallb succeeded n1), (forallb is_ok outs); done.
Qed.
End lifecycle.

(** * Examples *)

Section examples.
#[local] Existing Instance text_stream.

(** Scripted streams: the answers to come, then the end; a failing one fails its
    cancellation. *)
Definition Script := (bool * list (result (RecordBatch * Metadata) RpcError))%type.
#[local] Instance script_stream : ProducerStream Script := {|
  header _ := Some (text_batch "header");
  tick_with_metadata := λ (s : Script) _,
    match s.2 with
    | [] => (Ok None, s)
    | Ok a :: l => ((if (length (columns a.1) =? length (schema a.1))%nat then Ok (Some a) else runtime_error "malformed batch"), (s.1, l))
    | Err e :: l => (Err e, (s.1, l))
    end;
  cancel := λ s : Script, ((if s.1 then Ok () else runtime_error "connection lost"), s);
|}.
#[local] Instance no_exchange : ExchangeStream unit := {|
  exchange_header _ := None; exchange_with_metadata _ _ _ := (Ok None, ()); close_exchange _ := (Ok (), ()); cancel_exchange _ := (Ok (), ());
|}.
#[local] Instance script_transport : VgiTransport Script Script unit := {|
  call_unary t _ _ := (runtime_error "no unary calls", t);
  open_producer t _ _ _ _ := inl t;
  open_exchange_stream t _ _ _ := inr (RuntimeError "no exchanges", t);
  end_producer s := s;
  end_exchange _ := (true, []);
|}.
#[local] Instance const_init : VgiArrow InitRequest :=
  {| describe_name := "InitRequest"; build_singleton _ := Ok (text_batch "init"); read_row _ _ := type_error "not read" |}.
#[local] Instance const_params : VgiArrow RequestParams :=
  {| describe_name := "InitParams"; build_singleton _ := Ok (text_batch "params"); read_row _ _ := type_error "not read" |}.
#[local] Instance const_header : VgiArrow GlobalInitResponse :=
  {| describe_name := "GlobalInitResponse"; build_singleton _ := Ok (text_batch "header"); read_row _ _ := Ok (mkGlobalInit [x01] None 1) |}.

Definition ex_schema : Schema := [mkField "a" Int64 true []; mkField "b" Utf8 true []; mkField "c" Int64 true []].
Definition ex_full (rows : list (Z * string * Z)) : RecordBatch :=
  mkRecordBatch ex_schema ∅
    [plain_array Int64 ((λ r : (Z * string * Z)%type, Some (VInt r.1.1)) <$> rows); plain_array Utf8 ((λ r : (Z * string * Z)%type, Some (VBytes r.1.2)) <$> rows);
     plain_array Int64 ((λ r : (Z * string * Z)%type, Some (VInt r.2)) <$> rows)] (length rows).
Definition ex_fulls : list RecordBatch := [ex_full []; ex_full [(1, "x", 10); (2, "y", 20)]; ex_full [(3, "z", 30)]].
Definition ex_bound : BoundFunction := mkBound "f" [x01] (mkBindResponse [] None [] [] [] [] Unknown) ex_schema.
(** [SELECT c FROM f WHERE a > 0 AND c > 0]. *)
Definition ex_options : ScanOptions :=
  mkScanOptions (Some [2]) (Some [0; 2]) (Some [x05]) None None None None None None None None None None.
Definition ex_emitted : list (RecordBatch * Metadata) := (λ f, (default f (project_batch (Some [2; 0]) f), ∅)) <$> ex_fulls.

Lemma scan_returns_projection_witness :
  wire_projection ex_options = Some [2; 0] ∧
  ∃ sc out sc', scan (mkClient (true, Ok <$> ex_emitted) true) ex_bound ex_options = inl sc ∧
    collect 4 sc = Some (Ok out, sc') ∧
    Forall2 (λ f r, project_batch (Some [2]) f = Some r) [ex_full [(1, "x", 10); (2, "y", 20)]; ex_full [(3, "z", 30)]] out.
Proof.
  split; [vm_compute; reflexivity|].
  destruct (scan (mkClient (true, Ok <$> ex_emitted) true) ex_bound ex_options) as [sc|e] eqn:E; [|vm_compute in E; discriminate].
  assert (stream sc = (true, Ok <$> ex_emitted)) as Es by (vm_compute in E; injection E as <-; vm_compute; reflexivity).
  destruct (scan_returns_projection _ _ _ sc ex_fulls ex_emitted (true, []) 4 E) as (out & sc' & O1 & O2 & _).
  - repeat (constructor; [split; [repeat (constructor; [split; reflexivity|]); constructor|reflexivity]|]). constructor.
  - repeat (constructor; [vm_compute; reflexivity|]). constructor.
  - rewrite Es. repeat (eapply streams_more; [vm_compute; reflexivity|]). apply streams_end. reflexivity.
  - vm_compute. lia.
  - exists sc, out, sc'. split; [reflexivity|]. split; [exact O1|]. exact O2.
Defined.

(** Two good batches, a failing tick, then an early cancellation that fails. *)
Definition ex_scan : Scan (Script * list stream_event) :=
  mkScan ((false, (Ok <$> ex_emitted) ++ [Err (RuntimeError "worker died")]), []) (mkGlobalInit [x01] None 1) "f"
    [mkField "c" Int64 true []] [mkField "c" Int64 true []; mkField "a" Int64 true []] None true false.
Definition ex_ops : list scan_op := [NextBatch None; NextBatch (Some [x07]); NextBatch None; CancelScan; NextBatch None].

Lemma scan_lifecycle_witness :
  ∃ outs sc1, run_scan 4 ex_ops ex_scan = Some (outs, sc1) ∧
    log (drop_scan sc1) = [Answered; Answered; Answered; TickFailed; Cancelled false] ∧
    connection_reusable (drop_scan sc1) = false ∧
    ∃ pre last, log (drop_scan sc1) = pre ++ [last] ∧ forallb (negb ∘ terminal) pre = true ∧ terminal last = true.
Proof.
  assert (∀ (s : Script) md b md' s', tick_with_metadata s md = (Ok (Some (b, md')), s') → length (columns b) = length (schema b)) as Hb.
  { intros [k [|[[b md]|e] l]] md' b' md'' s'; cbn; [done| |done]. destruct (Nat.eqb_spec (length (columns b)) (length (schema b))); [|done].
    by intros [= <- <- <-]. }
  destruct (run_scan 4 ex_ops ex_scan) as [[outs sc1]|] eqn:E; [|vm_compute in E; discriminate].
  assert (trims ex_scan) as Ht by (by eexists).
  destruct (scan_lifecycle Hb 4 ex_ops ex_scan outs sc1 eq_refl eq_refl Ht E) as (L1 & L2 & _).
  assert (log (drop_scan sc1) = [Answered; Answered; Answered; TickFailed; Cancelled false]) as El
    by (vm_compute in E; injection E as <- <-; vm_compute; reflexivity).
  exists outs, sc1. split; [reflexivity|]. split; [exact El|]. split; [|exact L1]. rewrite L2, El. by rewrite andb_false_r.
Defined.
End examples.
