(* ===== verification/ClientExchange.v ===== *)
(** Exchange calls of the client, [vgi-client/src/exchange.rs]: rows in, answers
    out, continued output, the finalize phases and the buffering calls; and how the
    worker emits an answer ([vgi/src/table_in_out.rs]). *)
From S2P Require Import Prelude Float64 Arrow SqlCompare Ipc CacheControl Wire ClientArguments ClientScan.

Open Scope Z_scope.

Definition PARENT_ROW_KEY : string := "vgi_rpc.parent_row#b64".
Definition STATUS_KEY : string := "vgi.status".
Definition STATUS_HAVE_MORE_OUTPUT : string := "HAVE_MORE_OUTPUT".
Definition STATUS_CONTINUE : string := "CONTINUE".

Definition protocol_error {A} (msg : string) : result A RpcError := Err (ProtocolError msg).

(** * Metadata of an answer *)

Definition base64_val (b : byte) : option Z :=
  let z := Z_of_byte b in
  if (65 <=? z) && (z <=? 90) then Some (z - 65)
  else if (97 <=? z) && (z <=? 122) then Some (z - 97 + 26)
  else if (48 <=? z) && (z <=? 57) then Some (z - 48 + 52)
  else if (z =? 43) || (z =? 45) then Some 62
  else if (z =? 47) || (z =? 95) then Some 63
  else None.
Definition is_ascii_whitespace (b : byte) : bool := existsb (Z.eqb (Z_of_byte b)) [9; 10; 12; 13; 32].

(** The characters before the first padding. *)
Fixpoint before_padding (l : bytes) : bytes :=
  match l with
  | [] => []
  | b :: l => if Z_of_byte b =? 61 then [] else b :: before_padding l
  end.
(** The loop over the body: pending bits and how many. *)
Fixpoint base64_loop (body : bytes) (acc bits : Z) : option bytes :=
  match body with
  | [] => Some []
  | b :: body =>
      v ← base64_val b;
      let acc := Z.lor (Z.shiftl acc 6) v in
      let bits := bits + 6 in
      if 8 <=? bits then
        let bits := bits - 8 in
        rest ← base64_loop body (Z.land acc (Z.shiftl 1 bits - 1)) bits;
        Some (byte_of_Z (Z.shiftr acc bits) :: rest)
      else base64_loop body acc bits
  end.
Definition base64_decode (s : string) : option bytes :=
  base64_loop (before_padding (filter (λ b, is_ascii_whitespace b = false) (as_bytes s))) 0 0.

(** [as_chunks::<4>], and [i32::from_le_bytes] of each. *)
Fixpoint le_i32s (raw : bytes) : list Z :=
  match raw with
  | a :: b :: c :: d :: raw => to_signed 32 (le_val [a; b; c; d]) :: le_i32s raw
  | _ => []
  end.
Definition parse_parent_rows (md : Metadata) : result (option (list Z)) RpcError :=
  match md !! PARENT_ROW_KEY with
  | None => Ok None
  | Some encoded =>
      match base64_decode encoded with
      | None => type_error "vgi_rpc.parent_row is not valid base64"
      | Some raw =>
          if negb (length raw mod 4 =? 0)%nat then
            type_error ("vgi_rpc.parent_row is " +:+ Z_to_string (Z.of_nat (length raw)) +:+ " bytes, not a whole number of int32")
          else Ok (Some (le_i32s raw))
      end
  end.

Definition check_continued_reply (function : string) (md : Metadata) (more tick : bool) : result unit RpcError :=
  if tick && existsb (String.prefix "vgi.cache.") (map_to_list md).*1 then
    protocol_error ("function `" +:+ function +:+
      "`: cache control on a reply to a continuation tick; it is only valid on an input's first reply")
  else if (match from_metadata md with Some c => not_modified c | None => false end) && more then
    protocol_error ("function `" +:+ function +:+
      "`: not_modified on a continued reply (one that says HAVE_MORE_OUTPUT); a 304 must be its input's only reply")
  else Ok ().

(** * Exchanges *)

Record Exchange (X : Type) := mkExchange {
  x_stream : X;
  x_header : GlobalInitResponse;
  x_function : string;
  x_schema : Schema;
  x_emitted_schema : Schema;
  parent_rows : option (list Z);
  x_last_cache_control : option CacheControl;
  first_input_metadata : option Metadata;
  pending_more : option (Schema * metadata);
  x_reusable : bool;
  closed : bool;
}.
Arguments mkExchange {X} _ _ _ _ _ _ _ _ _ _ _.
Arguments x_stream {X} _.
Arguments x_header {X} _.
Arguments x_function {X} _.
Arguments x_schema {X} _.
Arguments x_emitted_schema {X} _.
Arguments parent_rows {X} _.
Arguments x_last_cache_control {X} _.
Arguments first_input_metadata {X} _.
Arguments pending_more {X} _.
Arguments x_reusable {X} _.
Arguments closed {X} _.

Section updates.
Context {X : Type}.
Definition set_x_stream (s : X) (x : Exchange X) : Exchange X :=
  mkExchange s (x_header x) (x_function x) (x_schema x) (x_emitted_schema x) (parent_rows x) (x_last_cache_control x)
    (first_input_metadata x) (pending_more x) (x_reusable x) (closed x).
Definition set_answer_metadata (rows : option (list Z)) (cc : option CacheControl) (x : Exchange X) : Exchange X :=
  mkExchange (x_stream x) (x_header x) (x_function x) (x_schema x) (x_emitted_schema x) rows cc
    (first_input_metadata x) (pending_more x) (x_reusable x) (closed x).
Definition take_first (x : Exchange X) : Exchange X :=
  mkExchange (x_stream x) (x_header x) (x_function x) (x_schema x) (x_emitted_schema x) (parent_rows x) (x_last_cache_control x)
    None (pending_more x) (x_reusable x) (closed x).
Definition set_pending (p : option (Schema * metadata)) (x : Exchange X) : Exchange X :=
  mkExchange (x_stream x) (x_header x) (x_function x) (x_schema x) (x_emitted_schema x) (parent_rows x) (x_last_cache_control x)
    (first_input_metadata x) p (x_reusable x) (closed x).
Definition x_unusable (x : Exchange X) : Exchange X :=
  mkExchange (x_stream x) (x_header x) (x_function x) (x_schema x) (x_emitted_schema x) (parent_rows x) (x_last_cache_control x)
    (first_input_metadata x) (pending_more x) false (closed x).
Definition set_closed (x : Exchange X) : Exchange X :=
  mkExchange (x_stream x) (x_header x) (x_function x) (x_schema x) (x_emitted_schema x) (parent_rows x) (x_last_cache_control x)
    (first_input_metadata x) (pending_more x) (x_reusable x) true.
End updates.

Section exchanges.
Context {X : Type} `{ExchangeStream X}.

Definition has_more_output (x : Exchange X) : bool := bool_decide (is_Some (pending_more x)).

(** [update_answer_metadata]. *)
Definition update_answer_metadata (md : Metadata) (x : Exchange X) : result unit RpcError * Exchange X :=
  match parse_parent_rows md with
  | Err e => (Err e, x)
  | Ok rows =>
      (Ok (), set_answer_metadata rows (match from_metadata md with Some cc => Some cc | None => x_last_cache_control x end) x)
  end.

(** The checks of an answer and its trimming. *)
Definition accept_answer (batch : RecordBatch) (md : Metadata) (more tick : bool) (x : Exchange X) :
    result RecordBatch RpcError * Exchange X :=
  match (let? _ := check_continued_reply (x_function x) md more tick in
         check_batch_schema (x_function x) (x_emitted_schema x) batch) with
  | Err e => (Err e, x)
  | Ok _ =>
      let '(r, x) := update_answer_metadata md x in
      (let? _ := r in
       let keep := length (x_schema x) in
       if (keep =? length (columns batch))%nat then Ok batch
       else map_err (λ e, RuntimeError ("function `" +:+ x_function x +:+ "`: could not drop filter-only exchange columns: " +:+ e))
              (batch_project batch (seq 0 keep)), x)
  end.

Definition turn (input : RecordBatch) (md : option Metadata) (tick : bool) (x : Exchange X) :
    result (option RecordBatch * bool) RpcError * Exchange X :=
  if closed x then (protocol_error "send after close", x)
  else
    let x := set_pending None x in
    let '(response, s) := exchange_with_metadata (x_stream x) input md in
    let x := set_x_stream s x in
    match response with
    | Err e => (Err e, x_unusable x)
    | Ok None =>
        if tick then
          (protocol_error ("function `" +:+ x_function x +:+
             "`: the worker ended the stream in answer to a continuation tick; its output for the last input was truncated"),
           x_unusable x)
        else (Ok (None, false), x)
    | Ok (Some (batch, md)) =>
        let more := bool_decide (md !! STATUS_KEY = Some STATUS_HAVE_MORE_OUTPUT) in
        match accept_answer batch md more tick x with
        | (Ok batch, x) => (Ok (Some batch, more), x)
        | (Err e, x) => (Err e, x_unusable x)
        end
    end.

Definition send (input : RecordBatch) (x : Exchange X) : result (option RecordBatch) RpcError * Exchange X :=
  match pending_more x with
  | Some _ => (protocol_error "send while the last input's output is pending; call continue_output()", x)
  | None =>
      let md := first_input_metadata x in
      match turn input md false (take_first x) with
      | (Err e, x) => (Err e, x)
      | (Ok (answer, more), x) => (Ok answer, set_pending (if more then Some (schema input, schema_metadata input) else None) x)
      end
  end.

(** [RecordBatch::new_empty]. *)
Definition new_empty (s : Schema) (md : metadata) : RecordBatch :=
  mkRecordBatch s md ((λ f, plain_array (data_type f) []) <$> s) 0.

Definition continue_metadata : Metadata := {[ STATUS_KEY := STATUS_CONTINUE ]}.
Definition continue_output (x : Exchange X) : result (option RecordBatch) RpcError * Exchange X :=
  match pending_more x with
  | None => (protocol_error "continue_output with no output pending", x)
  | Some (s, smd) =>
      match turn (new_empty s smd) (Some continue_metadata) true x with
      | (Err e, x) => (Err e, x)
      | (Ok (answer, more), x) => (Ok answer, set_pending (if more then Some (s, smd) else None) x)
      end
  end.

Definition close (x : Exchange X) : result unit RpcError * Exchange X :=
  if closed x then (Ok (), x)
  else
    let x := set_pending None (set_closed x) in
    let '(result, s) := close_exchange (x_stream x) in
    let x := set_x_stream s x in
    (result, if is_ok result then x else x_unusable x).

Definition cancel_x (x : Exchange X) : result unit RpcError * Exchange X :=
  if closed x then (Ok (), x)
  else
    let x := set_pending None (set_closed x) in
    let '(result, s) := cancel_exchange (x_stream x) in
    let x := set_x_stream s x in
    (result, if is_ok result then x else x_unusable x).

Definition drop_exchange (x : Exchange X) : Exchange X :=
  if closed x then x
  else
    let x := set_closed x in
    let '(result, s) := cancel_exchange (x_stream x) in
    let x := set_x_stream s x in
    if is_ok result then x else x_unusable x.
End exchanges.

(** * Calls *)

(** [TableBufferingProcessRequest] and its like. *)
Record TableBufferingProcessRequest := mkProcessRequest {
  pr_function_name : string;
  pr_execution_id : bytes;
  pr_input_batch : bytes;
  pr_attach_opaque_data : option bytes;
  pr_transaction_id : option bytes;
  pr_batch_index : option Z;
  pr_schema_path : option (list string);
}.
Record TableBufferingProcessResponse := mkProcessResponse { state_id : bytes }.
Record TableBufferingCombineRequest := mkCombineRequest {
  cr_function_name : string;
  cr_execution_id : bytes;
  cr_state_ids : list bytes;
  cr_attach_opaque_data : option bytes;
  cr_transaction_id : option bytes;
  cr_schema_path : option (list string);
}.
Record TableBufferingCombineResponse := mkCombineResponse { finalize_state_ids : list bytes }.

Section calls.
Context `{IpcStream} {T S X : Type} `{VgiTransport T S X}.
Context `{VgiArrow BindRequest} `{VgiArrow BindResponse} `{VgiArrow RequestParams} `{VgiArrow InitRequest} `{VgiArrow GlobalInitResponse}.
Context `{VgiArrow TableBufferingProcessRequest} `{VgiArrow TableBufferingProcessResponse}.
Context `{VgiArrow TableBufferingCombineRequest} `{VgiArrow TableBufferingCombineResponse}.

(** [bind_with_input_resolved]: the arguments are always encoded anew. *)
Definition bind_with_input_resolved (c : VgiClient T) (cat : AttachedCatalog) (spec : BindSpec) (input_schema : Schema * metadata)
    (secrets : option bytes) (resolved : bool) : option (result BoundFunction RpcError * VgiClient T) :=
  args ← Args.to_ipc (arguments spec);
  Some (match (let? args := args in let? input := write_schema input_schema.1 input_schema.2 in Ok (args, input)) with
        | Err e => (Err e, c)
        | Ok (args, input) => send_bind c (function_name spec) (bind_request cat spec args (Some input) secrets resolved)
        end).
Definition bind_with_input (c : VgiClient T) (cat : AttachedCatalog) (spec : BindSpec) (input_schema : Schema * metadata) :=
  bind_with_input_resolved c cat spec input_schema None false.
Definition bind_with_input_and_resolved_secrets (c : VgiClient T) (cat : AttachedCatalog) (spec : BindSpec)
    (input_schema : Schema * metadata) (secrets : bytes) :=
  bind_with_input_resolved c cat spec input_schema (Some secrets) true.

Definition PHASE_INPUT : string := "INPUT".
Definition PHASE_FINALIZE : string := "FINALIZE".
Definition PHASE_TABLE_BUFFERING : string := "TABLE_BUFFERING".
Definition PHASE_TABLE_BUFFERING_FINALIZE : string := "TABLE_BUFFERING_FINALIZE".

Definition open_exchange (c : VgiClient T) (b : BoundFunction) (o : ScanOptions) : Exchange X + RpcError * VgiClient T :=
  match (let? sch := project_schema (output_schema b) (projection o) in
         let? emitted := project_schema (output_schema b) (wire_projection o) in
         let? params := init_params (init_request b o (Some PHASE_INPUT) None) in
         Ok (sch, emitted, params)) with
  | Err e => inr (e, c)
  | Ok (sch, emitted, params) =>
      match open_exchange_stream (transport c) "init" params true with
      | inr (error, t) => inr (error, mkClient t false)
      | inl s =>
          match match exchange_header s with
                | None => type_error "init did not return a GlobalInitResponse header"
                | Some h => from_batch h
                end with
          | Err error => let '(_, s) := cancel_exchange s in inr (error, mkClient (end_exchange s) false)
          | Ok h =>
              inl (mkExchange s h (bound_name b) sch emitted None None (conditional_request_metadata o) None (exchange_reusable c) false)
          end
      end
  end.

(** [open_phase_stream]; the init already echoes the raw output schema. *)
Definition open_phase_stream (c : VgiClient T) (b : BoundFunction) (o : ScanOptions) (phase : string)
    (finalize_state_id : option bytes) : Scan S + RpcError * VgiClient T :=
  match (let? sch := project_schema (output_schema b) (projection o) in
         let? emitted := project_schema (output_schema b) (wire_projection o) in
         let? params := init_params (init_request b o (Some phase) finalize_state_id) in
         Ok (sch, emitted, params)) with
  | Err e => inr (e, c)
  | Ok (sch, emitted, params) => open_projected c params (conditional_request_metadata o) (bound_name b) sch emitted
  end.

Definition finalize_table_in_out_with_options (c : VgiClient T) (b : BoundFunction) (execution_id : bytes) (options : ScanOptions) :=
  open_phase_stream c b (with_execution_id options execution_id) PHASE_FINALIZE None.
Definition finalize_table_in_out (c : VgiClient T) (b : BoundFunction) (execution_id : bytes) :=
  finalize_table_in_out_with_options c b execution_id default_options.

Definition buffering_process (c : VgiClient T) (cat : AttachedCatalog) (spec : BindSpec) (execution_id : bytes)
    (input : RecordBatch) (batch_index : option Z) : result bytes RpcError * VgiClient T :=
  match (let? input := write_batch input in
         envelope (mkProcessRequest (function_name spec) execution_id input (Some (handle cat)) (transaction cat) batch_index (schema_path spec))) with
  | Err e => (Err e, c)
  | Ok bs =>
      let '(r, c) := typed_call c "table_buffering_process" (mkRequestParams bs) in
      (let? r := r in Ok (state_id r), c)
  end.
Definition buffering_combine (c : VgiClient T) (cat : AttachedCatalog) (spec : BindSpec) (execution_id : bytes)
    (state_ids : list bytes) : result (list bytes) RpcError * VgiClient T :=
  match envelope (mkCombineRequest (function_name spec) execution_id state_ids (Some (handle cat)) (transaction cat) (schema_path spec)) with
  | Err e => (Err e, c)
  | Ok bs =>
      let '(r, c) := typed_call c "table_buffering_combine" (mkRequestParams bs) in
      (let? r := r in Ok (finalize_state_ids r), c)
  end.
Definition buffering_finalize_with_options (c : VgiClient T) (b : BoundFunction) (execution_id finalize_state_id : bytes) (options : ScanOptions) :=
  open_phase_stream c b (with_execution_id options execution_id) PHASE_TABLE_BUFFERING_FINALIZE (Some finalize_state_id).
Definition buffering_finalize (c : VgiClient T) (b : BoundFunction) (execution_id finalize_state_id : bytes) :=
  buffering_finalize_with_options c b execution_id finalize_state_id default_options.

(** [buffering_begin]: the scan it opened is dropped on return. *)
Definition buffering_begin (c : VgiClient T) (b : BoundFunction) : result bytes RpcError * VgiClient T :=
  match open_phase_stream c b default_options PHASE_TABLE_BUFFERING None with
  | inr (e, c) => (Err e, c)
  | inl sc => (Ok (gi_execution_id (scan_header sc)), into_client (drop_scan sc))
  end.
End calls.

(** * The worker's answers *)

Module TableInOut.
Record EmitOptions := mkEmitOptions {
  emit_metadata : option Metadata;
  emit_cache_control : option CacheControl;
  emit_parent_rows : option (list Z);
  emit_more : bool;
}.
Record TableInOutOutput := mkOutput {
  items : list (RecordBatch * option Metadata);
  more : list nat;
  resume_state : option bytes;
}.

Definition emit (out : TableInOutOutput) (batch : RecordBatch) : TableInOutOutput :=
  mkOutput (items out ++ [(batch, None)]) (more out) (resume_state out).

(** [partition::base64_encode], which is the client's code once more. *)
Definition partition_base64_encode (data : bytes) : string := base64_encode data.

Definition emit_with (out : TableInOutOutput) (batch : RecordBatch) (opts : EmitOptions) : result TableInOutOutput RpcError :=
  let md := default ∅ (emit_metadata opts) in
  if bool_decide (is_Some (md !! STATUS_KEY)) then
    runtime_error "emit_with(metadata=...) may not carry `vgi.status`; say there is more output with EmitOptions::more"
  else
    let? md :=
      match emit_parent_rows opts with
      | None => Ok md
      | Some rows =>
          if negb (length rows =? num_rows batch)%nat then
            runtime_error "emit_with(parent_rows=...) must carry exactly one input-row index per emitted output row"
          else if (length rows =? 0)%nat then Ok md
          else Ok (<[PARENT_ROW_KEY := partition_base64_encode (rows ≫= le_bytes 4)]> md)
      end in
    let md := match emit_cache_control opts with Some cc => to_metadata cc ∪ md | None => md end in
    Ok (mkOutput (items out ++ [(batch, if decide (md = ∅) then None else Some md)])
          (if emit_more opts then more out ++ [length (items out)] else more out) (resume_state out)).
End TableInOut.
