(* ===== verification/ClientExchangeFacts.v ===== *)
(** What exchanges guarantee ([ClientExchange]): the rows an answer came from are
    the ones the worker named, the stream sees only words of the protocol and is
    ended once, and an input's continued output is complete or an error. *)
From S2P Require Import Prelude Float64 Arrow SqlCompare Ipc CacheControl Wire ClientArguments ClientScan ClientScanFacts ClientExchange.

Open Scope Z_scope.

(** * Provenance *)

Lemma table_char n : 0 ≤ n < 64 → let ch := nth (Z.to_nat n) BASE64_TABLE x00 in
  base64_val ch = Some n ∧ is_ascii_whitespace ch = false ∧ (Z_of_byte ch =? 61) = false.
Proof.
  intros Hn. assert (Forall (λ k, let ch := nth k BASE64_TABLE x00 in
    base64_val ch = Some (Z.of_nat k) ∧ is_ascii_whitespace ch = false ∧ (Z_of_byte ch =? 61) = false) (seq 0 64)) as F.
  { vm_compute. repeat constructor. }
  rewrite Forall_forall in F. specialize (F (Z.to_nat n)). rewrite Z2Nat.id in F by lia. apply F. apply elem_of_seq. lia.
Qed.

Section decode.
Implicit Types chunk : bytes.

Lemma sextet_val chunk i : base64_val (sextet_char chunk i) = Some (sextet chunk i) ∧
  is_ascii_whitespace (sextet_char chunk i) = false ∧ (Z_of_byte (sextet_char chunk i) =? 61) = false.
Proof. apply table_char, sextet_range. Qed.

Lemma chunk_body chunk rest :
  before_padding (filter (λ b, is_ascii_whitespace b = false) (base64_chunk chunk ++ rest)) =
  chunk_chars chunk ++ (if (2 <? length chunk)%nat then before_padding (filter (λ b, is_ascii_whitespace b = false) rest) else []).
Proof.
  rewrite base64_chunk_eq. unfold chunk_chars.
  assert (∀ i l, filter (λ b, is_ascii_whitespace b = false) (sextet_char chunk i :: l) =
                 sextet_char chunk i :: filter (λ b, is_ascii_whitespace b = false) l) as Hf.
  { intros i l. apply filter_cons_True, (sextet_val chunk i). }
  assert (∀ l, filter (λ b, is_ascii_whitespace b = false) (x3d :: l) = x3d :: filter (λ b, is_ascii_whitespace b = false) l) as Hp
    by (intros l; by apply filter_cons_True).
  assert (∀ i l, before_padding (sextet_char chunk i :: l) = sextet_char chunk i :: before_padding l) as Hb.
  { intros i l. cbn [before_padding]. by rewrite (proj2 (proj2 (sextet_val chunk i))). }
  destruct (Nat.ltb_spec 1 (length chunk)), (Nat.ltb_spec 2 (length chunk)); try lia; cbn [app fmap list_fmap];
    rewrite ?Hf, ?Hp, ?Hb; done.
Qed.

Lemma sextet_bytes chunk :
  let a := Z_of_byte (nth 0 chunk x00) in let b := Z_of_byte (nth 1 chunk x00) in let c := Z_of_byte (nth 2 chunk x00) in
  sextet chunk 0 = a / 4 ∧ sextet chunk 1 = a mod 4 * 16 + b / 16 ∧ sextet chunk 2 = b mod 16 * 4 + c / 64 ∧ sextet chunk 3 = c mod 64.
Proof.
  cbv zeta. unfold sextet, chunk_bits. change (2 ^ (18 - 6 * 0)) with 262144. change (2 ^ (18 - 6 * 1)) with 4096.
  change (2 ^ (18 - 6 * 2)) with 64. change (2 ^ (18 - 6 * 3)) with 1. pose proof (Z_of_byte_range (nth 0 chunk x00)).
  pose proof (Z_of_byte_range (nth 1 chunk x00)). pose proof (Z_of_byte_range (nth 2 chunk x00)).
  split_and!; Z.div_mod_to_equations; lia.
Qed.

(** One character. *)
Lemma loop_char chunk i l acc bits : 0 ≤ acc → 0 ≤ bits ≤ 6 →
  base64_loop (sextet_char chunk i :: l) acc bits =
  let n := acc * 64 + sextet chunk i in
  if 2 <=? bits then cons (byte_of_Z (n / 2 ^ (bits - 2))) <$> base64_loop l (n mod 2 ^ (bits - 2)) (bits - 2)
  else base64_loop l n (bits + 6).
Proof.
  intros Ha Hb. cbn [base64_loop]. rewrite (proj1 (sextet_val chunk i)). cbn [mbind option_bind].
  rewrite lor_shiftl_add by (try lia; apply sextet_range). change (2 ^ 6) with 64. cbv zeta.
  destruct (Z.leb_spec 8 (bits + 6)), (Z.leb_spec 2 bits); try lia; [|done].
  replace (bits + 6 - 8) with (bits - 2) by lia. rewrite Z.shiftl_1_l, Z.sub_1_r, <- Z.ones_equiv, Z.land_ones by lia.
  rewrite Z.shiftr_div_pow2 by lia. by destruct (base64_loop _ _ _).
Qed.

(** The loop reads a chunk's characters from an empty accumulator to an empty one. *)
Lemma loop_chunk chunk rest : (1 ≤ length chunk ≤ 3)%nat → ((length chunk < 3)%nat → rest = []) →
  base64_loop (chunk_chars chunk ++ rest) 0 0 = app chunk <$> base64_loop rest 0 0.
Proof.
  intros Hl Hr. destruct (sextet_bytes chunk) as (X0 & X1 & X2 & X3). unfold chunk_chars.
  set (a := Z_of_byte (nth 0 chunk x00)) in *. set (b := Z_of_byte (nth 1 chunk x00)) in *. set (c := Z_of_byte (nth 2 chunk x00)) in *.
  assert (0 ≤ a < 256 ∧ 0 ≤ b < 256 ∧ 0 ≤ c < 256) as (Ra & Rb & Rc) by (repeat split; apply Z_of_byte_range).
  assert (byte_of_Z a = nth 0 chunk x00 ∧ byte_of_Z b = nth 1 chunk x00 ∧ byte_of_Z c = nth 2 chunk x00) as (Ba & Bb & Bc)
    by (repeat split; apply byte_of_Z_of_byte).
  assert (∀ l, base64_loop (sextet_char chunk 0 :: l) 0 0 = base64_loop l (a / 4) 6) as Q0.
  { intros l. rewrite loop_char by lia. cbv zeta. by rewrite X0. }
  assert (∀ l, base64_loop (sextet_char chunk 1 :: l) (a / 4) 6 = cons (nth 0 chunk x00) <$> base64_loop l (b / 16) 4) as Q1.
  { intros l. rewrite loop_char by (Z.div_mod_to_equations; lia). cbv zeta. rewrite X1, <- Ba. change (2 ^ (6 - 2)) with 16.
    replace (a / 4 * 64 + (a mod 4 * 16 + b / 16)) with (a * 16 + b / 16) by (Z.div_mod_to_equations; lia).
    replace ((a * 16 + b / 16) / 16) with a by (Z.div_mod_to_equations; lia).
    replace ((a * 16 + b / 16) mod 16) with (b / 16) by (Z.div_mod_to_equations; lia). done. }
  assert (∀ l, base64_loop (sextet_char chunk 2 :: l) (b / 16) 4 = cons (nth 1 chunk x00) <$> base64_loop l (c / 64) 2) as Q2.
  { intros l. rewrite loop_char by (Z.div_mod_to_equations; lia). cbv zeta. rewrite X2, <- Bb. change (2 ^ (4 - 2)) with 4.
    replace (b / 16 * 64 + (b mod 16 * 4 + c / 64)) with (b * 4 + c / 64) by (Z.div_mod_to_equations; lia).
    replace ((b * 4 + c / 64) / 4) with b by (Z.div_mod_to_equations; lia).
    replace ((b * 4 + c / 64) mod 4) with (c / 64) by (Z.div_mod_to_equations; lia). done. }
  assert (∀ l, base64_loop (sextet_char chunk 3 :: l) (c / 64) 2 = cons (nth 2 chunk x00) <$> base64_loop l 0 0) as Q3.
  { intros l. rewrite loop_char by (Z.div_mod_to_equations; lia). cbv zeta. rewrite X3, <- Bc. change (2 ^ (2 - 2)) with 1.
    replace (c / 64 * 64 + c mod 64) with c by (Z.div_mod_to_equations; lia). by rewrite Z.div_1_r, Z.mod_1_r. }
  clearbody a b c. destruct chunk as [|x [|y [|z [|]]]]; cbn [length] in *; try lia; cbn [Nat.ltb Nat.leb app fmap list_fmap nth] in *.
  - rewrite (Hr ltac:(lia)), Q0, Q1. done.
  - rewrite (Hr ltac:(lia)), Q0, Q1, Q2. done.
  - rewrite Q0, Q1, Q2, Q3. by destruct (base64_loop rest 0 0).
Qed.

(** The client's decoder inverts the encoder. *)
Lemma base64_decode_encode data : base64_decode (base64_encode data) = Some data.
Proof.
  unfold base64_decode, base64_encode. rewrite as_bytes_of_bytes.
  induction data as [|chunk Hl|a b c rest IH] using chunks_ind; [done|..].
  - assert (base64_chunks chunk = base64_chunk chunk ++ []) as -> by (destruct chunk as [|? [|? [|]]]; cbn in Hl; done || lia).
    rewrite chunk_body. destruct (Nat.ltb_spec 2 (length chunk)); [lia|]. rewrite loop_chunk by (done || lia). cbn. by rewrite app_nil_r.
  - cbn [base64_chunks]. rewrite chunk_body. cbn [length Nat.ltb Nat.leb]. rewrite loop_chunk by (cbn; lia). by rewrite IH.
Qed.
End decode.

Definition i32_range (z : Z) : Prop := - 2 ^ 31 ≤ z < 2 ^ 31.

Lemma le_i32_bytes z : i32_range z → to_signed 32 (le_val (le_bytes 4 z)) = z.
Proof.
  unfold i32_range, to_signed. intros Hz. rewrite le_val_bytes. change (256 ^ Z.of_nat 4) with (2 ^ 32).
  destruct (Z.lt_ge_cases z 0).
  - rewrite <- (Z_mod_plus_full z 1 (2 ^ 32)), (Z.mod_small (z + 1 * 2 ^ 32)) by lia.
    destruct (Z.ltb_spec (z + 1 * 2 ^ 32) (2 ^ (32 - 1))); lia.
  - rewrite Z.mod_small by lia. destruct (Z.ltb_spec z (2 ^ (32 - 1))); lia.
Qed.

Lemma le_i32s_bytes rows : Forall i32_range rows → le_i32s (rows ≫= le_bytes 4) = rows ∧ length (rows ≫= le_bytes 4) = (4 * length rows)%nat.
Proof.
  induction 1 as [|z rows Hz _ [IH1 IH2]]; [done|]. change ((z :: rows) ≫= le_bytes 4) with (le_bytes 4 z ++ (rows ≫= le_bytes 4)).
  split; [|rewrite length_app, length_le_bytes; cbn [length]; lia]. pose proof (le_i32_bytes z Hz) as E. cbn [le_bytes app le_i32s] in *.
  by rewrite E, IH1.
Qed.

Lemma parent_key_not_cache cc : to_metadata cc !! PARENT_ROW_KEY = None.
Proof.
  unfold to_metadata, fields. cbn [foldl]. unfold put. cbn [fst snd].
  repeat match goal with |- context [match ?o with Some _ => _ | None => _ end] => destruct o end;
    rewrite ?lookup_insert_ne by done; done.
Qed.

(** Whatever else an answer carries, the client reads the rows it came from as the
    worker's function named them. *)
Theorem provenance_reaches_client out batch opts out' rows :
  TableInOut.emit_with out batch opts = Ok out' → TableInOut.emit_parent_rows opts = Some rows → rows ≠ [] → Forall i32_range rows →
  ∃ md, TableInOut.items out' = TableInOut.items out ++ [(batch, Some md)] ∧ parse_parent_rows md = Ok (Some rows) ∧ length rows = num_rows batch.
Proof.
  unfold TableInOut.emit_with. intros E Hp Hne Hr. rewrite Hp in E. case_bool_decide; [done|].
  destruct (Nat.eqb_spec (length rows) (num_rows batch)) as [El|]; [|done]. cbn [negb] in E.
  destruct (Nat.eqb_spec (length rows) 0); [by destruct rows|].
  set (raw := rows ≫= le_bytes 4) in E. set (md := <[PARENT_ROW_KEY := _]> _) in E.
  set (md' := match TableInOut.emit_cache_control opts with Some cc => to_metadata cc ∪ md | None => md end) in E.
  assert (md' !! PARENT_ROW_KEY = Some (base64_encode raw)) as Hmd.
  { unfold md', md. destruct (TableInOut.emit_cache_control opts); [|by rewrite lookup_insert_eq].
    rewrite lookup_union_r by apply parent_key_not_cache. by rewrite lookup_insert_eq. }
  injection E as <-. exists md'. cbn [TableInOut.items]. destruct (decide (md' = ∅)) as [E0|]; [by rewrite E0, lookup_empty in Hmd|].
  split; [done|]. split; [|done]. unfold parse_parent_rows. rewrite Hmd, base64_decode_encode.
  destruct (le_i32s_bytes rows Hr) as [L1 L2]. fold raw in L1, L2. rewrite L2, Nat.mul_comm, Nat.Div0.mod_mul. cbn [Nat.eqb negb]. by rewrite L1.
Qed.

(** * The life of an exchange *)

Inductive turn_outcome := TurnFailed | TurnEnded | TurnAnswered (more : bool).
Inductive exchange_event := Turn (md : option Metadata) (rows : nat) (o : turn_outcome) | Closed (ok : bool) | XCancelled (ok : bool).
Definition xterminal (e : exchange_event) : bool := match e with Turn _ _ _ => false | _ => true end.
Definition xsucceeded (e : exchange_event) : bool :=
  match e with Turn _ _ TurnFailed => false | Turn _ _ _ => true | Closed ok | XCancelled ok => ok end.
Definition more_of (md : Metadata) : bool := bool_decide (md !! STATUS_KEY = Some STATUS_HAVE_MORE_OUTPUT).

(** Any exchange stream, with a log of its calls. *)
#[global] Instance logged_exchange {X} `{ExchangeStream X} : ExchangeStream (X * list exchange_event) := {|
  exchange_header s := exchange_header s.1;
  exchange_with_metadata s input md :=
    let '(r, s') := exchange_with_metadata s.1 input md in
    (r, (s', s.2 ++ [Turn md (num_rows input)
                       (match r with Ok (Some (_, md')) => TurnAnswered (more_of md') | Ok None => TurnEnded | Err _ => TurnFailed end)]));
  close_exchange s := let '(r, s') := close_exchange s.1 in (r, (s', s.2 ++ [Closed (is_ok r)]));
  cancel_exchange s := let '(r, s') := cancel_exchange s.1 in (r, (s', s.2 ++ [XCancelled (is_ok r)]));
|}.

(** The protocol as an automaton over the calls of the stream: the conditional
    metadata rides the first input only, an answer that says more is followed by a
    zero-row tick and never by an input, a tick is never answered by the end, and
    nothing follows a close or a cancellation. *)
Record protocol_state := mkProtocol { first : option Metadata; pending : bool; over : bool }.
Definition protocol_step (st : protocol_state) (e : exchange_event) : option protocol_state :=
  if over st then None else
  match e with
  | Closed _ | XCancelled _ => Some (mkProtocol (first st) false true)
  | Turn md rows o =>
      if pending st then
        if decide (md = Some continue_metadata ∧ rows = 0%nat) then
          match o with
          | TurnAnswered more => Some (mkProtocol (first st) more false)
          | TurnEnded => None
          | TurnFailed => Some (mkProtocol (first st) false false)
          end
        else None
      else if decide (md = first st) then
        Some (mkProtocol None (match o with TurnAnswered more => more | _ => false end) false)
      else None
  end.
Fixpoint protocol_run (st : protocol_state) (l : list exchange_event) : option protocol_state :=
  match l with [] => Some st | e :: l => st ← protocol_step st e; protocol_run st l end.

Lemma protocol_run_snoc st l e : protocol_run st (l ++ [e]) = st ← protocol_run st l; protocol_step st e.
Proof.
  induction l as [|e' l IH] in st |- *; cbn; [by destruct (protocol_step st e)|]. destruct (protocol_step st e'); cbn; [apply IH|done].
Qed.

(** What the client itself refuses before it touches the stream. *)
Definition misuse (e : RpcError) : bool :=
  match e with
  | ProtocolError m =>
      existsb (String.eqb m) ["send while the last input's output is pending; call continue_output()";
                              "continue_output with no output pending"; "send after close"]
  | _ => false
  end.
Definition benign {A} (r : result A RpcError) : bool := match r with Ok _ => true | Err e => misuse e end.

Inductive exchange_op := Send (input : RecordBatch) | Continue | Close | CancelX.
Definition exchange_step {X} `{ExchangeStream X} (op : exchange_op) (x : Exchange X) : result (option RecordBatch) RpcError * Exchange X :=
  match op with
  | Send input => send input x
  | Continue => continue_output x
  | Close => let '(r, x) := close x in (match r with Ok _ => Ok None | Err e => Err e end, x)
  | CancelX => let '(r, x) := cancel_x x in (match r with Ok _ => Ok None | Err e => Err e end, x)
  end.
Fixpoint run_exchange {X} `{ExchangeStream X} (ops : list exchange_op) (x : Exchange X) : list (result (option RecordBatch) RpcError) * Exchange X :=
  match ops with
  | [] => ([], x)
  | op :: ops => let '(r, x) := exchange_step op x in let '(rs, x) := run_exchange ops x in (r :: rs, x)
  end.

Section exchange.
Context {X : Type} `{ExchangeStream X}.
Hypothesis batches : ∀ s input md b md' s', exchange_with_metadata s input md = (Ok (Some (b, md')), s') → length (columns b) = length (schema b).
Implicit Types x : Exchange (X * list exchange_event).

Definition xlog x : list exchange_event := (x_stream x).2.
Definition xtrims x : Prop := ∃ extra, x_emitted_schema x = x_schema x ++ extra.
(** What no call changes. *)
Definition xsame x x' : Prop := x_schema x' = x_schema x ∧ x_emitted_schema x' = x_emitted_schema x ∧ x_function x' = x_function x.

Lemma misuse_function f s : misuse (ProtocolError ("function `" +:+ f +:+ s)) = false.
Proof. done. Qed.

Lemma misuse_checks f md more tick s b e :
  (let? _ := check_continued_reply f md more tick in check_batch_schema f s b) = Err e → misuse e = false.
Proof.
  unfold check_continued_reply. destruct (tick && _); [intros [= <-]; apply misuse_function|].
  destruct (_ && more); [intros [= <-]; apply misuse_function|]. unfold check_batch_schema.
  destruct (negb _); [by intros [= <-]|]. destruct (find _ _); [by intros [= <-]|done].
Qed.

(** An accepted answer is trimmed to the caller's schema; a refused one says why. *)
Lemma accept_answer_spec batch md more tick x r x' : accept_answer batch md more tick x = (r, x') →
  xlog x' = xlog x ∧ closed x' = closed x ∧ first_input_metadata x' = first_input_metadata x ∧ pending_more x' = pending_more x ∧
  x_reusable x' = x_reusable x ∧ xsame x x' ∧
  match r with
  | Err e => misuse e = false
  | Ok b => conforms (x_emitted_schema x) (schema batch) ∧
            (xtrims x → length (columns batch) = length (schema batch) →
             b = mkRecordBatch (take (length (x_schema x)) (schema batch)) (schema_metadata batch)
                   (take (length (x_schema x)) (columns batch)) (num_rows batch))
  end.
Proof.
  unfold accept_answer. destruct (let? _ := check_continued_reply _ _ _ _ in _) as [[]|e] eqn:Ec.
  2: { intros [= <- <-]. split_and!; try done. by eapply misuse_checks. }
  assert (conforms (x_emitted_schema x) (schema batch)) as Hc.
  { destruct (check_continued_reply _ _ _ _); [|done]. by apply check_batch_schema_ok in Ec. }
  unfold update_answer_metadata, parse_parent_rows. destruct (md !! PARENT_ROW_KEY) as [enc|].
  1: destruct (base64_decode enc) as [raw|]; [|by intros [= <- <-]]; destruct (negb _); [by intros [= <- <-]|].
  all: cbn [x_schema set_answer_metadata x_function]; intros [= <- <-]; split_and!; try done.
  all: destruct (Nat.eqb_spec (length (x_schema x)) (length (columns batch))) as [E|E].
  all: try (split; [done|]; intros [ex Hex] Hl; pose proof (Forall2_length _ _ _ Hc) as Hn; rewrite Hex, length_app in Hn;
            rewrite !firstn_all2 by lia; by destruct batch).
  all: unfold batch_project; destruct (at_indices (schema batch) _) as [s|] eqn:E1; [|done];
       destruct (at_indices (columns batch) _) as [cs|] eqn:E2; [|done].
  all: split; [done|]; intros [ex Hex] Hl; pose proof (Forall2_length _ _ _ Hc) as Hn; rewrite Hex, length_app in Hn;
       rewrite at_indices_seq in E1 by lia; rewrite at_indices_seq in E2 by lia; by simplify_eq.
Qed.

(** How a turn on an open exchange ends. *)
Inductive turn_result (tick : bool) : turn_outcome → result (option RecordBatch * bool) RpcError → bool → Prop :=
| result_failed e : turn_result tick TurnFailed (Err e) false
| result_ended : tick = false → turn_result tick TurnEnded (Ok (None, false)) true
| result_truncated e : tick = true → misuse e = false → turn_result tick TurnEnded (Err e) false
| result_answer more b : turn_result tick (TurnAnswered more) (Ok (Some b, more)) true
| result_refused more e : misuse e = false → turn_result tick (TurnAnswered more) (Err e) false.

Lemma turn_spec input md tick x r x' : closed x = false → turn input md tick x = (r, x') →
  ∃ o good, turn_result tick o r good ∧ xlog x' = xlog x ++ [Turn md (num_rows input) o] ∧
    x_reusable x' = x_reusable x && good ∧ closed x' = false ∧ first_input_metadata x' = first_input_metadata x ∧
    pending_more x' = None ∧ xsame x x' ∧
    (∀ b more, r = Ok (Some b, more) → xtrims x → conforms (x_schema x) (schema b)).
Proof.
  intros Hcl. unfold turn. rewrite Hcl. cbn [x_stream set_pending].
  destruct (exchange_with_metadata (x_stream x) input md) as [resp s] eqn:Ee.
  assert (s.2 = xlog x ++ [Turn md (num_rows input)
    (match resp with Ok (Some (_, md')) => TurnAnswered (more_of md') | Ok None => TurnEnded | Err _ => TurnFailed end)]) as Es.
  { cbn in Ee. destruct (exchange_with_metadata (x_stream x).1 input md). by injection Ee as <- <-. }
  set (x1 := set_x_stream s (set_pending None x)).
  assert (xlog x1 = s.2 ∧ x_reusable x1 = x_reusable x ∧ closed x1 = false ∧ first_input_metadata x1 = first_input_metadata x ∧
          pending_more x1 = None ∧ xsame x x1) as (A1 & A2 & A3 & A4 & A5 & A6) by done.
  destruct resp as [[[b md']|]|e].
  - assert (length (columns b) = length (schema b)) as Hl.
    { cbn in Ee. destruct (exchange_with_metadata (x_stream x).1 input md) eqn:E'. simplify_eq. by eapply batches. }
    destruct (accept_answer b md' _ tick x1) as [res x2] eqn:Ea.
    destruct (accept_answer_spec _ _ _ _ _ _ _ Ea) as (B1 & B2 & B3 & B4 & B5 & B6 & B7).
    assert (xsame x x2) as Hs by (destruct A6 as (? & ? & ?), B6 as (? & ? & ?); repeat split; congruence).
    destruct res as [b'|e]; intros [= <- <-].
    + exists (TurnAnswered (more_of md')), true. split; [constructor|]. rewrite andb_true_r. split_and!; try congruence.
      intros b0 more [= <- <-] Ht. destruct B7 as [Hc B7]. rewrite (B7 Ht Hl). cbn [schema]. destruct Ht as [ex Hex].
      change (x_emitted_schema x1) with (x_emitted_schema x) in Hc. change (x_schema x1) with (x_schema x). rewrite Hex in Hc.
      apply Forall2_app_inv_l in Hc as (u & v & Hu & _ & Eu). rewrite Eu, (Forall2_length _ _ _ Hu). by rewrite take_app_length.
    + exists (TurnAnswered (more_of md')), false. split; [by constructor|]. rewrite andb_false_r.
      change (xlog (x_unusable x2)) with (xlog x2). split_and!; first [done|exact Hs|cbn; congruence].
  - destruct tick; intros [= <- <-].
    + exists TurnEnded, false. split; [constructor; [done|apply misuse_function]|]. rewrite andb_false_r.
      change (xlog (x_unusable x1)) with (xlog x1). split_and!; first [done|exact A6|cbn; congruence].
    + exists TurnEnded, true. split; [by constructor|]. rewrite andb_true_r. split_and!; first [done|exact A6|cbn; congruence].
  - intros [= <- <-]. exists TurnFailed, false. split; [constructor|]. rewrite andb_false_r.
    change (xlog (x_unusable x1)) with (xlog x1). split_and!; first [done|exact A6|cbn; congruence].
Qed.

(** The exchange's own fields are the state of the protocol. *)
Definition tracks (st0 : protocol_state) x : Prop :=
  ∃ st, protocol_run st0 (xlog x) = Some st ∧ over st = closed x ∧
    (closed x = false → first st = first_input_metadata x ∧ pending st = has_more_output x).
Definition xended_once x : Prop :=
  if closed x then pending_more x = None ∧ ∃ pre last, xlog x = pre ++ [last] ∧ forallb (negb ∘ xterminal) pre = true ∧ xterminal last = true
  else forallb (negb ∘ xterminal) (xlog x) = true.

Record xstep_ok x (r : result (option RecordBatch) RpcError) x' : Prop := {
  xstep_once : xended_once x → xended_once x';
  xstep_log : ∃ new, xlog x' = xlog x ++ new ∧ x_reusable x' = x_reusable x && benign r && forallb xsucceeded new;
  xstep_same : xsame x x';
  xstep_batch b : r = Ok (Some b) → xtrims x → conforms (x_schema x) (schema b);
  xstep_tracks st0 : benign r = true → xended_once x → tracks st0 x → tracks st0 x';
}.

Lemma xstep_idle x r : benign r = true → (∀ b, r ≠ Ok (Some b)) → xstep_ok x r x.
Proof.
  intros Hr Hb. split; [done| |done|by intros b ?%Hb|done]. exists []. by rewrite app_nil_r, Hr, !andb_true_r.
Qed.

Lemma xopen_snoc l e : forallb (negb ∘ xterminal) (l ++ [e]) = forallb (negb ∘ xterminal) l && negb (xterminal e).
Proof. rewrite forallb_app. cbn. by rewrite andb_true_r. Qed.

(** A turn, and the pending output it leaves, is a step. *)
Lemma turn_step x0 x input md tick r x1 p :
  turn input md tick x = (r, x1) → closed x0 = false → (tick = false → pending_more x0 = None) →
  (x = x0 ∧ tick = true ∧ md = Some continue_metadata ∧ num_rows input = 0%nat ∧ is_Some (pending_more x0)) ∨
  (x = take_first x0 ∧ tick = false ∧ md = first_input_metadata x0) →
  let out := match r with Err e => Err e | Ok (a, _) => Ok a end in
  xstep_ok x0 out (match r with Err _ => x1 | Ok (_, more) => set_pending (if more then Some p else None) x1 end).
Proof.
  intros E Hcl Hpn Hx out.
  assert (closed x = false ∧ xlog x = xlog x0 ∧ x_reusable x = x_reusable x0 ∧ xsame x0 x) as (C1 & C2 & C3 & C4)
    by (destruct Hx as [[-> _]|[-> _]]; done).
  destruct (turn_spec _ _ _ _ _ _ C1 E) as (o & good & Hres & A1 & A2 & A3 & A4 & A5 & A6 & A7).
  set (x' := match r with Err _ => x1 | Ok (_, more) => _ end).
  assert (xlog x' = xlog x0 ++ [Turn md (num_rows input) o] ∧ x_reusable x' = x_reusable x0 && good ∧ closed x' = false ∧
          first_input_metadata x' = first_input_metadata x ∧ xsame x0 x' ∧
          has_more_output x' = match r with Ok (_, more) => more | Err _ => false end) as (B1 & B2 & B3 & B4 & B5 & B6).
  { assert (xsame x0 x1) as Hs by (destruct A6 as (? & ? & ?), C4 as (? & ? & ?); repeat split; congruence).
    unfold x'. destruct r as [[a more]|e].
    - change (xlog (set_pending _ x1)) with (xlog x1). split_and!; first [done|exact Hs|cbn; congruence|by destruct more].
    - split_and!; first [done|exact Hs|congruence|unfold has_more_output; by rewrite A5]. }
  split.
  - unfold xended_once. rewrite Hcl, B3, B1, xopen_snoc. intros ->. done.
  - exists [Turn md (num_rows input) o]. split; [done|]. rewrite B2. unfold out.
    destruct Hres as [e| |e _ He|more b|more e He]; cbn; rewrite ?andb_true_r, ?andb_false_r; try done; by rewrite He, andb_false_r.
  - done.
  - intros b Hb Ht. destruct C4 as (S1 & S2 & _). rewrite <- S1.
    destruct r as [[a more]|e]; [|done]. unfold out in Hb. injection Hb as ->. eapply A7; [done|]. unfold xtrims in *. by rewrite S1, S2.
  - intros st0 Hb Ho (st & R1 & R2 & R3). unfold out in Hb. specialize (R3 Hcl) as [R3 R4]. rewrite Hcl in R2. unfold tracks. rewrite B1, protocol_run_snoc, R1, B3, B4, B6.
    cbn [mbind option_bind]. unfold protocol_step. rewrite R2, R4.
    destruct Hx as [(-> & -> & -> & Hz & [q Hq])|(-> & -> & ->)].
    + unfold has_more_output. rewrite Hq, bool_decide_true by done. rewrite decide_True by done.
      destruct Hres as [e|?|e ? He|more b|more e He]; try done.
      * eexists. split; [done|]. cbn. auto.
      * cbn in Hb. by rewrite He in Hb.
      * eexists. split; [done|]. cbn. auto.
      * cbn in Hb. by rewrite He in Hb.
    + assert (has_more_output x0 = false) as -> by (unfold has_more_output; by rewrite Hpn). rewrite decide_True by done.
      eexists. split; [done|]. cbn. split; [done|]. intros _. split; [done|].
      destruct Hres as [e|?|e ? He|more b|more e He]; try done. cbn in Hb. by rewrite He in Hb.
Qed.

Lemma send_step input x r x' : send input x = (r, x') → xstep_ok x r x'.
Proof.
  unfold send. destruct (pending_more x) as [p|] eqn:Hp; [intros [= <- <-]; by apply xstep_idle|].
  destruct (closed x) eqn:Hcl.
  - unfold turn. cbn [closed take_first]. rewrite Hcl. intros [= <- <-]. split.
    + unfold xended_once. cbn [closed take_first pending_more]. by rewrite Hcl.
    + exists []. change (xlog (take_first x)) with (xlog x). by rewrite app_nil_r, !andb_true_r.
    + done.
    + done.
    + intros st0 _ _ (st & R1 & R2 & _). exists st. cbn [closed take_first]. rewrite Hcl in *. done.
  - destruct (turn input (first_input_metadata x) false (take_first x)) as [res x1] eqn:Et.
    pose proof (turn_step x _ _ _ _ _ _ (schema input, schema_metadata input) Et Hcl (λ _, Hp) (or_intror (conj eq_refl (conj eq_refl eq_refl)))) as St.
    destruct res as [[a more]|e]; intros [= <- <-]; exact St.
Qed.

Lemma continue_step x r x' : continue_output x = (r, x') → xstep_ok x r x'.
Proof.
  unfold continue_output. destruct (pending_more x) as [[s smd]|] eqn:Hp; [|intros [= <- <-]; by apply xstep_idle].
  destruct (closed x) eqn:Hcl; [unfold turn; rewrite Hcl; intros [= <- <-]; by apply xstep_idle|].
  destruct (turn _ (Some continue_metadata) true x) as [res x1] eqn:Et.
  assert (is_Some (pending_more x)) as Hs by (by rewrite Hp).
  pose proof (turn_step x _ _ _ _ _ _ (s, smd) Et Hcl ltac:(done)
    (or_introl (conj eq_refl (conj eq_refl (conj eq_refl (conj eq_refl Hs)))))) as St.
  destruct res as [[a more]|e]; intros [= <- <-]; exact St.
Qed.

(** Ending the stream: whatever the call, the log gains one terminal event. *)
Lemma end_step x x1 e (ok : bool) r : closed x = false → xterminal e = true → xsucceeded e = ok → (ok = true → r = Ok None) →
  xlog x1 = xlog x ++ [e] → x_reusable x1 = x_reusable x && ok → closed x1 = true →
  pending_more x1 = None → xsame x x1 → (∀ b, r ≠ Ok (Some b)) → xstep_ok x r x1.
Proof.
  intros Hcl Ht He Hok Hl Hr Hc1 Hp Hs Hb. split.
  - unfold xended_once. rewrite Hcl, Hc1. intros Ho. split; [done|]. by exists (xlog x), e.
  - exists [e]. split; [done|]. rewrite Hr. cbn. rewrite He. destruct ok; [by rewrite (Hok eq_refl), !andb_true_r|by rewrite !andb_false_r].
  - done.
  - by intros b ?%Hb.
  - intros st0 _ _ (st & R1 & R2 & _). exists (mkProtocol (first st) false true). rewrite Hl, protocol_run_snoc, R1. cbn.
    unfold protocol_step. rewrite R2, Hcl, Hc1. by destruct e.
Qed.

Lemma close_step x r x' : close x = (r, x') → xstep_ok x (match r with Ok _ => Ok None | Err e => Err e end) x'.
Proof.
  unfold close. destruct (closed x) eqn:Hcl; [intros [= <- <-]; by apply xstep_idle|].
  destruct (close_exchange _) as [res s] eqn:Ec. cbn in Ec.
  assert (s.2 = xlog x ++ [Closed (is_ok res)]) as Es by (destruct (close_exchange (x_stream x).1); by injection Ec as <- <-).
  intros [= <- <-]. apply (end_step x _ (Closed (is_ok res)) (is_ok res)); auto; try (by destruct res);
    (destruct res; cbn; rewrite ?andb_true_r, ?andb_false_r; done).
Qed.

Lemma cancel_x_step x r x' : cancel_x x = (r, x') → xstep_ok x (match r with Ok _ => Ok None | Err e => Err e end) x'.
Proof.
  unfold cancel_x. destruct (closed x) eqn:Hcl; [intros [= <- <-]; by apply xstep_idle|].
  destruct (cancel_exchange _) as [res s] eqn:Ec. cbn in Ec.
  assert (s.2 = xlog x ++ [XCancelled (is_ok res)]) as Es by (destruct (cancel_exchange (x_stream x).1); by injection Ec as <- <-).
  intros [= <- <-]. apply (end_step x _ (XCancelled (is_ok res)) (is_ok res)); auto; try (by destruct res);
    (destruct res; cbn; rewrite ?andb_true_r, ?andb_false_r; done).
Qed.

Lemma exchange_step_ok op x r x' : exchange_step op x = (r, x') → xstep_ok x r x'.
Proof.
  destruct op as [input| | |]; cbn [exchange_step]; [apply send_step|apply continue_step|..].
  - destruct (close x) eqn:E. intros [= <- <-]. by apply close_step.
  - destruct (cancel_x x) eqn:E. intros [= <- <-]. by apply cancel_x_step.
Qed.

Lemma run_exchange_ok ops x outs x' : run_exchange ops x = (outs, x') → xtrims x → xended_once x →
  xended_once x' ∧
  (∃ new, xlog x' = xlog x ++ new ∧ x_reusable x' = x_reusable x && forallb benign outs && forallb xsucceeded new) ∧
  (∀ b, Ok (Some b) ∈ outs → conforms (x_schema x) (schema b)) ∧
  (∀ st0, forallb benign outs = true → tracks st0 x → tracks st0 x').
Proof.
  induction ops as [|op ops IH] in x, outs |- *; cbn [run_exchange].
  { intros [= <- <-] Ht Ho. split_and!; [done|exists []; cbn; by rewrite app_nil_r, !andb_true_r|by intros b ?%not_elem_of_nil|done]. }
  destruct (exchange_step op x) as [r x1] eqn:Es. destruct (run_exchange ops x1) as [rs x2] eqn:Er. intros [= <- <-] Ht Ho.
  destruct (exchange_step_ok _ _ _ _ Es) as [S1 (n1 & S2 & S3) (S4 & S5 & _) S6 S7].
  destruct (IH x1 rs Er) as (R1 & (n2 & R2 & R3) & R4 & R5); [unfold xtrims; by rewrite S4, S5|auto|]. split_and!; [done|..].
  - exists (n1 ++ n2). split; [by rewrite R2, S2, app_assoc|]. rewrite R3, S3, forallb_app. cbn [forallb].
    destruct (x_reusable x), (benign r), (forallb xsucceeded n1), (forallb benign rs), (forallb xsucceeded n2); done.
  - intros b [E|Hin]%elem_of_cons; [by apply S6|]. rewrite <- S4. by apply R4.
  - intros st0 [Hb Hbs]%andb_true_iff Htr. auto.
Qed.

(** Dropping is cancelling, but for the pending output nobody reads any more. *)
Lemma drop_cancels x : (cancel_x x).2 = drop_exchange x ∨ (cancel_x x).2 = set_pending None (drop_exchange x).
Proof.
  unfold cancel_x, drop_exchange. destruct (closed x); [by left|]. right. cbn [x_stream set_pending set_closed].
  destruct (cancel_exchange _) as [r s]. cbn [snd]. by destruct r.
Qed.

(** C11: Whatever a caller does with an opened exchange, and whatever the
    worker answers: once it is dropped, its stream saw exactly one terminal call, the
    last; the connection is reusable exactly when it was before, no stream call failed
    and no call of the caller failed but those it refused itself; every answer has the
    names and types asked for; and, unless a call failed, the stream's calls are a word
    of the protocol: validators on the first input only, a tick after every answer that
    said more and at no other time, none of them answered by the end. *)
Theorem exchange_protocol ops x outs x1 :
  xlog x = [] → closed x = false → pending_more x = None → xtrims x → run_exchange ops x = (outs, x1) →
  let x2 := drop_exchange x1 in
  (∃ pre last, xlog x2 = pre ++ [last] ∧ forallb (negb ∘ xterminal) pre = true ∧ xterminal last = true) ∧
  x_reusable x2 = x_reusable x && forallb benign outs && forallb xsucceeded (xlog x2) ∧
  (∀ b, Ok (Some b) ∈ outs → conforms (x_schema x) (schema b)) ∧
  (forallb benign outs = true →
   ∃ st, protocol_run (mkProtocol (first_input_metadata x) false false) (xlog x2) = Some st ∧ over st = true).
Proof.
  intros Hl Hc Hp Ht Hr x2. assert (xended_once x) as Ho by (unfold xended_once; by rewrite Hc, Hl).
  destruct (run_exchange_ok _ _ _ _ Hr Ht Ho) as (R1 & (n1 & R2 & R3) & R4 & R5).
  destruct (cancel_x x1) as [r x3] eqn:E. pose proof (cancel_x_step _ _ _ E) as [C1 (n2 & C2 & C3) _ _ C5]. specialize (C1 R1).
  assert (xlog x3 = xlog x2 ∧ x_reusable x3 = x_reusable x2 ∧ closed x3 = true) as (D1 & D2 & D3).
  { pose proof (drop_cancels x1) as D. rewrite E in D. cbn [snd] in D. fold x2 in D. split_and!; [by destruct D as [->| ->]..|].
    unfold cancel_x in E. destruct (closed x1) eqn:E1; [by injection E as _ <-|]. destruct (cancel_exchange _) as [[] ?]; by injection E as _ <-. }
  unfold xended_once in C1. rewrite D3, D1 in C1. destruct C1 as [_ C1]. split_and!; [done| |done|].
  - rewrite <- D2, C3, R3, <- D1, C2, R2, Hl. cbn [app]. rewrite forallb_app.
    assert (benign (match r with Ok _ => Ok None | Err e => Err e end : result (option RecordBatch) RpcError) || negb (forallb xsucceeded n2) = true) as Hr2.
    { clear -E C2. unfold cancel_x in E. destruct (closed x1); [by injection E as <- _|]. cbn in E.
      destruct (cancel_exchange (x_stream x1).1) as [res s]. injection E as <- <-. destruct res; [done|].
      change (xlog x1 ++ [XCancelled false] = xlog x1 ++ n2) in C2. apply app_inv_head in C2. subst n2. cbn. by rewrite orb_true_r. }
    destruct (benign _), (forallb xsucceeded n2), (x_reusable x), (forallb xsucceeded n1), (forallb benign outs); done.
  - intros Hb. rewrite <- D1. set (st0 := mkProtocol _ _ _).
    assert (tracks st0 x) as Htr.
    { exists st0. rewrite Hl, Hc. split_and!; [done|done|]. intros _. split; [done|]. unfold has_more_output. by rewrite Hp. }
    specialize (R5 st0 Hb Htr). destruct R5 as (st & T1 & T2 & _). destruct (closed x1) eqn:E1.
    + unfold cancel_x in E. rewrite E1 in E. injection E as _ <-. by exists st.
    + exists (mkProtocol (first st) false true). split; [|done].
      assert (∃ ok, xlog x3 = xlog x1 ++ [XCancelled ok]) as [ok ->].
      { clear -E E1. unfold cancel_x in E. rewrite E1 in E. cbn in E. destruct (cancel_exchange (x_stream x1).1) as [res s].
        injection E as _ <-. exists (is_ok res). by destruct res. }
      rewrite protocol_run_snoc, T1. cbn. unfold protocol_step. by rewrite T2.
Qed.
End exchange.

(** * Examples *)

Section examples.
(** Scripted exchanges: the answers to come, then the end. *)
Definition XScript := list (RecordBatch * Metadata).
#[local] Instance script_exchange : ExchangeStream XScript := {|
  exchange_header _ := None;
  exchange_with_metadata := λ (s : XScript) _ _,
    match s with
    | [] => (Ok None, s)
    | a :: l => ((if (length (columns a.1) =? length (schema a.1))%nat then Ok (Some a) else runtime_error "malformed batch"), l)
    end;
  close_exchange := λ s : XScript, (Ok (), s);
  cancel_exchange := λ s : XScript, (Ok (), s);
|}.

Definition ex_in : RecordBatch := mkRecordBatch [mkField "k" Int64 true []] ∅ [plain_array Int64 [Some (VInt 1)]] 1.
Definition ex_more : Metadata := {[ STATUS_KEY := STATUS_HAVE_MORE_OUTPUT ]}.
Definition ex_exchange (answers : XScript) : Exchange (XScript * list exchange_event) :=
  mkExchange (answers, []) (mkGlobalInit [x01] None 1) "f" [mkField "k" Int64 true []] [mkField "k" Int64 true []] None None
    (Some {[ CACHE_IF_NONE_MATCH_KEY := "v1" ]}) None true false.

(** An input with two answers, a refused input in between, then another input. *)
Definition ex_xops : list exchange_op := [Send ex_in; Send ex_in; Continue; Send ex_in; Close].
Lemma exchange_protocol_witness :
  ∃ outs x1, run_exchange ex_xops (ex_exchange [(ex_in, ex_more); (ex_in, ∅); (ex_in, ∅)]) = (outs, x1) ∧
    forallb benign outs = true ∧ x_reusable (drop_exchange x1) = true ∧
    ∃ st, protocol_run (mkProtocol (Some {[ CACHE_IF_NONE_MATCH_KEY := "v1" ]}) false false) (xlog (drop_exchange x1)) = Some st ∧ over st = true.
Proof.
  set (x := ex_exchange _). destruct (run_exchange ex_xops x) as [outs x1] eqn:E.
  assert (∀ (s : XScript) input md b md' s', exchange_with_metadata s input md = (Ok (Some (b, md')), s') → length (columns b) = length (schema b)) as Hb.
  { intros [|[b md] l] input md' b' md'' s'; cbn; [done|]. destruct (Nat.eqb_spec (length (columns b)) (length (schema b))); [|done].
    by intros [= <- <- <-]. }
  assert (xtrims x) as Ht by (exists []; reflexivity).
  destruct (exchange_protocol Hb ex_xops x outs x1 eq_refl eq_refl eq_refl Ht E) as (_ & P2 & _ & P4).
  assert (forallb benign outs = true) as Hbn by (vm_compute in E; injection E as <- _; vm_compute; reflexivity).
  exists outs, x1. split; [reflexivity|]. split; [exact Hbn|]. split; [|exact (P4 Hbn)].
  rewrite P2, Hbn. vm_compute in E. injection E as _ <-. vm_compute. reflexivity.
Defined.

(** A refused answer does not end the exchange: when it said more, the next input
    goes out where the worker expects a tick. *)
Theorem refused_answer_leaves_exchange_open :
  let x := ex_exchange [(text_batch "wrong", ex_more); (ex_in, ∅)] in
  let '(outs, x1) := run_exchange [Send ex_in; Send ex_in] x in
  benign <$> outs = [false; true] ∧ closed x1 = false ∧
  protocol_run (mkProtocol (first_input_metadata x) false false) (xlog x1) = None.
Proof. vm_compute. done. Qed.

Lemma provenance_reaches_client_witness :
  let opts := TableInOut.mkEmitOptions None (Some CacheControl_default) (Some [-1]) true in
  ∃ out' md, TableInOut.emit_with (TableInOut.mkOutput [] [] None) ex_in opts = Ok out' ∧
    TableInOut.items out' = [(ex_in, Some md)] ∧ parse_parent_rows md = Ok (Some [-1]).
Proof.
  intros opts. destruct (TableInOut.emit_with (TableInOut.mkOutput [] [] None) ex_in opts) as [out'|] eqn:E; [|vm_compute in E; discriminate].
  destruct (provenance_reaches_client _ _ _ _ [-1] E eq_refl) as (md & H1 & H2 & _); [discriminate|repeat constructor; lia|].
  exists out', md. split; [reflexivity|]. split; [exact H1|exact H2].
Defined.
End examples.

(** Binding a function with input encodes the spec's arguments anew, whatever raw
    argument bytes the spec carries. *)
Theorem bind_with_input_ignores_raw_arguments `{IpcStream} {T S X} `{VgiTransport T S X} `{VgiArrow BindRequest} `{VgiArrow BindResponse}
    `{VgiArrow RequestParams} (c : VgiClient T) cat spec raw input secrets resolved :
  bind_with_input_resolved c cat (with_raw_arguments spec raw) input secrets resolved = bind_with_input_resolved c cat spec input secrets resolved.
Proof. done. Qed.
