(* ===== verification/ClientPlan.v ===== *)
(** Split planning of the client, [vgi-client/src/scan.rs]: the paginated plan of a
    scan, its caps, the metadata a plan may claim and the options that redeem its
    splits.  Arrow's lexicographic comparator and the clock are parameters. *)
From S2P Require Import Prelude Float64 Arrow SqlCompare Ipc Wire ClientArguments ClientScan.

Open Scope Z_scope.

(** * Wire types *)

(** [ScanSplit], [PlanResponse] and [TableFunctionPlanRequest] of
    [vgi-protocol/src/protocol/dtos.rs]. *)
Record ScanSplit := mkSplit {
  s_payload : bytes;
  s_token : bytes;
  s_estimated_rows : option Z;
  s_rows_exact : bool;
  s_estimated_bytes : option Z;
  s_key_value : option bytes;
  s_range_index : option Z;
  s_column_bounds : option bytes;
  s_partition_bounds : option bytes;
  s_column_statistics : option bytes;
  s_location_ids : option (list Z);
  s_start_position : option bytes;
  s_end_position : option bytes;
}.
Record PlanResponse := mkPlanResponse {
  r_splits : list bytes;
  r_next_cursors : option (list bytes);
  r_execution_id : option bytes;
  r_init_opaque_data : option bytes;
  r_max_workers : option Z;
  r_estimated_total_splits : option Z;
  r_estimated_total_rows : option Z;
  r_estimated_total_bytes : option Z;
  r_catalog_version : option Z;
  r_scope : string;
  r_locations : option (list string);
  r_key_grouping : option bytes;
  r_range_partitioning : option bytes;
  r_partitioning : option (list bytes);
  r_sort_order : option (list bytes);
  r_cache_max_age_seconds : option Z;
  r_start_position : option bytes;
  r_end_position : option bytes;
}.
Record TableFunctionPlanRequest := mkPlanRequest {
  q_bind_call : bytes;
  q_bind_opaque_data : option bytes;
  q_projection_ids : option (list Z);
  q_pushdown_filters : option bytes;
  q_join_keys : option (list bytes);
  q_row_limit : option Z;
  q_target_split_bytes : option Z;
  q_min_splits : option Z;
  q_max_splits_per_response : option Z;
  q_cursor : option bytes;
  q_refined_filters : option bytes;
  q_filters_complete : bool;
  q_start_position : option bytes;
  q_end_position : option bytes;
  q_order_by_column_name : option string;
  q_order_by_direction : option string;
  q_order_by_null_order : option string;
  q_order_by_limit : option Z;
  q_tablesample_percentage : option f64;
  q_tablesample_seed : option Z;
}.
(** The distribution records of [vgi-protocol/src/generated/protocol_types.rs] and
    [dtos.rs]. *)
Record FieldPath := mkFieldPath { components : list string }.
Record TransformSpec := mkTransform { id : string; inputs : list bytes; parameters : option bytes }.
Record KeyGrouping := mkKeyGrouping { grouping_keys : list bytes }.
Record RangeKey := mkRangeKey { key_transform : bytes; key_direction : string; key_null_order : string }.
Record RangePartitioning := mkRange { range_keys : list bytes; split_points : bytes }.
Record PartitionTransform := mkPartitionTransform { pt_column : string; pt_transform : string; pt_param : option Z }.
Record SortField := mkSortField { sort_column : string; sort_direction : string; sort_nulls : string }.

(** * Plans *)

Record ScanSplitInfo := mkSplitInfo {
  token : bytes;
  estimated_rows : option Z;
  rows_exact : bool;
  estimated_bytes : option Z;
  key_value : option RecordBatch;
  range_index : option Z;
  column_bounds : option RecordBatch;
  partition_bounds : option RecordBatch;
  column_statistics : option RecordBatch;
  location_ids : option (list Z);
  split_start : option bytes;
  split_end : option bytes;
}.
Record ScanPlan := mkPlan {
  splits : list ScanSplitInfo;
  plan_execution_id : option bytes;
  plan_init_opaque_data : option bytes;
  max_workers : option Z;
  estimated_total_splits : option Z;
  estimated_total_rows : option Z;
  estimated_total_bytes : option Z;
  catalog_version : option Z;
  plan_scope : string;
  locations : option (list string);
  key_grouping : option KeyGrouping;
  range_partitioning : option RangePartitioning;
  partitioning : option (list PartitionTransform);
  sort_order : option (list SortField);
  cache_max_age_seconds : option Z;
  plan_start : option bytes;
  plan_end : option bytes;
}.
(** [ScanPlan { scope: "catalog", ..Default::default() }]. *)
Definition empty_plan : ScanPlan :=
  mkPlan [] None None None None None None None "catalog" None None None None None None None None.
Definition with_splits (l : list ScanSplitInfo) (p : ScanPlan) : ScanPlan :=
  mkPlan l (plan_execution_id p) (plan_init_opaque_data p) (max_workers p) (estimated_total_splits p) (estimated_total_rows p)
    (estimated_total_bytes p) (catalog_version p) (plan_scope p) (locations p) (key_grouping p) (range_partitioning p)
    (partitioning p) (sort_order p) (cache_max_age_seconds p) (plan_start p) (plan_end p).

(** [redemption_options]. *)
Definition redemption_options (p : ScanPlan) (tokens : list bytes) (o : ScanOptions) : ScanOptions :=
  mkScanOptions (projection o) (filter_columns o) (pushdown_filters o) (join_keys o) (order_by o) (sample o)
    (plan_execution_id p) (plan_init_opaque_data p) (substream_id o) (Some tokens) (row_limit o)
    (if_none_match o) (if_modified_since o).

Record PlanOptions := mkPlanOptions {
  po_projection : option (list Z);
  po_filter_columns : option (list Z);
  po_pushdown_filters : option bytes;
  po_join_keys : option (list bytes);
  po_target_split_bytes : option Z;
  po_min_splits : option Z;
  po_max_splits_per_response : option Z;
  po_row_limit : option Z;
  po_refined_filters : option bytes;
  po_filters_complete : option bool;
  po_start_position : option bytes;
  po_end_position : option bytes;
  po_order_by : option OrderBy;
  po_sample : option Sample;
}.
Definition po_wire_projection (o : PlanOptions) : option (list Z) := union_projection (po_projection o) (po_filter_columns o).

Definition plan_request (b : BoundFunction) (o : PlanOptions) (cursor : option bytes) : TableFunctionPlanRequest := {|
  q_bind_call := bind_call b;
  q_bind_opaque_data := response_opaque_data (response b);
  q_projection_ids := po_wire_projection o;
  q_pushdown_filters := po_pushdown_filters o;
  q_join_keys := po_join_keys o;
  q_row_limit := po_row_limit o;
  q_target_split_bytes := po_target_split_bytes o;
  q_min_splits := po_min_splits o;
  q_max_splits_per_response := po_max_splits_per_response o;
  q_cursor := cursor;
  q_refined_filters := po_refined_filters o;
  q_filters_complete := default true (po_filters_complete o);
  q_start_position := po_start_position o;
  q_end_position := po_end_position o;
  q_order_by_column_name := column <$> po_order_by o;
  q_order_by_direction := direction_str ∘ direction <$> po_order_by o;
  q_order_by_null_order := null_order_str ∘ null_order <$> po_order_by o;
  q_order_by_limit := po_order_by o ≫= limit;
  q_tablesample_percentage := percentage <$> po_sample o;
  q_tablesample_seed := po_sample o ≫= seed;
|}.

(** * Decoding *)

Definition message (e : RpcError) : string :=
  match e with ValueError m | TypeError m | RuntimeError m | ProtocolError m => m end.

Section decoding.
Context `{IpcStream}.

Definition decode_plan_value {A} `{VgiArrow A} (value : bytes) (field : string) : result A RpcError :=
  let? batch := map_err (λ e, RuntimeError ("invalid " +:+ field +:+ " IPC: " +:+ message e)) (read_batch value) in
  map_err (λ e, RuntimeError ("invalid " +:+ field +:+ " value: " +:+ message e)) (from_batch batch).
Definition indexed (field : string) (i : nat) : string := field +:+ "[" +:+ Z_to_string (Z.of_nat i) +:+ "]".

(** [.enumerate().map(..).collect::<Result<Vec<_>>>()] from index [i] on. *)
Fixpoint try_map {A B} (f : nat → A → result B RpcError) (i : nat) (l : list A) : result (list B) RpcError :=
  match l with
  | [] => Ok []
  | a :: l => let? b := f i a in let? bs := try_map f (S i) l in Ok (b :: bs)
  end.
Definition transpose {A} (o : option (result A RpcError)) : result (option A) RpcError :=
  match o with None => Ok None | Some (Ok a) => Ok (Some a) | Some (Err e) => Err e end.

Definition decode_plan_items {A} `{VgiArrow A} (values : option (list bytes)) (field : string) : result (option (list A)) RpcError :=
  transpose (try_map (λ i v, decode_plan_value v (indexed field i)) 0 <$> values).
Definition decode_plan_record {A} `{VgiArrow A} (value : option bytes) (field : string) : result (option A) RpcError :=
  transpose ((λ v, decode_plan_value v field) <$> value).
Definition decode_distribution_record {A} `{VgiArrow A} (value : bytes) (field : string) : result A RpcError :=
  let? o := decode_plan_record (Some value) field in
  match o with Some a => Ok a | None => runtime_error ("missing required distribution record " +:+ field) end.
Definition decode_split_batch (value : bytes) (split : nat) (field : string) : result RecordBatch RpcError :=
  map_err (λ e, RuntimeError ("invalid split " +:+ Z_to_string (Z.of_nat split) +:+ " " +:+ field +:+ " IPC: " +:+ message e)) (read_batch value).
End decoding.

(** * What a plan may claim *)

Definition function_error {A} (b : BoundFunction) (msg : string) : result A RpcError :=
  runtime_error ("function `" +:+ bound_name b +:+ "`: " +:+ msg).
Definition index_text (i : nat) : string := Z_to_string (Z.of_nat i).

(** A loop over the enumerated elements whose body returns on an error. *)
Fixpoint try_each {A} (f : nat → A → result unit RpcError) (i : nat) (l : list A) : result unit RpcError :=
  match l with
  | [] => Ok ()
  | a :: l => let? _ := f i a in try_each f (S i) l
  end.
(** [.enumerate().find(..)] with an error for what it finds. *)
Definition refuse_any {A} (p : A → bool) (err : nat → result unit RpcError) (l : list A) : result unit RpcError :=
  try_each (λ i a, if p a then err i else Ok ()) 0 l.

Section validate.
Context `{IpcStream} `{VgiArrow FieldPath} `{VgiArrow TransformSpec} `{VgiArrow RangeKey}.
(** [LexicographicalComparator::try_new] over columns with their options, and its
    [compare] of two rows. *)
Variable comparator : list (array * (bool * bool)) → result (nat → nat → comparison) string.
Variable bound : BoundFunction.

(** The type of a nested field. *)
Fixpoint field_at (context : string) (t : DataType) (path : list string) : result DataType RpcError :=
  match path with
  | [] => Ok t
  | component :: path =>
      match t with
      | Struct fields =>
          match filter (λ f, name f = component) fields with
          | [] => function_error bound (context +:+ " transform names unknown field")
          | [f] => field_at context (data_type f) path
          | _ => function_error bound (context +:+ " transform names ambiguous field")
          end
      | _ => function_error bound (context +:+ " transform names unknown field")
      end
  end.

Definition transform_input (context : string) (i : nat) (input : bytes) : result DataType RpcError :=
  let? path := (decode_distribution_record input (indexed (context +:+ ".inputs") i) : result FieldPath RpcError) in
  match components path with
  | [] => function_error bound (context +:+ " transform has an empty field path")
  | c :: cs =>
      if existsb (String.eqb "") (c :: cs) then function_error bound (context +:+ " transform has an empty field path")
      else match find_field c (output_schema bound) with
      | None => function_error bound (context +:+ " transform names unknown field")
      | Some (_, f) => field_at context (data_type f) cs
      end
  end.

Definition has_slash (s : string) : bool := existsb (λ b, Z_of_byte b =? 47) (as_bytes s).

Definition validate_transform_spec (transform : TransformSpec) (context : string) : result (option DataType) RpcError :=
  if String.eqb (id transform) "" || negb (has_slash (id transform)) then
    function_error bound (context +:+ " has invalid unversioned transform id")
  else match inputs transform with
  | [] => function_error bound (context +:+ " transform has no input fields")
  | _ =>
      let? input_types := try_map (transform_input context) 0 (inputs transform) in
      let? _ :=
        match parameters transform with
        | None => Ok ()
        | Some ps =>
            let? batch := map_err (λ e, RuntimeError ("function `" +:+ bound_name bound +:+ "`: invalid " +:+ context +:+ " parameters IPC: " +:+ message e))
                            (read_batch ps) in
            if negb (num_rows batch =? 1)%nat then function_error bound (context +:+ " transform parameters, expected 1 row") else Ok ()
        end in
      Ok (if String.eqb (id transform) "vgi.identity/1" && (length (inputs transform) =? 1)%nat && negb (is_some (parameters transform))
          then head input_types else None)
  end.

Definition validate_bounds (bounds : RecordBatch) (split_index : nat) (field_name : string) : result unit RpcError :=
  let at_split := "split " +:+ index_text split_index +:+ " " +:+ field_name in
  if negb (num_rows bounds =? 2)%nat then function_error bound (at_split +:+ " rows, expected 2")
  else try_each (λ _ f,
    match find_field (name f) (output_schema bound) with
    | None => function_error bound (at_split +:+ " names unknown column")
    | Some (_, output) => if decide (data_type output = data_type f) then Ok () else function_error bound (at_split +:+ " column has another type")
    end) 0 (schema bounds).

(** [usize::try_from(v).is_ok_and(|v| v < n)]. *)
Definition index_below (v : Z) (n : nat) : bool := (0 <=? v) && (v <? Z.of_nat n).

Definition validate_locations (p : ScanPlan) : result unit RpcError :=
  match locations p with
  | Some ls =>
      try_each (λ i s, try_each (λ _ l, if index_below l (length ls) then Ok ()
                                        else function_error bound ("split " +:+ index_text i +:+ " refers to a location id the plan does not have"))
                         0 (default [] (location_ids s))) 0 (splits p)
  | None =>
      refuse_any (λ s, is_some (location_ids s))
        (λ i, function_error bound ("split " +:+ index_text i +:+ " has location_ids but the plan has no locations")) (splits p)
  end.

(** The declared type of each column, where a transform fixes it. *)
Definition check_columns (b : RecordBatch) (expected : list (option DataType)) (err : nat → result unit RpcError) : result unit RpcError :=
  try_each (λ i t, match t with
                   | None => Ok ()
                   | Some t => if decide (arr_type <$> columns b !! i = Some t) then Ok () else err i
                   end) 0 expected.

Definition validate_key_grouping (p : ScanPlan) : result unit RpcError :=
  match key_grouping p with
  | Some g =>
      match grouping_keys g with
      | [] => function_error bound "key_grouping has no keys"
      | keys =>
          let? types := try_map (λ i key,
              let? transform := decode_distribution_record key (indexed "key_grouping.keys" i) in
              validate_transform_spec transform (indexed "key_grouping.keys" i)) 0 keys in
          try_each (λ i s,
            match key_value s with
            | None => function_error bound ("split " +:+ index_text i +:+ " has no key_value for key_grouping")
            | Some kv =>
                if negb (num_rows kv =? 1)%nat || negb (length (columns kv) =? length keys)%nat
                then function_error bound ("split " +:+ index_text i +:+ " key_value has another shape")
                else check_columns kv types (λ _, function_error bound ("split " +:+ index_text i +:+ " key_value column has another type"))
            end) 0 (splits p)
      end
  | None =>
      refuse_any (λ s, is_some (key_value s))
        (λ i, function_error bound ("split " +:+ index_text i +:+ " has key_value but the plan has no key_grouping")) (splits p)
  end.

Definition ordering_names (direction nulls : string) : bool :=
  existsb (String.eqb direction) ["ASC"; "DESC"] && existsb (String.eqb nulls) ["NULLS_FIRST"; "NULLS_LAST"].

(** A range key, its expected type and its sort options. *)
Definition validate_range_key (i : nat) (key : bytes) : result (option DataType * (bool * bool)) RpcError :=
  let context := indexed "range_partitioning.keys" i in
  let? key := (decode_distribution_record key context : result RangeKey RpcError) in
  let? transform := (decode_distribution_record (key_transform key) (context +:+ ".transform") : result TransformSpec RpcError) in
  let? t := validate_transform_spec transform context in
  if ordering_names (key_direction key) (key_null_order key)
  then Ok (t, (String.eqb (key_direction key) "DESC", String.eqb (key_null_order key) "NULLS_FIRST"))
  else function_error bound ("range_partitioning key " +:+ index_text i +:+ " has invalid ordering").

Definition validate_range_partitioning (p : ScanPlan) : result unit RpcError :=
  match range_partitioning p with
  | Some range =>
      match range_keys range with
      | [] => function_error bound "range_partitioning has no keys"
      | _ =>
          let? keys := try_map validate_range_key 0 (range_keys range) in
          let? points := map_err (λ e, RuntimeError ("function `" +:+ bound_name bound +:+ "`: invalid range_partitioning split_points IPC: " +:+ message e))
                           (read_batch (split_points range)) in
          if negb (length (columns points) =? length (range_keys range))%nat then function_error bound "range split-point width differs"
          else
          let? _ := check_columns points keys.*1 (λ i, function_error bound ("range split-point column " +:+ index_text i +:+ " has another type")) in
          let? compare := map_err (λ e, RuntimeError ("function `" +:+ bound_name bound +:+ "`: range split points cannot be ordered: " +:+ e))
                            (comparator (zip (columns points) keys.*2)) in
          let? _ := try_each (λ _ row, match compare (row - 1)%nat row with
                                       | Lt => Ok ()
                                       | _ => function_error bound "range split points must be strictly ordered by the declared comparator"
                                       end) 0 (seq 1 (num_rows points - 1)) in
          try_each (λ i s, if match range_index s with Some v => index_below v (num_rows points + 1) | None => false end then Ok ()
                           else function_error bound ("split " +:+ index_text i +:+ " has invalid range_index")) 0 (splits p)
      end
  | None =>
      refuse_any (λ s, is_some (range_index s))
        (λ i, function_error bound ("split " +:+ index_text i +:+ " has range_index but the plan has no range_partitioning")) (splits p)
  end.

Definition validate_partition_bounds (p : ScanPlan) : result unit RpcError :=
  if match partitioning p with Some (_ :: _) => true | _ => false end && existsb (λ s, negb (is_some (partition_bounds s))) (splits p)
  then function_error bound "a partitioned plan requires partition_bounds on every split"
  else try_each (λ i s,
    let? _ := match column_bounds s with Some b => validate_bounds b i "column_bounds" | None => Ok () end in
    match partition_bounds s with Some b => validate_bounds b i "partition_bounds" | None => Ok () end) 0 (splits p).

Definition valid_transform (t : PartitionTransform) : bool :=
  if existsb (String.eqb (pt_transform t)) ["bucket"; "truncate"] then match pt_param t with Some n => 0 <? n | None => false end
  else if existsb (String.eqb (pt_transform t)) ["identity"; "year"; "month"; "day"; "hour"] then negb (is_some (pt_param t))
  else false.
Definition has_field (n : string) : bool := is_some (find_field n (output_schema bound)).

Definition validate_partitioning (p : ScanPlan) : result unit RpcError :=
  try_each (λ _ t,
    if negb (has_field (pt_column t)) then function_error bound "partition transform names unknown column"
    else if valid_transform t then Ok () else function_error bound "invalid partition transform") 0 (default [] (partitioning p)).
Definition validate_sort_order (p : ScanPlan) : result unit RpcError :=
  try_each (λ _ s,
    if has_field (sort_column s) && ordering_names (sort_direction s) (sort_nulls s) then Ok ()
    else function_error bound "invalid sort field") 0 (default [] (sort_order p)).

Definition validate_plan_metadata (p : ScanPlan) : result unit RpcError :=
  let? _ := validate_locations p in
  let? _ := validate_key_grouping p in
  let? _ := validate_range_partitioning p in
  let? _ := validate_partition_bounds p in
  let? _ := validate_partitioning p in
  validate_sort_order p.
End validate.

(** * Planning *)

Definition MAX_PAGES : nat := 1024.
Definition MAX_SPLITS : Z := 1048576.
(** Nanoseconds. *)
Definition MAX_ELAPSED : Z := 300 * 10 ^ 9.

(** The variables of the loop. *)
Record plan_state := mkPlanState {
  st_plan : ScanPlan;
  st_pending : list (option bytes);
  st_pages : nat;
  first_key_grouping : option bytes;
  first_range_partitioning : option bytes;
  key_grouping_consistent : bool;
  range_partitioning_consistent : bool;
}.
Definition initial_state : plan_state := mkPlanState empty_plan [None] 0 None None true true.

(** The continuations of a page: the non-empty cursors. *)
Definition page_cursors (r : PlanResponse) : list bytes := filter (λ c, c ≠ []) (default [] (r_next_cursors r)).
Definition page_has_any_cursor (r : PlanResponse) : bool := match r_next_cursors r with Some (_ :: _) => true | _ => false end.

Section plan.
Context `{IpcStream} {T S X : Type} `{VgiTransport T S X}.
Context `{VgiArrow RequestParams} `{VgiArrow TableFunctionPlanRequest} `{VgiArrow PlanResponse} `{VgiArrow ScanSplit}.
Context `{VgiArrow FieldPath} `{VgiArrow TransformSpec} `{VgiArrow RangeKey} `{VgiArrow KeyGrouping} `{VgiArrow RangePartitioning}.
Context `{VgiArrow PartitionTransform} `{VgiArrow SortField}.
Variable comparator : list (array * (bool * bool)) → result (nat → nat → comparison) string.
(** [started.elapsed()] when the page after that many is due. *)
Variable elapsed : nat → Z.
Variable bound : BoundFunction.
Variable opts : PlanOptions.

(** The whole-scan sentinel is refused where it cannot be the whole plan. *)
Definition sentinel_refused (r : PlanResponse) (split_index : nat) (s : ScanSplit) : bool :=
  match s_token s with
  | [] =>
      negb (split_index =? 0)%nat || negb (length (r_splits r) =? 1)%nat || page_has_any_cursor r || is_some (r_key_grouping r) ||
      is_some (r_range_partitioning r) || match r_partitioning r with Some (_ :: _) => true | _ => false end
  | _ => false
  end.

Definition split_info (split_index : nat) (s : ScanSplit) : result ScanSplitInfo RpcError :=
  let? kv := transpose ((λ v, decode_split_batch v split_index "key_value") <$> s_key_value s) in
  let? cb := transpose ((λ v, decode_split_batch v split_index "column_bounds") <$> s_column_bounds s) in
  let? pb := transpose ((λ v, decode_split_batch v split_index "partition_bounds") <$> s_partition_bounds s) in
  let? cs := transpose ((λ v, decode_split_batch v split_index "column_statistics") <$> s_column_statistics s) in
  Ok (mkSplitInfo (s_token s) (s_estimated_rows s) (s_rows_exact s) (s_estimated_bytes s) kv (s_range_index s) cb pb cs
        (s_location_ids s) (s_start_position s) (s_end_position s)).

(** The loop over a page's blobs. *)
Fixpoint read_splits (r : PlanResponse) (acc : list ScanSplitInfo) (blobs : list bytes) : result (list ScanSplitInfo) RpcError :=
  match blobs with
  | [] => Ok acc
  | blob :: blobs =>
      let split_index := length acc in
      let? split := decode_record blob in
      if sentinel_refused r split_index split then
        function_error bound "the empty-token whole-scan sentinel must be the sole split, with no continuation or distribution claim"
      else
        let? info := split_info split_index split in
        read_splits r (acc ++ [info]) blobs
  end.

(** The facts of the first page. *)
Definition first_page (r : PlanResponse) (p : ScanPlan) : result ScanPlan RpcError :=
  let? kg := decode_plan_record (r_key_grouping r) "key_grouping" in
  let? rp := decode_plan_record (r_range_partitioning r) "range_partitioning" in
  let? parts := decode_plan_items (r_partitioning r) "partitioning" in
  let? sort := decode_plan_items (r_sort_order r) "sort_order" in
  Ok (mkPlan (splits p) (r_execution_id r) (r_init_opaque_data r) (r_max_workers r) (r_estimated_total_splits r)
        (r_estimated_total_rows r) (r_estimated_total_bytes r) (r_catalog_version r)
        (if String.eqb (r_scope r) "" then plan_scope p else r_scope r) (r_locations r) kg rp parts sort
        (r_cache_max_age_seconds r) (r_start_position r) (r_end_position r)).

(** What a page changes; [st_pages] counts it already. *)
Definition read_page (r : PlanResponse) (st : plan_state) : result plan_state RpcError :=
  let is_first := (st_pages st =? 1)%nat in
  let? read := read_splits r (splits (st_plan st)) (r_splits r) in
  let p := with_splits read (st_plan st) in
  if MAX_SPLITS <? Z.of_nat (length (splits p)) then
    function_error bound "worker returned more splits for one scan than the cap; refusing to buffer an unbounded split vector"
  else
    let? p := if is_first then first_page r p else Ok p in
    Ok (mkPlanState p (st_pending st ++ (Some <$> page_cursors r)) (st_pages st)
          (if is_first then r_key_grouping r else first_key_grouping st)
          (if is_first then r_range_partitioning r else first_range_partitioning st)
          (if is_first then key_grouping_consistent st else key_grouping_consistent st && bool_decide (r_key_grouping r = first_key_grouping st))
          (if is_first then range_partitioning_consistent st
           else range_partitioning_consistent st && bool_decide (r_range_partitioning r = first_range_partitioning st))).

Definition fetch_page (c : VgiClient T) (cursor : option bytes) : result PlanResponse RpcError * VgiClient T :=
  match envelope (plan_request bound opts cursor) with
  | Err e => (Err e, c)
  | Ok bs => typed_call c "table_function_plan" (mkRequestParams bs)
  end.

(** The loop over the pending cursors; [None] when the fuel, one per page, ran out. *)
Fixpoint plan_loop (fuel : nat) (st : plan_state) (c : VgiClient T) : option (result plan_state RpcError * VgiClient T) :=
  match fuel with
  | O => None
  | Datatypes.S fuel =>
      match st_pending st with
      | [] => Some (Ok st, c)
      | cursor :: pending =>
          if (MAX_PAGES <=? st_pages st)%nat then
            Some (function_error bound "worker exceeded the scan-planning page cap without exhausting its cursor; refusing to scan a partial split enumeration", c)
          else if MAX_ELAPSED <=? elapsed (st_pages st) then
            Some (function_error bound "scan planning ran past its budget without exhausting its cursor; refusing to scan a partial split enumeration", c)
          else
            let st := mkPlanState (st_plan st) pending (Datatypes.S (st_pages st)) (first_key_grouping st) (first_range_partitioning st)
                        (key_grouping_consistent st) (range_partitioning_consistent st) in
            let '(r, c) := fetch_page c cursor in
            match (let? r := r in read_page r st) with
            | Err e => Some (Err e, c)
            | Ok st => plan_loop fuel st c
            end
      end
  end.

(** Claims the pages did not agree on are dropped. *)
Definition drop_key_grouping (p : ScanPlan) : ScanPlan :=
  mkPlan ((λ s, mkSplitInfo (token s) (estimated_rows s) (rows_exact s) (estimated_bytes s) None (range_index s) (column_bounds s)
                  (partition_bounds s) (column_statistics s) (location_ids s) (split_start s) (split_end s)) <$> splits p)
    (plan_execution_id p) (plan_init_opaque_data p) (max_workers p) (estimated_total_splits p) (estimated_total_rows p)
    (estimated_total_bytes p) (catalog_version p) (plan_scope p) (locations p) None (range_partitioning p)
    (partitioning p) (sort_order p) (cache_max_age_seconds p) (plan_start p) (plan_end p).
Definition drop_range_partitioning (p : ScanPlan) : ScanPlan :=
  mkPlan ((λ s, mkSplitInfo (token s) (estimated_rows s) (rows_exact s) (estimated_bytes s) (key_value s) None (column_bounds s)
                  (partition_bounds s) (column_statistics s) (location_ids s) (split_start s) (split_end s)) <$> splits p)
    (plan_execution_id p) (plan_init_opaque_data p) (max_workers p) (estimated_total_splits p) (estimated_total_rows p)
    (estimated_total_bytes p) (catalog_version p) (plan_scope p) (locations p) (key_grouping p) None
    (partitioning p) (sort_order p) (cache_max_age_seconds p) (plan_start p) (plan_end p).

Definition finish_plan (st : plan_state) : result ScanPlan RpcError :=
  let p := st_plan st in
  let p := if key_grouping_consistent st then p else drop_key_grouping p in
  let p := if range_partitioning_consistent st then p else drop_range_partitioning p in
  let? _ := validate_plan_metadata comparator bound p in
  Ok p.

Definition plan (c : VgiClient T) : option (result ScanPlan RpcError * VgiClient T) :=
  '(r, c) ← plan_loop (Datatypes.S MAX_PAGES) initial_state c;
  Some (let? st := r in finish_plan st, c).
End plan.
