(* ===== verification/ClientPlanFacts.v ===== *)
(** What planning guarantees ([ClientPlan]): it always ends, a plan it returns holds
    every split of every page the worker's cursors lead to, an enumeration within
    the caps is returned, and the claims of a returned plan hold of its splits. *)
From S2P Require Import Prelude Codec Float64 Arrow SqlCompare Ipc Wire ClientArguments ClientScan ClientPlan.

Open Scope Z_scope.

(** * Loops with early returns *)

Lemma try_each_ok {A} (f : nat → A → result unit RpcError) i l :
  try_each f i l = Ok () ↔ ∀ k a, l !! k = Some a → f (i + k)%nat a = Ok ().
Proof.
  induction l as [|a l IH] in i |- *; cbn [try_each]; [by split|]. destruct (f i a) as [[]|e] eqn:E.
  - rewrite IH. split.
    + intros Hl [|k] b; cbn; [intros [= <-]; by rewrite Nat.add_0_r|]. intros Hk. rewrite Nat.add_succ_r. by apply (Hl k b Hk).
    + intros Hl k b Hk. specialize (Hl (S k) b Hk). by rewrite Nat.add_succ_r in Hl.
  - split; [done|]. intros Hl. specialize (Hl 0%nat a eq_refl). rewrite Nat.add_0_r in Hl. congruence.
Qed.

Lemma try_each_elem {A} (f : nat → A → result unit RpcError) l a : try_each f 0 l = Ok () → a ∈ l → ∃ i, l !! i = Some a ∧ f i a = Ok ().
Proof. intros H (i & Hi)%list_elem_of_lookup. exists i. split; [done|]. by apply (proj1 (try_each_ok f 0 l) H). Qed.

Lemma refuse_any_ok {A} (p : A → bool) err l : (∀ i, err i ≠ Ok ()) → refuse_any p err l = Ok () → Forall (λ a, p a = false) l.
Proof.
  intros Herr H. apply Forall_forall. intros a Ha. destruct (try_each_elem _ _ _ H Ha) as (i & _ & Hi). cbn in Hi.
  destruct (p a); [by apply Herr in Hi|done].
Qed.

Lemma function_error_not_ok {A} b msg (a : A) : function_error b msg ≠ Ok a.
Proof. done. Qed.

(** * Claims *)

Section valid.
Context `{IpcStream} `{VgiArrow FieldPath} `{VgiArrow TransformSpec} `{VgiArrow RangeKey}.
Variable comparator : list (array * (bool * bool)) → result (nat → nat → comparison) string.
Variable bound : BoundFunction.

(** Bounds are a (min, max) pair over output columns of their types. *)
Definition bounds_valid (b : RecordBatch) : Prop :=
  num_rows b = 2%nat ∧ ∀ f, f ∈ schema b → ∃ i g, find_field (name f) (output_schema bound) = Some (i, g) ∧ data_type g = data_type f.

(** What a plan's claims mean for its splits. *)
Record plan_valid (p : ScanPlan) : Prop := {
  valid_locations s ids l : s ∈ splits p → location_ids s = Some ids → l ∈ ids →
    ∃ ls, locations p = Some ls ∧ 0 ≤ l < Z.of_nat (length ls);
  valid_keys g s : key_grouping p = Some g → s ∈ splits p →
    ∃ kv, key_value s = Some kv ∧ num_rows kv = 1%nat ∧ length (columns kv) = length (grouping_keys g);
  valid_no_keys s : key_grouping p = None → s ∈ splits p → key_value s = None;
  valid_ranges r : range_partitioning p = Some r →
    ∃ points keys compare, read_batch (split_points r) = Ok points ∧ length (columns points) = length (range_keys r) ∧
      length keys = length (range_keys r) ∧ comparator (zip (columns points) keys) = Ok compare ∧
      (∀ row, (1 ≤ row < num_rows points)%nat → compare (row - 1)%nat row = Lt) ∧
      (∀ s, s ∈ splits p → ∃ i, range_index s = Some i ∧ 0 ≤ i ≤ Z.of_nat (num_rows points));
  valid_no_ranges s : range_partitioning p = None → s ∈ splits p → range_index s = None;
  valid_partitioned t ts s : partitioning p = Some (t :: ts) → s ∈ splits p → is_Some (partition_bounds s);
  valid_column_bounds s b : s ∈ splits p → column_bounds s = Some b → bounds_valid b;
  valid_partition_bounds s b : s ∈ splits p → partition_bounds s = Some b → bounds_valid b;
  valid_transforms ts t : partitioning p = Some ts → t ∈ ts → has_field bound (pt_column t) = true ∧ valid_transform t = true;
  valid_sort ss s : sort_order p = Some ss → s ∈ ss → has_field bound (sort_column s) = true;
}.

Lemma index_below_spec v n : index_below v n = true ↔ 0 ≤ v < Z.of_nat n.
Proof. unfold index_below. rewrite andb_true_iff, Z.leb_le, Z.ltb_lt. done. Qed.

Lemma try_map_length {A B} (f : nat → A → result B RpcError) i l r : try_map f i l = Ok r → length r = length l.
Proof.
  induction l as [|a l IH] in i, r |- *; cbn; [by intros [= <-]|]. destruct (f i a); [|done]. destruct (try_map f (S i) l) eqn:E; [|done].
  intros [= <-]. cbn. f_equal. by eapply IH.
Qed.

Lemma validate_bounds_ok b i n : validate_bounds bound b i n = Ok () → bounds_valid b.
Proof.
  unfold validate_bounds. destruct (Nat.eqb_spec (num_rows b) 2) as [E|]; [|done]. cbn [negb]. intros Ht. split; [done|].
  intros f Hf. destruct (try_each_elem _ _ _ Ht Hf) as (k & _ & Hk). cbn in Hk. destruct (find_field _ _) as [[j g]|]; [|done].
  case_decide; [|done]. by exists j, g.
Qed.

Lemma validate_locations_ok p : validate_locations bound p = Ok () →
  ∀ s ids l, s ∈ splits p → location_ids s = Some ids → l ∈ ids → ∃ ls, locations p = Some ls ∧ 0 ≤ l < Z.of_nat (length ls).
Proof.
  unfold validate_locations. intros Hv s ids l Hs Hids Hl. destruct (locations p) as [ls|].
  - exists ls. split; [done|]. destruct (try_each_elem _ _ _ Hv Hs) as (i & _ & Hi). cbn in Hi. rewrite Hids in Hi. cbn in Hi.
    destruct (try_each_elem _ _ _ Hi Hl) as (j & _ & Hj). cbn in Hj. destruct (index_below l (length ls)) eqn:E; [|done]. by apply index_below_spec.
  - apply refuse_any_ok in Hv; [|done]. rewrite Forall_forall in Hv. specialize (Hv s Hs). by rewrite Hids in Hv.
Qed.

Lemma validate_key_grouping_ok p : validate_key_grouping bound p = Ok () →
  (∀ g s, key_grouping p = Some g → s ∈ splits p → ∃ kv, key_value s = Some kv ∧ num_rows kv = 1%nat ∧ length (columns kv) = length (grouping_keys g)) ∧
  (∀ s, key_grouping p = None → s ∈ splits p → key_value s = None).
Proof.
  unfold validate_key_grouping. intros Hv. split.
  - intros g s Hg Hs. rewrite Hg in Hv. destruct (grouping_keys g) as [|k ks] eqn:Ek; [done|]. rewrite <- Ek in *.
    destruct (try_map _ 0 (grouping_keys g)) as [types|]; [|done]. destruct (try_each_elem _ _ _ Hv Hs) as (i & _ & Hi). cbn in Hi.
    destruct (key_value s) as [kv|]; [|done]. destruct (Nat.eqb_spec (num_rows kv) 1); [|done].
    destruct (Nat.eqb_spec (length (columns kv)) (length (grouping_keys g))); [|done]. by exists kv.
  - intros s Hg Hs. rewrite Hg in Hv. apply refuse_any_ok in Hv; [|done]. rewrite Forall_forall in Hv. specialize (Hv s Hs). by destruct (key_value s).
Qed.

Lemma validate_range_ok p : validate_range_partitioning comparator bound p = Ok () →
  (∀ r, range_partitioning p = Some r → ∃ points keys compare, read_batch (split_points r) = Ok points ∧
      length (columns points) = length (range_keys r) ∧ length keys = length (range_keys r) ∧ comparator (zip (columns points) keys) = Ok compare ∧
      (∀ row, (1 ≤ row < num_rows points)%nat → compare (row - 1)%nat row = Lt) ∧
      (∀ s, s ∈ splits p → ∃ i, range_index s = Some i ∧ 0 ≤ i ≤ Z.of_nat (num_rows points))) ∧
  (∀ s, range_partitioning p = None → s ∈ splits p → range_index s = None).
Proof.
  unfold validate_range_partitioning. intros Hv. split.
  - intros r Hr. rewrite Hr in Hv. destruct (range_keys r) as [|k ks] eqn:Ek; [done|]. rewrite <- Ek in *.
    destruct (try_map (validate_range_key bound) 0 (range_keys r)) as [keys|] eqn:Et; [|done].
    destruct (read_batch (split_points r)) as [points|]; [|done]. cbn [map_err] in Hv.
    destruct (Nat.eqb_spec (length (columns points)) (length (range_keys r))) as [Ew|]; [|done]. cbn [negb] in Hv.
    destruct (check_columns points keys.*1 _) as [[]|]; [|done]. destruct (comparator _) as [compare|] eqn:Ec; [|done]. cbn [map_err] in Hv.
    destruct (try_each _ 0 (seq 1 _)) as [[]|] eqn:Es; [|done]. exists points, keys.*2, compare. split_and!; [done|done| |done|..].
    + rewrite length_fmap. by eapply try_map_length.
    + intros row Hrow. destruct (try_each_elem _ _ row Es) as (j & _ & Hj); [apply elem_of_seq; lia|]. cbn in Hj. by destruct (compare _ _).
    + intros s Hs. destruct (try_each_elem _ _ _ Hv Hs) as (i & _ & Hi). cbn in Hi. destruct (range_index s) as [v|]; [|done].
      destruct (index_below v _) eqn:E; [|done]. apply index_below_spec in E. exists v. split; [done|]. lia.
  - intros s Hr Hs. rewrite Hr in Hv. apply refuse_any_ok in Hv; [|done]. rewrite Forall_forall in Hv. specialize (Hv s Hs). by destruct (range_index s).
Qed.

Lemma validate_partition_bounds_ok p : validate_partition_bounds bound p = Ok () →
  (∀ t ts s, partitioning p = Some (t :: ts) → s ∈ splits p → is_Some (partition_bounds s)) ∧
  (∀ s b, s ∈ splits p → column_bounds s = Some b → bounds_valid b) ∧ (∀ s b, s ∈ splits p → partition_bounds s = Some b → bounds_valid b).
Proof.
  unfold validate_partition_bounds. destruct (_ && existsb _ (splits p)) eqn:E; [done|]. intros Hv. split_and!.
  - intros t ts s Hp Hs. rewrite Hp in E. cbn [andb] in E. destruct (partition_bounds s) eqn:Eb; [by eexists|].
    exfalso. assert (existsb (λ s, negb (is_some (partition_bounds s))) (splits p) = true); [|congruence].
    apply existsb_exists. exists s. split; [by apply list_elem_of_In|]. by rewrite Eb.
  - intros s b Hs Hb. destruct (try_each_elem _ _ _ Hv Hs) as (i & _ & Hi). cbn in Hi. rewrite Hb in Hi.
    destruct (validate_bounds bound b i "column_bounds") as [[]|] eqn:Eb; [|done]. by eapply validate_bounds_ok.
  - intros s b Hs Hb. destruct (try_each_elem _ _ _ Hv Hs) as (i & _ & Hi). cbn in Hi.
    destruct (match column_bounds s with Some _ => _ | None => _ end); [|done]. rewrite Hb in Hi. by eapply validate_bounds_ok.
Qed.

Lemma validated p : validate_plan_metadata comparator bound p = Ok () → plan_valid p.
Proof.
  unfold validate_plan_metadata. destruct (validate_locations bound p) as [[]|] eqn:E1; [|done].
  destruct (validate_key_grouping bound p) as [[]|] eqn:E2; [|done].
  destruct (validate_range_partitioning comparator bound p) as [[]|] eqn:E3; [|done].
  destruct (validate_partition_bounds bound p) as [[]|] eqn:E4; [|done].
  destruct (validate_partitioning bound p) as [[]|] eqn:E5; [|done]. intros E6.
  destruct (validate_key_grouping_ok _ E2), (validate_range_ok _ E3), (validate_partition_bounds_ok _ E4) as (? & ? & ?).
  split; try done.
  - by apply validate_locations_ok.
  - intros ts t Hts Ht. unfold validate_partitioning in E5. rewrite Hts in E5. destruct (try_each_elem _ _ _ E5 Ht) as (i & _ & Hi). cbn in Hi.
    destruct (has_field bound (pt_column t)); [|done]. cbn in Hi. by destruct (valid_transform t).
  - intros ss s Hss Hs. unfold validate_sort_order in E6. rewrite Hss in E6. destruct (try_each_elem _ _ _ E6 Hs) as (i & _ & Hi). cbn in Hi.
    by destruct (has_field bound (sort_column s)).
Qed.
End valid.

(** * The enumeration *)

Section plan.
Context `{IpcStream} {T S X : Type} `{VgiTransport T S X}.
Context `{VgiArrow RequestParams} `{VgiArrow TableFunctionPlanRequest} `{VgiArrow PlanResponse} `{VgiArrow ScanSplit}.
Context `{VgiArrow FieldPath} `{VgiArrow TransformSpec} `{VgiArrow RangeKey} `{VgiArrow KeyGrouping} `{VgiArrow RangePartitioning}.
Context `{VgiArrow PartitionTransform} `{VgiArrow SortField}.
Variable comparator : list (array * (bool * bool)) → result (nat → nat → comparison) string.
Variable elapsed : nat → Z.
Variable bound : BoundFunction.
Variable opts : PlanOptions.

(** The continuations a page names: its cursors that are not empty. *)
Definition continuations (r : PlanResponse) : list bytes := filter (λ c, c ≠ []) (default [] (r_next_cursors r)).

(** The pages the worker gives when every continuation of every page is followed, in
    the order they were named. *)
Inductive enumerates : VgiClient T → list (option bytes) → list (option bytes * PlanResponse) → VgiClient T → Prop :=
| enumerates_done c : enumerates c [] [] c
| enumerates_page c cursor pending r c1 pages c2 : fetch_page bound opts c cursor = (Ok r, c1) →
    enumerates c1 (pending ++ (Some <$> continuations r)) pages c2 → enumerates c (cursor :: pending) ((cursor, r) :: pages) c2.

(** Every cursor a page names is asked for, once. *)
Lemma enumerates_cursors c q pages c' : enumerates c q pages c' → pages.*1 = q ++ (Some <$> (pages.*2 ≫= continuations)).
Proof.
  induction 1 as [|c cursor pending r c1 pages c2 _ _ IH]; [done|]. cbn [fmap list_fmap fst snd app]. f_equal.
  change (list_fmap _ _ fst pages) with (pages.*1). rewrite IH, <- app_assoc. f_equal. cbn. by rewrite fmap_app.
Qed.

(** What the pages, one after another, make of the plan. *)
Definition next_page (st : plan_state) : plan_state :=
  mkPlanState (st_plan st) (tail (st_pending st)) (Datatypes.S (st_pages st)) (first_key_grouping st) (first_range_partitioning st)
    (key_grouping_consistent st) (range_partitioning_consistent st).
Fixpoint read_pages (pages : list PlanResponse) (st : plan_state) : result plan_state RpcError :=
  match pages with
  | [] => Ok st
  | r :: pages => let? st := read_page bound r (next_page st) in read_pages pages st
  end.

Lemma read_page_queue r st st' : read_page bound r st = Ok st' →
  st_pending st' = st_pending st ++ (Some <$> continuations r) ∧ st_pages st' = st_pages st.
Proof.
  unfold read_page. destruct (read_splits _ _ _ _) as [l|]; [|done]. destruct (_ <? _); [done|].
  destruct (if (st_pages st =? 1)%nat then _ else _) as [p|]; [|done]. by intros [= <-].
Qed.

(** The loop ends within its fuel. *)
Lemma plan_loop_total fuel st c : (st_pages st ≤ MAX_PAGES)%nat → (MAX_PAGES < fuel + st_pages st)%nat →
  is_Some (plan_loop elapsed bound opts fuel st c).
Proof.
  induction fuel as [|fuel IH] in st, c |- *; intros Hp Hf; [lia|]. cbn [plan_loop]. destruct (st_pending st) as [|cursor pending]; [by eexists|].
  destruct (Nat.leb_spec MAX_PAGES (st_pages st)); [by eexists|]. destruct (_ <=? _); [by eexists|].
  destruct (fetch_page bound opts c cursor) as [[r|e] c1]; [|by eexists].
  destruct (read_page _ _ _) as [st'|] eqn:E; [|by eexists]. apply read_page_queue in E as [_ E]. cbn in E. apply IH; lia.
Qed.

(** It returns a plan exactly when the whole enumeration was read in time. *)
Lemma plan_loop_ok fuel st c st' c' : plan_loop elapsed bound opts fuel st c = Some (Ok st', c') →
  ∃ pages, enumerates c (st_pending st) pages c' ∧ read_pages pages.*2 st = Ok st' ∧
    (pages = [] ∨ (st_pages st + length pages ≤ MAX_PAGES)%nat) ∧
    ∀ n, (n < length pages)%nat → elapsed (st_pages st + n) < MAX_ELAPSED.
Proof.
  induction fuel as [|fuel IH] in st, c |- *; [done|]. cbn [plan_loop]. destruct (st_pending st) as [|cursor pending] eqn:Eq.
  { intros [= <- <-]. exists []. split_and!; [constructor|done|by left|cbn; lia]. }
  destruct (Nat.leb_spec MAX_PAGES (st_pages st)); [done|]. destruct (Z.leb_spec MAX_ELAPSED (elapsed (st_pages st))) as [|Hel]; [done|].
  destruct (fetch_page bound opts c cursor) as [[r|e] c1] eqn:Ef; [|done].
  destruct (read_page bound r _) as [st1|] eqn:Er; [|done]. intros Hl. pose proof (read_page_queue _ _ _ Er) as [Q1 Q2]. cbn [st_pending st_pages] in Q1, Q2.
  destruct (IH st1 c1 Hl) as (pages & P1 & P2 & P3 & P4). rewrite Q1 in P1. rewrite Q2 in P3, P4. exists ((cursor, r) :: pages). split_and!.
  - by econstructor.
  - cbn [fmap list_fmap snd read_pages]. unfold next_page. rewrite Eq. cbn [tail]. by rewrite Er.
  - right. cbn. destruct P3 as [->|P3]; cbn in *; lia.
  - intros [|n] Hn; [by rewrite Nat.add_0_r|]. rewrite Nat.add_succ_r. apply (P4 n). cbn in Hn. lia.
Qed.

Lemma plan_loop_complete c q pages c' : enumerates c q pages c' → ∀ fuel st st', st_pending st = q → read_pages pages.*2 st = Ok st' →
  (st_pages st + length pages ≤ MAX_PAGES)%nat → (length pages < fuel)%nat →
  (∀ n, (n < length pages)%nat → elapsed (st_pages st + n) < MAX_ELAPSED) →
  plan_loop elapsed bound opts fuel st c = Some (Ok st', c').
Proof.
  induction 1 as [c|c cursor pending r c1 pages c2 Hf He IH]; intros [|fuel] st st' Hq Hr Hp Hl Ht; try (cbn in Hl; lia); cbn [plan_loop]; rewrite Hq.
  { by injection Hr as ->. }
  cbn [length] in *. destruct (Nat.leb_spec MAX_PAGES (st_pages st)); [lia|].
  pose proof (Ht 0%nat ltac:(lia)) as Hz. rewrite Nat.add_0_r in Hz. destruct (Z.leb_spec MAX_ELAPSED (elapsed (st_pages st))); [lia|].
  rewrite Hf. cbn [fmap list_fmap snd read_pages] in Hr. unfold next_page in Hr. rewrite Hq in Hr. cbn [tail] in Hr.
  destruct (read_page bound r _) as [st1|] eqn:Er; [|done]. pose proof (read_page_queue _ _ _ Er) as [Q1 Q2]. cbn [st_pending st_pages] in Q1, Q2.
  apply IH; [done|done|lia|lia|]. intros n Hn. rewrite Q2. specialize (Ht (Datatypes.S n)). rewrite Nat.add_succ_r in Ht. apply Ht. lia.
Qed.

(** * What the pages leave in the plan *)

(** A split as the worker described it; what distribution claims it makes may have
    been dropped with the plan's. *)
Definition same_split (s : ScanSplit) (i : ScanSplitInfo) : Prop :=
  token i = s_token s ∧ estimated_rows i = s_estimated_rows s ∧ rows_exact i = s_rows_exact s ∧ estimated_bytes i = s_estimated_bytes s ∧
  location_ids i = s_location_ids s ∧ split_start i = s_start_position s ∧ split_end i = s_end_position s.
Definition splits_of (blobs : list bytes) (l : list ScanSplitInfo) : Prop :=
  Forall2 (λ blob i, ∃ s, decode_record blob = Ok s ∧ same_split s i) blobs l.

Lemma read_splits_ok r acc blobs l : read_splits bound r acc blobs = Ok l → ∃ new, l = acc ++ new ∧ splits_of blobs new.
Proof.
  induction blobs as [|blob blobs IH] in acc |- *; cbn [read_splits].
  { intros [= <-]. exists []. split; [by rewrite app_nil_r|constructor]. }
  destruct (decode_record blob) as [s|] eqn:Ed; [|done]. destruct (sentinel_refused _ _ _); [done|].
  destruct (split_info (length acc) s) as [i|] eqn:Ei; [|done]. intros (new & -> & Hn)%IH. exists (i :: new).
  split; [by rewrite <- app_assoc|]. constructor; [|done]. exists s. split; [done|]. unfold split_info in Ei.
  repeat match type of Ei with (let? _ := ?e in _) = _ => destruct e; [|done] end. by injection Ei as <-.
Qed.

(** The plan after the first page, and the agreement of the others with it. *)
Record page_facts (first : PlanResponse) (seen : list PlanResponse) (st : plan_state) : Prop := {
  pf_splits : splits_of (seen ≫= r_splits) (splits (st_plan st));
  pf_bound : Z.of_nat (length (splits (st_plan st))) ≤ MAX_SPLITS;
  pf_exec : plan_execution_id (st_plan st) = r_execution_id first ∧ plan_init_opaque_data (st_plan st) = r_init_opaque_data first;
  pf_workers : max_workers (st_plan st) = r_max_workers first;
  pf_scope : plan_scope (st_plan st) = if String.eqb (r_scope first) "" then "catalog" else r_scope first;
  pf_first : first_key_grouping st = r_key_grouping first ∧ first_range_partitioning st = r_range_partitioning first;
  pf_keys : key_grouping_consistent st = true → Forall (λ r, r_key_grouping r = r_key_grouping first) seen;
  pf_ranges : range_partitioning_consistent st = true → Forall (λ r, r_range_partitioning r = r_range_partitioning first) seen;
}.

Lemma splits_of_app a b l m : splits_of a l → splits_of b m → splits_of (a ++ b) (l ++ m).
Proof. apply Forall2_app. Qed.

Lemma read_first_page r st : read_page bound r (next_page initial_state) = Ok st → page_facts r [r] st ∧ st_pages st = 1%nat.
Proof.
  unfold read_page. destruct (read_splits _ _ _ _) as [l|] eqn:El; [|done]. cbn [st_pages next_page initial_state].
  destruct (Z.ltb_spec MAX_SPLITS (Z.of_nat (length l))) as [|Hl]; [cbn; by destruct (Z.ltb_spec MAX_SPLITS (Z.of_nat (length l))); [|lia]|].
  cbn [with_splits splits st_plan]. destruct (Z.ltb_spec MAX_SPLITS (Z.of_nat (length l))); [lia|].
  cbn [Nat.eqb]. unfold first_page. repeat match goal with |- (let? _ := (let? _ := ?e in _) in _) = _ → _ => destruct e; [|done] end.
  intros [= <-]. split; [|done]. apply read_splits_ok in El as (new & -> & Hn). split; cbn; try done.
  - by rewrite app_nil_r.
  - intros _. by repeat constructor.
  - intros _. by repeat constructor.
Qed.

Lemma read_next_page first seen r st st' : page_facts first seen st → (1 ≤ st_pages st)%nat → read_page bound r (next_page st) = Ok st' →
  page_facts first (seen ++ [r]) st' ∧ (1 ≤ st_pages st')%nat.
Proof.
  intros F Hp E. pose proof (read_page_queue _ _ _ E) as [_ Q2]. cbn [st_pages next_page] in Q2. split; [|lia]. revert E.
  unfold read_page. destruct (read_splits _ _ _ _) as [l|] eqn:El; [|done]. cbn [st_pages next_page st_plan with_splits splits].
  destruct (Z.ltb_spec MAX_SPLITS (Z.of_nat (length l))) as [|Hl]; [done|].
  destruct (Nat.eqb_spec (Datatypes.S (st_pages st)) 1); [lia|]. intros [= <-]. cbn [st_plan next_page] in El.
  apply read_splits_ok in El as (new & -> & Hn). destruct F as [F1 F2 F3 F4 F5 [F6 F7] F8 F9].
  split; cbn [st_plan splits with_splits plan_execution_id plan_init_opaque_data max_workers plan_scope first_key_grouping first_range_partitioning
              key_grouping_consistent range_partitioning_consistent next_page]; try done.
  - rewrite bind_app. cbn. rewrite app_nil_r. by apply splits_of_app.
  - intros [Hk He]%andb_true_iff. apply Forall_app. split; [auto|]. constructor; [|constructor]. rewrite <- F6. by apply bool_decide_eq_true in He.
  - intros [Hk He]%andb_true_iff. apply Forall_app. split; [auto|]. constructor; [|constructor]. rewrite <- F7. by apply bool_decide_eq_true in He.
Qed.

Lemma read_pages_facts first seen pages st st' : page_facts first seen st → (1 ≤ st_pages st)%nat → read_pages pages st = Ok st' →
  page_facts first (seen ++ pages) st'.
Proof.
  induction pages as [|r pages IH] in seen, st |- *; intros F Hp; cbn [read_pages]; [intros [= <-]; by rewrite app_nil_r|].
  destruct (read_page bound r (next_page st)) as [st1|] eqn:E; [|done]. destruct (read_next_page _ _ _ _ _ F Hp E) as [F1 P1].
  intros Hr. rewrite (cons_middle r seen), app_assoc. by eapply IH.
Qed.

(** Dropping a claim keeps the splits. *)
Lemma splits_of_fmap f blobs l : (∀ s i, same_split s i → same_split s (f i)) → splits_of blobs l → splits_of blobs (f <$> l).
Proof. intros Hf F. apply Forall2_fmap_r. eapply Forall2_impl; [exact F|]. intros b i (s & ? & ?). exists s. cbn. auto. Qed.

Lemma finish_plan_ok first seen st p : page_facts first seen st → finish_plan comparator bound st = Ok p →
  splits_of (seen ≫= r_splits) (splits p) ∧ Z.of_nat (length (splits p)) ≤ MAX_SPLITS ∧
  plan_execution_id p = r_execution_id first ∧ plan_init_opaque_data p = r_init_opaque_data first ∧ max_workers p = r_max_workers first ∧
  plan_scope p = (if String.eqb (r_scope first) "" then "catalog" else r_scope first) ∧
  (is_Some (key_grouping p) → Forall (λ r, r_key_grouping r = r_key_grouping first) seen) ∧
  (is_Some (range_partitioning p) → Forall (λ r, r_range_partitioning r = r_range_partitioning first) seen) ∧
  plan_valid comparator bound p.
Proof.
  intros [F1 F2 [F3 F4] F5 F6 _ F8 F9]. unfold finish_plan. set (p1 := if key_grouping_consistent st then _ else _).
  set (p2 := if range_partitioning_consistent st then _ else _). destruct (validate_plan_metadata _ _ p2) as [[]|] eqn:Ev; [|done].
  intros [= <-]. apply validated in Ev.
  assert (splits_of (seen ≫= r_splits) (splits p2) ∧ length (splits p2) = length (splits (st_plan st))) as [G1 G2].
  { unfold p2, p1. destruct (key_grouping_consistent st), (range_partitioning_consistent st); cbn [drop_key_grouping drop_range_partitioning splits];
      rewrite ?length_fmap; (split; [|done]); repeat apply splits_of_fmap; done. }
  split_and!; [done|by rewrite G2|..]; try done.
  all: try (unfold p2, p1; destruct (key_grouping_consistent st), (range_partitioning_consistent st); done).
  - intros Hk. apply F8. revert Hk. unfold p2, p1. destruct (key_grouping_consistent st), (range_partitioning_consistent st); [done|done|by intros [? ?]..].
  - intros Hk. apply F9. revert Hk. unfold p2, p1. destruct (key_grouping_consistent st), (range_partitioning_consistent st); try done; by intros [? ?].
Qed.

(** C10: A plan the client returns is never a part of what the worker offered: it
    holds every split of every page, in order and unchanged; every continuation any
    page named was asked for, exactly once; there were at most 1024 pages and the plan
    has at most 1048576 splits; its context is the first page's; a distribution claim
    survives only if every page made it, and what it claims holds of the splits. *)
Theorem plan_exhaustive c p c' : plan comparator elapsed bound opts c = Some (Ok p, c') →
  ∃ first rest, let pages := (None, first) :: rest in
    enumerates c [None] pages c' ∧ pages.*1 = None :: (Some <$> (pages.*2 ≫= continuations)) ∧ (length pages ≤ MAX_PAGES)%nat ∧
    splits_of (pages.*2 ≫= r_splits) (splits p) ∧ Z.of_nat (length (splits p)) ≤ MAX_SPLITS ∧
    plan_execution_id p = r_execution_id first ∧ plan_init_opaque_data p = r_init_opaque_data first ∧ max_workers p = r_max_workers first ∧
    plan_scope p = (if String.eqb (r_scope first) "" then "catalog" else r_scope first) ∧
    (is_Some (key_grouping p) → Forall (λ r, r_key_grouping r = r_key_grouping first) pages.*2) ∧
    (is_Some (range_partitioning p) → Forall (λ r, r_range_partitioning r = r_range_partitioning first) pages.*2) ∧
    plan_valid comparator bound p.
Proof.
  unfold plan. destruct (plan_loop elapsed bound opts _ initial_state c) as [[r c1]|] eqn:El; [|done]. cbn [mbind option_bind].
  intros [= Hf <-]. destruct r as [st|]; [|done]. destruct (plan_loop_ok _ _ _ _ _ El) as (pages & P1 & P2 & P3 & _).
  pose proof (enumerates_cursors _ _ _ _ P1) as Hc. inversion P1 as [|? ? ? first c2 rest ? Hfetch Hrest]; subst.
  exists first, rest. cbv zeta. destruct P3 as [?|P3]; [done|].
  cbn [fmap list_fmap snd read_pages] in P2. destruct (read_page bound first (next_page initial_state)) as [st1|] eqn:E1; [|done].
  destruct (read_first_page _ _ E1) as [F1 Q1]. pose proof (read_pages_facts _ _ _ _ _ F1 ltac:(lia) P2) as F.
  destruct (finish_plan_ok _ _ _ _ F Hf) as (G1 & G2 & G3 & G4 & G5 & G6 & G7 & G8 & G9). split_and!; done.
Qed.

(** C38: Planning always ends, whatever the worker answers: and an enumeration of at
    most 1024 pages, each fetched before the time limit, whose pages can be read one
    after the other and whose accumulated metadata passes the final check, is returned
    as the plan of those pages. *)
Theorem plan_answers c : is_Some (plan comparator elapsed bound opts c) ∧
  ∀ pages c' st p, enumerates c [None] pages c' → (length pages ≤ MAX_PAGES)%nat →
    (∀ n, (n < length pages)%nat → elapsed n < MAX_ELAPSED) → read_pages pages.*2 initial_state = Ok st →
    finish_plan comparator bound st = Ok p →
    plan comparator elapsed bound opts c = Some (Ok p, c').
Proof.
  unfold plan. split.
  - destruct (plan_loop_total (Datatypes.S MAX_PAGES) initial_state c) as [[r c'] ->]; [cbn [st_pages initial_state]; lia..|]. by eexists.
  - intros pages c' st p He Hl Ht Hr <-.
    rewrite (plan_loop_complete _ _ _ _ He (Datatypes.S MAX_PAGES) initial_state st eq_refl Hr); [done|cbn [st_pages initial_state]; lia|lia|done].
Qed.
End plan.

(** * Examples *)

Section examples.
#[local] Existing Instance text_stream.
#[local] Existing Instance ser_arrow.

#[local] Instance Ser_int : Ser Z :=
  ser_via (λ z, (z <? 0, Z.abs_nat z)) (λ x : bool * nat, if x.1 then - Z.of_nat x.2 else Z.of_nat x.2)
    ltac:(abstract (intros z; cbn; destruct (Z.ltb_spec z 0); lia)).
#[local] Instance Ser_params : Ser RequestParams := ser_via request mkRequestParams (λ r, match r with mkRequestParams _ => eq_refl end).
#[local] Instance Ser_path : Ser FieldPath := ser_via components mkFieldPath (λ r, match r with mkFieldPath _ => eq_refl end).
#[local] Instance Ser_transform : Ser TransformSpec :=
  ser_via (λ t, (id t, inputs t, parameters t)) (λ x, mkTransform x.1.1 x.1.2 x.2) (λ r, match r with mkTransform _ _ _ => eq_refl end).
#[local] Instance Ser_range_key : Ser RangeKey :=
  ser_via (λ t, (key_transform t, key_direction t, key_null_order t)) (λ x, mkRangeKey x.1.1 x.1.2 x.2) (λ r, match r with mkRangeKey _ _ _ => eq_refl end).
#[local] Instance Ser_grouping : Ser KeyGrouping := ser_via grouping_keys mkKeyGrouping (λ r, match r with mkKeyGrouping _ => eq_refl end).
#[local] Instance Ser_range : Ser RangePartitioning :=
  ser_via (λ t, (range_keys t, split_points t)) (λ x, mkRange x.1 x.2) (λ r, match r with mkRange _ _ => eq_refl end).
#[local] Instance Ser_partition : Ser PartitionTransform :=
  ser_via (λ t, (pt_column t, pt_transform t, pt_param t)) (λ x, mkPartitionTransform x.1.1 x.1.2 x.2)
    (λ r, match r with mkPartitionTransform _ _ _ => eq_refl end).
#[local] Instance Ser_sort : Ser SortField :=
  ser_via (λ t, (sort_column t, sort_direction t, sort_nulls t)) (λ x, mkSortField x.1.1 x.1.2 x.2)
    (λ r, match r with mkSortField _ _ _ => eq_refl end).
#[local] Instance Ser_split : Ser ScanSplit :=
  ser_via (λ s, (s_payload s, s_token s, s_estimated_rows s, s_rows_exact s, s_estimated_bytes s, s_key_value s, s_range_index s,
                 s_column_bounds s, s_partition_bounds s, s_column_statistics s, s_location_ids s, s_start_position s, s_end_position s))
    (λ x, let '(a, b, c, d, e, f, g, h, i, j, k, l, m) := x in mkSplit a b c d e f g h i j k l m)
    (λ r, match r with mkSplit _ _ _ _ _ _ _ _ _ _ _ _ _ => eq_refl end).
#[local] Instance Ser_response : Ser PlanResponse :=
  ser_via (λ r, (r_splits r, r_next_cursors r, r_execution_id r, r_init_opaque_data r, r_max_workers r, r_estimated_total_splits r,
                 r_estimated_total_rows r, r_estimated_total_bytes r, r_catalog_version r, r_scope r, r_locations r, r_key_grouping r,
                 r_range_partitioning r, r_partitioning r, r_sort_order r, r_cache_max_age_seconds r, r_start_position r, r_end_position r))
    (λ x, let '(a, b, c, d, e, f, g, h, i, j, k, l, m, n, o, p, q, r) := x in mkPlanResponse a b c d e f g h i j k l m n o p q r)
    (λ r, match r with mkPlanResponse _ _ _ _ _ _ _ _ _ _ _ _ _ _ _ _ _ _ => eq_refl end).
(** Of a request, the example worker reads nothing. *)
#[local] Instance const_request : VgiArrow TableFunctionPlanRequest :=
  {| describe_name := "TableFunctionPlanRequest"; build_singleton _ := Ok (text_batch "plan"); read_row _ _ := type_error "not read" |}.

(** A worker that answers with its pages in order. *)
#[local] Instance no_producer : ProducerStream unit :=
  {| header _ := None; tick_with_metadata _ _ := (Ok None, ()); cancel _ := (Ok (), ()) |}.
#[local] Instance no_exchange_stream : ExchangeStream unit :=
  {| exchange_header _ := None; exchange_with_metadata _ _ _ := (Ok None, ()); close_exchange _ := (Ok (), ()); cancel_exchange _ := (Ok (), ()) |}.
#[local] Instance paged_transport : VgiTransport (list PlanResponse) unit unit := {|
  call_unary t _ _ :=
    match t with
    | [] => (runtime_error "no more pages", [])
    | r :: t => (let? b := to_result_batch r in Ok (relay b), t)
    end;
  open_producer t _ _ _ _ := inr (RuntimeError "no streams", t);
  open_exchange_stream t _ _ _ := inr (RuntimeError "no streams", t);
  end_producer _ := [];
  end_exchange _ := [];
|}.

Definition ex_split (tok : bytes) : bytes :=
  x01 :: ser (mkSplit [] tok (Some 10) true None None None None None None None None None).
Definition ex_page (toks : list bytes) (cursors : list bytes) : PlanResponse :=
  mkPlanResponse (ex_split <$> toks) (Some cursors) (Some [x07]) None (Some 4) None None None None "transaction" None None None None None None None None.
Definition plan_bound : BoundFunction := mkBound "f" [x01] (mkBindResponse [] None [] [] [] [] Unknown) [mkField "a" Int64 true []].
Definition plan_options : PlanOptions := mkPlanOptions None None None None None None None None None None None None None None.
Definition no_comparator (_ : list (array * (bool * bool))) : result (nat → nat → comparison) string := Err "unsupported".

(** Two branches below the first page, an empty cursor among them. *)
Definition ex_pages : list PlanResponse :=
  [ex_page [[x0a]] [[x01]; []; [x02]]; ex_page [[x0b]; [x0c]] []; ex_page [[x0d]] []].

Lemma plan_exhaustive_witness :
  ∃ p c', plan no_comparator (λ _, 0) plan_bound plan_options (mkClient ex_pages true) = Some (Ok p, c') ∧
    token <$> splits p = [[x0a]; [x0b]; [x0c]; [x0d]] ∧ plan_scope p = "transaction" ∧ Z.of_nat (length (splits p)) ≤ MAX_SPLITS.
Proof.
  destruct (plan no_comparator (λ _, 0) plan_bound plan_options (mkClient ex_pages true)) as [[[p|] c']|] eqn:E;
    [|vm_compute in E; discriminate..].
  destruct (plan_exhaustive no_comparator (λ _, 0) plan_bound plan_options _ _ _ E) as (first & rest & _ & _ & _ & _ & H5 & _).
  exists p, c'. split; [reflexivity|]. split; [|split; [|exact H5]]; vm_compute in E; injection E as <- _; vm_compute; reflexivity.
Defined.

Lemma plan_answers_witness :
  ∃ pages c' p, enumerates plan_bound plan_options (mkClient ex_pages true) [None] pages c' ∧ length pages = 3%nat ∧
    plan no_comparator (λ _, 0) plan_bound plan_options (mkClient ex_pages true) = Some (Ok p, c') ∧
    token <$> splits p = [[x0a]; [x0b]; [x0c]; [x0d]].
Proof.
  set (pages := zip [None; Some [x01]; Some [x02]] ex_pages).
  destruct (read_pages plan_bound pages.*2 initial_state) as [st|] eqn:Er; [|vm_compute in Er; discriminate].
  destruct (finish_plan no_comparator plan_bound st) as [p|] eqn:Ef; [|vm_compute in Er; injection Er as <-; vm_compute in Ef; discriminate].
  assert (enumerates plan_bound plan_options (mkClient ex_pages true) [None] pages (mkClient [] true)) as He.
  { repeat (eapply enumerates_page; [vm_compute; reflexivity|]). apply enumerates_done. }
  exists pages, (mkClient [] true), p. split; [exact He|]. split; [reflexivity|]. split.
  - destruct (plan_answers no_comparator (λ _, 0) plan_bound plan_options (mkClient ex_pages true)) as [_ Hc].
    apply (Hc pages (mkClient [] true) st p He); [apply Nat.leb_le; vm_compute; reflexivity|intros n _; vm_compute; reflexivity|exact Er|exact Ef].
  - vm_compute in Er. injection Er as <-. vm_compute in Ef. injection Ef as <-. vm_compute. reflexivity.
Defined.

(** The whole-scan sentinel need not be the sole split of the plan: after an empty
    first page, a page of the sentinel alone is accepted, and the pages of the other
    cursors add splits to it, whose rows the sentinel covers already. *)
Theorem sentinel_beside_splits :
  ∃ p c', plan no_comparator (λ _, 0) plan_bound plan_options
            (mkClient [ex_page [] [[x01]; [x02]]; ex_page [[]] []; ex_page [[x0a]] []] true) = Some (Ok p, c') ∧
    token <$> splits p = [[]; [x0a]].
Proof. eexists _, _. split; vm_compute; reflexivity. Qed.
End examples.
