(* ===== verification/DiskIo.v ===== *)
(** The file tree, locks, clock and failures [vgi-client/src/disk_cache.rs]
    works with: what one cache root holds, the state a process keeps about it,
    an error-and-state monad whose primitives are the system calls the source
    makes, and the rules to reason about programs in it.

    The tree is flat: a ref is named by its shard and file name, an object by
    its shard and generation.  Permissions are not represented.  The
    environment says what the clocks read, what the random source returns and
    which call fails; a call that fails has no effect, except that an
    interrupted removal of a directory may have removed some of its files and
    an interrupted write leaves a prefix. *)
From S2P Require Import Prelude.

Open Scope Z_scope.

(** * Errors *)

(** The kinds of [io::Error] the source tells apart. *)
Inductive IoKind := NotFound | AlreadyExists | InvalidData | OtherIo.

Inductive DiskCacheError :=
| DIo (kind : IoKind)
| DArrow
| DMetadata
| DInvalid (message : string)
| DEntryTooLarge (bytes limit : Z).

Notation io := (λ A, result A DiskCacheError).

(** * What a root holds *)

Definition RefPath : Type := string * string.
Definition ObjPath : Type := string * string.
Notation Files := (gmap string bytes).

Record Temp := mkTemp { t_files : Files; t_modified : Z }.

Record Disk := mkDisk {
  root_files : gmap string bytes;
  ref_files : gmap RefPath bytes;
  object_dirs : gset string;
  objects : gmap ObjPath Files;
  temps : gmap string Temp;
  (** Shared locks held on the [.lease] files, by any process. *)
  locks : gmap ObjPath nat;
  temp_locks : gset string;
}.

Definition set_root_files (f : gmap string bytes → gmap string bytes) (d : Disk) : Disk :=
  mkDisk (f (root_files d)) (ref_files d) (object_dirs d) (objects d) (temps d) (locks d) (temp_locks d).
Definition set_ref_files (f : gmap RefPath bytes → gmap RefPath bytes) (d : Disk) : Disk :=
  mkDisk (root_files d) (f (ref_files d)) (object_dirs d) (objects d) (temps d) (locks d) (temp_locks d).
Definition set_object_dirs (f : gset string → gset string) (d : Disk) : Disk :=
  mkDisk (root_files d) (ref_files d) (f (object_dirs d)) (objects d) (temps d) (locks d) (temp_locks d).
Definition set_objects (f : gmap ObjPath Files → gmap ObjPath Files) (d : Disk) : Disk :=
  mkDisk (root_files d) (ref_files d) (object_dirs d) (f (objects d)) (temps d) (locks d) (temp_locks d).
Definition set_temps (f : gmap string Temp → gmap string Temp) (d : Disk) : Disk :=
  mkDisk (root_files d) (ref_files d) (object_dirs d) (objects d) (f (temps d)) (locks d) (temp_locks d).
Definition set_locks (f : gmap ObjPath nat → gmap ObjPath nat) (d : Disk) : Disk :=
  mkDisk (root_files d) (ref_files d) (object_dirs d) (objects d) (temps d) (f (locks d)) (temp_locks d).
Definition set_temp_locks (f : gset string → gset string) (d : Disk) : Disk :=
  mkDisk (root_files d) (ref_files d) (object_dirs d) (objects d) (temps d) (locks d) (f (temp_locks d)).

Definition empty_disk : Disk := mkDisk ∅ ∅ ∅ ∅ ∅ ∅ ∅.

(** Counting holders in a map without zero entries: [entry(k).or_default() += 1],
    and the decrement that removes the entry at zero. *)
Definition retain {K} `{Countable K} (k : K) (m : gmap K nat) : gmap K nat :=
  <[k := S (default O (m !! k))]> m.
Definition release {K} `{Countable K} (k : K) (m : gmap K nat) : gmap K nat :=
  match m !! k with
  | Some (S (S n)) => <[k := S n]> m
  | Some _ => delete k m
  | None => m
  end.

(** * What a process keeps *)

Record DiskCacheStats := mkDiskStats {
  d_hits : Z;
  d_misses : Z;
  d_inserts : Z;
  d_evictions_lru : Z;
  d_evictions_ttl : Z;
  d_refusals : Z;
  d_corruptions : Z;
  d_capture_aborts : Z;
  d_stale_serves : Z;
  d_revalidations : Z;
  d_entries : Z;
  d_total_bytes : Z;
}.

Definition DiskCacheStats_default : DiskCacheStats := mkDiskStats 0 0 0 0 0 0 0 0 0 0 0 0.

(** The counters, to name the one an operation adds to. *)
Inductive counter :=
| Hits | Misses | Inserts | EvictionsLru | EvictionsTtl | Refusals | Corruptions | CaptureAborts
| StaleServes | Revalidations.
#[export] Instance counter_eq_dec : EqDecision counter.
Proof. solve_decision. Defined.

Definition add_count (c : counter) (n : Z) (s : DiskCacheStats) : DiskCacheStats :=
  let at_ x := if decide (x = c) then n else 0 in
  mkDiskStats (d_hits s + at_ Hits) (d_misses s + at_ Misses) (d_inserts s + at_ Inserts)
    (d_evictions_lru s + at_ EvictionsLru) (d_evictions_ttl s + at_ EvictionsTtl)
    (d_refusals s + at_ Refusals) (d_corruptions s + at_ Corruptions)
    (d_capture_aborts s + at_ CaptureAborts) (d_stale_serves s + at_ StaleServes)
    (d_revalidations s + at_ Revalidations) (d_entries s) (d_total_bytes s).

Definition set_occupancy (entries bytes : Z) (s : DiskCacheStats) : DiskCacheStats :=
  mkDiskStats (d_hits s) (d_misses s) (d_inserts s) (d_evictions_lru s) (d_evictions_ttl s)
    (d_refusals s) (d_corruptions s) (d_capture_aborts s) (d_stale_serves s) (d_revalidations s)
    entries bytes.

Record Proc := mkProc {
  leases : gmap ObjPath nat;
  active_temps : gset string;
  access : gmap RefPath Z;
  p_stats : DiskCacheStats;
}.

Definition new_proc : Proc := mkProc ∅ ∅ ∅ DiskCacheStats_default.

Definition set_leases (f : gmap ObjPath nat → gmap ObjPath nat) (p : Proc) : Proc :=
  mkProc (f (leases p)) (active_temps p) (access p) (p_stats p).
Definition set_active (f : gset string → gset string) (p : Proc) : Proc :=
  mkProc (leases p) (f (active_temps p)) (access p) (p_stats p).
Definition set_access (f : gmap RefPath Z → gmap RefPath Z) (p : Proc) : Proc :=
  mkProc (leases p) (active_temps p) (f (access p)) (p_stats p).
Definition set_pstats (f : DiskCacheStats → DiskCacheStats) (p : Proc) : Proc :=
  mkProc (leases p) (active_temps p) (access p) (f (p_stats p)).

Record World := mkWorld { disk : Disk; proc : Proc }.

(** * The environment and the monad *)

(** What the [n]-th interaction meets. *)
Record Env := mkEnv {
  wall : nat → Z;
  mono : nat → Z;
  entropy : nat → nat → bytes;
  read_fails : nat → bool;
  write_fails : nat → bool;
  progress : nat → nat;
}.

Definition M (A : Type) : Type := World → nat → io A * World * nat.

#[export] Instance M_ret : MRet M := λ A a w n, (Ok a, w, n).
#[export] Instance M_bind : MBind M := λ A B k m w n,
  match m w n with
  | (Ok a, w, n) => k a w n
  | (Err e, w, n) => (Err e, w, n)
  end.
#[export] Instance M_fmap : FMap M := λ A B f m, m ≫= λ a, mret (f a).

Definition throw {A} (e : DiskCacheError) : M A := λ w n, (Err e, w, n).
(** Looking at a [Result] instead of propagating it. *)
Definition try_ {A} (m : M A) : M (io A) := λ w n, let '(r, w, n) := m w n in (Ok r, w, n).
Definition ignore {A} (m : M A) : M unit := _ ← try_ m; mret tt.
Definition lift {A} (r : io A) : M A := match r with Ok a => mret a | Err e => throw e end.

Definition get_disk : M Disk := λ w n, (Ok (disk w), w, n).
Definition get_proc : M Proc := λ w n, (Ok (proc w), w, n).
Definition on_disk (f : Disk → Disk) : M unit := λ w n, (Ok tt, mkWorld (f (disk w)) (proc w), n).
Definition on_proc (f : Proc → Proc) : M unit := λ w n, (Ok tt, mkWorld (disk w) (f (proc w)), n).

Definition bump (c : counter) (k : Z) : M unit := on_proc (set_pstats (add_count c k)).

Fixpoint for_each {A} (f : A → M unit) (l : list A) : M unit :=
  match l with
  | [] => mret tt
  | a :: l => _ ← f a; for_each f l
  end.

Section calls.
Context (E : Env).

Definition tick : M nat := λ w n, (Ok n, w, S n).
Definition now_wall : M Z := wall E <$> tick.
Definition now_mono : M Z := mono E <$> tick.
(** A call that reads, and one that changes something or takes a lock. *)
Definition read_io : M unit := n ← tick; if read_fails E n then throw (DIo OtherIo) else mret tt.
Definition write_io : M unit := n ← tick; if write_fails E n then throw (DIo OtherIo) else mret tt.
(** [getrandom::fill] of a buffer of [k] bytes. *)
Definition random (k : nat) : M bytes :=
  n ← tick; if read_fails E n then throw (DIo OtherIo) else mret (entropy E n k).

(** [fs::read]. *)
Definition read_ref_file (p : RefPath) : M bytes :=
  _ ← read_io; d ← get_disk;
  match ref_files d !! p with Some b => mret b | None => throw (DIo NotFound) end.

(** [sync_dir] of the [objects] directory of a shard: the directory is opened
    first. *)
Definition sync_objects (shard : string) : M unit :=
  _ ← write_io; d ← get_disk;
  if bool_decide (shard ∈ object_dirs d) then mret tt else throw (DIo NotFound).

(** [create_private_dir] of the [objects] directory of a shard. *)
Definition create_objects_dir (shard : string) : M unit :=
  _ ← write_io; on_disk (set_object_dirs (λ s, {[ shard ]} ∪ s)).

(** [write_new_synced] of a file next to the refs: exclusive creation, then the
    contents. *)
Definition write_new_ref_file (p : RefPath) (b : bytes) : M unit :=
  _ ← write_io; d ← get_disk;
  match ref_files d !! p with
  | Some _ => throw (DIo AlreadyExists)
  | None =>
      n ← tick;
      if write_fails E n
      then _ ← on_disk (set_ref_files <[p := take (progress E n) b]>); throw (DIo OtherIo)
      else on_disk (set_ref_files <[p := b]>)
  end.

(** [remove_file_synced]: whether the file was there. *)
Definition remove_ref_file (p : RefPath) : M bool :=
  _ ← write_io; d ← get_disk;
  let there := bool_decide (is_Some (ref_files d !! p)) in
  _ ← on_disk (set_ref_files (delete p));
  _ ← write_io; mret there.

(** Files an interrupted removal leaves. *)
Definition survivors (k : nat) (f : Files) : Files := list_to_map (drop k (map_to_list f)).

(** [remove_dir_all_synced] of an object. *)
Definition remove_object_dir (o : ObjPath) : M unit :=
  d ← get_disk;
  match objects d !! o with
  | None => _ ← write_io; sync_objects o.1
  | Some f =>
      n ← tick;
      if write_fails E n
      then _ ← on_disk (set_objects <[o := survivors (progress E n) f]>); throw (DIo OtherIo)
      else _ ← on_disk (set_objects (delete o)); sync_objects o.1
  end.

(** [fs::remove_dir_all] of a capture's directory. *)
Definition remove_temp_dir (t : string) : M unit :=
  d ← get_disk;
  match temps d !! t with
  | None => write_io
  | Some tmp =>
      n ← tick;
      if write_fails E n
      then _ ← on_disk (set_temps <[t := mkTemp (survivors (progress E n) (t_files tmp)) (t_modified tmp)]>);
           throw (DIo OtherIo)
      else on_disk (set_temps (delete t))
  end.

(** Creating or rewriting a file of a capture. *)
Definition put_temp_file (t name : string) (b : bytes) : M unit :=
  _ ← write_io; now ← now_wall;
  on_disk (set_temps (λ m, match m !! t with
    | Some tmp => <[t := mkTemp (<[name := b]> (t_files tmp)) now]> m
    | None => m
    end)).

(** [write_new_synced] of a file of a capture. *)
Definition write_new_temp_file (t name : string) (b : bytes) : M unit :=
  d ← get_disk;
  match temps d !! t with
  | None => throw (DIo NotFound)
  | Some tmp =>
      match t_files tmp !! name with
      | Some _ => throw (DIo AlreadyExists)
      | None => put_temp_file t name b
      end
  end.

Definition create_temp_dir (t : string) : M unit :=
  _ ← write_io; now ← now_wall;
  on_disk (set_temps (λ m, match m !! t with Some _ => m | None => <[t := mkTemp ∅ now]> m end)).

(** [fs::rename] of a capture's directory into the objects of a shard. *)
Definition rename_temp (t : string) (o : ObjPath) : M unit :=
  _ ← write_io; d ← get_disk;
  match temps d !! t with
  | None => throw (DIo NotFound)
  | Some tmp =>
      (* Only an empty directory is replaced. *)
      if bool_decide (default ∅ (objects d !! o) = ∅)
      then _ ← on_disk (set_temps (delete t)); on_disk (set_objects <[o := t_files tmp]>)
      else throw (DIo OtherIo)
  end.
End calls.

(** * Reasoning *)

(** What holds of the answer and the world, wherever in the run of the
    environment the program starts. *)
Definition wp {A} (m : M A) (Q : io A → World → Prop) (w : World) : Prop :=
  ∀ n, let '(r, w', _) := m w n in Q r w'.

Section wp.
Context {A B : Type}.
Implicit Types (Q : io A → World → Prop) (w : World).

Lemma wp_use (m : M A) Q w n r w' n' : wp m Q w → m w n = (r, w', n') → Q r w'.
Proof. intros H E. specialize (H n). by rewrite E in H. Qed.

Lemma wp_mono (m : M A) P Q w : wp m P w → (∀ r w', P r w' → Q r w') → wp m Q w.
Proof. intros H HPQ n. specialize (H n). destruct (m w n) as [[r w'] n']. auto. Qed.

Lemma wp_ret (a : A) Q w : Q (Ok a) w → wp (mret a) Q w.
Proof. intros H n. apply H. Qed.
Lemma wp_throw e Q w : Q (Err e) w → wp (throw e) Q w.
Proof. intros H n. apply H. Qed.
Lemma wp_lift (r : io A) Q w : Q r w → wp (lift r) Q w.
Proof. destruct r; by intros H n. Qed.

Lemma wp_bind (m : M B) (k : B → M A) Q w :
  wp m (λ r w', match r with Ok b => wp (k b) Q w' | Err e => Q (Err e) w' end) w →
  wp (m ≫= k) Q w.
Proof.
  intros H n. specialize (H n). unfold mbind, M_bind.
  destruct (m w n) as [[[b|e] w'] n']; [apply H|done].
Qed.

Lemma wp_try (m : M B) (Q : io (io B) → World → Prop) w : wp m (λ r, Q (Ok r)) w → wp (try_ m) Q w.
Proof. intros H n. specialize (H n). unfold try_. by destruct (m w n) as [[r w'] n']. Qed.

Lemma wp_get_disk (Q : io Disk → World → Prop) w : Q (Ok (disk w)) w → wp get_disk Q w.
Proof. intros H n. apply H. Qed.
Lemma wp_get_proc (Q : io Proc → World → Prop) w : Q (Ok (proc w)) w → wp get_proc Q w.
Proof. intros H n. apply H. Qed.
Lemma wp_on_disk f (Q : io unit → World → Prop) w :
  Q (Ok tt) (mkWorld (f (disk w)) (proc w)) → wp (on_disk f) Q w.
Proof. intros H n. apply H. Qed.
Lemma wp_on_proc f (Q : io unit → World → Prop) w :
  Q (Ok tt) (mkWorld (disk w) (f (proc w))) → wp (on_proc f) Q w.
Proof. intros H n. apply H. Qed.
Lemma wp_tick (Q : io nat → World → Prop) w : (∀ n, Q (Ok n) w) → wp tick Q w.
Proof. intros H n. apply H. Qed.
Lemma wp_fmap_tick (f : nat → A) Q w : (∀ n, Q (Ok (f n)) w) → wp (f <$> tick) Q w.
Proof. intros H n. apply H. Qed.

End wp.

Lemma wp_ignore {B} (m : M B) (Q : io unit → World → Prop) w : wp m (λ _, Q (Ok tt)) w → wp (ignore m) Q w.
Proof. intros H. unfold ignore. apply wp_bind, wp_try. eapply wp_mono; [exact H|]. intros r w' HQ. by apply wp_ret. Qed.

Lemma wp_for_each {B} (f : B → M unit) (I : World → Prop) (l : list B) w :
  I w → (∀ b w, b ∈ l → I w → wp (f b) (λ _, I) w) → wp (for_each f l) (λ _, I) w.
Proof.
  revert w. induction l as [|b l IH]; intros w HI Hf; [by apply wp_ret|].
  apply wp_bind. eapply wp_mono; [apply Hf; [left|done]|].
  intros [[]|e] w' HI'; [|done]. apply IH; [done|]. intros; apply Hf; [by right|done].
Qed.

Section wp_calls.
Context (E : Env).

Definition reads_ok : Prop := ∀ n, read_fails E n = false.
Definition writes_ok : Prop := ∀ n, write_fails E n = false.

Lemma wp_read_io (Q : io unit → World → Prop) w :
  Q (Err (DIo OtherIo)) w → Q (Ok tt) w → wp (read_io E) Q w.
Proof. intros H1 H2. apply wp_bind, wp_tick. intros n. destruct (read_fails E n); by intros k. Qed.
Lemma wp_write_io (Q : io unit → World → Prop) w :
  Q (Err (DIo OtherIo)) w → Q (Ok tt) w → wp (write_io E) Q w.
Proof. intros H1 H2. apply wp_bind, wp_tick. intros n. destruct (write_fails E n); by intros k. Qed.
Lemma wp_read_ok (Q : io unit → World → Prop) w : reads_ok → Q (Ok tt) w → wp (read_io E) Q w.
Proof. intros H H2. unfold read_io. apply wp_bind, wp_tick. intros n. rewrite (H n). by intros k. Qed.
Lemma wp_write_ok (Q : io unit → World → Prop) w : writes_ok → Q (Ok tt) w → wp (write_io E) Q w.
Proof. intros H H2. unfold write_io. apply wp_bind, wp_tick. intros n. rewrite (H n). by intros k. Qed.
Lemma wp_random k (Q : io bytes → World → Prop) w :
  Q (Err (DIo OtherIo)) w → (∀ b, Q (Ok b) w) → wp (random E k) Q w.
Proof. intros H1 H2. unfold random. apply wp_bind, wp_tick. intros n. destruct (read_fails E n); intros j; apply H2 || apply H1. Qed.
End wp_calls.
