(* ===== verification/DiskCache.v ===== *)
(** The persistent result cache of [vgi-client/src/disk_cache.rs]: captures,
    publication with rollback, validated lookups under a lease, conditional
    revalidation, flushing, reaping and admission.  Programs run in the monad of
    [DiskIo].  Arrow's IPC file format, the hash functions and [serde_json] are
    parameters with the laws the source relies on. *)
From S2P Require Import Prelude Codec CacheControl ResultCache DiskIo.

Open Scope Z_scope.

(** * Data *)

Definition FORMAT_VERSION : Z := 1.
Definition SECRET_FILE : string := "secret".
(** [TEMP_GRACE], in nanoseconds. *)
Definition TEMP_GRACE : Z := 60 * 60 * NANOS.

Inductive DiskCacheCodec := CodecNone | CodecZstd | CodecLz4.
#[export] Instance codec_eq_dec : EqDecision DiskCacheCodec.
Proof. solve_decision. Defined.

Record DiskCacheOptions := mkDiskOptions {
  o_root : string;
  o_max_bytes : Z;
  o_max_entries : Z;
  o_codec : DiskCacheCodec;
}.

Definition DiskCacheOptions_new (root : string) : DiskCacheOptions :=
  mkDiskOptions root (1024 * 1024 * 1024) 131072 CodecZstd.

Inductive DiskCacheSkip :=
| SkipNotCacheable | SkipTransactionScoped | SkipUnsupportedScope | SkipNoFreshness
| SkipEntryTooLarge | SkipDisabled | SkipCapacity.

Inductive DiskCacheCommit :=
| Stored (stored_bytes rows partitions : Z)
| Skipped (reason : DiskCacheSkip).

Definition is_stored (c : DiskCacheCommit) : bool :=
  match c with Stored _ _ _ => true | Skipped _ => false end.

Record RefRecord := mkRefRecord {
  r_version : Z;
  r_key_digest : string;
  r_identity_digest : string;
  r_generation : string;
  r_manifest_sha256 : string;
  r_created_ms : Z;
  r_expires_ms : Z;
  r_catalog : string;
  r_function : string;
  r_stored_bytes : Z;
  r_rows : Z;
  r_batches : Z;
  r_partitions : Z;
  r_codec : DiskCacheCodec;
  r_at : option (string * string);
  r_etag : option string;
  r_last_modified : option string;
  r_revalidatable : bool;
  r_stale_if_error_seconds : option Z;
}.
#[export] Instance ref_record_eq_dec : EqDecision RefRecord.
Proof. solve_decision. Defined.

Record PartRecord := mkPartRecord {
  pt_file : string;
  pt_bytes : Z;
  pt_rows : Z;
  pt_batches : Z;
  pt_sha256 : string;
}.

Record Manifest := mkManifest {
  mf_version : Z;
  mf_key_digest : string;
  mf_schema_sha256 : string;
  mf_codec : DiskCacheCodec;
  mf_rows : Z;
  mf_stored_bytes : Z;
  mf_parts : list PartRecord;
}.

(** * The libraries *)

(** Arrow's IPC files: the bytes of a file while its writer is open and once it
    is finished, and what a reader finds in a file: the schema, then each batch
    or an error. *)
Class DiskIpc := {
  Schema : Type;
  Batch : Type;
  #[global] schema_eq :: EqDecision Schema;
  batch_schema : Batch → Schema;
  num_rows : Batch → Z;
  schema_message : Schema → bytes;
  ipc_partial : DiskCacheCodec → Schema → list Batch → bytes;
  ipc_file : DiskCacheCodec → Schema → list Batch → bytes;
  ipc_read : bytes → option (Schema * list (option Batch));
}.

Class DiskIpcLaws `{!DiskIpc} := {
  num_rows_nonneg b : 0 ≤ num_rows b;
  ipc_read_file codec schema bs :
    Forall (λ b, batch_schema b = schema) bs →
    ipc_read (ipc_file codec schema bs) = Some (schema, Some <$> bs);
}.

(** SHA-256 and HMAC-SHA-256. *)
Class DiskHash := {
  sha256 : bytes → bytes;
  hmac_sha256 : bytes → bytes → bytes;
}.

Class DiskHashLaws `{!DiskHash} := {
  sha256_length b : length (sha256 b) = 32%nat;
  hmac_length k b : length (hmac_sha256 k b) = 32%nat;
}.

(** [serde_json] on the two persistent records. *)
Class DiskJson := {
  ref_json : RefRecord → bytes;
  ref_of_json : bytes → option RefRecord;
  manifest_json : Manifest → bytes;
  manifest_of_json : bytes → option Manifest;
}.

Class DiskJsonLaws `{!DiskJson} := {
  ref_json_roundtrip r : ref_of_json (ref_json r) = Some r;
  manifest_json_roundtrip m : manifest_of_json (manifest_json m) = Some m;
}.

(** * Names *)

Definition hex_digit (n : Z) : byte := byte_of_Z (if n <? 10 then 48 + n else 87 + n).
Definition hex (b : bytes) : string :=
  string_of_bytes (b ≫= λ x, [hex_digit (Z_of_byte x / 16); hex_digit (Z_of_byte x mod 16)]).

Definition is_ascii_hexdigit (b : byte) : bool :=
  let z := Z_of_byte b in
  ((48 <=? z) && (z <=? 57)) || ((97 <=? z) && (z <=? 102)) || ((65 <=? z) && (z <=? 70)).

Definition safe_component (value : string) : bool :=
  (String.length value =? 64)%nat && forallb is_ascii_hexdigit (as_bytes value).

(** [format!("part-{partition:05}.arrow")]. *)
Definition pad05 (n : nat) : string :=
  let s := dec_nonneg (Z.of_nat n) in
  String.append (String.concat "" (repeat "0"%string (5 - String.length s))) s.
Definition part_name (partition : nat) : string := "part-" +:+ pad05 partition +:+ ".arrow".

(** [Path::extension] of a file name: what follows the last dot, unless the dot
    comes first. *)
Fixpoint split_dot (rev_name acc : list byte) : option (list byte * list byte) :=
  match rev_name with
  | [] => None
  | b :: l => if Byte.eqb b x2e then Some (l, acc) else split_dot l (b :: acc)
  end.
Definition extension (name : string) : option string :=
  match split_dot (rev (as_bytes name)) [] with
  | Some (_ :: _, ext) => Some (string_of_bytes ext)
  | _ => None
  end.

Definition ref_name (key_digest : string) : string := key_digest +:+ ".ref".

(** [epoch_ms]: whole milliseconds since the epoch of an instant in nanoseconds. *)
Definition epoch_ms (time : Z) : Z := Z.min u64_max (Z.max 0 time / 1000000).

Definition saturating_add (a b : Z) : Z := Z.min u64_max (a + b).
(** [Iterator::sum] of [u64]s. *)
Definition sum_u64 (l : list Z) : Z := foldr Z.add 0 l mod 2 ^ 64.

Definition valid_revalidation_control (control : CacheControl) : bool :=
  revalidatable control &&
  (bool_decide (is_Some (etag control)) || bool_decide (is_Some (last_modified control))).

(** [.and_then(u64::try_from).filter(|s| s > 0)]. *)
Definition positive_seconds (o : option Z) : option Z :=
  match o with Some s => if 0 <? s then Some s else None | None => None end.

Record DiskCapture `{!DiskIpc} := mkDiskCapture {
  owner_root : string;
  temp_dir : option string;
  temp_lease : bool;
  c_schema : Schema;
  schema_hash_ : string;
  writers : list (option (list Batch));
  batch_counts : list Z;
  c_rows : Z;
  c_codec : DiskCacheCodec;
  c_max_bytes : Z;
  limit_exceeded : bool;
}.

Arguments mkDiskCapture {_} _ _ _ _ _ _ _ _ _ _ _.

Record DiskCacheHit `{!DiskIpc} := mkDiskHit {
  h_schema : Schema;
  h_object : ObjPath;
  h_manifest : Manifest;
  h_record : RefRecord;
}.

Arguments mkDiskHit {_} _ _ _ _.

Record DiskCacheEntryInfo := mkEntryInfo {
  i_key_fingerprint : string;
  i_catalog : string;
  i_function : string;
  i_stored_bytes : Z;
  i_rows : Z;
  i_batches : Z;
  i_partitions : Z;
  i_codec : DiskCacheCodec;
  i_age_ms : Z;
  i_freshness_remaining_ms : Z;
  i_at : option (string * string);
  i_has_etag : bool;
  i_has_last_modified : bool;
  i_revalidatable : bool;
}.

(** The part of [Inner] that never changes. *)
Record Inner := mkInner { options : DiskCacheOptions; secret : bytes; pid : Z }.

Record PublicationRollback := mkRollback {
  rb_object : ObjPath;
  rb_ref : RefPath;
  rb_old : option bytes;
  rb_published : RefRecord;
}.

Section cache.
Context `{!DiskIpc} `{!DiskHash} `{!DiskJson} (E : Env) (self : Inner).

Definition max_bytes : Z := o_max_bytes (options self).
Definition max_entries : Z := o_max_entries (options self).

Definition sha256_hex (b : bytes) : string := hex (sha256 b).
Definition schema_hash (schema : Schema) : string := sha256_hex (schema_message schema).
Definition digest (b : bytes) : string := hex (hmac_sha256 (secret self) b).

Definition ref_path_of (key : CacheKey) : RefPath :=
  (digest (as_bytes (identity_scope key)), ref_name (digest (stable_bytes key))).
Definition object_of (r : RefRecord) : ObjPath := (r_identity_digest r, r_generation r).

Definition parse_ref (b : bytes) : io RefRecord :=
  match ref_of_json b with
  | None => Err (DIo InvalidData)
  | Some r =>
      if safe_component (r_key_digest r) && safe_component (r_identity_digest r)
         && safe_component (r_generation r) && safe_component (r_manifest_sha256 r)
      then Ok r else Err (DIo InvalidData)
  end.

Definition read_ref (p : RefPath) : M RefRecord := b ← read_ref_file E p; lift (parse_ref b).

Definition lock_root : M unit := write_io E.

Definition unique_generation : M string :=
  r ← random E 32; now ← now_wall E;
  mret (digest (le_bytes 8 (epoch_ms now) ++ le_bytes 4 (pid self) ++ r)).

(** * Refs *)

Definition listed_ref (p : RefPath) : bool :=
  bool_decide (p.1 ≠ "tmp"%string) && bool_decide (extension p.2 = Some "ref"%string).

(** The directory listing, in the order the system gives. *)
Definition ref_paths : M (list RefPath) :=
  _ ← read_io E; d ← get_disk;
  mret (filter (λ p, listed_ref p = true) ((map_to_list (ref_files d)).*1)).

Fixpoint collect_refs (l : list RefPath) : M (list (RefPath * RefRecord)) :=
  match l with
  | [] => mret []
  | p :: l =>
      r ← try_ (read_ref p); rest ← collect_refs l;
      mret (match r with Ok record => (p, record) :: rest | Err _ => rest end)
  end.

Definition refs : M (list (RefPath * RefRecord)) := ps ← ref_paths; collect_refs ps.

Definition current_size_unlocked : M (Z * Z) :=
  rs ← refs;
  mret (Z.of_nat (length rs), sum_u64 ((λ e, r_stored_bytes e.2) <$> rs)).

Definition refresh_current_stats : M unit :=
  '(entries, bytes) ← current_size_unlocked; on_proc (set_pstats (set_occupancy entries bytes)).

(** * Removing *)

Definition has_file (d : Disk) (o : ObjPath) (name : string) : bool :=
  match objects d !! o with Some f => bool_decide (is_Some (f !! name)) | None => false end.

Definition lock_count (d : Disk) (o : ObjPath) : nat := default O (locks d !! o).

Definition remove_object_if_unleased (o : ObjPath) : M unit :=
  p ← get_proc;
  if bool_decide (is_Some (leases p !! o)) then mret tt
  else
    _ ← read_io E; d ← get_disk;
    if has_file d o ".lease"
    then _ ← write_io E;
         if (0 <? lock_count d o)%nat then mret tt else remove_object_dir E o
    else remove_object_dir E o.

Definition remove_record (p : RefPath) (record : RefRecord) : M unit :=
  _ ← remove_ref_file E p;
  _ ← on_proc (set_access (delete p));
  remove_object_if_unleased (object_of record).

Definition remove_record_if_current (p : RefPath) (expected : RefRecord) : M bool :=
  r ← try_ (read_ref p);
  match r with
  | Ok current =>
      if bool_decide (current = expected) then _ ← remove_record p expected; mret true else mret false
  | Err _ => mret false
  end.

Fixpoint remove_where (pred : RefPath → RefRecord → bool) (l : list (RefPath * RefRecord)) : M Z :=
  match l with
  | [] => mret 0
  | (p, record) :: l =>
      if pred p record
      then _ ← remove_record p record; k ← remove_where pred l; mret (1 + k)
      else remove_where pred l
  end.

Definition remove_matching_refs (pred : RefPath → RefRecord → bool) : M Z :=
  rs ← refs; remove_where pred rs.

Definition remove_expired : M Z :=
  now ← now_wall E; rs ← refs;
  removed ← remove_where (λ _ r, (r_expires_ms r <=? epoch_ms now) && negb (r_revalidatable r)) rs;
  _ ← bump EvictionsTtl removed; mret removed.

(** The check of [remove_invalid_refs] on one path. *)
Definition ref_in_place (d : Disk) (p : RefPath) (r : RefRecord) : bool :=
  bool_decide (r_version r = FORMAT_VERSION) && bool_decide (p.2 = ref_name (r_key_digest r))
  && bool_decide (p.1 = r_identity_digest r)
  && has_file d (object_of r) ".lease" && has_file d (object_of r) "manifest.json".

Definition valid_ref (p : RefPath) : M bool :=
  r ← try_ (read_ref p); d ← get_disk;
  mret (match r with Ok r => ref_in_place d p r | Err _ => false end).

Fixpoint drop_invalid (l : list RefPath) : M Z :=
  match l with
  | [] => mret 0
  | p :: l =>
      ok ← valid_ref p;
      k ← (if ok : bool then mret 0 else there ← remove_ref_file E p; mret (if there : bool then 1 else 0));
      rest ← drop_invalid l; mret (k + rest)
  end.

Definition remove_invalid_refs : M Z :=
  ps ← ref_paths; removed ← drop_invalid ps;
  _ ← (if 0 <? removed then bump Corruptions removed else mret tt); mret removed.

Definition remove_orphan_objects : M unit :=
  rs ← refs; _ ← read_io E; d ← get_disk;
  let referenced := (λ e, object_of e.2) <$> rs in
  for_each (λ o, if bool_decide (o ∈ referenced) then mret tt else remove_object_if_unleased o)
    (map_to_list (objects d)).*1.

(** [now.duration_since(modified).unwrap_or_default() >= TEMP_GRACE]. *)
Definition remove_old_temp (active : gset string) (now : Z) (t : string) : M unit :=
  if bool_decide (t ∈ active) then mret tt
  else
    _ ← read_io E; d ← get_disk;
    match temps d !! t with
    | None => mret tt
    | Some tmp =>
        let leased := bool_decide (is_Some (t_files tmp !! ".lease"%string)) in
        _ ← (if leased then write_io E else mret tt);
        if leased && bool_decide (t ∈ temp_locks d) then mret tt
        else
          _ ← read_io E;
          if TEMP_GRACE <=? Z.max 0 (now - t_modified tmp) then remove_temp_dir E t else mret tt
    end.

Definition remove_old_temps : M unit :=
  p ← get_proc; now ← now_wall E; _ ← read_io E; d ← get_disk;
  for_each (remove_old_temp (active_temps p) now) (map_to_list (temps d)).*1.

(** * Admission *)

Definition arrow_bytes (f : Files) : Z :=
  foldr saturating_add 0
    (omap (λ e : string * bytes,
       if decide (extension e.1 = Some "arrow"%string) then Some (Z.of_nat (length e.2)) else None)
     (map_to_list f)).

Definition orphans (d : Disk) (rs : list (RefPath * RefRecord)) : list (ObjPath * Files) :=
  filter (λ e : ObjPath * Files, e.1 ∉ ((λ e : RefPath * RefRecord, object_of e.2) <$> rs)) (map_to_list (objects d)).

Definition orphan_usage (rs : list (RefPath * RefRecord)) : M (Z * Z) :=
  _ ← read_io E; d ← get_disk;
  let os := orphans d rs in
  mret (Z.of_nat (length os), foldr saturating_add 0 ((λ e, arrow_bytes e.2) <$> os)).

Definition replacement_will_be_retained (record : RefRecord) : M bool :=
  p ← get_proc;
  if bool_decide (is_Some (leases p !! object_of record)) then mret true
  else
    _ ← read_io E; d ← get_disk;
    if has_file d (object_of record) ".lease"
    then _ ← write_io E; mret (0 <? lock_count d (object_of record))%nat
    else mret false.

Definition others (replacing : option RefPath) (rs : list (RefPath * RefRecord))
  : list (RefPath * RefRecord) := filter (λ e, replacing ≠ Some e.1) rs.

(** [min_by_key]: the first of the smallest. *)
Fixpoint min_by_key {A} (key : A → Z) (l : list A) : option A :=
  match l with
  | [] => None
  | a :: l =>
      match min_by_key key l with
      | Some b => Some (if key b <? key a then b else a)
      | None => Some a
      end
  end.

Definition last_access (acc : gmap RefPath Z) (e : RefPath * RefRecord) : Z :=
  default (r_created_ms e.2) (acc !! e.1).

Definition retained_usage (replacing : option RefPath) (rs : list (RefPath * RefRecord)) : M (Z * Z) :=
  match replacing ≫= λ p, list_find (λ e, e.1 = p) rs with
  | Some (_, (_, record)) =>
      kept ← replacement_will_be_retained record;
      mret (if kept : bool then (1, r_stored_bytes record) else (0, 0))
  | None => mret (0, 0)
  end.

Definition fits (referenced orphan retained : Z * Z) (incoming : Z) : bool :=
  (saturating_add (saturating_add (saturating_add referenced.2 orphan.2) retained.2) incoming <=? max_bytes)
  && (saturating_add (saturating_add (saturating_add referenced.1 orphan.1) retained.1)
        (if 0 <? incoming then 1 else 0) <=? max_entries).

Fixpoint make_room_loop (fuel : nat) (incoming : Z) (replacing : option RefPath) : M bool :=
  match fuel with
  | O => throw (DInvalid "out of fuel")
  | S fuel =>
      rs ← refs;
      let os := others replacing rs in
      let referenced := (Z.of_nat (length os), sum_u64 ((λ e, r_stored_bytes e.2) <$> os)) in
      orphan ← orphan_usage rs;
      retained ← retained_usage replacing rs;
      if fits referenced orphan retained incoming then mret true
      else
        p ← get_proc;
        match min_by_key (last_access (access p)) os with
        | None => mret false
        | Some (path, record) =>
            _ ← remove_record path record;
            _ ← bump EvictionsLru 1;
            make_room_loop fuel incoming replacing
        end
  end.

Definition make_room (incoming : Z) (replacing : option RefPath) : M bool :=
  _ ← remove_expired; d ← get_disk;
  make_room_loop (S (size (ref_files d))) incoming replacing.

(** * Captures *)

Definition drop_lease_of (c : DiskCapture) (t : string) : M unit :=
  if temp_lease c then on_disk (set_temp_locks (λ s, s ∖ {[ t ]})) else mret tt.

(** [mem::take] of the directory and the lease. *)
Definition disarmed (c : DiskCapture) : DiskCapture :=
  mkDiskCapture (owner_root c) None false (c_schema c) (schema_hash_ c) [] (batch_counts c)
    (c_rows c) (c_codec c) (c_max_bytes c) (limit_exceeded c).

(** The writers are gone once [remove_temp] has started. *)
Definition cleared (c : DiskCapture) : DiskCapture :=
  mkDiskCapture (owner_root c) (temp_dir c) (temp_lease c) (c_schema c) (schema_hash_ c) []
    (batch_counts c) (c_rows c) (c_codec c) (c_max_bytes c) (limit_exceeded c).

Definition remove_temp (c : DiskCapture) (count_abort : bool) : M (io unit * DiskCapture) :=
  locked ← try_ lock_root;
  match locked with
  | Err e => mret (Err e, cleared c)
  | Ok _ =>
      match temp_dir c with
      | None => mret (Ok tt, disarmed c)
      | Some t =>
          _ ← drop_lease_of c t;
          _ ← on_proc (set_active (λ s, s ∖ {[ t ]}));
          r ← try_ (remove_temp_dir E t);
          match r with
          | Err e => mret (Err e, disarmed c)
          | Ok _ =>
              _ ← (if count_abort then bump CaptureAborts 1 else mret tt);
              mret (Ok tt, disarmed c)
          end
      end
  end.

(** [Drop for DiskCapture]. *)
Definition drop_capture (c : DiskCapture) : M unit :=
  match temp_dir c with
  | Some _ => ignore (remove_temp c true)
  | None => mret tt
  end.

Definition abort (c : DiskCapture) : M unit :=
  '(r, c) ← remove_temp c true; _ ← drop_capture c; lift r.

Definition disarm_temp (c : DiskCapture) : M unit :=
  match temp_dir c with
  | Some t => _ ← drop_lease_of c t; on_proc (set_active (λ s, s ∖ {[ t ]}))
  | None => mret tt
  end.

(** A writer on a fresh file; the directory goes when Arrow refuses. *)
Definition open_writer (t : string) (schema : Schema) (partition : nat) : M unit :=
  _ ← put_temp_file E t (part_name partition) [];
  r ← try_ (put_temp_file E t (part_name partition) (ipc_partial (o_codec (options self)) schema []));
  match r with
  | Ok _ => mret tt
  | Err _ => _ ← ignore (remove_temp_dir E t); throw DArrow
  end.

Definition begin_capture (schema : Schema) (partitions : nat) : M DiskCapture :=
  if (partitions =? 0)%nat then throw (DInvalid "a capture must declare at least one partition")
  else
    t ← unique_generation;
    _ ← create_temp_dir E t;
    _ ← write_new_temp_file E t ".lease" [];
    _ ← read_io E;
    _ ← write_io E;
    _ ← on_disk (set_temp_locks (λ s, {[ t ]} ∪ s));
    r ← try_ (for_each (open_writer t schema) (seq 0 partitions));
    match r with
    | Err e => _ ← on_disk (set_temp_locks (λ s, s ∖ {[ t ]})); throw e
    | Ok _ =>
        _ ← on_proc (set_active (λ s, {[ t ]} ∪ s));
        mret (mkDiskCapture (o_root (options self)) (Some t) true schema (schema_hash schema)
                (replicate partitions (Some [])) (replicate partitions 0) 0
                (o_codec (options self)) max_bytes false)
    end.

(** [writer.get_ref().metadata().ok()] over the open writers. *)
Fixpoint written_lengths (codec : DiskCacheCodec) (schema : Schema) (ws : list (option (list Batch)))
  : M (list Z) :=
  match ws with
  | [] => mret []
  | None :: ws => written_lengths codec schema ws
  | Some bs :: ws =>
      r ← try_ (read_io E); rest ← written_lengths codec schema ws;
      mret (match r with
            | Ok _ => Z.of_nat (length (ipc_partial codec schema bs)) :: rest
            | Err _ => rest
            end)
  end.

Definition wrote (c : DiskCapture) (partition : nat) (bs : list Batch) (b : Batch) : DiskCapture :=
  mkDiskCapture (owner_root c) (temp_dir c) (temp_lease c) (c_schema c) (schema_hash_ c)
    (<[partition := Some (bs ++ [b])]> (writers c)) (alter (Z.add 1) partition (batch_counts c))
    (saturating_add (c_rows c) (num_rows b)) (c_codec c) (c_max_bytes c) (limit_exceeded c).

Definition exceeded (c : DiskCapture) : DiskCapture :=
  mkDiskCapture (owner_root c) (temp_dir c) (temp_lease c) (c_schema c) (schema_hash_ c) (writers c)
    (batch_counts c) (c_rows c) (c_codec c) (c_max_bytes c) true.

Definition push_batch (c : DiskCapture) (partition : nat) (b : Batch) : M (io unit * DiskCapture) :=
  if negb (bool_decide (batch_schema b = c_schema c))
  then mret (Err (DInvalid "batch schema differs from the declared capture schema"), c)
  else
    match writers c !! partition, temp_dir c with
    | Some (Some bs), Some t =>
        r ← try_ (put_temp_file E t (part_name partition) (ipc_partial (c_codec c) (c_schema c) (bs ++ [b])));
        match r with
        | Err _ => mret (Err DArrow, c)
        | Ok _ =>
            let c := wrote c partition bs b in
            ls ← written_lengths (c_codec c) (c_schema c) (writers c);
            let written := sum_u64 ls in
            if c_max_bytes c <? written
            then
              _ ← (if limit_exceeded c then mret tt else bump Refusals 1);
              mret (Err (DEntryTooLarge written (c_max_bytes c)), exceeded c)
            else mret (Ok tt, c)
        end
    | _, _ => mret (Err (DInvalid "invalid partition"), c)
    end.

(** [fs::metadata], [sha256_file] and [File::open] on a file of the capture. *)
Definition read_temp_file (t name : string) : M bytes :=
  _ ← read_io E; d ← get_disk;
  match temps d !! t ≫= λ tmp, t_files tmp !! name with
  | Some b => mret b
  | None => throw (DIo NotFound)
  end.

(** [try_fold] of the rows, from a running sum. *)
Fixpoint total_rows (sum : Z) (l : list (option Batch)) : option Z :=
  match l with
  | [] => Some sum
  | None :: _ => None
  | Some b :: l => total_rows (saturating_add sum (num_rows b)) l
  end.

(** The first loop of [finish_parts]: close each writer and describe its file. *)
Fixpoint close_writers (c : DiskCapture) (t : string) (partition : nat) (ws : list (option (list Batch)))
  : M (list PartRecord) :=
  match ws with
  | [] => mret []
  | None :: _ => throw (DInvalid "capture already finished")
  | Some bs :: ws =>
      _ ← put_temp_file E t (part_name partition) (ipc_file (c_codec c) (c_schema c) bs);
      b ← read_temp_file t (part_name partition);
      rest ← close_writers c t (S partition) ws;
      mret (mkPartRecord (part_name partition) (Z.of_nat (length b)) 0
              (default 0 (batch_counts c !! partition)) (sha256_hex b) :: rest)
  end.

(** The second loop: the rows of each file. *)
Fixpoint count_rows (t : string) (index : nat) (parts : list PartRecord) : M (list PartRecord) :=
  match parts with
  | [] => mret []
  | p :: parts =>
      b ← read_temp_file t (part_name index);
      match ipc_read b ≫= λ f, total_rows 0 f.2 with
      | None => throw DArrow
      | Some n =>
          rest ← count_rows t (S index) parts;
          mret (mkPartRecord (pt_file p) (pt_bytes p) n (pt_batches p) (pt_sha256 p) :: rest)
      end
  end.

Definition finish_parts (c : DiskCapture) (t : string) : M (list PartRecord) :=
  ps ← close_writers c t 0 (writers c); count_rows t 0 ps.

(** * Publication *)

(** [write_replace_synced]: a uniquely named file beside the target, then a
    rename; four names are tried. *)
Fixpoint write_replace_loop (tries : nat) (p : RefPath) (b : bytes) : M unit :=
  match tries with
  | O => throw (DIo AlreadyExists)
  | S tries =>
      r ← random E 16;
      let t := (p.1, "." +:+ p.2 +:+ ".tmp-" +:+ hex r) in
      w ← try_ (write_new_ref_file E t b);
      match w with
      | Ok _ =>
          renamed ← try_ (write_io E);
          match renamed with
          | Err e => _ ← ignore (_ ← write_io E; on_disk (set_ref_files (delete t))); throw e
          | Ok _ => _ ← on_disk (set_ref_files (λ m, <[p := b]> (delete t m))); write_io E
          end
      | Err (DIo AlreadyExists) => write_replace_loop tries p b
      | Err e => throw e
      end
  end.
Definition write_replace_synced (p : RefPath) (b : bytes) : M unit := write_replace_loop 4 p b.

(** [Drop for PublicationRollback] while it is armed. *)
Definition roll_back (rb : PublicationRollback) : M unit :=
  current ← try_ (read_ref (rb_ref rb));
  rolled ←
    (if match current with Ok r => bool_decide (r = rb_published rb) | Err _ => false end
     then match rb_old rb with
          | Some old => r ← try_ (write_replace_synced (rb_ref rb) old); mret (is_ok r)
          | None => r ← try_ (remove_ref_file E (rb_ref rb)); mret (is_ok r)
          end
     else mret true);
  if rolled : bool then ignore (remove_object_if_unleased (rb_object rb)) else mret tt.

(** An error while the capture still owns its directory drops the capture. *)
Definition guarding {A} (c : DiskCapture) (m : M A) : M A :=
  r ← try_ m;
  match r with
  | Ok a => mret a
  | Err e => _ ← drop_capture c; throw e
  end.

(** [capture.remove_temp(false)?; return Ok(Skipped(reason))]. *)
Definition skip (c : DiskCapture) (reason : DiskCacheSkip) : M DiskCacheCommit :=
  '(r, c) ← remove_temp c false; _ ← drop_capture c; _ ← lift r; mret (Skipped reason).
Definition refuse (c : DiskCapture) (reason : DiskCacheSkip) : M DiskCacheCommit :=
  _ ← bump Refusals 1; skip c reason.

Section commit.
Context (expires_at_ : Z) (freshness : option CacheFreshness) (control : option CacheControl).

Definition expired : M bool :=
  match freshness with
  | None => now ← now_wall E; mret (expires_at_ <=? now)
  | Some f => now ← now_mono E; mret (is_expired f now)
  end.

Definition immediate_revalidation : bool :=
  match freshness, control with
  | Some f, Some cc => is_immediately_stale f && valid_revalidation_control cc
  | _, _ => false
  end.

(** [expired() && !immediate_revalidation]. *)
Definition lapsed : M bool := e ← expired; mret (e && negb immediate_revalidation).

Definition skip_reason : M (option DiskCacheSkip) :=
  match control with
  | None => mret (Some SkipNotCacheable)
  | Some cc =>
      if no_store cc then mret (Some SkipNotCacheable)
      else if decide (scope cc = CACHE_SCOPE_TRANSACTION) then mret (Some SkipTransactionScoped)
      else if decide (scope cc ≠ CACHE_SCOPE_CATALOG) then mret (Some SkipUnsupportedScope)
      else
        l ← lapsed;
        mret (if l : bool then Some SkipNoFreshness
              else if (max_entries =? 0) || (max_bytes =? 0) then Some SkipDisabled else None)
  end.

Definition new_manifest (key : CacheKey) (c : DiskCapture) (parts : list PartRecord) : Manifest :=
  mkManifest FORMAT_VERSION (digest (stable_bytes key)) (schema_hash_ c) (c_codec c) (c_rows c)
    (sum_u64 (pt_bytes <$> parts)) parts.

Definition new_record (key : CacheKey) (c : DiskCapture) (t : string) (parts : list PartRecord)
    (now : Z) : RefRecord :=
  mkRefRecord FORMAT_VERSION (digest (stable_bytes key)) (digest (as_bytes (identity_scope key))) t
    (sha256_hex (manifest_json (new_manifest key c parts))) now (epoch_ms expires_at_)
    (catalog key) (function key) (sum_u64 (pt_bytes <$> parts)) (c_rows c)
    (sum_u64 (pt_batches <$> parts)) (Z.of_nat (length parts)) (c_codec c) (at_ key)
    (control ≫= etag) (control ≫= last_modified)
    (match control with Some cc => valid_revalidation_control cc | None => false end)
    (positive_seconds (control ≫= stale_if_error)).

(** The manifest goes into the capture's directory, the directories are made,
    and the record is dated. *)
Definition prepare (key : CacheKey) (c : DiskCapture) (t : string) (parts : list PartRecord) : M RefRecord :=
  _ ← write_new_temp_file E t "manifest.json" (manifest_json (new_manifest key c parts));
  _ ← write_io E;
  _ ← create_objects_dir E (digest (as_bytes (identity_scope key)));
  _ ← write_io E;
  now ← now_wall E;
  mret (new_record key c t parts (epoch_ms now)).

(** From the rename to the disarmed rollback; [None] when the entry lapsed after
    its ref was published. *)
Definition publish (p : RefPath) (record : RefRecord) : M (option unit) :=
  _ ← sync_objects E (r_identity_digest record);
  _ ← write_io E;
  _ ← write_replace_synced p (ref_json record);
  _ ← write_io E;
  l ← lapsed;
  if l : bool then _ ← bump Refusals 1; mret None
  else
    _ ← on_proc (set_access <[p := r_created_ms record]>);
    _ ← bump Inserts 1;
    '(entries, bytes) ← current_size_unlocked;
    _ ← on_proc (set_pstats (set_occupancy entries bytes));
    mret (Some tt).

Definition publish_or_roll_back (p : RefPath) (old : option bytes) (record : RefRecord)
  : M DiskCacheCommit :=
  let rb := mkRollback (object_of record) p old record in
  r ← try_ (publish p record);
  match r with
  | Err e => _ ← roll_back rb; throw e
  | Ok None => _ ← roll_back rb; mret (Skipped SkipNoFreshness)
  | Ok (Some _) =>
      _ ← match old ≫= λ b, match parse_ref b with Ok r => Some r | Err _ => None end with
          | Some o =>
              let old_object := (r_identity_digest record, r_generation o) in
              if bool_decide (old_object = object_of record) then mret tt
              else ignore (remove_object_if_unleased old_object)
          | None => mret tt
          end;
      mret (Stored (r_stored_bytes record) (r_rows record) (r_partitions record))
  end.

(** The part under the root lock. *)
Definition commit_locked (c : DiskCapture) (t : string) (p : RefPath) (record : RefRecord)
  : M DiskCacheCommit :=
  _ ← guarding c lock_root;
  l ← lapsed;
  if l : bool then refuse c SkipNoFreshness
  else
    _ ← guarding c (_ ← remove_invalid_refs; remove_orphan_objects);
    room ← guarding c (make_room (r_stored_bytes record) (Some p));
    if negb room then refuse c SkipCapacity
    else
      l ← lapsed;
      if l : bool then refuse c SkipNoFreshness
      else
        old ← try_ (read_ref_file E p);
        _ ← guarding c (rename_temp E t (object_of record));
        _ ← disarm_temp c;
        publish_or_roll_back p (match old with Ok b => Some b | Err _ => None end) record.

Definition commit_with_deadline (key : CacheKey) (c : DiskCapture) : M DiskCacheCommit :=
  if negb (bool_decide (owner_root c = o_root (options self)))
  then _ ← drop_capture c; throw (DInvalid "capture belongs to a different disk cache")
  else if limit_exceeded c then skip c SkipEntryTooLarge
  else
    reason ← skip_reason;
    match reason, temp_dir c with
    | Some reason, _ => refuse c reason
    | None, None => throw (DInvalid "panicked: the capture has no directory")
    | None, Some t =>
        parts ← guarding c (finish_parts c t);
        if max_bytes <? sum_u64 (pt_bytes <$> parts) then refuse c SkipEntryTooLarge
        else
          record ← guarding c (prepare key c t parts);
          commit_locked c t (ref_path_of key) record
    end.
End commit.

Definition commit_freshness (key : CacheKey) (c : DiskCapture) (f : CacheFreshness)
    (control : option CacheControl) : M DiskCacheCommit :=
  commit_with_deadline (expires_at f) (Some f) control key c.

Definition commit (key : CacheKey) (c : DiskCapture) (ttl : Z) (control : option CacheControl)
  : M DiskCacheCommit :=
  wall_ ← now_wall E; mono_ ← now_mono E;
  match CacheFreshness_at wall_ mono_ ttl with
  | None => _ ← drop_capture c; throw (DInvalid "cache freshness lifetime exceeds SystemTime")
  | Some f => commit_freshness key c f control
  end.

Definition commit_until (key : CacheKey) (c : DiskCapture) (expires_at_ : Z)
    (control : option CacheControl) : M DiskCacheCommit :=
  commit_with_deadline expires_at_ None control key c.

(** * Lookup *)

Definition acquire_lease (o : ObjPath) : M unit :=
  _ ← read_io E; d ← get_disk;
  if has_file d o ".lease"
  then
    _ ← write_io E;
    _ ← on_disk (set_locks (retain o)); on_proc (set_leases (retain o))
  else throw (DIo NotFound).

(** [Drop for Lease]. *)
Definition drop_lease (o : ObjPath) : M unit :=
  _ ← on_disk (set_locks (release o)); on_proc (set_leases (release o)).

Definition read_object_file (o : ObjPath) (name : string) : M bytes :=
  _ ← read_io E; d ← get_disk;
  match objects d !! o ≫= λ f, f !! name with
  | Some b => mret b
  | None => throw (DIo NotFound)
  end.

(** The loop of [validate_hit] over the partitions: the schema seen, and the sums. *)
Fixpoint validate_parts (o : ObjPath) (m : Manifest) (index : nat) (schema : option Schema)
    (bytes_ rows_ : Z) (parts : list PartRecord) : M (option Schema * Z * Z) :=
  match parts with
  | [] => mret (schema, bytes_, rows_)
  | p :: parts =>
      if negb (bool_decide (pt_file p = part_name index)) then throw (DInvalid "unsafe partition filename")
      else
        b ← read_object_file o (pt_file p);
        if negb (bool_decide (Z.of_nat (length b) = pt_bytes p) && bool_decide (sha256_hex b = pt_sha256 p))
        then throw (DInvalid "partition digest mismatch")
        else
          match ipc_read b with
          | None => throw DArrow
          | Some (part_schema, _) =>
              if negb (bool_decide (schema_hash part_schema = mf_schema_sha256 m))
              then throw (DInvalid "partition schema mismatch")
              else if match schema with Some s => negb (bool_decide (s = part_schema)) | None => false end
              then throw (DInvalid "partition schemas are inconsistent")
              else validate_parts o m (S index) (Some part_schema) (saturating_add bytes_ (pt_bytes p))
                     (saturating_add rows_ (pt_rows p)) parts
          end
  end.

(** The comparison of the manifest with its ref. *)
Definition manifest_matches (m : Manifest) (r : RefRecord) : bool :=
  bool_decide (mf_version m = FORMAT_VERSION) && bool_decide (mf_key_digest m = r_key_digest r)
  && bool_decide (mf_rows m = r_rows r) && bool_decide (mf_stored_bytes m = r_stored_bytes r)
  && bool_decide (Z.of_nat (length (mf_parts m)) = r_partitions r) && bool_decide (mf_codec m = r_codec r).

Definition validate_hit (record : RefRecord) (o : ObjPath) (expected_schema : option Schema) : M DiskCacheHit :=
  mb ← read_object_file o "manifest.json";
  if negb (bool_decide (sha256_hex mb = r_manifest_sha256 record))
  then throw (DInvalid "manifest digest mismatch")
  else
    match manifest_of_json mb with
    | None => throw DMetadata
    | Some m =>
        if negb (manifest_matches m record) then throw (DInvalid "manifest/ref mismatch")
        else
          '(schema, bytes_, rows_) ← validate_parts o m 0 None 0 0 (mf_parts m);
          if negb (bool_decide (bytes_ = mf_stored_bytes m) && bool_decide (rows_ = mf_rows m))
          then throw (DInvalid "partition totals mismatch")
          else
            match schema with
            | None => throw (DInvalid "entry has no partitions")
            | Some s =>
                if match expected_schema with Some e => negb (bool_decide (e = s)) | None => false end
                then throw (DInvalid "cached schema differs from the expected output schema")
                else mret (mkDiskHit s o m record)
            end
    end.

Definition has_validators (r : RefRecord) : bool :=
  bool_decide (is_Some (r_etag r)) || bool_decide (is_Some (r_last_modified r)).

(** A miss that removes what was observed, under the exclusive lock. *)
Definition discard (p : RefPath) (record : RefRecord) (c : counter) : M unit :=
  _ ← lock_root; _ ← remove_record_if_current p record; _ ← bump Misses 1; bump c 1.

(** The part of [lookup_inner] under the operation lock: a leased record to
    validate, or a miss. *)
Definition observe (key : CacheKey) (allow_stale_revalidation : bool) : M (option RefRecord) :=
  let p := ref_path_of key in
  _ ← lock_root;
  rb ← try_ (read_ref_file E p);
  match rb with
  | Err (DIo NotFound) => _ ← bump Misses 1; mret None
  | Err e => throw e
  | Ok b =>
      match parse_ref b with
      | Err _ =>
          _ ← lock_root;
          again ← try_ (read_ref_file E p);
          _ ← (if match again with Ok b' => bool_decide (b' = b) | Err _ => false end
               then ignore (remove_ref_file E p) else mret tt);
          _ ← bump Misses 1; _ ← bump Corruptions 1; mret None
      | Ok record =>
          if negb (bool_decide (r_version record = FORMAT_VERSION)
                   && bool_decide (r_key_digest record = digest (stable_bytes key))
                   && bool_decide (r_identity_digest record = p.1)
                   && safe_component (r_generation record))
          then _ ← discard p record Corruptions; mret None
          else
            now ← now_wall E;
            let stale := r_expires_ms record <=? epoch_ms now in
            let revalidatable_ := r_revalidatable record && has_validators record in
            if stale && negb revalidatable_ then _ ← discard p record EvictionsTtl; mret None
            else if (stale && negb allow_stale_revalidation)
                    || (negb stale && allow_stale_revalidation && negb revalidatable_)
            then _ ← bump Misses 1; mret None
            else
              l ← try_ (acquire_lease (object_of record));
              match l with
              | Ok _ => mret (Some record)
              | Err (DIo NotFound) => _ ← discard p record Corruptions; mret None
              | Err e => throw e
              end
      end
  end.

(** What follows once the locks are released and only the lease is held. *)
Definition finish_lookup (key : CacheKey) (expected_schema : option Schema)
    (allow_stale_revalidation : bool) (record : RefRecord) : M (option DiskCacheHit) :=
  let p := ref_path_of key in
  h ← try_ (validate_hit record (object_of record) expected_schema);
  match h with
  | Ok hit =>
      _ ← (if allow_stale_revalidation then mret tt
           else now ← now_wall E; _ ← on_proc (set_access <[p := epoch_ms now]>); bump Hits 1);
      mret (Some hit)
  | Err _ =>
      _ ← drop_lease (object_of record);
      _ ← discard p record Corruptions; mret None
  end.

Definition lookup_inner (key : CacheKey) (expected_schema : option Schema)
    (allow_stale_revalidation : bool) : M (option DiskCacheHit) :=
  o ← observe key allow_stale_revalidation;
  match o with
  | None => mret None
  | Some record => finish_lookup key expected_schema allow_stale_revalidation record
  end.

Definition lookup_key (key : CacheKey) : M (option DiskCacheHit) := lookup_inner key None false.
Definition lookup_expected_schema (key : CacheKey) (s : Schema) : M (option DiskCacheHit) :=
  lookup_inner key (Some s) false.
Definition lookup_for_revalidation_expected_schema (key : CacheKey) (s : Schema)
  : M (option DiskCacheHit) := lookup_inner key (Some s) true.

(** * Hits *)

Definition may_serve_on_error_at (hit : DiskCacheHit) (now : Z) : bool :=
  match r_stale_if_error_seconds (h_record hit) with
  | None => false
  | Some grace_seconds =>
      (Z.max 0 (epoch_ms now - r_expires_ms (h_record hit)) <=? Z.min u64_max (grace_seconds * 1000))
      && (r_expires_ms (h_record hit) <=? epoch_ms now)
  end.

(** What a reader of one partition yields. *)
Definition open_partition (hit : DiskCacheHit) (partition : nat) : M (list (option Batch)) :=
  match mf_parts (h_manifest hit) !! partition with
  | None => throw (DInvalid "invalid partition")
  | Some part =>
      b ← read_object_file (h_object hit) (pt_file part);
      match ipc_read b with
      | None => throw DArrow
      | Some (_, bs) => mret bs
      end
  end.

(** * Removal and revalidation *)

Definition remove_key (key : CacheKey) : M bool :=
  let p := ref_path_of key in
  _ ← lock_root;
  r ← try_ (read_ref p);
  match r with
  | Err (DIo NotFound) => mret false
  | Err e => throw e
  | Ok record => _ ← remove_record p record; _ ← refresh_current_stats; mret true
  end.

Definition hit_ref_path (hit : DiskCacheHit) : RefPath :=
  (r_identity_digest (h_record hit), ref_name (r_key_digest (h_record hit))).

Definition refreshed (r : RefRecord) (now : Z) (f : CacheFreshness) (cc : CacheControl) : RefRecord :=
  mkRefRecord (r_version r) (r_key_digest r) (r_identity_digest r) (r_generation r)
    (r_manifest_sha256 r) (epoch_ms now) (epoch_ms (expires_at f)) (r_catalog r) (r_function r)
    (r_stored_bytes r) (r_rows r) (r_batches r) (r_partitions r) (r_codec r) (r_at r)
    (etag cc) (last_modified cc) (valid_revalidation_control cc)
    (if valid_revalidation_control cc then positive_seconds (stale_if_error cc) else None).

(** [freshness.is_expired() && !freshness.is_immediately_stale()]. *)
Definition ran_out (f : CacheFreshness) : M bool :=
  now ← now_mono E; mret (is_expired f now && negb (is_immediately_stale f)).

Definition revalidate_freshness (hit : DiskCacheHit) (f : CacheFreshness) (cc : CacheControl) : M bool :=
  if no_store cc || negb (bool_decide (scope cc = CACHE_SCOPE_CATALOG))
     || (is_immediately_stale f && negb (valid_revalidation_control cc)) then mret false
  else if negb (r_revalidatable (h_record hit)) || negb (has_validators (h_record hit)) then mret false
  else
    out ← ran_out f;
    if out : bool then mret false
    else
      let p := hit_ref_path hit in
      _ ← lock_root;
      r ← try_ (read_ref p);
      match r with
      | Err (DIo NotFound) => mret false
      | Err e => throw e
      | Ok current =>
          if negb (bool_decide (current = h_record hit)) then mret false
          else
            now ← now_wall E;
            let r := refreshed current now f cc in
            _ ← write_replace_synced p (ref_json r);
            out ← ran_out f;
            if out : bool then
              _ ← remove_record_if_current p r; _ ← refresh_current_stats; mret false
            else
              _ ← on_proc (set_access <[p := epoch_ms now]>);
              _ ← bump Revalidations 1; mret true
      end.

Definition remove_hit (hit : DiskCacheHit) : M bool :=
  _ ← lock_root;
  removed ← remove_record_if_current (hit_ref_path hit) (h_record hit);
  _ ← refresh_current_stats; mret removed.

Definition record_stale_serve : M unit := bump StaleServes 1.

(** * Flushing, reaping and inspection *)

Definition flush_where (pred : RefPath → RefRecord → bool) : M Z :=
  _ ← lock_root; removed ← remove_matching_refs pred; _ ← refresh_current_stats; mret removed.

Definition flush_scope (identity_scope : string) : M Z :=
  flush_where (λ p _, bool_decide (p.1 = digest (as_bytes identity_scope))).
Definition flush_catalog (catalog : string) : M Z :=
  flush_where (λ _ r, bool_decide (r_catalog r = catalog)).
Definition flush_all : M Z :=
  _ ← lock_root;
  a ← remove_matching_refs (λ _ _, true); b ← remove_invalid_refs;
  _ ← refresh_current_stats; mret (a + b).

(** The cleaning [reap] and [reconcile_on_open] share. *)
Definition clean : M unit :=
  _ ← remove_invalid_refs; _ ← remove_expired; _ ← remove_old_temps; _ ← remove_orphan_objects;
  _ ← make_room 0 None; refresh_current_stats.

Definition reap : M Z :=
  _ ← lock_root; before ← current_size_unlocked; _ ← clean; after ← current_size_unlocked;
  mret (Z.max 0 (before.1 - after.1)).

Definition reconcile_on_open : M unit := _ ← lock_root; clean.

Definition stats_snapshot : M DiskCacheStats :=
  _ ← lock_root; _ ← refresh_current_stats; p ← get_proc; mret (p_stats p).

Definition entry_info (now : Z) (r : RefRecord) : DiskCacheEntryInfo :=
  mkEntryInfo (r_key_digest r) (r_catalog r) (r_function r) (r_stored_bytes r) (r_rows r)
    (r_batches r) (r_partitions r) (r_codec r) (Z.max 0 (now - r_created_ms r))
    (Z.max 0 (r_expires_ms r - now)) (r_at r) (bool_decide (is_Some (r_etag r)))
    (bool_decide (is_Some (r_last_modified r))) (r_revalidatable r).

Definition entries : M (list DiskCacheEntryInfo) :=
  _ ← lock_root; now ← now_wall E; rs ← refs;
  mret ((λ e, entry_info (epoch_ms now) e.2) <$> rs).
End cache.

(** * Opening *)

Section opening.
Context `{!DiskIpc} `{!DiskHash} `{!DiskJson} (E : Env).

Definition remove_root_file (name : string) : M unit :=
  _ ← write_io E; _ ← on_disk (set_root_files (delete name)); write_io E.

Definition is_secret_temp (name : string) : bool :=
  bool_decide (is_Some (strip_prefix ".secret.tmp-" name)).

Definition create_secret : M bytes :=
  s ← random E 32; r ← random E 16;
  let t := ".secret.tmp-" +:+ hex r in
  d ← get_disk;
  match root_files d !! t with
  | Some _ => throw (DIo AlreadyExists)
  | None =>
      n ← tick;
      if write_fails E n
      then _ ← on_disk (set_root_files <[t := take (progress E n) s]>); throw (DIo OtherIo)
      else
        _ ← on_disk (set_root_files <[t := s]>);
        renamed ← try_ (write_io E);
        match renamed with
        | Err e => _ ← ignore (remove_root_file t); throw e
        | Ok _ =>
            _ ← on_disk (set_root_files (λ m, <[SECRET_FILE := s]> (delete t m)));
            _ ← write_io E; _ ← write_io E; mret s
        end
  end.

Definition load_or_create_secret : M bytes :=
  _ ← read_io E; d ← get_disk;
  _ ← for_each remove_root_file (filter (λ n, is_secret_temp n = true) (map_to_list (root_files d)).*1);
  _ ← read_io E; d ← get_disk;
  match root_files d !! SECRET_FILE with
  | Some b =>
      _ ← write_io E;
      if (length b =? 32)%nat then mret b else throw (DIo InvalidData)
  | None => create_secret
  end.

(** [DiskCache::open] in the process [pid_]; making the directories and the lock
    files has no contents of its own. *)
Definition open_cache (opts : DiskCacheOptions) (pid_ : Z) : M Inner :=
  if bool_decide (o_root opts = ""%string) then throw (DInvalid "the durable cache root must not be empty")
  else
    _ ← write_io E; _ ← write_io E;
    s ← load_or_create_secret;
    _ ← write_io E;
    let self := mkInner opts s pid_ in
    _ ← reconcile_on_open E self; mret self.
End opening.

(** A concrete instance of the libraries the disk cache uses, and a run of it,
    for the examples of the theorems. *)
Definition toy_read (b : bytes) : option (nat * list (option (nat * nat))) :=
  match de (T := nat) b with
  | None => None
  | Some (s, b) =>
      match de (T := list (nat * nat)) b with
      | Some (bs, [x00]) => Some (s, Some <$> bs)
      | _ => None
      end
  end.

(** Schemas are numbers, a batch is its schema and its number of rows. *)
#[export] Instance toy_ipc : DiskIpc := {|
  Schema := nat;
  Batch := nat * nat;
  batch_schema := fst;
  num_rows b := Z.of_nat b.2;
  schema_message s := ser s;
  ipc_partial _ s bs := ser s ++ ser bs;
  ipc_file _ s bs := ser s ++ ser bs ++ [x00];
  ipc_read := toy_read;
|}.

#[export] Instance toy_ipc_laws : DiskIpcLaws.
Proof.
  split.
  - intros [s n]. cbn. lia.
  - intros codec schema bs _. cbn [ipc_read ipc_file toy_ipc].
    unfold toy_read. by rewrite !de_ser.
Qed.

Definition toy_sum (b : bytes) : bytes :=
  le_bytes 32 (foldl (λ acc x, (acc * 257 + Z_of_byte x + 1) mod 2 ^ 256) 7 b).

#[export] Instance toy_hash : DiskHash := {| sha256 := toy_sum; hmac_sha256 k b := toy_sum (k ++ b) |}.
#[export] Instance toy_hash_laws : DiskHashLaws.
Proof. split; intros; apply length_le_bytes. Qed.

#[export] Instance Ser_codec : Ser DiskCacheCodec :=
  ser_via (λ c, match c with CodecNone => O | CodecZstd => 1%nat | CodecLz4 => 2%nat end)
          (λ n, match n with O => CodecNone | 1%nat => CodecZstd | _ => CodecLz4 end)
          ltac:(by intros []).

#[export] Instance Ser_Z : Ser Z :=
  ser_via (λ z, match z with Z0 => None | Zpos p => Some (true, p) | Zneg p => Some (false, p) end)
          (λ o, match o with None => Z0 | Some (true, p) => Zpos p | Some (false, p) => Zneg p end)
          ltac:(by intros []).

#[export] Instance Ser_record : Ser RefRecord :=
  ser_via
    (λ r, (r_version r, r_key_digest r, r_identity_digest r, r_generation r, r_manifest_sha256 r,
           (r_created_ms r, r_expires_ms r, r_catalog r, r_function r, r_stored_bytes r, r_rows r),
           (r_batches r, r_partitions r, r_codec r, r_at r, r_etag r, r_last_modified r,
            r_revalidatable r, r_stale_if_error_seconds r)))
    (λ '(a, b, c, d, e, (f, g, h, i, j, k), (l, m, n, o, p, q, r, s)),
       mkRefRecord a b c d e f g h i j k l m n o p q r s)
    ltac:(by intros []).

#[export] Instance Ser_part : Ser PartRecord :=
  ser_via (λ p, (pt_file p, pt_bytes p, pt_rows p, pt_batches p, pt_sha256 p))
          (λ '(a, b, c, d, e), mkPartRecord a b c d e) ltac:(by intros []).

#[export] Instance Ser_manifest : Ser Manifest :=
  ser_via (λ m, (mf_version m, mf_key_digest m, mf_schema_sha256 m, mf_codec m, mf_rows m,
                 mf_stored_bytes m, mf_parts m))
          (λ '(a, b, c, d, e, f, g), mkManifest a b c d e f g) ltac:(by intros []).

#[export] Instance toy_json : DiskJson := {|
  ref_json r := ser r;
  ref_of_json b := fst <$> de b;
  manifest_json m := ser m;
  manifest_of_json b := fst <$> de b;
|}.
#[export] Instance toy_json_laws : DiskJsonLaws.
Proof.
  split; intros x; cbn [ref_of_json ref_json manifest_of_json manifest_json toy_json];
    rewrite <- (app_nil_r (ser x)), de_ser; done.
Qed.

(** A quiet environment: a second passes at every interaction and nothing fails. *)
Definition quiet : Env :=
  mkEnv (λ n, (1000 + Z.of_nat n) * NANOS) (λ n, Z.of_nat n * NANOS)
    (λ n k, le_bytes k (Z.of_nat n)) (λ _, false) (λ _, false) (λ _, O).

Definition toy_cache : Inner := mkInner (mkDiskOptions "/var/cache" 1000 3 CodecNone) [x2a] 7.
Definition toy_key (name : string) : CacheKey :=
  mkCacheKey "cat" "alice" "w" name [] None None 1 None [] [] None None None None.
Definition toy_control : CacheControl := ttl 3600.

(** Capture two batches over two partitions and commit them for an hour. *)
Definition toy_store (name : string) : M DiskCacheCommit :=
  c ← begin_capture quiet toy_cache 5%nat 2;
  '(_, c) ← push_batch quiet c 0 (5, 10)%nat;
  '(_, c) ← push_batch quiet c 1 (5, 3)%nat;
  commit quiet toy_cache (toy_key name) c (3600 * NANOS) (Some toy_control).

Definition toy_world : World :=
  (toy_store "f" (mkWorld empty_disk new_proc) 0%nat).1.2.

Example toy_stored :
  (toy_store "f" (mkWorld empty_disk new_proc) 0%nat).1.1 = Ok (Stored 25 13 2).
Proof. vm_compute. reflexivity. Qed.
