(* ===== verification/DiskCacheLeases.v ===== *)
(** Leases of the disk cache: nothing any process does removes or changes an
    object another handle still replays from. *)
From S2P Require Import Prelude CacheControl ResultCache DiskIo DiskCache.

Open Scope nat_scope.

(** * Programs that respect locks *)

(** A held lock means the lease file is there. *)
Definition locks_ok (d : Disk) : Prop :=
  ∀ o, 0 < lock_count d o → has_file d o ".lease" = true.

(** Locks and leases stay, and so does every locked object. *)
Record keeps (w w' : World) : Prop := {
  keeps_locks : locks (disk w') = locks (disk w);
  keeps_leases : leases (proc w') = leases (proc w);
  keeps_objects o : 0 < lock_count (disk w) o → objects (disk w') !! o = objects (disk w) !! o;
}.

#[export] Instance keeps_preorder : PreOrder keeps.
Proof.
  split; [by intros w; split|].
  intros w1 w2 w3 [L1 P1 O1] [L2 P2 O2]. split; [congruence..|].
  intros o Ho. rewrite O2, O1; [done|done|]. unfold lock_count in *. by rewrite L1.
Qed.

Lemma keeps_locks_ok w w' : keeps w w' → locks_ok (disk w) → locks_ok (disk w').
Proof.
  intros [L _ O] H o Ho. unfold lock_count in Ho. rewrite L in Ho.
  unfold has_file. rewrite O by done. exact (H o Ho).
Qed.

Definition safe {A} (m : M A) : Prop := ∀ w, locks_ok (disk w) → wp m (λ _, keeps w) w.

Create HintDb disk_safe discriminated.

Lemma safe_ret {A} (a : A) : safe (mret a).
Proof. intros w _. by apply wp_ret. Qed.
Lemma safe_throw {A} e : safe (A := A) (throw e).
Proof. intros w _. by apply wp_throw. Qed.
Lemma safe_lift {A} (r : io A) : safe (lift r).
Proof. intros w _. by apply wp_lift. Qed.
Lemma safe_bind {A B} (m : M A) (k : A → M B) : safe m → (∀ a, safe (k a)) → safe (m ≫= k).
Proof.
  intros Hm Hk w Hw. apply wp_bind. eapply wp_mono; [by apply Hm|].
  intros [a|e] w' K; [|done]. eapply wp_mono; [apply Hk; by eapply keeps_locks_ok|].
  intros r w'' K'. by etrans.
Qed.
Lemma safe_fmap {A B} (m : M A) (f : A → B) : safe m → safe (f <$> m).
Proof. intros Hm. apply safe_bind; [done|]. intros a. apply safe_ret. Qed.
Lemma safe_try {A} (m : M A) : safe m → safe (try_ m).
Proof. intros Hm w Hw. apply wp_try. by apply Hm. Qed.
Lemma safe_ignore {A} (m : M A) : safe m → safe (ignore m).
Proof. intros Hm. apply safe_bind; [by apply safe_try|]. intros _. apply safe_ret. Qed.
Lemma safe_get_disk : safe get_disk.
Proof. intros w _. by apply wp_get_disk. Qed.
Lemma safe_get_proc : safe get_proc.
Proof. intros w _. by apply wp_get_proc. Qed.
Lemma safe_tick : safe tick.
Proof. intros w _. by apply wp_tick. Qed.
Lemma safe_for_each {A} (f : A → M unit) l : (∀ a, safe (f a)) → safe (for_each f l).
Proof. intros Hf. induction l as [|a l IH]; [apply safe_ret|]. by apply safe_bind. Qed.

(** An update of the disk that leaves objects and locks alone. *)
Lemma safe_on_disk f :
  (∀ d, objects (f d) = objects d) → (∀ d, locks (f d) = locks d) → safe (on_disk f).
Proof. intros H1 H2 w _. apply wp_on_disk. split; cbn; [done..|]. intros o _. by rewrite H1. Qed.
Lemma safe_on_proc f : (∀ p, leases (f p) = leases p) → safe (on_proc f).
Proof. intros H w _. apply wp_on_proc. split; cbn; [done|apply H|done]. Qed.

#[export] Hint Resolve safe_ret safe_throw safe_lift safe_get_disk safe_get_proc safe_tick : disk_safe.

(** Walks the structure of a program. *)
Ltac safe_step :=
  match goal with
  | |- safe (_ ≫= _) => apply safe_bind; [|intros ?]
  | |- safe (_ <$> _) => apply safe_fmap
  | |- safe (try_ _) => apply safe_try
  | |- safe (ignore _) => apply safe_ignore
  | |- safe (for_each _ _) => apply safe_for_each; intros ?
  | |- safe (on_disk _) => apply safe_on_disk; [by intros []..]
  | |- safe (on_proc _) => apply safe_on_proc; by intros []
  | |- safe (if _ then _ else _) => case_match
  | |- safe (match _ with _ => _ end) => case_match
  | |- safe (let _ := _ in _) => cbv zeta
  | |- _ => solve [eauto with disk_safe]
  end.
Ltac safe_auto := repeat safe_step.

Section calls.
Context (E : Env).

Lemma safe_read_io : safe (read_io E). Proof. unfold read_io. safe_auto. Qed.
Lemma safe_write_io : safe (write_io E). Proof. unfold write_io. safe_auto. Qed.
Lemma safe_now_wall : safe (now_wall E). Proof. unfold now_wall. safe_auto. Qed.
Lemma safe_now_mono : safe (now_mono E). Proof. unfold now_mono. safe_auto. Qed.
Lemma safe_random k : safe (random E k). Proof. unfold random. safe_auto. Qed.
Lemma safe_bump c k : safe (bump c k). Proof. unfold bump. safe_auto. Qed.
#[local] Hint Resolve safe_read_io safe_write_io : disk_safe.

Lemma safe_read_ref_file p : safe (read_ref_file E p).
Proof. unfold read_ref_file. safe_auto. Qed.
Lemma safe_sync_objects s : safe (sync_objects E s).
Proof. unfold sync_objects. safe_auto. Qed.
Lemma safe_create_objects_dir s : safe (create_objects_dir E s).
Proof. unfold create_objects_dir. safe_auto. Qed.
Lemma safe_write_new_ref_file p b : safe (write_new_ref_file E p b).
Proof. unfold write_new_ref_file. safe_auto. Qed.
Lemma safe_remove_ref_file p : safe (remove_ref_file E p).
Proof. unfold remove_ref_file. safe_auto. Qed.
Lemma safe_remove_temp_dir t : safe (remove_temp_dir E t).
Proof. unfold remove_temp_dir. safe_auto. Qed.
Lemma safe_put_temp_file t n b : safe (put_temp_file E t n b).
Proof. unfold put_temp_file, now_wall. safe_auto. Qed.
#[local] Hint Resolve safe_put_temp_file : disk_safe.
Lemma safe_write_new_temp_file t n b : safe (write_new_temp_file E t n b).
Proof. unfold write_new_temp_file. safe_auto. Qed.
Lemma safe_create_temp_dir t : safe (create_temp_dir E t).
Proof. unfold create_temp_dir, now_wall. safe_auto. Qed.

(** The two calls that touch objects. *)
Lemma keeps_objects_update w f o :
  lock_count (disk w) o = O → (∀ m o', o' ≠ o → f m !! o' = m !! o') →
  keeps w (mkWorld (set_objects f (disk w)) (proc w)).
Proof.
  intros Ho Hf. split; [done..|]. cbn. intros o' Ho'. apply Hf. intros ->. lia.
Qed.

Lemma wp_remove_object_dir o w :
  lock_count (disk w) o = O → locks_ok (disk w) → wp (remove_object_dir E o) (λ _, keeps w) w.
Proof.
  intros Ho Hw. unfold remove_object_dir. apply wp_bind, wp_get_disk. destruct (_ !! o).
  - apply wp_bind, wp_tick. intros n. destruct (write_fails E n).
    + apply wp_bind, wp_on_disk, wp_throw. apply keeps_objects_update with o; [done|].
      intros. by rewrite lookup_insert_ne.
    + apply wp_bind, wp_on_disk.
      assert (keeps w (mkWorld (set_objects (delete o) (disk w)) (proc w))) as K.
      { apply keeps_objects_update with o; [done|]. intros. by rewrite lookup_delete_ne. }
      eapply wp_mono; [apply safe_sync_objects; by eapply keeps_locks_ok|]. intros. by etrans.
  - apply (safe_bind _ (λ _, _)); [apply safe_write_io|intros; apply safe_sync_objects|done].
Qed.

Lemma safe_rename_temp t o : safe (rename_temp E t o).
Proof.
  unfold rename_temp. apply safe_bind; [apply safe_write_io|]. intros _ w Hw.
  apply wp_bind, wp_get_disk. destruct (temps _ !! t); [|by apply wp_throw].
  case_bool_decide as Hf; [|by apply wp_throw].
  apply wp_bind, wp_on_disk, wp_on_disk. split; [done..|]. cbn. intros o' Ho'.
  rewrite lookup_insert_ne; [done|]. intros ->. specialize (Hw _ Ho'). unfold has_file in Hw.
  destruct (objects (disk w) !! o'); cbn in Hf; [|done]. subst. by rewrite lookup_empty in Hw.
Qed.
End calls.

#[export] Hint Resolve safe_read_io safe_write_io safe_now_wall safe_now_mono safe_random safe_bump
  safe_read_ref_file safe_sync_objects safe_create_objects_dir safe_write_new_ref_file
  safe_remove_ref_file safe_remove_temp_dir safe_put_temp_file safe_write_new_temp_file
  safe_create_temp_dir safe_rename_temp : disk_safe.

(** * The operations of the cache *)

Section operations.
Context `{!DiskIpc} `{!DiskHash} `{!DiskJson} (E : Env) (self : Inner).

(** The check that carries the argument: an object is removed only when the
    exclusive lock on its lease file could be taken. *)
Lemma safe_remove_object_if_unleased o : safe (remove_object_if_unleased E o).
Proof.
  intros w Hw. unfold remove_object_if_unleased. apply wp_bind, wp_get_proc.
  case_bool_decide; [by apply wp_ret|].
  apply wp_bind, wp_read_io; [done|]. apply wp_bind, wp_get_disk.
  destruct (has_file _ _ _) eqn:Hl.
  - apply wp_bind, wp_write_io; [done|].
    destruct (0 <? lock_count (disk w) o) eqn:Hn; [by apply wp_ret|].
    apply Nat.ltb_ge in Hn. apply wp_remove_object_dir; [lia|done].
  - apply wp_remove_object_dir; [|done].
    destruct (lock_count (disk w) o) eqn:Hn; [done|]. rewrite Hw in Hl; [done|lia].
Qed.
#[local] Hint Resolve safe_remove_object_if_unleased : disk_safe.

Lemma safe_read_ref p : safe (read_ref E p).
Proof. unfold read_ref. safe_auto. Qed.
Lemma safe_lock_root : safe (lock_root E).
Proof. unfold lock_root. safe_auto. Qed.
#[local] Hint Resolve safe_read_ref safe_lock_root : disk_safe.
Lemma safe_collect_refs l : safe (collect_refs E l).
Proof. induction l; cbn; safe_auto. Qed.
Lemma safe_ref_paths : safe (ref_paths E).
Proof. unfold ref_paths. safe_auto. Qed.
#[local] Hint Resolve safe_collect_refs safe_ref_paths : disk_safe.
Lemma safe_refs : safe (refs E).
Proof. unfold refs. safe_auto. Qed.
#[local] Hint Resolve safe_refs : disk_safe.
Lemma safe_current_size : safe (current_size_unlocked E).
Proof. unfold current_size_unlocked. safe_auto. Qed.
#[local] Hint Resolve safe_current_size : disk_safe.
Lemma safe_refresh : safe (refresh_current_stats E).
Proof. unfold refresh_current_stats. safe_auto. Qed.
Lemma safe_remove_record p r : safe (remove_record E p r).
Proof. unfold remove_record. safe_auto. Qed.
#[local] Hint Resolve safe_refresh safe_remove_record : disk_safe.
Lemma safe_remove_record_if_current p r : safe (remove_record_if_current E p r).
Proof. unfold remove_record_if_current. safe_auto. Qed.
Lemma safe_remove_where pred l : safe (remove_where E pred l).
Proof. induction l as [|[p r] l IH]; cbn [remove_where]; safe_auto. Qed.
#[local] Hint Resolve safe_remove_record_if_current safe_remove_where : disk_safe.
Lemma safe_remove_matching_refs pred : safe (remove_matching_refs E pred).
Proof. unfold remove_matching_refs. safe_auto. Qed.
Lemma safe_remove_expired : safe (remove_expired E).
Proof. unfold remove_expired. safe_auto. Qed.
Lemma safe_drop_invalid l : safe (drop_invalid E l).
Proof. induction l as [|p l IH]; cbn [drop_invalid]; [safe_auto|]. unfold valid_ref. safe_auto. Qed.
#[local] Hint Resolve safe_remove_matching_refs safe_remove_expired safe_drop_invalid : disk_safe.
Lemma safe_remove_invalid_refs : safe (remove_invalid_refs E).
Proof. unfold remove_invalid_refs. safe_auto. Qed.
Lemma safe_remove_orphan_objects : safe (remove_orphan_objects E).
Proof. unfold remove_orphan_objects. safe_auto. Qed.
Lemma safe_remove_old_temp a now t : safe (remove_old_temp E a now t).
Proof. unfold remove_old_temp. safe_auto. Qed.
#[local] Hint Resolve safe_remove_invalid_refs safe_remove_orphan_objects safe_remove_old_temp : disk_safe.
Lemma safe_remove_old_temps : safe (remove_old_temps E).
Proof. unfold remove_old_temps. safe_auto. Qed.
Lemma safe_make_room_loop fuel i r : safe (make_room_loop E self fuel i r).
Proof.
  induction fuel; cbn [make_room_loop]; [safe_auto|].
  unfold orphan_usage, retained_usage, replacement_will_be_retained. safe_auto.
Qed.
#[local] Hint Resolve safe_remove_old_temps safe_make_room_loop : disk_safe.
Lemma safe_make_room i r : safe (make_room E self i r).
Proof. unfold make_room. safe_auto. Qed.
#[local] Hint Resolve safe_make_room : disk_safe.

Lemma safe_drop_lease_of c t : safe (drop_lease_of c t).
Proof. unfold drop_lease_of. safe_auto. Qed.
#[local] Hint Resolve safe_drop_lease_of : disk_safe.
Lemma safe_remove_temp c b : safe (remove_temp E c b).
Proof. unfold remove_temp. safe_auto. Qed.
#[local] Hint Resolve safe_remove_temp : disk_safe.
Lemma safe_drop_capture c : safe (drop_capture E c).
Proof. unfold drop_capture. safe_auto. Qed.
Lemma safe_disarm_temp c : safe (disarm_temp c).
Proof. unfold disarm_temp. safe_auto. Qed.
#[local] Hint Resolve safe_drop_capture safe_disarm_temp : disk_safe.
Lemma safe_abort c : safe (abort E c).
Proof. unfold abort. safe_auto. Qed.
Lemma safe_begin_capture s n : safe (begin_capture E self s n).
Proof. unfold begin_capture, unique_generation, open_writer. safe_auto. Qed.
Lemma safe_written codec s ws : safe (written_lengths E codec s ws).
Proof. induction ws as [|[]]; cbn [written_lengths]; safe_auto. Qed.
#[local] Hint Resolve safe_written : disk_safe.
Lemma safe_push_batch c i b : safe (push_batch E c i b).
Proof. unfold push_batch. safe_auto. Qed.
Lemma safe_close_writers c t i ws : safe (close_writers E c t i ws).
Proof. revert i. induction ws as [|[]]; intros i; cbn [close_writers]; unfold read_temp_file; safe_auto. Qed.
Lemma safe_count_rows t i ps : safe (count_rows E t i ps).
Proof. revert i. induction ps; intros i; cbn [count_rows]; unfold read_temp_file; safe_auto. Qed.
#[local] Hint Resolve safe_close_writers safe_count_rows : disk_safe.
Lemma safe_finish_parts c t : safe (finish_parts E c t).
Proof. unfold finish_parts. safe_auto. Qed.
Lemma safe_write_replace k p b : safe (write_replace_loop E k p b).
Proof. induction k; cbn [write_replace_loop]; safe_auto. Qed.
#[local] Hint Resolve safe_finish_parts safe_write_replace : disk_safe.
Lemma safe_write_replace_synced p b : safe (write_replace_synced E p b).
Proof. unfold write_replace_synced. safe_auto. Qed.
#[local] Hint Resolve safe_write_replace_synced : disk_safe.
Lemma safe_roll_back rb : safe (roll_back E rb).
Proof. unfold roll_back. safe_auto. Qed.
Lemma safe_guarding {A} c (m : M A) : safe m → safe (guarding E c m).
Proof. intros H'. unfold guarding. safe_auto. Qed.
#[local] Hint Resolve safe_roll_back safe_guarding : disk_safe.
Lemma safe_refuse c r : safe (refuse E c r).
Proof. unfold refuse, skip. safe_auto. Qed.
Lemma safe_skip c r : safe (skip E c r).
Proof. unfold skip. safe_auto. Qed.
#[local] Hint Resolve safe_refuse safe_skip : disk_safe.
Lemma safe_lapsed x f cc : safe (lapsed E x f cc).
Proof. unfold lapsed, expired. safe_auto. Qed.
#[local] Hint Resolve safe_lapsed : disk_safe.
Lemma safe_prepare x cc key c t ps : safe (prepare E self x cc key c t ps).
Proof. unfold prepare. safe_auto. Qed.
Lemma safe_publish x f cc p r : safe (publish E x f cc p r).
Proof. unfold publish. safe_auto. Qed.
#[local] Hint Resolve safe_prepare safe_publish : disk_safe.
Lemma safe_publish_or_roll_back x f cc p old r : safe (publish_or_roll_back E x f cc p old r).
Proof. unfold publish_or_roll_back. safe_auto. Qed.
#[local] Hint Resolve safe_publish_or_roll_back : disk_safe.
Lemma safe_commit_locked x f cc c t p r : safe (commit_locked E self x f cc c t p r).
Proof. unfold commit_locked. safe_auto; apply safe_guarding; safe_auto. Qed.
#[local] Hint Resolve safe_commit_locked : disk_safe.
Lemma safe_commit_with_deadline x f cc key c : safe (commit_with_deadline E self x f cc key c).
Proof. unfold commit_with_deadline, skip_reason. safe_auto. Qed.

Lemma safe_discard p r c : safe (discard E p r c).
Proof. unfold discard. safe_auto. Qed.
Lemma safe_validate_parts o m i s b r ps : safe (validate_parts E o m i s b r ps).
Proof.
  revert i s b r. induction ps; intros; cbn [validate_parts]; unfold read_object_file; safe_auto.
Qed.
#[local] Hint Resolve safe_discard safe_validate_parts : disk_safe.
Lemma safe_validate_hit r o s : safe (validate_hit E r o s).
Proof. unfold validate_hit, read_object_file. safe_auto. Qed.
Lemma safe_remove_key key : safe (remove_key E self key).
Proof. unfold remove_key. safe_auto. Qed.
Lemma safe_revalidate hit f cc : safe (revalidate_freshness E hit f cc).
Proof. unfold revalidate_freshness, ran_out. safe_auto. Qed.
Lemma safe_remove_hit hit : safe (remove_hit E hit).
Proof. unfold remove_hit. safe_auto. Qed.
Lemma safe_flush_where pred : safe (flush_where E pred).
Proof. unfold flush_where. safe_auto. Qed.
Lemma safe_flush_all : safe (flush_all E).
Proof. unfold flush_all. safe_auto. Qed.
Lemma safe_clean : safe (clean E self).
Proof. unfold clean. safe_auto. Qed.
#[local] Hint Resolve safe_clean : disk_safe.
Lemma safe_reap : safe (reap E self).
Proof. unfold reap. safe_auto. Qed.
Lemma safe_reconcile : safe (reconcile_on_open E self).
Proof. unfold reconcile_on_open. safe_auto. Qed.
End operations.
#[export] Hint Resolve safe_remove_object_if_unleased safe_read_ref safe_lock_root safe_refs safe_current_size safe_refresh
  safe_remove_record_if_current safe_abort safe_begin_capture safe_push_batch safe_commit_with_deadline
  safe_discard safe_validate_hit safe_remove_key safe_revalidate safe_remove_hit safe_flush_where
  safe_flush_all safe_clean safe_reap safe_reconcile : disk_safe.

(** * Processes that share a root *)

Lemma lock_count_retain d o o' :
  lock_count (set_locks (retain o) d) o' = (if decide (o = o') then 1 else 0) + lock_count d o'.
Proof.
  unfold lock_count, retain; cbn. case_decide; subst; [by rewrite lookup_insert_eq|by rewrite lookup_insert_ne].
Qed.

Lemma lock_count_release d o o' :
  lock_count (set_locks (release o) d) o' = lock_count d o' - (if decide (o = o') then 1 else 0).
Proof.
  unfold lock_count, release; cbn. case_decide; subst.
  - destruct (locks d !! o') as [[|[|n]]|] eqn:El; rewrite ?lookup_delete_eq, ?lookup_insert_eq, ?El; done.
  - rewrite Nat.sub_0_r. destruct (locks d !! o) as [[|[|n]]|];
      rewrite ?lookup_delete_ne, ?lookup_insert_ne by done; done.
Qed.

Record system := mkSystem {
  s_disk : Disk;
  s_procs : nat → Proc;
  (** Who holds a lease on what, and the files the object had when it was taken. *)
  s_handles : list (nat * ObjPath * Files);
}.

Definition held (hs : list (nat * ObjPath * Files)) (o : ObjPath) : nat :=
  length (filter (λ h : nat * ObjPath * Files, h.1.2 = o) hs).

Lemma held_cons p o f hs o' : held ((p, o, f) :: hs) o' = (if decide (o = o') then 1 else 0) + held hs o'.
Proof. unfold held. rewrite filter_cons. cbn. by case_decide. Qed.
Lemma held_middle h1 p o f h2 o' : held (h1 ++ (p, o, f) :: h2) o' = (if decide (o = o') then 1 else 0) + held (h1 ++ h2) o'.
Proof.
  unfold held. rewrite !filter_app, filter_cons, !length_app. cbn. case_decide; cbn; lia.
Qed.
Lemma held_elem p o f hs : (p, o, f) ∈ hs → 0 < held hs o.
Proof.
  intros H. unfold held. assert ((p, o, f) ∈ filter (λ h : nat * ObjPath * Files, h.1.2 = o) hs) as Hin.
  { by apply list_elem_of_filter. }
  destruct (filter _ _); [by apply not_elem_of_nil in Hin|cbn; lia].
Qed.

Section system.
Context `{!DiskIpc} `{!DiskHash} `{!DiskJson}.

(** The calls that take no lease of an object. *)
Inductive request :=
| QOpen (opts : DiskCacheOptions) (pid_ : Z)
| QBegin (schema : Schema) (partitions : nat)
| QPush (c : DiskCapture) (partition : nat) (b : Batch)
| QAbort (c : DiskCapture)
| QCommit (key : CacheKey) (c : DiskCapture) (expires_at_ : Z) (f : option CacheFreshness)
    (control : option CacheControl)
| QRemove (key : CacheKey)
| QRevalidate (hit : DiskCacheHit) (f : CacheFreshness) (control : CacheControl)
| QRemoveHit (hit : DiskCacheHit)
| QFlushScope (scope_ : string)
| QFlushCatalog (catalog_ : string)
| QFlushAll
| QReap
| QStats
| QEntries.

Definition serve (E : Env) (self : Inner) (q : request) : M unit :=
  match q with
  | QOpen opts pid_ => _ ← open_cache E opts pid_; mret tt
  | QBegin schema n => _ ← begin_capture E self schema n; mret tt
  | QPush c i b => _ ← push_batch E c i b; mret tt
  | QAbort c => abort E c
  | QCommit key c x f cc => _ ← commit_with_deadline E self x f cc key c; mret tt
  | QRemove key => _ ← remove_key E self key; mret tt
  | QRevalidate hit f cc => _ ← revalidate_freshness E hit f cc; mret tt
  | QRemoveHit hit => _ ← remove_hit E hit; mret tt
  | QFlushScope s => _ ← flush_scope E self s; mret tt
  | QFlushCatalog c => _ ← flush_catalog E c; mret tt
  | QFlushAll => _ ← flush_all E; mret tt
  | QReap => _ ← reap E self; mret tt
  | QStats => _ ← stats_snapshot E; mret tt
  | QEntries => _ ← entries E; mret tt
  end.

Definition world_of (s : system) (p : nat) : World := mkWorld (s_disk s) (s_procs s p).
Definition after (s : system) (p : nat) (w : World) (hs : list (nat * ObjPath * Files)) : system :=
  mkSystem (disk w) (λ q, if decide (q = p) then proc w else s_procs s q) hs.

(** One atomic section of one process; the environment, the options and the
    secret may differ at every step, and calls may fail anywhere. *)
Inductive sys_step : system → system → Prop :=
| step_call s p E self q n r w n' :
    serve E self q (world_of s p) n = (r, w, n') →
    sys_step s (after s p w (s_handles s))
| step_observe s p E self key stale n record w n' :
    observe E self key stale (world_of s p) n = (Ok (Some record), w, n') →
    sys_step s (after s p w
      ((p, object_of record, default ∅ (objects (disk w) !! object_of record)) :: s_handles s))
| step_miss s p E self key stale n r w n' :
    observe E self key stale (world_of s p) n = (r, w, n') → (∀ record, r ≠ Ok (Some record)) →
    sys_step s (after s p w (s_handles s))
| step_validated s p E self key expected stale record f n hit w n' :
    (p, object_of record, f) ∈ s_handles s →
    finish_lookup E self key expected stale record (world_of s p) n = (Ok (Some hit), w, n') →
    sys_step s (after s p w (s_handles s))
| step_rejected s p E self key expected stale record f h1 h2 n r w n' :
    s_handles s = h1 ++ (p, object_of record, f) :: h2 →
    finish_lookup E self key expected stale record (world_of s p) n = (r, w, n') →
    (∀ hit, r ≠ Ok (Some hit)) →
    sys_step s (after s p w (h1 ++ h2))
| step_drop s p o f h1 h2 n r w n' :
    s_handles s = h1 ++ (p, o, f) :: h2 →
    drop_lease o (world_of s p) n = (r, w, n') →
    sys_step s (after s p w (h1 ++ h2)).

Record system_inv (s : system) : Prop := {
  inv_locks : locks_ok (s_disk s);
  inv_held o : lock_count (s_disk s) o = held (s_handles s) o;
  inv_files p o f : (p, o, f) ∈ s_handles s → objects (s_disk s) !! o = Some f;
}.

Lemma safe_load_secret E : safe (load_or_create_secret E).
Proof. unfold load_or_create_secret, remove_root_file, create_secret, remove_root_file. safe_auto. Qed.

Lemma safe_serve E self q : safe (serve E self q).
Proof.
  destruct q; cbn [serve]; safe_auto; unfold open_cache, stats_snapshot, entries, flush_scope, flush_catalog;
    safe_auto; apply safe_load_secret.
Qed.

(** An observation that leads to validation holds a new lease; any other one
    leaves locked objects alone. *)
Record acquired (o : ObjPath) (w w' : World) : Prop := {
  acquired_locks : locks (disk w') = retain o (locks (disk w));
  acquired_lease : has_file (disk w') o ".lease" = true;
  acquired_objects o' : 0 < lock_count (disk w) o' → objects (disk w') !! o' = objects (disk w) !! o';
}.

Definition observed (w : World) (r : io (option RefRecord)) (w' : World) : Prop :=
  match r with Ok (Some record) => acquired (object_of record) w w' | _ => keeps w w' end.

Lemma observed_after (m : M (option RefRecord)) w w1 :
  keeps w w1 → wp m (observed w1) w1 → wp m (observed w) w1.
Proof.
  intros K Hm. eapply wp_mono; [exact Hm|]. intros [[record|]|e] w' Ho; cbn in *; [|by etrans..].
  destruct K as [L P O], Ho as [L' F' O']. split; [by rewrite L', L|done|].
  intros o Ho. rewrite O', O; [done|done|]. unfold lock_count in *. by rewrite L.
Qed.

Lemma observed_bind {A} (m : M A) (k : A → M (option RefRecord)) w :
  locks_ok (disk w) → safe m → (∀ a w', locks_ok (disk w') → wp (k a) (observed w') w') →
  wp (m ≫= k) (observed w) w.
Proof.
  intros Hw Hm Hk. apply wp_bind. eapply wp_mono; [by apply Hm|].
  intros [a|e] w' K; [|done]. apply observed_after; [done|]. apply Hk. by eapply keeps_locks_ok.
Qed.

Lemma observed_none w (m : M unit) :
  locks_ok (disk w) → safe m → wp (_ ← m; mret None) (observed w) w.
Proof. intros Hw Hm. apply observed_bind; [done..|]. intros. by apply wp_ret. Qed.

Lemma wp_acquire_lease E o w :
  locks_ok (disk w) → wp (acquire_lease E o) (λ r w', match r with Ok _ => acquired o w w' | Err _ => w' = w end) w.
Proof.
  intros Hw. unfold acquire_lease. apply wp_bind, wp_read_io; [done|]. apply wp_bind, wp_get_disk.
  destruct (has_file _ _ _) eqn:Hl; [|by apply wp_throw].
  apply wp_bind, wp_write_io; [done|]. apply wp_bind, wp_on_disk, wp_on_proc. by split.
Qed.

Lemma wp_observe E self key stale w :
  locks_ok (disk w) → wp (observe E self key stale) (observed w) w.
Proof.
  intros Hw. unfold observe. apply observed_bind; [done|auto with disk_safe|]. clear dependent w. intros _ w Hw.
  apply observed_bind; [done|safe_auto|]. clear dependent w. intros [b|e] w Hw; cycle 1.
  { repeat case_match; try by apply wp_throw. apply observed_none; [done|auto with disk_safe]. }
  destruct (parse_ref b) as [record|]; cycle 1.
  { do 5 (apply observed_bind; [try done|safe_auto|clear dependent w; intros ? w Hw]). by apply wp_ret. }
  case_match; [apply observed_none; [done|auto with disk_safe]|].
  apply observed_bind; [done|auto with disk_safe|]. clear dependent w. intros now w Hw. cbv zeta.
  case_match; [apply observed_none; [done|auto with disk_safe]|].
  case_match; [apply observed_none; [done|auto with disk_safe]|].
  apply wp_bind, wp_try. eapply wp_mono; [by apply wp_acquire_lease|].
  intros [[]|e] w' Ha; [by apply wp_ret|]. subst w'.
  repeat case_match; try by apply wp_throw. apply observed_none; [done|auto with disk_safe].
Qed.

(** A validated handle keeps its lease; a rejected one has given it back. *)
Record released (o : ObjPath) (w w' : World) : Prop := {
  released_locks : locks (disk w') = release o (locks (disk w));
  released_objects o' :
    0 < lock_count (set_locks (release o) (disk w)) o' → objects (disk w') !! o' = objects (disk w) !! o';
}.

Lemma wp_drop_lease o w : wp (drop_lease o) (λ _, released o w) w.
Proof. unfold drop_lease. apply wp_bind, wp_on_disk, wp_on_proc. by split. Qed.

Lemma released_locks_ok o w w' : released o w w' → locks_ok (disk w) → locks_ok (disk w').
Proof.
  intros [L O] Hok o' Ho'. unfold lock_count in Ho'. rewrite L in Ho'.
  change (0 < lock_count (set_locks (release o) (disk w)) o') in Ho'.
  unfold has_file. rewrite O by done. apply Hok. rewrite lock_count_release in Ho'. lia.
Qed.

Lemma wp_finish_lookup E self key expected stale record w :
  locks_ok (disk w) →
  wp (finish_lookup E self key expected stale record)
    (λ r w', match r with Ok (Some _) => keeps w w' | _ => released (object_of record) w w' end) w.
Proof.
  intros Hw. unfold finish_lookup. cbv zeta. apply wp_bind, wp_try.
  eapply wp_mono; [by apply safe_validate_hit|]. intros [hit|e] w1 K1.
  - apply wp_bind. destruct stale; [by apply wp_ret, wp_ret|].
    apply wp_bind, wp_fmap_tick. intros n. apply wp_bind, wp_on_proc, wp_on_proc, wp_ret.
    etrans; [exact K1|by split].
  - apply wp_bind. eapply wp_mono; [apply wp_drop_lease|]. intros r w2 R.
    assert (released (object_of record) w w2) as R2.
    { destruct K1 as [L P O], R as [L' O']. split; [by rewrite L', L|]. intros o' Ho'.
      rewrite O', O; [done| |]; [|by unfold lock_count in *; cbn in *; rewrite L].
      rewrite lock_count_release in Ho'. lia. }
    assert (∀ w3, keeps w2 w3 → released (object_of record) w w3) as Hfin.
    { intros w3 [L P O]. split; [rewrite L; apply R2|]. intros o' Ho'.
      rewrite O; [by apply R2|]. unfold lock_count. by rewrite (released_locks _ _ _ R2). }
    destruct r as [[]|]; [|by apply Hfin].
    apply wp_bind. eapply wp_mono; [apply safe_discard; by eapply released_locks_ok|].
    intros [?|?] w3 K3; [apply wp_ret|]; by apply Hfin.
Qed.

Lemma inv_after s p w : system_inv s → keeps (world_of s p) w → system_inv (after s p w (s_handles s)).
Proof.
  intros [Hl Hh Hf] K. assert (∀ o, lock_count (disk w) o = lock_count (s_disk s) o) as Hc.
  { intros o. unfold lock_count. by rewrite (keeps_locks _ _ K). }
  split; cbn [after s_disk s_handles].
  - by eapply keeps_locks_ok.
  - intros o. by rewrite Hc.
  - intros q o f Hin. rewrite (keeps_objects _ _ K); [by eapply Hf|].
    change (0 < lock_count (s_disk s) o). rewrite Hh. by eapply held_elem.
Qed.

Lemma inv_acquired s p o w :
  system_inv s → acquired o (world_of s p) w →
  system_inv (after s p w ((p, o, default ∅ (objects (disk w) !! o)) :: s_handles s)).
Proof.
  intros [Hl Hh Hf] [L F O].
  assert (∀ o', lock_count (disk w) o' = (if decide (o = o') then 1 else 0) + lock_count (s_disk s) o') as Hc.
  { intros o'. unfold lock_count at 1. rewrite L.
    exact (lock_count_retain (s_disk s) o o'). }
  assert (is_Some (objects (disk w) !! o)) as [fs Hfs].
  { unfold has_file in F. destruct (objects (disk w) !! o); [by eexists|done]. }
  split; cbn [after s_disk s_handles].
  - intros o' Ho'. rewrite Hc in Ho'. case_decide; subst; [done|]. unfold has_file. rewrite O by (cbn; lia).
    apply Hl. lia.
  - intros o'. by rewrite Hc, held_cons, Hh.
  - intros q o' f Hin. apply elem_of_cons in Hin as [Hin|Hin]; simplify_eq; [by rewrite Hfs|].
    rewrite O; [by eapply Hf|]. cbn. rewrite Hh. by eapply held_elem.
Qed.

Lemma inv_released s p o f h1 h2 w :
  system_inv s → s_handles s = h1 ++ (p, o, f) :: h2 → released o (world_of s p) w →
  system_inv (after s p w (h1 ++ h2)).
Proof.
  intros [Hl Hh Hf] Hs R.
  assert (∀ o', lock_count (disk w) o' = held (h1 ++ h2) o') as Hc.
  { intros o'. unfold lock_count. rewrite (released_locks _ _ _ R).
    change (lock_count (set_locks (release o) (s_disk s)) o' = held (h1 ++ h2) o').
    rewrite lock_count_release, Hh, Hs, held_middle. lia. }
  split; cbn [after s_disk s_handles]; [by eapply released_locks_ok|done|].
  intros q o' f' Hin. rewrite (released_objects _ _ _ R).
  - apply (Hf q). rewrite Hs. apply elem_of_app. apply elem_of_app in Hin as [?|?]; [by left|right; by right].
  - cbn [world_of disk]. unfold lock_count. cbn. pose proof (Hc o') as Hc'. unfold lock_count in Hc'.
    rewrite (released_locks _ _ _ R) in Hc'. cbn in Hc'. rewrite Hc'. by eapply held_elem.
Qed.

Lemma system_step_inv s s' : system_inv s → sys_step s s' → system_inv s'.
Proof.
  intros I Hstep. pose proof (inv_locks s I) as Hl. destruct Hstep as
    [s p E self q n r w n' Hr|s p E self key stale n record w n' Hr|s p E self key stale n r w n' Hr Hno
    |s p E self key expected stale record f n hit w n' Hin Hr
    |s p E self key expected stale record f h1 h2 n r w n' Hs Hr Hno|s p o f h1 h2 n r w n' Hs Hr].
  - apply inv_after; [done|]. exact (wp_use _ _ _ _ _ _ _ (safe_serve E self q (world_of s p) Hl) Hr).
  - apply inv_acquired; [done|]. exact (wp_use _ _ _ _ _ _ _ (wp_observe E self key stale (world_of s p) Hl) Hr).
  - apply inv_after; [done|]. pose proof (wp_use _ _ _ _ _ _ _ (wp_observe E self key stale (world_of s p) Hl) Hr) as Ho.
    destruct r as [[record|]|]; [by destruct (Hno record)|done..].
  - apply inv_after; [done|]. exact (wp_use _ _ _ _ _ _ _ (wp_finish_lookup E self key expected stale record (world_of s p) Hl) Hr).
  - eapply inv_released; [done..|].
    pose proof (wp_use _ _ _ _ _ _ _ (wp_finish_lookup E self key expected stale record (world_of s p) Hl) Hr) as Ho.
    destruct r as [[hit|]|]; [by destruct (Hno hit)|done..].
  - eapply inv_released; [done..|]. exact (wp_use _ _ _ _ _ _ _ (wp_drop_lease o (world_of s p)) Hr).
Qed.

(** Whatever the processes sharing a root do, in any
    interleaving and with calls failing anywhere, every lease that is still held
    has its object in place with exactly the files it had when it was taken:
    commits, evictions, flushes, reaping and rejected lookups never touch it. *)
Theorem leased_objects_stable s0 s p o f :
  s_handles s0 = [] → locks (s_disk s0) = ∅ → rtc sys_step s0 s → (p, o, f) ∈ s_handles s →
  objects (s_disk s) !! o = Some f.
Proof.
  intros Hh Hl Hrun. assert (system_inv s0) as I0.
  { split; [|intros o'; by rewrite Hh; unfold lock_count; rewrite Hl|intros q o' f' Hin; rewrite Hh in Hin; by apply not_elem_of_nil in Hin].
    intros o' Ho'. unfold lock_count in Ho'. rewrite Hl, lookup_empty in Ho'. cbn in Ho'. lia. }
  assert (system_inv s) as I; [|apply (inv_files _ I)].
  clear Hh Hl. induction Hrun as [|s1 s2 s3 Hs Hrun IH]; [done|]. apply IH. by eapply system_step_inv.
Qed.
End system.

(** * An example: a hit in one process, the entry flushed by another *)

Definition ex_system : system := mkSystem (disk toy_world) (λ _, new_proc) [].
Definition ex_observed : io (option RefRecord) * World * nat :=
  observe quiet toy_cache (toy_key "f") false (world_of ex_system 1) 100.
Definition ex_object : ObjPath :=
  match ex_observed.1.1 with Ok (Some record) => object_of record | _ => (""%string, ""%string) end.
Definition ex_files : Files := default ∅ (objects (disk ex_observed.1.2) !! ex_object).
Definition ex_leased : system := after ex_system 1 ex_observed.1.2 [(1, ex_object, ex_files)].
Definition ex_flushed : io unit * World * nat :=
  serve quiet toy_cache QFlushAll (world_of ex_leased 2) 200.

Definition is_hit (r : io (option RefRecord)) : bool :=
  match r with Ok (Some _) => true | _ => false end.
Lemma is_hit_eq (t : io (option RefRecord) * World * nat) :
  is_hit t.1.1 = true → ∃ record, t = (Ok (Some record), t.1.2, t.2).
Proof. destruct t as [[[[record|]|] w] n]; [by exists record|done..]. Qed.

Lemma ex_run : rtc sys_step ex_system (after ex_leased 2 ex_flushed.1.2 (s_handles ex_leased)).
Proof.
  destruct (is_hit_eq ex_observed) as [record Hr]; [vm_compute; reflexivity|].
  apply (rtc_l _ _ ex_leased); [|apply rtc_once].
  - assert (ex_object = object_of record) as Ho by (unfold ex_object; rewrite Hr; reflexivity).
    unfold ex_leased, ex_files. rewrite Ho. unfold ex_observed in Hr at 1.
    exact (step_observe ex_system 1 quiet toy_cache (toy_key "f") false 100 record ex_observed.1.2 ex_observed.2 Hr).
  - apply (step_call ex_leased 2 quiet toy_cache QFlushAll 200 ex_flushed.1.1 ex_flushed.1.2 ex_flushed.2).
    unfold ex_flushed. destruct (serve _ _ _ _ _) as [[??]?]. reflexivity.
Qed.

Lemma leased_objects_stable_witness :
  objects (disk ex_flushed.1.2) !! ex_object = Some ex_files ∧ size ex_files = 4 ∧
  size (ref_files (disk ex_flushed.1.2)) = 0.
Proof.
  split_and!; [|vm_compute; reflexivity..].
  apply (leased_objects_stable ex_system (after ex_leased 2 ex_flushed.1.2 (s_handles ex_leased)) 1).
  - reflexivity.
  - vm_compute. reflexivity.
  - apply ex_run.
  - left.
Defined.
