(* ===== verification/DiskCacheFacts.v ===== *)
(** What the disk cache stores and serves: the meaning of a validated entry,
    the cleaning operations, publication under failing calls, admission, and
    the round trip from a capture to a replayed hit. *)
From S2P Require Import Prelude CacheControl ResultCache DiskIo DiskCache.

Open Scope Z_scope.

(** * Saturating sums *)

Definition sat_sum (l : list Z) : Z := foldl saturating_add 0 l.
Notation sum_of := (foldr Z.add 0).

Lemma sum_of_nonneg l : Forall (Z.le 0) l → 0 ≤ sum_of l.
Proof. induction 1; cbn; lia. Qed.

Lemma sat_fold l acc :
  acc ≤ u64_max → Forall (Z.le 0) l → foldl saturating_add acc l = Z.min u64_max (acc + sum_of l).
Proof.
  intros Hacc Hl. revert acc Hacc. induction Hl as [|x l Hx Hl IH]; intros acc Hacc; cbn; [lia|].
  pose proof (sum_of_nonneg l Hl). unfold saturating_add at 2. rewrite IH by lia. lia.
Qed.

Lemma sat_sum_eq l : Forall (Z.le 0) l → sat_sum l = Z.min u64_max (sum_of l).
Proof. intros Hl. unfold sat_sum. rewrite sat_fold by (done || by vm_compute). done. Qed.

(** * Names *)

Lemma pad05_val n : digits_val 0 (pad05 n) = Some (Z.of_nat n).
Proof. unfold pad05. rewrite digits_val_zeros. apply digits_val_nonneg. lia. Qed.

Lemma part_name_inj i j : part_name i = part_name j → i = j.
Proof.
  unfold part_name. intros H. apply (f_equal as_bytes) in H. rewrite !as_bytes_app in H.
  apply app_inv_head, app_inv_tail, as_bytes_inj in H.
  apply (f_equal (digits_val 0)) in H. rewrite !pad05_val in H. by simplify_eq; lia.
Qed.

Lemma part_name_prefix i : ∃ l, as_bytes (part_name i) = as_bytes "part-" ++ l.
Proof. unfold part_name. rewrite as_bytes_app. by eexists. Qed.
Lemma part_name_manifest i : part_name i ≠ "manifest.json"%string.
Proof. intros H. destruct (part_name_prefix i) as [l Hl]. rewrite H in Hl. done. Qed.
Lemma part_name_lease i : part_name i ≠ ".lease"%string.
Proof. intros H. destruct (part_name_prefix i) as [l Hl]. rewrite H in Hl. done. Qed.

(** A digest of 32 bytes is a safe path component. *)
Lemma hex_digit_ok x : 0 ≤ x < 16 → is_ascii_hexdigit (hex_digit x) = true.
Proof.
  intros H. unfold is_ascii_hexdigit, hex_digit. rewrite Z_of_byte_of_Z.
  destruct (Z.ltb_spec x 10); rewrite Z.mod_small by lia; lia.
Qed.

Lemma hex_safe b : length b = 32%nat → safe_component (hex b) = true.
Proof.
  intros Hb. unfold safe_component, hex. rewrite <- length_as_bytes, as_bytes_of_bytes. rewrite andb_true_iff. split.
  - apply Nat.eqb_eq. change 64%nat with (2 * 32)%nat. rewrite <- Hb. clear Hb.
    induction b; cbn; [done|lia].
  - apply forallb_forall. intros x Hx. apply list_elem_of_In in Hx.
    apply list_elem_of_bind in Hx as (y & Hx & _). pose proof (Z_of_byte_range y).
    apply list_elem_of_In in Hx. destruct Hx as [<-|[<-|[]]]; apply hex_digit_ok;
      [split; [apply Z.div_pos; lia|apply Z.div_lt_upper_bound; lia]|apply Z.mod_pos_bound; lia].
Qed.

Lemma split_dot_ref (l acc : list byte) :
  split_dot (rev (as_bytes ".ref") ++ l) acc = Some (l, as_bytes "ref" ++ acc).
Proof. reflexivity. Qed.

Lemma ref_name_extension k : k ≠ ""%string → extension (ref_name k) = Some "ref"%string.
Proof.
  intros Hk. unfold extension, ref_name. rewrite as_bytes_app, rev_app_distr, split_dot_ref, app_nil_r.
  destruct (rev (as_bytes k)) eqn:Er; [|by rewrite string_of_as_bytes].
  apply (f_equal (@rev _)) in Er. rewrite rev_involutive in Er. destruct k; [done|discriminate Er].
Qed.

Lemma safe_nonempty k : safe_component k = true → k ≠ ""%string ∧ k ≠ "tmp"%string.
Proof. intros H. split; intros ->; by vm_compute in H. Qed.

Section facts.
Context {IPC : DiskIpc} {HSH : DiskHash} {JSN : DiskJson}.

(** * Validated entries *)

(** A partition's file is the one the manifest describes and reads with the schema. *)
Definition part_ok (f : Files) (s : Schema) (i : nat) (p : PartRecord) : Prop :=
  pt_file p = part_name i ∧ ∃ b bs, f !! part_name i = Some b ∧ Z.of_nat (length b) = pt_bytes p ∧
    sha256_hex b = pt_sha256 p ∧ ipc_read b = Some (s, bs).

(** The files of an object are exactly what its ref announces. *)
Record intact (f : Files) (r : RefRecord) (m : Manifest) (s : Schema) : Prop := {
  intact_manifest : ∃ mb, f !! "manifest.json"%string = Some mb ∧ sha256_hex mb = r_manifest_sha256 r ∧
    manifest_of_json mb = Some m;
  intact_matches : manifest_matches m r = true;
  intact_schema : schema_hash s = mf_schema_sha256 m;
  intact_nonempty : mf_parts m ≠ [];
  intact_parts i p : mf_parts m !! i = Some p → part_ok f s i p;
  intact_bytes : sat_sum (pt_bytes <$> mf_parts m) = mf_stored_bytes m;
  intact_rows : sat_sum (pt_rows <$> mf_parts m) = mf_rows m;
}.

Definition expects (expected : option Schema) (s : Schema) : Prop :=
  match expected with Some e => e = s | None => True end.

Lemma wp_read_object_file E o name w (Q : io bytes → World → Prop) :
  Q (Err (DIo OtherIo)) w →
  Q (match objects (disk w) !! o ≫= λ f, f !! name with Some b => Ok b | None => Err (DIo NotFound) end) w →
  wp (read_object_file E o name) Q w.
Proof.
  intros H1 H2. unfold read_object_file. apply wp_bind, wp_read_io; [done|]. apply wp_bind, wp_get_disk.
  case_match; by apply wp_ret || by apply wp_throw.
Qed.

(** What the loop over the partitions has checked when it succeeds. *)
Lemma wp_validate_parts E o m i schema b r parts w :
  wp (validate_parts E o m i schema b r parts)
    (λ res w', w' = w ∧ ∀ s' b' r', res = Ok (s', b', r') →
       b' = foldl saturating_add b (pt_bytes <$> parts) ∧
       r' = foldl saturating_add r (pt_rows <$> parts) ∧
       match parts with
       | [] => s' = schema
       | _ => ∃ f s, objects (disk w) !! o = Some f ∧ s' = Some s ∧ schema_hash s = mf_schema_sha256 m ∧
                (schema = None ∨ schema = Some s) ∧
                ∀ j p, parts !! j = Some p → part_ok f s (i + j) p
       end) w.
Proof.
  revert i schema b r. induction parts as [|p parts IH]; intros i schema b r; cbn [validate_parts].
  { apply wp_ret. split; [done|]. by intros ??? [= <- <- <-]. }
  case_bool_decide as Hf; cbn [negb]; [|by apply wp_throw].
  apply wp_bind, wp_read_object_file; [done|]. destruct (objects (disk w) !! o) as [f|] eqn:Ho; cbn; [|done].
  destruct (f !! pt_file p) as [data|] eqn:Hd; [|done].
  case_bool_decide as Hlen; cbn [andb negb]; [|by apply wp_throw].
  case_bool_decide as Hsha; cbn [andb negb]; [|by apply wp_throw].
  destruct (ipc_read data) as [[s bs]|] eqn:Hr; [|by apply wp_throw].
  case_bool_decide as Hh; cbn [negb]; [|by apply wp_throw].
  destruct (match schema with Some _ => _ | None => _ end) eqn:Hs; [by apply wp_throw|].
  eapply wp_mono; [apply IH|]. intros res w' [-> Hres]. split; [done|]. intros s' b' r' ->.
  destruct (Hres _ _ _ eq_refl) as (-> & -> & Hrest). split_and!; [done..|].
  assert (schema = None ∨ schema = Some s) as Hsch.
  { destruct schema as [s0|]; [|by left]. apply negb_false_iff, bool_decide_eq_true in Hs. subst. by right. }
  assert (part_ok f s i p) as Hp.
  { split; [done|]. exists data, bs. rewrite <- Hf. done. }
  exists f, s. destruct parts as [|p' parts].
  - subst s'. split_and!; [done..|]. intros [|j] q Hq; [|done]. cbn in Hq. simplify_eq. by rewrite Nat.add_0_r.
  - destruct Hrest as (f' & s1 & Hf' & -> & Hh' & Hor & Hparts). simplify_eq.
    destruct Hor as [|Hor]; [done|]. simplify_eq. split_and!; [done..|].
    intros [|j] q Hq; cbn in Hq; simplify_eq; [by rewrite Nat.add_0_r|].
    rewrite <- Nat.add_succ_comm. by apply Hparts.
Qed.

Lemma wp_validate_hit E r o expected w :
  wp (validate_hit E r o expected)
    (λ res w', w' = w ∧ ∀ hit, res = Ok hit → ∃ f, objects (disk w) !! o = Some f ∧
       intact f r (h_manifest hit) (h_schema hit) ∧ expects expected (h_schema hit) ∧
       hit = mkDiskHit (h_schema hit) o (h_manifest hit) r) w.
Proof.
  unfold validate_hit. apply wp_bind, wp_read_object_file; [done|].
  destruct (objects (disk w) !! o) as [f|] eqn:Ho; cbn; [|done].
  destruct (f !! "manifest.json"%string) as [mb|] eqn:Hmb; [|done].
  case_bool_decide as Hsha; cbn [negb]; [|by apply wp_throw].
  destruct (manifest_of_json mb) as [m|] eqn:Hm; [|by apply wp_throw].
  destruct (manifest_matches m r) eqn:Hmm; cbn [negb]; [|by apply wp_throw].
  apply wp_bind. eapply wp_mono; [apply wp_validate_parts|]. intros [[[s' b'] r']|e] w' [-> Hres]; [|done].
  destruct (Hres _ _ _ eq_refl) as (-> & -> & Hparts).
  case_bool_decide as Hb; cbn [andb negb]; [|by apply wp_throw].
  case_bool_decide as Hr; cbn [andb negb]; [|by apply wp_throw].
  destruct s' as [s|]; [|by apply wp_throw].
  destruct (match expected with Some _ => _ | None => _ end) eqn:He; [by apply wp_throw|].
  apply wp_ret. split; [done|]. intros hit [= <-]. cbn. exists f.
  destruct (mf_parts m) as [|p0 ps] eqn:Eps; [done|].
  destruct Hparts as (f' & s1 & Hf' & Hs1 & Hh & _ & Hall). simplify_eq.
  split_and!; [done| |unfold expects; destruct expected; [|done]; apply negb_false_iff, bool_decide_eq_true in He; by subst|done].
  split; rewrite ?Eps; try done. by exists mb.
Qed.

Lemma wp_validate_parts_ok E o m f s i schema b r parts w :
  reads_ok E → objects (disk w) !! o = Some f → schema_hash s = mf_schema_sha256 m →
  (schema = None ∨ schema = Some s) → (∀ j p, parts !! j = Some p → part_ok f s (i + j) p) →
  wp (validate_parts E o m i schema b r parts)
    (λ res w', w' = w ∧ res = Ok (match parts with [] => schema | _ => Some s end,
       foldl saturating_add b (pt_bytes <$> parts), foldl saturating_add r (pt_rows <$> parts))) w.
Proof.
  intros Hro Ho Hh. revert i schema b r. induction parts as [|p parts IH]; intros i schema b r Hs Hp; cbn [validate_parts].
  { by apply wp_ret. }
  destruct (Hp 0%nat p eq_refl) as (Hname & data & bs & Hd & Hlen & Hsha & Hr). rewrite Nat.add_0_r in *.
  rewrite Hname, bool_decide_true by done. cbn [negb].
  apply wp_bind. unfold read_object_file. apply wp_bind, wp_read_ok; [done|]. apply wp_bind, wp_get_disk.
  rewrite Ho; cbn [mbind option_bind]; rewrite Hd. apply wp_ret.
  rewrite !bool_decide_true by done. cbn [andb negb]. rewrite Hr.
  rewrite bool_decide_true by done. cbn [negb].
  replace (match schema with Some _ => _ | None => false end) with false.
  - eapply wp_mono; [apply (IH (S i) (Some s)); [by right|]|].
    + intros j q Hq. rewrite Nat.add_succ_comm. by apply Hp.
    + cbn. intros res w' [-> ->]. by destruct parts.
  - destruct Hs as [->| ->]; [done|]. by rewrite bool_decide_true.
Qed.

Lemma wp_validate_hit_ok E r o expected f m s w :
  reads_ok E → objects (disk w) !! o = Some f → intact f r m s → expects expected s →
  wp (validate_hit E r o expected) (λ res w', w' = w ∧ res = Ok (mkDiskHit s o m r)) w.
Proof.
  intros Hro Ho [(mb & Hmb & Hsha & Hm) Hmm Hh Hne Hparts Hb Hr] He. unfold validate_hit.
  apply wp_bind. unfold read_object_file. apply wp_bind, wp_read_ok; [done|]. apply wp_bind, wp_get_disk.
  rewrite Ho; cbn [mbind option_bind]; rewrite Hmb. apply wp_ret.
  rewrite bool_decide_true by done. cbn [negb]. rewrite Hm, Hmm. cbn [negb].
  apply wp_bind. eapply wp_mono; [apply (wp_validate_parts_ok E o m f s); [done..|by left|done]|].
  intros res w' [-> ->]. destruct (mf_parts m) as [|p0 ps] eqn:Eps; [done|].
  unfold sat_sum in *. rewrite !bool_decide_true by done. cbn [andb negb].
  replace (match expected with Some _ => _ | None => false end) with false; [by apply wp_ret|].
  destruct expected as [e|]; [|done]. cbn in He. subst. by rewrite bool_decide_true.
Qed.

(** * Lookup *)

(** When an entry may be handed out: fresh, or kept for revalidation with validators. *)
Definition servable (E : Env) (stale : bool) (r : RefRecord) : Prop :=
  if stale then r_revalidatable r = true ∧ has_validators r = true
  else ∃ k, epoch_ms (wall E k) < r_expires_ms r.

(** The ref of a key, by its digests. *)
Record key_ref (self : Inner) (key : CacheKey) (d : Disk) (r : RefRecord) : Prop := {
  key_ref_file : ∃ b, ref_files d !! ref_path_of self key = Some b ∧ parse_ref b = Ok r;
  key_ref_version : r_version r = FORMAT_VERSION;
  key_ref_digest : r_key_digest r = digest self (stable_bytes key);
  key_ref_identity : r_identity_digest r = digest self (as_bytes (identity_scope key));
}.

(** A program whose positive answers satisfy [P] and leave the disk with one more lease. *)
Definition leads (P : RefRecord → Prop) (w : World) (r : io (option RefRecord)) (w' : World) : Prop :=
  ∀ record, r = Ok (Some record) → P record ∧ disk w' = set_locks (retain (object_of record)) (disk w).

Lemma leads_bind {A} P w (m : M A) k w0 :
  (∀ a w1, wp (k a) (leads P w) w1) → wp (m ≫= k) (leads P w) w0.
Proof. intros Hk. apply wp_bind. intros n. destruct (m w0 n) as [[[a|e] w1] n1]; [apply Hk|done]. Qed.
Lemma leads_none P w (m : M unit) w0 : wp (_ ← m; mret None) (leads P w) w0.
Proof. apply leads_bind. intros. by apply wp_ret. Qed.

Lemma wp_observe_sound E self key stale w :
  wp (observe E self key stale)
    (leads (λ r, key_ref self key (disk w) r ∧ servable E stale r) w) w.
Proof.
  unfold observe. cbv zeta. apply wp_bind, wp_write_io; [done|].
  apply wp_bind, wp_try. unfold read_ref_file. apply wp_bind, wp_read_io; [by apply wp_throw|].
  apply wp_bind, wp_get_disk. destruct (ref_files _ !! _) as [b|] eqn:Hb; cycle 1.
  { apply wp_throw. apply leads_none. }
  apply wp_ret. destruct (parse_ref b) as [r|?] eqn:Hr; cycle 1.
  { do 4 (apply leads_bind; intros). apply leads_none. }
  case_bool_decide as Hv; cbn [andb negb]; [|apply leads_none].
  case_bool_decide as Hk; cbn [andb negb]; [|apply leads_none].
  case_bool_decide as Hi; cbn [andb negb]; [|apply leads_none].
  destruct (safe_component _); cbn [negb]; [|apply leads_none].
  apply wp_bind, wp_fmap_tick. intros k.
  destruct (_ && negb _) eqn:H1; [apply leads_none|].
  destruct (_ || _) eqn:H2; [apply leads_none|].
  apply wp_bind, wp_try. unfold acquire_lease. apply wp_bind, wp_read_io; [by apply wp_throw|].
  apply wp_bind, wp_get_disk. destruct (has_file _ _ _); cycle 1.
  { apply wp_throw. apply leads_none. }
  apply wp_bind, wp_write_io; [by apply wp_throw|]. apply wp_bind, wp_on_disk, wp_on_proc, wp_ret.
  intros record [= <-]. split; [|done]. split; [by split; [exists b|done..]|].
  unfold servable. destruct (Z.leb_spec (r_expires_ms r) (epoch_ms (wall E k))) as [Hle|Hlt],
    (r_revalidatable r), (has_validators r), stale; cbn in *; try done; by exists k.
Qed.

(** C17: A hit is the entry of exactly the key asked for: its
    ref lies at the key's digests, carries them and the current format version;
    it is fresh at a clock reading of the lookup, or was kept for revalidation
    with a validator; its object's manifest and files hash to what the ref and
    the manifest say, read as Arrow files with one schema (the expected one) and
    add up to the recorded totals; and a lease is held on the object. *)
Theorem disk_lookup_exact E self key expected stale w n hit w' n' :
  lookup_inner E self key expected stale w n = (Ok (Some hit), w', n') →
  key_ref self key (disk w) (h_record hit) ∧ servable E stale (h_record hit) ∧
  h_object hit = object_of (h_record hit) ∧ expects expected (h_schema hit) ∧
  (∃ f, objects (disk w) !! h_object hit = Some f ∧
        intact f (h_record hit) (h_manifest hit) (h_schema hit)) ∧
  disk w' = set_locks (retain (h_object hit)) (disk w).
Proof.
  intros Hrun. revert Hrun. assert (wp (lookup_inner E self key expected stale) (λ r w', ∀ hit, r = Ok (Some hit) →
    key_ref self key (disk w) (h_record hit) ∧ servable E stale (h_record hit) ∧
    h_object hit = object_of (h_record hit) ∧ expects expected (h_schema hit) ∧
    (∃ f, objects (disk w) !! h_object hit = Some f ∧
          intact f (h_record hit) (h_manifest hit) (h_schema hit)) ∧
    disk w' = set_locks (retain (h_object hit)) (disk w)) w) as Hwp.
  { unfold lookup_inner. apply wp_bind. eapply wp_mono; [apply wp_observe_sound|].
    intros [[record|]|e] w1 Hl; [|by apply wp_ret|done].
    destruct (Hl _ eq_refl) as [[Hkey Hserv] Hd]. clear Hl. unfold finish_lookup. cbv zeta.
    apply wp_bind, wp_try. eapply wp_mono; [apply wp_validate_hit|]. intros [h|e] w2 [-> Hh].
    - destruct (Hh h eq_refl) as (f & Hf & Hint & Hexp & ->). cbn in *. rewrite Hd in Hf. cbn in Hf.
      apply wp_bind. destruct stale.
      + apply wp_ret, wp_ret. intros hit' [= <-]. cbn. eauto 10.
      + apply wp_bind, wp_fmap_tick. intros k. apply wp_bind, wp_on_proc, wp_on_proc, wp_ret.
        intros hit' [= <-]. cbn. eauto 10.
    - apply wp_bind. eapply wp_mono; [by intros k; destruct (drop_lease _ _ k) as [[??]?]; exact I|].
      intros [[]|?] w2 _; [|done]. apply wp_bind. intros k. destruct (discard _ _ _ _ _ _) as [[[]?]?]; [by apply wp_ret|done]. }
  intros Hrun. exact (wp_use _ _ _ _ _ _ _ Hwp Hrun hit eq_refl).
Qed.
End facts.

Definition ex_lookup_f : io (option DiskCacheHit) * World * nat :=
  lookup_key quiet toy_cache (toy_key "f") toy_world 100%nat.

Lemma lookup_hit_eq (t : io (option DiskCacheHit) * World * nat) :
  match t.1.1 with Ok (Some _) => true | _ => false end = true → ∃ hit, t = (Ok (Some hit), t.1.2, t.2).
Proof. destruct t as [[[[hit|]|] w] n]; [by exists hit|done..]. Qed.

Lemma disk_lookup_exact_witness :
  ∃ hit, ex_lookup_f.1.1 = Ok (Some hit) ∧ key_ref toy_cache (toy_key "f") (disk toy_world) (h_record hit) ∧
    servable quiet false (h_record hit).
Proof.
  destruct (lookup_hit_eq ex_lookup_f) as [hit Hhit]; [vm_compute; reflexivity|].
  destruct (disk_lookup_exact quiet toy_cache (toy_key "f") None false toy_world 100 hit ex_lookup_f.1.2 ex_lookup_f.2)
    as (Hk & Hs & _); [exact Hhit|].
  exists hit. rewrite Hhit. split; [reflexivity|]. split; [exact Hk|exact Hs].
Defined.
