(* ===== verification/DiskCacheStore.v ===== *)
(** The store behind the disk cache's refs: every ref on disk has a complete
    object of its own, whatever calls fail on the way; admission keeps to its
    bounds; and a committed capture is served back. *)
From S2P Require Import Prelude CacheControl ResultCache DiskIo DiskCache DiskCacheFacts.

Open Scope Z_scope.

Section store.
Context {IPC : DiskIpc} {HSH : DiskHash} {JSN : DiskJson}.

(** * Refs on disk *)

Definition ref_entry (e : RefPath * bytes) : option (RefPath * RefRecord) :=
  if listed_ref e.1 then match parse_ref e.2 with Ok r => Some (e.1, r) | Err _ => None end else None.
Definition live_refs (d : Disk) : list (RefPath * RefRecord) := omap ref_entry (map_to_list (ref_files d)).

Definition live (d : Disk) (p : RefPath) (r : RefRecord) : Prop :=
  listed_ref p = true ∧ ∃ b, ref_files d !! p = Some b ∧ parse_ref b = Ok r.

Lemma live_refs_elem d p r : (p, r) ∈ live_refs d ↔ live d p r.
Proof.
  unfold live_refs, live. rewrite list_elem_of_omap. split.
  - intros ([p' b] & Hin & He). apply elem_of_map_to_list in Hin. unfold ref_entry in He. cbn in He.
    destruct (listed_ref p') eqn:Hl; [|done]. destruct (parse_ref b) eqn:Hp; [|done]. simplify_eq. eauto.
  - intros (Hl & b & Hb & Hp). exists (p, b). split; [by apply elem_of_map_to_list|].
    unfold ref_entry. cbn. by rewrite Hl, Hp.
Qed.

Lemma live_fun d p r1 r2 : live d p r1 → live d p r2 → r1 = r2.
Proof. intros (_ & b1 & H1 & P1) (_ & b2 & H2 & P2). rewrite H1 in H2. simplify_eq. rewrite P1 in P2. by simplify_eq. Qed.

Lemma wp_read_ref E p w :
  reads_ok E →
  wp (read_ref E p) (λ r w', w' = w ∧ r = match ref_files (disk w) !! p with
    | Some b => parse_ref b | None => Err (DIo NotFound) end) w.
Proof.
  intros Hro. unfold read_ref, read_ref_file. apply wp_bind, wp_bind, wp_read_ok; [done|].
  apply wp_bind, wp_get_disk. destruct (ref_files _ !! p); [apply wp_ret|by apply wp_throw].
  by apply wp_lift.
Qed.

Lemma wp_collect_refs E l w :
  reads_ok E → (∀ p b, (p, b) ∈ l → ref_files (disk w) !! p = Some b) →
  wp (collect_refs E (filter (λ p, listed_ref p = true) l.*1)) (λ r w', w' = w ∧ r = Ok (omap ref_entry l)) w.
Proof.
  intros Hro. induction l as [|[p b] l IH]; intros Hl; [by apply wp_ret|].
  cbn [fmap list_fmap fst]. rewrite filter_cons.
  specialize (IH ltac:(intros; apply Hl; by right)). specialize (Hl p b ltac:(by left)).
  cbn [omap list_omap]. unfold ref_entry at 1. cbn [fst snd].
  case_decide as Hd; cycle 1.
  { destruct (listed_ref p); [done|]. exact IH. }
  rewrite Hd. cbn [collect_refs]. apply wp_bind, wp_try. eapply wp_mono; [by apply wp_read_ref|].
  intros r w' [-> ->]. rewrite Hl. apply wp_bind. eapply wp_mono; [exact IH|].
  intros r w' [-> ->]. apply wp_ret. split; [done|]. by destruct (parse_ref b).
Qed.

Lemma wp_refs E w : reads_ok E → wp (refs E) (λ r w', w' = w ∧ r = Ok (live_refs (disk w))) w.
Proof.
  intros Hro. unfold refs, ref_paths. apply wp_bind, wp_bind, wp_read_ok; [done|].
  apply wp_bind, wp_get_disk, wp_ret. apply wp_collect_refs; [done|].
  intros p b. by rewrite elem_of_map_to_list.
Qed.

(** * Consistency *)

(** A ref lies where it says, and its object is complete. *)
Record entry_ok (d : Disk) (p : RefPath) (r : RefRecord) : Prop := {
  entry_path : p = (r_identity_digest r, ref_name (r_key_digest r));
  entry_version : r_version r = FORMAT_VERSION;
  entry_object : ∃ f m s, objects d !! object_of r = Some f ∧ is_Some (f !! ".lease"%string) ∧ intact f r m s;
}.

Record store_ok (d : Disk) : Prop := {
  store_entry p r : live d p r → entry_ok d p r;
  store_unique p1 p2 r1 r2 : live d p1 r1 → live d p2 r2 → object_of r1 = object_of r2 → p1 = p2;
}.

(** Cleaning: refs only disappear, and what a remaining ref needs stays. *)
Record shrinks (w w' : World) : Prop := {
  shrinks_refs p b : ref_files (disk w') !! p = Some b → ref_files (disk w) !! p = Some b;
  shrinks_objects p r : live (disk w') p r → objects (disk w') !! object_of r = objects (disk w) !! object_of r;
  shrinks_gone o : objects (disk w) !! o = None → objects (disk w') !! o = None;
  shrinks_temps : temps (disk w') = temps (disk w);
  shrinks_dirs : object_dirs (disk w') = object_dirs (disk w);
}.

Lemma shrinks_live w w' p r : shrinks w w' → live (disk w') p r → live (disk w) p r.
Proof. intros S (Hl & b & Hb & Hp). split; [done|]. exists b. split; [by apply (shrinks_refs _ _ S)|done]. Qed.

#[export] Instance shrinks_preorder : PreOrder shrinks.
Proof.
  split; [by intros w; split|]. intros w1 w2 w3 S1 S2. split.
  - intros p b Hb. by apply (shrinks_refs _ _ S1), (shrinks_refs _ _ S2).
  - intros p r Hl. rewrite (shrinks_objects _ _ S2 p r Hl). apply (shrinks_objects _ _ S1 p r).
    by apply (shrinks_live _ _ _ _ S2).
  - intros o Ho. by apply (shrinks_gone _ _ S2), (shrinks_gone _ _ S1).
  - by rewrite (shrinks_temps _ _ S2), (shrinks_temps _ _ S1).
  - by rewrite (shrinks_dirs _ _ S2), (shrinks_dirs _ _ S1).
Qed.

Lemma shrinks_store w w' : shrinks w w' → store_ok (disk w) → store_ok (disk w').
Proof.
  intros S [He Hu]. split.
  - intros p r Hl. pose proof (shrinks_live _ _ _ _ S Hl) as Hl0. destruct (He p r Hl0) as [Hp Hv Ho].
    split; [done..|]. by rewrite (shrinks_objects _ _ S p r Hl).
  - intros p1 p2 r1 r2 H1 H2. apply Hu; by apply (shrinks_live _ _ _ _ S).
Qed.

(** The object belongs to that ref alone. *)
Definition owner (d : Disk) (p : RefPath) (r : RefRecord) : Prop :=
  ∀ p' r', live d p' r' → object_of r' = object_of r → p' = p.

Lemma owner_shrinks w w' p r : shrinks w w' → owner (disk w) p r → owner (disk w') p r.
Proof. intros S Ho p' r' Hl. apply Ho. by apply (shrinks_live _ _ _ _ S). Qed.
Lemma owner_live d p r : store_ok d → live d p r → owner d p r.
Proof. intros S Hl p' r' Hl' Ho. by apply (store_unique d S p' p r' r). Qed.

(** * Removing *)

Definition unreferenced (d : Disk) (o : ObjPath) : Prop := ∀ p r, live d p r → object_of r ≠ o.

Lemma shrinks_object_update w o f x :
  unreferenced (disk w) o → objects (disk w) !! o = Some x → (∀ m o', o' ≠ o → f m !! o' = m !! o') →
  shrinks w (mkWorld (set_objects f (disk w)) (proc w)).
Proof.
  intros Hu Hx Hf. split; cbn; [done| |intros o' Ho'; rewrite Hf; [done|congruence]|done..].
  intros p r Hl. apply Hf. by apply (Hu p).
Qed.

Lemma wp_sync_objects E s w : wp (sync_objects E s) (λ _ w', w' = w) w.
Proof.
  unfold sync_objects. apply wp_bind, wp_write_io; [done|]. apply wp_bind, wp_get_disk.
  case_bool_decide; by apply wp_ret || by apply wp_throw.
Qed.

Lemma wp_remove_object_dir_store E o w :
  unreferenced (disk w) o →
  wp (remove_object_dir E o) (λ _ w', shrinks w w' ∧ ref_files (disk w') = ref_files (disk w)) w.
Proof.
  intros Hu. unfold remove_object_dir. apply wp_bind, wp_get_disk. destruct (_ !! o) eqn:Ho.
  - apply wp_bind, wp_tick. intros n. destruct (write_fails E n).
    + apply wp_bind, wp_on_disk, wp_throw. split; [|done].
      by eapply shrinks_object_update; [done..|intros; rewrite lookup_insert_ne].
    + apply wp_bind, wp_on_disk. eapply wp_mono; [apply wp_sync_objects|]. intros r w' ->. split; [|done].
      by eapply shrinks_object_update; [done..|intros; rewrite lookup_delete_ne].
  - apply wp_bind, wp_write_io; [done|]. eapply wp_mono; [apply wp_sync_objects|]. by intros r w' ->.
Qed.

Lemma wp_remove_object E o w :
  unreferenced (disk w) o →
  wp (remove_object_if_unleased E o) (λ _ w', shrinks w w' ∧ ref_files (disk w') = ref_files (disk w)) w.
Proof.
  intros Hu. unfold remove_object_if_unleased. apply wp_bind, wp_get_proc.
  case_bool_decide; [by apply wp_ret|]. apply wp_bind, wp_read_io; [done|]. apply wp_bind, wp_get_disk.
  destruct (has_file _ _ _); [|by apply wp_remove_object_dir_store].
  apply wp_bind, wp_write_io; [done|]. case_match; [by apply wp_ret|by apply wp_remove_object_dir_store].
Qed.

(** A ref is removed, or its removal failed before it took effect. *)
Definition ref_dropped (p : RefPath) (w w' : World) : Prop :=
  ref_files (disk w') = delete p (ref_files (disk w)).

Lemma shrinks_drop_ref p d pr : shrinks (mkWorld d pr) (mkWorld (set_ref_files (delete p) d) pr).
Proof.
  split; cbn; [|done..]. intros p' b Hb. by apply lookup_delete_Some in Hb as [_ Hb].
Qed.

Lemma wp_remove_ref_file E p w :
  wp (remove_ref_file E p) (λ r w', shrinks w w' ∧ proc w' = proc w ∧ objects (disk w') = objects (disk w) ∧
    (w' = w ∨ ref_dropped p w w') ∧
    (is_ok r = true → ref_dropped p w w' ∧ r = Ok (bool_decide (is_Some (ref_files (disk w) !! p))))) w.
Proof.
  unfold remove_ref_file. apply wp_bind, wp_write_io; [by split_and!; [..|left|]|].
  apply wp_bind, wp_get_disk. cbv zeta. apply wp_bind, wp_on_disk.
  pose proof (shrinks_drop_ref p (disk w) (proc w)) as Hs. destruct w as [d pr]; cbn in *.
  apply wp_bind, wp_write_io; [by split_and!; [..|right|]|]. apply wp_ret. by split_and!; [..|right|].
Qed.

Lemma live_dropped p w w' p' r : ref_dropped p w w' → live (disk w') p' r → p' ≠ p.
Proof. intros Hd (_ & b & Hb & _) ->. unfold ref_dropped in Hd. by rewrite Hd, lookup_delete_eq in Hb. Qed.

Lemma wp_remove_record E p r w :
  owner (disk w) p r →
  wp (remove_record E p r) (λ res w', shrinks w w' ∧ (ref_files (disk w') = ref_files (disk w) ∨ ref_dropped p w w')
    ∧ (is_ok res = true → ref_dropped p w w')) w.
Proof.
  intros Ho. unfold remove_record. apply wp_bind. eapply wp_mono; [apply wp_remove_ref_file|].
  intros [there|e] w1 (S1 & _ & _ & Hor & Hok); cycle 1.
  { split_and!; [done|destruct Hor as [->|]; auto|done]. }
  destruct (Hok eq_refl) as [Hd _]. apply wp_bind, wp_on_proc.
  set (w2 := mkWorld (disk w1) _). assert (shrinks w w2) as S2 by (etrans; [exact S1|by split]).
  eapply wp_mono; [apply wp_remove_object|].
  - intros p' r' Hl Heq. cbn in Hl. apply (live_dropped p w w1 p' r' Hd Hl), (Ho p' r'); [|done].
    by apply (shrinks_live _ _ _ _ S1).
  - intros res w' [S3 Hr]. cbn in Hr. split_and!; [by etrans|right|]; unfold ref_dropped in *; congruence.
Qed.

Lemma wp_remove_where E pred l w :
  Forall (λ e, owner (disk w) e.1 e.2) l → wp (remove_where E pred l) (λ _, shrinks w) w.
Proof.
  revert w. induction l as [|[p r] l IH]; intros w Hl; cbn [remove_where]; [by apply wp_ret|].
  apply Forall_cons in Hl as [Ho Hl]. cbn in Ho. destruct (pred p r); [|by apply IH].
  apply wp_bind. eapply wp_mono; [by apply wp_remove_record|]. intros [[]|e] w1 (S1 & _ & _); [|done].
  apply wp_bind. eapply wp_mono; [apply IH|].
  - eapply Forall_impl; [exact Hl|]. intros e. by apply owner_shrinks.
  - intros [k|e] w2 S2; [apply wp_ret|]; by etrans.
Qed.

Lemma live_refs_owned d : store_ok d → Forall (λ e, owner d e.1 e.2) (live_refs d).
Proof.
  intros S. apply Forall_forall. intros [p r] Hin. apply owner_live; [done|]. by apply live_refs_elem.
Qed.

Lemma wp_remove_expired E w :
  reads_ok E → store_ok (disk w) → wp (remove_expired E) (λ _, shrinks w) w.
Proof.
  intros Hro S. unfold remove_expired. apply wp_bind, wp_fmap_tick. intros k.
  apply wp_bind. eapply wp_mono; [by apply wp_refs|]. intros r w' [-> ->].
  apply wp_bind. eapply wp_mono; [apply wp_remove_where; by apply live_refs_owned|].
  intros [n|e] w1 S1; [|done]. apply wp_bind, wp_on_proc, wp_ret. etrans; [exact S1|by split].
Qed.

Lemma wp_drop_invalid E l w : wp (drop_invalid E l) (λ _, shrinks w) w.
Proof.
  revert w. induction l as [|p l IH]; intros w; cbn [drop_invalid]; [by apply wp_ret|].
  assert (wp (valid_ref E p) (λ _ w', w' = w) w) as Hv.
  { unfold valid_ref, read_ref, read_ref_file. apply wp_bind, wp_try, wp_bind, wp_bind, wp_read_io; [|].
    { apply wp_bind, wp_get_disk. by apply wp_ret. }
    apply wp_bind, wp_get_disk. case_match; [apply wp_ret, wp_lift|apply wp_throw]; by apply wp_bind, wp_get_disk, wp_ret. }
  apply wp_bind. eapply wp_mono; [exact Hv|]. intros [ok|e] w' ->; [|done].
  apply wp_bind. apply wp_mono with (λ _, shrinks w).
  - destruct ok; [by apply wp_ret|]. apply wp_bind. eapply wp_mono; [apply wp_remove_ref_file|].
    intros [there|e] w1 (S1 & _); [by apply wp_ret|done].
  - intros [k|e] w1 S1; [|done]. apply wp_bind. eapply wp_mono; [apply IH|].
    intros [j|e] w2 S2; [apply wp_ret|]; by etrans.
Qed.

Lemma wp_remove_invalid_refs E w : wp (remove_invalid_refs E) (λ _, shrinks w) w.
Proof.
  unfold remove_invalid_refs, ref_paths. apply wp_bind, wp_bind, wp_read_io; [done|].
  apply wp_bind, wp_get_disk, wp_ret. apply wp_bind. eapply wp_mono; [apply wp_drop_invalid|].
  intros [k|e] w1 S1; [|done]. apply wp_bind. case_match; [apply wp_on_proc|apply wp_ret]; apply wp_ret; [|done].
  etrans; [exact S1|by split].
Qed.

Lemma wp_remove_orphan_objects E w :
  reads_ok E → store_ok (disk w) → wp (remove_orphan_objects E) (λ _, shrinks w) w.
Proof.
  intros Hro S. unfold remove_orphan_objects. apply wp_bind. eapply wp_mono; [by apply wp_refs|].
  intros r w' [-> ->]. apply wp_bind, wp_read_ok; [done|]. apply wp_bind, wp_get_disk. cbv zeta.
  apply wp_for_each; [done|]. intros o w1 _ S1. case_bool_decide as Ho; [by apply wp_ret|].
  eapply wp_mono; [apply wp_remove_object|].
  - intros p r Hl Heq. apply Ho. apply list_elem_of_fmap. exists (p, r). split; [done|].
    apply live_refs_elem. by apply (shrinks_live _ _ _ _ S1).
  - intros _ w2 [S2 _]. by etrans.
Qed.

(** * Replacing a ref *)

Lemma split_dot_last (l1 l2 acc : list byte) :
  Forall (λ b, Byte.eqb b x2e = false) l2 → split_dot (l2 ++ x2e :: l1) acc = Some (l1, rev l2 ++ acc).
Proof.
  intros Hl. revert acc. induction Hl as [|b l2 Hb Hl IH]; intros acc; cbn; [done|].
  rewrite Hb, IH, <- app_assoc. done.
Qed.

Lemma hex_no_dot b : Forall (λ x, Byte.eqb x x2e = false) (as_bytes (hex b)).
Proof.
  unfold hex. rewrite as_bytes_of_bytes. induction b as [|x b IH]; cbn; [done|].
  pose proof (Z_of_byte_range x). assert (∀ y, 0 ≤ y < 16 → Byte.eqb (hex_digit y) x2e = false) as Hd.
  { intros y Hy. destruct (Byte.eqb _ _) eqn:Eb; [|done]. apply Byte.byte_dec_bl in Eb.
    apply (f_equal Z_of_byte) in Eb. unfold hex_digit in Eb. rewrite Z_of_byte_of_Z in Eb.
    change (Z_of_byte x2e) with 46 in Eb. destruct (Z.ltb_spec y 10); rewrite Z.mod_small in Eb by lia; lia. }
  repeat apply Forall_cons; split_and?; [apply Hd; split; [apply Z.div_pos|apply Z.div_lt_upper_bound]; lia|].
  apply Forall_cons; split; [apply Hd, Z.mod_pos_bound; lia|exact IH].
Qed.

(** The file a ref is first written to is no ref. *)
Lemma temp_ref_unlisted (shard name : string) b : listed_ref (shard, "." +:+ name +:+ ".tmp-" +:+ hex b) = false.
Proof.
  unfold listed_ref. cbn [fst snd]. apply andb_false_iff. right. apply bool_decide_eq_false.
  unfold extension. rewrite !as_bytes_app.
  change (as_bytes ".tmp-") with ([x2e] ++ as_bytes "tmp-"). rewrite <- app_assoc.
  set (l := as_bytes "." ++ as_bytes name).
  replace (as_bytes "." ++ as_bytes name ++ [x2e] ++ as_bytes "tmp-" ++ as_bytes (hex b))
    with ((l ++ [x2e]) ++ (as_bytes "tmp-" ++ as_bytes (hex b))) by (unfold l; by rewrite <- !app_assoc).
  rewrite (rev_app_distr (l ++ [x2e])), (rev_app_distr l). change (rev [x2e] ++ rev l) with (x2e :: rev l).
  rewrite split_dot_last.
  - rewrite rev_involutive, app_nil_r. destruct (rev l); [done|]. intros Heq. apply (f_equal (option_map as_bytes)) in Heq.
    cbn [option_map] in Heq. rewrite as_bytes_of_bytes in Heq. discriminate Heq.
  - apply Forall_rev. apply Forall_app. split; [|apply hex_no_dot]. by repeat constructor.
Qed.

(** Only the ref at [p] changed, and only to [b]. *)
Record ref_written (p : RefPath) (b : bytes) (w w' : World) : Prop := {
  rw_objects : objects (disk w') = objects (disk w);
  rw_dirs : object_dirs (disk w') = object_dirs (disk w);
  rw_others p' : listed_ref p' = true → p' ≠ p → ref_files (disk w') !! p' = ref_files (disk w) !! p';
  rw_here : ref_files (disk w') !! p = ref_files (disk w) !! p ∨ ref_files (disk w') !! p = Some b;
}.

Lemma wp_write_replace_loop E k p b w :
  listed_ref p = true →
  wp (write_replace_loop E k p b)
    (λ r w', ref_written p b w w' ∧ (is_ok r = true → ref_files (disk w') !! p = Some b)) w.
Proof.
  intros Hp. induction k as [|k IH]; cbn [write_replace_loop].
  { apply wp_throw. split; [|done]. split; auto. }
  assert (ref_written p b w w) as Hrefl by (split; auto).
  apply wp_bind, wp_random; [done|]. intros rnd. cbv zeta.
  set (t := (p.1, "." +:+ p.2 +:+ ".tmp-" +:+ hex rnd)).
  assert (listed_ref t = false) as Ht by apply temp_ref_unlisted.
  assert (t ≠ p) as Htp by (intros ->; congruence).
  assert (∀ x, ref_written p b w (mkWorld (set_ref_files <[t := x]> (disk w)) (proc w))) as Htmp.
  { intros x. split; cbn; [done..| |left; by rewrite lookup_insert_ne].
    intros p' Hp' _. rewrite lookup_insert_ne; [done|]. intros <-. congruence. }
  apply wp_bind, wp_try. unfold write_new_ref_file. apply wp_bind, wp_write_io; [by apply wp_throw|].
  apply wp_bind, wp_get_disk. case_match; [apply wp_throw; exact IH|].
  apply wp_bind, wp_tick. intros n. destruct (write_fails E n).
  { apply wp_bind, wp_on_disk, wp_throw, wp_throw. split; [apply Htmp|done]. }
  apply wp_on_disk, wp_bind, wp_try, wp_write_io.
  - apply wp_bind, wp_ignore, wp_bind, wp_write_io; [apply wp_throw; split; [apply Htmp|done]|].
    apply wp_on_disk, wp_throw. split; [|done]. split; cbn; [done..| |].
    + intros p' Hp' _. rewrite lookup_delete_ne, lookup_insert_ne; congruence.
    + left. by rewrite lookup_delete_ne, lookup_insert_ne.
  - apply wp_bind, wp_on_disk. set (w2 := mkWorld _ _).
    assert (ref_files (disk w2) !! p = Some b) as Hb by (cbn; by rewrite lookup_insert_eq).
    assert (ref_written p b w w2) as Hw2.
    { split; [done..| |by right]. intros p' Hp' Hne. cbn.
      rewrite lookup_insert_ne, lookup_delete_ne, lookup_insert_ne; congruence. }
    apply wp_write_io; split; done.
Qed.

Lemma wp_write_replace E p b w :
  listed_ref p = true →
  wp (write_replace_synced E p b)
    (λ r w', ref_written p b w w' ∧ (is_ok r = true → ref_files (disk w') !! p = Some b)) w.
Proof. apply wp_write_replace_loop. Qed.

Lemma ref_written_trans p b w1 w2 w3 : ref_written p b w1 w2 → ref_written p b w2 w3 → ref_written p b w1 w3.
Proof.
  intros [O1 D1 R1 H1] [O2 D2 R2 H2]. split; [congruence..| |].
  - intros p' Hl Hne. by rewrite R2, R1.
  - destruct H2 as [-> |]; auto.
Qed.
Lemma ref_written_proc p b w w' pr : ref_written p b w w' → ref_written p b w (mkWorld (disk w') pr).
Proof. by intros [? ? ? ?]. Qed.

(** * Publication *)

(** A complete object that no ref names yet, and the record that will name it. *)
Record fresh_object (w : World) (p : RefPath) (record : RefRecord) (f : Files) (m : Manifest) (s : Schema) : Prop := {
  fo_store : store_ok (disk w);
  fo_path : p = (r_identity_digest record, ref_name (r_key_digest record));
  fo_listed : listed_ref p = true;
  fo_version : r_version record = FORMAT_VERSION;
  fo_parse : parse_ref (ref_json record) = Ok record;
  fo_unref : unreferenced (disk w) (object_of record);
  fo_object : objects (disk w) !! object_of record = Some f;
  fo_lease : is_Some (f !! ".lease"%string);
  fo_intact : intact f record m s;
}.

Section publication.
Context {w : World} {p : RefPath} {record : RefRecord} {f : Files} {m : Manifest} {s : Schema}.
Hypothesis F : fresh_object w p record f m s.

Lemma written_live w' p' r' :
  ref_written p (ref_json record) w w' → live (disk w') p' r' →
  live (disk w) p' r' ∨ (p' = p ∧ r' = record).
Proof.
  intros [_ _ Ho Hh] (Hl & b & Hb & Hp). destruct (decide (p' = p)) as [->|Hne].
  - destruct Hh as [Hh|Hh]; rewrite Hh in Hb.
    + left. split; [done|]. by exists b.
    + right. simplify_eq. rewrite (fo_parse _ _ _ _ _ _ F) in Hp. by simplify_eq.
  - left. split; [done|]. exists b. by rewrite <- Ho.
Qed.

Lemma written_store w' : ref_written p (ref_json record) w w' → store_ok (disk w').
Proof.
  intros W. pose proof (fo_store _ _ _ _ _ _ F) as S. pose proof (fo_unref _ _ _ _ _ _ F) as U. split.
  - intros p' r' Hl. destruct (written_live w' p' r' W Hl) as [Hl'|[-> ->]].
    + destruct (store_entry _ S p' r' Hl') as [Hp Hv Ho]. split; [done..|].
      by rewrite (rw_objects _ _ _ _ W).
    + split; [exact (fo_path _ _ _ _ _ _ F)|exact (fo_version _ _ _ _ _ _ F)|].
      exists f, m, s. rewrite (rw_objects _ _ _ _ W). split_and!; apply F.
  - intros p1 p2 r1 r2 H1 H2 Heq.
    destruct (written_live w' p1 r1 W H1) as [L1|[-> ->]], (written_live w' p2 r2 W H2) as [L2|[-> ->]]; [| | |done].
    + by apply (store_unique _ S p1 p2 r1 r2).
    + by destruct (U p1 r1 L1).
    + by destruct (U p2 r2 L2).
Qed.

(** While the ref is still the old one, the new object is unreferenced. *)
Lemma unwritten_unref w' :
  ref_written p (ref_json record) w w' → ref_files (disk w') !! p = ref_files (disk w) !! p →
  unreferenced (disk w') (object_of record).
Proof.
  intros W Hp p' r' Hl. apply (fo_unref _ _ _ _ _ _ F p').
  destruct (written_live w' p' r' W Hl) as [|[-> ->]]; [done|].
  destruct Hl as (Hl & b & Hb & Hr). split; [done|]. exists b. by rewrite <- Hp.
Qed.

(** The record cannot be read from the ref as it was. *)
Lemma old_not_record b : ref_files (disk w) !! p = Some b → parse_ref b ≠ Ok record.
Proof.
  intros Hb Hr. apply (fo_unref _ _ _ _ _ _ F p record); [|done].
  split; [apply F|]. by exists b.
Qed.

Lemma wp_roll_back E w' :
  reads_ok E → ref_written p (ref_json record) w w' →
  wp (roll_back E (mkRollback (object_of record) p (ref_files (disk w) !! p) record))
    (λ _ w'', store_ok (disk w'')) w'.
Proof.
  intros Hro W. unfold roll_back. cbn [rb_ref rb_published rb_old rb_object].
  apply wp_bind, wp_try. eapply wp_mono; [by apply wp_read_ref|]. intros cur w1 [-> ->].
  assert (∀ w1, ref_written p (ref_json record) w w1 → ref_files (disk w1) !! p = ref_files (disk w) !! p →
    wp (ignore (remove_object_if_unleased E (object_of record))) (λ _ w'', store_ok (disk w'')) w1) as Hrm.
  { intros w1 W1 Hp. apply wp_ignore. eapply wp_mono; [apply wp_remove_object; by apply unwritten_unref|].
    intros _ w2 [S2 _]. eapply shrinks_store; [done|]. by apply written_store. }
  apply wp_bind. destruct (match _ with Ok _ => _ | Err _ => _ end) eqn:Hcur; cycle 1.
  { apply wp_ret. destruct (rw_here _ _ _ _ W) as [Hp|Hp]; [by apply Hrm|].
    rewrite Hp, (fo_parse _ _ _ _ _ _ F), bool_decide_true in Hcur; done. }
  assert (∀ (ok : bool) w1, ref_written p (ref_json record) w w1 →
    (ok = true → ref_files (disk w1) !! p = ref_files (disk w) !! p) →
    wp (if ok then ignore (remove_object_if_unleased E (object_of record)) else mret tt)
      (λ _ w'', store_ok (disk w'')) w1) as Hend.
  { intros [] w1 W1 Hr; [by apply Hrm; auto|]. apply wp_ret. by apply written_store. }
  destruct (ref_files (disk w) !! p) as [old|] eqn:Hold.
  - apply wp_bind, wp_try. eapply wp_mono; [apply wp_write_replace; apply F|]. intros r w1 [W1 Hok].
    apply wp_ret. apply (Hend (is_ok r)); [|done]. destruct W as [O D R H'], W1 as [O1 D1 R1 H1]. split; [congruence..| |].
    + intros p' Hl Hne. by rewrite R1, R.
    + rewrite Hold. destruct H1 as [-> |]; [|by auto]. by rewrite <- Hold.
  - apply wp_bind, wp_try. eapply wp_mono; [apply wp_remove_ref_file|].
    intros r w1 (S1 & Hproc & Hobj & Hor & Hok). apply wp_ret. apply (Hend (is_ok r)).
    + destruct Hor as [->|Hd]; [done|]. unfold ref_dropped in Hd. destruct W as [O D R H']. split.
      * congruence.
      * by rewrite (shrinks_dirs _ _ S1).
      * intros p' Hl Hne. by rewrite Hd, lookup_delete_ne, R.
      * left. by rewrite Hd, lookup_delete_eq.
    + intros Hk. destruct (Hok Hk) as [Hd _]. unfold ref_dropped in Hd. by rewrite Hd, lookup_delete_eq.
Qed.

Lemma wp_lapsed E x fr cc w' : wp (lapsed E x fr cc) (λ r w'', w'' = w' ∧ is_ok r = true) w'.
Proof.
  unfold lapsed, expired. apply wp_bind.
  destruct fr; apply wp_bind, wp_fmap_tick; intros n; apply wp_ret, wp_ret; done.
Qed.

Lemma wp_current_size E w' :
  reads_ok E →
  wp (current_size_unlocked E) (λ r w'', w'' = w' ∧ r = Ok (Z.of_nat (length (live_refs (disk w'))),
    sum_u64 ((λ e, r_stored_bytes e.2) <$> live_refs (disk w')))) w'.
Proof.
  intros Hro. unfold current_size_unlocked. apply wp_bind. eapply wp_mono; [by apply wp_refs|].
  intros r w'' [-> ->]. by apply wp_ret.
Qed.

Lemma wp_publish E x fr cc :
  reads_ok E →
  wp (publish E x fr cc p record)
    (λ r w', ref_written p (ref_json record) w w' ∧ (r = Ok (Some tt) → ref_files (disk w') !! p = Some (ref_json record))) w.
Proof.
  intros Hro. assert (ref_written p (ref_json record) w w) as W0 by (split; auto). unfold publish.
  apply wp_bind. eapply wp_mono; [apply wp_sync_objects|]. intros [[]|e] w1 ->; [|done].
  apply wp_bind, wp_write_io; [done|]. apply wp_bind. eapply wp_mono; [apply wp_write_replace; apply F|].
  intros [[]|e] w1 [W1 Hj]; [|done]. specialize (Hj eq_refl).
  apply wp_bind, wp_write_io; [done|]. apply wp_bind. eapply wp_mono; [apply wp_lapsed|].
  intros [l|e] w2 [-> Hok]; [|done]. destruct l.
  - apply wp_bind, wp_on_proc, wp_ret. split; [by apply ref_written_proc|done].
  - apply wp_bind, wp_on_proc, wp_bind, wp_on_proc, wp_bind. eapply wp_mono; [by apply wp_current_size|].
    intros r w2 [-> ->]. apply wp_bind, wp_on_proc, wp_ret. cbn. split; [by apply ref_written_proc|done].
Qed.

Lemma wp_publish_or_roll_back E x fr cc :
  reads_ok E →
  wp (publish_or_roll_back E x fr cc p (ref_files (disk w) !! p) record)
    (λ r w', store_ok (disk w') ∧ (∀ a b c, r = Ok (Stored a b c) →
       a = r_stored_bytes record ∧ b = r_rows record ∧ c = r_partitions record ∧
       ref_files (disk w') !! p = Some (ref_json record) ∧ objects (disk w') !! object_of record = Some f ∧
       ∀ p', listed_ref p' = true → p' ≠ p → ref_files (disk w') !! p' = ref_files (disk w) !! p')) w.
Proof.
  intros Hro. unfold publish_or_roll_back. cbv zeta. apply wp_bind, wp_try.
  eapply wp_mono; [by apply wp_publish|]. intros [[[]|]|e] w1 [W1 Hj]; cycle 1.
  { apply wp_bind. eapply wp_mono; [by apply wp_roll_back|]. intros [[]|e] w2 S2; [apply wp_ret|]; done. }
  { apply wp_bind. eapply wp_mono; [by apply wp_roll_back|]. intros [[]|e'] w2 S2; [apply wp_throw|]; done. }
  specialize (Hj eq_refl). apply wp_bind.
  apply wp_mono with (λ r w2, is_ok r = true ∧ shrinks w1 w2 ∧ ref_files (disk w2) = ref_files (disk w1)); cycle 1.
  { intros [[]|e] w2 (Hok & S2 & Hr); [|done]. apply wp_ret.
    split; [eapply shrinks_store; [done|by apply written_store]|]. intros a b c [= <- <- <-].
    assert (live (disk w2) p record) as Hl.
    { split; [apply F|]. exists (ref_json record). rewrite Hr. split; [done|apply F]. }
    split_and!; [done..|by rewrite Hr| |].
    - rewrite (shrinks_objects _ _ S2 p record Hl), (rw_objects _ _ _ _ W1). apply F.
    - intros p' Hl' Hne. rewrite Hr. by apply (rw_others _ _ _ _ W1). }
  destruct (_ ≫= _) as [o|] eqn:Ho; [|by apply wp_ret]. case_bool_decide as Hne; [by apply wp_ret|].
  apply wp_ignore. eapply wp_mono; [apply wp_remove_object|by intros ? ? [? ?]].
  apply bind_Some in Ho as (b & Hb & Hpo). destruct (parse_ref b) as [o'|] eqn:Hpo'; [|done]. simplify_eq.
  assert (live (disk w) p o) as Hlo by (split; [apply F|by exists b]).
  pose proof (entry_path _ _ _ (store_entry _ (fo_store _ _ _ _ _ _ F) p o Hlo)) as Hpath.
  rewrite (fo_path _ _ _ _ _ _ F) in Hpath. injection Hpath as Hid _.
  intros p' r' Hl Heq. destruct (decide (p' = p)) as [->|Hp'].
  - destruct Hl as (_ & b' & Hb' & Hr'). rewrite Hj in Hb'. simplify_eq.
    rewrite (fo_parse _ _ _ _ _ _ F) in Hr'. by simplify_eq.
  - apply Hp'. destruct (written_live w1 p' r' W1 Hl) as [Hl'|[-> _]]; [|done].
    apply (store_unique _ (fo_store _ _ _ _ _ _ F) p' p r' o Hl' Hlo). rewrite Heq. unfold object_of. by rewrite Hid.
Qed.
End publication.
End store.
