(* ===== verification/DiskCacheAdmission.v ===== *)
(** Admission to the disk cache: eviction ends, answers, and keeps to the
    configured bounds; reaping leaves no garbage that nobody holds. *)
From S2P Require Import Prelude CacheControl ResultCache DiskIo DiskCache DiskCacheFacts DiskCacheStore.

Open Scope Z_scope.

Section admission.
Context {IPC : DiskIpc} {HSH : DiskHash} {JSN : DiskJson}.

Lemma sat_fold_nonneg l : Forall (Z.le 0) l → 0 ≤ foldr saturating_add 0 l.
Proof.
  induction 1 as [|x l Hx Hl IH]; [done|]. cbn [foldr]. unfold saturating_add at 1.
  apply Z.min_glb; [by vm_compute|lia].
Qed.

Lemma intact_stored f r m s : intact f r m s → 0 ≤ r_stored_bytes r.
Proof.
  intros I. pose proof (intact_matches _ _ _ _ I) as Hm. unfold manifest_matches in Hm.
  repeat (apply andb_true_iff in Hm as [Hm ?]).
  match goal with H : bool_decide (mf_stored_bytes m = _) = true |- _ => apply bool_decide_eq_true in H; rewrite <- H end.
  rewrite <- (intact_bytes _ _ _ _ I), sat_sum_eq.
  - assert (0 ≤ u64_max) by (by vm_compute). apply Z.min_glb; [done|]. apply sum_of_nonneg.
    apply Forall_fmap, Forall_lookup. intros i p Hp. destruct (intact_parts _ _ _ _ I i p Hp) as (_ & b & bs & _ & Hb & _). cbn. lia.
  - apply Forall_fmap, Forall_lookup. intros i p Hp. destruct (intact_parts _ _ _ _ I i p Hp) as (_ & b & bs & _ & Hb & _). cbn. lia.
Qed.

Lemma live_stored d p r : store_ok d → live d p r → 0 ≤ r_stored_bytes r.
Proof.
  intros S Hl. destruct (entry_object _ _ _ (store_entry _ S p r Hl)) as (f & m & s & _ & _ & I).
  by eapply intact_stored.
Qed.

Lemma others_elem replacing d p r :
  (p, r) ∈ others replacing (live_refs d) ↔ replacing ≠ Some p ∧ live d p r.
Proof. unfold others. by rewrite list_elem_of_filter, live_refs_elem. Qed.

Lemma min_by_key_elem {A} key (l : list A) a : min_by_key key l = Some a → a ∈ l.
Proof.
  revert a. induction l as [|x l IH]; intros a; cbn; [done|]. destruct (min_by_key key l) as [b|] eqn:Em.
  - intros [= <-]. case_match; [right; by apply IH|left].
  - intros [= <-]. left.
Qed.

Lemma min_by_key_none {A} key (l : list A) : min_by_key key l = None → l = [].
Proof. destruct l; cbn; [done|]. by destruct (min_by_key key l). Qed.

Definition usage (rs : list (RefPath * RefRecord)) : Z * Z :=
  (Z.of_nat (length rs), sum_u64 ((λ e, r_stored_bytes e.2) <$> rs)).

(** What a positive answer of [make_room] has checked. *)
Definition admitted (self : Inner) (replacing : option RefPath) (incoming : Z) (d : Disk) : Prop :=
  ∃ orphan retained : Z * Z, 0 ≤ orphan.1 ∧ 0 ≤ orphan.2 ∧ 0 ≤ retained.1 ∧ 0 ≤ retained.2 ∧
    fits self (usage (others replacing (live_refs d))) orphan retained incoming = true.

Lemma wp_orphan_usage E rs w :
  reads_ok E → wp (orphan_usage E rs) (λ r w', w' = w ∧ ∃ n b, r = Ok (n, b) ∧ 0 ≤ n ∧ 0 ≤ b) w.
Proof.
  intros Hro. unfold orphan_usage. apply wp_bind, wp_read_ok; [done|]. apply wp_bind, wp_get_disk. cbv zeta.
  apply wp_ret. split; [done|]. do 2 eexists. split; [done|]. split; [lia|].
  apply sat_fold_nonneg, Forall_fmap, Forall_true. intros e. apply sat_fold_nonneg, Forall_forall.
  intros z Hz. apply list_elem_of_omap in Hz as (y & _ & Hy). case_decide; simplify_eq. lia.
Qed.

(** A failing call reports an I/O error, nothing else. *)
Definition io_error {A} (r : io A) : Prop := ∀ e, r = Err e → ∃ k, e = DIo k.

Lemma wp_retained_usage E replacing w :
  reads_ok E → store_ok (disk w) →
  wp (retained_usage E replacing (live_refs (disk w)))
    (λ r w', w' = w ∧ (writes_ok E → is_ok r = true) ∧ io_error r ∧ ∀ x, r = Ok x → 0 ≤ x.1 ∧ 0 ≤ x.2) w.
Proof.
  intros Hro S. unfold retained_usage. destruct (_ ≫= _) as [[i [p r]]|] eqn:Hf; [|apply wp_ret].
  2: { split_and!; [done..|by intros ?|by intros x [= <-]]. }
  apply bind_Some in Hf as (q & -> & Hf). apply list_find_Some in Hf as (Hi & _ & _).
  apply list_elem_of_lookup_2, live_refs_elem in Hi. pose proof (live_stored _ _ _ S Hi) as Hst.
  assert (∀ b : bool, io_error (Ok (if b then (1, r_stored_bytes r) else (0, 0))) ∧
    ∀ x, Ok (E := DiskCacheError) (if b then (1, r_stored_bytes r) else (0, 0)) = Ok x → 0 ≤ x.1 ∧ 0 ≤ x.2) as Hk.
  { intros b. split; [by intros ?|]. intros x [= <-]. destruct b; cbn; lia. }
  unfold replacement_will_be_retained. apply wp_bind, wp_bind, wp_get_proc.
  case_bool_decide; [apply wp_ret, wp_ret; split_and!; [done..|apply (Hk true)|apply (Hk true)]|].
  apply wp_bind, wp_read_ok; [done|]. apply wp_bind, wp_get_disk.
  destruct (has_file _ _ _); [|apply wp_ret, wp_ret; split_and!; [done..|apply (Hk false)|apply (Hk false)]].
  apply wp_bind. unfold write_io. apply wp_bind, wp_tick. intros n. destruct (write_fails E n) eqn:Hw.
  - apply wp_throw. split_and!; [done|intros Hwo; by rewrite Hwo in Hw|intros e [= <-]; eauto|done].
  - apply wp_ret, wp_ret, wp_ret. split_and!; [done..|apply Hk|apply Hk].
Qed.

(** * Eviction under failing calls *)

Lemma io_error_ok {A} (a : A) : io_error (Ok a).
Proof. by intros e. Qed.
Lemma io_error_io {A} k : io_error (A := A) (Err (DIo k)).
Proof. intros e [= <-]. by exists k. Qed.
#[local] Hint Resolve io_error_ok io_error_io : core.

Lemma wp_sync_objects_error E s w : wp (sync_objects E s) (λ r _, io_error r) w.
Proof.
  unfold sync_objects. apply wp_bind, wp_write_io; [done|]. apply wp_bind, wp_get_disk.
  case_bool_decide; [by apply wp_ret|by apply wp_throw].
Qed.
Lemma wp_remove_object_dir_error E o w : wp (remove_object_dir E o) (λ r _, io_error r) w.
Proof.
  unfold remove_object_dir. apply wp_bind, wp_get_disk. destruct (_ !! o).
  - apply wp_bind, wp_tick. intros n. destruct (write_fails E n); apply wp_bind, wp_on_disk;
      [by apply wp_throw|apply wp_sync_objects_error].
  - apply wp_bind, wp_write_io; [done|]. apply wp_sync_objects_error.
Qed.
Lemma wp_remove_record_error E p r w : wp (remove_record E p r) (λ r _, io_error r) w.
Proof.
  unfold remove_record. apply wp_bind. unfold remove_ref_file. apply wp_bind, wp_write_io; [done|].
  apply wp_bind, wp_get_disk. cbv zeta. apply wp_bind, wp_on_disk, wp_bind, wp_write_io; [done|].
  apply wp_ret, wp_bind, wp_on_proc. unfold remove_object_if_unleased. apply wp_bind, wp_get_proc.
  case_bool_decide; [by apply wp_ret|]. apply wp_bind, wp_read_io; [done|]. apply wp_bind, wp_get_disk.
  destruct (has_file _ _ _); [|apply wp_remove_object_dir_error].
  apply wp_bind, wp_write_io; [done|]. case_match; [by apply wp_ret|apply wp_remove_object_dir_error].
Qed.

Lemma wp_and {A} (c : M A) P Q w : wp c P w → wp c Q w → wp c (λ r w', P r w' ∧ Q r w') w.
Proof. intros H1 H2 n. specialize (H1 n). specialize (H2 n). by destruct (c w n) as [[r w'] n']. Qed.

Lemma size_dropped p w w' b :
  ref_dropped p w w' → ref_files (disk w) !! p = Some b →
  size (ref_files (disk w)) = S (size (ref_files (disk w'))).
Proof. intros Hd Hb. unfold ref_dropped in Hd. rewrite Hd. by eapply size_delete_Some. Qed.

(** Whatever calls fail: the loop never runs out of turns, spares the ref being
    replaced, and a positive answer means that the rest fits. *)
Lemma wp_make_room_loop E self fuel incoming replacing w :
  reads_ok E → store_ok (disk w) → (size (ref_files (disk w)) < fuel)%nat →
  wp (make_room_loop E self fuel incoming replacing)
    (λ r w', shrinks w w' ∧ io_error r ∧
       (∀ p, replacing = Some p → ref_files (disk w') !! p = ref_files (disk w) !! p) ∧
       (r = Ok true → admitted self replacing incoming (disk w'))) w.
Proof.
  intros Hro. revert w. induction fuel as [|fuel IH]; intros w S Hfuel; [lia|]. cbn [make_room_loop].
  apply wp_bind. eapply wp_mono; [by apply wp_refs|]. intros r w' [-> ->]. cbv zeta.
  apply wp_bind. eapply wp_mono; [by apply wp_orphan_usage|]. intros r w' [-> (n & b & -> & Hn & Hb)].
  apply wp_bind. eapply wp_mono; [by apply wp_retained_usage|]. intros [x|e] w' (-> & _ & Hio & Hx);
    [|by split_and!; [|intros e' [= <-]; by apply Hio|..]].
  destruct (Hx x eq_refl) as [Hx1 Hx2]. destruct (fits _ _ _ _ _) eqn:Hf.
  { apply wp_ret. split_and!; [done..|]. intros _. exists (n, b), x. by split_and!. }
  apply wp_bind, wp_get_proc. destruct (min_by_key _ _) as [[p r]|] eqn:Hmin; [|by apply wp_ret].
  apply min_by_key_elem, others_elem in Hmin as [Hrep Hl].
  apply wp_bind. eapply wp_mono.
  { apply wp_and; [by apply wp_remove_record, owner_live|apply wp_remove_record_error]. }
  intros [[]|e] w1 ((S1 & Hor & Hok) & Herr); cycle 1.
  { split_and!; [done|intros e' [= <-]; by apply Herr| |done].
    intros q ->. destruct Hor as [-> | ->]; [done|]. rewrite lookup_delete_ne; congruence. }
  specialize (Hok eq_refl). apply wp_bind, wp_on_proc.
  destruct Hl as (_ & data & Hdata & _). pose proof (size_dropped _ _ _ _ Hok Hdata) as Hsz.
  eapply wp_mono; [apply IH|].
  - cbn. eapply shrinks_store; done.
  - cbn. lia.
  - intros res w2 (S2 & Hio2 & Hrep2 & Had). split_and!; [|done| |done].
    + etrans; [exact S1|]. etrans; [|exact S2]. by split.
    + intros q ->. rewrite (Hrep2 q eq_refl). cbn. unfold ref_dropped in Hok. rewrite Hok, lookup_delete_ne; congruence.
Qed.

Lemma wp_make_room E self incoming replacing w :
  reads_ok E → store_ok (disk w) →
  wp (make_room E self incoming replacing)
    (λ r w', shrinks w w' ∧ (r = Ok true → admitted self replacing incoming (disk w'))) w.
Proof.
  intros Hro S. unfold make_room. apply wp_bind. eapply wp_mono; [by apply wp_remove_expired|].
  intros [k|e] w1 S1; [|done]. apply wp_bind, wp_get_disk.
  eapply wp_mono; [apply wp_make_room_loop; [done|by eapply shrinks_store|lia]|].
  intros r w2 (S2 & _ & _ & Had). split; [by etrans|done].
Qed.

(** * When no call fails *)

(** Somebody replays from the object. *)
Definition busy (w : World) (o : ObjPath) : Prop :=
  is_Some (leases (proc w) !! o) ∨ (0 < lock_count (disk w) o)%nat.
(** Every object is named by a ref or held by somebody. *)
Definition tidy (w : World) : Prop :=
  ∀ o : ObjPath, is_Some (objects (disk w) !! o) → (∃ p r, live (disk w) p r ∧ object_of r = o) ∨ busy w o.
Definition same_holders (w w' : World) : Prop :=
  locks (disk w') = locks (disk w) ∧ leases (proc w') = leases (proc w).
Definition dirs_ok (d : Disk) : Prop := ∀ o : ObjPath, is_Some (objects d !! o) → o.1 ∈ object_dirs d.

#[export] Instance same_holders_preorder : PreOrder same_holders.
Proof. split; [done|]. intros w1 w2 w3 [? ?] [? ?]. split; congruence. Qed.

Lemma busy_same w w' o : same_holders w w' → busy w o → busy w' o.
Proof. intros [Hl Hp] [H|H]; [left|right]; unfold lock_count in *; congruence. Qed.
Lemma dirs_shrinks w w' : shrinks w w' → dirs_ok (disk w) → dirs_ok (disk w').
Proof.
  intros S D o Ho. rewrite (shrinks_dirs _ _ S). apply D. destruct (objects (disk w) !! o) eqn:Ew; [done|].
  pose proof (shrinks_gone _ _ S o Ew). destruct Ho; congruence.
Qed.

Section quiet_calls.
Context (E : Env) (Hro : reads_ok E) (Hwo : writes_ok E).

Lemma wp_remove_object_ok (o : ObjPath) w :
  o.1 ∈ object_dirs (disk w) →
  wp (remove_object_if_unleased E o) (λ r w', r = Ok tt ∧ same_holders w w' ∧
    ref_files (disk w') = ref_files (disk w) ∧ object_dirs (disk w') = object_dirs (disk w) ∧
    (objects (disk w') !! o = None ∨ busy w o ∧ objects (disk w') = objects (disk w)) ∧
    ∀ o', o' ≠ o → objects (disk w') !! o' = objects (disk w) !! o') w.
Proof.
  intros Hd. assert (∀ (Q : io unit → World → Prop) w, o.1 ∈ object_dirs (disk w) → Q (Ok tt) w →
    wp (sync_objects E o.1) Q w) as Hsync.
  { intros Q w1 Hw1 HQ. unfold sync_objects. apply wp_bind, wp_write_ok; [done|]. apply wp_bind, wp_get_disk.
    rewrite bool_decide_true by done. by apply wp_ret. }
  assert (wp (remove_object_dir E o) (λ r w', r = Ok tt ∧ same_holders w w' ∧
    ref_files (disk w') = ref_files (disk w) ∧ object_dirs (disk w') = object_dirs (disk w) ∧
    (objects (disk w') !! o = None ∨ busy w o ∧ objects (disk w') = objects (disk w)) ∧
    ∀ o', o' ≠ o → objects (disk w') !! o' = objects (disk w) !! o') w) as Hrm.
  { unfold remove_object_dir. apply wp_bind, wp_get_disk. destruct (objects (disk w) !! o) eqn:Ho.
    - apply wp_bind, wp_tick. intros n. rewrite (Hwo n). apply wp_bind, wp_on_disk, Hsync; [done|].
      split_and!; [done..|left; cbn; by rewrite lookup_delete_eq|]. intros o' Hne. cbn. by rewrite lookup_delete_ne.
    - apply wp_bind, wp_write_ok; [done|]. apply Hsync; [done|]. by split_and!; [..|left|]. }
  unfold remove_object_if_unleased. apply wp_bind, wp_get_proc. case_bool_decide as Hl.
  { apply wp_ret. split_and!; try done. right. split; [by left|done]. }
  apply wp_bind, wp_read_ok; [done|]. apply wp_bind, wp_get_disk. destruct (has_file _ _ _); [|exact Hrm].
  apply wp_bind, wp_write_ok; [done|]. destruct (0 <? lock_count (disk w) o)%nat eqn:Hn; [|exact Hrm].
  apply wp_ret. split_and!; try done. right. split; [right; by apply Nat.ltb_lt|done].
Qed.

Lemma wp_remove_record_ok p r w :
  (object_of r).1 ∈ object_dirs (disk w) →
  wp (remove_record E p r) (λ res w', res = Ok tt ∧ same_holders w w' ∧ ref_dropped p w w' ∧
    (objects (disk w') !! object_of r = None ∨ busy w (object_of r)) ∧
    ∀ o', o' ≠ object_of r → objects (disk w') !! o' = objects (disk w) !! o') w.
Proof.
  intros Hd. unfold remove_record, remove_ref_file. apply wp_bind, wp_bind, wp_write_ok; [done|].
  apply wp_bind, wp_get_disk. cbv zeta. apply wp_bind, wp_on_disk, wp_bind, wp_write_ok; [done|].
  apply wp_ret, wp_bind, wp_on_proc. eapply wp_mono; [by apply wp_remove_object_ok|].
  intros res w' (-> & [Hl Hp] & Hr & _ & Hb & Ho). cbn in *. split_and!; [done..| |done].
  destruct Hb as [|[? _]]; [by left|by right].
Qed.

Lemma tidy_remove p r w w' :
  live (disk w) p r → same_holders w w' → ref_dropped p w w' →
  (objects (disk w') !! object_of r = None ∨ busy w (object_of r)) →
  (∀ o', o' ≠ object_of r → objects (disk w') !! o' = objects (disk w) !! o') → tidy w → tidy w'.
Proof.
  intros Hl Hs Hd Hb Ho T o Hin. destruct (decide (o = object_of r)) as [->|Hne].
  - destruct Hb as [Hb|Hb]; [rewrite Hb in Hin; by destruct Hin|]. right. by eapply busy_same.
  - rewrite Ho in Hin by done. destruct (T o Hin) as [(p' & r' & Hl' & <-)|Hbusy]; [|right; by eapply busy_same].
    left. exists p', r'. split; [|done]. destruct (decide (p' = p)) as [->|Hp]; [by rewrite (live_fun _ _ _ _ Hl' Hl) in Hne|].
    destruct Hl' as (Hlist & b & Hb' & Hparse). split; [done|]. exists b. unfold ref_dropped in Hd. by rewrite Hd, lookup_delete_ne.
Qed.

Lemma live_dir d p r : store_ok d → dirs_ok d → live d p r → (object_of r).1 ∈ object_dirs d.
Proof.
  intros S D Hl. destruct (entry_object _ _ _ (store_entry _ S p r Hl)) as (f & m & s & Ho & _). apply D. by exists f.
Qed.

Lemma wp_make_room_loop_ok self fuel incoming replacing w :
  store_ok (disk w) → dirs_ok (disk w) → (size (ref_files (disk w)) < fuel)%nat →
  wp (make_room_loop E self fuel incoming replacing)
    (λ r w', ∃ b, r = Ok b ∧ same_holders w w' ∧ (tidy w → tidy w') ∧
       (b = false → others replacing (live_refs (disk w')) = [])) w.
Proof.
  revert w. induction fuel as [|fuel IH]; intros w S D Hfuel; [lia|]. cbn [make_room_loop].
  apply wp_bind. eapply wp_mono; [by apply wp_refs|]. intros r w' [-> ->]. cbv zeta.
  apply wp_bind. eapply wp_mono; [by apply wp_orphan_usage|]. intros r w' [-> (n & b & -> & _)].
  apply wp_bind. eapply wp_mono; [by apply wp_retained_usage|].
  intros [x|e] w' (-> & Hok & _); [|by specialize (Hok Hwo)]. clear Hok.
  destruct (fits _ _ _ _ _) eqn:Hf; [apply wp_ret; by exists true|].
  apply wp_bind, wp_get_proc. destruct (min_by_key _ _) as [[p r]|] eqn:Hmin; cycle 1.
  { apply wp_ret. exists false. split_and!; [done..|]. intros _. by eapply min_by_key_none. }
  apply min_by_key_elem, others_elem in Hmin as [Hrep Hl].
  apply wp_bind. eapply wp_mono.
  { apply wp_and; [by apply wp_remove_record, owner_live|apply wp_remove_record_ok; by eapply live_dir]. }
  intros res w1 ((S1 & _) & -> & Hh & Hd & Hb & Ho). apply wp_bind, wp_on_proc.
  pose proof Hl as (_ & data & Hdata & _). pose proof (size_dropped _ _ _ _ Hd Hdata) as Hsz.
  eapply wp_mono; [apply IH|].
  - cbn. by eapply shrinks_store.
  - cbn. by eapply dirs_shrinks.
  - cbn. lia.
  - intros res w2 (b' & -> & Hh2 & Ht2 & Hf2). exists b'. split_and!; [done|by etrans|..|done].
    intros T. apply Ht2. exact (tidy_remove p r w w1 Hl Hh Hd Hb Ho T).
Qed.

Lemma wp_remove_where_ok pred l w :
  Forall (λ e : RefPath * RefRecord, (object_of e.2).1 ∈ object_dirs (disk w)) l →
  Forall (λ e, owner (disk w) e.1 e.2) l →
  wp (remove_where E pred l) (λ r w', is_ok r = true ∧ same_holders w w' ∧ shrinks w w' ∧
    ∀ p rec, (p, rec) ∈ l → pred p rec = true → ref_files (disk w') !! p = None) w.
Proof.
  revert w. induction l as [|[p rec] l IH]; intros w Hd Ho; cbn [remove_where].
  { apply wp_ret. split_and!; [done..|]. intros ? ? Hin. by apply not_elem_of_nil in Hin. }
  apply Forall_cons in Hd as [Hd1 Hd]. apply Forall_cons in Ho as [Ho1 Ho]. cbn in Hd1, Ho1.
  destruct (pred p rec) eqn:Hp; cycle 1.
  { eapply wp_mono; [by apply IH|]. intros r w' (Hok & Hh & S & Hgone). split_and!; [done..|].
    intros p' rec' Hin Hp'. apply elem_of_cons in Hin as [Hin|Hin]; [congruence|]. by apply (Hgone p' rec'). }
  apply wp_bind. eapply wp_mono; [apply wp_and; [by apply wp_remove_record|by apply wp_remove_record_ok]|].
  intros res w1 ((S1 & _) & -> & Hh1 & Hdrop & _).
  apply wp_bind. eapply wp_mono; [apply IH|].
  - eapply Forall_impl; [exact Hd|]. intros e. by rewrite (shrinks_dirs _ _ S1).
  - eapply Forall_impl; [exact Ho|]. intros e. by apply owner_shrinks.
  - intros [k|e] w2 (Hok & Hh & S & Hgone); [|done]. apply wp_ret. split_and!; [done|by etrans|by etrans|].
    intros p' rec' Hin Hp'. apply elem_of_cons in Hin as [Hin|Hin]; [|by apply (Hgone p' rec')].
    simplify_eq. destruct (ref_files (disk w2) !! p) eqn:E2; [|done].
    apply (shrinks_refs _ _ S) in E2. unfold ref_dropped in Hdrop. by rewrite Hdrop, lookup_delete_eq in E2.
Qed.

(** No entry that cannot be revalidated is past a clock reading. *)
Definition unexpired (d : Disk) : Prop :=
  ∃ t, ∀ p r, live d p r → epoch_ms (wall E t) < r_expires_ms r ∨ r_revalidatable r = true.

Lemma unexpired_shrinks w w' : shrinks w w' → unexpired (disk w) → unexpired (disk w').
Proof. intros S [t Ht]. exists t. intros p r Hl. apply (Ht p). by apply (shrinks_live _ _ _ _ S). Qed.

Lemma wp_remove_expired_ok w :
  store_ok (disk w) → dirs_ok (disk w) →
  wp (remove_expired E) (λ r w', is_ok r = true ∧ same_holders w w' ∧ shrinks w w' ∧ unexpired (disk w')) w.
Proof.
  intros S D. unfold remove_expired. apply wp_bind, wp_fmap_tick. intros t.
  apply wp_bind. eapply wp_mono; [by apply wp_refs|]. intros r w' [-> ->].
  apply wp_bind. eapply wp_mono; [apply wp_remove_where_ok; [|by apply live_refs_owned]|].
  { apply Forall_forall. intros [p r] Hin. by eapply live_dir, live_refs_elem. }
  intros [k|e] w1 (Hok & Hh & S1 & Hgone); [|done]. apply wp_bind, wp_on_proc, wp_ret.
  split_and!; [done..|etrans; [exact S1|by split]|]. exists t. cbn. intros p r Hl.
  destruct (Z.leb_spec (r_expires_ms r) (epoch_ms (wall E t))) as [Hle|]; [|by left]. right.
  destruct (r_revalidatable r) eqn:Hr; [done|]. exfalso.
  destruct Hl as (Hlist & b & Hb & Hp). rewrite (Hgone p r) in Hb; [done| |].
  - apply live_refs_elem. split; [done|]. exists b. split; [by apply (shrinks_refs _ _ S1)|done].
  - apply andb_true_iff. split; [by apply Z.leb_le|by rewrite Hr].
Qed.

Lemma wp_drop_invalid_ok l w : wp (drop_invalid E l) (λ r w', is_ok r = true ∧ same_holders w w') w.
Proof.
  revert w. induction l as [|p l IH]; intros w; cbn [drop_invalid]; [by apply wp_ret|].
  apply wp_bind. unfold valid_ref. apply wp_bind, wp_try. eapply wp_mono; [by apply wp_read_ref|]. intros r w' [-> ->].
  apply wp_bind, wp_get_disk, wp_ret, wp_bind.
  apply wp_mono with (λ r w', is_ok r = true ∧ same_holders w w').
  - case_match; [by apply wp_ret|]. apply wp_bind. unfold remove_ref_file. apply wp_bind, wp_write_ok; [done|].
    apply wp_bind, wp_get_disk. cbv zeta. apply wp_bind, wp_on_disk, wp_bind, wp_write_ok; [done|]. by apply wp_ret, wp_ret.
  - intros [k|e] w1 [Hok Hh]; [|done]. apply wp_bind. eapply wp_mono; [apply IH|].
    intros [j|e] w2 [Hok2 Hh2]; [|done]. apply wp_ret. split; [done|by etrans].
Qed.

Lemma wp_remove_invalid_ok w : wp (remove_invalid_refs E) (λ r w', is_ok r = true ∧ same_holders w w') w.
Proof.
  unfold remove_invalid_refs, ref_paths. apply wp_bind, wp_bind, wp_read_ok; [done|].
  apply wp_bind, wp_get_disk, wp_ret, wp_bind. eapply wp_mono; [apply wp_drop_invalid_ok|].
  intros [k|e] w1 [Hok Hh]; [|done]. apply wp_bind. case_match; [apply wp_on_proc|apply wp_ret]; by apply wp_ret.
Qed.

(** What cleaning the temporary directories leaves alone. *)
Definition same_store (w w' : World) : Prop :=
  ref_files (disk w') = ref_files (disk w) ∧ objects (disk w') = objects (disk w) ∧
  object_dirs (disk w') = object_dirs (disk w) ∧ same_holders w w'.

Lemma wp_remove_old_temps_ok w : wp (remove_old_temps E) (λ r w', is_ok r = true ∧ same_store w w') w.
Proof.
  unfold remove_old_temps. apply wp_bind, wp_get_proc, wp_bind, wp_fmap_tick. intros t.
  apply wp_bind, wp_read_ok; [done|]. apply wp_bind, wp_get_disk.
  generalize ((map_to_list (temps (disk w))).*1). intros l. generalize (active_temps (proc w)). intros act.
  revert w. induction l as [|x l IH]; intros w; cbn [for_each]; [by apply wp_ret|].
  apply wp_bind. apply wp_mono with (λ r w', is_ok r = true ∧ same_store w w'); cycle 1.
  { intros [[]|e] w1 [Hok H1]; [|done]. eapply wp_mono; [apply IH|]. intros r w2 [Hok2 H2]. split; [done|].
    destruct H1 as (?&?&?&?), H2 as (?&?&?&?). split_and!; [congruence..|by etrans]. }
  unfold remove_old_temp. case_bool_decide; [by apply wp_ret|].
  apply wp_bind, wp_read_ok; [done|]. apply wp_bind, wp_get_disk. destruct (temps _ !! x) as [tmp|] eqn:Ht; [|by apply wp_ret].
  cbv zeta. apply wp_bind. destruct (bool_decide (is_Some _)); [apply wp_write_ok; [done|]|apply wp_ret];
    (case_match; [by apply wp_ret|]); apply wp_bind, wp_read_ok; try done; (case_match; [|by apply wp_ret]);
    unfold remove_temp_dir; apply wp_bind, wp_get_disk; rewrite Ht; apply wp_bind, wp_tick; intros n;
    rewrite (Hwo n); by apply wp_on_disk.
Qed.

Lemma wp_remove_orphans_ok w :
  store_ok (disk w) → dirs_ok (disk w) →
  wp (remove_orphan_objects E) (λ r w', is_ok r = true ∧ same_holders w w' ∧ tidy w') w.
Proof.
  intros S D. unfold remove_orphan_objects. apply wp_bind. eapply wp_mono; [by apply wp_refs|].
  intros r w' [-> ->]. apply wp_bind, wp_read_ok; [done|]. apply wp_bind, wp_get_disk. cbv zeta.
  set (referenced := _ <$> live_refs (disk w)).
  assert (∀ l : list ObjPath, ∀ w1, (∀ o, o ∈ l → o.1 ∈ object_dirs (disk w1)) →
    wp (for_each (λ o, if bool_decide (o ∈ referenced) then mret () else remove_object_if_unleased E o) l)
      (λ r w', is_ok r = true ∧ same_holders w1 w' ∧ ref_files (disk w') = ref_files (disk w1) ∧
         (∀ o : ObjPath, is_Some (objects (disk w') !! o) → is_Some (objects (disk w1) !! o)) ∧
         ∀ o, o ∈ l → o ∉ referenced → objects (disk w') !! o = None ∨ busy w1 o) w1) as Hloop.
  { induction l as [|o l IH]; intros w1 Hd; cbn [for_each].
    { apply wp_ret. split_and!; [done..|]. intros o Ho. by apply not_elem_of_nil in Ho. }
    apply wp_bind. case_bool_decide as Href.
    - apply wp_ret. eapply wp_mono; [apply IH; intros; apply Hd; by right|].
      intros r w2 (Hok & Hh & Hr & Hs & Hg). split_and!; [done..|]. intros o' Ho'. apply elem_of_cons in Ho' as [->|?]; [done|auto].
    - eapply wp_mono; [apply wp_remove_object_ok, Hd; by left|].
      intros r w2 (-> & Hh2 & Hr2 & Hd2 & Hb2 & Ho2). eapply wp_mono; [apply IH; intros; rewrite Hd2; apply Hd; by right|].
      assert (∀ o' : ObjPath, is_Some (objects (disk w2) !! o') → is_Some (objects (disk w1) !! o')) as Hs2.
      { intros o' [x Hx]. destruct (decide (o' = o)) as [->|]; [|rewrite <- Ho2; by eauto].
        destruct (objects (disk w1) !! o) eqn:E1; [done|]. destruct Hb2 as [Hb2|[_ Hb2]]; congruence. }
      intros r w3 (Hok & Hh & Hr & Hs & Hg). split_and!; [done|by etrans|congruence|by eauto|].
      intros o' Ho' Hne. apply elem_of_cons in Ho' as [->|Hin].
      + destruct Hb2 as [Hn|[? _]]; [|by right]. left. destruct (objects (disk w3) !! o) eqn:E3; [|done].
        destruct (Hs o ltac:(by eauto)) as [? Hc]. congruence.
      + destruct (Hg o' Hin Hne) as [|Hb]; [by left|]. right. eapply busy_same; [|exact Hb]. destruct Hh2. by split. }
  eapply wp_mono; [apply Hloop|].
  - intros o Ho. apply list_elem_of_fmap in Ho as ([o' f] & -> & Hin). apply elem_of_map_to_list in Hin. apply D. by eauto.
  - intros r w1 (Hok & Hh & Hr & Hs & Hg). split_and!; [done..|]. intros o Ho.
    destruct (decide (o ∈ referenced)) as [Href|Href].
    + left. apply list_elem_of_fmap in Href as ([p rec] & -> & Hin). exists p, rec. split; [|done].
      apply live_refs_elem in Hin as (Hl & b & Hb & Hp). split; [done|]. exists b. by rewrite Hr.
    + right. destruct (Hs o Ho) as [f Hf]. destruct (Hg o) as [Hn|Hb]; [|done| |by eapply busy_same].
      * apply list_elem_of_fmap. exists (o, f). split; [done|]. by apply elem_of_map_to_list.
      * rewrite Hn in Ho. by destruct Ho.
Qed.

(** Removing expired entries keeps the store tidy. *)
Lemma wp_remove_where_tidy pred l w :
  Forall (λ e : RefPath * RefRecord, (object_of e.2).1 ∈ object_dirs (disk w)) l →
  Forall (λ e, owner (disk w) e.1 e.2) l → NoDup l.*1 → Forall (λ e, live (disk w) e.1 e.2) l →
  tidy w → wp (remove_where E pred l) (λ _, tidy) w.
Proof.
  revert w. induction l as [|[p rec] l IH]; intros w Hd Ho Hnd Hl T; cbn [remove_where]; [by apply wp_ret|].
  apply Forall_cons in Hd as [Hd1 Hd]. apply Forall_cons in Ho as [Ho1 Ho]. apply Forall_cons in Hl as [Hl1 Hl].
  cbn in Hnd. apply NoDup_cons in Hnd as [Hni Hnd]. cbn in Hd1, Ho1, Hl1.
  destruct (pred p rec); [|by apply IH].
  apply wp_bind. eapply wp_mono; [apply wp_and; [by apply wp_remove_record|by apply wp_remove_record_ok]|].
  intros res w1 ((S1 & _) & -> & Hh1 & Hdrop & Hb & Hoth).
  apply wp_bind. eapply wp_mono; [apply IH|].
  - eapply Forall_impl; [exact Hd|]. intros e. by rewrite (shrinks_dirs _ _ S1).
  - eapply Forall_impl; [exact Ho|]. intros e. by apply owner_shrinks.
  - done.
  - apply Forall_forall. intros [p' rec'] Hin. rewrite Forall_forall in Hl. pose proof (Hl _ Hin) as (Hli & b & Hbb & Hpp).
    split; [done|]. exists b. split; [|done]. cbn in *. unfold ref_dropped in Hdrop. rewrite Hdrop, lookup_delete_ne; [done|].
    intros ->. apply Hni. apply list_elem_of_fmap. by exists (p', rec').
  - exact (tidy_remove p rec w w1 Hl1 Hh1 Hdrop Hb Hoth T).
  - intros [k|e] w2 T2; [by apply wp_ret|done].
Qed.

Lemma live_refs_nodup d : NoDup (live_refs d).*1.
Proof.
  unfold live_refs. pose proof (NoDup_fst_map_to_list (ref_files d)) as Hnd. revert Hnd.
  generalize (map_to_list (ref_files d)). intros l. induction l as [|[p b] l IH]; cbn [omap list_omap fmap list_fmap fst]; [done|].
  intros Hnd. apply NoDup_cons in Hnd as [Hni Hnd]. unfold ref_entry at 1. cbn [fst snd].
  destruct (listed_ref p); [|by apply IH]. destruct (parse_ref b); [|by apply IH].
  cbn. apply NoDup_cons. split; [|by apply IH]. intros Hin. apply Hni.
  apply list_elem_of_fmap in Hin as ([p' r'] & -> & Hin). apply list_elem_of_omap in Hin as ([p2 b2] & Hin & He).
  unfold ref_entry in He. cbn in He. repeat case_match; simplify_eq. apply list_elem_of_fmap. by exists (p', b2).
Qed.

Lemma wp_remove_expired_tidy w :
  store_ok (disk w) → dirs_ok (disk w) → tidy w → wp (remove_expired E) (λ _, tidy) w.
Proof.
  intros S D T. unfold remove_expired. apply wp_bind, wp_fmap_tick. intros t.
  apply wp_bind. eapply wp_mono; [by apply wp_refs|]. intros r w' [-> ->].
  assert (Forall (λ e, live (disk w) e.1 e.2) (live_refs (disk w))) as Hl.
  { apply Forall_forall. intros [p r]. by rewrite live_refs_elem. }
  apply wp_bind. eapply wp_mono; [apply wp_remove_where_tidy; [|by apply live_refs_owned|apply live_refs_nodup|done|done]|].
  { eapply Forall_impl; [exact Hl|]. intros e. by apply live_dir. }
  intros [k|e] w1 T1; [|done]. by apply wp_bind, wp_on_proc, wp_ret.
Qed.

Lemma wp_make_room_ok self incoming replacing w :
  store_ok (disk w) → dirs_ok (disk w) → tidy w →
  wp (make_room E self incoming replacing) (λ r w', ∃ b, r = Ok b ∧ shrinks w w' ∧ same_holders w w' ∧ tidy w' ∧
    unexpired (disk w') ∧ if b then admitted self replacing incoming (disk w')
      else others replacing (live_refs (disk w')) = []) w.
Proof.
  intros S D T. unfold make_room. apply wp_bind.
  eapply wp_mono; [apply wp_and; [by apply wp_remove_expired_ok|by apply wp_remove_expired_tidy]|].
  intros [k|e] w1 ((Hok & Hh & S1 & Hu) & T1); [|done]. apply wp_bind, wp_get_disk.
  assert (store_ok (disk w1)) as St1 by (by eapply shrinks_store).
  eapply wp_mono.
  { apply wp_and; [apply wp_make_room_loop; [done..|lia]|apply wp_make_room_loop_ok; [done|by eapply dirs_shrinks|lia]]. }
  intros r w2 ((S2 & _ & _ & Had) & b & -> & Hh2 & Ht2 & Hf2). exists b. split_and!; [done|by etrans|by etrans|by apply Ht2|..].
  - by eapply unexpired_shrinks.
  - destruct b; auto.
Qed.

Lemma store_same w w' : same_store w w' → store_ok (disk w) → store_ok (disk w').
Proof.
  intros (Hr & Ho & _ & _) [He Hu]. assert (∀ p r, live (disk w') p r → live (disk w) p r) as Hl.
  { intros p r (? & b & ? & ?). split; [done|]. exists b. by rewrite <- Hr. }
  split; [|by eauto]. intros p r H. destruct (He p r (Hl _ _ H)) as [? ? Hob]. split; [done..|]. by rewrite Ho.
Qed.

Lemma wp_clean self w :
  store_ok (disk w) → dirs_ok (disk w) →
  wp (clean E self) (λ r w', r = Ok tt ∧ store_ok (disk w') ∧ same_holders w w' ∧ tidy w' ∧ unexpired (disk w') ∧
    (admitted self None 0 (disk w') ∨ live_refs (disk w') = [])) w.
Proof.
  intros S D. unfold clean. apply wp_bind.
  eapply wp_mono; [apply wp_and; [apply wp_remove_invalid_refs|apply wp_remove_invalid_ok]|].
  intros [k|e] w1 (S1 & Hok & H1); [|done]. apply wp_bind.
  eapply wp_mono; [apply wp_remove_expired_ok; [by eapply shrinks_store|by eapply dirs_shrinks]|].
  intros [k'|e] w2 (Hok2 & H2 & S2 & _); [|done]. apply wp_bind.
  eapply wp_mono; [apply wp_remove_old_temps_ok|]. intros [[]|e] w3 [Hok3 H3]; [|done]. apply wp_bind.
  assert (store_ok (disk w3)) as St3 by (eapply store_same; [done|]; eapply shrinks_store; [done|]; by eapply shrinks_store).
  assert (dirs_ok (disk w3)) as D3.
  { intros o Ho. destruct H3 as (_ & Hob & -> & _). rewrite Hob in Ho.
    eapply (dirs_shrinks w); [by etrans|done|done]. }
  eapply wp_mono; [apply wp_and; [by apply wp_remove_orphan_objects|by apply wp_remove_orphans_ok]|].
  intros [[]|e] w4 (S4 & Hok4 & H4 & T4); [|done]. apply wp_bind.
  eapply wp_mono; [apply wp_make_room_ok; [by eapply shrinks_store|by eapply dirs_shrinks|done]|].
  intros r w5 (b & -> & S5 & H5 & T5 & U5 & Had). unfold refresh_current_stats. apply wp_bind.
  eapply wp_mono; [by apply wp_current_size|]. intros r w6 [-> ->]. apply wp_on_proc.
  destruct H3 as (_ & _ & _ & H3). split_and!; [done| | |done|done|].
  - cbn. eapply shrinks_store; [done|]. by eapply shrinks_store.
  - cut (same_holders w w5); [by intros [? ?]|]. etrans; [exact H1|]. etrans; [exact H2|]. etrans; [exact H3|]. by etrans.
  - destruct b; [by left|right]. cbn. unfold others in Had. rewrite list_filter_all in Had; [done|].
    apply Forall_true. by intros.
Qed.
End quiet_calls.

(** C40: When no call fails, reaping ends with an answer and
    reclaims: afterwards every object left is named by a ref or held by
    somebody, every entry is fresh at a clock reading of the reap or can still be
    revalidated, and either the referenced entries fit the bounds or none is
    left.  So an object that outlived its entry because it was being replayed is
    gone with the first reap after its last lease. *)
Theorem reap_reclaims E self w n r w' n' :
  reads_ok E → writes_ok E → store_ok (disk w) → dirs_ok (disk w) →
  reap E self w n = (r, w', n') →
  (∃ k, r = Ok k) ∧ store_ok (disk w') ∧ unexpired E (disk w') ∧
  (∀ o : ObjPath, is_Some (objects (disk w') !! o) →
     (∃ p rec, live (disk w') p rec ∧ object_of rec = o) ∨ busy w o) ∧
  (admitted self None 0 (disk w') ∨ live_refs (disk w') = []).
Proof.
  intros Hro Hwo S D Hrun.
  assert (wp (reap E self) (λ r w', (∃ k, r = Ok k) ∧ store_ok (disk w') ∧ unexpired E (disk w') ∧
    (∀ o : ObjPath, is_Some (objects (disk w') !! o) → (∃ p rec, live (disk w') p rec ∧ object_of rec = o) ∨ busy w o) ∧
    (admitted self None 0 (disk w') ∨ live_refs (disk w') = [])) w) as Hwp; [|exact (wp_use _ _ _ _ _ _ _ Hwp Hrun)].
  unfold reap, lock_root. apply wp_bind, wp_write_ok; [done|]. apply wp_bind.
  eapply wp_mono; [by apply wp_current_size|]. intros r1 w1 [-> ->]. apply wp_bind.
  eapply wp_mono; [by apply wp_clean|]. intros r2 w2 (-> & S2 & H2 & T2 & U2 & A2). apply wp_bind.
  eapply wp_mono; [by apply wp_current_size|]. intros r3 w3 [-> ->]. apply wp_ret.
  split_and!; [by eauto|done|done| |done]. intros o Ho. destruct (T2 o Ho) as [|Hb]; [by left|right].
  eapply busy_same; [|exact Hb]. destruct H2. by split.
Qed.
End admission.

(** An object without a ref, which nobody holds, is gone after a reap. *)
Definition orphan_path : ObjPath := ("aa", "bb")%string.
Definition orphan_disk : Disk :=
  mkDisk ∅ ∅ {[ "aa"%string ]} {[ orphan_path := {[ ".lease"%string := [] ]} ]} ∅ ∅ ∅.
Definition reaped : io Z * World * nat := reap quiet toy_cache (mkWorld orphan_disk new_proc) 0%nat.

Lemma no_ref (m : gmap RefPath bytes) p b : size m = 0%nat → m !! p = Some b → False.
Proof. intros Hm. apply map_size_empty_inv in Hm as ->. by rewrite lookup_empty. Qed.

Lemma reap_reclaims_witness : objects (disk reaped.1.2) !! orphan_path = None.
Proof.
  destruct (reap_reclaims quiet toy_cache (mkWorld orphan_disk new_proc) 0%nat reaped.1.1 reaped.1.2 reaped.2)
    as (_ & _ & _ & Hall & _).
  - by intros n.
  - by intros n.
  - split; [intros p r (_ & b & Hb & _)|intros p1 p2 r1 r2 (_ & b & Hb & _)]; by destruct (lookup_empty_Some _ _ Hb).
  - intros o [f Hf]. cbn [disk orphan_disk objects object_dirs] in *.
    apply lookup_singleton_Some in Hf as [<- _]. set_solver.
  - unfold reaped. by destruct (reap _ _ _ _) as [[??]?].
  - destruct (objects (disk reaped.1.2) !! orphan_path) eqn:Eo; [|done]. exfalso.
    destruct (Hall orphan_path ltac:(by rewrite Eo)) as [(p & rec & (_ & b & Hb & _) & _)|[[? Hl]|Hl]].
    + refine (no_ref _ _ _ _ Hb). vm_compute. reflexivity.
    + done.
    + vm_compute in Hl. lia.
Defined.
