(* ===== verification/DiskCacheCommit.v ===== *)
(** From a capture to a replayed hit: what closing a capture writes, what a
    commit leaves on disk whatever calls fail, the bounds it keeps, and that a
    later lookup reads back exactly the captured batches. *)
From S2P Require Import Prelude CacheControl ResultCache DiskIo DiskCache.
From S2P Require Import DiskCacheFacts DiskCacheStore DiskCacheAdmission.

Open Scope Z_scope.

Section commit.
Context {IPC : DiskIpc} {IPCL : DiskIpcLaws} {HSH : DiskHash} {HSHL : DiskHashLaws}
  {JSN : DiskJson} {JSNL : DiskJsonLaws}.

(** * The files of a capture *)

Definition tfiles (w : World) (t : string) : option Files := t_files <$> temps (disk w) !! t.

(** Refs and objects are untouched. *)
Definition same_refs (w w' : World) : Prop :=
  ref_files (disk w') = ref_files (disk w) ∧ objects (disk w') = objects (disk w).
#[export] Instance same_refs_preorder : PreOrder same_refs.
Proof. split; [done|]. intros w1 w2 w3 [? ?] [? ?]. split; congruence. Qed.

Lemma same_refs_store w w' : same_refs w w' → store_ok (disk w) → store_ok (disk w').
Proof.
  intros [Hr Ho] [He Hu]. assert (∀ p r, live (disk w') p r → live (disk w) p r) as Hl.
  { intros p r (? & b & ? & ?). split; [done|]. exists b. by rewrite <- Hr. }
  split; [|by eauto]. intros p r H. destruct (He p r (Hl _ _ H)) as [? ? Hob]. split; [done..|]. by rewrite Ho.
Qed.

Lemma wp_put_temp_file E t name b w :
  wp (put_temp_file E t name b) (λ r w', same_refs w w' ∧
    match r with Ok _ => tfiles w' t = <[name := b]> <$> tfiles w t | Err _ => w' = w end) w.
Proof.
  unfold put_temp_file. apply wp_bind, wp_write_io; [done|]. apply wp_bind, wp_fmap_tick. intros n.
  apply wp_on_disk. split; [done|]. unfold tfiles. cbn. destruct (temps (disk w) !! t) eqn:Ht; [|by rewrite Ht].
  by rewrite lookup_insert_eq.
Qed.

Lemma wp_read_temp_file E t name w :
  wp (read_temp_file E t name) (λ r w', w' = w ∧ ∀ b, r = Ok b → tfiles w t ≫= lookup name = Some b) w.
Proof.
  unfold read_temp_file. apply wp_bind, wp_read_io; [done|]. apply wp_bind, wp_get_disk. unfold tfiles.
  destruct (temps (disk w) !! t) as [tmp|]; cbn; [|by apply wp_throw].
  destruct (t_files tmp !! name) eqn:Hf; [apply wp_ret|by apply wp_throw]. split; [done|]. by intros ? [= <-].
Qed.

Section capture.
Context (c : DiskCapture).

Definition file_of (bs : list Batch) : bytes := ipc_file (c_codec c) (c_schema c) bs.
Definition count_at (i : nat) : Z := default 0 (batch_counts c !! i).

Fixpoint part_files (i : nat) (bss : list (list Batch)) (f : Files) : Files :=
  match bss with
  | [] => f
  | bs :: bss => part_files (S i) bss (<[part_name i := file_of bs]> f)
  end.

Definition part_of (rows_ : list Batch → Z) (i : nat) (bs : list Batch) : PartRecord :=
  mkPartRecord (part_name i) (Z.of_nat (length (file_of bs))) (rows_ bs) (count_at i) (sha256_hex (file_of bs)).
Fixpoint parts_of (rows_ : list Batch → Z) (i : nat) (bss : list (list Batch)) : list PartRecord :=
  match bss with
  | [] => []
  | bs :: bss => part_of rows_ i bs :: parts_of rows_ (S i) bss
  end.

Definition rows_of (bs : list Batch) : Z := Z.min u64_max (sum_of (num_rows <$> bs)).

Lemma part_files_other i bss f name :
  (∀ j, (i ≤ j)%nat → name ≠ part_name j) → part_files i bss f !! name = f !! name.
Proof.
  revert i f. induction bss as [|bs bss IH]; intros i f Hn; cbn; [done|].
  rewrite IH by (intros; apply Hn; lia). rewrite lookup_insert_ne; [done|]. intros He. by apply (Hn i); [lia|].
Qed.

Lemma part_files_lookup i bss f j bs :
  bss !! j = Some bs → part_files i bss f !! part_name (i + j) = Some (file_of bs).
Proof.
  revert i f j. induction bss as [|bs' bss IH]; intros i f [|j] Hj; cbn in *; simplify_eq.
  - rewrite Nat.add_0_r, part_files_other; [by rewrite lookup_insert_eq|].
    intros j Hj He. apply part_name_inj in He. lia.
  - rewrite <- Nat.add_succ_comm. by apply IH.
Qed.

Lemma parts_of_lookup rows_ i bss j p :
  parts_of rows_ i bss !! j = Some p → ∃ bs, bss !! j = Some bs ∧ p = part_of rows_ (i + j) bs.
Proof.
  revert i j. induction bss as [|bs bss IH]; intros i [|j]; cbn; intros Hp; simplify_eq.
  - exists bs. by rewrite Nat.add_0_r.
  - rewrite <- Nat.add_succ_comm. by apply IH.
Qed.

Lemma parts_of_fmap {A} rows_ (g : PartRecord → A) (h : list Batch → A) i bss :
  (∀ j bs, g (part_of rows_ j bs) = h bs) → g <$> parts_of rows_ i bss = h <$> bss.
Proof. intros Hg. revert i. induction bss as [|bs bss IH]; intros i; cbn; [done|]. by rewrite Hg, IH. Qed.

Lemma wp_close_writers E t i bss f w :
  tfiles w t = Some f →
  wp (close_writers E c t i (Some <$> bss)) (λ r w', same_refs w w' ∧ ∀ ps, r = Ok ps →
    ps = parts_of (λ _, 0) i bss ∧ tfiles w' t = Some (part_files i bss f)) w.
Proof.
  revert i f w. induction bss as [|bs bss IH]; intros i f w Hf; cbn [fmap list_fmap close_writers].
  { apply wp_ret. split; [done|]. by intros ? [= <-]. }
  apply wp_bind. eapply wp_mono; [apply wp_put_temp_file|]. intros [[]|e] w1 [H1 Ht]; [|by subst].
  rewrite Hf in Ht. cbn in Ht. apply wp_bind. eapply wp_mono; [apply wp_read_temp_file|].
  intros [b|e] w2 [-> Hb]; [|done]. specialize (Hb b eq_refl). rewrite Ht in Hb. cbn in Hb.
  rewrite lookup_insert_eq in Hb. injection Hb as <-.
  apply wp_bind. eapply wp_mono; [by apply IH|]. intros [ps|e] w2 [H2 Hps]; [|split; [by etrans|done]].
  destruct (Hps ps eq_refl) as [-> Ht2]. apply wp_ret. split; [by etrans|]. by intros ? [= <-].
Qed.

Lemma total_rows_some sum bs :
  sum ≤ u64_max → total_rows sum (Some <$> bs) = Some (Z.min u64_max (sum + sum_of (num_rows <$> bs))).
Proof.
  revert sum. induction bs as [|b bs IH]; intros sum Hs; cbn; [f_equal; lia|].
  pose proof (num_rows_nonneg b). rewrite IH by (unfold saturating_add; lia).
  pose proof (sum_of_nonneg (num_rows <$> bs)) as Hn. unfold saturating_add. f_equal.
  assert (0 ≤ sum_of (num_rows <$> bs)); [apply Hn, Forall_fmap, Forall_true; intros x; apply num_rows_nonneg|lia].
Qed.

Lemma wp_count_rows E t i bss f w :
  tfiles w t = Some f → (∀ j bs, bss !! j = Some bs → f !! part_name (i + j) = Some (file_of bs)) →
  Forall (Forall (λ b, batch_schema b = c_schema c)) bss →
  wp (count_rows E t i (parts_of (λ _, 0) i bss)) (λ r w', w' = w ∧ ∀ ps, r = Ok ps → ps = parts_of rows_of i bss) w.
Proof.
  intros Hf. revert i. induction bss as [|bs bss IH]; intros i Hl Hs; cbn [parts_of count_rows].
  { apply wp_ret. split; [done|]. by intros ? [= <-]. }
  apply Forall_cons in Hs as [Hs1 Hs]. apply wp_bind. eapply wp_mono; [apply wp_read_temp_file|].
  intros [b|e] w1 [-> Hb]; [|done]. specialize (Hb b eq_refl). rewrite Hf in Hb. cbn in Hb.
  pose proof (Hl 0%nat bs eq_refl) as H0. rewrite Nat.add_0_r, Hb in H0. injection H0 as ->.
  unfold file_of. rewrite ipc_read_file by done. cbn [mbind option_bind snd].
  rewrite total_rows_some by (by vm_compute).
  apply wp_bind. eapply wp_mono; [apply (IH (S i)); [|done]|].
  - intros j bs' Hj. rewrite Nat.add_succ_comm. by apply (Hl (S j)).
  - intros [ps|e] w1 [-> Hps]; [|done]. apply wp_ret. split; [done|]. intros ? [= <-]. by rewrite (Hps ps eq_refl).
Qed.
End capture.

(** A capture between [begin_capture] and its commit, with the batches pushed to
    each partition. *)
Record capture_ok (c : DiskCapture) (bss : list (list Batch)) (t : string) (w : World) : Prop := {
  cap_temp : temp_dir c = Some t;
  cap_safe : safe_component t = true;
  cap_files : ∃ f, tfiles w t = Some f ∧ is_Some (f !! ".lease"%string);
  cap_writers : writers c = Some <$> bss;
  cap_nonempty : bss ≠ [];
  cap_schema : Forall (Forall (λ b, batch_schema b = c_schema c)) bss;
  cap_hash : schema_hash_ c = schema_hash (c_schema c);
  cap_rows : c_rows c = Z.min u64_max (sum_of (num_rows <$> concat bss));
}.

(** The bytes of the finished files. *)
Definition file_bytes (c : DiskCapture) (bss : list (list Batch)) : Z :=
  sum_of ((λ bs, Z.of_nat (length (file_of c bs))) <$> bss).

Lemma sum_of_app l1 l2 : sum_of (l1 ++ l2) = sum_of l1 + sum_of l2.
Proof. induction l1; cbn; lia. Qed.

Lemma rows_total bss :
  sat_sum (rows_of <$> bss) = Z.min u64_max (sum_of (num_rows <$> concat bss)).
Proof.
  assert (∀ bs, 0 ≤ sum_of (num_rows <$> bs)) as Hn.
  { intros bs. apply sum_of_nonneg, Forall_fmap, Forall_true. intros b. apply num_rows_nonneg. }
  assert (0 ≤ u64_max) as Hu by (by vm_compute).
  rewrite sat_sum_eq; [|apply Forall_fmap, Forall_true; intros bs; cbn; unfold rows_of; specialize (Hn bs); lia].
  induction bss as [|bs bss IH]; [done|]. cbn [fmap list_fmap concat foldr]. fold (@concat Batch).
  change (foldr Z.add 0 (map rows_of bss)) with (sum_of (rows_of <$> bss)).
  rewrite fmap_app, sum_of_app. unfold rows_of at 1. pose proof (Hn bs). pose proof (Hn (concat bss)).
  assert (0 ≤ sum_of (rows_of <$> bss)).
  { apply sum_of_nonneg, Forall_fmap, Forall_true. intros x. cbn. unfold rows_of. specialize (Hn x). lia. }
  lia.
Qed.

Section entry.
Context (self : Inner) (x : Z) (cc : option CacheControl) (key : CacheKey) (c : DiskCapture)
  (bss : list (list Batch)) (t : string) (now : Z).

Definition entry_parts : list PartRecord := parts_of c (rows_of) 0 bss.
Definition entry_manifest : Manifest := new_manifest self key c entry_parts.
Definition entry_record : RefRecord := new_record self x cc key c t entry_parts now.
Definition entry_files (f : Files) : Files :=
  <["manifest.json"%string := manifest_json entry_manifest]> (part_files c 0 bss f).

Lemma entry_bytes : sum_u64 (pt_bytes <$> entry_parts) = file_bytes c bss mod 2 ^ 64.
Proof.
  unfold sum_u64, entry_parts, file_bytes.
  by rewrite (parts_of_fmap c _ pt_bytes (λ bs, Z.of_nat (length (file_of c bs)))) by done.
Qed.

Lemma length_parts_of rows_ i l : length (parts_of c rows_ i l) = length l.
Proof. revert i. induction l; intros i; cbn; auto. Qed.

Lemma entry_intact f w :
  capture_ok c bss t w → file_bytes c bss < 2 ^ 64 →
  intact (entry_files f) entry_record entry_manifest (c_schema c).
Proof.
  intros C Hb. assert (0 ≤ file_bytes c bss).
  { apply sum_of_nonneg, Forall_fmap, Forall_true. intros bs. cbn. lia. }
  split.
  - exists (manifest_json entry_manifest). unfold entry_files. rewrite lookup_insert_eq, manifest_json_roundtrip. done.
  - unfold manifest_matches. cbn. rewrite !bool_decide_true by done. done.
  - cbn. by rewrite (cap_hash _ _ _ _ C).
  - cbn. unfold entry_parts. pose proof (cap_nonempty _ _ _ _ C). by destruct bss.
  - intros i p Hp. cbn in Hp. apply parts_of_lookup in Hp as (bs & Hbs & ->). split; [done|].
    exists (file_of c bs), (Some <$> bs). split_and!; [|done|done|].
    + unfold entry_files. rewrite lookup_insert_ne by (symmetry; apply part_name_manifest).
      by apply (part_files_lookup c 0).
    + apply ipc_read_file. pose proof (cap_schema _ _ _ _ C) as Hs. rewrite Forall_lookup in Hs. by eapply Hs.
  - cbn. rewrite entry_bytes. unfold entry_parts.
    rewrite (parts_of_fmap c _ pt_bytes (λ bs, Z.of_nat (length (file_of c bs)))) by done.
    rewrite sat_sum_eq by (apply Forall_fmap, Forall_true; intros bs; cbn; lia).
    rewrite Z.mod_small by lia. change (sum_of _) with (file_bytes c bss). unfold u64_max. lia.
  - cbn. unfold entry_parts. rewrite (parts_of_fmap c _ pt_rows rows_of) by done.
    by rewrite rows_total, (cap_rows _ _ _ _ C).
Qed.

Lemma digest_safe b : safe_component (digest self b) = true.
Proof. apply hex_safe, hmac_length. Qed.

Lemma entry_parse w : capture_ok c bss t w → parse_ref (ref_json entry_record) = Ok entry_record.
Proof.
  intros C. unfold parse_ref. rewrite ref_json_roundtrip. cbn.
  rewrite !digest_safe, (cap_safe _ _ _ _ C). cbn. unfold sha256_hex. by rewrite hex_safe by apply sha256_length.
Qed.

Lemma entry_listed : listed_ref (ref_path_of self key) = true.
Proof.
  unfold listed_ref, ref_path_of. cbn [fst snd].
  destruct (safe_nonempty _ (digest_safe (as_bytes (identity_scope key)))) as [_ Ht].
  destruct (safe_nonempty _ (digest_safe (stable_bytes key))) as [Hk _].
  rewrite ref_name_extension by done. by rewrite !bool_decide_true.
Qed.
End entry.

Lemma wp_finish_parts E c bss t f w :
  capture_ok c bss t w → tfiles w t = Some f →
  wp (finish_parts E c t) (λ r w', same_refs w w' ∧ ∀ ps, r = Ok ps →
    ps = entry_parts c bss ∧ tfiles w' t = Some (part_files c 0 bss f)) w.
Proof.
  intros C Hf. unfold finish_parts. rewrite (cap_writers _ _ _ _ C). apply wp_bind.
  eapply wp_mono; [by apply wp_close_writers|]. intros [ps|e] w1 [H1 Hps]; [|done].
  destruct (Hps ps eq_refl) as [-> Ht]. eapply wp_mono.
  { eapply (wp_count_rows c E t 0 bss); [exact Ht| |apply C]. intros j bs. by apply (part_files_lookup c 0). }
  intros r w2 [-> Hr]. split; [done|]. intros ps ->. by rewrite (Hr ps eq_refl).
Qed.

(** * The calls around publication *)

Lemma wp_prepare E self x cc key c bss t f w :
  tfiles w t = Some f →
  wp (prepare E self x cc key c t (entry_parts c bss)) (λ r w', same_refs w w' ∧ ∀ record, r = Ok record →
    (∃ now, record = entry_record self x cc key c bss t now) ∧
    tfiles w' t = Some (<["manifest.json"%string := manifest_json (entry_manifest self key c bss)]> f)) w.
Proof.
  intros Hf. unfold prepare, write_new_temp_file. apply wp_bind, wp_bind, wp_get_disk.
  destruct (temps (disk w) !! t) as [tmp|] eqn:Ht; [|by apply wp_throw].
  destruct (t_files tmp !! _); [by apply wp_throw|].
  eapply wp_mono; [apply wp_put_temp_file|]. intros [[]|e] w1 [H1 Ht1]; [|by subst].
  rewrite Hf in Ht1. cbn in Ht1. apply wp_bind, wp_write_io; [done|]. unfold create_objects_dir.
  apply wp_bind, wp_bind, wp_write_io; [done|]. apply wp_on_disk, wp_bind, wp_write_io; [by destruct H1|].
  apply wp_bind, wp_fmap_tick. intros n. apply wp_ret. split; [by destruct H1|]. intros record [= <-].
  split; [by eexists|done].
Qed.

Lemma wp_remove_temp_dir E t w : wp (remove_temp_dir E t) (λ _, same_refs w) w.
Proof.
  unfold remove_temp_dir. apply wp_bind, wp_get_disk. destruct (temps _ !! t); [|by apply wp_write_io].
  apply wp_bind, wp_tick. intros n. destruct (write_fails E n); [apply wp_bind|]; apply wp_on_disk; [by apply wp_throw|done].
Qed.

Lemma wp_drop_lease_of c t w : wp (drop_lease_of c t) (λ r w', is_ok r = true ∧ same_refs w w') w.
Proof. unfold drop_lease_of. destruct (temp_lease c); [by apply wp_on_disk|by apply wp_ret]. Qed.

Lemma wp_remove_temp E c b w : wp (remove_temp E c b) (λ _, same_refs w) w.
Proof.
  unfold remove_temp, lock_root. apply wp_bind, wp_try, wp_write_io; [by apply wp_ret|].
  destruct (temp_dir c) as [t|]; [|by apply wp_ret].
  apply wp_bind. eapply wp_mono; [apply wp_drop_lease_of|]. intros [[]|e] w1 [_ H1]; [|done].
  apply wp_bind, wp_on_proc, wp_bind, wp_try. eapply wp_mono; [apply wp_remove_temp_dir|].
  intros [[]|e] w2 H2; [|apply wp_ret; etrans; [exact H1|exact H2]].
  apply wp_bind. destruct b; [apply wp_on_proc|apply wp_ret]; apply wp_ret; (etrans; [exact H1|]; by destruct H2).
Qed.

Lemma wp_drop_capture E c w : wp (drop_capture E c) (λ _, same_refs w) w.
Proof. unfold drop_capture. destruct (temp_dir c); [apply wp_ignore, wp_remove_temp|by apply wp_ret]. Qed.

Lemma wp_skip E c reason w :
  wp (skip E c reason) (λ r w', same_refs w w' ∧ ∀ a b n, r ≠ Ok (Stored a b n)) w.
Proof.
  unfold skip. apply wp_bind. eapply wp_mono; [apply wp_remove_temp|]. intros [[r c']|e] w1 H1; [|done].
  apply wp_bind. eapply wp_mono; [apply wp_drop_capture|]. intros [[]|e] w2 H2; [|split; [by etrans|done]].
  apply wp_bind, wp_lift. destruct r; [apply wp_ret|]; (split; [by etrans|done]).
Qed.
Lemma wp_refuse E c reason w :
  wp (refuse E c reason) (λ r w', same_refs w w' ∧ ∀ a b n, r ≠ Ok (Stored a b n)) w.
Proof.
  unfold refuse. apply wp_bind, wp_on_proc. eapply wp_mono; [apply wp_skip|]. by intros r w' [[? ?] ?].
Qed.

(** A guarded program, when it answers, has done what it does unguarded. *)
Lemma wp_guarding {A} E c (m : M A) (P : A → World → Prop) (R : World → Prop) w :
  (∀ w1 w2, same_refs w1 w2 → R w1 → R w2) →
  wp m (λ r w', match r with Ok a => P a w' | Err _ => R w' end) w →
  wp (guarding E c m) (λ r w', match r with Ok a => P a w' | Err _ => R w' end) w.
Proof.
  intros HR Hm. unfold guarding. apply wp_bind, wp_try. eapply wp_mono; [exact Hm|].
  intros [a|e] w1 H1; [by apply wp_ret|]. apply wp_bind. eapply wp_mono; [apply wp_drop_capture|].
  intros [[]|e'] w2 H2; [apply wp_throw|]; by eapply HR.
Qed.

Lemma wp_disarm_temp c w : wp (disarm_temp c) (λ r w', is_ok r = true ∧ same_refs w w') w.
Proof.
  unfold disarm_temp. destruct (temp_dir c); [|by apply wp_ret]. apply wp_bind.
  eapply wp_mono; [apply wp_drop_lease_of|]. intros [[]|e] w1 [Hok H1]; [|done]. by apply wp_on_proc.
Qed.

Lemma wp_rename_temp E t o f w :
  tfiles w t = Some f →
  wp (rename_temp E t o) (λ r w', match r with
    | Ok _ => default ∅ (objects (disk w) !! o) = ∅ ∧ ref_files (disk w') = ref_files (disk w) ∧
              objects (disk w') = <[o := f]> (objects (disk w))
    | Err _ => w' = w
    end) w.
Proof.
  unfold tfiles. intros Hf. unfold rename_temp. apply wp_bind, wp_write_io; [done|]. apply wp_bind, wp_get_disk.
  destruct (temps (disk w) !! t) as [tmp|]; [|by apply wp_throw]. cbn in Hf. injection Hf as ->.
  case_bool_decide; [|by apply wp_throw]. apply wp_bind, wp_on_disk, wp_on_disk. done.
Qed.

Lemma empty_unreferenced d o : store_ok d → default ∅ (objects d !! o) = ∅ → unreferenced d o.
Proof.
  intros S He p r Hl <-. destruct (entry_object _ _ _ (store_entry _ S p r Hl)) as (f & m & s & Hf & Hlease & _).
  rewrite Hf in He. cbn in He. subst. rewrite lookup_empty in Hlease. by destruct Hlease.
Qed.

Lemma store_new_object w w' o f :
  store_ok (disk w) → unreferenced (disk w) o → ref_files (disk w') = ref_files (disk w) →
  objects (disk w') = <[o := f]> (objects (disk w)) →
  store_ok (disk w') ∧ unreferenced (disk w') o.
Proof.
  intros [He Hu] U Hr Ho. assert (∀ p r, live (disk w') p r → live (disk w) p r) as Hl.
  { intros p r (? & b & ? & ?). split; [done|]. exists b. by rewrite <- Hr. }
  split; [split; [|by eauto]|intros p r H; by apply (U p), Hl].
  intros p r H. destruct (He p r (Hl _ _ H)) as [? ? Hob]. split; [done..|].
  rewrite Ho, lookup_insert_ne; [done|]. symmetry. by apply (U p), Hl.
Qed.

(** What a commit that answers [Stored] has left on disk. *)
Record committed (self : Inner) (key : CacheKey) (record : RefRecord) (f : Files) (w w' : World) : Prop := {
  com_ref : ref_files (disk w') !! ref_path_of self key = Some (ref_json record);
  com_object : objects (disk w') !! object_of record = Some f;
  com_room : ∃ w1, shrinks w w1 ∧ admitted self (Some (ref_path_of self key)) (r_stored_bytes record) (disk w1) ∧
    ∀ p, listed_ref p = true → p ≠ ref_path_of self key → ref_files (disk w') !! p = ref_files (disk w1) !! p;
}.

Lemma committed_shrinks self key record f w w1 w' :
  shrinks w w1 → committed self key record f w1 w' → committed self key record f w w'.
Proof.
  intros S [Hr Ho (w2 & S2 & A & Hrest)]. split; [done..|]. exists w2. split; [by etrans|done].
Qed.

Section locked.
Context (E : Env) (self : Inner) (x : Z) (fr : option CacheFreshness) (cc : option CacheControl) (key : CacheKey)
  (c : DiskCapture) (bss : list (list Batch)) (t : string) (now : Z) (f : Files) (w0 : World).
Hypotheses (Hro : reads_ok E) (C : capture_ok c bss t w0) (Hlease : is_Some (f !! ".lease"%string))
  (Hbytes : file_bytes c bss < 2 ^ 64).

Notation record := (entry_record self x cc key c bss t now).
Notation files := (entry_files self key c bss f).

Lemma entry_files_lease : is_Some (files !! ".lease"%string).
Proof.
  unfold entry_files. rewrite lookup_insert_ne by done. rewrite part_files_other; [done|].
  intros j _ He. symmetry in He. by apply part_name_lease in He.
Qed.

Lemma entry_fresh w1 w2 :
  store_ok (disk w1) → default ∅ (objects (disk w1) !! object_of record) = ∅ →
  ref_files (disk w2) = ref_files (disk w1) → objects (disk w2) = <[object_of record := files]> (objects (disk w1)) →
  fresh_object w2 (ref_path_of self key) record files (entry_manifest self key c bss) (c_schema c).
Proof.
  intros S He Hr Ho. pose proof (empty_unreferenced _ _ S He) as U.
  destruct (store_new_object w1 w2 _ _ S U Hr Ho) as [S2 U2].
  split; [done|done|apply entry_listed|done|by eapply entry_parse|done|by rewrite Ho, lookup_insert_eq|
    apply entry_files_lease|by eapply entry_intact].
Qed.

Definition commit_post (w : World) (r : io DiskCacheCommit) (w' : World) : Prop :=
  store_ok (disk w') ∧ ∀ a b n, r = Ok (Stored a b n) →
    a = file_bytes c bss ∧ b = c_rows c ∧ n = Z.of_nat (length bss) ∧ committed self key record files w w'.

Lemma commit_post_refused w r w' :
  store_ok (disk w) → same_refs w w' ∧ (∀ a b n, r ≠ Ok (Stored a b n)) → ∀ w1, commit_post w1 r w'.
Proof.
  intros S [H Hr] w1. split; [by eapply same_refs_store|]. intros a b n Heq. by destruct (Hr a b n).
Qed.

Lemma wp_publish_entry w1 w2 :
  store_ok (disk w1) → default ∅ (objects (disk w1) !! object_of record) = ∅ →
  ref_files (disk w2) = ref_files (disk w1) → objects (disk w2) = <[object_of record := files]> (objects (disk w1)) →
  admitted self (Some (ref_path_of self key)) (r_stored_bytes record) (disk w1) →
  wp (publish_or_roll_back E x fr cc (ref_path_of self key) (ref_files (disk w1) !! ref_path_of self key) record)
    (commit_post w1) w2.
Proof.
  intros S He Hr Ho A. pose proof (entry_fresh w1 w2 S He Hr Ho) as F. rewrite <- Hr.
  eapply wp_mono; [by apply (wp_publish_or_roll_back F)|]. intros r w' [S' Hst]. split; [done|].
  intros a b n Heq. destruct (Hst a b n Heq) as (-> & -> & -> & Href & Hobj & Hoth).
  split_and!; [| |cbn; unfold entry_parts; by rewrite length_parts_of|].
  - cbn. rewrite entry_bytes. apply Z.mod_small. split; [|done].
    apply sum_of_nonneg, Forall_fmap, Forall_true. intros bs. cbn. lia.
  - done.
  - split; [done..|]. exists w1. split_and!; [done..|]. intros p Hl Hne. rewrite <- Hr. by apply Hoth.
Qed.

Lemma wp_commit_locked w :
  store_ok (disk w) → tfiles w t = Some files →
  wp (commit_locked E self x fr cc c t (ref_path_of self key) record) (commit_post w) w.
Proof.
  intros S Hf. unfold commit_locked.
  assert (∀ w1 w2, same_refs w1 w2 → store_ok (disk w1) → store_ok (disk w2)) as HR by (intros; by eapply same_refs_store).
  apply wp_bind. eapply wp_mono.
  { apply (wp_guarding E c _ (λ _ w', w' = w) (λ w', store_ok (disk w'))); [done|]. unfold lock_root. by apply wp_write_io. }
  intros [[]|e] w1 H1; [subst w1|by split]. apply wp_bind. eapply wp_mono; [apply wp_lapsed|].
  intros [l|e] w1 [-> _]; [|by split]. destruct l.
  { eapply wp_mono; [apply wp_refuse|]. intros r w' H'. by eapply commit_post_refused. }
  apply wp_bind. eapply wp_mono.
  { apply (wp_guarding E c _ (λ _ w', shrinks w w') (λ w', store_ok (disk w'))); [done|].
    apply wp_bind. eapply wp_mono; [apply wp_remove_invalid_refs|]. intros [k|e] w1 S1; [|by eapply shrinks_store].
    eapply wp_mono; [apply wp_remove_orphan_objects; [done|by eapply shrinks_store]|].
    intros [[]|e] w2 S2; [by etrans|]. eapply shrinks_store; [done|]. by eapply shrinks_store. }
  intros [[]|e] w1 S1; [|by split]. assert (store_ok (disk w1)) as St1 by (by eapply shrinks_store).
  apply wp_bind. eapply wp_mono.
  { apply (wp_guarding E c _ (λ b w', shrinks w w' ∧ (b = true → admitted self (Some (ref_path_of self key))
      (r_stored_bytes record) (disk w'))) (λ w', store_ok (disk w'))); [done|].
    eapply wp_mono; [by apply wp_make_room|]. intros [b|e] w2 [S2 A]; [|by eapply shrinks_store].
    split; [by etrans|]. intros ->. by apply A. }
  intros [b|e] w2 H2; [|by split]. destruct H2 as [S2 A]. assert (store_ok (disk w2)) as St2 by (by eapply shrinks_store).
  destruct b; cbn [negb]; [specialize (A eq_refl)|]; cycle 1.
  { eapply wp_mono; [apply wp_refuse|]. intros r w' H'. by eapply (commit_post_refused w2). }
  apply wp_bind. eapply wp_mono; [apply wp_lapsed|]. intros [l|e] w3 [-> _]; [|by split]. destruct l.
  { eapply wp_mono; [apply wp_refuse|]. intros r w' H'. by eapply (commit_post_refused w2). }
  apply wp_bind, wp_try. unfold read_ref_file. apply wp_bind, wp_read_ok; [done|]. apply wp_bind, wp_get_disk.
  apply wp_mono with (λ r w', w' = w2 ∧ match r with Ok b => Some b | Err _ => None end = ref_files (disk w2) !! ref_path_of self key).
  { case_match; [by apply wp_ret|by apply wp_throw]. }
  intros old w3 [-> ->]. apply wp_bind. eapply wp_mono.
  { apply (wp_guarding E c _ (λ _ w', default ∅ (objects (disk w2) !! object_of record) = ∅ ∧
      ref_files (disk w') = ref_files (disk w2) ∧ objects (disk w') = <[object_of record := files]> (objects (disk w2)))
      (λ w', store_ok (disk w'))); [done|]. eapply wp_mono; [apply wp_rename_temp; unfold tfiles; by rewrite (shrinks_temps _ _ S2)|].
    intros [[]|e] w3 H3; [done|by subst]. }
  intros [[]|e] w3 H3; [|by split]. destruct H3 as (He & Hr3 & Ho3). apply wp_bind. eapply wp_mono; [apply wp_disarm_temp|].
  intros [[]|e] w4 [Hok [Hr4 Ho4]]; [|done]. eapply wp_mono; [apply (wp_publish_entry w2); try done; congruence|].
  intros r w5 [S5 H5]. split; [done|]. intros a b n Heq. destruct (H5 a b n Heq) as (? & ? & ? & Hcom).
  split_and!; [done..|]. by eapply committed_shrinks.
Qed.
End locked.

Lemma wp_skip_reason E self x fr cc w :
  wp (skip_reason E self x fr cc) (λ r w', w' = w ∧ ∃ o, r = Ok o) w.
Proof.
  unfold skip_reason. destruct cc as [k|]; [|apply wp_ret; by eauto].
  destruct (no_store k); [apply wp_ret; by eauto|]. case_decide; [apply wp_ret; by eauto|].
  case_decide; [apply wp_ret; by eauto|].
  apply wp_bind. eapply wp_mono; [apply wp_lapsed|]. intros [l|e] w' [-> Hok]; [|done]. apply wp_ret. by eauto.
Qed.

(** What a commit leaves, whatever calls other than reads fail. *)
Definition commit_spec (self : Inner) (x : Z) (cc : option CacheControl) (key : CacheKey) (c : DiskCapture)
    (bss : list (list Batch)) (t : string) (f : Files) (w : World) (r : io DiskCacheCommit) (w' : World) : Prop :=
  store_ok (disk w') ∧ ∀ a b n, r = Ok (Stored a b n) →
    a = file_bytes c bss ∧ b = c_rows c ∧ n = Z.of_nat (length bss) ∧
    ∃ now, committed self key (entry_record self x cc key c bss t now) (entry_files self key c bss f) w w'.

Lemma commit_spec_refused self x cc key c bss t f w1 w2 r w' :
  store_ok (disk w2) → same_refs w2 w' ∧ (∀ a b n, r ≠ Ok (Stored a b n)) → commit_spec self x cc key c bss t f w1 r w'.
Proof.
  intros S [H Hr]. split; [by eapply same_refs_store|]. intros a b n Heq. by destruct (Hr a b n).
Qed.

Lemma wp_commit_with_deadline E self x fr cc key c bss t f w :
  reads_ok E → store_ok (disk w) → capture_ok c bss t w → tfiles w t = Some f →
  is_Some (f !! ".lease"%string) → file_bytes c bss < 2 ^ 64 →
  wp (commit_with_deadline E self x fr cc key c)
    (λ r w', ∃ w1, same_refs w w1 ∧ commit_spec self x cc key c bss t f w1 r w') w.
Proof.
  intros Hro S C Hf Hl Hb. unfold commit_with_deadline.
  case_bool_decide; cbn [negb]; cycle 1.
  { apply wp_bind. eapply wp_mono; [apply wp_drop_capture|].
    intros [[]|e] w1 H1; [apply wp_throw|]; exists w; (split; [done|]); by eapply (commit_spec_refused _ _ _ _ _ _ _ _ w w). }
  destruct (limit_exceeded c).
  { eapply wp_mono; [apply wp_skip|]. intros r w1 H1. exists w. split; [done|]. by eapply (commit_spec_refused _ _ _ _ _ _ _ _ w w). }
  apply wp_bind. eapply wp_mono; [apply wp_skip_reason|]. intros r w1 [-> [o ->]]. rewrite (cap_temp _ _ _ _ C).
  destruct o as [reason|].
  { eapply wp_mono; [apply wp_refuse|]. intros r w1 H1. exists w. split; [done|]. by eapply (commit_spec_refused _ _ _ _ _ _ _ _ w w). }
  assert (∀ w1 w2, same_refs w1 w2 → same_refs w w1 → same_refs w w2) as HR by (intros; by etrans).
  apply wp_bind. eapply wp_mono.
  { apply (wp_guarding E c _ (λ ps w', same_refs w w' ∧ ps = entry_parts c bss ∧ tfiles w' t = Some (part_files c 0 bss f))
      (λ w', same_refs w w')); [done|]. eapply wp_mono; [by apply wp_finish_parts|].
    intros [ps|e] w1 [H1 Hps]; [|done]. split; [done|]. by apply Hps. }
  intros [ps|e] w1 H1; cycle 1.
  { exists w. split; [done|]. by eapply (commit_spec_refused _ _ _ _ _ _ _ _ w w). }
  destruct H1 as (H1 & -> & Hf1). assert (store_ok (disk w1)) as S1 by (by eapply same_refs_store).
  destruct (max_bytes self <? _).
  { eapply wp_mono; [apply wp_refuse|]. intros r w2 H2. exists w. split; [done|]. by eapply (commit_spec_refused _ _ _ _ _ _ _ _ w w1). }
  apply wp_bind. eapply wp_mono.
  { apply (wp_guarding E c _ (λ rec w', same_refs w w' ∧ (∃ now, rec = entry_record self x cc key c bss t now) ∧
      tfiles w' t = Some (entry_files self key c bss f)) (λ w', same_refs w w')); [done|].
    eapply wp_mono; [by apply wp_prepare|]. intros [rec|e] w2 [H2 Hrec]; [|by etrans]. split; [by etrans|]. by apply Hrec. }
  intros [rec|e] w2 H2; cycle 1.
  { exists w. split; [done|]. by eapply (commit_spec_refused _ _ _ _ _ _ _ _ w w). }
  destruct H2 as (H2 & [now ->] & Hf2). assert (store_ok (disk w2)) as S2 by (by eapply same_refs_store).
  eapply wp_mono; [by eapply wp_commit_locked|]. intros r w3 [S3 H3]. exists w2. split; [done|]. split; [done|].
  intros a b n Heq. destruct (H3 a b n Heq) as (? & ? & ? & ?). split_and!; [done..|]. by exists now.
Qed.
End commit.
