(* ===== verification/DiskCacheRoundtrip.v ===== *)
(** The disk cache end to end: captures, the store's consistency under failing
    calls, the bounds after a commit, and the round trip to a replayed hit. *)
From S2P Require Import Prelude CacheControl ResultCache DiskIo DiskCache DiskCacheLeases.
From S2P Require Import DiskCacheFacts DiskCacheStore DiskCacheAdmission DiskCacheCommit.

Open Scope Z_scope.

Section roundtrip.
Context {IPC : DiskIpc} {IPCL : DiskIpcLaws} {HSH : DiskHash} {HSHL : DiskHashLaws}
  {JSN : DiskJson} {JSNL : DiskJsonLaws}.

(** * Captures *)

Definition leased_temp (t : string) (w : World) : Prop :=
  ∃ f, tfiles w t = Some f ∧ is_Some (f !! ".lease"%string).

Lemma wp_for_each_ok {B} (f : B → M unit) (I : World → Prop) (l : list B) w :
  I w → (∀ b w, I w → wp (f b) (λ r w', same_refs w w' ∧ (is_ok r = true → I w')) w) →
  wp (for_each f l) (λ r w', same_refs w w' ∧ (is_ok r = true → I w')) w.
Proof.
  revert w. induction l as [|b l IH]; intros w HI Hf; [by apply wp_ret|].
  apply wp_bind. eapply wp_mono; [by apply Hf|]. intros [[]|e] w' [H1 HI']; [|done].
  eapply wp_mono; [apply IH; [by apply HI'|done]|]. intros r w2 [H2 H3]. split; [by etrans|done].
Qed.

Lemma leased_put E t name b w :
  leased_temp t w → wp (put_temp_file E t name b) (λ _ w', same_refs w w' ∧ leased_temp t w') w.
Proof.
  intros (f & Hf & Hl). eapply wp_mono; [apply wp_put_temp_file|]. intros [[]|e] w' [H1 Ht].
  - split; [done|]. rewrite Hf in Ht. eexists. split; [exact Ht|]. apply lookup_insert_is_Some.
    destruct (decide (name = ".lease"%string)); auto.
  - subst. split; [done|]. by exists f.
Qed.

Lemma wp_open_writer E self t schema i w :
  leased_temp t w → wp (open_writer E self t schema i) (λ r w', same_refs w w' ∧ (is_ok r = true → leased_temp t w')) w.
Proof.
  intros Hl. unfold open_writer. apply wp_bind. eapply wp_mono; [by apply leased_put|].
  intros [[]|e] w1 [H1 Hl1]; [|done]. apply wp_bind, wp_try. eapply wp_mono; [by apply leased_put|].
  intros [[]|e] w2 [H2 Hl2]; [apply wp_ret; split; [by etrans|done]|].
  apply wp_bind, wp_ignore. eapply wp_mono; [apply wp_remove_temp_dir|]. intros ? w3 H3.
  apply wp_throw. split; [|done]. etrans; [exact H1|]. by etrans.
Qed.

Lemma wp_begin_capture E self schema n w :
  wp (begin_capture E self schema n) (λ r w', same_refs w w' ∧ ∀ c, r = Ok c →
    c_schema c = schema ∧ ∃ t, capture_ok c (replicate n []) t w') w.
Proof.
  unfold begin_capture. destruct n as [|n]; cbn [Nat.eqb]; [by apply wp_throw|]. set (m := S n).
  apply wp_bind. unfold unique_generation. apply wp_bind, wp_random; [done|]. intros rnd.
  apply wp_bind, wp_fmap_tick. intros k. apply wp_ret. set (t := digest self _).
  assert (safe_component t = true) as Hs by apply digest_safe.
  apply wp_bind. unfold create_temp_dir. apply wp_bind, wp_write_io; [done|]. apply wp_bind, wp_fmap_tick. intros k'.
  apply wp_on_disk. set (w1 := mkWorld _ _). assert (same_refs w w1) as H1 by done.
  assert (is_Some (temps (disk w1) !! t)) as [tmp Htmp].
  { cbn. destruct (temps (disk w) !! t) eqn:Ht; [by rewrite Ht|]. rewrite lookup_insert_eq. done. }
  clearbody w1 t. apply wp_bind. unfold write_new_temp_file. apply wp_bind, wp_get_disk. rewrite Htmp.
  destruct (t_files tmp !! _); [by apply wp_throw|]. eapply wp_mono; [apply wp_put_temp_file|].
  intros [[]|e] w2 [H2 Ht2]; [|by subst].
  assert (leased_temp t w2) as Hl2.
  { eexists. unfold tfiles at 2 in Ht2. rewrite Htmp in Ht2. split; [exact Ht2|]. by rewrite lookup_insert_eq. }
  assert (same_refs w w2) as H02 by (by etrans).
  apply wp_bind, wp_read_io; [done|]. apply wp_bind, wp_write_io; [done|]. apply wp_bind, wp_on_disk, wp_bind, wp_try.
  eapply wp_mono; [apply (wp_for_each_ok (open_writer E self t schema) (leased_temp t)); [exact Hl2|]|].
  { intros i w3 Hl3. by apply wp_open_writer. }
  intros [[]|e] w4 [[Hr4 Ho4] Hl4]; [|apply wp_bind, wp_on_disk, wp_throw; split; [etrans; [exact H02|by split]|done]].
  destruct (Hl4 eq_refl) as (f & Hf & Hlf). apply wp_bind, wp_on_proc, wp_ret. split; [etrans; [exact H02|by split]|].
  intros c [= <-]. split; [done|]. exists t. unfold m. split; cbn [temp_dir writers c_schema schema_hash_ c_rows]; try done.
  - by exists f.
  - rewrite fmap_replicate. done.
  - apply Forall_replicate. done.
  - clear. induction n as [|n IH]; [done|]. exact IH.
Qed.

Lemma rows_insert (bss : list (list Batch)) i bs b :
  bss !! i = Some bs →
  sum_of (num_rows <$> concat (<[i := bs ++ [b]]> bss)) = sum_of (num_rows <$> concat bss) + num_rows b.
Proof.
  revert i. induction bss as [|x bss IH]; intros [|i] Hi; cbn in Hi; simplify_eq.
  - cbn [insert list_insert concat]. rewrite !fmap_app, !sum_of_app. cbn. lia.
  - change (<[S i := bs ++ [b]]> (x :: bss)) with (x :: <[i := bs ++ [b]]> bss). cbn [concat].
    rewrite !fmap_app, !sum_of_app, IH by done. lia.
Qed.

Lemma wp_written_lengths E codec schema ws w : wp (written_lengths E codec schema ws) (λ _ w', w' = w) w.
Proof.
  induction ws as [|[bs|] ws IH]; cbn [written_lengths]; [by apply wp_ret| |done].
  apply wp_bind, wp_try, wp_read_io; apply wp_bind; (eapply wp_mono; [exact IH|]); intros [l|e] w' ->; by apply wp_ret || done.
Qed.

Lemma wp_push_batch E c bss t i b w :
  capture_ok c bss t w →
  wp (push_batch E c i b) (λ r w', same_refs w w' ∧ ∀ c', r = Ok (Ok tt, c') →
    c_schema c' = c_schema c ∧ ∃ bs, bss !! i = Some bs ∧ capture_ok c' (<[i := bs ++ [b]]> bss) t w') w.
Proof.
  intros C. unfold push_batch. case_bool_decide as Hb; cbn [negb]; [|by apply wp_ret].
  rewrite (cap_writers _ _ _ _ C), (cap_temp _ _ _ _ C), list_lookup_fmap.
  destruct (bss !! i) as [bs|] eqn:Hi; cbn [fmap option_fmap option_map]; [|by apply wp_ret].
  pose proof (cap_files _ _ _ _ C) as Hl. apply wp_bind, wp_try. eapply wp_mono; [by apply leased_put|].
  intros [[]|e] w1 [H1 Hl1]; [|by apply wp_ret]. cbv zeta. apply wp_bind. eapply wp_mono; [apply wp_written_lengths|].
  intros [ls|e] w2 ->; [|done]. case_match.
  { apply wp_bind. case_match; [apply wp_ret|apply wp_on_proc]; apply wp_ret; by split. }
  apply wp_ret. split; [done|]. intros c' [= <-]. split; [done|]. exists bs. split; [done|].
  destruct C as [Ct Cs Cf Cw Cn Csch Ch Cr]. split; cbn; try done.
  - by rewrite Cw, list_fmap_insert.
  - by destruct bss, i.
  - apply Forall_insert; [done|]. apply Forall_app. split; [|by constructor].
    rewrite Forall_lookup in Csch. by eapply Csch.
  - rewrite rows_insert by done. rewrite Cr. pose proof (num_rows_nonneg b). unfold saturating_add. lia.
Qed.

(** Capturing a list of batches, each for its partition; the first error ends it. *)
Fixpoint push_all (E : Env) (c : DiskCapture) (items : list (nat * Batch)) : M DiskCapture :=
  match items with
  | [] => mret c
  | (i, b) :: items => '(r, c) ← push_batch E c i b; _ ← lift r; push_all E c items
  end.
Definition capture_all (E : Env) (self : Inner) (schema : Schema) (n : nat) (items : list (nat * Batch)) : M DiskCapture :=
  c ← begin_capture E self schema n; push_all E c items.

(** The batches of each partition, in the order they were pushed. *)
Definition put_item (bss : list (list Batch)) (item : nat * Batch) : list (list Batch) :=
  alter (λ bs, bs ++ [item.2]) item.1 bss.
Definition pushed (n : nat) (items : list (nat * Batch)) : list (list Batch) :=
  foldl put_item (replicate n []) items.

Lemma wp_push_all E c bss t items w :
  capture_ok c bss t w →
  wp (push_all E c items) (λ r w', same_refs w w' ∧ ∀ c', r = Ok c' →
    c_schema c' = c_schema c ∧ capture_ok c' (foldl put_item bss items) t w') w.
Proof.
  revert c bss w. induction items as [|[i b] items IH]; intros c bss w C; cbn [push_all foldl].
  { apply wp_ret. split; [done|]. by intros ? [= <-]. }
  apply wp_bind. eapply wp_mono; [by apply wp_push_batch|]. intros [[[[]|e] c1]|e] w1 [H1 Hc]; [| |done].
  - destruct (Hc c1 eq_refl) as (Hs & bs & Hbs & C1). apply wp_bind, wp_lift. eapply wp_mono; [by apply IH|].
    intros r w2 [H2 Hr]. split; [by etrans|]. intros c' Hc'. destruct (Hr c' Hc') as [Hs' C']. split; [congruence|].
    unfold put_item at 2. cbn [fst snd].
    replace (alter (λ bs, bs ++ [b]) i bss) with (<[i := bs ++ [b]]> bss); [done|].
    apply list_eq. intros j. destruct (decide (j = i)) as [->|Hne].
    + rewrite list_lookup_alter_eq, list_lookup_insert_eq, Hbs; [done|]. by eapply lookup_lt_Some.
    + by rewrite list_lookup_alter_ne, list_lookup_insert_ne.
  - apply wp_bind, wp_lift. done.
Qed.

Lemma wp_capture_all E self schema n items w :
  wp (capture_all E self schema n items) (λ r w', same_refs w w' ∧ ∀ c, r = Ok c →
    c_schema c = schema ∧ ∃ t, capture_ok c (pushed n items) t w') w.
Proof.
  unfold capture_all. apply wp_bind. eapply wp_mono; [apply wp_begin_capture|]. intros [c|e] w1 [H1 Hc]; [|done].
  destruct (Hc c eq_refl) as (<- & t & C). eapply wp_mono; [by apply wp_push_all|]. intros r w2 [H2 Hr].
  split; [by etrans|]. intros c' Hc'. destruct (Hr c' Hc') as [Hs C']. split; [done|]. by exists t.
Qed.

(** * Lookups that succeed *)

Lemma wp_lookup_ok E self key expected record f m s w :
  reads_ok E → writes_ok E → ref_files (disk w) !! ref_path_of self key = Some (ref_json record) →
  parse_ref (ref_json record) = Ok record → r_version record = FORMAT_VERSION →
  r_key_digest record = digest self (stable_bytes key) →
  r_identity_digest record = digest self (as_bytes (identity_scope key)) →
  (∀ n, epoch_ms (wall E n) < r_expires_ms record) →
  objects (disk w) !! object_of record = Some f → is_Some (f !! ".lease"%string) → intact f record m s → expects expected s →
  wp (lookup_inner E self key expected false) (λ r w', objects (disk w') = objects (disk w) ∧
    r = Ok (Some (mkDiskHit s (object_of record) m record))) w.
Proof.
  intros Hro Hwo Href Hp Hv Hk Hi Hfresh Ho Hl I He. unfold lookup_inner, observe. cbv zeta. apply wp_bind.
  unfold lock_root. apply wp_bind, wp_write_ok; [done|]. apply wp_bind, wp_try. unfold read_ref_file.
  apply wp_bind, wp_read_ok; [done|]. apply wp_bind, wp_get_disk. rewrite Href. apply wp_ret. rewrite Hp.
  rewrite Hv, Hk, Hi. rewrite !bool_decide_true by done. cbn [andb].
  assert (safe_component (r_generation record) = true) as ->.
  { unfold parse_ref in Hp. rewrite ref_json_roundtrip in Hp. by destruct (safe_component (r_generation record)), (safe_component (r_key_digest record)), (safe_component (r_identity_digest record)). }
  cbn [negb]. apply wp_bind, wp_fmap_tick. intros n. rewrite (proj2 (Z.leb_gt _ _) (Hfresh n)). cbn [andb negb orb].
  apply wp_bind, wp_try. unfold acquire_lease. apply wp_bind, wp_read_ok; [done|]. apply wp_bind, wp_get_disk.
  assert (has_file (disk w) (object_of record) ".lease" = true) as ->.
  { unfold has_file. rewrite Ho. by apply bool_decide_eq_true. }
  apply wp_bind, wp_write_ok; [done|]. apply wp_bind, wp_on_disk, wp_on_proc, wp_ret.
  unfold finish_lookup. cbv zeta. apply wp_bind, wp_try. eapply wp_mono; [by eapply wp_validate_hit_ok|].
  intros r w1 [-> ->]. apply wp_bind, wp_bind, wp_fmap_tick. intros k. by apply wp_bind, wp_on_proc, wp_on_proc, wp_ret.
Qed.

Lemma wp_open_partition E hit f i part b bs w :
  reads_ok E → objects (disk w) !! h_object hit = Some f → mf_parts (h_manifest hit) !! i = Some part →
  f !! pt_file part = Some b → ipc_read b = Some bs →
  wp (open_partition E hit i) (λ r _, r = Ok bs.2) w.
Proof.
  intros Hro Ho Hp Hf Hr. unfold open_partition. rewrite Hp. apply wp_bind. unfold read_object_file.
  apply wp_bind, wp_read_ok; [done|]. apply wp_bind, wp_get_disk. rewrite Ho. cbn [mbind option_bind]. rewrite Hf.
  apply wp_ret. rewrite Hr. destruct bs. by apply wp_ret.
Qed.

Lemma parts_of_nth c rows_ i bss j bs :
  bss !! j = Some bs → parts_of c rows_ i bss !! j = Some (part_of c rows_ (i + j) bs).
Proof.
  revert i j. induction bss as [|x bss IH]; intros i [|j] Hj; cbn in *; simplify_eq.
  - by rewrite Nat.add_0_r.
  - rewrite <- Nat.add_succ_comm. by apply IH.
Qed.

(** C16: A committed capture is served back.  Capture any
    batches over any number of partitions and commit them, with calls failing
    anywhere except reads; if the commit answers [Stored], a lookup of the key
    with the captured schema before the deadline is a hit, its totals are the
    ones reported, and opening partition [i] reads exactly the batches pushed to
    [i], in order. *)
Theorem disk_cache_roundtrip E E' self schema n items key x fr cc w k c w1 k1 stored rows_ parts w2 k2 k3 r w3 k4 :
  reads_ok E → store_ok (disk w) →
  capture_all E self schema n items w k = (Ok c, w1, k1) →
  file_bytes c (pushed n items) < 2 ^ 64 →
  commit_with_deadline E self x fr cc key c w1 k1 = (Ok (Stored stored rows_ parts), w2, k2) →
  reads_ok E' → writes_ok E' → (∀ j, epoch_ms (wall E' j) < epoch_ms x) →
  lookup_expected_schema E' self key schema w2 k3 = (r, w3, k4) →
  ∃ hit, r = Ok (Some hit) ∧ h_schema hit = schema ∧
    mf_stored_bytes (h_manifest hit) = stored ∧ mf_rows (h_manifest hit) = rows_ ∧
    Z.of_nat (length (mf_parts (h_manifest hit))) = parts ∧
    ∀ i bs, pushed n items !! i = Some bs → ∀ j, (open_partition E' hit i w3 j).1.1 = Ok (Some <$> bs).
Proof.
  intros Hro S Hcap Hb Hcom Hro' Hwo' Hfresh Hlook.
  destruct (wp_use _ _ _ _ _ _ _ (wp_capture_all E self schema n items w) Hcap) as [H1 Hc].
  destruct (Hc c eq_refl) as (Hs & t & C). destruct (cap_files _ _ _ _ C) as (f & Hf & Hl).
  pose proof (wp_commit_with_deadline E self x fr cc key c (pushed n items) t f w1 Hro
    (same_refs_store _ _ H1 S) C Hf Hl Hb) as Hwp.
  destruct (wp_use _ _ _ _ _ _ _ Hwp Hcom) as (w1' & _ & S2 & Hst). clear Hwp.
  destruct (Hst _ _ _ eq_refl) as (-> & -> & -> & now & Hcomm). clear Hst.
  set (record := entry_record self x cc key c (pushed n items) t now) in *.
  set (files := entry_files self key c (pushed n items) f) in *.
  assert (intact files record (entry_manifest self key c (pushed n items)) (c_schema c)) as I by (by eapply entry_intact).
  unfold lookup_expected_schema in Hlook.
  assert (wp (lookup_inner E' self key (Some schema) false) (λ r w', objects (disk w') = objects (disk w2) ∧
    r = Ok (Some (mkDiskHit (c_schema c) (object_of record) (entry_manifest self key c (pushed n items)) record))) w2) as Hwp.
  { apply wp_lookup_ok with files; try done.
    - apply Hcomm.
    - by eapply entry_parse.
    - apply Hcomm.
    - by apply entry_files_lease. }
  destruct (wp_use _ _ _ _ _ _ _ Hwp Hlook) as [Ho ->]. eexists. split; [done|]. cbn [h_schema h_manifest].
  assert (0 ≤ file_bytes c (pushed n items)).
  { apply sum_of_nonneg, Forall_fmap, Forall_true. intros bs. cbn. lia. }
  split_and!; [done|cbn; rewrite entry_bytes; apply Z.mod_small; lia|done|cbn; unfold entry_parts; by rewrite length_parts_of|].
  intros i bs Hi j.
  assert (wp (open_partition E' (mkDiskHit (c_schema c) (object_of record) (entry_manifest self key c (pushed n items)) record) i)
    (λ r _, r = Ok (Some <$> bs)) w3) as Hop.
  { eapply wp_mono; [apply (wp_open_partition E' _ files i (part_of c rows_of i bs) (file_of c bs) (c_schema c, Some <$> bs)); [done|..]|by intros ? ? ->]; cbn.
    - rewrite Ho. apply Hcomm.
    - unfold entry_parts. by apply (parts_of_nth c rows_of 0).
    - unfold files, entry_files. rewrite lookup_insert_ne by (symmetry; apply part_name_manifest). by apply (part_files_lookup c 0).
    - apply ipc_read_file. pose proof (cap_schema _ _ _ _ C) as Hsch. rewrite Forall_lookup in Hsch. by eapply Hsch. }
  specialize (Hop j). by destruct (open_partition E' _ i w3 j) as [[? ?] ?].
Qed.

(** * Bounds *)

Lemma sum_of_perm l1 l2 : l1 ≡ₚ l2 → sum_of l1 = sum_of l2.
Proof. induction 1; cbn; lia. Qed.

Lemma live_refs_committed self key record f w w' :
  parse_ref (ref_json record) = Ok record → committed self key record f w w' →
  ∃ w1, admitted self (Some (ref_path_of self key)) (r_stored_bytes record) (disk w1) ∧
    live_refs (disk w') ≡ₚ (ref_path_of self key, record) :: others (Some (ref_path_of self key)) (live_refs (disk w1)).
Proof.
  intros Hp [Href _ (w1 & _ & A & Hoth)]. exists w1. split; [done|]. apply NoDup_Permutation.
  - eapply NoDup_fmap_1, live_refs_nodup.
  - apply NoDup_cons. split; [by rewrite others_elem; intros [? _]|]. apply NoDup_filter.
    eapply NoDup_fmap_1, live_refs_nodup.
  - intros [p r]. rewrite elem_of_cons, others_elem, live_refs_elem. split.
    + intros (Hl & b & Hb & Hr). destruct (decide (p = ref_path_of self key)) as [->|Hne].
      * left. rewrite Href in Hb. simplify_eq. rewrite Hp in Hr. by simplify_eq.
      * right. split; [congruence|]. split; [done|]. exists b. by rewrite <- Hoth.
    + intros [Heq|[Hne (Hl & b & Hb & Hr)]].
      * simplify_eq. split; [apply entry_listed|]. by exists (ref_json record).
      * split; [done|]. exists b. rewrite Hoth; [done..|congruence].
Qed.

Lemma fits_bounds self used orphan retained incoming :
  0 ≤ used.1 → 0 ≤ used.2 → 0 ≤ orphan.1 → 0 ≤ orphan.2 → 0 ≤ retained.1 → 0 ≤ retained.2 → 0 < incoming →
  max_entries self < u64_max → fits self used orphan retained incoming = true →
  1 + used.1 ≤ max_entries self ∧ (max_bytes self < u64_max → incoming + used.2 ≤ max_bytes self).
Proof.
  intros ? ? ? ? ? ? Hi Hm Hf. unfold fits in Hf. rewrite (proj2 (Z.ltb_lt 0 incoming) Hi) in Hf.
  apply andb_true_iff in Hf as [Hf1 Hf2]. apply Z.leb_le in Hf1, Hf2. unfold saturating_add in *. split; [|intros Hb]; lia.
Qed.

(** C39: Provided no call that reads the file system fails ([reads_ok]), after a
    commit that answers [Stored] the cache is within its configured bounds: the
    entries on disk, the new one included, are at most [max_entries], and the bytes
    they account for, as [stats] reports them, at most [max_bytes]; whatever calls
    that write failed. A ref that cannot be read is not counted, so a failing read
    during admission can let the cache grow past its bounds. *)
Theorem disk_commit_bounded E self schema n items key x fr cc w k c w1 k1 stored rows_ parts w2 k2 :
  reads_ok E → store_ok (disk w) →
  capture_all E self schema n items w k = (Ok c, w1, k1) →
  0 < file_bytes c (pushed n items) < 2 ^ 64 → max_entries self < u64_max → max_bytes self ≤ u64_max →
  commit_with_deadline E self x fr cc key c w1 k1 = (Ok (Stored stored rows_ parts), w2, k2) →
  (usage (live_refs (disk w2))).1 ≤ max_entries self ∧ (usage (live_refs (disk w2))).2 ≤ max_bytes self.
Proof.
  intros Hro S Hcap Hb Hme Hmb Hcom.
  destruct (wp_use _ _ _ _ _ _ _ (wp_capture_all E self schema n items w) Hcap) as [H1 Hc].
  destruct (Hc c eq_refl) as (Hs & t & C). destruct (cap_files _ _ _ _ C) as (f & Hf & Hl).
  pose proof (wp_commit_with_deadline E self x fr cc key c (pushed n items) t f w1 Hro
    (same_refs_store _ _ H1 S) C Hf Hl ltac:(lia)) as Hwp.
  destruct (wp_use _ _ _ _ _ _ _ Hwp Hcom) as (w1' & _ & S2 & Hst). clear Hwp.
  destruct (Hst _ _ _ eq_refl) as (-> & -> & -> & now & Hcomm). clear Hst.
  destruct (live_refs_committed _ _ _ _ _ _ (entry_parse self x cc key c (pushed n items) t now w1 C) Hcomm)
    as (w3 & (orphan & retained & Ho1 & Ho2 & Hr1 & Hr2 & Hfit) & Hperm).
  set (rest := others _ _) in *. set (record := entry_record _ _ _ _ _ _ _ _) in *.
  assert (r_stored_bytes record = file_bytes c (pushed n items)) as Hst.
  { unfold record. cbn. rewrite entry_bytes. apply Z.mod_small. lia. }
  rewrite Hst in Hfit. assert (∀ l, 0 ≤ sum_u64 l < 2 ^ 64) as Hu by (intros l; apply Z.mod_pos_bound; lia).
  destruct (fits_bounds self (usage rest) orphan retained (file_bytes c (pushed n items))) as [He Hby];
    [cbn; lia|apply Hu|done..|lia|done|done|].
  unfold usage in *. cbn [fst snd] in *. rewrite (Permutation_length Hperm). cbn [length]. split; [lia|].
  assert (sum_u64 ((λ e, r_stored_bytes e.2) <$> live_refs (disk w2)) =
    (file_bytes c (pushed n items) + sum_u64 ((λ e, r_stored_bytes e.2) <$> rest)) mod 2 ^ 64) as ->.
  { unfold sum_u64. rewrite (sum_of_perm _ _ (fmap_Permutation _ _ _ Hperm)). cbn [fmap list_fmap foldr snd].
    rewrite Hst, Zplus_mod_idemp_r. done. }
  pose proof (Hu ((λ e : RefPath * RefRecord, r_stored_bytes e.2) <$> rest)).
  destruct (decide (max_bytes self < u64_max)) as [Hlt|Hge].
  - specialize (Hby Hlt). rewrite Z.mod_small; [done|]. unfold u64_max in *. lia.
  - pose proof (Z.mod_pos_bound (file_bytes c (pushed n items) + sum_u64 ((λ e : RefPath * RefRecord, r_stored_bytes e.2) <$> rest)) (2 ^ 64)).
    unfold u64_max in *. lia.
Qed.

(** * Consistency of the store under every operation *)

Lemma parse_listed b r : parse_ref b = Ok r → listed_ref (r_identity_digest r, ref_name (r_key_digest r)) = true.
Proof.
  intros Hp. unfold parse_ref in Hp. destruct (ref_of_json b) as [r'|]; [|done].
  destruct (safe_component (r_key_digest r')) eqn:Hk; [|done]. destruct (safe_component (r_identity_digest r')) eqn:Hi; [|done].
  cbn in Hp. repeat case_match; simplify_eq. unfold listed_ref. cbn [fst snd].
  destruct (safe_nonempty _ Hk), (safe_nonempty _ Hi). rewrite ref_name_extension by done. by rewrite !bool_decide_true.
Qed.

Definition keeps_store (m : M unit) : Prop := ∀ w, store_ok (disk w) → wp m (λ _ w', store_ok (disk w')) w.

Section consistency.
Context (E : Env) (self : Inner) (Hro : reads_ok E).
Implicit Types (w : World).

Lemma wp_store_then {A B} (m : M A) (g : A → M B) w :
  store_ok (disk w) → wp m (λ _ w', store_ok (disk w')) w →
  (∀ a w', store_ok (disk w') → wp (g a) (λ _ w'', store_ok (disk w'')) w') →
  wp (m ≫= g) (λ _ w'', store_ok (disk w'')) w.
Proof. intros S Hm Hg. apply wp_bind. eapply wp_mono; [exact Hm|]. intros [a|e] w' S'; [by apply Hg|done]. Qed.

Lemma wp_store_shrinks {A} (m : M A) w :
  store_ok (disk w) → wp m (λ _, shrinks w) w → wp m (λ _ w', store_ok (disk w')) w.
Proof. intros S Hm. eapply wp_mono; [exact Hm|]. intros r w' Hs. exact (shrinks_store w w' Hs S). Qed.
Lemma wp_store_same {A} (m : M A) w :
  store_ok (disk w) → wp m (λ _, same_refs w) w → wp m (λ _ w', store_ok (disk w')) w.
Proof. intros S Hm. eapply wp_mono; [exact Hm|]. intros r w' Hs. exact (same_refs_store w w' Hs S). Qed.

Lemma wp_store_lock w : store_ok (disk w) → wp (lock_root E) (λ _ w', store_ok (disk w')) w.
Proof. intros S. unfold lock_root. by apply wp_write_io. Qed.
Lemma wp_store_bump c k w : store_ok (disk w) → wp (bump c k) (λ _ w', store_ok (disk w')) w.
Proof. intros S. by apply wp_on_proc. Qed.
Lemma wp_store_refresh w : store_ok (disk w) → wp (refresh_current_stats E) (λ _ w', store_ok (disk w')) w.
Proof.
  intros S. unfold refresh_current_stats. apply wp_bind. eapply wp_mono; [by apply wp_current_size|].
  intros r w' [-> ->]. by apply wp_on_proc.
Qed.

Lemma wp_store_if_current p r w :
  store_ok (disk w) → (∀ b, parse_ref b = Ok r → listed_ref p = true) →
  wp (remove_record_if_current E p r) (λ _ w', store_ok (disk w')) w.
Proof.
  intros S Hl. unfold remove_record_if_current. apply wp_bind, wp_try. eapply wp_mono; [by apply wp_read_ref|].
  intros cur w' [-> ->]. destruct (ref_files _ !! _) as [b|] eqn:Hb; [|by apply wp_ret].
  destruct (parse_ref b) as [cur|] eqn:Hp; [|by apply wp_ret]. case_bool_decide; [subst cur|by apply wp_ret].
  apply wp_bind. eapply wp_mono; [apply wp_remove_record, owner_live; [done|]|].
  - split; [by eapply Hl|]. by exists b.
  - intros [[]|e] w1 (S1 & _); [apply wp_ret|]; exact (shrinks_store _ _ S1 S).
Qed.

Lemma wp_store_discard key r c w :
  store_ok (disk w) → wp (discard E (ref_path_of self key) r c) (λ _ w', store_ok (disk w')) w.
Proof.
  intros S. unfold discard, lock_root. apply wp_bind, wp_write_io; [done|]. apply wp_store_then; [done| |].
  - apply wp_store_if_current; [done|]. intros. apply entry_listed.
  - intros _ w' S'. by apply wp_bind, wp_on_proc, wp_on_proc.
Qed.

Lemma store_locks f d : store_ok d → store_ok (set_locks f d).
Proof. intros [He Hu]. split; [|exact Hu]. intros p r Hl. destruct (He p r Hl). by split. Qed.

Lemma wp_store_where pred w :
  store_ok (disk w) → wp (remove_matching_refs E pred) (λ _ w', store_ok (disk w')) w.
Proof.
  intros S. unfold remove_matching_refs. apply wp_bind. eapply wp_mono; [by apply wp_refs|]. intros r w' [-> ->].
  apply wp_store_shrinks; [done|]. by apply wp_remove_where, live_refs_owned.
Qed.

Lemma wp_remove_old_temps w : wp (remove_old_temps E) (λ _, same_refs w) w.
Proof.
  unfold remove_old_temps. apply wp_bind, wp_get_proc, wp_bind, wp_fmap_tick. intros t.
  apply wp_bind, wp_read_ok; [done|]. apply wp_bind, wp_get_disk. apply wp_for_each; [done|]. intros x w1 _ H1.
  unfold remove_old_temp. case_bool_decide; [by apply wp_ret|]. apply wp_bind, wp_read_ok; [done|]. apply wp_bind, wp_get_disk.
  destruct (temps _ !! x); [|by apply wp_ret]. cbv zeta. apply wp_bind.
  apply wp_mono with (λ _ w', w' = w1); [case_match; [by apply wp_write_io|by apply wp_ret]|].
  intros [[]|e] w2 ->; [|done]. case_match; [by apply wp_ret|]. apply wp_bind, wp_read_ok; [done|].
  case_match; [|by apply wp_ret]. eapply wp_mono; [apply wp_remove_temp_dir|]. intros. by etrans.
Qed.

Lemma wp_store_clean me w : store_ok (disk w) → wp (clean E me) (λ _ w', store_ok (disk w')) w.
Proof.
  intros S. unfold clean. apply wp_store_then; [done|apply wp_store_shrinks; [done|apply wp_remove_invalid_refs]|].
  clear dependent w. intros _ w S. apply wp_store_then; [done|apply wp_store_shrinks; [done|by apply wp_remove_expired]|].
  clear dependent w. intros _ w S. apply wp_store_then; [done|apply wp_store_same; [done|apply wp_remove_old_temps]|].
  clear dependent w. intros _ w S. apply wp_store_then; [done|apply wp_store_shrinks; [done|by apply wp_remove_orphan_objects]|].
  clear dependent w. intros _ w S. apply wp_store_then; [done| |intros; by apply wp_store_refresh].
  eapply wp_mono; [by apply wp_make_room|]. intros r w' [Hs _]. by eapply shrinks_store.
Qed.

Lemma wp_store_none w (m : M unit) :
  store_ok (disk w) → wp m (λ _ w', store_ok (disk w')) w →
  wp (_ ← m; mret (None : option RefRecord)) (λ _ w', store_ok (disk w')) w.
Proof. intros S Hm. apply wp_store_then; [done..|]. intros. by apply wp_ret. Qed.

Lemma wp_store_observe key stale w :
  store_ok (disk w) → wp (observe E self key stale) (λ _ w', store_ok (disk w')) w.
Proof.
  intros S. unfold observe. cbv zeta. apply wp_store_then; [done|by apply wp_store_lock|].
  clear dependent w. intros _ w S. apply wp_bind, wp_try. unfold read_ref_file. apply wp_bind, wp_read_ok; [done|].
  apply wp_bind, wp_get_disk. destruct (ref_files _ !! _) as [b|] eqn:Hb; [apply wp_ret|]; cycle 1.
  { apply wp_throw. apply wp_store_none; [done|by apply wp_store_bump]. }
  destruct (parse_ref b) as [r|] eqn:Hr; cycle 1.
  { apply wp_store_then; [done|by apply wp_store_lock|]. intros _ w1 S1. apply wp_bind, wp_try.
    apply wp_bind, wp_read_ok; [done|]. apply wp_bind, wp_get_disk.
    apply wp_mono with (λ _ w', w' = w1); [case_match; by apply wp_ret || by apply wp_throw|]. intros a w2 ->.
    apply wp_store_then; [done| |].
    - case_match; [|by apply wp_ret]. apply wp_ignore. eapply wp_mono; [apply wp_remove_ref_file|].
      intros ? w2 (S2 & _). exact (shrinks_store _ _ S2 S1).
    - intros _ w2 S2. by apply wp_bind, wp_on_proc, wp_bind, wp_on_proc, wp_ret. }
  case_match; [apply wp_store_none; [done|by apply wp_store_discard]|].
  apply wp_bind, wp_fmap_tick. intros k. case_match; [apply wp_store_none; [done|by apply wp_store_discard]|].
  case_match; [apply wp_store_none; [done|by apply wp_store_bump]|].
  apply wp_bind, wp_try. unfold acquire_lease. apply wp_bind, wp_read_ok; [done|]. apply wp_bind, wp_get_disk.
  case_match; [|apply wp_throw, wp_store_none; [done|by apply wp_store_discard]].
  apply wp_bind, wp_write_io; [by apply wp_throw|]. apply wp_bind, wp_on_disk, wp_on_proc, wp_ret. by apply store_locks.
Qed.

Lemma wp_store_finish key expected stale r w :
  store_ok (disk w) → wp (finish_lookup E self key expected stale r) (λ _ w', store_ok (disk w')) w.
Proof.
  intros S. unfold finish_lookup. cbv zeta. apply wp_bind, wp_try. eapply wp_mono; [apply wp_validate_hit|].
  intros [hit|e] w1 [-> _].
  - apply wp_bind. destruct stale; [by apply wp_ret, wp_ret|]. apply wp_bind, wp_fmap_tick. intros k.
    by apply wp_bind, wp_on_proc, wp_on_proc, wp_ret.
  - unfold drop_lease. apply wp_bind, wp_bind, wp_on_disk, wp_on_proc. apply wp_store_then; [by apply store_locks| |intros; by apply wp_ret].
    apply wp_store_discard. by apply store_locks.
Qed.

(** Sliding an entry's freshness keeps what its object is checked against. *)
Lemma refreshed_intact f r m s now fr cc : intact f r m s → intact f (refreshed r now fr cc) m s.
Proof. intros [? ? ? ? ? ? ?]. by split. Qed.

Lemma refreshed_parse b r now fr cc : parse_ref b = Ok r → parse_ref (ref_json (refreshed r now fr cc)) = Ok (refreshed r now fr cc).
Proof.
  unfold parse_ref. rewrite ref_json_roundtrip. destruct (ref_of_json b) as [r'|]; [|done]. intros Hp.
  destruct (_ && _) eqn:Ha; [|done]. simplify_eq. cbn. by rewrite Ha.
Qed.

Lemma wp_store_revalidate hit fr cc w :
  store_ok (disk w) → wp (revalidate_freshness E hit fr cc) (λ _ w', store_ok (disk w')) w.
Proof.
  intros S. unfold revalidate_freshness. do 2 (destruct (_ || _); [by apply wp_ret|]).
  unfold ran_out. apply wp_bind, wp_bind, wp_fmap_tick. intros k. apply wp_ret. case_match; [by apply wp_ret|].
  cbv zeta. apply wp_store_then; [done|by apply wp_store_lock|]. clear dependent w. intros _ w S.
  apply wp_bind, wp_try. eapply wp_mono; [by apply wp_read_ref|]. intros cur w' [-> ->].
  destruct (ref_files _ !! _) as [b|] eqn:Hb; [|by apply wp_ret].
  destruct (parse_ref b) as [r|e] eqn:Hp; cycle 1.
  { destruct e as [[]| | | |]; by apply wp_ret || by apply wp_throw. }
  case_bool_decide as Hr; cbn [negb]; [subst r|by apply wp_ret].
  apply wp_bind, wp_fmap_tick. intros k'. set (r' := refreshed _ _ _ _). set (p := hit_ref_path hit) in *.
  assert (listed_ref p = true) as Hl by (by eapply parse_listed).
  assert (live (disk w) p (h_record hit)) as Hlive by (split; [done|by exists b]).
  assert (parse_ref (ref_json r') = Ok r') as Hp' by (by eapply refreshed_parse).
  apply wp_store_then; [done| |].
  - eapply wp_mono; [by apply wp_write_replace|]. intros res w' [[Ho _ Hoth Hh] _].
    assert (∀ p1 r1, live (disk w') p1 r1 → live (disk w) p1 r1 ∨ (p1 = p ∧ r1 = r')) as Hlv.
    { intros p1 r1 (Hl1 & b1 & Hb1 & Hr1). destruct (decide (p1 = p)) as [->|Hne].
      - destruct Hh as [Hh|Hh]; rewrite Hh in Hb1; [left; split; [done|by exists b1]|right]. simplify_eq. rewrite Hp' in Hr1. by simplify_eq.
      - left. split; [done|]. exists b1. by rewrite <- Hoth. }
    split.
    + intros p1 r1 H1. destruct (Hlv p1 r1 H1) as [Hl1|[-> ->]].
      * destruct (store_entry _ S p1 r1 Hl1) as [? ? Hob]. split; [done..|]. by rewrite Ho.
      * destruct (store_entry _ S p _ Hlive) as [? ? (f & m & s & Hf & Hlf & I)]. split; [done..|].
        exists f, m, s. rewrite Ho. split_and!; [done..|]. by apply refreshed_intact.
    + intros p1 p2 r1 r2 H1 H2 Heq. destruct (Hlv p1 r1 H1) as [L1|[-> ->]], (Hlv p2 r2 H2) as [L2|[-> ->]]; [| | |done].
      * by apply (store_unique _ S p1 p2 r1 r2).
      * by apply (store_unique _ S p1 p r1 (h_record hit)).
      * by apply (store_unique _ S p p2 (h_record hit) r2).
  - intros _ w1 S1. apply wp_bind, wp_bind, wp_fmap_tick. intros k2. apply wp_ret. case_match.
    + apply wp_store_then; [done|apply wp_store_if_current; [done|]; intros; done|]. intros _ w2 S2.
      apply wp_store_then; [done|by apply wp_store_refresh|]. intros. by apply wp_ret.
    + by apply wp_bind, wp_on_proc, wp_bind, wp_on_proc, wp_ret.
Qed.

Lemma wp_same_push c i b w : wp (push_batch E c i b) (λ _, same_refs w) w.
Proof.
  unfold push_batch. case_match; [by apply wp_ret|].
  destruct (writers c !! i) as [[bs|]|], (temp_dir c) as [t|]; try by apply wp_ret.
  apply wp_bind, wp_try. eapply wp_mono; [apply wp_put_temp_file|]. intros [[]|e] w1 [H1 _]; [|by apply wp_ret].
  cbv zeta. apply wp_bind. eapply wp_mono; [apply wp_written_lengths|]. intros [ls|e] w2 ->; [|done].
  case_match; [|by apply wp_ret]. apply wp_bind. case_match; [apply wp_ret|apply wp_on_proc]; by apply wp_ret.
Qed.

Lemma wp_same_secret w : wp (load_or_create_secret E) (λ _, same_refs w) w.
Proof.
  unfold load_or_create_secret. apply wp_bind, wp_read_ok; [done|]. apply wp_bind, wp_get_disk, wp_bind.
  eapply wp_mono.
  { apply (wp_for_each (remove_root_file E) (λ w', same_refs w w')); [done|]. intros x w1 _ H1. unfold remove_root_file.
    apply wp_bind, wp_write_io; [done|]. apply wp_bind, wp_on_disk. by apply wp_write_io. }
  intros [[]|e] w1 H1; [|done]. apply wp_bind, wp_read_ok; [done|]. apply wp_bind, wp_get_disk.
  destruct (root_files _ !! SECRET_FILE) as [b|].
  { apply wp_bind, wp_write_io; [done|]. case_match; [by apply wp_ret|by apply wp_throw]. }
  unfold create_secret. apply wp_bind, wp_random; [done|]. intros sec. apply wp_bind, wp_random; [done|]. intros rnd.
  cbv zeta. apply wp_bind, wp_get_disk. case_match; [by apply wp_throw|]. apply wp_bind, wp_tick. intros n.
  destruct (write_fails E n); [by apply wp_bind, wp_on_disk, wp_throw|]. apply wp_bind, wp_on_disk, wp_bind, wp_try, wp_write_io.
  - apply wp_bind, wp_ignore. unfold remove_root_file. apply wp_bind, wp_write_io; [by apply wp_throw|].
    apply wp_bind, wp_on_disk, wp_write_io; by apply wp_throw.
  - apply wp_bind, wp_on_disk, wp_bind, wp_write_io; [done|]. apply wp_bind, wp_write_io; [done|]. by apply wp_ret.
Qed.

(** What the theorem asks of a request: a commit is of a capture in progress,
    whose files' total length a [u64] can hold. *)
Definition request_ok (q : request) (w : World) : Prop :=
  match q with
  | QCommit key c x f cc => ∃ bss t, capture_ok c bss t w ∧ file_bytes c bss < 2 ^ 64
  | _ => True
  end.

Lemma wp_store_serve q w :
  store_ok (disk w) → request_ok q w → wp (serve E self q) (λ _ w', store_ok (disk w')) w.
Proof.
  intros S Hq. destruct q; cbn [serve]; try (apply wp_store_then; [done| |intros; by apply wp_ret]).
  - unfold open_cache. case_bool_decide; [by apply wp_throw|]. apply wp_bind, wp_write_io; [done|].
    apply wp_bind, wp_write_io; [done|]. apply wp_store_then; [done|apply wp_store_same; [done|apply wp_same_secret]|].
    intros sec w1 S1. apply wp_bind, wp_write_io; [done|]. cbv zeta. apply wp_store_then; [done| |intros; by apply wp_ret].
    unfold reconcile_on_open. apply wp_store_then; [done|by apply wp_store_lock|]. intros ? w2 S2. by apply wp_store_clean.
  - apply wp_store_same; [done|]. eapply wp_mono; [apply wp_begin_capture|]. by intros r w' [? _].
  - apply wp_store_same; [done|apply wp_same_push].
  - unfold abort. apply wp_store_then; [done|apply wp_store_same; [done|apply wp_remove_temp]|].
    intros [r c'] w1 S1. apply wp_store_then; [done|apply wp_store_same; [done|apply wp_drop_capture]|]. intros ? w2 S2. by apply wp_lift.
  - destruct Hq as (bss & t & C & Hb). destruct (cap_files _ _ _ _ C) as (fs & Hf & Hl).
    eapply wp_mono; [by eapply wp_commit_with_deadline|]. by intros r w' (w1 & _ & S' & _).
  - unfold remove_key. cbv zeta. apply wp_store_then; [done|by apply wp_store_lock|]. clear dependent w. intros ? w S.
    apply wp_bind, wp_try. eapply wp_mono; [by apply wp_read_ref|]. intros cur w' [-> ->].
    destruct (ref_files _ !! _) as [b|] eqn:Hb; [|by apply wp_ret].
    destruct (parse_ref b) as [r|e] eqn:Hp; [|by destruct e as [[]| | | |]; apply wp_ret || apply wp_throw].
    apply wp_store_then; [done|eapply wp_mono; [apply wp_remove_record, owner_live; [done|]|]|].
    + split; [apply entry_listed|by exists b].
    + intros res w1 (S1 & _). exact (shrinks_store _ _ S1 S).
    + intros ? w1 S1. apply wp_store_then; [done|by apply wp_store_refresh|]. intros. by apply wp_ret.
  - by apply wp_store_revalidate.
  - unfold remove_hit. apply wp_store_then; [done|by apply wp_store_lock|]. intros ? w1 S1.
    apply wp_store_then; [done|apply wp_store_if_current; [done|]; intros b; apply parse_listed|]. intros ? w2 S2.
    apply wp_store_then; [done|by apply wp_store_refresh|]. intros. by apply wp_ret.
  - unfold flush_scope, flush_where. apply wp_store_then; [done|by apply wp_store_lock|]. intros ? w1 S1.
    apply wp_store_then; [done|by apply wp_store_where|]. intros ? w2 S2.
    apply wp_store_then; [done|by apply wp_store_refresh|]. intros. by apply wp_ret.
  - unfold flush_catalog, flush_where. apply wp_store_then; [done|by apply wp_store_lock|]. intros ? w1 S1.
    apply wp_store_then; [done|by apply wp_store_where|]. intros ? w2 S2.
    apply wp_store_then; [done|by apply wp_store_refresh|]. intros. by apply wp_ret.
  - unfold flush_all. apply wp_store_then; [done|by apply wp_store_lock|]. intros ? w1 S1.
    apply wp_store_then; [done|by apply wp_store_where|]. intros ? w2 S2.
    apply wp_store_then; [done|apply wp_store_shrinks; [done|apply wp_remove_invalid_refs]|]. intros ? w3 S3.
    apply wp_store_then; [done|by apply wp_store_refresh|]. intros. by apply wp_ret.
  - unfold reap. apply wp_store_then; [done|by apply wp_store_lock|]. intros ? w1 S1.
    apply wp_bind. eapply wp_mono; [by apply wp_current_size|]. intros r w2 [-> ->].
    apply wp_store_then; [done|by apply wp_store_clean|]. intros ? w2 S2.
    apply wp_bind. eapply wp_mono; [by apply wp_current_size|]. intros r w3 [-> ->]. by apply wp_ret.
  - unfold stats_snapshot. apply wp_store_then; [done|by apply wp_store_lock|]. intros ? w1 S1.
    apply wp_store_then; [done|by apply wp_store_refresh|]. intros ? w2 S2. by apply wp_bind, wp_get_proc, wp_ret.
  - unfold entries. apply wp_store_then; [done|by apply wp_store_lock|]. intros ? w1 S1. apply wp_bind, wp_fmap_tick. intros k.
    apply wp_bind. eapply wp_mono; [by apply wp_refs|]. intros r w2 [-> ->]. by apply wp_ret.
Qed.
End consistency.

(** An operation on the root: a request, or one of the two sections of a lookup. *)
Inductive operation :=
| OpRequest (q : request)
| OpObserve (key : CacheKey) (stale : bool)
| OpFinish (key : CacheKey) (expected : option Schema) (stale : bool) (record : RefRecord)
| OpDrop (o : ObjPath).

Definition operate (E : Env) (self : Inner) (op : operation) : M unit :=
  match op with
  | OpRequest q => serve E self q
  | OpObserve key stale => _ ← observe E self key stale; mret tt
  | OpFinish key expected stale record => _ ← finish_lookup E self key expected stale record; mret tt
  | OpDrop o => drop_lease o
  end.

Definition operation_ok (op : operation) (w : World) : Prop :=
  match op with OpRequest q => request_ok q w | _ => True end.

(** C18: Provided no call that reads the file system fails ([reads_ok]), no
    operation of the cache, cut short by failing writes wherever one happens to
    fail, leaves a torn entry: when every ref on disk lies at its digests, names an
    object no other ref names, and that object is complete and hashes to what the
    ref says, then so it is afterwards.  A failure of every write from some point on
    leaves the disk as a crash at that point does, so a crash leaves a consistent
    store too. Without the condition this fails, as
    [read_error_removes_referenced_object] shows. *)
Theorem disk_store_consistent E self op w n r w' n' :
  reads_ok E → store_ok (disk w) → operation_ok op w →
  operate E self op w n = (r, w', n') → store_ok (disk w').
Proof.
  intros Hro S Hok Hrun. revert Hrun. apply (wp_use _ (λ _ w', store_ok (disk w'))). clear n r w' n'.
  destruct op as [q|key stale|key expected stale record|o]; cbn [operate].
  - by apply wp_store_serve.
  - apply wp_store_then; [done|by apply wp_store_observe|]. intros. by apply wp_ret.
  - apply wp_store_then; [done|by apply wp_store_finish|]. intros. by apply wp_ret.
  - unfold drop_lease. apply wp_bind, wp_on_disk, wp_on_proc. by apply store_locks.
Qed.
End roundtrip.

(** * Examples *)

Lemma store_ok_empty {IPC : DiskIpc} {HSH : DiskHash} {JSN : DiskJson} : store_ok empty_disk.
Proof.
  split; [intros p r (_ & b & Hb & _)|intros p1 p2 r1 r2 (_ & b & Hb & _)]; by destruct (lookup_empty_Some _ _ Hb).
Qed.

(** A clock that stands still, for lookups before the deadline. *)
Definition still : Env :=
  mkEnv (λ _, 1000 * NANOS) (λ _, 0) (λ n k, le_bytes k (Z.of_nat n)) (λ _, false) (λ _, false) (λ _, O).

Definition ex_items : list (nat * (nat * nat)) := [(0, (5, 10)); (1, (5, 3)); (0, (5, 4))]%nat.
Definition ex_world : World := mkWorld empty_disk new_proc.
Definition ex_capture : io DiskCapture * World * nat := capture_all quiet toy_cache 5%nat 2 ex_items ex_world 0%nat.
Definition ex_captured (t : io DiskCapture * World * nat) (dflt : DiskCapture) : DiskCapture :=
  match t.1.1 with Ok c => c | Err _ => dflt end.
Definition ex_none : DiskCapture := mkDiskCapture "" None false (5%nat : Schema) "" [] [] 0 CodecNone 0 false.
Definition ex_c : DiskCapture := ex_captured ex_capture ex_none.
Definition ex_commit : io DiskCacheCommit * World * nat :=
  commit_with_deadline quiet toy_cache (3600 * NANOS) None (Some toy_control) (toy_key "f") ex_c ex_capture.1.2 ex_capture.2.
Definition ex_lookup : io (option DiskCacheHit) * World * nat :=
  lookup_expected_schema still toy_cache (toy_key "f") (5%nat : Schema) ex_commit.1.2 0%nat.

Lemma captured_eq (t : io DiskCapture * World * nat) dflt :
  is_ok t.1.1 = true → t = (Ok (ex_captured t dflt), t.1.2, t.2).
Proof. by destruct t as [[[c|e] w] n]. Qed.
Lemma answer_eq {A} (t : io A * World * nat) r : t.1.1 = r → t = (r, t.1.2, t.2).
Proof. intros <-. by destruct t as [[? ?] ?]. Qed.

Lemma ex_capture_eq : ex_capture = (Ok ex_c, ex_capture.1.2, ex_capture.2).
Proof. apply captured_eq. vm_compute. reflexivity. Qed.
Lemma ex_commit_eq : ex_commit = (Ok (Stored 31 17 2), ex_commit.1.2, ex_commit.2).
Proof. apply answer_eq. vm_compute. reflexivity. Qed.

Lemma disk_cache_roundtrip_witness :
  ∃ hit, ex_lookup.1.1 = Ok (Some hit) ∧
    (open_partition still hit 0%nat ex_lookup.1.2 7%nat).1.1 = Ok [Some (5, 10)%nat; Some (5, 4)%nat].
Proof.
  destruct (disk_cache_roundtrip (IPC := toy_ipc) quiet still toy_cache 5%nat 2 ex_items (toy_key "f") (3600 * NANOS) None (Some toy_control)
    ex_world 0%nat ex_c ex_capture.1.2 ex_capture.2 31 17 2 ex_commit.1.2 ex_commit.2 0%nat ex_lookup.1.1 ex_lookup.1.2 ex_lookup.2)
    as (hit & Hhit & _ & _ & _ & _ & Hparts).
  - by intros n.
  - apply store_ok_empty.
  - exact ex_capture_eq.
  - vm_compute. reflexivity.
  - exact ex_commit_eq.
  - by intros n.
  - by intros n.
  - intros j. vm_compute. reflexivity.
  - unfold ex_lookup. exact (answer_eq _ _ eq_refl).
  - exists hit. split; [exact Hhit|]. apply (Hparts 0%nat [(5, 10); (5, 4)]%nat). vm_compute. reflexivity.
Defined.

Lemma disk_commit_bounded_witness :
  (usage (live_refs (disk ex_commit.1.2))).1 ≤ 3 ∧ (usage (live_refs (disk ex_commit.1.2))).2 ≤ 1000.
Proof.
  apply (disk_commit_bounded (IPC := toy_ipc) quiet toy_cache 5%nat 2 ex_items (toy_key "f") (3600 * NANOS) None (Some toy_control)
    ex_world 0%nat ex_c ex_capture.1.2 ex_capture.2 31 17 2 ex_commit.1.2 ex_commit.2).
  - by intros n.
  - apply store_ok_empty.
  - exact ex_capture_eq.
  - split; vm_compute; reflexivity.
  - vm_compute. reflexivity.
  - vm_compute. discriminate.
  - exact ex_commit_eq.
Defined.

(** A commit in which every call that changes something fails once the object is in place
    and its ref is being written. *)
Definition crashing : Env :=
  mkEnv (wall quiet) (mono quiet) (entropy quiet) (λ _, false) (λ n, (58 <? n)%nat) (λ _, 1%nat).
Definition ex_request : operation :=
  OpRequest (QCommit (toy_key "f") ex_c (3600 * NANOS) None (Some toy_control)).
Definition ex_crashed : io unit * World * nat := operate crashing toy_cache ex_request ex_capture.1.2 ex_capture.2.

Lemma disk_store_consistent_witness : store_ok (disk ex_crashed.1.2).
Proof.
  apply (disk_store_consistent crashing toy_cache ex_request ex_capture.1.2 ex_capture.2 ex_crashed.1.1 ex_crashed.1.2 ex_crashed.2).
  - by intros n.
  - destruct (wp_use _ _ _ _ _ _ _ (wp_capture_all (IPC := toy_ipc) quiet toy_cache 5%nat 2 ex_items ex_world) ex_capture_eq) as [H _].
    exact (same_refs_store _ _ H store_ok_empty).
  - destruct (wp_use _ _ _ _ _ _ _ (wp_capture_all (IPC := toy_ipc) quiet toy_cache 5%nat 2 ex_items ex_world) ex_capture_eq) as [_ H].
    destruct (H ex_c eq_refl) as (_ & t & C). exists (pushed (IPC := toy_ipc) 2 ex_items), t. split; [exact C|]. vm_compute. reflexivity.
  - unfold ex_crashed. exact (answer_eq _ _ eq_refl).
Defined.

(** * Faults *)

(** One read that fails. *)
Definition bad_read (k : nat) : Env :=
  mkEnv (wall quiet) (mono quiet) (entropy quiet) (λ n, (n =? k)%nat) (λ _, false) (λ _, O).
Definition bad_reap : io Z * World * nat := reap (bad_read 11) toy_cache toy_world 0%nat.

(** A read of a ref that fails once while reaping makes its object look
    unreferenced: the object is removed, the ref stays, and the reap reports
    success. *)
Theorem read_error_removes_referenced_object :
  is_ok bad_reap.1.1 = true ∧ size (objects (disk toy_world)) = 1%nat ∧
  size (objects (disk bad_reap.1.2)) = 0%nat ∧ length (live_refs (disk bad_reap.1.2)) = 1%nat.
Proof. vm_compute. split_and!; reflexivity. Qed.

(** A shard whose [objects] directory is gone. *)
Definition no_objects : World := mkWorld (mkDisk ∅ (ref_files (disk toy_world)) ∅ ∅ ∅ ∅ ∅) new_proc.
Definition broken_lookup : io (option DiskCacheHit) * World * nat :=
  lookup_key quiet toy_cache (toy_key "f") no_objects 0%nat.

(** Looking up an entry whose shard has lost its [objects] directory is an error
    and not a clean miss: removing the object that is not there synchronizes the
    missing directory. *)
Theorem missing_objects_dir_is_error : broken_lookup.1.1 = Err (DIo NotFound).
Proof. vm_compute. reflexivity. Qed.

(** A commit whose ref is interrupted while it is written, then a reap. *)
Definition bad_write : Env :=
  mkEnv (wall quiet) (mono quiet) (entropy quiet) (λ _, false) (λ n, (n =? 59)%nat) (λ _, O).
Definition torn : io unit * World * nat := operate bad_write toy_cache ex_request ex_capture.1.2 ex_capture.2.
Definition torn_reaped : io Z * World * nat := reap quiet toy_cache torn.1.2 100%nat.

(** The file a ref is first written to stays after a failed write, and no
    reaping removes it. *)
Theorem torn_ref_file_stays :
  is_ok torn.1.1 = false ∧ is_ok torn_reaped.1.1 = true ∧ live_refs (disk torn_reaped.1.2) = [] ∧
  size (ref_files (disk torn_reaped.1.2)) = 1%nat.
Proof. vm_compute. split_and!; reflexivity. Qed.
