(* ===== verification/Threads.v ===== *)
(** Programs that call out, and threads of them over shared state.  A program is a
    tree: a result, or a call and what to do with its answer.  What the calls mean
    is a relation given separately, so the same program can run alone, among
    others, or against an environment that answers as it likes. *)
From S2P Require Import Prelude.

(** * Programs *)

Inductive prog (E : Type → Type) (R : Type) : Type :=
| Ret (r : R)
| Vis (A : Type) (e : E A) (k : A → prog E R).
Arguments Ret {E R} r.
Arguments Vis {E R A} e k.

Fixpoint bind {E R R'} (p : prog E R) (f : R → prog E R') : prog E R' :=
  match p with
  | Ret r => f r
  | Vis e k => Vis e (λ a, bind (k a) f)
  end.

(** A fallible program: [?] stops it at the first error. *)
Definition Call (E : Type → Type) (X A : Type) : Type := prog E (result A X).
#[export] Instance call_ret {E X} : MRet (Call E X) := λ A a, Ret (Ok a).
#[export] Instance call_bind {E X} : MBind (Call E X) := λ A B k m,
  bind m (λ r, match r with Ok a => k a | Err e => Ret (Err e) end).

(** A call that cannot fail, one that can, a pure result, an error, and [match] on
    the result of a fallible program. *)
Definition do_ {E : Type → Type} {X A} (e : E A) : Call E X A := Vis e (λ a, Ret (Ok a)).
Definition ask {E : Type → Type} {X A} (e : E (result A X)) : Call E X A := Vis e Ret.
Definition lift {E X A} (r : result A X) : Call E X A := Ret r.
Definition throw {E X A} (e : X) : Call E X A := Ret (Err e).
Definition try_ {E X A} (m : Call E X A) : Call E X (result A X) := bind m (λ r, Ret (Ok r)).

(** * Threads *)

Section threads.
Context {E : Type → Type} {S L : Type}.
(** What a call does: the shared state and what the thread has of its own before,
    the answer, and both after. *)
Variable handle : ∀ A, E A → S → L → A → S → L → Prop.
Arguments handle {A}.

Definition thread_step {R} (p : prog E R) (l : L) (s : S) (p' : prog E R) (l' : L) (s' : S) : Prop :=
  match p with
  | Ret _ => False
  | Vis e k => ∃ a, handle e s l a s' l' ∧ p' = k a
  end.

Record pool (R : Type) := mkPool { shared : S; threads : list (prog E R * L) }.
Arguments mkPool {R}.
Arguments shared {R}.
Arguments threads {R}.

(** A thread takes a step, or a new one starts. *)
Inductive pool_step {R} (start : prog E R * L → Prop) : pool R → pool R → Prop :=
| step_thread s ts i p l p' l' s' :
    ts !! i = Some (p, l) → thread_step p l s p' l' s' →
    pool_step start (mkPool s ts) (mkPool s' (<[i := (p', l')]> ts))
| step_spawn s ts t : start t → pool_step start (mkPool s ts) (mkPool s (ts ++ [t])).

(** ** Safety of one thread among others *)

(** What the caller owes at a call, and what the shared state always satisfies. *)
Variable pre : ∀ A, E A → L → Prop.
Arguments pre {A}.
Variable I : S → Prop.

(** Whatever the others did since its last call, [p] makes its next one when it
    may, keeps [I], and ends with [Q]. *)
Fixpoint safe {R} (p : prog E R) (Q : L → R → Prop) (l : L) : Prop :=
  match p with
  | Ret r => Q l r
  | Vis e k => pre e l ∧ ∀ s a s' l', I s → handle e s l a s' l' → I s' ∧ safe (k a) Q l'
  end.

Lemma mono_safe {R} (p : prog E R) (Q Q' : L → R → Prop) l :
  safe p Q l → (∀ l r, Q l r → Q' l r) → safe p Q' l.
Proof.
  revert l. induction p as [r|A e k IH]; cbn; intros l Hp HQ; [by apply HQ|]. destruct Hp as [Hpre Hp].
  split; [done|]. intros s a s' l' Hs Hh. destruct (Hp _ _ _ _ Hs Hh) as [? ?]. split; [done|]. by apply IH.
Qed.

Lemma bind_safe {R R'} (p : prog E R) (f : R → prog E R') Q l :
  safe p (λ l r, safe (f r) Q l) l → safe (bind p f) Q l.
Proof.
  revert l. induction p as [r|A e k IH]; cbn; intros l Hp; [done|]. destruct Hp as [Hpre Hp].
  split; [done|]. intros s a s' l' Hs Hh. destruct (Hp _ _ _ _ Hs Hh) as [? ?]. split; [done|]. by apply IH.
Qed.

Lemma call_bind_safe {X A B} (m : Call E X A) (k : A → Call E X B) Q l :
  safe m (λ l r, match r with Ok a => safe (k a) Q l | Err e => Q l (Err e) end) l → safe (m ≫= k) Q l.
Proof. intros Hm. apply bind_safe. eapply mono_safe; [exact Hm|]. by intros l' [a|e]. Qed.

Lemma try_safe {X A} (m : Call E X A) Q l : safe m (λ l r, Q l (Ok r)) l → safe (try_ m) Q l.
Proof. intros Hm. apply bind_safe. exact Hm. Qed.

(** A step that may not change what the others rely on. *)
Lemma step_safe {R} (p : prog E R) Q l s p' l' s' :
  safe p Q l → I s → thread_step p l s p' l' s' → I s' ∧ safe p' Q l'.
Proof. destruct p as [r|A e k]; [done|]. cbn. intros [_ Hp] Hs (a & Hh & ->). by apply (Hp _ _ _ _ Hs Hh). Qed.

(** Every interleaving of safe threads keeps [I], and whoever ends, ends with its
    postcondition. *)
Definition all_safe {R} (Q : prog E R → L → R → Prop) (x : pool R) : Prop :=
  I (shared x) ∧ ∀ i p l, threads x !! i = Some (p, l) → ∃ q, safe p (Q q) l.

Lemma pool_safe {R} (start : prog E R * L → Prop) (Q : prog E R → L → R → Prop) (x y : pool R) :
  (∀ p l, start (p, l) → safe p (Q p) l) → rtc (pool_step start) x y → all_safe Q x → all_safe Q y.
Proof.
  intros Hst. induction 1 as [x|x y z Hxy _ IH]; intros [Hs Hp]; [done|]. apply IH. clear IH.
  destruct Hxy as [s ts i p l p' l' s' Hi Hstep|s ts [p l] Ht]; cbn in *.
  - destruct (Hp _ _ _ Hi) as [q Hq]. destruct (step_safe p (Q q) l s p' l' s' Hq Hs Hstep) as [Hs' Hp'].
    split; [done|]. intros j p2 l2 Hj. cbn in Hj. destruct (decide (i = j)) as [->|Hne].
    + rewrite list_lookup_insert_eq in Hj by (by eapply lookup_lt_Some). simplify_eq. by exists q.
    + rewrite list_lookup_insert_ne in Hj by done. by eapply Hp.
  - split; [done|]. intros j p2 l2. cbn. intros [Hj|[_ Hj]]%lookup_app_Some; [by eapply Hp|].
    apply list_lookup_singleton_Some in Hj as [_ [= <- <-]]. exists p. by apply Hst.
Qed.

(** ** Invariants over all the threads *)

(** A property of the shared state together with what every thread has of its own,
    kept by calls that are made when they may be. *)
Lemma pool_invariant {R} (start : prog E R * L → Prop) (Q : prog E R → L → R → Prop) (J : S → list L → Prop) (x y : pool R) :
  (∀ p l, start (p, l) → safe p (Q p) l) →
  (∀ A (e : E A) s ls i l a s' l', ls !! i = Some l → pre e l → handle e s l a s' l' → J s ls → J s' (<[i := l']> ls)) →
  (∀ p l s ls, start (p, l) → J s ls → J s (ls ++ [l])) →
  rtc (pool_step start) x y → all_safe Q x → J (shared x) (threads x).*2 → J (shared y) (threads y).*2.
Proof.
  intros Hst Hstep Hspawn. induction 1 as [x|x y z Hxy Hyz IH]; intros Hx HJ; [done|].
  apply IH; [by eapply pool_safe; [|by apply rtc_once|]|].
  destruct Hx as [Hs Hp], Hxy as [s ts i p l p' l' s' Hi Ht|s ts [p l] Ht]; cbn in *.
  - destruct (Hp _ _ _ Hi) as [q Hq]. destruct p as [r|A e k]; [done|]. destruct Ht as (a & Hh & ->), Hq as [Hpre _].
    rewrite list_fmap_insert. eapply Hstep; [|done..]. by rewrite list_lookup_fmap, Hi.
  - rewrite fmap_app. by eapply Hspawn.
Qed.
End threads.
Arguments mkPool {E S L R}.
Arguments shared {E S L R}.
Arguments threads {E S L R}.

(** * Running *)

(** A deterministic way to answer calls runs a thread, and a schedule of steps a
    pool. *)
Section running.
Context {E : Type → Type} {S L : Type}.
Variable handle : ∀ A, E A → S → L → A → S → L → Prop.
Variable reply : ∀ A, E A → S → L → option (A * S * L).
Arguments reply {A}.
Hypothesis reply_handle : ∀ A (e : E A) s l a s' l', reply e s l = Some (a, s', l') → handle A e s l a s' l'.

(** To the end, and for some steps. *)
Fixpoint exec {R} (q : prog E R) (s : S) (l : L) : option (R * S * L) :=
  match q with
  | Ret r => Some (r, s, l)
  | Vis e k => match reply e s l with Some (a, s', l') => exec (k a) s' l' | None => None end
  end.
Fixpoint exec_n {R} (n : nat) (q : prog E R) (s : S) (l : L) : option (prog E R * S * L) :=
  match n, q with
  | O, _ => Some (q, s, l)
  | Datatypes.S n, Vis e k => match reply e s l with Some (a, s', l') => exec_n n (k a) s' l' | None => None end
  | Datatypes.S _, Ret _ => None
  end.

Lemma exec_step {R} (start : prog E R * L → Prop) A (e : E A) (k : A → prog E R) s l a s' l' ts ts' :
  reply e s l = Some (a, s', l') →
  pool_step handle start (mkPool s (ts ++ (Vis e k, l) :: ts')) (mkPool s' (ts ++ (k a, l') :: ts')).
Proof.
  intros Hr. replace (ts ++ (k a, l') :: ts') with (<[length ts := (k a, l')]> (ts ++ (Vis e k, l) :: ts')).
  - eapply (step_thread handle start); [by apply list_lookup_middle|]. exists a. split; [by apply reply_handle|done].
  - rewrite insert_app_r_alt by lia. by rewrite Nat.sub_diag.
Qed.

Lemma exec_steps {R} (start : prog E R * L → Prop) (q : prog E R) s l r s' l' ts ts' : exec q s l = Some (r, s', l') →
  rtc (pool_step handle start) (mkPool s (ts ++ (q, l) :: ts')) (mkPool s' (ts ++ (Ret r, l') :: ts')).
Proof.
  revert s l. induction q as [r0|A e k IH]; cbn [exec]; intros s l Hx; [by simplify_eq|].
  destruct (reply e s l) as [[[a s1] l1]|] eqn:Er; [|done]. eapply rtc_l; [by apply exec_step|by apply IH].
Qed.

Lemma exec_n_steps {R} (start : prog E R * L → Prop) n (q : prog E R) s l q' s' l' ts ts' :
  exec_n n q s l = Some (q', s', l') →
  rtc (pool_step handle start) (mkPool s (ts ++ (q, l) :: ts')) (mkPool s' (ts ++ (q', l') :: ts')).
Proof.
  revert q s l. induction n as [|n IH]; intros q s l; cbn [exec_n]; [by intros [= <- <- <-]|].
  destruct q as [r|A e k]; [done|]. destruct (reply e s l) as [[[a s1] l1]|] eqn:Er; [|done]. intros Hx.
  eapply rtc_l; [by apply exec_step|by apply IH].
Qed.
End running.
