(* ===== verification/Publication.v ===== *)
(** Publication of catalog snapshots, [vgi/src/catalog_snapshot.rs]: manifests and
    what makes one usable, the checks of a published object, the manager that
    discovers, renews, builds and commits publications behind a gate per key, and
    the policy around it.

    The programs call out: to the catalog author's hooks and the catalog build, the
    clock, the publication repository and its storage, the fetcher, and the
    process's own cache of validated manifests and its gates.  Each critical
    section of a mutex is one call. *)
From S2P Require Import Prelude Codec Float64 SqlCompare Arrow Ipc Wire CatalogContents CatalogCollections Threads.

Open Scope Z_scope.

Definition CODEC : string := "catalog-collections-1".
Definition WIRE : string := "3.0".
Definition VGI_PROTOCOL_NAME : string := "vgi.v3".
Definition contract_hash : string := "1d12ce672b43ca1510721f89637bb374d27693b100d357ac2ead99fcddc27e9f".

(** * Data *)

Record SnapshotIdentity := mkIdentity {
  catalog_namespace : string;
  source_revision : string;
  visibility_scope : option string;
  id_version : Z;
}.
#[export] Instance SnapshotIdentity_eq_dec : EqDecision SnapshotIdentity.
Proof. solve_decision. Defined.

Record SnapshotRequest := mkRequest {
  attachment_scope : bytes;
  attach_opaque_data : bytes;
  req_version : Z;
}.

Record PublicationLocation := mkLocation {
  loc_object_id : option string;
  loc_expires_at : option f64;
  loc_retain_until : option f64;
  loc_stable : bool;
}.

Record Manifest := mkManifest {
  mf_cache_key : string;
  mf_manifest_id : string;
  mf_protocol_name : string;
  mf_wire_revision : string;
  mf_contract_hash : string;
  mf_codec_revision : string;
  mf_catalog_version : Z;
  mf_etag : option string;
  mf_sha256 : string;
  mf_raw_size : Z;
  mf_stored_size : Z;
  mf_url : string;
  mf_object_id : option string;
  mf_expires_at : option f64;
  mf_retain_until : option f64;
  mf_stable : bool;
  mf_format_version : Z;
  mf_validator_revision : Z;
}.

(** What a renewal may change. *)
Definition with_url (m : Manifest) (url : string) (expires_at : option f64) : Manifest :=
  mkManifest (mf_cache_key m) (mf_manifest_id m) (mf_protocol_name m) (mf_wire_revision m) (mf_contract_hash m)
    (mf_codec_revision m) (mf_catalog_version m) (mf_etag m) (mf_sha256 m) (mf_raw_size m) (mf_stored_size m) url
    (mf_object_id m) expires_at (mf_retain_until m) (mf_stable m) (mf_format_version m) (mf_validator_revision m).

Inductive Compression := NoCompression | Zstd (level : Z).
#[export] Instance Compression_eq_dec : EqDecision Compression.
Proof. solve_decision. Defined.
(** The derived [Debug]. *)
Definition compression_debug (c : Compression) : string :=
  match c with NoCompression => "None" | Zstd l => "Zstd(" +:+ Z_to_string l +:+ ")" end.

Record FetchedPayload := mkPayload { pl_bytes : bytes; pl_compression : Compression }.
Record ExternalRef := mkExternalRef { er_url : string; er_sha256 : option string }.

(** * Numbers *)

Definition is_finite (x : f64) : bool :=
  match x with S754_finite _ _ _ | S754_zero _ => true | _ => false end.
Definition f64_sub (x y : f64) : f64 := SFsub 53 1024 x y.
(** [x as u64]. *)
Definition f64_to_u64 (x : f64) : Z :=
  match x with
  | S754_finite false m e => Z.min u64_max (Z.shiftl (Zpos m) e)
  | S754_infinity false => u64_max
  | _ => 0
  end.
(** [==] of floats, and of [serde_json] numbers: a float JSON cannot hold is
    null. *)
Definition f64_eq (x y : f64) : bool := match SFcompare x y with Some Eq => true | _ => false end.
Definition json_float (x : option f64) : option f64 :=
  match x with Some f => if is_finite f then Some f else None | None => None end.
Definition json_float_eq (x y : option f64) : bool :=
  match json_float x, json_float y with
  | Some a, Some b => f64_eq a b
  | None, None => true
  | _, _ => false
  end.

(** [serde_json::to_value] of two manifests, compared. *)
Definition same_manifest (a b : Manifest) : bool :=
  bool_decide (mf_cache_key a = mf_cache_key b) && bool_decide (mf_manifest_id a = mf_manifest_id b)
  && bool_decide (mf_protocol_name a = mf_protocol_name b) && bool_decide (mf_wire_revision a = mf_wire_revision b)
  && bool_decide (mf_contract_hash a = mf_contract_hash b) && bool_decide (mf_codec_revision a = mf_codec_revision b)
  && bool_decide (mf_catalog_version a = mf_catalog_version b) && bool_decide (mf_etag a = mf_etag b)
  && bool_decide (mf_sha256 a = mf_sha256 b) && bool_decide (mf_raw_size a = mf_raw_size b)
  && bool_decide (mf_stored_size a = mf_stored_size b) && bool_decide (mf_url a = mf_url b)
  && bool_decide (mf_object_id a = mf_object_id b) && json_float_eq (mf_expires_at a) (mf_expires_at b)
  && json_float_eq (mf_retain_until a) (mf_retain_until b) && bool_decide (mf_stable a = mf_stable b)
  && bool_decide (mf_format_version a = mf_format_version b)
  && bool_decide (mf_validator_revision a = mf_validator_revision b).

Definition validate_renewal (old new : Manifest) : result unit RpcError :=
  if bool_decide (mf_manifest_id old = mf_manifest_id new)
     && negb (same_manifest old (with_url new (mf_url old) (mf_expires_at old)))
  then value_error "catalog URL renewal changed immutable publication metadata"
  else Ok ().

(** * Keys and lifetimes *)

(** What the cache key hashes. *)
Record KeyParts := mkKeyParts {
  kp_protocol : string; kp_wire : string; kp_contract : string; kp_codec : string;
  kp_namespace : string; kp_revision : string; kp_scope : string; kp_version : Z;
  kp_profile : string; kp_compression : string;
}.

(** SHA-256 in hex, and [serde_json] of the parts of a key. *)
Class SnapshotHash := { hex : bytes → string; key_json : KeyParts → bytes }.
(** No collisions; JSON reads back. *)
Class SnapshotHashLaws `{SnapshotHash} : Prop := {
  hex_inj : Inj (=) (=) hex;
  key_json_inj : Inj (=) (=) key_json;
}.

(** The options of a policy; [profile] is its repository's. *)
Record Policy := mkPolicy {
  profile : string;
  ordinary_on_failure : bool;
  has_validator : bool;
  max_raw_bytes : Z;
  max_stored_bytes : Z;
  expiry_margin_seconds : f64;
  max_cached_manifests : nat;
  ext_compression : Compression;
  ext_max_encoded_bytes : Z;
  ext_max_decompressed_bytes : Z;
}.

Definition usable (now : f64) (m : Manifest) (margin : f64) : bool :=
  let deadline := f64_add now margin in
  let lives t := match t with Some v => is_finite v && f64_lt deadline v | None => true end in
  (mf_stable m || is_some (mf_expires_at m)) && lives (mf_expires_at m) && lives (mf_retain_until m).

Section keys.
Context `{SnapshotHash} (p : Policy).

Definition key_parts (req : SnapshotRequest) (id : SnapshotIdentity) : KeyParts :=
  mkKeyParts VGI_PROTOCOL_NAME WIRE contract_hash CODEC (catalog_namespace id) (source_revision id)
    (default (hex (attachment_scope req)) (visibility_scope id)) (id_version id) (profile p)
    (compression_debug (ext_compression p)).

Definition cache_key (req : SnapshotRequest) (id : SnapshotIdentity) : result string RpcError :=
  if bool_decide (catalog_namespace id = "") || bool_decide (source_revision id = "")
     || negb (id_version id =? req_version req)
  then value_error "publication needs a nonempty namespace, revision and matching catalog version"
  else Ok (hex (key_json (key_parts req id))).
End keys.

(** * Published objects *)

(** What [vgi_rpc] does with external results: making a reference and the pointer
    batch of one, the payload [publish_external] uploads for a batch with its
    digest, and the batch [resolve_external_location] makes of the payload it
    fetched; and the first bytes a zstd stream decodes to. *)
Class External := {
  external_ref_new : string → option string → result ExternalRef RpcError;
  pointer_batch : ExternalRef → result unit RpcError;
  publish_payload : RecordBatch → Compression → result (bytes * string) RpcError;
  resolve_payload : ExternalRef → Z → FetchedPayload → result RecordBatch RpcError;
  zstd_take : bytes → Z → result bytes string;
}.
(** A reference is the address and digest it was made of; what resolves under a
    digest has that digest, so two payloads that resolve hold the same batch. *)
Class ExternalLaws `{External} : Prop := {
  external_ref_made url d r : external_ref_new url d = Ok r → r = mkExternalRef url d;
  resolve_digest r r' n n' pl pl' b b' d : resolve_payload r n pl = Ok b → resolve_payload r' n' pl' = Ok b' →
    er_sha256 r = Some d → er_sha256 r' = Some d → b = b';
}.

(** The row types of the six streams. *)
Class CatalogTypes := {
  SchemaInfo : Type; TableInfo : Type; ViewInfo : Type; FunctionInfo : Type; MacroInfo : Type; IndexInfo : Type;
  si_arrow :: VgiArrow SchemaInfo; ti_arrow :: VgiArrow TableInfo; vi_arrow :: VgiArrow ViewInfo;
  fi_arrow :: VgiArrow FunctionInfo; mi_arrow :: VgiArrow MacroInfo; ii_arrow :: VgiArrow IndexInfo;
  si_records :: VgiRecords SchemaInfo; ti_records :: VgiRecords TableInfo; vi_records :: VgiRecords ViewInfo;
  fi_records :: VgiRecords FunctionInfo; mi_records :: VgiRecords MacroInfo; ii_records :: VgiRecords IndexInfo;
  si_row :: CatalogRow SchemaInfo; ti_row :: CatalogRow TableInfo; vi_row :: CatalogRow ViewInfo;
  fi_row :: CatalogRow FunctionInfo; mi_row :: CatalogRow MacroInfo; ii_row :: CatalogRow IndexInfo;
  fi_kind :: KindedRow FunctionInfo; mi_kind :: KindedRow MacroInfo;
  response_arrow :: VgiArrow CatalogContentsResponse;
  response_records :: VgiRecords CatalogContentsResponse;
}.

Section objects.
Context `{IpcStream} `{RecordStream} `{TypeEquality} `{SnapshotHash} `{External} `{CatalogTypes}.

Definition response_contents (r : CatalogContentsResponse) : result (list SchemaContents) RpcError :=
  schema_contents SchemaInfo TableInfo ViewInfo FunctionInfo MacroInfo IndexInfo r.

Definition reference (m : Manifest) : result ExternalRef RpcError := external_ref_new (mf_url m) (Some (mf_sha256 m)).

(** [read_next]: the next batch and the reader after it, or the end. *)
Definition read_next (r : Records) : result (option (RecordBatch * metadata * Records)) RpcError :=
  match rec_items r with
  | (b, md) :: items => Ok (Some (b, md, mkRecords items (rec_end r)))
  | [] => let? _ := rec_end r in Ok None
  end.
(** [reader.read_next()?.is_some()] after [b], then the position. *)
Definition one_more (r : Records) : result bool RpcError :=
  let? next := read_next r in Ok (is_some next).

Definition raw_bytes (limit : Z) (b : bytes) (c : Compression) : result bytes string :=
  match c with
  | NoCompression => Ok b
  | Zstd _ => zstd_take b (Z.min usize_max (limit + 1))
  end.

(** [ValidationFetcher::fetch_with_policy], on what the base fetcher answered. *)
Definition validate_payload (raw_size raw_limit max : Z) (pl : FetchedPayload) : result unit RpcError :=
  if max <? Z.of_nat (length (pl_bytes pl)) then value_error "catalog encoded size limit exceeded"
  else
    let? raw := map_err ValueError (raw_bytes raw_limit (pl_bytes pl) (pl_compression pl)) in
    let size := Z.of_nat (length raw) in
    if negb (size =? raw_size) || (raw_limit <? size)
    then value_error "catalog raw size mismatch or limit exceeded"
    else
      let? reader := open_records false raw in
      let? first := read_next reader in
      match first with
      | None => value_error "missing catalog envelope"
      | Some (batch, md, reader) =>
          let? bad := if has_pointer md || negb (num_rows batch =? 1)%nat then Ok true else one_more reader in
          if bad : bool then value_error "catalog publication must contain one ordinary result batch"
          else
            let? position := rec_end reader in
            if (position =? length raw)%nat then Ok () else value_error "trailing catalog publication bytes"
      end.

(** The response inside a result envelope. *)
Definition decode_envelope (batch : RecordBatch) : result CatalogContentsResponse RpcError :=
  if negb (num_rows batch =? 1)%nat
     || negb (bool_decide (schema batch = result_binary_schema) && bool_decide (schema_metadata batch = ∅))
  then value_error "published catalog has invalid RPC result envelope"
  else
    match columns batch with
    | column :: _ =>
        if is_null column 0 then value_error "published catalog result is null"
        else
          let bs := as_bytes (default "" (vals column !! 0%nat ≫= as_str)) in
          let? reader := open_records true bs in
          let? first := read_next reader in
          match first with
          | None => value_error "catalog response missing row"
          | Some (inner, _, reader) =>
              let? bad :=
                if negb (num_rows inner =? 1)%nat then Ok true
                else
                  let? more := one_more reader in
                  if more : bool then Ok true
                  else
                    let? s := read_schema bs in
                    Ok (negb (bool_decide (s = (flat_schema CatalogContentsResponse, ∅)))) in
              if bad : bool then value_error "catalog response requires exactly one typed row"
              else
                let? position := rec_end reader in
                if negb (position =? length bs)%nat then value_error "trailing catalog response bytes"
                else from_batch inner
          end
    | [] => value_error "published catalog has invalid RPC result envelope"
    end.

(** The end of [read]: the response agrees with its manifest and is complete. *)
Definition check_response (m : Manifest) (r : CatalogContentsResponse) : result unit RpcError :=
  if not_modified r || negb (catalog_version r =? mf_catalog_version m) || negb (bool_decide (etag r = mf_etag m))
  then value_error "catalog publication metadata mismatch"
  else let? _ := response_contents r in Ok ().

(** The beginning of [read]. *)
Definition manifest_header_ok (p : Policy) (key : string) (id : SnapshotIdentity) (m : Manifest) (now : f64) : bool :=
  bool_decide (mf_cache_key m = key) && (mf_catalog_version m =? id_version id)
  && bool_decide (mf_protocol_name m = VGI_PROTOCOL_NAME) && bool_decide (mf_wire_revision m = WIRE)
  && bool_decide (mf_contract_hash m = contract_hash) && bool_decide (mf_codec_revision m = CODEC)
  && (mf_format_version m =? 1) && (mf_validator_revision m =? 1)
  && (mf_raw_size m <=? max_raw_bytes p) && (mf_stored_size m <=? max_stored_bytes p)
  && negb (mf_raw_size m =? 0) && negb (mf_stored_size m =? 0)
  && (String.length (mf_sha256 m) =? 64)%nat && usable now m (expiry_margin_seconds p).

(** What [read] does with the payload of the object. *)
Definition resolve_object (p : Policy) (m : Manifest) (r : ExternalRef) (pl : FetchedPayload) :
    result CatalogContentsResponse RpcError :=
  let max := Z.min (ext_max_encoded_bytes p) (max_stored_bytes p) in
  let? _ := validate_payload (mf_raw_size m) (max_raw_bytes p) max pl in
  let? batch := resolve_payload r (Z.min (ext_max_decompressed_bytes p) (max_raw_bytes p)) pl in
  let? response := decode_envelope batch in
  let? _ := check_response m response in
  Ok response.

(** [BoundedStorage::upload] before the backend is called: the two sizes. *)
Definition bounded_sizes (p : Policy) (b : bytes) (c : Compression) : result (Z * Z) RpcError :=
  if max_stored_bytes p <? Z.of_nat (length b) then value_error "catalog publication exceeds stored size limit"
  else
    let? raw := map_err RuntimeError (raw_bytes (max_raw_bytes p) b c) in
    let raw_size := Z.of_nat (length raw) in
    if max_raw_bytes p <? raw_size then value_error "catalog publication exceeds raw size limit"
    else Ok (raw_size, Z.of_nat (length b)).
End objects.

(** * Calls *)

Inductive snap : Type → Type :=
(** The author's hooks and the catalog build, for the request being served. *)
| Identity : snap (result SnapshotIdentity RpcError)
| Validator : snap (result (option string) RpcError)
| Build : snap (result CatalogContentsResponse RpcError)
| Now : snap f64
| Random : snap Z
(** [CatalogPublicationRepository] and its storage. *)
| Lookup (key : string) : snap (result (option Manifest) RpcError)
| CommitIfAbsent (m : Manifest) : snap (result Manifest RpcError)
| Invalidate (key id : string) : snap (result bool RpcError)
| LocationOf (r : ExternalRef) : snap (result PublicationLocation RpcError)
| Renew (m : Manifest) : snap (result (option Manifest) RpcError)
| Upload (b : bytes) (c : Compression) : snap (result string RpcError)
| Fetch (url : string) (max : Z) : snap (result FetchedPayload RpcError)
(** The cache of validated manifests. *)
| Cached (key : string) : snap (option Manifest)
| Forget (key : string) : snap unit
| ForgetIf (key id : string) : snap unit
| Remember (limit : nat) (key : string) (m : Manifest) : snap unit
(** The gates. *)
| Lease (key : string) : snap nat
| Lock (gate : nat) : snap unit
| Unlock (gate : nat) : snap unit
(** [GateLease::drop], then the drop of the lease's own reference to the gate. *)
| DropLease (key : string) (gate : nat) : snap unit
| DropGate (gate : nat) : snap unit.

Abbreviation SnapM := (Call snap RpcError).

Inductive SnapshotDelivery := Inline (r : CatalogContentsResponse) | Published (r : ExternalRef).

(** How a turn of the serving loop ends: with a delivery, with [continue], or with
    the next statement. *)
Inductive turn := Deliver (d : SnapshotDelivery) | Again | GoOn.

(** The lease and the guard of a key around a block; they are dropped however the
    block is left, the guard first; the lease's reference to the gate is a field,
    which goes after [GateLease::drop] has run. *)
Definition with_gate {A} (key : string) (body : SnapM A) : SnapM A :=
  gate ← do_ (Lease key);
  _ ← do_ (Lock gate);
  r ← try_ body;
  _ ← do_ (Unlock gate);
  _ ← do_ (DropLease key gate);
  _ ← do_ (DropGate gate);
  lift r.

(** * The manager *)

Section manager.
Context `{IpcStream} `{RecordStream} `{TypeEquality} `{SnapshotHash} `{External} `{CatalogTypes}.
Context (p : Policy) (req : SnapshotRequest).

Definition usable_now (m : Manifest) : SnapM bool :=
  now ← do_ Now; mret (usable now m (expiry_margin_seconds p)).
Definition remember (key : string) (m : Manifest) : SnapM unit :=
  do_ (Remember (Nat.max (max_cached_manifests p) 1) key m).

Definition read (key : string) (id : SnapshotIdentity) (m : Manifest) : SnapM CatalogContentsResponse :=
  now ← do_ Now;
  if negb (manifest_header_ok p key id m now) then throw (ValueError "invalid or expired catalog publication manifest")
  else
    r ← lift (reference m);
    _ ← lift (pointer_batch r);
    pl ← ask (Fetch (er_url r) (Z.min (ext_max_encoded_bytes p) (max_stored_bytes p)));
    lift (resolve_object p m r pl).
Definition validate (key : string) (id : SnapshotIdentity) (m : Manifest) : SnapM unit :=
  _ ← read key id m; mret tt.

(** A manifest the repository knows, renewed if need be, once it validates. *)
Definition discover (key : string) (id : SnapshotIdentity) : SnapM (option Manifest) :=
  found ← ask (Lookup key);
  match found with
  | None => mret None
  | Some found =>
      u ← usable_now found;
      found ← (if u : bool then mret found
               else renewed ← ask (Renew found);
                    match renewed with
                    | Some r => _ ← lift (validate_renewal found r); mret r
                    | None => mret found
                    end);
      v ← try_ (validate key id found);
      match v with
      | Ok _ => mret (Some found)
      | Err _ => _ ← ask (Invalidate key (mf_manifest_id found)); mret None
      end
  end.

(** A validated manifest is delivered, renewed, or given up. *)
Definition reuse (inm : option string) (key : string) (id : SnapshotIdentity) (found : Manifest) : SnapM turn :=
  u ← usable_now found;
  if u : bool then
    id' ← ask Identity;
    if negb (bool_decide (id' = id)) then mret Again
    else
      _ ← remember key found;
      match mf_etag found with
      | Some e =>
          if bool_decide (Some e = inm) then mret (Deliver (Inline (unchanged (mf_catalog_version found) e)))
          else r ← lift (reference found); mret (Deliver (Published r))
      | None => r ← lift (reference found); mret (Deliver (Published r))
      end
  else
    renewed ← ask (Renew found);
    match renewed with
    | Some r =>
        _ ← lift (validate_renewal found r);
        _ ← validate key id r;
        _ ← remember key r;
        mret Again
    | None => _ ← ask (Invalidate key (mf_manifest_id found)); _ ← do_ (Forget key); mret GoOn
    end.

(** [format!("{:032x}", id)]. *)
Variable hex128 : Z → string.

Definition new_manifest (key : string) (value : CatalogContentsResponse) (r : ExternalRef) (digest : string)
    (loc : PublicationLocation) (sizes : Z * Z) (id : Z) : Manifest :=
  mkManifest key (hex128 id) VGI_PROTOCOL_NAME WIRE contract_hash CODEC (catalog_version value) (etag value) digest
    sizes.1 sizes.2 (er_url r) (loc_object_id loc) (loc_expires_at loc) (loc_retain_until loc) (loc_stable loc) 1 1.

(** Upload of a snapshot, [publish_external] over [BoundedStorage]: the manifest of
    the new object.  The digest it unwraps is the one it asked for. *)
Definition upload_snapshot (key : string) (value : CatalogContentsResponse) : SnapM Manifest :=
  envelope ← lift (to_result_batch value);
  '(b, digest) ← lift (publish_payload envelope (ext_compression p));
  sizes ← lift (bounded_sizes p b (ext_compression p));
  url ← ask (Upload b (ext_compression p));
  r ← lift (external_ref_new url (Some digest));
  loc ← ask (LocationOf r);
  id ← do_ Random;
  mret (new_manifest key value r digest loc sizes id).

Definition with_etag (value : CatalogContentsResponse) (e : string) : CatalogContentsResponse :=
  mkResponse (catalog_version value) (Some e) (not_modified value) (streams value).
Definition response_digest (value : CatalogContentsResponse) : string := catalog_response_digest hex value.

(** A built snapshot: uploaded, read back, committed. *)
Definition publish (inm : option string) (key : string) (id : SnapshotIdentity) : SnapM turn :=
  value ← ask Build;
  if not_modified value then throw (ValueError "publication build must return a complete snapshot")
  else
    _ ← lift (response_contents value);
    stale ← (if negb (catalog_version value =? id_version id) then mret true
             else id' ← ask Identity; mret (negb (bool_decide (id' = id))));
    if stale : bool then mret Again
    else
      let e := default (response_digest value) (etag value) in
      let value := with_etag value e in
      if bool_decide (Some e = inm) then mret (Deliver (Inline (unchanged (catalog_version value) e)))
      else
        m ← upload_snapshot key value;
        readback ← read key id m;
        if negb (catalog_version readback =? catalog_version value) || negb (bool_decide (etag readback = etag value))
           || negb (bool_decide (streams readback = streams value))
        then throw (ValueError "published catalog differs from collected snapshot")
        else
          id' ← ask Identity;
          if negb (bool_decide (id' = id)) then mret Again
          else
            winner ← ask (CommitIfAbsent m);
            _ ← (if bool_decide (mf_manifest_id winner = mf_manifest_id m) then mret tt else validate key id winner);
            id'' ← ask Identity;
            if negb (bool_decide (id'' = id)) then mret Again
            else
              _ ← remember key winner;
              r ← lift (reference winner);
              mret (Deliver (Published r)).

(** One turn of the loop. *)
Definition serve_turn (inm : option string) : SnapM turn :=
  id ← ask Identity;
  key ← lift (cache_key p req id);
  with_gate key
    (cached ← do_ (Cached key);
     manifest ← match cached with Some m => mret (Some m) | None => discover key id end;
     t ← match manifest with Some found => reuse inm key id found | None => mret GoOn end;
     match t with GoOn => publish inm key id | t => mret t end).

Fixpoint serve_loop (turns : nat) (inm : option string) : SnapM SnapshotDelivery :=
  match turns with
  | O => throw (RuntimeError "catalog revision or publication changed repeatedly")
  | S turns =>
      t ← serve_turn inm;
      match t with Deliver d => mret d | _ => serve_loop turns inm end
  end.
Definition manager_serve (inm : option string) : SnapM SnapshotDelivery := serve_loop 3 inm.

(** * The policy *)

(** The ordinary answer when publication failed with [error]. *)
Definition ordinary (error : RpcError) (inm : option string) : SnapM SnapshotDelivery :=
  before ← ask Identity;
  value ← ask Build;
  after ← ask Identity;
  if negb (bool_decide (before = after)) || negb (catalog_version value =? id_version before) then throw error
  else
    _ ← lift (response_contents value);
    again ← ask Identity;
    if negb (bool_decide (again = before)) then throw error
    else
      match etag value with
      | Some e => if bool_decide (Some e = inm) then mret (Inline (unchanged (catalog_version value) e))
                  else mret (Inline value)
      | None => mret (Inline value)
      end.

Definition limits_ok : bool :=
  negb (max_raw_bytes p =? 0) && negb (max_stored_bytes p =? 0) && negb (max_cached_manifests p =? 0)%nat
  && is_finite (expiry_margin_seconds p) && negb (f64_lt (expiry_margin_seconds p) (S754_zero false)).

(** The publication, or the ordinary answer where the policy says so. *)
Definition published (inm : option string) : SnapM SnapshotDelivery :=
  r ← try_ (manager_serve inm);
  match r with
  | Err error => if ordinary_on_failure p then ordinary error inm else throw error
  | Ok d => mret d
  end.

Definition serve (inm : option string) : SnapM SnapshotDelivery :=
  if negb limits_ok then throw (ValueError "invalid catalog snapshot policy limits")
  else
    known ← (if has_validator p then ask Validator else mret None);
    match known with
    | Some e => if bool_decide (Some e = inm) then mret (Inline (unchanged (req_version req) e)) else published inm
    | None => published inm
    end.

Definition warm : SnapM SnapshotDelivery := serve None.

Definition invalidate (key manifest_id : string) : SnapM bool :=
  with_gate key (_ ← do_ (ForgetIf key manifest_id); ask (Invalidate key manifest_id)).

Definition import (m : Manifest) : SnapM unit :=
  id ← ask Identity;
  key ← lift (cache_key p req id);
  with_gate key
    (_ ← validate key id m;
     id' ← ask Identity;
     if negb (bool_decide (id' = id)) then throw (ValueError "catalog changed during publication import")
     else
       winner ← ask (CommitIfAbsent m);
       _ ← (if bool_decide (mf_manifest_id winner = mf_manifest_id m) then mret tt else validate key id winner);
       id'' ← ask Identity;
       if negb (bool_decide (id'' = id)) then throw (ValueError "catalog changed during publication import")
       else remember key winner).
End manager.

(** * The in-memory repository *)

(** [MemoryCatalogPublicationRepository]: each method holds the mutex throughout.
    Its [renew] is the trait's, which renews nothing. *)
Record MemoryRepository := mkMemoryRepository {
  mem_location : PublicationLocation;
  manifests : gmap string Manifest;
}.
Definition mem_lookup (r : MemoryRepository) (key : string) : option Manifest := manifests r !! key.
Definition mem_commit_if_absent (r : MemoryRepository) (m : Manifest) : Manifest * MemoryRepository :=
  match manifests r !! mf_cache_key m with
  | Some w => (w, r)
  | None => (m, mkMemoryRepository (mem_location r) (<[mf_cache_key m := m]> (manifests r)))
  end.
Definition mem_invalidate (r : MemoryRepository) (key id : string) : bool * MemoryRepository :=
  if bool_decide (mf_manifest_id <$> manifests r !! key = Some id)
  then (true, mkMemoryRepository (mem_location r) (delete key (manifests r)))
  else (false, r).
Definition mem_renew (r : MemoryRepository) (m : Manifest) : option Manifest := None.

(** * What the calls do within a process *)

(** The validated manifests; the gate of each key, how many references the leases
    hold to each gate, and which gates are locked; and the manifests the process
    has committed. *)
Record World := mkWorld {
  validated : gmap string Manifest;
  gates : gmap string nat;
  leases : gmap nat nat;
  locked : gset nat;
  next_gate : nat;
  ledger : list Manifest;
}.

(** How far a lease has come: it was taken, its guard is held, [GateLease::drop]
    has run and the reference to the gate is still there. *)
Inductive lease_state := Waiting | Holding | Dropping.

(** What a call can tell of itself: the last answer of the identity hook and of the
    build, and its lease. *)
Record Local := mkLocal {
  seen : option SnapshotIdentity;
  built : option CatalogContentsResponse;
  lease : option (string * nat * lease_state);
}.
Definition set_seen (a : result SnapshotIdentity RpcError) (l : Local) : Local :=
  match a with Ok id => mkLocal (Some id) (built l) (lease l) | Err _ => l end.
Definition set_built (a : result CatalogContentsResponse RpcError) (l : Local) : Local :=
  match a with Ok v => mkLocal (seen l) (Some v) (lease l) | Err _ => l end.
Definition set_lease (g : option (string * nat * lease_state)) (l : Local) : Local := mkLocal (seen l) (built l) g.
Definition set_state (b : lease_state) (l : Local) : Local :=
  set_lease (match lease l with Some (k, g, _) => Some (k, g, b) | None => None end) l.

Definition set_validated (f : gmap string Manifest → gmap string Manifest) (w : World) : World :=
  mkWorld (f (validated w)) (gates w) (leases w) (locked w) (next_gate w) (ledger w).
Definition set_leases (f : gmap nat nat → gmap nat nat) (w : World) : World :=
  mkWorld (validated w) (gates w) (f (leases w)) (locked w) (next_gate w) (ledger w).
Definition log_commit (m : Manifest) (w : World) : World :=
  mkWorld (validated w) (gates w) (leases w) (locked w) (next_gate w) (m :: ledger w).

(** [CatalogSnapshotManager::remember]: a full cache is cleared. *)
Definition remember_manifest (limit : nat) (key : string) (m : Manifest) (cache : gmap string Manifest) :
    gmap string Manifest :=
  <[key := m]> (if (limit <=? size cache)%nat then ∅ else cache).
Definition forget_if (key id : string) (cache : gmap string Manifest) : gmap string Manifest :=
  if bool_decide (mf_manifest_id <$> cache !! key = Some id) then delete key cache else cache.

(** [CatalogSnapshotManager::lease]: the gate of the key, made if there is none. *)
Definition take_lease (key : string) (w : World) : nat * World :=
  match gates w !! key with
  | Some g => (g, set_leases (λ c, <[g := S (default O (c !! g))]> c) w)
  | None =>
      let g := next_gate w in
      (g, mkWorld (validated w) (<[key := g]> (gates w)) (<[g := 1%nat]> (leases w)) (locked w) (S g) (ledger w))
  end.
(** [Arc::strong_count] of a gate: the references of leases, and the map's own. *)
Definition strong_count (key : string) (g : nat) (w : World) : nat :=
  (default O (leases w !! g) + if bool_decide (gates w !! key = Some g) then 1 else 0)%nat.
(** [GateLease::drop], under the mutex of the map: the lease's own reference is
    still counted. *)
Definition drop_lease (key : string) (g : nat) (w : World) : World :=
  if (strong_count key g w =? 2)%nat
  then mkWorld (validated w) (delete key (gates w)) (leases w) (locked w) (next_gate w) (ledger w)
  else w.
(** The field [gate] of the lease is dropped. *)
Definition drop_gate (g : nat) (w : World) : World :=
  set_leases (λ c, <[g := pred (default O (c !! g))]> c) w.
Definition set_locked (f : gset nat → gset nat) (w : World) : World :=
  mkWorld (validated w) (gates w) (leases w) (f (locked w)) (next_gate w) (ledger w).

(** [m'] is [m] with another URL and expiry: what a renewal makes of it. *)
Definition renewed (m m' : Manifest) : Prop := m' = with_url m (mf_url m') (mf_expires_at m').

(** The calls, within a process.  What is outside answers as it likes, except that
    a repository that answers a commit with the id of the manifest committed answers
    with that manifest or with one the process committed before under its key,
    either as it was or renewed: ids are random, and renewals keep them. *)
Definition handle (A : Type) (e : snap A) (w : World) (l : Local) : A → World → Local → Prop :=
  match e in snap A return A → World → Local → Prop with
  | Identity => λ a w' l', w' = w ∧ l' = set_seen a l
  | Build => λ a w' l', w' = w ∧ l' = set_built a l
  | CommitIfAbsent m => λ a w' l', w' = log_commit m w ∧ l' = l ∧
      match a with
      | Ok x => mf_manifest_id x = mf_manifest_id m →
          ∃ m0, m0 ∈ m :: ledger w ∧ mf_cache_key m0 = mf_cache_key m ∧ renewed m0 x
      | Err _ => True
      end
  | Cached key => λ a w' l', w' = w ∧ l' = l ∧ a = validated w !! key
  | Forget key => λ _ w' l', w' = set_validated (delete key) w ∧ l' = l
  | ForgetIf key id => λ _ w' l', w' = set_validated (forget_if key id) w ∧ l' = l
  | Remember limit key m => λ _ w' l', w' = set_validated (remember_manifest limit key m) w ∧ l' = l
  | Lease key => λ a w' l', (a, w') = take_lease key w ∧ l' = set_lease (Some (key, a, Waiting)) l
  | Lock g => λ _ w' l', g ∉ locked w ∧ w' = set_locked (union {[g]}) w ∧ l' = set_state Holding l
  | Unlock g => λ _ w' l', w' = set_locked (λ s, s ∖ {[g]}) w ∧ l' = set_state Waiting l
  | DropLease key g => λ _ w' l', w' = drop_lease key g w ∧ l' = set_state Dropping l
  | DropGate g => λ _ w' l', w' = drop_gate g w ∧ l' = set_lease None l
  | Validator | Now | Random | Lookup _ | Invalidate _ _ | LocationOf _ | Renew _ | Upload _ _ | Fetch _ _ =>
      λ _ w' l', w' = w ∧ l' = l
  end.

(** What a caller owes: the lease discipline of [GateLease] and the guard. *)
Definition discipline (A : Type) (e : snap A) (l : Local) : Prop :=
  match e with
  | Lease _ => lease l = None
  | Lock g => ∃ k, lease l = Some (k, g, Waiting)
  | Unlock g => ∃ k, lease l = Some (k, g, Holding)
  | DropLease k g => lease l = Some (k, g, Waiting)
  | DropGate g => ∃ k, lease l = Some (k, g, Dropping)
  | _ => True
  end.
