(* ===== verification/PublicationFacts.v ===== *)
(** What publication promises, whatever the repository, the clock and the catalog's
    author do, and however the calls of a process interleave: a delivered reference
    leads to a complete snapshot of the identity that was current at the end, the
    cache of manifests stays bounded, and the gate of a key admits one call at a
    time. *)
From S2P Require Import Prelude Codec Float64 SqlCompare Arrow Ipc Wire CatalogContents CatalogCollections Threads.
From S2P Require Import Publication.

Open Scope Z_scope.

Section facts.
Context `{IpcStream} `{RecordStream} `{TypeEquality} `{SnapshotHash} `{External} `{CatalogTypes}.
Context (hex128 : Z → string) (p : Policy).

(** * What is known of a manifest *)

(** A manifest that was read back under a key and an identity. *)
Definition checked (key : string) (id : SnapshotIdentity) (m : Manifest) (resp : CatalogContentsResponse) : Prop :=
  mf_cache_key m = key ∧ mf_catalog_version m = id_version id ∧
  ∃ r pl, reference m = Ok r ∧ resolve_object p m r pl = Ok resp.

(** A manifest that is one read back, or a renewal of it. *)
Definition vouched (key : string) (m : Manifest) : Prop :=
  ∃ m0 req id resp, renewed m0 m ∧ cache_key p req id = Ok key ∧ checked key id m0 resp.

Lemma renewed_refl m : renewed m m.
Proof. by destruct m. Qed.
Lemma renewed_trans m1 m2 m3 : renewed m1 m2 → renewed m2 m3 → renewed m1 m3.
Proof. unfold renewed. by intros -> ->. Qed.
Lemma vouched_renewed key m m' : vouched key m → renewed m m' → vouched key m'.
Proof. intros (m0 & req & id & resp & Hr & Hk & Hc) Hm. exists m0, req, id, resp. split; [by eapply renewed_trans|done]. Qed.

Definition cache_limit : nat := Nat.max (max_cached_manifests p) 1.
Definition cache_ok (w : World) : Prop :=
  (∀ key m, validated w !! key = Some m → vouched key m) ∧ (size (validated w) ≤ cache_limit)%nat ∧
  (∀ m, m ∈ ledger w → vouched (mf_cache_key m) m).

Abbreviation safe := (Threads.safe handle discipline cache_ok).

(** ** Rules *)

Lemma ret_safe {A} (a : A) (Q : Local → result A RpcError → Prop) l : Q l (Ok a) → safe (mret a : SnapM A) Q l.
Proof. done. Qed.
Lemma lift_safe {A} (r : result A RpcError) (Q : Local → result A RpcError → Prop) l : Q l r → safe (lift r) Q l.
Proof. done. Qed.

(** Calls that leave the process and the caller's knowledge as they are. *)
Definition outside {A} (e : snap A) : Prop :=
  match e with
  | Validator | Now | Random | Lookup _ | Invalidate _ _ | LocationOf _ | Renew _ | Upload _ _ | Fetch _ _ => True
  | _ => False
  end.

Lemma outside_handle {A} (e : snap A) w l a w' l' : outside e → handle A e w l a w' l' → w' = w ∧ l' = l.
Proof. by destruct e. Qed.
Lemma outside_free {A} (e : snap A) l : outside e → discipline A e l.
Proof. by destruct e. Qed.

Lemma ask_outside_safe {A} (e : snap (result A RpcError)) (Q : Local → result A RpcError → Prop) l :
  outside e → (∀ a, Q l a) → safe (ask e) Q l.
Proof.
  intros He HQ. split; [by apply outside_free|]. intros w a w' l' Hw Hh. destruct (outside_handle _ _ _ _ _ _ He Hh) as [-> ->]. split; [done|apply HQ].
Qed.
Lemma do_outside_safe {A} (e : snap A) (Q : Local → result A RpcError → Prop) l :
  outside e → (∀ a, Q l (Ok a)) → safe (do_ e) Q l.
Proof.
  intros He HQ. split; [by apply outside_free|]. intros w a w' l' Hw Hh. destruct (outside_handle _ _ _ _ _ _ He Hh) as [-> ->]. split; [done|apply HQ].
Qed.

Lemma identity_safe (Q : Local → result SnapshotIdentity RpcError → Prop) l :
  (∀ a, Q (set_seen a l) a) → safe (ask Identity) Q l.
Proof. intros HQ. split; [done|]. intros w a w' l' Hw [-> ->]. split; [done|apply HQ]. Qed.
Lemma build_safe (Q : Local → result CatalogContentsResponse RpcError → Prop) l :
  (∀ a, Q (set_built a l) a) → safe (ask Build) Q l.
Proof. intros HQ. split; [done|]. intros w a w' l' Hw [-> ->]. split; [done|apply HQ]. Qed.
Lemma commit_safe m (Q : Local → result Manifest RpcError → Prop) l :
  vouched (mf_cache_key m) m →
  (∀ a, match a with
        | Ok x => mf_manifest_id x = mf_manifest_id m → vouched (mf_cache_key m) x
        | Err _ => True
        end → Q l a) →
  safe (ask (CommitIfAbsent m)) Q l.
Proof.
  intros Hm HQ. split; [done|]. intros w a w' l' (Hw & Hb & Hl) (-> & -> & Ha).
  assert (∀ m', m' ∈ m :: ledger w → vouched (mf_cache_key m') m') as Hl'.
  { intros m' [->|?]%elem_of_cons; [done|by apply Hl]. }
  split; [by split_and!|]. apply HQ. destruct a as [x|]; [|done]. intros Hid.
  destruct (Ha Hid) as (m0 & Hin & Hk & Hr). eapply vouched_renewed; [|exact Hr]. rewrite <- Hk. by apply Hl'.
Qed.
Lemma cached_safe key (Q : Local → result (option Manifest) RpcError → Prop) l :
  (∀ o, match o with Some m => vouched key m | None => True end → Q l (Ok o)) → safe (do_ (Cached key)) Q l.
Proof.
  intros HQ. split; [done|]. intros w a w' l' Hok (-> & -> & ->). split; [done|]. apply HQ. destruct Hok as [Hw _].
  destruct (validated w !! key) as [m|] eqn:E; [by apply Hw|done].
Qed.

Lemma remembered_ok key m w : vouched key m → cache_ok w →
  cache_ok (set_validated (remember_manifest cache_limit key m) w).
Proof.
  intros Hm (Hw & Hb & Hl). unfold remember_manifest. split_and!; [| |done]; cbn.
  - intros key' m'. destruct (decide (key = key')) as [->|Hne].
    + rewrite lookup_insert_eq. by intros [= <-].
    + rewrite lookup_insert_ne by done. case_match; [by rewrite lookup_empty|apply Hw].
  - destruct (Nat.leb_spec cache_limit (size (validated w))) as [Hle|Hlt].
    + rewrite map_size_insert_None by apply lookup_empty. rewrite map_size_empty. unfold cache_limit. lia.
    + rewrite map_size_insert. case_match; cbn; lia.
Qed.
Lemma remember_safe key m (Q : Local → result () RpcError → Prop) l :
  vouched key m → Q l (Ok tt) → safe (remember p key m) Q l.
Proof.
  intros Hm HQ. split; [done|]. intros w [] w' l' Hw [-> ->]. split; [by apply remembered_ok|done].
Qed.

Lemma forgotten_ok (f : gmap string Manifest → gmap string Manifest) w :
  (∀ c, f c ⊆ c) → cache_ok w → cache_ok (set_validated f w).
Proof.
  intros Hf (Hw & Hb & Hl). split_and!; [| |done]; cbn.
  - intros key m Hm. apply Hw. by eapply lookup_weaken.
  - etrans; [|exact Hb]. apply map_subseteq_size, Hf.
Qed.
Lemma forget_safe key (Q : Local → result () RpcError → Prop) l : Q l (Ok tt) → safe (do_ (Forget key)) Q l.
Proof.
  intros HQ. split; [done|]. intros w [] w' l' Hw [-> ->]. split; [|done]. apply forgotten_ok; [|done].
  intros c. apply delete_subseteq.
Qed.
Lemma forget_if_safe key id (Q : Local → result () RpcError → Prop) l : Q l (Ok tt) → safe (do_ (ForgetIf key id)) Q l.
Proof.
  intros HQ. split; [done|]. intros w [] w' l' Hw [-> ->]. split; [|done]. apply forgotten_ok; [|done].
  intros c. unfold forget_if. case_match; [apply delete_subseteq|done].
Qed.

Lemma take_lease_cache key w : validated (take_lease key w).2 = validated w ∧ ledger (take_lease key w).2 = ledger w.
Proof. unfold take_lease. by case_match. Qed.
Lemma drop_lease_cache key g w : validated (drop_lease key g w) = validated w ∧ ledger (drop_lease key g w) = ledger w.
Proof. unfold drop_lease. by case_match. Qed.
Lemma cache_ok_same w w' : validated w' = validated w ∧ ledger w' = ledger w → cache_ok w → cache_ok w'.
Proof. unfold cache_ok. by intros [-> ->]. Qed.

(** The block runs under the gate, and the lease is gone afterwards. *)
Lemma with_gate_safe {A} key (body : SnapM A) Q l : lease l = None →
  (∀ g, safe body (λ l' r, lease l' = Some (key, g, Holding) ∧ Q (set_lease None l') r)
          (set_lease (Some (key, g, Holding)) l)) →
  safe (with_gate key body) Q l.
Proof.
  intros Hl Hb. unfold with_gate. apply call_bind_safe. split; [done|]. intros w g w' l' Hw [Hg ->].
  split; [eapply cache_ok_same; [|exact Hw]; by rewrite (f_equal snd Hg : w' = _); apply take_lease_cache|]. cbn [Threads.safe].
  apply call_bind_safe. split; [by exists key|]. intros w1 [] w1' l1 Hw1 (_ & -> & ->). split; [done|].
  apply call_bind_safe, try_safe. cbn. eapply mono_safe; [exact (Hb g)|]. intros l2 r [Hl2 HQ]. cbn in *.
  split; [by exists key|]. intros w3 [] w3' l3 Hw3 [-> ->]. split; [done|]. unfold set_state. rewrite Hl2. split; [done|].
  intros w4 [] w4' l4 Hw4 [-> ->]. split; [eapply cache_ok_same; [apply drop_lease_cache|exact Hw4]|]. cbn.
  split; [by exists key|]. intros w5 [] w5' l5 Hw5 [-> ->]. split; [done|]. exact HQ.
Qed.

(** ** The programs *)

Lemma header_checked key id m now : manifest_header_ok p key id m now = true →
  mf_cache_key m = key ∧ mf_catalog_version m = id_version id.
Proof.
  unfold manifest_header_ok. rewrite !andb_true_iff. intros Hh. destruct_and!.
  by split; [eapply bool_decide_eq_true|apply Z.eqb_eq].
Qed.

Lemma read_safe key id m (Q : Local → result CatalogContentsResponse RpcError → Prop) l :
  (∀ r, (∀ resp, r = Ok resp → checked key id m resp) → Q l r) → safe (read p key id m) Q l.
Proof.
  intros HQ. unfold read. apply call_bind_safe, do_outside_safe; [done|]. intros now.
  destruct (manifest_header_ok p key id m now) eqn:Hh; [|by apply HQ]. cbn [negb].
  apply header_checked in Hh as [Hk Hv]. apply call_bind_safe, lift_safe.
  destruct (reference m) as [r|] eqn:Hr; [|by apply HQ]. apply call_bind_safe, lift_safe.
  destruct (pointer_batch r); [|by apply HQ]. apply call_bind_safe, ask_outside_safe; [done|].
  intros [pl|]; [|by apply HQ]. apply lift_safe, HQ. intros resp Hresp. split_and!; [done|done|]. by exists r, pl.
Qed.

Lemma validate_safe key id m (Q : Local → result () RpcError → Prop) l :
  (∀ r, (r = Ok tt → ∃ resp, checked key id m resp) → Q l r) → safe (validate p key id m) Q l.
Proof.
  intros HQ. unfold validate. apply call_bind_safe, read_safe. intros [resp|e] Hr; [|by apply HQ].
  apply ret_safe, HQ. intros _. exists resp. by apply Hr.
Qed.

Lemma usable_safe m (Q : Local → result bool RpcError → Prop) l : (∀ b, Q l (Ok b)) → safe (usable_now p m) Q l.
Proof. intros HQ. apply call_bind_safe, do_outside_safe; [done|]. intros now. apply ret_safe, HQ. Qed.

Lemma discover_safe key id (Q : Local → result (option Manifest) RpcError → Prop) l :
  (∀ r, (∀ m, r = Ok (Some m) → ∃ resp, checked key id m resp) → Q l r) → safe (discover p key id) Q l.
Proof.
  intros HQ. unfold discover. apply call_bind_safe, ask_outside_safe; [done|].
  intros [[found|]|e]; [|by apply HQ..]. apply call_bind_safe, usable_safe. intros u.
  apply call_bind_safe.
  assert (∀ found', safe (v ← try_ (validate p key id found');
     match v with Ok _ => mret (Some found') | Err _ => _ ← ask (Invalidate key (mf_manifest_id found')); mret None end : SnapM _) Q l) as Hv.
  { intros found'. apply call_bind_safe, try_safe, validate_safe. intros [[]|e] Hr.
    - apply ret_safe, HQ. intros m [= <-]. by apply Hr.
    - apply call_bind_safe, ask_outside_safe; [done|]. intros [b|e']; by apply HQ. }
  destruct u; [by apply ret_safe|]. apply call_bind_safe, ask_outside_safe; [done|].
  intros [[r|]|e]; [|by apply ret_safe|by apply HQ]. apply call_bind_safe, lift_safe.
  destruct (validate_renewal found r); [by apply ret_safe|by apply HQ].
Qed.

(** ** Deliveries *)

Context `{!SnapshotHashLaws}.

(** Keys tell namespaces, revisions and versions apart. *)
Lemma cache_key_inj req req' id id' key : cache_key p req id = Ok key → cache_key p req' id' = Ok key →
  catalog_namespace id = catalog_namespace id' ∧ source_revision id = source_revision id' ∧ id_version id = id_version id'.
Proof.
  unfold cache_key. case_match; [done|]. case_match; [done|]. intros [= <-] [= Heq%hex_inj%key_json_inj].
  by injection Heq as -> -> _ ->.
Qed.
Lemma cache_key_version req id key : cache_key p req id = Ok key → id_version id = req_version req.
Proof. unfold cache_key. case_match eqn:E; [done|]. intros _. apply orb_false_iff in E as [_ E%negb_false_iff]. lia. Qed.
Lemma vouched_version key m req id : vouched key m → cache_key p req id = Ok key → mf_catalog_version m = id_version id.
Proof.
  intros (m0 & req' & id' & resp & -> & Hk & _ & Hv & _) Hk'. cbn. rewrite Hv.
  by destruct (cache_key_inj _ _ _ _ _ Hk Hk') as (_ & _ & ->).
Qed.
Lemma vouch key req id m resp : cache_key p req id = Ok key → checked key id m resp → vouched key m.
Proof. intros Hk Hc. exists m, req, id, resp. split; [apply renewed_refl|done]. Qed.

(** What a call that returned a delivery knows: a reference is that of a vouched
    manifest for the identity last seen; "not modified" repeats the client's etag;
    any other inline answer is the build's, complete, of the version last seen. *)
Definition delivered (req : SnapshotRequest) (inm : option string) (l : Local) (d : SnapshotDelivery) : Prop :=
  match d with
  | Published r => ∃ id key m, seen l = Some id ∧ cache_key p req id = Ok key ∧ vouched key m ∧ reference m = Ok r
  | Inline v =>
      (∃ e n, v = unchanged n e ∧ inm = Some e ∧ (n = req_version req ∨ ∃ id, seen l = Some id ∧ n = id_version id)) ∨
      (built l = Some v ∧ ∃ id, seen l = Some id ∧ catalog_version v = id_version id ∧ is_ok (response_contents v) = true)
  end.

Lemma delivered_lease req inm l d g : delivered req inm l d → delivered req inm (set_lease g l) d.
Proof. by destruct d. Qed.

Section serving.
Context (req : SnapshotRequest) (inm : option string).

(** The lease is kept, and a delivery is a good one. *)
Definition turn_post (l0 l : Local) (r : result turn RpcError) : Prop :=
  lease l = lease l0 ∧ ∀ d, r = Ok (Deliver d) → delivered req inm l d.

Lemma turn_err l0 l e : lease l = lease l0 → turn_post l0 l (Err e).
Proof. by split. Qed.
Lemma turn_again l0 l : lease l = lease l0 → turn_post l0 l (Ok Again).
Proof. by split. Qed.
Lemma lease_seen a l : lease (set_seen a l) = lease l.
Proof. by destruct a. Qed.
Lemma lease_built a l : lease (set_built a l) = lease l.
Proof. by destruct a. Qed.
#[local] Hint Resolve turn_err turn_again lease_seen lease_built : core.

Lemma turn_unchanged l0 l id e : lease l = lease l0 → seen l = Some id → Some e = inm →
  turn_post l0 l (Ok (Deliver (Inline (unchanged (id_version id) e)))).
Proof. intros Hl Hs He. split; [done|]. intros d [= <-]. left. eauto 10. Qed.
Lemma turn_published l0 l id key m r : lease l = lease l0 → seen l = Some id → cache_key p req id = Ok key →
  vouched key m → reference m = Ok r → turn_post l0 l (Ok (Deliver (Published r))).
Proof. intros Hl Hs Hk Hm Hr. split; [done|]. intros d [= <-]. cbn. eauto 10. Qed.

Lemma reuse_safe key id m l : cache_key p req id = Ok key → vouched key m →
  safe (reuse p inm key id m) (turn_post l) l.
Proof.
  intros Hk Hm. unfold reuse. apply call_bind_safe, usable_safe. intros [|].
  - apply call_bind_safe, identity_safe. intros [id'|e]; [|by auto].
    destruct (bool_decide_reflect (id' = id)) as [->|]; cbn [negb]; [|by apply ret_safe, turn_again].
    apply call_bind_safe, remember_safe; [done|].
    assert (safe (r ← lift (reference m); mret (Deliver (Published r)) : SnapM turn) (turn_post l) (set_seen (Ok id) l)) as Hpub.
    { apply call_bind_safe, lift_safe. destruct (reference m) as [r|] eqn:Hr; [|by auto].
      by eapply ret_safe, turn_published. }
    destruct (mf_etag m) as [e|]; [|exact Hpub].
    destruct (bool_decide_reflect (Some e = inm)) as [He|]; [|exact Hpub].
    apply ret_safe. rewrite (vouched_version _ _ _ _ Hm Hk). by apply turn_unchanged.
  - apply call_bind_safe, ask_outside_safe; [done|]. intros [[r|]|e]; [| |by auto].
    + apply call_bind_safe, lift_safe. destruct (validate_renewal m r); [|by auto].
      apply call_bind_safe, validate_safe. intros [[]|e] Hr; [|by auto]. destruct (Hr eq_refl) as [resp Hc].
      apply call_bind_safe, remember_safe; [by eapply vouch|]. by apply ret_safe, turn_again.
    + apply call_bind_safe, ask_outside_safe; [done|]. intros [b|e]; [|by auto].
      apply call_bind_safe, forget_safe. by apply ret_safe; split.
Qed.

Lemma upload_safe key value (Q : Local → result Manifest RpcError → Prop) l :
  (∀ r, Q l r) → safe (upload_snapshot p hex128 key value) Q l.
Proof.
  intros HQ. unfold upload_snapshot. apply call_bind_safe, lift_safe. destruct (to_result_batch value); [|apply HQ].
  apply call_bind_safe, lift_safe. destruct (publish_payload _ _) as [[b d]|]; [|apply HQ].
  apply call_bind_safe, lift_safe. destruct (bounded_sizes _ _ _); [|apply HQ].
  apply call_bind_safe, ask_outside_safe; [done|]. intros [url|]; [|apply HQ].
  apply call_bind_safe, lift_safe. destruct (external_ref_new _ _); [|apply HQ].
  apply call_bind_safe, ask_outside_safe; [done|]. intros [loc|]; [|apply HQ].
  apply call_bind_safe, do_outside_safe; [done|]. intros rid. apply ret_safe, HQ.
Qed.

(** The last statements: the winner is remembered and delivered. *)
Lemma deliver_safe key id winner l0 l : cache_key p req id = Ok key → vouched key winner → lease l = lease l0 →
  safe (id'' ← ask Identity;
        if negb (bool_decide (id'' = id)) then mret Again
        else _ ← remember p key winner; r ← lift (reference winner); mret (Deliver (Published r)) : SnapM turn)
    (turn_post l0) l.
Proof.
  intros Hk Hw Hl. apply call_bind_safe, identity_safe. intros [id'|e]; [|apply turn_err; by rewrite lease_seen].
  destruct (bool_decide_reflect (id' = id)) as [->|]; cbn [negb]; [|by apply ret_safe, turn_again].
  apply call_bind_safe, remember_safe; [done|]. apply call_bind_safe, lift_safe.
  destruct (reference winner) as [r|] eqn:Hr; [|by apply turn_err]. by eapply ret_safe, turn_published.
Qed.

Lemma publish_safe key id l : cache_key p req id = Ok key → safe (publish p hex128 inm key id) (turn_post l) l.
Proof.
  intros Hk. unfold publish. apply call_bind_safe, build_safe. intros [value|e]; [|by auto].
  destruct (not_modified value); [by apply turn_err|]. apply call_bind_safe, lift_safe.
  destruct (response_contents value); [|by apply turn_err]. apply call_bind_safe.
  destruct (Z.eqb_spec (catalog_version value) (id_version id)) as [Hv|]; cbn [negb]; [|by apply ret_safe, ret_safe, turn_again].
  apply call_bind_safe, identity_safe. intros [id'|e]; [|apply turn_err; by rewrite lease_seen].
  apply ret_safe. destruct (bool_decide_reflect (id' = id)) as [->|]; cbn [negb]; [|by apply ret_safe, turn_again].
  case_match eqn:He.
  { apply bool_decide_eq_true in He. apply ret_safe. cbn [catalog_version with_etag]. rewrite Hv. by apply turn_unchanged. }
  apply call_bind_safe, upload_safe. intros [m|]; [|by apply turn_err].
  apply call_bind_safe, read_safe. intros [resp|] Hread; [|by apply turn_err]. specialize (Hread _ eq_refl).
  case_match; [by apply turn_err|]. apply call_bind_safe, identity_safe. intros [id'|e']; [|apply turn_err; by rewrite lease_seen].
  destruct (bool_decide_reflect (id' = id)) as [->|]; cbn [negb]; [|by apply ret_safe, turn_again].
  assert (mf_cache_key m = key) as Hmk by apply Hread.
  apply call_bind_safe, commit_safe; [rewrite Hmk; by eapply vouch|]. rewrite Hmk. intros [winner|] Hwin; [|by apply turn_err].
  apply call_bind_safe. destruct (bool_decide_reflect (mf_manifest_id winner = mf_manifest_id m)) as [Hid|].
  - apply ret_safe. apply deliver_safe; [done|by apply Hwin|done].
  - apply validate_safe. intros [[]|] Hval; [|by apply turn_err]. destruct (Hval eq_refl) as [resp' Hc].
    apply deliver_safe; [done|by eapply vouch|done].
Qed.

Lemma serve_turn_safe l : lease l = None → safe (serve_turn p req hex128 inm) (turn_post l) l.
Proof.
  intros Hl. unfold serve_turn. apply call_bind_safe, identity_safe. intros [id|e]; [|by auto].
  apply call_bind_safe, lift_safe. destruct (cache_key p req id) as [key|] eqn:Hk; [|by auto].
  apply with_gate_safe; [done|]. intros g. set (l1 := set_lease _ _).
  eapply mono_safe with (Q := turn_post l1).
  - apply call_bind_safe, cached_safe. intros cached Hc. apply call_bind_safe.
    eapply mono_safe with (Q := λ l' r, l' = l1 ∧ ∀ m, r = Ok (Some m) → vouched key m).
    { destruct cached as [m|]; [by apply ret_safe; split; [done|intros m' [= <-]]|]. apply discover_safe.
      intros r Hr. split; [done|]. intros m Hm. destruct (Hr m Hm) as [resp Hresp]. by eapply vouch. }
    intros l2 [manifest|e] [-> Hm]; [|by apply turn_err]. apply call_bind_safe.
    eapply mono_safe with (Q := turn_post l1).
    { destruct manifest as [m|]; [by apply reuse_safe; [|apply Hm]|by apply ret_safe; split]. }
    intros l3 [[d| |]|e] Ht; [exact Ht|exact Ht| |by apply turn_err; destruct Ht].
    destruct Ht as [Hl3 _]. eapply mono_safe; [by apply publish_safe|]. intros l4 r [Hl4 Hd]. split; [congruence|done].
  - intros l2 r [Hl2 Hd]. split; [done|]. split; [by rewrite Hl|]. intros d Hr. by apply delivered_lease, Hd.
Qed.

(** The lease is gone, and a delivery is a good one. *)
Definition serve_post (l : Local) (r : result SnapshotDelivery RpcError) : Prop :=
  lease l = None ∧ ∀ d, r = Ok d → delivered req inm l d.

Lemma serve_loop_safe n l : lease l = None → safe (serve_loop p req hex128 n inm) serve_post l.
Proof.
  revert l. induction n as [|n IH]; intros l Hl; cbn [serve_loop]; [by split|].
  apply call_bind_safe. eapply mono_safe; [by apply serve_turn_safe|].
  intros l' [[d| |]|e] [Hl' Hd]; rewrite Hl in Hl'; [|by apply IH|by apply IH|by split].
  apply ret_safe. split; [done|]. intros d' [= <-]. by apply Hd.
Qed.

Lemma ordinary_safe error l : lease l = None → safe (ordinary error inm) serve_post l.
Proof.
  intros Hl. unfold ordinary. assert (∀ l e, lease l = None → serve_post l (Err e)) as Herr by by split.
  apply call_bind_safe, identity_safe. intros [before|e]; [|by apply Herr].
  apply call_bind_safe, build_safe. intros [value|e]; [|by apply Herr].
  apply call_bind_safe, identity_safe. intros [after|e]; [|by apply Herr].
  destruct (bool_decide_reflect (before = after)) as [<-|]; cbn [negb orb]; [|by apply Herr].
  destruct (Z.eqb_spec (catalog_version value) (id_version before)) as [Hv|]; cbn [negb]; [|by apply Herr].
  apply call_bind_safe, lift_safe. destruct (response_contents value) eqn:Hc; [|by apply Herr].
  apply call_bind_safe, identity_safe. intros [again|e]; [|by apply Herr].
  destruct (bool_decide_reflect (again = before)) as [->|]; cbn [negb]; [|by apply Herr].
  assert (serve_post (set_seen (Ok before) (set_seen (Ok before) (set_built (Ok value) (set_seen (Ok before) l))))
    (Ok (Inline value))) as Hval.
  { split; [done|]. intros d [= <-]. right. cbn. split; [done|]. exists before. by rewrite Hc. }
  destruct (etag value) as [e|]; [|exact Hval].
  destruct (bool_decide_reflect (Some e = inm)) as [He|]; [|exact Hval].
  apply ret_safe. split; [done|]. intros d [= <-]. left. exists e, (catalog_version value). cbn. eauto 10.
Qed.

Lemma serve_safe l : lease l = None → safe (serve p req hex128 inm) serve_post l.
Proof.
  intros Hl. unfold serve. case_match; [by split|].
  assert (safe (published p req hex128 inm) serve_post l) as Hp.
  { unfold published. apply call_bind_safe, try_safe. eapply mono_safe; [by apply serve_loop_safe|].
    intros l' [d|e] [Hl' Hd]; [by split|]. case_match; [by apply ordinary_safe|by split]. }
  apply call_bind_safe.
  assert (∀ known, safe (match known with
    | Some e => if bool_decide (Some e = inm) then mret (Inline (unchanged (req_version req) e)) else published p req hex128 inm
    | None => published p req hex128 inm end : SnapM SnapshotDelivery) serve_post l) as Hk.
  { intros [e|]; [|done]. destruct (bool_decide_reflect (Some e = inm)); [|done]. apply ret_safe. split; [done|].
    intros d [= <-]. left. eauto 10. }
  destruct (has_validator p); [|by apply ret_safe]. apply ask_outside_safe; [done|].
  intros [known|e]; [by apply Hk|by split].
Qed.
End serving.

Lemma import_safe req m (l : Local) : lease l = None → safe (import p req m) (λ l' _, lease l' = None) l.
Proof.
  intros Hl. unfold import. apply call_bind_safe, identity_safe. intros [id|e]; [|done].
  apply call_bind_safe, lift_safe. destruct (cache_key p req id) as [key|] eqn:Hk; [|done].
  apply with_gate_safe; [done|]. intros g. set (l1 := set_lease _ _).
  eapply mono_safe with (Q := λ l' _, lease l' = lease l1); [|by intros l2 r Hl2].
  apply call_bind_safe, validate_safe. intros [[]|e] Hv; [|done]. destruct (Hv eq_refl) as [resp Hc].
  apply call_bind_safe, identity_safe. intros [id'|e]; [|done].
  destruct (bool_decide_reflect (id' = id)) as [->|]; cbn [negb]; [|done].
  assert (mf_cache_key m = key) as Hmk by apply Hc.
  apply call_bind_safe, commit_safe; [rewrite Hmk; by eapply vouch|]. rewrite Hmk.
  intros [winner|] Hwin; [|done]. apply call_bind_safe.
  assert (∀ x l2, lease l2 = lease l1 → vouched key x → safe (id'' ← ask Identity;
     if negb (bool_decide (id'' = id)) then throw (ValueError "catalog changed during publication import")
     else remember p key x : SnapM unit) (λ l' _, lease l' = lease l1) l2) as Hend.
  { intros x l2 Hl2 Hx. apply call_bind_safe, identity_safe. intros [id''|e]; [|by rewrite lease_seen].
    case_match; [by rewrite <- Hl2|]. by apply remember_safe; [|rewrite <- Hl2]. }
  destruct (bool_decide_reflect (mf_manifest_id winner = mf_manifest_id m)) as [Hid|].
  - apply ret_safe, Hend; [done|]. by apply Hwin.
  - apply validate_safe. intros [[]|] Hval; [|done]. destruct (Hval eq_refl) as [resp' Hc'].
    apply Hend; [done|by eapply vouch].
Qed.

Lemma invalidate_safe key id (l : Local) : lease l = None → safe (invalidate key id) (λ l' _, lease l' = None) l.
Proof.
  intros Hl. apply with_gate_safe; [done|]. intros g. apply call_bind_safe, forget_if_safe.
  apply ask_outside_safe; [done|]. by intros a.
Qed.

(** * The calls of a process *)

Inductive operation :=
| OServe (req : SnapshotRequest) (inm : option string)
| OImport (req : SnapshotRequest) (m : Manifest)
| OInvalidate (key id : string).
Inductive answer :=
| AServed (req : SnapshotRequest) (inm : option string) (r : result SnapshotDelivery RpcError)
| ADone.
Definition run (op : operation) : prog snap answer :=
  match op with
  | OServe req inm => bind (serve p req hex128 inm) (λ r, Ret (AServed req inm r))
  | OImport req m => bind (import p req m) (λ _, Ret ADone)
  | OInvalidate key id => bind (invalidate key id) (λ _, Ret ADone)
  end.

Definition fresh_local : Local := mkLocal None None None.
Definition starts (t : prog snap answer * Local) : Prop := ∃ op, t = (run op, fresh_local).
Definition fresh_process : pool (E := snap) (S := World) (L := Local) answer := mkPool (mkWorld ∅ ∅ ∅ ∅ 0 []) [].

Definition answer_post (l : Local) (a : answer) : Prop :=
  lease l = None ∧
  match a with AServed req inm (Ok d) => delivered req inm l d | _ => True end.

Lemma run_safe prog l : starts (prog, l) → safe prog answer_post l.
Proof.
  intros (op & [= -> ->]). destruct op as [req inm|req m|key id]; cbn [run]; apply bind_safe.
  - eapply mono_safe; [by apply serve_safe|]. intros l r [Hl Hd]. split; [done|]. destruct r; [by apply Hd|done].
  - eapply mono_safe; [by apply import_safe|]. by intros l r Hl.
  - eapply mono_safe; [by apply invalidate_safe|]. by intros l r Hl.
Qed.

Lemma process_safe y : rtc (pool_step handle starts) fresh_process y →
  all_safe handle discipline cache_ok (λ _, answer_post) y.
Proof.
  intros Hy. eapply pool_safe; [by apply run_safe|exact Hy|]. split; [|done]. split_and!; cbn.
  - intros key m. by rewrite lookup_empty.
  - rewrite map_size_empty. lia.
  - by intros m ?%elem_of_nil.
Qed.

(** A vouched reference leads to a complete snapshot. *)
Lemma vouched_resolves `{!ExternalLaws} key m r n pl b : vouched key m → reference m = Ok r →
  resolve_payload r n pl = Ok b →
  ∃ resp, decode_envelope b = Ok resp ∧ catalog_version resp = mf_catalog_version m ∧ not_modified resp = false ∧
    etag resp = mf_etag m ∧ is_ok (response_contents resp) = true.
Proof.
  intros (m0 & req & id & resp & -> & _ & _ & _ & r' & pl' & Hr' & Hres) Hr Hb. cbn [mf_catalog_version mf_etag with_url].
  unfold resolve_object in Hres. destruct (validate_payload _ _ _ _); [|done].
  destruct (resolve_payload r' _ pl') as [b'|] eqn:Hb'; [|done].
  pose proof (external_ref_made _ _ _ Hr) as ->. pose proof (external_ref_made _ _ _ Hr') as ->.
  rewrite <- (resolve_digest _ _ _ _ _ _ _ _ _ Hb Hb' eq_refl eq_refl) in Hres.
  destruct (decode_envelope b) as [resp'|] eqn:Hd; [|done].
  unfold check_response in Hres. destruct (_ || _) eqn:Hc in Hres; [done|].
  destruct (response_contents resp') eqn:Hrc; [|done].
  apply orb_false_iff in Hc as [[Hnm Hv]%orb_false_iff He]. exists resp'. split_and!; [done| |done| |by rewrite Hrc].
  - by apply Z.eqb_eq, negb_false_iff.
  - by eapply bool_decide_eq_true, negb_false_iff.
Qed.

(** C14: However the calls of a process interleave, and whatever the
    repository, the fetcher, the clock and the hooks answer, except that a
    repository which answers a commit with the id of the manifest committed answers
    with that manifest, or with one this process committed before under the same
    key, as it was or renewed (another URL and expiry): a call that is answered with
    a reference had it from a manifest under the key of the identity the hook last
    reported, of the version requested, and whoever fetches what the reference's
    digest admits reads a complete snapshot of that version, never a "not modified";
    an inline answer is "not modified" with the etag the client sent, or what the
    build returned, of the version the hook last reported, with contents that decode
    (a complete snapshot unless the build itself said "not modified").  And the
    process never remembers more manifests than the policy allows. *)
Theorem publications_sound `{!ExternalLaws} y i l req inm d :
  rtc (pool_step handle starts) fresh_process y →
  (size (validated (shared y)) ≤ Nat.max (max_cached_manifests p) 1)%nat ∧
  (threads y !! i = Some (Ret (AServed req inm (Ok d)), l) →
   match d with
   | Published r =>
       ∃ id m, seen l = Some id ∧ cache_key p req id = Ok (mf_cache_key m) ∧ reference m = Ok r ∧
         ∀ n pl b, resolve_payload r n pl = Ok b →
           ∃ resp, decode_envelope b = Ok resp ∧ catalog_version resp = req_version req ∧ not_modified resp = false ∧
             etag resp = mf_etag m ∧ is_ok (response_contents resp) = true
   | Inline v =>
       (∃ e n, v = unchanged n e ∧ inm = Some e ∧ (n = req_version req ∨ ∃ id, seen l = Some id ∧ n = id_version id)) ∨
       (built l = Some v ∧ ∃ id, seen l = Some id ∧ catalog_version v = id_version id ∧ is_ok (response_contents v) = true)
   end).
Proof.
  intros [(Hc & Hsize & _) Hall]%process_safe. split; [done|]. intros Hi. destruct (Hall _ _ _ Hi) as [_ [_ Hd]].
  destruct d as [v|r]; [done|]. destruct Hd as (id & key & m & Hs & Hk & Hv & Hr).
  assert (mf_cache_key m = key) as Hm by (destruct Hv as (? & ? & ? & ? & -> & _ & <- & _); done).
  exists id, m. rewrite Hm. split_and!; [done..|]. intros n pl b Hb.
  destruct (vouched_resolves _ _ _ _ _ _ Hv Hr Hb) as (resp & Hresp & Hver & Hrest). exists resp.
  split_and!; [done| |apply Hrest..]. rewrite Hver, (vouched_version _ _ _ _ Hv Hk). by apply (cache_key_version _ _ _ Hk).
Qed.
End facts.
