(* ===== verification/PublicationGates.v ===== *)
(** The gates of [CatalogSnapshotManager]: one call at a time works on a key, and
    when a gate goes away. *)
From S2P Require Import Prelude Codec Float64 SqlCompare Arrow Ipc Wire CatalogContents CatalogCollections Threads.
From S2P Require Import Publication PublicationFacts.

Open Scope nat_scope.

(** * Counting leases *)

Definition holds_gate (g : nat) (l : Local) : bool :=
  match lease l with Some (_, g', _) => bool_decide (g' = g) | None => false end.
Definition holders (ls : list Local) (g : nat) : nat := length (filter (λ l, holds_gate g l = true) ls).

Lemma holders_nil g : holders [] g = 0.
Proof. done. Qed.
Lemma holders_cons l ls g : holders (l :: ls) g = (if holds_gate g l then 1 else 0) + holders ls g.
Proof. unfold holders. rewrite filter_cons. destruct (holds_gate g l); by case_decide. Qed.
Lemma holders_app ls ls' g : holders (ls ++ ls') g = holders ls g + holders ls' g.
Proof. unfold holders. by rewrite filter_app, length_app. Qed.

Lemma holders_insert ls i l l' g : ls !! i = Some l →
  holders (<[i := l']> ls) g + (if holds_gate g l then 1 else 0) = holders ls g + (if holds_gate g l' then 1 else 0).
Proof.
  revert i. induction ls as [|x ls IH]; intros [|i] Hi; cbn in Hi; simplify_eq.
  - change (<[0 := l']> (l :: ls)) with (l' :: ls). rewrite !holders_cons. lia.
  - change (<[S i := l']> (x :: ls)) with (x :: <[i := l']> ls). rewrite !holders_cons. specialize (IH i Hi). lia.
Qed.

Lemma holder_counted ls i l g : ls !! i = Some l → holds_gate g l = true → 0 < holders ls g.
Proof.
  revert i. induction ls as [|x ls IH]; intros [|i] Hi Hg; cbn in Hi; simplify_eq; rewrite holders_cons; [rewrite Hg; lia|].
  specialize (IH i Hi Hg). lia.
Qed.
Lemma counted_holder ls g : 0 < holders ls g → ∃ i l, ls !! i = Some l ∧ holds_gate g l = true.
Proof.
  induction ls as [|x ls IH]; [unfold holders; cbn; lia|]. rewrite holders_cons. intros Hh.
  destruct (holds_gate g x) eqn:E; [by exists 0, x|]. destruct IH as (i & l & Hi & Hl); [lia|]. by exists (S i), l.
Qed.
(** Two holders count twice. *)
Lemma two_holders ls i j l l' g : ls !! i = Some l → ls !! j = Some l' → i ≠ j → holds_gate g l = true →
  holds_gate g l' = true → 2 ≤ holders ls g.
Proof.
  revert i j. induction ls as [|x ls IH]; intros [|i] [|j] Hi Hj Hne Hl Hl'; cbn in Hi, Hj; simplify_eq;
    rewrite holders_cons; [rewrite Hl|rewrite Hl'|].
  - pose proof (holder_counted _ _ _ _ Hj Hl'). lia.
  - pose proof (holder_counted _ _ _ _ Hi Hl). lia.
  - specialize (IH i j Hi Hj ltac:(lia) Hl Hl'). lia.
Qed.

Lemma holds_gate_lease g l k b : lease l = Some (k, g, b) → holds_gate g l = true.
Proof. unfold holds_gate. intros ->. by apply bool_decide_true. Qed.
Lemma holds_gate_spec g l : holds_gate g l = true → ∃ k b, lease l = Some (k, g, b).
Proof. unfold holds_gate. destruct (lease l) as [[[k g'] b]|]; [|done]. intros ->%bool_decide_eq_true. eauto. Qed.
Lemma holds_gate_none g l : lease l = None → holds_gate g l = false.
Proof. unfold holds_gate. by intros ->. Qed.

Lemma holds_gate_set g l k g' b : holds_gate g (set_lease (Some (k, g', b)) l) = bool_decide (g' = g).
Proof. done. Qed.

(** * The invariant *)

(** A lease that [GateLease::drop] has not seen yet is on the gate the map has for
    its key, and the count of a gate is that of the leases that refer to it. *)
Record gates_ok (w : World) (ls : list Local) : Prop := {
  gate_of i l k g b : ls !! i = Some l → lease l = Some (k, g, b) → b ≠ Dropping → gates w !! k = Some g;
  gate_inj k k' g : gates w !! k = Some g → gates w !! k' = Some g → k = k';
  gate_fresh k g : gates w !! k = Some g → g < next_gate w;
  lease_fresh i l k g b : ls !! i = Some l → lease l = Some (k, g, b) → g < next_gate w;
  gate_count g : default 0 (leases w !! g) = holders ls g;
  gate_held i l k g : ls !! i = Some l → lease l = Some (k, g, Holding) → g ∈ locked w;
  gate_excl i j l l' k k' g : ls !! i = Some l → ls !! j = Some l' →
    lease l = Some (k, g, Holding) → lease l' = Some (k', g, Holding) → i = j;
}.

(** A lookup in an updated list: the updated place or another one. *)
Lemma insert_inv {A} (ls : list A) i x j y : <[i := x]> ls !! j = Some y → (i = j ∧ y = x) ∨ (i ≠ j ∧ ls !! j = Some y).
Proof.
  intros Hj. destruct (decide (i = j)) as [->|]; [left|right]; [|by rewrite list_lookup_insert_ne in Hj].
  split; [done|]. apply list_lookup_insert_Some in Hj. naive_solver.
Qed.

Lemma default_insert (c : gmap nat nat) g g' n :
  default 0 (<[g := n]> c !! g') = if decide (g = g') then n else default 0 (c !! g').
Proof. case_decide as E; [subst; by rewrite lookup_insert_eq|by rewrite lookup_insert_ne]. Qed.

Section steps.
Context (w : World) (ls : list Local) (i : nat) (l : Local).
Hypothesis (Hi : ls !! i = Some l).
Hypothesis (J : gates_ok w ls).

(** Nothing about gates changed. *)
Lemma gates_same w' l' : gates w' = gates w → leases w' = leases w → locked w' = locked w → next_gate w' = next_gate w →
  lease l' = lease l → gates_ok w' (<[i := l']> ls).
Proof.
  intros E1 E2 E3 E4 El. destruct J as [J1 J2 J3 J3' J4 J5 J6].
  assert (∀ j x, <[i := l']> ls !! j = Some x → ∃ y, ls !! j = Some y ∧ lease x = lease y) as Hls.
  { intros j x [[<- ->]|[_ Hj]]%insert_inv; eauto. }
  split; rewrite ?E1, ?E2, ?E3, ?E4.
  - intros j x k g b (y & Hy & ->)%Hls. by eapply J1.
  - done.
  - done.
  - intros j x k g b (y & Hy & ->)%Hls. by eapply J3'.
  - intros g. pose proof (holders_insert ls i l l' g Hi) as Hc. unfold holds_gate in Hc. rewrite El in Hc. rewrite J4. lia.
  - intros j x k g (y & Hy & ->)%Hls. by eapply J5.
  - intros j j' x x' k k' g (y & Hy & ->)%Hls (y' & Hy' & ->)%Hls. by eapply J6.
Qed.

(** A new lease on [g], which is or becomes the gate of [key]. *)
Lemma gates_lease key : lease l = None →
  gates_ok (take_lease key w).2 (<[i := set_lease (Some (key, (take_lease key w).1, Waiting)) l]> ls).
Proof.
  intros Hl. destruct J as [J1 J2 J3 J3' J4 J5 J6].
  assert (∀ g g', holders (<[i := set_lease (Some (key, g, Waiting)) l]> ls) g' = holders ls g' + if decide (g = g') then 1 else 0) as Hc.
  { intros g g'. pose proof (holders_insert ls i l (set_lease (Some (key, g, Waiting)) l) g' Hi) as Hc.
    rewrite (holds_gate_none g' l Hl), holds_gate_set in Hc. destruct (bool_decide_reflect (g = g')); case_decide; done || lia. }
  unfold take_lease. destruct (gates w !! key) as [g0|] eqn:Hg0; cbn [fst snd].
  - split; cbn [gates leases locked next_gate set_leases].
    + intros j x k g b [[<- ->]|[_ Hj]]%insert_inv Hx; [by injection Hx as <- <- <-|by eapply J1].
    + done.
    + done.
    + intros j x k g b [[<- ->]|[_ Hj]]%insert_inv Hx; [injection Hx as <- <- <-; by eapply J3|by eapply J3'].
    + intros g. rewrite Hc, default_insert, !J4. case_decide; subst; lia.
    + intros j x k g [[<- ->]|[_ Hj]]%insert_inv Hx; [done|by eapply J5].
    + intros j j' x x' k k' g [[<- ->]|[_ Hj]]%insert_inv [[<- ->]|[_ Hj']]%insert_inv Hx Hx'; try done. by eapply J6.
  - set (g0 := next_gate w).
    assert (holders ls g0 = 0) as H0.
    { destruct (decide (0 < holders ls g0)) as [(j & x & Hj & (k & b & Hx)%holds_gate_spec)%counted_holder|]; [|lia].
      pose proof (J3' _ _ _ _ _ Hj Hx). unfold g0 in *. lia. }
    split; cbn [gates leases locked next_gate].
    + intros j x k g b [[<- ->]|[_ Hj]]%insert_inv Hx Hb; [injection Hx as <- <- <-; apply lookup_insert_eq|].
      rewrite lookup_insert_ne; [by eapply J1|]. intros <-. specialize (J1 _ _ _ _ _ Hj Hx Hb). congruence.
    + intros k k' g. rewrite !lookup_insert_Some. intros [[<- Hg]|[_ Hg]] [[<- Hg']|[_ Hg']]; [done|..|by eapply J2].
      * apply J3 in Hg'. unfold g0 in *. lia.
      * apply J3 in Hg. unfold g0 in *. lia.
    + intros k g [[<- <-]|[_ Hg%J3]]%lookup_insert_Some; unfold g0; lia.
    + intros j x k g b [[<- ->]|[_ Hj]]%insert_inv Hx; [injection Hx as <- <- <-; unfold g0; lia|].
      pose proof (J3' _ _ _ _ _ Hj Hx). lia.
    + intros g. rewrite Hc, default_insert, J4. case_decide; subst; lia.
    + intros j x k g [[<- ->]|[_ Hj]]%insert_inv Hx; [done|by eapply J5].
    + intros j j' x x' k k' g [[<- ->]|[_ Hj]]%insert_inv [[<- ->]|[_ Hj']]%insert_inv Hx Hx'; try done. by eapply J6.
Qed.

(** The state of a lease changes; the leases stay. *)
Lemma gates_guard w' l' k g0 b b' : lease l = Some (k, g0, b) → lease l' = Some (k, g0, b') → b ≠ Dropping →
  (gates w' = gates w ∨ b' = Dropping ∧ gates w' = delete k (gates w) ∧ holders ls g0 = 1) →
  leases w' = leases w → next_gate w' = next_gate w →
  (∀ j x k g, <[i := l']> ls !! j = Some x → lease x = Some (k, g, Holding) → g ∈ locked w') →
  (b' = Holding → ∀ j x k', ls !! j = Some x → lease x = Some (k', g0, Holding) → i = j) →
  gates_ok w' (<[i := l']> ls).
Proof.
  intros Hl Hl' Hb E1 E2 E4 Hheld Hexcl. destruct J as [J1 J2 J3 J3' J4 J5 J6].
  pose proof (J1 _ _ _ _ _ Hi Hl Hb) as Hg0.
  assert (∀ k g, gates w' !! k = Some g → gates w !! k = Some g) as Hsub.
  { intros k' g. destruct E1 as [->|(_ & -> & _)]; [done|]. by intros [_ ?]%lookup_delete_Some. }
  split; rewrite ?E2, ?E4; [| | | | |done|].
  - intros j x k' g b1 [[<- ->]|[Hne Hj]]%insert_inv Hx Hb1.
    + rewrite Hl' in Hx. simplify_eq. destruct E1 as [->|(? & _)]; [by eapply J1|done].
    + destruct E1 as [->|(-> & -> & H1)]; [by eapply J1|]. pose proof (J1 _ _ _ _ _ Hj Hx Hb1) as Hg.
      rewrite lookup_delete_ne; [done|]. intros <-. rewrite Hg0 in Hg. injection Hg as <-.
      pose proof (two_holders ls i j l x g0 Hi Hj Hne (holds_gate_lease _ _ _ _ Hl) (holds_gate_lease _ _ _ _ Hx)). lia.
  - intros k1 k2 g H1 H2. by eapply J2; apply Hsub.
  - intros k' g Hg. by eapply J3, Hsub.
  - intros j x k' g b1 [[<- ->]|[_ Hj]]%insert_inv Hx; [|by eapply J3']. rewrite Hl' in Hx. simplify_eq. by eapply J3'.
  - intros g. pose proof (holders_insert ls i l l' g Hi) as Hc. unfold holds_gate in Hc. rewrite Hl, Hl' in Hc.
    rewrite J4. lia.
  - intros j j' x x' k1 k2 g [[<- ->]|[Hne Hj]]%insert_inv [[<- ->]|[Hne' Hj']]%insert_inv Hx Hx'; [done|..].
    + rewrite Hl' in Hx. simplify_eq. by eapply Hexcl.
    + rewrite Hl' in Hx'. simplify_eq. symmetry. by eapply Hexcl.
    + by eapply J6.
Qed.

Lemma gates_lock k g : lease l = Some (k, g, Waiting) → g ∉ locked w →
  gates_ok (set_locked (union {[g]}) w) (<[i := set_lease (Some (k, g, Holding)) l]> ls).
Proof.
  intros Hl Hg. eapply gates_guard; [done|done|done|by left|done..| |].
  - intros j x k' g' [[<- ->]|[_ Hj]]%insert_inv Hx; cbn; [by injection Hx as <- <-; set_solver|].
    apply elem_of_union_r. by eapply (gate_held w ls J).
  - intros _ j x k' Hj Hx. destruct Hg. by eapply (gate_held w ls J).
Qed.

Lemma gates_unlock k g : lease l = Some (k, g, Holding) →
  gates_ok (set_locked (λ s, s ∖ {[g]}) w) (<[i := set_lease (Some (k, g, Waiting)) l]> ls).
Proof.
  intros Hl. eapply gates_guard; [done|done|done|by left|done..| |done].
  intros j x k' g' [[<- ->]|[Hne Hj]]%insert_inv Hx; cbn; [done|].
  apply elem_of_difference. split; [by eapply (gate_held w ls J)|]. rewrite elem_of_singleton. intros ->.
  destruct Hne. by eapply (gate_excl w ls J).
Qed.

(** [GateLease::drop] removes the gate only when the dropped lease is the only one. *)
Lemma gates_drop k g : lease l = Some (k, g, Waiting) →
  gates_ok (drop_lease k g w) (<[i := set_lease (Some (k, g, Dropping)) l]> ls).
Proof.
  intros Hl. assert (gates w !! k = Some g) as Hg by (by eapply (gate_of w ls J)).
  assert (∀ w', locked w' = locked w → ∀ j x k' g', <[i := set_lease (Some (k, g, Dropping)) l]> ls !! j = Some x →
    lease x = Some (k', g', Holding) → g' ∈ locked w') as Hheld.
  { intros w' -> j x k' g' [[<- ->]|[_ Hj]]%insert_inv Hx; [done|]. by eapply (gate_held w ls J). }
  unfold drop_lease, strong_count. rewrite (gate_count w ls J), bool_decide_true by done.
  destruct (Nat.eqb_spec (holders ls g + 1) 2) as [E|_].
  - eapply gates_guard; [done|done|done|right; split; [done|]; split; [done|]; lia|done|done| |done].
    by apply Hheld.
  - eapply gates_guard; [done|done|done|by left|done..| |done]. by apply Hheld.
Qed.

Lemma gates_release k g : lease l = Some (k, g, Dropping) → gates_ok (drop_gate g w) (<[i := set_lease None l]> ls).
Proof.
  intros Hl. destruct J as [J1 J2 J3 J3' J4 J5 J6].
  assert (∀ j x g', <[i := set_lease None l]> ls !! j = Some x → lease x = Some g' → ls !! j = Some x) as Hls.
  { intros j x g' [[<- ->]|[_ Hj]]%insert_inv Hx; done. }
  split; cbn [gates leases locked next_gate drop_gate set_leases]; [|done|done| | | |].
  - intros j x k' g' b Hj Hx. eapply J1; [by eapply Hls|done].
  - intros j x k' g' b Hj Hx. eapply J3'; [by eapply Hls|done].
  - intros g'. pose proof (holders_insert ls i l (set_lease None l) g' Hi) as Hc.
    rewrite (holds_gate_none g' (set_lease None l)) in Hc by done. unfold holds_gate in Hc. rewrite Hl in Hc.
    rewrite default_insert, !J4. destruct (bool_decide_reflect (g = g')); case_decide; subst; done || lia.
  - intros j x k' g' Hj Hx. eapply J5; [by eapply Hls|done].
  - intros j j' x x' k1 k2 g' Hj Hj' Hx Hx'. eapply J6; [by eapply Hls|by eapply Hls|done|done].
Qed.
End steps.

Lemma gates_step A (e : snap A) w ls i l a w' l' : ls !! i = Some l → discipline A e l → handle A e w l a w' l' →
  gates_ok w ls → gates_ok w' (<[i := l']> ls).
Proof.
  intros Hi Hpre Hh J. destruct e; cbn in Hpre, Hh; try (destruct Hh as [-> ->]; by eapply gates_same; [exact Hi|exact J|..]).
  - destruct Hh as [-> ->]. eapply gates_same; [exact Hi|exact J|done..|by destruct a].
  - destruct Hh as [-> ->]. eapply gates_same; [exact Hi|exact J|done..|by destruct a].
  - destruct Hh as (-> & -> & _). by eapply gates_same; [exact Hi|exact J|..].
  - destruct Hh as (-> & -> & _). by eapply gates_same; [exact Hi|exact J|..].
  - destruct Hh as [Ht ->]. assert (a = (take_lease key w).1) as -> by (by rewrite <- Ht).
    assert (w' = (take_lease key w).2) as -> by (by rewrite <- Ht). by apply gates_lease.
  - destruct Hh as (Hg & -> & ->), Hpre as [k Hl]. unfold set_state. rewrite Hl. by apply gates_lock.
  - destruct Hh as [-> ->], Hpre as [k Hl]. unfold set_state. rewrite Hl. by apply gates_unlock.
  - destruct Hh as [-> ->]. unfold set_state. rewrite Hpre. by apply gates_drop.
  - destruct Hh as [-> ->], Hpre as [k Hl]. by eapply gates_release.
Qed.

Lemma gates_spawn w ls l : lease l = None → gates_ok w ls → gates_ok w (ls ++ [l]).
Proof.
  intros Hl J. assert (∀ j x g, (ls ++ [l]) !! j = Some x → lease x = Some g → ls !! j = Some x) as Hls.
  { intros j x g [Hj|[_ Hj]]%lookup_app_Some Hx; [done|]. apply list_lookup_singleton_Some in Hj as [_ <-]. congruence. }
  destruct J as [J1 J2 J3 J3' J4 J5 J6]. split; [|done|done| | | |].
  - intros j x k g b Hj Hx. eapply J1; [by eapply Hls|done].
  - intros j x k g b Hj Hx. eapply J3'; [by eapply Hls|done].
  - intros g. rewrite holders_app, holders_cons, holders_nil, (holds_gate_none _ _ Hl), !Nat.add_0_r. by apply J4.
  - intros j x k g Hj Hx. eapply J5; [by eapply Hls|done].
  - intros j j' x x' k k' g Hj Hj' Hx Hx'. eapply J6; [by eapply Hls|by eapply Hls|done|done].
Qed.

Section process.
Context `{IpcStream} `{RecordStream} `{TypeEquality} `{SnapshotHash} `{External} `{CatalogTypes} `{!SnapshotHashLaws}.
Context (hex128 : Z → string) (p : Policy).

(** C22: However the calls of a process interleave, two calls are
    never both past the gate of one key, although a gate is made by whoever comes
    first and removed by whoever sees itself the last to leave; the calls that wait
    for a key, or hold it, all use the gate the map has for it, so a newcomer joins
    them; and the references counted for a gate are those of the calls that still
    have one. ([gate_left_behind] shows that a gate may outlive its calls.) *)
Theorem publication_gates y :
  rtc (pool_step handle (starts hex128 p)) fresh_process y →
  (∀ i j q q' l l' k g g', threads y !! i = Some (q, l) → threads y !! j = Some (q', l') →
     lease l = Some (k, g, Holding) → lease l' = Some (k, g', Holding) → i = j) ∧
  (∀ i q l k g b, threads y !! i = Some (q, l) → lease l = Some (k, g, b) → b ≠ Dropping →
     gates (shared y) !! k = Some g) ∧
  (∀ g, default 0 (leases (shared y) !! g) = holders (threads y).*2 g).
Proof.
  intros Hy. assert (gates_ok (shared y) (threads y).*2) as J.
  { eapply (pool_invariant handle discipline (cache_ok p)); [by apply run_safe|by apply gates_step| |exact Hy| |].
    - intros q l w ls (op & [= -> ->]) HJ. by apply gates_spawn.
    - apply (process_safe hex128 p), rtc_refl.
    - split; cbn; try done; intros *; by rewrite lookup_empty. }
  assert (∀ i q l, threads y !! i = Some (q, l) → (threads y).*2 !! i = Some l) as Hl2.
  { intros i q l Hi. by rewrite list_lookup_fmap, Hi. }
  split; [|split].
  - intros i j q q' l l' k g g' Hi%Hl2 Hj%Hl2 Hl Hl'.
    pose proof (gate_of _ _ J _ _ _ _ _ Hi Hl) as Hg. rewrite (gate_of _ _ J _ _ _ _ _ Hj Hl') in Hg by done.
    injection Hg as ->; [|done]. by eapply (gate_excl _ _ J).
  - intros i q l k g b Hi%Hl2 Hl Hb. by eapply (gate_of _ _ J).
  - apply (gate_count _ _ J).
Qed.
End process.

(** * A process that publishes one snapshot

    It runs the programs of [Publication] and shows that what the theorems about
    them assume can hold. *)
Open Scope Z_scope.

Definition one_field : Schema := [mkField "result" (Flat FBinary) false []].
Definition one_cell (bs : bytes) : RecordBatch := mkRecordBatch one_field ∅ [binary_singleton bs] 1.
Definition cell_of (b : RecordBatch) : bytes :=
  match columns b with a :: _ => as_bytes (default "" (vals a !! 0%nat ≫= as_str)) | [] => [] end.

(** Streams of one batch of one cell, which are the bytes of the cell. *)
#[local] Instance cell_stream : IpcStream := {|
  write_stream _ _ l := match l with [b] => Ok (cell_of b) | _ => Err (AtWrite "unsupported") end;
  open_stream bs := Ok (mkReader one_field ∅ (Ok (Some (one_cell bs))));
|}.
#[local] Instance cell_records : RecordStream := {|
  open_records _ bs := Ok (mkRecords [(one_cell bs, ∅)] (Ok (length bs)));
|}.
#[local] Instance cell_types : TypeEquality.
Proof. refine {| equals_datatype a b := bool_decide (a = b) |}. intros t. by apply bool_decide_true. Defined.

Definition response_parts (r : CatalogContentsResponse) : nat * option string * bool * list (option bytes) :=
  (Z.to_nat (catalog_version r), etag r, not_modified r, streams r).
Definition response_of (x : nat * option string * bool * list (option bytes)) : CatalogContentsResponse :=
  let '(v, e, n, s) := x in mkResponse (Z.of_nat v) e n s.
#[local] Instance response_vgi : VgiArrow CatalogContentsResponse := {|
  describe_name := "response";
  build_singleton r := Ok (one_cell (ser (response_parts r)));
  read_row b _ := match de (T := nat * option string * bool * list (option bytes)) (cell_of b) with
                  | Some (x, []) => Ok (response_of x)
                  | _ => type_error "malformed response"
                  end;
|}.
#[local] Instance unit_vgi : VgiArrow () := {|
  describe_name := "row"; build_singleton _ := type_error "no rows"; read_row _ _ := type_error "no rows";
|}.
#[local] Instance unit_records : VgiRecords () := {| flat_schema := []; build_rows _ := type_error "no rows" |}.
#[local] Instance unit_row : CatalogRow () := {| schema_path _ := [] |}.
#[local] Instance unit_kind : KindedRow () := {| row_kind _ := "" |}.
#[local] Instance response_vgi_records : VgiRecords CatalogContentsResponse := {|
  flat_schema := one_field; build_rows _ := type_error "no rows";
|}.
#[local] Instance unit_types : CatalogTypes := {|
  SchemaInfo := (); TableInfo := (); ViewInfo := (); FunctionInfo := (); MacroInfo := (); IndexInfo := ();
|}.

(** The parts of a key, listed. *)
Definition listed (k : KeyParts) : list string * Z :=
  ([kp_protocol k; kp_wire k; kp_contract k; kp_codec k; kp_namespace k; kp_revision k; kp_scope k; kp_profile k;
    kp_compression k], kp_version k).
Definition enc_Z (z : Z) : bytes := ser (z <? 0, Z.abs_nat z).
#[local] Instance plain_hash : SnapshotHash := {|
  hex := string_of_bytes;
  key_json k := ser (listed k).1 ++ enc_Z (listed k).2;
|}.
#[local] Instance plain_hash_laws : SnapshotHashLaws.
Proof.
  split.
  - intros a b Heq. apply (f_equal as_bytes) in Heq. cbn [hex plain_hash] in Heq. by rewrite !as_bytes_of_bytes in Heq.
  - intros a b Heq. cbn [key_json plain_hash] in Heq.
    pose proof (f_equal (de (T := list string)) Heq) as Hd. rewrite !de_ser in Hd.
    apply (inj Some), (inj2 pair) in Hd as [El Hz]. injection El as E1 E2 E3 E4 E5 E6 E7 E8 E9.
    pose proof (f_equal (de (T := bool * nat)) (f_equal (λ x, x ++ []) Hz)) as Hv. unfold enc_Z in Hv. rewrite !de_ser in Hv.
    apply (inj Some), (inj2 pair) in Hv as [Hv _]. apply (inj2 pair) in Hv as [Hs Hn]. cbn [listed snd] in Hs, Hn. assert (kp_version a = kp_version b) by lia. destruct a, b; cbn in *. by simplify_eq.
Qed.

(** The one snapshot there is, and its object. *)
Definition empty_snapshot : CatalogContentsResponse := mkResponse 7 (Some "e1") false (replicate 6 None).
Definition object_bytes : bytes := ser (response_parts empty_snapshot).
Definition object_digest : string := String.concat "" (replicate 64 "a").
#[local] Instance one_object : External := {|
  external_ref_new url d := Ok (mkExternalRef url d);
  pointer_batch _ := Ok ();
  publish_payload b _ := if bool_decide (cell_of b = object_bytes) then Ok (object_bytes, object_digest)
                         else value_error "unsupported";
  resolve_payload r _ pl :=
    if bool_decide (er_sha256 r = Some object_digest ∧ pl_bytes pl = object_bytes) then Ok (one_cell object_bytes)
    else value_error "digest mismatch";
  zstd_take _ _ := Err "unsupported";
|}.
#[local] Instance one_object_laws : ExternalLaws.
Proof.
  split; cbn; [by intros url d r [= <-]|].
  intros r r' n n' pl pl' b b' d. case_match; [|done]. intros [= <-]. case_match; [|done]. by intros [= <-].
Qed.

(** * A run *)

Definition example_policy : Policy :=
  mkPolicy "memory" false false 4096 4096 (S754_zero false) 2 NoCompression 4096 4096.
Definition example_request : SnapshotRequest := mkRequest [x01] [x02] 7.
Definition example_id : SnapshotIdentity := mkIdentity "ns" "rev1" None 7.
Definition example_hex (z : Z) : string := Z_to_string z.

(** One way the outside may answer. *)
Definition reply (A : Type) (e : snap A) (w : World) (l : Local) : option (A * World * Local) :=
  match e in snap A return option (A * World * Local) with
  | Identity => Some (Ok example_id, w, set_seen (Ok example_id) l)
  | Validator => Some (Ok None, w, l)
  | Build => Some (Ok empty_snapshot, w, set_built (Ok empty_snapshot) l)
  | Now => Some (S754_zero false, w, l)
  | Random => Some (5, w, l)
  | Lookup _ => Some (Ok None, w, l)
  | CommitIfAbsent m => Some (Ok m, log_commit m w, l)
  | Invalidate _ _ => Some (Ok false, w, l)
  | LocationOf _ => Some (Ok (mkLocation None None None true), w, l)
  | Renew _ => Some (Ok None, w, l)
  | Upload _ _ => Some (Ok "https://store/1", w, l)
  | Fetch _ _ => Some (Ok (mkPayload object_bytes NoCompression), w, l)
  | Cached key => Some (validated w !! key, w, l)
  | Forget key => Some (tt, set_validated (delete key) w, l)
  | ForgetIf key id => Some (tt, set_validated (forget_if key id) w, l)
  | Remember limit key m => Some (tt, set_validated (remember_manifest limit key m) w, l)
  | Lease key => let '(g, w') := take_lease key w in Some (g, w', set_lease (Some (key, g, Waiting)) l)
  | Lock g =>
      if bool_decide (g ∈ locked w) then None else Some (tt, set_locked (union {[g]}) w, set_state Holding l)
  | Unlock g => Some (tt, set_locked (λ s, s ∖ {[g]}) w, set_state Waiting l)
  | DropLease key g => Some (tt, drop_lease key g w, set_state Dropping l)
  | DropGate g => Some (tt, drop_gate g w, set_lease None l)
  end.

Lemma reply_handle A (e : snap A) w l a w' l' : reply A e w l = Some (a, w', l') → handle A e w l a w' l'.
Proof.
  destruct e; cbn; try (intros [= <- <- <-]; done).
  - intros [= <- <- <-]. split; [done|]. split; [done|]. intros _. exists m.
    split; [apply list_elem_of_here|]. split; [done|apply renewed_refl].
  - destruct (take_lease key w) as [g w1] eqn:E. by intros [= <- <- <-].
  - destruct (bool_decide_reflect (gate ∈ locked w)) as [|Hg]; [done|]. by intros [= <- <- <-].
Qed.

Abbreviation exec := (Threads.exec reply).
Abbreviation exec_n := (Threads.exec_n reply).

Lemma exec_process op r w l : exec (run example_hex example_policy op) (shared fresh_process) fresh_local = Some (r, w, l) →
  rtc (pool_step handle (starts example_hex example_policy)) fresh_process (mkPool w [(Ret r, l)]).
Proof.
  intros Hx. eapply rtc_l; [|exact (exec_steps handle reply reply_handle _ _ _ _ _ _ _ [] [] Hx)]. unfold fresh_process; cbn [shared].
  apply (step_spawn handle (starts example_hex example_policy) _ [] (run example_hex example_policy op, fresh_local)). by exists op.
Qed.

Definition example_run : option (answer * World * Local) :=
  exec (run example_hex example_policy (OServe example_request None)) (shared fresh_process) fresh_local.
Definition example_world : World := match example_run with Some (_, w, _) => w | None => shared fresh_process end.
Definition example_local : Local := match example_run with Some (_, _, l) => l | None => fresh_local end.
Definition example_ref : ExternalRef := mkExternalRef "https://store/1" (Some object_digest).

Lemma example_answers :
  match example_run with
  | Some (AServed _ None (Ok (Published r)), _, _) => bool_decide (er_url r = er_url example_ref ∧ er_sha256 r = er_sha256 example_ref)
  | _ => false
  end = true.
Proof. vm_compute. reflexivity. Qed.
Lemma run_tags_request req inm w l a w' l' :
  exec (run example_hex example_policy (OServe req inm)) w l = Some (a, w', l') → ∃ r, a = AServed req inm r.
Proof.
  cbn [run]. generalize (serve example_policy req example_hex inm). intros q. revert w l.
  induction q as [r|A e k IH]; cbn; intros w l; [intros [= <- <- <-]; eauto|].
  destruct (reply A e w l) as [[[b w1] l1]|]; [apply IH|done].
Qed.
Lemma example_publishes : example_run =
  Some (AServed example_request None (Ok (Published example_ref)), example_world, example_local).
Proof.
  pose proof example_answers as Ha. unfold example_world, example_local.
  destruct example_run as [[[a w] l]|] eqn:E; [|done]. destruct (run_tags_request _ _ _ _ _ _ _ E) as [r ->].
  destruct r as [[v|[url d]]|e]; [done| |done]. apply bool_decide_eq_true in Ha as [Hu Hd]. cbn in Hu, Hd. by subst.
Qed.

Lemma publications_sound_witness : ∃ y,
  rtc (pool_step handle (starts example_hex example_policy)) fresh_process y ∧
  threads y !! 0%nat = Some (Ret (AServed example_request None (Ok (Published example_ref))), example_local) ∧
  ∃ id m, seen example_local = Some id ∧ cache_key example_policy example_request id = Ok (mf_cache_key m) ∧
    reference m = Ok example_ref ∧
    ∀ n pl b, resolve_payload example_ref n pl = Ok b → ∃ resp, decode_envelope b = Ok resp ∧ catalog_version resp = 7.
Proof.
  exists (mkPool example_world [(Ret (AServed example_request None (Ok (Published example_ref))), example_local)]).
  assert (Hrun := exec_process _ _ _ _ example_publishes). split; [exact Hrun|]. split; [reflexivity|].
  destruct (publications_sound example_hex example_policy _ 0 example_local example_request None (Published example_ref) Hrun)
    as [_ Hd]. destruct (Hd eq_refl) as (id & m & H1 & H2 & H3 & H4). exists id, m.
  split; [exact H1|]. split; [exact H2|]. split; [exact H3|].
  intros n pl b Hb. destruct (H4 n pl b Hb) as (resp & H5 & H6 & _). exists resp. split; [exact H5|exact H6].
Defined.

(** Two calls at once: the first is past the gate, the second waits with a lease. *)
Definition call : prog snap answer := run example_hex example_policy (OServe example_request None).
Definition example_key : string := match cache_key example_policy example_request example_id with Ok k => k | Err _ => "" end.
Definition first_call : option (prog snap answer * World * Local) := exec_n 3 call (shared fresh_process) fresh_local.
Definition second_call : option (prog snap answer * World * Local) :=
  match first_call with Some (_, w, _) => exec_n 2 call w fresh_local | None => None end.
Definition two_calls : pool (E := snap) (S := World) (L := Local) answer :=
  match first_call, second_call with
  | Some (q, _, l), Some (q', w, l') => mkPool w [(q, l); (q', l')]
  | _, _ => fresh_process
  end.

Lemma two_calls_reachable : rtc (pool_step handle (starts example_hex example_policy)) fresh_process two_calls.
Proof.
  unfold two_calls. destruct first_call as [[[q w] l]|] eqn:E1; [|done].
  destruct second_call as [[[q' w'] l']|] eqn:E2; [|done]. unfold second_call in E2. rewrite E1 in E2.
  eapply rtc_l; [apply (step_spawn handle (starts example_hex example_policy) _ [] (call, fresh_local)); by exists (OServe example_request None)|].
  etrans; [exact (exec_n_steps handle reply reply_handle _ _ _ _ _ _ _ _ [] [] E1)|].
  eapply rtc_l; [apply (step_spawn handle (starts example_hex example_policy) _ [(q, l)] (call, fresh_local)); by exists (OServe example_request None)|].
  exact (exec_n_steps handle reply reply_handle _ _ _ _ _ _ _ _ [(q, l)] [] E2).
Qed.

Lemma publication_gates_witness :
  (snd <$> threads two_calls) !! 0%nat = Some (mkLocal (Some example_id) None (Some (example_key, 0%nat, Holding))) ∧
  (snd <$> threads two_calls) !! 1%nat = Some (mkLocal (Some example_id) None (Some (example_key, 0%nat, Waiting))) ∧
  ∀ j q l g, threads two_calls !! j = Some (q, l) → lease l = Some (example_key, g, Holding) → j = 0%nat.
Proof.
  assert ((snd <$> threads two_calls) !! 0%nat = Some (mkLocal (Some example_id) None (Some (example_key, 0%nat, Holding)))) as H0
    by (vm_compute; reflexivity).
  split; [exact H0|]. split; [vm_compute; reflexivity|]. intros j q l g Hj Hl.
  rewrite list_lookup_fmap in H0. destruct (threads two_calls !! 0%nat) as [[q0 l0]|] eqn:E0; [|discriminate H0].
  apply (inj Some) in H0. cbn [snd] in H0.
  destruct (publication_gates example_hex example_policy two_calls two_calls_reachable) as [Hex _].
  symmetry. apply (Hex 0%nat j q0 q l0 l example_key 0%nat g E0 Hj); [by rewrite H0|exact Hl].
Defined.

(** * A gate that outlives its calls *)

(** Threads take turns by their numbers. *)
Fixpoint run_turns (turns : list nat) (y : pool (E := snap) (S := World) (L := Local) answer) :
    option (pool (E := snap) (S := World) (L := Local) answer) :=
  match turns with
  | [] => Some y
  | i :: turns =>
      match threads y !! i with
      | Some (Vis e k, l) =>
          match reply _ e (shared y) l with
          | Some (a, w, l') => run_turns turns (mkPool w (<[i := (k a, l')]> (threads y)))
          | None => None
          end
      | _ => None
      end
  end.

Lemma run_turns_steps turns y y' : run_turns turns y = Some y' →
  rtc (pool_step handle (starts example_hex example_policy)) y y'.
Proof.
  induction turns as [|i turns IH] in y |- *; cbn [run_turns]; [by intros [= <-]|].
  destruct (threads y !! i) as [[[r|A e k] l]|] eqn:Ei; [done| |done].
  destruct (reply A e (shared y) l) as [[[a w] l']|] eqn:Er; [|done]. intros Hr.
  eapply rtc_l; [|by apply IH]. destruct y as [s ts]. eapply (step_thread handle); [exact Ei|].
  exists a. split; [by apply reply_handle|done].
Qed.

(** Two calls for one key: the second takes its lease while the first works, and
    each tests the count of references before the other has dropped its own. *)
Definition overlapping_drops : list nat :=
  (replicate 3 0 ++ replicate 2 1 ++ replicate 14 0 ++ replicate 6 1 ++ [0; 1; 0; 1])%nat.
Definition two_fresh : pool (E := snap) (S := World) (L := Local) answer :=
  mkPool (shared fresh_process) [(call, fresh_local); (call, fresh_local)].
Definition both_done : pool (E := snap) (S := World) (L := Local) answer :=
  default two_fresh (run_turns overlapping_drops two_fresh).

(** Two calls that drop their leases at once each see the other's reference, and
    neither removes the gate: both have returned, no reference to the gate is
    counted, and its entry stays in the map. *)
Theorem gate_left_behind :
  rtc (pool_step handle (starts example_hex example_policy)) fresh_process both_done ∧
  forallb (λ t, match t.1, lease t.2 with Ret _, None => true | _, _ => false end) (threads both_done) = true ∧
  gates (shared both_done) !! example_key = Some 0%nat ∧ leases (shared both_done) !! 0%nat = Some 0%nat.
Proof.
  split; [|split; [vm_compute; reflexivity|split; vm_compute; reflexivity]].
  assert (∀ ts, pool_step handle (starts example_hex example_policy) (mkPool (shared fresh_process) ts)
    (mkPool (shared fresh_process) (ts ++ [(call, fresh_local)]))) as Hspawn.
  { intros ts. apply (step_spawn handle). by exists (OServe example_request None). }
  eapply rtc_l; [apply (Hspawn [])|]. eapply rtc_l; [apply (Hspawn [(call, fresh_local)])|]. cbn [app].
  unfold both_done. fold two_fresh. destruct (run_turns overlapping_drops two_fresh) eqn:E; [by eapply run_turns_steps|done].
Qed.
