(* ===== verification/PublicationS3.v ===== *)
(** The S3 publication repository, [vgi/src/catalog_snapshot_s3.rs]: manifests as
    objects written on conditions, tombstones instead of deletions, renewal of
    signed URLs; over a store whose conditional writes are atomic and whose replies
    may be lost. *)
From S2P Require Import Prelude Codec Float64 SqlCompare Arrow CatalogContents Threads Publication.

Open Scope Z_scope.

(** * The client *)

Inductive S3WriteCondition := Unconditional | Absent | Matches (etag : string).

Inductive s3 : Type → Type :=
| GetObject (bucket key : string) (max_bytes : Z) : s3 (result (option (bytes * string)) RpcError)
| PutObject (bucket key : string) (b : bytes) (content_type : string) (content_encoding : option string)
    (condition : S3WriteCondition) : s3 (result bool RpcError)
| PresignGet (bucket key : string) (expires_in_seconds : Z) : s3 (result string RpcError)
| S3Now : s3 f64
| S3Random : s3 Z
(** The repository's own map of uploads to locations. *)
| InsertLocation (url : string) (loc : PublicationLocation) : s3 unit
| RemoveLocation (url : string) : s3 (option PublicationLocation).

Abbreviation S3M := (Call s3 RpcError).

(** * The repository *)

Record S3Repository := mkS3Repository {
  bucket : string;
  prefix : string;
  s3_profile : string;
  url_ttl_seconds : Z;
  retention_seconds : Z;
}.

(** [trim_end_matches('/')]. *)
Fixpoint trim_end_slashes (s : string) : string :=
  match s with
  | EmptyString => EmptyString
  | String c r =>
      match trim_end_slashes r with
      | EmptyString => if Ascii.eqb c "/"%char then EmptyString else String c EmptyString
      | t => String c t
      end
  end.

Definition s3_new (bucket prefix profile : string) (url_ttl_seconds retention_seconds : Z) : result S3Repository RpcError :=
  if bool_decide (bucket = "") || bool_decide (profile = "") || (url_ttl_seconds =? 0)
     || (retention_seconds <=? url_ttl_seconds)
  then value_error "S3 publication requires bucket/profile and retention exceeding URL lifetime"
  else Ok (mkS3Repository bucket (trim_end_slashes prefix +:+ "/") profile url_ttl_seconds retention_seconds).

(** [serde_json] of a manifest, and of an object: a tombstone, a manifest, or
    neither. *)
Inductive ManifestDoc := DocTombstone | DocManifest (m : Manifest) | DocBad (e : string).
Class ManifestJson := {
  manifest_to_json : Manifest → result bytes string;
  manifest_of_json : bytes → ManifestDoc;
}.
Definition tombstone : bytes := as_bytes "{" ++ [x22] ++ as_bytes "tombstone" ++ [x22] ++ as_bytes ":true}".

Definition MAX_MANIFEST : Z := 1024 * 1024.

Section repository.
Context `{ManifestJson} (hex128 : Z → string) (decode_all : bytes → result bytes string) (sha256_hex : bytes → string).
Context (r : S3Repository).

Definition manifest_key (key : string) : string := prefix r +:+ "manifests/" +:+ key +:+ ".json".

Definition load_doc (object : option (bytes * string)) : result (option Manifest * option string) RpcError :=
  match object with
  | None => Ok (None, None)
  | Some (b, etag) =>
      if MAX_MANIFEST <? Z.of_nat (length b) then value_error "catalog publication manifest exceeds size limit"
      else match manifest_of_json b with
           | DocBad e => value_error ("invalid catalog publication manifest: " +:+ e)
           | DocTombstone => Ok (None, Some etag)
           | DocManifest m => Ok (Some m, Some etag)
           end
  end.

Definition load (key : string) : S3M (option Manifest * option string) :=
  object ← ask (GetObject (bucket r) (manifest_key key) MAX_MANIFEST);
  lift (load_doc object).

Definition put_manifest (m : Manifest) (condition : S3WriteCondition) : S3M bool :=
  b ← lift (map_err ValueError (manifest_to_json m));
  ask (PutObject (bucket r) (manifest_key (mf_cache_key m)) b "application/json" None condition).

Definition upload (b : bytes) (compression : Compression) : S3M (string * string) :=
  id ← do_ S3Random;
  let object_id := prefix r +:+ "objects/" +:+ hex128 id +:+ ".arrow" in
  let encoding := match compression with NoCompression => None | Zstd _ => Some "zstd" end in
  written ← ask (PutObject (bucket r) object_id b "application/vnd.apache.arrow.stream" encoding Absent);
  if negb written then throw (RuntimeError "immutable catalog object name collision")
  else
    url ← ask (PresignGet (bucket r) object_id (url_ttl_seconds r));
    now ← do_ S3Now;
    _ ← do_ (InsertLocation url (mkLocation (Some object_id) (Some (f64_add now (f64_of_Z (url_ttl_seconds r))))
                                   (Some (f64_add now (f64_of_Z (retention_seconds r)))) false));
    raw ← lift (match compression with NoCompression => Ok b | Zstd _ => map_err ValueError (decode_all b) end);
    mret (url, sha256_hex raw).

Definition lookup (key : string) : S3M (option Manifest) := l ← load key; mret l.1.

(** The condition under which what was loaded is still there. *)
Definition unchanged_since (etag : option string) : S3WriteCondition :=
  match etag with Some e => Matches e | None => Absent end.

Fixpoint commit_loop (tries : nat) (m : Manifest) : S3M Manifest :=
  match tries with
  | O => throw (RuntimeError "catalog publication manifest contention")
  | S tries =>
      '(current, etag) ← load (mf_cache_key m);
      match current with
      | Some current => mret current
      | None =>
          written ← put_manifest m (unchanged_since etag);
          if written : bool then mret m else commit_loop tries m
      end
  end.
Definition commit_if_absent (m : Manifest) : S3M Manifest := commit_loop 8 m.

Definition s3_invalidate (key manifest_id : string) : S3M bool :=
  '(current, etag) ← load key;
  if negb (bool_decide (mf_manifest_id <$> current = Some manifest_id)) then mret false
  else ask (PutObject (bucket r) (manifest_key key) tombstone "application/json" None (unchanged_since etag)).

Definition location (reference : ExternalRef) : S3M PublicationLocation :=
  loc ← do_ (RemoveLocation (er_url reference));
  match loc with
  | Some loc => mret loc
  | None => throw (ValueError "reference was not uploaded by this repository")
  end.

Fixpoint renew_loop (tries : nat) (m : Manifest) : S3M (option Manifest) :=
  match tries with
  | O => throw (RuntimeError "catalog reference renewal contention")
  | S tries =>
      '(current, etag) ← load (mf_cache_key m);
      match current with
      | None => mret None
      | Some current =>
          if negb (bool_decide (mf_manifest_id current = mf_manifest_id m)) then mret (Some current)
          else
            match mf_object_id current, mf_retain_until current with
            | Some object_id, Some retain_until =>
                now ← do_ S3Now;
                let remaining := f64_sub retain_until now in
                if negb (is_finite remaining) || f64_le remaining (f64_of_Z 60) then mret None
                else
                  let lifetime := Z.min (url_ttl_seconds r) (f64_to_u64 remaining) in
                  url ← ask (PresignGet (bucket r) object_id lifetime);
                  now ← do_ S3Now;
                  let renewed := with_url current url (Some (f64_add now (f64_of_Z lifetime))) in
                  written ← put_manifest renewed (unchanged_since etag);
                  if written : bool then mret (Some renewed) else renew_loop tries m
            | _, _ => mret None
            end
      end
  end.
Definition renew (m : Manifest) : S3M (option Manifest) := renew_loop 8 m.
End repository.

(** * The store *)

(** Objects with their versions, and how many writes there were. *)
Record S3Store := mkS3Store { objects : gmap (string * string) (bytes * string); writes : nat }.

(** The version a write gets: S3's is a digest of the content, others count. *)
Class S3Versions := { etag_of : bytes → nat → string }.
Class S3VersionsLaws `{S3Versions} : Prop := {
  etag_content b n b' n' : etag_of b n = etag_of b' n' → b = b';
}.

Section store.
Context `{S3Versions}.

Definition condition_holds (s : S3Store) (k : string * string) (c : S3WriteCondition) : Prop :=
  match c with
  | Unconditional => True
  | Absent => objects s !! k = None
  | Matches e => snd <$> objects s !! k = Some e
  end.
Definition written (s : S3Store) (k : string * string) (b : bytes) : S3Store :=
  mkS3Store (<[k := (b, etag_of b (writes s))]> (objects s)) (S (writes s)).

(** A read sees the object; a write happens exactly when its condition holds; either
    may report an error, a write also after it happened. *)
Definition s3_handle {L} (A : Type) (e : s3 A) (s : S3Store) (l : L) : A → S3Store → L → Prop :=
  match e in s3 A return A → S3Store → L → Prop with
  | GetObject bk key max => λ a s' l', s' = s ∧ l' = l ∧
      match a with
      | Ok o => objects s !! (bk, key) = o ∧ (∀ b e, o = Some (b, e) → Z.of_nat (length b) ≤ max)
      | Err _ => True
      end
  | PutObject bk key b _ _ c => λ a s' l', l' = l ∧
      match a with
      | Ok true => condition_holds s (bk, key) c ∧ s' = written s (bk, key) b
      | Ok false => ¬ condition_holds s (bk, key) c ∧ s' = s
      | Err _ => s' = s ∨ condition_holds s (bk, key) c ∧ s' = written s (bk, key) b
      end
  | PresignGet _ _ _ | S3Now | S3Random | InsertLocation _ _ | RemoveLocation _ => λ _ s' l', s' = s ∧ l' = l
  end.
End store.
