(* ===== verification/PublicationS3Facts.v ===== *)
(** The S3 repository does what an atomic one does: however the calls of any number
    of processes interleave at the store, every operation that returned took effect
    at one moment, by the rules of a map from keys to manifests. *)
From S2P Require Import Prelude Codec Float64 SqlCompare Arrow CatalogContents Threads Publication PublicationS3.

Open Scope Z_scope.

(** * The atomic repository *)

(** What a key holds. *)
Inductive entry := NoManifest | HasManifest (m : Manifest) | Unreadable.
Definition directory : Type := string → entry.
#[export] Instance directory_equiv : Equiv directory := λ f g, ∀ k, f k = g k.
#[export] Instance directory_equivalence : Equivalence (≡@{directory}).
Proof. split; [by intros f k|by intros f g Hfg k|by intros f g h H1 H2 k; rewrite H1]. Qed.

(** Only [key] changed, to [e]. *)
Definition sets (key : string) (e : entry) (f g : directory) : Prop := g key = e ∧ ∀ k, k ≠ key → g k = f k.
#[export] Instance sets_proper key e : Proper ((≡) ==> (≡) ==> iff) (sets key e).
Proof.
  intros f f' Hf g g' Hg. unfold sets. rewrite (Hg key). split; intros [? Hk]; (split; [done|]); intros k Hne.
  - by rewrite <- (Hg k), <- (Hf k), Hk.
  - by rewrite (Hg k), (Hf k), Hk.
Qed.

Inductive repo_op := RLookup (key : string) | RCommit (m : Manifest) | RInvalidate (key id : string) | RRenew (m : Manifest)
| RUpload (b : bytes) (c : Compression).
Inductive repo_answer :=
| ALookup (r : result (option Manifest) RpcError)
| ACommit (r : result Manifest RpcError)
| AInvalidate (r : result bool RpcError)
| ARenew (r : result (option Manifest) RpcError)
| AUpload (r : result (string * string) RpcError).

Section spec.
Context `{ManifestJson}.

Definition entry_of (b : bytes) : entry :=
  if MAX_MANIFEST <? Z.of_nat (length b) then Unreadable
  else match manifest_of_json b with DocTombstone => NoManifest | DocManifest m => HasManifest m | DocBad _ => Unreadable end.

(** [key] now holds [m], as it reads back from JSON. *)
Definition stores (key : string) (m : Manifest) (f g : directory) : Prop :=
  ∃ b, manifest_to_json m = Ok b ∧ sets key (entry_of b) f g.

(** What an operation writes, and the answer that goes with it. *)
Definition effect (op : repo_op) (a : option repo_answer) (f g : directory) : Prop :=
  match op with
  | RCommit m => f (mf_cache_key m) = NoManifest ∧ stores (mf_cache_key m) m f g ∧
      match a with Some a => a = ACommit (Ok m) | None => True end
  | RInvalidate key id => (∃ m, f key = HasManifest m ∧ mf_manifest_id m = id) ∧ sets key (entry_of tombstone) f g ∧
      match a with Some a => a = AInvalidate (Ok true) | None => True end
  | RRenew m => ∃ c url t, f (mf_cache_key m) = HasManifest c ∧ mf_manifest_id c = mf_manifest_id m ∧
      stores (mf_cache_key m) (with_url c url (Some t)) f g ∧
      match a with Some a => a = ARenew (Ok (Some (with_url c url (Some t)))) | None => True end
  | RLookup _ | RUpload _ _ => False
  end.

(** What an operation answers without writing. *)
Definition observes (op : repo_op) (a : repo_answer) (f : directory) : Prop :=
  match op, a with
  | RLookup key, ALookup (Ok o) => f key = match o with Some m => HasManifest m | None => NoManifest end
  | RCommit m, ACommit (Ok w) => f (mf_cache_key m) = HasManifest w
  | RInvalidate key id, AInvalidate (Ok b) => b = false
  | RRenew m, ARenew (Ok None) => True
  | RRenew m, ARenew (Ok (Some w)) => f (mf_cache_key m) = HasManifest w ∧ mf_manifest_id w ≠ mf_manifest_id m
  | RUpload _ _, AUpload (Ok _) => True
  | _, _ => False
  end.

Definition failed (op : repo_op) (a : repo_answer) : Prop :=
  match op, a with
  | RLookup _, ALookup (Err _) | RCommit _, ACommit (Err _) | RInvalidate _ _, AInvalidate (Err _)
  | RRenew _, ARenew (Err _) | RUpload _ _, AUpload (Err _) => True
  | _, _ => False
  end.

(** One atomic operation: it observes, or writes, or fails with or without having
    written. *)
Definition spec (op : repo_op) (a : repo_answer) (f g : directory) : Prop :=
  (observes op a f ∧ g ≡ f) ∨ effect op (Some a) f g ∨ (failed op a ∧ (g ≡ f ∨ effect op None f g)).

#[export] Instance effect_proper op a : Proper ((≡) ==> (≡) ==> iff) (effect op a).
Proof.
  intros f f' Hf g g' Hg. destruct op; cbn; unfold stores; try done; rewrite ?(Hf _); setoid_rewrite Hg; setoid_rewrite Hf; try done;
    by setoid_rewrite (Hf _).
Qed.
End spec.

(** A manifest can always be written; JSON keeps everything but the times exact; a
    tombstone reads as one. *)
Definition same_but_times (a b : Manifest) : Prop :=
  mf_cache_key a = mf_cache_key b ∧ mf_manifest_id a = mf_manifest_id b ∧ mf_protocol_name a = mf_protocol_name b ∧
  mf_wire_revision a = mf_wire_revision b ∧ mf_contract_hash a = mf_contract_hash b ∧
  mf_codec_revision a = mf_codec_revision b ∧ mf_catalog_version a = mf_catalog_version b ∧ mf_etag a = mf_etag b ∧
  mf_sha256 a = mf_sha256 b ∧ mf_raw_size a = mf_raw_size b ∧ mf_stored_size a = mf_stored_size b ∧ mf_url a = mf_url b ∧
  mf_object_id a = mf_object_id b ∧ mf_stable a = mf_stable b ∧ mf_format_version a = mf_format_version b ∧
  mf_validator_revision a = mf_validator_revision b.
Class ManifestJsonLaws `{ManifestJson} : Prop := {
  json_writes m : ∃ b, manifest_to_json m = Ok b;
  json_reads m b : manifest_to_json m = Ok b → ∃ m', manifest_of_json b = DocManifest m' ∧ same_but_times m' m;
  tombstone_reads : manifest_of_json tombstone = DocTombstone;
}.

(** * The store, seen as a directory *)

Section refinement.
Context `{ManifestJsonLaws} `{S3VersionsLaws}.
Context (hex128 : Z → string) (decode_all : bytes → result bytes string) (sha256_hex : bytes → string).
Context (r : S3Repository).

Definition at_key (key : string) : string * string := (bucket r, manifest_key r key).
Definition abs (s : S3Store) : directory := λ key,
  match objects s !! at_key key with Some (b, _) => entry_of b | None => NoManifest end.

(** Versions come from contents, and a manifest lies at its own key. *)
Record store_ok (s : S3Store) : Prop := {
  so_etag k b e : objects s !! k = Some (b, e) → ∃ n, e = etag_of b n;
  so_key key m : abs s key = HasManifest m → mf_cache_key m = key;
}.

Lemma app_inj_l (a b c : string) : a +:+ c = b +:+ c → a = b.
Proof.
  revert b. induction a as [|x a IH]; intros [|y b] Heq; [done|..].
  - exfalso. apply (f_equal String.length) in Heq. rewrite !string_length_app in Heq. cbn in Heq. lia.
  - exfalso. apply (f_equal String.length) in Heq. rewrite !string_length_app in Heq. cbn in Heq. lia.
  - injection Heq as -> Heq. f_equal. by apply IH.
Qed.

#[local] Instance at_key_inj : Inj (=) (=) at_key.
Proof. intros a b [= Heq]. unfold manifest_key in Heq. apply (inj (String.append _)) in Heq. injection Heq as Heq. by eapply app_inj_l. Qed.
Lemma object_not_manifest x key : (bucket r, prefix r +:+ "objects/" +:+ x) ≠ at_key key.
Proof. intros [= Heq]. apply (inj (String.append _)) in Heq. done. Qed.

Lemma abs_written s key b : sets key (entry_of b) (abs s) (abs (written s (at_key key) b)).
Proof.
  unfold abs, written. cbn. split; [by rewrite lookup_insert_eq|]. intros k Hk.
  rewrite lookup_insert_ne; [done|]. intros Heq%(inj at_key). by destruct Hk.
Qed.
Lemma abs_elsewhere s k b : (∀ key, k ≠ at_key key) → abs (written s k b) ≡ abs s.
Proof. intros Hk key. unfold abs, written. cbn. rewrite lookup_insert_ne; [done|apply Hk]. Qed.

Lemma written_ok s key b : (∀ m, entry_of b = HasManifest m → mf_cache_key m = key) → store_ok s →
  store_ok (written s (at_key key) b).
Proof.
  intros Hb [He Hk]. split.
  - intros k b' e. unfold written. cbn. intros [[_ [= <- <-]]|[_ Hl]]%lookup_insert_Some; [by eexists|by eapply He].
  - intros key' m Hm. destruct (abs_written s key b) as [Hnew Hold]. destruct (decide (key' = key)) as [->|Hne].
    + rewrite Hnew in Hm. by apply Hb.
    + rewrite Hold in Hm by done. by apply Hk.
Qed.
Lemma written_elsewhere_ok s k b : (∀ key, k ≠ at_key key) → store_ok s → store_ok (written s k b).
Proof.
  intros Hne [He Hk]. split.
  - intros k' b' e. unfold written. cbn. intros [[_ [= <- <-]]|[_ Hl]]%lookup_insert_Some; [by eexists|by eapply He].
  - intros key m. rewrite (abs_elsewhere s k b Hne key). apply Hk.
Qed.

Lemma json_key m b m' : manifest_to_json m = Ok b → entry_of b = HasManifest m' → mf_cache_key m' = mf_cache_key m.
Proof.
  intros Hj. unfold entry_of. case_match; [done|]. destruct (json_reads _ _ Hj) as (m2 & -> & Hs). intros [= <-]. apply Hs.
Qed.
Lemma tombstone_entry : entry_of tombstone = NoManifest.
Proof. unfold entry_of. by rewrite tombstone_reads. Qed.

(** ** What a load tells *)

(** What was at [key] when it was loaded with this version. *)
Definition loaded (e : entry) (etag : option string) : Prop :=
  match etag with
  | None => e = NoManifest
  | Some t => ∃ b n, t = etag_of b n ∧ entry_of b = e
  end.
Definition entry_or_none (o : option Manifest) : entry := match o with Some m => HasManifest m | None => NoManifest end.

Lemma load_tells s key o current etag : store_ok s → objects s !! at_key key = o → load_doc o = Ok (current, etag) →
  abs s key = entry_or_none current ∧ loaded (entry_or_none current) etag.
Proof.
  intros [He _] Ho. unfold abs. rewrite Ho. unfold load_doc. destruct o as [[b t]|].
  - destruct (He _ _ _ Ho) as [n ->]. unfold loaded, entry_of. destruct (MAX_MANIFEST <? _) eqn:Hs; [done|].
    destruct (manifest_of_json b) eqn:Hb; intros [= <- <-]; cbn; (split; [done|]); exists b, n; by rewrite Hs, Hb.
  - by intros [= <- <-].
Qed.

(** A condition that holds means that nothing changed since. *)
Lemma condition_tells s key e etag : store_ok s → loaded e etag → condition_holds s (at_key key) (unchanged_since etag) →
  abs s key = e.
Proof.
  intros [He _] Hl Hc. unfold abs. destruct etag as [t|]; cbn in *; [|by rewrite Hc, Hl].
  destruct Hl as (b & n & -> & <-). destruct (objects s !! at_key key) as [[b' t']|] eqn:E; [|done].
  cbn in Hc. injection Hc as ->. destruct (He _ _ _ E) as [n' Heq]. by rewrite (etag_content _ _ _ _ Heq).
Qed.

(** ** Programs whose operation takes effect once *)

(** The operation has not taken effect and the directory is as it was, or it takes
    effect now, by the rules of the atomic one. *)
Definition advances (op : repo_op) (st st' : option repo_answer) (s s' : S3Store) : Prop :=
  (st' = st ∧ abs s' ≡ abs s) ∨ (st = None ∧ ∃ a, st' = Some a ∧ spec op a (abs s) (abs s')).

Fixpoint effects {R} (op : repo_op) (p : prog s3 R) (Q : option repo_answer → R → Prop) (st : option repo_answer) : Prop :=
  match p with
  | Ret x => Q st x
  | Vis e k => ∀ s a s' l, store_ok s → s3_handle _ e s op a s' l →
      l = op ∧ store_ok s' ∧ ∃ st', advances op st st' s s' ∧ effects op (k a) Q st'
  end.

Lemma effects_mono {R} op (p : prog s3 R) (Q Q' : option repo_answer → R → Prop) st :
  effects op p Q st → (∀ st x, Q st x → Q' st x) → effects op p Q' st.
Proof.
  revert st. induction p as [x|A e k IH]; cbn; intros st Hp HQ; [by apply HQ|]. intros s a s' l Hs Hh.
  destruct (Hp _ _ _ _ Hs Hh) as (-> & Hs' & st' & Ha & Hk). split_and!; [done|done|]. exists st'. split; [done|]. by apply IH.
Qed.
Lemma effects_bind {R R'} op (p : prog s3 R) (f : R → prog s3 R') Q st :
  effects op p (λ st x, effects op (f x) Q st) st → effects op (bind p f) Q st.
Proof.
  revert st. induction p as [x|A e k IH]; cbn; intros st Hp; [done|]. intros s a s' l Hs Hh.
  destruct (Hp _ _ _ _ Hs Hh) as (-> & Hs' & st' & Ha & Hk). split_and!; [done|done|]. exists st'. split; [done|]. by apply IH.
Qed.
Lemma effects_call_bind {A B} op (m : S3M A) (k : A → S3M B) Q st :
  effects op m (λ st x, match x with Ok a => effects op (k a) Q st | Err e => Q st (Err e) end) st → effects op (m ≫= k) Q st.
Proof. intros Hm. apply effects_bind. eapply effects_mono; [exact Hm|]. by intros st' [a|e]. Qed.

Lemma stays op st s s' : abs s' ≡ abs s → advances op st st s s'.
Proof. by left. Qed.
Lemma takes_effect op a s s' : spec op a (abs s) (abs s') → advances op None (Some a) s s'.
Proof. right. eauto. Qed.

(** Calls that do not touch the store. *)
Definition local_call {A} (e : s3 A) : Prop :=
  match e with PresignGet _ _ _ | S3Now | S3Random | InsertLocation _ _ | RemoveLocation _ => True | _ => False end.
Lemma local_handle {A} (e : s3 A) s (l : repo_op) a s' l' : local_call e → s3_handle A e s l a s' l' → s' = s ∧ l' = l.
Proof. by destruct e. Qed.
Lemma effects_local {R A} op (e : s3 A) (k : A → prog s3 R) Q st :
  local_call e → (∀ a, effects op (k a) Q st) → effects op (Vis e k) Q st.
Proof.
  intros He Hk s a s' l Hs Hh. destruct (local_handle _ _ _ _ _ _ He Hh) as [-> ->]. split_and!; [done|done|].
  exists st. split; [by apply stays|done].
Qed.

(** Such a call may be the moment of an operation that changes nothing. *)
Lemma effects_local_now {R A} op (e : s3 A) (k : A → prog s3 R) Q : local_call e →
  (∀ a, effects op (k a) Q None ∨ ∃ ans, (∀ f, spec op ans f f) ∧ effects op (k a) Q (Some ans)) →
  effects op (Vis e k) Q None.
Proof.
  intros He Hk s a s' l Hs Hh. destruct (local_handle _ _ _ _ _ _ He Hh) as [-> ->]. split_and!; [done|done|].
  destruct (Hk a) as [Ha|(ans & Hsp & Ha)]; [exists None|exists (Some ans)]; (split; [|done]); [by apply stays|].
  apply takes_effect, Hsp.
Qed.

Lemma effects_load op key (Q : option repo_answer → result (option Manifest * option string) RpcError → Prop) :
  (∀ s x, store_ok s →
     match x with Ok (c, t) => abs s key = entry_or_none c ∧ loaded (entry_or_none c) t | Err _ => True end →
     ∃ st', advances op None st' s s ∧ Q st' x) →
  effects op (load r key) Q None.
Proof.
  intros HQ s [o|e] s' l Hs (-> & -> & Ho); (split_and!; [done|done|]).
  - apply (HQ s (load_doc o) Hs). destruct (load_doc o) as [[c t]|] eqn:E; [|done]. destruct Ho as [Ho _].
    by eapply load_tells.
  - destruct (HQ s (Err e) Hs I) as (st' & ? & ?). by exists st'.
Qed.

(** A write on the condition that nothing changed since the load. *)
Lemma effects_put op key b e t ct (Q : option repo_answer → result bool RpcError → Prop) : loaded e t →
  (∀ m, entry_of b = HasManifest m → mf_cache_key m = key) →
  (∀ s s', abs s key = e → sets key (entry_of b) (abs s) (abs s') →
     (∃ st', advances op None st' s s' ∧ Q st' (Ok true)) ∧ ∀ x, ∃ st', advances op None st' s s' ∧ Q st' (Err x)) →
  (∀ s, (∃ st', advances op None st' s s ∧ Q st' (Ok false)) ∧ ∀ x, ∃ st', advances op None st' s s ∧ Q st' (Err x)) →
  effects op (ask (PutObject (bucket r) (manifest_key r key) b ct None (unchanged_since t))) Q None.
Proof.
  intros Hl Hb Hwrite Hkeep s a s' l Hs [-> Ha]. split; [done|]. fold (at_key key) in Ha.
  assert (∀ s', condition_holds s (at_key key) (unchanged_since t) ∧ s' = written s (at_key key) b →
    store_ok s' ∧ abs s key = e ∧ sets key (entry_of b) (abs s) (abs s')) as Hw.
  { intros s2 [Hc ->]. split_and!; [by apply written_ok|by eapply condition_tells|apply abs_written]. }
  destruct a as [[|]|x].
  - destruct (Hw _ Ha) as (? & He & Hset). split; [done|]. apply (Hwrite s s' He Hset).
  - destruct Ha as [_ ->]. split; [done|]. apply Hkeep.
  - destruct Ha as [->|Ha]; [split; [done|apply Hkeep]|].
    destruct (Hw _ Ha) as (? & He & Hset). split; [done|]. apply (Hwrite s s' He Hset).
Qed.

(** ** The operations *)

(** Failing without having written, observing, and writing. *)
Lemma spec_failed op a f : failed op a → spec op a f f.
Proof. intros Hf. right; right. by split; [|left]. Qed.
Lemma spec_observed op a f : observes op a f → spec op a f f.
Proof. intros Ho. by left. Qed.
Lemma spec_written op a f g : effect op (Some a) f g → spec op a f g.
Proof. intros He. right; by left. Qed.
Lemma spec_failed_late op a f g : failed op a → effect op None f g → spec op a f g.
Proof. intros Hf He. right; right. by split; [|right]. Qed.

Abbreviation returns W := (λ st x, st = Some (W x)).

Lemma lookup_effects key : effects (RLookup key) (lookup r key) (returns ALookup) None.
Proof.
  apply effects_call_bind, effects_load. intros s [[c t]|e] Hs Ht.
  - exists (Some (ALookup (Ok c))). split; [|done]. destruct Ht as [Ha _].
    apply takes_effect, spec_observed. by destruct c.
  - exists (Some (ALookup (Err e))). split; [|done]. by apply takes_effect, spec_failed.
Qed.

Lemma put_manifest_effects op m e t (Q : option repo_answer → result bool RpcError → Prop) : loaded e t →
  (∀ s x, ∃ st', advances op None st' s s ∧ Q st' (Err x)) → (∀ s, ∃ st', advances op None st' s s ∧ Q st' (Ok false)) →
  (∀ s s', abs s (mf_cache_key m) = e → stores (mf_cache_key m) m (abs s) (abs s') →
     (∃ st', advances op None st' s s' ∧ Q st' (Ok true)) ∧ ∀ x, ∃ st', advances op None st' s s' ∧ Q st' (Err x)) →
  effects op (put_manifest r m (unchanged_since t)) Q None.
Proof.
  intros Hl Herr Hfalse Hwrite. apply effects_call_bind. cbn [effects lift].
  destruct (json_writes m) as [b Hj]. rewrite Hj. cbn [map_err].
  apply (effects_put op (mf_cache_key m) b e t); [done|by intros m'; apply json_key| |].
  - intros s s' He Hset. apply Hwrite; [done|]. by exists b.
  - intros s. split; [apply Hfalse|intros x; apply Herr].
Qed.

(** The writing operations answer an error or a conflict without having written. *)
Ltac now_ ans := exists (Some ans); split; [apply takes_effect|done].

(** One try of a loop; [Hretry] is what a conflict leads to. *)
Lemma commit_try n m :
  (∀ s, ∃ st', advances (RCommit m) None st' s s ∧ effects (RCommit m) (commit_loop r n m) (returns ACommit) st') →
  effects (RCommit m) (commit_loop r (S n) m) (returns ACommit) None.
Proof.
  intros Hretry. cbn [commit_loop]. apply effects_call_bind, effects_load. intros s [[[c|] t]|e] Hs Ht.
  - destruct Ht as [Ha _]. now_ (ACommit (Ok c)). by apply spec_observed.
  - destruct Ht as [_ Hl]. exists None. split; [by apply stays|].
    apply effects_call_bind, (put_manifest_effects _ _ NoManifest); [done| |exact Hretry|].
    + intros s1 x. now_ (ACommit (Err x)). by apply spec_failed.
    + intros s1 s2 He Hst. split; [now_ (ACommit (Ok m)); by apply spec_written|].
      intros x. now_ (ACommit (Err x)). by apply spec_failed_late.
  - now_ (ACommit (Err e)). by apply spec_failed.
Qed.
Lemma commit_effects n m : effects (RCommit m) (commit_loop r (S n) m) (returns ACommit) None.
Proof.
  induction n as [|n IH]; apply commit_try; intros s.
  - now_ (ACommit (Err (RuntimeError "catalog publication manifest contention"))). by apply spec_failed.
  - exists None. split; [by apply stays|exact IH].
Qed.

Lemma invalidate_effects key id : effects (RInvalidate key id) (s3_invalidate r key id) (returns AInvalidate) None.
Proof.
  apply effects_call_bind, effects_load. intros s [[c t]|e] Hs Ht; [|now_ (AInvalidate (Err e)); by apply spec_failed].
  destruct (bool_decide_reflect (mf_manifest_id <$> c = Some id)) as [Hid|Hid]; cbn [negb].
  2: { now_ (AInvalidate (Ok false)). by apply spec_observed. }
  destruct c as [c|]; [|done]. injection Hid as Hid. destruct Ht as [Ha Hl].
  exists None. split; [by apply stays|]. apply (effects_put _ _ _ (HasManifest c)); [done|by rewrite tombstone_entry|..].
  - intros s1 s2 He Hset. assert (∀ a, a = None ∨ a = Some (AInvalidate (Ok true)) → effect (RInvalidate key id) a (abs s1) (abs s2)) as Heff.
    { intros a Hax. cbn. split_and!; [by exists c|done|]. by destruct Hax as [->| ->]. }
    split; [now_ (AInvalidate (Ok true)); apply spec_written, Heff; by right|].
    intros x. now_ (AInvalidate (Err x)). apply spec_failed_late; [done|]. apply Heff. by left.
  - intros s1. split; [now_ (AInvalidate (Ok false)); by apply spec_observed|].
    intros x. now_ (AInvalidate (Err x)). by apply spec_failed.
Qed.

Lemma renew_try n m :
  (∀ s, ∃ st', advances (RRenew m) None st' s s ∧ effects (RRenew m) (renew_loop r n m) (returns ARenew) st') →
  effects (RRenew m) (renew_loop r (S n) m) (returns ARenew) None.
Proof.
  intros Hretry. assert (∀ f, spec (RRenew m) (ARenew (Ok None)) f f) as Hnone by (intros f; by apply spec_observed).
  assert (∀ e f, spec (RRenew m) (ARenew (Err e)) f f) as Herr by (intros e f; by apply spec_failed).
  cbn [renew_loop]. apply effects_call_bind, effects_load.
  intros s [[[c|] t]|e] Hs Ht; [|now_ (ARenew (Ok None)); apply Hnone|now_ (ARenew (Err e)); apply Herr].
  destruct Ht as [Ha Hl]. pose proof (so_key _ Hs _ _ Ha) as Hkey.
  destruct (bool_decide_reflect (mf_manifest_id c = mf_manifest_id m)) as [Hid|Hid]; cbn [negb].
  2: { now_ (ARenew (Ok (Some c))). by apply spec_observed. }
  destruct (mf_object_id c) as [o|]; [|now_ (ARenew (Ok None)); apply Hnone].
  destruct (mf_retain_until c) as [until|]; [|now_ (ARenew (Ok None)); apply Hnone].
  exists None. split; [by apply stays|]. apply effects_call_bind, effects_local_now; [done|]. intros now. cbn [effects].
  case_match; [right; exists (ARenew (Ok None)); by split|left].
  apply effects_call_bind, effects_local_now; [done|].
  intros [url|x]; [left|right; exists (ARenew (Err x)); by split]. cbn [effects].
  apply effects_call_bind, effects_local; [done|]. intros now'. cbn [effects].
  apply effects_call_bind, (put_manifest_effects _ _ (HasManifest c)); [done| |exact Hretry|].
  - intros s1 x. now_ (ARenew (Err x)). apply Herr.
  - intros s1 s2 He Hst. cbn [mf_cache_key with_url] in He, Hst. rewrite Hkey in He, Hst. split.
    + eexists (Some (ARenew (Ok (Some _)))). split; [apply takes_effect, spec_written|done]. cbn. eauto 10.
    + intros x. now_ (ARenew (Err x)). apply spec_failed_late; [done|]. cbn. eauto 10.
Qed.
Lemma renew_effects n m : effects (RRenew m) (renew_loop r (S n) m) (returns ARenew) None.
Proof.
  induction n as [|n IH]; apply renew_try; intros s.
  - now_ (ARenew (Err (RuntimeError "catalog reference renewal contention"))). by apply spec_failed.
  - exists None. split; [by apply stays|exact IH].
Qed.

Lemma upload_effects b c :
  effects (RUpload b c) (upload hex128 decode_all sha256_hex r b c) (returns AUpload) None.
Proof.
  assert (∀ x f, spec (RUpload b c) (AUpload x) f f) as Hany.
  { intros [x|e] f; [by apply spec_observed|by apply spec_failed]. }
  unfold upload. apply effects_call_bind, effects_local; [done|]. intros id. cbn [effects].
  set (k := prefix r +:+ _). assert (∀ key, (bucket r, k) ≠ at_key key) as Hk by (intros key; apply object_not_manifest).
  apply effects_call_bind. intros s a s' l Hs [-> Ha].
  assert (store_ok s' ∧ abs s' ≡ abs s) as [Hs' Habs].
  { assert (s' = s ∨ s' = written s (bucket r, k) b) as Hor by (destruct a as [[|]|]; naive_solver).
    destruct Hor as [E|E]; rewrite E; [done|]. split; [by apply written_elsewhere_ok|by apply abs_elsewhere]. }
  split_and!; [done|done|].
  assert (∀ x, advances (RUpload b c) None (Some (AUpload x)) s s') as Hnow.
  { intros x. apply takes_effect. destruct x as [x|e]; [by left|]. right; right. by split; [|left]. }
  destruct a as [[|]|e]; cbn [negb effects].
  2: { exists (Some (AUpload (Err (RuntimeError "immutable catalog object name collision")))). by split. }
  2: { exists (Some (AUpload (Err e))). by split. }
  exists None. split; [by apply stays|]. apply effects_call_bind, effects_local_now; [done|].
  intros [url|e]; [left|right; exists (AUpload (Err e)); by split]. cbn [effects].
  apply effects_call_bind, effects_local; [done|]. intros now. cbn [effects].
  apply effects_call_bind, effects_local_now; [done|]. intros []. right. cbn [effects].
  set (raw := match c with NoCompression => _ | Zstd _ => _ end).
  exists (AUpload (let? x := raw in Ok (url, sha256_hex x))). split; [by apply Hany|].
  apply effects_call_bind. cbn [effects lift]. by destruct raw.
Qed.

(** * Any number of callers *)

Definition run_repo (op : repo_op) : prog s3 repo_answer :=
  match op with
  | RLookup key => bind (lookup r key) (λ x, Ret (ALookup x))
  | RCommit m => bind (commit_if_absent r m) (λ x, Ret (ACommit x))
  | RInvalidate key id => bind (s3_invalidate r key id) (λ x, Ret (AInvalidate x))
  | RRenew m => bind (renew r m) (λ x, Ret (ARenew x))
  | RUpload b c => bind (upload hex128 decode_all sha256_hex r b c) (λ x, Ret (AUpload x))
  end.

Lemma run_repo_effects op : effects op (run_repo op) (λ st a, st = Some a) None.
Proof.
  destruct op; apply effects_bind; [apply lookup_effects|apply commit_effects|apply invalidate_effects|apply renew_effects|
    apply upload_effects].
Qed.

(** The same callers over the atomic repository: each operation is one step. *)
Definition spec_state : Type := directory * list (repo_op * option repo_answer).
Inductive spec_step : spec_state → spec_state → Prop :=
| spec_call f ts i op a g : ts !! i = Some (op, None) → spec op a f g → spec_step (f, ts) (g, <[i := (op, Some a)]> ts)
| spec_spawn f ts op : spec_step (f, ts) (f, ts ++ [(op, None)]).

Definition s3_starts (t : prog s3 repo_answer * repo_op) : Prop := t.1 = run_repo t.2.

(** A store among its callers, and the atomic repository among its. *)
Record matches (x : pool (E := s3) (S := S3Store) (L := repo_op) repo_answer) (y : spec_state) : Prop := {
  ma_ok : store_ok (shared x);
  ma_abs : y.1 ≡ abs (shared x);
  ma_length : length y.2 = length (threads x);
  ma_threads i p op : threads x !! i = Some (p, op) →
    ∃ st, y.2 !! i = Some (op, st) ∧ effects op p (λ st a, st = Some a) st;
}.

#[local] Instance spec_proper op a : Proper ((≡) ==> (≡) ==> iff) (spec op a).
Proof.
  intros f f' Hf g g' Hg. unfold spec.
  assert (∀ x, effect op x f g ↔ effect op x f' g') as He by (intros x; by apply effect_proper).
  assert (g ≡ f ↔ g' ≡ f') as Hs by (split; intros Heq k; [by rewrite <- (Hg k), <- (Hf k)|by rewrite (Hg k), (Hf k)]).
  assert (observes op a f ↔ observes op a f') as Ho.
  { destruct op, a as [[[]|]|[]|[]|[[]|]|[]]; try done; cbn; by rewrite (Hf _). }
  by rewrite Ho, Hs, (He (Some a)), (He None).
Qed.

Lemma matches_step x x' y : matches x y → pool_step s3_handle s3_starts x x' → ∃ y', rtc spec_step y y' ∧ matches x' y'.
Proof.
  intros [Hok Habs Hlen Hth] Hstep. destruct y as [f ats], Hstep as [s ts i p op p' op' s' Hi Ht|s ts [p op] Hstart]; cbn in *.
  - destruct (Hth _ _ _ Hi) as (st & Hat & Heff). destruct p as [a|A e k]; [done|]. destruct Ht as (a & Hh & ->).
    destruct (Heff _ _ _ _ Hok Hh) as (-> & Hok' & st' & Hadv & Heff').
    assert (∀ g, g ≡ abs s' → matches (mkPool s' (<[i := (k a, op)]> ts)) (g, <[i := (op, st')]> ats)) as Hm.
    { intros g Hg. split; cbn; [done|done|by rewrite !length_insert|]. intros j p2 op2 Hj.
      destruct (decide (i = j)) as [->|Hne].
      - rewrite list_lookup_insert_eq in Hj by (by eapply lookup_lt_Some). injection Hj as <- <-.
        rewrite list_lookup_insert_eq by (by eapply lookup_lt_Some). eauto.
      - rewrite list_lookup_insert_ne in Hj by done. rewrite list_lookup_insert_ne by done. by apply Hth. }
    destruct Hadv as [[-> Hsame]|(-> & ans & -> & Hspec)].
    + exists (f, ats). split; [done|]. specialize (Hm f). rewrite (list_insert_id ats i (op, st)) in Hm by done. apply Hm. intros k'. by rewrite (Habs k'), (Hsame k').
    + exists (abs s', <[i := (op, Some ans)]> ats). split; [|by apply Hm]. apply rtc_once. apply spec_call; [done|].
      eapply spec_proper; [exact Habs|done|exact Hspec].
  - exists (f, ats ++ [(op, None)]). split; [apply rtc_once, spec_spawn|]. split; cbn; [done|done| |].
    + rewrite !length_app. cbn. lia.
    + intros j p2 op2 [Hj|[Hge Hj]]%lookup_app_Some.
      * destruct (Hth _ _ _ Hj) as (st & Hat & Heff). exists st. split; [by apply lookup_app_l_Some|done].
      * apply list_lookup_singleton_Some in Hj as [Hz [= <- <-]]. exists None.
        rewrite lookup_app_r, Hlen, Hz by lia. split; [done|]. rewrite Hstart. apply run_repo_effects.
Qed.

(** C15: The S3 repository is an atomic one.  Let any number of
    callers, in any number of processes, look up, commit, invalidate, renew and
    upload at once, with their reads and conditional writes interleaved in any
    order, replies lost after the write, and conflicts retried.  Then there is an
    order of atomic operations, one per operation that returned and each between
    its first and its last call to the store, that gives every operation the
    answer it returned and ends in the manifests the store holds: a commit returns
    the manifest already there, or it was absent and is stored; an invalidation
    that succeeds removes the manifest it names; a renewal changes nothing but the
    URL and its expiry of the manifest it names; and an operation that failed
    wrote at most what it would have written. *)
Theorem s3_repository_atomic s y :
  store_ok s → rtc (pool_step s3_handle s3_starts) (mkPool s []) y →
  ∃ f ats, rtc spec_step (abs s, []) (f, ats) ∧ f ≡ abs (shared y) ∧ length ats = length (threads y) ∧
    ∀ i p op, threads y !! i = Some (p, op) → ∃ st, ats !! i = Some (op, st) ∧ ∀ a, p = Ret a → st = Some a.
Proof.
  intros Hs Hy. assert (∃ z, rtc spec_step (abs s, []) z ∧ matches y z) as ([f ats] & Hz & Hm).
  { assert (matches (mkPool s []) (abs s, [])) as Hinit by by split.
    revert Hinit. generalize (abs s, @nil (repo_op * option repo_answer)). induction Hy as [x|x x' y Hx _ IH]; intros z Hm.
    - by exists z.
    - destruct (matches_step _ _ _ Hm Hx) as (z' & Hz' & Hm'). destruct (IH z' Hm') as (z2 & Hz2 & Hm2).
      exists z2. split; [by etrans|done]. }
  exists f, ats. split; [done|]. destruct Hm as [_ Habs Hlen Hth]. split_and!; [done|done|].
  intros i p op Hi. destruct (Hth _ _ _ Hi) as (st & Hat & Heff). exists st. split; [done|]. by intros a ->.
Qed.
End refinement.

(** * Times that JSON does not keep *)

(** A manifest whose retention time changes on its way through JSON cannot be
    renewed by the process that committed it: what it remembers is the manifest as
    it was, every renewal starts from what the store holds, and the comparison of
    the two refuses the renewal, whatever the new address. *)
Theorem inexact_time_refuses_renewal m stored url t : same_but_times stored m →
  json_float_eq (mf_retain_until m) (mf_retain_until stored) = false →
  validate_renewal m (with_url stored url (Some t)) =
  value_error "catalog URL renewal changed immutable publication metadata".
Proof.
  intros Hsame Ht. unfold validate_renewal. destruct Hsame as (_ & Hid & _). cbn [mf_manifest_id with_url].
  rewrite bool_decide_true by done. unfold same_manifest. cbn [mf_retain_until with_url]. rewrite Ht.
  rewrite !andb_false_r. done.
Qed.

(** The float next to a time of today, a quarter of a microsecond later, is such a
    change. *)
Example neighbouring_times_differ :
  json_float_eq (Some (f64_div (f64_of_Z 17640000000000000) (f64_of_Z 10000000)))
    (Some (f64_div (f64_of_Z 17640000000000002) (f64_of_Z 10000000))) = false.
Proof. vm_compute. reflexivity. Qed.

(** * Two processes that commit to one key at once

    With a renewal that the float arithmetic of JSON makes fail. *)

(** JSON that drops the times. *)
#[local] Instance Ser_Z : Ser Z :=
  ser_via (λ z, (z <? 0, Z.abs_nat z)) (λ x : bool * nat, if x.1 then - Z.of_nat x.2 else Z.of_nat x.2)
    ltac:(abstract (intros z; cbn; destruct (Z.ltb_spec z 0); lia)).

Definition manifest_fields (m : Manifest) : list string * (option string * option string) * (bool * list Z) :=
  ([mf_cache_key m; mf_manifest_id m; mf_protocol_name m; mf_wire_revision m; mf_contract_hash m; mf_codec_revision m;
    mf_sha256 m; mf_url m], (mf_etag m, mf_object_id m),
   (mf_stable m, [mf_catalog_version m; mf_raw_size m; mf_stored_size m; mf_format_version m; mf_validator_revision m])).
Definition manifest_of_fields (x : list string * (option string * option string) * (bool * list Z)) : option Manifest :=
  match x with
  | ([k; i; p; w; c; d; s; u], (e, o), (st, [v; rs; ss; f; vr])) => Some (mkManifest k i p w c d v e s rs ss u o None None st f vr)
  | _ => None
  end.

#[local] Instance timeless_json : ManifestJson := {|
  manifest_to_json m := Ok (x01 :: ser (manifest_fields m));
  manifest_of_json b :=
    if bool_decide (b = tombstone) then DocTombstone
    else match b with
         | x01 :: b => match de b with
                       | Some (x, []) => match manifest_of_fields x with Some m => DocManifest m | None => DocBad "fields" end
                       | _ => DocBad "syntax"
                       end
         | _ => DocBad "syntax"
         end;
|}.
#[local] Instance timeless_json_laws : ManifestJsonLaws.
Proof.
  split.
  - intros m. eexists. reflexivity.
  - intros m b Hb. assert (b = x01 :: ser (manifest_fields m)) as -> by (cbn [manifest_to_json timeless_json] in Hb; congruence).
    cbn [manifest_of_json timeless_json]. rewrite bool_decide_false by (intros Heq; discriminate Heq).
    pose proof (de_ser (manifest_fields m) []) as Hde. rewrite app_nil_r in Hde. rewrite Hde.
    eexists. split; [reflexivity|]. by destruct m.
  - cbn [manifest_of_json timeless_json]. by rewrite bool_decide_true.
Qed.
(** Versions as S3 makes them: of the content alone. *)
#[local] Instance content_versions : S3Versions := {| etag_of b _ := string_of_bytes b |}.
#[local] Instance content_versions_laws : S3VersionsLaws.
Proof.
  split. intros b n b' n' Heq. apply (f_equal as_bytes) in Heq. cbn [etag_of content_versions] in Heq.
  by rewrite !as_bytes_of_bytes in Heq.
Qed.

(** * Two commits *)

Definition reply (A : Type) (e : s3 A) (s : S3Store) (l : repo_op) : option (A * S3Store * repo_op) :=
  match e in s3 A return option (A * S3Store * repo_op) with
  | GetObject bk key max =>
      let o := objects s !! (bk, key) in
      if match o with Some (b, _) => Z.of_nat (length b) <=? max | None => true end then Some (Ok o, s, l) else None
  | PutObject bk key b _ _ c =>
      let holds := match c with
                   | Unconditional => true
                   | Absent => bool_decide (objects s !! (bk, key) = None)
                   | Matches e => bool_decide (snd <$> objects s !! (bk, key) = Some e)
                   end in
      if holds then Some (Ok true, written s (bk, key) b, l) else Some (Ok false, s, l)
  | PresignGet _ _ _ => Some (Ok "https://signed", s, l)
  | S3Now => Some (S754_zero false, s, l)
  | S3Random => Some (7, s, l)
  | InsertLocation _ _ => Some (tt, s, l)
  | RemoveLocation _ => Some (None, s, l)
  end.
Lemma s3_reply_handle A (e : s3 A) s l a s' l' : reply A e s l = Some (a, s', l') → s3_handle A e s l a s' l'.
Proof.
  destruct e; cbn; try (intros [= <- <- <-]; done).
  - case_match eqn:Hm; [|done]. intros [= <- <- <-]. split_and!; [done|done|done|]. intros b e Ho. rewrite Ho in Hm. lia.
  - case_match eqn:Hm; intros [= <- <- <-]; (split; [done|]); (split; [|done]); destruct condition; cbn in *;
      rewrite ?bool_decide_eq_true, ?bool_decide_eq_false in Hm; done.
Qed.

Definition example_repository : S3Repository := mkS3Repository "b" "p/" "s3" 300 3600.
Definition manifest_with (id : string) : Manifest :=
  mkManifest "k" id VGI_PROTOCOL_NAME WIRE contract_hash CODEC 7 (Some "e1") "d" 10 10 "https://u" (Some "p/objects/1.arrow")
    None (Some (f64_of_Z 4000)) false 1 1.
Definition example_hex (z : Z) : string := Z_to_string z.
Definition no_zstd (b : bytes) : result bytes string := Err "unsupported".
Abbreviation run_op := (run_repo example_hex no_zstd string_of_bytes example_repository).
Abbreviation example_starts := (s3_starts example_hex no_zstd string_of_bytes example_repository).

(** Both load and find nothing; the first writes; the second conflicts, loads again
    and returns what the first wrote. *)
Definition commit_of (id : string) : repo_op := RCommit (manifest_with id).
Definition first_load := exec_n reply 1 (run_op (commit_of "A")) (mkS3Store ∅ 0) (commit_of "A").
Definition second_load := exec_n reply 1 (run_op (commit_of "B")) (mkS3Store ∅ 0) (commit_of "B").
Definition first_write := match first_load with Some (q, s, l) => exec reply q s l | None => None end.
Definition second_write :=
  match second_load, first_write with Some (q, _, l), Some (_, s, _) => exec reply q s l | _, _ => None end.
Definition race : pool (E := s3) (S := S3Store) (L := repo_op) repo_answer :=
  match first_write, second_write with
  | Some (a, _, l), Some (a', s, l') => mkPool s [(Ret a, l); (Ret a', l')]
  | _, _ => mkPool (mkS3Store ∅ 0) []
  end.

Lemma first_load_keeps : match first_load with Some (_, s, _) => bool_decide (objects s = ∅ ∧ writes s = 0%nat) | None => false end = true.
Proof. vm_compute. reflexivity. Qed.
Lemma second_load_keeps : match second_load with Some (_, s, _) => bool_decide (objects s = ∅ ∧ writes s = 0%nat) | None => false end = true.
Proof. vm_compute. reflexivity. Qed.

Lemma race_reachable : rtc (pool_step s3_handle example_starts) (mkPool (mkS3Store ∅ 0) []) race.
Proof.
  pose proof first_load_keeps as K1. pose proof second_load_keeps as K2. unfold race.
  destruct first_write as [[[a s1] l1]|] eqn:E1; [|done]. destruct second_write as [[[a' s2] l2]|] eqn:E2; [|done].
  unfold second_write in E2. rewrite E1 in E2. unfold first_write in E1.
  destruct first_load as [[[q s] l]|] eqn:F1; [|done]. destruct second_load as [[[q' s'] l']|] eqn:F2; [|done].
  apply bool_decide_eq_true in K1 as [Ho Hw], K2 as [Ho' Hw']. destruct s as [os ws], s' as [os' ws']. cbn in Ho, Hw, Ho', Hw'. subst.
  eapply rtc_l; [apply (step_spawn s3_handle example_starts _ [] (run_op (commit_of "A"), commit_of "A")); done|].
  eapply rtc_l; [apply (step_spawn s3_handle example_starts _ [_] (run_op (commit_of "B"), commit_of "B")); done|]. cbn [app].
  etrans; [exact (exec_n_steps s3_handle reply s3_reply_handle example_starts _ _ _ _ _ _ _ [] [_] F1)|].
  etrans; [exact (exec_n_steps s3_handle reply s3_reply_handle example_starts _ _ _ _ _ _ _ [(q, l)] [] F2)|].
  etrans; [exact (exec_steps s3_handle reply s3_reply_handle example_starts _ _ _ _ _ _ [] [(q', l')] E1)|].
  exact (exec_steps s3_handle reply s3_reply_handle example_starts _ _ _ _ _ _ [(Ret a, l1)] [] E2).
Qed.

Lemma empty_store_ok : store_ok example_repository (mkS3Store ∅ 0).
Proof.
  split.
  - intros k b e Hk. cbn in Hk. by rewrite lookup_empty in Hk.
  - intros key m. unfold abs. cbn. by rewrite lookup_empty.
Qed.

(** What the two callers were told. *)
Definition told (t : prog s3 repo_answer * repo_op) : option string :=
  match t.1 with Ret (ACommit (Ok m)) => Some (mf_manifest_id m) | _ => None end.

Lemma s3_repository_atomic_witness :
  told <$> threads race = [Some "A"; Some "A"] ∧
  ∃ f ats, rtc spec_step (abs example_repository (mkS3Store ∅ 0), []) (f, ats) ∧ f ≡ abs example_repository (shared race) ∧
    length ats = 2%nat.
Proof.
  split; [vm_compute; reflexivity|].
  destruct (s3_repository_atomic example_hex no_zstd string_of_bytes example_repository (mkS3Store ∅ 0) race empty_store_ok race_reachable)
    as (f & ats & H1 & H2 & H3 & _).
  exists f, ats. split; [exact H1|]. split; [exact H2|]. rewrite H3. vm_compute. reflexivity.
Defined.
